(* ===== verification/_CoqProject ===== *)
-Q . S2P
Prelude.v
BTree.v
Chrono.v
Timing.v
Params.v
Proposal.v
DisputedTx.v
Types.v
Functions.v
LedgerTrie.v
TrieInvariant.v
RclLedger.v
TrieInsert.v
TrieRemove.v
TriePrefix.v
TrieQuery.v
TrieTheorems.v
Validations.v
ValidationsInv.v
ValidationsTheorems.v
Stateful.v
Consensus.v
ConsensusInv.v
ConsensusSafe.v
ConsensusEstablish.v
ConsensusTheorems.v
RangeSet.v
Censorship.v
LoadFee.v
VoteTxSet.v
FeeVote.v
NegativeUnl.v
Serializer.v
ShaMapNodeId.v
ShaMap.v
ShaMapRep.v
ShaMapSteps.v
ShaMapOps.v
ShaMapDelete.v
ShaMapFlush.v
ShaMapForest.v
ShaMapTheorems.v
ShaMapArrays.v
ShaMapWire.v
Resource.v
ResourceInv.v
ResourceTheorems.v
Amendment.v
AmendmentTheorems.v
TxQTypes.v
TxQMetrics.v
TxQMetricsTheorems.v
TxQViews.v
TxQInv.v
TxQOps.v
TxQAccept.v
TxQAcceptInv.v
TxQAcceptSettled.v
TxQAcceptTheorems.v
TxQueue.v
TxQueueTheorems.v
TxQApplyRules.v
TxQApply.v
TxQApplyTheorems.v
TxQLifecycle.v
TxQTryClear.v
Number.v
NumberRound.v
NumberSpec.v
NumberNormal.v
NumberSum.v
NumberTheorems.v
IouAmount.v
IouRounding.v
StAmount.v
Quality.v
AmountFacts.v
QualityFacts.v
AmountTheorems.v
QualityTheorems.v
