(* ===== verification/Prelude.v ===== *)
(** * Verification of the Quaxar ledger node

    Quaxar is a Rust node of the XRP Ledger. This development models the parts of
    it that decide what the network agrees on, and proves what makes them
    correct. Paths are relative to [src/].

    ** The program and its parts

    A node keeps a last closed ledger. While the next one is open it collects
    transactions; when the ledger closes it proposes a transaction set, exchanges
    proposals with its peers, votes on the transactions in dispute until enough
    peers agree, and builds the next ledger ([xrpld/consensus/src/algorithm]).
    Validators then sign what they built; each node counts the validations of the
    validators it trusts in a trie of ledger histories and prefers the branch with
    most support ([xrpld/consensus/src/rcl_support], [xrpld/consensus/src/model]).
    On every 256th ledger validators also vote on fees, on amendments and on the
    negative list of unreliable validators ([xrpld/app/src/load/fee_vote.rs],
    [xrpld/app/src/amendments]). Transactions that do not pay what a busy open ledger
    asks for wait in a queue ordered by fee, and go in when the next ledger opens
    ([xrpld/app/src/tx_queue], [xrpld/tx/src/utility/queue_*.rs]); what peers and
    clients cost the node is charged to them ([xrpl/resource]). Everything hashed or sent is
    in one binary form ([xrpl/protocol/src/serialization/serializer.rs]), and ledger
    state and transaction sets are radix trees whose root hash is what the network
    agrees on ([xrpl/shamap]). Amounts are native, issued or token amounts
    ([xrpl/protocol/src/amounts]), computed with a decimal floating point number
    ([xrpl/basics/src/math/number.rs]); the price of an offer is a 64 bit key that the
    book sorts by.

    ** Files

    - [Prelude]: machine integers as [Z] with their wrap-around, the [outcome]
      monad ([Ok], [Panic], [OutOfFuel]), orders and hash iteration order, shared
      lemmas, the tactic [machine] and the hint databases.
    - [Chrono] ([xrpl/basics/src/time/chrono.rs]), [Timing]
      ([algorithm/timing.rs]), [Params] ([algorithm/params.rs]), [Types]
      ([algorithm/types.rs]), [Proposal] ([model/proposal.rs]), [DisputedTx]
      ([model/disputed_tx.rs]), [Functions] ([algorithm/functions.rs]): the data and
      the decisions of consensus, each with its theorems.
    - [Stateful]: handlers as computations on a state, and the
      weakest-precondition rules their proofs use.
    - [Consensus] ([algorithm/consensus.rs]): the consensus state machine, every
      handler. [ConsensusInv], [ConsensusSafe], [ConsensusEstablish]: its invariant and its preservation by each handler;
      [ConsensusTheorems]: the public operations as a step relation, what holds in
      every reachable state, and a concrete application.
    - [LedgerTrie] ([model/ledger_trie.rs]): the arena and every operation.
      [TrieInvariant], [TrieInsert], [TrieRemove], [TriePrefix],
      [TrieQuery]: its invariant, preservation, and queries; [TrieTheorems].
      [RclLedger] ([xrpld/app/src/consensus/rcl_validation.rs]): the ledger type the
      trie is used with.
    - [Validations] ([rcl_support/validations.rs]): the validation tracker on top of
      the trie; [ValidationsInv], [ValidationsTheorems].
    - [RangeSet] ([xrpl/basics/src/collections/range_set.rs]): sets of ledger
      sequences with their string form.
    - [Censorship] ([xrpld/app/src/consensus/censorship_detector.rs]), [LoadFee]
      ([xrpl/basics/src/math/mul_div.rs], [xrpld/app/src/load/load_fee_track.rs]),
      [VoteTxSet] ([xrpld/app/src/tx_queue/vote_tx_set.rs] and the native part of
      [xrpl/protocol/src/amounts/st_amount.rs]), [FeeVote], [NegativeUnl]: the
      voting helpers around consensus.
    - [Resource] ([xrpl/resource/src/core/types.rs], [api/manager.rs]): consumers,
      charges, gossip and expiry; [ResourceInv]: the critical sections of all threads
      as one transition system; [ResourceTheorems].
    - [Amendment] ([xrpld/app/src/amendments/amendment_status.rs], the feature table
      and [xrpld/tx/src/account/change.rs]): the amendment table, the vote, and the
      pseudo-transactions that carry it out; [AmendmentTheorems].
    - [BTree]: ranges of ordered maps, used by the trie and the transaction queue.
    - The transaction queue. [TxQTypes]: sequences and tickets, queued transactions, account queues, the two views. [TxQMetrics]
      ([queue_fee_metrics.rs], [txq_setup.rs]): ledger size estimate and fee
      escalation; [TxQMetricsTheorems]. [TxQViews] ([queue_views.rs],
      [queue_advance.rs], [queue_closed_ledger.rs], [queue_apply_enqueue.rs],
      [queue_apply_full_queue.rs]): the operations on the views; [TxQInv], [TxQOps]:
      the agreement of the views and what each operation does. [TxQAccept]
      ([queue_accept.rs]): filling the open ledger, as one loop and as a machine the
      caller resumes; [TxQAcceptInv], [TxQAcceptSettled],
      [TxQAcceptTheorems]. [TxQueue] ([txq.rs]): the owner, closed
      ledgers and queries; [TxQueueTheorems]. [TxQApplyRules], [TxQApply]
      ([queue_rules.rs], [queue_direct_apply.rs], [queue_apply_*.rs]): a submitted
      transaction; [TxQApplyTheorems]. [TxQLifecycle]: all operations
      as a step relation. [TxQTryClear] ([queue_try_clear.rs]): clearing an account's
      queue ahead of a transaction.
    - [Serializer]: the binary form and its reader.
    - Numbers and amounts. [Number] ([xrpl/basics/src/math/number.rs]): scales, guard
      digits, normalization, the four operations, integers, powers and roots.
      [NumberRound]: the guard as the remainder of what was dropped; [NumberSpec]: the
      value of a number as a rational and what correct rounding means, for any set of
      representable values; [NumberNormal] (normalization, product, quotient) and
      [NumberSum] (sum, difference, order, integers): each operation meets it;
      [NumberTheorems]. [IouAmount] ([amounts/iou_amount.rs] and its modules): issued
      amounts; [IouRounding]: their conversions, sums and order. [StAmount]
      ([st_amount.rs], [amount_support.rs], [xrp_amount.rs], [mpt_amount.rs],
      [ledger/issue.rs]): native and token amounts, and amounts of any asset;
      [AmountFacts]: canonical amounts, canonicalization, order, wire form, sums;
      [AmountTheorems]. [Quality] ([quality.rs], [rate.rs]): products and quotients,
      keys, cuts of an offer; [QualityFacts],
      [QualityTheorems].
    - [ShaMapNodeId] ([xrpl/shamap/src/nodes/node_id.rs]): positions in the radix tree.
      [ShaMap] ([xrpl/shamap/src/operations/mutation.rs], [operations/search.rs],
      [nodes/tree_node.rs]): the mutable tree with copy-on-write nodes in a shared
      store. [ShaMapRep]: the contents a tree represents, the cells it owns, the hash
      of contents; [ShaMapSteps], [ShaMapOps], [ShaMapDelete],
      [ShaMapFlush]: descent, relinking, insertion, update, deletion, snapshots and
      flushing; [ShaMapForest]: any number of trees over one store against plain
      maps; [ShaMapTheorems]. [ShaMapArrays]: the packed arrays of an inner node.
      [ShaMapWire]: nodes as bytes.

    ** How the code is translated

    A struct is a record, an enum an inductive type, a method a function of the
    same name. [&mut self] is state passing: a function to the next state, or a
    handler of [Stateful] where a method calls out. A trait is a type class
    ([TrieLedger], [ConsensusTxSet], [ConsensusAdaptor], [ValidationsAdaptor],
    [VoteTxSet], [NegativeUNLVoteValidations]); what the code relies on from its
    implementors is a second class of laws, and the theorems are proved against
    the interface. An integer is a [Z] in its range; unchecked arithmetic wraps as
    in release builds, [saturating_*] and [checked_*] are written out; [expect],
    [assert!], [debug_assert!], indexing and division by zero give [Panic]. [HashMap] and [HashSet]
    are [gmap] and [gset]: iteration goes through the class [HashOrder], an
    arbitrary permutation, so no theorem depends on an order. Logging, metrics and
    locks are dropped: an operation under one lock is one step.

    ** What the theorems show

    - Consensus: no sequence of rounds, proposals, acquired sets and timer ticks
      makes the state machine panic, and a tick returns; the disputes are exactly
      the transactions on which the compared sets differ and each peer's recorded
      vote is what its set says; our proposals carry increasing sequence numbers;
      a round is accepted only when consensus was decided; the decision functions
      follow the stated thresholds and two quorums intersect.
    - Trie and validations: from the empty trie, any insertions and removals keep
      the structure consistent. On ledgers that know their ancestry back to one common
      ancestor (class [HistoryLaws]; families of validated ledgers whose skip lists
      reach it, [skip_lists_reach]) the trie refines the plain table of supports and the
      tracker's trie always counts exactly the validators' last acquired ledgers; a
      ledger that lags behind the others' skip lists can split the support of another
      ([lagging_ledger_splits_support]). The preferred ledger is the end of the walk
      specified by [prefers]; a validator's sequence numbers increase.
    - Voting: fee votes elect the most voted value between the current and the
      target fee; validators that take part in the negative-list vote and have heard the
      same validations cast the same vote, which only touches
      unreliable listed validators within the limit, and spares new ones; the
      censorship detector refines the map of first proposals; load factors stay
      bounded and decay.
      Amendments are enabled only after they held their majority for the whole waiting
      time, what a vote proposes always applies, and the vote is exactly the stated
      function of the recorded validations.
    - Transaction queue: for as long as the node runs the account map and the fee order
      describe the same transactions, in fee order; filling the open ledger ends, tries
      in order only what pays the level asked for at that moment, and leaves only what
      was tried or pays too little; the loop and the resumable machine agree; a
      submitted transaction is applied, queued (with at most one eviction from a full
      queue) or refused without effect, and no branch panics; closed ledgers drop
      exactly the expired transactions; with a positive base fee the reported fee is the
      least that suffices, and the fee filled into a transaction is the same rounded down.
      All of this needs an expected ledger size of at least 1; a configured minimum of 0
      makes the queue panic ([zero_minimum_panics]).
    - Resources: whatever the interleaving of threads, the reference counts, lists and
      remote balances of the resource manager are exact; charges follow the stated
      decay, which stops when a consumer is touched more than once a second.
    - Data: range sets are canonical, their text parses back; every object written
      in binary form is read back, length headers are unique; on arbitrary bytes every
      read moves forward inside the data by a stated number of bytes, or panics exactly
      where a length header or a raw read asks for more than is left.
    - Numbers: at the scale [Large330] sum, difference, product and quotient
      return the correctly rounded exact result in each of the four modes, which the
      older scales do not ([older_scales_miss_the_gap]); comparison is
      the order of the values, and conversion to an integer rounds in the mode.
    - Amounts: canonicalizing an amount of bounded exponent rounds it correctly, except
      that integral amounts of 20 digits or more below one become zero in every mode, or
      reports the range error of its asset; a canonical amount is read back from its wire
      form; the order is the order of the values; native and token sums are exact, and
      beyond i64 throw or wrap as the amendment says; issued sums are faithful at
      [Large330]. Multiplying an issued amount by an integer sees 32 bits of it.
    - Offer rates: a key decodes to its rate and sorts like it; an offer of native or
      issued amounts cut strictly to a limit and rounded down gives the greatest amount
      that its rate allows; a cut between tokens and issued amounts need not
      ([token_cut_exceeds_rate]).
    - SHAMap: trees that share nodes through snapshots behave as independent maps
      under any sequence of operations on items of at least 12 bytes, and no call panics; the root hash of a
      flushed tree is a function of its contents, so it does not depend on the
      history; errors leave the tree as it was; the packed arrays of an inner node
      are a map; nodes and node names are read back from their bytes, and the digest of
      a node's stored form is its hash.

    ** Bounds and fuel

    In consensus, the trie and the text forms only four loops do not recurse on a
    shrinking structure: the walk up the trie's parents and [compress] (fuel: the
    number of nodes, shown to be enough by the invariant), [get_preferred] (the
    same), the mutual recursion
    [timer_entry] - [check_ledger] - [handle_wrong_ledger] - [start_round_internal]
    (theorem [consensus_terminates]: it ends for every application whose
    preferred ledger settles), and the ten digits of a printed [u32].
    Filling the open ledger takes at most n(n+2)+1 iterations on a queue of n
    transactions (theorem [accept_terminates]; fuel [enough_fuel]).
    The digit loops of numbers and amounts run on a 64 or 128 bit mantissa; their fuel
    (at most 40 turns) is shown to be enough by the rounding theorems, which exclude
    [RFuel]. Exponent loops take as many turns as the difference of the exponents says.
    The theorems on amounts suppose an exponent between -150000 and 100000; every amount
    the code builds has one between -300 and 300.

    In the SHAMap a walk goes at most 64 levels down, so 65 steps are enough for the
    descent, the split of a leaf and the search for a sole leaf; the flush loop takes
    its fuel as an argument and the theorems say that some number of turns suffices
    and that more does not change the result.

    ** Not modelled

    Peer networking and sessions, RPC, storage back ends, databases and metrics
    are input and output. Transaction application (transactors, payment paths,
    offer crossing, lending), the text and JSON forms of numbers, amounts and assets,
    ledger acquisition, the SHAMap's traversal, synchronisation and storage layers (and
    within the mutable tree the variants that fetch nodes from storage), validator
    lists and manifests, and the caches are program logic that is not yet modelled;
    they are listed as components in the manifest. Around the transaction queue, the
    wrappers that only pass locks, log sinks and ledger sources along are not modelled;
    preflight, preclaim and the application of a transaction are the caller's. Hashing
    and signatures come from external crates and are parameters.

    ** Plan

    Next in order: the SHAMap's traversal, comparison and proof paths, offer crossing on
    top of [Quality], the tagged caches, validator lists and manifests. *)

From stdpp Require Export base gmap sets list option numbers sorting.
From Stdlib Require Export ZArith Lia.

#[global] Open Scope Z_scope.

(** ** Machine integers

    A Rust integer of width [w] is a [Z]; arithmetic that the source leaves
    unchecked is written with the two's-complement wrap-around of the release
    profile, and [saturating_*] calls with the saturating functions. *)

Module Machine.

Definition u32_modulus : Z := 4294967296.
Definition u64_modulus : Z := 18446744073709551616.
Definition u32_max : Z := 4294967295.
Definition u64_max : Z := 18446744073709551615.
Definition i32_min : Z := -2147483648.
Definition i32_max : Z := 2147483647.

Definition wrap_u32 (z : Z) : Z := z mod u32_modulus.
Definition wrap_u64 (z : Z) : Z := z mod u64_modulus.
Definition wrap_i32 (z : Z) : Z := (z + 2147483648) mod u32_modulus - 2147483648.
Definition wrap_i64 (z : Z) : Z :=
  (z + 9223372036854775808) mod u64_modulus - 9223372036854775808.

Definition sat_u32 (z : Z) : Z := Z.max 0 (Z.min z u32_max).
Definition sat_u64 (z : Z) : Z := Z.max 0 (Z.min z u64_max).

Definition in_u32 (z : Z) : Prop := 0 <= z <= u32_max.
Definition in_u64 (z : Z) : Prop := 0 <= z <= u64_max.
Definition in_i32 (z : Z) : Prop := i32_min <= z <= i32_max.

(** [u32::try_from] of a wider integer. *)
Definition u32_try_from (z : Z) : option Z :=
  if (0 <=? z) && (z <=? u32_max) then Some z else None.

(** [i32::try_from] of a [usize]. *)
Definition i32_try_from (z : Z) : option Z :=
  if (i32_min <=? z) && (z <=? i32_max) then Some z else None.

End Machine.
Export Machine.

Create HintDb machine.
#[global] Hint Unfold in_u32 in_u64 in_i32 u32_max u64_max u32_modulus u64_modulus
  i32_min i32_max : machine.

(** Linear arithmetic over machine integers: unfold the widths, turn [/] and
    [mod] into their defining equations. *)
Ltac machine :=
  autounfold with machine in *;
  unfold wrap_u32, wrap_u64, wrap_i32, wrap_i64, sat_u32, sat_u64 in *;
  autounfold with machine in *;
  Z.to_euclidean_division_equations; lia.

Lemma wrap_u32_id z : in_u32 z -> wrap_u32 z = z.
Proof. unfold in_u32, wrap_u32, u32_max, u32_modulus. intros. apply Z.mod_small. lia. Qed.

Lemma wrap_u64_id z : in_u64 z -> wrap_u64 z = z.
Proof. unfold in_u64, wrap_u64, u64_max, u64_modulus. intros. apply Z.mod_small. lia. Qed.

Lemma wrap_i32_id z : in_i32 z -> wrap_i32 z = z.
Proof.
  unfold in_i32, wrap_i32, i32_min, i32_max, u32_modulus. intros.
  rewrite Z.mod_small; lia.
Qed.

Lemma wrap_i64_id z : -9223372036854775808 <= z <= 9223372036854775807 -> wrap_i64 z = z.
Proof. unfold wrap_i64, u64_modulus. intros. rewrite Z.mod_small; lia. Qed.

Lemma wrap_u32_range z : in_u32 (wrap_u32 z).
Proof.
  unfold in_u32, wrap_u32, u32_max, u32_modulus.
  pose proof (Z.mod_pos_bound z 4294967296 eq_refl). lia.
Qed.

Lemma u32_try_from_Some z y : u32_try_from z = Some y <-> y = z /\ in_u32 z.
Proof.
  unfold u32_try_from, in_u32.
  destruct (Z.leb_spec 0 z), (Z.leb_spec z u32_max); simpl;
    split; intros; try (destruct_and?); simplify_eq; split_and?; try lia; done.
Qed.

Create Rewrite HintDb machine.
#[global] Hint Rewrite wrap_u32_id wrap_u64_id wrap_i32_id using machine : machine.

(** ** Outcomes of running Rust code

    [Panic] is a failed [expect], an index out of range, a division by zero or
    an overflowing [Duration] addition; [OutOfFuel] only says that the fuel
    given to a loop of the model was too small. *)

Inductive outcome (A : Type) : Type :=
| Ok (a : A)
| Panic
| OutOfFuel.
Arguments Ok {A} _.
Arguments Panic {A}.
Arguments OutOfFuel {A}.

#[global] Instance outcome_ret : MRet outcome := fun A a => Ok a.
#[global] Instance outcome_bind : MBind outcome := fun A B f m =>
  match m with
  | Ok a => f a
  | Panic => Panic
  | OutOfFuel => OutOfFuel
  end.

(** [Option::expect] and indexing. *)
Definition expect {A} (o : option A) : outcome A :=
  match o with Some a => Ok a | None => Panic end.

(** [assert!] and [debug_assert!]: a failed assertion panics.  The model is that
    of a build with the debug assertions in. *)
Definition assert_that (b : bool) : outcome unit := if b then Ok tt else Panic.

(** Monadic left fold: a [for] loop over a snapshot of a collection. *)
Fixpoint foldM {A B} (f : A -> B -> outcome A) (a : A) (l : list B) : outcome A :=
  match l with
  | [] => Ok a
  | x :: l' => a' ← f a x; foldM f a' l'
  end.

Lemma bind_Ok {A B} (m : outcome A) (f : A -> outcome B) b :
  (m ≫= f) = Ok b <-> exists a, m = Ok a /\ f a = Ok b.
Proof. destruct m; simpl; naive_solver. Qed.

(** A loop whose body keeps [P] returns and keeps [P]. *)
Lemma foldM_inv {A B} (P : A -> Prop) (f : A -> B -> outcome A) (l : list B) a :
  (forall a x, x ∈ l -> P a -> exists a', f a x = Ok a' /\ P a') ->
  P a -> exists a', foldM f a l = Ok a' /\ P a'.
Proof.
  revert a. induction l as [|x l IH]; intros a Hf Ha; simpl; [eauto|].
  destruct (Hf a x ltac:(left) Ha) as (a1 & -> & Ha1). simpl.
  apply IH; [|done]. intros a' y Hy. apply Hf. by right.
Qed.

(** The same with the part of the list already visited. *)
Lemma foldM_prefix {A B} (P : list B -> A -> Prop) (f : A -> B -> outcome A) (l : list B) a :
  (forall seen x rest a, l = seen ++ x :: rest -> P seen a ->
     exists a', f a x = Ok a' /\ P (seen ++ [x]) a') ->
  P [] a -> exists a', foldM f a l = Ok a' /\ P l a'.
Proof.
  intros Hf. assert (forall rest seen a, l = seen ++ rest -> P seen a ->
    exists a', foldM f a rest = Ok a' /\ P l a') as G; [|by apply (G l [])].
  induction rest as [|x rest IH]; intros seen a' -> Ha.
  - exists a'. rewrite app_nil_r. done.
  - destruct (Hf seen x rest a' eq_refl Ha) as (a'' & E & Ha''). simpl. rewrite E. simpl.
    apply (IH (seen ++ [x])); [by rewrite <- app_assoc | done].
Qed.

Lemma expect_Ok {A} (o : option A) a : expect o = Ok a <-> o = Some a.
Proof. destruct o; simpl; naive_solver. Qed.

Lemma assert_that_Ok b u : assert_that b = Ok u <-> b = true.
Proof. destruct b, u; simpl; naive_solver. Qed.

(** Peel the [bind]s off a computation known to return. *)
Ltac inv_outcome :=
  repeat match goal with
  | H : mret _ = Ok _ |- _ => injection H as H
  | H : Ok _ = Ok _ |- _ => injection H as H
  | H : (_ ≫= _) = Ok _ |- _ =>
      apply bind_Ok in H; let a := fresh "r" in let E := fresh "E" in
      destruct H as (a & E & H)
  | H : expect _ = Ok _ |- _ => apply expect_Ok in H
  | H : assert_that _ = Ok _ |- _ => apply assert_that_Ok in H
  end; simplify_eq/=.

(** ** Total orders, as the [Ord] bounds of the source *)

Class TotalOrd (A : Type) := ord_ltb : A -> A -> bool.

Class TotalOrdLaws (A : Type) `{!TotalOrd A} : Prop := {
  ord_irrefl : forall a, ord_ltb a a = false;
  ord_trans : forall a b c, ord_ltb a b = true -> ord_ltb b c = true -> ord_ltb a c = true;
  ord_total : forall a b, ord_ltb a b = false -> ord_ltb b a = false -> a = b
}.

Definition ord_leb `{TotalOrd A} (a b : A) : bool := negb (ord_ltb b a).

#[global] Instance Z_ord : TotalOrd Z := Z.ltb.
#[global] Instance Z_ord_laws : TotalOrdLaws Z.
Proof.
  split; unfold ord_ltb, Z_ord; intros.
  - apply Z.ltb_irrefl.
  - rewrite Z.ltb_lt in *. lia.
  - rewrite Z.ltb_ge in *. lia.
Qed.

(** Lexicographic order on pairs, as Rust's derived order on tuples. *)
#[global] Instance pair_ord `{TotalOrd A, TotalOrd B} : TotalOrd (A * B) := fun x y =>
  ord_ltb x.1 y.1 || (negb (ord_ltb y.1 x.1) && ord_ltb x.2 y.2).

#[global] Instance pair_ord_laws `{TotalOrdLaws A, TotalOrdLaws B} : TotalOrdLaws (A * B).
Proof.
  split; unfold ord_ltb, pair_ord.
  - intros [a b]. simpl. by rewrite !ord_irrefl.
  - intros [a1 b1] [a2 b2] [a3 b3]. simpl. intros H12 H23.
    apply orb_true_iff in H12 as [H12|[H12 H12']%andb_true_iff];
      apply orb_true_iff in H23 as [H23|[H23 H23']%andb_true_iff];
      apply orb_true_iff; rewrite ?negb_true_iff in *.
    + left. eauto using ord_trans.
    + left. destruct (ord_ltb a2 a3) eqn:E; [eauto using ord_trans|].
      by rewrite <- (ord_total a2 a3).
    + left. destruct (ord_ltb a1 a2) eqn:E; [eauto using ord_trans|].
      by rewrite (ord_total a1 a2).
    + destruct (ord_ltb a1 a2) eqn:E1; [|rewrite (ord_total a1 a2) by done];
        (destruct (ord_ltb a2 a3) eqn:E2; [|rewrite <- (ord_total a2 a3) by done]).
      * left. eauto using ord_trans.
      * by left.
      * by left.
      * right. rewrite ord_irrefl. simpl. eauto using ord_trans.
  - intros [a1 b1] [a2 b2]. simpl. intros [H1 H1']%orb_false_iff [H2 H2']%orb_false_iff.
    rewrite H1, H2 in *. simpl in *. f_equal; by apply ord_total.
Qed.

Lemma ord_leb_total `{TotalOrdLaws A} (a b : A) : ord_leb a b = true \/ ord_leb b a = true.
Proof.
  unfold ord_leb. destruct (ord_ltb b a) eqn:E1, (ord_ltb a b) eqn:E2; auto.
  pose proof (ord_trans a b a E2 E1). by rewrite ord_irrefl in *.
Qed.

Lemma ord_leb_trans `{TotalOrdLaws A} (a b c : A) :
  ord_leb a b = true -> ord_leb b c = true -> ord_leb a c = true.
Proof.
  unfold ord_leb. rewrite !negb_true_iff. intros Hab Hbc.
  destruct (ord_ltb c a) eqn:E; [|done].
  destruct (ord_ltb b c) eqn:E2.
  - by rewrite (ord_trans b c a) in Hab.
  - by rewrite (ord_total b c), E in Hab.
Qed.

(** Stable sorting by a comparison, [sort_by] of a slice. *)
Section Sort.
Context {A : Type} (leb : A -> A -> bool).

Fixpoint insert_by (x : A) (l : list A) : list A :=
  match l with
  | [] => [x]
  | y :: l' => if leb x y then x :: y :: l' else y :: insert_by x l'
  end.

Definition sort_by (l : list A) : list A := foldr insert_by [] l.

Lemma insert_by_perm x l : insert_by x l ≡ₚ x :: l.
Proof.
  induction l as [|y l IH]; simpl; [done|].
  destruct (leb x y); [done|]. rewrite IH. constructor.
Qed.

Lemma sort_by_perm l : sort_by l ≡ₚ l.
Proof. induction l as [|x l IH]; simpl; [done|]. by rewrite insert_by_perm, IH. Qed.

Hypothesis leb_total : forall x y, leb x y = true \/ leb y x = true.
Hypothesis leb_trans : forall x y z, leb x y = true -> leb y z = true -> leb x z = true.

Lemma insert_by_sorted x l :
  StronglySorted (fun a b => leb a b = true) l ->
  StronglySorted (fun a b => leb a b = true) (insert_by x l).
Proof.
  induction 1 as [|y l Hs IH Hy]; simpl; [repeat constructor|].
  destruct (leb x y) eqn:E.
  - constructor; [by constructor|]. constructor; [done|].
    eapply Forall_impl; [exact Hy|]. eauto.
  - constructor; [done|]. rewrite insert_by_perm. constructor; [|done].
    destruct (leb_total x y); congruence.
Qed.

Lemma sort_by_sorted l : StronglySorted (fun a b => leb a b = true) (sort_by l).
Proof. induction l; simpl; [constructor | by apply insert_by_sorted]. Qed.
End Sort.

(** [Iterator::max_by]: the last of the greatest elements. *)
Definition max_by {A} (gtb : A -> A -> bool) (l : list A) : option A :=
  match l with
  | [] => None
  | x :: l' => Some (foldl (fun best y => if gtb best y then best else y) x l')
  end.

Lemma max_by_elem {A} (gtb : A -> A -> bool) l x : max_by gtb l = Some x -> x ∈ l.
Proof.
  destruct l as [|a l]; [done|]. intros [= <-]. revert a.
  induction l as [|b l IH]; intros a; simpl; [left|].
  destruct (gtb a b); [|right; apply IH].
  destruct (proj1 (elem_of_cons _ _ _) (IH a)) as [->|Hin]; [left | by do 2 right].
Qed.

Lemma max_by_greatest {A} (gtb : A -> A -> bool) l x y :
  (forall a b, gtb a b = true -> gtb b a = false) ->
  (forall a b c, gtb a b = false -> gtb b c = false -> gtb a c = false) ->
  max_by gtb l = Some x -> y ∈ l -> gtb y x = false.
Proof.
  intros Hasym Htr. destruct l as [|a l]; [done|]. intros [= <-].
  assert (forall a, gtb a a = false) as Hrefl.
  { intros b. destruct (gtb b b) eqn:E; [by rewrite (Hasym _ _ E) in E|done]. }
  revert a y. induction l as [|b l IH]; intros a y; simpl.
  { intros ->%list_elem_of_singleton. apply Hrefl. }
  intros Hy. destruct (gtb a b) eqn:E.
  - apply elem_of_cons in Hy as [->|[->|Hy]%elem_of_cons].
    + apply IH. left.
    + apply (Htr _ a); [by apply Hasym | apply IH; left].
    + apply IH. by right.
  - apply elem_of_cons in Hy as [->|Hy]; [|by apply IH].
    apply (Htr _ b); [done | apply IH; left].
Qed.

(** ** Iteration over collections

    A [BTreeMap] is a [gmap] iterated in key order.  The iteration order of a
    [HashMap] is unspecified: it is a parameter [hash_iter], any permutation
    of the entries, so that the theorems hold for every order. *)

Definition btree_iter `{Countable K, TotalOrd K} {V} (m : gmap K V) : list (K * V) :=
  sort_by (fun x y => ord_leb x.1 y.1) (map_to_list m).

Class HashOrder := {
  hash_iter : forall {K V : Type} `{Countable K}, gmap K V -> list (K * V);
  hash_iter_perm : forall (K V : Type) `{Countable K} (m : gmap K V),
    hash_iter m ≡ₚ map_to_list m;
  hash_set_iter : forall {K : Type} `{Countable K}, gset K -> list K;
  hash_set_iter_perm : forall (K : Type) `{Countable K} (s : gset K),
    hash_set_iter s ≡ₚ elements s
}.

(** The order used to run the model on concrete inputs. *)
Definition canonical_order : HashOrder := {|
  hash_iter := fun K V _ _ m => map_to_list m;
  hash_iter_perm := fun K V _ _ m => reflexivity _;
  hash_set_iter := fun K _ _ s => elements s;
  hash_set_iter_perm := fun K _ _ s => reflexivity _
|}.

Lemma elem_of_hash_iter `{!HashOrder} `{Countable K} {V} (m : gmap K V) k v :
  (k, v) ∈ hash_iter m <-> m !! k = Some v.
Proof. rewrite hash_iter_perm. apply elem_of_map_to_list. Qed.

Lemma elem_of_hash_set_iter `{!HashOrder} `{Countable K} (s : gset K) k :
  k ∈ hash_set_iter s <-> k ∈ s.
Proof. rewrite hash_set_iter_perm. apply elem_of_elements. Qed.

Lemma elem_of_btree_iter `{Countable K, TotalOrd K} {V} (m : gmap K V) k v :
  (k, v) ∈ btree_iter m <-> m !! k = Some v.
Proof. unfold btree_iter. rewrite sort_by_perm. apply elem_of_map_to_list. Qed.

Lemma elem_of_rev {A} (x : A) (l : list A) : x ∈ rev l <-> x ∈ l.
Proof. by rewrite <- Permutation_rev. Qed.

Lemma foldl_rev {A B} (f : A -> B -> A) a (l : list B) :
  foldl f a (rev l) = foldr (fun x acc => f acc x) a l.
Proof.
  induction l as [|x l IH]; [done|]. simpl. by rewrite foldl_app, IH.
Qed.

(** [*m.entry(k).or_insert(0) += n] with the value's wrap-around. *)
Definition entry_add `{Countable K} (wrap : Z -> Z) (k : K) (n : Z) (m : gmap K Z) : gmap K Z :=
  <[k := wrap (default 0 (m !! k) + n)]> m.

(** ** Sums *)

Definition zsum {A} (f : A -> Z) (l : list A) : Z := foldr (fun x a => f x + a) 0 l.

Lemma zsum_app {A} (f : A -> Z) l k : zsum f (l ++ k) = zsum f l + zsum f k.
Proof. induction l; simpl; lia. Qed.

Lemma zsum_fmap {A B} (f : B -> Z) (g : A -> B) l : zsum f (g <$> l) = zsum (fun x => f (g x)) l.
Proof. induction l as [|a l IH]; [done|]. rewrite fmap_cons. simpl. by rewrite IH. Qed.

#[global] Instance zsum_perm {A} (f : A -> Z) : Proper (Permutation ==> eq) (zsum f).
Proof. induction 1; simpl; lia. Qed.

Lemma zsum_ext {A} (f g : A -> Z) l : (forall x, x ∈ l -> f x = g x) -> zsum f l = zsum g l.
Proof.
  induction l as [|a l IH]; intros Hfg; simpl; [done|].
  rewrite Hfg by left. rewrite IH; [done|]. intros x Hx. apply Hfg. by right.
Qed.

Lemma zsum_mono {A} (f g : A -> Z) l : (forall x, x ∈ l -> f x <= g x) -> zsum f l <= zsum g l.
Proof.
  induction l as [|a l IH]; intros Hfg; simpl; [done|].
  pose proof (Hfg a ltac:(left)). assert (zsum f l <= zsum g l); [|lia].
  apply IH. intros x Hx. apply Hfg. by right.
Qed.

Lemma zsum_nonneg {A} (f : A -> Z) l : (forall x, x ∈ l -> 0 <= f x) -> 0 <= zsum f l.
Proof.
  induction l as [|a l IH]; intros Hf; simpl; [done|].
  pose proof (Hf a ltac:(left)). assert (0 <= zsum f l); [|lia].
  apply IH. intros x Hx. apply Hf. by right.
Qed.

Lemma zsum_elem_le {A} (f : A -> Z) l x :
  (forall y, y ∈ l -> 0 <= f y) -> x ∈ l -> f x <= zsum f l.
Proof.
  intros Hf (l1 & l2 & ->)%list_elem_of_split. rewrite zsum_app. simpl.
  assert (0 <= zsum f l1) by (apply zsum_nonneg; intros; apply Hf; set_solver).
  assert (0 <= zsum f l2) by (apply zsum_nonneg; intros; apply Hf; set_solver). lia.
Qed.

(** The sum changes at one element when the summand does. *)
Lemma filter_all {A} (P : A -> Prop) `{!forall x, Decision (P x)} (l : list A) :
  (forall x, x ∈ l -> P x) -> filter P l = l.
Proof.
  induction l as [|a l IH]; intros Hl; [done|].
  rewrite filter_cons_True by (apply Hl; left). f_equal. apply IH. intros x Hx. apply Hl. by right.
Qed.

Lemma zsum_without {A} `{EqDecision A} (f : A -> Z) (l : list A) x :
  NoDup l -> x ∈ l -> zsum f l = f x + zsum f (filter (fun y => y ≠ x) l).
Proof.
  intros Hnd (l1 & l2 & ->)%list_elem_of_split.
  apply NoDup_app in Hnd as (_ & Hd & [Hx _]%NoDup_cons).
  rewrite filter_app, filter_cons_False, !zsum_app by tauto. simpl.
  rewrite !filter_all; [lia | |]; intros y Hy ->; [done|].
  apply (Hd x Hy). left.
Qed.

Lemma zsum_update {A} `{EqDecision A} (f g : A -> Z) l x :
  NoDup l -> x ∈ l -> (forall y, y <> x -> f y = g y) -> zsum g l = zsum f l - f x + g x.
Proof.
  intros Hnd (l1 & l2 & ->)%list_elem_of_split Hfg.
  rewrite NoDup_app, NoDup_cons in Hnd. destruct Hnd as (_ & Hd & Hx & _).
  rewrite !zsum_app. simpl.
  rewrite (zsum_ext g f l1), (zsum_ext g f l2); [lia | |].
  - intros y Hy. symmetry. apply Hfg. intros ->. done.
  - intros y Hy. symmetry. apply Hfg. intros ->. apply (Hd x Hy). left.
Qed.

(** Sums over the values of a finite map. *)
Definition msum `{Countable K} {A} (f : A -> Z) (m : gmap K A) : Z :=
  zsum (fun kv => f kv.2) (map_to_list m).

Section MSum.
Context `{Countable K} {A : Type} (f : A -> Z).
Implicit Types m : gmap K A.

Lemma msum_empty : msum f (∅ : gmap K A) = 0.
Proof. unfold msum. by rewrite map_to_list_empty. Qed.

Lemma msum_insert_new k a m : m !! k = None -> msum f (<[k := a]> m) = f a + msum f m.
Proof. intros Hk. unfold msum. by rewrite map_to_list_insert. Qed.

Lemma msum_delete k a m : m !! k = Some a -> msum f (delete k m) = msum f m - f a.
Proof.
  intros Hk. rewrite <- (insert_delete_id m k a Hk) at 2.
  rewrite msum_insert_new by apply lookup_delete_eq. lia.
Qed.

Lemma msum_insert_old k a b m :
  m !! k = Some a -> msum f (<[k := b]> m) = msum f m - f a + f b.
Proof.
  intros Hk. rewrite <- insert_delete_eq.
  rewrite msum_insert_new by apply lookup_delete_eq. rewrite (msum_delete k a) by done. lia.
Qed.

Lemma msum_zero m : (forall k a, m !! k = Some a -> f a = 0) -> msum f m = 0.
Proof.
  induction m as [|k a m Hk IH] using map_ind; intros Hf; [apply msum_empty|].
  rewrite msum_insert_new, IH, (Hf k a) by
    first [done | apply lookup_insert_eq | intros k' a' Hk'; apply (Hf k');
           rewrite lookup_insert_ne; [done | congruence]]. done.
Qed.

Lemma msum_nonneg m : (forall k a, m !! k = Some a -> 0 <= f a) -> 0 <= msum f m.
Proof.
  intros Hf. apply zsum_nonneg. intros [k a] Hk%elem_of_map_to_list. by eapply Hf.
Qed.

Lemma msum_elem_le k a m :
  (forall k a, m !! k = Some a -> 0 <= f a) -> m !! k = Some a -> f a <= msum f m.
Proof.
  intros Hf Hk. apply (zsum_elem_le (fun kv => f kv.2) _ (k, a)).
  - intros [k' a'] Hk'%elem_of_map_to_list. by eapply Hf.
  - by apply elem_of_map_to_list.
Qed.
End MSum.

(** Counting the entries with a property. *)
Lemma msum_indicator `{Countable K} {A} (P : A -> Prop) `{!forall a, Decision (P a)} (m : gmap K A) :
  msum (fun a => if decide (P a) then 1 else 0) m
    = Z.of_nat (size (filter (fun ka => P ka.2) m)).
Proof.
  induction m as [|k a m Hk IH] using map_ind.
  { by rewrite msum_empty, map_filter_empty, map_size_empty. }
  rewrite msum_insert_new, IH by done. destruct (decide (P a)).
  - rewrite map_filter_insert_True, map_size_insert_None by
      (done || (apply map_lookup_filter_None; by left)). lia.
  - rewrite map_filter_insert_False, delete_id by done. lia.
Qed.

Lemma msum_fmap `{Countable K} {A B} (f : B -> Z) (g : A -> B) (m : gmap K A) :
  msum f (g <$> m) = msum (fun a => f (g a)) m.
Proof.
  induction m as [|k a m Hk IH] using map_ind; [by rewrite fmap_empty, !msum_empty|].
  rewrite fmap_insert, !msum_insert_new by (rewrite ?lookup_fmap, ?Hk; done). by rewrite IH.
Qed.

(** Filters that agree on the elements of a list. *)
Lemma filter_ext_elem {A} (P Q : A -> Prop) `{!forall x, Decision (P x), !forall x, Decision (Q x)} (l : list A) :
  (forall x, x ∈ l -> P x <-> Q x) -> filter P l = filter Q l.
Proof.
  induction l as [|x l IH]; intros Hl; [done|]. rewrite !filter_cons.
  rewrite (decide_ext (P x) (Q x)) by (apply Hl; left). rewrite IH; [done|].
  intros y Hy. apply Hl. by right.
Qed.

Lemma StronglySorted_filter {A} (R : A -> A -> Prop) (P : A -> Prop)
    `{!forall x, Decision (P x)} (l : list A) :
  StronglySorted R l -> StronglySorted R (filter P l).
Proof.
  induction 1 as [|x l S IH Hx]; [constructor|]. rewrite filter_cons.
  destruct (decide (P x)); [|done]. constructor; [done|].
  rewrite Forall_forall in *. intros y [_ Hy]%list_elem_of_filter. by apply Hx.
Qed.

(** A loop whose steps commute does not depend on the order of its elements. *)
Lemma foldl_perm_comm {A B} (f : A -> B -> A) (l l' : list B) a :
  (forall a x y, x ∈ l -> y ∈ l -> f (f a x) y = f (f a y) x) ->
  l ≡ₚ l' -> foldl f a l = foldl f a l'.
Proof.
  intros Hf Hp. revert a Hf. induction Hp as [|x l l' Hp IH|x y l|l l' l'' Hp IH Hp' IH']; intros a Hf; simpl.
  - done.
  - apply IH. intros b y z Hy Hz. apply Hf; by right.
  - rewrite Hf; [done|left|right; left].
  - rewrite IH by done. apply IH'. intros b y z. rewrite <- Hp. apply Hf.
Qed.
