(* ===== verification/BTree.v ===== *)
(** * Ranges of ordered maps

    The [BTreeMap] methods the transaction queue uses: [range], [first_key_value],
    [last_key_value] and their iteration, as functions of [btree_iter], the
    entries of the map in key order. *)

From S2P Require Import Prelude.

Section Range.
Context `{Countable K, !TotalOrd K, !TotalOrdLaws K} {V : Type}.
Implicit Types (m : gmap K V) (k : K) (v : V).

(** [range(k..)] *)
Definition range_from k m : list (K * V) :=
  filter (fun e => ord_leb k e.1 = true) (btree_iter m).

(** [range((Excluded(k), Unbounded))] *)
Definition range_after k m : list (K * V) :=
  filter (fun e => ord_ltb k e.1 = true) (btree_iter m).

(** [range(..k)] *)
Definition range_before k m : list (K * V) :=
  filter (fun e => ord_ltb e.1 k = true) (btree_iter m).

Definition first_key_value m : option (K * V) := head (btree_iter m).
Definition last_key_value m : option (K * V) := last (btree_iter m).

(** [Iterator::take_while] *)
Fixpoint take_while {A} (f : A -> bool) (l : list A) : list A :=
  match l with
  | [] => []
  | x :: l' => if f x then x :: take_while f l' else []
  end.

Definition key_sorted (l : list (K * V)) : Prop :=
  StronglySorted (fun x y => ord_ltb x.1 y.1 = true) l.

Lemma ord_ltb_asym a b : ord_ltb a b = true -> ord_ltb b a = false.
Proof.
  intros E. destruct (ord_ltb b a) eqn:E2; [|done].
  pose proof (ord_trans a b a E E2). by rewrite ord_irrefl in *.
Qed.

Lemma ord_leb_cases a b : ord_leb a b = true <-> a = b \/ ord_ltb a b = true.
Proof.
  unfold ord_leb. rewrite negb_true_iff. split.
  - intros E. destruct (ord_ltb a b) eqn:E2; [by right | left; by apply ord_total].
  - intros [->|E]; [apply ord_irrefl | by apply ord_ltb_asym].
Qed.

Lemma btree_iter_sorted m : key_sorted (btree_iter m).
Proof.
  unfold key_sorted, btree_iter.
  assert (StronglySorted (fun x y : K * V => ord_leb x.1 y.1 = true)
            (sort_by (fun x y => ord_leb x.1 y.1) (map_to_list m))) as S.
  { apply sort_by_sorted.
    - intros x y. apply ord_leb_total.
    - intros x y z. apply ord_leb_trans. }
  assert (NoDup (sort_by (fun x y : K * V => ord_leb x.1 y.1) (map_to_list m)).*1) as D.
  { rewrite sort_by_perm. apply NoDup_fst_map_to_list. }
  induction S as [|x l S IH Hx]; [constructor|]. rewrite fmap_cons in D.
  apply NoDup_cons in D as [Hn D]. constructor; [by apply IH|].
  apply Forall_forall. intros y Hy. rewrite Forall_forall in Hx.
  destruct (proj1 (ord_leb_cases _ _) (Hx _ Hy)) as [E|E]; [|done].
  destruct Hn. rewrite E. by apply list_elem_of_fmap_2.
Qed.

Lemma key_sorted_filter (P : K * V -> Prop) `{!forall x, Decision (P x)} l :
  key_sorted l -> key_sorted (filter P l).
Proof.
  unfold key_sorted. induction 1 as [|x l S IH Hx]; [constructor|].
  rewrite filter_cons. destruct (decide (P x)); [|done]. constructor; [done|].
  rewrite Forall_forall in *. intros y [_ Hy]%list_elem_of_filter. by apply Hx.
Qed.

Lemma range_from_sorted k m : key_sorted (range_from k m).
Proof. apply key_sorted_filter, btree_iter_sorted. Qed.

Lemma elem_of_range_from k m k' v' :
  (k', v') ∈ range_from k m <-> m !! k' = Some v' /\ ord_leb k k' = true.
Proof. unfold range_from. rewrite list_elem_of_filter, elem_of_btree_iter. naive_solver. Qed.

Lemma elem_of_range_after k m k' v' :
  (k', v') ∈ range_after k m <-> m !! k' = Some v' /\ ord_ltb k k' = true.
Proof. unfold range_after. rewrite list_elem_of_filter, elem_of_btree_iter. naive_solver. Qed.

Lemma elem_of_range_before k m k' v' :
  (k', v') ∈ range_before k m <-> m !! k' = Some v' /\ ord_ltb k' k = true.
Proof. unfold range_before. rewrite list_elem_of_filter, elem_of_btree_iter. naive_solver. Qed.

Lemma btree_iter_length m : length (btree_iter m) = size m.
Proof. unfold btree_iter. rewrite sort_by_perm. apply length_map_to_list. Qed.

Lemma key_sorted_head l e : key_sorted l -> head l = Some e ->
  e ∈ l /\ forall e', e' ∈ l -> ord_leb e.1 e'.1 = true.
Proof.
  intros S. destruct l as [|x l]; [done|]. simpl. intros [= <-].
  inversion S as [|? ? _ Hx]; subst. split; [left|].
  intros e' [->|He]%elem_of_cons; apply ord_leb_cases; [by left | right].
  rewrite Forall_forall in Hx. by apply Hx.
Qed.

Lemma key_sorted_last l e : key_sorted l -> last l = Some e ->
  e ∈ l /\ forall e', e' ∈ l -> ord_leb e'.1 e.1 = true.
Proof.
  induction 1 as [|x l S IH Hx]; [done|]. destruct l as [|y l].
  - simpl. intros [= <-]. split; [left|]. intros e' ->%list_elem_of_singleton.
    apply ord_leb_cases. by left.
  - intros El. destruct (IH El) as [Hin Hmax]. split; [by right|].
    intros e' [->|He]%elem_of_cons; [|by apply Hmax].
    apply ord_leb_cases. right. rewrite Forall_forall in Hx. by apply Hx.
Qed.

(** The least key, and there is one when the map is not empty. *)
Lemma first_key_value_spec m k v :
  first_key_value m = Some (k, v) ->
  m !! k = Some v /\ forall k' v', m !! k' = Some v' -> ord_leb k k' = true.
Proof.
  intros E. destruct (key_sorted_head _ _ (btree_iter_sorted m) E) as [Hin Hmin].
  split; [by apply elem_of_btree_iter|]. intros k' v' Hk.
  apply (Hmin (k', v')). by apply elem_of_btree_iter.
Qed.

Lemma last_key_value_spec m k v :
  last_key_value m = Some (k, v) ->
  m !! k = Some v /\ forall k' v', m !! k' = Some v' -> ord_leb k' k = true.
Proof.
  intros E. destruct (key_sorted_last _ _ (btree_iter_sorted m) E) as [Hin Hmax].
  split; [by apply elem_of_btree_iter|]. intros k' v' Hk.
  apply (Hmax (k', v')). by apply elem_of_btree_iter.
Qed.

Lemma first_key_value_is_Some m k v : m !! k = Some v -> is_Some (first_key_value m).
Proof.
  intros Hk%elem_of_btree_iter. unfold first_key_value.
  destruct (btree_iter m); [by apply elem_of_nil in Hk | eauto].
Qed.

Lemma last_key_value_is_Some m k v : m !! k = Some v -> is_Some (last_key_value m).
Proof.
  intros Hk%elem_of_btree_iter. unfold last_key_value. apply last_is_Some.
  intros E. rewrite E in Hk. by apply elem_of_nil in Hk.
Qed.

(** A key no greater than the least key is the least key. *)
Lemma first_key_value_lower m k v k0 v0 :
  first_key_value m = Some (k0, v0) -> m !! k = Some v -> ord_ltb k0 k = false -> k = k0.
Proof.
  intros [_ Hmin]%first_key_value_spec Hk Hf.
  destruct (proj1 (ord_leb_cases _ _) (Hmin _ _ Hk)) as [->|E]; [done | by rewrite Hf in E].
Qed.

(** Two keys in a map have different first and last keys. *)
Lemma first_last_differ m k0 v0 k1 v1 :
  first_key_value m = Some (k0, v0) -> last_key_value m = Some (k1, v1) ->
  (1 < size m)%nat -> k0 <> k1.
Proof.
  unfold first_key_value, last_key_value. rewrite <- btree_iter_length.
  pose proof (btree_iter_sorted m) as S. destruct (btree_iter m) as [|a [|b l]]; simpl; try lia.
  intros [= ->] El _ <-. inversion S as [|? ? S' Hx]; subst.
  destruct (key_sorted_last _ _ S' El) as [Hin _].
  rewrite Forall_forall in Hx. specialize (Hx _ Hin). simpl in Hx. by rewrite ord_irrefl in Hx.
Qed.

Lemma elem_of_take_while {A} (f : A -> bool) (l : list A) x :
  x ∈ take_while f l -> x ∈ l /\ f x = true.
Proof.
  induction l as [|y l IH]; simpl; [by intros ?%elem_of_nil|].
  destruct (f y) eqn:E; [|by intros ?%elem_of_nil].
  intros [->|Hx]%elem_of_cons; [split; [left|done]|].
  destruct (IH Hx). split; [by right | done].
Qed.

(** On a sorted list, a downward closed test is taken in full. *)
Lemma elem_of_take_while_sorted (f : K * V -> bool) (l : list (K * V)) x :
  key_sorted l ->
  (forall a b, ord_ltb a.1 b.1 = true -> f b = true -> f a = true) ->
  x ∈ take_while f l <-> x ∈ l /\ f x = true.
Proof.
  intros S Hd. split; [apply elem_of_take_while|]. intros [Hin Hf]. revert Hin.
  induction S as [|y l S IH Hy]; [by intros ?%elem_of_nil|]. simpl.
  intros [->|Hx]%elem_of_cons; [rewrite Hf; left|].
  rewrite Forall_forall in Hy. rewrite (Hd y x (Hy _ Hx) Hf). right. by apply IH.
Qed.
End Range.
