(* ===== verification/Chrono.v ===== *)
(** * Durations and the network clock

    [std::time::Duration] (an unsigned number of nanoseconds) and
    [time::Duration] (a signed one) as the source uses them, and
    [NetClockTimePoint] of [xrpl/basics/src/time/chrono.rs]: whole seconds since
    2000-01-01 in a [u32].  [Instant]s are nanoseconds on a monotonic clock. *)

From S2P Require Import Prelude.

(** ** [std::time::Duration], in nanoseconds *)

Definition NANOS_PER_SEC : Z := 1000000000.
Definition duration_max : Z := u64_max * NANOS_PER_SEC + 999999999.

Definition from_secs (s : Z) : Z := s * NANOS_PER_SEC.
Definition from_millis (ms : Z) : Z := ms * 1000000.
Definition as_secs (d : Z) : Z := d / NANOS_PER_SEC.
(** [d.as_millis() as i64] *)
Definition as_millis_i64 (d : Z) : Z := wrap_i64 (d / 1000000).

(** [a + b] panics when the sum does not fit. *)
Definition duration_add (a b : Z) : outcome Z :=
  if a + b <=? duration_max then Ok (a + b) else Panic.
(** [d * k] panics when the product does not fit. *)
Definition duration_mul (d k : Z) : outcome Z :=
  if d * k <=? duration_max then Ok (d * k) else Panic.
Definition duration_saturating_mul (d k : Z) : Z := Z.min (d * k) duration_max.
Definition duration_saturating_sub (a b : Z) : Z := Z.max 0 (a - b).
(** [Ord::clamp] asserts [lo <= hi]. *)
Definition duration_clamp (d lo hi : Z) : outcome Z :=
  if lo <=? hi then Ok (Z.max lo (Z.min d hi)) else Panic.
(** [Instant::saturating_duration_since] *)
Definition saturating_duration_since (t start : Z) : Z := Z.max 0 (t - start).

(** ** [time::Duration] (signed) and [NetClockTimePoint] *)

Notation NetClockTimePoint := Z (only parsing).

Definition EPOCH_OFFSET_SECONDS : Z := 946684800.
(** [NetClockTimePoint::default()] *)
Definition net_clock_default : NetClockTimePoint := 0.

Definition seconds (s : Z) : Z := s * NANOS_PER_SEC.
Definition hours (h : Z) : Z := seconds (h * 3600).
Definition days (count : Z) : Z := hours (count * 24).
Definition weeks (count : Z) : Z := days (count * 7).
Definition epoch_offset : Z := seconds EPOCH_OFFSET_SECONDS.
(** [Duration::whole_seconds] truncates towards zero. *)
Definition whole_seconds_trunc (d : Z) : Z := Z.quot d NANOS_PER_SEC.

Definition whole_seconds (d : Z) : option Z :=
  let s := whole_seconds_trunc d in
  if d =? seconds s then Some s else None.

Definition time_since_epoch (t : NetClockTimePoint) : Z := seconds t.

Definition checked_add (t : NetClockTimePoint) (d : Z) : option NetClockTimePoint :=
  delta ← whole_seconds d; u32_try_from (t + delta).

Definition checked_sub (t : NetClockTimePoint) (d : Z) : option NetClockTimePoint :=
  delta ← whole_seconds d; u32_try_from (t - delta).

(** [impl Add<Duration>] and [impl Sub<Duration>]: panic out of range. *)
Definition net_clock_add (t : NetClockTimePoint) (d : Z) : outcome NetClockTimePoint :=
  expect (checked_add t d).
Definition net_clock_sub (t : NetClockTimePoint) (d : Z) : outcome NetClockTimePoint :=
  expect (checked_sub t d).
(** [impl Sub for NetClockTimePoint] *)
Definition net_clock_diff (a b : NetClockTimePoint) : Z := seconds (a - b).

(** ** Lemmas *)

Lemma whole_seconds_trunc_seconds s : whole_seconds_trunc (seconds s) = s.
Proof. unfold whole_seconds_trunc, seconds, NANOS_PER_SEC. by rewrite Z.quot_mul. Qed.

Lemma whole_seconds_seconds s : whole_seconds (seconds s) = Some s.
Proof.
  unfold whole_seconds. rewrite whole_seconds_trunc_seconds. by rewrite Z.eqb_refl.
Qed.

Lemma whole_seconds_Some d s : whole_seconds d = Some s <-> d = seconds s.
Proof.
  split.
  - unfold whole_seconds. destruct (Z.eqb_spec d (seconds (whole_seconds_trunc d)));
      intros; simplify_eq; done.
  - intros ->. apply whole_seconds_seconds.
Qed.

Lemma checked_add_Some t d t' :
  checked_add t d = Some t' <-> exists s, d = seconds s /\ t' = t + s /\ in_u32 t'.
Proof.
  unfold checked_add. rewrite bind_Some. setoid_rewrite whole_seconds_Some.
  setoid_rewrite u32_try_from_Some. naive_solver.
Qed.

Lemma checked_sub_Some t d t' :
  checked_sub t d = Some t' <-> exists s, d = seconds s /\ t' = t - s /\ in_u32 t'.
Proof.
  unfold checked_sub. rewrite bind_Some. setoid_rewrite whole_seconds_Some.
  setoid_rewrite u32_try_from_Some. naive_solver.
Qed.

Lemma seconds_inj s s' : seconds s = seconds s' -> s = s'.
Proof. unfold seconds, NANOS_PER_SEC. lia. Qed.

Lemma as_secs_from_secs s : as_secs (from_secs s) = s.
Proof. unfold as_secs, from_secs, NANOS_PER_SEC. apply Z.div_mul. lia. Qed.

(** The checked network-clock operations are each other's inverse. *)
Theorem checked_add_sub_roundtrip t d t' :
  in_u32 t -> checked_add t d = Some t' -> checked_sub t' d = Some t.
Proof.
  intros Ht (s & -> & -> & _)%checked_add_Some. apply checked_sub_Some.
  exists s. split_and!; [done | lia | done].
Qed.

Lemma checked_add_sub_roundtrip_witness :
  checked_sub 320 (seconds 20) = Some 300.
Proof. apply (checked_add_sub_roundtrip 300 (seconds 20) 320); [machine | reflexivity]. Defined.
