(* ===== verification/Timing.v ===== *)
(** * Ledger close-time resolution

    [xrpld/consensus/src/algorithm/timing.rs]: the ladder of close-time bins, the
    choice of the next bin, and the rounding of a close time. *)

From S2P Require Import Prelude Chrono.

Definition LEDGER_POSSIBLE_TIME_RESOLUTIONS : list Z :=
  [seconds 10; seconds 20; seconds 30; seconds 60; seconds 90; seconds 120].
Definition LEDGER_DEFAULT_TIME_RESOLUTION : Z := seconds 30.
Definition LEDGER_GENESIS_TIME_RESOLUTION : Z := seconds 10.
Definition INCREASE_LEDGER_TIME_RESOLUTION_EVERY : Z := 8.
Definition DECREASE_LEDGER_TIME_RESOLUTION_EVERY : Z := 1.

(** [iter().position(|&r| r == x)] *)
Fixpoint iter_position (x : Z) (l : list Z) : option nat :=
  match l with
  | [] => None
  | y :: l' => if y =? x then Some 0%nat else S <$> iter_position x l'
  end.

(** [u32::is_multiple_of] *)
Definition is_multiple_of (n k : Z) : bool :=
  if k =? 0 then n =? 0 else n mod k =? 0.

Definition get_next_ledger_time_resolution
    (previous_resolution : Z) (previous_agree : bool) (ledger_seq : Z) : Z :=
  match iter_position previous_resolution LEDGER_POSSIBLE_TIME_RESOLUTIONS with
  | None => previous_resolution
  | Some index =>
      if negb previous_agree
         && is_multiple_of ledger_seq DECREASE_LEDGER_TIME_RESOLUTION_EVERY then
        match LEDGER_POSSIBLE_TIME_RESOLUTIONS !! (index + 1)%nat with
        | Some coarser => coarser
        | None => previous_resolution
        end
      else if previous_agree
         && is_multiple_of ledger_seq INCREASE_LEDGER_TIME_RESOLUTION_EVERY then
        if (0 <? index)%nat then
          default previous_resolution (LEDGER_POSSIBLE_TIME_RESOLUTIONS !! (index - 1)%nat)
        else previous_resolution
      else previous_resolution
  end.

Definition round_close_time (close_time : NetClockTimePoint) (resolution : Z)
    : NetClockTimePoint :=
  if close_time =? net_clock_default then close_time
  else
    let resolution_secs := Z.max (whole_seconds_trunc resolution) 1 in
    let raw_secs := close_time in
    let shifted := raw_secs + Z.quot resolution_secs 2 in
    let rounded := shifted - shifted mod resolution_secs in
    wrap_u32 (Z.max rounded 0).

Definition effective_close_time (close_time : NetClockTimePoint) (resolution : Z)
    (prior_close_time : NetClockTimePoint) : NetClockTimePoint :=
  if close_time =? net_clock_default then close_time
  else
    let rounded := round_close_time close_time resolution in
    let min_allowed := sat_u32 (prior_close_time + 1) in
    Z.max rounded min_allowed.

(** ** Specification: the ladder as an index *)

(** The index of the next bin: one step coarser after a disagreement, one step
    finer after an agreement on every eighth ledger, never off the ladder. *)
Definition next_bin (i : nat) (agree : bool) (seq : Z) : nat :=
  if agree then (if seq mod 8 =? 0 then pred i else i) else Nat.min (S i) 5.

(** Multiples of the bin size, and the distance rounding minimises. *)
Definition is_bin (r m : Z) : Prop := (r | m).

Lemma position_ladder i r :
  LEDGER_POSSIBLE_TIME_RESOLUTIONS !! i = Some r ->
  iter_position r LEDGER_POSSIBLE_TIME_RESOLUTIONS = Some i.
Proof. intros H. do 6 (destruct i as [|i]; [simplify_eq/=; done|]). done. Qed.

(** Every bin of the ladder is a whole, positive number of seconds. *)
Lemma ladder_bin_positive i r :
  LEDGER_POSSIBLE_TIME_RESOLUTIONS !! i = Some r ->
  (i < 6)%nat /\ exists s, r = seconds s /\ 10 <= s <= 120.
Proof.
  intros H. do 6 (destruct i as [|i]; [simplify_eq/=; split; [lia|]; eauto with lia|]). done.
Qed.

(** The rounded value as the greatest multiple at or below the shifted time. *)
Lemma round_close_time_unfold t s :
  in_u32 t -> t <> 0 -> 1 <= s -> t + s / 2 <= u32_max ->
  let r := round_close_time t (seconds s) in
  r = (t + s / 2) / s * s /\ 0 <= r <= u32_max.
Proof.
  intros Ht Hnz Hs Hmax. unfold round_close_time, net_clock_default.
  rewrite (proj2 (Z.eqb_neq t 0)) by done. rewrite whole_seconds_trunc_seconds.
  rewrite (Z.max_l s) by lia. rewrite Z.quot_div_nonneg by lia.
  assert (0 <= s / 2) by (apply Z.div_pos; lia).
  assert (t + s / 2 - (t + s / 2) mod s = (t + s / 2) / s * s) as ->.
  { rewrite Z.mod_eq by lia. lia. }
  assert (0 <= (t + s / 2) / s) by (apply Z.div_pos; machine).
  pose proof (Z.mul_div_le (t + s / 2) s ltac:(lia)).
  rewrite Z.max_l by nia. rewrite wrap_u32_id; machine.
Qed.

Lemma floor_multiple_nearest t s m :
  1 <= s -> is_bin s m ->
  let r := (t + s / 2) / s * s in
  Z.abs (r - t) <= Z.abs (m - t) /\ (Z.abs (r - t) = Z.abs (m - t) -> m <= r).
Proof.
  intros Hs [k ->] r. subst r.
  pose proof (Z.div_mod (t + s / 2) s ltac:(lia)) as E1.
  pose proof (Z.mod_pos_bound (t + s / 2) s ltac:(lia)) as E2.
  pose proof (Z.div_mod s 2 ltac:(lia)) as E3.
  pose proof (Z.mod_pos_bound s 2 ltac:(lia)) as E4.
  set (q := (t + s / 2) / s) in *. set (h := s / 2) in *.
  destruct (Z.lt_trichotomy k q) as [Hk | [-> | Hk]]; [| lia |].
  - assert (k * s <= q * s - s) by nia. lia.
  - assert (q * s + s <= k * s) by nia. lia.
Qed.

(** ** Theorems *)

(** the next close-time resolution of a bin of the ladder is again a bin of
    the ladder, namely the one [next_bin] names: one step coarser after any
    disagreement, one step finer only after an agreement on a ledger sequence
    divisible by eight, and clamped at both ends. *)
Theorem next_resolution_spec i r agree seq :
  LEDGER_POSSIBLE_TIME_RESOLUTIONS !! i = Some r ->
  LEDGER_POSSIBLE_TIME_RESOLUTIONS !! next_bin i agree seq
    = Some (get_next_ledger_time_resolution r agree seq).
Proof.
  intros H. unfold get_next_ledger_time_resolution, next_bin. rewrite (position_ladder _ _ H).
  unfold is_multiple_of, INCREASE_LEDGER_TIME_RESOLUTION_EVERY,
    DECREASE_LEDGER_TIME_RESOLUTION_EVERY.
  change (8 =? 0) with false. change (1 =? 0) with false. rewrite Z.mod_1_r.
  do 6 (destruct i as [|i];
    [injection H as <-; destruct agree; [destruct (seq mod 8 =? 0)|]; reflexivity|]).
  done.
Qed.

Lemma next_resolution_spec_witness :
  LEDGER_POSSIBLE_TIME_RESOLUTIONS !! 3%nat
    = Some (get_next_ledger_time_resolution (seconds 30) false 7).
Proof. exact (next_resolution_spec 2 (seconds 30) false 7 eq_refl). Defined.

(** away from the end of the 32-bit clock, rounding a set close time yields
    a multiple of the bin size that is at least as near to it as every other
    multiple, and the later one on a tie; it fits in 32 bits. *)
Theorem round_close_time_nearest t s :
  in_u32 t -> t <> 0 -> 1 <= s -> t + s / 2 <= u32_max ->
  let r := round_close_time t (seconds s) in
  is_bin s r /\ in_u32 r
  /\ forall m, is_bin s m ->
       Z.abs (r - t) <= Z.abs (m - t) /\ (Z.abs (r - t) = Z.abs (m - t) -> m <= r).
Proof.
  intros Ht Hnz Hs Hmax r.
  destruct (round_close_time_unfold t s Ht Hnz Hs Hmax) as [E Hr]. fold r in E, Hr.
  split_and!; [rewrite E; apply Z.divide_factor_r | machine |].
  intros m Hm. rewrite E. by apply floor_multiple_nearest.
Qed.

Lemma round_close_time_nearest_witness :
  round_close_time 45 (seconds 30) = 60 /\ (is_bin 30 (round_close_time 45 (seconds 30))).
Proof.
  split; [reflexivity|].
  refine (proj1 (round_close_time_nearest 45 30 _ _ _ _)); machine.
Defined.

(** a set close time becomes an effective close time that is strictly later
    than the parent's close time, at most one second past the later of the
    rounded time and the parent, and still a 32-bit value. *)
Theorem effective_close_time_after_prior t resolution prior :
  in_u32 t -> in_u32 prior -> t <> 0 -> prior < u32_max ->
  let e := effective_close_time t resolution prior in
  prior < e /\ in_u32 e
  /\ (e = round_close_time t resolution \/ e = prior + 1).
Proof.
  intros Ht Hp Hnz Hmax. unfold effective_close_time, net_clock_default.
  rewrite (proj2 (Z.eqb_neq t 0)) by done.
  assert (in_u32 (round_close_time t resolution)) as Hr.
  { unfold round_close_time. case_match; [done|]. apply wrap_u32_range. }
  replace (sat_u32 (prior + 1)) with (prior + 1) by machine.
  destruct (Z.max_spec (round_close_time t resolution) (prior + 1)) as [[? ->]|[? ->]];
    split_and!; auto; machine.
Qed.

Lemma effective_close_time_after_prior_witness :
  effective_close_time 10 (seconds 30) 100 = 101 /\ 100 < effective_close_time 10 (seconds 30) 100.
Proof.
  split; [reflexivity|].
  refine (proj1 (effective_close_time_after_prior 10 (seconds 30) 100 _ _ _ _)); machine.
Defined.

(** The last half bin of the 32-bit clock: the rounded value does not fit and is
    truncated, so that rounding moves the time back to the epoch. *)
Example round_close_time_truncates_at_the_end :
  round_close_time u32_max (seconds 30) = 14.
Proof. reflexivity. Qed.
