(* ===== verification/Params.v ===== *)
(** * Consensus parameters and the avalanche schedule

    [xrpld/consensus/src/algorithm/params.rs]: the parameter record with its
    defaults, the table of avalanche cutoffs, and [get_needed_weight]. *)

From S2P Require Import Prelude Chrono.

Inductive AvalancheState := Init | Mid | Late | Stuck.

#[global] Instance AvalancheState_eq_dec : EqDecision AvalancheState.
Proof. solve_decision. Defined.

#[global] Instance AvalancheState_countable : Countable AvalancheState.
Proof.
  refine (inj_countable' (fun s => match s with Init => 0 | Mid => 1 | Late => 2 | Stuck => 3 end)
    (fun n => match n with 0 => Init | 1 => Mid | 2 => Late | _ => Stuck end) _).
  by intros [].
Defined.

Record AvalancheCutoff := mkCutoff {
  consensus_time : Z;            (* i32 *)
  consensus_pct : Z;             (* usize *)
  next : AvalancheState
}.

Record ConsensusParms := mkParms {
  validation_valid_wall : Z;
  validation_valid_local : Z;
  validation_valid_early : Z;
  propose_freshness : Z;
  propose_interval : Z;
  min_consensus_pct : Z;
  ledger_idle_interval : Z;
  ledger_min_consensus : Z;
  ledger_max_consensus : Z;
  ledger_min_close : Z;
  ledger_granularity : Z;
  ledger_abandon_consensus_factor : Z;
  ledger_abandon_consensus : Z;
  av_min_consensus_time : Z;
  avalanche_cutoffs : gmap AvalancheState AvalancheCutoff;
  av_ct_consensus_pct : Z;
  av_min_rounds : Z;
  av_stalled_rounds : Z
}.

Definition default_cutoffs : gmap AvalancheState AvalancheCutoff :=
  <[Init := mkCutoff 0 50 Mid]>
  (<[Mid := mkCutoff 50 65 Late]>
  (<[Late := mkCutoff 85 70 Stuck]>
  (<[Stuck := mkCutoff 200 95 Stuck]> ∅))).

Definition default_parms : ConsensusParms := {|
  validation_valid_wall := from_secs (5 * 60);
  validation_valid_local := from_secs (3 * 60);
  validation_valid_early := from_secs (3 * 60);
  propose_freshness := from_secs 20;
  propose_interval := from_secs 12;
  min_consensus_pct := 80;
  ledger_idle_interval := from_secs 15;
  ledger_min_consensus := from_millis 1950;
  ledger_max_consensus := from_secs 15;
  ledger_min_close := from_secs 2;
  ledger_granularity := from_secs 1;
  ledger_abandon_consensus_factor := 10;
  ledger_abandon_consensus := from_secs 120;
  av_min_consensus_time := from_secs 5;
  avalanche_cutoffs := default_cutoffs;
  av_ct_consensus_pct := 75;
  av_min_rounds := 2;
  av_stalled_rounds := 4
|}.

(** The required yes-vote weight, and the state to move to when the schedule
    advances.  Both table reads are [expect]s, and the order of the two cutoffs
    is asserted. *)
Definition get_needed_weight (parms : ConsensusParms) (current_state : AvalancheState)
    (percent_time current_rounds minimum_rounds : Z)
    : outcome (Z * option AvalancheState) :=
  current_cutoff ← expect (avalanche_cutoffs parms !! current_state);
  if bool_decide (next current_cutoff ≠ current_state)
     && (minimum_rounds <=? current_rounds) then
    next_cutoff ← expect (avalanche_cutoffs parms !! next current_cutoff);
    _ ← assert_that (consensus_time current_cutoff <=? consensus_time next_cutoff);
    if consensus_time next_cutoff <=? percent_time then
      mret (consensus_pct next_cutoff, Some (next current_cutoff))
    else mret (consensus_pct current_cutoff, None)
  else mret (consensus_pct current_cutoff, None).

(** ** Specification *)

(** The order of the avalanche states. *)
Definition av_rank (s : AvalancheState) : nat :=
  match s with Init => 0 | Mid => 1 | Late => 2 | Stuck => 3 end.

(** A table is usable when every state has a row and the rows advance: a row
    points at itself or at a state of larger rank that demands more and whose
    cutoff is later. *)
Record cutoffs_ok (p : ConsensusParms) : Prop := {
  cutoffs_total : forall s, is_Some (avalanche_cutoffs p !! s);
  cutoffs_advance : forall s c c',
    avalanche_cutoffs p !! s = Some c -> avalanche_cutoffs p !! next c = Some c' ->
    next c <> s ->
    (av_rank s < av_rank (next c))%nat
    /\ consensus_time c <= consensus_time c' /\ consensus_pct c <= consensus_pct c';
  cutoffs_pct : forall s c, avalanche_cutoffs p !! s = Some c -> 0 <= consensus_pct c <= 100
}.

Lemma default_cutoffs_lookup s :
  default_cutoffs !! s = Some match s with
    | Init => mkCutoff 0 50 Mid | Mid => mkCutoff 50 65 Late
    | Late => mkCutoff 85 70 Stuck | Stuck => mkCutoff 200 95 Stuck end.
Proof. destruct s; reflexivity. Qed.

Lemma default_cutoffs_ok : cutoffs_ok default_parms.
Proof.
  split; simpl; intros; rewrite ?default_cutoffs_lookup in *; simplify_eq.
  - done.
  - destruct s; simplify_eq/=; try done; lia.
  - destruct s; simpl; lia.
Qed.

Lemma cutoffs_ok_get p s :
  cutoffs_ok p -> exists c, avalanche_cutoffs p !! s = Some c /\ 0 <= consensus_pct c <= 100.
Proof.
  intros H. destruct (cutoffs_total p H s) as [c Hc]. eauto using cutoffs_pct.
Qed.

(** On a usable table the function never panics. *)
Lemma get_needed_weight_total p s t n k :
  cutoffs_ok p -> exists w o, get_needed_weight p s t n k = Ok (w, o) /\ 0 <= w <= 100.
Proof.
  intros H. unfold get_needed_weight.
  destruct (cutoffs_ok_get p s H) as (c & Hc & Hp). rewrite Hc. simpl.
  destruct (cutoffs_ok_get p (next c) H) as (c' & Hc' & Hp').
  destruct (bool_decide_reflect (next c <> s)) as [Hne|]; simpl; [|eauto].
  destruct (cutoffs_advance p H s c c' Hc Hc' Hne) as (_ & Ht%Z.leb_le & _).
  destruct (k <=? n); simpl; [|eauto].
  rewrite Hc'. simpl. rewrite Ht. simpl. destruct (consensus_time c' <=? t); eauto.
Qed.

(** The two answers, with what the second one takes. *)
Lemma get_needed_weight_cases p s t n k :
  cutoffs_ok p ->
  exists c, avalanche_cutoffs p !! s = Some c /\
  (get_needed_weight p s t n k = Ok (consensus_pct c, None)
   \/ exists c', avalanche_cutoffs p !! next c = Some c'
        /\ get_needed_weight p s t n k = Ok (consensus_pct c', Some (next c))
        /\ k <= n /\ consensus_time c' <= t
        /\ (av_rank s < av_rank (next c))%nat /\ consensus_pct c <= consensus_pct c').
Proof.
  intros H. destruct (cutoffs_ok_get p s H) as (c & Hc & _). exists c. split; [done|].
  destruct (cutoffs_ok_get p (next c) H) as (c' & Hc' & _).
  unfold get_needed_weight. rewrite Hc. simpl.
  destruct (bool_decide_reflect (next c <> s)) as [Hne|]; [|by left].
  destruct (Z.leb_spec k n); [|by left]. simpl. rewrite Hc'. simpl.
  destruct (cutoffs_advance p H s c c' Hc Hc' Hne) as (? & Ht & ?).
  rewrite (proj2 (Z.leb_le _ _) Ht). simpl.
  destruct (Z.leb_spec (consensus_time c') t); [|by left].
  right. by exists c'.
Qed.

(** on a usable cutoff table [get_needed_weight] never panics, and its
    result is exact: it either keeps the state and asks for that state's
    percentage, or, only when the state's minimum number of rounds has been
    reached and the next cutoff's time has come, it moves to the next state,
    which is of strictly larger rank, and asks for that state's percentage,
    which is no smaller. *)
Theorem get_needed_weight_spec p s t n k :
  cutoffs_ok p ->
  exists c, avalanche_cutoffs p !! s = Some c /\
  (get_needed_weight p s t n k = Ok (consensus_pct c, None)
   \/ exists c', avalanche_cutoffs p !! next c = Some c'
        /\ get_needed_weight p s t n k = Ok (consensus_pct c', Some (next c))
        /\ k <= n /\ consensus_time c' <= t
        /\ (av_rank s < av_rank (next c))%nat /\ consensus_pct c <= consensus_pct c').
Proof. apply get_needed_weight_cases. Qed.

Lemma get_needed_weight_spec_witness :
  get_needed_weight default_parms Init 50 2 2 = Ok (65, Some Mid)
  /\ exists c, avalanche_cutoffs default_parms !! Init = Some c.
Proof.
  split; [reflexivity|].
  destruct (get_needed_weight_spec default_parms Init 50 2 2 default_cutoffs_ok) as (c & Hc & _).
  eauto.
Defined.
