(* ===== verification/Proposal.v ===== *)
(** * Proposed positions

    [xrpld/consensus/src/model/proposal.rs]: a peer's position on the transaction
    set with its sequence number, and the bow-out sentinel. *)

From S2P Require Import Prelude Chrono.

Section Proposal.
Context {NodeId LedgerId Position : Type}.

Record ConsensusProposal := mkProposal {
  previous_ledger : LedgerId;
  position : Position;
  close_time : NetClockTimePoint;
  seen_time : NetClockTimePoint;
  propose_seq : Z;               (* u32 *)
  node_id : NodeId
}.

Definition SEQ_JOIN : Z := 0.
Definition SEQ_LEAVE : Z := u32_max.

Definition new_proposal (pl : LedgerId) (seq : Z) (p : Position)
    (ct st : NetClockTimePoint) (n : NodeId) : ConsensusProposal :=
  mkProposal pl p ct st seq n.

Definition is_initial (p : ConsensusProposal) : bool := propose_seq p =? SEQ_JOIN.
Definition is_bow_out (p : ConsensusProposal) : bool := propose_seq p =? SEQ_LEAVE.
Definition is_stale (p : ConsensusProposal) (cutoff : NetClockTimePoint) : bool :=
  seen_time p <=? cutoff.

Definition change_position (new_position : Position) (new_close_time now : NetClockTimePoint)
    (p : ConsensusProposal) : ConsensusProposal := {|
  previous_ledger := previous_ledger p;
  position := new_position;
  close_time := new_close_time;
  seen_time := now;
  propose_seq := if propose_seq p =? SEQ_LEAVE then propose_seq p
                 else wrap_u32 (propose_seq p + 1);
  node_id := node_id p
|}.

Definition bow_out (now : NetClockTimePoint) (p : ConsensusProposal) : ConsensusProposal := {|
  previous_ledger := previous_ledger p;
  position := position p;
  close_time := close_time p;
  seen_time := now;
  propose_seq := SEQ_LEAVE;
  node_id := node_id p
|}.

(** ** Our own position over a round: a history of operations *)

Inductive proposal_step : ConsensusProposal -> ConsensusProposal -> Prop :=
| step_change p pos ct now : proposal_step p (change_position pos ct now p)
| step_bow_out p now : proposal_step p (bow_out now p).

Lemma change_position_seq pos ct now p :
  in_u32 (propose_seq p) ->
  propose_seq (change_position pos ct now p)
    = if propose_seq p =? SEQ_LEAVE then SEQ_LEAVE else propose_seq p + 1.
Proof.
  intros H. unfold change_position, SEQ_LEAVE. simpl.
  destruct (Z.eqb_spec (propose_seq p) u32_max) as [E|E]; [by rewrite E|].
  rewrite wrap_u32_id; machine.
Qed.

Lemma proposal_step_seq p p' :
  proposal_step p p' -> in_u32 (propose_seq p) ->
  in_u32 (propose_seq p')
  /\ (is_bow_out p = true -> is_bow_out p' = true)
  /\ (is_bow_out p = false -> propose_seq p < propose_seq p').
Proof.
  unfold is_bow_out. destruct 1 as [p pos ct now|p now]; intros H.
  - rewrite change_position_seq by done. unfold SEQ_LEAVE.
    destruct (Z.eqb_spec (propose_seq p) u32_max); rewrite ?Z.eqb_eq;
      split_and!; intros; try done; machine.
  - unfold bow_out, SEQ_LEAVE. simpl. rewrite ?Z.eqb_refl, Z.eqb_neq.
    split_and!; intros; try done; machine.
Qed.

(** over any history of position changes and bow-outs the sequence number
    stays a [u32], never decreases, strictly increases while the node has not
    bowed out, and once the node has bowed out it stays bowed out. *)
Theorem proposal_history p p' :
  rtc proposal_step p p' -> in_u32 (propose_seq p) ->
  in_u32 (propose_seq p')
  /\ propose_seq p <= propose_seq p'
  /\ (is_bow_out p = true -> is_bow_out p' = true)
  /\ (is_bow_out p = false -> p' = p \/ propose_seq p < propose_seq p').
Proof.
  induction 1 as [p|p q p' Hs _ IH]; intros H; [split_and!; auto; lia|].
  destruct (proposal_step_seq p q Hs H) as (Hq & Hb & Hl).
  destruct (IH Hq) as (? & Hle & Hb' & Hl').
  assert (is_bow_out p = true -> propose_seq p = propose_seq q) as Heq.
  { intros Hp. pose proof (Hb Hp) as Hqb. unfold is_bow_out in *.
    rewrite Z.eqb_eq in *. congruence. }
  split_and!; auto.
  - destruct (is_bow_out p); [rewrite Heq by done; lia | pose proof (Hl eq_refl); lia].
  - intros Hp. right. pose proof (Hl Hp). lia.
Qed.
End Proposal.

Arguments ConsensusProposal : clear implicits.

Lemma proposal_history_witness :
  let p : ConsensusProposal nat nat nat := new_proposal 1%nat 0 2%nat 10 10 7%nat in
  is_bow_out (change_position 3%nat 12 12 (bow_out 11 p)) = true.
Proof.
  intros p.
  refine (proj1 (proj2 (proj2 (proposal_history (bow_out 11 p) _ _ _))) eq_refl).
  - apply rtc_once. constructor.
  - unfold p. simpl. unfold SEQ_LEAVE. machine.
Defined.
