(* ===== verification/DisputedTx.v ===== *)
(** * Disputed transactions

    [xrpld/consensus/src/model/disputed_tx.rs]: the vote table of one disputed
    transaction, our own vote on it and its avalanche state. *)

From S2P Require Import Prelude Chrono Params.

(** [a / b] on [i32] panics on a zero divisor and on [i32::MIN / -1]. *)
Definition i32_div (a b : Z) : outcome Z :=
  if b =? 0 then Panic
  else if (a =? i32_min) && (b =? -1) then Panic
  else Ok (Z.quot a b).

(** The number of voters with vote [b], the quantity the counters cache. *)
Definition tally `{Countable NodeId} (b : bool) (m : gmap NodeId bool) : Z :=
  Z.of_nat (length (filter (fun kv => kv.2 = b) (map_to_list m))).

Section Disputed.
Context {Tx TxId NodeId : Type} `{Countable NodeId}.

Record DisputedTx := mkDisputed {
  yays : Z;                       (* i32 *)
  nays : Z;                       (* i32 *)
  our_vote : bool;
  tx : Tx;
  votes : gmap NodeId bool;
  current_vote_counter : Z;       (* usize *)
  avalanche_state : AvalancheState;
  avalanche_counter : Z;          (* usize *)
  tx_id : TxId
}.

Definition new_dispute (t : Tx) (id : TxId) (vote : bool) : DisputedTx :=
  mkDisputed 0 0 vote t ∅ 0 Init 0 id.

Definition set_our_vote (vote : bool) (d : DisputedTx) : DisputedTx :=
  mkDisputed (yays d) (nays d) vote (tx d) (votes d) (current_vote_counter d)
    (avalanche_state d) (avalanche_counter d) (tx_id d).

Definition with_votes (y n : Z) (vs : gmap NodeId bool) (d : DisputedTx) : DisputedTx :=
  mkDisputed y n (our_vote d) (tx d) vs (current_vote_counter d)
    (avalanche_state d) (avalanche_counter d) (tx_id d).

Definition set_vote (peer : NodeId) (votes_yes : bool) (d : DisputedTx) : DisputedTx * bool :=
  match (votes d !! peer : option bool) with
  | None =>
      let vs := <[peer := votes_yes]> (votes d) in
      if votes_yes then (with_votes (wrap_i32 (yays d + 1)) (nays d) vs d, true)
      else (with_votes (yays d) (wrap_i32 (nays d + 1)) vs d, true)
  | Some existing =>
      if bool_decide (existing ≠ votes_yes) then
        let vs := <[peer := votes_yes]> (votes d) in
        if votes_yes then
          (with_votes (wrap_i32 (yays d + 1)) (wrap_i32 (nays d - 1)) vs d, true)
        else
          (with_votes (wrap_i32 (yays d - 1)) (wrap_i32 (nays d + 1)) vs d, true)
      else (d, false)
  end.

Definition un_vote (peer : NodeId) (d : DisputedTx) : DisputedTx :=
  match (votes d !! peer : option bool) with
  | Some vote =>
      let vs := delete peer (votes d) in
      if vote then with_votes (wrap_i32 (yays d - 1)) (nays d) vs d
      else with_votes (yays d) (wrap_i32 (nays d - 1)) vs d
  | None => d
  end.

Definition stalled (parms : ConsensusParms) (proposing : bool) (peers_unchanged : Z)
    (d : DisputedTx) : outcome bool :=
  current_cutoff ← expect (avalanche_cutoffs parms !! avalanche_state d);
  next_cutoff ← expect (avalanche_cutoffs parms !! next current_cutoff);
  if (consensus_time current_cutoff <? consensus_time next_cutoff)
     || (avalanche_counter d <? av_min_rounds parms) then mret false
  else if proposing && (current_vote_counter d <? av_min_rounds parms) then mret false
  else if (peers_unchanged <? av_stalled_rounds parms)
     && (proposing && (current_vote_counter d <? av_stalled_rounds parms)) then mret false
  else
    let support := wrap_i32 (wrap_i32 (yays d + Z.b2z (proposing && our_vote d)) * 100) in
    let total := wrap_i32 (wrap_i32 (nays d + yays d) + Z.b2z proposing) in
    if total =? 0 then mret false
    else
      weight ← i32_div support total;
      min_pct ← expect (i32_try_from (min_consensus_pct parms));
      mret ((min_pct <? weight) || (weight <? wrap_i32 (100 - min_pct))).

(** Returns the updated dispute and whether our vote changed. *)
Definition update_vote (percent_time : Z) (proposing : bool) (parms : ConsensusParms)
    (d : DisputedTx) : outcome (DisputedTx * bool) :=
  if our_vote d && (nays d =? 0) then mret (d, false)
  else if negb (our_vote d) && (yays d =? 0) then mret (d, false)
  else
    let counter := wrap_u64 (avalanche_counter d + 1) in
    '(required_pct, new_state) ← get_needed_weight parms (avalanche_state d) percent_time
      counter (av_min_rounds parms);
    let '(state', counter') :=
      match new_state with Some s => (s, 0) | None => (avalanche_state d, counter) end in
    new_position ←
      (if proposing then
         weight ← i32_div
           (wrap_i32 (wrap_i32 (yays d * 100) + wrap_i32 (Z.b2z (our_vote d) * 100)))
           (wrap_i32 (wrap_i32 (nays d + yays d) + 1));
         required ← expect (i32_try_from required_pct);
         mret (required <? weight)
       else mret (nays d <? yays d));
    if bool_decide (new_position = our_vote d) then
      mret (mkDisputed (yays d) (nays d) (our_vote d) (tx d) (votes d)
              (wrap_u64 (current_vote_counter d + 1)) state' counter' (tx_id d), false)
    else
      mret (mkDisputed (yays d) (nays d) new_position (tx d) (votes d)
              0 state' counter' (tx_id d), true).

(** ** Invariant: the counters cache the vote table *)

Record dispute_ok (d : DisputedTx) : Prop := {
  dispute_yays : yays d = tally true (votes d);
  dispute_nays : nays d = tally false (votes d);
  dispute_small : Z.of_nat (size (votes d)) <= 20000000
}.
End Disputed.

Arguments DisputedTx Tx TxId NodeId {_ _}.

(** ** The tally of a vote table *)

Section Tally.
Context `{Countable NodeId}.
Implicit Types m : gmap NodeId bool.

Lemma tally_insert_new b k v m :
  m !! k = None -> tally b (<[k := v]> m) = tally b m + (if decide (v = b) then 1 else 0).
Proof.
  intros Hk. unfold tally. rewrite map_to_list_insert by done.
  rewrite filter_cons. simpl. case_decide; simpl; lia.
Qed.

Lemma tally_delete b k v m :
  m !! k = Some v -> tally b (delete k m) = tally b m - (if decide (v = b) then 1 else 0).
Proof.
  intros Hk. rewrite <- (insert_delete_id m k v Hk) at 2.
  rewrite tally_insert_new by apply lookup_delete_eq. lia.
Qed.

Lemma tally_insert_old b k v v' m :
  m !! k = Some v ->
  tally b (<[k := v']> m)
    = tally b m - (if decide (v = b) then 1 else 0) + (if decide (v' = b) then 1 else 0).
Proof.
  intros Hk. rewrite <- insert_delete_eq.
  rewrite tally_insert_new by apply lookup_delete_eq. by rewrite (tally_delete b k v).
Qed.

Lemma tally_sum m : tally true m + tally false m = Z.of_nat (size m).
Proof.
  induction m as [|k v m Hk IH] using map_ind; [done|].
  rewrite !tally_insert_new by done. rewrite map_size_insert_None by done.
  destruct v; repeat case_decide; try done; lia.
Qed.

Lemma tally_nonneg b m : 0 <= tally b m.
Proof. unfold tally. lia. Qed.

Lemma tally_bound b m : tally b m <= Z.of_nat (size m).
Proof. pose proof (tally_sum m). destruct b; pose proof (tally_nonneg true m);
  pose proof (tally_nonneg false m); lia. Qed.

Lemma tally_pos b k m : m !! k = Some b -> 1 <= tally b m.
Proof.
  intros Hk. pose proof (tally_delete b k b m Hk). rewrite decide_True in * by done.
  pose proof (tally_nonneg b (delete k m)). lia.
Qed.
End Tally.

Section DisputedFacts.
Context {Tx TxId NodeId : Type} `{Countable NodeId}.
Implicit Types d : DisputedTx Tx TxId NodeId.

(** Both counters of a well-formed dispute lie well inside [i32]. *)
Lemma dispute_bounds d :
  dispute_ok d ->
  0 <= yays d /\ 0 <= nays d /\ yays d + nays d = Z.of_nat (size (votes d))
  /\ yays d + nays d <= 20000000.
Proof.
  intros [Hy Hn Hs]. pose proof (tally_sum (votes d)).
  pose proof (tally_nonneg true (votes d)). pose proof (tally_nonneg false (votes d)). lia.
Qed.

Lemma size_insert_le (m : gmap NodeId bool) k v :
  (size (<[k := v]> m) <= S (size m))%nat.
Proof.
  destruct (m !! k) eqn:E; [rewrite map_size_insert_Some by eauto; lia|].
  rewrite map_size_insert_None by done. lia.
Qed.

Lemma new_dispute_ok (t : Tx) (id : TxId) b : dispute_ok (new_dispute t id b : DisputedTx Tx TxId NodeId).
Proof. split; simpl; rewrite ?map_size_empty; try done; lia. Qed.

(** The effect of [set_vote] on every field. *)
Lemma set_vote_fields p v d d' b :
  set_vote p v d = (d', b) ->
  votes d' = <[p := v]> (votes d) /\ our_vote d' = our_vote d /\ tx d' = tx d
  /\ tx_id d' = tx_id d /\ current_vote_counter d' = current_vote_counter d
  /\ avalanche_state d' = avalanche_state d /\ avalanche_counter d' = avalanche_counter d
  /\ b = bool_decide (votes d !! p ≠ Some v).
Proof.
  unfold set_vote. destruct (votes d !! p) as [e|] eqn:E.
  - case_bool_decide as Hne.
    + rewrite (bool_decide_eq_true_2 (Some e ≠ Some v)) by congruence.
      destruct v; intros; simplify_eq; done.
    + subst e.
      rewrite (bool_decide_eq_false_2 (Some v ≠ Some v)) by auto.
      intros; simplify_eq. rewrite insert_id by done. done.
  - rewrite bool_decide_eq_true_2 by done. destruct v; intros; simplify_eq; done.
Qed.

Lemma set_vote_preserves p v d d' b :
  dispute_ok d -> Z.of_nat (size (votes d)) < 20000000 ->
  set_vote p v d = (d', b) -> dispute_ok d'.
Proof.
  intros Hok Hs Hset. pose proof (dispute_bounds d Hok) as (? & ? & ? & ?).
  destruct Hok as [Hy Hn _].
  destruct (set_vote_fields p v d d' b Hset) as (Hv & _).
  assert (Z.of_nat (size (votes d')) <= 20000000) as Hsz.
  { rewrite Hv. pose proof (size_insert_le (votes d) p v). lia. }
  split; [| | done]; rewrite Hv; unfold set_vote in Hset.
  all: destruct (votes d !! p) as [e|] eqn:E;
    [rewrite (tally_insert_old _ p e v) by done | rewrite tally_insert_new by done].
  all: try (pose proof (tally_pos e p (votes d) E)).
  all: destruct v; try destruct e; simpl in Hset; simplify_eq/=;
    repeat case_decide; try done; rewrite ?wrap_i32_id; machine.
Qed.

Lemma un_vote_votes p d : votes (un_vote p d) = delete p (votes d).
Proof.
  unfold un_vote. destruct (votes d !! p) as [[]|] eqn:E; simpl; [done..|].
  by rewrite delete_id.
Qed.

Lemma un_vote_preserves p d : dispute_ok d -> dispute_ok (un_vote p d).
Proof.
  intros Hok. pose proof (dispute_bounds d Hok) as (? & ? & ? & ?).
  destruct Hok as [Hy Hn Hs]. unfold un_vote.
  destruct (votes d !! p) as [e|] eqn:E; [|by split].
  assert (Z.of_nat (size (delete p (votes d))) <= 20000000).
  { rewrite map_size_delete_Some by eauto. lia. }
  pose proof (tally_pos e p (votes d) E).
  destruct e; split; simpl; rewrite ?(tally_delete _ p _ _ E);
    repeat case_decide; try done; rewrite ?wrap_i32_id; machine.
Qed.

Lemma un_vote_other p d :
  our_vote (un_vote p d) = our_vote d /\ tx_id (un_vote p d) = tx_id d
  /\ tx (un_vote p d) = tx d.
Proof. unfold un_vote. by destruct (votes d !! p) as [[]|]. Qed.

Lemma i32_div_pos a b : 0 <= a -> 0 < b -> i32_div a b = Ok (a / b).
Proof.
  intros. unfold i32_div. rewrite (proj2 (Z.eqb_neq b 0)) by lia.
  rewrite (proj2 (Z.eqb_neq b (-1))) by lia. rewrite andb_false_r.
  by rewrite Z.quot_div_nonneg by lia.
Qed.

(** [required < a / b] without the division. *)
Lemma ltb_div_iff r a b : 0 < b -> (r <? a / b) = (((r + 1) * b) <=? a).
Proof.
  intros. destruct (Z.ltb_spec r (a / b)), (Z.leb_spec ((r + 1) * b) a); try done.
  - assert (r + 1 <= a / b) by lia. pose proof (Z.mul_div_le a b). nia.
  - assert (a / b < r + 1) by lia.
    assert (r + 1 <= a / b) by (apply Z.div_le_lower_bound; lia). lia.
Qed.

Lemma div_ltb_iff r a b : 0 < b -> (a / b <? r) = (a <? r * b).
Proof.
  intros. destruct (Z.ltb_spec (a / b) r), (Z.ltb_spec a (r * b)); try done.
  - assert (a / b < r) by lia.
    assert (r <= a / b) by (apply Z.div_le_lower_bound; lia). lia.
  - assert (a / b < r) by (apply Z.div_lt_upper_bound; lia). lia.
Qed.
End DisputedFacts.

(** ** Specification and theorems *)

Section DisputedSpec.
Context {Tx TxId NodeId : Type} `{Countable NodeId}.
Implicit Types d : DisputedTx Tx TxId NodeId.

(** Someone votes against our vote. *)
Definition opposed (d : DisputedTx Tx TxId NodeId) : bool :=
  if our_vote d then negb (nays d =? 0) else negb (yays d =? 0).

(** The vote the counts call for: when proposing, our own vote counts in full
    and the yes share must exceed the required percentage; otherwise the
    majority of the peers. *)
Definition next_vote (proposing : bool) (required : Z) (d : DisputedTx Tx TxId NodeId) : bool :=
  if proposing then
    (required + 1) * (nays d + yays d + 1) <=? 100 * (yays d + Z.b2z (our_vote d))
  else nays d <? yays d.

(** The share of yes votes, ourselves included when proposing. *)
Definition yes_support (proposing : bool) (d : DisputedTx Tx TxId NodeId) : Z :=
  yays d + Z.b2z (proposing && our_vote d).
Definition voters (proposing : bool) (d : DisputedTx Tx TxId NodeId) : Z :=
  nays d + yays d + Z.b2z proposing.

Lemma update_vote_unopposed t proposing p d :
  opposed d = false -> update_vote t proposing p d = Ok (d, false).
Proof.
  unfold opposed, update_vote. destruct (our_vote d); simpl;
    intros ->%negb_false_iff; done.
Qed.

(** An opposed dispute passes both early returns of [update_vote]. *)
Lemma opposed_guards d :
  opposed d = true ->
  our_vote d && (nays d =? 0) = false /\ negb (our_vote d) && (yays d =? 0) = false.
Proof. unfold opposed. by destruct (our_vote d); simpl; intros ->%negb_true_iff. Qed.

(** The new vote computed from the counters, with no overflow. *)
Lemma update_vote_weight (proposing : bool) required d :
  dispute_ok d -> 0 <= required <= 100 ->
  (if proposing then
     weight ← i32_div
       (wrap_i32 (wrap_i32 (yays d * 100) + wrap_i32 (Z.b2z (our_vote d) * 100)))
       (wrap_i32 (wrap_i32 (nays d + yays d) + 1));
     required ← expect (i32_try_from required);
     mret (required <? weight)
   else mret (nays d <? yays d) : outcome bool) = Ok (next_vote proposing required d).
Proof.
  intros Hok Hr. pose proof (dispute_bounds d Hok) as (? & ? & ? & ?).
  unfold next_vote. destruct proposing; [|done].
  assert (0 <= Z.b2z (our_vote d) <= 1) by (destruct (our_vote d); simpl; lia).
  rewrite (wrap_i32_id (yays d * 100)) by machine.
  rewrite (wrap_i32_id (Z.b2z (our_vote d) * 100)) by machine.
  rewrite (wrap_i32_id (nays d + yays d)) by machine.
  rewrite !wrap_i32_id by machine. rewrite i32_div_pos by lia. simpl.
  unfold i32_try_from. rewrite !(proj2 (Z.leb_le _ _)) by machine. simpl.
  rewrite ltb_div_iff by lia. do 2 f_equal. lia.
Qed.

(** [set_vote] records the peer's vote, reports a change exactly when the
    peer's recorded vote was absent or different, and leaves the yes and no
    counters equal to the number of yes and no entries of the vote table. *)
Theorem set_vote_spec p v d :
  dispute_ok d -> Z.of_nat (size (votes d)) < 20000000 ->
  exists d', set_vote p v d = (d', bool_decide (votes d !! p ≠ Some v))
    /\ votes d' = <[p := v]> (votes d)
    /\ yays d' = tally true (<[p := v]> (votes d))
    /\ nays d' = tally false (<[p := v]> (votes d))
    /\ our_vote d' = our_vote d /\ avalanche_state d' = avalanche_state d.
Proof.
  intros Hok Hs. destruct (set_vote p v d) as [d' b] eqn:E. exists d'.
  pose proof (set_vote_fields p v d d' b E) as (Hv & ? & ? & ? & ? & ? & ? & ->).
  pose proof (set_vote_preserves p v d d' _ Hok Hs E) as [Hy Hn _].
  rewrite Hv in Hy, Hn. done.
Qed.

(** removing a peer's vote right after recording a first vote of that peer
    restores the dispute exactly, and in general [un_vote] keeps the counters
    equal to the tallies of the remaining votes. *)
Theorem un_vote_spec p d :
  dispute_ok d ->
  dispute_ok (un_vote p d) /\ votes (un_vote p d) = delete p (votes d)
  /\ (votes d !! p = None -> Z.of_nat (size (votes d)) < 20000000 ->
      forall v, un_vote p (set_vote p v d).1 = d).
Proof.
  intros Hok. split_and!; [by apply un_vote_preserves | apply un_vote_votes |].
  intros Hp Hs v. pose proof (dispute_bounds d Hok) as (? & ? & ? & ?).
  unfold set_vote. rewrite Hp. unfold un_vote.
  destruct v; simpl; rewrite lookup_insert_eq; unfold with_votes; simpl;
    rewrite delete_insert_id by done; destruct d; simpl in *; f_equal;
    rewrite ?wrap_i32_id; machine.
Qed.

(** The dispute after a round of voting at the required weight [w]. *)
Definition voted (proposing : bool) (w : Z) (o : option AvalancheState) (c : Z)
    (d : DisputedTx Tx TxId NodeId) : DisputedTx Tx TxId NodeId :=
  mkDisputed (yays d) (nays d) (next_vote proposing w d) (tx d) (votes d)
    (if bool_decide (next_vote proposing w d = our_vote d)
     then wrap_u64 (current_vote_counter d + 1) else 0)
    (default (avalanche_state d) o) (match o with Some _ => 0 | None => c end) (tx_id d).

Lemma update_vote_opposed t proposing p d :
  dispute_ok d -> cutoffs_ok p -> opposed d = true ->
  let c := wrap_u64 (avalanche_counter d + 1) in
  exists w o, get_needed_weight p (avalanche_state d) t c (av_min_rounds p) = Ok (w, o)
    /\ let d' := voted proposing w o c d in
       update_vote t proposing p d = Ok (d', bool_decide (our_vote d' ≠ our_vote d)).
Proof.
  intros Hok Hp Hop c.
  destruct (get_needed_weight_total p (avalanche_state d) t c (av_min_rounds p) Hp)
    as (w & o & Hw & Hwb). exists w, o. split; [done|]. simpl.
  destruct (opposed_guards d Hop) as [G1 G2].
  unfold update_vote, voted. rewrite G1, G2. fold c. rewrite Hw. simpl.
  rewrite (update_vote_weight proposing w d Hok Hwb). simpl.
  destruct o; simpl; destruct (next_vote proposing w d), (our_vote d); reflexivity.
Qed.

Lemma voted_ok proposing w o c d : dispute_ok d -> dispute_ok (voted proposing w o c d).
Proof. intros []. by split. Qed.

(** Voting never panics and changes nothing but our vote and the schedule. *)
Lemma update_vote_ok t proposing p d :
  dispute_ok d -> cutoffs_ok p ->
  exists d', update_vote t proposing p d = Ok (d', bool_decide (our_vote d' ≠ our_vote d))
    /\ votes d' = votes d /\ tx d' = tx d /\ dispute_ok d'.
Proof.
  intros Hok Hp. destruct (opposed d) eqn:Hop.
  - destruct (update_vote_opposed t proposing p d Hok Hp Hop) as (w & o & _ & Hup).
    eexists. split; [exact Hup|]. split_and!; [done | done | by apply voted_ok].
  - exists d. rewrite update_vote_unopposed by done.
    rewrite bool_decide_eq_false_2 by auto. done.
Qed.

(** one round of voting: an unopposed dispute is left alone; otherwise the
    update never panics, our new vote is the one the counts call for at the
    percentage the avalanche schedule requires, the returned flag says whether
    it changed, the avalanche state never moves backwards, and the votes of
    the peers are untouched. *)
Theorem update_vote_spec t proposing p d :
  dispute_ok d -> cutoffs_ok p ->
  (opposed d = false -> update_vote t proposing p d = Ok (d, false))
  /\ (opposed d = true -> exists w o d',
      get_needed_weight p (avalanche_state d) t
        (wrap_u64 (avalanche_counter d + 1)) (av_min_rounds p) = Ok (w, o)
      /\ update_vote t proposing p d = Ok (d', bool_decide (our_vote d' ≠ our_vote d))
      /\ our_vote d' = next_vote proposing w d
      /\ avalanche_state d' = default (avalanche_state d) o
      /\ (av_rank (avalanche_state d) <= av_rank (avalanche_state d'))%nat
      /\ votes d' = votes d /\ dispute_ok d').
Proof.
  intros Hok Hp. split; [apply update_vote_unopposed|]. intros Hop.
  destruct (update_vote_opposed t proposing p d Hok Hp Hop) as (w & o & Hw & Hup).
  assert (av_rank (avalanche_state d) <= av_rank (default (avalanche_state d) o))%nat as Hrank.
  { destruct (get_needed_weight_cases p (avalanche_state d) t
      (wrap_u64 (avalanche_counter d + 1)) (av_min_rounds p) Hp)
      as (k & _ & [E|(k' & _ & E & _ & _ & Hr & _)]); rewrite E in Hw; simplify_eq/=; lia. }
  do 3 eexists. split; [exact Hw|]. split; [exact Hup|].
  split_and!; [done | done | done | done | by apply voted_ok].
Qed.

(** The stall test, with what a positive answer takes. *)
Lemma stalled_total proposing peers_unchanged p d :
  dispute_ok d -> cutoffs_ok p -> 0 <= min_consensus_pct p <= 100 ->
  exists b, stalled p proposing peers_unchanged d = Ok b
  /\ (b = true ->
      (exists c c', avalanche_cutoffs p !! avalanche_state d = Some c
         /\ avalanche_cutoffs p !! next c = Some c' /\ consensus_time c' <= consensus_time c)
      /\ av_min_rounds p <= avalanche_counter d
      /\ 0 < voters proposing d
      /\ ((min_consensus_pct p + 1) * voters proposing d <= 100 * yes_support proposing d
          \/ 100 * yes_support proposing d < (100 - min_consensus_pct p) * voters proposing d)).
Proof.
  intros Hok Hp Hpct. pose proof (dispute_bounds d Hok) as (? & ? & ? & ?).
  destruct (cutoffs_ok_get p (avalanche_state d) Hp) as (c & Hc & _).
  destruct (cutoffs_ok_get p (next c) Hp) as (c' & Hc' & _).
  unfold stalled. rewrite Hc. simpl. rewrite Hc'. simpl.
  destruct (Z.ltb_spec (consensus_time c) (consensus_time c')) as [|Ht]; simpl; [by eexists|].
  destruct (Z.ltb_spec (avalanche_counter d) (av_min_rounds p)) as [|Hm]; simpl; [by eexists|].
  destruct (proposing && _); simpl; [by eexists|].
  destruct ((peers_unchanged <? _) && _); simpl; [by eexists|].
  assert (0 <= Z.b2z (proposing && our_vote d) <= 1)
    by (destruct (proposing && our_vote d); simpl; lia).
  assert (0 <= Z.b2z proposing <= 1) by (destruct proposing; simpl; lia).
  rewrite (wrap_i32_id (nays d + yays d)) by machine.
  rewrite (wrap_i32_id (yays d + _)) by machine.
  rewrite !(wrap_i32_id (_ * 100)), !(wrap_i32_id (_ + Z.b2z proposing)) by machine.
  unfold voters, yes_support.
  destruct (Z.eqb_spec (nays d + yays d + Z.b2z proposing) 0) as [|Hnz]; [by eexists|].
  rewrite i32_div_pos by lia. simpl. unfold i32_try_from.
  rewrite !(proj2 (Z.leb_le _ _)) by machine. simpl.
  rewrite wrap_i32_id by machine. eexists. split; [done|].
  rewrite ltb_div_iff, div_ltb_iff by lia. rewrite orb_true_iff, Z.leb_le, Z.ltb_lt.
  intros Hb. split_and!; [by eauto | done | lia | lia].
Qed.

(** a dispute is reported stalled only in a state with no later cutoff and
    only when the yes votes, ours included when proposing, are either more
    than [min_consensus_pct] percent of the voters or fewer than the
    complement; the test never panics on a usable table. *)
Theorem stalled_spec proposing peers_unchanged p d :
  dispute_ok d -> cutoffs_ok p -> 0 <= min_consensus_pct p <= 100 ->
  exists b, stalled p proposing peers_unchanged d = Ok b
  /\ (b = true ->
      (exists c c', avalanche_cutoffs p !! avalanche_state d = Some c
         /\ avalanche_cutoffs p !! next c = Some c' /\ consensus_time c' <= consensus_time c)
      /\ av_min_rounds p <= avalanche_counter d
      /\ 0 < voters proposing d
      /\ ((min_consensus_pct p + 1) * voters proposing d <= 100 * yes_support proposing d
          \/ 100 * yes_support proposing d < (100 - min_consensus_pct p) * voters proposing d)).
Proof. apply stalled_total. Qed.
End DisputedSpec.

(** A dispute with 18 yes votes and one no vote, used by the witnesses. *)
Definition sample_dispute : DisputedTx nat nat Z :=
  foldl (fun d k => (set_vote k true d).1) (set_vote 1 false (new_dispute 1%nat 100%nat true)).1
    (Z.of_nat <$> seq 2 18).

Lemma sample_dispute_ok : dispute_ok sample_dispute.
Proof. split; vm_compute; congruence. Qed.

Lemma set_vote_spec_witness :
  exists d', set_vote 1 true sample_dispute = (d', true) /\ nays d' = 0.
Proof.
  destruct (set_vote_spec 1 true sample_dispute sample_dispute_ok eq_refl) as (d' & E & _ & _ & Hn & _).
  exists d'. split; [rewrite E; reflexivity | rewrite Hn; vm_compute; reflexivity].
Defined.

Lemma un_vote_spec_witness :
  dispute_ok (un_vote 1 sample_dispute).
Proof. exact (proj1 (un_vote_spec 1 sample_dispute sample_dispute_ok)). Defined.

Lemma update_vote_spec_witness :
  exists d', update_vote 250 true default_parms sample_dispute = Ok (d', false).
Proof.
  destruct (proj2 (update_vote_spec 250 true default_parms sample_dispute
    sample_dispute_ok default_cutoffs_ok) eq_refl) as (w & o & d' & Hw & E & Hv & _).
  exists d'. rewrite E. do 3 f_equal. rewrite Hv.
  vm_compute in Hw. injection Hw as <- <-. reflexivity.
Defined.

Lemma stalled_spec_witness :
  exists b, stalled default_parms true 4 sample_dispute = Ok b.
Proof.
  destruct (stalled_spec true 4 default_parms sample_dispute sample_dispute_ok
    default_cutoffs_ok) as (b & E & _); [vm_compute; split; congruence|]. eauto.
Defined.
