(* ===== verification/Types.v ===== *)
(** * Supporting types of the consensus state machine

    [xrpld/consensus/src/algorithm/types.rs]: participation modes, phases, the
    phase timer, the close times reported by peers, the result of a round and
    [participants_needed]. *)

From S2P Require Import Prelude Chrono Params Proposal DisputedTx.

Inductive ConsensusMode := Proposing | Observing | WrongLedger | SwitchedLedger.
Inductive ConsensusPhase := Open | Establish | Accepted.
Inductive ConsensusState := No | MovedOn | Expired | Yes.

#[global] Instance ConsensusMode_eq_dec : EqDecision ConsensusMode.
Proof. solve_decision. Defined.
#[global] Instance ConsensusPhase_eq_dec : EqDecision ConsensusPhase.
Proof. solve_decision. Defined.
#[global] Instance ConsensusState_eq_dec : EqDecision ConsensusState.
Proof. solve_decision. Defined.

(** ** [ConsensusTimer] *)

Record ConsensusTimer := mkTimer {
  timer_start : option Z;        (* Instant *)
  timer_dur : Z                  (* Duration *)
}.

Definition timer_default : ConsensusTimer := mkTimer None 0.
Definition timer_read (t : ConsensusTimer) : Z := timer_dur t.
Definition timer_tick_fixed (fixed : Z) (t : ConsensusTimer) : outcome ConsensusTimer :=
  d ← duration_add (timer_dur t) fixed; mret (mkTimer (timer_start t) d).
Definition timer_reset (tp : Z) (t : ConsensusTimer) : ConsensusTimer := mkTimer (Some tp) 0.
Definition timer_tick_to (tp : Z) (t : ConsensusTimer) : ConsensusTimer :=
  match timer_start t with
  | Some start => mkTimer (timer_start t) (saturating_duration_since tp start)
  | None => t
  end.

(** ** [ConsensusCloseTimes] *)

Record ConsensusCloseTimes := mkCloseTimes {
  ct_peers : gmap NetClockTimePoint Z;   (* BTreeMap<NetClockTimePoint, i32> *)
  ct_self : NetClockTimePoint
}.
Definition close_times_default : ConsensusCloseTimes := mkCloseTimes ∅ net_clock_default.

(** ** [ConsensusResult] *)

Section Result.
Context {TxSet NodeId LedgerId TxSetId Tx TxId : Type}.
Context `{Countable NodeId} `{Countable TxSetId} `{Countable TxId}.

Record ConsensusResult := mkResult {
  txns : TxSet;
  res_position : ConsensusProposal NodeId LedgerId TxSetId;
  disputes : gmap TxId (DisputedTx Tx TxId NodeId);
  compares : gset TxSetId;
  round_time : ConsensusTimer;
  res_state : ConsensusState;
  proposers : Z                (* usize *)
}.

(** The id of the set is asserted to be the one the position names. *)
Definition new_result (t : TxSet) (p : ConsensusProposal NodeId LedgerId TxSetId)
    (txns_id : TxSetId) : outcome ConsensusResult :=
  _ ← assert_that (bool_decide (txns_id = position p));
  mret (mkResult t p ∅ ∅ timer_default No 0).

Lemma new_result_Ok t p i r :
  new_result t p i = Ok r <-> i = position p /\ r = mkResult t p ∅ ∅ timer_default No 0.
Proof.
  unfold new_result. case_bool_decide; simpl; split; [intros [= <-] | intros [_ ->] | | intros [? _]]; done.
Qed.
End Result.
Arguments ConsensusResult TxSet NodeId LedgerId TxSetId Tx TxId {_ _ _ _ _ _}.

(** ** [participants_needed] *)

Definition participants_needed (participants percent : Z) : Z :=
  let result :=
    Z.quot (wrap_i32 (wrap_i32 (participants * percent) + Z.quot percent 2)) 100 in
  if result =? 0 then 1 else result.

Lemma participants_needed_value n pct :
  1 <= n <= 20000000 -> 0 <= pct <= 100 ->
  participants_needed n pct = Z.max 1 ((n * pct + pct / 2) / 100).
Proof.
  intros Hn Hp. assert (0 <= n * pct <= 2000000000) by nia.
  assert (0 <= pct / 2 <= 50) by machine.
  unfold participants_needed. rewrite (Z.quot_div_nonneg pct 2) by lia.
  rewrite (wrap_i32_id (n * pct)) by machine.
  rewrite wrap_i32_id by machine. rewrite Z.quot_div_nonneg by lia.
  assert (0 <= (n * pct + pct / 2) / 100) by (apply Z.div_pos; lia).
  destruct (Z.eqb_spec ((n * pct + pct / 2) / 100) 0); lia.
Qed.

(** for a percentage and a number of participants whose product fits in
    [i32], the number of participants needed is at least one, at most the number
    of participants, grows with the number of participants, and misses the exact
    share [participants * percent / 100] by less than one participant unless the
    floor of one applies. *)
Theorem participants_needed_spec n pct :
  1 <= n <= 20000000 -> 0 <= pct <= 100 ->
  let r := participants_needed n pct in
  1 <= r <= n
  /\ (r = 1 \/ Z.abs (100 * r - n * pct) < 100)
  /\ (forall n', n <= n' <= 20000000 -> r <= participants_needed n' pct).
Proof.
  intros Hn Hp r. subst r. rewrite (participants_needed_value n) by done.
  assert (0 <= pct / 2 <= 50) as Hh by machine.
  split_and!; [lia | | |].
  - assert ((n * pct + pct / 2) / 100 < n + 1); [|lia].
    apply Z.div_lt_upper_bound; nia.
  - destruct (Z.max_spec 1 ((n * pct + pct / 2) / 100)) as [[? ->]|[? ->]]; [right|by left].
    pose proof (Z.div_mod (n * pct + pct / 2) 100 ltac:(lia)).
    pose proof (Z.mod_pos_bound (n * pct + pct / 2) 100 ltac:(lia)). lia.
  - intros n' Hn'. rewrite (participants_needed_value n') by lia.
    assert ((n * pct + pct / 2) / 100 <= (n' * pct + pct / 2) / 100)
      by (apply Z.div_le_mono; nia). lia.
Qed.

Lemma participants_needed_spec_witness :
  participants_needed 5 70 = 3 /\ 1 <= participants_needed 5 70 <= 5.
Proof.
  split; [reflexivity|].
  refine (proj1 (participants_needed_spec 5 70 _ _)); lia.
Defined.
