(* ===== verification/Functions.v ===== *)
(** * Closing and consensus decisions

    [xrpld/consensus/src/algorithm/functions.rs]: [should_close_ledger],
    [check_consensus_reached] and [check_consensus].  Durations are nanoseconds;
    [usize] sums and products wrap at 64 bits, [Duration] sums and [clamp] panic. *)

From S2P Require Import Prelude Chrono Params Types.

Definition should_close_ledger (any_transactions : bool)
    (prev_proposers proposers_closed proposers_validated : Z)
    (prev_round_time time_since_prev_close open_time idle_interval : Z)
    (parms : ConsensusParms) : bool :=
  if (from_secs 600 <? prev_round_time) || (from_secs 600 <? time_since_prev_close) then true
  else if prev_proposers / 2 <? wrap_u64 (proposers_closed + proposers_validated) then true
  else if negb any_transactions then idle_interval <=? time_since_prev_close
  else if open_time <? ledger_min_close parms then false
  else if open_time <? prev_round_time / 2 then false
  else true.

Definition check_consensus_reached (agreeing total : Z) (count_self : bool)
    (min_consensus_pct : Z) (reached_max stalled : bool) : outcome bool :=
  if total =? 0 then mret reached_max
  else if stalled then mret true
  else
    let '(agreeing, total) :=
      if count_self then (wrap_u64 (agreeing + 1), wrap_u64 (total + 1))
      else (agreeing, total) in
    if total =? 0 then Panic
    else
      let current_percentage := wrap_u64 (agreeing * 100) / total in
      mret (min_consensus_pct <=? current_percentage).

Definition check_consensus
    (prev_proposers current_proposers current_agree current_finished : Z)
    (previous_agree_time current_agree_time : Z) (stalled : bool)
    (parms : ConsensusParms) (proposing : bool) : outcome ConsensusState :=
  if current_agree_time <=? ledger_min_consensus parms then mret No
  else
    too_fast ←
      (if current_proposers <? wrap_u64 (prev_proposers * 3) / 4 then
         limit ← duration_add previous_agree_time (ledger_min_consensus parms);
         mret (current_agree_time <? limit)
       else mret false);
    if (too_fast : bool) then mret No
    else
      let reached_max := ledger_max_consensus parms <? current_agree_time in
      reached ← check_consensus_reached current_agree current_proposers proposing
        (min_consensus_pct parms) reached_max stalled;
      if (reached : bool) then mret Yes
      else
        moved_on ← check_consensus_reached current_finished current_proposers false
          (min_consensus_pct parms) reached_max false;
        if (moved_on : bool) then mret MovedOn
        else
          let max_agree_time := duration_saturating_mul previous_agree_time
            (wrap_u32 (ledger_abandon_consensus_factor parms)) in
          clamped_max ← duration_clamp max_agree_time
            (ledger_max_consensus parms) (ledger_abandon_consensus parms);
          if clamped_max <? current_agree_time then mret Expired else mret No.

(** ** Specification *)

(** Validator counts, far below the 64-bit limits of the percentage product. *)
Definition count_ok (n : Z) : Prop := 0 <= n <= 1000000000000000.

Record parms_ok (p : ConsensusParms) : Prop := {
  parms_clamp : ledger_max_consensus p <= ledger_abandon_consensus p;
  parms_min : 0 <= ledger_min_consensus p;
  parms_abandon : ledger_abandon_consensus p <= duration_max
}.

(** At least [pct] percent of [total] participants (ourselves included when
    [self]) agree. *)
Definition quorum (pct agreeing total : Z) (self : bool) : Prop :=
  pct * (total + Z.b2z self) <= 100 * (agreeing + Z.b2z self).

(** Fewer than three quarters of the last round's proposers are here and the
    round has not yet lasted as long as the last one plus the minimum. *)
Definition too_fast (p : ConsensusParms) (prev_proposers current_proposers : Z)
    (previous_agree_time current_agree_time : Z) : Prop :=
  current_proposers < prev_proposers * 3 / 4
  /\ current_agree_time < previous_agree_time + ledger_min_consensus p.

Lemma default_parms_ok : parms_ok default_parms.
Proof. split; vm_compute; congruence. Qed.

Lemma leb_div_iff r a b : 0 < b -> (r <=? a / b) = (r * b <=? a).
Proof.
  intros. destruct (Z.leb_spec r (a / b)), (Z.leb_spec (r * b) a); try done.
  - pose proof (Z.mul_div_le a b). nia.
  - assert (r <= a / b) by (apply Z.div_le_lower_bound; lia). lia.
Qed.

(** The threshold test is exact: no rounding, no overflow. *)
Lemma check_consensus_reached_spec agreeing total self pct reached_max stalled :
  count_ok agreeing -> count_ok total ->
  exists b, check_consensus_reached agreeing total self pct reached_max stalled = Ok b
  /\ (b = true <-> (total = 0 /\ reached_max = true)
        \/ (total <> 0 /\ (stalled = true \/ quorum pct agreeing total self))).
Proof.
  unfold count_ok, check_consensus_reached, quorum. intros Ha Ht.
  destruct (Z.eqb_spec total 0); [eexists; split; [done|]; naive_solver lia|].
  destruct stalled; [eexists; split; [done|]; naive_solver|].
  destruct self; simpl.
  - rewrite (wrap_u64_id (agreeing + 1)), (wrap_u64_id (total + 1)) by machine.
    rewrite (proj2 (Z.eqb_neq (total + 1) 0)) by lia.
    rewrite wrap_u64_id by machine. eexists. split; [done|].
    rewrite leb_div_iff by lia. rewrite Z.leb_le. naive_solver lia.
  - rewrite (proj2 (Z.eqb_neq total 0)) by lia.
    rewrite wrap_u64_id by machine. eexists. split; [done|].
    rewrite leb_div_iff by lia. rewrite Z.leb_le. naive_solver lia.
Qed.

(** What each answer of [check_consensus] means. *)
Definition consensus_meaning (p : ConsensusParms)
    (prev_proposers current_proposers current_agree current_finished : Z)
    (prev_time now : Z) (stalled proposing : bool) (s : ConsensusState) : Prop :=
  let alone := current_proposers = 0 /\ ledger_max_consensus p < now in
  let agreed := alone \/ (current_proposers <> 0
    /\ (stalled = true \/ quorum (min_consensus_pct p) current_agree current_proposers proposing)) in
  let moved := alone \/ (current_proposers <> 0
    /\ quorum (min_consensus_pct p) current_finished current_proposers false) in
  let limit := Z.max (ledger_max_consensus p)
    (Z.min (Z.min (prev_time * wrap_u32 (ledger_abandon_consensus_factor p)) duration_max)
       (ledger_abandon_consensus p)) in
  let ready := ledger_min_consensus p < now
    /\ ~ too_fast p prev_proposers current_proposers prev_time now in
  match s with
  | Yes => ready /\ agreed
  | MovedOn => ready /\ ~ agreed /\ moved
  | Expired => ready /\ ~ agreed /\ ~ moved /\ limit < now
  | No => ~ ready \/ (~ agreed /\ ~ moved /\ now <= limit)
  end.

(** The answer of [check_consensus], with its meaning. *)
Lemma check_consensus_total pp cp ca cf prev_time now stalled p proposing :
  count_ok pp -> count_ok cp -> count_ok ca -> count_ok cf ->
  0 <= prev_time -> prev_time + ledger_min_consensus p <= duration_max -> parms_ok p ->
  exists s, check_consensus pp cp ca cf prev_time now stalled p proposing = Ok s
    /\ consensus_meaning p pp cp ca cf prev_time now stalled proposing s.
Proof.
  intros Hpp Hcp Hca Hcf Hpt Hdur Hp. destruct Hp as [Hclamp Hmin Hab].
  unfold check_consensus, consensus_meaning.
  destruct (Z.leb_spec now (ledger_min_consensus p)); [eexists; split; [done|]; left; lia|].
  rewrite (wrap_u64_id (pp * 3)) by (unfold count_ok in *; machine).
  unfold duration_add. rewrite (proj2 (Z.leb_le _ _) Hdur). simpl.
  assert (exists b, (if cp <? pp * 3 / 4 then mret (now <? prev_time + ledger_min_consensus p)
    else mret false : outcome bool) = Ok b /\ (b = true <-> too_fast p pp cp prev_time now))
    as (b & -> & Hb).
  { unfold too_fast. destruct (Z.ltb_spec cp (pp * 3 / 4)); eexists; (split; [done|]);
      rewrite ?Z.ltb_lt; naive_solver lia. }
  simpl. destruct b; [eexists; split; [done|]; left; naive_solver|].
  assert (~ too_fast p pp cp prev_time now) as Hslow by naive_solver. clear Hb.
  destruct (check_consensus_reached_spec ca cp proposing (min_consensus_pct p)
    (ledger_max_consensus p <? now) stalled Hca Hcp) as (b1 & -> & H1).
  destruct (check_consensus_reached_spec cf cp false (min_consensus_pct p)
    (ledger_max_consensus p <? now) false Hcf Hcp) as (b2 & -> & H2).
  rewrite Z.ltb_lt in H1, H2. simpl.
  destruct b1; [eexists; split; [done|]; naive_solver|].
  destruct b2; [eexists; split; [done|]; naive_solver|].
  unfold duration_clamp, duration_saturating_mul. rewrite (proj2 (Z.leb_le _ _) Hclamp). simpl.
  destruct (Z.ltb_spec (Z.max (ledger_max_consensus p)
    (Z.min (Z.min (prev_time * wrap_u32 (ledger_abandon_consensus_factor p)) duration_max)
      (ledger_abandon_consensus p))) now);
    (eexists; split; [done|]); naive_solver.
Qed.

(** [check_consensus] never panics on sane parameters and its answer means
    what it says: [Yes] needs the minimum time, enough of the last round's
    proposers (or enough time), and agreement: at least [min_consensus_pct]
    percent counting ourselves when proposing, a stall, or being alone past the
    maximum; [MovedOn] needs that many proposers already past this ledger;
    [Expired] needs the clamped abandon limit to have passed. *)
Theorem check_consensus_spec pp cp ca cf prev_time now stalled p proposing :
  count_ok pp -> count_ok cp -> count_ok ca -> count_ok cf ->
  0 <= prev_time -> prev_time + ledger_min_consensus p <= duration_max -> parms_ok p ->
  exists s, check_consensus pp cp ca cf prev_time now stalled p proposing = Ok s
    /\ consensus_meaning p pp cp ca cf prev_time now stalled proposing s.
Proof. apply check_consensus_total. Qed.

Lemma check_consensus_spec_witness :
  check_consensus 10 10 0 9 (from_secs 2) (from_secs 3) false default_parms true = Ok MovedOn
  /\ exists s, check_consensus 10 10 0 9 (from_secs 2) (from_secs 3) false default_parms true = Ok s
     /\ consensus_meaning default_parms 10 10 0 9 (from_secs 2) (from_secs 3) false true s.
Proof.
  split; [reflexivity|].
  apply check_consensus_spec; try (vm_compute; intuition congruence). exact default_parms_ok.
Defined.

(** consensus cannot stay undecided: once the round is longer than the
    abandon limit and than the last round plus the minimum time, the answer is
    not [No]. *)
Theorem check_consensus_decides pp cp ca cf prev_time now stalled p proposing :
  count_ok pp -> count_ok cp -> count_ok ca -> count_ok cf ->
  0 <= prev_time -> prev_time + ledger_min_consensus p <= duration_max -> parms_ok p ->
  ledger_abandon_consensus p < now -> prev_time + ledger_min_consensus p < now ->
  exists s, check_consensus pp cp ca cf prev_time now stalled p proposing = Ok s /\ s <> No.
Proof.
  intros Hpp Hcp Hca Hcf Hpt Hdur Hp Hnow Hnow'.
  destruct (check_consensus_total pp cp ca cf prev_time now stalled p proposing
    Hpp Hcp Hca Hcf Hpt Hdur Hp) as (s & Hs & Hm).
  exists s. split; [done|]. intros ->. destruct Hp as [Hclamp Hmin Hab].
  destruct Hm as [Hnr | (_ & _ & Hlim)]; [apply Hnr | lia].
  split; [lia|]. unfold too_fast. lia.
Qed.

Lemma check_consensus_decides_witness :
  exists s, check_consensus 10 10 0 0 (from_secs 2) (from_secs 121) false default_parms true = Ok s
    /\ s <> No.
Proof.
  apply check_consensus_decides; try (vm_compute; intuition congruence). exact default_parms_ok.
Defined.

(** no two quorums: when each of the [n] proposers backs at most one of two
    different positions, a server that holds the first position (counting itself
    or not) and a tally of the second cannot both pass the agreement test at a
    threshold of at least 67 percent, stalls and empty rounds apart. *)
Theorem no_two_quorums a1 a2 n self pct rm1 rm2 :
  count_ok a1 -> count_ok a2 -> count_ok n -> n <> 0 ->
  a1 + a2 <= n -> 67 <= pct ->
  ~ (check_consensus_reached a1 n self pct rm1 false = Ok true
     /\ check_consensus_reached a2 n false pct rm2 false = Ok true).
Proof.
  intros H1 H2 Hn Hnz Hsum Hpct [E1 E2].
  destruct (check_consensus_reached_spec a1 n self pct rm1 false H1 Hn) as (b1 & E1' & Hb1).
  destruct (check_consensus_reached_spec a2 n false pct rm2 false H2 Hn) as (b2 & E2' & Hb2).
  rewrite E1 in E1'. rewrite E2 in E2'. injection E1' as <-. injection E2' as <-.
  unfold count_ok in *.
  destruct (proj1 Hb1 eq_refl) as [|(_ & [|Q1])]; [lia | done |].
  destruct (proj1 Hb2 eq_refl) as [|(_ & [|Q2])]; [lia | done |].
  unfold quorum in *. destruct self; simpl in *; nia.
Qed.

Lemma no_two_quorums_witness :
  ~ (check_consensus_reached 7 10 true 80 false false = Ok true
     /\ check_consensus_reached 3 10 false 80 false false = Ok true).
Proof.
  apply (no_two_quorums 7 3 10 true 80 false false); unfold count_ok; lia.
Defined.

(** when the open ledger closes: on anomalous timing, when more than half
    of the last proposers have closed or validated, when it is empty and the
    idle interval has passed, or when it has transactions and has been open for
    the minimum time and for half of the last round; and in no other case. *)
Theorem should_close_ledger_iff any pp closed validated prev_round since open_time idle p :
  count_ok closed -> count_ok validated ->
  should_close_ledger any pp closed validated prev_round since open_time idle p = true
  <-> from_secs 600 < prev_round \/ from_secs 600 < since
      \/ pp / 2 < closed + validated
      \/ (any = false /\ idle <= since)
      \/ (any = true /\ ledger_min_close p <= open_time /\ prev_round / 2 <= open_time).
Proof.
  unfold count_ok. intros Hc Hv. unfold should_close_ledger.
  rewrite (wrap_u64_id (closed + validated)) by machine.
  generalize (from_secs 600), (prev_round / 2), (pp / 2). intros bound half majority.
  destruct (Z.ltb_spec bound prev_round); simpl; [tauto|].
  destruct (Z.ltb_spec bound since); simpl; [tauto|].
  destruct (Z.ltb_spec majority (closed + validated)); simpl; [tauto|].
  destruct any; simpl; [|rewrite Z.leb_le; intuition (lia || done)].
  destruct (Z.ltb_spec open_time (ledger_min_close p)); [intuition (lia || done)|].
  destruct (Z.ltb_spec open_time half); intuition (lia || done).
Qed.

Lemma should_close_ledger_iff_witness :
  should_close_ledger true 10 3 3 (from_secs 1) (from_millis 500) (from_millis 500)
    (from_secs 15) default_parms = true.
Proof.
  apply should_close_ledger_iff; [unfold count_ok; lia..|].
  right. right. left. reflexivity.
Defined.
