(* ===== verification/LedgerTrie.v ===== *)
(** * The ancestry trie of validated ledgers: definitions

    [xrpld/consensus/src/model/ledger_trie.rs]: the compressed trie, kept in an
    arena of nodes addressed by index, that counts the validation support of
    ledgers by ancestry.  Sequence numbers and support counts are [u32]. *)

From S2P Require Import Prelude.

(** ** The [TrieLedger] trait *)

Class TrieLedger (L Id : Type) := {
  genesis : L;
  seq : L -> Z;
  ancestor : L -> Z -> Id;
  mismatch : L -> L -> Z
}.

Section Trie.
Context {L Id : Type} `{!TrieLedger L Id} `{!EqDecision Id} `{!TotalOrd Id}.

(** ** Spans: half-open intervals [start, end) of a ledger's ancestry *)

Record SpanTip := mkTip { tip_seq : Z; tip_id : Id; tip_ledger : L }.

Definition tip_ancestor (t : SpanTip) (s : Z) : outcome Id :=
  _ ← assert_that (s <=? tip_seq t); mret (ancestor (tip_ledger t) s).

Record Span := mkSpan { start : Z; end_ : Z; ledger : L }.

Definition span_genesis : Span :=
  mkSpan (seq genesis) (wrap_u32 (seq genesis + 1)) genesis.

Definition span_from_ledger (l : L) (zero : Z) : Span :=
  mkSpan zero (wrap_u32 (seq l + 1)) l.

Definition span_clamp (s : Span) (v : Z) : Z := Z.min (Z.max v (start s)) (end_ s).

Definition span_sub (s : Span) (from to : Z) : option Span :=
  let new_from := span_clamp s from in
  let new_to := span_clamp s to in
  if new_from <? new_to then Some (mkSpan new_from new_to (ledger s)) else None.

Definition span_from (s : Span) (spot : Z) : option Span := span_sub s spot (end_ s).
Definition span_before (s : Span) (spot : Z) : option Span := span_sub s (start s) spot.
Definition start_id (s : Span) : Id := ancestor (ledger s) (start s).
Definition span_diff (s : Span) (other : L) : Z := span_clamp s (mismatch (ledger s) other).

Definition span_tip (s : Span) : SpanTip :=
  let tip_seq := wrap_u32 (end_ s - 1) in
  mkTip tip_seq (ancestor (ledger s) tip_seq) (ledger s).

Definition span_merge (a b : Span) : Span :=
  if end_ a <? end_ b then mkSpan (Z.min (start a) (start b)) (end_ b) (ledger b)
  else mkSpan (Z.min (start a) (start b)) (end_ a) (ledger a).

(** ** Nodes and the arena *)

Record Node := mkNode {
  span : Span;
  tip_support : Z;
  branch_support : Z;
  children : list nat;
  parent : option nat;
  live : bool
}.

Definition node_from_span (s : Span) : Node := mkNode s 0 0 [] None true.
Definition node_root : Node := node_from_span span_genesis.

Definition set_span (s : Span) (n : Node) : Node :=
  mkNode s (tip_support n) (branch_support n) (children n) (parent n) (live n).
Definition set_tip (v : Z) (n : Node) : Node :=
  mkNode (span n) v (branch_support n) (children n) (parent n) (live n).
Definition set_branch (v : Z) (n : Node) : Node :=
  mkNode (span n) (tip_support n) v (children n) (parent n) (live n).
Definition set_children (cs : list nat) (n : Node) : Node :=
  mkNode (span n) (tip_support n) (branch_support n) cs (parent n) (live n).
Definition set_parent (p : option nat) (n : Node) : Node :=
  mkNode (span n) (tip_support n) (branch_support n) (children n) p (live n).
Definition set_live (b : bool) (n : Node) : Node :=
  mkNode (span n) (tip_support n) (branch_support n) (children n) (parent n) b.

Definition ROOT : nat := 0.

(** [free] is the [Vec] of freed slots as a stack, its last element first. *)
Record LedgerTrie := mkTrie {
  nodes : list Node;
  seq_support : gmap Z Z;
  free : list nat
}.

Definition trie_new : LedgerTrie := mkTrie [node_root] ∅ [].

Definition get_node (t : LedgerTrie) (i : nat) : outcome Node := expect (nodes t !! i).

(** [self.nodes[i].field = ...] *)
Definition update_node (i : nat) (f : Node -> Node) (t : LedgerTrie) : outcome LedgerTrie :=
  n ← get_node t i; mret (mkTrie (<[i := f n]> (nodes t)) (seq_support t) (free t)).

Definition alloc (n : Node) (t : LedgerTrie) : outcome (nat * LedgerTrie) :=
  match free t with
  | idx :: free' =>
      _ ← get_node t idx;
      mret (idx, mkTrie (<[idx := n]> (nodes t)) (seq_support t) free')
  | [] => mret (length (nodes t), mkTrie (nodes t ++ [n]) (seq_support t) [])
  end.

Definition erase_child (parent child : nat) (t : LedgerTrie) : outcome LedgerTrie :=
  t ← update_node parent (fun n => set_children (filter (fun c => c ≠ child) (children n)) n) t;
  let freed := set_live false (node_from_span span_genesis) in
  t ← update_node child (fun _ => freed) t;
  mret (mkTrie (nodes t) (seq_support t) (child :: free t)).

Definition allocated_nodes (t : LedgerTrie) : nat := length (nodes t).
Definition live_nodes (t : LedgerTrie) : nat := length (nodes t) - 1 - length (free t).

(** ** [find]: the node with the longest common ancestry *)

Fixpoint find_child (t : LedgerTrie) (l : L) (pos : Z) (cs : list nat)
    : outcome (option (nat * Z)) :=
  match cs with
  | [] => mret None
  | c :: cs' =>
      n ← get_node t c;
      if negb (live n) then find_child t l pos cs'
      else
        let child_pos := span_diff (span n) l in
        if pos <? child_pos then mret (Some (c, child_pos)) else find_child t l pos cs'
  end.

Fixpoint find_loop (fuel : nat) (t : LedgerTrie) (l : L) (curr : nat) (pos : Z)
    : outcome (nat * Z) :=
  match fuel with
  | O => OutOfFuel
  | S fuel' =>
      n ← get_node t curr;
      if pos =? end_ (span n) then
        o ← find_child t l pos (children n);
        match o with
        | Some (c, p) => find_loop fuel' t l c p
        | None => mret (curr, pos)
        end
      else mret (curr, pos)
  end.

Definition find (t : LedgerTrie) (l : L) : outcome (nat * Z) :=
  n ← get_node t ROOT; find_loop (length (nodes t)) t l ROOT (span_diff (span n) l).

(** The first live node, in arena order, whose tip has the given id. *)
Fixpoint find_id_in (i : nat) (ns : list Node) (id : Id) : option nat :=
  match ns with
  | [] => None
  | n :: ns' =>
      if live n && bool_decide (tip_id (span_tip (span n)) = id) then Some i
      else find_id_in (S i) ns' id
  end.
Definition find_by_ledger_id (t : LedgerTrie) (id : Id) : option nat :=
  find_id_in 0 (nodes t) id.

(** ** The walk to the root that adds [delta] to every branch support *)

Fixpoint walk (fuel : nat) (i : nat) (delta : Z) (t : LedgerTrie) : outcome LedgerTrie :=
  match fuel with
  | O => OutOfFuel
  | S fuel' =>
      n ← get_node t i;
      t ← update_node i (fun n => set_branch (wrap_u32 (branch_support n + delta)) n) t;
      match parent n with
      | Some p => walk fuel' p delta t
      | None => mret t
      end
  end.

(** ** [insert] *)

(** [abcdef -> ...] becomes [abc -> def -> ...]. *)
Definition split (loc : nat) (prefix : option Span) (old_suffix : Span) (t : LedgerTrie)
    : outcome LedgerTrie :=
  locn ← get_node t loc;
  let new_node := mkNode old_suffix (tip_support locn) (branch_support locn)
    (children locn) None true in
  t ← update_node loc (set_children []) t;
  '(idx, t) ← alloc new_node t;
  newn ← get_node t idx;
  t ← foldM (fun t c => update_node c (set_parent (Some idx)) t) t (children newn);
  p ← expect prefix;
  t ← update_node loc (set_span p) t;
  t ← update_node idx (set_parent (Some loc)) t;
  t ← update_node loc (fun n => set_children (children n ++ [idx]) n) t;
  update_node loc (set_tip 0) t.

(** [abc -> ...] gets a new branch [abc -> def]. *)
Definition add_branch (loc : nat) (new_suffix : Span) (t : LedgerTrie)
    : outcome (nat * LedgerTrie) :=
  '(idx, t) ← alloc (set_parent (Some loc) (node_from_span new_suffix)) t;
  t ← update_node loc (fun n => set_children (children n ++ [idx]) n) t;
  mret (idx, t).

Definition insert (l : L) (count : Z) (t : LedgerTrie) : outcome LedgerTrie :=
  '(loc, diff_seq) ← find t l;
  locn ← get_node t loc;
  let prefix := span_before (span locn) diff_seq in
  let old_suffix := span_from (span locn) diff_seq in
  let new_suffix := span_from (span_from_ledger l 0) diff_seq in
  t ← match old_suffix with
      | Some s => split loc prefix s t
      | None => mret t
      end;
  '(inc_node, t) ← match new_suffix with
      | Some s => add_branch loc s t
      | None => mret (loc, t)
      end;
  t ← update_node inc_node (fun n => set_tip (wrap_u32 (tip_support n + count)) n) t;
  t ← walk (length (nodes t)) inc_node count t;
  mret (mkTrie (nodes t) (entry_add wrap_u32 (seq l) count (seq_support t)) (free t)).

(** ** [remove] *)

(** [Vec<usize>] of the live children. *)
Fixpoint live_children (t : LedgerTrie) (cs : list nat) : outcome (list nat) :=
  match cs with
  | [] => mret []
  | c :: cs' =>
      n ← get_node t c;
      rest ← live_children t cs';
      mret (if live n then c :: rest else rest)
  end.

(** Drop or merge nodes that lost their support, towards the root. *)
Fixpoint compress (fuel : nat) (loc : nat) (t : LedgerTrie) : outcome LedgerTrie :=
  match fuel with
  | O => OutOfFuel
  | S fuel' =>
      n ← get_node t loc;
      if (tip_support n =? 0) && negb (loc =? ROOT)%nat then
        p ← expect (parent n);
        lc ← live_children t (children n);
        match lc with
        | [] =>
            t ← erase_child p loc t;
            compress fuel' p t
        | [child] =>
            cn ← get_node t child;
            let merged := span_merge (span n) (span cn) in
            t ← update_node child (set_span merged) t;
            t ← update_node child (set_parent (Some p)) t;
            t ← update_node p (fun m => set_children (children m ++ [child]) m) t;
            t ← erase_child p loc t;
            compress fuel' p t
        | _ => mret t
        end
      else mret t
  end.

Definition seq_support_sub (s count : Z) (m : gmap Z Z) : gmap Z Z :=
  match m !! s with
  | Some support =>
      let v := wrap_u32 (support - count) in
      if v =? 0 then delete s m else <[s := v]> m
  | None => m
  end.

Definition remove (ledger_id : Id) (ledger_seq count : Z) (t : LedgerTrie)
    : outcome (LedgerTrie * bool) :=
  match find_by_ledger_id t ledger_id with
  | None => mret (t, false)
  | Some loc =>
      n ← get_node t loc;
      if tip_support n =? 0 then mret (t, false)
      else
        let count := Z.min count (tip_support n) in
        t ← update_node loc (fun n => set_tip (wrap_u32 (tip_support n - count)) n) t;
        let t := mkTrie (nodes t) (seq_support_sub ledger_seq count (seq_support t)) (free t) in
        t ← walk (length (nodes t)) loc (- count) t;
        t ← compress (length (nodes t)) loc t;
        mret (t, true)
  end.

(** ** Queries *)

Definition trie_tip_support (t : LedgerTrie) (id : Id) : outcome Z :=
  match find_by_ledger_id t id with
  | Some i => n ← get_node t i; mret (tip_support n)
  | None => mret 0
  end.

Definition trie_branch_support (t : LedgerTrie) (l : L) : outcome Z :=
  match find_by_ledger_id t (ancestor l (seq l)) with
  | Some i => n ← get_node t i; mret (branch_support n)
  | None =>
      '(loc, diff_seq) ← find t l;
      n ← get_node t loc;
      mret (if (seq l <? diff_seq) && (seq l <? end_ (span n)) then branch_support n else 0)
  end.

Definition is_empty (t : LedgerTrie) : outcome bool :=
  n ← get_node t ROOT; mret (branch_support n =? 0).

(** ** [get_preferred] *)

(** Fold in the support of sequences before [bound]. *)
Fixpoint take_uncommitted (bound uncommitted : Z) (rest : list (Z * Z)) : Z * list (Z * Z) :=
  match rest with
  | (s, v) :: rest' =>
      if s <? bound then take_uncommitted bound (wrap_u32 (uncommitted + v)) rest'
      else (uncommitted, rest)
  | [] => (uncommitted, [])
  end.

(** Move along one span while its branch support outweighs the uncommitted. *)
Fixpoint advance (next_seq uncommitted : Z) (rest : list (Z * Z)) (en branch : Z)
    : Z * Z * list (Z * Z) :=
  if (next_seq <? en) && (uncommitted <? branch) then
    match rest with
    | (s, v) :: rest' =>
        if s <? en then advance (wrap_u32 (s + 1)) (wrap_u32 (uncommitted + v)) rest' en branch
        else (en, uncommitted, rest)
    | [] => (en, uncommitted, [])
    end
  else (next_seq, uncommitted, rest).

(** [(branch_support, start_id)] of a child, the key of the descending sort. *)
Fixpoint child_keys (t : LedgerTrie) (cs : list nat) : outcome (list (nat * (Z * Id))) :=
  match cs with
  | [] => mret []
  | c :: cs' =>
      n ← get_node t c;
      rest ← child_keys t cs';
      mret ((c, (branch_support n, start_id (span n))) :: rest)
  end.

Definition key_desc (a b : nat * (Z * Id)) : bool := ord_leb b.2 a.2.

(** The best child and its margin over the runner-up. *)
Definition best_child (t : LedgerTrie) (lc : list nat) : outcome (option (nat * Z)) :=
  match lc with
  | [] => mret None
  | [c] => n ← get_node t c; mret (Some (c, branch_support n))
  | _ =>
      keys ← child_keys t lc;
      match sort_by key_desc keys with
      | (first, (b1, id1)) :: (second, (b2, id2)) :: _ =>
          let margin := wrap_u32 (b1 - b2) in
          mret (Some (first, if ord_ltb id2 id1 then wrap_u32 (margin + 1) else margin))
      | _ => Panic
      end
  end.

Fixpoint preferred_loop (fuel : nat) (t : LedgerTrie) (largest_issued : Z)
    (curr : nat) (uncommitted : Z) (rest : list (Z * Z)) : outcome (option SpanTip) :=
  match fuel with
  | O => OutOfFuel
  | S fuel' =>
      n ← get_node t curr;
      let sp := span n in
      let next_seq := wrap_u32 (start sp + 1) in
      let '(uncommitted, rest) :=
        take_uncommitted (Z.max next_seq largest_issued) uncommitted rest in
      let '(next_seq, uncommitted, rest) :=
        advance next_seq uncommitted rest (end_ sp) (branch_support n) in
      if next_seq <? end_ sp then mret (span_tip <$> span_before sp next_seq)
      else
        lc ← live_children t (children n);
        best ← best_child t lc;
        match best with
        | Some (b, margin) =>
            if (uncommitted <? margin) || (uncommitted =? 0) then
              preferred_loop fuel' t largest_issued b uncommitted rest
            else mret (Some (span_tip sp))
        | None => mret (Some (span_tip sp))
        end
  end.

Definition get_preferred (t : LedgerTrie) (largest_issued : Z) : outcome (option SpanTip) :=
  e ← is_empty t;
  if (e : bool) then mret None
  else preferred_loop (length (nodes t)) t largest_issued ROOT 0 (btree_iter (seq_support t)).

(** ** [check_invariants] *)

(** The body of the traversal for one live node: the parent links and the sum
    of the branch supports of its children. *)
Fixpoint check_children (t : LedgerTrie) (curr : nat) (cs : list nat) (support : Z)
    : outcome (option Z) :=
  match cs with
  | [] => mret (Some support)
  | c :: cs' =>
      n ← get_node t c;
      if bool_decide (parent n = Some curr) then
        check_children t curr cs' (wrap_u32 (support + branch_support n))
      else mret None
  end.

Fixpoint check_loop (fuel : nat) (t : LedgerTrie) (stack : list nat) (expected : gmap Z Z)
    : outcome bool :=
  match stack with
  | [] => mret (bool_decide (expected = seq_support t))
  | curr :: stack' =>
      match fuel with
      | O => OutOfFuel
      | S fuel' =>
          n ← get_node t curr;
          if negb (live n) && negb (curr =? ROOT)%nat then check_loop fuel' t stack' expected
          else
            lc ← live_children t (children n);
            if negb (curr =? ROOT)%nat && (tip_support n =? 0) && (length lc <? 2)%nat
            then mret false
            else
              let expected :=
                if tip_support n =? 0 then expected
                else entry_add wrap_u32 (wrap_u32 (end_ (span n) - 1)) (tip_support n) expected in
              o ← check_children t curr lc (tip_support n);
              match o with
              | None => mret false
              | Some support =>
                  if support =? branch_support n
                  then check_loop fuel' t (rev lc ++ stack') expected
                  else mret false
              end
      end
  end.

Definition check_invariants (t : LedgerTrie) : outcome bool :=
  check_loop (length (nodes t)) t [ROOT] ∅.
End Trie.

Arguments SpanTip : clear implicits.
Arguments Span : clear implicits.
Arguments Node : clear implicits.
Arguments LedgerTrie : clear implicits.
