(* ===== verification/TrieInvariant.v ===== *)
(** * Invariants of the trie

    The arena as a map of live nodes, the laws the trie relies on, the invariant of the
    live nodes (links, spans, supports, compression), and the walk that restores the
    branch supports. *)

From S2P Require Import Prelude LedgerTrie.

(** ** The live part of the trie's arena

    The arena of [LedgerTrie] seen as a finite map from index to live node, and
    the effect of each arena operation on that map. *)

Section Heap.
Context {L Id : Type} `{!TrieLedger L Id}.
Implicit Types t : LedgerTrie L.
Implicit Types n : Node L.

(** Live nodes by index. *)
Definition heap t : gmap nat (Node L) :=
  filter (fun kv => live kv.2 = true) (map_seq 0 (nodes t)).

(** The free list holds exactly the dead slots, each once. *)
Record arena_ok t : Prop := {
  ar_nodup : NoDup (free t);
  ar_free : forall i, i ∈ free t <-> exists n, nodes t !! i = Some n /\ live n = false
}.

Lemma heap_lookup t i n :
  heap t !! i = Some n <-> nodes t !! i = Some n /\ live n = true.
Proof.
  unfold heap. rewrite map_lookup_filter_Some, lookup_map_seq_0. naive_solver.
Qed.

Lemma heap_lookup_None t i :
  heap t !! i = None <-> forall n, nodes t !! i = Some n -> live n = false.
Proof.
  rewrite eq_None_not_Some. split.
  - intros Hn n Hi. destruct (live n) eqn:E; [|done]. exfalso. apply Hn.
    exists n. by apply heap_lookup.
  - intros Hd [n (Hi & Hl)%heap_lookup]. rewrite (Hd n Hi) in Hl. done.
Qed.

Lemma get_node_live t i n : heap t !! i = Some n -> get_node t i = Ok n.
Proof. intros [Hi _]%heap_lookup. unfold get_node. by rewrite Hi. Qed.

Lemma heap_live t i n : heap t !! i = Some n -> live n = true.
Proof. by intros [_ ?]%heap_lookup. Qed.

(** The heap of an arena in which one slot is overwritten. *)
Lemma heap_write ns ss fr ns' ss' fr' i n :
  (forall j, ns' !! j = if decide (j = i) then Some n else ns !! j) -> live n = true ->
  heap (mkTrie ns' ss' fr') = <[i := n]> (heap (mkTrie ns ss fr)).
Proof.
  intros Hns Hl. apply map_eq. intros j. apply option_eq. intros m.
  rewrite heap_lookup. simpl. rewrite Hns, lookup_insert.
  repeat case_decide; simplify_eq; [naive_solver|]. by rewrite heap_lookup.
Qed.

Lemma heap_size t : (size (heap t) <= length (nodes t))%nat.
Proof.
  transitivity (size (map_seq 0 (nodes t) : gmap nat (Node L))).
  - apply map_subseteq_size, map_filter_subseteq.
  - by rewrite <- (size_dom (D := gset nat)), dom_seq_L, size_set_seq.
Qed.

(** ** Operations *)

(** [t'] results from [t] with the live nodes [h] and the same sequence counts. *)
Record reaches t (h : gmap nat (Node L)) t' : Prop := {
  reach_heap : heap t' = h;
  reach_seq : seq_support t' = seq_support t;
  reach_arena : arena_ok t'
}.

Lemma update_node_spec i f t n :
  arena_ok t -> heap t !! i = Some n -> live (f n) = true ->
  exists t', update_node i f t = Ok t' /\ reaches t (<[i := f n]> (heap t)) t'.
Proof.
  intros Har Hi Hl. pose proof (proj1 (heap_lookup _ _ _) Hi) as [Hn Hln].
  assert (i < length (nodes t))%nat as Hlt by by eapply lookup_lt_Some.
  unfold update_node. rewrite (get_node_live _ _ _ Hi). simpl. eexists. split; [done|].
  split; [| done |].
  - destruct t as [ns ss fr]. apply heap_write; [|done]. intros j. simpl in *.
    case_decide; [subst; by apply list_lookup_insert_eq | by apply list_lookup_insert_ne].
  - destruct Har as [Hnd Hfree]. split; [done|]. intros j. simpl. rewrite Hfree.
    destruct (decide (j = i)) as [->|]; [|by rewrite list_lookup_insert_ne].
    rewrite list_lookup_insert_eq by done. naive_solver congruence.
Qed.

Lemma alloc_spec n t :
  arena_ok t -> live n = true ->
  exists idx t', alloc n t = Ok (idx, t') /\ heap t !! idx = None
    /\ reaches t (<[idx := n]> (heap t)) t'.
Proof.
  intros [Hnd Hfree] Hl. unfold alloc. destruct (free t) as [|idx fr] eqn:Ef.
  - exists (length (nodes t)). eexists. split; [done|]. split_and!.
    + apply heap_lookup_None. intros m Hm%lookup_lt_Some. lia.
    + split; [| done |].
      * destruct t as [ns ss fr]. apply heap_write; [|done]. intros j. simpl.
        case_decide; [subst; by apply list_lookup_middle|].
        destruct (decide (j < length ns)%nat); [by apply lookup_app_l|].
        rewrite !lookup_ge_None_2; [done | lia | rewrite length_app; simpl; lia].
      * split; [constructor|]. intros j. simpl. split; [by intros ?%elem_of_nil|].
        intros (m & Hm & Hd). destruct (decide (j = length (nodes t))) as [->|].
        -- rewrite list_lookup_middle in Hm by done. naive_solver congruence.
        -- apply Hfree. exists m. split; [|done].
           rewrite lookup_app_l in Hm; [done|].
           apply lookup_lt_Some in Hm. rewrite length_app in Hm. simpl in Hm. lia.
  - destruct (proj1 (Hfree idx)) as (m & Hm & Hd); [left|].
    assert (idx < length (nodes t))%nat as Hlt by by eapply lookup_lt_Some.
    exists idx. unfold get_node. rewrite Hm. simpl. eexists. split; [done|]. split_and!.
    + apply heap_lookup_None. naive_solver.
    + apply NoDup_cons in Hnd as [Hidx Hnd]. split; [| done |].
      * destruct t as [ns ss fr0]. apply heap_write; [|done]. intros j. simpl in *.
        case_decide; [subst; by apply list_lookup_insert_eq | by apply list_lookup_insert_ne].
      * split; [done|]. intros j. simpl. destruct (decide (j = idx)) as [->|Hj].
        -- rewrite list_lookup_insert_eq by done. naive_solver congruence.
        -- rewrite list_lookup_insert_ne by done. rewrite <- Hfree. rewrite elem_of_cons.
           naive_solver.
Qed.

Lemma erase_child_spec p c t pn cn :
  arena_ok t -> heap t !! p = Some pn -> heap t !! c = Some cn -> p <> c ->
  exists t', erase_child p c t = Ok t'
    /\ reaches t (delete c
         (<[p := set_children (filter (fun x => x ≠ c) (children pn)) pn]> (heap t))) t'.
Proof.
  intros Har Hp Hc Hne. unfold erase_child.
  destruct (update_node_spec p
    (fun n => set_children (filter (fun x => x ≠ c) (children n)) n) t pn)
    as (t1 & E1 & [Hh1 Hs1 Ha1]); [done..| exact (heap_live _ _ _ Hp) |].
  rewrite E1. simpl.
  assert (heap t1 !! c = Some cn) as Hc1 by by rewrite Hh1, lookup_insert_ne.
  unfold update_node at 1. rewrite (get_node_live _ _ _ Hc1). simpl. eexists. split; [done|].
  apply heap_lookup in Hc1 as [Hc1 Hlc].
  assert (c < length (nodes t1))%nat as Hlt by by eapply lookup_lt_Some.
  split; [| by rewrite <- Hs1 |].
  - rewrite <- Hh1. apply map_eq. intros j. apply option_eq. intros m.
    rewrite heap_lookup. simpl. rewrite lookup_delete.
    case_decide; [subst; rewrite list_lookup_insert_eq by done; naive_solver|].
    by rewrite list_lookup_insert_ne, heap_lookup.
  - destruct Ha1 as [Hnd Hfree]. split; simpl.
    + apply NoDup_cons. split; [|done]. intros (m & Hm & Hd)%Hfree. simplify_eq. congruence.
    + intros j. rewrite elem_of_cons, Hfree. destruct (decide (j = c)) as [->|].
      * rewrite list_lookup_insert_eq by done. naive_solver.
      * rewrite list_lookup_insert_ne by done. naive_solver.
Qed.
End Heap.

(** What the trie needs of a ledger type, on the ledgers [valid] admits: a
    mismatch never lies past the end of the shorter ledger, every ledger shares
    the genesis ledger, and a ledger that matches another up to its own tip has
    its own id there. *)
Class TrieLedgerLaws (L Id : Type) `{!TrieLedger L Id} (valid : L -> Prop) : Prop := {
  genesis_valid : valid genesis;
  genesis_seq : seq genesis = 0;
  seq_range : forall l, valid l -> 0 <= seq l < u32_max;
  mismatch_le : forall a b, valid a -> valid b -> mismatch a b <= Z.min (seq a) (seq b) + 1;
  mismatch_genesis : forall b, valid b -> 1 <= mismatch genesis b;
  mismatch_top : forall a b, valid a -> valid b ->
    mismatch a b = seq b + 1 -> ancestor a (seq b) = ancestor b (seq b)
}.

(** The laws hold on any smaller class of ledgers with the genesis ledger. *)
Lemma laws_restrict `{!TrieLedger L Id} (P Q : L -> Prop) :
  TrieLedgerLaws L Id P -> (forall l, Q l -> P l) -> Q genesis -> TrieLedgerLaws L Id Q.
Proof. intros [] HQ Hg. split; auto. Qed.

Section Invariant.
Context {L Id : Type} `{!TrieLedger L Id} `{!EqDecision Id}.
Context (valid : L -> Prop) `{!TrieLedgerLaws L Id valid}.
Implicit Types t : LedgerTrie L.
Implicit Types n : Node L.
Implicit Types h : gmap nat (Node L).

(** ** Links and spans *)

Record span_ok (s : Span L) : Prop := {
  span_valid : valid (ledger s);
  span_nonempty : 0 <= start s < end_ s;
  span_end : end_ s <= seq (ledger s) + 1
}.

Record heap_ok h : Prop := {
  h_root : exists r, h !! ROOT = Some r /\ parent r = None /\ span r = span_genesis;
  h_parent : forall i n, h !! i = Some n -> i <> ROOT ->
    exists p pn, parent n = Some p /\ h !! p = Some pn /\ i ∈ children pn
      /\ start (span n) = end_ (span pn);
  h_children : forall i n c, h !! i = Some n -> c ∈ children n ->
    exists cn, h !! c = Some cn /\ parent cn = Some i;
  h_nodup : forall i n, h !! i = Some n -> NoDup (children n);
  h_span : forall i n, h !! i = Some n -> span_ok (span n);
  h_live : forall i n, h !! i = Some n -> live n = true
}.

(** ** Supports *)

(** Branch support by index, zero for an absent node. *)
Definition branch_at h (c : nat) : Z :=
  match h !! c with Some n => branch_support n | None => 0 end.
Definition child_sum h (cs : list nat) : Z := zsum (branch_at h) cs.

Definition total_support h : Z := msum tip_support h.

(** Support recorded for ledgers of sequence [s], and for the ledger [x]. *)
Definition tips_at_seq (s : Z) h : Z :=
  msum (fun n => if decide (end_ (span n) - 1 = s) then tip_support n else 0) h.
Definition tips_at (x : Id) h : Z :=
  msum (fun n => if decide (tip_id (span_tip (span n)) = x) then tip_support n else 0) h.

Definition nonzero (v : Z) : option Z := if v =? 0 then None else Some v.

(** The supports add up, except that the branch support of the node [d.1] and
    the root's total still lack [d.2]. *)
Definition lacks (d : option (nat * Z)) (i : nat) : Z :=
  match d with Some (j, v) => if decide (i = j) then v else 0 | None => 0 end.
Definition lacks_total (d : option (nat * Z)) : Z :=
  match d with Some (_, v) => v | None => 0 end.

Record support_ok h (d : option (nat * Z)) : Prop := {
  s_branch : forall i n, h !! i = Some n ->
    branch_support n + lacks d i = tip_support n + child_sum h (children n);
  s_tip : forall i n, h !! i = Some n -> 0 <= tip_support n;
  s_pos : forall i n, h !! i = Some n -> 0 <= branch_support n <= u32_max;
  s_total : branch_at h ROOT + lacks_total d = total_support h
}.

(** The per-sequence counts of the trie. *)
Definition seq_ok h (ss : gmap Z Z) : Prop :=
  forall s, ss !! s = nonzero (tips_at_seq s h).

(** Every node but the root and the exempted one has support of its own or
    joins at least two branches. *)
Definition compressed h (ex : option nat) : Prop :=
  forall i n, h !! i = Some n -> i <> ROOT -> ex <> Some i ->
    tip_support n = 0 -> (2 <= length (children n))%nat.

Record trie_ok t : Prop := {
  tk_arena : arena_ok t;
  tk_heap : heap_ok (heap t);
  tk_support : support_ok (heap t) None;
  tk_seq : seq_ok (heap t) (seq_support t);
  tk_compressed : compressed (heap t) None
}.

(** ** Equality up to branch supports *)

Definition shape n : Span L * Z * list nat * option nat * bool :=
  (span n, tip_support n, children n, parent n, live n).
Definition same_shape h h' : Prop := shape <$> h = shape <$> h'.

#[local] Instance same_shape_equiv : Equivalence same_shape.
Proof. unfold same_shape. split; red; intros; congruence. Qed.

Lemma same_shape_lookup h h' i n :
  same_shape h h' -> h !! i = Some n -> exists n', h' !! i = Some n' /\ shape n' = shape n.
Proof.
  intros E Hi. apply (f_equal (lookup i)) in E. rewrite !lookup_fmap, Hi in E. simpl in E.
  destruct (h' !! i) as [n'|] eqn:E'; simpl in E; [|done].
  exists n'. split; [done|]. injection E as ?. unfold shape. congruence.
Qed.

Lemma same_shape_insert h i n n' :
  h !! i = Some n -> shape n' = shape n -> same_shape h (<[i := n']> h).
Proof.
  intros Hi Hs. unfold same_shape. rewrite fmap_insert, Hs. symmetry. apply insert_id.
  by rewrite lookup_fmap, Hi.
Qed.

(** The fields [heap_ok] speaks about. *)
Definition links n : Span L * list nat * option nat * bool :=
  (span n, children n, parent n, live n).
Definition same_links h h' : Prop := links <$> h = links <$> h'.

Lemma same_links_lookup h h' i n :
  same_links h h' -> h !! i = Some n -> exists n', h' !! i = Some n' /\ links n' = links n.
Proof.
  intros E Hi. apply (f_equal (lookup i)) in E. rewrite !lookup_fmap, Hi in E. simpl in E.
  destruct (h' !! i) as [n'|] eqn:E'; simpl in E; [|done].
  exists n'. split; [done|]. injection E as ?. unfold links. congruence.
Qed.

Lemma same_shape_links h h' : same_shape h h' -> same_links h h'.
Proof.
  intros E. unfold same_links.
  assert (forall m : gmap nat (Node L), links <$> m
    = (fun x => (x.1.1.1.1, x.1.1.2, x.1.2, x.2)) <$> (shape <$> m)) as Hl.
  { intros m. rewrite <- map_fmap_compose. apply map_fmap_ext. done. }
  by rewrite !Hl, E.
Qed.

Lemma same_links_insert h i n n' :
  h !! i = Some n -> links n' = links n -> same_links h (<[i := n']> h).
Proof.
  intros Hi Hs. unfold same_links. rewrite fmap_insert, Hs. symmetry. apply insert_id.
  by rewrite lookup_fmap, Hi.
Qed.

Lemma heap_ok_links h h' : same_links h h' -> heap_ok h -> heap_ok h'.
Proof.
  intros E H. assert (same_links h' h) as E' by (unfold same_links in *; congruence).
  split.
  - destruct (h_root h H) as (r & Hr & Hp & Hs).
    destruct (same_links_lookup h h' _ _ E Hr) as (r' & Hr' & [=]). exists r'.
    split_and!; congruence.
  - intros i n Hi Hne. destruct (same_links_lookup h' h _ _ E' Hi) as (n0 & Hi0 & [=]).
    destruct (h_parent h H i n0 Hi0 Hne) as (p & pn & Hp & Hpn & Hin & Hst).
    destruct (same_links_lookup h h' _ _ E Hpn) as (pn' & Hpn' & [=]).
    exists p, pn'. split_and!; congruence.
  - intros i n c Hi Hc. destruct (same_links_lookup h' h _ _ E' Hi) as (n0 & Hi0 & [=]).
    destruct (h_children h H i n0 c Hi0) as (cn & Hcn & Hp); [congruence|].
    destruct (same_links_lookup h h' _ _ E Hcn) as (cn' & Hcn' & [=]). exists cn'.
    split; congruence.
  - intros i n Hi. destruct (same_links_lookup h' h _ _ E' Hi) as (n0 & Hi0 & [=]).
    pose proof (h_nodup h H i n0 Hi0). congruence.
  - intros i n Hi. destruct (same_links_lookup h' h _ _ E' Hi) as (n0 & Hi0 & [=]).
    pose proof (h_span h H i n0 Hi0). congruence.
  - intros i n Hi. destruct (same_links_lookup h' h _ _ E' Hi) as (n0 & Hi0 & [=]).
    pose proof (h_live h H i n0 Hi0). congruence.
Qed.

Lemma heap_ok_shape h h' : same_shape h h' -> heap_ok h -> heap_ok h'.
Proof. intros E. apply heap_ok_links. by apply same_shape_links. Qed.

#[local] Instance heap_ok_proper : Proper (same_shape ==> iff) heap_ok.
Proof. intros h h' E. split; apply heap_ok_shape; [done | by symmetry]. Qed.

(** A sum of a function of the shape. *)
Lemma msum_shape f g h h' :
  (forall n, f n = g (shape n)) -> same_shape h h' -> msum f h = msum f h'.
Proof.
  intros Hf E. transitivity (msum g (shape <$> h)); [|rewrite E];
    rewrite msum_fmap; unfold msum; apply zsum_ext; intros; simpl; by rewrite Hf.
Qed.

Lemma total_support_shape h h' : same_shape h h' -> total_support h = total_support h'.
Proof. apply (msum_shape _ (fun s => s.1.1.1.2)). done. Qed.

Lemma tips_at_seq_shape s h h' : same_shape h h' -> tips_at_seq s h = tips_at_seq s h'.
Proof.
  apply (msum_shape _ (fun x => if decide (end_ x.1.1.1.1 - 1 = s) then x.1.1.1.2 else 0)). done.
Qed.

Lemma tips_at_shape x h h' : same_shape h h' -> tips_at x h = tips_at x h'.
Proof.
  apply (msum_shape _ (fun y => if decide (tip_id (span_tip y.1.1.1.1) = x)
    then y.1.1.1.2 else 0)). done.
Qed.

Lemma compressed_shape h h' ex : same_shape h h' -> compressed h ex -> compressed h' ex.
Proof.
  intros E H i n Hi Hne Hex Ht.
  destruct (same_shape_lookup h' h i n) as (n0 & Hi0 & [= _ Ht0 Hc _ _]); [by symmetry | done |].
  rewrite <- Hc. apply (H i n0 Hi0 Hne Hex). congruence.
Qed.
End Invariant.

(** ** Depth and the walk to the root *)

Section Walk.
Context {L Id : Type} `{!TrieLedger L Id} `{!EqDecision Id}.
Context (valid : L -> Prop) `{!TrieLedgerLaws L Id valid}.
Implicit Types t : LedgerTrie L.
Implicit Types n : Node L.
Implicit Types h : gmap nat (Node L).
Notation heap_ok := (heap_ok valid).

(** The number of nodes that start at or before [s]: it bounds the length of
    a path to the root. *)
Definition below h (s : Z) : nat := size (filter (fun kv => start (span kv.2) <= s) h).
(** The number of nodes that start at or after [s]: it bounds a path away
    from the root. *)
Definition above h (s : Z) : nat := size (filter (fun kv => s <= start (span kv.2)) h).

Lemma parent_start h i n p pn :
  heap_ok h -> h !! i = Some n -> parent n = Some p -> h !! p = Some pn ->
  i <> ROOT /\ i ∈ children pn /\ start (span n) = end_ (span pn)
  /\ start (span pn) < start (span n).
Proof.
  intros H Hi Hp Hpn. assert (i <> ROOT) as Hne.
  { intros ->. destruct (h_root _ h H) as (r & Hr & Hr' & _). congruence. }
  destruct (h_parent _ h H i n Hi Hne) as (p' & pn' & Hp' & Hpn' & Hin & Hst).
  assert (p' = p) as -> by congruence. assert (pn' = pn) as -> by congruence.
  destruct (h_span _ h H p pn Hpn). split_and!; auto; lia.
Qed.

Lemma child_start h i n c :
  heap_ok h -> h !! i = Some n -> c ∈ children n ->
  exists cn, h !! c = Some cn /\ parent cn = Some i /\ start (span cn) = end_ (span n)
    /\ start (span n) < start (span cn) /\ c <> ROOT.
Proof.
  intros H Hi Hc. destruct (h_children _ h H i n c Hi Hc) as (cn & Hcn & Hp).
  destruct (parent_start h c cn i n H Hcn Hp Hi) as (? & ? & ? & ?). eauto 10.
Qed.

Lemma filter_size_lt h (P Q : nat * Node L -> Prop) `{!forall x, Decision (P x)}
    `{!forall x, Decision (Q x)} i n :
  (forall x, P x -> Q x) -> h !! i = Some n -> Q (i, n) -> ~ P (i, n) ->
  (size (filter P h) < size (filter Q h))%nat.
Proof.
  intros HPQ Hi HQ HP.
  assert (filter P h ⊆ delete i (filter Q h)) as Hsub.
  { apply map_subseteq_spec. intros j m (Hj & HPj)%map_lookup_filter_Some.
    apply lookup_delete_Some. split; [intros ->; naive_solver congruence|].
    apply map_lookup_filter_Some. auto. }
  assert (is_Some (filter Q h !! i)) as His by (exists n; by apply map_lookup_filter_Some).
  apply map_subseteq_size in Hsub. rewrite map_size_delete_Some in Hsub by done.
  assert (size (filter Q h) ≠ 0%nat); [|lia].
  apply map_size_ne_0_lookup. eauto.
Qed.

Lemma below_lt h i n s :
  h !! i = Some n -> s < start (span n) -> (below h s < below h (start (span n)))%nat.
Proof.
  intros Hi Hs. apply (filter_size_lt h _ _ i n); simpl; auto; intros; lia.
Qed.

Lemma above_lt h i n s :
  h !! i = Some n -> start (span n) < s -> (above h s < above h (start (span n)))%nat.
Proof.
  intros Hi Hs. apply (filter_size_lt h _ _ i n); simpl; auto; intros; lia.
Qed.

Lemma below_pos h i n : h !! i = Some n -> (0 < below h (start (span n)))%nat.
Proof. intros Hi. pose proof (below_lt h i n (start (span n) - 1) Hi). lia. Qed.

Lemma above_pos h i n : h !! i = Some n -> (0 < above h (start (span n)))%nat.
Proof. intros Hi. pose proof (above_lt h i n (start (span n) + 1) Hi). lia. Qed.

Lemma below_bound t s : (below (heap t) s <= length (nodes t))%nat.
Proof.
  pose proof (heap_size t). unfold below.
  pose proof (map_subseteq_size _ _
    (map_filter_subseteq (fun kv => start (span kv.2) <= s) (heap t))). lia.
Qed.

Lemma above_bound t s : (above (heap t) s <= length (nodes t))%nat.
Proof.
  pose proof (heap_size t). unfold above.
  pose proof (map_subseteq_size _ _
    (map_filter_subseteq (fun kv => s <= start (span kv.2)) (heap t))). lia.
Qed.

Lemma below_shape h h' s : same_shape h h' -> below h s = below h' s.
Proof.
  intros E.
  assert (forall m, below m s = size (filter (fun kv => start kv.2.1.1.1.1 <= s) (shape <$> m)))
    as Hsz; [|by rewrite !Hsz, E].
  intros m. rewrite map_filter_fmap, map_size_fmap. done.
Qed.

(** Induction along the parent links. *)
Lemma heap_ind h (P : nat -> Node L -> Prop) :
  heap_ok h ->
  (forall i n, h !! i = Some n ->
    (forall p pn, parent n = Some p -> h !! p = Some pn -> P p pn) -> P i n) ->
  forall i n, h !! i = Some n -> P i n.
Proof.
  intros H IH i n Hi.
  remember (below h (start (span n))) as k eqn:Ek.
  revert i n Hi Ek. induction (lt_wf k) as [k _ IHk]. intros i n Hi ->.
  apply IH; [done|]. intros p pn Hp Hpn.
  destruct (parent_start h i n p pn H Hi Hp Hpn) as (_ & _ & _ & Hlt).
  eapply (IHk (below h (start (span pn)))); eauto.
  eapply Nat.le_lt_trans; [|apply (below_lt h i n (start (span pn)) Hi Hlt)]. done.
Qed.

(** ** Child sums *)

Lemma child_sum_insert h i n n' cs :
  h !! i = Some n -> NoDup cs ->
  child_sum (<[i := n']> h) cs
    = child_sum h cs + (if decide (i ∈ cs) then branch_support n' - branch_support n else 0).
Proof.
  intros Hi Hnd. unfold child_sum.
  assert (forall y, y <> i -> branch_at h y = branch_at (<[i := n']> h) y) as Hother.
  { intros y Hy. unfold branch_at. by rewrite lookup_insert_ne. }
  case_decide as Hin.
  - rewrite (zsum_update (branch_at h) _ cs i Hnd Hin Hother).
    unfold branch_at. rewrite lookup_insert_eq, Hi. lia.
  - rewrite (zsum_ext (branch_at (<[i := n']> h)) (branch_at h)); [lia|].
    intros y Hy. symmetry. apply Hother. by intros ->.
Qed.

Lemma branch_at_nonneg h d : support_ok h d -> forall c, 0 <= branch_at h c.
Proof.
  intros H c. unfold branch_at. destruct (h !! c) eqn:E; [|done].
  by apply (s_pos h d H c).
Qed.

(** Branch supports grow towards the root, below any lacking node. *)
Lemma branch_le_root h d i n :
  heap_ok h -> support_ok h d -> h !! i = Some n ->
  (forall p pn, h !! p = Some pn -> start (span pn) < start (span n) -> lacks d p = 0) ->
  branch_support n <= branch_at h ROOT.
Proof.
  intros H Hs. revert i n. apply (heap_ind h (fun i n => _ -> _) H).
  intros i n Hi IH Hl. destruct (decide (i = ROOT)) as [->|Hne].
  - unfold branch_at. rewrite Hi. done.
  - destruct (h_parent _ h H i n Hi Hne) as (p & pn & Hp & Hpn & Hin & Hst).
    destruct (h_span _ h H p pn Hpn) as [_ Hsp _].
    assert (branch_support pn <= branch_at h ROOT) as Hpr.
    { apply (IH p pn Hp Hpn). intros q qn Hq Hlt. apply (Hl q qn Hq). lia. }
    pose proof (s_branch h d Hs p pn Hpn) as Hb. rewrite (Hl p pn Hpn) in Hb by lia.
    pose proof (s_tip h d Hs p pn Hpn).
    pose proof (zsum_elem_le (branch_at h) (children pn) i
      ltac:(intros; by eapply branch_at_nonneg) Hin) as Hle.
    unfold child_sum in Hb. unfold branch_at at 1 in Hle. rewrite Hi in Hle. lia.
Qed.

(** One step of the walk moves the lack to the parent. *)
Lemma support_step h i n delta :
  heap_ok h -> support_ok h (Some (i, delta)) -> h !! i = Some n ->
  total_support h <= u32_max ->
  wrap_u32 (branch_support n + delta) = branch_support n + delta
  /\ support_ok (<[i := set_branch (branch_support n + delta) n]> h)
       ((fun p => (p, delta)) <$> parent n).
Proof.
  intros H Hs Hi Htot.
  pose proof (s_branch h _ Hs i n Hi) as Hb. simpl in Hb. rewrite decide_True in Hb by done.
  pose proof (s_tip h _ Hs i n Hi) as Ht. pose proof (s_pos h _ Hs i n Hi) as Hr.
  assert (0 <= child_sum h (children n)) as Hc.
  { apply zsum_nonneg. intros. by eapply branch_at_nonneg. }
  assert (branch_support n <= branch_at h ROOT) as Hroot.
  { eapply branch_le_root; eauto. intros p pn Hpn Hlt. simpl. rewrite decide_False; [done|].
    intros ->. naive_solver lia. }
  pose proof (s_total h _ Hs) as Hst. simpl in Hst.
  assert (in_u32 (branch_support n + delta)) as Hin by machine.
  split; [by apply wrap_u32_id|].
  set (n' := set_branch (branch_support n + delta) n).
  assert (same_shape h (<[i := n']> h)) as Hsh by by apply (same_shape_insert h i n).
  split.
  - intros j m Hj. destruct (decide (j = i)) as [->|Hne].
    + rewrite lookup_insert_eq in Hj. injection Hj as <-. unfold n' at 1 2. simpl.
      rewrite (child_sum_insert h i n n') by (eauto using h_nodup).
      rewrite decide_False.
      2:{ intros Hself. destruct (child_start h i n i H Hi Hself) as (? & ? & ? & ? & ? & ?).
          naive_solver lia. }
      assert (lacks ((fun p => (p, delta)) <$> parent n) i = 0) as ->; [|lia].
      destruct (parent n) as [p|] eqn:Ep; simpl; [|done]. rewrite decide_False; [done|].
      intros ->. destruct (parent_start h p n p n H Hi Ep Hi) as (_ & _ & _ & ?). lia.
    + rewrite lookup_insert_ne in Hj by done.
      rewrite (child_sum_insert h i n n') by (eauto using h_nodup).
      pose proof (s_branch h _ Hs j m Hj) as Hbj. simpl in Hbj. rewrite decide_False in Hbj by done.
      assert (lacks ((fun p => (p, delta)) <$> parent n) j
        = if decide (i ∈ children m) then delta else 0) as ->.
      { destruct (decide (i ∈ children m)) as [Hcm|Hcm].
        - destruct (child_start h j m i H Hj Hcm) as (n0 & Hn0 & Hp0 & _).
          assert (n0 = n) as -> by congruence. rewrite Hp0. simpl. by rewrite decide_True.
        - destruct (parent n) as [p|] eqn:Ep; simpl; [|done]. rewrite decide_False; [done|].
          intros ->. destruct (parent_start h i n p m H Hi Ep Hj) as (_ & ? & _ & _). done. }
      unfold n'. simpl. case_decide; lia.
  - intros j m [[<- <-]|[Hne Hj]]%lookup_insert_Some; [done|]. by eapply s_tip.
  - intros j m [[<- <-]|[Hne Hj]]%lookup_insert_Some; [simpl; machine|]. by eapply s_pos.
  - rewrite <- (total_support_shape _ _ Hsh), <- Hst. unfold branch_at.
    destruct (decide (i = ROOT)) as [->|Hne].
    + rewrite lookup_insert_eq, Hi. simpl.
      destruct (h_root _ h H) as (r & Hr' & Hp & _). assert (r = n) as -> by congruence.
      rewrite Hp. simpl. lia.
    + rewrite lookup_insert_ne by done.
      destruct (h_parent _ h H i n Hi Hne) as (p & pn & Hp & _). rewrite Hp. done.
Qed.

Lemma walk_spec fuel i delta t n :
  arena_ok t -> heap_ok (heap t) -> support_ok (heap t) (Some (i, delta)) ->
  heap t !! i = Some n -> total_support (heap t) <= u32_max ->
  (below (heap t) (start (span n)) <= fuel)%nat ->
  exists t', walk fuel i delta t = Ok t' /\ arena_ok t' /\ seq_support t' = seq_support t
    /\ same_shape (heap t) (heap t') /\ support_ok (heap t') None.
Proof.
  revert i t n. induction fuel as [|fuel IH]; intros i t n Har H Hs Hi Htot Hf.
  { pose proof (below_pos (heap t) i n Hi). lia. }
  destruct (support_step (heap t) i n delta H Hs Hi Htot) as [Hw Hs'].
  destruct (update_node_spec i (fun n => set_branch (wrap_u32 (branch_support n + delta)) n) t n)
    as (t1 & E1 & [Hh1 Hss1 Ha1]); [done | done | exact (heap_live _ _ _ Hi) |].
  rewrite Hw in Hh1. simpl. rewrite (get_node_live _ _ _ Hi). simpl. rewrite E1. simpl.
  assert (same_shape (heap t) (heap t1)) as Hsh.
  { rewrite Hh1. by apply (same_shape_insert (heap t) i n). }
  rewrite <- Hh1 in Hs'. destruct (parent n) as [p|] eqn:Ep; simpl in Hs'.
  - assert (heap_ok (heap t1)) as H1 by (eapply heap_ok_shape; eauto).
    destruct (heap t !! p) as [pn|] eqn:Hpn.
    2:{ assert (i <> ROOT) as Hne.
        { intros ->. destruct (h_root _ _ H) as (r & ? & ? & _). congruence. }
        destruct (h_parent _ _ H i n Hi Hne) as (? & ? & ? & ? & _). congruence. }
    destruct (parent_start _ i n p pn H Hi Ep Hpn) as (Hne & _ & _ & Hlt).
    assert (heap t1 !! p = Some pn) as Hpn1.
    { rewrite Hh1, lookup_insert_ne; [done|]. intros ->. naive_solver lia. }
    destruct (IH p t1 pn) as (t' & E' & Ha' & Hss' & Hsh' & Hs''); auto.
    + by rewrite <- (total_support_shape _ _ Hsh).
    + rewrite <- (below_shape _ _ _ Hsh).
      pose proof (below_lt (heap t) i n (start (span pn)) Hi Hlt). lia.
    + exists t'. split_and!; auto; [congruence|]. by etransitivity.
  - exists t1. split_and!; auto.
Qed.
End Walk.
