(* ===== verification/RclLedger.v ===== *)
(** * Validated ledgers and their known ancestry

    [RclValidatedLedger] of [xrpld/app/src/consensus/rcl_validation.rs], the
    ledger type the node stores in the trie: an id, a sequence and the recent
    ancestor hashes of the skip list.  Ids are 256-bit numbers. *)

From S2P Require Import Prelude LedgerTrie TrieInvariant.

Record RclValidatedLedger := mkRcl {
  ledger_id : Z;
  ledger_seq : Z;
  ancestors : list Z
}.

Definition rcl_genesis : RclValidatedLedger := mkRcl 0 0 [0].

(** [from_ledger_with_journal]: the header and what [ledger.read(skip_keylet())]
    gave, the last sequence and the hashes, [None] for a missing or unreadable
    skip list.  That the list ends at the parent is asserted. *)
Definition rcl_from_ledger (seq hash : Z) (skip : option (Z * list Z))
    : outcome RclValidatedLedger :=
  match skip with
  | Some (last, hashes) =>
      _ ← assert_that (last =? sat_u32 (seq - 1));
      mret (mkRcl hash seq hashes)
  | None => mret (mkRcl hash seq [])
  end.

Definition min_seq (l : RclValidatedLedger) : Z :=
  sat_u32 (ledger_seq l - wrap_u32 (Z.of_nat (length (ancestors l)))).

(** The index of the last branch, [usize] subtractions that must not underflow. *)
Definition ancestor_index (l : RclValidatedLedger) (s : Z) : Z :=
  Z.of_nat (length (ancestors l)) - (ledger_seq l - s).

Definition rcl_ancestor (l : RclValidatedLedger) (s : Z) : Z :=
  if ledger_seq l <? s then 0
  else if s =? ledger_seq l then ledger_id l
  else if s <? min_seq l then 0
  else default 0 (ancestors l !! Z.to_nat (ancestor_index l s)).

(** The loop of [mismatch], from [current] down; it stops by itself at zero. *)
Fixpoint mismatch_loop (a b : RclValidatedLedger) (lower : Z) (current : nat) : Z :=
  match current with
  | O => 0
  | S current' =>
      if negb (rcl_ancestor a (Z.of_nat current) =? rcl_ancestor b (Z.of_nat current))
         && (lower <=? Z.of_nat current)
      then mismatch_loop a b lower current'
      else Z.of_nat current
  end.

Definition rcl_mismatch (a b : RclValidatedLedger) : Z :=
  let lower := Z.max (min_seq a) (min_seq b) in
  let upper := Z.min (ledger_seq a) (ledger_seq b) in
  let current := mismatch_loop a b lower (Z.to_nat upper) in
  if current <? lower then 1 else wrap_u32 (current + 1).

#[global] Instance rcl_trie_ledger : TrieLedger RclValidatedLedger Z := {|
  genesis := rcl_genesis;
  seq := ledger_seq;
  ancestor := rcl_ancestor;
  mismatch := rcl_mismatch
|}.

(** ** Laws *)

(** A ledger the node can hold: the genesis placeholder, or a real ledger
    (sequences start at one), whose skip list names fewer ancestors than it has. *)
Definition rcl_valid (l : RclValidatedLedger) : Prop :=
  l = rcl_genesis
  \/ (1 <= ledger_seq l < u32_max /\ Z.of_nat (length (ancestors l)) < ledger_seq l).

Lemma rcl_valid_range l : rcl_valid l -> 0 <= ledger_seq l < u32_max.
Proof. intros [->|[? _]]; simpl; machine. Qed.

Lemma rcl_ancestor_zero l : rcl_valid l -> rcl_ancestor l 0 = 0.
Proof.
  intros [->|[Hs Hl]]; [done|]. unfold rcl_ancestor, min_seq, sat_u32.
  rewrite (wrap_u32_id (Z.of_nat (length _))) by machine.
  rewrite (proj2 (Z.ltb_ge _ _)), (proj2 (Z.eqb_neq _ _)), (proj2 (Z.ltb_lt _ _)) by machine.
  done.
Qed.

Lemma mismatch_loop_le a b lower c : 0 <= mismatch_loop a b lower c <= Z.of_nat c.
Proof. induction c; cbn [mismatch_loop]; [lia|]. destruct (_ && _); lia. Qed.

(** What the loop skipped differs; where it stopped, the ids agree, the window
    ends or the sequence is zero. *)
Lemma mismatch_loop_spec a b lower c :
  let r := mismatch_loop a b lower c in
  (forall s, r < s <= Z.of_nat c -> lower <= s /\ rcl_ancestor a s <> rcl_ancestor b s)
  /\ (r = 0 \/ r < lower \/ rcl_ancestor a r = rcl_ancestor b r).
Proof.
  intros r. subst r. induction c as [|c IH]; cbn [mismatch_loop].
  { split; [lia | by left]. }
  destruct (Z.eqb_spec (rcl_ancestor a (Z.of_nat (S c))) (rcl_ancestor b (Z.of_nat (S c))))
    as [Heq|Hne]; simpl; [split; [lia | auto]|].
  destruct (Z.leb_spec lower (Z.of_nat (S c))); [|split; [lia | auto]].
  destruct IH as [IH1 IH2]. split; [|done]. intros s Hs.
  destruct (decide (s = Z.of_nat (S c))) as [->|]; [done|]. apply IH1. lia.
Qed.

Lemma rcl_mismatch_range a b :
  rcl_valid a -> rcl_valid b ->
  1 <= rcl_mismatch a b <= Z.min (ledger_seq a) (ledger_seq b) + 1.
Proof.
  intros Ha%rcl_valid_range Hb%rcl_valid_range. unfold rcl_mismatch. cbn zeta.
  pose proof (mismatch_loop_le a b (Z.max (min_seq a) (min_seq b))
    (Z.to_nat (Z.min (ledger_seq a) (ledger_seq b)))).
  destruct (Z.ltb_spec (mismatch_loop a b (Z.max (min_seq a) (min_seq b))
    (Z.to_nat (Z.min (ledger_seq a) (ledger_seq b)))) (Z.max (min_seq a) (min_seq b))); [lia|].
  rewrite wrap_u32_id by machine. lia.
Qed.

Lemma rcl_mismatch_top a b :
  rcl_valid a -> rcl_valid b -> rcl_mismatch a b = ledger_seq b + 1 ->
  rcl_ancestor a (ledger_seq b) = rcl_ancestor b (ledger_seq b).
Proof.
  intros Ha Hb Hm. pose proof (rcl_valid_range _ Ha). pose proof (rcl_valid_range _ Hb).
  destruct (decide (ledger_seq b = 0)) as [->|Hnz].
  { by rewrite !rcl_ancestor_zero. }
  revert Hm. unfold rcl_mismatch. cbn zeta.
  set (lower := Z.max _ _). set (upper := Z.to_nat _).
  pose proof (mismatch_loop_le a b lower upper) as Hle.
  destruct (mismatch_loop_spec a b lower upper) as [_ Hstop].
  destruct (Z.ltb_spec (mismatch_loop a b lower upper) lower); [lia|].
  rewrite wrap_u32_id by (unfold upper in *; machine). intros Heq.
  assert (mismatch_loop a b lower upper = ledger_seq b) as Hr by lia. rewrite Hr in Hstop.
  destruct Hstop as [?|[?|?]]; [lia | lia | done].
Qed.

#[global] Instance rcl_trie_laws : TrieLedgerLaws RclValidatedLedger Z rcl_valid.
Proof.
  split; simpl.
  - by left.
  - done.
  - apply rcl_valid_range.
  - intros a b Ha Hb. apply rcl_mismatch_range; done.
  - intros b Hb. apply rcl_mismatch_range; [by left | done].
  - apply rcl_mismatch_top.
Qed.

(** an ancestor lookup of a ledger the node can hold never indexes out of
    range: the hash is read only for the sequences the skip list covers, and
    the result is that entry of the skip list. *)
Theorem rcl_ancestor_in_range l s :
  rcl_valid l -> 0 <= s -> min_seq l <= s < ledger_seq l ->
  0 <= ancestor_index l s < Z.of_nat (length (ancestors l))
  /\ ancestors l !! Z.to_nat (ancestor_index l s) = Some (rcl_ancestor l s).
Proof.
  intros Hv Hs Hr. pose proof (rcl_valid_range _ Hv) as Hrange.
  assert (0 <= ancestor_index l s < Z.of_nat (length (ancestors l))) as Hidx.
  { destruct Hv as [->|[Hv Hl]]; [simpl in *; lia|].
    revert Hr. unfold ancestor_index, min_seq. rewrite (wrap_u32_id (Z.of_nat (length _))) by machine.
    unfold sat_u32. machine. }
  split; [done|]. unfold rcl_ancestor.
  rewrite (proj2 (Z.ltb_ge _ _)), (proj2 (Z.eqb_neq _ _)), (proj2 (Z.ltb_ge _ _)) by lia.
  destruct (ancestors l !! Z.to_nat (ancestor_index l s)) eqn:E; [done|].
  apply lookup_ge_None in E. lia.
Qed.

Lemma rcl_ancestor_in_range_witness :
  ancestors (mkRcl 13 3 [11; 12]) !! Z.to_nat (ancestor_index (mkRcl 13 3 [11; 12]) 1) = Some 11.
Proof.
  apply (rcl_ancestor_in_range (mkRcl 13 3 [11; 12]) 1);
    [right; split; reflexivity || (simpl; machine) | lia | vm_compute; split; congruence].
Defined.

(** [mismatch] finds the divergence nearest to the tips inside the window
    both ledgers know: above its answer every id in the shared range differs,
    and just below it the ids agree, unless the answer is one, the value for
    ledgers with no known shared ancestor but the genesis ledger. *)
Theorem rcl_mismatch_spec a b :
  rcl_valid a -> rcl_valid b ->
  let m := rcl_mismatch a b in
  (forall s, m <= s <= Z.min (ledger_seq a) (ledger_seq b) ->
     Z.max (min_seq a) (min_seq b) <= s -> rcl_ancestor a s <> rcl_ancestor b s)
  /\ (m = 1 \/ (Z.max (min_seq a) (min_seq b) <= m - 1
        /\ rcl_ancestor a (m - 1) = rcl_ancestor b (m - 1))).
Proof.
  intros Ha%rcl_valid_range Hb%rcl_valid_range. unfold rcl_mismatch. cbn zeta.
  set (lower := Z.max _ _). set (upper := Z.to_nat _).
  pose proof (mismatch_loop_le a b lower upper) as Hle.
  destruct (mismatch_loop_spec a b lower upper) as [Hskip Hstop].
  destruct (Z.ltb_spec (mismatch_loop a b lower upper) lower).
  - split; [|by left]. intros s Hs Hlow. apply Hskip. split; [lia | unfold upper; lia].
  - rewrite wrap_u32_id by (unfold upper in *; machine). split.
    + intros s Hs _. apply Hskip. split; [lia | unfold upper; lia].
    + replace (mismatch_loop a b lower upper + 1 - 1) with (mismatch_loop a b lower upper) by lia.
      destruct Hstop as [->|[?|?]]; [by left | lia | right; auto].
Qed.

Lemma rcl_mismatch_spec_witness :
  let a := mkRcl 13 3 [11; 12] in let b := mkRcl 24 4 [11; 22; 23] in
  rcl_mismatch a b = 2 /\ rcl_ancestor a 3 <> rcl_ancestor b 3.
Proof.
  split; [reflexivity|].
  apply (rcl_mismatch_spec (mkRcl 13 3 [11; 12]) (mkRcl 24 4 [11; 22; 23]));
    [right; split; simpl; machine | right; split; simpl; machine |
     vm_compute; split; congruence | vm_compute; congruence].
Defined.
