(* ===== verification/TrieInsert.v ===== *)
(** * Insertion into the trie

    [find] stops at a node whose span the ledger enters; [insert] splits that
    span, adds a branch, and raises the supports.  Each step is described on the
    live nodes and shown to preserve the invariant. *)

From S2P Require Import Prelude LedgerTrie TrieInvariant.

Section Insert.
Context {L Id : Type} `{!TrieLedger L Id} `{!EqDecision Id} `{!TotalOrd Id}.
Context (valid : L -> Prop) `{!TrieLedgerLaws L Id valid}.
Implicit Types t : LedgerTrie L.
Implicit Types n : Node L.
Implicit Types h : gmap nat (Node L).
Notation heap_ok := (heap_ok valid).
Notation trie_ok := (trie_ok valid).
Notation span_ok := (span_ok valid).

(** ** [find] *)

(** The place [find] returns: the ledger enters the span of [loc] and leaves
    it at [d]; past the end of the span no child of [loc] continues it. *)
Record found t (l : L) (loc : nat) (d : Z) : Prop := {
  found_node : exists n, heap t !! loc = Some n /\ d = span_diff (span n) l
    /\ start (span n) < d <= end_ (span n)
    /\ (d = end_ (span n) -> forall c cn, c ∈ children n -> heap t !! c = Some cn ->
          span_diff (span cn) l <= d)
}.

Lemma find_child_spec t l pos cs :
  (forall c, c ∈ cs -> is_Some (heap t !! c)) ->
  exists o, find_child t l pos cs = Ok o /\
    match o with
    | Some (c, p) => exists cn, c ∈ cs /\ heap t !! c = Some cn
        /\ p = span_diff (span cn) l /\ pos < p
    | None => forall c cn, c ∈ cs -> heap t !! c = Some cn -> span_diff (span cn) l <= pos
    end.
Proof.
  induction cs as [|c cs IH]; intros Hcs; simpl.
  { exists None. split; [done|]. intros c cn Hc. by apply elem_of_nil in Hc. }
  destruct (Hcs c ltac:(left)) as [cn Hc].
  rewrite (get_node_live _ _ _ Hc). simpl. rewrite (heap_live _ _ _ Hc). simpl.
  destruct (Z.ltb_spec pos (span_diff (span cn) l)).
  - eexists. split; [done|]. exists cn. split_and!; auto. left.
  - destruct IH as (o & Eo & Ho); [intros; apply Hcs; by right|].
    exists o. split; [done|]. destruct o as [[c' p]|].
    + destruct Ho as (cn' & ? & ?). exists cn'. split; [by right|done].
    + intros c' cn' [->|Hin]%elem_of_cons Hc'; [|by eauto].
      assert (cn' = cn) as -> by congruence. done.
Qed.

Lemma span_diff_range (s : Span L) l : span_ok s -> start s <= span_diff s l <= end_ s.
Proof. intros []. unfold span_diff, span_clamp. lia. Qed.

Lemma find_loop_spec fuel t l curr n :
  heap_ok (heap t) -> heap t !! curr = Some n ->
  start (span n) < span_diff (span n) l ->
  (above (heap t) (start (span n)) <= fuel)%nat ->
  exists loc d, find_loop fuel t l curr (span_diff (span n) l) = Ok (loc, d)
    /\ found t l loc d.
Proof.
  intros H. revert curr n. induction fuel as [|fuel IH]; intros curr n Hc Hst Hf.
  { pose proof (above_pos (heap t) curr n Hc). lia. }
  pose proof (span_diff_range (span n) l (h_span _ _ H _ _ Hc)).
  simpl. rewrite (get_node_live _ _ _ Hc). simpl.
  destruct (Z.eqb_spec (span_diff (span n) l) (end_ (span n))) as [Heq|Hneq].
  - destruct (find_child_spec t l (span_diff (span n) l) (children n)) as (o & Eo & Ho).
    { intros c Hin. destruct (h_children _ _ H _ _ _ Hc Hin) as (cn & ? & _). eauto. }
    rewrite Eo. simpl. destruct o as [[c p]|].
    + destruct Ho as (cn & Hin & Hcn & -> & Hlt).
      destruct (child_start valid _ _ _ _ H Hc Hin) as (cn' & Hcn' & _ & Hs & Hlt' & _).
      assert (cn' = cn) as -> by congruence.
      apply IH; [done | lia |]. pose proof (above_lt _ _ _ _ Hc Hlt'). lia.
    + exists curr, (span_diff (span n) l). split; [done|]. split.
      exists n. split_and!; auto; lia.
  - exists curr, (span_diff (span n) l). split; [done|]. split.
    exists n. split_and!; auto; lia.
Qed.

Lemma span_genesis_eq : span_genesis = mkSpan 0 1 genesis.
Proof. unfold span_genesis. by rewrite (genesis_seq (valid := valid)). Qed.

Lemma find_spec t l :
  heap_ok (heap t) -> valid l ->
  exists loc d, find t l = Ok (loc, d) /\ found t l loc d.
Proof.
  intros H Hl. destruct (h_root _ _ H) as (r & Hr & _ & Hs).
  unfold find. rewrite (get_node_live _ _ _ Hr). simpl.
  apply find_loop_spec; [done | done | | apply above_bound].
  rewrite Hs, span_genesis_eq. unfold span_diff, span_clamp. simpl.
  pose proof (mismatch_genesis l Hl). lia.
Qed.

(** The three spans cut at the place found. *)
Lemma cut_spans t l loc d n :
  heap_ok (heap t) -> valid l -> found t l loc d -> heap t !! loc = Some n ->
  span_before (span n) d = Some (mkSpan (start (span n)) d (ledger (span n)))
  /\ span_from (span n) d
     = (if d <? end_ (span n) then Some (mkSpan d (end_ (span n)) (ledger (span n))) else None)
  /\ span_from (span_from_ledger l 0) d
     = (if d <? seq l + 1 then Some (mkSpan d (seq l + 1) l) else None)
  /\ d <= seq l + 1 /\ d <= mismatch (ledger (span n)) l
  /\ start (span n) < d <= end_ (span n)
  /\ (loc = ROOT -> d = end_ (span n)).
Proof.
  intros H Hl [(n' & Hn' & Hd & Hrange & _)] Hn. assert (n' = n) as -> by congruence.
  pose proof (h_span _ _ H _ _ Hn) as Hsp. destruct Hsp as [Hv Hne He].
  pose proof (seq_range l Hl). pose proof (mismatch_le _ _ Hv Hl).
  assert (d <= mismatch (ledger (span n)) l) by (unfold span_diff, span_clamp in Hd; lia).
  unfold span_before, span_from, span_sub, span_clamp, span_from_ledger. simpl.
  rewrite (wrap_u32_id (seq l + 1)) by machine.
  split_and!; try lia.
  - rewrite (proj2 (Z.ltb_lt _ _)) by lia. do 2 f_equal; lia.
  - destruct (Z.ltb_spec d (end_ (span n)));
      [rewrite (proj2 (Z.ltb_lt _ _)) by lia; do 2 f_equal; lia|].
    by rewrite (proj2 (Z.ltb_ge _ _)) by lia.
  - destruct (Z.ltb_spec d (seq l + 1));
      [rewrite (proj2 (Z.ltb_lt _ _)) by lia; do 2 f_equal; lia|].
    by rewrite (proj2 (Z.ltb_ge _ _)) by lia.
  - intros ->. destruct (h_root _ _ H) as (r & Hr & _ & Hs).
    assert (r = n) as -> by congruence. rewrite Hs, span_genesis_eq in *. simpl in *. lia.
Qed.
End Insert.

(** ** Splitting a span *)

Section Split.
Context {L Id : Type} `{!TrieLedger L Id} `{!EqDecision Id} `{!TotalOrd Id}.
Context (valid : L -> Prop) `{!TrieLedgerLaws L Id valid}.
Implicit Types t : LedgerTrie L.
Implicit Types n : Node L.
Implicit Types h : gmap nat (Node L).
Notation heap_ok := (heap_ok valid).
Notation span_ok := (span_ok valid).

(** Make [k] the parent of every node of [cs]. *)
Definition reparent (k : nat) (cs : list nat) h : gmap nat (Node L) :=
  map_imap (fun j n => Some (if decide (j ∈ cs) then set_parent (Some k) n else n)) h.

Definition split_upper n (pre : Span L) (k : nat) : Node L :=
  mkNode pre 0 (branch_support n) [k] (parent n) true.
Definition split_lower n (suf : Span L) (loc : nat) : Node L :=
  mkNode suf (tip_support n) (branch_support n) (children n) (Some loc) true.

(** The live nodes after [split]. *)
Definition split_heap h (loc k : nat) n (pre suf : Span L) : gmap nat (Node L) :=
  <[loc := split_upper n pre k]> (<[k := split_lower n suf loc]> (reparent k (children n) h)).

Lemma reparent_lookup k cs h j :
  reparent k cs h !! j
    = (fun n => if decide (j ∈ cs) then set_parent (Some k) n else n) <$> h !! j.
Proof. unfold reparent. rewrite map_lookup_imap. by destruct (h !! j). Qed.

Lemma reparent_cons k c cs h n :
  h !! c = Some n ->
  reparent k (c :: cs) h = reparent k cs (<[c := set_parent (Some k) n]> h).
Proof.
  intros Hc. apply map_eq. intros j. rewrite !reparent_lookup.
  destruct (decide (j = c)) as [->|Hne].
  - rewrite lookup_insert_eq, Hc. simpl. f_equal.
    rewrite decide_True by (rewrite elem_of_cons; auto). by case_decide.
  - rewrite lookup_insert_ne by done. destruct (h !! j); simpl; [|done]. f_equal.
    destruct (decide (j ∈ cs)); [rewrite decide_True by (rewrite elem_of_cons; auto); done|].
    rewrite decide_False; [done|]. rewrite elem_of_cons. tauto.
Qed.

Lemma reparent_fold k cs t :
  arena_ok t -> (forall c, c ∈ cs -> is_Some (heap t !! c)) ->
  exists t', foldM (fun t c => update_node c (set_parent (Some k)) t) t cs = Ok t'
    /\ reaches t (reparent k cs (heap t)) t'.
Proof.
  revert t. induction cs as [|c cs IH]; intros t Har Hcs; simpl.
  { exists t. split; [done|]. split; [|done|done]. apply map_eq. intros j.
    rewrite reparent_lookup. by destruct (heap t !! j). }
  destruct (Hcs c ltac:(left)) as [n Hn].
  destruct (update_node_spec c (set_parent (Some k)) t n Har Hn) as (t1 & E1 & [Hh1 Hs1 Ha1]);
    [exact (heap_live _ _ _ Hn)|].
  rewrite E1. simpl. destruct (IH t1 Ha1) as (t' & E' & [Hh' Hs' Ha']).
  { intros c' Hc'. rewrite Hh1. destruct (decide (c' = c)) as [->|].
    - rewrite lookup_insert_eq. eauto.
    - rewrite lookup_insert_ne by done. apply Hcs. by right. }
  exists t'. split; [done|]. split; [|congruence|done].
  by rewrite Hh', Hh1, (reparent_cons k c cs (heap t) n Hn).
Qed.

Lemma split_lookup h loc k n pre suf j m :
  h !! k = None -> h !! loc = Some n ->
  split_heap h loc k n pre suf !! j = Some m <->
  (j = loc /\ m = split_upper n pre k) \/ (j = k /\ m = split_lower n suf loc)
  \/ (j <> loc /\ j <> k /\ exists m0, h !! j = Some m0
      /\ m = if decide (j ∈ children n) then set_parent (Some k) m0 else m0).
Proof.
  intros Hk Hloc. assert (k <> loc) by congruence. unfold split_heap.
  rewrite !lookup_insert_Some, reparent_lookup, fmap_Some. naive_solver.
Qed.

(** A sum over the nodes that ignores the parent links. *)
Lemma msum_split f h loc k n pre suf :
  (forall p m, f (set_parent p m) = f m) -> h !! k = None -> h !! loc = Some n ->
  loc ∉ children n ->
  msum f (split_heap h loc k n pre suf)
    = msum f h - f n + f (split_upper n pre k) + f (split_lower n suf loc).
Proof.
  intros Hf Hk Hloc Hself. assert (k <> loc) by congruence. unfold split_heap.
  rewrite (msum_insert_old f loc n).
  2:{ rewrite lookup_insert_ne, reparent_lookup, Hloc by done. simpl.
      by rewrite decide_False. }
  rewrite msum_insert_new by by rewrite reparent_lookup, Hk.
  assert (msum f (reparent k (children n) h) = msum f h) as ->; [|lia].
  clear Hk Hloc Hself. generalize (children n). intros cs.
  induction h as [|i x h Hi IH] using map_ind; [done|].
  assert (reparent k cs (<[i := x]> h)
    = <[i := if decide (i ∈ cs) then set_parent (Some k) x else x]> (reparent k cs h)) as ->.
  { apply map_eq. intros j. rewrite reparent_lookup.
    destruct (decide (j = i)) as [->|]; [by rewrite !lookup_insert_eq|].
    by rewrite !lookup_insert_ne, reparent_lookup. }
  rewrite !msum_insert_new by (rewrite ?reparent_lookup, ?Hi; done). rewrite IH.
  case_decide; rewrite ?Hf; done.
Qed.

(** ** The invariant across a split *)

Lemma not_own_child h i n : heap_ok h -> h !! i = Some n -> i ∉ children n.
Proof.
  intros H Hi Hin. destruct (child_start valid _ _ _ _ H Hi Hin) as (? & ? & _ & _ & ? & _).
  simplify_eq. lia.
Qed.

Lemma split_heap_ok h loc k n d :
  heap_ok h -> h !! k = None -> h !! loc = Some n -> loc <> ROOT ->
  start (span n) < d < end_ (span n) ->
  heap_ok (split_heap h loc k n (mkSpan (start (span n)) d (ledger (span n)))
    (mkSpan d (end_ (span n)) (ledger (span n)))).
Proof.
  intros H Hk Hloc Hroot Hd. assert (k <> loc) as Hkl by congruence.
  pose proof (not_own_child _ _ _ H Hloc) as Hself.
  set (pre := mkSpan _ d _). set (suf := mkSpan d _ _).
  assert (forall j m, split_heap h loc k n pre suf !! j = Some m <-> _) as Hlk
    by (intros; by apply split_lookup).
  assert (k ∉ children n) as Hkc.
  { intros Hc. destruct (h_children _ _ H _ _ _ Hloc Hc) as (? & ? & _). congruence. }
  destruct (h_span _ _ H _ _ Hloc) as [Hv Hne He].
  split.
  - destruct (h_root _ _ H) as (r & Hr & Hp & Hs). exists r. split_and!; [|done..].
    apply Hlk. right. right. split_and!; [done | congruence |]. exists r. split; [done|].
    rewrite decide_False; [done|]. intros Hc.
    by destruct (child_start valid _ _ _ _ H Hloc Hc) as (? & ? & _ & _ & _ & []).
  - intros i m Him Hir. apply Hlk in Him as [[-> ->]|[[-> ->]|(Hil & Hik & m0 & Hm0 & ->)]].
    + destruct (h_parent _ _ H _ _ Hloc Hroot) as (p & pn & Hp & Hpn & Hin & Hst).
      exists p, pn. split_and!; [done | | done | done].
      assert (p <> loc) by (intros ->; congruence).
      apply Hlk. right. right. split_and!; [done | congruence |]. exists pn. split; [done|].
      rewrite decide_False; [done|]. intros Hc.
      destruct (child_start valid _ _ _ _ H Hloc Hc) as (? & ? & _ & _ & ? & _).
      destruct (parent_start valid _ _ _ _ _ H Hloc Hp Hpn) as (_ & _ & _ & ?).
      simplify_eq. lia.
    + exists loc, (split_upper n pre k). split_and!; [done | apply Hlk; auto | left | done].
    + destruct (h_parent _ _ H _ _ Hm0 Hir) as (p & pn & Hp & Hpn & Hin & Hst).
      destruct (decide (p = loc)) as [->|Hpl].
      * simplify_eq. rewrite decide_True by done. exists k, (split_lower n suf loc).
        split_and!; [done | apply Hlk; auto | done | done].
      * rewrite decide_False.
        2:{ intros Hc. destruct (h_children _ _ H _ _ _ Hloc Hc) as (? & ? & ?). congruence. }
        exists p. eexists. split_and!; [done | apply Hlk | |].
        -- right. right. split_and!; [done | congruence |]. eauto.
        -- by case_decide.
        -- by case_decide.
  - intros i m c Him Hc. apply Hlk in Him as [[-> ->]|[[-> ->]|(Hil & Hik & m0 & Hm0 & ->)]].
    + simpl in Hc. apply list_elem_of_singleton in Hc as ->.
      exists (split_lower n suf loc). split; [apply Hlk; auto | done].
    + simpl in Hc. destruct (h_children _ _ H _ _ _ Hloc Hc) as (cn & Hcn & Hp).
      exists (set_parent (Some k) cn). split; [|done]. apply Hlk. right. right.
      split_and!; [congruence | congruence |]. exists cn. by rewrite decide_True.
    + assert (c ∈ children m0) as Hc0 by by case_decide.
      destruct (h_children _ _ H _ _ _ Hm0 Hc0) as (cn & Hcn & Hp).
      destruct (decide (c = loc)) as [->|Hcl].
      * simplify_eq. exists (split_upper n pre k). split; [apply Hlk; auto | done].
      * exists cn. split; [|done]. apply Hlk. right. right. split_and!; [done | congruence |].
        exists cn. split; [done|]. rewrite decide_False; [done|]. intros Hcc.
        destruct (h_children _ _ H _ _ _ Hloc Hcc) as (? & ? & ?). congruence.
  - intros i m Him. apply Hlk in Him as [[-> ->]|[[-> ->]|(Hil & Hik & m0 & Hm0 & ->)]]; simpl.
    + apply NoDup_singleton.
    + by eapply h_nodup.
    + case_decide; exact (h_nodup _ _ H i m0 Hm0).
  - intros i m Him. apply Hlk in Him as [[-> ->]|[[-> ->]|(Hil & Hik & m0 & Hm0 & ->)]]; simpl.
    + split; simpl; [done | lia | lia].
    + split; simpl; [done | lia | lia].
    + case_decide; exact (h_span _ _ H i m0 Hm0).
  - intros i m Him. apply Hlk in Him as [[-> ->]|[[-> ->]|(Hil & Hik & m0 & Hm0 & ->)]]; simpl;
      [done..|]. case_decide; exact (h_live _ _ H i m0 Hm0).
Qed.

Lemma split_branch_at h loc k n pre suf c :
  h !! k = None -> h !! loc = Some n -> c <> k ->
  branch_at (split_heap h loc k n pre suf) c = branch_at h c.
Proof.
  intros Hk Hloc Hck. unfold branch_at, split_heap.
  destruct (decide (c = loc)) as [->|]; [by rewrite lookup_insert_eq, Hloc|].
  rewrite !lookup_insert_ne, reparent_lookup by done.
  destruct (h !! c); simpl; [|done]. by case_decide.
Qed.

Lemma split_child_sum h loc k n pre suf cs :
  h !! k = None -> h !! loc = Some n -> k ∉ cs ->
  child_sum (split_heap h loc k n pre suf) cs = child_sum h cs.
Proof.
  intros Hk Hloc Hcs. apply zsum_ext. intros c Hc. apply split_branch_at; [done..|].
  by intros ->.
Qed.

Lemma dead_not_child h k i n : heap_ok h -> h !! k = None -> h !! i = Some n -> k ∉ children n.
Proof.
  intros H Hk Hi Hc. destruct (h_children _ _ H _ _ _ Hi Hc) as (? & ? & _). congruence.
Qed.

Lemma split_total h loc k n pre suf :
  heap_ok h -> h !! k = None -> h !! loc = Some n ->
  total_support (split_heap h loc k n pre suf) = total_support h.
Proof.
  intros H Hk Hloc. unfold total_support.
  rewrite msum_split by eauto using not_own_child. simpl. lia.
Qed.

Lemma split_support h loc k n pre suf :
  heap_ok h -> h !! k = None -> h !! loc = Some n -> loc <> ROOT ->
  support_ok h None -> support_ok (split_heap h loc k n pre suf) None.
Proof.
  intros H Hk Hloc Hroot Hs.
  pose proof (s_branch _ _ Hs _ _ Hloc) as Hb. pose proof (s_pos _ _ Hs _ _ Hloc).
  pose proof (s_tip _ _ Hs _ _ Hloc). simpl in Hb.
  split.
  - intros i m Him. apply split_lookup in Him as [[-> ->]|[[-> ->]|(Hil & Hik & m0 & Hm0 & ->)]];
      [| | |done..]; simpl.
    + unfold child_sum. simpl. unfold branch_at, split_heap.
      rewrite lookup_insert_ne, lookup_insert_eq by congruence. simpl. lia.
    + rewrite split_child_sum by eauto using dead_not_child. lia.
    + pose proof (s_branch _ _ Hs _ _ Hm0) as Hb0. simpl in Hb0.
      assert (children (if decide (i ∈ children n) then set_parent (Some k) m0 else m0)
        = children m0) as -> by by case_decide.
      rewrite split_child_sum by eauto using dead_not_child. case_decide; simpl; lia.
  - intros i m Him. apply split_lookup in Him as [[-> ->]|[[-> ->]|(Hil & Hik & m0 & Hm0 & ->)]];
      [done | done | | done..]. pose proof (s_tip _ _ Hs _ _ Hm0). by case_decide.
  - intros i m Him. apply split_lookup in Him as [[-> ->]|[[-> ->]|(Hil & Hik & m0 & Hm0 & ->)]];
      [done | done | | done..]. pose proof (s_pos _ _ Hs _ _ Hm0). by case_decide.
  - rewrite split_total, split_branch_at by first
      [done | intros <-; destruct (h_root _ _ H) as (? & ? & _); congruence].
    apply (s_total _ _ Hs).
Qed.

Lemma split_tips_at_seq h loc k n d s :
  heap_ok h -> h !! k = None -> h !! loc = Some n ->
  tips_at_seq s (split_heap h loc k n (mkSpan (start (span n)) d (ledger (span n)))
    (mkSpan d (end_ (span n)) (ledger (span n)))) = tips_at_seq s h.
Proof.
  intros H Hk Hloc. unfold tips_at_seq. rewrite msum_split by eauto using not_own_child.
  simpl. repeat case_decide; lia.
Qed.

Lemma split_tips_at h loc k n d x :
  heap_ok h -> h !! k = None -> h !! loc = Some n ->
  tips_at x (split_heap h loc k n (mkSpan (start (span n)) d (ledger (span n)))
    (mkSpan d (end_ (span n)) (ledger (span n)))) = tips_at x h.
Proof.
  intros H Hk Hloc. unfold tips_at. rewrite msum_split by eauto using not_own_child.
  simpl. repeat case_decide; lia || done.
Qed.

Lemma split_compressed h loc k n pre suf :
  h !! k = None -> h !! loc = Some n -> loc <> ROOT -> compressed h None ->
  compressed (split_heap h loc k n pre suf) (Some loc).
Proof.
  intros Hk Hloc Hroot Hc i m Him Hir Hex Ht.
  apply split_lookup in Him as [[-> ->]|[[-> ->]|(Hil & Hik & m0 & Hm0 & ->)]]; [done | | | done..].
  - by apply (Hc loc n Hloc).
  - assert (2 <= length (children m0))%nat; [|by case_decide].
    apply (Hc i m0 Hm0 Hir); [done|]. by case_decide.
Qed.

(** The code of [split] computes [split_heap]. *)
Lemma split_spec t loc n pre suf :
  arena_ok t -> heap_ok (heap t) -> heap t !! loc = Some n ->
  exists k t', split loc (Some pre) suf t = Ok t' /\ heap t !! k = None
    /\ reaches t (split_heap (heap t) loc k n pre suf) t'.
Proof.
  intros Har H Hloc. unfold split. rewrite (get_node_live _ _ _ Hloc). simpl.
  assert (loc ∉ children n) as Hself.
  { intros Hin. destruct (child_start valid _ _ _ _ H Hloc Hin) as (? & ? & _ & _ & ? & _).
    simplify_eq. lia. }
  destruct (update_node_spec loc (set_children []) t n Har Hloc) as (t1 & E1 & [Hh1 Hs1 Ha1]);
    [exact (heap_live _ _ _ Hloc)|]. rewrite E1. simpl.
  destruct (alloc_spec (mkNode suf (tip_support n) (branch_support n) (children n) None true)
    t1 Ha1 eq_refl) as (k & t2 & E2 & Hk & [Hh2 Hs2 Ha2]). rewrite E2. simpl.
  rewrite Hh1 in Hk. apply lookup_insert_None in Hk as [Hk Hne].
  assert (heap t2 !! k = Some (mkNode suf (tip_support n) (branch_support n)
    (children n) None true)) as Hk2 by (rewrite Hh2; apply lookup_insert_eq).
  rewrite (get_node_live _ _ _ Hk2). simpl.
  destruct (reparent_fold k (children n) t2 Ha2) as (t3 & E3 & [Hh3 Hs3 Ha3]).
  { intros c Hc. destruct (h_children _ _ H _ _ _ Hloc Hc) as (cn & Hcn & _).
    rewrite Hh2, Hh1. rewrite !lookup_insert_ne by congruence. eauto. }
  rewrite E3. simpl.
  assert (k ∉ children n) as Hkc.
  { intros Hc. destruct (h_children _ _ H _ _ _ Hloc Hc) as (cn & Hcn & _). congruence. }
  assert (heap t3 !! loc = Some (set_children [] n)) as Hl3.
  { rewrite Hh3, reparent_lookup, Hh2, Hh1, lookup_insert_ne, lookup_insert_eq by done. simpl.
    by rewrite decide_False. }
  destruct (update_node_spec loc (set_span pre) t3 _ Ha3 Hl3) as (t4 & E4 & [Hh4 Hs4 Ha4]);
    [exact (heap_live _ _ _ Hl3)|]. rewrite E4. simpl.
  assert (heap t4 !! k = Some (mkNode suf (tip_support n) (branch_support n)
    (children n) None true)) as Hk4.
  { rewrite Hh4, lookup_insert_ne, Hh3, reparent_lookup, Hk2 by done. simpl.
    by rewrite decide_False. }
  destruct (update_node_spec k (set_parent (Some loc)) t4 _ Ha4 Hk4 eq_refl)
    as (t5 & E5 & [Hh5 Hs5 Ha5]). rewrite E5. simpl.
  assert (heap t5 !! loc = Some (set_span pre (set_children [] n))) as Hl5.
  { rewrite Hh5, lookup_insert_ne, Hh4 by done. apply lookup_insert_eq. }
  destruct (update_node_spec loc (fun n => set_children (children n ++ [k]) n) t5 _ Ha5 Hl5)
    as (t6 & E6 & [Hh6 Hs6 Ha6]); [exact (heap_live _ _ _ Hl5)|]. rewrite E6. simpl.
  assert (heap t6 !! loc = Some (set_children [k] (set_span pre (set_children [] n)))) as Hl6.
  { rewrite Hh6. apply lookup_insert_eq. }
  destruct (update_node_spec loc (set_tip 0) t6 _ Ha6 Hl6)
    as (t7 & E7 & [Hh7 Hs7 Ha7]); [exact (heap_live _ _ _ Hl6)|]. rewrite E7.
  exists k, t7. split_and!; [done..|]. split; [|congruence|done].
  rewrite Hh7, Hh6, insert_insert_eq, Hh5, Hh4, Hh3, Hh2, Hh1. unfold split_heap.
  apply map_eq. intros j.
  destruct (decide (j = loc)) as [->|Hjl].
  { rewrite !lookup_insert_eq. unfold split_upper, set_tip, set_children, set_span. simpl.
    by rewrite (heap_live _ _ _ Hloc). }
  rewrite !(lookup_insert_ne _ loc) by done.
  destruct (decide (j = k)) as [->|Hjk]; [by rewrite !lookup_insert_eq|].
  rewrite !(lookup_insert_ne _ k) by done. rewrite (lookup_insert_ne _ loc) by done.
  rewrite !reparent_lookup, !lookup_insert_ne by done. done.
Qed.
End Split.


(** ** Adding a branch *)

Section Branch.
Context {L Id : Type} `{!TrieLedger L Id} `{!EqDecision Id} `{!TotalOrd Id}.
Context (valid : L -> Prop) `{!TrieLedgerLaws L Id valid}.
Implicit Types t : LedgerTrie L.
Implicit Types n : Node L.
Implicit Types h : gmap nat (Node L).
Notation heap_ok := (heap_ok valid).
Notation span_ok := (span_ok valid).

Definition leaf (s : Span L) (loc : nat) : Node L := mkNode s 0 0 [] (Some loc) true.

(** The live nodes after [add_branch]. *)
Definition branch_heap h (loc k : nat) n (s : Span L) : gmap nat (Node L) :=
  <[loc := set_children (children n ++ [k]) n]> (<[k := leaf s loc]> h).

Lemma add_branch_spec t loc n s :
  arena_ok t -> heap t !! loc = Some n ->
  exists k t', add_branch loc s t = Ok (k, t') /\ heap t !! k = None
    /\ reaches t (branch_heap (heap t) loc k n s) t'.
Proof.
  intros Har Hloc. unfold add_branch.
  destruct (alloc_spec (leaf s loc) t Har eq_refl) as (k & t1 & E1 & Hk & [Hh1 Hs1 Ha1]).
  unfold leaf in E1. unfold set_parent, node_from_span. simpl. rewrite E1. simpl.
  assert (k <> loc) by congruence.
  assert (heap t1 !! loc = Some n) as Hl1 by by rewrite Hh1, lookup_insert_ne.
  destruct (update_node_spec loc (fun n => set_children (children n ++ [k]) n) t1 n Ha1 Hl1)
    as (t2 & E2 & [Hh2 Hs2 Ha2]); [exact (heap_live _ _ _ Hl1)|].
  rewrite E2. exists k, t2. split_and!; [done..|]. split; [|congruence|done].
  by rewrite Hh2, Hh1.
Qed.

Lemma branch_lookup h loc k n s j m :
  h !! k = None -> h !! loc = Some n ->
  branch_heap h loc k n s !! j = Some m <->
  (j = loc /\ m = set_children (children n ++ [k]) n) \/ (j = k /\ m = leaf s loc)
  \/ (j <> loc /\ j <> k /\ h !! j = Some m).
Proof.
  intros Hk Hloc. assert (k <> loc) by congruence. unfold branch_heap.
  rewrite !lookup_insert_Some. naive_solver.
Qed.

Lemma msum_branch f h loc k n s :
  (forall cs m, f (set_children cs m) = f m) -> f (leaf s loc) = 0 ->
  h !! k = None -> h !! loc = Some n -> msum f (branch_heap h loc k n s) = msum f h.
Proof.
  intros Hf Hleaf Hk Hloc. assert (k <> loc) by congruence. unfold branch_heap.
  rewrite (msum_insert_old f loc n) by by rewrite lookup_insert_ne.
  rewrite msum_insert_new by done. rewrite Hf, Hleaf. lia.
Qed.

Lemma branch_heap_ok h loc k n s :
  heap_ok h -> h !! k = None -> h !! loc = Some n -> span_ok s -> start s = end_ (span n) ->
  heap_ok (branch_heap h loc k n s).
Proof.
  intros H Hk Hloc Hs Hst. assert (k <> loc) as Hkl by congruence.
  assert (k <> ROOT) as Hkr by (intros ->; destruct (h_root _ _ H) as (? & ? & _); congruence).
  assert (forall j m, branch_heap h loc k n s !! j = Some m <-> _) as Hlk
    by (intros; by apply branch_lookup).
  assert (forall j m, h !! j = Some m -> exists cs, branch_heap h loc k n s !! j
      = Some (set_children cs m) /\ (forall c, c ∈ children m -> c ∈ cs)) as Hold.
  { intros j m Hj. destruct (decide (j = loc)) as [->|].
    - simplify_eq. eexists. split; [apply Hlk; auto|]. intros c Hc. apply elem_of_app. by left.
    - exists (children m). split; [|done]. apply Hlk. right. right.
      split_and!; [done | congruence |]. by destruct m. }
  split.
  - destruct (h_root _ _ H) as (r & Hr & Hp & Hsp). destruct (Hold _ _ Hr) as (cs & Hcs & _).
    eexists. split; [done|]. done.
  - assert (forall i m, h !! i = Some m -> i <> ROOT -> exists p pn, parent m = Some p
      /\ branch_heap h loc k n s !! p = Some pn /\ i ∈ children pn
      /\ start (span m) = end_ (span pn)) as Hpar.
    { intros i m Hi Hir. destruct (h_parent _ _ H _ _ Hi Hir) as (p & pn & ? & Hpn & ? & ?).
      destruct (Hold _ _ Hpn) as (cs & Hcs & Hin). eexists p, _. split_and!; eauto. }
    intros i m [[-> ->]|[[-> ->]|(Hil & Hik & Hm0)]]%Hlk Hir;
      [exact (Hpar _ _ Hloc Hir) | | by apply Hpar].
    eexists loc, _. split_and!; [done | apply Hlk; by left | | done].
    simpl. apply elem_of_app. right. by apply list_elem_of_singleton.
  - assert (forall i m c, h !! i = Some m -> c ∈ children m -> exists cn,
      branch_heap h loc k n s !! c = Some cn /\ parent cn = Some i) as Hch.
    { intros i m c Hi Hc. destruct (h_children _ _ H _ _ _ Hi Hc) as (cn & Hcn & ?).
      destruct (Hold _ _ Hcn) as (cs & Hcs & _). eauto. }
    intros i m c [[-> ->]|[[-> ->]|(Hil & Hik & Hm0)]]%Hlk Hc; [| |by eapply Hch].
    + simpl in Hc. apply elem_of_app in Hc as [Hc| ->%list_elem_of_singleton]; [by eapply Hch|].
      exists (leaf s loc). split; [apply Hlk; auto | done].
    + by apply elem_of_nil in Hc.
  - intros i m [[-> ->]|[[-> ->]|(Hil & Hik & Hm0)]]%Hlk; [| |by eapply h_nodup]; simpl.
    + apply NoDup_app. split_and!; [by eapply h_nodup | | apply NoDup_singleton].
      intros c Hc ->%list_elem_of_singleton. by eapply (dead_not_child valid).
    + apply NoDup_nil_2.
  - intros i m [[-> ->]|[[-> ->]|(Hil & Hik & Hm0)]]%Hlk; [| done |by eapply h_span].
    exact (h_span _ _ H _ _ Hloc).
  - intros i m [[-> ->]|[[-> ->]|(Hil & Hik & Hm0)]]%Hlk; [| done |by eapply h_live].
    exact (h_live _ _ H _ _ Hloc).
Qed.

Lemma branch_branch_at h loc k n s c :
  h !! k = None -> h !! loc = Some n -> branch_at (branch_heap h loc k n s) c = branch_at h c.
Proof.
  intros Hk Hloc. assert (k <> loc) by congruence. unfold branch_at, branch_heap.
  destruct (decide (c = loc)) as [->|]; [by rewrite lookup_insert_eq, Hloc|].
  rewrite lookup_insert_ne by done.
  destruct (decide (c = k)) as [->|]; [by rewrite lookup_insert_eq, Hk|].
  by rewrite lookup_insert_ne.
Qed.

Lemma branch_child_sum h loc k n s cs :
  h !! k = None -> h !! loc = Some n -> child_sum (branch_heap h loc k n s) cs = child_sum h cs.
Proof. intros Hk Hloc. apply zsum_ext. intros c _. by apply branch_branch_at. Qed.

Lemma branch_support_ok h loc k n s :
  heap_ok h -> h !! k = None -> h !! loc = Some n ->
  support_ok h None -> support_ok (branch_heap h loc k n s) None.
Proof.
  intros H Hk Hloc Hs. pose proof (s_branch _ _ Hs _ _ Hloc) as Hb.
  split.
  - intros i m Him. rewrite branch_child_sum by done.
    apply branch_lookup in Him as [[-> ->]|[[-> ->]|(_ & _ & Hm0)]]; [| | |done..]; simpl in *.
    + unfold child_sum in *. rewrite zsum_app. simpl. unfold branch_at at 2. rewrite Hk. lia.
    + done.
    + exact (s_branch _ _ Hs _ _ Hm0).
  - intros i m Him. apply branch_lookup in Him as [[-> ->]|[[-> ->]|(_ & _ & Hm0)]];
      [exact (s_tip _ _ Hs _ _ Hloc) | done | by eapply s_tip | done..].
  - intros i m Him. apply branch_lookup in Him as [[-> ->]|[[-> ->]|(_ & _ & Hm0)]];
      [exact (s_pos _ _ Hs _ _ Hloc) | simpl; machine | by eapply s_pos | done..].
  - rewrite branch_branch_at by done. unfold total_support. rewrite msum_branch by done.
    apply (s_total _ _ Hs).
Qed.

Lemma branch_compressed h loc k n s ex :
  h !! k = None -> h !! loc = Some n -> ex = None \/ ex = Some loc /\ children n <> [] ->
  compressed h ex -> compressed (branch_heap h loc k n s) (Some k).
Proof.
  intros Hk Hloc Hex Hc i m Him Hir Hik Ht.
  apply branch_lookup in Him as [[-> ->]|[[-> ->]|(Hil & Hne & Hm0)]]; [| done | | done..].
  - simpl in *. rewrite length_app. simpl.
    destruct Hex as [->|[-> Hn]]; [by pose proof (Hc loc n Hloc Hir ltac:(done) Ht); lia|].
    destruct (children n); [done|]. simpl. lia.
  - apply (Hc i m Hm0 Hir); [|done]. destruct Hex as [->|[-> _]]; congruence.
Qed.

(** ** Raising the support of one tip *)

Definition bump (i : nat) n (count : Z) h : gmap nat (Node L) :=
  <[i := set_tip (tip_support n + count) n]> h.

Lemma bump_lookup i n count h j m :
  bump i n count h !! j = Some m
    <-> (i = j /\ set_tip (tip_support n + count) n = m) \/ (i <> j /\ h !! j = Some m).
Proof. apply lookup_insert_Some. Qed.

Lemma bump_links i n count h : h !! i = Some n -> same_links h (bump i n count h).
Proof. intros Hi. by eapply same_links_insert. Qed.

Lemma msum_bump (P : Node L -> Prop) `{!forall n, Decision (P n)} i n count h :
  (forall v m, P (set_tip v m) <-> P m) -> h !! i = Some n ->
  msum (fun m => if decide (P m) then tip_support m else 0) (bump i n count h)
    = msum (fun m => if decide (P m) then tip_support m else 0) h
      + (if decide (P n) then count else 0).
Proof.
  intros HP Hi. unfold bump. rewrite (msum_insert_old _ i n) by done.
  destruct (decide (P n)).
  - rewrite decide_True by by apply HP. simpl. lia.
  - rewrite decide_False by (rewrite HP; done). lia.
Qed.

Lemma bump_total i n count h :
  h !! i = Some n -> total_support (bump i n count h) = total_support h + count.
Proof.
  intros Hi. unfold total_support, bump. rewrite (msum_insert_old _ i n) by done. simpl. lia.
Qed.

Lemma bump_support i n count h :
  h !! i = Some n -> support_ok h None -> 0 <= tip_support n + count ->
  heap_ok h -> support_ok (bump i n count h) (Some (i, count)).
Proof.
  intros Hi Hs Hpos H. assert (forall c, branch_at (bump i n count h) c = branch_at h c) as Hba.
  { intros c. unfold branch_at, bump. destruct (decide (c = i)) as [->|].
    - by rewrite lookup_insert_eq, Hi.
    - by rewrite lookup_insert_ne. }
  assert (forall cs, child_sum (bump i n count h) cs = child_sum h cs) as Hcs.
  { intros cs. apply zsum_ext. auto. }
  split.
  - intros j m Hj. rewrite Hcs. apply bump_lookup in Hj as [[<- <-]|[Hne Hj]]; simpl.
    + rewrite decide_True by done. pose proof (s_branch _ _ Hs _ _ Hi). simpl in *. lia.
    + rewrite decide_False by done. exact (s_branch _ _ Hs _ _ Hj).
  - intros j m [[<- <-]|[Hne Hj]]%bump_lookup; [done | by eapply s_tip].
  - intros j m [[<- <-]|[Hne Hj]]%bump_lookup;
      [exact (s_pos _ _ Hs _ _ Hi) | by eapply s_pos].
  - rewrite bump_total, Hba by done. pose proof (s_total _ _ Hs). simpl in *. lia.
Qed.

Lemma bump_compressed i n count h :
  h !! i = Some n -> 0 < tip_support n + count -> compressed h (Some i) ->
  compressed (bump i n count h) None.
Proof.
  intros Hi Hpos Hc j m [[<- <-]|[Hne Hj]]%bump_lookup Hjr Hex Ht; [simpl in Ht; lia|].
  apply (Hc j m Hj Hjr); [congruence | done].
Qed.
End Branch.


(** ** [insert] *)

Section InsertSpec.
Context {L Id : Type} `{!TrieLedger L Id} `{!EqDecision Id} `{!TotalOrd Id}.
Context (valid : L -> Prop) `{!TrieLedgerLaws L Id valid}.
Implicit Types t : LedgerTrie L.
Implicit Types n : Node L.
Implicit Types h : gmap nat (Node L).
Notation heap_ok := (heap_ok valid).
Notation trie_ok := (trie_ok valid).

(** [t'] rearranges the nodes of [t] and keeps all support. *)
Record rearranged t t' : Prop := {
  ra_arena : arena_ok t';
  ra_heap : heap_ok (heap t');
  ra_support : support_ok (heap t') None;
  ra_seq : seq_support t' = seq_support t;
  ra_total : total_support (heap t') = total_support (heap t);
  ra_tips_at_seq : forall s, tips_at_seq s (heap t') = tips_at_seq s (heap t);
  ra_tips_at : forall x, tips_at x (heap t') = tips_at x (heap t)
}.

(** A property of the live nodes that inserting [l] keeps: it ignores supports,
    and survives a split and the new branch. *)
Record insert_closed (l : L) (P : gmap nat (Node L) -> Prop) : Prop := {
  ic_links : forall h h', same_links h h' -> P h -> P h';
  ic_split : forall h loc k n d, heap_ok h -> h !! k = None -> h !! loc = Some n ->
    start (span n) < d < end_ (span n) -> d = mismatch (ledger (span n)) l -> P h ->
    P (split_heap h loc k n (mkSpan (start (span n)) d (ledger (span n)))
      (mkSpan d (end_ (span n)) (ledger (span n))));
  ic_branch : forall h loc k n, heap_ok h -> h !! k = None -> h !! loc = Some n ->
    end_ (span n) <= seq l -> end_ (span n) <= mismatch (ledger (span n)) l ->
    (forall c cn, c ∈ children n -> h !! c = Some cn ->
       mismatch (ledger (span cn)) l <= end_ (span n)) ->
    P h -> P (branch_heap h loc k n (mkSpan (end_ (span n)) (seq l + 1) l))
}.

Lemma rearranged_refl t : trie_ok t -> rearranged t t.
Proof. intros []. by split. Qed.

Lemma split_step t l loc d n :
  trie_ok t -> valid l -> found t l loc d -> heap t !! loc = Some n ->
  exists t1 n1 ex,
    match span_from (span n) d with
    | Some s => split loc (span_before (span n) d) s t
    | None => mret t
    end = Ok t1
    /\ rearranged t t1 /\ heap t1 !! loc = Some n1
    /\ span n1 = mkSpan (start (span n)) d (ledger (span n))
    /\ compressed (heap t1) ex /\ (ex = None \/ ex = Some loc /\ children n1 <> [])
    /\ (forall c cn, c ∈ children n1 -> heap t1 !! c = Some cn ->
         mismatch (ledger (span cn)) l <= d)
    /\ forall P, insert_closed l P -> P (heap t) -> P (heap t1).
Proof.
  intros Ht Hl Hf Hloc. pose proof Ht as [Har H Hs _ Hc].
  destruct (found_node _ _ _ _ Hf) as (n' & Hn' & Hdiff & _ & Hkids).
  assert (n' = n) as -> by congruence.
  destruct (cut_spans valid t l loc d n H Hl Hf Hloc) as (Epre & Esuf & _ & _ & _ & Hd & Hroot).
  rewrite Epre, Esuf. destruct (Z.ltb_spec d (end_ (span n))) as [Hlt|Hge].
  - destruct (split_spec valid t loc n (mkSpan (start (span n)) d (ledger (span n)))
      (mkSpan d (end_ (span n)) (ledger (span n))) Har H Hloc)
      as (k & t1 & E1 & Hk & [Hh1 Hs1 Ha1]).
    assert (loc <> ROOT) by (intros ->; lia).
    exists t1, (split_upper n (mkSpan (start (span n)) d (ledger (span n))) k), (Some loc).
    split; [done|]. split_and!; try rewrite Hh1.
    + split; rewrite ?Hh1; [done | apply split_heap_ok; [done..|lia] |
        by apply (split_support valid) | done | by apply (split_total valid) |
        intros; by apply (split_tips_at_seq valid) | intros; by apply (split_tips_at valid)].
    + apply split_lookup; auto.
    + done.
    + by apply split_compressed.
    + right. done.
    + intros c cn ->%list_elem_of_singleton Hcn.
      apply split_lookup in Hcn as [[-> _]|[[_ ->]|(_ & ? & _)]]; [congruence| |done..]. simpl.
      unfold span_diff, span_clamp in Hdiff. lia.
    + intros P HP HPt. apply (ic_split _ _ HP); auto; unfold span_diff, span_clamp in Hdiff; lia.
  - exists t, n, None. split; [done|]. split_and!; auto using rearranged_refl.
    + destruct (span n). simpl in *. f_equal. lia.
    + intros c cn Hin Hcn.
      destruct (child_start valid _ _ _ _ H Hloc Hin) as (cn' & Hcn' & _ & Hst & _ & _).
      assert (cn' = cn) as -> by congruence. specialize (Hkids ltac:(lia) c cn Hin Hcn).
      destruct (h_span _ _ H _ _ Hcn). unfold span_diff, span_clamp in Hkids. lia.
Qed.

Lemma branch_step t t1 l loc d n n1 ex :
  rearranged t t1 -> valid l -> heap_ok (heap t) -> heap t !! loc = Some n -> found t l loc d ->
  heap t1 !! loc = Some n1 -> span n1 = mkSpan (start (span n)) d (ledger (span n)) ->
  compressed (heap t1) ex -> (ex = None \/ ex = Some loc /\ children n1 <> []) ->
  (forall c cn, c ∈ children n1 -> heap t1 !! c = Some cn -> mismatch (ledger (span cn)) l <= d) ->
  exists t2 inc n2,
    match span_from (span_from_ledger l 0) d with
    | Some s => add_branch loc s t1
    | None => mret (loc, t1)
    end = Ok (inc, t2)
    /\ rearranged t t2 /\ heap t2 !! inc = Some n2 /\ end_ (span n2) = seq l + 1
    /\ tip_id (span_tip (span n2)) = ancestor l (seq l) /\ compressed (heap t2) (Some inc)
    /\ forall P, insert_closed l P -> P (heap t1) -> P (heap t2).
Proof.
  intros [Har H1 Hs1 Hss1 Htot1 Htq1 Hta1] Hl H Hloc Hf Hloc1 Hspan Hc Hex Hkids.
  destruct (cut_spans valid t l loc d n H Hl Hf Hloc)
    as (_ & _ & Enew & Hdl & Hdm & Hd & _).
  pose proof (seq_range l Hl) as Hseq. rewrite Enew.
  destruct (Z.ltb_spec d (seq l + 1)) as [Hlt|Hge].
  - destruct (add_branch_spec t1 loc n1 (mkSpan d (seq l + 1) l) Har Hloc1)
      as (k & t2 & E2 & Hk & [Hh2 Hs2 Ha2]).
    destruct (h_span _ _ H1 _ _ Hloc1) as [_ Hn1 _]. rewrite Hspan in Hn1. simpl in Hn1.
    exists t2, k, (leaf (mkSpan d (seq l + 1) l) loc). split; [done|]. split_and!; try rewrite Hh2.
    + split; rewrite ?Hh2; [done | | by apply (branch_support_ok valid) | congruence | | |].
      * apply branch_heap_ok; [done..| split; simpl; [done|lia|lia] | by rewrite Hspan].
      * unfold total_support in *. by rewrite msum_branch.
      * intros s. rewrite <- (Htq1 s). unfold tips_at_seq. rewrite msum_branch; [done..| |done|done].
        simpl. by case_decide.
      * intros x. rewrite <- (Hta1 x). unfold tips_at. rewrite msum_branch; [done..| |done|done].
        simpl. by case_decide.
    + apply branch_lookup; auto.
    + done.
    + simpl. rewrite wrap_u32_id by machine. f_equal. lia.
    + by eapply branch_compressed.
    + intros P HP HPt. pose proof (ic_branch _ _ HP (heap t1) loc k n1) as Hb.
      rewrite Hspan in Hb. simpl in Hb. apply Hb; auto; lia.
  - assert (d = seq l + 1) as -> by lia.
    exists t1, loc, n1. split; [done|]. split_and!; [by split | done | by rewrite Hspan | | | done].
    + rewrite Hspan. simpl. rewrite wrap_u32_id by machine.
      replace (seq l + 1 - 1) with (seq l) by lia.
      destruct (h_span _ _ H _ _ Hloc) as [Hv _ _].
      apply (mismatch_top (valid := valid)); [done..|].
      pose proof (mismatch_le (valid := valid) (ledger (span n)) l Hv Hl). lia.
    + destruct Hex as [->|[-> _]]; [|done]. intros i m Hi Hir _. by apply (Hc i m Hi Hir).
Qed.

(** The counts by sequence after adding to one of them. *)
Lemma seq_ok_add h h' ss s0 count :
  seq_ok h ss -> 0 < count -> total_support h' <= u32_max ->
  (forall i n, h !! i = Some n -> 0 <= tip_support n) ->
  (forall s, tips_at_seq s h' = tips_at_seq s h + if decide (s0 = s) then count else 0) ->
  total_support h' = total_support h + count ->
  seq_ok h' (entry_add wrap_u32 s0 count ss).
Proof.
  intros Hss Hcount Htot Htip Hs' Htot' s. unfold entry_add. rewrite Hs'.
  assert (forall s, 0 <= tips_at_seq s h <= total_support h) as Hrange.
  { intros s'. split.
    - apply msum_nonneg. intros k a Ha. pose proof (Htip _ _ Ha). case_decide; lia.
    - unfold tips_at_seq, total_support, msum. apply zsum_mono. intros [k a] Ha%elem_of_map_to_list.
      pose proof (Htip _ _ Ha). simpl. case_decide; lia. }
  destruct (decide (s0 = s)) as [->|Hne].
  - rewrite lookup_insert_eq, Hss. unfold nonzero. pose proof (Hrange s).
    rewrite (proj2 (Z.eqb_neq (tips_at_seq s h + count) 0)) by lia. f_equal.
    destruct (Z.eqb_spec (tips_at_seq s h) 0); simpl; rewrite wrap_u32_id by machine; lia.
  - rewrite lookup_insert_ne, Hss by done. f_equal. lia.
Qed.

Lemma insert_ok t l count :
  trie_ok t -> valid l -> 0 < count -> total_support (heap t) + count <= u32_max ->
  exists t', insert l count t = Ok t' /\ trie_ok t'
    /\ total_support (heap t') = total_support (heap t) + count
    /\ (forall x, tips_at x (heap t') = tips_at x (heap t)
         + if decide (ancestor l (seq l) = x) then count else 0)
    /\ forall P, insert_closed l P -> P (heap t) -> P (heap t').
Proof.
  intros Ht Hl Hcount Htot. pose proof Ht as [Har H Hs Hss Hc].
  destruct (find_spec valid t l H Hl) as (loc & d & Ef & Hf).
  destruct (found_node _ _ _ _ Hf) as (n & Hloc & _).
  unfold insert. rewrite Ef. simpl. rewrite (get_node_live _ _ _ Hloc). simpl.
  destruct (split_step t l loc d n Ht Hl Hf Hloc)
    as (t1 & n1 & ex & E1 & Hr1 & Hloc1 & Hspan1 & Hc1 & Hex & Hkids & HP1).
  rewrite E1. simpl.
  destruct (branch_step t t1 l loc d n n1 ex Hr1 Hl H Hloc Hf Hloc1 Hspan1 Hc1 Hex Hkids)
    as (t2 & inc & n2 & E2 & [Ha2 H2 Hs2 Hss2 Htot2 Htq2 Hta2] & Hinc & Hend & Hid & Hc2 & HP2).
  rewrite E2. simpl.
  pose proof (s_tip _ _ Hs2 _ _ Hinc) as Htip.
  assert (tip_support n2 <= total_support (heap t2)) as Hle.
  { apply (msum_elem_le _ inc); [|done]. intros k a Ha. by eapply s_tip. }
  destruct (update_node_spec inc (fun n => set_tip (wrap_u32 (tip_support n + count)) n) t2 n2
    Ha2 Hinc) as (t3 & E3 & [Hh3 Hs3 Ha3]); [exact (heap_live _ _ _ Hinc)|].
  rewrite E3. simpl. rewrite wrap_u32_id in Hh3 by machine.
  change (heap t3 = bump inc n2 count (heap t2)) in Hh3.
  assert (heap t3 !! inc = Some (set_tip (tip_support n2 + count) n2)) as Hinc3.
  { rewrite Hh3. apply lookup_insert_eq. }
  assert (total_support (heap t3) = total_support (heap t) + count) as Htot3.
  { rewrite Hh3, bump_total; [lia|done]. }
  destruct (walk_spec valid (length (nodes t3)) inc count t3 (set_tip (tip_support n2 + count) n2) Ha3) as
    (t4 & E4 & Ha4 & Hss4 & Hsh & Hs4); [| | exact Hinc3 | lia | apply below_bound |].
  { rewrite Hh3. eapply heap_ok_links; [by apply bump_links | done]. }
  { rewrite Hh3. apply (bump_support valid); [done..|lia|done]. }
  rewrite E4. simpl. eexists. split; [done|].
  assert (forall s, tips_at_seq s (heap t4)
    = tips_at_seq s (heap t) + if decide (seq l = s) then count else 0) as Htq4.
  { intros s. rewrite <- (tips_at_seq_shape _ _ _ Hsh), Hh3, <- Htq2. unfold tips_at_seq.
    rewrite (msum_bump (fun m => end_ (span m) - 1 = s)) by done. repeat case_decide; lia. }
  assert (total_support (heap t4) = total_support (heap t) + count) as Htot4.
  { by rewrite <- (total_support_shape _ _ Hsh). }
  split_and!; [split| | |]; change (heap (mkTrie _ _ _)) with (heap t4).
  - by destruct Ha4.
  - eapply heap_ok_shape; [done|]. rewrite Hh3.
    eapply heap_ok_links; [by apply bump_links | done].
  - done.
  - simpl. rewrite Hss4, Hs3, Hss2. apply (seq_ok_add (heap t)); [done.. | lia | | done | done].
    intros i m Hi. by eapply (s_tip _ _ Hs).
  - eapply compressed_shape; [done|]. rewrite Hh3. apply bump_compressed; [done | lia | done].
  - done.
  - intros x. rewrite <- (tips_at_shape _ _ _ Hsh), Hh3, <- Hta2. unfold tips_at.
    rewrite (msum_bump (fun m => tip_id (span_tip (span m)) = x)) by done. by rewrite Hid.
  - intros P HP HPt. eapply (ic_links _ _ HP); [by apply same_shape_links|].
    rewrite Hh3. eapply (ic_links _ _ HP); [by apply bump_links|].
    exact (HP2 P HP (HP1 P HP HPt)).
Qed.
End InsertSpec.
