(* ===== verification/TrieRemove.v ===== *)
(** * Removal from the trie

    [remove] lowers the support of a tip and then compresses: walking to the
    root, a node without support of its own is spliced out when it has no child
    or a single one. *)

From S2P Require Import Prelude LedgerTrie TrieInvariant TrieInsert.

(** ** Splicing a node out *)

Section Splice.
Context {L Id : Type} `{!TrieLedger L Id} `{!EqDecision Id} `{!TotalOrd Id}.
Context (valid : L -> Prop) `{!TrieLedgerLaws L Id valid}.
Implicit Types t : LedgerTrie L.
Implicit Types n : Node L.
Implicit Types h : gmap nat (Node L).
Notation heap_ok := (heap_ok valid).
Notation span_ok := (span_ok valid).

(** A child of the spliced node [n]: its span now begins where [n]'s did. *)
Definition adopted (p : nat) n (m : Node L) : Node L :=
  set_parent (Some p)
    (set_span (mkSpan (start (span n)) (end_ (span m)) (ledger (span m))) m).
Definition adopt (p : nat) n h : gmap nat (Node L) :=
  map_imap (fun j m => Some (if decide (j ∈ children n) then adopted p n m else m)) h.

(** The live nodes once [loc] is replaced by its children below [p]. *)
Definition splice_heap h (loc p : nat) n (pn : Node L) : gmap nat (Node L) :=
  delete loc (<[p := set_children (filter (fun c => c ≠ loc) (children pn) ++ children n) pn]>
    (adopt p n h)).

Lemma adopt_lookup p n h j :
  adopt p n h !! j = (fun m => if decide (j ∈ children n) then adopted p n m else m) <$> h !! j.
Proof. unfold adopt. rewrite map_lookup_imap. by destruct (h !! j). Qed.

Section Place.
Context (h : gmap nat (Node L)) (loc p : nat) (n pn : Node L) (H : heap_ok h).
Context (Hloc : h !! loc = Some n) (Hp : parent n = Some p) (Hpn : h !! p = Some pn).

Lemma splice_facts :
  loc <> ROOT /\ loc ∈ children pn /\ start (span n) = end_ (span pn)
  /\ p <> loc /\ p ∉ children n /\ loc ∉ children n.
Proof.
  destruct (parent_start valid _ _ _ _ _ H Hloc Hp Hpn) as (? & ? & ? & Hlt).
  split_and!; auto.
  - intros ->. simplify_eq. lia.
  - intros Hc. destruct (child_start valid _ _ _ _ H Hloc Hc) as (? & ? & _ & _ & ? & _).
    simplify_eq. lia.
  - by eapply (not_own_child valid).
Qed.

Lemma splice_lookup j m :
  splice_heap h loc p n pn !! j = Some m <->
  j <> loc /\
  ((j = p /\ m = set_children (filter (fun c => c ≠ loc) (children pn) ++ children n) pn)
   \/ (j <> p /\ exists m0, h !! j = Some m0
        /\ m = if decide (j ∈ children n) then adopted p n m0 else m0)).
Proof using Type.
  clear H Hloc Hp Hpn.
  unfold splice_heap. rewrite lookup_delete_Some, lookup_insert_Some, adopt_lookup, fmap_Some.
  naive_solver.
Qed.

(** Every surviving node, with its fields before the splice. *)
Lemma splice_old j m :
  splice_heap h loc p n pn !! j = Some m ->
  exists m0, h !! j = Some m0 /\ j <> loc /\ tip_support m = tip_support m0
    /\ branch_support m = branch_support m0 /\ live m = live m0
    /\ end_ (span m) = end_ (span m0) /\ ledger (span m) = ledger (span m0)
    /\ (j = p \/ children m = children m0).
Proof.
  intros [Hj [[-> ->]|(Hjp & m0 & Hm0 & ->)]]%splice_lookup; [exists pn; by auto 10|].
  exists m0. case_decide; simpl; auto 10.
Qed.

Lemma splice_branch_at c : c <> loc -> branch_at (splice_heap h loc p n pn) c = branch_at h c.
Proof.
  intros Hc. unfold branch_at, splice_heap. rewrite lookup_delete_ne by done.
  destruct (decide (c = p)) as [->|].
  - by rewrite lookup_insert_eq, Hpn.
  - rewrite lookup_insert_ne, adopt_lookup by done. destruct (h !! c); simpl; [|done].
    by case_decide.
Qed.

(** A sum over the nodes that ignores links and the start of the span. *)
Lemma msum_splice f :
  (forall cs m, f (set_children cs m) = f m) -> (forall m, f (adopted p n m) = f m) ->
  msum f (splice_heap h loc p n pn) = msum f h - f n.
Proof.
  intros Hfc Hfa. destruct splice_facts as (_ & _ & _ & Hpl & Hpc & Hlc). unfold splice_heap.
  rewrite (msum_delete f loc n).
  2:{ rewrite lookup_insert_ne, adopt_lookup, Hloc by done. simpl. by rewrite decide_False. }
  rewrite (msum_insert_old f p pn).
  2:{ rewrite adopt_lookup, Hpn. simpl. by rewrite decide_False. }
  rewrite Hfc. assert (msum f (adopt p n h) = msum f h) as ->; [|lia].
  clear H Hloc Hp Hpn. induction h as [|i x h' Hi IH] using map_ind; [done|].
  assert (adopt p n (<[i := x]> h')
    = <[i := if decide (i ∈ children n) then adopted p n x else x]> (adopt p n h')) as ->.
  { apply map_eq. intros j. rewrite adopt_lookup.
    destruct (decide (j = i)) as [->|]; [by rewrite !lookup_insert_eq|].
    by rewrite !lookup_insert_ne, adopt_lookup. }
  rewrite !msum_insert_new by (rewrite ?adopt_lookup, ?Hi; done). rewrite IH.
  case_decide; rewrite ?Hfa; done.
Qed.

Lemma splice_heap_ok : heap_ok (splice_heap h loc p n pn).
Proof.
  destruct splice_facts as (Hlr & Hlp & Hst & Hpl & Hpc & Hlc).
  assert (forall q qn, h !! q = Some qn -> q <> loc -> exists qn',
    splice_heap h loc p n pn !! q = Some qn' /\ end_ (span qn') = end_ (span qn)
    /\ (forall c, c ∈ children qn -> c <> loc -> c ∈ children qn')) as Hold.
  { intros q qn Hq Hql. destruct (decide (q = p)) as [->|Hqp].
    - simplify_eq. eexists. split; [apply splice_lookup; by auto|]. split; [done|].
      intros c Hc Hcl. simpl. apply elem_of_app. left. by apply list_elem_of_filter.
    - eexists. split; [apply splice_lookup; by eauto 10|]. case_decide; auto. }
  split.
  - destruct (h_root _ _ H) as (r & Hr & Hrp & Hrs).
    destruct (decide (ROOT = p)) as [Heq|Hne].
    + assert (r = pn) as -> by congruence. eexists.
      split; [rewrite Heq; apply splice_lookup; by auto|]. done.
    + exists r. split; [|done]. apply splice_lookup. split; [done|]. right. split; [done|].
      exists r. split; [done|]. rewrite decide_False; [done|]. intros Hc.
      by destruct (child_start valid _ _ _ _ H Hloc Hc) as (? & ? & _ & _ & _ & []).
  - intros i m [Hil [[-> ->]|(Hip & m0 & Hm0 & ->)]]%splice_lookup Hir.
    + destruct (h_parent _ _ H _ _ Hpn Hir) as (q & qn & Hq & Hqn & Hin & Hs).
      destruct (parent_start valid _ _ _ _ _ H Hpn Hq Hqn) as (_ & _ & _ & Hlt).
      destruct (Hold q qn Hqn) as (qn' & Hqn' & He & Hc).
      { intros ->. assert (qn = n) as -> by congruence.
        pose proof (span_nonempty _ _ (h_span _ _ H _ _ Hpn)). lia. }
      exists q, qn'. split_and!; [done.. | by apply Hc | simpl; congruence].
    + destruct (h_parent _ _ H _ _ Hm0 Hir) as (q & qn & Hq & Hqn & Hin & Hs).
      destruct (decide (q = loc)) as [->|Hql].
      * simplify_eq. rewrite decide_True by done. eexists p, _.
        split_and!; [done | apply splice_lookup; by auto | | done].
        simpl. apply elem_of_app. by right.
      * rewrite decide_False.
        2:{ intros Hc. destruct (h_children _ _ H _ _ _ Hloc Hc) as (? & ? & ?). congruence. }
        destruct (Hold q qn Hqn Hql) as (qn' & Hqn' & He & Hc).
        exists q, qn'. split_and!; [done.. | by apply Hc | congruence].
  - intros i m c [Hil [[-> ->]|(Hip & m0 & Hm0 & ->)]]%splice_lookup Hc.
    + simpl in Hc. apply elem_of_app in Hc as [[Hcl Hc]%list_elem_of_filter|Hc].
      * destruct (child_start valid _ _ _ _ H Hpn Hc) as (cn & Hcn & Hcp & _ & Hlt & _).
        exists cn. split; [|done]. apply splice_lookup. split; [done|]. right.
        split; [intros ->; simplify_eq; lia|]. exists cn. split; [done|].
        rewrite decide_False; [done|]. intros Hcc.
        destruct (h_children _ _ H _ _ _ Hloc Hcc) as (? & ? & ?). congruence.
      * destruct (child_start valid _ _ _ _ H Hloc Hc) as (cn & Hcn & Hcp & _ & Hlt & _).
        exists (adopted p n cn). split; [|done]. apply splice_lookup.
        split; [by intros ->|]. right. split; [by intros ->|].
        exists cn. by rewrite decide_True.
    + assert (c ∈ children m0) as Hc0 by by case_decide.
      destruct (child_start valid _ _ _ _ H Hm0 Hc0) as (cn & Hcn & Hcp & _ & Hlt & _).
      assert (c <> loc) by (intros ->; congruence).
      destruct (decide (c = p)) as [->|].
      * simplify_eq. eexists. split; [apply splice_lookup; by auto|]. done.
      * exists cn. split; [|done]. apply splice_lookup. split; [done|]. right. split; [done|].
        exists cn. split; [done|]. rewrite decide_False; [done|]. intros Hcc.
        destruct (h_children _ _ H _ _ _ Hloc Hcc) as (? & ? & ?). congruence.
  - intros i m [Hil [[-> ->]|(Hip & m0 & Hm0 & ->)]]%splice_lookup; simpl.
    + apply NoDup_app. split_and!.
      * apply NoDup_filter. by eapply h_nodup.
      * intros c [_ Hc]%list_elem_of_filter Hcc.
        destruct (h_children _ _ H _ _ _ Hloc Hcc) as (? & ? & ?).
        destruct (h_children _ _ H _ _ _ Hpn Hc) as (? & ? & ?). congruence.
      * by eapply h_nodup.
    + case_decide; exact (h_nodup _ _ H i m0 Hm0).
  - intros i m [Hil [[-> ->]|(Hip & m0 & Hm0 & ->)]]%splice_lookup; [exact (h_span _ _ H _ _ Hpn)|].
    case_decide as Hc; [|by eapply (h_span _ _ H)].
    destruct (child_start valid _ _ _ _ H Hloc Hc) as (cn & Hcn & _ & Hs & Hlt & _). simplify_eq.
    destruct (h_span _ _ H _ _ Hm0) as [? ? ?]. destruct (h_span _ _ H _ _ Hloc) as [? ? ?].
    split; simpl; [done | lia | done].
  - intros i m (m0 & Hm0 & _ & _ & _ & -> & _)%splice_old. by eapply h_live.
Qed.

Lemma splice_support :
  tip_support n = 0 -> support_ok h None -> support_ok (splice_heap h loc p n pn) None.
Proof.
  intros Ht0 Hs. destruct splice_facts as (Hlr & Hlp & Hst & Hpl & Hpc & Hlc).
  assert (forall cs, loc ∉ cs -> child_sum (splice_heap h loc p n pn) cs = child_sum h cs) as Hsum.
  { intros cs Hcs. apply zsum_ext. intros c Hc. apply splice_branch_at. by intros ->. }
  split.
  - intros i m [Hil [[-> ->]|(Hip & m0 & Hm0 & ->)]]%splice_lookup.
    + pose proof (s_branch _ _ Hs _ _ Hpn) as Hb. pose proof (s_branch _ _ Hs _ _ Hloc) as Hbn.
      simpl in *. rewrite Hsum.
      2:{ rewrite elem_of_app, list_elem_of_filter. tauto. }
      unfold child_sum in *. rewrite zsum_app.
      rewrite (zsum_without (branch_at h) _ loc (h_nodup _ _ H _ _ Hpn) Hlp) in Hb.
      unfold branch_at at 1 in Hb. rewrite Hloc in Hb. lia.
    + pose proof (s_branch _ _ Hs _ _ Hm0) as Hb. simpl in *.
      assert (children (if decide (i ∈ children n) then adopted p n m0 else m0) = children m0)
        as -> by by case_decide.
      rewrite Hsum.
      2:{ intros Hc. destruct (h_children _ _ H _ _ _ Hm0 Hc) as (? & ? & ?). congruence. }
      case_decide; simpl; lia.
  - intros i m (m0 & Hm0 & _ & -> & _)%splice_old. by eapply s_tip.
  - intros i m (m0 & Hm0 & _ & _ & -> & _)%splice_old. by eapply s_pos.
  - rewrite splice_branch_at by done. unfold total_support.
    rewrite msum_splice, Ht0 by done. pose proof (s_total _ _ Hs) as Htot.
    unfold total_support in Htot. simpl in *. lia.
Qed.

Lemma splice_compressed ex :
  ex = None \/ ex = Some loc -> compressed h ex -> compressed (splice_heap h loc p n pn) (Some p).
Proof.
  intros Hex Hc i m (m0 & Hm0 & Hil & Ht & _ & _ & _ & _ & [->|Hch])%splice_old Hir Hip Ht0;
    [done|]. rewrite Hch. apply (Hc i m0 Hm0 Hir); [|congruence].
  destruct Hex as [->| ->]; congruence.
Qed.

Lemma splice_size : size (splice_heap h loc p n pn) = (size h - 1)%nat.
Proof.
  destruct splice_facts as (_ & _ & _ & Hpl & Hpc & Hlc). unfold splice_heap.
  assert (size (adopt p n h) = size h) as Hsz.
  { rewrite <- !(size_dom (D := gset nat)). f_equal. apply set_eq. intros j.
    rewrite !elem_of_dom, adopt_lookup. by rewrite fmap_is_Some. }
  rewrite map_size_delete_Some, map_size_insert_Some, Hsz; [lia | |].
  - rewrite adopt_lookup, Hpn. eauto.
  - rewrite lookup_insert_ne, adopt_lookup, Hloc by done. eauto.
Qed.
End Place.
End Splice.

(** ** [remove] *)

Section RemoveSpec.
Context {L Id : Type} `{!TrieLedger L Id} `{!EqDecision Id} `{!TotalOrd Id}.
Context (valid : L -> Prop) `{!TrieLedgerLaws L Id valid}.
Implicit Types t : LedgerTrie L.
Implicit Types n : Node L.
Implicit Types h : gmap nat (Node L).
Notation heap_ok := (heap_ok valid).
Notation trie_ok := (trie_ok valid).
Notation rearranged := (rearranged valid).

Lemma live_children_all t cs :
  (forall c, c ∈ cs -> is_Some (heap t !! c)) -> live_children t cs = Ok cs.
Proof.
  induction cs as [|c cs IH]; intros Hcs; simpl; [done|].
  destruct (Hcs c ltac:(left)) as [cn Hc]. rewrite (get_node_live _ _ _ Hc). simpl.
  rewrite IH by (intros; apply Hcs; by right). simpl. by rewrite (heap_live _ _ _ Hc).
Qed.

Lemma live_children_ok t i n :
  heap_ok (heap t) -> heap t !! i = Some n -> live_children t (children n) = Ok (children n).
Proof.
  intros H Hi. apply live_children_all. intros c Hc.
  destruct (h_children _ _ H _ _ _ Hi Hc) as (cn & ? & _). eauto.
Qed.

(** The two ways the code splices a node out. *)
Lemma erase_leaf_spec t loc p n pn :
  arena_ok t -> heap_ok (heap t) -> heap t !! loc = Some n -> parent n = Some p ->
  heap t !! p = Some pn -> children n = [] ->
  exists t', erase_child p loc t = Ok t' /\ reaches t (splice_heap (heap t) loc p n pn) t'.
Proof.
  intros Har H Hloc Hp Hpn Hch.
  destruct (splice_facts valid _ _ _ _ _ H Hloc Hp Hpn) as (_ & _ & _ & Hpl & _ & _).
  destruct (erase_child_spec p loc t pn n Har Hpn Hloc Hpl) as (t' & E & [Hh Hs Ha]).
  exists t'. split; [done|]. split; [|done|done]. rewrite Hh. unfold splice_heap.
  rewrite Hch, app_nil_r. do 2 f_equal. apply map_eq. intros j. rewrite adopt_lookup, Hch.
  by destruct (heap t !! j).
Qed.

Lemma merge_child_spec t loc p n pn c cn :
  arena_ok t -> heap_ok (heap t) -> heap t !! loc = Some n -> parent n = Some p ->
  heap t !! p = Some pn -> children n = [c] -> heap t !! c = Some cn ->
  exists t',
    (t ← update_node c (set_span (span_merge (span n) (span cn))) t;
     t ← update_node c (set_parent (Some p)) t;
     t ← update_node p (fun m => set_children (children m ++ [c]) m) t;
     erase_child p loc t) = Ok t'
    /\ reaches t (splice_heap (heap t) loc p n pn) t'.
Proof.
  intros Har H Hloc Hp Hpn Hch Hcn.
  destruct (splice_facts valid _ _ _ _ _ H Hloc Hp Hpn) as (_ & _ & _ & Hpl & Hpc & Hlc).
  rewrite Hch in Hpc, Hlc. rewrite list_elem_of_singleton in Hpc, Hlc.
  destruct (child_start valid _ _ _ c H Hloc) as (cn' & Hcn' & _ & Hst & _ & _);
    [rewrite Hch; left|]. assert (cn' = cn) as -> by congruence.
  destruct (h_span _ _ H _ _ Hcn) as [_ Hne _]. destruct (h_span _ _ H _ _ Hloc) as [_ Hne' _].
  assert (span_merge (span n) (span cn)
    = mkSpan (start (span n)) (end_ (span cn)) (ledger (span cn))) as ->.
  { unfold span_merge. rewrite (proj2 (Z.ltb_lt _ _)) by lia. f_equal. lia. }
  set (sp := mkSpan _ _ _).
  destruct (update_node_spec c (set_span sp) t cn Har Hcn) as (t1 & E1 & [Hh1 Hs1 Ha1]);
    [exact (heap_live _ _ _ Hcn)|]. rewrite E1. simpl.
  assert (heap t1 !! c = Some (set_span sp cn)) as Hc1 by (rewrite Hh1; apply lookup_insert_eq).
  destruct (update_node_spec c (set_parent (Some p)) t1 _ Ha1 Hc1) as (t2 & E2 & [Hh2 Hs2 Ha2]);
    [exact (heap_live _ _ _ Hc1)|]. rewrite E2. simpl.
  assert (heap t2 !! p = Some pn) as Hp2.
  { rewrite Hh2, Hh1, !lookup_insert_ne; [done| congruence..]. }
  destruct (update_node_spec p (fun m => set_children (children m ++ [c]) m) t2 _ Ha2 Hp2)
    as (t3 & E3 & [Hh3 Hs3 Ha3]); [exact (heap_live _ _ _ Hp2)|]. rewrite E3. simpl.
  assert (heap t3 !! p = Some (set_children (children pn ++ [c]) pn)) as Hp3
    by (rewrite Hh3; apply lookup_insert_eq).
  assert (heap t3 !! loc = Some n) as Hl3.
  { rewrite Hh3, Hh2, Hh1, !lookup_insert_ne; [done|congruence..]. }
  destruct (erase_child_spec p loc t3 _ _ Ha3 Hp3 Hl3 Hpl) as (t4 & E4 & [Hh4 Hs4 Ha4]).
  exists t4. split; [done|]. split; [|congruence|done].
  rewrite Hh4, Hh3, insert_insert_eq, Hh2, Hh1, insert_insert_eq. unfold splice_heap. simpl.
  f_equal. rewrite filter_app, filter_cons_True, filter_nil, Hch by congruence.
  f_equal. apply map_eq. intros j. rewrite adopt_lookup, Hch.
  destruct (decide (j = c)) as [->|Hjc].
  - rewrite lookup_insert_eq, Hcn. simpl. by rewrite decide_True by by left.
  - rewrite lookup_insert_ne by done. destruct (heap t !! j); simpl; [|done].
    rewrite decide_False; [done|]. by rewrite list_elem_of_singleton.
Qed.

Lemma splice_rearranged t t' loc p n pn :
  heap_ok (heap t) -> support_ok (heap t) None -> heap t !! loc = Some n -> parent n = Some p ->
  heap t !! p = Some pn -> tip_support n = 0 ->
  reaches t (splice_heap (heap t) loc p n pn) t' -> rearranged t t'.
Proof.
  intros H Hs Hloc Hp Hpn Ht0 [Hh Hss Ha].
  split; rewrite ?Hh; [done | by apply splice_heap_ok | by apply (splice_support valid) | done | | |].
  - unfold total_support. rewrite (msum_splice valid) by done. lia.
  - intros s. unfold tips_at_seq. rewrite (msum_splice valid) by done. case_decide; lia.
  - intros x. unfold tips_at. rewrite (msum_splice valid) by done. case_decide; lia.
Qed.

Lemma rearranged_trans t1 t2 t3 : rearranged t1 t2 -> rearranged t2 t3 -> rearranged t1 t3.
Proof. intros [] []. split; auto; intros; congruence. Qed.

(** A property of the live nodes that removals keep: it ignores supports and
    survives splicing out a node with at most one child. *)
Record remove_closed (P : gmap nat (Node L) -> Prop) : Prop := {
  rc_links : forall h h', same_links h h' -> P h -> P h';
  rc_splice : forall h loc p n pn, heap_ok h -> h !! loc = Some n -> parent n = Some p ->
    h !! p = Some pn -> (length (children n) <= 1)%nat -> P h -> P (splice_heap h loc p n pn)
}.

Lemma compress_ok fuel t loc n :
  rearranged t t -> compressed (heap t) (Some loc) -> heap t !! loc = Some n ->
  (size (heap t) <= fuel)%nat ->
  exists t', compress fuel loc t = Ok t' /\ rearranged t t' /\ compressed (heap t') None
    /\ forall P, remove_closed P -> P (heap t) -> P (heap t').
Proof.
  revert t loc n. induction fuel as [|fuel IH]; intros t loc n Hr Hc Hloc Hf.
  { assert (size (heap t) <> 0)%nat; [|lia]. apply map_size_ne_0_lookup. eauto. }
  pose proof Hr as [Har H Hs _ _ _ _].
  assert (size (heap t) <> 0)%nat as Hsz by (apply map_size_ne_0_lookup; eauto).
  assert (forall p pn t1, parent n = Some p -> heap t !! p = Some pn -> tip_support n = 0 ->
    (length (children n) <= 1)%nat -> reaches t (splice_heap (heap t) loc p n pn) t1 ->
    exists t', compress fuel p t1 = Ok t' /\ rearranged t t' /\ compressed (heap t') None
      /\ forall P, remove_closed P -> P (heap t) -> P (heap t')) as Hstep.
  { intros p pn t1 Hp Hpn Ht0 Hlen Hreach.
    pose proof (splice_rearranged _ _ _ _ _ _ H Hs Hloc Hp Hpn Ht0 Hreach) as Hr1.
    destruct Hreach as [Hh1 Hs1 Ha1].
    destruct (splice_facts valid _ _ _ _ _ H Hloc Hp Hpn) as (_ & _ & _ & Hpl & _ & _).
    destruct (IH t1 p (set_children (filter (fun c => c ≠ loc) (children pn) ++ children n) pn))
      as (t' & E' & Hr' & Hc' & HP').
    - destruct Hr1. by split.
    - rewrite Hh1. eapply splice_compressed; eauto.
    - rewrite Hh1. apply splice_lookup. auto.
    - rewrite Hh1, (splice_size valid) by done. lia.
    - exists t'. split_and!; [done | by eapply rearranged_trans | done |].
      intros P HP HPt. apply (HP' P HP). rewrite Hh1. by apply (rc_splice _ HP). }
  simpl. rewrite (get_node_live _ _ _ Hloc). simpl.
  destruct (Z.eqb_spec (tip_support n) 0) as [Ht0|Ht0]; simpl.
  2:{ exists t. split_and!; [done..| |done]. intros i m Hi Hir _ Hm. apply (Hc i m Hi Hir); [|done].
      intros [= <-]. congruence. }
  destruct (Nat.eqb_spec loc ROOT) as [Hroot|Hroot]; simpl.
  { exists t. split_and!; [done..| |done]. intros i m Hi Hir _ Hm. apply (Hc i m Hi Hir); [|done].
    congruence. }
  destruct (h_parent _ _ H _ _ Hloc Hroot) as (p & pn & Hp & Hpn & _ & _). rewrite Hp. simpl.
  rewrite (live_children_ok _ _ _ H Hloc). simpl.
  destruct (children n) as [|c [|c' cs]] eqn:Ech.
  - destruct (erase_leaf_spec t loc p n pn) as (t1 & E1 & Hr1); [done..|]. rewrite E1. simpl.
    apply (Hstep p pn); [done..|simpl; lia|done].
  - destruct (h_children _ _ H _ _ c Hloc) as (cn & Hcn & _); [rewrite Ech; left|].
    rewrite (get_node_live _ _ _ Hcn). simpl.
    destruct (merge_child_spec t loc p n pn c cn) as (t1 & E1 & Hr1); [done..|].
    destruct (Hstep p pn t1) as (t' & E' & Hrest); [done..|simpl; lia|done|]. exists t'. split; [|done].
    revert E1.
    destruct (update_node c _ t) as [t2| |]; simpl; [|done|done].
    destruct (update_node c _ t2) as [t3| |]; simpl; [|done|done].
    destruct (update_node p _ t3) as [t4| |]; simpl; [|done|done]. intros ->. done.
  - exists t. split_and!; [done..| |done]. intros i m Hi Hir _ Hm.
    destruct (decide (loc = i)) as [->|]; [|by apply (Hc i m Hi Hir); [congruence|]].
    assert (m = n) as -> by congruence. rewrite Ech. simpl. lia.
Qed.

Lemma find_id_in_spec i ns (id : Id) :
  match find_id_in i ns id with
  | Some j => exists k n, j = (i + k)%nat /\ ns !! k = Some n /\ live n = true
      /\ tip_id (span_tip (span n)) = id
  | None => forall k n, ns !! k = Some n -> live n = true -> tip_id (span_tip (span n)) <> id
  end.
Proof.
  revert i. induction ns as [|n ns IH]; intros i; simpl; [done|].
  destruct (live n) eqn:El; simpl; [case_bool_decide as Hid|].
  - exists 0%nat, n. split_and!; [lia | done..].
  - specialize (IH (S i)). destruct (find_id_in (S i) ns id) as [j|].
    + destruct IH as (k & m & -> & Hk & ? & ?). exists (S k), m. split_and!; [lia|done..].
    + intros [|k] m Hk Hl; [by simplify_eq/=|]. by apply (IH k).
  - specialize (IH (S i)). destruct (find_id_in (S i) ns id) as [j|].
    + destruct IH as (k & m & -> & Hk & ? & ?). exists (S k), m. split_and!; [lia|done..].
    + intros [|k] m Hk Hl; [simplify_eq/=; congruence|]. by apply (IH k).
Qed.

Lemma find_by_ledger_id_spec t (id : Id) :
  match find_by_ledger_id t id with
  | Some i => exists n, heap t !! i = Some n /\ tip_id (span_tip (span n)) = id
  | None => forall i n, heap t !! i = Some n -> tip_id (span_tip (span n)) <> id
  end.
Proof.
  unfold find_by_ledger_id. pose proof (find_id_in_spec 0 (nodes t) id) as Hs.
  destruct (find_id_in 0 (nodes t) id) as [j|].
  - destruct Hs as (k & n & -> & ? & ? & ?). exists n. by rewrite heap_lookup.
  - intros i n [Hi Hl]%heap_lookup. by apply (Hs i).
Qed.

(** The counts by sequence after subtracting from one of them. *)
Lemma seq_ok_sub h h' ss s0 count :
  seq_ok h ss -> 0 <= count <= tips_at_seq s0 h -> 0 < tips_at_seq s0 h <= u32_max ->
  (forall s, tips_at_seq s h' = tips_at_seq s h - if decide (s0 = s) then count else 0) ->
  seq_ok h' (seq_support_sub s0 count ss).
Proof.
  intros Hss Hcount Hpos Hs' s. unfold seq_support_sub. rewrite (Hss s0), Hs'. unfold nonzero.
  rewrite (proj2 (Z.eqb_neq (tips_at_seq s0 h) 0)) by lia. rewrite wrap_u32_id by machine.
  destruct (decide (s0 = s)) as [<-|Hne].
  - destruct (Z.eqb_spec (tips_at_seq s0 h - count) 0);
      [by rewrite lookup_delete_eq | by rewrite lookup_insert_eq].
  - rewrite Z.sub_0_r. destruct (Z.eqb_spec (tips_at_seq s0 h - count) 0).
    + rewrite lookup_delete_ne by done. apply Hss.
    + rewrite lookup_insert_ne by done. apply Hss.
Qed.

Lemma trie_total_bound t : trie_ok t -> 0 <= total_support (heap t) <= u32_max.
Proof.
  intros [_ H Hs _ _]. rewrite <- (s_total _ _ Hs). simpl.
  destruct (h_root _ _ H) as (r & Hr & _). unfold branch_at. rewrite Hr.
  pose proof (s_pos _ _ Hs _ _ Hr). lia.
Qed.

(** Lowering the support of the tip of one node. *)
Lemma remove_at_ok t loc n s count :
  trie_ok t -> 0 <= count <= tip_support n -> tip_support n <> 0 -> heap t !! loc = Some n ->
  end_ (span n) - 1 = s ->
  exists t', (t ← update_node loc (fun n => set_tip (wrap_u32 (tip_support n - count)) n) t;
              let t := mkTrie (nodes t) (seq_support_sub s count (seq_support t)) (free t) in
              t ← walk (length (nodes t)) loc (- count) t;
              compress (length (nodes t)) loc t) = Ok t'
    /\ trie_ok t' /\ total_support (heap t') = total_support (heap t) - count
    /\ (forall x, tips_at x (heap t') = tips_at x (heap t)
         - if decide (tip_id (span_tip (span n)) = x) then count else 0)
    /\ forall P, remove_closed P -> P (heap t) -> P (heap t').
Proof.
  intros Ht Hcount Hnz Hloc Hseq. pose proof (trie_total_bound t Ht) as Htot.
  pose proof Ht as [Har H Hs Hss Hc].
  assert (forall i m, heap t !! i = Some m -> 0 <= tip_support m) as Htips
    by (intros; by eapply s_tip).
  assert (tip_support n <= total_support (heap t)) by by apply (msum_elem_le _ loc).
  destruct (update_node_spec loc (fun n => set_tip (wrap_u32 (tip_support n - count)) n) t n
    Har Hloc) as (t1 & E1 & [Hh1 Hs1 Ha1]); [exact (heap_live _ _ _ Hloc)|].
  rewrite E1. simpl. rewrite wrap_u32_id in Hh1 by machine.
  change (heap t1 = bump loc n (- count) (heap t)) in Hh1.
  set (t2 := mkTrie _ _ _). change (heap t1) with (heap t2) in Hh1.
  assert (heap t2 !! loc = Some (set_tip (tip_support n - count) n)) as Hloc2.
  { rewrite Hh1. apply lookup_insert_eq. }
  assert (total_support (heap t2) = total_support (heap t) - count) as Htot2.
  { rewrite Hh1, bump_total; [lia|done]. }
  assert (heap_ok (heap t2)) as H2.
  { rewrite Hh1. eapply heap_ok_links; [by apply bump_links | done]. }
  destruct (walk_spec valid (length (nodes t1)) loc (- count) t2
    (set_tip (tip_support n - count) n)) as (t3 & E3 & Ha3 & Hss3 & Hsh & Hs3);
    [by destruct Ha1 | done | | done | lia | exact (below_bound t2 _) |].
  { rewrite Hh1. apply (bump_support valid); [done..|lia|done]. }
  rewrite E3. simpl.
  assert (heap_ok (heap t3)) as H3 by (by eapply heap_ok_shape).
  destruct (same_shape_lookup _ _ _ _ Hsh Hloc2) as (n3 & Hloc3 & _).
  destruct (compress_ok (length (nodes t3)) t3 loc n3) as (t4 & E4 & Hr4 & Hc4 & HP4);
    [by split | | done | apply heap_size |].
  { eapply compressed_shape; [done|]. rewrite Hh1.
    intros i m [[<- <-]|[Hne Hi]]%bump_lookup Hir Hex Hm; [done|]. by apply (Hc i m Hi Hir). }
  rewrite E4. exists t4. split; [done|]. destruct Hr4 as [Ha4 H4 Hs4 Hss4 Htot4 Htq4 Hta4].
  assert (forall s', tips_at_seq s' (heap t4)
    = tips_at_seq s' (heap t) - if decide (s = s') then count else 0) as Htq.
  { intros s'. rewrite Htq4, <- (tips_at_seq_shape _ _ _ Hsh), Hh1. unfold tips_at_seq.
    rewrite (msum_bump (fun m => end_ (span m) - 1 = s')) by done. repeat case_decide; lia. }
  assert (tip_support n <= tips_at_seq s (heap t) <= total_support (heap t)) as Hts.
  { split.
    - unfold tips_at_seq.
      pose proof (msum_elem_le (fun m => if decide (end_ (span m) - 1 = s) then tip_support m
        else 0) loc n (heap t)) as Hle. simpl in Hle. rewrite decide_True in Hle by done.
      apply Hle; [|done]. intros k a Ha. pose proof (Htips _ _ Ha). case_decide; lia.
    - apply zsum_mono. intros [k a] Ha%elem_of_map_to_list. pose proof (Htips _ _ Ha). simpl.
      case_decide; lia. }
  split_and!; [split| | |].
  - done.
  - done.
  - done.
  - rewrite Hss4, Hss3. simpl. rewrite Hs1.
    apply (seq_ok_sub (heap t)); [done | lia | pose proof (Htips _ _ Hloc); lia | done].
  - done.
  - rewrite Htot4, <- (total_support_shape _ _ Hsh). done.
  - intros x. rewrite Hta4, <- (tips_at_shape _ _ _ Hsh), Hh1. unfold tips_at.
    rewrite (msum_bump (fun m => tip_id (span_tip (span m)) = x)) by done. repeat case_decide; lia || done.
  - intros P HP HPt. apply (HP4 P HP). eapply (rc_links _ HP); [by apply same_shape_links|].
    rewrite Hh1. eapply (rc_links _ HP); [by apply bump_links | done].
Qed.

Lemma remove_ok t (id : Id) s count :
  trie_ok t -> 0 <= count ->
  (forall i n, heap t !! i = Some n -> tip_id (span_tip (span n)) = id -> end_ (span n) - 1 = s) ->
  exists t' removed b, remove id s count t = Ok (t', b) /\ trie_ok t'
    /\ (if b : bool
        then exists i n, heap t !! i = Some n /\ tip_id (span_tip (span n)) = id
               /\ 0 < tip_support n /\ removed = Z.min count (tip_support n)
        else t' = t /\ removed = 0
             /\ forall i n, heap t !! i = Some n -> tip_id (span_tip (span n)) = id ->
                  exists j m, heap t !! j = Some m /\ tip_id (span_tip (span m)) = id
                    /\ tip_support m = 0)
    /\ total_support (heap t') = total_support (heap t) - removed
    /\ (forall x, tips_at x (heap t') = tips_at x (heap t) - if decide (id = x) then removed else 0)
    /\ forall P, remove_closed P -> P (heap t) -> P (heap t').
Proof.
  intros Ht Hcount Hnames. unfold remove.
  assert (forall x, tips_at x (heap t) = tips_at x (heap t) - if decide (id = x) then 0 else 0)
    as Hsame by (intros; case_decide; lia).
  pose proof (find_by_ledger_id_spec t id) as Hfind.
  destruct (find_by_ledger_id t id) as [loc|].
  2:{ exists t, 0, false. split_and!; auto; [|lia]. intros i n Hi Hid. by destruct (Hfind i n). }
  destruct Hfind as (n & Hloc & Hid). rewrite (get_node_live _ _ _ Hloc). simpl.
  pose proof (s_tip _ _ (tk_support _ _ Ht) _ _ Hloc).
  destruct (Z.eqb_spec (tip_support n) 0).
  { exists t, 0, false. split_and!; auto; [|lia]. eauto 10. }
  destruct (remove_at_ok t loc n s (Z.min count (tip_support n)) Ht) as (t' & E & Ht' & Htot & Hx & HP);
    [lia | done | done | eauto |].
  exists t', (Z.min count (tip_support n)), true. split_and!; [| done | | done | | done].
  - revert E. destruct (update_node _ _ _) as [t1| |]; simpl; [|done|done].
    destruct (walk _ _ _ _) as [t2| |]; simpl; [|done|done]. by intros ->.
  - exists loc, n. split_and!; [done..|lia|done].
  - intros x. by rewrite Hx, Hid.
Qed.
End RemoveSpec.
