(* ===== verification/TriePrefix.v ===== *)
(** * The trie as a prefix tree of ledger histories

    When the ledgers in play know their ancestry from one common sequence on
    (ids name one history, [mismatch] is the first difference) the spans of the
    live nodes partition the histories: a ledger lies in the span of at most one
    node.  Insertion, removal and compression keep this, so the support of an id
    sits on a single node. *)

From S2P Require Import Prelude LedgerTrie TrieInvariant TrieInsert TrieRemove.

(** A sequence at which ids are known: the genesis ledger, or from [base] on. *)
Definition anchored (base s : Z) : Prop := s = 0 \/ base <= s.

(** The ledgers of [valid] know their ancestry from the sequence [base] on, and
    those past the genesis ledger share the ledger at [base].  Below it nothing
    is asked of [ancestor], so a skip list may end anywhere at or below [base];
    with [base = 1] the whole ancestry is known. *)
Class HistoryLaws (L Id : Type) `{!TrieLedger L Id} (base : Z) (valid : L -> Prop) : Prop := {
  history_laws :: TrieLedgerLaws L Id valid;
  base_positive : 1 <= base;
  seq_anchored : forall l, valid l -> anchored base (seq l);
  mismatch_anchored : forall a b, valid a -> valid b -> anchored base (mismatch a b - 1);
  mismatch_agree : forall a b s, valid a -> valid b -> base <= s < mismatch a b ->
    ancestor a s = ancestor b s;
  mismatch_differ : forall a b, valid a -> valid b -> mismatch a b <= Z.min (seq a) (seq b) ->
    base <= mismatch a b /\ ancestor a (mismatch a b) <> ancestor b (mismatch a b);
  history_chain : forall a b s q, valid a -> valid b -> base <= q <= s -> s <= seq a -> s <= seq b ->
    ancestor a s = ancestor b s -> ancestor a q = ancestor b q;
  history_seq : forall a b s q, valid a -> valid b -> anchored base s -> s <= seq a ->
    anchored base q -> q <= seq b -> ancestor a s = ancestor b q -> s = q
}.

Section Prefix.
Context {L Id : Type} `{!TrieLedger L Id} `{!EqDecision Id} `{!TotalOrd Id}.
Context (base : Z) (valid : L -> Prop) `{!HistoryLaws L Id base valid}.
Implicit Types t : LedgerTrie L.
Implicit Types n : Node L.
Implicit Types h : gmap nat (Node L).
Notation heap_ok := (heap_ok valid).
Notation trie_ok := (trie_ok valid).

(** The ancestor as far as it is known: below [base] all ledgers look alike. *)
Definition hist (l : L) (s : Z) : option Id :=
  if base <=? s then Some (ancestor l s) else None.

Lemma hist_agree a b s :
  valid a -> valid b -> 0 <= s < mismatch a b -> hist a s = hist b s.
Proof.
  intros Ha Hb Hs. unfold hist. destruct (Z.leb_spec base s); [|done].
  f_equal. apply (mismatch_agree (base := base) (valid := valid)); [done..|lia].
Qed.

Lemma hist_differ a b :
  valid a -> valid b -> mismatch a b <= Z.min (seq a) (seq b) ->
  hist a (mismatch a b) <> hist b (mismatch a b).
Proof.
  intros Ha Hb Hle. destruct (mismatch_differ (base := base) (valid := valid) a b Ha Hb Hle) as [Hm Hd].
  unfold hist. rewrite (proj2 (Z.leb_le _ _) Hm). congruence.
Qed.

Lemma hist_chain a b s q :
  valid a -> valid b -> 0 <= q <= s -> s <= seq a -> s <= seq b ->
  hist a s = hist b s -> hist a q = hist b q.
Proof.
  intros Ha Hb Hq Hsa Hsb. unfold hist. destruct (Z.leb_spec base q); [|done].
  rewrite (proj2 (Z.leb_le base s)) by lia. intros [= Heq]. f_equal.
  apply (history_chain (base := base) (valid := valid) a b s q); [done..|lia|lia|lia|done].
Qed.

Lemma mismatch_nonneg a b : valid a -> valid b -> 1 <= mismatch a b.
Proof.
  intros Ha Hb. pose proof (base_positive (base := base) (valid := valid)).
  destruct (mismatch_anchored (base := base) (valid := valid) a b Ha Hb); lia.
Qed.

(** A child continues the history of its parent; siblings differ at once; spans
    end where ids are known. *)
Record prefix_ok h : Prop := {
  px_child : forall i n c cn s, h !! i = Some n -> c ∈ children n -> h !! c = Some cn ->
    0 <= s < end_ (span n) -> hist (ledger (span cn)) s = hist (ledger (span n)) s;
  px_sibling : forall i n c cn c' cn', h !! i = Some n -> c ∈ children n -> h !! c = Some cn ->
    c' ∈ children n -> h !! c' = Some cn' -> c <> c' ->
    hist (ledger (span cn)) (end_ (span n)) <> hist (ledger (span cn')) (end_ (span n));
  px_end : forall i n, h !! i = Some n -> anchored base (end_ (span n) - 1)
}.

(** ** A ledger lies on one node *)

Lemma span_in_history h i n s :
  heap_ok h -> h !! i = Some n -> start (span n) <= s < end_ (span n) ->
  valid (ledger (span n)) /\ 0 <= s <= seq (ledger (span n)).
Proof. intros H Hi Hs. destruct (h_span _ _ H _ _ Hi). split; [done|lia]. Qed.

(** The node just before the start of a node other than the root. *)
Lemma before_start h i n :
  heap_ok h -> prefix_ok h -> h !! i = Some n -> i <> ROOT ->
  exists p pn, h !! p = Some pn /\ i ∈ children pn /\ end_ (span pn) = start (span n)
    /\ start (span pn) <= start (span n) - 1 < end_ (span pn)
    /\ hist (ledger (span n)) (start (span n) - 1)
       = hist (ledger (span pn)) (start (span n) - 1).
Proof.
  intros H Hx Hi Hne. destruct (h_parent _ _ H _ _ Hi Hne) as (p & pn & Hp & Hpn & Hin & Hst).
  destruct (h_span _ _ H _ _ Hpn) as [? ? ?]. exists p, pn.
  split_and!; [done | done | done | lia | lia |].
  apply (px_child _ Hx p pn i n); [done..|lia].
Qed.

Lemma root_start h i n :
  heap_ok h -> h !! i = Some n -> start (span n) = 0 -> i = ROOT.
Proof.
  intros H Hi Hs. destruct (decide (i = ROOT)); [done|].
  destruct (h_parent _ _ H _ _ Hi) as (p & pn & _ & Hpn & _ & Hst); [done|].
  destruct (h_span _ _ H _ _ Hpn). lia.
Qed.

(** The case of [position_unique] where the first node starts no later. *)
Lemma position_step h s i n j m :
  heap_ok h -> prefix_ok h -> h !! i = Some n -> h !! j = Some m ->
  start (span n) <= start (span m) -> start (span m) <= s < end_ (span m) -> s < end_ (span n) ->
  hist (ledger (span n)) s = hist (ledger (span m)) s ->
  (forall q i n j m, q < s -> h !! i = Some n -> h !! j = Some m ->
     start (span n) <= q < end_ (span n) -> start (span m) <= q < end_ (span m) ->
     hist (ledger (span n)) q = hist (ledger (span m)) q -> i = j) ->
  i = j.
Proof.
  intros H Hx Hi Hj Hle Hm Hn Heq IH.
  destruct (span_in_history h i n s H Hi) as [Hvn Hsn]; [lia|].
  destruct (span_in_history h j m s H Hj) as [Hvm Hsm]; [lia|].
  pose proof (span_nonempty _ _ (h_span _ _ H _ _ Hi)).
  pose proof (span_nonempty _ _ (h_span _ _ H _ _ Hj)).
  assert (forall q, 0 <= q <= s -> hist (ledger (span n)) q = hist (ledger (span m)) q)
    as Hchain by (intros q Hq; apply (hist_chain _ _ s q); auto; lia).
  destruct (decide (j = ROOT)) as [->|Hjr].
  { destruct (h_root _ _ H) as (r & Hr & _ & Hrs). assert (r = m) as -> by congruence.
    apply (root_start h i n H Hi). rewrite Hrs, (span_genesis_eq valid) in Hle. simpl in Hle. lia. }
  destruct (before_start h j m H Hx Hj Hjr) as (q & qn & Hq & Hjq & Hqe & Hqr & Hqa).
  pose proof (span_nonempty _ _ (h_span _ _ H _ _ Hq)).
  destruct (decide (start (span n) = start (span m))) as [Hst|Hst].
  - assert (i <> ROOT) as Hir.
    { intros ->. destruct (h_root _ _ H) as (r & Hr & _ & Hrs). assert (r = n) as -> by congruence.
      rewrite Hrs, (span_genesis_eq valid) in Hst. simpl in Hst.
      pose proof (root_start h j m H Hj ltac:(lia)). done. }
    destruct (before_start h i n H Hx Hi Hir) as (p & pn & Hp & Hip & Hpe & Hpr & Hpa).
    pose proof (span_nonempty _ _ (h_span _ _ H _ _ Hp)).
    assert (p = q) as ->.
    { apply (IH (start (span n) - 1) p pn q qn); [lia | done | done | lia | lia |].
      rewrite <- Hpa, Hst, <- Hqa, <- Hst. apply Hchain. lia. }
    assert (qn = pn) as -> by congruence. destruct (decide (i = j)); [done|]. exfalso.
    apply (px_sibling _ Hx q pn i n j m); [done..|]. rewrite Hpe. apply Hchain. lia.
  - assert (i = q) as ->; [|congruence || (assert (qn = n) by congruence; subst; lia)].
    apply (IH (start (span m) - 1) i n q qn); [lia | done | done | lia | lia |].
    rewrite <- Hqa. apply Hchain. lia.
Qed.

Lemma position_unique h s i n j m :
  heap_ok h -> prefix_ok h -> h !! i = Some n -> h !! j = Some m ->
  start (span n) <= s < end_ (span n) -> start (span m) <= s < end_ (span m) ->
  hist (ledger (span n)) s = hist (ledger (span m)) s -> i = j.
Proof.
  intros H Hx. revert i n j m. assert (0 <= s \/ s < 0) as [Hs|Hs] by lia.
  2:{ intros i n j m Hi _ Hn. destruct (h_span _ _ H _ _ Hi). lia. }
  revert s Hs. refine (Zlt_0_ind _ _). intros s IH _ i n j m Hi Hj Hn Hm Heq.
  assert (forall q i n j m, q < s -> h !! i = Some n -> h !! j = Some m ->
    start (span n) <= q < end_ (span n) -> start (span m) <= q < end_ (span m) ->
    hist (ledger (span n)) q = hist (ledger (span m)) q -> i = j) as IH'.
  { intros q i' n' j' m' Hq Hi' Hj' Hn' Hm'. destruct (h_span _ _ H _ _ Hi').
    apply (IH q ltac:(lia) i' n' j' m'); auto. }
  destruct (Z.le_ge_cases (start (span n)) (start (span m))).
  - apply (position_step h s i n j m); auto; lia.
  - symmetry. apply (position_step h s j m i n); auto; lia.
Qed.

(** The tip ids of the live nodes are distinct. *)
Lemma tips_unique h i n j m :
  heap_ok h -> prefix_ok h -> h !! i = Some n -> h !! j = Some m ->
  tip_id (span_tip (span n)) = tip_id (span_tip (span m)) -> i = j.
Proof.
  intros H Hx Hi Hj Heq. destruct (h_span _ _ H _ _ Hi) as [Hvn Hnn Hen].
  destruct (h_span _ _ H _ _ Hj) as [Hvm Hnm Hem].
  pose proof (seq_range _ Hvn). pose proof (seq_range _ Hvm). simpl in Heq.
  rewrite !wrap_u32_id in Heq by machine.
  assert (end_ (span n) - 1 = end_ (span m) - 1) as He.
  { eapply (history_seq (base := base) (valid := valid));
      [exact Hvn | exact Hvm | by eapply px_end | lia | by eapply px_end | lia | done]. }
  apply (position_unique h (end_ (span n) - 1) i n j m); [done..|lia|lia|].
  unfold hist. destruct (_ <=? _); [|done]. f_equal. by rewrite Heq, He.
Qed.

(** ** Preservation *)

Lemma prefix_links h h' : same_links h h' -> prefix_ok h -> prefix_ok h'.
Proof.
  intros E [Hc Hs He]. assert (same_links h' h) as E' by (unfold same_links in *; congruence).
  split.
  - intros i n c cn s Hi Hin Hcn Hr.
    destruct (same_links_lookup h' h _ _ E' Hi) as (n0 & Hi0 & [=]).
    destruct (same_links_lookup h' h _ _ E' Hcn) as (cn0 & Hcn0 & [=]).
    specialize (Hc i n0 c cn0 s Hi0). replace (span n) with (span n0) in *.
    replace (span cn) with (span cn0). apply Hc; [congruence | done | done].
  - intros i n c cn c' cn' Hi Hin Hcn Hin' Hcn' Hne.
    destruct (same_links_lookup h' h _ _ E' Hi) as (n0 & Hi0 & [=]).
    destruct (same_links_lookup h' h _ _ E' Hcn) as (cn0 & Hcn0 & [=]).
    destruct (same_links_lookup h' h _ _ E' Hcn') as (cn0' & Hcn0' & [=]).
    replace (span n) with (span n0) in *. replace (span cn) with (span cn0).
    replace (span cn') with (span cn0').
    apply (Hs i n0 c cn0 c' cn0'); [done | congruence | done | congruence | done | done].
  - intros i n Hi. destruct (same_links_lookup h' h _ _ E' Hi) as (n0 & Hi0 & [=]).
    replace (span n) with (span n0). by apply (He i).
Qed.

Lemma prefix_split h loc k n d :
  heap_ok h -> h !! k = None -> h !! loc = Some n -> start (span n) < d < end_ (span n) ->
  anchored base (d - 1) -> prefix_ok h ->
  prefix_ok (split_heap h loc k n (mkSpan (start (span n)) d (ledger (span n)))
    (mkSpan d (end_ (span n)) (ledger (span n)))).
Proof.
  intros H Hk Hloc Hd Hda [Hc Hs He].
  set (h' := split_heap _ _ _ _ _ _).
  assert (forall c cn, c <> k -> h' !! c = Some cn -> exists cn0, h !! c = Some cn0
    /\ ledger (span cn) = ledger (span cn0)) as Hold.
  { intros c cn Hck Hcn.
    apply split_lookup in Hcn as [[-> ->]|[[-> ->]|(? & ? & m0 & ? & ->)]]; [| done | | done..].
    - exists n. done.
    - exists m0. split; [done|]. by case_decide. }
  split.
  - intros i m c cn s Hi Hin Hcn Hr.
    apply split_lookup in Hi as [[-> ->]|[[-> ->]|(? & ? & m0 & Hm0 & ->)]]; [| | |done..].
    + simpl in Hin. apply list_elem_of_singleton in Hin as ->.
      apply split_lookup in Hcn as [[? _]|[[_ ->]|(_ & ? & _)]]; [congruence | done | done | done..].
    + simpl in *. destruct (Hold c cn) as (cn0 & Hcn0 & ->); [|done|by apply (Hc loc n c)].
      intros ->. eapply (dead_not_child valid h k); [exact H | exact Hk | | eassumption]; eassumption.
    + assert (c ∈ children m0) as Hin0 by by case_decide.
      destruct (Hold c cn) as (cn0 & Hcn0 & ->); [|done|].
      { intros ->. eapply (dead_not_child valid h k); [exact H | exact Hk | | eassumption]; eassumption. }
      pose proof (Hc i m0 c cn0 s Hm0 Hin0 Hcn0). case_decide; auto.
  - intros i m c cn c' cn' Hi Hin Hcn Hin' Hcn' Hne.
    apply split_lookup in Hi as [[-> ->]|[[-> ->]|(? & ? & m0 & Hm0 & ->)]]; [| | |done..].
    + simpl in *. apply list_elem_of_singleton in Hin, Hin'. congruence.
    + simpl in *. destruct (Hold c cn) as (cn0 & Hcn0 & ->); [|done|].
      { intros ->. eapply (dead_not_child valid h k); [exact H | exact Hk | | eassumption]; eassumption. }
      destruct (Hold c' cn') as (cn0' & Hcn0' & ->); [|done|by apply (Hs loc n c cn0 c')].
      intros ->. eapply (dead_not_child valid h k); [exact H | exact Hk | | eassumption]; eassumption.
    + assert (c ∈ children m0) as Hin0 by by case_decide.
      assert (c' ∈ children m0) as Hin0' by by case_decide.
      destruct (Hold c cn) as (cn0 & Hcn0 & ->); [|done|].
      { intros ->. eapply (dead_not_child valid h k); [exact H | exact Hk | | eassumption]; eassumption. }
      destruct (Hold c' cn') as (cn0' & Hcn0' & ->); [|done|].
      { intros ->. eapply (dead_not_child valid h k); [exact H | exact Hk | | eassumption]; eassumption. }
      pose proof (Hs i m0 c cn0 c' cn0' Hm0 Hin0 Hcn0 Hin0' Hcn0' Hne). case_decide; auto.
  - intros i m Hi.
    apply split_lookup in Hi as [[-> ->]|[[-> ->]|(? & ? & m0 & Hm0 & ->)]]; [done | | |done..].
    + simpl. by apply (He loc).
    + pose proof (He i m0 Hm0). by case_decide.
Qed.

Lemma prefix_branch l h loc k n :
  valid l -> heap_ok h -> h !! k = None -> h !! loc = Some n ->
  end_ (span n) <= seq l -> end_ (span n) <= mismatch (ledger (span n)) l ->
  (forall c cn, c ∈ children n -> h !! c = Some cn ->
     mismatch (ledger (span cn)) l <= end_ (span n)) ->
  prefix_ok h -> prefix_ok (branch_heap h loc k n (mkSpan (end_ (span n)) (seq l + 1) l)).
Proof.
  intros Hl H Hk Hloc Hseq Hmis Hkids [Hc Hs He].
  destruct (h_span _ _ H _ _ Hloc) as [Hv Hne _].
  assert (forall s, 0 <= s < end_ (span n) -> hist l s = hist (ledger (span n)) s) as Hagree.
  { intros s Hr. symmetry. apply hist_agree; [done..|lia]. }
  assert (forall c cn, c ∈ children n -> h !! c = Some cn ->
    hist (ledger (span cn)) (end_ (span n)) <> hist l (end_ (span n))) as Hnew.
  { intros c cn Hin Hcn. pose proof (Hkids c cn Hin Hcn).
    destruct (child_start valid _ _ _ _ H Hloc Hin) as (cn' & Hcn' & _ & Hst & _ & _).
    assert (cn' = cn) as -> by congruence. destruct (h_span _ _ H _ _ Hcn) as [Hvc Hnc Hec].
    assert (mismatch (ledger (span cn)) l <= Z.min (seq (ledger (span cn))) (seq l)) as Hle by lia.
    pose proof (hist_differ _ _ Hvc Hl Hle) as Hd.
    destruct (decide (mismatch (ledger (span cn)) l = end_ (span n))) as [Heq|Hneq].
    - by rewrite Heq in Hd.
    - exfalso. apply Hd. assert (0 <= mismatch (ledger (span cn)) l).
      { pose proof (mismatch_nonneg _ _ Hvc Hl). lia. }
      rewrite Hagree by lia. apply (Hc loc n c cn); [done..|lia]. }
  split.
  - intros i m c cn s Hi Hin Hcn Hr.
    apply branch_lookup in Hi as [[-> ->]|[[-> ->]|(? & ? & Hm0)]]; [| | |done..].
    + simpl in *.
      apply branch_lookup in Hcn as [[-> ->]|[[-> ->]|(? & ? & Hcn0)]]; [| | |done..].
      * apply elem_of_app in Hin as [Hin| ->%list_elem_of_singleton]; [|congruence].
        by destruct (not_own_child valid _ _ _ H Hloc).
      * simpl. by apply Hagree.
      * apply elem_of_app in Hin as [Hin|Hin%list_elem_of_singleton]; [|done].
        by apply (Hc loc n c cn).
    + by apply elem_of_nil in Hin.
    + apply branch_lookup in Hcn as [[-> ->]|[[-> ->]|(? & ? & Hcn0)]]; [| | |done..].
      * simpl. by apply (Hc i m loc n).
      * by destruct (dead_not_child valid h k i m H Hk Hm0).
      * by apply (Hc i m c cn).
  - assert (forall i m c cn, i <> k -> h !! i = Some m -> c ∈ children m ->
      branch_heap h loc k n (mkSpan (end_ (span n)) (seq l + 1) l) !! c = Some cn ->
      exists cn0, h !! c = Some cn0 /\ span cn = span cn0) as Hold.
    { intros i m c cn Hik Hi Hin Hcn.
      apply branch_lookup in Hcn as [[-> ->]|[[-> ->]|(? & ? & Hcn0)]]; [| | |done..].
      - by exists n.
      - by destruct (dead_not_child valid h k i m H Hk Hi).
      - by exists cn. }
    intros i m c cn c' cn' Hi Hin Hcn Hin' Hcn' Hne'.
    apply branch_lookup in Hi as [[-> ->]|[[-> ->]|(? & ? & Hm0)]]; [| | |done..].
    + simpl in *. assert (loc <> k) as Hlk by congruence.
      apply elem_of_app in Hin as [Hin| ->%list_elem_of_singleton];
        apply elem_of_app in Hin' as [Hin'| ->%list_elem_of_singleton]; [| | |done].
      * destruct (Hold loc n c cn Hlk Hloc Hin Hcn) as (cn0 & Hcn0 & ->).
        destruct (Hold loc n c' cn' Hlk Hloc Hin' Hcn') as (cn0' & Hcn0' & ->).
        by apply (Hs loc n c cn0 c').
      * destruct (Hold loc n c cn Hlk Hloc Hin Hcn) as (cn0 & Hcn0 & ->).
        apply branch_lookup in Hcn' as [[? _]|[[_ ->]|(_ & ? & _)]]; [congruence | | done | done..].
        by apply (Hnew c).
      * destruct (Hold loc n c' cn' Hlk Hloc Hin' Hcn') as (cn0 & Hcn0 & ->).
        apply branch_lookup in Hcn as [[? _]|[[_ ->]|(_ & ? & _)]]; [congruence | | done | done..].
        intros Heq. by apply (Hnew c' cn0).
    + by apply elem_of_nil in Hin.
    + destruct (Hold i m c cn) as (cn0 & Hcn0 & ->); [done..|].
      destruct (Hold i m c' cn') as (cn0' & Hcn0' & ->); [done..|].
      by apply (Hs i m c cn0 c').
  - intros i m Hi.
    apply branch_lookup in Hi as [[-> ->]|[[-> ->]|(? & ? & Hm0)]]; [| | |done..].
    + simpl. by apply (He loc).
    + simpl. replace (seq l + 1 - 1) with (seq l) by lia.
      by apply (seq_anchored (valid := valid)).
    + by apply (He i).
Qed.

Lemma prefix_insert_closed l : valid l -> insert_closed valid l prefix_ok.
Proof.
  intros Hl. split.
  - apply prefix_links.
  - intros h loc k n d H Hk Hloc Hd -> Hx. apply prefix_split; try done.
    apply (mismatch_anchored (valid := valid)); [|done]. by destruct (h_span _ _ H _ _ Hloc).
  - intros. by apply prefix_branch.
Qed.

Lemma prefix_splice h loc p n pn :
  heap_ok h -> h !! loc = Some n -> parent n = Some p -> h !! p = Some pn ->
  (length (children n) <= 1)%nat -> prefix_ok h -> prefix_ok (splice_heap h loc p n pn).
Proof.
  intros H Hloc Hp Hpn Hlen [Hc Hs He].
  destruct (splice_facts valid _ _ _ _ _ H Hloc Hp Hpn) as (_ & Hlp & Hst & Hpl & Hpc & Hlc).
  destruct (h_span _ _ H _ _ Hloc) as [_ Hnn _].
  assert (forall c cn, c <> loc -> splice_heap h loc p n pn !! c = Some cn -> exists cn0,
    h !! c = Some cn0 /\ ledger (span cn) = ledger (span cn0)) as Hold.
  { intros c cn _ (cn0 & ? & _ & _ & _ & _ & _ & ? & _)%splice_old; [by exists cn0 | done..]. }
  (** what a child of [p] looks like just past the span of [p] *)
  assert (forall c cn, c ∈ filter (fun x => x ≠ loc) (children pn) ++ children n ->
    splice_heap h loc p n pn !! c = Some cn -> exists b bn, b ∈ children pn /\ h !! b = Some bn
      /\ (forall s, 0 <= s <= end_ (span pn) ->
            hist (ledger (span cn)) s = hist (ledger (span bn)) s)
      /\ ((b = c /\ c <> loc) \/ (b = loc /\ c ∈ children n))) as Hrep.
  { intros c cn Hin Hcn. assert (c <> loc) as Hcl by (by apply splice_lookup in Hcn as [? _]).
    destruct (Hold c cn Hcl Hcn) as (cn0 & Hcn0 & Hled).
    apply elem_of_app in Hin as [[_ Hin]%list_elem_of_filter|Hin].
    - exists c, cn0. split_and!; auto. intros s _. by rewrite Hled.
    - exists loc, n. split_and!; auto. intros s Hr. rewrite Hled.
      apply (Hc loc n c cn0); [done..|lia]. }
  split.
  - intros i m c cn s [Hil [[-> ->]|(Hip & m0 & Hm0 & ->)]]%splice_lookup Hin Hcn Hr.
    + simpl in *. destruct (Hrep c cn Hin Hcn) as (b & bn & Hb & Hbn & Heq & _).
      rewrite Heq by lia. apply (Hc p pn b bn); done.
    + assert (c ∈ children m0) as Hin0 by by case_decide.
      destruct (Hold c cn) as (cn0 & Hcn0 & ->); [by apply splice_lookup in Hcn as [? _]|done|].
      pose proof (Hc i m0 c cn0 s Hm0 Hin0 Hcn0). case_decide; auto.
  - intros i m c cn c' cn' [Hil [[-> ->]|(Hip & m0 & Hm0 & ->)]]%splice_lookup Hin Hcn Hin' Hcn' Hne.
    + simpl in *. destruct (Hrep c cn Hin Hcn) as (b & bn & Hb & Hbn & Heq & Hbc).
      destruct (Hrep c' cn' Hin' Hcn') as (b' & bn' & Hb' & Hbn' & Heq' & Hbc').
      destruct (h_span _ _ H _ _ Hpn) as [_ ? _]. rewrite Heq, Heq' by lia.
      apply (Hs p pn b bn b' bn'); [done..|]. intros ->.
      destruct Hbc as [[-> ?]|[-> Hcc]], Hbc' as [[? ?]|[? Hcc']]; try congruence.
      destruct (children n) as [|x [|y l]]; simpl in Hlen; [|..|lia].
      * by apply elem_of_nil in Hcc.
      * apply list_elem_of_singleton in Hcc, Hcc'. congruence.
    + assert (c ∈ children m0) as Hin0 by by case_decide.
      assert (c' ∈ children m0) as Hin0' by by case_decide.
      destruct (Hold c cn) as (cn0 & Hcn0 & ->); [by apply splice_lookup in Hcn as [? _]|done|].
      destruct (Hold c' cn') as (cn0' & Hcn0' & ->); [by apply splice_lookup in Hcn' as [? _]|done|].
      pose proof (Hs i m0 c cn0 c' cn0' Hm0 Hin0 Hcn0 Hin0' Hcn0' Hne). case_decide; auto.
  - intros i m (m0 & Hm0 & _ & _ & _ & _ & -> & _)%splice_old; [by apply (He i)|done..].
Qed.

Lemma prefix_remove_closed : remove_closed valid prefix_ok.
Proof.
  split.
  - apply prefix_links.
  - intros. by apply prefix_splice.
Qed.

(** ** Support of an id *)

(** The support of an id is that of the one node that carries it. *)
Lemma tips_at_node h i n x :
  heap_ok h -> prefix_ok h -> h !! i = Some n -> tip_id (span_tip (span n)) = x ->
  tips_at x h = tip_support n.
Proof.
  intros H Hx Hi Hid. unfold tips_at. rewrite <- (insert_delete_id h i n Hi) at 1.
  rewrite msum_insert_new by apply lookup_delete_eq. rewrite decide_True by done.
  rewrite msum_zero; [lia|]. intros j m [Hij Hj]%lookup_delete_Some.
  rewrite decide_False; [done|]. intros Hid'. apply Hij.
  by apply (tips_unique h i n j m); [..|congruence].
Qed.

Lemma tips_at_absent h x :
  (forall i n, h !! i = Some n -> tip_id (span_tip (span n)) <> x) -> tips_at x h = 0.
Proof.
  intros Hx. apply msum_zero. intros i n Hi. rewrite decide_False; [done|]. by apply (Hx i n).
Qed.
End Prefix.
