(* ===== verification/TrieQuery.v ===== *)
(** * Queries on the trie

    The self-check [check_invariants] accepts every trie that satisfies the
    invariant, and [get_preferred] takes the walk that [prefers] specifies. *)

From S2P Require Import Prelude BTree LedgerTrie TrieInvariant TrieInsert TrieRemove.

(** ** [check_invariants] *)

Section Check.
Context {L Id : Type} `{!TrieLedger L Id} `{!EqDecision Id} `{!TotalOrd Id}.
Context (valid : L -> Prop) `{!TrieLedgerLaws L Id valid}.
Implicit Types t : LedgerTrie L.
Implicit Types n : Node L.
Implicit Types h : gmap nat (Node L).
Notation heap_ok := (heap_ok valid).
Notation trie_ok := (trie_ok valid).

(** Tip support of a node that ends at [s], zero for an absent node. *)
Definition tip_at_seq h (s : Z) (i : nat) : Z :=
  match h !! i with
  | Some n => if decide (end_ (span n) - 1 = s) then tip_support n else 0
  | None => 0
  end.

Lemma tips_at_seq_keys h s : tips_at_seq s h = zsum (tip_at_seq h s) (map_to_list h).*1.
Proof.
  unfold tips_at_seq, msum. rewrite zsum_fmap. apply zsum_ext.
  intros [i n] Hi%elem_of_map_to_list. simpl. unfold tip_at_seq. by rewrite Hi.
Qed.

(** Any set of distinct live nodes counts at most the total. *)
Lemma visited_bound h s vis :
  (forall i n, h !! i = Some n -> 0 <= tip_support n) ->
  NoDup vis -> (forall i, i ∈ vis -> is_Some (h !! i)) ->
  0 <= zsum (tip_at_seq h s) vis <= total_support h.
Proof.
  intros Htip Hnd Hlive.
  assert (forall i, 0 <= tip_at_seq h s i) as Hpos.
  { intros i. unfold tip_at_seq. destruct (h !! i) eqn:E; [|done].
    pose proof (Htip _ _ E). case_decide; lia. }
  split; [by apply zsum_nonneg|].
  transitivity (tips_at_seq s h).
  - rewrite tips_at_seq_keys. destruct (submseteq_Permutation vis (map_to_list h).*1) as [k Hk].
    { apply NoDup_submseteq; [done|]. intros i Hi. destruct (Hlive i Hi) as [n Hn].
      apply list_elem_of_fmap. exists (i, n). split; [done|]. by apply elem_of_map_to_list. }
    rewrite Hk, zsum_app. pose proof (zsum_nonneg (tip_at_seq h s) k ltac:(auto)). lia.
  - apply zsum_mono. intros [i n] Hi%elem_of_map_to_list. pose proof (Htip _ _ Hi). simpl.
    case_decide; lia.
Qed.

(** The traversal: [vis] are the nodes already checked. *)
Record traversal h (stack vis : list nat) (expected : gmap Z Z) : Prop := {
  tr_nodup : NoDup (stack ++ vis);
  tr_live : forall i, i ∈ stack ++ vis -> is_Some (h !! i);
  tr_root : ROOT ∈ stack ++ vis;
  tr_children : forall i n c, i ∈ vis -> h !! i = Some n -> c ∈ children n -> c ∈ stack ++ vis;
  tr_parent : forall i n, i ∈ stack ++ vis -> h !! i = Some n -> i = ROOT \/
    exists p, parent n = Some p /\ p ∈ vis;
  tr_expected : forall s, expected !! s = nonzero (zsum (tip_at_seq h s) vis)
}.

Lemma traversal_done h vis expected ss :
  heap_ok h -> traversal h [] vis expected -> seq_ok h ss -> expected = ss.
Proof.
  intros H [Hnd Hlive Hroot Hch _ Hexp] Hss. simpl in *. apply map_eq. intros s.
  rewrite Hexp, Hss. f_equal. rewrite tips_at_seq_keys.
  apply zsum_perm. apply NoDup_Permutation; [done | apply NoDup_fst_map_to_list |].
  intros i. split.
  - intros Hi. destruct (Hlive i Hi) as [n Hn]. apply list_elem_of_fmap. exists (i, n).
    split; [done|]. by apply elem_of_map_to_list.
  - intros ([j n] & -> & Hj%elem_of_map_to_list)%list_elem_of_fmap. simpl. revert j n Hj.
    apply (heap_ind valid h (fun i _ => i ∈ vis) H). intros i n Hi IH.
    destruct (decide (i = ROOT)) as [->|Hne]; [done|].
    destruct (h_parent _ _ H i n Hi Hne) as (p & pn & Hp & Hpn & Hin & _). by eauto.
Qed.

Lemma traversal_step h i n stack vis expected :
  heap_ok h -> (forall i n, h !! i = Some n -> 0 <= tip_support n) -> total_support h <= u32_max ->
  h !! i = Some n -> traversal h (i :: stack) vis expected ->
  traversal h (rev (children n) ++ stack) (i :: vis)
    (if tip_support n =? 0 then expected
     else entry_add wrap_u32 (wrap_u32 (end_ (span n) - 1)) (tip_support n) expected).
Proof.
  intros H Htip Htot Hi [Hnd Hlive Hroot Hch Hpar Hexp].
  assert (forall j, j ∈ (rev (children n) ++ stack) ++ i :: vis
    <-> j ∈ children n \/ j ∈ (i :: stack) ++ vis) as Hel.
  { intros j. repeat rewrite ?elem_of_app, ?elem_of_cons, ?elem_of_rev. tauto. }
  assert (i ∉ vis) as Hiv by (simpl in Hnd; apply NoDup_cons in Hnd as [? _]; set_solver).
  split.
  - rewrite <- app_assoc. apply NoDup_app. split_and!.
    + rewrite <- Permutation_rev. by eapply h_nodup.
    + intros c Hc Hs. rewrite elem_of_rev in Hc.
      destruct (child_start valid _ _ _ _ H Hi Hc) as (cn & Hcn & Hcp & _ & _ & Hcr).
      destruct (Hpar c cn) as [?|(p & Hp & Hpv)]; [| done | done |].
      * rewrite <- Permutation_middle in Hs. done.
      * assert (p = i) as -> by congruence. done.
    + by rewrite <- Permutation_middle.
  - intros j [Hj|Hj]%Hel; [|by apply Hlive].
    destruct (h_children _ _ H _ _ _ Hi Hj) as (cn & ? & _). eauto.
  - apply Hel. by right.
  - intros j m c [->|Hj]%elem_of_cons Hm Hc; apply Hel; [left; congruence|]. right. by eapply Hch.
  - intros j m [Hj|Hj]%Hel Hm.
    + right. exists i. destruct (h_children _ _ H _ _ _ Hi Hj) as (cn & ? & ?).
      split; [congruence | left].
    + destruct (Hpar j m Hj Hm) as [?|(p & ? & ?)]; [by left|]. right. exists p.
      split; [done | by right].
  - intros s. destruct (h_span _ _ H _ _ Hi) as [Hv Hne He]. pose proof (seq_range _ Hv).
    rewrite (wrap_u32_id (end_ (span n) - 1)) by machine.
    pose proof (visited_bound h s (i :: vis) Htip) as Hb.
    assert (NoDup (i :: vis)) as Hnd'.
    { apply NoDup_cons. split; [done|]. by apply NoDup_app in Hnd as (_ & _ & ?). }
    specialize (Hb Hnd' ltac:(intros j Hj; apply Hlive; set_solver)).
    pose proof (visited_bound h s vis Htip) as Hb'.
    apply NoDup_cons in Hnd' as [_ Hnd'].
    specialize (Hb' Hnd' ltac:(intros j Hj; apply Hlive; set_solver)).
    pose proof (Htip _ _ Hi). simpl in *. assert (tip_at_seq h s i
      = if decide (end_ (span n) - 1 = s) then tip_support n else 0) as Hts
      by (unfold tip_at_seq; by rewrite Hi).
    rewrite Hts in *. unfold nonzero in *.
    destruct (Z.eqb_spec (tip_support n) 0) as [Ht0|Ht0].
    + rewrite Hexp, Ht0. by case_decide.
    + unfold entry_add. case_decide as Hs.
      * rewrite Hs, lookup_insert_eq, Hexp.
        rewrite (proj2 (Z.eqb_neq (tip_support n + _) 0)) by lia. f_equal.
        destruct (Z.eqb_spec (zsum (tip_at_seq h s) vis) 0); simpl;
          rewrite wrap_u32_id by machine; lia.
      * rewrite lookup_insert_ne, Hexp by done. done.
Qed.

Lemma check_children_ok t i cs v :
  (forall c, c ∈ cs -> exists cn, heap t !! c = Some cn /\ parent cn = Some i
     /\ 0 <= branch_support cn) ->
  0 <= v -> v + child_sum (heap t) cs <= u32_max ->
  check_children t i cs v = Ok (Some (v + child_sum (heap t) cs)).
Proof.
  revert v. induction cs as [|c cs IH]; intros v Hcs Hv Hb; unfold child_sum in *; simpl in *.
  { do 2 f_equal. lia. }
  destruct (Hcs c ltac:(left)) as (cn & Hcn & Hp & Hpos).
  rewrite (get_node_live _ _ _ Hcn). simpl. rewrite bool_decide_true by done.
  unfold branch_at at 1 in Hb. unfold branch_at at 1. rewrite Hcn in *.
  assert (0 <= zsum (branch_at (heap t)) cs).
  { apply zsum_nonneg. intros c' Hc'. destruct (Hcs c' ltac:(by right)) as (cn' & Hcn' & _ & ?).
    unfold branch_at. by rewrite Hcn'. }
  rewrite wrap_u32_id by machine. rewrite IH; [do 2 f_equal; lia | | lia | lia].
  intros c' Hc'. apply Hcs. by right.
Qed.

Lemma check_loop_ok fuel t stack vis expected :
  trie_ok t -> traversal (heap t) stack vis expected ->
  (size (heap t) <= fuel + length vis)%nat -> check_loop fuel t stack expected = Ok true.
Proof.
  intros Ht. pose proof Ht as [Har H Hs Hss Hc]. revert stack vis expected.
  pose proof (trie_total_bound valid t Ht) as Htot.
  induction fuel as [|fuel IH]; intros stack vis expected Htr Hf.
  - destruct stack as [|i stack]; simpl.
    { rewrite bool_decide_true; [done|]. by eapply traversal_done. }
    exfalso. destruct Htr as [Hnd Hlive _ _ _ _].
    assert (length ((i :: stack) ++ vis) <= size (heap t))%nat as Hle.
    { rewrite <- length_map_to_list. rewrite <- (length_fmap fst). apply submseteq_length.
      apply NoDup_submseteq; [done|]. intros j Hj. destruct (Hlive j Hj) as [n Hn].
      apply list_elem_of_fmap. exists (j, n). split; [done|]. by apply elem_of_map_to_list. }
    simpl in Hle. rewrite length_app in Hle. lia.
  - destruct stack as [|i stack].
    { simpl. rewrite bool_decide_true; [done|]. by eapply traversal_done. }
    destruct (tr_live _ _ _ _ Htr i) as [n Hi]; [left|]. simpl.
    rewrite (get_node_live _ _ _ Hi). simpl. rewrite (heap_live _ _ _ Hi). simpl.
    rewrite (live_children_ok valid _ _ _ H Hi). simpl.
    assert (negb (i =? ROOT)%nat && (tip_support n =? 0) && (length (children n) <? 2)%nat
      = false) as ->.
    { destruct (Nat.eqb_spec i ROOT); [done|]. destruct (Z.eqb_spec (tip_support n) 0); [|done].
      simpl. apply Nat.ltb_ge. by apply (Hc i n). }
    pose proof (s_branch _ _ Hs _ _ Hi) as Hb. pose proof (s_pos _ _ Hs _ _ Hi). simpl in Hb.
    rewrite check_children_ok; [| | by eapply s_tip | lia].
    2:{ intros c Hin. destruct (h_children _ _ H _ _ _ Hi Hin) as (cn & Hcn & ?).
        exists cn. split_and!; [done..|]. by apply (s_pos _ _ Hs c). }
    simpl. rewrite (proj2 (Z.eqb_eq _ _)) by lia.
    eapply (IH _ (i :: vis)); [|simpl; lia].
    apply (traversal_step (heap t)); [done | intros; by eapply (s_tip _ _ Hs) | lia | done | done].
Qed.

Lemma check_invariants_ok t : trie_ok t -> check_invariants t = Ok true.
Proof.
  intros Ht. pose proof Ht as [Har H _ _ _]. destruct (h_root _ _ H) as (r & Hr & Hrp & _).
  apply (check_loop_ok _ _ _ []); [done | | pose proof (heap_size t); simpl; lia].
  split; simpl.
  - apply NoDup_singleton.
  - intros i ->%list_elem_of_singleton. eauto.
  - left.
  - intros i n c Hi. by apply elem_of_nil in Hi.
  - intros i n ->%list_elem_of_singleton. by left.
  - intros s. by rewrite lookup_empty.
Qed.
End Check.

(** ** [get_preferred] *)

(** *** The cursor over the counts by sequence

    [get_preferred] reads the counts in order of sequence, each once. At the bound
    [b] it has added up the counts below [b] and has those from [b] on left. *)

Section Cursor.
Context (iter : list (Z * Z)) (Hiter : StronglySorted (fun a b => a.1 < b.1) iter).

Definition read (b : Z) : Z := zsum snd (filter (fun sv => sv.1 < b) iter).
Definition unread (b : Z) : list (Z * Z) := filter (fun sv => b <= sv.1) iter.

(** Nothing is counted between two bounds. *)
Lemma cursor_gap a b :
  (forall sv, sv ∈ iter -> sv.1 < a <-> sv.1 < b) -> read a = read b /\ unread a = unread b.
Proof.
  intros H. unfold read, unread. split; [f_equal|]; apply filter_ext_elem; intros sv Hsv;
    specialize (H sv Hsv); lia.
Qed.

Lemma cursor_start c : exists a, a <= c /\ read a = 0 /\ unread a = iter.
Proof.
  assert (exists a, a <= c /\ forall sv, sv ∈ iter -> a <= sv.1) as (a & Ha & Hall).
  { generalize iter as l. induction l as [|sv l (a & Ha & Hl)]; [by exists c; split; [|intros sv ?%elem_of_nil]|].
    exists (Z.min a sv.1). split; [lia|]. intros sv' [->|Hin%Hl]%elem_of_cons; lia. }
  exists a. split; [done|]. unfold read, unread. split.
  - replace (filter (fun sv => sv.1 < a) iter) with ([] : list (Z * Z)); [done|]. symmetry.
    apply elem_of_nil_inv. intros sv [H1 H2%Hall]%list_elem_of_filter. lia.
  - rewrite (filter_ext_elem _ (fun _ => True)) by (intros sv Hsv%Hall; split; [done|intros _; exact Hsv]).
    generalize iter as l. induction l as [|x l IH]; [done|]. rewrite filter_cons, decide_True by done. by rewrite IH.
Qed.

Lemma unread_elem a sv : sv ∈ iter -> a <= sv.1 -> sv ∈ unread a.
Proof. intros. by apply list_elem_of_filter. Qed.

Lemma cursor_end a b : unread a = [] -> a <= b -> read a = read b /\ unread b = [].
Proof.
  intros E Hab. rewrite <- E. destruct (cursor_gap a b) as [-> ->]; [|done].
  intros sv Hsv. split; [lia|]. intros Hb. destruct (Z.lt_ge_cases sv.1 a) as [?|Ha]; [done|].
  pose proof (unread_elem a sv Hsv Ha) as Hin. rewrite E in Hin. by apply elem_of_nil in Hin.
Qed.

Lemma cursor_skip a b s v rest :
  unread a = (s, v) :: rest -> a <= b <= s -> read a = read b /\ unread b = (s, v) :: rest.
Proof using Hiter.
  intros E Hb. rewrite <- E.
  assert (StronglySorted (fun a b => a.1 < b.1) (unread a)) as Hs.
  { by apply StronglySorted_filter. }
  rewrite E in Hs. apply StronglySorted_inv in Hs as [_ Hall].
  destruct (cursor_gap a b) as [-> ->]; [|done].
  intros sv Hsv. split; [lia|]. intros Hlt. destruct (Z.lt_ge_cases sv.1 a) as [?|Ha]; [done|].
  pose proof (unread_elem a sv Hsv Ha) as Hin. rewrite E in Hin.
  apply elem_of_cons in Hin as [->|Hin]; [simpl in *; lia|].
  pose proof (proj1 (Forall_forall _ _) Hall sv Hin). simpl in *. lia.
Qed.

Lemma cursor_step a s v rest :
  unread a = (s, v) :: rest -> a <= s /\ read (s + 1) = read a + v /\ unread (s + 1) = rest.
Proof using Hiter.
  unfold read, unread. revert Hiter. generalize iter as l. induction 1 as [|[s' v'] l Hl IH Hx]; [done|]. rewrite !filter_cons. simpl.
  assert (Forall (fun sv => s' + 1 <= sv.1) l) as Hx' by (eapply Forall_impl; [exact Hx|]; simpl; lia).
  destruct (decide (a <= s')) as [Ha|Ha].
  - intros [= -> -> <-]. split; [done|]. rewrite decide_True by lia. rewrite !decide_False by lia. simpl.
    assert (forall b, b <= s + 1 -> filter (fun sv : Z * Z => sv.1 < b) l = []) as Hnil.
    { intros b Hb. apply elem_of_nil_inv. intros sv [H1 H2]%list_elem_of_filter.
      pose proof (proj1 (Forall_forall _ _) Hx' sv H2). simpl in *. lia. }
    rewrite !Hnil by lia. split; [simpl; lia|]. apply filter_ext_elem. intros sv Hsv.
    pose proof (proj1 (Forall_forall _ _) Hx' sv Hsv). simpl in *. lia.
  - intros E. specialize (IH E) as (H1 & H2 & H3). split; [done|].
    rewrite !(decide_True (P := s' < _)) by lia. rewrite decide_False by lia. simpl. split; [lia|done].
Qed.

Context (Htot : forall b, 0 <= read b <= u32_max).

Lemma take_uncommitted_eq a b :
  a <= b -> take_uncommitted b (read a) (unread a) = (read b, unread b).
Proof using Hiter Htot.
  remember (unread a) as rest eqn:E. symmetry in E. revert a E.
  induction rest as [|[s v] rest IH]; intros a E Hab; simpl.
  { destruct (cursor_end a b E Hab) as [-> ->]. done. }
  destruct (Z.ltb_spec s b).
  - destruct (cursor_step a s v rest E) as (H1 & H2 & H3). rewrite <- H2, wrap_u32_id by apply Htot.
    apply IH; [done|lia].
  - destruct (cursor_skip a b s v rest E) as [-> ->]; [lia|done].
Qed.

(** Along one span: up to the first sequence whose uncommitted support outweighs the
    branch. *)
Lemma advance_eq largest next en branch :
  0 <= next <= en -> en <= u32_max ->
  exists next', advance next (read (Z.max next largest)) (unread (Z.max next largest)) en branch
      = (next', read (Z.max next' largest), unread (Z.max next' largest))
    /\ next <= next' <= en
    /\ (forall q, next <= q < next' -> read (Z.max q largest) < branch)
    /\ (next' < en -> branch <= read (Z.max next' largest)).
Proof using Hiter Htot.
  remember (unread (Z.max next largest)) as rest eqn:E. symmetry in E. revert next E.
  induction rest as [|[s v] rest IH]; intros next E Hn Hen; simpl.
  - destruct (Z.ltb_spec next en), (Z.ltb_spec (read (Z.max next largest)) branch); simpl.
    2-4: exists next; rewrite E; split_and!; try done; lia.
    exists en. destruct (cursor_end _ (Z.max en largest) E) as [-> ->]; [lia|]. split_and!; try done; try lia.
    intros q Hq. destruct (cursor_end _ (Z.max q largest) E) as [<- _]; [lia|done].
  - destruct (Z.ltb_spec next en), (Z.ltb_spec (read (Z.max next largest)) branch); simpl.
    2-4: exists next; rewrite E; split_and!; try done; lia.
    destruct (cursor_step _ s v rest E) as (H1 & H2 & H3).
    assert (forall q, next <= q <= s -> read (Z.max q largest) < branch) as Hbefore.
    { intros q Hq. destruct (cursor_skip _ (Z.max q largest) s v rest E) as [<- _]; [lia|done]. }
    destruct (Z.ltb_spec s en).
    + rewrite !wrap_u32_id by (rewrite <- ?H2; apply Htot || machine).
      replace (s + 1) with (Z.max (s + 1) largest) in H2, H3 |- * by lia. rewrite <- H2.
      destruct (IH (s + 1)) as (next' & E' & Hr & Hlt & Hst); [done|lia|done|].
      exists next'. replace (Z.max (s + 1) largest) with (s + 1) at 1 by lia. split_and!; try done; try lia.
      intros q Hq. destruct (Z.le_gt_cases q s); [apply Hbefore|apply Hlt]; lia.
    + exists en. destruct (cursor_skip _ (Z.max en largest) s v rest E) as [-> ->]; [lia|].
      split_and!; try done; try lia. intros q Hq. apply Hbefore. lia.
Qed.
End Cursor.

(** *** The walk as a specification *)

Section Preferred.
Context {L Id : Type} `{!TrieLedger L Id} `{!EqDecision Id} `{!TotalOrd Id} `{!TotalOrdLaws Id}.
Context (valid : L -> Prop) `{!TrieLedgerLaws L Id valid}.
Implicit Types t : LedgerTrie L.
Implicit Types n : Node L.
Implicit Types h : gmap nat (Node L).
Notation heap_ok := (heap_ok valid).
Notation trie_ok := (trie_ok valid).

(** The support that may still go anywhere at sequence [q]: that of the ledgers that
    come before [q], or before the largest sequence this node has validated. *)
Definition uncommitted h (largest q : Z) : Z :=
  msum (fun n => if decide (end_ (span n) - 1 < Z.max q largest) then tip_support n else 0) h.

(** The order of siblings: by branch support, then by the id they start with. *)
Definition sibling_key h (c : nat) : option (Z * Id) :=
  (fun n => (branch_support n, start_id (span n))) <$> h !! c.

(** [b] comes first among [cs], by [margin] over the next: the difference of the branch
    supports, and one more if [b] would win a tie. *)
Definition leads h (cs : list nat) (b : nat) (margin : Z) : Prop :=
  exists bs id, sibling_key h b = Some (bs, id) /\
    (cs = [b] /\ margin = bs
     \/ exists c cs' bs' id', cs ≡ₚ b :: c :: cs' /\ sibling_key h c = Some (bs', id')
        /\ ord_leb (bs', id') (bs, id) = true
        /\ (forall d k, d ∈ cs' -> sibling_key h d = Some k -> ord_leb k (bs', id') = true)
        /\ margin = bs - bs' + (if ord_ltb id' id then 1 else 0)).

Definition tip_of n (q : Z) : SpanTip L Id := mkTip q (ancestor (ledger (span n)) q) (ledger (span n)).

(** The preferred ledger of the branch of node [i]. *)
Inductive prefers h (largest : Z) : nat -> SpanTip L Id -> Prop :=
| prefers_inside i n q :
    h !! i = Some n -> start (span n) < q < end_ (span n) ->
    (forall q', start (span n) < q' < q -> uncommitted h largest q' < branch_support n) ->
    branch_support n <= uncommitted h largest q ->
    prefers h largest i (tip_of n (q - 1))
| prefers_end i n :
    h !! i = Some n ->
    (forall q, start (span n) < q < end_ (span n) -> uncommitted h largest q < branch_support n) ->
    (children n = []
     \/ exists b margin, leads h (children n) b margin
        /\ margin <= uncommitted h largest (end_ (span n)) /\ uncommitted h largest (end_ (span n)) <> 0) ->
    prefers h largest i (tip_of n (end_ (span n) - 1))
| prefers_child i n b margin tip :
    h !! i = Some n ->
    (forall q, start (span n) < q < end_ (span n) -> uncommitted h largest q < branch_support n) ->
    leads h (children n) b margin ->
    uncommitted h largest (end_ (span n)) < margin \/ uncommitted h largest (end_ (span n)) = 0 ->
    prefers h largest b tip -> prefers h largest i tip.

(** *** The counts by sequence add up the nodes *)

Lemma zsum_by_key (l : list (Z * Z)) (ks : list Z) b :
  NoDup ks -> (forall e, e ∈ l -> e.2 <> 0 -> e.1 ∈ ks) ->
  zsum (fun k => if decide (k < b) then zsum (fun e => if decide (e.1 = k) then e.2 else 0) l else 0) ks
  = zsum (fun e => if decide (e.1 < b) then e.2 else 0) l.
Proof.
  intros Hnd. induction l as [|[e v] l IH]; intros Hl; simpl.
  { clear. induction ks as [|k ks IH]; simpl; [done|]. case_decide; lia. }
  rewrite <- IH by (intros; apply Hl; [by right|done]). clear IH.
  assert (zsum (fun k => if decide (k < b) then if decide (e = k) then v else 0 else 0) ks
          = if decide (e < b) then v else 0) as Hone.
  { destruct (decide (v = 0)) as [->|Hv].
    { transitivity 0; [|by case_decide]. clear. induction ks; simpl; [done|]. repeat case_decide; lia. }
    specialize (Hl (e, v) ltac:(left) Hv). simpl in Hl. clear Hv. revert Hl. clear -Hnd.
    induction Hnd as [|k ks Hk _ IH]; intros Hin; [by apply elem_of_nil in Hin|]. simpl.
    destruct (decide (e = k)) as [->|Hne].
    - assert (zsum (fun k0 => if decide (k0 < b) then if decide (k = k0) then v else 0 else 0) ks = 0) as ->.
      { revert Hk. clear. induction ks as [|x ks IH]; intros Hk; simpl; [done|].
        apply not_elem_of_cons in Hk as [? ?]. rewrite IH by done. repeat case_decide; done || lia. }
      case_decide; lia.
    - apply elem_of_cons in Hin as [?|Hin]; [done|]. rewrite IH by done. repeat case_decide; lia. }
  rewrite <- Hone. clear. induction ks as [|k ks IH]; simpl; [done|]. rewrite IH. repeat case_decide; lia.
Qed.

Lemma read_uncommitted h ss largest q :
  seq_ok h ss -> (forall i n, h !! i = Some n -> 0 <= tip_support n) ->
  read (btree_iter ss) (Z.max q largest) = uncommitted h largest q.
Proof.
  intros Hss Htip. unfold read, uncommitted, msum. set (b := Z.max q largest).
  set (l := (fun kv => (end_ (span kv.2) - 1, tip_support kv.2)) <$> map_to_list h).
  assert (forall s, tips_at_seq s h = zsum (fun e => if decide (e.1 = s) then e.2 else 0) l) as Hts.
  { intros s. unfold l. by rewrite zsum_fmap. }
  assert (zsum (fun kv => if decide (end_ (span kv.2) - 1 < b) then tip_support kv.2 else 0) (map_to_list h)
    = zsum (fun e => if decide (e.1 < b) then e.2 else 0) l) as -> by (unfold l; by rewrite zsum_fmap).
  rewrite <- (zsum_by_key l (map_to_list ss).*1 b).
  - rewrite zsum_fmap. rewrite <- (zsum_perm _ _ _ (sort_by_perm (fun x y => ord_leb x.1 y.1) (map_to_list ss))).
    fold (btree_iter ss).
    assert (forall sv, sv ∈ btree_iter ss -> ss !! sv.1 = Some sv.2) as Hin.
    { intros [s v]. by intros ?%elem_of_btree_iter. }
    induction (btree_iter ss) as [|[s v] it IH]; [done|]. simpl. rewrite filter_cons. simpl.
    rewrite <- IH by (intros; apply Hin; by right). specialize (Hin (s, v) ltac:(left)). simpl in Hin.
    rewrite Hss, Hts in Hin. unfold nonzero in Hin. case_match; [done|]. injection Hin as ->.
    case_decide; simpl; lia.
  - apply NoDup_fst_map_to_list.
  - intros e He Hne. unfold l in He. apply list_elem_of_fmap in He as ([i n] & -> & Hi%elem_of_map_to_list).
    simpl in *. apply list_elem_of_fmap.
    assert (ss !! (end_ (span n) - 1) = Some (tips_at_seq (end_ (span n) - 1) h)) as E.
    { rewrite Hss. unfold nonzero. case_match eqn:E; [|done]. apply Z.eqb_eq in E.
      pose proof (Htip i n Hi).
      pose proof (msum_elem_le (fun n' => if decide (end_ (span n') - 1 = end_ (span n) - 1)
        then tip_support n' else 0) i n h) as Hle.
      unfold tips_at_seq in E. rewrite E in Hle. rewrite decide_True in Hle by done.
      assert (tip_support n <= 0); [|lia]. apply Hle; [|done].
      intros j m Hj. pose proof (Htip j m Hj). case_decide; lia. }
    eexists (_, _). split; [reflexivity|]. by apply elem_of_map_to_list.
Qed.

Lemma btree_iter_strict (m : gmap Z Z) : StronglySorted (fun a b => a.1 < b.1) (btree_iter m).
Proof.
  induction (btree_iter_sorted m) as [|x l Hl IH Hx]; constructor; [done|].
  eapply Forall_impl; [exact Hx|]. intros y. unfold ord_ltb, Z_ord. lia.
Qed.

(** *** The walk *)

Lemma node_tips t i n : trie_ok t -> heap t !! i = Some n -> 0 <= tip_support n.
Proof. intros Ht. apply (s_tip _ _ (tk_support _ _ Ht)). Qed.

Lemma uncommitted_range t largest q : trie_ok t -> 0 <= uncommitted (heap t) largest q <= u32_max.
Proof.
  intros Ht. pose proof (trie_total_bound valid t Ht). split.
  - apply msum_nonneg. intros i n Hi. pose proof (node_tips t i n Ht Hi). case_decide; lia.
  - etrans; [|exact (proj2 H)]. apply zsum_mono. intros [i n] Hi%elem_of_map_to_list. simpl.
    pose proof (node_tips t i n Ht Hi). case_decide; lia.
Qed.

Lemma branch_pos t i n : trie_ok t -> heap t !! i = Some n -> i <> ROOT -> 0 < branch_support n.
Proof.
  intros Ht. pose proof Ht as [_ H Hs _ Hc].
  remember (above (heap t) (start (span n))) as k eqn:Ek. revert i n Ek.
  induction k as [k IH] using lt_wf_ind. intros i n -> Hi Hne.
  pose proof (s_branch _ _ Hs _ _ Hi) as Hb. simpl in Hb. pose proof (s_tip _ _ Hs _ _ Hi).
  destruct (children n) as [|c cs] eqn:Ec.
  - unfold child_sum in Hb. simpl in Hb. assert (tip_support n <> 0); [|lia]. intros E0.
    pose proof (Hc i n Hi Hne ltac:(done) E0) as Hl. rewrite Ec in Hl. simpl in Hl. lia.
  - destruct (child_start valid _ _ _ c H Hi) as (cn & Hcn & _ & _ & Hlt & Hr); [rewrite Ec; left|].
    pose proof (IH _ (above_lt (heap t) i n _ Hi Hlt) c cn eq_refl Hcn Hr) as Hcp.
    unfold child_sum in Hb. simpl in Hb. unfold branch_at at 1 in Hb. rewrite Hcn in Hb.
    assert (0 <= zsum (branch_at (heap t)) cs); [|lia]. apply zsum_nonneg. intros d _.
    unfold branch_at. destruct (heap t !! d) as [dn|] eqn:Ed; [|done]. by apply (s_pos _ _ Hs d).
Qed.

Lemma child_keys_spec t cs :
  (forall c, c ∈ cs -> is_Some (heap t !! c)) ->
  exists keys, child_keys t cs = Ok keys /\ keys.*1 = cs
    /\ Forall (fun k => sibling_key (heap t) k.1 = Some k.2) keys.
Proof.
  induction cs as [|c cs IH]; intros Hcs; simpl.
  { exists []. split_and!; [done..|constructor]. }
  destruct (Hcs c ltac:(left)) as [cn Hc]. rewrite (get_node_live _ _ _ Hc). simpl.
  destruct IH as (keys & E & Hk & Hf); [intros; apply Hcs; by right|]. rewrite E. simpl.
  eexists. split; [done|]. split; [by rewrite fmap_cons, Hk|]. constructor; [|done].
  unfold sibling_key. simpl. by rewrite Hc.
Qed.

(** What the sort of the siblings yields. *)
Lemma best_of_many t cs :
  (forall c, c ∈ cs -> exists n, heap t !! c = Some n /\ 0 < branch_support n <= u32_max) ->
  (2 <= length cs)%nat ->
  exists b margin, best_child t cs = Ok (Some (b, margin)) /\ leads (heap t) cs b margin.
Proof.
  intros Hcs Hlen. destruct (child_keys_spec t cs) as (keys & E & Hk & Hf).
  { intros c Hc. destruct (Hcs c Hc) as (n & -> & _). eauto. }
  assert (best_child t cs = match sort_by key_desc keys with
      | (first, (b1, id1)) :: (second, (b2, id2)) :: _ =>
          mret (Some (first, if ord_ltb id2 id1 then wrap_u32 (wrap_u32 (b1 - b2) + 1)
            else wrap_u32 (b1 - b2)))
      | _ => Panic
      end) as ->.
  { destruct cs as [|c1 [|c2 cs]]; [simpl in Hlen; lia..|]. unfold best_child. by rewrite E. }
  pose proof (sort_by_perm key_desc keys) as Hperm. pose proof (sort_by_sorted key_desc) as Hsort.
  specialize (Hsort (fun x y => ord_leb_total y.2 x.2)
    (fun x y z Hxy Hyz => ord_leb_trans z.2 y.2 x.2 Hyz Hxy) keys).
  assert (length (sort_by key_desc keys) = length cs) as Hl by (by rewrite Hperm, <- Hk, length_fmap).
  destruct (sort_by key_desc keys) as [|[b [bs id]] [|[c [bs' id']] sk]] eqn:Es; [simpl in Hl; lia..|].
  rewrite <- Hperm in Hf. pose proof Hf as [Hb [Hc Hsk]%Forall_cons]%Forall_cons. simpl in Hb, Hc.
  apply StronglySorted_inv in Hsort as [Hs1 Hall1]. apply StronglySorted_inv in Hs1 as [_ Hall2].
  apply Forall_cons in Hall1 as [Hbc _].
  assert (cs ≡ₚ b :: c :: sk.*1) as Hcs' by (by rewrite <- Hk, <- Hperm).
  destruct (Hcs b) as (bn & Hbn & Hbr); [rewrite Hcs'; left|].
  destruct (Hcs c) as (cn & Hcn & Hcr); [rewrite Hcs'; right; left|].
  unfold sibling_key in Hb, Hc. rewrite Hbn in Hb. rewrite Hcn in Hc. injection Hb as <- <-. injection Hc as <- <-.
  assert (branch_support cn <= branch_support bn) as Hle.
  { revert Hbc. unfold key_desc, ord_leb, ord_ltb, pair_ord, ord_ltb, Z_ord. simpl.
    rewrite negb_true_iff, orb_false_iff, Z.ltb_ge. by intros [? _]. }
  eexists _, _. split; [reflexivity|]. exists (branch_support bn), (start_id (span bn)).
  split; [unfold sibling_key; by rewrite Hbn|]. right.
  exists c, sk.*1, (branch_support cn), (start_id (span cn)). split_and!.
  - done.
  - unfold sibling_key. by rewrite Hcn.
  - exact Hbc.
  - intros d k (e & -> & He)%list_elem_of_fmap Hd.
    pose proof (proj1 (Forall_forall _ _) Hsk e He) as He'. simpl in He'. rewrite He' in Hd. injection Hd as <-.
    exact (proj1 (Forall_forall _ _) Hall2 e He).
  - rewrite (wrap_u32_id (_ - _)) by machine. destruct (ord_ltb _ _); [rewrite wrap_u32_id by machine|]; lia.
Qed.

Lemma best_child_spec t i n :
  trie_ok t -> heap t !! i = Some n ->
  exists o, best_child t (children n) = Ok o /\
    match o with
    | Some (b, margin) => b ∈ children n /\ leads (heap t) (children n) b margin
    | None => children n = []
    end.
Proof.
  intros Ht Hi. pose proof (tk_heap _ _ Ht) as H.
  assert (forall c, c ∈ children n -> exists cn, heap t !! c = Some cn /\ 0 < branch_support cn <= u32_max) as Hcs.
  { intros c Hc. destruct (child_start valid _ _ _ _ H Hi Hc) as (cn & Hcn & _ & _ & _ & Hr).
    exists cn. split; [done|]. split; [by apply (branch_pos t c cn)|].
    apply (s_pos _ _ (tk_support _ _ Ht) c cn Hcn). }
  destruct (children n) as [|c1 [|c2 cs]] eqn:Ec.
  - by exists None.
  - destruct (Hcs c1 ltac:(left)) as (cn & Hc & _). simpl. rewrite (get_node_live _ _ _ Hc). simpl.
    eexists. split; [done|]. split; [left|]. eexists _, _. unfold sibling_key. rewrite Hc. split; [done|]. by left.
  - destruct (best_of_many t (c1 :: c2 :: cs) Hcs ltac:(simpl; lia)) as (b & margin & E & Hl).
    exists (Some (b, margin)). split; [done|]. split; [|done].
    destruct Hl as (bs & id & _ & [[? _]|(c & cs' & bs' & id' & Hp & _)]); [done|]. rewrite Hp. left.
Qed.

Lemma span_before_tip n next :
  start (span n) < next < end_ (span n) -> 0 <= start (span n) -> end_ (span n) <= u32_max ->
  span_tip <$> span_before (span n) next = Some (tip_of n (next - 1)).
Proof.
  intros. unfold span_before, span_sub, span_clamp.
  rewrite (proj2 (Z.ltb_lt _ _)) by lia. simpl. unfold span_tip, tip_of. simpl.
  replace (next `max` start (span n) `min` end_ (span n)) with next by lia. by rewrite wrap_u32_id by machine.
Qed.

Lemma preferred_loop_spec fuel t largest curr n a :
  let iter := btree_iter (seq_support t) in
  trie_ok t -> heap t !! curr = Some n -> a <= Z.max (start (span n) + 1) largest ->
  (above (heap t) (start (span n)) <= fuel)%nat ->
  exists tip, preferred_loop fuel t largest curr (read iter a) (unread iter a) = Ok (Some tip)
    /\ prefers (heap t) largest curr tip.
Proof.
  intros iter Ht. pose proof (tk_heap _ _ Ht) as H. pose proof (btree_iter_strict (seq_support t)) as Hsorted.
  fold iter in Hsorted.
  assert (forall q, read iter (Z.max q largest) = uncommitted (heap t) largest q) as Hread
    by (intros q; apply read_uncommitted; [apply Ht|intros; by apply (node_tips t i)]).
  assert (forall b, 0 <= read iter b <= u32_max) as Hrange.
  { intros b. unfold iter. rewrite <- (Z.max_id b), (read_uncommitted (heap t)).
    - by apply uncommitted_range. - apply Ht. - intros; by apply (node_tips t i). }
  revert curr n a. induction fuel as [|fuel IH]; intros curr n a Hcurr Ha Hf.
  { pose proof (above_pos (heap t) curr n Hcurr). lia. }
  destruct (h_span _ _ H _ _ Hcurr) as [Hv Hne He]. pose proof (seq_range _ Hv).
  simpl. rewrite (get_node_live _ _ _ Hcurr). simpl. rewrite (wrap_u32_id (start _ + 1)) by machine.
  rewrite take_uncommitted_eq by done.
  destruct (advance_eq iter Hsorted Hrange largest (start (span n) + 1) (end_ (span n)) (branch_support n))
    as (next & -> & Hn & Hlt & Hst); [lia|machine|].
  assert (forall q, start (span n) < q < next -> uncommitted (heap t) largest q < branch_support n) as Hcarry.
  { intros q Hq. rewrite <- Hread. apply Hlt. lia. }
  assert (span_tip (span n) = tip_of n (end_ (span n) - 1)) as Htip.
  { unfold span_tip, tip_of. by rewrite wrap_u32_id by machine. }
  destruct (Z.ltb_spec next (end_ (span n))).
  - rewrite span_before_tip by machine. eexists. split; [done|].
    apply prefers_inside; [done|lia|done|]. rewrite <- Hread. by apply Hst.
  - assert (next = end_ (span n)) as -> by lia.
    rewrite (live_children_ok valid _ _ _ H Hcurr). simpl. rewrite Hread.
    destruct (best_child_spec t curr n Ht Hcurr) as (o & -> & Ho). simpl.
    destruct o as [[b margin]|].
    2:{ rewrite Htip. eexists. split; [done|]. apply prefers_end; [done|done|by left]. }
    destruct Ho as [Hb Hl]. set (u := uncommitted (heap t) largest (end_ (span n))) in *.
    destruct (Z.ltb_spec u margin), (Z.eqb_spec u 0); simpl.
    1-3: destruct (child_start valid _ _ _ _ H Hcurr Hb) as (bn & Hbn & _ & Hbst & Hblt & _);
      destruct (IH b bn (Z.max (end_ (span n)) largest) Hbn) as (tip & E & Hp);
      [lia|pose proof (above_lt (heap t) curr n (start (span bn)) Hcurr Hblt); lia|];
      rewrite Hread in E; exists tip; split; [exact E|];
      eapply prefers_child; [done|done|exact Hl|fold u; lia|done].
    rewrite Htip. eexists. split; [done|]. apply prefers_end; [done|done|]. right. exists b, margin.
    split; [done|]. fold u. lia.
Qed.

Lemma get_preferred_ok t largest :
  trie_ok t ->
  exists o, get_preferred t largest = Ok o /\
    match o with
    | None => total_support (heap t) = 0
    | Some tip => 0 < total_support (heap t) /\ prefers (heap t) largest ROOT tip
    end.
Proof.
  intros Ht. pose proof (trie_total_bound valid t Ht) as Hb. pose proof Ht as [Har H Hs _ _].
  destruct (h_root _ _ H) as (r & Hr & _). pose proof (s_total _ _ Hs) as Htot.
  unfold branch_at in Htot. rewrite Hr in Htot. simpl in Htot.
  unfold get_preferred, is_empty. rewrite (get_node_live _ _ _ Hr). simpl.
  destruct (Z.eqb_spec (branch_support r) 0); [exists None; split; [done|lia]|].
  destruct (cursor_start (btree_iter (seq_support t)) (Z.max (start (span r) + 1) largest))
    as (a & Ha & H0 & Hall).
  destruct (preferred_loop_spec (length (nodes t)) t largest ROOT r a) as (tip & E & Hp);
    [done|done|done|apply above_bound|].
  rewrite H0, Hall in E. rewrite E. eexists. split; [done|]. split; [lia|done].
Qed.

(** *** The specification names one ledger

    Siblings differ in the id they start with, so there is only one order of them. *)
Definition siblings_distinct h : Prop :=
  forall i n c d, h !! i = Some n -> c ∈ children n -> d ∈ children n ->
    sibling_key h c = sibling_key h d -> c = d.

Lemma ord_leb_antisym {A} `{TotalOrdLaws A} (a b : A) :
  ord_leb a b = true -> ord_leb b a = true -> a = b.
Proof. unfold ord_leb. rewrite !negb_true_iff. intros H1 H2. by apply ord_total. Qed.

(** Two first elements of one list are the same. *)
Lemma first_unique h (b b' : nat) (k k' : Z * Id) cs cs' :
  b :: cs ≡ₚ b' :: cs' -> sibling_key h b = Some k -> sibling_key h b' = Some k' ->
  (forall d x, d ∈ cs -> sibling_key h d = Some x -> ord_leb x k = true) ->
  (forall d x, d ∈ cs' -> sibling_key h d = Some x -> ord_leb x k' = true) ->
  (forall c d, c ∈ b :: cs -> d ∈ b :: cs -> sibling_key h c = sibling_key h d -> c = d) -> b = b'.
Proof.
  intros Hp Hb Hb' Hmax Hmax' Hd. destruct (decide (b = b')) as [->|Hne]; [done|].
  assert (b' ∈ cs) as H1. { assert (b' ∈ b :: cs) as Hin by (rewrite Hp; left). set_solver. }
  assert (b ∈ cs') as H2. { assert (b ∈ b' :: cs') as Hin by (rewrite <- Hp; left). set_solver. }
  apply Hd; [left|by right|]. rewrite Hb, Hb'. f_equal.
  apply ord_leb_antisym; [by apply (Hmax' b)|by apply (Hmax b')].
Qed.

Lemma leads_unique h cs b m b' m' :
  leads h cs b m -> leads h cs b' m' ->
  (forall c d, c ∈ cs -> d ∈ cs -> sibling_key h c = sibling_key h d -> c = d) -> b = b' /\ m = m'.
Proof.
  intros (bs & id & Hb & Hc) (bs' & id' & Hb' & Hc') Hd.
  destruct Hc as [[-> ->]|(c & l & cs1 & ci & Hp & Hck & Hcb & Hl & ->)],
    Hc' as [[E ->]|(c' & l' & cs1' & ci' & Hp' & Hck' & Hcb' & Hl' & ->)].
  - injection E as <-. split; congruence.
  - by apply Permutation_length in Hp'.
  - subst cs. by apply Permutation_length in Hp.
  - assert (forall d x, d ∈ c :: l -> sibling_key h d = Some x -> ord_leb x (bs, id) = true) as Hm.
    { intros d x [->|Hin]%elem_of_cons Hx; [by simplify_eq|].
      by eapply ord_leb_trans; [by eapply Hl|]. }
    assert (forall d x, d ∈ c' :: l' -> sibling_key h d = Some x -> ord_leb x (bs', id') = true) as Hm'.
    { intros d x [->|Hin]%elem_of_cons Hx; [by simplify_eq|].
      by eapply ord_leb_trans; [by eapply Hl'|]. }
    assert (b = b') as <-.
    { apply (first_unique h b b' (bs, id) (bs', id') (c :: l) (c' :: l')); [|done..|].
      - by rewrite <- Hp, <- Hp'. - intros x y. rewrite <- Hp. apply Hd. }
    assert (c :: l ≡ₚ c' :: l') as Hq by (apply (Permutation_cons_inv (a := b)); by rewrite <- Hp, <- Hp').
    assert (c = c') as <-.
    { apply (first_unique h c c' (cs1, ci) (cs1', ci') l l'); try done.
      intros x y Hx Hy. apply Hd; rewrite Hp; by right. }
    split; [done|]. rewrite Hb in Hb'. rewrite Hck in Hck'. by simplify_eq.
Qed.

Lemma prefers_unique h largest i tip tip' :
  siblings_distinct h -> prefers h largest i tip -> prefers h largest i tip' -> tip = tip'.
Proof.
  intros Hd Hp. revert tip'.
  induction Hp as [i n q Hi Hq Hlt Hge|i n Hi Hall Hstop|i n b m tip Hi Hall Hl Hgo Hp IH]; intros tip' Hp'.
  - destruct Hp' as [i n' q' Hi' Hq' Hlt' Hge'|i n' Hi' Hall' Hstop'|i n' b' m' tip' Hi' Hall' Hl' Hgo' Hp'];
      simplify_eq.
    + assert (q = q') as ->; [|done]. destruct (Z.lt_trichotomy q q') as [?|[?|?]]; [|done|].
      * specialize (Hlt' q). lia. * specialize (Hlt q'). lia.
    + specialize (Hall' q Hq). lia.
    + specialize (Hall' q Hq). lia.
  - destruct Hp' as [i n' q' Hi' Hq' Hlt' Hge'|i n' Hi' Hall' Hstop'|i n' b' m' tip' Hi' Hall' Hl' Hgo' Hp'];
      simplify_eq; [specialize (Hall q' Hq'); lia|done|].
    exfalso. destruct Hstop as [E|(b & m & Hl & Hm & Hz)].
    + destruct Hl' as (? & ? & _ & [[? _]|(? & ? & ? & ? & Hpm & _)]); [congruence|].
      rewrite E in Hpm. by apply Permutation_nil_l in Hpm.
    + destruct (leads_unique _ _ _ _ _ _ Hl Hl') as [-> ->]; [by intros ? ? ? ?; eapply (Hd i)|]. lia.
  - destruct Hp' as [i n' q' Hi' Hq' Hlt' Hge'|i n' Hi' Hall' Hstop'|i n' b' m' tip' Hi' Hall' Hl' Hgo' Hp'];
      simplify_eq; [specialize (Hall q' Hq'); lia| |].
    + exfalso. destruct Hstop' as [E|(b' & m' & Hl' & Hm & Hz)].
      * destruct Hl as (? & ? & _ & [[? _]|(? & ? & ? & ? & Hpm & _)]); [congruence|].
        rewrite E in Hpm. by apply Permutation_nil_l in Hpm.
      * destruct (leads_unique _ _ _ _ _ _ Hl Hl') as [-> ->]; [by intros ? ? ? ?; eapply (Hd i)|]. lia.
    + destruct (leads_unique _ _ _ _ _ _ Hl Hl') as [-> ->]; [by intros ? ? ? ?; eapply (Hd i)|]. by apply IH.
Qed.
End Preferred.
