(* ===== verification/TrieTheorems.v ===== *)
(** * Theorems on the ledger trie

    What the operations of [LedgerTrie] guarantee, from the empty trie through
    any sequence of insertions and removals, for every ledger type that obeys
    [TrieLedgerLaws]; the witnesses run the code on [RclValidatedLedger]. *)

From S2P Require Import Prelude LedgerTrie TrieInvariant RclLedger TrieInsert TrieRemove.
From S2P Require Import TriePrefix TrieQuery.

Section Theorems.
Context {L Id : Type} `{!TrieLedger L Id} `{!EqDecision Id} `{!TotalOrd Id} `{!TotalOrdLaws Id}.
Context (valid : L -> Prop) `{!TrieLedgerLaws L Id valid}.
Implicit Types t : LedgerTrie L.
Implicit Types n : Node L.

(** ** Sequences of operations *)

Inductive trie_op :=
| InsertOp (l : L) (count : Z)
| RemoveOp (id : Id) (s count : Z).

Definition run_op (op : trie_op) t : outcome (LedgerTrie L) :=
  match op with
  | InsertOp l count => insert l count t
  | RemoveOp id s count => '(t', _) ← remove id s count t; mret t'
  end.

(** The id [x] only ever names a ledger of sequence [s]. *)
Definition names_seq (x : Id) (s : Z) : Prop :=
  forall l q, valid l -> 0 <= q <= seq l -> ancestor l q = x -> q = s.

(** What a caller owes: ledgers of the type, positive counts, total support
    within [u32], and for a removal the sequence that belongs to the id. *)
Definition op_ok t (op : trie_op) : Prop :=
  match op with
  | InsertOp l count => valid l /\ 0 < count /\ total_support (heap t) + count <= u32_max
  | RemoveOp id s count => 0 <= count /\ names_seq id s
  end.

Inductive trie_reachable : LedgerTrie L -> Prop :=
| reach_new : trie_reachable trie_new
| reach_step t op t' :
    trie_reachable t -> op_ok t op -> run_op op t = Ok t' -> trie_reachable t'.

Lemma trie_new_heap : heap (trie_new (L := L)) = {[ROOT := node_root]}.
Proof.
  apply map_eq. intros i. apply option_eq. intros n. rewrite heap_lookup.
  rewrite lookup_singleton_Some. unfold trie_new. simpl. destruct i; simpl; naive_solver.
Qed.

Lemma trie_new_ok : trie_ok valid trie_new.
Proof.
  assert (forall i n, heap (trie_new (L := L)) !! i = Some n -> i = ROOT /\ n = node_root) as Hlk.
  { intros i n. rewrite trie_new_heap, lookup_singleton_Some. naive_solver. }
  assert (forall f, msum f (heap (trie_new (L := L))) = f node_root) as Hsum.
  { intros f. rewrite trie_new_heap, <- insert_empty, msum_insert_new by done.
    rewrite msum_empty. lia. }
  assert (span_ok valid span_genesis) as Hsp.
  { rewrite (span_genesis_eq valid). pose proof (genesis_valid (valid := valid)).
    pose proof (genesis_seq (valid := valid)). split; simpl; [done | lia | lia]. }
  split.
  - split; [constructor|]. intros i. simpl. split; [by intros ?%elem_of_nil|].
    intros (n & [-> <-]%list_lookup_singleton_Some & ?). done.
  - split.
    + exists node_root. by rewrite trie_new_heap, lookup_singleton_eq.
    + intros i n [-> ->]%Hlk. done.
    + intros i n c [-> ->]%Hlk Hc. by apply elem_of_nil in Hc.
    + intros i n [-> ->]%Hlk. apply NoDup_nil_2.
    + intros i n [-> ->]%Hlk. done.
    + intros i n [-> ->]%Hlk. done.
  - split.
    + intros i n [-> ->]%Hlk. done.
    + intros i n [-> ->]%Hlk. done.
    + intros i n [-> ->]%Hlk. simpl. machine.
    + unfold total_support, branch_at. rewrite Hsum, trie_new_heap. done.
  - intros s. unfold tips_at_seq. rewrite Hsum. simpl. case_decide; by rewrite lookup_empty.
  - intros i n [-> ->]%Hlk. done.
Qed.

(** An id that names one sequence is the tip of nodes that end there. *)
Lemma names_seq_nodes t id s :
  trie_ok valid t -> names_seq id s ->
  forall i n, heap t !! i = Some n -> tip_id (span_tip (span n)) = id -> end_ (span n) - 1 = s.
Proof.
  intros [_ H _ _ _] Hn i n Hi Hid. destruct (h_span _ _ H _ _ Hi) as [Hv Hne He].
  pose proof (seq_range _ Hv). simpl in Hid. rewrite wrap_u32_id in Hid by machine.
  apply (Hn (ledger (span n))); [done | lia | done].
Qed.

Lemma run_op_ok t op :
  trie_ok valid t -> op_ok t op -> exists t', run_op op t = Ok t' /\ trie_ok valid t'.
Proof.
  intros Ht Hop. destruct op as [l count|id s count]; simpl in *.
  - destruct Hop as (Hv & Hc & Htot).
    destruct (insert_ok valid t l count Ht Hv Hc Htot) as (t' & E & Ht' & _). eauto.
  - destruct Hop as [Hc Hn].
    destruct (remove_ok valid t id s count Ht Hc) as (t' & r & b & E & Ht' & _).
    { by apply names_seq_nodes. }
    exists t'. by rewrite E.
Qed.

Lemma reachable_trie_ok t : trie_reachable t -> trie_ok valid t.
Proof.
  induction 1 as [|t op t' _ IH Hop E]; [apply trie_new_ok|].
  destruct (run_op_ok t op IH Hop) as (t'' & E' & Ht''). congruence.
Qed.

(** the trie is safe to use: from the empty trie, through any sequence of
    insertions and removals that keeps the total support within [u32], no
    operation panics or loops, and the code's own [check_invariants] accepts
    every state in between (links, sums of branch supports, counts by sequence
    and compression). *)
Theorem trie_always_consistent t op :
  trie_reachable t -> op_ok t op ->
  exists t', run_op op t = Ok t' /\ trie_reachable t' /\ check_invariants t' = Ok true.
Proof.
  intros Hr Hop. pose proof (reachable_trie_ok t Hr) as Ht.
  destruct (run_op_ok t op Ht Hop) as (t' & E & Ht'). exists t'. split_and!; [done | |].
  - by eapply reach_step.
  - by apply (check_invariants_ok valid).
Qed.

(** inserting a ledger records exactly its support: the support of the
    ledger's own id grows by [count], the support of every other id and the
    shape invariant are unchanged, and the total grows by [count]. *)
Theorem insert_spec t l count :
  trie_ok valid t -> valid l -> 0 < count -> total_support (heap t) + count <= u32_max ->
  exists t', insert l count t = Ok t' /\ trie_ok valid t'
    /\ total_support (heap t') = total_support (heap t) + count
    /\ forall x, tips_at x (heap t') = tips_at x (heap t)
         + if decide (ancestor l (seq l) = x) then count else 0.
Proof.
  intros Ht Hl Hc Htot. destruct (insert_ok valid t l count) as (t' & ? & ? & ? & ? & _); eauto 10.
Qed.

(** C36: the preferred ledger. There is none exactly when the trie holds no support.
    Otherwise it is the end of this walk from the root ([prefers]). Call uncommitted, at a
    sequence, the support of the ledgers before it or before the largest sequence this
    node has validated. Along the span of a node the walk stops before the first sequence
    at which the uncommitted support is no less than the node's branch support. Past the
    span it takes the child with the greatest branch support, the greater start id at a
    tie, but only if its margin over the next child (one more if it would win a tie; its
    whole branch support if it is alone) exceeds the uncommitted support at the end of the
    span, or that is zero; otherwise, and without children, the node's own ledger is
    preferred. When no two siblings have the same support and start id, no other ledger
    satisfies this. *)
Theorem get_preferred_spec t largest :
  trie_ok valid t ->
  exists o, get_preferred t largest = Ok o /\
    match o with
    | None => total_support (heap t) = 0
    | Some tip => 0 < total_support (heap t) /\ prefers (heap t) largest ROOT tip
        /\ (siblings_distinct (heap t) -> forall tip', prefers (heap t) largest ROOT tip' -> tip' = tip)
    end.
Proof.
  intros Ht. destruct (get_preferred_ok valid t largest Ht) as ([tip|] & E & Ho); [|by eexists].
  destruct Ho as [Hpos Hp]. eexists. split; [exact E|]. split_and!; [done..|].
  intros Hd tip' Hp'. by eapply prefers_unique.
Qed.
End Theorems.

(** ** Refinement of a table of supports

    With known histories the trie implements a table from ledger id to support:
    an insertion adds to the entry of the ledger, a removal takes away at most
    what the entry holds and says whether it held anything. *)

Section Refinement.
Context {L Id : Type} `{!TrieLedger L Id} `{!EqDecision Id} `{!TotalOrd Id} `{!TotalOrdLaws Id}.
Context (base : Z) (valid : L -> Prop) `{!HistoryLaws L Id base valid}.
Implicit Types t : LedgerTrie L.

(** Where ids are known, [x] only names a ledger of sequence [s]. *)
Definition names_tip (x : Id) (s : Z) : Prop :=
  forall l q, valid l -> anchored base q -> q <= seq l -> ancestor l q = x -> q = s.

Lemma names_tip_nodes t id s :
  trie_ok valid t -> prefix_ok base (heap t) -> names_tip id s ->
  forall i n, heap t !! i = Some n -> tip_id (span_tip (span n)) = id -> end_ (span n) - 1 = s.
Proof.
  intros [_ H _ _ _] Hx Hn i n Hi Hid. destruct (h_span _ _ H _ _ Hi) as [Hv Hne He].
  pose proof (seq_range _ Hv). simpl in Hid. rewrite wrap_u32_id in Hid by machine.
  apply (Hn (ledger (span n))); [done | by eapply px_end | lia | done].
Qed.

Lemma names_own_tip l : valid l -> names_tip (ancestor l (seq l)) (seq l).
Proof.
  intros Hl l' q Hl' Ha Hq Heq. apply (history_seq (base := base) (valid := valid) l' l); try done.
  by apply (seq_anchored (valid := valid)).
Qed.

Definition support_table : Type := Id -> Z.

Definition table_insert (x : Id) (count : Z) (s : support_table) : support_table :=
  fun y => s y + if decide (x = y) then count else 0.
Definition table_remove (x : Id) (count : Z) (s : support_table) : support_table :=
  fun y => s y - if decide (x = y) then Z.min count (s x) else 0.

(** The trie [t] holds the table [s]. *)
Record implements t (s : support_table) : Prop := {
  im_trie : trie_ok valid t;
  im_prefix : prefix_ok base (heap t);
  im_table : forall x, tips_at x (heap t) = s x
}.

Lemma implements_new : implements trie_new (fun _ => 0).
Proof.
  split.
  - apply (trie_new_ok valid).
  - assert (forall i n, heap (trie_new (L := L)) !! i = Some n -> n = node_root) as Hlk.
    { intros i n. rewrite trie_new_heap, lookup_singleton_Some. naive_solver. }
    split.
    + intros i n c cn q ->%Hlk Hc. by apply elem_of_nil in Hc.
    + intros i n c cn c' cn' ->%Hlk Hc. by apply elem_of_nil in Hc.
    + intros i n ->%Hlk. simpl. rewrite (genesis_seq (valid := valid)). by left.
  - intros x. unfold tips_at. rewrite trie_new_heap, <- insert_empty, msum_insert_new by done.
    rewrite msum_empty. simpl. by case_decide.
Qed.

Lemma implements_insert t s l count :
  implements t s -> valid l -> 0 < count -> total_support (heap t) + count <= u32_max ->
  exists t', insert l count t = Ok t' /\ implements t' (table_insert (ancestor l (seq l)) count s)
    /\ total_support (heap t') = total_support (heap t) + count.
Proof.
  intros [Ht Hx Hs] Hl Hc Htot.
  destruct (insert_ok valid t l count Ht Hl Hc Htot) as (t' & E & Ht' & Htot' & Htips & HP).
  exists t'. split; [done|]. split; [|done]. split; [done | |].
  - apply (HP (prefix_ok base)); [by apply prefix_insert_closed | done].
  - intros x. unfold table_insert. by rewrite Htips, Hs.
Qed.

Lemma table_nonneg t s x : implements t s -> 0 <= s x.
Proof.
  intros [Ht _ <-]. apply msum_nonneg. intros i n Hi.
  pose proof (s_tip _ _ (tk_support _ _ Ht) _ _ Hi). case_decide; lia.
Qed.

Lemma implements_remove t s x q count :
  implements t s -> 0 <= count -> names_tip x q ->
  exists t', remove x q count t = Ok (t', negb (s x =? 0))
    /\ implements t' (table_remove x count s)
    /\ total_support (heap t') = total_support (heap t) - Z.min count (s x).
Proof.
  intros Him Hc Hn. pose proof Him as [Ht Hx Hs]. pose proof (tk_heap _ _ Ht) as H.
  destruct (remove_ok valid t x q count Ht Hc) as (t' & r & b & E & Ht' & Hb & Htot & Htips & HP).
  { by apply names_tip_nodes. }
  pose proof (HP (prefix_ok base) (prefix_remove_closed base valid) Hx) as Hx'.
  assert (b = negb (s x =? 0) /\ r = Z.min count (s x)) as [-> ->].
  { destruct b.
    - destruct Hb as (i & n & Hi & Hid & Hpos & ->).
      rewrite <- (Hs x), (tips_at_node base valid _ i n) by done.
      rewrite (proj2 (Z.eqb_neq _ _)) by lia. done.
    - destruct Hb as (-> & -> & Hzero). assert (s x = 0) as ->; [|split; [done|lia]].
      rewrite <- (Hs x). destruct (find_by_ledger_id t x) as [i|] eqn:Ef;
        pose proof (find_by_ledger_id_spec t x) as Hf; rewrite Ef in Hf.
      + destruct Hf as (n & Hi & Hid). destruct (Hzero i n Hi Hid) as (j & m & Hj & Hid' & Ht0).
        by rewrite (tips_at_node base valid _ j m).
      + by apply tips_at_absent. }
  exists t'. split; [done|]. split; [|done]. split; [done | done |].
  intros y. unfold table_remove. by rewrite Htips, Hs.
Qed.

Lemma implements_query t s x :
  implements t s -> trie_tip_support t x = Ok (s x).
Proof.
  intros [Ht Hx Hs]. unfold trie_tip_support. pose proof (find_by_ledger_id_spec t x) as Hf.
  destruct (find_by_ledger_id t x) as [i|].
  - destruct Hf as (n & Hi & Hid). rewrite (get_node_live _ _ _ Hi). simpl.
    rewrite <- (Hs x). by rewrite (tips_at_node base valid _ i n) by (done || apply Ht).
  - rewrite <- (Hs x). by rewrite tips_at_absent.
Qed.

End Refinement.

(** C3: on ledgers that know their ancestry from a common sequence [base] on and
    share the ledger at [base] ([HistoryLaws]: the skip lists of the ledgers in
    play all reach back to one common ancestor), the trie refines the table of
    supports: from the empty trie, which holds no support, an insertion and a
    removal of the code run the table operation of the same name, the answer of
    [remove] says whether the id had support, and [tip_support] reads the table. *)
Theorem trie_refines_table {L Id : Type} `{!TrieLedger L Id, !EqDecision Id, !TotalOrd Id}
    `{!TotalOrdLaws Id} (base : Z) (valid : L -> Prop) t s l x q count :
  HistoryLaws L Id base valid ->
  implements base valid t s -> valid l -> 0 < count ->
  total_support (heap t) + count <= u32_max -> names_tip base valid x q ->
  (exists t', insert l count t = Ok t'
     /\ implements base valid t' (table_insert (ancestor l (seq l)) count s))
  /\ (exists t', remove x q count t = Ok (t', negb (s x =? 0))
       /\ implements base valid t' (table_remove x count s))
  /\ trie_tip_support t x = Ok (s x)
  /\ implements base valid trie_new (fun _ => 0).
Proof.
  intros Hlaws Him Hl Hc Htot Hn. split_and!.
  - destruct (implements_insert base valid t s l count Him Hl Hc Htot) as (t' & ? & ? & _). eauto.
  - destruct (implements_remove base valid t s x q count Him ltac:(lia) Hn) as (t' & ? & ? & _). eauto.
  - by apply (implements_query base valid).
  - by apply implements_new.
Qed.

(** ** Validated ledgers whose skip lists reach a common ancestor

    A validated ledger knows the last ancestors its skip list names, no more.
    The laws hold on any family of ledgers whose skip lists all reach back to
    one sequence and name the same ledger there. *)

Record skip_lists_reach (base : Z) (P : RclValidatedLedger -> Prop) : Prop := {
  sl_base : 1 <= base;
  sl_ledger : forall l, P l ->
    1 <= ledger_seq l < u32_max /\ Z.of_nat (length (ancestors l)) < ledger_seq l;
  sl_window : forall l, P l -> min_seq l <= base <= ledger_seq l;
  sl_common : forall a b, P a -> P b -> rcl_ancestor a base = rcl_ancestor b base;
  sl_nonzero : forall l s, P l -> base <= s <= ledger_seq l -> rcl_ancestor l s <> 0;
  sl_seq : forall a b s q, P a -> P b -> base <= s <= ledger_seq a -> base <= q <= ledger_seq b ->
    rcl_ancestor a s = rcl_ancestor b q -> s = q;
  sl_chain : forall a b s, P a -> P b -> base < s -> s <= ledger_seq a -> s <= ledger_seq b ->
    rcl_ancestor a s = rcl_ancestor b s -> rcl_ancestor a (s - 1) = rcl_ancestor b (s - 1)
}.

Section SkipLists.
Context (base : Z) (P : RclValidatedLedger -> Prop) (HP : skip_lists_reach base P).

Definition or_genesis (l : RclValidatedLedger) : Prop := l = rcl_genesis \/ P l.

Lemma or_genesis_valid l : or_genesis l -> rcl_valid l.
Proof using HP. intros [->|Hl]; [by left|]. right. by apply (sl_ledger _ _ HP). Qed.

Lemma or_genesis_above l s : or_genesis l -> base <= s <= ledger_seq l -> P l.
Proof using HP. pose proof (sl_base _ _ HP). intros [->|?] Hs; [simpl in *; lia | done]. Qed.

Lemma mismatch_with_genesis a b :
  or_genesis a -> or_genesis b -> a = rcl_genesis \/ b = rcl_genesis -> rcl_mismatch a b = 1.
Proof using HP.
  intros Ha%or_genesis_valid Hb%or_genesis_valid Hg.
  pose proof (rcl_mismatch_range a b Ha Hb). pose proof (rcl_valid_range a Ha).
  pose proof (rcl_valid_range b Hb). destruct Hg; subst; simpl in *; lia.
Qed.

(** Above the common ancestor the answer is where the loop of [mismatch] stops. *)
Lemma mismatch_above a b :
  P a -> P b -> exists r, rcl_mismatch a b = r + 1 /\ base <= r <= Z.min (ledger_seq a) (ledger_seq b)
    /\ rcl_ancestor a r = rcl_ancestor b r
    /\ forall s, r < s <= Z.min (ledger_seq a) (ledger_seq b) -> rcl_ancestor a s <> rcl_ancestor b s.
Proof using HP.
  intros Ha Hb. pose proof (sl_base _ _ HP). pose proof (sl_window _ _ HP a Ha).
  pose proof (sl_window _ _ HP b Hb). destruct (sl_ledger _ _ HP a Ha) as [Hra _].
  unfold rcl_mismatch. cbn zeta. set (lower := Z.max _ _). set (upper := Z.to_nat _).
  destruct (mismatch_loop_spec a b lower upper) as [Hskip Hstop].
  pose proof (mismatch_loop_le a b lower upper) as Hle. unfold upper in *. rewrite Z2Nat.id in * by lia.
  set (r := mismatch_loop _ _ _ _) in *.
  assert (base <= r) as Hr.
  { destruct (Z.le_gt_cases base r) as [?|Hlt]; [done|]. exfalso.
    destruct (Hskip base ltac:(lia)) as [_ Hne]. apply Hne. by apply (sl_common _ _ HP). }
  exists r. destruct (Z.ltb_spec r lower); [unfold lower in *; lia|].
  rewrite wrap_u32_id by machine. split_and!; [done | lia | lia | |].
  - destruct Hstop as [?|[?|?]]; [lia | lia | done].
  - intros s Hs. by apply Hskip.
Qed.

Lemma chain_above a b s q :
  P a -> P b -> base <= q <= s -> s <= ledger_seq a -> s <= ledger_seq b ->
  rcl_ancestor a s = rcl_ancestor b s -> rcl_ancestor a q = rcl_ancestor b q.
Proof using HP.
  intros Ha Hb Hq Hsa Hsb Heq. remember (Z.to_nat (s - q)) as k eqn:Hk.
  revert s Hq Hsa Hsb Heq Hk. induction k as [|k IH]; intros s Hq Hsa Hsb Heq Hk.
  - by replace q with s by lia.
  - apply (IH (s - 1)); [lia..| |lia]. apply (sl_chain _ _ HP a b s); try done. lia.
Qed.

#[global] Instance skip_list_laws : HistoryLaws RclValidatedLedger Z base or_genesis.
Proof using HP.
  pose proof (sl_base _ _ HP) as Hbase. split.
  - apply (laws_restrict rcl_valid or_genesis _ or_genesis_valid). by left.
  - done.
  - intros l [->|Hl]; [by left|]. right. by apply (sl_window _ _ HP l Hl).
  - intros a b Ha Hb. simpl. destruct Ha as [->|Ha]; [|destruct Hb as [->|Hb]].
    + left. rewrite mismatch_with_genesis; auto. by left.
    + left. rewrite mismatch_with_genesis; auto; by constructor.
    + destruct (mismatch_above a b Ha Hb) as (r & -> & ? & _). right. lia.
  - intros a b s Ha Hb Hs. simpl in *. destruct Ha as [->|Ha]; [|destruct Hb as [->|Hb]].
    + rewrite mismatch_with_genesis in Hs; auto; [lia | by left].
    + rewrite mismatch_with_genesis in Hs; auto; [lia | by right | by left].
    + destruct (mismatch_above a b Ha Hb) as (r & Er & ? & Heq & _).
      apply (chain_above a b r); try done; lia.
  - intros a b Ha Hb Hle. simpl in *. pose proof (rcl_valid_range _ (or_genesis_valid _ Ha)).
    pose proof (rcl_valid_range _ (or_genesis_valid _ Hb)).
    destruct Ha as [->|Ha]; [|destruct Hb as [->|Hb]].
    + rewrite mismatch_with_genesis in Hle; auto; [simpl in *; lia | by left].
    + rewrite mismatch_with_genesis in Hle; auto; [simpl in *; lia | by right | by left].
    + destruct (mismatch_above a b Ha Hb) as (r & Er & ? & _ & Hd). rewrite Er in *.
      split; [lia|]. apply Hd. lia.
  - intros a b s q Ha Hb Hq Hsa Hsb. simpl in *.
    apply (or_genesis_above _ s) in Ha; [|lia]. apply (or_genesis_above _ s) in Hb; [|lia].
    by apply chain_above.
  - intros a b s q Ha Hb Hs Hsa Hq Hqb Heq. simpl in *. destruct Hs as [->|Hs], Hq as [->|Hq].
    + done.
    + apply or_genesis_valid, rcl_ancestor_zero in Ha. rewrite Ha in Heq.
      apply (or_genesis_above _ q) in Hb; [|lia]. by destruct (sl_nonzero _ _ HP b q Hb).
    + apply or_genesis_valid, rcl_ancestor_zero in Hb. rewrite Hb in Heq.
      apply (or_genesis_above _ s) in Ha; [|lia]. by destruct (sl_nonzero _ _ HP a s Ha).
    + apply (or_genesis_above _ s) in Ha; [|lia]. apply (or_genesis_above _ q) in Hb; [|lia].
      by apply (sl_seq _ _ HP a b).
Qed.
End SkipLists.

(** ** Witnesses *)

Definition ledger_2 : RclValidatedLedger := mkRcl 12 2 [11].
Definition ledger_3 : RclValidatedLedger := mkRcl 13 3 [11; 12].
Definition ledger_3' : RclValidatedLedger := mkRcl 23 3 [11; 12].

Lemma ledger_2_valid : rcl_valid ledger_2.
Proof. right. simpl. split; machine. Qed.
Lemma ledger_3_valid : rcl_valid ledger_3.
Proof. right. simpl. split; machine. Qed.

(** Two siblings above a common parent, the second with more support. *)
Definition forked_trie : outcome (LedgerTrie RclValidatedLedger) :=
  t ← insert ledger_3 1 trie_new; insert ledger_3' 2 t.

Example forked_trie_prefers_the_heavier :
  (t ← forked_trie; get_preferred t 0) = Ok (Some (mkTip 3 23 ledger_3')).
Proof. vm_compute. reflexivity. Qed.

Example forked_trie_waits_for_uncommitted :
  (t ← forked_trie; t ← insert ledger_2 2 t; get_preferred t 3) = Ok (Some (mkTip 2 12 ledger_3)).
Proof. vm_compute. reflexivity. Qed.

Example forked_trie_branch_support :
  (t ← forked_trie; trie_branch_support t ledger_2) = Ok 3.
Proof. vm_compute. reflexivity. Qed.

Lemma forked_trie_ok t t' :
  forked_trie = Ok t -> insert ledger_2 2 t = Ok t' -> trie_ok rcl_valid t /\ trie_ok rcl_valid t'.
Proof.
  assert (rcl_valid ledger_3') as H3' by (right; simpl; split; machine).
  unfold forked_trie. intros (t1 & E1 & E)%bind_Ok E'.
  assert (total_support (heap (trie_new (L := RclValidatedLedger))) = 0) as T0 by reflexivity.
  destruct (insert_spec rcl_valid trie_new ledger_3 1 (trie_new_ok _) ledger_3_valid ltac:(lia))
    as (u1 & F1 & H1 & T1 & _); [rewrite T0; machine|].
  rewrite E1 in F1. injection F1 as <-.
  destruct (insert_spec rcl_valid t1 ledger_3' 2 H1 H3' ltac:(lia)) as (u2 & F2 & H2 & T2 & _); [machine|].
  rewrite E in F2. injection F2 as <-.
  destruct (insert_spec rcl_valid t ledger_2 2 H2 ledger_2_valid ltac:(lia)) as (u3 & F3 & H3 & _); [machine|].
  rewrite E' in F3. injection F3 as <-. done.
Qed.

Lemma trie_always_consistent_witness :
  exists t', insert ledger_2 1 trie_new = Ok t' /\ check_invariants t' = Ok true.
Proof.
  destruct (trie_always_consistent rcl_valid trie_new (InsertOp ledger_2 1)) as (t' & E & _ & C).
  - apply reach_new.
  - split_and!; [apply ledger_2_valid | lia | vm_compute; congruence].
  - exists t'. split; [exact E | exact C].
Defined.

Lemma insert_spec_witness :
  exists t', insert ledger_2 5 trie_new = Ok t' /\ tips_at 12 (heap t') = 5.
Proof.
  destruct (insert_spec rcl_valid trie_new ledger_2 5) as (t' & E & _ & _ & Ht).
  - exact (trie_new_ok rcl_valid).
  - apply ledger_2_valid.
  - lia.
  - vm_compute. congruence.
  - exists t'. split; [exact E|]. rewrite Ht. reflexivity.
Defined.

(** The ledgers of the refinement's witness: a chain and a fork at its end, the
    skip lists of different lengths, all reaching back to ledger 101. *)
Definition ledger_102 : RclValidatedLedger := mkRcl 1102 102 [1099; 1100; 1101].
Definition ledger_103 : RclValidatedLedger := mkRcl 1103 103 [1101; 1102].
Definition ledger_103' : RclValidatedLedger := mkRcl 2103 103 [1100; 1101; 1102].
Definition family : list RclValidatedLedger := [ledger_102; ledger_103; ledger_103'].
Definition known (l : RclValidatedLedger) : Prop := l ∈ family.

(** A decidable fact about two known ledgers and two sequences, by running it. *)
Lemma known_check (P : RclValidatedLedger -> RclValidatedLedger -> Z -> Z -> bool) :
  forallb (fun a => forallb (fun b => forallb (fun s => forallb (P a b s) [101; 102; 103])
    [101; 102; 103]) family) family = true ->
  forall a b s q, known a -> known b -> 101 <= s <= 103 -> 101 <= q <= 103 -> P a b s q = true.
Proof.
  intros HP a b s q Ha%list_elem_of_In Hb%list_elem_of_In Hs Hq.
  assert (forall z, 101 <= z <= 103 -> In z [101; 102; 103]) as Hz by (simpl; lia).
  rewrite forallb_forall in HP. specialize (HP a Ha). rewrite forallb_forall in HP.
  specialize (HP b Hb). rewrite forallb_forall in HP.
  specialize (HP s (Hz s Hs)). rewrite forallb_forall in HP. exact (HP q (Hz q Hq)).
Qed.

Lemma known_seq l : known l -> 102 <= ledger_seq l <= 103.
Proof. unfold known, family. rewrite !elem_of_cons, elem_of_nil. intros [->|[->|[->|[]]]]; simpl; lia. Qed.

Lemma known_reach : skip_lists_reach 101 known.
Proof.
  split.
  - done.
  - intros l Hl. unfold known, family in Hl. rewrite !elem_of_cons, elem_of_nil in Hl.
    destruct Hl as [->|[->|[->|[]]]]; simpl; machine.
  - intros l Hl. unfold known, family in Hl. rewrite !elem_of_cons, elem_of_nil in Hl.
    destruct Hl as [->|[->|[->|[]]]]; vm_compute; split; congruence.
  - intros a b Ha Hb. apply Z.eqb_eq.
    by apply (known_check (fun a b _ _ => rcl_ancestor a 101 =? rcl_ancestor b 101) eq_refl a b 101 101).
  - intros l s Hl Hs. pose proof (known_seq l Hl).
    pose proof (known_check (fun a _ s _ => implb (s <=? ledger_seq a)
      (negb (rcl_ancestor a s =? 0))) eq_refl l l s 101 Hl Hl ltac:(lia) ltac:(lia)) as Hc.
    cbv beta in Hc. rewrite (proj2 (Z.leb_le _ _)) in Hc by lia. by apply negb_true_iff, Z.eqb_neq in Hc.
  - intros a b s q Ha Hb Hs Hq Heq. pose proof (known_seq a Ha). pose proof (known_seq b Hb).
    pose proof (known_check (fun a b s q => implb ((s <=? ledger_seq a) && (q <=? ledger_seq b)
      && (rcl_ancestor a s =? rcl_ancestor b q)) (s =? q)) eq_refl a b s q Ha Hb ltac:(lia) ltac:(lia)) as Hc.
    cbv beta in Hc. rewrite Heq, Z.eqb_refl, !(proj2 (Z.leb_le _ _)) in Hc by lia. by apply Z.eqb_eq in Hc.
  - intros a b s Ha Hb Hs Hsa Hsb Heq. pose proof (known_seq a Ha).
    pose proof (known_check (fun a b s q => implb ((q =? s - 1) && (s <=? ledger_seq a)
      && (s <=? ledger_seq b) && (rcl_ancestor a s =? rcl_ancestor b s))
      (rcl_ancestor a q =? rcl_ancestor b q)) eq_refl a b s (s - 1) Ha Hb ltac:(lia) ltac:(lia)) as Hc.
    cbv beta in Hc. rewrite Heq, !Z.eqb_refl, !(proj2 (Z.leb_le _ _)) in Hc by lia. by apply Z.eqb_eq in Hc.
Qed.

#[global] Instance known_laws : HistoryLaws RclValidatedLedger Z 101 (or_genesis known).
Proof. exact (skip_list_laws 101 known known_reach). Qed.

Lemma family_known l : l ∈ family -> or_genesis known l.
Proof. by right. Qed.

Lemma known_names_1102 : names_tip 101 (or_genesis known) 1102 102.
Proof. exact (names_own_tip 101 (or_genesis known) ledger_102 (family_known _ ltac:(left))). Qed.

Lemma trie_refines_table_witness :
  exists t t', insert ledger_103' 5 trie_new = Ok t /\ remove 1102 102 3 t = Ok (t', false).
Proof.
  destruct (implements_insert 101 (or_genesis known) trie_new (fun _ => 0) ledger_103' 5)
    as (t & E & Him & Htot).
  - exact (implements_new 101 (or_genesis known)).
  - apply family_known. do 2 right. left.
  - lia.
  - vm_compute. congruence.
  - destruct (trie_refines_table 101 (or_genesis known) t (table_insert 2103 5 (fun _ => 0))
      ledger_102 1102 102 3) as (_ & (t' & Er & _) & _).
    + exact known_laws.
    + exact Him.
    + apply family_known. left.
    + lia.
    + rewrite Htot. vm_compute. congruence.
    + exact known_names_1102.
    + exists t, t'. split; [exact E | exact Er].
Defined.

(** The ledgers of one chain, each with a skip list of four hashes. *)
Definition short_skip_list (s : Z) : RclValidatedLedger :=
  mkRcl s s [s - 4; s - 3; s - 2; s - 1].

(** A ledger that lags so far behind that not all the others' skip lists reach it
    splits the support of a ledger: two validators hold ledger 18, the trie has
    it on two nodes and [tip_support] answers one. *)
Theorem lagging_ledger_splits_support :
  (t ← insert (short_skip_list 15) 1 trie_new;
   t ← insert (short_skip_list 20) 1 t;
   t ← insert (short_skip_list 18) 1 t;
   '(t, _) ← remove 15 15 1 t;
   t ← insert (short_skip_list 18) 1 t;
   n ← trie_tip_support t 18; mret (n, tips_at 18 (heap t))) = Ok (1, 2).
Proof. vm_compute. reflexivity. Qed.

(** Ledger 23 leads 13 by one and the tie: it is preferred. With two more validators on
    their parent, and this node already at sequence 3, the lead is not enough. *)
Lemma get_preferred_spec_witness :
  exists t t', forked_trie = Ok t /\ insert ledger_2 2 t = Ok t'
    /\ prefers (heap t) 0 ROOT (mkTip 3 23 ledger_3')
    /\ prefers (heap t') 3 ROOT (mkTip 2 12 ledger_3) /\ uncommitted (heap t') 3 3 = 2.
Proof.
  destruct forked_trie as [t| |] eqn:E; [|vm_compute in E; discriminate..].
  destruct (insert ledger_2 2 t) as [t'| |] eqn:E'.
  2, 3: vm_compute in E; injection E as <-; vm_compute in E'; discriminate.
  assert (trie_ok rcl_valid t /\ trie_ok rcl_valid t') as [Ht Ht'].
  { apply forked_trie_ok; done. }
  exists t, t'. split; [reflexivity|]. split; [exact E'|].
  destruct (get_preferred_spec rcl_valid t 0 Ht) as (o & Eo & Ho).
  destruct (get_preferred_spec rcl_valid t' 3 Ht') as (o' & Eo' & Ho').
  vm_compute in E. injection E as <-. vm_compute in E'. injection E' as <-.
  vm_compute in Eo. injection Eo as <-. vm_compute in Eo'. injection Eo' as <-.
  split; [apply Ho|]. split; [apply Ho'|]. vm_compute. reflexivity.
Defined.
