(* ===== verification/Validations.v ===== *)
(** * Current and recent validations: definitions

    [xrpld/consensus/src/rcl_support/validations.rs]: which validations are
    current, the increasing-sequence rule per validator, and the ledger trie fed
    with the last acquired ledger of every trusted validator.

    All state is behind one lock, so an operation is a function from the state
    to its result and the next state.  The adaptor belongs to the application:
    its calls are queries on a world [W] that they may change.  [Instant::now()]
    is an argument (nanoseconds); sequence numbers and network times are [u32]. *)

From S2P Require Import Prelude Chrono LedgerTrie.

(** ** Parameters *)

Record ValidationParms := mkVParms {
  validation_current_wall : Z;
  validation_current_local : Z;
  validation_current_early : Z;
  validation_set_expires : Z;
  validation_freshness : Z
}.

Definition default_validation_parms : ValidationParms := mkVParms
  (from_secs (5 * 60)) (from_secs (3 * 60)) (from_secs (3 * 60)) (from_secs (10 * 60))
  (from_secs 20).

(** ** [SeqEnforcer] *)

Record SeqEnforcer := mkEnforcer { se_seq : Z; se_when : option Z }.

Definition enforcer_default : SeqEnforcer := mkEnforcer 0 None.

Definition try_advance (now s : Z) (p : ValidationParms) (e : SeqEnforcer) : bool * SeqEnforcer :=
  let expired :=
    match se_when e with
    | Some when => when + validation_set_expires p <? now
    | None => false
    end in
  let e := if expired then mkEnforcer 0 (se_when e) else e in
  if s <=? se_seq e then (false, e) else (true, mkEnforcer s (Some now)).

Definition largest (e : SeqEnforcer) : Z := se_seq e.

(** ** [is_current] *)

Definition is_current (p : ValidationParms) (now sign_time seen_time : NetClockTimePoint) : bool :=
  let early := wrap_i64 (as_secs (validation_current_early p)) in
  let wall := wrap_i64 (as_secs (validation_current_wall p)) in
  let local := wrap_i64 (as_secs (validation_current_local p)) in
  (wrap_i64 (now - early) <? sign_time) && (sign_time <? wrap_i64 (now + wall))
  && ((seen_time =? net_clock_default) || (seen_time <? wrap_i64 (now + local))).

Inductive ValStatus := Current | Stale | BadSeq | Multiple | Conflicting.

(** ** [AgedMap] *)

Section AgedMap.
Context `{!HashOrder} {K V : Type} `{Countable K}.

Record AgedMap := mkAged { entries : gmap K V; last_touched : gmap K Z }.

Definition aged_new : AgedMap := mkAged ∅ ∅.

Definition touch (k : K) (now : Z) (m : AgedMap) : AgedMap :=
  mkAged (entries m) (<[k := now]> (last_touched m)).

(** [get_or_insert_with] followed by a write of the entry. *)
Definition aged_entry (k : K) (now : Z) (dflt : V) (m : AgedMap) : V * AgedMap :=
  let v := default dflt (entries m !! k) in
  (v, mkAged (<[k := v]> (entries m)) (<[k := now]> (last_touched m))).

Definition aged_get (k : K) (m : AgedMap) : option V := entries m !! k.

Definition aged_set (k : K) (v : V) (m : AgedMap) : AgedMap :=
  mkAged (<[k := v]> (entries m)) (last_touched m).

Definition aged_expire (now expires_after : Z) (keep : option (K -> bool)) (m : AgedMap)
    : AgedMap :=
  let m :=
    match keep with
    | Some keep =>
        foldl (fun m k => touch k now m) m
          (filter (fun k => keep k = true) ((hash_iter (entries m)).*1))
    | None => m
    end in
  let expired :=
    (filter (fun kt => expires_after <= saturating_duration_since now kt.2)
      (hash_iter (last_touched m))).*1 in
  foldl (fun m k => mkAged (delete k (entries m)) (delete k (last_touched m))) m expired.

Definition aged_len (m : AgedMap) : nat := size (entries m).
End AgedMap.
Arguments AgedMap K V {_ _}.

(** ** Validations and the adaptor *)

(** [ValidationT]: what the tracker reads of a validation. *)
Record Validation {Id NodeId NodeKey : Type} := mkVal {
  val_ledger_id : Id;
  val_seq : Z;
  sign_time : NetClockTimePoint;
  seen_time : NetClockTimePoint;
  key : NodeKey;
  trusted : bool;
  full : bool;
  node_id : NodeId;
  load_fee : option Z;
  cookie : Z
}.
Arguments Validation : clear implicits.
Arguments mkVal {_ _ _} _ _ _ _ _ _ _ _ _ _.

Class ValidationsAdaptor (W L Id : Type) := {
  adaptor_now : W -> NetClockTimePoint * W;
  acquire : W -> Id -> option L * W
}.

Section Validations.
Context `{!HashOrder} {W L Id NodeId NodeKey : Type}.
Context `{!TrieLedger L Id} `{!TotalOrd Id} `{Countable Id} `{Countable NodeId}
  `{Countable NodeKey} `{!ValidationsAdaptor W L Id}.

Abbreviation Val := (Validation Id NodeId NodeKey).

Definition set_trusted (v : Val) : Val :=
  mkVal (val_ledger_id v) (val_seq v) (sign_time v) (seen_time v) (key v) true (full v)
    (node_id v) (load_fee v) (cookie v).
Definition set_untrusted (v : Val) : Val :=
  mkVal (val_ledger_id v) (val_seq v) (sign_time v) (seen_time v) (key v) false (full v)
    (node_id v) (load_fee v) (cookie v).

(** [ValidationsLedger::id]. *)
Definition id (l : L) : Id := ancestor l (seq l).

(** ** State *)

Record ValidationRecoveryProvenance := mkProof {
  proof_key : Z * Id;
  proof_nodes : gset NodeId
}.

Record Inner := mkInner {
  current : gmap NodeId Val;
  local_seq_enforcer : SeqEnforcer;
  seq_enforcers : gmap NodeId SeqEnforcer;
  by_ledger : AgedMap Id (gmap NodeId Val);
  by_sequence : AgedMap Z (gmap NodeId Val);
  keep : option (Z * Z);
  next_keep_refresh : option Z;
  trie : LedgerTrie L;
  last_ledger : gmap NodeId L;
  acquiring : gmap (Z * Id) (gset NodeId);
  validation_recovery_anchor : option ValidationRecoveryProvenance;
  validation_recovery_candidate : option ValidationRecoveryProvenance
}.

Definition inner_new : Inner := mkInner ∅ enforcer_default ∅ aged_new aged_new None None
  trie_new ∅ ∅ None None.

Definition set_current c (s : Inner) : Inner := mkInner c (local_seq_enforcer s)
  (seq_enforcers s) (by_ledger s) (by_sequence s) (keep s) (next_keep_refresh s) (trie s)
  (last_ledger s) (acquiring s) (validation_recovery_anchor s) (validation_recovery_candidate s).
Definition set_local_enforcer e (s : Inner) : Inner := mkInner (current s) e
  (seq_enforcers s) (by_ledger s) (by_sequence s) (keep s) (next_keep_refresh s) (trie s)
  (last_ledger s) (acquiring s) (validation_recovery_anchor s) (validation_recovery_candidate s).
Definition set_enforcers e (s : Inner) : Inner := mkInner (current s) (local_seq_enforcer s)
  e (by_ledger s) (by_sequence s) (keep s) (next_keep_refresh s) (trie s)
  (last_ledger s) (acquiring s) (validation_recovery_anchor s) (validation_recovery_candidate s).
Definition set_by_ledger m (s : Inner) : Inner := mkInner (current s) (local_seq_enforcer s)
  (seq_enforcers s) m (by_sequence s) (keep s) (next_keep_refresh s) (trie s)
  (last_ledger s) (acquiring s) (validation_recovery_anchor s) (validation_recovery_candidate s).
Definition set_by_sequence m (s : Inner) : Inner := mkInner (current s) (local_seq_enforcer s)
  (seq_enforcers s) (by_ledger s) m (keep s) (next_keep_refresh s) (trie s)
  (last_ledger s) (acquiring s) (validation_recovery_anchor s) (validation_recovery_candidate s).
Definition set_keep k (s : Inner) : Inner := mkInner (current s) (local_seq_enforcer s)
  (seq_enforcers s) (by_ledger s) (by_sequence s) k (next_keep_refresh s) (trie s)
  (last_ledger s) (acquiring s) (validation_recovery_anchor s) (validation_recovery_candidate s).
Definition set_refresh r (s : Inner) : Inner := mkInner (current s) (local_seq_enforcer s)
  (seq_enforcers s) (by_ledger s) (by_sequence s) (keep s) r (trie s)
  (last_ledger s) (acquiring s) (validation_recovery_anchor s) (validation_recovery_candidate s).
Definition set_trie t (s : Inner) : Inner := mkInner (current s) (local_seq_enforcer s)
  (seq_enforcers s) (by_ledger s) (by_sequence s) (keep s) (next_keep_refresh s) t
  (last_ledger s) (acquiring s) (validation_recovery_anchor s) (validation_recovery_candidate s).
Definition set_last m (s : Inner) : Inner := mkInner (current s) (local_seq_enforcer s)
  (seq_enforcers s) (by_ledger s) (by_sequence s) (keep s) (next_keep_refresh s) (trie s)
  m (acquiring s) (validation_recovery_anchor s) (validation_recovery_candidate s).
Definition set_acquiring m (s : Inner) : Inner := mkInner (current s) (local_seq_enforcer s)
  (seq_enforcers s) (by_ledger s) (by_sequence s) (keep s) (next_keep_refresh s) (trie s)
  (last_ledger s) m (validation_recovery_anchor s) (validation_recovery_candidate s).
Definition set_latch a c (s : Inner) : Inner := mkInner (current s) (local_seq_enforcer s)
  (seq_enforcers s) (by_ledger s) (by_sequence s) (keep s) (next_keep_refresh s) (trie s)
  (last_ledger s) (acquiring s) a c.

(** ** The recovery latch *)

Definition add_nodes (ns : gset NodeId) (p : ValidationRecoveryProvenance) :=
  mkProof (proof_key p) (proof_nodes p ∪ ns).

Definition observe_validation_recovery (observed : option ValidationRecoveryProvenance)
    (s : Inner) : Inner :=
  match observed with
  | None => set_latch (validation_recovery_anchor s) None s
  | Some observed =>
      match validation_recovery_anchor s with
      | None => set_latch (Some observed) (validation_recovery_candidate s) s
      | Some anchor =>
          if bool_decide (proof_key anchor = proof_key observed) then
            set_latch (Some (add_nodes (proof_nodes observed) anchor))
              (validation_recovery_candidate s) s
          else
            match validation_recovery_candidate s with
            | Some candidate =>
                if bool_decide (proof_key candidate = proof_key observed) then
                  set_latch (Some anchor) (Some (add_nodes (proof_nodes observed) candidate)) s
                else set_latch (Some anchor) (Some observed) s
            | None => set_latch (Some anchor) (Some observed) s
            end
      end
  end.

Definition has_key (k : Z * Id) (o : option ValidationRecoveryProvenance) : bool :=
  match o with Some p => bool_decide (proof_key p = k) | None => false end.

Definition take_validation_recovery_nodes (k : Z * Id) (s : Inner) : outcome (gset NodeId * Inner) :=
  if has_key k (validation_recovery_anchor s) then
    p ← expect (validation_recovery_anchor s);
    mret (proof_nodes p, set_latch (validation_recovery_candidate s) None s)
  else if has_key k (validation_recovery_candidate s) then
    p ← expect (validation_recovery_candidate s);
    mret (proof_nodes p, set_latch (validation_recovery_anchor s) None s)
  else mret (∅, s).

Definition drop_node (n : NodeId) (p : ValidationRecoveryProvenance) :=
  mkProof (proof_key p) (proof_nodes p ∖ {[n]}).

Definition prune_validation_recovery_signer (k : Z * Id) (n : NodeId) (s : Inner) : Inner :=
  if has_key k (validation_recovery_anchor s) then
    set_latch (drop_node n <$> validation_recovery_anchor s) (validation_recovery_candidate s) s
  else if has_key k (validation_recovery_candidate s) then
    set_latch (validation_recovery_anchor s) (drop_node n <$> validation_recovery_candidate s) s
  else s.

(** [proofs.iter().position(..).map(|i| proofs.swap_remove(i))] on at most two
    proofs. *)
Definition take_exact (k : Z * Id) (proofs : list ValidationRecoveryProvenance)
    : option ValidationRecoveryProvenance * list ValidationRecoveryProvenance :=
  match proofs with
  | p :: rest =>
      if bool_decide (proof_key p = k) then
        (Some p, match rev rest with [] => [] | q :: rest' => q :: rev rest' end)
      else match rest with
           | q :: rest' =>
               if bool_decide (proof_key q = k) then (Some q, p :: rest') else (None, proofs)
           | [] => (None, proofs)
           end
  | [] => (None, [])
  end.

Definition reconcile_validation_recovery_latch (actual_anchor actual_candidate : option (Z * Id))
    (s : Inner) : Inner :=
  let proofs := option_list (validation_recovery_anchor s)
    ++ option_list (validation_recovery_candidate s) in
  let '(anchor, proofs) :=
    match actual_anchor with Some k => take_exact k proofs | None => (None, proofs) end in
  let distinct_candidate :=
    match actual_candidate with
    | Some k => if bool_decide (Some k = actual_anchor) then None else Some k
    | None => None
    end in
  let '(candidate, _) :=
    match distinct_candidate with Some k => take_exact k proofs | None => (None, proofs) end in
  set_latch anchor candidate s.

(** ** Feeding the trie *)

(** [self.trie.remove(l.id(), l.seq(), 1)], its answer ignored. *)
Definition trie_drop (l : L) (s : Inner) : outcome Inner :=
  '(t, _) ← remove (id l) (seq l) 1 (trie s); mret (set_trie t s).

(** Take [n] out of the waiters of the acquisition [k], dropping an empty set. *)
Definition drop_waiter (k : Z * Id) (n : NodeId) (s : Inner) : Inner :=
  match (acquiring s !! k : option (gset NodeId)) with
  | Some waiters =>
      let waiters := waiters ∖ {[n]} in
      if bool_decide (waiters = ∅) then set_acquiring (delete k (acquiring s)) s
      else set_acquiring (<[k := waiters]> (acquiring s)) s
  | None => s
  end.

Definition remove_trie (n : NodeId) (v : Val) (s : Inner) : outcome Inner :=
  let k := (val_seq v, val_ledger_id v) in
  let s := prune_validation_recovery_signer k n s in
  let s := drop_waiter k n s in
  match (last_ledger s !! n : option L) with
  | Some last =>
      if bool_decide (id last = val_ledger_id v) then
        trie_drop last (set_last (delete n (last_ledger s)) s)
      else mret s
  | None => mret s
  end.

Definition update_trie_ledger (n : NodeId) (l : L) (s : Inner) : outcome Inner :=
  let prior := (last_ledger s !! n : option L) in
  let s := set_last (<[n := l]> (last_ledger s)) s in
  s ← match prior with Some prior => trie_drop prior s | None => mret s end;
  t ← insert l 1 (trie s);
  mret (set_trie t s).

Definition check_acquired (w : W) (s : Inner) : outcome (W * Inner) :=
  let pending := (btree_iter (acquiring s)).*1 in
  foldM (fun ws k =>
    let '(w, s) := ws in
    let '(found, w) := acquire w k.2 in
    match found with
    | Some ledger =>
        let nodes := match (acquiring s !! k : option (gset NodeId)) with
                     | Some waiters => hash_set_iter waiters
                     | None => []
                     end in
        s ← foldM (fun s n => update_trie_ledger n ledger s) s nodes;
        mret (w, set_acquiring (delete k (acquiring s)) s)
    | None => mret (w, s)
    end) (w, s) pending.

(** Queue [n] behind the acquisition [k], or use the ledger at once. *)
Definition wait_or_update (n : NodeId) (k : Z * Id) (w : W) (s : Inner) : outcome (W * Inner) :=
  match (acquiring s !! k : option (gset NodeId)) with
  | Some waiters => mret (w, set_acquiring (<[k := waiters ∪ {[n]}]> (acquiring s)) s)
  | None =>
      let '(found, w) := acquire w k.2 in
      match found with
      | Some ledger => s ← update_trie_ledger n ledger s; mret (w, s)
      | None => mret (w, set_acquiring (<[k := {[n]}]> (acquiring s)) s)
      end
  end.

Definition update_trie_validation (n : NodeId) (v : Val) (prior : option (Z * Id))
    (w : W) (s : Inner) : outcome (W * Inner) :=
  _ ← assert_that (trusted v);
  let s :=
    match prior with
    | Some k => drop_waiter k n s
    | None => s
    end in
  '(w, s) ← check_acquired w s;
  wait_or_update n (val_seq v, val_ledger_id v) w s.

(** Evict what is no longer current; the entries that remain. *)
Definition current_live (p : ValidationParms) (w : W) (s : Inner)
    : outcome (list (NodeId * Val) * (W * Inner)) :=
  let '(now, w) := adaptor_now w in
  let stale := (filter (fun nv => is_current p now (sign_time nv.2) (seen_time nv.2) = false)
    (hash_iter (current s))).*1 in
  s ← foldM (fun s n =>
    s ← match (current s !! n : option Val) with
        | Some v => remove_trie n v s
        | None => mret s
        end;
    mret (set_current (delete n (current s)) s)) s stale;
  mret (hash_iter (current s), (w, s)).

(** The trie after evicting stale validations and checking acquisitions. *)
Definition with_trie (p : ValidationParms) (w : W) (s : Inner) : outcome (W * Inner) :=
  '(_, (w, s)) ← current_live p w s;
  check_acquired w s.

(** ** Operations of [Validations] *)

Definition on_ledger_acquired (p : ValidationParms) (ledger : L) (w : W) (s : Inner)
    : outcome (W * Inner) :=
  let k := (seq ledger, id ledger) in
  '(_, (w, s)) ← current_live p w s;
  let exact_nodes := default ∅ (acquiring s !! k : option (gset NodeId)) in
  let s := set_acquiring (delete k (acquiring s)) s in
  '(recovery_nodes, s) ← take_validation_recovery_nodes k s;
  s ← foldM (fun s n =>
    let recovering := bool_decide (n ∈ recovery_nodes) in
    let current_is_eligible :=
      match (current s !! n : option Val) with
      | Some c => trusted c && (negb recovering || (full c && (seq ledger <=? val_seq c)))
      | None => false
      end in
    let recovery_does_not_downgrade :=
      negb recovering ||
      match (last_ledger s !! n : option L) with
      | Some resident => seq resident <? seq ledger
      | None => true
      end in
    if current_is_eligible && recovery_does_not_downgrade then update_trie_ledger n ledger s
    else mret s) s (hash_set_iter (exact_nodes ∪ recovery_nodes));
  mret (w, s).

Definition on_ledger_unacquired (p : ValidationParms) (ledger_id : Id) (w : W) (s : Inner)
    : outcome (nat * (W * Inner)) :=
  '(_, (w, s)) ← current_live p w s;
  let affected := (filter (fun nl => id nl.2 = ledger_id) (hash_iter (last_ledger s))).*1 in
  '(w, s) ← foldM (fun ws n =>
    let '(w, s) := ws in
    s ← match (last_ledger s !! n : option L) with
        | Some resident => trie_drop resident (set_last (delete n (last_ledger s)) s)
        | None => mret s
        end;
    match (current s !! n : option Val) with
    | Some c => if trusted c then wait_or_update n (val_seq c, val_ledger_id c) w s else mret (w, s)
    | None => mret (w, s)
    end) (w, s) affected;
  mret (length affected, (w, s)).

Definition can_validate_seq (p : ValidationParms) (now q : Z) (s : Inner) : bool * Inner :=
  let '(b, e) := try_advance now q p (local_seq_enforcer s) in (b, set_local_enforcer e s).

(** [(a - b).unsigned_abs()] as a duration. *)
Definition abs_diff_secs (a b : NetClockTimePoint) : Z := from_secs (Z.abs (a - b)).

(** The first half of [add]: the entry of the validation's sequence. *)
Definition record_sequence (p : ValidationParms) (now : Z) (n : NodeId) (v : Val) (s : Inner)
    : Inner :=
  let '(seq_entry, m) := aged_entry (val_seq v) now ∅ (by_sequence s) in
  let seq_entry :=
    match (seq_entry !! n : option Val) with
    | Some existing =>
        if (validation_current_wall p <? abs_diff_secs (sign_time existing) (sign_time v))
           && (sign_time existing <? sign_time v)
        then <[n := v]> seq_entry else seq_entry
    | None => <[n := v]> seq_entry
    end in
  set_by_sequence (aged_set (val_seq v) seq_entry m) s.

(** The status of a validation that breaks the increasing-sequence rule. *)
Definition reject_status (n : NodeId) (v : Val) (s : Inner) : outcome ValStatus :=
  seq_entry ← expect (aged_get (val_seq v) (by_sequence s));
  match (seq_entry !! n : option Val) with
  | Some existing =>
      if val_seq existing =? val_seq v then
        if negb (bool_decide (val_ledger_id existing = val_ledger_id v)) then mret Conflicting
        else if negb (sign_time existing =? sign_time v) then mret Conflicting
        else if negb (cookie existing =? cookie v) then mret Multiple
        else mret BadSeq
      else mret BadSeq
  | None => mret BadSeq
  end.

Definition add (p : ValidationParms) (now : Z) (n : NodeId) (v : Val) (w : W) (s : Inner)
    : outcome (ValStatus * (W * Inner)) :=
  let '(net_now, w) := adaptor_now w in
  if negb (is_current p net_now (sign_time v) (seen_time v)) then mret (Stale, (w, s))
  else
    let s := record_sequence p now n v s in
    let '(advanced, e) := try_advance now (val_seq v) p
      (default enforcer_default (seq_enforcers s !! n)) in
    let s := set_enforcers (<[n := e]> (seq_enforcers s)) s in
    if negb advanced then
      status ← reject_status n v s;
      mret (status, (w, s))
    else
      let '(ledger_entry, m) := aged_entry (val_ledger_id v) now ∅ (by_ledger s) in
      let s := set_by_ledger (aged_set (val_ledger_id v) (<[n := v]> ledger_entry) m) s in
      match (current s !! n : option Val) with
      | None =>
          '(w, s) ← (if trusted v then update_trie_validation n v None w s else mret (w, s));
          mret (Current, (w, set_current (<[n := v]> (current s)) s))
      | Some old_val =>
          if sign_time old_val <? sign_time v then
            let s := set_current (<[n := v]> (current s)) s in
            '(w, s) ← (if trusted v
                       then update_trie_validation n v (Some (val_seq old_val, val_ledger_id old_val)) w s
                       else mret (w, s));
            mret (Current, (w, s))
          else mret (Stale, (w, s))
      end.

Definition set_seq_to_keep (low high : Z) (s : Inner) : outcome Inner :=
  _ ← assert_that (low <? high); mret (set_keep (Some (low, high)) s).

(** Whether the first validation of a set has a sequence in [low, high). *)
Definition first_seq_in (low high : Z) (m : gmap NodeId Val) : bool :=
  match hash_iter m with
  | nv :: _ => (low <=? val_seq nv.2) && (val_seq nv.2 <? high)
  | [] => false
  end.

Definition expire (p : ValidationParms) (now : Z) (s : Inner) : Inner :=
  let s :=
    match keep s with
    | Some (low, high) =>
        let refresh_due := match next_keep_refresh s with Some r => r <=? now | None => true end in
        if refresh_due then
          let s := set_refresh (Some (now + duration_saturating_sub (validation_set_expires p)
            (validation_freshness p))) s in
          let to_refresh :=
            (filter (fun kv => first_seq_in low high kv.2 = true)
              (hash_iter (entries (by_ledger s)))).*1 in
          let s := set_by_ledger (foldl (fun m k => touch k now m) (by_ledger s) to_refresh) s in
          let sequence_to_refresh :=
            filter (fun q => low <= q < high) ((hash_iter (entries (by_sequence s))).*1) in
          set_by_sequence (foldl (fun m k => touch k now m) (by_sequence s) sequence_to_refresh) s
        else s
    | None => s
    end in
  let s := set_by_ledger (aged_expire now (validation_set_expires p) None (by_ledger s)) s in
  set_by_sequence (aged_expire now (validation_set_expires p) None (by_sequence s)) s.

Definition trust_changed (added removed : gset NodeId) (w : W) (s : Inner) : outcome (W * Inner) :=
  '(w, s) ← foldM (fun ws n =>
    let '(w, s) := ws in
    if bool_decide (n ∈ added) then
      let s := set_current (alter set_trusted n (current s)) s in
      v ← expect (current s !! n);
      update_trie_validation n v None w s
    else if bool_decide (n ∈ removed) then
      let s := set_current (alter set_untrusted n (current s)) s in
      v ← expect (current s !! n);
      s ← remove_trie n v s;
      mret (w, s)
    else mret (w, s)) (w, s) (hash_iter (current s)).*1;
  let retrust (m : gmap NodeId Val) : gmap NodeId Val :=
    map_imap (fun n v => Some (if bool_decide (n ∈ added) then set_trusted v
                               else if bool_decide (n ∈ removed) then set_untrusted v else v)) m in
  let m := by_ledger s in
  mret (w, set_by_ledger (mkAged (retrust <$> entries m) (last_touched m)) s).

(** ** The preferred ledger *)

(** The acquisition with the most waiters, ties broken by ledger id. *)
Definition acquiring_best (s : Inner) : option (Z * Id) :=
  fst <$> max_by (fun a b => ord_ltb (Z.of_nat (size b.2), b.1.2) (Z.of_nat (size a.2), a.1.2))
    (btree_iter (acquiring s)).

(** [tip.seq == l.seq() + 1 && tip.ancestor(l.seq()) == l.id()]: the tip is a
    child of the ledger [l]. *)
Definition follows (t : SpanTip L Id) (l : L) : outcome bool :=
  if tip_seq t =? wrap_u32 (seq l + 1) then
    a ← tip_ancestor t (seq l); mret (bool_decide (a = id l))
  else mret false.

(** On a ledger whose successor has a sequence the assertion holds. *)
Lemma follows_ok t l : 0 <= seq l < u32_max -> exists b, follows t l = Ok b.
Proof.
  intros Hl. unfold follows, tip_ancestor. rewrite wrap_u32_id by machine.
  destruct (Z.eqb_spec (tip_seq t) (seq l + 1)) as [->|]; [|by eexists].
  rewrite (proj2 (Z.leb_le _ _)) by lia. by eexists.
Qed.

Definition get_preferred (p : ValidationParms) (curr : L) (w : W) (s : Inner)
    : outcome (option (Z * Id) * (W * Inner)) :=
  let largest := largest (local_seq_enforcer s) in
  '(w, s) ← with_trie p w s;
  preferred ← LedgerTrie.get_preferred (trie s) largest;
  r ← match preferred with
      | None => mret (acquiring_best s)
      | Some t =>
          child ← follows t curr;
          mret (if (child : bool) then Some (seq curr, id curr)
                else if seq curr <? tip_seq t then Some (tip_seq t, tip_id t)
                else if negb (bool_decide (ancestor curr (tip_seq t) = tip_id t))
                then Some (tip_seq t, tip_id t)
                else Some (seq curr, id curr))
      end;
  mret (r, (w, s)).

Definition get_preferred_min_seq (p : ValidationParms) (curr : L) (min_valid_seq : Z)
    (w : W) (s : Inner) : outcome (Id * (W * Inner)) :=
  '(r, ws) ← get_preferred p curr w s;
  mret (match r with
        | Some (q, i) => if min_valid_seq <=? q then i else id curr
        | None => id curr
        end, ws).

Inductive PreferredLclWorkingSource := Trie | AcquiringFallback | NoPreference.
Inductive PreferredLclSelectionSource :=
| WorkingPreferred | LocalBelowMinSeq | PeerFallback | LocalNoPreference.

Record PreferredLclDiagnostic := mkDiag {
  trie_preferred : option (Z * Id);
  acquiring_preferred : option (Z * Id);
  working_preferred : option (Z * Id);
  acquired_recovery_candidate : option (Z * Id);
  acquired_recovery_peer_support : option Z;
  diag_recovery_candidate : option (Z * Id);
  diag_recovery_support : option Z;
  diag_recovery_peer_support : option Z;
  working_source : PreferredLclWorkingSource;
  selection_source : PreferredLclSelectionSource;
  selected : Id;
  peer_preferred : option (Id * Z);
  peer_lcl_entry_count : nat;
  current_validation_count : nat;
  current_trusted_count : nat;
  current_trusted_full_count : nat;
  trie_ledger_count : nat;
  acquiring_entry_count : nat;
  acquiring_waiter_count : Z
}.

(** A current trusted full validation of the node for exactly this ledger. *)
Definition supports_exactly (s : Inner) (k : Z * Id) (n : NodeId) : bool :=
  match (current s !! n : option Val) with
  | Some v => trusted v && full v && (val_seq v =? k.1) && bool_decide (val_ledger_id v = k.2)
  | None => false
  end.

Definition trusted_full_count (s : Inner) : nat :=
  length (filter (fun nv => trusted nv.2 && full nv.2 = true) (hash_iter (current s))).

Definition exact_support (s : Inner) (k : Z * Id) (waiters : gset NodeId) : Z :=
  Z.of_nat (length (filter (fun n => supports_exactly s k n = true) (hash_set_iter waiters))).

(** Acquisitions that a strict majority of the trusted full validations wait for. *)
Definition quorum_candidate (s : Inner) : option (Z * Id * Z) :=
  max_by (fun a b => ord_ltb (b.2, b.1.1, b.1.2) (a.2, a.1.1, a.1.2))
    (omap (fun kw =>
       let support := exact_support s kw.1 kw.2 in
       if Z.of_nat (trusted_full_count s) / 2 <? support then Some (kw.1, support) else None)
      (btree_iter (acquiring s))).

(** The working preference from the trie, or from the acquisitions. *)
Definition working_choice (lcl : L) (trie_pref : option (SpanTip L Id)) (acquiring_pref : option (Z * Id))
    : outcome (option (Z * Id) * PreferredLclWorkingSource) :=
  match trie_pref with
  | Some t =>
      child ← follows t lcl;
      let chosen :=
        if (child : bool) then (seq lcl, id lcl)
        else if (seq lcl <? tip_seq t) || negb (bool_decide (ancestor lcl (tip_seq t) = tip_id t))
        then (tip_seq t, tip_id t)
        else (seq lcl, id lcl) in
      mret (Some chosen, Trie)
  | None =>
      mret match acquiring_pref with
           | Some k => (Some k, AcquiringFallback)
           | None => (None, NoPreference)
           end
  end.

(** The final selection. *)
Definition select_lcl (lcl : L) (min_seq : Z) (working : option (Z * Id)) (peer : option (Id * Z))
    : Id * PreferredLclSelectionSource :=
  match working with
  | Some (q, i) => if min_seq <=? q then (i, WorkingPreferred) else (id lcl, LocalBelowMinSeq)
  | None =>
      match peer with
      | Some (i, _) => (i, PeerFallback)
      | None => (id lcl, LocalNoPreference)
      end
  end.

Definition get_preferred_lcl_diagnostic (p : ValidationParms) (lcl : L) (min_seq : Z)
    (peer_counts : gmap Id Z) (w : W) (s : Inner)
    : outcome (PreferredLclDiagnostic * (W * Inner)) :=
  let largest := largest (local_seq_enforcer s) in
  '(w, s) ← with_trie p w s;
  trie_pref ← LedgerTrie.get_preferred (trie s) largest;
  let acquiring_pref := acquiring_best s in
  '(working, source) ← working_choice lcl trie_pref acquiring_pref;
  let peer := max_by (fun a b => ord_ltb (b.2, b.1) (a.2, a.1)) (btree_iter peer_counts) in
  let advice :=
    match quorum_candidate s with
    | Some (k, support) =>
        if (min_seq <=? k.1) && (seq lcl <? k.1) && (seq lcl <? wrap_u32 (k.1 - 1))
           && negb (bool_decide (k.2 = id lcl))
        then Some (k, support, default 0 (peer_counts !! k.2)) else None
    | None => None
    end in
  let '(chosen, selection) := select_lcl lcl min_seq working peer in
  let recovery :=
    match advice, source with
    | Some r, Trie => if bool_decide (chosen = id lcl) then Some r else None
    | _, _ => None
    end in
  let provenance :=
    (fun r => mkProof r.1.1 (list_to_set (filter (fun n => supports_exactly s r.1.1 n = true)
       (hash_set_iter (default ∅ (acquiring s !! r.1.1 : option (gset NodeId))))))) <$> recovery in
  let s := observe_validation_recovery provenance s in
  mret (mkDiag ((fun t => (tip_seq t, tip_id t)) <$> trie_pref) acquiring_pref working None None
    ((fun r => r.1.1) <$> recovery) ((fun r => r.1.2) <$> recovery) ((fun r => r.2) <$> recovery)
    source selection chosen peer (size peer_counts) (size (current s))
    (length (filter (fun nv => trusted nv.2 = true) (hash_iter (current s))))
    (trusted_full_count s) (size (last_ledger s)) (size (acquiring s))
    (zsum (fun kw => Z.of_nat (size kw.2)) (btree_iter (acquiring s))), (w, s)).

Definition get_preferred_lcl (p : ValidationParms) (lcl : L) (min_seq : Z) (peer_counts : gmap Id Z)
    (w : W) (s : Inner) : outcome (Id * (W * Inner)) :=
  '(d, ws) ← get_preferred_lcl_diagnostic p lcl min_seq peer_counts w s; mret (selected d, ws).

(** ** Queries *)

Definition get_nodes_after (p : ValidationParms) (ledger : L) (ledger_id : Id) (w : W) (s : Inner)
    : outcome (Z * (W * Inner)) :=
  if bool_decide (id ledger = ledger_id) then
    '(w, s) ← with_trie p w s;
    b ← trie_branch_support (trie s) ledger;
    t ← trie_tip_support (trie s) (id ledger);
    mret (wrap_u64 (b - t), (w, s))
  else
    mret (Z.of_nat (length (filter (fun nl => 0 < seq nl.2 /\ ancestor nl.2 (wrap_u32 (seq nl.2 - 1)) = ledger_id)
      (hash_iter (last_ledger s)))), (w, s)).

Definition current_trusted (p : ValidationParms) (w : W) (s : Inner)
    : outcome (list Val * (W * Inner)) :=
  '(live, ws) ← current_live p w s;
  mret ((filter (fun nv => trusted nv.2 && full nv.2 = true) live).*2, ws).

Definition get_current_node_ids (p : ValidationParms) (w : W) (s : Inner)
    : outcome (gset NodeId * (W * Inner)) :=
  '(live, ws) ← current_live p w s; mret (list_to_set live.*1, ws).

(** The trusted full validations of a ledger, in iteration order. *)
Definition trusted_full_for (ledger_id : Id) (s : Inner) : list Val :=
  filter (fun v => trusted v && full v = true)
    (match aged_get ledger_id (by_ledger s) with Some m => (hash_iter m).*2 | None => [] end).

Definition num_trusted_for_ledger (ledger_id : Id) (now : Z) (s : Inner) : nat * Inner :=
  let s := set_by_ledger (touch ledger_id now (by_ledger s)) s in
  (length (trusted_full_for ledger_id s), s).

Definition get_trusted_for_ledger (ledger_id : Id) (q now : Z) (s : Inner) : list Val * Inner :=
  let s := set_by_ledger (touch ledger_id now (by_ledger s)) s in
  (filter (fun v => val_seq v = q) (trusted_full_for ledger_id s), s).

Definition fees (ledger_id : Id) (base_fee now : Z) (s : Inner) : list Z * Inner :=
  let s := set_by_ledger (touch ledger_id now (by_ledger s)) s in
  ((fun v => default base_fee (load_fee v)) <$> trusted_full_for ledger_id s, s).

Definition flush (s : Inner) : Inner := set_latch None None (set_current ∅ s).

Definition laggards (p : ValidationParms) (q : Z) (trusted_keys : gset NodeKey) (w : W) (s : Inner)
    : outcome (nat * gset NodeKey * (W * Inner)) :=
  let '(now, w) := adaptor_now w in
  '(live, ws) ← current_live p w s;
  let '(n, keys) :=
    foldl (fun acc nv =>
      let '(n, keys) := acc in
      let v := nv.2 in
      let seen_plus_freshness := sat_u32 (seen_time v + wrap_u32 (as_secs (validation_freshness p))) in
      if now <? seen_plus_freshness then
        if bool_decide (key v ∈ keys) then
          (if val_seq v <? q then S n else n, keys ∖ {[key v]})
        else (n, keys)
      else (n, keys)) (0%nat, trusted_keys) live in
  mret (n, keys, ws).

Definition size_of_current_cache (s : Inner) : nat := size (current s).
Definition size_of_seq_enforcers_cache (s : Inner) : nat := size (seq_enforcers s).
Definition size_of_by_ledger_cache (s : Inner) : nat := aged_len (by_ledger s).
Definition size_of_by_sequence_cache (s : Inner) : nat := aged_len (by_sequence s).
End Validations.

Arguments Inner L Id NodeId NodeKey {_ _ _ _}.
Arguments ValidationRecoveryProvenance Id NodeId {_ _}.
Arguments PreferredLclDiagnostic : clear implicits.
