(* ===== verification/ValidationsInv.v ===== *)
(** * The invariant of the validation tracker

    The trie counts exactly the validators' last acquired ledgers: the support
    of a ledger id is the number of nodes whose entry in [last_ledger] it is.
    Every operation keeps this and never panics. *)

From S2P Require Import Prelude Chrono LedgerTrie TrieInvariant TrieInsert TriePrefix.
From S2P Require Import TrieTheorems Validations.

Section Fed.
Context `{!HashOrder} {W L Id NodeId NodeKey : Type}.
Context `{!TrieLedger L Id} `{!TotalOrd Id} `{Countable Id} `{Countable NodeId}
  `{Countable NodeKey} `{!TotalOrdLaws Id} `{!ValidationsAdaptor W L Id}.
Context (base : Z) (valid : L -> Prop) `{!HistoryLaws L Id base valid}.
(** The validators the node may hear of. *)
Context (U : gset NodeId) (HU : Z.of_nat (size U) <= u32_max).
Context (acquire_valid : forall w i l w', acquire w i = (Some l, w') -> valid l).
Implicit Types t : LedgerTrie L.
Implicit Types m : gmap NodeId L.
Abbreviation Val := (Validation Id NodeId NodeKey).
Abbreviation Inner := (Inner L Id NodeId NodeKey).
Implicit Types s : Inner.

(** How many nodes have the ledger [x] as their last one. *)
Definition last_table m : Id -> Z := fun x => msum (fun l => if decide (id l = x) then 1 else 0) m.

Record fed t m : Prop := {
  fed_table : implements base valid t (last_table m);
  fed_total : total_support (heap t) = Z.of_nat (size m);
  fed_valid : forall n l, m !! n = Some l -> valid l
}.

Record inner_ok s : Prop := {
  io_fed : fed (trie s) (last_ledger s);
  io_last : dom (last_ledger s) ⊆ U;
  io_current : dom (current s) ⊆ U;
  io_waiters : forall k ws, acquiring s !! k = Some ws -> ws <> ∅ /\ ws ⊆ U;
  io_anchor : forall p, validation_recovery_anchor s = Some p -> proof_nodes p ⊆ U;
  io_candidate : forall p, validation_recovery_candidate s = Some p -> proof_nodes p ⊆ U
}.

Lemma implements_ext t f g : (forall x, f x = g x) -> implements base valid t f -> implements base valid t g.
Proof. intros Hfg [? ? Hf]. split; [done..|]. intros x. by rewrite Hf, Hfg. Qed.

Lemma last_table_delete m n l x :
  m !! n = Some l -> last_table (delete n m) x = last_table m x - if decide (id l = x) then 1 else 0.
Proof. intros Hn. unfold last_table. by rewrite (msum_delete _ n l). Qed.

Lemma last_table_pos m n l : m !! n = Some l -> 1 <= last_table m (id l).
Proof.
  intros Hn. pose proof (msum_elem_le (fun l' => if decide (id l' = id l) then 1 else 0) n l m)
    as Hle. simpl in Hle. rewrite decide_True in Hle by done. apply Hle; [|done].
  intros k a _. case_decide; lia.
Qed.

(** Forgetting one node's ledger. *)
Lemma drop_fed t m n l :
  fed t m -> m !! n = Some l ->
  exists t' b, remove (id l) (seq l) 1 t = Ok (t', b) /\ fed t' (delete n m).
Proof.
  intros [Him Htot Hv] Hn. pose proof (last_table_pos m n l Hn).
  destruct (implements_remove base valid t (last_table m) (id l) (seq l) 1 Him ltac:(lia))
    as (t' & E & Him' & Htot').
  { apply (names_own_tip base valid). by eapply Hv. }
  exists t', (negb (last_table m (id l) =? 0)). split; [done|]. split.
  - eapply implements_ext; [|exact Him']. intros x. rewrite (last_table_delete m n l) by done.
    unfold table_remove. case_decide; lia.
  - rewrite Htot', Htot, map_size_delete_Some by eauto.
    assert (size m <> 0%nat) by (apply map_size_ne_0_lookup; eauto). lia.
  - intros n' l' [_ Hn']%lookup_delete_Some. by eapply Hv.
Qed.

(** Recording a ledger for a node that has none. *)
Lemma insert_fed t m n l :
  fed t m -> m !! n = None -> valid l -> Z.of_nat (size m) < u32_max ->
  exists t', insert l 1 t = Ok t' /\ fed t' (<[n := l]> m).
Proof.
  intros [Him Htot Hv] Hn Hl Hsz.
  destruct (implements_insert base valid t (last_table m) l 1 Him Hl) as (t' & E & Him' & Htot'); [lia..|].
  exists t'. split; [done|]. split.
  - eapply implements_ext; [|exact Him']. intros x. unfold table_insert, last_table.
    rewrite msum_insert_new by done. unfold id. case_decide; lia.
  - rewrite Htot', Htot, map_size_insert_None by done. lia.
  - intros n' l' [[<- <-]|[_ Hn']]%lookup_insert_Some; [done | by eapply Hv].
Qed.

Lemma size_below_U m n : dom m ⊆ U -> m !! n = None -> n ∈ U -> Z.of_nat (size m) < u32_max.
Proof.
  intros Hm Hn HnU. assert (size m < size U)%nat; [|lia].
  rewrite <- size_dom. apply subset_size. split; [done|]. intros HUm.
  apply HUm, elem_of_dom in HnU as [? ?]. congruence.
Qed.

(** ** The operations on the trie *)

Lemma trie_drop_ok s n l :
  fed (trie s) (last_ledger s) -> last_ledger s !! n = Some l ->
  exists t, trie_drop l (set_last (delete n (last_ledger s)) s)
      = Ok (set_trie t (set_last (delete n (last_ledger s)) s))
    /\ fed t (delete n (last_ledger s)).
Proof.
  intros Hf Hn. destruct (drop_fed _ _ _ _ Hf Hn) as (t & b & E & Hf').
  exists t. split; [|done]. unfold trie_drop. simpl. by rewrite E.
Qed.

Lemma update_trie_ledger_ok n l s :
  inner_ok s -> valid l -> n ∈ U ->
  exists t, update_trie_ledger n l s = Ok (set_trie t (set_last (<[n := l]> (last_ledger s)) s))
    /\ inner_ok (set_trie t (set_last (<[n := l]> (last_ledger s)) s)).
Proof.
  intros [Hf Hlast Hcur Hw Ha Hc] Hl Hn.
  assert (exists t0, match (last_ledger s !! n : option L) with
      | Some prior => trie_drop prior (set_last (<[n := l]> (last_ledger s)) s)
      | None => mret (set_last (<[n := l]> (last_ledger s)) s)
      end = Ok (set_trie t0 (set_last (<[n := l]> (last_ledger s)) s))
    /\ fed t0 (delete n (last_ledger s))) as (t0 & E0 & Hf0).
  { destruct (last_ledger s !! n) as [prior|] eqn:E.
    - destruct (drop_fed _ _ _ _ Hf E) as (t0 & b & E' & Hf'). exists t0. split; [|done].
      unfold trie_drop. simpl. by rewrite E'.
    - exists (trie s). split; [by destruct s|]. by rewrite delete_id. }
  destruct (insert_fed t0 (delete n (last_ledger s)) n l Hf0) as (t & E & Hf');
    [apply lookup_delete_eq | done | |].
  { apply (size_below_U _ n); [|apply lookup_delete_eq|done]. rewrite dom_delete_L. set_solver. }
  rewrite insert_delete_eq in Hf'.
  exists t. unfold update_trie_ledger. rewrite E0. simpl. rewrite E. simpl. split; [done|].
  split; simpl; [done | | done..]. rewrite dom_insert_L. set_solver.
Qed.

Lemma set_acquiring_ok s (m : gmap (Z * Id) (gset NodeId)) :
  inner_ok s -> (forall k ws, m !! k = Some ws -> ws <> ∅ /\ ws ⊆ U) ->
  inner_ok (set_acquiring m s).
Proof. intros [] Hm. by split. Qed.

Lemma set_current_ok s (m : gmap NodeId Val) : inner_ok s -> dom m ⊆ U -> inner_ok (set_current m s).
Proof. intros [] Hm. by split. Qed.

Lemma delete_waiters_ok s k : inner_ok s -> inner_ok (set_acquiring (delete k (acquiring s)) s).
Proof.
  intros H'. apply set_acquiring_ok; [done|]. intros k' ws [_ Hk]%lookup_delete_Some.
  by eapply io_waiters.
Qed.

Lemma add_waiters_ok s k ws :
  inner_ok s -> ws <> ∅ -> ws ⊆ U -> inner_ok (set_acquiring (<[k := ws]> (acquiring s)) s).
Proof.
  intros H' Hne Hws. apply set_acquiring_ok; [done|].
  intros k' ws' [[_ <-]|[_ Hk]]%lookup_insert_Some; [done | by eapply io_waiters].
Qed.

(** A step that keeps the invariant and the current validations. *)
Definition keeps s s' : Prop := inner_ok s' /\ current s' = current s.

(** Taking a node out of a waiter set. *)
Lemma drop_waiter_ok s k n : inner_ok s -> keeps s (drop_waiter k n s).
Proof.
  intros H'. unfold drop_waiter. destruct (acquiring s !! k) as [ws|] eqn:Hk; [|done].
  destruct (io_waiters _ H' _ _ Hk) as [_ Hws].
  case_bool_decide; split; try done; [by apply delete_waiters_ok|].
  apply add_waiters_ok; [done..|]. set_solver.
Qed.

Lemma prune_ok s k n : inner_ok s -> inner_ok (prune_validation_recovery_signer k n s).
Proof.
  intros [Hf Hl Hc Hw Ha Hca]. unfold prune_validation_recovery_signer.
  destruct (has_key k (validation_recovery_anchor s));
    [|destruct (has_key k (validation_recovery_candidate s)); [|by split]];
    split; simpl; try done.
  - intros p. destruct (validation_recovery_anchor s) as [q|] eqn:E; intros [= <-]. simpl.
    pose proof (Ha q eq_refl). set_solver.
  - intros p. destruct (validation_recovery_candidate s) as [q|] eqn:E; intros [= <-]. simpl.
    pose proof (Hca q eq_refl). set_solver.
Qed.

Lemma remove_trie_ok n v s :
  inner_ok s -> exists s', remove_trie n v s = Ok s' /\ keeps s s'.
Proof.
  intros Hs. unfold remove_trie.
  set (k := (val_seq v, val_ledger_id v)).
  set (s0 := prune_validation_recovery_signer k n s).
  assert (keeps s s0) as [Hs0 Hc0].
  { split; [by apply prune_ok|]. unfold s0, prune_validation_recovery_signer.
    by repeat case_match. }
  destruct (drop_waiter_ok s0 k n Hs0) as [Hs1 Hc1]. rewrite Hc0 in Hc1.
  set (s1 := drop_waiter k n s0) in *. clearbody s1. clear s0 Hs0 Hc0.
  destruct (last_ledger s1 !! n) as [l|] eqn:E; [|by exists s1].
  case_bool_decide; [|by exists s1].
  destruct Hs1 as [Hf Hl Hcur Hw Ha Hca].
  destruct (trie_drop_ok s1 n l Hf E) as (t & Et & Hf').
  exists (set_trie t (set_last (delete n (last_ledger s1)) s1)). split; [exact Et|].
  split; [|done]. split; simpl; [done | | done..]. rewrite dom_delete_L. set_solver.
Qed.

Lemma check_acquired_ok w s :
  inner_ok s -> exists w' s', check_acquired w s = Ok (w', s') /\ keeps s s'.
Proof.
  intros Hs. unfold check_acquired.
  destruct (foldM_inv (fun ws => keeps s ws.2) (fun ws k =>
    let '(w, s) := ws in
    let '(found, w) := acquire w k.2 in
    match found with
    | Some ledger =>
        let nodes := match (acquiring s !! k : option (gset NodeId)) with
                     | Some waiters => hash_set_iter waiters
                     | None => []
                     end in
        s ← foldM (fun s n => update_trie_ledger n ledger s) s nodes;
        mret (w, set_acquiring (delete k (acquiring s)) s)
    | None => mret (w, s)
    end) (btree_iter (acquiring s)).*1 (w, s)) as ([w' s'] & E & Hk); [|done|by exists w', s'].
  clear w. intros [w s1] k _ [Hs1 Hc1]. simpl in *.
  destruct (acquire w k.2) as [[l|] w1] eqn:Ea; [|eexists; split; [done|]; by split].
  set (nodes := match acquiring s1 !! k with Some ws => hash_set_iter ws | None => [] end).
  assert (forall n, n ∈ nodes -> n ∈ U) as Hnodes.
  { intros n Hn. unfold nodes in Hn. destruct (acquiring s1 !! k) as [ws|] eqn:E.
    - apply elem_of_hash_set_iter in Hn. destruct (io_waiters _ Hs1 _ _ E). set_solver.
    - by apply elem_of_nil in Hn. }
  destruct (foldM_inv (keeps s) (fun s n => update_trie_ledger n l s) nodes s1)
    as (s2 & E2 & Hs2 & Hc2).
  { intros s0 n Hn [Hs0 Hc0].
    destruct (update_trie_ledger_ok n l s0) as (t & -> & Hok); [done | by eapply acquire_valid | auto |].
    eexists. split; [done|]. by split. }
  { done. }
  rewrite E2. simpl. eexists. split; [done|]. split; [by apply delete_waiters_ok | done].
Qed.

Lemma wait_or_update_ok n k w s :
  inner_ok s -> n ∈ U -> exists w' s', wait_or_update n k w s = Ok (w', s') /\ keeps s s'.
Proof.
  intros Hs Hn. unfold wait_or_update. destruct (acquiring s !! k) as [ws|] eqn:E.
  { destruct (io_waiters _ Hs _ _ E). eexists _, _. split; [done|]. split; [|done].
    apply add_waiters_ok; [done | set_solver | set_solver]. }
  destruct (acquire w k.2) as [[l|] w1] eqn:Ea.
  - destruct (update_trie_ledger_ok n l s) as (t & -> & Hok); [done | by eapply acquire_valid | done |].
    eexists _, _. split; [done|]. by split.
  - eexists _, _. split; [done|]. split; [|done]. apply add_waiters_ok; [done | set_solver..].
Qed.

Lemma update_trie_validation_ok n v prior w s :
  inner_ok s -> n ∈ U -> trusted v = true ->
  exists w' s', update_trie_validation n v prior w s = Ok (w', s') /\ keeps s s'.
Proof.
  intros Hs Hn Htr. unfold update_trie_validation. rewrite Htr. simpl.
  set (s0 := match prior with Some k => drop_waiter k n s | None => s end).
  assert (keeps s s0) as [Hs0 Hc0].
  { unfold s0. destruct prior; [by apply drop_waiter_ok | done]. }
  destruct (check_acquired_ok w s0 Hs0) as (w1 & s1 & E1 & Hs1 & Hc1). rewrite E1. simpl.
  destruct (wait_or_update_ok n (val_seq v, val_ledger_id v) w1 s1 Hs1 Hn)
    as (w2 & s2 & E2 & Hs2 & Hc2).
  exists w2, s2. split; [done|]. split; [done|congruence].
Qed.

(** Eviction: what remains is exactly what is current at the time of the call. *)
Lemma current_live_ok p w s :
  inner_ok s ->
  exists w' s', current_live p w s = Ok (hash_iter (current s'), (w', s')) /\ inner_ok s'
    /\ current s' = filter (fun nv => is_current p (adaptor_now w).1 (sign_time nv.2)
         (seen_time nv.2) = true) (current s).
Proof.
  intros Hs. unfold current_live. destruct (adaptor_now w) as [now w1]. simpl.
  set (fresh := fun nv : NodeId * Val => is_current p now (sign_time nv.2) (seen_time nv.2)).
  set (stale := (filter _ (hash_iter (current s))).*1).
  set (body := fun (s : Inner) n => s ← match (current s !! n : option Val) with
    | Some v => remove_trie n v s | None => mret s end; mret (set_current (delete n (current s)) s)).
  assert (forall ns s0, inner_ok s0 -> exists s1, foldM body s0 ns = Ok s1 /\ inner_ok s1
    /\ forall n, current s1 !! n = if decide (n ∈ ns) then None else current s0 !! n) as Hloop.
  { induction ns as [|n ns IH]; intros s0 Hs0; simpl.
    { exists s0. split_and!; [done..|]. done. }
    assert (exists s1, body s0 n = Ok s1 /\ inner_ok s1 /\ current s1 = delete n (current s0))
      as (s1 & E1 & Hs1 & Hc1).
    { unfold body. destruct (current s0 !! n) as [v|].
      - destruct (remove_trie_ok n v s0 Hs0) as (s1 & -> & Hs1 & Hc1). simpl. eexists.
        split; [done|]. simpl. rewrite Hc1. split; [|done]. apply set_current_ok; [done|].
        rewrite dom_delete_L. pose proof (io_current _ Hs0). set_solver.
      - simpl. eexists. split; [done|]. split; [|done]. apply set_current_ok; [done|].
        rewrite dom_delete_L. pose proof (io_current _ Hs0). set_solver. }
    rewrite E1. simpl. destruct (IH s1 Hs1) as (s2 & E2 & Hs2 & Hc2).
    exists s2. split_and!; [done..|]. intros n'. rewrite Hc2, Hc1.
    destruct (decide (n' ∈ ns)); [rewrite decide_True by set_solver; done|].
    destruct (decide (n' = n)) as [->|];
      [by rewrite lookup_delete_eq, decide_True by set_solver|].
    rewrite lookup_delete_ne by done. by rewrite decide_False by set_solver. }
  destruct (Hloop stale s Hs) as (s' & E & Hs' & Hc'). rewrite E. simpl.
  exists w1, s'. split_and!; [done..|]. apply map_eq. intros n. rewrite Hc'.
  assert (n ∈ stale <-> exists v, current s !! n = Some v /\ fresh (n, v) = false) as Hst.
  { unfold stale. rewrite list_elem_of_fmap. split.
    - intros ([n' v] & -> & [Hf Hin]%list_elem_of_filter). exists v. simpl in *.
      by rewrite elem_of_hash_iter in Hin.
    - intros (v & Hn & Hf). exists (n, v). split; [done|]. apply list_elem_of_filter.
      by rewrite elem_of_hash_iter. }
  symmetry. case_decide as Hin.
  - apply Hst in Hin as (v & Hn & Hf). apply map_lookup_filter_None_2. right.
    intros v' Hn'. simplify_eq. unfold fresh in Hf. simpl in *. by rewrite Hf.
  - apply option_eq. intros v. rewrite map_lookup_filter_Some. split; [by intros [? _]|].
    intros Hn. split; [done|]. simpl. destruct (is_current p now _ _) eqn:Ef; [done|].
    exfalso. apply Hin, Hst. eauto.
Qed.

Lemma current_live_keeps p w s :
  inner_ok s -> exists live w' s', current_live p w s = Ok (live, (w', s')) /\ inner_ok s'.
Proof.
  intros Hs. destruct (current_live_ok p w s Hs) as (w' & s' & E & Hs' & _). eauto.
Qed.

Lemma with_trie_ok p w s :
  inner_ok s -> exists w' s', with_trie p w s = Ok (w', s') /\ inner_ok s'.
Proof.
  intros Hs. unfold with_trie.
  destruct (current_live_keeps p w s Hs) as (live & w1 & s1 & -> & Hs1). simpl.
  destruct (check_acquired_ok w1 s1 Hs1) as (w2 & s2 & -> & Hs2 & _). eauto.
Qed.

(** ** The public operations *)

(** Setters of fields the invariant does not mention. *)
Lemma bookkeeping_ok s s' :
  inner_ok s -> trie s' = trie s -> last_ledger s' = last_ledger s -> current s' = current s ->
  acquiring s' = acquiring s -> validation_recovery_anchor s' = validation_recovery_anchor s ->
  validation_recovery_candidate s' = validation_recovery_candidate s -> inner_ok s'.
Proof.
  intros [Hf Hl Hc Hw Ha Hca] Et El Ec Eq Ea Eca. split; rewrite ?Et, ?El, ?Ec, ?Eq, ?Ea, ?Eca; done.
Qed.

Lemma inner_new_ok : inner_ok inner_new.
Proof.
  split; simpl; try set_solver.
  - split; [|done|].
    + apply (implements_ext _ (fun _ => 0)); [|exact (implements_new base valid)].
      intros x. unfold last_table. by rewrite msum_empty.
    + intros n l. by rewrite lookup_empty.
Qed.

Lemma latch_ok s a c :
  inner_ok s -> (forall q, a = Some q -> proof_nodes q ⊆ U) ->
  (forall q, c = Some q -> proof_nodes q ⊆ U) -> inner_ok (set_latch a c s).
Proof. intros [] Ha Hc. by split. Qed.

Lemma take_nodes_ok k s :
  inner_ok s -> exists ns s', take_validation_recovery_nodes k s = Ok (ns, s')
    /\ keeps s s' /\ ns ⊆ U.
Proof.
  intros Hs. pose proof Hs as [_ _ _ _ Ha Hc]. unfold take_validation_recovery_nodes.
  destruct (validation_recovery_anchor s) as [a|] eqn:Ea; simpl.
  - case_bool_decide.
    + eexists _, _. split; [done|]. split; [|by apply Ha].
      split; [|done]. by apply latch_ok.
    + destruct (validation_recovery_candidate s) as [c|] eqn:Ec; simpl; [case_bool_decide|];
        eexists _, _; (split; [done|]); (split; [|done || by apply Hc]);
        (split; [|done]); try done. by apply latch_ok.
  - destruct (validation_recovery_candidate s) as [c|] eqn:Ec; simpl; [case_bool_decide|];
      eexists _, _; (split; [done|]); (split; [|done || by apply Hc]); (split; [|done]); try done.
    by apply latch_ok.
Qed.

Lemma on_ledger_acquired_ok p l w s :
  inner_ok s -> valid l -> exists w' s', on_ledger_acquired p l w s = Ok (w', s') /\ inner_ok s'.
Proof.
  intros Hs Hl. unfold on_ledger_acquired.
  destruct (current_live_keeps p w s Hs) as (live & w1 & s1 & -> & Hs1). simpl.
  set (k := (seq l, id l)). set (exact := default ∅ (acquiring s1 !! k)).
  assert (exact ⊆ U) as Hexact.
  { unfold exact. destruct (acquiring s1 !! k) as [ws|] eqn:E; [|set_solver].
    by apply (io_waiters _ Hs1 _ _ E). }
  destruct (take_nodes_ok k (set_acquiring (delete k (acquiring s1)) s1)) as (ns & s2 & -> & [Hs2 _] & Hns);
    [by apply delete_waiters_ok|]. simpl.
  match goal with |- context [foldM ?f s2 ?nodes] =>
    destruct (foldM_inv inner_ok f nodes s2) as (s3 & -> & Hs3); [|done|] end.
  - intros s0 n Hn Hs0. apply elem_of_hash_set_iter in Hn.
    destruct (_ && _); [|by exists s0].
    destruct (update_trie_ledger_ok n l s0 Hs0 Hl) as (t & -> & Hok); [set_solver|]. eauto.
  - simpl. eauto.
Qed.

Lemma on_ledger_unacquired_ok p i w s :
  inner_ok s -> exists c w' s', on_ledger_unacquired p i w s = Ok (c, (w', s')) /\ inner_ok s'.
Proof.
  intros Hs. unfold on_ledger_unacquired.
  destruct (current_live_keeps p w s Hs) as (live & w1 & s1 & -> & Hs1). simpl.
  match goal with |- context [foldM ?f (w1, s1) ?nodes] =>
    destruct (foldM_inv (fun ws => inner_ok ws.2) f nodes (w1, s1)) as ([w2 s2] & -> & Hs2);
      [|done|] end.
  2:{ simpl. eauto 10. }
  intros [w0 s0] n Hn Hs0. simpl in Hs0.
  assert (n ∈ U) as HnU.
  { apply list_elem_of_fmap in Hn as ([n' l] & -> & [_ Hin]%list_elem_of_filter).
    rewrite elem_of_hash_iter in Hin. apply (io_last _ Hs1), elem_of_dom. eauto. }
  assert (exists s3, match (last_ledger s0 !! n : option L) with
      | Some resident => trie_drop resident (set_last (delete n (last_ledger s0)) s0)
      | None => mret s0
      end = Ok s3 /\ inner_ok s3) as (s3 & E3 & Hs3).
  { destruct (last_ledger s0 !! n) as [l|] eqn:E; [|by exists s0].
    destruct Hs0 as [Hf Hla Hcur Hw Ha Hca]. destruct (trie_drop_ok s0 n l Hf E) as (t & Et & Hf').
    eexists. split; [exact Et|]. split; simpl; [done | | done..]. rewrite dom_delete_L. set_solver. }
  rewrite E3. simpl. destruct (current s3 !! n) as [c|]; [|by eexists].
  destruct (trusted c); [|by eexists].
  destruct (wait_or_update_ok n (val_seq c, val_ledger_id c) w0 s3 Hs3 HnU)
    as (w4 & s4 & -> & [Hs4 _]). by eexists.
Qed.

(** ** The status of an added validation *)

(** What [by_sequence] remembers of the node at the validation's sequence. *)
Definition remembered (n : NodeId) (v : Val) s : option Val :=
  entries (by_sequence s) !! val_seq v ≫= (.!! n).

(** A remembered validation gives way to one signed much later. *)
Definition superseded (p : ValidationParms) (e v : Val) : bool :=
  (validation_current_wall p <? abs_diff_secs (sign_time e) (sign_time v))
  && (sign_time e <? sign_time v).

(** Why a validation that does not advance its validator's sequence is refused. *)
Definition refusal (p : ValidationParms) (n : NodeId) (v : Val) s : ValStatus :=
  match remembered n v s with
  | Some e =>
      if superseded p e v || negb (val_seq e =? val_seq v) then BadSeq
      else if negb (bool_decide (val_ledger_id e = val_ledger_id v)) then Conflicting
      else if negb (sign_time e =? sign_time v) then Conflicting
      else if negb (cookie e =? cookie v) then Multiple
      else BadSeq
  | None => BadSeq
  end.

Definition advances (p : ValidationParms) (now : Z) (n : NodeId) (v : Val) s : bool :=
  (try_advance now (val_seq v) p (default enforcer_default (seq_enforcers s !! n))).1.

Definition add_status (p : ValidationParms) (now net_now : Z) (n : NodeId) (v : Val) s : ValStatus :=
  if is_current p net_now (sign_time v) (seen_time v) then
    if advances p now n v s then
      match current s !! n with
      | Some old => if sign_time old <? sign_time v then Current else Stale
      | None => Current
      end
    else refusal p n v s
  else Stale.

Lemma reject_status_refusal p now n v s e :
  reject_status n v (set_enforcers e (record_sequence p now n v s)) = Ok (refusal p n v s).
Proof.
  unfold reject_status, refusal, remembered, record_sequence, aged_get, aged_entry, aged_set. simpl.
  rewrite lookup_insert_eq. simpl.
  assert (forall m : gmap NodeId Val, <[n := v]> m !! n = Some v) as Hn
    by (intros; apply lookup_insert_eq).
  destruct (entries (by_sequence s) !! val_seq v) as [m|] eqn:Em; simpl.
  - destruct (m !! n) as [ex|] eqn:Ex.
    + fold (superseded p ex v). destruct (superseded p ex v); simpl.
      * rewrite Hn. rewrite !Z.eqb_refl, bool_decide_true by done. done.
      * rewrite Ex. repeat (destruct (_ =? _)); by repeat case_bool_decide.
    + rewrite Hn. rewrite !Z.eqb_refl, bool_decide_true by done. done.
  - rewrite lookup_empty, Hn. rewrite !Z.eqb_refl, bool_decide_true by done. done.
Qed.

Lemma add_ok p now n v w s :
  inner_ok s -> n ∈ U ->
  exists w' s', add p now n v w s = Ok (add_status p now (adaptor_now w).1 n v s, (w', s'))
    /\ inner_ok s'
    /\ current s' = match add_status p now (adaptor_now w).1 n v s with
                    | Current => <[n := v]> (current s)
                    | _ => current s
                    end.
Proof.
  intros Hs Hn. unfold add, add_status, advances. destruct (adaptor_now w) as [net_now w1]. simpl.
  destruct (is_current p net_now (sign_time v) (seen_time v)); simpl; [|by eexists _, _].
  change (seq_enforcers (record_sequence p now n v s)) with (seq_enforcers s).
  destruct (try_advance _ _ _ _) as [adv en]. simpl.
  destruct adv; simpl.
  2:{ rewrite reject_status_refusal. simpl. eexists _, _. split; [done|].
      split; [by apply (bookkeeping_ok s)|]. unfold refusal. by repeat case_match. }
  set (s2 := set_by_ledger _ _).
  assert (inner_ok s2 /\ current s2 = current s) as [Hs2 Hc2] by (split; [by apply (bookkeeping_ok s)|done]).
  destruct (current s !! n) as [old|] eqn:Ec.
  - destruct (sign_time old <? sign_time v); [|by eexists _, _].
    assert (inner_ok (set_current (<[n := v]> (current s)) s2)) as Hs3.
    { apply set_current_ok; [done|]. rewrite dom_insert_L. pose proof (io_current _ Hs). set_solver. }
    destruct (trusted v) eqn:Htr; simpl; [|by eexists _, _].
    destruct (update_trie_validation_ok n v (Some (val_seq old, val_ledger_id old)) w1 _ Hs3 Hn Htr)
      as (w4 & s4 & E4 & [Hs4 Hc4]). exists w4, s4. split; [|done].
    change (current s2) with (current s). by rewrite E4.
  - assert (exists w3 s3, (if trusted v then update_trie_validation n v None w1 s2 else mret (w1, s2))
      = Ok (w3, s3) /\ keeps s2 s3) as (w3 & s3 & E3 & Hs3 & Hc3).
    { destruct (trusted v) eqn:Htr; [|by eexists _, _]. by apply update_trie_validation_ok. }
    rewrite E3. simpl. eexists _, _. split; [done|]. simpl. rewrite Hc3, Hc2. split; [|done].
    apply set_current_ok; [done|]. rewrite dom_insert_L. pose proof (io_current _ Hs). set_solver.
Qed.

Lemma trust_changed_ok added removed w s :
  inner_ok s -> exists w' s', trust_changed added removed w s = Ok (w', s') /\ inner_ok s'.
Proof.
  intros Hs. unfold trust_changed.
  match goal with |- context [foldM ?f (w, s) ?nodes] =>
    destruct (foldM_inv (fun ws => inner_ok ws.2 /\ dom (current ws.2) = dom (current s))
      f nodes (w, s)) as ([w2 s2] & -> & Hs2 & _); [|done|] end.
  2:{ simpl. eexists _, _. split; [done|]. by eapply bookkeeping_ok. }
  intros [w0 s0] n Hn [Hs0 Hd0]. simpl in Hs0, Hd0.
  assert (n ∈ dom (current s0)) as Hin.
  { rewrite Hd0. apply list_elem_of_fmap in Hn as ([n' v] & -> & Hin).
    rewrite elem_of_hash_iter in Hin. apply elem_of_dom. eauto. }
  pose proof (io_current _ Hs0 n Hin) as HnU. apply elem_of_dom in Hin as [v Hv].
  assert (forall f, inner_ok (set_current (alter f n (current s0)) s0)
    /\ dom (alter f n (current s0)) = dom (current s)) as Halter.
  { intros f. rewrite dom_alter_L. split; [|done]. apply set_current_ok; [done|].
    rewrite dom_alter_L. apply (io_current _ Hs0). }
  destruct (bool_decide (n ∈ added)).
  - destruct (Halter set_trusted) as [Hs1 Hd1]. simpl. rewrite lookup_alter_eq, Hv. simpl.
    destruct (update_trie_validation_ok n (set_trusted v) None w0 _ Hs1 HnU eq_refl)
      as (w4 & s4 & -> & [Hs4 Hc4]).
    eexists. split; [done|]. split; [done|]. simpl in *. congruence.
  - destruct (bool_decide (n ∈ removed)); [|by eexists].
    destruct (Halter set_untrusted) as [Hs1 Hd1]. simpl. rewrite lookup_alter_eq, Hv. simpl.
    destruct (remove_trie_ok n (set_untrusted v) _ Hs1) as (s4 & -> & [Hs4 Hc4]). simpl.
    eexists. split; [done|]. split; [done|]. simpl in *. congruence.
Qed.
End Fed.
