(* ===== verification/ValidationsTheorems.v ===== *)
(** * Theorems on the validation tracker

    What [Validations] guarantees: the trie always counts the validators' last
    acquired ledgers and no operation panics; the increasing-sequence rule; the
    status of an added validation; expiry; and the preferred ledger. *)

From S2P Require Import Prelude Chrono LedgerTrie TrieInvariant TrieInsert TrieRemove.
From S2P Require Import TriePrefix TrieQuery TrieTheorems RclLedger Validations ValidationsInv.

(** ** Sequences of operations *)

Section Run.
Context `{!HashOrder} {W L Id NodeId NodeKey : Type}.
Context `{!TrieLedger L Id} `{!TotalOrd Id} `{Countable Id} `{Countable NodeId}
  `{Countable NodeKey} `{!TotalOrdLaws Id} `{!ValidationsAdaptor W L Id}.
Abbreviation Val := (Validation Id NodeId NodeKey).
Abbreviation Inner := (Inner L Id NodeId NodeKey).
Implicit Types s : Inner.

Inductive val_op :=
| OpAdd (now : Z) (n : NodeId) (v : Val)
| OpAcquired (l : L)
| OpUnacquired (i : Id)
| OpTrustChanged (added removed : gset NodeId)
| OpExpire (now : Z)
| OpKeep (low high : Z)
| OpFlush
| OpCanValidate (now q : Z)
| OpReconcile (a c : option (Z * Id))
| OpPreferred (curr : L)
| OpPreferredLcl (lcl : L) (min_seq : Z) (peer_counts : gmap Id Z)
| OpNodesAfter (l : L) (i : Id)
| OpNumTrusted (i : Id) (now : Z)
| OpLaggards (q : Z) (keys : gset NodeKey).

(** One call, its answer dropped. *)
Definition run_val (p : ValidationParms) (op : val_op) (w : W) s : outcome (W * Inner) :=
  match op with
  | OpAdd now n v => '(_, ws) ← add p now n v w s; mret ws
  | OpAcquired l => on_ledger_acquired p l w s
  | OpUnacquired i => '(_, ws) ← on_ledger_unacquired p i w s; mret ws
  | OpTrustChanged added removed => trust_changed added removed w s
  | OpExpire now => mret (w, expire p now s)
  | OpKeep low high => s ← set_seq_to_keep low high s; mret (w, s)
  | OpFlush => mret (w, flush s)
  | OpCanValidate now q => mret (w, (can_validate_seq p now q s).2)
  | OpReconcile a c => mret (w, reconcile_validation_recovery_latch a c s)
  | OpPreferred curr => '(_, ws) ← get_preferred p curr w s; mret ws
  | OpPreferredLcl lcl m pc => '(_, ws) ← get_preferred_lcl_diagnostic p lcl m pc w s; mret ws
  | OpNodesAfter l i => '(_, ws) ← get_nodes_after p l i w s; mret ws
  | OpNumTrusted i now => mret (w, (num_trusted_for_ledger i now s).2)
  | OpLaggards q keys => '(_, ws) ← laggards p q keys w s; mret ws
  end.

Section Safety.
Context (base : Z) (valid : L -> Prop) `{!HistoryLaws L Id base valid}.
Context (U : gset NodeId).

(** What a caller owes: validators of [U], ledgers of the family, a nonempty
    range to keep, and a current ledger that can have a successor. *)
Definition val_op_ok (op : val_op) : Prop :=
  match op with
  | OpAdd _ n _ => n ∈ U
  | OpAcquired l | OpNodesAfter l _ => valid l
  | OpKeep low high => low < high
  | OpPreferred l | OpPreferredLcl l _ _ => 0 <= seq l < u32_max
  | _ => True
  end.

Inductive val_reachable (p : ValidationParms) : W -> Inner -> Prop :=
| val_start w : val_reachable p w inner_new
| val_step w s op w' s' :
    val_reachable p w s -> val_op_ok op -> run_val p op w s = Ok (w', s') -> val_reachable p w' s'.

Context (HU : Z.of_nat (size U) <= u32_max).
Context (acquire_valid : forall w i l w', acquire w i = (Some l, w') -> valid l).
Notation inner_ok := (inner_ok base valid U).

Lemma tracker_branch_support_ok t l :
  trie_ok valid t -> valid l ->
  exists b, trie_branch_support t l = Ok b /\ 0 <= b <= u32_max
    /\ forall tip, trie_tip_support t (id l) = Ok tip -> 0 <= tip <= b.
Proof.
  intros Ht Hl. pose proof Ht as [_ Hh Hs _ _]. unfold trie_branch_support, trie_tip_support, id.
  destruct (find_by_ledger_id t (ancestor l (seq l))) as [i|] eqn:E.
  - pose proof (find_by_ledger_id_spec t (ancestor l (seq l))) as Hf. rewrite E in Hf.
    destruct Hf as (n & Hi & _). rewrite (get_node_live _ _ _ Hi). simpl. eexists. split; [done|].
    pose proof (s_pos _ _ Hs _ _ Hi). pose proof (s_branch _ _ Hs _ _ Hi) as Hb. simpl in Hb.
    pose proof (s_tip _ _ Hs _ _ Hi).
    assert (0 <= child_sum (heap t) (children n)).
    { apply zsum_nonneg. intros. by eapply branch_at_nonneg. }
    split; [done|]. intros tip [= <-]. lia.
  - destruct (find_spec valid t l Hh Hl) as (loc & d & Ef & [(n & Hn & _)]). rewrite Ef. simpl.
    rewrite (get_node_live _ _ _ Hn). simpl. eexists. split; [done|].
    pose proof (s_pos _ _ Hs _ _ Hn). split; [destruct (_ && _); machine|].
    intros tip [= <-]. destruct (_ && _); machine.
Qed.

Lemma tip_support_ok t (x : Id) : trie_ok valid t -> exists v, trie_tip_support t x = Ok v.
Proof.
  intros _. unfold trie_tip_support. pose proof (find_by_ledger_id_spec t x) as Hf.
  destruct (find_by_ledger_id t x) as [i|]; [|by eexists]. destruct Hf as (n & Hi & _).
  rewrite (get_node_live _ _ _ Hi). by eexists.
Qed.

Lemma inner_trie_ok s : inner_ok s -> trie_ok valid (trie s).
Proof. intros [[[? _ _] _ _] _ _ _ _ _]. done. Qed.

Lemma get_preferred_runs p curr w s :
  inner_ok s -> 0 <= seq curr < u32_max -> exists r w' s', get_preferred p curr w s = Ok (r, (w', s')) /\ inner_ok s'.
Proof.
  intros Hs Hq. unfold get_preferred.
  destruct (with_trie_ok base valid U HU acquire_valid p w s Hs) as (w1 & s1 & -> & Hs1). simpl.
  destruct (get_preferred_ok valid (trie s1) (largest (local_seq_enforcer s)))
    as (o & -> & _); [by apply inner_trie_ok|]. simpl.
  destruct o as [t|]; simpl; [|by eauto 10].
  destruct (follows_ok t curr Hq) as [b ->]. simpl. eauto 10.
Qed.

Lemma observe_ok o s :
  inner_ok s -> (forall q, o = Some q -> proof_nodes q ⊆ U) ->
  inner_ok (observe_validation_recovery o s).
Proof.
  intros Hs Ho. pose proof (io_anchor _ _ _ _ Hs) as Ha. pose proof (io_candidate _ _ _ _ Hs) as Hc.
  unfold observe_validation_recovery. destruct o as [q|]; [|by apply latch_ok].
  specialize (Ho q eq_refl).
  destruct (validation_recovery_anchor s) as [a|] eqn:Ea.
  2:{ apply latch_ok; [done | by intros ? [= <-] | done]. }
  pose proof (Ha a eq_refl).
  case_bool_decide.
  { apply latch_ok; [done | intros ? [= <-]; simpl; set_solver | done]. }
  destruct (validation_recovery_candidate s) as [c|] eqn:Ec; [case_bool_decide|];
    (apply latch_ok; [done | by intros ? [= <-] | intros ? [= <-]; simpl]); try done.
  pose proof (Hc c eq_refl). set_solver.
Qed.

Lemma working_choice_ok lcl (o : option (SpanTip L Id)) k :
  0 <= seq lcl < u32_max -> exists r, working_choice lcl o k = Ok r.
Proof.
  intros Hq. unfold working_choice. destruct o as [t|]; [|by eexists].
  destruct (follows_ok t lcl Hq) as [b ->]. by eexists.
Qed.

Lemma preferred_lcl_runs p lcl m pc w s :
  inner_ok s -> 0 <= seq lcl < u32_max ->
  exists d w' s', get_preferred_lcl_diagnostic p lcl m pc w s = Ok (d, (w', s')) /\ inner_ok s'.
Proof.
  intros Hs Hq. unfold get_preferred_lcl_diagnostic.
  destruct (with_trie_ok base valid U HU acquire_valid p w s Hs) as (w1 & s1 & -> & Hs1). simpl.
  destruct (get_preferred_ok valid (trie s1) (largest (local_seq_enforcer s)))
    as (o & -> & _); [by apply inner_trie_ok|]. simpl.
  destruct (working_choice_ok lcl o (acquiring_best s1) Hq) as [[wk src] ->]. simpl.
  destruct (select_lcl _ _ _ _) as [ch sel].
  eexists _, _, _. split; [done|]. apply observe_ok; [done|]. intros q Hr.
  apply fmap_Some in Hr as ([[k sup] ps] & _ & ->). simpl.
  intros n Hn%elem_of_list_to_set. apply list_elem_of_filter in Hn as [_ Hn].
  apply elem_of_hash_set_iter in Hn.
  destruct (acquiring s1 !! k) as [ws|] eqn:E; simpl in Hn; [|set_solver].
  destruct (io_waiters _ _ _ _ Hs1 _ _ E). set_solver.
Qed.

Lemma get_nodes_after_runs p l i w s :
  inner_ok s -> valid l ->
  exists c w' s', get_nodes_after p l i w s = Ok (c, (w', s')) /\ inner_ok s'.
Proof.
  intros Hs Hl. unfold get_nodes_after. case_bool_decide; [|by eexists _, _, _].
  destruct (with_trie_ok base valid U HU acquire_valid p w s Hs) as (w1 & s1 & -> & Hs1). simpl.
  pose proof (inner_trie_ok s1 Hs1) as Ht.
  destruct (tracker_branch_support_ok (trie s1) l Ht Hl) as (b & -> & _). simpl.
  destruct (tip_support_ok (trie s1) (id l) Ht) as (v & ->). simpl. eauto 10.
Qed.

Lemma take_exact_sub (k : Z * Id) (ps : list (ValidationRecoveryProvenance Id NodeId)) q :
  (length ps <= 2)%nat ->
  ((take_exact k ps).1 = Some q -> q ∈ ps) /\ (q ∈ (take_exact k ps).2 -> q ∈ ps).
Proof.
  intros Hlen. destruct ps as [|a [|b [|c ps]]]; simpl in Hlen; [..|lia]; simpl.
  - split; [done|]. by intros ?%elem_of_nil.
  - case_bool_decide; simpl; set_solver.
  - repeat case_bool_decide; simpl; set_solver.
Qed.

Lemma reconcile_ok a c s : inner_ok s -> inner_ok (reconcile_validation_recovery_latch a c s).
Proof.
  intros Hs. pose proof (io_anchor _ _ _ _ Hs) as Ha. pose proof (io_candidate _ _ _ _ Hs) as Hc.
  unfold reconcile_validation_recovery_latch.
  set (ps := option_list _ ++ option_list _).
  assert (forall q, q ∈ ps -> proof_nodes q ⊆ U) as Hps.
  { intros q. unfold ps. rewrite elem_of_app.
    destruct (validation_recovery_anchor s), (validation_recovery_candidate s); simpl;
      rewrite ?list_elem_of_singleton, ?elem_of_nil; intros [?|?]; subst; auto; done. }
  assert (length ps <= 2)%nat as Hlen.
  { unfold ps. rewrite length_app. destruct (validation_recovery_anchor s),
      (validation_recovery_candidate s); simpl; lia. }
  clearbody ps.
  destruct (match a with Some k => take_exact k ps | None => (None, ps) end) as [an ps1] eqn:E1.
  assert ((forall q, an = Some q -> proof_nodes q ⊆ U) /\ (forall q, q ∈ ps1 -> q ∈ ps)
    /\ (length ps1 <= 2)%nat) as (Han & Hsub & Hlen1).
  { destruct a as [k|]; [|injection E1 as <- <-; by split_and!].
    split_and!.
    - intros q ->. apply Hps, (proj1 (take_exact_sub k ps q Hlen)). by rewrite E1.
    - intros q Hq. apply (proj2 (take_exact_sub k ps q Hlen)). by rewrite E1.
    - destruct ps as [|x [|y [|z ps]]]; simpl in Hlen; [..|lia]; simpl in E1;
        repeat case_bool_decide; simplify_eq/=; lia. }
  destruct (match _ with Some k => take_exact k ps1 | None => (None, ps1) end) as [cn ps2] eqn:E2.
  apply latch_ok; [done..|]. intros q ->. apply Hps, Hsub.
  destruct (match c with Some k => _ | None => None end) as [k|]; [|done].
  apply (proj1 (take_exact_sub k ps1 q Hlen1)). by rewrite E2.
Qed.

Lemma run_val_ok p op w s :
  inner_ok s -> val_op_ok op -> exists w' s', run_val p op w s = Ok (w', s') /\ inner_ok s'.
Proof.
  intros Hs Hop. destruct op; simpl in *.
  - destruct (add_ok base valid U HU acquire_valid p now n v w s Hs Hop) as (w' & s' & -> & ? & _).
    by eexists _, _.
  - by apply (on_ledger_acquired_ok base valid U HU acquire_valid).
  - destruct (on_ledger_unacquired_ok base valid U HU acquire_valid p i w s Hs) as (? & w' & s' & -> & ?).
    by eexists _, _.
  - by apply (trust_changed_ok base valid U HU acquire_valid).
  - eexists _, _. split; [done|]. apply (bookkeeping_ok base valid U s);
      [done | unfold expire; by repeat case_match..].
  - unfold set_seq_to_keep. rewrite (proj2 (Z.ltb_lt _ _) Hop). simpl.
    eexists _, _. split; [done|]. by apply (bookkeeping_ok base valid U s).
  - eexists _, _. split; [done|]. apply latch_ok; [|done|done].
    apply set_current_ok; [done|]. set_solver.
  - eexists _, _. split; [done|]. unfold can_validate_seq. destruct (try_advance _ _ _ _).
    by apply (bookkeeping_ok base valid U s).
  - eexists _, _. split; [done|]. by apply reconcile_ok.
  - destruct (get_preferred_runs p curr w s Hs Hop) as (? & w' & s' & -> & ?). by eexists _, _.
  - destruct (preferred_lcl_runs p lcl min_seq peer_counts w s Hs Hop) as (? & w' & s' & -> & ?).
    by eexists _, _.
  - destruct (get_nodes_after_runs p l i w s Hs Hop) as (? & w' & s' & -> & ?). by eexists _, _.
  - eexists _, _. split; [done|]. by apply (bookkeeping_ok base valid U s).
  - unfold laggards. destruct (adaptor_now w) as [now w1].
    destruct (current_live_keeps base valid U HU acquire_valid p w1 s Hs) as (live & w2 & s2 & -> & ?). simpl.
    destruct (foldl _ _ _). by eexists _, _.
Qed.

Lemma val_reachable_ok p w s : val_reachable p w s -> inner_ok s.
Proof.
  induction 1 as [|w s op w' s' _ IH Hop E]; [by apply inner_new_ok|].
  destruct (run_val_ok p op w s IH Hop) as (w'' & s'' & E' & Hs''). congruence.
Qed.

(** The trie of a reachable tracker counts the resident ledgers. *)
Lemma reachable_trie_exact p w s op :
  val_reachable p w s -> val_op_ok op ->
  exists w' s', run_val p op w s = Ok (w', s')
    /\ (forall x, trie_tip_support (trie s') x
         = Ok (Z.of_nat (size (filter (fun nl => id nl.2 = x) (last_ledger s')))))
    /\ total_support (heap (trie s')) = Z.of_nat (size (last_ledger s')).
Proof.
  intros Hr Hop. pose proof (val_reachable_ok p w s Hr) as Hs.
  destruct (run_val_ok p op w s Hs Hop) as (w' & s' & E & Hs'). exists w', s'.
  split; [done|]. destruct Hs' as [[Him Htot _] _ _ _ _ _]. split; [|done]. intros x.
  rewrite (implements_query base valid _ _ x Him). f_equal. unfold last_table.
  apply msum_indicator.
Qed.

(** what [add] answers and does: a validation outside the time window is
    stale and changes nothing; one that does not advance its validator's
    sequence is refused as conflicting, multiple or out of sequence, by what the
    tracker remembers of that sequence; otherwise it becomes the validator's
    current validation exactly when it was signed after the old one. *)
Theorem add_spec p now n v w s :
  val_reachable p w s -> n ∈ U ->
  exists w' s', add p now n v w s = Ok (add_status p now (adaptor_now w).1 n v s, (w', s'))
    /\ current s' = match add_status p now (adaptor_now w).1 n v s with
                    | Current => <[n := v]> (current s)
                    | _ => current s
                    end.
Proof.
  intros Hr Hn. pose proof (val_reachable_ok p w s Hr) as Hs.
  destruct (add_ok base valid U HU acquire_valid p now n v w s Hs Hn) as (w' & s' & E & _ & Hc). eauto.
Qed.

(** counting validators ahead of a ledger never underflows: the number is
    the support of the ledger's branch less the support of the ledger itself. *)
Theorem get_nodes_after_spec p l w s :
  val_reachable p w s -> valid l ->
  exists b t w' s', get_nodes_after p l (id l) w s = Ok (b - t, (w', s'))
    /\ trie_branch_support (trie s') l = Ok b /\ trie_tip_support (trie s') (id l) = Ok t
    /\ 0 <= t <= b.
Proof.
  intros Hr Hl. pose proof (val_reachable_ok p w s Hr) as Hs. unfold get_nodes_after.
  rewrite bool_decide_true by done.
  destruct (with_trie_ok base valid U HU acquire_valid p w s Hs) as (w1 & s1 & -> & Hs1). simpl.
  pose proof (inner_trie_ok s1 Hs1) as Ht.
  destruct (tracker_branch_support_ok (trie s1) l Ht Hl) as (b & Eb & Hb & Htb).
  destruct (tip_support_ok (trie s1) (id l) Ht) as (t & Et). rewrite Eb, Et. simpl.
  specialize (Htb t Et). rewrite wrap_u64_id by machine. eauto 10.
Qed.

(** after any call that reads the current validations, what is left is what
    was current before and is still inside the time window at that moment. *)
Theorem current_live_spec p w s :
  val_reachable p w s ->
  exists w' s', current_live p w s = Ok (hash_iter (current s'), (w', s'))
    /\ current s' = filter (fun nv => is_current p (adaptor_now w).1 (sign_time nv.2)
         (seen_time nv.2) = true) (current s).
Proof.
  intros Hr. pose proof (val_reachable_ok p w s Hr) as Hs.
  destruct (current_live_ok base valid U HU acquire_valid p w s Hs) as (w' & s' & E & _ & Hc). eauto.
Qed.
End Safety.

(** C4: through every sequence of calls of the tracker, no call panics and the
    trie counts exactly the resident ledgers: the support of an id is the number
    of validators whose last acquired ledger has that id, and the total support
    is the number of such validators.  This is for ledgers that know their
    ancestry from a common sequence [base] on and share the ledger at [base]
    ([HistoryLaws]): those are the ledgers the adaptor may supply and the caller
    may report; beyond that the adaptor may answer anything at any time.  The
    callers keep to [val_op_ok]: at most 2^32 - 1 validators, a nonempty range to
    keep, and a current ledger whose sequence has a successor. *)
Theorem tracker_trie_exact (base : Z) (valid : L -> Prop) (U : gset NodeId) p w s op :
  HistoryLaws L Id base valid -> Z.of_nat (size U) <= u32_max ->
  (forall w i l w', acquire w i = (Some l, w') -> valid l) ->
  val_reachable valid U p w s -> val_op_ok valid U op ->
  exists w' s', run_val p op w s = Ok (w', s')
    /\ (forall x, trie_tip_support (trie s') x
         = Ok (Z.of_nat (size (filter (fun nl => id nl.2 = x) (last_ledger s')))))
    /\ total_support (heap (trie s')) = Z.of_nat (size (last_ledger s')).
Proof. intros Hl HU Ha. by apply (reachable_trie_exact base valid U HU Ha). Qed.

(** ** The preferred last closed ledger *)

(** [get_preferred_lcl_diagnostic] and [get_preferred] agree: both read the
    same working preference; the selected ledger is the one of
    [get_preferred_min_seq] whenever there is such a preference, and only
    without one do the counts reported by peers decide, the local ledger being
    the last resort. *)
Theorem preferred_lcl_agrees p lcl min_seq peer_counts w s d ws :
  get_preferred_lcl_diagnostic p lcl min_seq peer_counts w s = Ok (d, ws) ->
  exists ws', get_preferred p lcl w s = Ok (working_preferred d, ws')
    /\ match working_preferred d with
       | Some _ => get_preferred_min_seq p lcl min_seq w s = Ok (selected d, ws')
       | None => selected d = match peer_preferred d with Some (i, _) => i | None => id lcl end
       end.
Proof.
  unfold get_preferred_min_seq, get_preferred, get_preferred_lcl_diagnostic.
  destruct (with_trie p w s) as [[w1 s1]| |]; simpl; [|done|done].
  destruct (LedgerTrie.get_preferred (trie s1) _) as [o| |]; simpl; [|done|done].
  destruct (working_choice lcl o (acquiring_best s1)) as [[wk src]| |] eqn:Ew; simpl; [|done|done].
  destruct (select_lcl _ _ _ _) as [ch sel] eqn:Es. intros [= <- _]. simpl.
  assert (match o with
    | None => mret (acquiring_best s1)
    | Some t =>
        child ← follows t lcl;
        mret (if (child : bool) then Some (seq lcl, id lcl)
              else if seq lcl <? tip_seq t then Some (tip_seq t, tip_id t)
              else if negb (bool_decide (ancestor lcl (tip_seq t) = tip_id t))
              then Some (tip_seq t, tip_id t) else Some (seq lcl, id lcl))
    end = Ok wk) as Hr.
  { unfold working_choice in Ew. destruct o as [t|].
    - destruct (follows t lcl) as [b| |]; simpl in *; [|done|done]. injection Ew as <- _.
      destruct b; [done|]. destruct (seq lcl <? tip_seq t); [done|]. simpl. by case_bool_decide.
    - simpl in *. by destruct (acquiring_best s1); injection Ew as <- _. }
  rewrite Hr. simpl. eexists. split; [done|]. unfold select_lcl in Es.
  destruct wk as [[q i]|].
  - destruct (min_seq <=? q); by injection Es as <- _.
  - destruct (max_by _ _) as [[i c]|]; by injection Es as <- _.
Qed.

(** the peer fallback is the ledger most peers report, ties broken towards
    the greater id. *)
Theorem peer_fallback_spec p lcl min_seq peer_counts w s d ws i c :
  get_preferred_lcl_diagnostic p lcl min_seq peer_counts w s = Ok (d, ws) ->
  selection_source d = PeerFallback -> peer_preferred d = Some (i, c) ->
  selected d = i /\ peer_counts !! i = Some c
  /\ forall i' c', peer_counts !! i' = Some c' -> c' <= c /\ (c' = c -> ord_ltb i i' = false).
Proof.
  unfold get_preferred_lcl_diagnostic.
  destruct (with_trie p w s) as [[w1 s1]| |]; simpl; [|done|done].
  destruct (LedgerTrie.get_preferred (trie s1) _) as [o| |]; simpl; [|done|done].
  destruct (working_choice lcl o (acquiring_best s1)) as [[wk src]| |]; simpl; [|done|done].
  destruct (select_lcl _ _ _ _) as [ch sel] eqn:Es. intros [= <- _]. simpl. intros -> Hp.
  rewrite Hp in Es. unfold select_lcl in Es.
  assert (ch = i) as ->.
  { destruct wk as [[q j]|]; [by destruct (min_seq <=? q)|]. by injection Es as <-. }
  set (gtb := fun a b : Id * Z => _) in Hp.
  assert (forall a b, gtb a b = true -> gtb b a = false) as Hasym.
  { intros a b Hab. unfold gtb in *. destruct (ord_ltb (a.2, a.1) (b.2, b.1)) eqn:E; [|done].
    pose proof (ord_trans _ _ _ Hab E) as Hc. by rewrite ord_irrefl in Hc. }
  assert (forall a b c, gtb a b = false -> gtb b c = false -> gtb a c = false) as Htr.
  { intros x y z Hxy Hyz. unfold gtb in *.
    pose proof (ord_leb_trans (x.2, x.1) (y.2, y.1) (z.2, z.1)) as Ht. unfold ord_leb in Ht.
    rewrite Hxy, Hyz in Ht. specialize (Ht eq_refl eq_refl). by rewrite negb_true_iff in Ht. }
  split; [done|]. split.
  { apply max_by_elem in Hp. by rewrite elem_of_btree_iter in Hp. }
  intros i' c' Hi'. pose proof (max_by_greatest gtb _ _ (i', c') Hasym Htr Hp) as Hg.
  rewrite elem_of_btree_iter in Hg. specialize (Hg Hi'). unfold gtb in Hg. simpl in Hg.
  unfold ord_ltb, pair_ord in Hg. simpl in Hg. apply orb_false_iff in Hg as [Hlt Htie].
  unfold ord_ltb at 1, Z_ord in Hlt. apply Z.ltb_ge in Hlt. split; [done|]. intros ->.
  unfold ord_ltb at 1, Z_ord in Htie. rewrite Z.ltb_irrefl in Htie. exact Htie.
Qed.
End Run.

(** ** The increasing-sequence rule *)

(** The acceptances of one enforcer, latest first, and the time of the last
    call; calls come in the order of the monotonic clock. *)
Inductive enforced (p : ValidationParms) : SeqEnforcer -> list (Z * Z) -> Z -> Prop :=
| enforced_new last : enforced p enforcer_default [] last
| enforced_accept e acc last now q e' :
    enforced p e acc last -> last <= now -> try_advance now q p e = (true, e') ->
    enforced p e' ((now, q) :: acc) now
| enforced_refuse e acc last now q e' :
    enforced p e acc last -> last <= now -> try_advance now q p e = (false, e') ->
    enforced p e' acc now.

(** Each acceptance is above the one before it, or comes after that expired. *)
Fixpoint increasing (expires : Z) (acc : list (Z * Z)) : Prop :=
  match acc with
  | (now, q) :: (((before, q0) :: _) as rest) =>
      (q0 < q \/ before + expires < now) /\ increasing expires rest
  | _ => True
  end.

Lemma enforced_state p e acc last :
  enforced p e acc last ->
  increasing (validation_set_expires p) acc
  /\ match acc with
     | [] => e = enforcer_default
     | (before, q) :: _ => se_when e = Some before
         /\ (se_seq e = q \/ (se_seq e = 0 /\ before + validation_set_expires p < last))
     end.
Proof.
  induction 1 as [|e acc last now q e' _ [IHi IHs] Hle E|e acc last now q e' _ [IHi IHs] Hle E];
    [done|..]; unfold try_advance in E; destruct acc as [|[before q0] acc].
  - subst e. simpl in E. destruct (q <=? 0); simplify_eq. split; [done|]. simpl. auto.
  - destruct IHs as [Hw Hq]. rewrite Hw in E.
    destruct (Z.ltb_spec (before + validation_set_expires p) now); simpl in E;
      [destruct (Z.leb_spec q 0)|destruct (Z.leb_spec q (se_seq e))]; simplify_eq;
      (split; [split; [lia | done] | simpl; auto]).
  - subst e. simpl in E. destruct (q <=? 0); by simplify_eq.
  - destruct IHs as [Hw Hq]. rewrite Hw in E.
    destruct (Z.ltb_spec (before + validation_set_expires p) now); simpl in E;
      [destruct (Z.leb_spec q 0)|destruct (Z.leb_spec q (se_seq e))]; simplify_eq;
      (split; [done | simpl; split; [done | lia]]).
Qed.

(** a validator's accepted sequence numbers strictly increase: through any
    run of calls, each accepted sequence is above the previously accepted one
    unless that acceptance is older than the expiry. *)
Theorem sequences_increase p e acc last :
  enforced p e acc last -> increasing (validation_set_expires p) acc.
Proof. intros He. by apply enforced_state in He as [? _]. Qed.

Lemma sequences_increase_witness :
  increasing (validation_set_expires default_validation_parms) [(9, 8); (5, 7)].
Proof.
  apply (sequences_increase default_validation_parms (mkEnforcer 8 (Some 9)) _ 9).
  apply (enforced_accept _ (mkEnforcer 7 (Some 5)) _ 5); [|lia|reflexivity].
  apply (enforced_accept _ enforcer_default _ 0); [apply enforced_new|lia|reflexivity].
Defined.

(** ** Expiry *)

Section Expiry.
Context `{!HashOrder} {K V : Type} `{Countable K}.
Implicit Types m : AgedMap K V.

Lemma fold_delete (ks : list K) m k :
  let m' := foldl (fun m k => mkAged (delete k (entries m)) (delete k (last_touched m))) m ks in
  entries m' !! k = (if decide (k ∈ ks) then None else entries m !! k)
  /\ last_touched m' !! k = (if decide (k ∈ ks) then None else last_touched m !! k).
Proof.
  revert m. induction ks as [|a ks IH]; intros m; simpl; [done|].
  destruct (IH (mkAged (delete a (entries m)) (delete a (last_touched m)))) as [-> ->]. simpl.
  destruct (decide (k ∈ ks)); [rewrite !decide_True by set_solver; done|].
  destruct (decide (k = a)) as [->|].
  - rewrite !lookup_delete_eq, !decide_True by set_solver. done.
  - rewrite !lookup_delete_ne, !decide_False by set_solver. done.
Qed.

Lemma aged_expire_lookup now ttl m k :
  entries (aged_expire now ttl None m) !! k
    = match last_touched m !! k with
      | Some t => if decide (ttl <= saturating_duration_since now t) then None else entries m !! k
      | None => entries m !! k
      end.
Proof.
  unfold aged_expire. rewrite (proj1 (fold_delete _ m k)).
  set (ks := (filter _ _).*1).
  assert (k ∈ ks <-> exists t, last_touched m !! k = Some t
    /\ ttl <= saturating_duration_since now t) as Hks.
  { unfold ks. rewrite list_elem_of_fmap. split.
    - intros ([k' t] & -> & [Ht Hin]%list_elem_of_filter). exists t. simpl in *.
      by rewrite elem_of_hash_iter in Hin.
    - intros (t & Hk & Ht). exists (k, t). split; [done|]. apply list_elem_of_filter.
      by rewrite elem_of_hash_iter. }
  destruct (last_touched m !! k) as [t|] eqn:E.
  - destruct (decide (ttl <= _)); [by rewrite decide_True by (apply Hks; eauto)|].
    rewrite decide_False; [done|]. intros (t' & ? & ?)%Hks. by simplify_eq.
  - rewrite decide_False; [done|]. by intros (t' & ? & ?)%Hks.
Qed.

Lemma fold_touch now (ks : list K) m k :
  let m' := foldl (fun m k => touch k now m) m ks in
  entries m' = entries m
  /\ last_touched m' !! k = (if decide (k ∈ ks) then Some now else last_touched m !! k).
Proof.
  revert m. induction ks as [|a ks IH]; intros m; simpl; [done|].
  destruct (IH (touch a now m)) as [-> ->]. simpl. split; [done|].
  destruct (decide (k ∈ ks)); [rewrite decide_True by set_solver; done|].
  destruct (decide (k = a)) as [->|].
  - rewrite lookup_insert_eq, decide_True by set_solver. done.
  - rewrite lookup_insert_ne, decide_False by set_solver. done.
Qed.
End Expiry.

Section ExpiryTheorem.
Context `{!HashOrder} {L Id NodeId NodeKey : Type}.
Context `{!TrieLedger L Id} `{!TotalOrd Id} `{Countable Id} `{Countable NodeId}
  `{Countable NodeKey}.

(** Whether the sweep at [now] refreshes the protected range. *)
Definition protects (now q : Z) (s : Inner L Id NodeId NodeKey) : Prop :=
  match keep s with
  | Some (low, high) => low <= q < high
      /\ match next_keep_refresh s with Some r => r <= now | None => True end
  | None => False
  end.

(** a sweep drops the validations of a sequence exactly when they were not
    touched for the expiry time, unless the sequence lies in the protected range
    and the range is due for a refresh, which keeps them. *)
Theorem expire_spec p now q (s : Inner L Id NodeId NodeKey) :
  0 < validation_set_expires p ->
  let kept := entries (by_sequence (expire p now s)) !! q in
  (protects now q s -> kept = entries (by_sequence s) !! q)
  /\ (~ protects now q s ->
      kept = match last_touched (by_sequence s) !! q with
             | Some t => if decide (validation_set_expires p <= saturating_duration_since now t)
                         then None else entries (by_sequence s) !! q
             | None => entries (by_sequence s) !! q
             end).
Proof.
  intros Hp. cbn zeta. unfold expire, protects.
  destruct (keep s) as [[low high]|] eqn:Ek; simpl.
  2:{ rewrite aged_expire_lookup. tauto. }
  set (due := match next_keep_refresh s with Some r => r <=? now | None => true end).
  assert (match next_keep_refresh s with Some r => r <= now | None => True end <-> due = true) as Hdue.
  { unfold due. destruct (next_keep_refresh s); [by rewrite Z.leb_le|done]. }
  rewrite Hdue. clearbody due. destruct due; simpl; rewrite aged_expire_lookup.
  2:{ split; [by intros [_ ?]|done]. }
  set (ks := filter _ _).
  destruct (fold_touch now ks (by_sequence s) q) as [He Ht]. rewrite He, Ht.
  assert (q ∈ ks <-> low <= q < high /\ is_Some (entries (by_sequence s) !! q)) as Hks.
  { unfold ks. rewrite list_elem_of_filter, list_elem_of_fmap. split.
    - intros [? ([k v] & -> & Hin)]. rewrite elem_of_hash_iter in Hin. simpl. eauto.
    - intros [? [v Hv]]. split; [done|]. exists (q, v). by rewrite elem_of_hash_iter. }
  destruct (decide (q ∈ ks)) as [Hin|Hin].
  - rewrite decide_False; [split; [done|]|unfold saturating_duration_since; lia].
    intros Hn. exfalso. apply Hn. split; [|done]. by apply Hks.
  - split; [|done]. intros [Hr _].
    assert (entries (by_sequence s) !! q = None) as ->.
    { destruct (entries (by_sequence s) !! q) eqn:E; [|done]. exfalso. apply Hin, Hks. eauto. }
    by repeat case_match.
Qed.
End ExpiryTheorem.

(** ** Witnesses *)

(** An adaptor at network time 100 that can supply two ledgers. *)
Definition demo_adaptor : ValidationsAdaptor unit RclValidatedLedger Z := {|
  adaptor_now := fun w => (100, w);
  acquire := fun w i =>
    (if i =? 1102 then Some ledger_102 else if i =? 1103 then Some ledger_103 else None, w)
|}.

Definition demo_val : Validation Z Z Z := mkVal 1102 102 90 95 7 true true 1 None 0.
Definition demo_nodes : gset Z := {[1; 2]}.

Section Demo.
#[local] Existing Instance canonical_order.
#[local] Existing Instance demo_adaptor.

Lemma demo_nodes_bound : Z.of_nat (size demo_nodes) <= u32_max.
Proof. vm_compute. congruence. Qed.

Lemma demo_acquire_valid w i l w' : acquire w i = (Some l, w') -> or_genesis known l.
Proof.
  simpl. destruct (i =? 1102); [intros [= <- _]; apply family_known; left|].
  destruct (i =? 1103); [intros [= <- _]; apply family_known; right; left|]. done.
Qed.

Lemma demo_node_known : 1 ∈ demo_nodes.
Proof. set_solver. Qed.

Lemma tracker_trie_exact_witness :
  exists w' s', run_val default_validation_parms (OpAdd 5 1 demo_val) tt inner_new = Ok (w', s')
    /\ total_support (heap (trie s')) = Z.of_nat (size (last_ledger s')).
Proof.
  destruct (tracker_trie_exact 101 (or_genesis known) demo_nodes
    default_validation_parms tt inner_new (OpAdd 5 1 demo_val)) as (w' & s' & E & _ & Ht).
  - exact known_laws.
  - exact demo_nodes_bound.
  - exact demo_acquire_valid.
  - apply val_start.
  - exact demo_node_known.
  - exists w', s'. split; [exact E | exact Ht].
Defined.

Lemma add_spec_witness :
  exists w' s', add default_validation_parms 5 1 demo_val tt inner_new = Ok (Current, (w', s'))
    /\ current s' = <[1 := demo_val]> ∅.
Proof.
  destruct (add_spec 101 (or_genesis known) demo_nodes demo_nodes_bound demo_acquire_valid
    default_validation_parms 5 1 demo_val tt inner_new) as (w' & s' & E & Hc).
  - apply val_start.
  - exact demo_node_known.
  - exists w', s'. split; [exact E | exact Hc].
Defined.

Lemma get_nodes_after_spec_witness :
  exists b t w' s', get_nodes_after default_validation_parms ledger_102 1102 tt
      (inner_new : Inner RclValidatedLedger Z Z Z) = Ok (b - t, (w', s')) /\ 0 <= t <= b.
Proof.
  destruct (get_nodes_after_spec 101 (or_genesis known) demo_nodes demo_nodes_bound demo_acquire_valid
    (NodeKey := Z) default_validation_parms ledger_102 tt inner_new)
    as (b & t & w' & s' & E & _ & _ & Hr).
  - apply val_start.
  - apply family_known. left.
  - exists b, t, w', s'. split; [exact E | exact Hr].
Defined.

Lemma current_live_spec_witness :
  exists w' s', current_live default_validation_parms tt
      (inner_new : Inner RclValidatedLedger Z Z Z) = Ok (hash_iter (current s'), (w', s')).
Proof.
  destruct (current_live_spec 101 (or_genesis known) demo_nodes demo_nodes_bound demo_acquire_valid
    (NodeKey := Z) default_validation_parms tt inner_new) as (w' & s' & E & _).
  - apply val_start.
  - exists w', s'. exact E.
Defined.

(** A tracker without support: peers decide. *)
Definition demo_peers : gmap Z Z := {[12 := 3; 13 := 5]}.

Lemma preferred_lcl_agrees_witness :
  exists d ws, get_preferred_lcl_diagnostic default_validation_parms ledger_102 1 demo_peers tt
      (inner_new : Inner RclValidatedLedger Z Z Z) = Ok (d, ws)
    /\ exists ws', get_preferred default_validation_parms ledger_102 tt
         (inner_new : Inner RclValidatedLedger Z Z Z) = Ok (working_preferred d, ws').
Proof.
  eexists _, _. split; [vm_compute; reflexivity|].
  edestruct (preferred_lcl_agrees default_validation_parms ledger_102 1 demo_peers tt
    (inner_new : Inner RclValidatedLedger Z Z Z)) as (ws' & E & _); [vm_compute; reflexivity|].
  exists ws'. exact E.
Defined.

Lemma peer_fallback_spec_witness :
  exists d ws, get_preferred_lcl_diagnostic default_validation_parms ledger_102 1 demo_peers tt
      (inner_new : Inner RclValidatedLedger Z Z Z) = Ok (d, ws) /\ selected d = 13.
Proof.
  eexists _, _. split; [vm_compute; reflexivity|].
  eapply (peer_fallback_spec default_validation_parms ledger_102 1 demo_peers tt
    (inner_new : Inner RclValidatedLedger Z Z Z)); vm_compute; reflexivity.
Defined.

Lemma expire_spec_witness :
  entries (by_sequence (expire default_validation_parms 1000
    (inner_new : Inner RclValidatedLedger Z Z Z))) !! 4 = None.
Proof.
  destruct (expire_spec default_validation_parms 1000 4
    (inner_new : Inner RclValidatedLedger Z Z Z) ltac:(vm_compute; reflexivity)) as [_ Hn].
  apply Hn. intros [].
Defined.

(** A second validator moves the preferred ledger; an old validation is refused. *)
Example demo_run :
  ('(_, (w, s)) ← add default_validation_parms 5 1 demo_val tt inner_new;
   '(_, (w, s)) ← add default_validation_parms 6 2
     (mkVal 1103 103 91 95 8 true true 2 None 0 : Validation Z Z Z) w s;
   '(st, (w, s)) ← add default_validation_parms 7 1
     (mkVal 1101 101 92 96 7 true true 1 None 0 : Validation Z Z Z) w s;
   '(r, _) ← get_preferred default_validation_parms ledger_102 w s;
   mret (st, r)) = Ok (BadSeq, Some (102, 1102)).
Proof. vm_compute. reflexivity. Qed.
End Demo.
