(* ===== verification/Stateful.v ===== *)
(** * Handlers: computations on a state

    A method with [&mut self] is a function from the state to an outcome that
    carries the answer and the next state.  The file gives the monad, its
    combinators and the weakest-precondition rules the handler proofs use.  [F]
    says what is granted of a run that exhausts its fuel: [True] for safety,
    [False] for total correctness. *)

From S2P Require Import Prelude.

Definition handler (S A : Type) : Type := S -> outcome (A * S).

#[global] Instance handler_ret S : MRet (handler S) := fun A a s => Ok (a, s).
#[global] Instance handler_bind S : MBind (handler S) := fun A B f m s =>
  match m s with
  | Ok (a, s') => f a s'
  | Panic => Panic
  | OutOfFuel => OutOfFuel
  end.

Section Handlers.
Context {S : Type}.

Definition gets {A} (f : S -> A) : handler S A := fun s => Ok (f s, s).
Definition modify (f : S -> S) : handler S unit := fun s => Ok (tt, f s).
(** An outcome that does not touch the state. *)
Definition lift {A} (o : outcome A) : handler S A := fun s =>
  match o with Ok a => Ok (a, s) | Panic => Panic | OutOfFuel => OutOfFuel end.
Definition no_fuel {A} : handler S A := fun _ => OutOfFuel.
Definition when (b : bool) (m : handler S unit) : handler S unit :=
  if b then m else mret tt.
(** [debug_assert!]: a failed assertion panics. *)
Definition debug_assert (b : bool) : handler S unit := if b then mret tt else lift Panic.

(** A [for] loop over a snapshot. *)
Fixpoint for_each {A} (l : list A) (f : A -> handler S unit) : handler S unit :=
  match l with
  | [] => mret tt
  | x :: l' => _ ← f x; for_each l' f
  end.

(** ** Weakest preconditions *)

Definition wp {A} (F : Prop) (m : handler S A) (Q : A -> S -> Prop) (s : S) : Prop :=
  match m s with Ok (a, s') => Q a s' | Panic => False | OutOfFuel => F end.

Context (F : Prop).

Lemma wp_ret {A} (a : A) (Q : A -> S -> Prop) s : Q a s -> wp F (mret a) Q s.
Proof. done. Qed.

Lemma wp_bind {A B} (m : handler S A) (f : A -> handler S B) Q s :
  wp F m (fun a => wp F (f a) Q) s -> wp F (m ≫= f) Q s.
Proof.
  unfold wp, mbind, handler_bind. by destruct (m s) as [[a s']| |].
Qed.

Lemma wp_gets {A} (f : S -> A) (Q : A -> S -> Prop) s : Q (f s) s -> wp F (gets f) Q s.
Proof. done. Qed.

Lemma wp_modify f (Q : unit -> S -> Prop) s : Q tt (f s) -> wp F (modify f) Q s.
Proof. done. Qed.

Lemma wp_lift {A} (o : outcome A) (Q : A -> S -> Prop) s a : o = Ok a -> Q a s -> wp F (lift o) Q s.
Proof. by intros ->. Qed.

Lemma wp_mono {A} (m : handler S A) (Q Q' : A -> S -> Prop) s :
  wp F m Q s -> (forall a s', Q a s' -> Q' a s') -> wp F m Q' s.
Proof. unfold wp. destruct (m s) as [[a s']| |]; auto. Qed.

Lemma wp_when b m (Q : unit -> S -> Prop) s :
  (b = true -> wp F m Q s) -> (b = false -> Q tt s) -> wp F (when b m) Q s.
Proof. intros Ht Hf. unfold when. destruct b; [by apply Ht | by apply Hf]. Qed.

Lemma wp_debug_assert b (Q : unit -> S -> Prop) s : b = true -> Q tt s -> wp F (debug_assert b) Q s.
Proof. by intros ->. Qed.

(** A loop keeps what its body keeps. *)
Lemma wp_for_each {A} (l : list A) (f : A -> handler S unit) (I : S -> Prop) s :
  I s -> (forall x s, x ∈ l -> I s -> wp F (f x) (fun _ => I) s) ->
  wp F (for_each l f) (fun _ => I) s.
Proof.
  revert s. induction l as [|x l IH]; intros s HI Hf; [done|].
  simpl. apply wp_bind. eapply wp_mono; [apply Hf; [left | done]|].
  intros ? s' HI'. apply IH; [done|]. intros y s'' Hy. apply Hf. by right.
Qed.

(** The body may use what the earlier iterations established. *)
Lemma wp_for_each_prefix {A} (l : list A) (f : A -> handler S unit) (I : list A -> S -> Prop) s :
  I [] s ->
  (forall done x rest s, l = done ++ x :: rest -> I done s ->
     wp F (f x) (fun _ => I (done ++ [x])) s) ->
  wp F (for_each l f) (fun _ => I l) s.
Proof.
  intros HI Hf.
  assert (forall rest pre s, l = pre ++ rest -> I pre s ->
    wp F (for_each rest f) (fun _ => I l) s) as G; [|by apply (G l [])].
  induction rest as [|x rest IH]; intros pre s' -> HI'; [by rewrite app_nil_r|].
  simpl. apply wp_bind. eapply wp_mono; [by eapply Hf|].
  intros ? s'' HI''. apply (IH (pre ++ [x])); [by rewrite <- app_assoc | done].
Qed.

End Handlers.

Arguments wp : simpl never.

(** A total run returns. *)
Lemma wp_total {S A} (m : handler S A) Q s :
  wp False m Q s -> exists a s', m s = Ok (a, s') /\ Q a s'.
Proof. unfold wp. destruct (m s) as [[a s']| |]; [eauto | done | done]. Qed.

Lemma wp_safe {S A} (m : handler S A) Q s :
  wp True m Q s -> m s = OutOfFuel \/ exists a s', m s = Ok (a, s') /\ Q a s'.
Proof. unfold wp. destruct (m s) as [[a s']| |]; eauto; done. Qed.

(** Two facts about one run. *)
Lemma wp_and {S A} (F : Prop) (m : handler S A) Q Q' s :
  wp F m Q s -> wp F m Q' s -> wp F m (fun a s' => Q a s' /\ Q' a s') s.
Proof. unfold wp. destruct (m s) as [[a s']| |]; auto. Qed.

(** One step of a handler proof. *)
Ltac wp_step :=
  lazymatch goal with
  | |- wp _ (mret _) _ _ => apply wp_ret
  | |- wp _ (mbind _ _) _ _ => apply wp_bind
  | |- wp _ (gets _) _ _ => apply wp_gets
  | |- wp _ (modify _) _ _ => apply wp_modify
  | |- wp _ (when _ _) _ _ => apply wp_when; intros
  end; cbv beta.
Ltac wp_steps := repeat wp_step.
