(* ===== verification/Consensus.v ===== *)
(** * The consensus state machine: definitions

    [xrpld/consensus/src/algorithm/consensus.rs].  A method with [&mut self] is a
    handler on a [machine]: the [Consensus] record, the application behind the
    adaptor as a world [W], and the log of the calls made to it, newest first.
    The adaptor's questions are queries that may change the world; its
    notifications are events.  [usize], [i32] and [i64] arithmetic wraps,
    [expect] and [debug_assert!] panic.  The one unbounded recursion of the code
    ([timer_entry], [check_ledger], [handle_wrong_ledger], [start_round_internal],
    back to [timer_entry]) takes fuel. *)

From Stdlib Require Import SpecFloat.
From S2P Require Import Prelude Chrono Params Proposal DisputedTx Types Functions Stateful.

(** ** Conversions *)

Definition time_duration_to_std (d : Z) : Z :=
  from_secs (wrap_u64 (Z.max (whole_seconds_trunc d) 0)).
Definition std_duration_to_time (d : Z) : Z := seconds (wrap_i64 (as_secs d)).

(** [a / b] on [i64]. *)
Definition i64_div (a b : Z) : outcome Z :=
  if b =? 0 then Panic
  else if (a =? -9223372036854775808) && (b =? -1) then Panic
  else Ok (Z.quot a b).

(** [f32] operations: binary floats of 24 bits of precision. *)
Definition f32_of (n : Z) : spec_float := binary_normalize 24 128 n 0 false.
Definition f32_add := SFadd 24 128.
Definition f32_sub := SFsub 24 128.
Definition f32_mul := SFmul 24 128.
Definition f32_div := SFdiv 24 128.
Definition f32_lt := SFltb.

(** ** What consensus asks of transactions, sets and ledgers *)

Class ConsensusTx (Tx TxId : Type) := get_tx_id : Tx -> TxId.

(** [insert] and [erase] return whether they changed the set, with the set. *)
Class ConsensusTxSet (TxSet TxSetId Tx TxId : Type) `{Countable TxId} := {
  exists_tx : TxSet -> TxId -> bool;
  find_tx : TxSet -> TxId -> option Tx;
  set_id : TxSet -> TxSetId;
  compare_sets : TxSet -> TxSet -> gmap TxId bool;
  insert_tx : TxSet -> Tx -> bool * TxSet;
  erase_tx : TxSet -> TxId -> bool * TxSet
}.

(** Sequence numbers are [u32]. *)
Class ConsensusLedger (L LId : Type) := {
  ledger_id : L -> LId;
  ledger_seq : L -> Z;
  ledger_close_time_resolution : L -> Z;
  ledger_close_agree : L -> bool;
  ledger_close_time : L -> NetClockTimePoint;
  ledger_parent_close_time : L -> NetClockTimePoint;
  ledger_default : L;
  ledger_id_default : LId
}.

Class PeerPosition (PeerPos NodeId LId TxSetId : Type) :=
  proposal : PeerPos -> ConsensusProposal NodeId LId TxSetId.

Section State.
Context {L LId NodeId TxSet TxSetId Tx TxId PeerPos : Type}.
Context `{Countable NodeId} `{Countable TxSetId} `{Countable TxId}.

Abbreviation CResult := (ConsensusResult TxSet NodeId LId TxSetId Tx TxId).

(** The calls that tell the application something. *)
Inductive event :=
| ModeChange (before after : ConsensusMode)
| Closed (prev : L) (at_ : NetClockTimePoint) (m : ConsensusMode)
| AcceptedLedger (r : CResult) (prev : L) (resolution : Z) (raw : ConsensusCloseTimes)
    (m : ConsensusMode)
| Propose (pos : ConsensusProposal NodeId LId TxSetId)
| SharePeerPosition (pos : PeerPos)
| ShareTx (t : Tx)
| ShareTxSet (s : TxSet)
| UpdateOperatingMode (positions : Z).

Record Consensus := mkConsensus {
  phase : ConsensusPhase;
  mode : ConsensusMode;
  first_round : bool;
  have_close_time_consensus : bool;
  converge_percent : Z;              (* i64 *)
  open_time : ConsensusTimer;
  close_resolution : Z;
  close_time_avalanche_state : AvalancheState;
  prev_round_time : Z;
  now : NetClockTimePoint;
  prev_close_time : NetClockTimePoint;
  prev_ledger_id : LId;
  previous_ledger : L;
  acquired : gmap TxSetId TxSet;
  result : option CResult;
  raw_close_times : ConsensusCloseTimes;
  peer_unchanged_counter : Z;        (* usize *)
  establish_counter : Z;             (* usize *)
  curr_peer_positions : gmap NodeId PeerPos;
  recent_peer_positions : gmap NodeId (list PeerPos);
  prev_proposers : Z;                (* usize *)
  dead_nodes : gset NodeId
}.

Definition set_phase v (c : Consensus) : Consensus :=
  mkConsensus v (mode c) (first_round c) (have_close_time_consensus c) (converge_percent c)
    (open_time c) (close_resolution c) (close_time_avalanche_state c) (prev_round_time c)
    (now c) (prev_close_time c) (prev_ledger_id c) (previous_ledger c) (acquired c) (result c)
    (raw_close_times c) (peer_unchanged_counter c) (establish_counter c)
    (curr_peer_positions c) (recent_peer_positions c) (prev_proposers c) (dead_nodes c).
Definition set_mode v (c : Consensus) : Consensus :=
  mkConsensus (phase c) v (first_round c) (have_close_time_consensus c) (converge_percent c)
    (open_time c) (close_resolution c) (close_time_avalanche_state c) (prev_round_time c)
    (now c) (prev_close_time c) (prev_ledger_id c) (previous_ledger c) (acquired c) (result c)
    (raw_close_times c) (peer_unchanged_counter c) (establish_counter c)
    (curr_peer_positions c) (recent_peer_positions c) (prev_proposers c) (dead_nodes c).
Definition set_first_round v (c : Consensus) : Consensus :=
  mkConsensus (phase c) (mode c) v (have_close_time_consensus c) (converge_percent c)
    (open_time c) (close_resolution c) (close_time_avalanche_state c) (prev_round_time c)
    (now c) (prev_close_time c) (prev_ledger_id c) (previous_ledger c) (acquired c) (result c)
    (raw_close_times c) (peer_unchanged_counter c) (establish_counter c)
    (curr_peer_positions c) (recent_peer_positions c) (prev_proposers c) (dead_nodes c).
Definition set_have_close_time_consensus v (c : Consensus) : Consensus :=
  mkConsensus (phase c) (mode c) (first_round c) v (converge_percent c) (open_time c)
    (close_resolution c) (close_time_avalanche_state c) (prev_round_time c) (now c)
    (prev_close_time c) (prev_ledger_id c) (previous_ledger c) (acquired c) (result c)
    (raw_close_times c) (peer_unchanged_counter c) (establish_counter c)
    (curr_peer_positions c) (recent_peer_positions c) (prev_proposers c) (dead_nodes c).
Definition set_converge_percent v (c : Consensus) : Consensus :=
  mkConsensus (phase c) (mode c) (first_round c) (have_close_time_consensus c) v (open_time c)
    (close_resolution c) (close_time_avalanche_state c) (prev_round_time c) (now c)
    (prev_close_time c) (prev_ledger_id c) (previous_ledger c) (acquired c) (result c)
    (raw_close_times c) (peer_unchanged_counter c) (establish_counter c)
    (curr_peer_positions c) (recent_peer_positions c) (prev_proposers c) (dead_nodes c).
Definition set_open_time v (c : Consensus) : Consensus :=
  mkConsensus (phase c) (mode c) (first_round c) (have_close_time_consensus c)
    (converge_percent c) v (close_resolution c) (close_time_avalanche_state c)
    (prev_round_time c) (now c) (prev_close_time c) (prev_ledger_id c) (previous_ledger c)
    (acquired c) (result c) (raw_close_times c) (peer_unchanged_counter c)
    (establish_counter c) (curr_peer_positions c) (recent_peer_positions c) (prev_proposers c)
    (dead_nodes c).
Definition set_close_resolution v (c : Consensus) : Consensus :=
  mkConsensus (phase c) (mode c) (first_round c) (have_close_time_consensus c)
    (converge_percent c) (open_time c) v (close_time_avalanche_state c) (prev_round_time c)
    (now c) (prev_close_time c) (prev_ledger_id c) (previous_ledger c) (acquired c) (result c)
    (raw_close_times c) (peer_unchanged_counter c) (establish_counter c)
    (curr_peer_positions c) (recent_peer_positions c) (prev_proposers c) (dead_nodes c).
Definition set_close_time_avalanche_state v (c : Consensus) : Consensus :=
  mkConsensus (phase c) (mode c) (first_round c) (have_close_time_consensus c)
    (converge_percent c) (open_time c) (close_resolution c) v (prev_round_time c) (now c)
    (prev_close_time c) (prev_ledger_id c) (previous_ledger c) (acquired c) (result c)
    (raw_close_times c) (peer_unchanged_counter c) (establish_counter c)
    (curr_peer_positions c) (recent_peer_positions c) (prev_proposers c) (dead_nodes c).
Definition set_prev_round_time v (c : Consensus) : Consensus :=
  mkConsensus (phase c) (mode c) (first_round c) (have_close_time_consensus c)
    (converge_percent c) (open_time c) (close_resolution c) (close_time_avalanche_state c) v
    (now c) (prev_close_time c) (prev_ledger_id c) (previous_ledger c) (acquired c) (result c)
    (raw_close_times c) (peer_unchanged_counter c) (establish_counter c)
    (curr_peer_positions c) (recent_peer_positions c) (prev_proposers c) (dead_nodes c).
Definition set_now v (c : Consensus) : Consensus :=
  mkConsensus (phase c) (mode c) (first_round c) (have_close_time_consensus c)
    (converge_percent c) (open_time c) (close_resolution c) (close_time_avalanche_state c)
    (prev_round_time c) v (prev_close_time c) (prev_ledger_id c) (previous_ledger c)
    (acquired c) (result c) (raw_close_times c) (peer_unchanged_counter c)
    (establish_counter c) (curr_peer_positions c) (recent_peer_positions c) (prev_proposers c)
    (dead_nodes c).
Definition set_prev_close_time v (c : Consensus) : Consensus :=
  mkConsensus (phase c) (mode c) (first_round c) (have_close_time_consensus c)
    (converge_percent c) (open_time c) (close_resolution c) (close_time_avalanche_state c)
    (prev_round_time c) (now c) v (prev_ledger_id c) (previous_ledger c) (acquired c)
    (result c) (raw_close_times c) (peer_unchanged_counter c) (establish_counter c)
    (curr_peer_positions c) (recent_peer_positions c) (prev_proposers c) (dead_nodes c).
Definition set_prev_ledger_id v (c : Consensus) : Consensus :=
  mkConsensus (phase c) (mode c) (first_round c) (have_close_time_consensus c)
    (converge_percent c) (open_time c) (close_resolution c) (close_time_avalanche_state c)
    (prev_round_time c) (now c) (prev_close_time c) v (previous_ledger c) (acquired c)
    (result c) (raw_close_times c) (peer_unchanged_counter c) (establish_counter c)
    (curr_peer_positions c) (recent_peer_positions c) (prev_proposers c) (dead_nodes c).
Definition set_previous_ledger v (c : Consensus) : Consensus :=
  mkConsensus (phase c) (mode c) (first_round c) (have_close_time_consensus c)
    (converge_percent c) (open_time c) (close_resolution c) (close_time_avalanche_state c)
    (prev_round_time c) (now c) (prev_close_time c) (prev_ledger_id c) v (acquired c)
    (result c) (raw_close_times c) (peer_unchanged_counter c) (establish_counter c)
    (curr_peer_positions c) (recent_peer_positions c) (prev_proposers c) (dead_nodes c).
Definition set_acquired v (c : Consensus) : Consensus :=
  mkConsensus (phase c) (mode c) (first_round c) (have_close_time_consensus c)
    (converge_percent c) (open_time c) (close_resolution c) (close_time_avalanche_state c)
    (prev_round_time c) (now c) (prev_close_time c) (prev_ledger_id c) (previous_ledger c) v
    (result c) (raw_close_times c) (peer_unchanged_counter c) (establish_counter c)
    (curr_peer_positions c) (recent_peer_positions c) (prev_proposers c) (dead_nodes c).
Definition set_result v (c : Consensus) : Consensus :=
  mkConsensus (phase c) (mode c) (first_round c) (have_close_time_consensus c)
    (converge_percent c) (open_time c) (close_resolution c) (close_time_avalanche_state c)
    (prev_round_time c) (now c) (prev_close_time c) (prev_ledger_id c) (previous_ledger c)
    (acquired c) v (raw_close_times c) (peer_unchanged_counter c) (establish_counter c)
    (curr_peer_positions c) (recent_peer_positions c) (prev_proposers c) (dead_nodes c).
Definition set_raw_close_times v (c : Consensus) : Consensus :=
  mkConsensus (phase c) (mode c) (first_round c) (have_close_time_consensus c)
    (converge_percent c) (open_time c) (close_resolution c) (close_time_avalanche_state c)
    (prev_round_time c) (now c) (prev_close_time c) (prev_ledger_id c) (previous_ledger c)
    (acquired c) (result c) v (peer_unchanged_counter c) (establish_counter c)
    (curr_peer_positions c) (recent_peer_positions c) (prev_proposers c) (dead_nodes c).
Definition set_peer_unchanged_counter v (c : Consensus) : Consensus :=
  mkConsensus (phase c) (mode c) (first_round c) (have_close_time_consensus c)
    (converge_percent c) (open_time c) (close_resolution c) (close_time_avalanche_state c)
    (prev_round_time c) (now c) (prev_close_time c) (prev_ledger_id c) (previous_ledger c)
    (acquired c) (result c) (raw_close_times c) v (establish_counter c) (curr_peer_positions c)
    (recent_peer_positions c) (prev_proposers c) (dead_nodes c).
Definition set_establish_counter v (c : Consensus) : Consensus :=
  mkConsensus (phase c) (mode c) (first_round c) (have_close_time_consensus c)
    (converge_percent c) (open_time c) (close_resolution c) (close_time_avalanche_state c)
    (prev_round_time c) (now c) (prev_close_time c) (prev_ledger_id c) (previous_ledger c)
    (acquired c) (result c) (raw_close_times c) (peer_unchanged_counter c) v
    (curr_peer_positions c) (recent_peer_positions c) (prev_proposers c) (dead_nodes c).
Definition set_curr_peer_positions v (c : Consensus) : Consensus :=
  mkConsensus (phase c) (mode c) (first_round c) (have_close_time_consensus c)
    (converge_percent c) (open_time c) (close_resolution c) (close_time_avalanche_state c)
    (prev_round_time c) (now c) (prev_close_time c) (prev_ledger_id c) (previous_ledger c)
    (acquired c) (result c) (raw_close_times c) (peer_unchanged_counter c)
    (establish_counter c) v (recent_peer_positions c) (prev_proposers c) (dead_nodes c).
Definition set_recent_peer_positions v (c : Consensus) : Consensus :=
  mkConsensus (phase c) (mode c) (first_round c) (have_close_time_consensus c)
    (converge_percent c) (open_time c) (close_resolution c) (close_time_avalanche_state c)
    (prev_round_time c) (now c) (prev_close_time c) (prev_ledger_id c) (previous_ledger c)
    (acquired c) (result c) (raw_close_times c) (peer_unchanged_counter c)
    (establish_counter c) (curr_peer_positions c) v (prev_proposers c) (dead_nodes c).
Definition set_prev_proposers v (c : Consensus) : Consensus :=
  mkConsensus (phase c) (mode c) (first_round c) (have_close_time_consensus c)
    (converge_percent c) (open_time c) (close_resolution c) (close_time_avalanche_state c)
    (prev_round_time c) (now c) (prev_close_time c) (prev_ledger_id c) (previous_ledger c)
    (acquired c) (result c) (raw_close_times c) (peer_unchanged_counter c)
    (establish_counter c) (curr_peer_positions c) (recent_peer_positions c) v (dead_nodes c).
Definition set_dead_nodes v (c : Consensus) : Consensus :=
  mkConsensus (phase c) (mode c) (first_round c) (have_close_time_consensus c)
    (converge_percent c) (open_time c) (close_resolution c) (close_time_avalanche_state c)
    (prev_round_time c) (now c) (prev_close_time c) (prev_ledger_id c) (previous_ledger c)
    (acquired c) (result c) (raw_close_times c) (peer_unchanged_counter c)
    (establish_counter c) (curr_peer_positions c) (recent_peer_positions c) (prev_proposers c)
    v.

End State.

Arguments event L LId NodeId TxSet TxSetId Tx TxId PeerPos {_ _ _ _ _ _}.
Arguments Consensus L LId NodeId TxSet TxSetId Tx TxId PeerPos {_ _ _ _ _ _}.

(** ** The adaptor *)

Class ConsensusAdaptor (W L LId NodeId TxSet TxSetId Tx TxId PeerPos : Type)
    `{Countable NodeId} `{Countable TxSetId} `{Countable TxId} := {
  parms : ConsensusParms;
  next_ledger_time_resolution : Z -> bool -> Z -> Z;
  round_close_time : NetClockTimePoint -> Z -> NetClockTimePoint;
  acquire_ledger : LId -> W -> option L * W;
  acquire_tx_set : TxSetId -> W -> option TxSet * W;
  has_open_transactions : W -> bool * W;
  proposers_validated : LId -> W -> Z * W;
  proposers_finished : L -> LId -> W -> Z * W;
  get_prev_ledger : LId -> L -> ConsensusMode -> W -> LId * W;
  on_close : L -> NetClockTimePoint -> ConsensusMode -> W ->
    ConsensusResult TxSet NodeId LId TxSetId Tx TxId * W;
  valid_ledger_seq : W -> Z * W;
  quorum_keys : W -> (Z * gset NodeId) * W;
  laggards : Z -> gset NodeId -> W -> (Z * gset NodeId) * W;
  validator : W -> bool * W;
  have_validated : W -> bool * W;
  (** [ConsensusClock::now]. *)
  clock_now : W -> Z * W;
  notify : event L LId NodeId TxSet TxSetId Tx TxId PeerPos -> W -> W
}.

Section Handlers.
Context `{!HashOrder} {W L LId NodeId TxSet TxSetId Tx TxId PeerPos : Type}.
Context `{EqDecision LId} `{Countable NodeId} `{Countable TxSetId} `{Countable TxId}.
Context `{!TotalOrd TxId} `{!ConsensusTx Tx TxId} `{!ConsensusTxSet TxSet TxSetId Tx TxId}.
Context `{!ConsensusLedger L LId} `{!PeerPosition PeerPos NodeId LId TxSetId}.
Context `{!ConsensusAdaptor W L LId NodeId TxSet TxSetId Tx TxId PeerPos}.

Abbreviation Result := (ConsensusResult TxSet NodeId LId TxSetId Tx TxId).
Abbreviation Con := (Consensus L LId NodeId TxSet TxSetId Tx TxId PeerPos).
Abbreviation Event := (event L LId NodeId TxSet TxSetId Tx TxId PeerPos).
Abbreviation Dispute := (DisputedTx Tx TxId NodeId).

Record machine := mkMachine { con : Con; world : W; log : list Event }.

Abbreviation action A := (handler machine A).

Definition upd (f : Con -> Con) : action unit :=
  modify (fun s => mkMachine (f (con s)) (world s) (log s)).
Definition ask {A} (q : W -> A * W) : action A := fun s =>
  let '(a, w) := q (world s) in Ok (a, mkMachine (con s) w (log s)).
Definition tell (e : Event) : action unit :=
  modify (fun s => mkMachine (con s) (notify e (world s)) (e :: log s)).
(** A call already made as a query, for the log. *)
Definition note (e : Event) : action unit :=
  modify (fun s => mkMachine (con s) (world s) (e :: log s)).
Definition get : action Con := gets con.
(** [self.result.as_ref().expect("result set")] *)
Definition the_result : action Result := c ← get; lift (expect (result c)).
Definition put_result (r : Result) : action unit := upd (set_result (Some r)).

Definition set_disputes d (r : Result) : Result :=
  mkResult (txns r) (res_position r) d (compares r) (round_time r) (res_state r) (proposers r).
Definition set_compares v (r : Result) : Result :=
  mkResult (txns r) (res_position r) (disputes r) v (round_time r) (res_state r) (proposers r).
Definition set_txns v (r : Result) : Result :=
  mkResult v (res_position r) (disputes r) (compares r) (round_time r) (res_state r) (proposers r).
Definition set_position v (r : Result) : Result :=
  mkResult (txns r) v (disputes r) (compares r) (round_time r) (res_state r) (proposers r).
Definition set_round_time v (r : Result) : Result :=
  mkResult (txns r) (res_position r) (disputes r) (compares r) v (res_state r) (proposers r).
Definition set_state v (r : Result) : Result :=
  mkResult (txns r) (res_position r) (disputes r) (compares r) (round_time r) v (proposers r).
Definition set_proposers v (r : Result) : Result :=
  mkResult (txns r) (res_position r) (disputes r) (compares r) (round_time r) (res_state r) v.

Definition with_clock : Con :=
  mkConsensus Accepted Observing true false 0 timer_default (from_secs 30) Init 0
    net_clock_default net_clock_default ledger_id_default ledger_default ∅ None
    close_times_default 0 0 ∅ ∅ 0 ∅.

(** [MonitoredMode::set] *)
Definition change_mode (m : ConsensusMode) : action unit :=
  c ← get;
  _ ← tell (ModeChange (mode c) m);
  upd (set_mode m).

(** ** Disputes *)

(** The vote of one peer on a new dispute, when its set is known, and whether
    any vote was recorded so far. *)
Definition collect_vote (t : TxId) (c : Con) (a : Dispute * bool) (np : NodeId * PeerPos)
    : Dispute * bool :=
  match (acquired c !! position (proposal np.2) : option TxSet) with
  | Some set => let '(d', b) := set_vote np.1 (exists_tx set t) a.1 in (d', a.2 || b)
  | None => a
  end.

Definition collect_votes (t : TxId) (c : Con) (d : Dispute) : Dispute * bool :=
  foldl (collect_vote t c) (d, false) (hash_iter (curr_peer_positions c)).

(** One iteration of the loop over the differences. *)
Definition create_dispute (our_txns other : TxSet) (diff : TxId * bool) : action unit :=
  let '(t, in_this_set) := diff in
  match (if (in_this_set : bool) then find_tx our_txns t else find_tx other t) with
  | None => mret tt
  | Some x =>
      r ← the_result;
      if bool_decide (is_Some (disputes r !! t)) then mret tt
      else
        let our_vote := exists_tx our_txns t in
        c ← get;
        let '(dtx, voted) := collect_votes t c (new_dispute x t our_vote) in
        _ ← when voted (upd (set_peer_unchanged_counter 0));
        _ ← tell (ShareTx (tx dtx));
        r ← the_result;
        put_result (set_disputes (<[t := dtx]> (disputes r)) r)
  end.

Definition create_disputes (other : TxSet) : action unit :=
  let other_id := set_id other in
  r ← the_result;
  let already_compared := bool_decide (other_id ∈ compares r) in
  _ ← put_result (set_compares (compares r ∪ {[other_id]}) r);
  if already_compared then mret tt
  else
    let our_txns := txns r in
    if bool_decide (set_id our_txns = other_id) then mret tt
    else for_each (btree_iter (compare_sets our_txns other)) (create_dispute our_txns other).

(** [dispute.set_vote(node, other.exists(dispute.tx().tx_id()))] *)
Definition vote_by_set (node : NodeId) (other : TxSet) (d : Dispute) : Dispute * bool :=
  set_vote node (exists_tx other (get_tx_id (tx d))) d.

Definition update_disputes (node : NodeId) (other : TxSet) : action unit :=
  let other_id := set_id other in
  r ← the_result;
  _ ← when (negb (bool_decide (other_id ∈ compares r))) (create_disputes other);
  r ← the_result;
  let changed := existsb (fun kd => (vote_by_set node other kd.2).2) (map_to_list (disputes r)) in
  _ ← put_result (set_disputes ((fun d => (vote_by_set node other d).1) <$> disputes r) r);
  when changed (upd (set_peer_unchanged_counter 0)).

(** ** Transaction sets and proposals *)

Definition got_tx_set (at_ : NetClockTimePoint) (tx_set : TxSet) : action unit :=
  c ← get;
  if bool_decide (phase c = Accepted) then mret tt
  else
    _ ← upd (set_now at_);
    let id := set_id tx_set in
    if bool_decide (is_Some (acquired c !! id)) then mret tt
    else
      _ ← upd (set_acquired (<[id := tx_set]> (acquired c)));
      if bool_decide (result c = None) then mret tt
      else
        let positions := (fun np => (np.1, position (proposal np.2)))
          <$> hash_iter (curr_peer_positions c) in
        for_each positions (fun np =>
          when (bool_decide (np.2 = id)) (update_disputes np.1 tx_set)).

(** Take a peer's votes out of every dispute. *)
Definition un_vote_all (peer : NodeId) (o : option Result) : option Result :=
  (fun r => set_disputes (un_vote peer <$> disputes r) r) <$> o.

(** The tail of [peer_proposal_internal]: make use of the proposed set. *)
Definition use_position (p : ConsensusProposal NodeId LId TxSetId) : action unit :=
  c ← get;
  match (acquired c !! position p : option TxSet) with
  | None =>
      set ← ask (acquire_tx_set (position p));
      match set with Some set => got_tx_set (now c) set | None => mret tt end
  | Some set =>
      when (bool_decide (result c ≠ None)) (update_disputes (Proposal.node_id p) set)
  end.

Definition peer_proposal_internal (at_ : NetClockTimePoint) (new_peer_pos : PeerPos)
    : action bool :=
  c ← get;
  if bool_decide (phase c = Accepted) then mret false
  else
    _ ← upd (set_now at_);
    let p := proposal new_peer_pos in
    let peer_id := Proposal.node_id p in
    if bool_decide (Proposal.previous_ledger p ≠ prev_ledger_id c) then mret false
    else if bool_decide (peer_id ∈ dead_nodes c) then mret false
    else if match (curr_peer_positions c !! peer_id : option PeerPos) with
            | Some existing => propose_seq p <=? propose_seq (proposal existing)
            | None => false
            end then mret false
    else if is_bow_out p then
      _ ← upd (fun c => set_result (un_vote_all peer_id (result c)) c);
      _ ← upd (fun c => set_curr_peer_positions (delete peer_id (curr_peer_positions c)) c);
      _ ← upd (fun c => set_dead_nodes (dead_nodes c ∪ {[peer_id]}) c);
      mret true
    else
      _ ← upd (fun c =>
        set_curr_peer_positions (<[peer_id := new_peer_pos]> (curr_peer_positions c)) c);
      _ ← when (is_initial p) (upd (fun c =>
        let raw := raw_close_times c in
        set_raw_close_times
          (mkCloseTimes (entry_add wrap_i32 (close_time p) 1 (ct_peers raw)) (ct_self raw)) c));
      _ ← use_position p;
      mret true.

(** The last ten proposals of a peer: drop the oldest, then append. *)
Definition push_recent (pos : PeerPos) (props : list PeerPos) : list PeerPos :=
  (if bool_decide (10 <= length props)%nat then tail props else props) ++ [pos].

Definition peer_proposal (at_ : NetClockTimePoint) (new_proposal : PeerPos) : action bool :=
  let peer_id := Proposal.node_id (proposal new_proposal) in
  _ ← upd (fun c =>
    let props := default [] (recent_peer_positions c !! peer_id) in
    set_recent_peer_positions
      (<[peer_id := push_recent new_proposal props]> (recent_peer_positions c)) c);
  peer_proposal_internal at_ new_proposal.

Definition playback_proposals : action unit :=
  c ← get;
  let all := concat (hash_iter (recent_peer_positions c)).*2 in
  for_each all (fun pos =>
    c ← get;
    if bool_decide (Proposal.previous_ledger (proposal pos) = prev_ledger_id c) then
      relay ← peer_proposal_internal (now c) pos;
      when relay (tell (SharePeerPosition pos))
    else mret tt).

(** ** Leaving consensus *)

Definition leave_consensus : action unit :=
  c ← get;
  if bool_decide (mode c = Proposing) then
    _ ← match result c with
        | Some r =>
            if negb (is_bow_out (res_position r)) then
              let p := bow_out (now c) (res_position r) in
              _ ← put_result (set_position p r);
              tell (Propose p)
            else mret tt
        | None => mret tt
        end;
    change_mode Observing
  else mret tt.

(** ** The open phase *)

Definition close_ledger : action unit :=
  c ← get;
  _ ← debug_assert (bool_decide (result c = None));
  _ ← upd (set_phase Establish);
  _ ← upd (fun c =>
    set_raw_close_times (mkCloseTimes (ct_peers (raw_close_times c)) (now c)) c);
  _ ← upd (set_peer_unchanged_counter 0);
  _ ← upd (set_establish_counter 0);
  _ ← note (Closed (previous_ledger c) (now c) (mode c));
  r ← ask (on_close (previous_ledger c) (now c) (mode c));
  t ← ask clock_now;
  let r := set_round_time (timer_reset t (round_time r)) r in
  let txns_id := set_id (txns r) in
  _ ← when (bool_decide (acquired c !! txns_id = None))
        (_ ← upd (set_acquired (<[txns_id := txns r]> (acquired c)));
         tell (ShareTxSet (txns r)));
  _ ← when (bool_decide (mode c = Proposing)) (tell (Propose (res_position r)));
  _ ← put_result r;
  let peer_positions := (fun np => position (proposal np.2)) <$> hash_iter (curr_peer_positions c) in
  for_each peer_positions (fun pos =>
    c ← get;
    match (acquired c !! pos : option TxSet) with
    | Some set => create_disputes set
    | None => mret tt
    end).

(** The close time the open phase measures from. *)
Definition last_close_time (c : Con) : outcome NetClockTimePoint :=
  let prev_close_time' := ledger_close_time (previous_ledger c) in
  parent_plus_1 ← net_clock_add (ledger_parent_close_time (previous_ledger c)) (seconds 1);
  let previous_close_correct :=
    bool_decide (mode c ≠ WrongLedger) && ledger_close_agree (previous_ledger c)
    && negb (prev_close_time' =? parent_plus_1) in
  let last := if previous_close_correct then prev_close_time' else prev_close_time c in
  mret (if last =? net_clock_default then prev_close_time c else last).

Definition phase_open : action unit :=
  c ← get;
  any_transactions ← ask has_open_transactions;
  let proposers_closed := Z.of_nat (size (curr_peer_positions c)) in
  proposers_validated ← ask (proposers_validated (prev_ledger_id c));
  t ← ask clock_now;
  _ ← upd (fun c => set_open_time (timer_tick_to t (open_time c)) c);
  c ← get;
  last_close_time ← lift (last_close_time c);
  let since_close :=
    if last_close_time <=? now c then time_duration_to_std (net_clock_diff (now c) last_close_time)
    else 0 in
  doubled ← lift (duration_mul (ledger_close_time_resolution (previous_ledger c)) 2);
  let idle_interval := Z.max (ledger_idle_interval parms) doubled in
  when (should_close_ledger any_transactions (prev_proposers c) proposers_closed
      proposers_validated (prev_round_time c) since_close (timer_read (open_time c))
      idle_interval parms)
    close_ledger.

(** ** The establish phase *)

Definition MAX_PAUSE_PHASE : Z := 4.

(** The middle pause phases: the share of validators that are neither lagging
    nor offline, against the quorum raised towards everybody, in [f32]. *)
Definition below_pause_threshold (total_validators quorum unavailable phase : Z) : bool :=
  let non_laggards := f32_of (Z.max 0 (total_validators - unavailable)) in
  let total := f32_of total_validators in
  let quorum_ratio := f32_div (f32_of quorum) total in
  let allowed_dissent := f32_sub (f32_of 1) quorum_ratio in
  let phase_factor := f32_div (f32_of phase) (f32_of MAX_PAUSE_PHASE) in
  f32_lt (f32_div non_laggards total)
    (f32_add quorum_ratio (f32_mul allowed_dissent phase_factor)).

Definition pause_decision (ahead laggards offline total_validators quorum : Z) : bool :=
  let phase := (ahead - 1) mod (MAX_PAUSE_PHASE + 1) in
  let unavailable := sat_u64 (laggards + offline) in
  if phase =? 0 then Z.max 0 (total_validators - quorum) <? unavailable
  else if phase =? MAX_PAUSE_PHASE then true
  else below_pause_threshold total_validators quorum unavailable phase.

(** The adaptor's two predicates are asked only when the tests before them fail. *)
Definition should_pause : action bool :=
  c ← get;
  let working_seq := ledger_seq (previous_ledger c) in
  valid_seq ← ask valid_ledger_seq;
  let ahead := Z.max 0 (working_seq - valid_seq) in
  '(quorum, trusted_keys) ← ask quorum_keys;
  let total_validators := Z.of_nat (size trusted_keys) in
  '(laggards, trusted_keys) ← ask (laggards working_seq trusted_keys);
  let offline := Z.of_nat (size trusted_keys) in
  r ← the_result;
  let round_time := timer_read (round_time r) in
  if (ahead =? 0) || (laggards =? 0) || (total_validators =? 0) then mret false
  else
    is_validator ← ask validator;
    if negb is_validator then mret false
    else
      validated ← ask have_validated;
      if negb validated || (ledger_max_consensus parms <? round_time) then mret false
      else mret (pause_decision ahead laggards offline total_validators quorum).

Definition round_close_time_for (c : Con) (raw : NetClockTimePoint) : NetClockTimePoint :=
  round_close_time raw (close_resolution c).

(** Drop the peers whose proposal is stale, with their votes. *)
Definition drop_stale (peer_cutoff : NetClockTimePoint) : action unit :=
  c ← get;
  let stale_peers := (filter (fun np => is_stale (proposal np.2) peer_cutoff = true)
    (hash_iter (curr_peer_positions c))).*1 in
  for_each stale_peers (fun peer_id =>
    _ ← upd (fun c => set_result (un_vote_all peer_id (result c)) c);
    upd (fun c => set_curr_peer_positions (delete peer_id (curr_peer_positions c)) c)).

(** The rounded close times of the peers, with their counts. *)
Definition close_time_votes (c : Con) : gmap NetClockTimePoint Z :=
  foldl (fun votes np =>
    entry_add wrap_i32 (round_close_time_for c (close_time (proposal np.2))) 1 votes)
    ∅ (hash_iter (curr_peer_positions c)).

(** One dispute of the voting loop: its vote, and our set edited to match. *)
Definition vote_step (proposing : bool) (percent : Z) (ours : TxSet)
    (acc : gmap TxId Dispute * option TxSet) (td : TxId * Dispute)
    : outcome (gmap TxId Dispute * option TxSet) :=
  '(d, changed) ← update_vote percent proposing parms td.2;
  let ds := <[td.1 := d]> acc.1 in
  if (changed : bool) then
    let set := default ours acc.2 in
    let set := if our_vote d then (insert_tx set (tx d)).2 else (erase_tx set td.1).2 in
    mret (ds, Some set)
  else mret (ds, acc.2).

Definition vote_on_disputes : action (option TxSet) :=
  c ← get;
  r ← the_result;
  '(ds, our_new_set) ← lift (foldM
    (vote_step (bool_decide (mode c = Proposing)) (wrap_i32 (converge_percent c)) (txns r))
    (disputes r, None) (hash_iter (disputes r)));
  _ ← put_result (set_disputes ds r);
  mret our_new_set.

(** The loop over the close time votes, latest first: the chosen time, the
    rising vote threshold and whether consensus was reached. *)
Definition close_time_step (thresh_consensus : Z)
    (acc : NetClockTimePoint * Z * bool) (tv : NetClockTimePoint * Z)
    : NetClockTimePoint * Z * bool :=
  let '(chosen, thresh_vote, have) := acc in
  if thresh_vote <=? tv.2 then (tv.1, tv.2, have || (thresh_consensus <=? tv.2))
  else acc.

Definition choose_close_time (thresh_vote thresh_consensus : Z)
    (votes : gmap NetClockTimePoint Z) : NetClockTimePoint * bool :=
  let '(chosen, _, have) := foldl (close_time_step thresh_consensus)
    (net_clock_default, thresh_vote, false) (rev (btree_iter votes)) in
  (chosen, have).

(** Agree on a close time: the time chosen, with [have_close_time_consensus]
    and the avalanche state updated. *)
Definition settle_close_time (votes : gmap NetClockTimePoint Z) : action NetClockTimePoint :=
  _ ← upd (set_have_close_time_consensus false);
  c ← get;
  if bool_decide (curr_peer_positions c = ∅) then
    _ ← upd (set_have_close_time_consensus true);
    r ← the_result;
    mret (round_close_time_for c (close_time (res_position r)))
  else
    '(needed_weight, new_state) ← lift (get_needed_weight parms (close_time_avalanche_state c)
      (wrap_i32 (converge_percent c)) 0 0);
    _ ← match (new_state : option AvalancheState) with
        | Some s => upd (set_close_time_avalanche_state s)
        | None => mret tt
        end;
    let participants := wrap_i32 (Z.of_nat (size (curr_peer_positions c))) in
    '(votes, participants) ←
      (if bool_decide (mode c = Proposing) then
         r ← the_result;
         mret (entry_add wrap_i32 (round_close_time_for c (close_time (res_position r))) 1 votes,
               wrap_i32 (participants + 1))
       else mret (votes, participants));
    let thresh_vote := participants_needed participants (wrap_i32 needed_weight) in
    let thresh_consensus := participants_needed participants
      (wrap_i32 (av_ct_consensus_pct parms)) in
    let '(chosen, have) := choose_close_time thresh_vote thresh_consensus votes in
    _ ← upd (fun c => if have then set_have_close_time_consensus true c else c);
    mret chosen.

(** Take up a new position and tell the peers. *)
Definition adopt_position (new_set : TxSet) (consensus_close_time : NetClockTimePoint)
    : action unit :=
  c ← get;
  r ← the_result;
  let new_id := set_id new_set in
  let p := change_position new_id consensus_close_time (now c) (res_position r) in
  _ ← put_result (set_position p (set_txns new_set r));
  _ ← when (bool_decide (acquired c !! new_id = None))
        (_ ← upd (set_acquired (<[new_id := new_set]> (acquired c)));
         _ ← when (negb (is_bow_out p)) (tell (ShareTxSet new_set));
         let matching_peers :=
           (filter (fun np => position (proposal np.2) = new_id)
             (hash_iter (curr_peer_positions c))).*1 in
         for_each matching_peers (fun n => update_disputes n new_set));
  r ← the_result;
  when (negb (is_bow_out (res_position r)) && bool_decide (mode c = Proposing))
    (tell (Propose (res_position r))).

Definition update_our_positions : action unit :=
  c ← get;
  let peer_cutoff := default net_clock_default
    (checked_sub (now c) (std_duration_to_time (propose_freshness parms))) in
  let our_cutoff := default net_clock_default
    (checked_sub (now c) (std_duration_to_time (propose_interval parms))) in
  _ ← drop_stale peer_cutoff;
  c ← get;
  let votes := close_time_votes c in
  our_new_set ← vote_on_disputes;
  consensus_close_time ← settle_close_time votes;
  r ← the_result;
  let our_new_set :=
    match (our_new_set : option TxSet) with
    | Some s => Some s
    | None =>
        if negb (consensus_close_time =? round_close_time_for c (close_time (res_position r)))
           || is_stale (res_position r) our_cutoff
        then Some (txns r) else None
    end in
  match our_new_set with
  | Some new_set => adopt_position new_set consensus_close_time
  | None => mret tt
  end.

(** The peers that share our position, and those that do not. *)
Definition agree_count (c : Con) (our_position : TxSetId) : Z :=
  Z.of_nat (length (filter (fun np => position (proposal np.2) = our_position)
    (hash_iter (curr_peer_positions c)))).
Definition disagree_count (c : Con) (our_position : TxSetId) : Z :=
  Z.of_nat (length (filter (fun np => ~ position (proposal np.2) = our_position)
    (hash_iter (curr_peer_positions c)))).

Definition have_consensus : action bool :=
  r ← the_result;
  c ← get;
  let our_position := position (res_position r) in
  let agree := agree_count c our_position in
  let disagree := disagree_count c our_position in
  current_finished ← ask (proposers_finished (previous_ledger c) (prev_ledger_id c));
  let proposing := bool_decide (mode c = Proposing) in
  stalled ←
    (if have_close_time_consensus c && bool_decide (disputes r ≠ ∅) then
       lift (foldM (fun (all : bool) kd =>
         if all then DisputedTx.stalled parms proposing (peer_unchanged_counter c) kd.2
         else mret false) true (hash_iter (disputes r)))
     else mret false);
  state ← lift (check_consensus (prev_proposers c) (wrap_u64 (agree + disagree)) agree
    current_finished (prev_round_time c) (timer_read (round_time r)) stalled parms proposing);
  _ ← put_result (set_state state r);
  if bool_decide (state = No) then mret false
  else if bool_decide (state = Expired) then
    let minimum_counter :=
      wrap_u64 (Z.of_nat (size (avalanche_cutoffs parms)) * av_min_rounds parms) in
    if establish_counter c <? minimum_counter then mret false
    else _ ← leave_consensus; mret true
  else mret true.

(** [(round_time.as_millis() as i64 * 100) / denom.as_millis().max(1) as i64] *)
Definition converge_percentage (round_time denom : Z) : outcome Z :=
  i64_div (wrap_i64 (as_millis_i64 round_time * 100))
    (wrap_i64 (Z.max (denom / 1000000) 1)).

(** The end of [phase_establish]: the round is over. *)
Definition accept : action unit :=
  c ← get;
  let positions := Z.of_nat (size (curr_peer_positions c)) in
  _ ← tell (UpdateOperatingMode positions);
  _ ← upd (set_prev_proposers positions);
  r ← the_result;
  _ ← upd (set_prev_round_time (timer_read (round_time r)));
  _ ← upd (set_phase Accepted);
  _ ← tell (AcceptedLedger r (previous_ledger c) (close_resolution c) (raw_close_times c) (mode c));
  put_result r.

Definition phase_establish : action unit :=
  c ← get;
  _ ← debug_assert (bool_decide (result c ≠ None));
  _ ← upd (fun c => set_peer_unchanged_counter (wrap_u64 (peer_unchanged_counter c + 1)) c);
  _ ← upd (fun c => set_establish_counter (wrap_u64 (establish_counter c + 1)) c);
  t ← ask clock_now;
  r ← the_result;
  let r := set_proposers (Z.of_nat (size (curr_peer_positions c)))
    (set_round_time (timer_tick_to t (round_time r)) r) in
  _ ← put_result r;
  let round_time := timer_read (round_time r) in
  let denom := Z.max (prev_round_time c) (av_min_consensus_time parms) in
  pct ← lift (converge_percentage round_time denom);
  _ ← upd (set_converge_percent pct);
  if round_time <? ledger_min_consensus parms then mret tt
  else
    _ ← update_our_positions;
    pause ← should_pause;
    if (pause : bool) then mret tt
    else
      reached ← have_consensus;
      if negb reached then mret tt
      else
        c ← get;
        if negb (have_close_time_consensus c) then mret tt else accept.

(** ** The previous ledger, rounds and the timer *)

Section Recursion.
(** [timer_entry], which [start_round_internal] calls back. *)
Variable timer : NetClockTimePoint -> action unit.

Definition start_round_internal (at_ : NetClockTimePoint) (id : LId) (prev_ledger : L)
    (m : ConsensusMode) : action unit :=
  _ ← upd (set_phase Open);
  _ ← change_mode m;
  t ← ask clock_now;
  _ ← upd (fun c =>
    mkConsensus (phase c) (mode c) (first_round c) false 0 (timer_reset t (open_time c))
      (next_ledger_time_resolution (ledger_close_time_resolution prev_ledger)
         (ledger_close_agree prev_ledger) (wrap_u32 (ledger_seq prev_ledger + 1)))
      Init (prev_round_time c) at_ (prev_close_time c) id prev_ledger ∅ None
      (mkCloseTimes ∅ net_clock_default) (peer_unchanged_counter c) (establish_counter c)
      ∅ (recent_peer_positions c) (prev_proposers c) ∅);
  _ ← playback_proposals;
  c ← get;
  when (prev_proposers c / 2 <? Z.of_nat (size (curr_peer_positions c))) (timer (now c)).

Definition handle_wrong_ledger (lgr_id : LId) : action unit :=
  _ ← leave_consensus;
  c ← get;
  _ ← when (bool_decide (prev_ledger_id c ≠ lgr_id))
        (_ ← upd (set_prev_ledger_id lgr_id);
         _ ← upd (fun c =>
           set_result ((fun r => set_compares ∅ (set_disputes ∅ r)) <$> result c) c);
         _ ← upd (set_curr_peer_positions ∅);
         _ ← upd (fun c => set_raw_close_times (mkCloseTimes ∅ (ct_self (raw_close_times c))) c);
         _ ← upd (set_dead_nodes ∅);
         playback_proposals);
  c ← get;
  if bool_decide (ledger_id (previous_ledger c) = prev_ledger_id c) then mret tt
  else
    o ← ask (acquire_ledger (prev_ledger_id c));
    match o with
    | Some new_ledger => start_round_internal (now c) lgr_id new_ledger SwitchedLedger
    | None => change_mode WrongLedger
    end.

Definition check_ledger : action unit :=
  c ← get;
  net_lgr ← ask (get_prev_ledger (prev_ledger_id c) (previous_ledger c) (mode c));
  when (bool_decide (net_lgr ≠ prev_ledger_id c)
        || bool_decide (ledger_id (previous_ledger c) ≠ prev_ledger_id c))
    (handle_wrong_ledger net_lgr).
End Recursion.

Fixpoint timer_entry (fuel : nat) (at_ : NetClockTimePoint) : action unit :=
  match fuel with
  | O => no_fuel
  | S fuel =>
      c ← get;
      if bool_decide (phase c = Accepted) then mret tt
      else
        _ ← upd (set_now at_);
        _ ← check_ledger (timer_entry fuel);
        c ← get;
        match phase c with
        | Open => phase_open
        | Establish => phase_establish
        | Accepted => mret tt
        end
  end.

Definition start_round (fuel : nat) (at_ : NetClockTimePoint) (id : LId) (prev_ledger : L)
    (now_untrusted : gset NodeId) (proposing : bool) : action unit :=
  _ ← upd (fun c =>
    if first_round c then
      let close := ledger_close_time prev_ledger in
      set_first_round false
        (set_prev_close_time (if close =? net_clock_default then at_ else close)
          (set_prev_round_time (ledger_idle_interval parms) c))
    else set_prev_close_time (ct_self (raw_close_times c)) c);
  _ ← upd (fun c =>
    set_recent_peer_positions
      (foldl (fun m n => delete n m) (recent_peer_positions c) (hash_set_iter now_untrusted)) c);
  let start_mode := if proposing then Proposing else Observing in
  '(prev_ledger, start_mode) ←
    (if bool_decide (ledger_id prev_ledger ≠ id) then
       o ← ask (acquire_ledger id);
       mret (match o with
             | Some new_ledger => (new_ledger, start_mode)
             | None => (prev_ledger, WrongLedger)
             end)
     else mret (prev_ledger, start_mode));
  start_round_internal (timer_entry fuel) at_ id prev_ledger start_mode.

End Handlers.

Arguments machine W L LId NodeId TxSet TxSetId Tx TxId PeerPos {_ _ _ _ _ _}.
