(* ===== verification/ConsensusInv.v ===== *)
(** * The consensus state machine: laws, invariant and preservation

    What the machine relies on from its transactions, sets, ledgers and adaptor;
    the invariant that ties the disputes to the proposals of the peers; and that
    every handler keeps it without panicking. *)

From S2P Require Import Prelude Chrono Params Proposal DisputedTx Types Functions Stateful.
From S2P Require Import Consensus.

(** ** Laws of the components consensus is generic in *)

(** A transaction set is what its membership test says, and its identifier
    determines its members. *)
Class TxSetLaws (TxSet TxSetId Tx TxId : Type) `{Countable TxId}
    `{!ConsensusTx Tx TxId} `{!ConsensusTxSet TxSet TxSetId Tx TxId} : Prop := {
  find_tx_id : forall (s : TxSet) t x, find_tx s t = Some x -> get_tx_id x = t;
  find_exists : forall (s : TxSet) t, exists_tx s t = true -> is_Some (find_tx s t);
  compare_spec : forall (s o : TxSet) t b,
    compare_sets s o !! t = Some b <-> exists_tx s t = b /\ exists_tx o t = negb b;
  insert_exists : forall (s : TxSet) x t,
    exists_tx (insert_tx s x).2 t = bool_decide (get_tx_id x = t) || exists_tx s t;
  erase_exists : forall (s : TxSet) t t',
    exists_tx (erase_tx s t').2 t = negb (bool_decide (t' = t)) && exists_tx s t;
  id_exists : forall s o : TxSet, set_id s = set_id o -> forall t, exists_tx s t = exists_tx o t
}.

(** A ledger whose times leave room for the arithmetic of the open phase. *)
Definition ledger_ok `{ConsensusLedger L LId} (l : L) : Prop :=
  0 <= ledger_parent_close_time l < u32_max
  /\ 0 <= ledger_close_time_resolution l <= u32_max * NANOS_PER_SEC.

(** Clock readings and the idle interval: nanoseconds of a 64-bit counter. *)
Definition time_ok (d : Z) : Prop := in_u64 d.

Class AdaptorLaws (W L LId NodeId TxSet TxSetId Tx TxId PeerPos : Type)
    `{Countable NodeId} `{Countable TxSetId} `{Countable TxId} `{!ConsensusTx Tx TxId}
    `{!ConsensusTxSet TxSet TxSetId Tx TxId} `{!ConsensusLedger L LId}
    `{!ConsensusAdaptor W L LId NodeId TxSet TxSetId Tx TxId PeerPos} : Prop := {
  parms_cutoffs : cutoffs_ok parms;
  parms_range : parms_ok parms;
  parms_consensus_pct : 0 <= min_consensus_pct parms <= 100;
  parms_idle : time_ok (ledger_idle_interval parms);
  parms_max : ledger_min_consensus parms <= u64_max;
  parms_av : time_ok (av_min_consensus_time parms);
  default_ledger_ok : ledger_ok ledger_default;
  acquire_ledger_ok : forall id w l w',
    acquire_ledger id w = (Some l, w') -> ledger_id l = id /\ ledger_ok l;
  on_close_fresh : forall l t m w r w', on_close l t m w = (r, w') ->
    exists set pos, new_result set pos (set_id set) = Ok r
      /\ propose_seq pos = SEQ_JOIN;
  clock_range : forall w t w', clock_now w = (t, w') -> time_ok t;
  finished_range : forall l id w n w', proposers_finished l id w = (n, w') -> count_ok n
}.

(** ** Rules for the machine's primitive actions *)

Section Rules.
Context `{!HashOrder} {W L LId NodeId TxSet TxSetId Tx TxId PeerPos : Type}.
Context `{EqDecision LId} `{Countable NodeId} `{Countable TxSetId} `{Countable TxId}.
Context `{!TotalOrd TxId} `{!ConsensusTx Tx TxId} `{!ConsensusTxSet TxSet TxSetId Tx TxId}.
Context `{!ConsensusLedger L LId} `{!PeerPosition PeerPos NodeId LId TxSetId}.
Context `{!ConsensusAdaptor W L LId NodeId TxSet TxSetId Tx TxId PeerPos}.
Abbreviation Mach := (machine W L LId NodeId TxSet TxSetId Tx TxId PeerPos).
Context (F : Prop).
Implicit Types s : Mach.

Lemma wp_get (Q : _ -> Mach -> Prop) s : Q (con s) s -> wp F get Q s.
Proof. done. Qed.
Lemma wp_upd f (Q : unit -> Mach -> Prop) s :
  Q tt (mkMachine (f (con s)) (world s) (log s)) -> wp F (upd f) Q s.
Proof. done. Qed.
Lemma wp_tell e (Q : unit -> Mach -> Prop) s :
  Q tt (mkMachine (con s) (notify e (world s)) (e :: log s)) -> wp F (tell e) Q s.
Proof. done. Qed.
Lemma wp_note e (Q : unit -> Mach -> Prop) s :
  Q tt (mkMachine (con s) (world s) (e :: log s)) -> wp F (note e) Q s.
Proof. done. Qed.
Lemma wp_put_result r (Q : unit -> Mach -> Prop) s :
  Q tt (mkMachine (set_result (Some r) (con s)) (world s) (log s)) -> wp F (put_result r) Q s.
Proof. done. Qed.
Lemma wp_the_result r (Q : _ -> Mach -> Prop) s :
  result (con s) = Some r -> Q r s -> wp F the_result Q s.
Proof.
  intros Hr HQ. unfold the_result. apply wp_bind, wp_get.
  by eapply wp_lift; [rewrite Hr|].
Qed.
Lemma wp_ask {A} (q : W -> A * W) (Q : A -> Mach -> Prop) s :
  (forall a w', q (world s) = (a, w') -> Q a (mkMachine (con s) w' (log s))) -> wp F (ask q) Q s.
Proof. intros HQ. unfold wp, ask. destruct (q (world s)) as [a w'] eqn:E. by apply HQ. Qed.
End Rules.

Ltac con_step :=
  lazymatch goal with
  | |- wp _ (mret _) _ _ => apply wp_ret
  | |- wp _ (mbind _ _) _ _ => apply wp_bind
  | |- wp _ get _ _ => apply wp_get
  | |- wp _ (upd _) _ _ => apply wp_upd
  | |- wp _ (tell _) _ _ => apply wp_tell
  | |- wp _ (note _) _ _ => apply wp_note
  | |- wp _ (put_result _) _ _ => apply wp_put_result
  | |- wp _ the_result _ _ => eapply wp_the_result; [eassumption|]
  end; cbv beta; simpl.
Ltac con_steps := repeat con_step.

(** ** Disputes against the positions of the peers *)

Section Disputes.
Context `{!HashOrder} {W L LId NodeId TxSet TxSetId Tx TxId PeerPos : Type}.
Context `{EqDecision LId} `{Countable NodeId} `{Countable TxSetId} `{Countable TxId}.
Context `{!TotalOrd TxId} `{!ConsensusTx Tx TxId} `{!ConsensusTxSet TxSet TxSetId Tx TxId}.
Context `{!ConsensusLedger L LId} `{!PeerPosition PeerPos NodeId LId TxSetId}.
Context `{!ConsensusAdaptor W L LId NodeId TxSet TxSetId Tx TxId PeerPos}.
Context `{!TxSetLaws TxSet TxSetId Tx TxId}.
Abbreviation Mach := (machine W L LId NodeId TxSet TxSetId Tx TxId PeerPos).
Abbreviation Con := (Consensus L LId NodeId TxSet TxSetId Tx TxId PeerPos).
Abbreviation Result := (ConsensusResult TxSet NodeId LId TxSetId Tx TxId).
Abbreviation Dispute := (DisputedTx Tx TxId NodeId).
Abbreviation Event := (event L LId NodeId TxSet TxSetId Tx TxId PeerPos).
(** A property of the world that notifications keep. *)
Context (F : Prop) (P : W -> Prop).
Hypothesis notify_keeps : forall e w, P w -> P (notify e w).
Implicit Types (s : Mach) (r : Result) (d : Dispute) (V : NodeId -> Prop).
Implicit Types (peers : gmap NodeId PeerPos) (acq : gmap TxSetId TxSet) (ours : TxSet).

(** The set a peer proposes, when it is at hand. *)
Definition peer_set peers acq (n : NodeId) (set : TxSet) : Prop :=
  exists pos, peers !! n = Some pos /\ acq !! position (proposal pos) = Some set.

(** A dispute is about the transaction it is filed under; our vote on it is
    membership in [ours]; only tracked peers vote; and the vote of a peer
    settled by [V] whose set is at hand is membership in that set. *)
Record dispute_inv V peers acq ours (t : TxId) (d : Dispute) : Prop := {
  di_tx : get_tx_id (tx d) = t;
  di_ours : our_vote d = exists_tx ours t;
  di_counts : dispute_ok d;
  di_voters : dom (votes d) ⊆ dom peers;
  di_votes : forall n set, V n -> peer_set peers acq n set ->
    votes d !! n = Some (exists_tx set t)
}.

(** Every dispute is right, and every transaction on which a compared set
    differs from [ours] is disputed. *)
Record votes_ok V peers acq ours (r : Result) : Prop := {
  vo_disputes : map_Forall (dispute_inv V peers acq ours) (disputes r);
  vo_complete : forall set t, set_id set ∈ compares r ->
    exists_tx set t <> exists_tx ours t -> is_Some (disputes r !! t)
}.

(** Vote tables of tracked peers stay far below the [i32] counters' limit. *)
Definition few peers : Prop := Z.of_nat (size peers) < 20000000.

Lemma few_votes peers d : dom (votes d) ⊆ dom peers -> few peers ->
  Z.of_nat (size (votes d)) < 20000000.
Proof.
  unfold few. intros Hd%subseteq_size. rewrite !size_dom in Hd. lia.
Qed.

(** *** Collecting the votes for a new dispute *)

Lemma set_vote_inv n v d d' b :
  set_vote n v d = (d', b) ->
  votes d' = <[n := v]> (votes d) /\ our_vote d' = our_vote d /\ tx d' = tx d.
Proof. intros E. by destruct (set_vote_fields n v d d' b E) as (? & ? & ? & _). Qed.

(** What voting so far has changed of a dispute [d] that nobody voted on. *)
Record collecting t (c : Con) (d : Dispute) (voted : list NodeId) (d' : Dispute) : Prop := {
  cg_ok : dispute_ok d';
  cg_ours : our_vote d' = our_vote d;
  cg_tx : tx d' = tx d;
  cg_voters : dom (votes d') ⊆ dom (curr_peer_positions c);
  cg_votes : forall n set, n ∈ voted ->
    peer_set (curr_peer_positions c) (acquired c) n set -> votes d' !! n = Some (exists_tx set t)
}.

Lemma collect_vote_ok t (c : Con) d voted a n pos :
  few (curr_peer_positions c) -> curr_peer_positions c !! n = Some pos ->
  collecting t c d voted a.1 -> collecting t c d (n :: voted) (collect_vote t c a (n, pos)).1.
Proof.
  intros Hfew Hn [Hok Ho Ht Hd Hv]. unfold collect_vote. simpl.
  destruct (acquired c !! position (proposal pos)) as [set|] eqn:Ha.
  - destruct (set_vote n (exists_tx set t) a.1) as [d' b] eqn:E. simpl.
    destruct (set_vote_inv _ _ _ _ _ E) as (Hvs & ? & ?).
    split; [|congruence|congruence| |].
    + eapply set_vote_preserves; [done | by eapply few_votes | done].
    + rewrite Hvs, dom_insert_L. apply elem_of_dom_2 in Hn. set_solver.
    + intros m set' Hm (pos' & Hm' & Ha'). rewrite Hvs.
      destruct (decide (m = n)) as [->|]; [rewrite lookup_insert_eq; naive_solver|].
      rewrite lookup_insert_ne by done. apply elem_of_cons in Hm as [?|?]; [done|].
      apply Hv; [done|]. by exists pos'.
  - split; try done. intros m set' [->|Hm]%elem_of_cons (pos' & Hm' & Ha'); [naive_solver|].
    apply Hv; [done|]. by exists pos'.
Qed.

Lemma collect_votes_ok t (c : Con) d :
  few (curr_peer_positions c) -> dispute_ok d -> votes d = ∅ ->
  collecting t c d (hash_iter (curr_peer_positions c)).*1 (collect_votes t c d).1.
Proof.
  intros Hfew Hok Hd. unfold collect_votes.
  assert (forall l voted a, (forall n pos, (n, pos) ∈ l -> curr_peer_positions c !! n = Some pos) ->
    collecting t c d voted a.1 ->
    collecting t c d (rev l.*1 ++ voted) (foldl (collect_vote t c) a l).1) as G.
  { induction l as [|[n pos] l IH]; intros voted a Hl Ha; [done|]. simpl.
    rewrite <- app_assoc. apply IH; [intros; apply Hl; by right|].
    apply collect_vote_ok; [done | apply Hl; left | done]. }
  destruct (G (hash_iter (curr_peer_positions c)) [] (d, false)) as [? ? ? ? Hv].
  - intros n pos Hn%elem_of_hash_iter. done.
  - split; simpl; [done..| rewrite Hd; set_solver | by intros ? ? ?%not_elem_of_nil].
  - split; try done. intros n set Hn. apply Hv. rewrite app_nil_r. by apply elem_of_rev.
Qed.

Lemma collected t (c : Con) d :
  few (curr_peer_positions c) -> dispute_ok d -> votes d = ∅ -> forall V,
  get_tx_id (tx d) = t -> forall ours, our_vote d = exists_tx ours t ->
  dispute_inv V (curr_peer_positions c) (acquired c) ours t (collect_votes t c d).1.
Proof.
  intros Hfew Hok Hd V Ht ours Ho.
  destruct (collect_votes_ok t c d Hfew Hok Hd) as [? ? Htx ? Hv].
  split; [by rewrite Htx | congruence | done | done |].
  intros n set _ (pos & Hn & Ha). apply Hv; [|by exists pos].
  apply list_elem_of_fmap. exists (n, pos). split; [done|]. by apply elem_of_hash_iter.
Qed.

(** *** Creating and updating disputes *)

(** Events that neither propose nor change the mode nor end a phase. *)
Definition quiet (e : Event) : Prop :=
  match e with
  | ShareTx _ | ShareTxSet _ | SharePeerPosition _ | UpdateOperatingMode _ => True
  | _ => False
  end.

Definition quiet_log (l l' : list Event) : Prop := exists k, l' = k ++ l /\ Forall quiet k.

(** Only the disputes, the compared sets and the counter of unchanged rounds
    differ, and the calls made are quiet. *)
Record dispute_step s r s' r' : Prop := {
  ds_con : exists v, con s' = set_peer_unchanged_counter v (set_result (Some r') (con s));
  ds_result : r' = set_compares (compares r') (set_disputes (disputes r') r);
  ds_log : quiet_log (log s) (log s');
  ds_world : P (world s) -> P (world s')
}.

Lemma quiet_log_refl l : quiet_log l l.
Proof. by exists []. Qed.
Lemma quiet_log_cons e l l' : quiet e -> quiet_log l l' -> quiet_log l (e :: l').
Proof. intros He (k & -> & Hk). exists (e :: k). by split; [|constructor]. Qed.
Lemma quiet_log_trans l l' l'' : quiet_log l l' -> quiet_log l' l'' -> quiet_log l l''.
Proof.
  intros (k & -> & Hk) (k' & -> & Hk'). exists (k' ++ k). rewrite app_assoc.
  split; [done|]. by apply Forall_app.
Qed.

Lemma dispute_step_refl s r : result (con s) = Some r -> dispute_step s r s r.
Proof.
  intros Hr. split; [|by destruct r|apply quiet_log_refl|done].
  exists (peer_unchanged_counter (con s)). rewrite <- Hr. by destruct (con s).
Qed.

Lemma dispute_step_trans s r s' r' s'' r'' :
  dispute_step s r s' r' -> dispute_step s' r' s'' r'' -> dispute_step s r s'' r''.
Proof.
  intros [[v Hc] Hr Hl Hw] [[v' Hc'] Hr' Hl' Hw']. split; [| | |auto].
  - exists v'. by rewrite Hc', Hc.
  - rewrite Hr', Hr. by destruct r''.
  - by eapply quiet_log_trans.
Qed.

(** The machine after a step keeps the peers and the sets at hand. *)
Lemma dispute_step_fields s r s' r' :
  dispute_step s r s' r' ->
  result (con s') = Some r' /\ curr_peer_positions (con s') = curr_peer_positions (con s)
  /\ acquired (con s') = acquired (con s) /\ txns r' = txns r
  /\ res_position r' = res_position r.
Proof. intros [[v ->] -> _ _]. done. Qed.

(** The loop over the differences: what holds once those in [seen] are done. *)
Definition creating V s r other (seen : list (TxId * bool)) s' : Prop :=
  exists r', dispute_step s r s' r' /\ compares r' = compares r ∪ {[set_id other]}
  /\ map_Forall (dispute_inv V (curr_peer_positions (con s)) (acquired (con s)) (txns r))
       (disputes r')
  /\ (forall t, is_Some (disputes r !! t) -> is_Some (disputes r' !! t))
  /\ (forall tb, tb ∈ seen -> is_Some (disputes r' !! tb.1)).

Lemma create_dispute_ok V s r other seen tb s' :
  few (curr_peer_positions (con s)) ->
  compare_sets (txns r) other !! tb.1 = Some tb.2 ->
  creating V s r other seen s' ->
  wp F (create_dispute (txns r) other tb) (fun _ => creating V s r other (seen ++ [tb])) s'.
Proof.
  intros Hfew Hcmp (r' & Hs & Hcs & Hds & Hold & Hseen). destruct tb as [t b]. simpl in Hcmp.
  destruct (dispute_step_fields _ _ _ _ Hs) as (Hr' & Hp & Ha & Htx & _).
  apply compare_spec in Hcmp as [Hb Hb'].
  assert (exists x, (if b then find_tx (txns r) t else find_tx other t) = Some x
    /\ get_tx_id x = t) as (x & Hx & Hid).
  { destruct b; [destruct (find_exists (txns r) t) as [x Hx]
                |destruct (find_exists other t) as [x Hx]]; try done;
      exists x; (split; [done|]); by eapply find_tx_id. }
  unfold create_dispute. rewrite Hx. con_steps.
  case_bool_decide as Hdup; con_steps.
  { exists r'. split_and!; try done. intros [t' b'].
    rewrite elem_of_app, list_elem_of_singleton. intros [?|[= -> ->]]; [by apply Hseen|done]. }
  destruct (collect_votes t (con s') (new_dispute x t (exists_tx (txns r) t))) as [dtx voted] eqn:E.
  assert (dispute_inv V (curr_peer_positions (con s)) (acquired (con s)) (txns r) t dtx) as Hd.
  { rewrite <- Hp, <- Ha. replace dtx with (collect_votes t (con s')
      (new_dispute x t (exists_tx (txns r) t))).1 by by rewrite E.
    apply collected; try done. by rewrite Hp. }
  set (r'' := set_disputes (<[t := dtx]> (disputes r')) r').
  assert (forall v w l, quiet_log (log s') l -> (P (world s') -> P w) -> creating V s r other (seen ++ [(t, b)])
    (mkMachine (set_peer_unchanged_counter v (set_result (Some r'') (con s'))) w l)) as G.
  { intros v w l Hl Hw. exists r''. split.
    { eapply dispute_step_trans; [done|]. split; [by exists v | by destruct r' | done | done]. }
    unfold r''. simpl. split_and!; [done | by apply map_Forall_insert_2 | |].
    - intros t' Ht'. rewrite lookup_insert_is_Some'. auto.
    - intros [t' b']. rewrite elem_of_app, list_elem_of_singleton. simpl.
      rewrite lookup_insert_is_Some'. intros [Hin|[= -> ->]]; [right; by apply (Hseen (t', b'))|auto]. }
  con_steps. apply wp_when; intros _; con_steps.
  - apply (G 0); [apply quiet_log_cons; [done | apply quiet_log_refl] | apply notify_keeps].
  - replace (set_result (Some (set_disputes (<[t:=dtx]> (disputes r')) r')) (con s'))
      with (set_peer_unchanged_counter (peer_unchanged_counter (con s'))
              (set_result (Some r'') (con s'))) by done.
    apply G; [apply quiet_log_cons; [done | apply quiet_log_refl] | apply notify_keeps].
Qed.

Definition votes_at V s (r : Result) : Prop :=
  votes_ok V (curr_peer_positions (con s)) (acquired (con s)) (txns r) r.

(** The state after [other] has been compared with our set. *)
Definition compared_with V s r other s' : Prop :=
  exists r', dispute_step s r s' r' /\ votes_at V s' r'
    /\ compares r' = compares r ∪ {[set_id other]}.

Lemma creating_done V s r other s' :
  votes_at V s r -> set_id (txns r) <> set_id other ->
  creating V s r other (btree_iter (compare_sets (txns r) other)) s' ->
  compared_with V s r other s'.
Proof.
  intros [Hds Hc] Hne (r' & Hs & Hcs & Hds' & Hold & Hseen). exists r'.
  destruct (dispute_step_fields _ _ _ _ Hs) as (Hr' & Hp & Ha & Htx & _).
  split_and!; [done | | done]. split; rewrite Hp, Ha, Htx || rewrite Htx; [done|].
  intros set t Hset Hdiff. rewrite Hcs, elem_of_union, elem_of_singleton in Hset.
  destruct Hset as [Hset|Hset]; [apply Hold; by eapply Hc|].
  rewrite (id_exists set other Hset t) in Hdiff.
  apply (Hseen (t, exists_tx (txns r) t)). apply elem_of_btree_iter, compare_spec.
  split; [done|]. by destruct (exists_tx other t), (exists_tx (txns r) t).
Qed.

Lemma create_disputes_ok V s r other :
  result (con s) = Some r -> few (curr_peer_positions (con s)) -> votes_at V s r ->
  wp F (create_disputes other) (fun _ => compared_with V s r other) s.
Proof.
  intros Hr Hfew Hv. unfold create_disputes. con_steps.
  set (r1 := set_compares (compares r ∪ {[set_id other]}) r).
  set (s1 := mkMachine (set_result (Some r1) (con s)) (world s) (log s)).
  assert (dispute_step s r s1 r1) as Hs1.
  { split; [exists (peer_unchanged_counter (con s)) | by destruct r | apply quiet_log_refl | done].
    by destruct (con s). }
  case_bool_decide as Hdup.
  { con_steps. exists r1. split_and!; [done| |done]. destruct Hv as [Hds Hc].
    split; [done|]. intros set t Hset. apply Hc. unfold r1 in Hset. simpl in Hset.
    apply elem_of_union in Hset as [?|Hset%elem_of_singleton]; [done | by rewrite Hset]. }
  case_bool_decide as Hid; con_steps.
  - exists r1. split_and!; [done| |done]. destruct Hv as [Hds Hc].
    split; [done|]. intros set t Hset Hdiff. unfold r1 in Hset, Hdiff. simpl in Hset, Hdiff.
    apply elem_of_union in Hset as [Hset|Hset%elem_of_singleton]; [by eapply Hc|].
    rewrite (id_exists set (txns r)) in Hdiff by congruence. done.
  - eapply wp_mono; [|intros ? s'; by apply creating_done].
    apply wp_for_each_prefix.
    + exists r1. split_and!; try done; [by destruct Hv | by intros ? ?%not_elem_of_nil].
    + intros seen [t b] rest s' Hl HI. apply create_dispute_ok; [done | | done].
      simpl. apply elem_of_btree_iter. rewrite Hl. set_solver.
Qed.

(** One peer's set voted into every dispute. *)
Lemma vote_by_set_inv V peers acq ours n set t d :
  few peers -> n ∈ dom peers -> (forall set', peer_set peers acq n set' -> set' = set) ->
  dispute_inv V peers acq ours t d ->
  dispute_inv (fun m => V m \/ m = n) peers acq ours t (vote_by_set n set d).1.
Proof.
  intros Hfew Hn Hset [Ht Ho Hok Hd Hv]. unfold vote_by_set. rewrite Ht.
  destruct (set_vote n (exists_tx set t) d) as [d' b] eqn:E. simpl.
  destruct (set_vote_inv _ _ _ _ _ E) as (Hvs & ? & ?). split; [congruence|congruence| | |].
  - eapply set_vote_preserves; [done | by eapply few_votes | done].
  - rewrite Hvs, dom_insert_L. set_solver.
  - intros m set' Hm Hm'. rewrite Hvs. destruct (decide (m = n)) as [->|Hne].
    + by rewrite lookup_insert_eq, (Hset set' Hm').
    + rewrite lookup_insert_ne by done. apply Hv; [|done]. by destruct Hm.
Qed.

Lemma votes_ok_fmap V V' peers acq ours r f :
  votes_ok V peers acq ours r ->
  (forall t d, dispute_inv V peers acq ours t d -> dispute_inv V' peers acq ours t (f d)) ->
  votes_ok V' peers acq ours (set_disputes (f <$> disputes r) r).
Proof.
  intros [Hds Hc] Hf. split; simpl.
  - apply map_Forall_fmap. intros t d Hd. apply Hf. by apply Hds.
  - intros set t Hset Hdiff. rewrite lookup_fmap, fmap_is_Some. by eapply Hc.
Qed.

Lemma update_disputes_ok V s r n set :
  result (con s) = Some r -> few (curr_peer_positions (con s)) -> votes_at V s r ->
  peer_set (curr_peer_positions (con s)) (acquired (con s)) n set ->
  wp F (update_disputes n set)
    (fun _ => compared_with (fun m => V m \/ m = n) s r set) s.
Proof.
  intros Hr Hfew Hv Hn. unfold update_disputes. con_steps.
  apply wp_mono with (Q := fun _ => compared_with V s r set).
  { apply wp_when; [intros _; by apply create_disputes_ok|].
    intros Hdup%negb_false_iff%bool_decide_eq_true. exists r.
    split_and!; [by apply dispute_step_refl | done | set_solver]. }
  intros ? s' (r' & Hs & Hv' & Hcs).
  destruct (dispute_step_fields _ _ _ _ Hs) as (Hr' & Hp & Ha & Htx & _). con_steps.
  set (r'' := set_disputes ((fun d => (vote_by_set n set d).1) <$> disputes r') r').
  assert (forall v, compared_with (fun m => V m \/ m = n) s r set
    (mkMachine (set_peer_unchanged_counter v (set_result (Some r'') (con s')))
       (world s') (log s'))) as G.
  { intros v. exists r''. split_and!; [| |done].
    - eapply dispute_step_trans; [done|].
      split; [by exists v | by destruct r' | apply quiet_log_refl | done].
    - unfold votes_at, r''. simpl. eapply votes_ok_fmap; [exact Hv'|].
      intros t d. rewrite Hp, Ha. apply vote_by_set_inv; [done| |].
      + destruct Hn as (pos & Hn & _). by apply elem_of_dom_2 in Hn.
      + intros set' (pos' & ? & ?). destruct Hn as (pos & ? & ?). naive_solver. }
  apply wp_when; intros _; con_steps; [apply (G 0)|].
  apply (G (peer_unchanged_counter (con s'))).
Qed.
End Disputes.
