(* ===== verification/ConsensusSafe.v ===== *)
(** * The consensus state machine: every handler keeps the invariant

    The whole-machine invariant, relaxed while a handler is in the middle of
    bringing the disputes in line with the proposals, and its preservation. *)

From S2P Require Import Prelude Chrono Params Proposal DisputedTx Types Functions Stateful.
From S2P Require Import Consensus ConsensusInv.

(** ** The log of calls *)

Section Log.
Context {L LId NodeId TxSet TxSetId Tx TxId PeerPos : Type}.
Context `{Countable NodeId} `{Countable TxSetId} `{Countable TxId}.
Context `{!ConsensusTxSet TxSet TxSetId Tx TxId}.
Abbreviation Event := (event L LId NodeId TxSet TxSetId Tx TxId PeerPos).
Implicit Types l : list Event.

(** The mode the application was last told. *)
Fixpoint mode_of l : ConsensusMode :=
  match l with
  | [] => Observing
  | ModeChange _ m :: _ => m
  | _ :: l => mode_of l
  end.

(** The sequence number of our last proposal since the ledger last closed. *)
Fixpoint last_seq l : option Z :=
  match l with
  | [] => None
  | Closed _ _ _ :: _ => None
  | Propose p :: _ => Some (propose_seq p)
  | _ :: l => last_seq l
  end.

(** What is promised of a call, given the earlier ones: mode changes connect; we
    propose only as a proposer and with growing sequence numbers; a ledger is
    accepted only in a final state, for the set our position names. *)
Definition event_ok (e : Event) l : Prop :=
  match e with
  | ModeChange before _ => before = mode_of l
  | Propose p => mode_of l = Proposing /\ forall q, last_seq l = Some q -> q < propose_seq p
  | AcceptedLedger r _ _ _ m =>
      res_state r <> No /\ position (res_position r) = set_id (txns r) /\ m = mode_of l
  | _ => True
  end.

Fixpoint log_ok l : Prop :=
  match l with [] => True | e :: l => event_ok e l /\ log_ok l end.

Lemma quiet_ok e l : quiet e ->
  event_ok e l /\ mode_of (e :: l) = mode_of l /\ last_seq (e :: l) = last_seq l.
Proof. by destruct e. Qed.

Lemma quiet_log_ok l l' : quiet_log l l' -> log_ok l ->
  log_ok l' /\ mode_of l' = mode_of l /\ last_seq l' = last_seq l.
Proof.
  intros (k & -> & Hk) Hl. induction Hk as [|e k He Hk (IHl & IHm & IHs)]; [done|].
  destruct (quiet_ok e (k ++ l) He) as (? & Hm & Hq). simpl app.
  rewrite Hm, Hq. simpl. auto.
Qed.
End Log.

(** ** Worlds: what the adaptor's calls keep *)

Definition keeps {W A} (P : W -> Prop) (q : W -> A * W) : Prop :=
  forall w a w', P w -> q w = (a, w') -> P w'.

Class WorldInv `{ConsensusAdaptor W L LId NodeId TxSet TxSetId Tx TxId PeerPos}
    (P : W -> Prop) : Prop := {
  wi_acquire_ledger : forall id, keeps P (acquire_ledger id);
  wi_acquire_tx_set : forall id, keeps P (acquire_tx_set id);
  wi_has_open : keeps P has_open_transactions;
  wi_validated : forall id, keeps P (proposers_validated id);
  wi_finished : forall l id, keeps P (proposers_finished l id);
  wi_prev : forall id l m, keeps P (get_prev_ledger id l m);
  wi_on_close : forall l t m, keeps P (on_close l t m);
  wi_valid_seq : keeps P valid_ledger_seq;
  wi_quorum : keeps P quorum_keys;
  wi_laggards : forall n k, keeps P (laggards n k);
  wi_validator : keeps P validator;
  wi_have_validated : keeps P have_validated;
  wi_clock : keeps P clock_now;
  wi_notify : forall e w, P w -> P (notify e w)
}.

Create HintDb consensus.
#[export] Hint Resolve wi_acquire_ledger wi_acquire_tx_set wi_has_open wi_validated wi_finished
  wi_prev wi_on_close wi_valid_seq wi_quorum wi_laggards wi_validator wi_have_validated
  wi_clock : consensus.

(** ** The invariant *)

Section Invariant.
Context `{!HashOrder} {W L LId NodeId TxSet TxSetId Tx TxId PeerPos : Type}.
Context `{EqDecision LId} `{Countable NodeId} `{Countable TxSetId} `{Countable TxId}.
Context `{!TotalOrd TxId} `{!ConsensusTx Tx TxId} `{!ConsensusTxSet TxSet TxSetId Tx TxId}.
Context `{!ConsensusLedger L LId} `{!PeerPosition PeerPos NodeId LId TxSetId}.
Context `{!ConsensusAdaptor W L LId NodeId TxSet TxSetId Tx TxId PeerPos}.
Abbreviation Mach := (machine W L LId NodeId TxSet TxSetId Tx TxId PeerPos).
Abbreviation Con := (Consensus L LId NodeId TxSet TxSetId Tx TxId PeerPos).
Abbreviation Result := (ConsensusResult TxSet NodeId LId TxSetId Tx TxId).
Abbreviation Event := (event L LId NodeId TxSet TxSetId Tx TxId PeerPos).
Implicit Types (c : Con) (r : Result) (V K : NodeId -> Prop).

(** The validators whose proposals are let through. *)
Context (U : gset NodeId) (P : W -> Prop).

Definition timer_ok (t : ConsensusTimer) : Prop :=
  time_ok (timer_dur t) /\ exists st, timer_start t = Some st /\ time_ok st.

Record result_ok V K c r : Prop := {
  ro_votes : votes_ok V (curr_peer_positions c) (acquired c) (txns r) r;
  ro_compared : forall n set, K n -> peer_set (curr_peer_positions c) (acquired c) n set ->
    set_id set ∈ compares r;
  ro_position : position (res_position r) = set_id (txns r);
  ro_seq : in_u32 (propose_seq (res_position r));
  ro_timer : timer_ok (round_time r)
}.

Definition peer_ok c (n : NodeId) (pos : PeerPos) : Prop :=
  Proposal.node_id (proposal pos) = n
  /\ Proposal.previous_ledger (proposal pos) = prev_ledger_id c
  /\ is_bow_out (proposal pos) = false /\ n ∈ U.

Definition recent_ok (n : NodeId) (l : list PeerPos) : Prop :=
  (length l <= 10)%nat /\ n ∈ U /\ Forall (fun pos => Proposal.node_id (proposal pos) = n) l.

(** The facts that do not involve the disputes. *)
Record base_ok c : Prop := {
  co_dead : dead_nodes c ## dom (curr_peer_positions c);
  co_peers : map_Forall (peer_ok c) (curr_peer_positions c);
  co_recent : map_Forall recent_ok (recent_peer_positions c);
  co_acquired : map_Forall (fun i set => set_id set = i) (acquired c);
  co_time : time_ok (prev_round_time c);
  co_proposers : count_ok (prev_proposers c);
  co_ledger : ledger_ok (previous_ledger c)
}.

(** A position is held exactly while it is being established, and kept once the
    ledger is accepted. *)
Definition phase_ok c : Prop :=
  match phase c with Open => result c = None | Establish => result c <> None | Accepted => True end.

Record con_ok V K c : Prop := {
  co_base : base_ok c;
  co_phase : phase_ok c;
  co_result : forall r, result c = Some r -> result_ok V K c r
}.

Definition log_inv c (l : list Event) : Prop :=
  log_ok l /\ mode_of l = mode c
  /\ forall r q, result c = Some r -> last_seq l = Some q -> q <= propose_seq (res_position r).

Definition inv_upto V K (s : Mach) : Prop :=
  con_ok V K (con s) /\ log_inv (con s) (log s) /\ P (world s).

Definition all_nodes : NodeId -> Prop := fun _ => True.
Definition machine_ok : Mach -> Prop := inv_upto all_nodes all_nodes.

(** What handlers of proposals and sets leave alone. *)
Definition statics c :=
  (phase c, mode c, prev_ledger_id c, previous_ledger c, recent_peer_positions c,
   res_position <$> result c, prev_proposers c, have_close_time_consensus c,
   (prev_round_time c, establish_counter c, close_resolution c, first_round c)).
End Invariant.

(** ** Proposals and transaction sets *)

Section Peers.
Context `{!HashOrder} {W L LId NodeId TxSet TxSetId Tx TxId PeerPos : Type}.
Context `{EqDecision LId} `{Countable NodeId} `{Countable TxSetId} `{Countable TxId}.
Context `{!TotalOrd TxId} `{!ConsensusTx Tx TxId} `{!ConsensusTxSet TxSet TxSetId Tx TxId}.
Context `{!ConsensusLedger L LId} `{!PeerPosition PeerPos NodeId LId TxSetId}.
Context `{!ConsensusAdaptor W L LId NodeId TxSet TxSetId Tx TxId PeerPos}.
Context `{!TxSetLaws TxSet TxSetId Tx TxId}.
Abbreviation Mach := (machine W L LId NodeId TxSet TxSetId Tx TxId PeerPos).
Abbreviation Con := (Consensus L LId NodeId TxSet TxSetId Tx TxId PeerPos).
Abbreviation Result := (ConsensusResult TxSet NodeId LId TxSetId Tx TxId).
Context (F : Prop) (U : gset NodeId) (P : W -> Prop) `{!WorldInv P}.
Hypothesis few_validators : Z.of_nat (size U) < 20000000.
Implicit Types (s : Mach) (c : Con) (r : Result) (V K : NodeId -> Prop).

Abbreviation inv := (inv_upto U P).
Abbreviation machine_ok := (machine_ok U P).

Lemma few_peers c : base_ok U c -> few (curr_peer_positions c).
Proof.
  intros Hb. unfold few. rewrite <- size_dom.
  assert (dom (curr_peer_positions c) ⊆ U) as Hd%subseteq_size; [|lia].
  intros n [pos Hn]%elem_of_dom. by destruct (co_peers U c Hb n pos Hn) as (_ & _ & _ & ?).
Qed.

Lemma few_count c : base_ok U c -> count_ok (Z.of_nat (size (curr_peer_positions c))).
Proof. intros Hb%few_peers. unfold few, count_ok in *. lia. Qed.

(** The positions and sets the disputes are judged by. *)
Definition same_view s s' : Prop :=
  curr_peer_positions (con s') = curr_peer_positions (con s)
  /\ acquired (con s') = acquired (con s) /\ dead_nodes (con s') = dead_nodes (con s)
  /\ statics (con s') = statics (con s) /\ quiet_log (log s) (log s').

Lemma same_view_refl s : same_view s s.
Proof. split_and!; try done. apply quiet_log_refl. Qed.
Lemma same_view_trans s s' s'' : same_view s s' -> same_view s' s'' -> same_view s s''.
Proof.
  intros (? & ? & ? & ? & ?) (? & ? & ? & ? & ?). split_and!; [congruence..|].
  by eapply quiet_log_trans.
Qed.

Lemma inv_weaken V K V' K' s :
  inv V K s -> (forall n, V' n -> V n) -> (forall n, K' n -> K n) -> inv V' K' s.
Proof.
  intros ([Hb Hp Hr] & Hl & Hw) HV HK. split_and!; [|done|done]. split; [done|done|].
  intros r Er. destruct (Hr r Er) as [[Hds Hc] Hcm Hpos Hseq Ht]. split; [split| | | |]; eauto.
  eapply map_Forall_impl; [exact Hds|]. intros t d [? ? ? ? Hv]. split; eauto.
Qed.

(** A quiet step on the disputes. *)
Lemma inv_dispute_step V K V' K' s r s' r' :
  inv V K s -> result (con s) = Some r -> dispute_step P s r s' r' -> votes_at V' s' r' ->
  (forall n set, K' n -> peer_set (curr_peer_positions (con s)) (acquired (con s)) n set ->
     set_id set ∈ compares r') ->
  inv V' K' s' /\ same_view s s'.
Proof.
  intros ([Hb Hp Hr] & (Hlog & Hm & Hq) & Hw) Er [[v Hc] Hres Hql Hw'] Hv Hk.
  destruct (Hr r Er) as [_ _ Hpos Hseq Ht].
  destruct (quiet_log_ok _ _ Hql Hlog) as (Hlog' & Hm' & Hs').
  unfold votes_at in Hv. rewrite Hc in Hv. simpl in Hv.
  split; [unfold inv_upto|unfold same_view]; rewrite Hc; [split_and!; [split| |]|].
  - destruct Hb. split; done.
  - unfold phase_ok in *. simpl. destruct (phase (con s)); [congruence|done|done].
  - simpl. intros ? [= <-].
    split; [exact Hv | exact Hk | | | ]; rewrite Hres; done.
  - split_and!; [done | by rewrite Hm'|]. simpl. intros ? q [= <-]. rewrite Hs', Hres. simpl. eauto.
  - auto.
  - unfold statics. simpl. split_and!; try done.
    rewrite Er, Hres. done.
Qed.

Lemma update_disputes_inv V K s n set :
  inv V K s -> result (con s) <> None ->
  peer_set (curr_peer_positions (con s)) (acquired (con s)) n set ->
  wp F (update_disputes n set)
    (fun _ s' => inv (fun m => V m \/ m = n) (fun m => K m \/ m = n) s'
       /\ same_view s s') s.
Proof.
  intros Hi Hne Hn. destruct (result (con s)) as [r|] eqn:Er; [clear Hne|done].
  pose proof Hi as ([Hb _ Hr] & _). destruct (Hr r Er) as [Hv Hk _ _ _].
  eapply wp_mono; [apply (update_disputes_ok F P (wi_notify) V s r n set Er); try done;
    by apply few_peers|].
  intros ? s' (r' & Hs & Hv' & Hcs). eapply inv_dispute_step; [done..|].
  intros m set' [Hm| ->] Hm'; rewrite Hcs; [apply elem_of_union_l; by eapply Hk|].
  destruct Hn as (pos & ? & ?), Hm' as (pos' & ? & ?). simplify_eq. set_solver.
Qed.

Lemma create_disputes_inv V K s set :
  inv V K s -> result (con s) <> None ->
  wp F (create_disputes set)
    (fun _ s' => inv V (fun m => K m \/ forall set', peer_set (curr_peer_positions (con s))
         (acquired (con s)) m set' -> set' = set) s'
       /\ same_view s s') s.
Proof.
  intros Hi Hne. destruct (result (con s)) as [r|] eqn:Er; [clear Hne|done].
  pose proof Hi as ([Hb _ Hr] & _). destruct (Hr r Er) as [Hv Hk _ _ _].
  eapply wp_mono; [apply (create_disputes_ok F P (wi_notify) V s r set Er); try done;
    by apply few_peers|].
  intros ? s' (r' & Hs & Hv' & Hcs). eapply inv_dispute_step; [done..|].
  intros m set' [Hm|Hm] Hm'; rewrite Hcs; [apply elem_of_union_l; by eapply Hk|].
  rewrite (Hm set' Hm'). set_solver.
Qed.

(** The disputes stay right when the view gains peers or sets, up to the peers
    whose proposed set is new. *)
Lemma result_ok_view V K V' K' c c' r :
  result_ok V K c r ->
  dom (curr_peer_positions c) ⊆ dom (curr_peer_positions c') ->
  (forall n set, V' n \/ K' n -> peer_set (curr_peer_positions c') (acquired c') n set ->
     (V' n -> V n) /\ (K' n -> K n) /\ peer_set (curr_peer_positions c) (acquired c) n set) ->
  result_ok V' K' c' r.
Proof.
  intros [[Hds Hc] Hk Hpos Hseq Ht] Hd Hview. split; [split| | | |]; try done.
  - eapply map_Forall_impl; [exact Hds|]. intros t d [? ? ? Hvs Hv].
    split; [done|done|done|set_solver|]. intros n set Hn Hset.
    destruct (Hview n set) as (? & _ & ?); auto.
  - intros n set Hn Hset. destruct (Hview n set) as (_ & ? & ?); eauto.
Qed.

(** The fields the invariant reads. *)
Definition core c :=
  (phase c, mode c, result c, curr_peer_positions c, acquired c, dead_nodes c,
   (recent_peer_positions c, prev_round_time c, prev_proposers c, previous_ledger c,
    prev_ledger_id c)).

Lemma inv_core V K s c' w l :
  inv V K s -> core c' = core (con s) -> P w -> quiet_log (log s) l ->
  inv V K (mkMachine c' w l).
Proof.
  intros ([[] Hp Hr] & (Hlog & Hm & Hq) & _)
    [= Eph Em Er Ec Ea Ed Erc Et En El Ei] Hw Hl.
  destruct (quiet_log_ok _ _ Hl Hlog) as (Hlog' & Hm' & Hs').
  unfold phase_ok in Hp. split_and!; [split| |done]; simpl.
  - split; rewrite ?Ed, ?Ec, ?Erc, ?Ea, ?Et, ?En, ?El; try done.
    eapply map_Forall_impl; [eassumption|]. intros n pos. unfold peer_ok. by rewrite Ei.
  - unfold phase_ok. by rewrite Eph, Er.
  - intros r. rewrite Er. intros [Hv Hk ? ? ?]%Hr. split; rewrite ?Ec, ?Ea; done.
  - split_and!; simpl; [done | congruence |]. rewrite Er, Hs'. done.
Qed.

Lemma inv_set_now V K t s :
  inv V K s -> inv V K (mkMachine (set_now t (con s)) (world s) (log s)).
Proof.
  intros Hi. eapply inv_core; [exact Hi | done | by destruct Hi as (_ & _ & ?) |].
  apply quiet_log_refl.
Qed.

(** Peers whose proposed set is not [i]. *)
Definition not_proposing c (i : TxSetId) : NodeId -> Prop := fun n =>
  forall pos, curr_peer_positions c !! n = Some pos -> position (proposal pos) <> i.

Lemma inv_acquire s set :
  machine_ok s -> acquired (con s) !! set_id set = None ->
  let V := not_proposing (con s) (set_id set) in
  inv V V (mkMachine (set_acquired (<[set_id set := set]> (acquired (con s))) (con s))
             (world s) (log s)).
Proof.
  intros ([Hb Hp Hr] & Hl & Hw) Ha. split_and!; [|done|done]. split; [|done|]; simpl.
  - destruct Hb. split; try done. simpl. by apply map_Forall_insert_2.
  - intros r Er. eapply result_ok_view; [exact (Hr r Er)|done|]. simpl.
    intros n set' Hn (pos & Hpos & Hset). split_and!; [done..|]. exists pos. split; [done|].
    rewrite lookup_insert_ne in Hset; [done|]. destruct Hn as [Hn|Hn]; by apply not_eq_sym, Hn.
Qed.

Definition keeps_ok s s' : Prop :=
  machine_ok s' /\ statics (con s') = statics (con s) /\ quiet_log (log s) (log s').

(** The tracked peers stay as they are. *)
Definition same_peers s s' : Prop :=
  curr_peer_positions (con s') = curr_peer_positions (con s)
  /\ dead_nodes (con s') = dead_nodes (con s).

Lemma keeps_ok_refl s : machine_ok s -> keeps_ok s s.
Proof. intros Hok. split_and!; [done|done|apply quiet_log_refl]. Qed.

(** Every tracked peer, with the set it proposes. *)
Definition positions_of c : list (NodeId * TxSetId) :=
  (fun np => (np.1, position (proposal np.2))) <$> hash_iter (curr_peer_positions c).

Lemma elem_of_positions c n i :
  (n, i) ∈ positions_of c <->
  exists pos, curr_peer_positions c !! n = Some pos /\ i = position (proposal pos).
Proof.
  unfold positions_of. rewrite list_elem_of_fmap. setoid_rewrite <- elem_of_hash_iter. split.
  - intros ([n' pos] & [= -> ->] & ?). eauto.
  - intros (pos & ? & ->). exists (n, pos). done.
Qed.

(** Peers dealt with: those not proposing [i] and those already visited. *)
Definition settled c i (seen : list (NodeId * TxSetId)) : NodeId -> Prop :=
  fun n => not_proposing c i n \/ n ∈ seen.*1.

Lemma settled_all c i n : settled c i (positions_of c) n.
Proof.
  destruct (curr_peer_positions c !! n) as [pos|] eqn:Hn; [right|left; intros ? ?; congruence].
  apply list_elem_of_fmap. exists (n, position (proposal pos)). split; [done|].
  apply elem_of_positions. eauto.
Qed.

Lemma settled_nil c i n : settled c i [] n -> not_proposing c i n.
Proof. by intros [?|?%not_elem_of_nil]. Qed.

Lemma settled_snoc c i seen np n :
  settled c i (seen ++ [np]) n -> settled c i seen n \/ n = np.1.
Proof.
  unfold settled. rewrite fmap_app, elem_of_app. simpl. rewrite list_elem_of_singleton. tauto.
Qed.

Lemma same_view_result s s' : same_view s s' -> result (con s) <> None -> result (con s') <> None.
Proof.
  intros (_ & _ & _ & [= _ _ _ _ _ Hst _ _ _ _ _ _] & _) Hr Hn. apply Hr.
  rewrite Hn in Hst. by destruct (result (con s)).
Qed.

Lemma vote_positions_ok set s :
  let i := set_id set in let V := not_proposing (con s) i in
  inv V V s -> result (con s) <> None -> acquired (con s) !! i = Some set ->
  wp F (for_each (positions_of (con s)) (fun np =>
          when (bool_decide (np.2 = i)) (update_disputes np.1 set)))
    (fun _ s' => machine_ok s' /\ same_view s s') s.
Proof.
  intros i V Hi Hr Ha.
  set (I := fun seen s' => let D := settled (con s) i seen in
    inv D D s' /\ same_view s s').
  apply wp_mono with (Q := fun _ => I (positions_of (con s))).
  - apply wp_for_each_prefix.
    { split; [|apply same_view_refl]. eapply inv_weaken; [exact Hi|apply settled_nil..]. }
    intros seen [n j] rest s' Hl [Hi' Hv]. simpl.
    assert ((n, j) ∈ positions_of (con s)) as (pos & Hn & ->)%elem_of_positions
      by (rewrite Hl; set_solver).
    apply wp_when; intros Hid;
      [apply bool_decide_eq_true in Hid | apply bool_decide_eq_false in Hid].
    + pose proof Hv as (Hc & Ha' & _).
      eapply wp_mono; [apply update_disputes_inv; [exact Hi' | by eapply same_view_result |]|].
      * rewrite Hc, Ha'. exists pos. by rewrite Hid.
      * intros ? s'' [Hi'' Hv'']. split; [|by eapply same_view_trans].
        eapply inv_weaken; [exact Hi''|..]; intros m Hm%settled_snoc; done.
    + split; [|done]. assert (V n) by (intros pos' ?; naive_solver).
      eapply inv_weaken; [exact Hi'|..]; (intros m [?| ->]%settled_snoc; [done|by left]).
  - intros ? s' [Hi' Hv]. split; [|done].
    eapply inv_weaken; [exact Hi'|..]; intros; apply settled_all.
Qed.

Lemma inv_no_result V K V' K' s : inv V K s -> result (con s) = None -> inv V' K' s.
Proof.
  intros ([Hb Hp _] & Hl & Hw) Hr. split_and!; [split|..]; try done. congruence.
Qed.

Lemma got_tx_set_ok t set s :
  machine_ok s -> wp F (got_tx_set t set) (fun _ s' => keeps_ok s s' /\ same_peers s s') s.
Proof.
  intros Hok. unfold got_tx_set. con_steps. case_bool_decide; con_steps; [by split; [apply keeps_ok_refl|]|].
  case_bool_decide as Ha; con_steps.
  { split; [|done]. split_and!; [by apply inv_set_now | done | apply quiet_log_refl]. }
  apply eq_None_not_Some in Ha.
  pose proof (inv_acquire _ set (inv_set_now _ _ t s Hok) Ha) as Hi.
  set (s1 := mkMachine (set_acquired _ _) _ _) in Hi |- *.
  case_bool_decide as Hr; con_steps.
  { split; [|done]. split_and!; [by eapply inv_no_result | done | apply quiet_log_refl]. }
  eapply wp_mono; [apply (vote_positions_ok set s1 Hi Hr); apply lookup_insert_eq|].
  by intros ? s' [? (? & _ & ? & ? & ?)].
Qed.

(** *** One proposal *)

Lemma un_vote_inv V peers acq ours t n d :
  dispute_inv V peers acq ours t d ->
  dispute_inv V (delete n peers) acq ours t (un_vote n d : DisputedTx Tx TxId NodeId).
Proof.
  intros [Ht Ho Hok Hd Hv]. destruct (un_vote_other n d) as (Ho' & _ & Ht').
  split; [congruence | congruence | by apply un_vote_preserves | |].
  - rewrite un_vote_votes, !dom_delete_L. set_solver.
  - intros m set HV (pos & Hm & Hset). rewrite un_vote_votes.
    apply lookup_delete_Some in Hm as [? Hm]. rewrite lookup_delete_ne by done.
    apply Hv; [done|]. by exists pos.
Qed.

Lemma result_ok_drop V K c r n :
  result_ok V K c r ->
  result_ok V K (set_curr_peer_positions (delete n (curr_peer_positions c)) c)
    (set_disputes (un_vote n <$> disputes r) r).
Proof.
  intros [[Hds Hc] Hk Hpos Hseq Ht]. split; try done; simpl.
  - split; simpl.
    + apply map_Forall_fmap. intros t d Hd. simpl. apply un_vote_inv. by apply Hds.
    + intros set t Hset Hdiff. rewrite lookup_fmap, fmap_is_Some. by eapply Hc.
  - intros m set Hm (pos & [_ Hn]%lookup_delete_Some & Hset). eapply Hk; [done|].
    by exists pos.
Qed.

(** A peer leaves, and [dead] are the nodes we stop listening to. *)
Definition forget (n : NodeId) (dead : gset NodeId) c : Con :=
  set_dead_nodes dead (set_curr_peer_positions (delete n (curr_peer_positions c))
    (set_result (un_vote_all n (result c)) c)).

Lemma inv_forget V K n dead s :
  inv V K s -> dead ⊆ dead_nodes (con s) ∪ {[n]} ->
  inv V K (mkMachine (forget n dead (con s)) (world s) (log s)).
Proof.
  intros ([[] Hp Hr] & (Hlog & Hm & Hq) & Hw) Hdead. split_and!; [|split_and!|]; try done.
  - split.
    + split; try done; simpl; [rewrite dom_delete_L; set_solver | by apply map_Forall_delete].
    + unfold phase_ok in *. simpl. unfold un_vote_all.
      by destruct (phase (con s)), (result (con s)).
    + simpl. unfold un_vote_all. destruct (result (con s)) as [r|]; [|done]. intros ? [= <-].
      destruct (result_ok_drop V K (con s) r n) as [? ? ? ? ?]; [by apply Hr|]. by split.
  - simpl. unfold un_vote_all. destruct (result (con s)) as [r|]; [|done].
    intros ? q [= <-]. simpl. by apply Hq.
Qed.

Lemma forget_statics n dead c : statics (forget n dead c) = statics c.
Proof. unfold statics, forget, un_vote_all. simpl. by destruct (result c). Qed.

(** A peer's new position is taken up; its votes are not yet in line. *)
Lemma inv_track n pos s :
  machine_ok s -> n ∉ dead_nodes (con s) -> peer_ok U (con s) n pos ->
  let V := fun m => m <> n in
  inv V V (mkMachine (set_curr_peer_positions (<[n := pos]> (curr_peer_positions (con s)))
    (con s)) (world s) (log s)).
Proof.
  intros ([[] Hp Hr] & Hl & Hw) Hdead Hpos. split_and!; [|done|done]. split; [|done|].
  - split; try done; simpl; [rewrite dom_insert_L; set_solver | by apply map_Forall_insert_2].
  - intros r Er. eapply result_ok_view; [exact (Hr r Er)| |]; simpl.
    + rewrite dom_insert_L. set_solver.
    + intros m set Hm (pos' & Hm' & Hset). split_and!; [done..|]. exists pos'. split; [|done].
      rewrite lookup_insert_ne in Hm'; [done|]. by destruct Hm; apply not_eq_sym.
Qed.

Lemma use_position_ok n pos s :
  inv (fun m => m <> n) (fun m => m <> n) s ->
  curr_peer_positions (con s) !! n = Some pos -> Proposal.node_id (proposal pos) = n ->
  wp F (use_position (proposal pos)) (fun _ s' => keeps_ok s s' /\ same_peers s s') s.
Proof.
  intros Hi Hn Hid. unfold use_position. con_steps.
  destruct (acquired (con s) !! position (proposal pos)) as [set|] eqn:Ha.
  - apply wp_when; intros Hr; [apply bool_decide_eq_true in Hr | apply bool_decide_eq_false in Hr].
    + rewrite Hid. eapply wp_mono; [apply update_disputes_inv; [exact Hi|done|by exists pos]|].
      intros ? s' [Hi' (? & _ & ? & ? & ?)]. split; [|done]. split; [|done].
      eapply inv_weaken; [exact Hi'|..]; intros m _; destruct (decide (m = n)); auto.
    + split; [|done]. split_and!; [|done|apply quiet_log_refl]. eapply inv_no_result; [done|].
      by apply dec_stable.
  - assert (machine_ok s) as Hok.
    { destruct Hi as ([Hb Hp Hr] & Hl & Hw). split_and!; [|done|done]. split; [done|done|].
      intros r Er. eapply result_ok_view; [exact (Hr r Er)|done|].
      intros m set _ (pos' & Hm & Hset).
      assert (m <> n) by (intros ->; congruence). split_and!; [done..|]. by exists pos'. }
    con_step. apply wp_ask. intros o w' Hq.
    assert (machine_ok (mkMachine (con s) w' (log s))) as Hok'.
    { destruct Hok as (? & ? & ?). split_and!; try done. by eapply wi_acquire_tx_set. }
    destruct o as [set|]; [|con_steps; split; [split_and!; [done|done|apply quiet_log_refl]|done]].
    by eapply wp_mono; [by apply got_tx_set_ok|].
Qed.

Lemma keeps_ok_trans s s' s'' :
  statics (con s') = statics (con s) -> quiet_log (log s) (log s') ->
  keeps_ok s' s'' -> keeps_ok s s''.
Proof.
  intros Hs Hl (? & ? & ?). split_and!; [done | congruence | by eapply quiet_log_trans].
Qed.

(** A proposal worth relaying: for our ledger, from a peer that has not left, and
    newer than the one we have. *)
Definition relayed c (pos : PeerPos) : bool :=
  let p := proposal pos in let n := Proposal.node_id p in
  bool_decide (phase c <> Accepted) && bool_decide (Proposal.previous_ledger p = prev_ledger_id c)
  && bool_decide (n ∉ dead_nodes c)
  && match (curr_peer_positions c !! n : option PeerPos) with
     | Some existing => propose_seq (proposal existing) <? propose_seq p
     | None => true
     end.

(** What a proposal does to the tracked peers. *)
Definition tracked c (pos : PeerPos) : gmap NodeId PeerPos * gset NodeId :=
  let p := proposal pos in let n := Proposal.node_id p in
  if relayed c pos then
    if is_bow_out p then (delete n (curr_peer_positions c), dead_nodes c ∪ {[n]})
    else (<[n := pos]> (curr_peer_positions c), dead_nodes c)
  else (curr_peer_positions c, dead_nodes c).

Definition proposal_post s pos (b : bool) s' : Prop :=
  keeps_ok s s' /\ b = relayed (con s) pos
  /\ (curr_peer_positions (con s'), dead_nodes (con s')) = tracked (con s) pos.

Lemma take_position_ok n pos s s3 :
  inv (fun m => m <> n) (fun m => m <> n) s3 ->
  curr_peer_positions (con s3) !! n = Some pos -> Proposal.node_id (proposal pos) = n ->
  statics (con s3) = statics (con s) -> log s3 = log s ->
  wp F (use_position (proposal pos)) (fun _ s' => keeps_ok s s' /\ same_peers s3 s') s3.
Proof.
  intros Hi3 Hn Hid Hst3 Hl3. eapply wp_mono; [by eapply use_position_ok|].
  intros ? s' [Hk Hp]. split; [|done]. eapply keeps_ok_trans; [done| |done].
  rewrite Hl3. apply quiet_log_refl.
Qed.

Lemma peer_proposal_internal_ok t pos s :
  machine_ok s -> Proposal.node_id (proposal pos) ∈ U ->
  wp F (peer_proposal_internal t pos) (proposal_post s pos) s.
Proof.
  intros Hok HU. unfold peer_proposal_internal, proposal_post, tracked, relayed. con_steps.
  set (n := Proposal.node_id (proposal pos)) in *.
  case_bool_decide as Hph; con_steps.
  { rewrite bool_decide_eq_false_2 by auto. split_and!; [by apply keeps_ok_refl|done|done]. }
  rewrite (bool_decide_eq_true_2 (phase (con s) <> Accepted)) by done. simpl.
  pose proof (inv_set_now _ _ t s Hok) as Hok1.
  set (s1 := mkMachine (set_now t (con s)) (world s) (log s)) in *.
  assert (keeps_ok s s1) as Hk1 by (split_and!; [done | done | apply quiet_log_refl]).
  case_bool_decide as Hl; con_steps; [by rewrite bool_decide_eq_false_2|].
  rewrite (bool_decide_eq_true_2 _ Hl). simpl.
  case_bool_decide as Hd; con_steps; [by rewrite bool_decide_eq_false_2 by tauto|].
  rewrite (bool_decide_eq_true_2 (n ∉ dead_nodes (con s))) by done. simpl.
  assert ((match (curr_peer_positions (con s) !! n : option PeerPos) with
    | Some existing => propose_seq (proposal existing) <? propose_seq (proposal pos)
    | None => true end) = negb (match (curr_peer_positions (con s) !! n : option PeerPos) with
    | Some existing => propose_seq (proposal pos) <=? propose_seq (proposal existing)
    | None => false end)) as -> by (destruct (_ !! n); [by rewrite Z.ltb_antisym|done]).
  destruct (match (_ !! n : option PeerPos) with Some _ => _ | None => _ end); simpl; con_steps; [done|].
  destruct (is_bow_out (proposal pos)) eqn:Hb; con_steps.
  - split; [|done]. split_and!;
      [|apply (forget_statics n (dead_nodes (con s) ∪ {[n]}) (con s1))|apply quiet_log_refl].
    exact (inv_forget _ _ n _ s1 Hok1 (reflexivity _)).
  - assert (peer_ok U (con s1) n pos) as Hp by (by split_and!).
    pose proof (inv_track n pos s1 Hok1 Hd Hp) as Hi.
    set (s2 := mkMachine (set_curr_peer_positions _ _) _ _) in Hi |- *.
    apply wp_when; intros _; con_steps;
      (eapply wp_mono; [apply (take_position_ok n pos s); try done; try apply lookup_insert_eq|]).
    2,3: intros ? s' (? & Hc' & Hd'); apply wp_ret; split_and!; [done|done|by rewrite Hc', Hd'].
    eapply inv_core; [exact Hi | done | by destruct Hi as (_ & _ & ?) | apply quiet_log_refl].
Qed.

(** A new proposal joins the last ten of its sender. *)
Lemma push_recent_ok n pos l :
  recent_ok U n l -> Proposal.node_id (proposal pos) = n -> recent_ok U n (push_recent pos l).
Proof.
  intros (Hlen & Hn & Hf) Hp. unfold push_recent. split_and!; [|done|].
  - rewrite length_app. simpl. case_bool_decide; [|lia]. destruct l; simpl in *; lia.
  - apply Forall_app. split; [|by constructor]. case_bool_decide; [by destruct Hf | done].
Qed.

Lemma peer_proposal_ok t pos s :
  machine_ok s -> Proposal.node_id (proposal pos) ∈ U ->
  wp F (peer_proposal t pos) (fun b s' => machine_ok s' /\ b = relayed (con s) pos
    /\ (curr_peer_positions (con s'), dead_nodes (con s')) = tracked (con s) pos) s.
Proof.
  intros Hok HU. unfold peer_proposal. con_steps.
  eapply wp_mono; [apply peer_proposal_internal_ok; [|done]|by intros ? s' [[? _] ?]].
  destruct Hok as ([[] Hp Hr] & Hl & Hw). split_and!; [|done|done]. split; [|done|].
  - split; try done. simpl. apply map_Forall_insert_2; [|done].
    apply push_recent_ok; [|done].
    destruct (recent_peer_positions (con s) !! _) as [l|] eqn:E; [by eauto|].
    split_and!; [simpl; lia | done | constructor].
  - intros r Er. by destruct (Hr r Er) as [? ? ? ? ?].
Qed.

Lemma playback_ok s :
  machine_ok s -> wp F playback_proposals (fun _ => keeps_ok s) s.
Proof.
  intros Hok. unfold playback_proposals. con_steps. apply wp_for_each; [by apply keeps_ok_refl|].
  intros pos s' Hin (Hok' & Hst & Hl). con_steps. case_bool_decide; con_steps; [|done].
  eapply wp_mono; [apply peer_proposal_internal_ok; [done|]|].
  - apply list_elem_of_In, in_concat in Hin as (l & Hl'%list_elem_of_In & Hin%list_elem_of_In).
    apply list_elem_of_fmap in Hl' as ([n l'] & -> & Hn%elem_of_hash_iter).
    destruct Hok as ([Hb _ _] & _). destruct (co_recent U _ Hb n l' Hn) as (_ & Hu & Hf).
    rewrite Forall_forall in Hf. by rewrite (Hf pos Hin).
  - intros relay s'' [(Hok'' & Hst'' & Hl'') _].
    assert (quiet_log (log s) (log s'')) by by eapply quiet_log_trans.
    apply wp_when; intros _; con_steps; [|split_and!; [done|congruence|done]].
    split_and!; [|simpl; congruence|by apply quiet_log_cons]. eapply inv_core; [exact Hok'' | done | |].
    + apply wi_notify. by destruct Hok'' as (_ & _ & ?).
    + apply quiet_log_cons; [done|apply quiet_log_refl].
Qed.
End Peers.
