(* ===== verification/ConsensusEstablish.v ===== *)
(** * The consensus state machine: establishing a position

    Leaving consensus and closing the ledger keep the invariant. So does one tick of the
    establish phase: stale peers leave with
    their votes, our set follows our votes, a new position is taken up with a
    larger sequence number, and the round ends only in a final state. *)

From S2P Require Import Prelude Chrono Params Proposal DisputedTx Types Functions Stateful Consensus ConsensusInv.
From S2P Require Import ConsensusSafe.

(** ** The consensus state machine: the phases of a round

    Leaving consensus, closing the ledger and establishing a position keep the
    invariant and never panic. *)

Section Round.
Context `{!HashOrder} {W L LId NodeId TxSet TxSetId Tx TxId PeerPos : Type}.
Context `{EqDecision LId} `{Countable NodeId} `{Countable TxSetId} `{Countable TxId}.
Context `{!TotalOrd TxId} `{!ConsensusTx Tx TxId} `{!ConsensusTxSet TxSet TxSetId Tx TxId}.
Context `{!ConsensusLedger L LId} `{!PeerPosition PeerPos NodeId LId TxSetId}.
Context `{!ConsensusAdaptor W L LId NodeId TxSet TxSetId Tx TxId PeerPos}.
Context `{!TxSetLaws TxSet TxSetId Tx TxId}.
Context `{!AdaptorLaws W L LId NodeId TxSet TxSetId Tx TxId PeerPos}.
Abbreviation Mach := (machine W L LId NodeId TxSet TxSetId Tx TxId PeerPos).
Abbreviation Con := (Consensus L LId NodeId TxSet TxSetId Tx TxId PeerPos).
Abbreviation Result := (ConsensusResult TxSet NodeId LId TxSetId Tx TxId).
Abbreviation Event := (event L LId NodeId TxSet TxSetId Tx TxId PeerPos).
Context (F : Prop) (U : gset NodeId) (P : W -> Prop) `{!WorldInv P}.
Hypothesis few_validators : Z.of_nat (size U) < 20000000.
Implicit Types (s : Mach) (c : Con) (r : Result) (V K : NodeId -> Prop).

Abbreviation inv := (inv_upto U P).
Abbreviation machine_ok := (machine_ok U P).

(** ** Rules for the invariant *)

Lemma inv_world V K s w : inv V K s -> P w -> inv V K (mkMachine (con s) w (log s)).
Proof. intros Hi Hw. eapply inv_core; [exact Hi | done | done | apply quiet_log_refl]. Qed.

(** A query of the adaptor. *)
Lemma wp_query {A} V K (q : W -> A * W) (Q : A -> Mach -> Prop) s :
  inv V K s -> keeps P q ->
  (forall a w, q (world s) = (a, w) -> P w -> inv V K (mkMachine (con s) w (log s)) ->
     Q a (mkMachine (con s) w (log s))) ->
  wp F (ask q) Q s.
Proof.
  intros Hi Hq HQ. apply wp_ask. intros a w E.
  assert (P w) by (destruct Hi as (_ & _ & ?); by eapply Hq).
  apply HQ; [done | done | by apply inv_world].
Qed.

Lemma inv_tell V K e s :
  inv V K s -> quiet e -> inv V K (mkMachine (con s) (notify e (world s)) (e :: log s)).
Proof.
  intros Hi He. eapply inv_core; [exact Hi | done | | by apply quiet_log_cons, quiet_log_refl].
  apply wi_notify. by destruct Hi as (_ & _ & ?).
Qed.

(** Replacing our result by another one that is right. *)
Lemma inv_replace V K s r r' :
  inv V K s -> result (con s) = Some r -> result_ok V K (con s) r' ->
  propose_seq (res_position r) <= propose_seq (res_position r') ->
  inv V K (mkMachine (set_result (Some r') (con s)) (world s) (log s)).
Proof.
  intros ([[] Hp Hr] & (Hlog & Hm & Hq) & Hw) Er [] Hle. split_and!; [split| |done].
  - by split.
  - unfold phase_ok in *. simpl. destruct (phase (con s)); [congruence|done|done].
  - simpl. intros ? [= <-]. by split.
  - split_and!; [done|done|]. simpl. intros ? q [= <-] Hl. specialize (Hq r q Er Hl). lia.
Qed.

Lemma inv_mode V K m s :
  inv V K s ->
  inv V K (mkMachine (set_mode m (con s)) (notify (ModeChange (mode (con s)) m) (world s))
             (ModeChange (mode (con s)) m :: log s)).
Proof.
  intros ([[] Hp Hr] & (Hlog & Hm & Hq) & Hw). split_and!; [split|split_and!|]; simpl; try done.
  - intros r Er. by destruct (Hr r Er).
  - by apply wi_notify.
Qed.

Lemma inv_propose V K s r :
  inv V K s -> result (con s) = Some r -> mode (con s) = Proposing ->
  (forall q, last_seq (log s) = Some q -> q < propose_seq (res_position r)) ->
  inv V K (mkMachine (con s) (notify (Propose (res_position r)) (world s))
             (Propose (res_position r) :: log s)).
Proof.
  intros (Hc & (Hlog & Hm & Hq) & Hw) Er Hmode Hlt. split_and!; [done|split_and!|]; simpl.
  - split; [|done]. split; [congruence|done].
  - done.
  - intros r' q Er' [= <-]. rewrite Er in Er'. injection Er' as <-. lia.
  - by apply wi_notify.
Qed.

(** ** Leaving consensus *)

Lemma change_mode_ok V K m s :
  inv V K s -> wp F (change_mode m) (fun _ s' => inv V K s' /\ con s' = set_mode m (con s)) s.
Proof. intros Hi. unfold change_mode. con_steps. split; [|done]. by apply inv_mode. Qed.

(** Same state but for a bow-out and the mode. *)
Definition left_round s s' : Prop :=
  core (set_mode (mode (con s)) (set_result (result (con s)) (con s'))) = core (con s)
  /\ mode (con s') <> Proposing
  /\ (mode (con s) <> Proposing -> s' = s)
  /\ option_Forall2 (fun r r' => exists p, r' = set_position p r /\ position p = position (res_position r))
       (result (con s)) (result (con s'))
  /\ have_close_time_consensus (con s') = have_close_time_consensus (con s)
  /\ now (con s') = now (con s).

Lemma bow_out_ok V K c r t :
  result_ok V K c r -> result_ok V K c (set_position (bow_out t (res_position r)) r)
  /\ (is_bow_out (res_position r) = false ->
      propose_seq (res_position r) < propose_seq (bow_out t (res_position r))).
Proof.
  intros [[] ? ? Hseq ?]. split.
  - split; [by split|done|done| |done]. simpl. unfold SEQ_LEAVE. machine.
  - unfold is_bow_out, SEQ_LEAVE. simpl. unfold SEQ_LEAVE. rewrite Z.eqb_neq. machine.
Qed.

Lemma leave_consensus_ok V K s :
  inv V K s -> wp F leave_consensus (fun _ s' => inv V K s' /\ left_round s s') s.
Proof.
  intros Hi. unfold leave_consensus. con_steps. case_bool_decide as Hmode; con_steps.
  2:{ split; [done|]. split_and!; try done.
      destruct (result (con s)) as [r|]; constructor. exists (res_position r). by destruct r. }
  pose proof Hi as ([_ _ Hr] & (_ & _ & Hq) & _).
  destruct (result (con s)) as [r|] eqn:Er; con_steps;
    [destruct (is_bow_out (res_position r)) eqn:Hb; simpl; con_steps|].
  2:{ destruct (bow_out_ok V K (con s) r (now (con s)) (Hr r eq_refl)) as [Hr' Hlt].
      pose proof (inv_replace V K s r _ Hi Er Hr' ltac:(specialize (Hlt Hb); simpl in *; lia)) as Hi1.
      pose proof (inv_propose V K _ _ Hi1 eq_refl Hmode) as Hi2. simpl in Hi2.
      eapply wp_mono; [apply change_mode_ok, Hi2|].
      { intros q Hq'. specialize (Hq r q eq_refl Hq'). specialize (Hlt Hb). simpl in *. lia. }
      intros ? s' [Hi' Hc']. split; [done|]. unfold left_round. rewrite Hc'. simpl.
      split_and!; [done|done|congruence| |done|done]. rewrite Er. constructor. eexists. done. }
  all: eapply wp_mono; [by apply change_mode_ok|]; intros ? s' [Hi' Hc']; (split; [done|]);
    unfold left_round; rewrite Hc'; simpl; split_and!; try done; rewrite Er; constructor.
  exists (res_position r). by destruct r.
Qed.

(** ** Closing the ledger *)

(** Peers without a set at hand need no comparison. *)
Lemma inv_view V K K' s :
  inv V K s ->
  (forall n set, peer_set (curr_peer_positions (con s)) (acquired (con s)) n set -> K' n -> K n) ->
  inv V K' s.
Proof.
  intros ([Hb Hp Hr] & Hl & Hw) HK. split_and!; [|done|done]. split; [done|done|].
  intros r Er. destruct (Hr r Er). split; eauto.
Qed.

(** The peers whose position was visited. *)
Definition visited c (seen : list TxSetId) : NodeId -> Prop := fun n =>
  forall pos, curr_peer_positions c !! n = Some pos -> position (proposal pos) ∈ seen.

Lemma compare_positions_ok s peers :
  curr_peer_positions (con s) = peers ->
  inv all_nodes (fun _ => False) s -> result (con s) <> None ->
  wp F (for_each ((fun np => position (proposal np.2)) <$> hash_iter peers)
          (fun pos => c ← get;
             match (acquired c !! pos : option TxSet) with
             | Some set => create_disputes set
             | None => mret tt
             end))
    (fun _ => machine_ok) s.
Proof.
  intros <- Hi Hr. set (positions := _ <$> _).
  apply wp_mono with (Q := fun _ s' => inv all_nodes (visited (con s) positions) s'
                                       /\ same_view s s').
  - apply (wp_for_each_prefix F positions _
      (fun seen s' => inv all_nodes (visited (con s) seen) s' /\ same_view s s')).
    { split; [|apply same_view_refl]. eapply inv_view; [exact Hi|].
      intros n set (pos & Hn & _) Hv. by apply (not_elem_of_nil (position (proposal pos))), Hv. }
    intros seen i rest s' _ [Hi' Hv]. pose proof Hv as (Hc & Ha & _). con_steps.
    destruct (acquired (con s') !! i) as [set|] eqn:Hset; con_steps.
    + eapply wp_mono; [eapply create_disputes_inv; [done..|exact Hi'|by eapply same_view_result]|].
      intros ? s'' [Hi'' Hv'']. split; [|by eapply same_view_trans].
      eapply inv_view; [exact Hi''|]. destruct Hv'' as (Hc'' & Ha'' & _). rewrite Hc'', Ha'', Hc.
      intros n set' (pos & Hn & Hset') Hseen.
      destruct (decide (position (proposal pos) = i)) as [<-|Hne].
      * right. intros set'' (pos' & ? & ?). simplify_eq. congruence.
      * left. intros pos' ?. assert (pos' = pos) as -> by congruence.
        specialize (Hseen pos Hn). set_solver.
    + split; [|done]. eapply inv_view; [exact Hi'|]. rewrite Hc.
      intros n set' (pos & Hn & Hset') Hseen pos' ?. assert (pos' = pos) as -> by congruence.
      specialize (Hseen pos Hn). assert (position (proposal pos) <> i) by congruence. set_solver.
  - intros ? s' [Hi' (Hc & _)]. eapply inv_view; [exact Hi'|].
    intros n set _ _ pos Hn. apply list_elem_of_fmap. exists (n, pos).
    split; [done|]. by apply elem_of_hash_iter.
Qed.

(** The state right after [on_close]: nothing is disputed yet. *)
Lemma inv_established s c' w l r :
  machine_ok s ->
  core c' = core (set_phase Establish (set_result (Some r) (set_acquired (acquired c') (con s)))) ->
  map_Forall (fun i set => set_id set = i) (acquired c') ->
  disputes r = ∅ -> compares r = ∅ -> position (res_position r) = set_id (txns r) ->
  in_u32 (propose_seq (res_position r)) -> timer_ok (round_time r) ->
  log_ok l -> mode_of l = mode (con s) ->
  (forall q, last_seq l = Some q -> q <= propose_seq (res_position r)) -> P w ->
  inv all_nodes (fun _ => False) (mkMachine c' w l).
Proof.
  intros ([[] _ _] & _ & _) [= Eph Em Er Ec Ed Erc Et En El Ei] Hacq Hd Hcm Hpos Hseq Ht
    Hlog Hm Hq Hw.
  split_and!; [split|split_and!|done]; simpl.
  - split; rewrite ?Ed, ?Ec, ?Erc, ?Et, ?En, ?El; try done.
    eapply map_Forall_impl; [eassumption|]. intros n pos. unfold peer_ok. by rewrite Ei.
  - unfold phase_ok. by rewrite Eph, Er.
  - intros r'. rewrite Er. intros [= <-]. split; try done.
    split; [rewrite Hd; apply map_Forall_empty|]. intros set t. rewrite Hcm. set_solver.
  - done.
  - by rewrite Em.
  - intros r' q. rewrite Er. intros [= <-]. apply Hq.
Qed.

Lemma close_ledger_ok s :
  machine_ok s -> phase (con s) = Open -> wp F close_ledger (fun _ => machine_ok) s.
Proof.
  intros Hok Hph. pose proof Hok as ([Hb Hp _] & (Hlog & Hm & _) & Hw).
  unfold phase_ok in Hp. rewrite Hph in Hp. unfold close_ledger. con_steps.
  apply wp_debug_assert; [by apply bool_decide_eq_true|]. con_steps.
  apply wp_ask. intros r w1 Hr. con_steps. apply wp_ask. intros t w2 Ht. con_steps.
  apply on_close_fresh in Hr as Hr'. destruct Hr' as (set & pos & Hnew & Hseq).
  apply new_result_Ok in Hnew as [Hpos ->]. symmetry in Hpos. simpl in *.
  assert (P w2) as Hw2 by (eapply wi_clock; [eapply wi_on_close; [exact Hw|exact Hr]|exact Ht]).
  apply clock_range in Ht. set (r := set_round_time _ _).
  assert (forall c' w l, P w ->
    core c' = core (set_phase Establish (set_result (Some r) (set_acquired (acquired c') (con s)))) ->
    map_Forall (fun i set => set_id set = i) (acquired c') ->
    log_ok l -> mode_of l = mode (con s) ->
    (forall q, last_seq l = Some q -> q <= propose_seq pos) ->
    inv all_nodes (fun _ => False) (mkMachine c' w l)) as G.
  { intros. eapply inv_established with (r := r); try done; simpl.
    - rewrite Hseq. unfold SEQ_JOIN. machine.
    - split; [by split | eauto]. }
  pose proof (co_acquired U (con s) Hb) as Hacq. destruct Hok as (_ & _ & _).
  apply wp_when; intros Hnew; con_steps; (apply wp_when; intros Hmode; con_steps);
    (apply compare_positions_ok; [done|apply G|done]); simpl; repeat apply wi_notify; try done.
  all: try (by apply map_Forall_insert_2).
  all: try (split_and!; try done; by apply bool_decide_eq_true in Hmode; congruence).
  all: intros q [= <-]; lia.
Qed.

(** ** The open phase *)

Lemma last_close_time_ok c : ledger_ok (previous_ledger c) -> exists t, last_close_time c = Ok t.
Proof.
  intros [Hp _]. unfold last_close_time, net_clock_add.
  assert (checked_add (ledger_parent_close_time (previous_ledger c)) (seconds 1)
    = Some (ledger_parent_close_time (previous_ledger c) + 1)) as ->.
  { apply checked_add_Some. exists 1. split_and!; [done|done|]. machine. }
  simpl. eauto.
Qed.

Lemma phase_open_ok s :
  machine_ok s -> phase (con s) = Open -> wp F phase_open (fun _ => machine_ok) s.
Proof.
  intros Hok Hph. unfold phase_open. con_steps.
  eapply wp_query; [exact Hok | auto with consensus|]. intros any w1 _ _ Hok1. con_steps.
  eapply wp_query; [exact Hok1 | auto with consensus|]. intros n w2 _ _ Hok2. con_steps.
  eapply wp_query; [exact Hok2 | auto with consensus|]. intros t w3 _ Hw3 Hok3. con_steps.
  pose proof Hok as ([Hb _ _] & _). pose proof (co_ledger U (con s) Hb) as Hl.
  destruct (last_close_time_ok (set_open_time (timer_tick_to t (open_time (con s))) (con s)) Hl)
    as [last Hlast].
  eapply wp_lift; [exact Hlast|]. con_steps.
  eapply wp_lift.
  { unfold duration_mul. simpl. rewrite (proj2 (Z.leb_le _ _)); [reflexivity|].
    destruct Hl as [_ Hl]. unfold duration_max, NANOS_PER_SEC in *. machine. }
  apply wp_when; intros _; [apply close_ledger_ok; [|done]|];
    (eapply inv_core; [exact Hok3 | done | done | apply quiet_log_refl]).
Qed.
End Round.

Section Establish.
Context `{!HashOrder} {W L LId NodeId TxSet TxSetId Tx TxId PeerPos : Type}.
Context `{EqDecision LId} `{Countable NodeId} `{Countable TxSetId} `{Countable TxId}.
Context `{!TotalOrd TxId} `{!ConsensusTx Tx TxId} `{!ConsensusTxSet TxSet TxSetId Tx TxId}.
Context `{!ConsensusLedger L LId} `{!PeerPosition PeerPos NodeId LId TxSetId}.
Context `{!ConsensusAdaptor W L LId NodeId TxSet TxSetId Tx TxId PeerPos}.
Context `{!TxSetLaws TxSet TxSetId Tx TxId}.
Context `{!AdaptorLaws W L LId NodeId TxSet TxSetId Tx TxId PeerPos}.
Abbreviation Mach := (machine W L LId NodeId TxSet TxSetId Tx TxId PeerPos).
Abbreviation Con := (Consensus L LId NodeId TxSet TxSetId Tx TxId PeerPos).
Abbreviation Result := (ConsensusResult TxSet NodeId LId TxSetId Tx TxId).
Abbreviation Dispute := (DisputedTx Tx TxId NodeId).
Context (F : Prop) (U : gset NodeId) (P : W -> Prop) `{!WorldInv P}.
Hypothesis few_validators : Z.of_nat (size U) < 20000000.
Implicit Types (s : Mach) (c : Con) (r : Result) (V K : NodeId -> Prop).

Abbreviation inv := (inv_upto U P).
Abbreviation machine_ok := (machine_ok U P).
Abbreviation keeps_ok := (keeps_ok U P).

(** ** Stale peers *)

Lemma drop_stale_ok cutoff s : machine_ok s -> wp F (drop_stale cutoff) (fun _ => keeps_ok s) s.
Proof.
  intros Hok. unfold drop_stale. con_steps. apply wp_for_each; [by apply keeps_ok_refl|].
  intros n s' _ (Hok' & Hst & Hl). con_steps.
  assert (machine_ok (mkMachine (forget n (dead_nodes (con s')) (con s')) (world s') (log s')))
    as Hi by (by apply inv_forget; [..|set_solver]).
  split_and!; [|rewrite <- Hst; apply (forget_statics n (dead_nodes (con s')))|done].
  eapply inv_core; [exact Hi | done | by destruct Hi as (_ & _ & ?) | apply quiet_log_refl].
Qed.

(** ** Voting on the disputes *)

(** The disputes and our edited set once those in [seen] have been voted on. *)
Record voting peers acq (r : Result) (seen : list TxId)
    (acc : gmap TxId Dispute * option TxSet) : Prop := {
  vg_rest : forall t, t ∉ seen -> acc.1 !! t = disputes r !! t;
  vg_dom : dom acc.1 = dom (disputes r);
  vg_inv : map_Forall (dispute_inv all_nodes peers acq (default (txns r) acc.2)) acc.1;
  vg_edits : forall t, exists_tx (default (txns r) acc.2) t <> exists_tx (txns r) t ->
    is_Some (disputes r !! t)
}.

(** Our set after our vote on [t] changed to the vote of [d]. *)
Lemma edited_set set (t : TxId) (d : Dispute) :
  get_tx_id (tx d) = t ->
  let set' := if our_vote d then (insert_tx set (tx d)).2 else (erase_tx set t).2 in
  exists_tx set' t = our_vote d /\ forall t', t' <> t -> exists_tx set' t' = exists_tx set t'.
Proof.
  intros Ht. destruct (our_vote d); simpl; split; intros;
    rewrite ?insert_exists, ?erase_exists, ?Ht.
  - by rewrite bool_decide_eq_true_2.
  - by rewrite bool_decide_eq_false_2.
  - by rewrite bool_decide_eq_true_2.
  - by rewrite bool_decide_eq_false_2.
Qed.

(** A dispute whose own vote changed while our set changed on it alone. *)
Lemma voting_update peers acq r seen acc t (d d' : Dispute) o :
  voting peers acq r seen acc -> t ∉ seen -> disputes r !! t = Some d ->
  votes d' = votes d -> tx d' = tx d -> dispute_ok d' ->
  exists_tx (default (txns r) o) t = our_vote d' ->
  (forall t', t' <> t -> exists_tx (default (txns r) o) t'
                         = exists_tx (default (txns r) acc.2) t') ->
  voting peers acq r (seen ++ [t]) (<[t := d']> acc.1, o).
Proof.
  intros [Hrest Hdom Hinv Hed] Ht Hd Hv Htx Hok Hour Hother.
  assert (acc.1 !! t = Some d) as Hacc by (by rewrite Hrest).
  split; simpl.
  - intros t' Hn. rewrite lookup_insert_ne by set_solver. apply Hrest. set_solver.
  - rewrite dom_insert_L. apply elem_of_dom_2 in Hacc. set_solver.
  - intros t' e. destruct (decide (t' = t)) as [->|Hne].
    + rewrite lookup_insert_eq. intros [= <-]. destruct (Hinv t d Hacc).
      split; rewrite ?Htx, ?Hv; done.
    + rewrite lookup_insert_ne by done. intros He. destruct (Hinv t' e He).
      split; try done. by rewrite Hother.
  - intros t' Hdiff. destruct (decide (t' = t)) as [->|Hne]; [by eauto|].
    rewrite Hother in Hdiff by done. by apply Hed.
Qed.

Lemma vote_step_ok peers acq r seen acc t d proposing pct :
  voting peers acq r seen acc -> t ∉ seen -> disputes r !! t = Some d ->
  exists acc', vote_step proposing pct (txns r) acc (t, d) = Ok acc'
    /\ voting peers acq r (seen ++ [t]) acc'.
Proof.
  intros Hv Ht Hd. pose proof Hv as [Hrest _ Hinv _].
  destruct (Hinv t d) as [Hid Hours Hok _ _]; [by rewrite Hrest|].
  destruct (update_vote_ok pct proposing parms d Hok parms_cutoffs)
    as (d' & Hup & Hvs & Htx & Hok').
  unfold vote_step. simpl. rewrite Hup. simpl. case_bool_decide as Hch; simpl.
  - destruct (edited_set (default (txns r) acc.2) t d') as [He Hother]; [congruence|].
    eexists. split; [reflexivity|]. by eapply voting_update.
  - eexists. split; [reflexivity|]. eapply voting_update; try done.
    congruence.
Qed.

(** The state between the votes and the new position: right for [ours], which
    need not be our position's set yet. *)
Record pending ours s r : Prop := {
  pg_result : result (con s) = Some r;
  pg_base : base_ok U (con s);
  pg_phase : phase_ok (con s);
  pg_log : log_inv (con s) (log s);
  pg_world : P (world s);
  pg_rest : forall p, position p = set_id ours -> in_u32 (propose_seq p) ->
    result_ok all_nodes all_nodes (con s) (set_position p (set_txns ours r));
  pg_seq : in_u32 (propose_seq (res_position r));
  pg_same : ours = txns r -> result_ok all_nodes all_nodes (con s) r
}.

Lemma pending_core ours s r c' :
  pending ours s r -> core c' = core (con s) ->
  pending ours (mkMachine c' (world s) (log s)) r.
Proof.
  intros [Hr Hb Hp Hl Hw Hrest Hseq Hsame] Hc.
  destruct (inv_core U P (fun _ => False) (fun _ => False)
    (mkMachine (set_result None (set_phase Accepted (con s))) (world s) (log s))
    (set_result None (set_phase Accepted c')) (world s) (log s)) as ([Hb' _ _] & _ & _).
  - destruct Hl as (? & ? & _), Hb. split_and!; [split; [by split|done|done]|by split_and!|done].
  - injection Hc. unfold core. simpl. intros. congruence.
  - done.
  - apply quiet_log_refl.
  - injection Hc as Eph Em Er Ec Ea Ed Erc Et En El Ei.
    unfold log_inv, phase_ok in *.
    split; simpl; unfold log_inv, phase_ok; rewrite ?Er, ?Em, ?Eph; try done.
    + destruct Hb'. by split.
    + intros p Hpos Hs. destruct (Hrest p Hpos Hs). by split; rewrite ?Ec, ?Ea.
    + intros Ho. destruct (Hsame Ho). by split; rewrite ?Ec, ?Ea.
Qed.

Lemma vote_on_disputes_ok s r :
  machine_ok s -> result (con s) = Some r ->
  wp F vote_on_disputes (fun o s' => exists ds, let r' := set_disputes ds r in
     s' = mkMachine (set_result (Some r') (con s)) (world s) (log s)
     /\ pending (default (txns r) o) s' r') s.
Proof.
  intros ([Hb Hp Hr] & (Hlog & Hm & Hq) & Hw) Er. unfold vote_on_disputes. con_steps.
  destruct (Hr r Er) as [[Hds Hc] Hk Hpos Hseq Ht].
  destruct (foldM_prefix
    (fun seen => voting (curr_peer_positions (con s)) (acquired (con s)) r seen.*1)
    (vote_step (bool_decide (mode (con s) = Proposing)) (wrap_i32 (converge_percent (con s))) (txns r))
    (hash_iter (disputes r)) (disputes r, None)) as ([ds o] & -> & [_ Hdom Hinv Hed]).
  { intros seen [t d] rest acc Hl Hv. rewrite fmap_app. apply vote_step_ok; [done| |].
    - assert (NoDup (hash_iter (disputes r)).*1) as Hnd
        by (rewrite hash_iter_perm; apply NoDup_fst_map_to_list).
      rewrite Hl, fmap_app in Hnd. simpl in Hnd. apply NoDup_app in Hnd as (_ & Hnd & _).
      intros Hin. apply (Hnd t Hin). left.
    - apply elem_of_hash_iter. rewrite Hl. set_solver. }
  { split; simpl; try done. }
  eapply wp_lift; [reflexivity|]. con_steps. exists ds. split; [done|]. simpl in Hinv, Hed.
  assert (forall set t, set_id set ∈ compares r ->
    exists_tx set t <> exists_tx (default (txns r) o) t -> is_Some (ds !! t)) as Hcomplete.
  { intros set t Hset Hdiff. apply elem_of_dom. simpl in Hdom. rewrite Hdom. apply elem_of_dom.
    destruct (decide (exists_tx set t = exists_tx (txns r) t)) as [E|]; [|by eapply Hc].
    apply Hed. congruence. }
  split; simpl; try done.
  - by destruct Hb; split.
  - unfold phase_ok in *. simpl. destruct (phase (con s)); [congruence|done|done].
  - split_and!; try done. simpl. intros ? q [= <-]. simpl. by apply Hq.
  - intros Ho. rewrite Ho in Hinv, Hcomplete. by split.
Qed.

(** ** The close time *)

(** Only the close-time fields of the state change. *)
Definition close_time_step_of s s' : Prop :=
  world s' = world s /\ log s' = log s /\ exists h a,
  con s' = set_have_close_time_consensus h (set_close_time_avalanche_state a (con s)).

Lemma settle_close_time_ok votes s r :
  result (con s) = Some r ->
  wp F (settle_close_time votes) (fun _ => close_time_step_of s) s.
Proof.
  intros Er. unfold settle_close_time. con_steps. case_bool_decide; con_steps.
  { split_and!; [done|done|]. exists true, (close_time_avalanche_state (con s)).
    by destruct (con s). }
  destruct (get_needed_weight_total parms (close_time_avalanche_state (con s))
    (wrap_i32 (converge_percent (con s))) 0 0 parms_cutoffs) as (w & o & Hw & _).
  eapply wp_lift; [exact Hw|]. con_steps.
  destruct o as [a|]; con_steps; case_bool_decide; con_steps;
    destruct (choose_close_time _ _ _) as [t b]; con_steps; (split_and!; [done|done|]); exists b;
    [exists a|exists a|exists (close_time_avalanche_state (con s))..];
    by destruct b, (con s).
Qed.

(** ** Taking up a position *)

Lemma for_each_matching i (f : NodeId -> handler Mach unit) (l : list (NodeId * PeerPos)) s :
  for_each (filter (fun np => position (proposal np.2) = i) l).*1 f s
  = for_each ((fun np => (np.1, position (proposal np.2))) <$> l)
      (fun np => when (bool_decide (np.2 = i)) (f np.1)) s.
Proof.
  revert s. induction l as [|[n pos] l IH]; intros s; [done|].
  rewrite filter_cons, fmap_cons. simpl. case_decide as Hp.
  - rewrite (bool_decide_eq_true_2 _ Hp). simpl. unfold mbind, handler_bind.
    destruct (f n s) as [[u s']| |]; [apply IH|done|done].
  - rewrite (bool_decide_eq_false_2 _ Hp). simpl. rewrite IH. done.
Qed.

Lemma change_position_grows new_id ct t (p : ConsensusProposal NodeId LId TxSetId) :
  in_u32 (propose_seq p) ->
  let p' := change_position new_id ct t p in
  in_u32 (propose_seq p') /\ propose_seq p <= propose_seq p'
  /\ (is_bow_out p' = false -> propose_seq p < propose_seq p').
Proof.
  intros Hu p'. destruct (proposal_step_seq p p') as (Hu' & Hb & Hlt); [constructor|done|].
  split_and!; [done| |].
  - destruct (is_bow_out p) eqn:E; [|specialize (Hlt eq_refl); lia].
    unfold p', change_position. simpl. unfold is_bow_out in E. rewrite E. lia.
  - intros Hnb. apply Hlt. destruct (is_bow_out p); [|done]. rewrite Hb in Hnb; done.
Qed.

Lemma inv_adopt ours s r p :
  pending ours s r -> position p = set_id ours -> in_u32 (propose_seq p) ->
  propose_seq (res_position r) <= propose_seq p ->
  machine_ok (mkMachine (set_result (Some (set_position p (set_txns ours r))) (con s))
                (world s) (log s)).
Proof.
  intros [Er Hb Hp (Hlog & Hm & Hq) Hw Hrest _ _] Hpos Hu Hle. split_and!; [split| |done].
  - destruct Hb. by split.
  - unfold phase_ok in *. simpl. destruct (phase (con s)); [congruence|done|done].
  - simpl. intros ? [= <-]. destruct (Hrest p Hpos Hu). by split.
  - split_and!; [done|done|]. simpl. intros ? q [= <-] Hl. specialize (Hq r q Er Hl). simpl. lia.
Qed.

(** The new set joins the sets at hand, shared unless we bowed out; the peers
    that propose it vote with it. *)
Lemma share_new_set_ok s set (b : bool) :
  machine_ok s -> result (con s) <> None ->
  wp F (when (bool_decide (acquired (con s) !! set_id set = None))
        (_ ← upd (set_acquired (<[set_id set := set]> (acquired (con s))));
         _ ← when b (tell (ShareTxSet set));
         for_each (filter (fun np => position (proposal np.2) = set_id set)
           (hash_iter (curr_peer_positions (con s)))).*1 (fun n => update_disputes n set)))
    (fun _ => keeps_ok s) s.
Proof.
  intros Hok Hr. apply wp_when; intros Hnew; [|by apply keeps_ok_refl].
  apply bool_decide_eq_true in Hnew. con_steps.
  assert (inv (not_proposing (con s) (set_id set)) (not_proposing (con s) (set_id set))
    (mkMachine (set_acquired (<[set_id set := set]> (acquired (con s))) (con s))
       (world s) (log s))) as Hi by by apply inv_acquire.
  set (s1 := mkMachine (set_acquired _ _) _ _) in Hi |- *.
  assert (forall s2, inv (not_proposing (con s) (set_id set)) (not_proposing (con s) (set_id set)) s2 ->
    con s2 = con s1 -> quiet_log (log s) (log s2) ->
    wp F (for_each (filter (fun np => position (proposal np.2) = set_id set)
       (hash_iter (curr_peer_positions (con s)))).*1 (fun n => update_disputes n set))
      (fun _ => keeps_ok s) s2) as G.
  { intros s2 Hi2 Hc2 Hl2. unfold wp. rewrite for_each_matching.
    assert (curr_peer_positions (con s) = curr_peer_positions (con s2)) as Hc by by rewrite Hc2.
    rewrite Hc. eapply wp_mono;
      [eapply (vote_positions_ok F U P few_validators set s2); rewrite ?Hc2; try done|].
    - apply lookup_insert_eq.
    - intros ? s' (Hok' & _ & _ & _ & Hst & Hl'). rewrite Hc2 in Hst.
      split_and!; [done|done|by eapply quiet_log_trans]. }
  apply wp_when; intros _; con_steps; apply G; try done.
  - by apply (inv_tell U P _ _ (ShareTxSet set) s1).
  - by apply quiet_log_cons, quiet_log_refl.
  - apply quiet_log_refl.
Qed.

Lemma statics_result c c' r :
  statics c' = statics c -> result c = Some r ->
  phase c' = phase c /\ mode c' = mode c
  /\ exists r', result c' = Some r' /\ res_position r' = res_position r.
Proof.
  intros [= Hph Hm _ _ _ Hr _ _ _ _ _ _] Er. split_and!; [done|done|]. rewrite Er in Hr.
  destruct (result c') as [r'|]; [|done]. injection Hr as Hr. eauto.
Qed.

Lemma adopt_position_ok ours ct s r :
  pending ours s r ->
  wp F (adopt_position ours ct)
    (fun _ s' => machine_ok s' /\ phase (con s') = phase (con s)) s.
Proof.
  intros Hpg. pose proof Hpg as [Er _ _ (_ & _ & Hq) _ _ Hseq _].
  unfold adopt_position. con_steps. set (p := change_position _ _ _ _).
  destruct (change_position_grows (set_id ours) ct (now (con s)) (res_position r) Hseq)
    as (Hu & Hle & Hlt). fold p in Hu, Hle, Hlt.
  pose proof (inv_adopt ours s r p Hpg eq_refl Hu Hle) as Hok1.
  set (s1 := mkMachine (set_result _ _) _ _) in Hok1 |- *.
  eapply wp_mono; [by apply (share_new_set_ok s1 ours)|].
  intros ? s2 (Hok2 & Hst & Hl2). con_steps.
  destruct (statics_result _ _ _ Hst eq_refl) as (Hph & Hm & r2 & Er2 & Hp2). simpl in Hp2.
  con_steps. apply wp_when; intros Hb; con_steps; [|done].
  apply andb_true_iff in Hb as [Hnb%negb_true_iff Hmode%bool_decide_eq_true].
  split; [|done]. apply inv_propose; try done; [by rewrite Hm|].
  intros q Hq'. rewrite Hp2 in Hnb |- *. specialize (Hlt Hnb).
  destruct Hok1 as (_ & (Hlog1 & _ & _) & _).
  destruct (quiet_log_ok _ _ Hl2 Hlog1) as (_ & _ & Hls). rewrite Hls in Hq'.
  specialize (Hq r q Er Hq'). lia.
Qed.

Lemma update_our_positions_ok s :
  machine_ok s -> result (con s) <> None ->
  wp F update_our_positions
    (fun _ s' => machine_ok s' /\ phase (con s') = phase (con s)) s.
Proof.
  intros Hok Hne. destruct (result (con s)) as [r0|] eqn:Er0; [clear Hne|done].
  unfold update_our_positions. con_steps. eapply wp_mono; [by apply drop_stale_ok|].
  intros ? s1 (Hok1 & Hst & _).
  destruct (statics_result _ _ _ Hst Er0) as (Hph & Hm & r1 & Er1 & _). con_steps.
  eapply wp_mono; [by apply (vote_on_disputes_ok s1 r1)|].
  intros o s2 (ds & Hs2 & Hpg). con_steps.
  assert (phase (con s2) = phase (con s)) as Hph2 by by rewrite Hs2.
  eapply wp_mono; [eapply settle_close_time_ok, pg_result, Hpg|].
  intros t s3 (Hw3 & Hl3 & h & av & Hc3). con_steps.
  assert (pending (default (txns r1) o) s3 (set_disputes ds r1)) as Hpg3.
  { destruct s3 as [c3 w3 l3]. simpl in *. rewrite Hw3, Hl3, Hc3. by apply pending_core. }
  assert (phase (con s3) = phase (con s)) as Hph3 by by rewrite Hc3.
  pose proof (pg_result _ _ _ Hpg3) as Er3. con_steps.
  assert (forall set, set = default (txns r1) o -> wp F (adopt_position set t)
    (fun _ s' => machine_ok s' /\ phase (con s') = phase (con s)) s3) as G.
  { intros set ->. rewrite <- Hph3. by eapply adopt_position_ok. }
  destruct o as [new|]; [by apply G|].
  destruct (negb _ || _); [by apply G|]. con_steps. split; [|done].
  destruct Hpg3 as [_ Hb Hp Hl Hw _ _ Hsame]. split_and!; [split|done|done]; try done.
  intros r' Er'. rewrite Er3 in Er'. injection Er' as <-. by apply Hsame.
Qed.

(** ** Deciding *)

Lemma should_pause_ok s :
  machine_ok s -> result (con s) <> None ->
  wp F should_pause (fun _ s' => machine_ok s' /\ con s' = con s) s.
Proof.
  intros Hok Hne. destruct (result (con s)) as [r|] eqn:Er; [clear Hne|done].
  unfold should_pause. con_steps.
  eapply wp_query; [exact Hok | auto with consensus|]. intros valid w1 _ _ Hok1. con_steps.
  eapply wp_query; [exact Hok1 | auto with consensus|]. intros [quo keys] w2 _ _ Hok2. con_steps.
  eapply wp_query; [exact Hok2 | auto with consensus|]. intros [lag off] w3 _ _ Hok3. con_steps.
  destruct (_ || _); con_steps; [done|].
  eapply wp_query; [exact Hok3 | auto with consensus|]. intros [] w4 _ _ Hok4; simpl; con_steps; [|done].
  eapply wp_query; [exact Hok4 | auto with consensus|]. intros v w5 _ _ Hok5.
  destruct (negb v || _); by con_steps.
Qed.

Lemma length_hash_iter `{Countable A} {B} (m : gmap A B) : length (hash_iter m) = size m.
Proof. rewrite hash_iter_perm. apply length_map_to_list. Qed.

(** Agreeing and disagreeing peers are all the peers. *)
Lemma counts_sum c pos :
  agree_count c pos + disagree_count c pos = Z.of_nat (size (curr_peer_positions c))
  /\ 0 <= agree_count c pos /\ 0 <= disagree_count c pos.
Proof.
  split; [|unfold agree_count, disagree_count; lia]. unfold agree_count, disagree_count.
  rewrite <- length_hash_iter, <- Nat2Z.inj_add. f_equal.
  induction (hash_iter (curr_peer_positions c)) as [|x l IH]; [done|].
  rewrite !filter_cons. destruct (decide (position (proposal x.2) = pos)) as [Hx|Hx].
  - rewrite decide_False by tauto. simpl. lia.
  - rewrite decide_True by done. simpl. lia.
Qed.

Lemma stalled_all_ok c r proposing :
  result_ok all_nodes all_nodes c r ->
  exists b, foldM (fun (all : bool) kd =>
      if all then DisputedTx.stalled parms proposing (peer_unchanged_counter c) kd.2
      else mret false) true (hash_iter (disputes r)) = Ok b.
Proof.
  intros [[Hds _] _ _ _ _]. destruct (foldM_inv (fun _ : bool => True)
    (fun (all : bool) kd =>
      if all then DisputedTx.stalled parms proposing (peer_unchanged_counter c) kd.2
      else mret false) (hash_iter (disputes r)) true) as (b & Hb & _); [|done|by exists b].
  intros all [t d] Hin%elem_of_hash_iter _. destruct all; [|by exists false].
  destruct (stalled_total proposing (peer_unchanged_counter c) parms d) as (b & Hb & _);
    [by destruct (Hds t d Hin) | apply parms_cutoffs | apply parms_consensus_pct | by exists b].
Qed.

Lemma result_ok_state V K c r st : result_ok V K c r -> result_ok V K c (set_state st r).
Proof. intros [[] ? ? ? ?]. by split; [split|..]. Qed.

(** Consensus is only reported in a final state. *)
Definition decided s : Prop := exists r, result (con s) = Some r /\ res_state r <> No.

Lemma have_consensus_ok s :
  machine_ok s -> result (con s) <> None ->
  wp F have_consensus (fun b s' => machine_ok s' /\ phase (con s') = phase (con s)
    /\ (b = true -> decided s')) s.
Proof.
  intros Hok Hne. destruct (result (con s)) as [r|] eqn:Er; [clear Hne|done].
  pose proof Hok as ([Hb _ Hr] & _). pose proof (Hr r Er) as Hres.
  unfold have_consensus. con_steps.
  eapply wp_query; [exact Hok | auto with consensus|].
  intros finished w1 Hfin _ Hok1. apply finished_range in Hfin. con_steps.
  set (proposing := bool_decide (mode (con s) = Proposing)).
  set (s1 := mkMachine (con s) w1 (log s)) in *.
  apply wp_mono with (Q := fun (_ : bool) s' => s' = s1).
  { destruct (_ && _); [|by con_steps].
    destruct (stalled_all_ok (con s) r proposing Hres) as [b Hst]. by eapply wp_lift. }
  intros stalled ? ->. con_steps.
  destruct (counts_sum (con s) (position (res_position r))) as (Hsum & Hag & Hdis).
  pose proof (few_peers U few_validators (con s) Hb) as Hfew. unfold few in Hfew.
  destruct (check_consensus_total (prev_proposers (con s))
    (wrap_u64 (agree_count (con s) (position (res_position r))
       + disagree_count (con s) (position (res_position r))))
    (agree_count (con s) (position (res_position r))) finished (prev_round_time (con s))
    (timer_read (round_time r)) stalled parms proposing)
    as (st & Hst & _).
  { by destruct Hb. }
  { rewrite wrap_u64_id; unfold count_ok; machine. }
  { unfold count_ok. lia. }
  { done. }
  { destruct Hb as [_ _ _ _ [? ?] _ _]. done. }
  { destruct Hb as [_ _ _ _ [? ?] _ _]. pose proof parms_max.
    unfold duration_max, NANOS_PER_SEC. machine. }
  { apply parms_range. }
  eapply wp_lift; [exact Hst|]. con_steps.
  pose proof (inv_replace U P _ _ s1 r (set_state st r) Hok1 Er
    (result_ok_state _ _ _ _ st Hres) (Z.le_refl _)) as Hok2.
  case_bool_decide as Hno; con_steps; [done|].
  case_bool_decide as Hexp; con_steps.
  - destruct (_ <? _); con_steps; [done|].
    eapply wp_mono; [by apply leave_consensus_ok|].
    intros ? s3 [Hok3 (Hcore & _ & _ & Hf & _)]. con_steps. split_and!; [done| |].
    + injection Hcore as Hph _ _ _ _ _ _ _ _. done.
    + intros _. simpl in Hf. inversion Hf as [? r3 (p & -> & _) Heq1 Heq2|]; subst.
      unfold decided. rewrite <- Heq2. eexists. split; [done|]. done.
  - split_and!; [done|done|]. intros _. unfold decided. simpl. eauto.
Qed.

Lemma accept_ok s :
  machine_ok s -> decided s ->
  wp F accept (fun _ s' => machine_ok s' /\ phase (con s') = Accepted) s.
Proof.
  intros ([[] Hp Hr] & (Hlog & Hm & Hq) & Hw) (r & Er & Hst). unfold accept. con_steps.
  destruct (Hr r Er) as [[] ? Hpos ? [Ht ?]].
  split; [|done]. split_and!; [split|split_and!|]; simpl; try done.
  - split; try done. simpl. apply (few_count U); [done|by split].
  - intros ? [= <-]. by split.
  - intros ? q [= <-]. by apply Hq.
  - by do 2 apply wi_notify.
Qed.

(** The percentage of the last round's time never divides by zero. *)
Lemma converge_percentage_ok rt denom :
  time_ok rt -> time_ok denom -> exists pct, converge_percentage rt denom = Ok pct.
Proof.
  unfold time_ok, in_u64, u64_max, converge_percentage, as_millis_i64. intros Hr Hd.
  rewrite (wrap_i64_id (Z.max _ _)) by machine. unfold i64_div.
  rewrite (proj2 (Z.eqb_neq _ 0)) by lia.
  rewrite (proj2 (Z.eqb_neq (Z.max (denom / 1000000) 1) (-1))) by lia.
  rewrite andb_false_r. eauto.
Qed.

Lemma timer_tick_ok t tm : timer_ok tm -> time_ok t -> timer_ok (timer_tick_to t tm).
Proof.
  intros (Hd & st & Hst & Hs) Ht. unfold timer_tick_to. rewrite Hst.
  split; simpl; [|by eauto].
  unfold saturating_duration_since, time_ok in *. machine.
Qed.

Lemma phase_establish_ok s :
  machine_ok s -> phase (con s) = Establish -> wp F phase_establish (fun _ => machine_ok) s.
Proof.
  intros Hok Hph. pose proof Hok as ([Hb Hp Hr] & _ & Hw).
  assert (result (con s) <> None) as Hne by (unfold phase_ok in Hp; by rewrite Hph in Hp).
  destruct (result (con s)) as [r|] eqn:Er; [|done]. pose proof (Hr r eq_refl) as Hres.
  unfold phase_establish. con_steps.
  apply wp_debug_assert; [apply bool_decide_eq_true; by rewrite Er|]. con_steps.
  apply wp_ask. intros t w1 Ht. con_steps.
  assert (P w1) as Hw1 by (eapply wi_clock; [exact Hw|exact Ht]). apply clock_range in Ht.
  set (r1 := set_proposers _ _).
  assert (result_ok all_nodes all_nodes (con s) r1) as Hres1.
  { destruct Hres as [[] ? ? ? ?]. split; [by split|done..|]. by apply timer_tick_ok. }
  destruct (converge_percentage_ok (timer_read (round_time r1))
    (Z.max (prev_round_time (con s)) (av_min_consensus_time parms))) as [pct Hpct].
  { by destruct Hres1 as [_ _ _ _ [? _]]. }
  { pose proof parms_av. destruct Hb as [_ _ _ _ ? _ _]. unfold time_ok in *. machine. }
  eapply wp_lift; [exact Hpct|]. con_steps.
  set (s1 := mkMachine _ _ _).
  assert (machine_ok s1) as Hok1.
  { eapply inv_core; [eapply (inv_replace U P _ _ s r r1 Hok Er Hres1 (Z.le_refl _))
      | done | done | apply quiet_log_refl]. }
  destruct (_ <? _); con_steps; [done|].
  eapply wp_mono; [by apply (update_our_positions_ok s1)|]. intros ? s2 [Hok2 Hph2]. con_steps.
  assert (forall s', machine_ok s' -> phase (con s') = Establish -> result (con s') <> None) as Hsome.
  { intros s' ([_ Hp' _] & _) Hph'. unfold phase_ok in Hp'. by rewrite Hph' in Hp'. }
  assert (phase (con s2) = Establish) as Hph2' by (rewrite Hph2; exact Hph).
  eapply wp_mono; [apply should_pause_ok; auto|]. intros [] s3 [Hok3 Hc3]; con_steps; [done|].
  eapply wp_mono; [apply have_consensus_ok; [done|rewrite Hc3; auto]|].
  intros reached s4 (Hok4 & Hph4 & Hdec). destruct reached; simpl; con_steps; [|done].
  destruct (have_close_time_consensus (con s4)); simpl; con_steps; [|done].
  eapply wp_mono; [apply accept_ok; auto|]. by intros ? s5 [? _].
Qed.
End Establish.
