(* ===== verification/ConsensusTheorems.v ===== *)
(** * The consensus state machine: theorems

    Rounds and the timer keep the invariant; the public operations as a step
    relation; what holds in every reachable state; and a concrete application
    on which the theorems are tried. *)

From S2P Require Import Prelude Chrono Timing Params Proposal DisputedTx Types Functions Stateful.
From S2P Require Import Consensus ConsensusInv ConsensusSafe ConsensusEstablish.

Section Rounds.
Context `{!HashOrder} {W L LId NodeId TxSet TxSetId Tx TxId PeerPos : Type}.
Context `{EqDecision LId} `{Countable NodeId} `{Countable TxSetId} `{Countable TxId}.
Context `{!TotalOrd TxId} `{!ConsensusTx Tx TxId} `{!ConsensusTxSet TxSet TxSetId Tx TxId}.
Context `{!ConsensusLedger L LId} `{!PeerPosition PeerPos NodeId LId TxSetId}.
Context `{!ConsensusAdaptor W L LId NodeId TxSet TxSetId Tx TxId PeerPos}.
Context `{!TxSetLaws TxSet TxSetId Tx TxId}.
Context `{!AdaptorLaws W L LId NodeId TxSet TxSetId Tx TxId PeerPos}.
Abbreviation Mach := (machine W L LId NodeId TxSet TxSetId Tx TxId PeerPos).
Abbreviation Con := (Consensus L LId NodeId TxSet TxSetId Tx TxId PeerPos).
Context (F : Prop) (U : gset NodeId) (P : W -> Prop) `{!WorldInv P}.
Hypothesis few_validators : Z.of_nat (size U) < 20000000.
(** What the network's preferred ledgers have in common. *)
Context (Good : LId -> Prop).
Hypothesis good_prev : forall id l m w id' w',
  P w -> get_prev_ledger id l m w = (id', w') -> Good id'.
Implicit Types (s : Mach) (c : Con).

Abbreviation machine_ok := (machine_ok U P).

(** The previous ledger we hold is the one we mean to build on. *)
Definition on_ledger (id : LId) s : Prop :=
  prev_ledger_id (con s) = id /\ ledger_id (previous_ledger (con s)) = id.

(** What the recursion asks of the timer: it keeps the invariant from states on
    a preferred ledger. *)
Definition timer_spec (timer : NetClockTimePoint -> handler Mach unit) (id : LId) : Prop :=
  forall t s, machine_ok s -> on_ledger id s -> wp F (timer t) (fun _ => machine_ok) s.

(** The state with which a round starts, before proposals are played back. *)
Lemma inv_start s c' w l :
  machine_ok s ->
  phase c' = Open -> result c' = None -> curr_peer_positions c' = ∅ -> acquired c' = ∅ ->
  dead_nodes c' = ∅ -> recent_peer_positions c' = recent_peer_positions (con s) ->
  prev_round_time c' = prev_round_time (con s) -> prev_proposers c' = prev_proposers (con s) ->
  ledger_ok (previous_ledger c') -> log_ok l -> mode_of l = mode c' -> P w ->
  machine_ok (mkMachine c' w l).
Proof.
  intros ([[] _ _] & _ & _) Hph Hr Hc Ha Hd Hrc Ht Hn Hl Hlog Hm Hw.
  split_and!; [split|split_and!|]; simpl; try done.
  - split; rewrite ?Hc, ?Ha, ?Hd, ?Hrc, ?Ht, ?Hn; try done; set_solver.
  - unfold phase_ok. by rewrite Hph.
  - rewrite Hr. done.
  - rewrite Hr. done.
Qed.

Lemma start_round_internal_ok timer t id l m s :
  machine_ok s -> ledger_ok l -> (forall t s, machine_ok s -> prev_ledger_id (con s) = id ->
     previous_ledger (con s) = l -> wp F (timer t) (fun _ => machine_ok) s) ->
  wp F (start_round_internal timer t id l m) (fun _ => machine_ok) s.
Proof.
  intros Hok Hl Htimer. pose proof Hok as (_ & (Hlog & Hm & _) & Hw).
  unfold start_round_internal, change_mode. con_steps.
  apply wp_ask. intros tc w1 Ht. simpl in Ht. con_steps.
  eapply wp_mono; [apply playback_ok; try done|].
  - apply (inv_start s); simpl; try done.
    eapply wi_clock; [|exact Ht]. by apply wi_notify.
  - intros ? s2 (Hok2 & [= _ _ Hid Hpl _ _ _ _ _ _ _ _] & _). con_steps.
    apply wp_when; [intros _ | done]. by apply Htimer.
Qed.

Lemma handle_wrong_ledger_ok timer id s :
  machine_ok s -> timer_spec timer id ->
  wp F (handle_wrong_ledger timer id) (fun _ => machine_ok) s.
Proof.
  intros Hok Htimer. unfold handle_wrong_ledger. con_steps.
  eapply wp_mono; [by apply leave_consensus_ok|]. intros ? s1 [Hok1 _]. con_steps.
  apply wp_mono with (Q := fun _ s2 => machine_ok s2 /\ prev_ledger_id (con s2) = id).
  - apply wp_when; intros Hne; [|apply bool_decide_eq_false in Hne; split; [done|]; by apply dec_stable].
    con_steps. eapply wp_mono; [apply playback_ok; try done|].
    2:{ intros ? s2 (Hok2 & [= _ _ Hid _ _ _ _ _ _ _ _ _] & _). done. }
    destruct Hok1 as ([[] Hp Hr] & (Hlog & Hm & Hq) & Hw).
    split_and!; [split|split_and!|]; simpl; try done.
    + unfold phase_ok in *. simpl. by destruct (phase (con s1)), (result (con s1)).
    + destruct (result (con s1)) as [r|]; [|done]. simpl. intros ? [= <-].
      destruct (Hr r eq_refl) as [_ _ ? ? ?]. split; simpl; try done.
      by intros n set _ (? & ? & _).
    + destruct (result (con s1)) as [r|]; [|done]. intros ? q [= <-]. simpl. by apply Hq.
  - intros ? s2 [Hok2 Hid]. con_steps. case_bool_decide; con_steps; [done|].
    eapply wp_query; [exact Hok2 | auto with consensus|].
    intros [l|] w3 Hq _ Hok3; con_steps.
    + apply acquire_ledger_ok in Hq as [Hlid Hl].
      apply start_round_internal_ok; [done|done|].
      intros t' s' Hok' Hid' Hpl. apply Htimer; [done|]. split; [done|]. congruence.
    + eapply wp_mono; [by apply change_mode_ok|]. by intros ? s4 [? _].
Qed.

Lemma check_ledger_ok timer s :
  machine_ok s -> (forall id, Good id -> timer_spec timer id) ->
  wp F (check_ledger timer) (fun _ => machine_ok) s.
Proof.
  intros Hok Htimer. unfold check_ledger. con_steps.
  eapply wp_query; [exact Hok | auto with consensus|]. intros id w1 Hq _ Hok1. con_steps.
  apply wp_when; [intros _|done]. apply handle_wrong_ledger_ok; [done|].
  apply Htimer. eapply good_prev; [|exact Hq]. by destruct Hok as (_ & _ & ?).
Qed.

(** Once the ledger is checked, the phase does its work. *)
Lemma timer_entry_step fuel t s :
  machine_ok s ->
  (forall s1, machine_ok s1 -> con s1 = set_now t (con s) -> phase (con s) <> Accepted ->
     world s1 = world s ->
     wp F (check_ledger (timer_entry fuel)) (fun _ => machine_ok) s1) ->
  wp F (timer_entry (S fuel) t) (fun _ => machine_ok) s.
Proof.
  intros Hok Hcheck. simpl. con_steps. case_bool_decide; con_steps; [done|].
  eapply wp_mono; [apply Hcheck; [by apply inv_set_now|done|done|done]|].
  intros ? s1 Hok1. con_steps.
  destruct (phase (con s1)) eqn:Hph; [by apply phase_open_ok | by apply phase_establish_ok | done].
Qed.

(** With fuel granted, the timer keeps the invariant. *)
Lemma timer_entry_safe fuel t s :
  F -> machine_ok s -> wp F (timer_entry fuel t) (fun _ => machine_ok) s.
Proof.
  intros HF. revert t s. induction fuel as [|fuel IH]; intros t s Hok; [done|].
  apply timer_entry_step; [done|]. intros s1 Hok1 _ _ _. apply check_ledger_ok; [done|].
  intros id _ t' s' Hok' _. by apply IH.
Qed.

(** The machine with the bookkeeping of a new round. *)
Lemma inv_bookkeeping s c' :
  machine_ok s ->
  phase c' = phase (con s) -> mode c' = mode (con s) -> result c' = result (con s) ->
  curr_peer_positions c' = curr_peer_positions (con s) -> acquired c' = acquired (con s) ->
  dead_nodes c' = dead_nodes (con s) ->
  map_Forall (recent_ok U) (recent_peer_positions c') -> time_ok (prev_round_time c') ->
  prev_proposers c' = prev_proposers (con s) -> previous_ledger c' = previous_ledger (con s) ->
  prev_ledger_id c' = prev_ledger_id (con s) ->
  machine_ok (mkMachine c' (world s) (log s)).
Proof.
  intros ([[] Hp Hr] & Hl & Hw) Eph Em Er Ec Ea Ed Hrc Ht En El Ei.
  unfold phase_ok, log_inv in *. split_and!; [split|split_and!|done]; simpl; try done.
  - split; rewrite ?Ec, ?Ea, ?Ed, ?En, ?El; try done.
    eapply map_Forall_impl; [eassumption|]. intros n pos. unfold peer_ok. by rewrite Ei.
  - unfold phase_ok. by rewrite Eph, Er.
  - rewrite Er. intros r [Hv Hk ? ? ?]%Hr. split; rewrite ?Ec, ?Ea; done.
  - by destruct Hl.
  - rewrite Em. by destruct Hl as (_ & ? & _).
  - rewrite Er. by destruct Hl as (_ & _ & ?).
Qed.

Lemma forget_untrusted (l : list NodeId) (m : gmap NodeId (list PeerPos)) :
  map_Forall (recent_ok U) m ->
  map_Forall (recent_ok U) (foldl (fun m n => delete n m) m l).
Proof.
  revert m. induction l as [|n l IH]; intros m Hm; [done|]. simpl. apply IH.
  by apply map_Forall_delete.
Qed.

Lemma start_round_ok fuel t id l untrusted proposing s :
  machine_ok s -> ledger_ok l ->
  (forall t s, machine_ok s -> wp F (timer_entry fuel t) (fun _ => machine_ok) s) ->
  wp F (start_round fuel t id l untrusted proposing) (fun _ => machine_ok) s.
Proof.
  intros Hok Hl Htimer. pose proof Hok as ([Hb _ _] & _ & Hw). unfold start_round. con_steps.
  set (s1 := mkMachine _ _ _).
  assert (machine_ok s1) as Hok1.
  { pose proof (co_recent U _ Hb). pose proof (co_time U _ Hb). pose proof parms_idle.
    apply (inv_bookkeeping s); simpl; try done; destruct (first_round (con s)); simpl; try done;
      by apply forget_untrusted. }
  case_bool_decide; con_steps.
  - eapply wp_query; [exact Hok1 | auto with consensus|]. intros o w2 Hq _ Hok2. con_steps.
    destruct o as [l'|]; con_steps; (apply start_round_internal_ok; [done| |by auto]); [|done].
    by apply acquire_ledger_ok in Hq as [_ ?].
  - apply start_round_internal_ok; [done|done|by auto].
Qed.
End Rounds.

(** ** A preferred ledger that stays put: the recursion ends *)

Section Stable.
Context `{!HashOrder} {W L LId NodeId TxSet TxSetId Tx TxId PeerPos : Type}.
Context `{EqDecision LId} `{Countable NodeId} `{Countable TxSetId} `{Countable TxId}.
Context `{!TotalOrd TxId} `{!ConsensusTx Tx TxId} `{!ConsensusTxSet TxSet TxSetId Tx TxId}.
Context `{!ConsensusLedger L LId} `{!PeerPosition PeerPos NodeId LId TxSetId}.
Context `{!ConsensusAdaptor W L LId NodeId TxSet TxSetId Tx TxId PeerPos}.
Context `{!TxSetLaws TxSet TxSetId Tx TxId}.
Context `{!AdaptorLaws W L LId NodeId TxSet TxSetId Tx TxId PeerPos}.
Abbreviation Mach := (machine W L LId NodeId TxSet TxSetId Tx TxId PeerPos).
Context (U : gset NodeId).
Hypothesis few_validators : Z.of_nat (size U) < 20000000.

(** [g] is what the application answers, and no call changes that. *)
Definition prefers (g : LId) (w : W) : Prop :=
  forall id l m, (get_prev_ledger id l m w).1 = g.

Context (g : LId) `{!WorldInv (prefers g)}.
Abbreviation machine_ok := (machine_ok U (prefers g)).

Lemma timer_entry_on_ledger fuel t (s : Mach) :
  machine_ok s -> on_ledger g s -> wp False (timer_entry (S fuel) t) (fun _ => machine_ok) s.
Proof.
  intros Hok [Hid Hl]. apply (timer_entry_step False U (prefers g) few_validators); [done|]. intros s1 Hok1 Hc _ Hw.
  unfold check_ledger. con_steps.
  eapply wp_query; [exact Hok1 | auto with consensus|]. intros id w1 Hq _ Hok2. con_steps.
  rewrite Hc in Hq, Hok2 |- *. simpl in *. rewrite Hid, Hl in *.
  assert (id = g) as ->.
  { destruct Hok1 as (_ & _ & Hpref). symmetry. by rewrite <- (Hpref (prev_ledger_id (con s))
      (previous_ledger (con s)) (mode (con s))), Hid, Hq. }
  rewrite bool_decide_eq_false_2 by auto. by apply wp_ret.
Qed.

Lemma timer_entry_total fuel t (s : Mach) :
  machine_ok s -> wp False (timer_entry (S (S fuel)) t) (fun _ => machine_ok) s.
Proof.
  intros Hok. apply (timer_entry_step False U (prefers g) few_validators); [done|]. intros s1 Hok1 _ _ _.
  eapply (check_ledger_ok _ _ _ few_validators (fun id => id = g)); [|done|].
  - intros id l m w id' w' Hpref Hq. specialize (Hpref id l m). by rewrite Hq in Hpref.
  - intros id -> t' s' Hok' Hon. by apply timer_entry_on_ledger.
Qed.
End Stable.

(** ** Operations of the state machine and reachable states *)

Section Operations.
Context `{!HashOrder} {W L LId NodeId TxSet TxSetId Tx TxId PeerPos : Type}.
Context `{EqDecision LId} `{Countable NodeId} `{Countable TxSetId} `{Countable TxId}.
Context `{!TotalOrd TxId} `{!ConsensusTx Tx TxId} `{!ConsensusTxSet TxSet TxSetId Tx TxId}.
Context `{!ConsensusLedger L LId} `{!PeerPosition PeerPos NodeId LId TxSetId}.
Context `{!ConsensusAdaptor W L LId NodeId TxSet TxSetId Tx TxId PeerPos}.
Abbreviation Mach := (machine W L LId NodeId TxSet TxSetId Tx TxId PeerPos).

(** The public operations, and the application moving on by itself. *)
Inductive con_op :=
| StartRound (t : NetClockTimePoint) (id : LId) (prev : L) (untrusted : gset NodeId)
    (proposing : bool)
| PeerProposal (t : NetClockTimePoint) (pos : PeerPos)
| TimerEntry (t : NetClockTimePoint)
| GotTxSet (t : NetClockTimePoint) (set : TxSet)
| Elsewhere (w : W).

Definition run_con (fuel : nat) (op : con_op) : handler Mach unit :=
  match op with
  | StartRound t id prev untrusted proposing => start_round fuel t id prev untrusted proposing
  | PeerProposal t pos => _ ← peer_proposal t pos; mret tt
  | TimerEntry t => timer_entry fuel t
  | GotTxSet t set => got_tx_set t set
  | Elsewhere w => modify (fun s => mkMachine (con s) w (log s))
  end.

(** What the callers respect: ledgers with sane times, proposals of listed
    validators. *)
Definition op_ok (U : gset NodeId) (op : con_op) : Prop :=
  match op with
  | StartRound _ _ prev _ _ => ledger_ok prev
  | PeerProposal _ pos => Proposal.node_id (proposal pos) ∈ U
  | _ => True
  end.

Inductive con_reachable (U : gset NodeId) : Mach -> Prop :=
| reach_new w : con_reachable U (mkMachine with_clock w [])
| reach_op fuel op s s' : con_reachable U s -> op_ok U op ->
    run_con fuel op s = Ok (tt, s') -> con_reachable U s'.

(** A history of operations. *)
Definition run_ops (fuel : nat) (ops : list con_op) : handler Mach unit :=
  for_each ops (run_con fuel).

Lemma reach_ops U fuel ops s s' :
  con_reachable U s -> Forall (op_ok U) ops -> run_ops fuel ops s = Ok (tt, s') ->
  con_reachable U s'.
Proof.
  intros Hs Hops. unfold run_ops. revert s Hs. induction Hops as [|op ops Hop Hops IH]; intros s Hs; simpl.
  - by intros [= <-].
  - unfold mbind, handler_bind. destruct (run_con fuel op s) as [[[] s1]| |] eqn:E; [|done|done].
    apply IH. by eapply reach_op.
Qed.
End Operations.

Arguments con_op W L LId NodeId TxSet PeerPos {_ _}.

Section Theorems.
Context `{!HashOrder} {W L LId NodeId TxSet TxSetId Tx TxId PeerPos : Type}.
Context `{EqDecision LId} `{Countable NodeId} `{Countable TxSetId} `{Countable TxId}.
Context `{!TotalOrd TxId} `{!ConsensusTx Tx TxId} `{!ConsensusTxSet TxSet TxSetId Tx TxId}.
Context `{!ConsensusLedger L LId} `{!PeerPosition PeerPos NodeId LId TxSetId}.
Context `{!ConsensusAdaptor W L LId NodeId TxSet TxSetId Tx TxId PeerPos}.
Context `{!TxSetLaws TxSet TxSetId Tx TxId}.
Context `{!AdaptorLaws W L LId NodeId TxSet TxSetId Tx TxId PeerPos}.
Abbreviation Mach := (machine W L LId NodeId TxSet TxSetId Tx TxId PeerPos).
Abbreviation Event := (event L LId NodeId TxSet TxSetId Tx TxId PeerPos).
Context (U : gset NodeId).
Hypothesis few_validators : Z.of_nat (size U) < 20000000.

Definition any_world : W -> Prop := fun _ => True.

#[local] Instance any_world_inv : WorldInv any_world.
Proof. split; done. Qed.

Lemma run_con_safe fuel op s :
  machine_ok U any_world s -> op_ok U op ->
  wp True (run_con fuel op) (fun _ => machine_ok U any_world) s.
Proof.
  intros Hok Hop. destruct op as [t id prev untrusted proposing|t pos|t|t set|w]; simpl in *.
  - apply (start_round_ok True U any_world few_validators); [done|done|]. intros.
    by apply (timer_entry_safe True U any_world few_validators (fun _ => True)).
  - con_steps. eapply wp_mono; [by apply (peer_proposal_ok True U any_world few_validators)|].
    intros ? s' [? _]. by con_steps.
  - by apply (timer_entry_safe True U any_world few_validators (fun _ => True)).
  - eapply wp_mono; [by apply (got_tx_set_ok True U any_world few_validators)|].
    by intros ? s' [[? _] _].
  - apply wp_modify. by eapply inv_world.
Qed.

Lemma with_clock_ok w : machine_ok U any_world (mkMachine with_clock w []).
Proof.
  split_and!; [split|split_and!|]; simpl; try done. split; simpl; try done.
  apply default_ledger_ok.
Qed.

(** Every reachable state satisfies the invariant. *)
Lemma reachable_ok s : con_reachable U s -> machine_ok U any_world s.
Proof.
  induction 1 as [w|fuel op s s' _ IH Hop Hrun]; [apply with_clock_ok|].
  pose proof (run_con_safe fuel op s IH Hop) as Hs. unfold wp in Hs. by rewrite Hrun in Hs.
Qed.

(** C1: No panic: in every state the machine can reach from a fresh one, no public
    operation fails an [expect], a [debug_assert!], a division or a checked
    addition, whatever the application answers within its contract and however
    much of the recursion is allowed, with fewer than twenty million validators. *)
Theorem consensus_never_panics fuel op s :
  con_reachable U s -> op_ok U op -> run_con fuel op s <> Panic.
Proof.
  intros Hs%reachable_ok Hop E. pose proof (run_con_safe fuel op s Hs Hop) as Hw.
  unfold wp in Hw. by rewrite E in Hw.
Qed.

(** C15: Termination: while the application keeps preferring one ledger, every public
    operation returns: the recursion from the timer through a ledger switch back
    to the timer is entered at most twice. *)
Theorem consensus_terminates g fuel op s :
  WorldInv (prefers g) -> con_reachable U s -> prefers g (world s) -> op_ok U op ->
  match op with Elsewhere _ => False | _ => True end ->
  exists s', run_con (S (S fuel)) op s = Ok (tt, s') /\ prefers g (world s').
Proof.
  intros Hinv Hs%reachable_ok Hg Hop Hne.
  assert (machine_ok U (prefers g) s) as Hok by (destruct Hs as (? & ? & _); done).
  assert (wp False (run_con (S (S fuel)) op) (fun _ => machine_ok U (prefers g)) s) as Hw.
  { destruct op as [t id prev untrusted proposing|t pos|t|t set|w]; simpl in Hop |- *; [| | | |done].
    - apply (start_round_ok False U (prefers g) few_validators); [done|done|].
      intros. by apply timer_entry_total.
    - con_steps. eapply wp_mono; [by apply (peer_proposal_ok False U (prefers g) few_validators)|].
      intros ? s' [? _]. by con_steps.
    - by apply timer_entry_total.
    - eapply wp_mono; [by apply (got_tx_set_ok False U (prefers g) few_validators)|].
      by intros ? s' [[? _] _]. }
  apply wp_total in Hw as ([] & s' & Hrun & (_ & _ & ?)). eauto.
Qed.

(** C2: The disputes are exact: in every reachable state each dispute is about the
    transaction it is filed under, our vote on it says whether our set has the
    transaction, its counters are the numbers of yes and no votes, only tracked
    peers have a vote, and every tracked peer whose proposed set is at hand votes
    the way that set says. *)
Theorem disputes_exact s r t d :
  con_reachable U s -> result (con s) = Some r -> disputes r !! t = Some d ->
  get_tx_id (tx d) = t /\ our_vote d = exists_tx (txns r) t
  /\ yays d = tally true (votes d) /\ nays d = tally false (votes d)
  /\ dom (votes d) ⊆ dom (curr_peer_positions (con s))
  /\ (forall n pos set, curr_peer_positions (con s) !! n = Some pos ->
        acquired (con s) !! position (proposal pos) = Some set ->
        votes d !! n = Some (exists_tx set t)).
Proof.
  intros ([_ _ Hr] & _)%reachable_ok Er Hd. destruct (Hr r Er) as [[Hds _] _ _ _ _].
  destruct (Hds t d Hd) as [? ? [? ? _] ? Hv]. split_and!; try done.
  intros n pos set Hn Hset. apply Hv; [done|]. by exists pos.
Qed.

(** C14: The disputes are complete: in every reachable state in which we hold a
    position, every transaction on which a tracked peer's set, when at hand,
    differs from ours is under dispute. *)
Theorem disputes_complete s r n pos set t :
  con_reachable U s -> result (con s) = Some r ->
  curr_peer_positions (con s) !! n = Some pos ->
  acquired (con s) !! position (proposal pos) = Some set ->
  exists_tx set t <> exists_tx (txns r) t -> is_Some (disputes r !! t).
Proof.
  intros ([_ _ Hr] & _)%reachable_ok Er Hn Hset Hdiff.
  destruct (Hr r Er) as [[_ Hc] Hk _ _ _]. eapply Hc; [|exact Hdiff].
  apply (Hk n); [done|]. by exists pos.
Qed.

(** What is tracked: in every reachable state the position kept for a peer is
    its own, names the ledger we build on and is not a bow-out; no peer that
    bowed out is tracked; and at most ten proposals are remembered per peer. *)
Theorem tracked_positions s n :
  con_reachable U s ->
  (forall pos, curr_peer_positions (con s) !! n = Some pos ->
     Proposal.node_id (proposal pos) = n
     /\ Proposal.previous_ledger (proposal pos) = prev_ledger_id (con s)
     /\ is_bow_out (proposal pos) = false /\ n ∉ dead_nodes (con s))
  /\ (forall l, recent_peer_positions (con s) !! n = Some l -> (length l <= 10)%nat).
Proof.
  intros ([[Hd Hp Hrc _ _ _ _] _ _] & _)%reachable_ok. split.
  - intros pos Hn. destruct (Hp n pos Hn) as (? & ? & ? & _). split_and!; try done.
    intros Hin. apply elem_of_dom_2 in Hn. by apply (Hd n).
  - intros l Hl. by destruct (Hrc n l Hl) as (? & _).
Qed.

(** Our position: in every reachable state there is none while the ledger is
    open, there is one while it is being established, and its identifier is that
    of the set we hold. *)
Theorem position_matches_phase s :
  con_reachable U s ->
  match phase (con s) with
  | Open => result (con s) = None
  | Establish => exists r, result (con s) = Some r
      /\ position (res_position r) = set_id (txns r)
  | Accepted => forall r, result (con s) = Some r -> position (res_position r) = set_id (txns r)
  end.
Proof.
  intros ([_ Hp Hr] & _)%reachable_ok. unfold phase_ok in Hp. destruct (phase (con s)); [done| |].
  - destruct (result (con s)) as [r|]; [|done]. exists r. by destruct (Hr r eq_refl).
  - intros r Er. by destruct (Hr r Er).
Qed.

(** Our proposals: whenever a reachable machine has told its peers a position,
    the mode it last reported was proposing, and the sequence number is larger
    than those of all our proposals since the ledger last closed. *)
Theorem proposals_increase s (later earlier : list Event) p :
  con_reachable U s -> log s = later ++ Propose p :: earlier ->
  mode_of earlier = Proposing
  /\ forall q, last_seq earlier = Some q -> q < propose_seq p.
Proof.
  intros (_ & (Hlog & _) & _)%reachable_ok Hsplit. rewrite Hsplit in Hlog. clear Hsplit.
  induction later as [|e later IH]; simpl in Hlog; [tauto|]. apply IH. tauto.
Qed.

(** C22: Acceptance: whenever a reachable machine has handed a result to the
    application, consensus had ended (agreed, moved on or expired, never
    undecided), the accepted set is the one our position names, and the mode
    reported with it is the current one. *)
Theorem accepts_decided s (later earlier : list Event) r l res raw m :
  con_reachable U s -> log s = later ++ AcceptedLedger r l res raw m :: earlier ->
  res_state r <> No /\ position (res_position r) = set_id (txns r) /\ m = mode_of earlier.
Proof.
  intros (_ & (Hlog & _) & _)%reachable_ok Hsplit. rewrite Hsplit in Hlog. clear Hsplit.
  induction later as [|e later IH]; simpl in Hlog; [tauto|]. apply IH. tauto.
Qed.

(** A peer's proposal: in every reachable state handling it returns, it asks
    for a relay exactly when we are not between rounds, the proposal names the
    ledger we build on, the peer has not left, and its sequence number is larger
    than that of the position we have; then the position is replaced (or, on a
    bow-out, dropped and the peer remembered as gone), and otherwise the tracked
    peers are left as they are. *)
Theorem peer_proposal_spec t pos s :
  con_reachable U s -> Proposal.node_id (proposal pos) ∈ U ->
  exists s', peer_proposal t pos s = Ok (relayed (con s) pos, s')
  /\ (curr_peer_positions (con s'), dead_nodes (con s')) = tracked (con s) pos.
Proof.
  intros Hs%reachable_ok HU.
  pose proof (peer_proposal_ok False U any_world few_validators t pos s Hs HU) as Hw.
  apply wp_total in Hw as (b & s' & E & _ & -> & ?). eauto.
Qed.
End Theorems.

(** ** Close times *)

Section CloseTime.
Context `{!HashOrder} {W L LId NodeId TxSet TxSetId Tx TxId PeerPos : Type}.
Context `{EqDecision LId} `{Countable NodeId} `{Countable TxSetId} `{Countable TxId}.
Context `{!PeerPosition PeerPos NodeId LId TxSetId}.
Context `{!ConsensusAdaptor W L LId NodeId TxSet TxSetId Tx TxId PeerPos}.
Abbreviation Con := (Consensus L LId NodeId TxSet TxSetId Tx TxId PeerPos).

(** The running choice over the times seen so far. *)
Definition chosen_ok (thresh tc : Z) (l : list (NetClockTimePoint * Z))
    (acc : NetClockTimePoint * Z * bool) : Prop :=
  let '(t, v, have) := acc in
  (t = net_clock_default /\ v = thresh /\ have = false /\ Forall (fun tv => tv.2 < thresh) l)
  \/ ((t, v) ∈ l /\ thresh <= v /\ have = (tc <=? v)
      /\ Forall (fun tv => tv.2 <= v /\ (tv.2 = v -> t <= tv.1)) l).

Lemma close_time_step_ok thresh tc l acc x :
  chosen_ok thresh tc l acc -> Forall (fun tv => x.1 <= tv.1) l ->
  chosen_ok thresh tc (x :: l) (close_time_step tc acc x).
Proof.
  destruct acc as [[t v] have]. intros Hacc Hle. unfold close_time_step, chosen_ok.
  destruct x as [tx vx]. simpl in *. rewrite Forall_forall in Hle.
  destruct (Z.leb_spec v vx) as [Hv|Hv], Hacc as [(-> & -> & -> & Hall)|(Hin & Hth & -> & Hall)];
    rewrite Forall_forall in Hall.
  - right. split_and!; [left|done|done|]. constructor; simpl; [lia|].
    apply Forall_forall. intros y Hy. specialize (Hall y Hy). lia.
  - right. split_and!; [left|lia| |].
    + destruct (Z.leb_spec tc v), (Z.leb_spec tc vx); simpl; try done; lia.
    + constructor; simpl; [lia|]. apply Forall_forall. intros y Hy.
      destruct (Hall y Hy). specialize (Hle y Hy). lia.
  - left. split_and!; try done. constructor; simpl; [lia|]. by apply Forall_forall.
  - right. split_and!; [by right|done|done|]. constructor; simpl; [lia|]. by apply Forall_forall.
Qed.

Lemma choose_fold_ok thresh tc l :
  StronglySorted (fun a b : NetClockTimePoint * Z => ord_leb a.1 b.1 = true) l ->
  chosen_ok thresh tc l
    (foldr (fun x acc => close_time_step tc acc x) (net_clock_default, thresh, false) l).
Proof.
  induction 1 as [|x l Hl IH Hx]; simpl; [by left|].
  apply close_time_step_ok; [done|]. eapply Forall_impl; [exact Hx|].
  intros y. unfold ord_leb, ord_ltb, Z_ord. rewrite negb_true_iff, Z.ltb_ge. done.
Qed.

(** The close time: the choice is the zero time, without consensus, when no
    candidate has enough votes; otherwise it is the earliest of the times with
    the most votes, it has at least the votes required, and there is consensus
    on it exactly when it also has the votes of the consensus threshold. *)
Theorem choose_close_time_spec thresh tc votes :
  let '(t, have) := choose_close_time thresh tc votes in
  (t = net_clock_default /\ have = false /\ forall t' v, votes !! t' = Some v -> v < thresh)
  \/ exists v, votes !! t = Some v /\ thresh <= v /\ have = (tc <=? v)
      /\ forall t' v', votes !! t' = Some v' -> v' <= v /\ (v' = v -> t <= t').
Proof.
  unfold choose_close_time. rewrite foldl_rev.
  pose proof (choose_fold_ok thresh tc (btree_iter votes)) as Hok.
  destruct (foldr _ _ _) as [[t v] have]. simpl in Hok.
  destruct Hok as [(-> & -> & -> & Hall)|(Hin & Hth & -> & Hall)].
  - apply sort_by_sorted; intros; [apply ord_leb_total | by eapply ord_leb_trans].
  - left. split_and!; [done|done|]. intros t' v' Ht%elem_of_btree_iter.
    rewrite Forall_forall in Hall. apply (Hall _ Ht).
  - right. exists v. split_and!; [by apply elem_of_btree_iter|done|done|].
    intros t' v' Ht%elem_of_btree_iter. rewrite Forall_forall in Hall. apply (Hall _ Ht).
Qed.

(** The peers whose close time rounds to [t]. *)
Definition backers (c : Con) (t : NetClockTimePoint) : Z :=
  Z.of_nat (length (filter (fun np => round_close_time_for c (close_time (proposal np.2)) = t)
    (hash_iter (curr_peer_positions c)))).

Lemma tally_fold (f : NodeId * PeerPos -> NetClockTimePoint) l (m : gmap NetClockTimePoint Z) t :
  (forall t, 0 <= default 0 (m !! t) + Z.of_nat (length l) <= i32_max) ->
  (forall t, 0 <= default 0 (m !! t)) ->
  let m' := foldl (fun m np => entry_add wrap_i32 (f np) 1 m) m l in
  default 0 (m' !! t) = default 0 (m !! t) + Z.of_nat (length (filter (fun np => f np = t) l))
  /\ (is_Some (m' !! t) <-> is_Some (m !! t) \/ filter (fun np => f np = t) l <> []).
Proof.
  revert m. induction l as [|x l IH]; intros m Hb Hn; [split; [simpl; lia|]; set_solver|].
  cbv zeta in *. simpl foldl. specialize (Hb (f x)) as Hx. specialize (Hn (f x)) as Hx0. simpl in Hx.
  assert (entry_add wrap_i32 (f x) 1 m = <[f x := default 0 (m !! f x) + 1]> m) as ->
    by (unfold entry_add; rewrite wrap_i32_id by machine; done).
  destruct (IH (<[f x := default 0 (m !! f x) + 1]> m)) as [Hv Hs].
  { intros t'. specialize (Hb t'). specialize (Hn t'). simpl in Hb.
    destruct (decide (t' = f x)) as [->|];
      [rewrite lookup_insert_eq; simpl|rewrite lookup_insert_ne by done]; lia. }
  { intros t'. specialize (Hn t') as ?. destruct (decide (t' = f x)) as [->|];
      [rewrite lookup_insert_eq; simpl; lia|by rewrite lookup_insert_ne]. }
  rewrite Hv, Hs, filter_cons. destruct (decide (f x = t)) as [<-|Hne].
  - rewrite lookup_insert_eq. simpl. split; [lia|]. split; intros; [right; done|left; eauto].
  - rewrite lookup_insert_ne by done. done.
Qed.

(** The tally of close times: a time is in the tally exactly when some tracked
    peer's close time rounds to it, with the number of those peers. *)
Theorem close_time_votes_spec (c : Con) t :
  few (curr_peer_positions c) ->
  close_time_votes c !! t = if bool_decide (backers c t = 0) then None else Some (backers c t).
Proof.
  intros Hfew. unfold close_time_votes, backers. unfold few in Hfew.
  destruct (tally_fold (fun np => round_close_time_for c (close_time (proposal np.2)))
    (hash_iter (curr_peer_positions c)) ∅ t) as [Hv Hs].
  { intros t'. rewrite lookup_empty. simpl. rewrite length_hash_iter. machine. }
  { intros t'. by rewrite lookup_empty. }
  rewrite lookup_empty in Hv, Hs. simpl in Hv.
  set (l := filter _ _) in *. destruct (foldl _ _ _ !! t) as [v|]; simpl in Hv.
  - rewrite bool_decide_eq_false_2; [by rewrite Hv|]. destruct (proj1 Hs ltac:(eauto)) as [[? ?]|Hl];
      [done|]. destruct l; [done|simpl; lia].
  - rewrite bool_decide_eq_true_2; [done|]. lia.
Qed.
End CloseTime.

(** ** A concrete application

    Three validators, integer transactions, a set identified by its members,
    ledgers 1 and 2 known to the application, the default parameters. *)

Module Demo.

#[local] Existing Instance canonical_order.

Record ledger := mkLedger {
  d_id : Z; d_seq : Z; d_close_time : Z; d_parent_close_time : Z
}.

Record world := mkWorld { preferred : Z; clock : Z; open_txs : gset Z }.

#[local] Instance demo_tx : ConsensusTx Z Z := fun t => t.

#[local] Instance demo_set : ConsensusTxSet (gset Z) (gset Z) Z Z := {|
  exists_tx := fun s t => bool_decide (t ∈ s);
  find_tx := fun s t => if bool_decide (t ∈ s) then Some t else None;
  set_id := fun s => s;
  compare_sets := fun s o =>
    set_to_map (fun t => (t, true)) (s ∖ o) ∪ set_to_map (fun t => (t, false)) (o ∖ s);
  insert_tx := fun s t => (negb (bool_decide (t ∈ s)), s ∪ {[t]});
  erase_tx := fun s t => (bool_decide (t ∈ s), s ∖ {[t]})
|}.

#[local] Instance demo_ledger : ConsensusLedger ledger Z := {|
  ledger_id := d_id;
  ledger_seq := d_seq;
  ledger_close_time_resolution := fun _ => from_secs 10;
  ledger_close_agree := fun _ => true;
  ledger_close_time := d_close_time;
  ledger_parent_close_time := fun l => d_parent_close_time l mod u32_max;
  ledger_default := mkLedger 0 0 0 0;
  ledger_id_default := 0
|}.

Abbreviation pos := (ConsensusProposal Z Z (gset Z)).

#[local] Instance demo_pos : PeerPosition pos Z Z (gset Z) := fun p => p.

Definition known (id : Z) : option ledger :=
  if bool_decide (id ∈ [1; 2]) then Some (mkLedger id id 100 90) else None.

#[local] Instance demo_adaptor
    : ConsensusAdaptor world ledger Z Z (gset Z) (gset Z) Z Z pos := {|
  parms := default_parms;
  next_ledger_time_resolution := fun r _ _ => r;
  round_close_time := fun t _ => t / 10 * 10;
  acquire_ledger := fun id w => (known id, w);
  acquire_tx_set := fun id w => (Some id, w);
  has_open_transactions := fun w => (bool_decide (open_txs w ≠ ∅), w);
  proposers_validated := fun _ w => (0, w);
  proposers_finished := fun _ _ w => (0, w);
  get_prev_ledger := fun _ _ _ w => (preferred w, w);
  on_close := fun l t _ w =>
    (mkResult (open_txs w) (new_proposal (d_id l) SEQ_JOIN (open_txs w) t t 0) ∅ ∅
       timer_default No 0, w);
  valid_ledger_seq := fun w => (0, w);
  quorum_keys := fun w => ((0, ∅), w);
  laggards := fun _ k w => ((0, k), w);
  validator := fun w => (true, w);
  have_validated := fun w => (true, w);
  clock_now := fun w => (wrap_u64 (clock w), w);
  notify := fun _ w => w
|}.

#[local] Instance demo_set_laws : TxSetLaws (gset Z) (gset Z) Z Z.
Proof.
  split; simpl.
  - intros s t x. by case_bool_decide; intros [= <-].
  - intros s t Ht%bool_decide_eq_true. by rewrite bool_decide_eq_true_2.
  - intros s o t b. rewrite lookup_union_Some.
    + rewrite !lookup_set_to_map by done.
      destruct b; simpl; rewrite bool_decide_eq_true || rewrite bool_decide_eq_false;
        rewrite bool_decide_eq_true || rewrite bool_decide_eq_false; set_solver.
    + apply map_disjoint_spec. intros t' b1 b2.
      rewrite !lookup_set_to_map by done. set_solver.
  - intros s x t. rewrite <- bool_decide_or. apply bool_decide_ext. set_solver.
  - intros s t t'. rewrite <- bool_decide_not, <- bool_decide_and. apply bool_decide_ext. set_solver.
  - by intros s o ->.
Qed.

#[local] Instance demo_laws : AdaptorLaws world ledger Z Z (gset Z) (gset Z) Z Z pos.
Proof.
  split; simpl.
  - exact default_cutoffs_ok.
  - exact default_parms_ok.
  - done.
  - by vm_compute.
  - by vm_compute.
  - by vm_compute.
  - by vm_compute.
  - unfold known. intros id w l w' [= E <-]. case_bool_decide; simplify_eq. split; [done|].
    by vm_compute.
  - intros l t m w r w' [= <- <-]. eexists _, _. split; [apply new_result_Ok; (split; [|reflexivity]); reflexivity | done].
  - intros w t w' [= <- <-]. unfold time_ok. machine.
  - intros l id w n w' [= <- <-]. by vm_compute.
Qed.

#[local] Instance demo_prefers g : WorldInv (prefers g : world -> Prop).
Proof. split; unfold keeps, prefers; simpl; intros; simplify_eq; eauto. Qed.

Definition validators : gset Z := {[1; 2; 3]}.
Abbreviation mach := (machine world ledger Z Z (gset Z) (gset Z) Z Z pos).
Abbreviation op := (con_op world ledger Z Z (gset Z) pos).

Definition at_clock (seconds : Z) : world := mkWorld 1 (from_secs seconds) {[7; 8]}.
Definition from_peer (n : Z) : pos := new_proposal 1 SEQ_JOIN {[7]} 120 111 n.

Definition opening : list op :=
  [StartRound 110 1 (mkLedger 1 1 100 90) ∅ true;
   PeerProposal 111 (from_peer 1); PeerProposal 111 (from_peer 2); PeerProposal 112 (from_peer 3)].

Definition fresh : mach := mkMachine with_clock (at_clock 100) [].

(** The machine after [ops]. *)
Definition after (ops : list op) : mach :=
  match run_ops 5 ops fresh with Ok (_, s) => s | _ => fresh end.

(** The ledger just closed: our position holds 7 and 8, the peers propose 7. *)
Definition closed_ops : list op := opening ++ [Elsewhere (at_clock 103); TimerEntry 115].
Definition closed : mach := after closed_ops.
(** The next tick: we drop 8, agree with everybody and accept. *)
Definition accepted_ops : list op := closed_ops ++ [Elsewhere (at_clock 106); TimerEntry 118].
Definition accepted : mach := after accepted_ops.

Lemma few_demo : Z.of_nat (size validators) < 20000000.
Proof. by vm_compute. Qed.

Lemma reach_demo ops : Forall (op_ok validators) ops -> con_reachable validators (after ops).
Proof.
  intros Hops. unfold after. destruct (run_ops 5 ops fresh) as [[[] s]| |] eqn:E;
    [|apply reach_new|apply reach_new].
  eapply reach_ops; [apply reach_new|exact Hops|exact E].
Qed.

Lemma closed_reachable : con_reachable validators closed.
Proof. apply reach_demo. repeat constructor; vm_compute; done. Qed.
Lemma accepted_reachable : con_reachable validators accepted.
Proof. apply reach_demo. repeat constructor; vm_compute; done. Qed.

(** The sequence numbers of our proposals, newest first. *)
Definition proposed (s : mach) : list Z :=
  propose_seq <$> omap (fun e => match e with Propose p => Some p | _ => None end) (log s).

Example demo_round :
  phase (con closed) = Establish /\ txns <$> result (con closed) = Some {[7; 8]}
  /\ phase (con accepted) = Accepted /\ txns <$> result (con accepted) = Some {[7]}
  /\ res_state <$> result (con accepted) = Some Yes
  /\ proposed accepted = [1; 0].
Proof. split_and!; vm_compute; reflexivity. Qed.

#[local] Opaque closed accepted.

(** Our result and the dispute on 8 once the ledger is closed, with peer 1's view. *)
Lemma closed_result : exists r d p set,
  result (con closed) = Some r /\ disputes r !! 8 = Some d
  /\ curr_peer_positions (con closed) !! 1 = Some p
  /\ acquired (con closed) !! position (proposal p) = Some set
  /\ exists_tx set 8 <> exists_tx (txns r) 8.
Proof.
  assert (bool_decide (is_Some (result (con closed) ≫= fun r => disputes r !! 8)) = true) as Hd
    by by vm_compute.
  apply bool_decide_eq_true in Hd as [d Hd]. apply bind_Some in Hd as (r & Er & Hd).
  assert (curr_peer_positions (con closed) !! 1 = Some (from_peer 1)) as Hp by by vm_compute.
  assert (acquired (con closed) !! {[7]} = Some {[7]}) as Ha by by vm_compute.
  assert (txns <$> result (con closed) = Some {[7; 8]}) as Ht by by vm_compute.
  rewrite Er in Ht. injection Ht as Ht.
  exists r, d, (from_peer 1), {[7]}.
  split_and!; [exact Er|exact Hd|exact Hp|exact Ha|]. rewrite Ht. by vm_compute.
Qed.

Lemma consensus_never_panics_witness : run_con 5 (TimerEntry 118) closed <> Panic.
Proof. apply (consensus_never_panics validators few_demo); [apply closed_reachable|done]. Defined.

Lemma consensus_terminates_witness :
  exists s', run_con 2 (TimerEntry 118) closed = Ok (tt, s') /\ prefers 1 (Consensus.world s').
Proof.
  apply (consensus_terminates validators few_demo 1 0 (TimerEntry 118) closed);
    [apply demo_prefers|apply closed_reachable| |done|done].
  intros id l m. by vm_compute.
Defined.

Lemma disputes_exact_witness : exists r d, result (con closed) = Some r
  /\ disputes r !! 8 = Some d /\ our_vote d = exists_tx (txns r) 8
  /\ votes d !! 1 = Some false.
Proof.
  destruct closed_result as (r & d & p & set & Er & Hd & Hp & Ha & Hne). exists r, d.
  destruct (disputes_exact validators few_demo closed r 8 d closed_reachable Er Hd)
    as (_ & Ho & _ & _ & _ & Hv).
  split_and!; [exact Er|exact Hd|exact Ho|]. rewrite (Hv 1 p set Hp Ha). f_equal.
  assert (curr_peer_positions (con closed) !! 1 = Some (from_peer 1)) as Hp' by by vm_compute.
  assert (acquired (con closed) !! {[7]} = Some {[7]}) as Ha' by by vm_compute.
  rewrite Hp in Hp'. injection Hp' as ->. simpl in Ha. rewrite Ha in Ha'. injection Ha' as ->.
  by vm_compute.
Defined.

Lemma disputes_complete_witness : exists r, result (con closed) = Some r
  /\ is_Some (disputes r !! 8).
Proof.
  destruct closed_result as (r & d & p & set & Er & Hd & Hp & Ha & Hne). exists r. split; [exact Er|].
  exact (disputes_complete validators few_demo closed r 1 p set 8 closed_reachable Er Hp Ha Hne).
Defined.

Lemma tracked_positions_witness :
  Proposal.previous_ledger (from_peer 1) = prev_ledger_id (con closed) /\ 1 ∉ dead_nodes (con closed).
Proof.
  assert (curr_peer_positions (con closed) !! 1 = Some (from_peer 1)) as Hp
    by (vm_compute; reflexivity).
  destruct (proj1 (tracked_positions validators few_demo closed 1 closed_reachable)
    (from_peer 1) Hp) as (_ & Hprev & _ & Hdead).
  exact (conj Hprev Hdead).
Defined.

Lemma position_matches_phase_witness :
  exists r, result (con closed) = Some r /\ position (res_position r) = set_id (txns r).
Proof.
  pose proof (position_matches_phase validators few_demo closed closed_reachable) as Hp.
  assert (phase (con closed) = Establish) as Hph by by vm_compute. by rewrite Hph in Hp.
Defined.

(** The log of the accepting tick, newest call first. *)
Lemma accepted_log : exists r l res raw m n p earlier,
  log accepted = AcceptedLedger r l res raw m :: UpdateOperatingMode n :: Propose p :: earlier.
Proof.
  assert (match log accepted with
          | AcceptedLedger _ _ _ _ _ :: UpdateOperatingMode _ :: Propose _ :: _ => true
          | _ => false end = true) as Hb by (vm_compute; reflexivity).
  destruct (log accepted) as [|e1 [|e2 [|e3 rest]]]; [done|by destruct e1|..].
  - by destruct e1, e2.
  - destruct e1; try discriminate. destruct e2; try discriminate. destruct e3; try discriminate.
    do 8 eexists. reflexivity.
Qed.

Lemma proposals_increase_witness :
  exists (p : pos) (earlier : list (event ledger Z Z (gset Z) (gset Z) Z Z pos)),
  mode_of earlier = Proposing /\ forall q, last_seq earlier = Some q -> q < propose_seq p.
Proof.
  destruct accepted_log as (r & l & res & raw & m & n & p & earlier & Hl). exists p, earlier.
  apply (proposals_increase validators few_demo accepted
    [AcceptedLedger r l res raw m; UpdateOperatingMode n] earlier p accepted_reachable Hl).
Defined.

Lemma accepts_decided_witness : exists r : ConsensusResult (gset Z) Z Z (gset Z) Z Z, res_state r <> No
  /\ position (res_position r) = set_id (txns r).
Proof.
  destruct accepted_log as (r & l & res & raw & m & n & p & earlier & Hl). exists r.
  destruct (accepts_decided validators few_demo accepted []
    (UpdateOperatingMode n :: Propose p :: earlier) r l res raw m accepted_reachable Hl)
    as (Hs & Hp & _). exact (conj Hs Hp).
Defined.

Lemma peer_proposal_spec_witness : exists s',
  peer_proposal 116 (bow_out 116 (from_peer 2)) closed = Ok (true, s')
  /\ dead_nodes (con s') = {[2]}.
Proof.
  destruct (peer_proposal_spec validators few_demo 116 (bow_out 116 (from_peer 2)) closed)
    as (s' & Hrun & Ht); [apply closed_reachable|by vm_compute|].
  assert (relayed (con closed) (bow_out 116 (from_peer 2)) = true) as Hr by by vm_compute.
  rewrite Hr in Hrun. exists s'. split; [exact Hrun|].
  apply (f_equal snd) in Ht. simpl in Ht. rewrite Ht. by vm_compute.
Defined.

Lemma close_time_votes_spec_witness : close_time_votes (con closed) !! 120 = Some 3.
Proof.
  rewrite (close_time_votes_spec (con closed) 120); by vm_compute.
Defined.
End Demo.
