(* ===== verification/RangeSet.v ===== *)
(** * Sets of ledger sequences as closed intervals

    [xrpl/basics/src/collections/range_set.rs] at [u32], the instance the ledger
    code uses for the sequences it has: merged insertion, erasure, membership,
    [prev_missing], and the styled string form with its parser. *)

From Stdlib Require Import Ascii.
From S2P Require Import Prelude.

(** ** Data and operations *)

Record ClosedInterval := mkInterval { iv_first : Z; iv_last : Z }.

Definition range (low high : Z) : ClosedInterval := mkInterval low high.

(** [u32::checked_add(1)] and [u32::checked_sub(1)] *)
Definition checked_add_one (v : Z) : option Z := u32_try_from (v + 1).
Definition checked_sub_one (v : Z) : option Z := u32_try_from (v - 1).

Definition RangeSet : Type := list ClosedInterval.
Definition rs_empty (s : RangeSet) : bool := match s with [] => true | _ => false end.

Definition strictly_before (left right : ClosedInterval) : bool :=
  if iv_first right <=? iv_last left then false
  else match checked_add_one (iv_last left) with
       | Some next => next <? iv_first right
       | None => false
       end.

(** The loop over the intervals, with the intervals it pushes as the result. *)
Fixpoint insert_loop (pending : ClosedInterval) (inserted : bool) (s : RangeSet) : RangeSet :=
  match s with
  | [] => if inserted then [] else [pending]
  | current :: s =>
      if strictly_before current pending then current :: insert_loop pending inserted s
      else if strictly_before pending current then
        if inserted then current :: insert_loop pending inserted s
        else pending :: current :: insert_loop pending true s
      else
        insert_loop (range (Z.min (iv_first pending) (iv_first current))
                           (Z.max (iv_last pending) (iv_last current))) inserted s
  end.

Definition insert_interval (i : ClosedInterval) (s : RangeSet) : RangeSet :=
  if iv_last i <? iv_first i then s else insert_loop i false s.

Definition rs_insert (v : Z) (s : RangeSet) : RangeSet := insert_interval (range v v) s.

(** What is left of one interval. *)
Definition erase_from (removed current : ClosedInterval) : RangeSet :=
  if (iv_last current <? iv_first removed) || (iv_last removed <? iv_first current) then [current]
  else
    (if iv_first current <? iv_first removed then
       match checked_sub_one (iv_first removed) with
       | Some left_last => [range (iv_first current) left_last]
       | None => []
       end
     else [])
    ++
    (if iv_last removed <? iv_last current then
       match checked_add_one (iv_last removed) with
       | Some right_first => [range right_first (iv_last current)]
       | None => []
       end
     else []).

Definition erase_interval (removed : ClosedInterval) (s : RangeSet) : RangeSet :=
  if iv_last removed <? iv_first removed then s
  else concat (erase_from removed <$> s).

Definition in_interval (v : Z) (i : ClosedInterval) : bool :=
  (iv_first i <=? v) && (v <=? iv_last i).
Definition contains (v : Z) (s : RangeSet) : bool := existsb (in_interval v) s.

Definition rs_first (s : RangeSet) : option Z := iv_first <$> head s.
Definition rs_last (s : RangeSet) : option Z := iv_last <$> last s.

(** [(last - first + 1) as usize], summed. *)
Definition rs_length (s : RangeSet) : Z :=
  foldl (fun n i => wrap_u64 (n + wrap_u64 (iv_last i - iv_first i + 1))) 0 s.

Definition prev_missing (s : RangeSet) (target min_value : Z) : option Z :=
  if rs_empty s || (target =? min_value) then None
  else
    upper ← checked_sub_one target;
    let candidate := insert_interval (range min_value upper) [] in
    rs_last (foldl (fun c i => erase_interval i c) candidate s).

(** ** The styled string form

    Strings are their bytes. [u32]'s [Display] writes at most ten decimal
    digits; its [FromStr] takes an optional plus sign and at least one digit, and
    rejects what does not fit the width. *)

Definition digit_char (d : Z) : ascii := ascii_of_N (Z.to_N (48 + d)).

Fixpoint dec_digits (fuel : nat) (v : Z) : list ascii :=
  match fuel with
  | O => []
  | S fuel =>
      if v <? 10 then [digit_char v]
      else dec_digits fuel (v / 10) ++ [digit_char (v mod 10)]
  end.

Definition u32_to_string (v : Z) : list ascii := dec_digits 10 v.

Definition digit_value (c : ascii) : option Z :=
  let n := Z.of_N (N_of_ascii c) in
  if (48 <=? n) && (n <=? 57) then Some (n - 48) else None.

Definition parse_step (acc : Z) (c : ascii) : option Z :=
  d ← digit_value c;
  acc ← u32_try_from (acc * 10);
  u32_try_from (acc + d).

Definition parse_digits (l : list ascii) : option Z :=
  foldl (fun o c => acc ← o; parse_step acc c) (Some 0) l.

Definition u32_from_str (l : list ascii) : option Z :=
  match l with
  | [] => None
  | c :: rest =>
      if Ascii.eqb c "+"
      then match rest with [] => None | _ => parse_digits rest end
      else parse_digits l
  end.

Definition to_string_interval (i : ClosedInterval) : list ascii :=
  if iv_first i =? iv_last i then u32_to_string (iv_first i)
  else u32_to_string (iv_first i) ++ "-"%char :: u32_to_string (iv_last i).

Definition to_string_range_set (s : RangeSet) : list ascii :=
  match s with
  | [] => ["e"; "m"; "p"; "t"; "y"]%char
  | i :: s =>
      to_string_interval i ++ concat ((fun i => ","%char :: to_string_interval i) <$> s)
  end.

(** [str::split] at a one-byte separator. *)
Fixpoint split_on (sep : ascii) (l : list ascii) : list (list ascii) :=
  match l with
  | [] => [[]]
  | c :: l =>
      if Ascii.eqb c sep then [] :: split_on sep l
      else match split_on sep l with
           | [] => [[c]]
           | token :: tokens => (c :: token) :: tokens
           end
  end.

(** One token's insertion; [None] where the source calls [fail_parse]. *)
Definition parse_token (parsed : RangeSet) (token : list ascii) : option RangeSet :=
  match split_on "-" token with
  | [single] => v ← u32_from_str single; Some (rs_insert v parsed)
  | [front; back] =>
      front ← u32_from_str front;
      back ← u32_from_str back;
      Some (insert_interval (range front back) parsed)
  | _ => None
  end.

Fixpoint parse_tokens (parsed : RangeSet) (tokens : list (list ascii)) : option RangeSet :=
  match tokens with
  | [] => Some parsed
  | token :: tokens => parsed ← parse_token parsed token; parse_tokens parsed tokens
  end.

(** The new contents of the set argument and the returned flag. *)
Definition from_string (range_set : RangeSet) (input : list ascii) : RangeSet * bool :=
  match parse_tokens [] (split_on "," input) with
  | Some parsed => (parsed, true)
  | None => ([], false)
  end.

(** ** Invariant: sorted, disjoint, not adjacent *)

(** The intervals from [lo] on, each at least two beyond the one before. *)
Fixpoint ok_from (lo : Z) (s : RangeSet) : Prop :=
  match s with
  | [] => True
  | i :: s => lo <= iv_first i <= iv_last i /\ iv_last i <= u32_max /\ ok_from (iv_last i + 2) s
  end.

Definition rs_ok (s : RangeSet) : Prop := ok_from 0 s.
Definition iv_ok (i : ClosedInterval) : Prop := 0 <= iv_first i <= iv_last i /\ iv_last i <= u32_max.

Lemma ok_from_weaken lo lo' s : ok_from lo s -> lo' <= lo -> ok_from lo' s.
Proof. destruct s; simpl; intuition lia. Qed.

Lemma strictly_before_iff a b :
  iv_ok b -> strictly_before a b = true <-> iv_last a + 1 < iv_first b /\ -1 <= iv_last a.
Proof.
  intros Hb. unfold strictly_before, checked_add_one, u32_try_from, iv_ok in *.
  destruct (Z.leb_spec (iv_first b) (iv_last a)); [split; [done|lia]|].
  destruct (Z.leb_spec 0 (iv_last a + 1)), (Z.leb_spec (iv_last a + 1) u32_max); simpl;
    rewrite ?Z.ltb_lt; split; intros; try done; lia.
Qed.

Lemma contains_below lo v s : ok_from lo s -> v < lo -> contains v s = false.
Proof.
  revert lo. induction s as [|i s IH]; intros lo Hs Hv; [done|]. simpl in *.
  destruct Hs as (Hi & Hm & Hs). unfold in_interval.
  rewrite (proj2 (Z.leb_gt _ _)) by lia. simpl. apply (IH _ Hs). lia.
Qed.

(** Once pushed, the pending interval is before everything that follows. *)
Lemma insert_loop_done p s :
  iv_ok p -> ok_from (iv_last p + 2) s -> insert_loop p true s = s.
Proof.
  revert p. induction s as [|c s IH]; intros p Hp Hs; [done|]. simpl.
  destruct Hs as (Hc & Hm & Hs). unfold iv_ok in Hp.
  destruct (strictly_before c p) eqn:E1.
  - apply strictly_before_iff in E1; [lia|done].
  - assert (strictly_before p c = true) as -> by (apply strictly_before_iff; unfold iv_ok; lia).
    f_equal. apply IH; [done|]. eapply ok_from_weaken; [exact Hs|lia].
Qed.

(** Pushing past intervals that start after the pending one does. *)
Lemma insert_loop_merge lo m p s :
  iv_ok p -> lo <= iv_first p -> iv_first p < m -> ok_from m s ->
  ok_from lo (insert_loop p false s)
  /\ forall v, contains v (insert_loop p false s) = in_interval v p || contains v s.
Proof.
  revert p m. induction s as [|c s IH]; intros p m Hp Hlo Hm Hs.
  - simpl. unfold iv_ok in Hp. split; [lia|]. done.
  - destruct Hs as (Hc & Hmax & Hs). unfold iv_ok in Hp. simpl.
    destruct (strictly_before c p) eqn:E1; [apply strictly_before_iff in E1; [lia|done]|].
    destruct (strictly_before p c) eqn:E2.
    + apply strictly_before_iff in E2; [|unfold iv_ok; lia].
      rewrite insert_loop_done; [|done|eapply ok_from_weaken; [exact Hs|lia]].
      split; [|done]. simpl. split_and!; try lia. done.
    + assert (~ (iv_last p + 1 < iv_first c)) as Hover.
      { intros ?. assert (strictly_before p c = true); [|congruence].
        apply strictly_before_iff; unfold iv_ok; lia. }
      destruct (IH (range (Z.min (iv_first p) (iv_first c)) (Z.max (iv_last p) (iv_last c)))
        (iv_last c + 2)) as [Hok Hv]; [unfold iv_ok; simpl; lia|simpl; lia|simpl; lia|done|].
      split; [done|]. intros v. rewrite Hv, orb_assoc. f_equal. unfold in_interval. simpl.
      lia.
Qed.

Lemma insert_loop_ok lo p s :
  0 <= lo -> iv_ok p -> lo <= iv_first p -> ok_from lo s ->
  ok_from lo (insert_loop p false s)
  /\ forall v, contains v (insert_loop p false s) = in_interval v p || contains v s.
Proof.
  revert lo p. induction s as [|c s IH]; intros lo p H0 Hp Hlo Hs.
  - apply (insert_loop_merge lo (iv_first p + 1)); try done. lia.
  - destruct (strictly_before c p) eqn:E1.
    + simpl. rewrite E1. apply strictly_before_iff in E1; [|done]. destruct Hs as (Hc & Hm & Hs).
      destruct (IH (iv_last c + 2) p) as [Hok Hv]; [lia|done|lia|done|].
      split; [simpl; split_and!; try lia; done|]. intros v. simpl. rewrite Hv.
      by rewrite orb_assoc, (orb_comm (in_interval v c)), <- orb_assoc.
    + destruct (decide (iv_first p < iv_first c)) as [Hlt|Hge].
      { apply (insert_loop_merge lo (iv_first c)); try done.
        destruct Hs as (Hc & Hm & Hs). split_and!; [lia|lia|done|done]. }
      simpl. rewrite E1. destruct Hs as (Hc & Hm & Hs).
      destruct (strictly_before p c) eqn:E2.
      { apply strictly_before_iff in E2; unfold iv_ok in *; lia. }
      assert (~ (iv_last c + 1 < iv_first p)) as Hover.
      { intros ?. assert (strictly_before c p = true); [|congruence].
        apply strictly_before_iff; [done|]. lia. }
      unfold iv_ok in Hp.
      destruct (insert_loop_merge lo (iv_last c + 2)
        (range (Z.min (iv_first p) (iv_first c)) (Z.max (iv_last p) (iv_last c))) s)
        as [Hok Hv]; [unfold iv_ok; simpl; lia|simpl; lia|simpl; lia|done|].
      split; [done|]. intros v. rewrite Hv, orb_assoc. f_equal. unfold in_interval. simpl. lia.
Qed.

Lemma insert_interval_ok i s :
  rs_ok s -> 0 <= iv_first i -> iv_last i <= u32_max ->
  rs_ok (insert_interval i s)
  /\ forall v, contains v (insert_interval i s) = in_interval v i || contains v s.
Proof.
  intros Hs Hlo Hhi. unfold insert_interval. destruct (Z.ltb_spec (iv_last i) (iv_first i)).
  - split; [done|]. intros v. assert (in_interval v i = false) as -> by (unfold in_interval; lia).
    done.
  - apply insert_loop_ok; [done|unfold iv_ok; lia|done|done].
Qed.

(** Inserting an interval keeps the set in its canonical form (sorted, disjoint
    intervals that do not touch) and adds exactly the values of the interval. *)
Theorem insert_interval_spec i s :
  rs_ok s -> 0 <= iv_first i -> iv_last i <= u32_max ->
  rs_ok (insert_interval i s)
  /\ forall v, contains v (insert_interval i s) = in_interval v i || contains v s.
Proof. apply insert_interval_ok. Qed.

Lemma insert_interval_spec_witness :
  contains 6 (insert_interval (range 4 6) [range 1 2; range 7 9]) = true
  /\ rs_ok (insert_interval (range 4 6) [range 1 2; range 7 9]).
Proof.
  destruct (insert_interval_spec (range 4 6) [range 1 2; range 7 9]) as [Hok Hv];
    [unfold rs_ok; simpl; machine | simpl; lia | simpl; machine |].
  split; [by rewrite Hv | exact Hok].
Defined.

(** ** Erasure *)

Lemma contains_app v s s' : contains v (s ++ s') = contains v s || contains v s'.
Proof. apply existsb_app. Qed.

Lemma erase_from_ok lo r c rest :
  iv_ok r -> 0 <= lo -> lo <= iv_first c <= iv_last c -> iv_last c <= u32_max ->
  ok_from (iv_last c + 2) rest ->
  ok_from lo (erase_from r c ++ rest)
  /\ forall v, contains v (erase_from r c) = in_interval v c && negb (in_interval v r).
Proof.
  unfold iv_ok. intros Hr H0 Hc Hm Hrest.
  unfold erase_from, checked_sub_one, checked_add_one.
  destruct (Z.ltb_spec (iv_last c) (iv_first r)), (Z.ltb_spec (iv_last r) (iv_first c)); simpl;
    try (split; [done|]; intros v; rewrite orb_false_r; unfold in_interval; lia).
  destruct (Z.ltb_spec (iv_first c) (iv_first r)), (Z.ltb_spec (iv_last r) (iv_last c));
    rewrite ?(proj2 (u32_try_from_Some (iv_first r - 1) _) ltac:(split; [reflexivity|machine])),
      ?(proj2 (u32_try_from_Some (iv_last r + 1) _) ltac:(split; [reflexivity|machine]));
    simpl; (split; [repeat match goal with |- _ /\ _ => split end; try lia;
                    (eapply ok_from_weaken; [exact Hrest|lia])|]);
    intros v; rewrite ?orb_false_r; unfold in_interval; simpl; lia.
Qed.

Lemma erase_ok lo r s :
  iv_ok r -> 0 <= lo -> ok_from lo s ->
  ok_from lo (concat (erase_from r <$> s))
  /\ forall v, contains v (concat (erase_from r <$> s)) = contains v s && negb (in_interval v r).
Proof.
  intros Hr. revert lo. induction s as [|c s IH]; intros lo H0 Hs; [done|].
  rewrite fmap_cons. simpl. destruct Hs as (Hc & Hm & Hs).
  destruct (IH (iv_last c + 2)) as [Hok Hv]; [lia|done|].
  destruct (erase_from_ok lo r c (concat (erase_from r <$> s)) Hr H0 Hc Hm Hok) as [Hok' Hv'].
  split; [done|]. intros v. rewrite contains_app, Hv', Hv.
  by rewrite andb_orb_distrib_l.
Qed.

(** Erasing an interval keeps the canonical form and removes exactly the values of
    the interval. *)
Theorem erase_interval_spec r s :
  rs_ok s -> 0 <= iv_first r -> iv_last r <= u32_max ->
  rs_ok (erase_interval r s)
  /\ forall v, contains v (erase_interval r s) = contains v s && negb (in_interval v r).
Proof.
  intros Hs Hlo Hhi. unfold erase_interval. destruct (Z.ltb_spec (iv_last r) (iv_first r)).
  - split; [done|]. intros v. assert (in_interval v r = false) as -> by (unfold in_interval; lia).
    by rewrite andb_true_r.
  - apply erase_ok; [unfold iv_ok; lia|done|done].
Qed.

Lemma erase_interval_spec_witness :
  contains 5 (erase_interval (range 4 6) [range 1 9]) = false
  /\ rs_ok (erase_interval (range 4 6) [range 1 9]).
Proof.
  destruct (erase_interval_spec (range 4 6) [range 1 9]) as [Hok Hv];
    [unfold rs_ok; simpl; machine | simpl; lia | simpl; machine |].
  split; [by rewrite Hv | exact Hok].
Defined.

(** ** Canonical forms *)

Lemma ok_from_head lo c s v :
  ok_from lo (c :: s) -> contains v (c :: s) = true -> iv_first c <= v.
Proof.
  intros (Hc & _ & Hs) Hv. destruct (Z.ltb_spec v (iv_first c)); [|lia].
  simpl in Hv. rewrite (contains_below (iv_last c + 2)) in Hv by (done || lia).
  unfold in_interval in Hv. lia.
Qed.

Lemma ok_from_tail lo c s v :
  ok_from lo (c :: s) -> contains v s = contains v (c :: s) && (iv_last c <? v).
Proof.
  intros (Hc & _ & Hs). simpl. unfold in_interval. destruct (Z.ltb_spec (iv_last c) v).
  - rewrite (proj2 (Z.leb_gt v _)) by lia. by rewrite andb_false_r, andb_true_r.
  - rewrite (contains_below (iv_last c + 2)) by (done || lia). by rewrite andb_false_r.
Qed.

(** The value after the first interval is missing. *)
Lemma ok_from_gap lo c s : ok_from lo (c :: s) -> contains (iv_last c + 1) (c :: s) = false.
Proof.
  intros (Hc & _ & Hs). simpl. rewrite (contains_below (iv_last c + 2)) by (done || lia).
  unfold in_interval. lia.
Qed.

Lemma contains_first lo c s : ok_from lo (c :: s) ->
  contains (iv_first c) (c :: s) = true
  /\ forall v, iv_first c <= v <= iv_last c -> contains v (c :: s) = true.
Proof. intros (Hc & _ & _). simpl. unfold in_interval. split; intros; lia. Qed.

(** The canonical form is unique: two sets in canonical form with the same members
    are the same list of intervals, so comparing the lists compares the sets. *)
Theorem rs_canonical s s' :
  rs_ok s -> rs_ok s' -> (forall v, contains v s = contains v s') -> s = s'.
Proof.
  unfold rs_ok. generalize 0. revert s'.
  induction s as [|c s IH]; intros [|c' s'] lo Hs Hs' Heq; [done| | |].
  - destruct (contains_first lo c' s' Hs') as [E _]. rewrite <- Heq in E. done.
  - destruct (contains_first lo c s Hs) as [E _]. rewrite Heq in E. done.
  - pose proof (contains_first lo c s Hs) as [E H1]. pose proof (contains_first lo c' s' Hs') as [E' H1'].
    pose proof (ok_from_gap lo c s Hs) as G. pose proof (ok_from_gap lo c' s' Hs') as G'.
    pose proof (fun v => ok_from_tail lo c s v Hs) as T.
    pose proof (fun v => ok_from_tail lo c' s' v Hs') as T'.
    rewrite Heq in E, G. rewrite <- Heq in E', G'.
    apply (ok_from_head lo c' s' _ Hs') in E. apply (ok_from_head lo c s _ Hs) in E'.
    assert (iv_first c = iv_first c') as Hf by lia.
    destruct Hs as (Hc & _ & Hs), Hs' as (Hc' & _ & Hs').
    assert (iv_last c = iv_last c') as Hl.
    { destruct (Z.lt_total (iv_last c) (iv_last c')) as [Hlt|[?|Hlt]]; [|done|].
      - rewrite H1' in G by lia. done.
      - rewrite H1 in G' by lia. done. }
    assert (c = c') as <- by (destruct c, c'; simpl in *; congruence). f_equal.
    apply (IH s' (iv_last c + 2)); [done|done|]. intros v. by rewrite T, T', Heq.
Qed.

Lemma rs_canonical_witness :
  insert_interval (range 3 4) (insert_interval (range 1 2) []) = [range 1 4].
Proof.
  apply rs_canonical; [unfold rs_ok; simpl; machine..|].
  intros v. simpl. unfold in_interval. simpl. done.
Defined.

(** ** The greatest value, and the greatest missing one *)

Lemma rs_last_spec lo s :
  ok_from lo s ->
  match rs_last s with
  | Some v => contains v s = true /\ forall v', contains v' s = true -> v' <= v
  | None => forall v, contains v s = false
  end.
Proof.
  revert lo. induction s as [|c s IH]; intros lo Hs; [done|].
  pose proof (ok_from_tail lo c s) as T. destruct Hs as (Hc & Hm & Hs).
  specialize (IH _ Hs). destruct s as [|c' s].
  - simpl. unfold in_interval. simpl. split; [lia|]. intros v'. lia.
  - change (rs_last (c :: c' :: s)) with (rs_last (c' :: s)).
    destruct (rs_last (c' :: s)) as [v|] eqn:E.
    + destruct IH as [Hv Hmax]. split; [simpl in *; rewrite Hv; by rewrite orb_true_r|].
      intros v' Hv'. destruct (Z.ltb_spec (iv_last c) v') as [Hlt|Hle].
      * apply Hmax. rewrite T by done. rewrite Hv'. simpl. lia.
      * assert (iv_last c < v); [|lia].
        rewrite T in Hv by done. apply andb_true_iff in Hv as [_ Hv]. lia.
    + pose proof (contains_first (iv_last c + 2) c' s Hs) as [Hf _]. by rewrite IH in Hf.
Qed.

Lemma erase_all_ok s c :
  Forall iv_ok s -> rs_ok c ->
  let c' := foldl (fun c i => erase_interval i c) c s in
  rs_ok c' /\ forall v, contains v c' = contains v c && negb (contains v s).
Proof.
  intros Hs. revert c. induction Hs as [|i s Hi Hs IH]; intros c Hc; simpl.
  - split; [done|]. intros v. by rewrite andb_true_r.
  - assert (rs_ok (erase_interval i c) /\ forall v, contains v (erase_interval i c)
      = contains v c && negb (in_interval v i)) as [Hok Hv].
    { unfold iv_ok in Hi. unfold erase_interval.
      rewrite (proj2 (Z.ltb_ge _ _)) by lia. apply erase_ok; [unfold iv_ok; lia|done|done]. }
    destruct (IH _ Hok) as [Hok' Hv']. split; [done|]. intros v.
    by rewrite Hv', Hv, negb_orb, andb_assoc.
Qed.

Lemma ok_from_intervals lo s : 0 <= lo -> ok_from lo s -> Forall iv_ok s.
Proof.
  revert lo. induction s as [|c s IH]; intros lo H0 Hs; [done|]. destruct Hs as (Hc & Hm & Hs).
  constructor; [unfold iv_ok; lia|]. eapply IH; [|exact Hs]. lia.
Qed.

(** [prev_missing] of a non-empty set: it finds the greatest value from the minimum
    up to just below the target that the set lacks, and finds nothing exactly
    when the set has all of them. *)
Theorem prev_missing_spec s target min_value :
  rs_ok s -> s <> [] -> 0 <= min_value <= u32_max -> 0 <= target <= u32_max ->
  match prev_missing s target min_value with
  | Some v => min_value <= v < target /\ contains v s = false
      /\ forall v', v < v' < target -> contains v' s = true
  | None => forall v, min_value <= v < target -> contains v s = true
  end.
Proof.
  intros Hs Hne Hmin Ht. unfold prev_missing. replace (rs_empty s) with false by (by destruct s).
  rewrite orb_false_l. destruct (Z.eqb_spec target min_value); [intros; lia|].
  unfold checked_sub_one. destruct (u32_try_from (target - 1)) as [up|] eqn:E; simpl.
  2:{ intros v Hv. assert (u32_try_from (target - 1) = Some (target - 1)); [|congruence].
      apply u32_try_from_Some. split; [done|machine]. }
  apply u32_try_from_Some in E as [-> Hup].
  assert (rs_ok (insert_interval (range min_value (target - 1)) [])
    /\ forall v, contains v (insert_interval (range min_value (target - 1)) [])
         = in_interval v (range min_value (target - 1))) as [Hok Hv].
  { unfold insert_interval. simpl.
    destruct (Z.ltb_spec (target - 1) min_value); simpl; (split; [unfold rs_ok; simpl; machine|]);
      intros v; unfold in_interval; simpl; lia. }
  destruct (erase_all_ok s _ (ok_from_intervals 0 s ltac:(lia) Hs) Hok) as [Hok' Hv'].
  pose proof (rs_last_spec 0 _ Hok') as Hlast.
  destruct (rs_last _) as [v|]; setoid_rewrite Hv' in Hlast; setoid_rewrite Hv in Hlast;
    unfold in_interval in Hlast; cbn [iv_first iv_last range] in Hlast.
  - destruct Hlast as [Hin Hmax]. apply andb_true_iff in Hin as [Hr Hc].
    apply negb_true_iff in Hc. split_and!; [lia|lia|exact Hc|].
    intros v' Hv''. destruct (contains v' s) eqn:Hcv; [done|].
    specialize (Hmax v'). rewrite Hcv in Hmax. lia.
  - intros v Hr. specialize (Hlast v). destruct (contains v s); [done|]. lia.
Qed.

Lemma prev_missing_spec_witness :
  prev_missing [range 0 5; range 10 15] 12 0 = Some 9
  /\ contains 9 [range 0 5; range 10 15] = false.
Proof.
  split; [reflexivity|].
  pose proof (prev_missing_spec [range 0 5; range 10 15] 12 0) as H.
  destruct H as (_ & H & _); [unfold rs_ok; simpl; machine|done|machine|machine|]. exact H.
Defined.

(** ** Number of values *)

(** The values of a set, in order. *)
Definition rs_values (s : RangeSet) : list Z :=
  concat ((fun i => seqZ (iv_first i) (iv_last i - iv_first i + 1)) <$> s).

Lemma rs_values_cons c s :
  rs_values (c :: s) = seqZ (iv_first c) (iv_last c - iv_first c + 1) ++ rs_values s.
Proof. done. Qed.

Lemma rs_values_spec v s : v ∈ rs_values s <-> contains v s = true.
Proof.
  unfold rs_values, contains, in_interval. induction s as [|c s IH]; simpl; [set_solver|].
  rewrite elem_of_app, elem_of_seqZ, orb_true_iff, <- IH. split; intros [?|?]; auto; left; lia.
Qed.

Lemma rs_values_NoDup lo s : ok_from lo s -> NoDup (rs_values s).
Proof.
  revert lo. induction s as [|c s IH]; intros lo Hs; [constructor|].
  destruct Hs as (Hc & Hm & Hs). rewrite rs_values_cons.
  apply NoDup_app. split_and!; [apply NoDup_seqZ| |by eapply IH].
  intros v Hv%elem_of_seqZ Hin%rs_values_spec.
  rewrite (contains_below (iv_last c + 2)) in Hin by (done || lia). done.
Qed.

Lemma rs_values_bound lo s :
  0 <= lo <= u32_modulus + 1 -> ok_from lo s ->
  Z.of_nat (length (rs_values s)) <= u32_modulus + 1 - lo.
Proof.
  revert lo. induction s as [|c s IH]; intros lo Hlo Hs; [simpl; lia|].
  destruct Hs as (Hc & Hm & Hs). rewrite rs_values_cons.
  specialize (IH (iv_last c + 2) ltac:(machine) Hs). rewrite length_app, length_seqZ. lia.
Qed.

Lemma rs_length_from lo s n :
  0 <= lo -> ok_from lo s -> 0 <= n -> n + Z.of_nat (length (rs_values s)) <= u64_max ->
  foldl (fun n i => wrap_u64 (n + wrap_u64 (iv_last i - iv_first i + 1))) n s
    = n + Z.of_nat (length (rs_values s)).
Proof.
  revert lo n. induction s as [|c s IH]; intros lo n Hlo Hs Hn; [simpl; lia|]. simpl foldl.
  destruct Hs as (Hc & Hm & Hs). rewrite rs_values_cons.
  rewrite length_app, length_seqZ, Nat2Z.inj_add. intros Hb.
  rewrite (wrap_u64_id (iv_last c - _ + 1)) by machine.
  rewrite wrap_u64_id by machine. rewrite (IH (iv_last c + 2)); [lia|lia|done|lia|lia].
Qed.

(** the length of a well-formed set counts its members: the sum does not wrap. *)
Theorem rs_length_spec s :
  rs_ok s ->
  exists vs, NoDup vs /\ (forall v, v ∈ vs <-> contains v s = true)
    /\ rs_length s = Z.of_nat (length vs).
Proof.
  intros Hs. exists (rs_values s). split_and!.
  - by eapply rs_values_NoDup.
  - intros v. apply rs_values_spec.
  - pose proof (rs_values_bound 0 s ltac:(machine) Hs).
    unfold rs_length. rewrite (rs_length_from 0) by (done || machine). lia.
Qed.

Lemma rs_length_spec_witness :
  rs_length [range 1 3; range 7 7] = 4
  /\ exists vs, NoDup vs /\ (forall v, v ∈ vs <-> contains v [range 1 3; range 7 7] = true)
    /\ rs_length [range 1 3; range 7 7] = Z.of_nat (length vs).
Proof. split; [reflexivity|]. apply rs_length_spec. unfold rs_ok. simpl. machine. Defined.

(** ** Strings *)

Lemma digit_value_char d : 0 <= d < 10 -> digit_value (digit_char d) = Some d.
Proof.
  intros Hd. assert (d = 0 \/ d = 1 \/ d = 2 \/ d = 3 \/ d = 4 \/ d = 5 \/ d = 6 \/ d = 7
    \/ d = 8 \/ d = 9) as H by lia. repeat destruct H as [->|H]; [done..|]. by subst.
Qed.

(** The bytes that decimal digits are made of. *)
Definition is_digit (c : ascii) : Prop := exists d, 0 <= d < 10 /\ c = digit_char d.

Lemma digit_not_special c : is_digit c -> c <> "+"%char /\ c <> "-"%char /\ c <> ","%char.
Proof.
  intros (d & Hd & ->). split_and!; intros E%(f_equal digit_value); by rewrite digit_value_char in E.
Qed.

Lemma parse_digits_snoc l c : parse_digits (l ++ [c]) = acc ← parse_digits l; parse_step acc c.
Proof. unfold parse_digits. by rewrite foldl_app. Qed.

Lemma dec_digits_ok fuel v :
  0 <= v <= u32_max -> v < 10 ^ Z.of_nat fuel ->
  parse_digits (dec_digits fuel v) = Some v /\ Forall is_digit (dec_digits fuel v).
Proof.
  revert v. induction fuel as [|fuel IH]; intros v Hv Hf; [by replace v with 0 by (simpl in Hf; lia)|].
  assert (forall d, 0 <= d < 10 -> forall acc, 0 <= acc -> acc * 10 + d <= u32_max ->
    parse_step acc (digit_char d) = Some (acc * 10 + d)) as Hstep.
  { intros d Hd acc Ha Hb. unfold parse_step. rewrite digit_value_char by done. simpl.
    assert (u32_try_from (acc * 10) = Some (acc * 10)) as -> by (apply u32_try_from_Some; machine).
    simpl. apply u32_try_from_Some. machine. }
  simpl. destruct (Z.ltb_spec v 10).
  - split; [unfold parse_digits; simpl; by rewrite Hstep by lia|].
    constructor; [|done]. exists v. split; [lia|done].
  - rewrite Nat2Z.inj_succ, Z.pow_succ_r in Hf by lia.
    destruct (IH (v / 10)) as [Hp Hd]; [machine|apply Z.div_lt_upper_bound; lia|].
    pose proof (Z.mod_pos_bound v 10 ltac:(lia)). pose proof (Z.div_mod v 10 ltac:(lia)).
    pose proof (Z.div_pos v 10 ltac:(lia) ltac:(lia)).
    split; [rewrite parse_digits_snoc, Hp; simpl; rewrite Hstep by lia; f_equal; lia|].
    apply Forall_app. split; [done|]. constructor; [|done]. by eexists.
Qed.

Lemma dec_digits_nonempty fuel v : dec_digits (S fuel) v <> [].
Proof. simpl. destruct (v <? 10); [done|]. by destruct (dec_digits fuel _). Qed.

Lemma u32_to_string_digits v : in_u32 v -> Forall is_digit (u32_to_string v).
Proof. intros Hv. apply dec_digits_ok; unfold in_u32, u32_max in *; simpl; lia. Qed.

Lemma u32_string_roundtrip v : in_u32 v -> u32_from_str (u32_to_string v) = Some v.
Proof.
  intros Hv. destruct (dec_digits_ok 10 v) as [Hp Hd]; [done|unfold in_u32, u32_max in *; simpl; lia|].
  unfold u32_from_str, u32_to_string. destruct (dec_digits 10 v) as [|c l] eqn:E.
  - by apply dec_digits_nonempty in E.
  - inversion Hd as [|? ? Hc _]; subst. destruct (Ascii.eqb_spec c "+") as [->|_]; [|done].
    by destruct (digit_not_special _ Hc).
Qed.

Lemma split_on_none sep l : Forall (fun c => c <> sep) l -> split_on sep l = [l].
Proof.
  induction 1 as [|c l Hc _ IH]; [done|]. simpl. rewrite IH. by destruct (Ascii.eqb_spec c sep).
Qed.

Lemma split_on_app sep l l' :
  Forall (fun c => c <> sep) l -> split_on sep (l ++ sep :: l') = l :: split_on sep l'.
Proof.
  induction 1 as [|c l Hc _ IH]; simpl; [by rewrite Ascii.eqb_refl|].
  rewrite IH. by destruct (Ascii.eqb_spec c sep).
Qed.

Lemma parse_token_interval parsed i :
  iv_ok i -> parse_token parsed (to_string_interval i) = Some (insert_interval i parsed).
Proof.
  intros Hi. assert (in_u32 (iv_first i) /\ in_u32 (iv_last i)) as [Hf Hl] by (unfold iv_ok in Hi; machine).
  assert (forall v, in_u32 v -> Forall (fun c => c <> "-"%char) (u32_to_string v)) as Hsep.
  { intros v Hv. eapply Forall_impl; [by apply u32_to_string_digits|]. intros c Hc. by apply digit_not_special. }
  unfold parse_token, to_string_interval. destruct (Z.eqb_spec (iv_first i) (iv_last i)) as [E|E].
  - rewrite split_on_none, u32_string_roundtrip by auto. simpl. unfold rs_insert. rewrite E at 2.
    by destruct i.
  - rewrite split_on_app, split_on_none, !u32_string_roundtrip by auto. simpl. by destruct i.
Qed.

Lemma interval_string_no_comma i : iv_ok i -> Forall (fun c => c <> ","%char) (to_string_interval i).
Proof.
  intros Hi. assert (forall v, in_u32 v -> Forall (fun c => c <> ","%char) (u32_to_string v)) as H.
  { intros v Hv. eapply Forall_impl; [by apply u32_to_string_digits|]. intros c Hc. by apply digit_not_special. }
  unfold iv_ok in Hi. unfold to_string_interval. destruct (_ =? _); [apply H; machine|].
  apply Forall_app. split; [apply H; machine|]. constructor; [done|]. apply H; machine.
Qed.

Lemma split_set_string i s :
  Forall iv_ok (i :: s) ->
  split_on "," (to_string_range_set (i :: s)) = to_string_interval <$> (i :: s).
Proof.
  revert i. induction s as [|i' s IH]; intros i Hs; inversion Hs as [|? ? Hi Hs']; subst; simpl.
  - rewrite app_nil_r. by rewrite split_on_none by by apply interval_string_no_comma.
  - rewrite split_on_app by by apply interval_string_no_comma. f_equal. by apply (IH i').
Qed.

(** An interval beyond the others is appended. *)
Lemma insert_loop_append lo s i :
  0 <= lo -> ok_from lo (s ++ [i]) -> insert_loop i false s = s ++ [i].
Proof.
  revert lo. induction s as [|c s IH]; intros lo Hlo Hs; [done|]. simpl in Hs |- *.
  destruct Hs as (Hc & Hm & Hs).
  assert (iv_ok i /\ iv_last c + 2 <= iv_first i) as [Hi Hgap].
  { clear IH. remember (iv_last c + 2) as b eqn:Eb. assert (0 <= b) as Hb by lia. clear Eb Hc Hm.
    revert b Hb Hs. induction s as [|c' s IH]; simpl; intros b Hb (H1 & H2 & H3); [unfold iv_ok; lia|].
    destruct (IH (iv_last c' + 2) ltac:(lia) H3). split; [done|lia]. }
  rewrite (proj2 (strictly_before_iff c i Hi)) by lia. f_equal. apply (IH (iv_last c + 2)); [lia|done].
Qed.

Lemma ok_from_prefix lo s s' : ok_from lo (s ++ s') -> ok_from lo s.
Proof.
  revert lo. induction s as [|c s IH]; intros lo Hs; [done|]. destruct Hs as (Hc & Hm & Hs).
  split_and!; [lia..|]. by apply IH.
Qed.

Lemma parse_tokens_append s parsed :
  rs_ok (parsed ++ s) -> Forall iv_ok s ->
  parse_tokens parsed (to_string_interval <$> s) = Some (parsed ++ s).
Proof.
  revert parsed. induction s as [|i s IH]; intros parsed Hs Hiv; simpl; [by rewrite app_nil_r|].
  inversion Hiv as [|? ? Hi Hiv']; subst. rewrite (cons_middle i parsed s), app_assoc in Hs.
  rewrite parse_token_interval by done. simpl.
  assert (insert_interval i parsed = parsed ++ [i]) as ->.
  { unfold insert_interval. unfold iv_ok in Hi. rewrite (proj2 (Z.ltb_ge _ _)) by lia.
    apply (insert_loop_append 0); [lia|]. by eapply ok_from_prefix. }
  rewrite IH by done. by rewrite <- app_assoc.
Qed.

(** the string form of a non-empty well-formed set parses back to the same set,
    whatever the set the parse is written into held before. *)
Theorem string_roundtrip s old :
  rs_ok s -> s <> [] -> from_string old (to_string_range_set s) = (s, true).
Proof.
  intros Hs Hne. destruct s as [|i s]; [done|]. unfold from_string.
  pose proof (ok_from_intervals 0 _ ltac:(lia) Hs) as Hiv.
  rewrite split_set_string by done. by rewrite (parse_tokens_append (i :: s) []).
Qed.

Lemma string_roundtrip_witness :
  from_string [] (to_string_range_set [range 1 3; range 7 7; range 4294967295 4294967295])
    = ([range 1 3; range 7 7; range 4294967295 4294967295], true).
Proof. apply string_roundtrip; [unfold rs_ok; simpl; machine|done]. Defined.

(** What the text of a token must be for the token to parse. *)
Definition token_ok (token : list ascii) : Prop :=
  match split_on "-" token with
  | [single] => is_Some (u32_from_str single)
  | [front; back] => is_Some (u32_from_str front) /\ is_Some (u32_from_str back)
  | _ => False
  end.

Lemma parse_token_iff parsed token : is_Some (parse_token parsed token) <-> token_ok token.
Proof.
  unfold parse_token, token_ok. destruct (split_on "-" token) as [|a [|b [|]]];
    try (split; [by intros [? ?]|done]).
  - destruct (u32_from_str a); simpl; unfold is_Some; naive_solver.
  - destruct (u32_from_str a), (u32_from_str b); simpl; unfold is_Some; naive_solver.
Qed.

Lemma u32_from_str_range l v : u32_from_str l = Some v -> in_u32 v.
Proof.
  assert (forall l, parse_digits l = Some v -> in_u32 v) as H.
  { intros l'. destruct l' as [|l' c _] using rev_ind; [intros [= <-]; machine|].
    rewrite parse_digits_snoc. intros (acc & _ & E)%bind_Some. unfold parse_step in E.
    apply bind_Some in E as (d & _ & E). apply bind_Some in E as (a & _ & E).
    by apply u32_try_from_Some in E as [-> ?]. }
  unfold u32_from_str. destruct l as [|c l]; [done|]. destruct (Ascii.eqb c "+"); [|apply H].
  destruct l; [done|]. apply H.
Qed.

Lemma parse_token_ok parsed token parsed' :
  rs_ok parsed -> parse_token parsed token = Some parsed' -> rs_ok parsed'.
Proof.
  intros Hp. assert (forall a b, in_u32 a -> in_u32 b -> rs_ok (insert_interval (range a b) parsed)) as H.
  { intros a b Ha Hb. apply insert_interval_ok; [done|simpl; machine..]. }
  unfold parse_token. destruct (split_on "-" token) as [|a [|b [|]]]; try done.
  - intros (v & Hv & [= <-])%bind_Some. apply u32_from_str_range in Hv. by apply H.
  - intros (x & Hx & (y & Hy & [= <-])%bind_Some)%bind_Some.
    apply u32_from_str_range in Hx, Hy. by apply H.
Qed.

Lemma parse_tokens_spec tokens parsed :
  rs_ok parsed ->
  match parse_tokens parsed tokens with
  | Some parsed' => rs_ok parsed' /\ Forall token_ok tokens
  | None => ~ Forall token_ok tokens
  end.
Proof.
  revert parsed. induction tokens as [|t tokens IH]; intros parsed Hp; simpl; [done|].
  destruct (parse_token parsed t) as [p'|] eqn:E; simpl.
  - specialize (IH p' (parse_token_ok _ _ _ Hp E)).
    assert (token_ok t) by (apply (parse_token_iff parsed); by eexists).
    destruct (parse_tokens p' tokens) as [q|]; [by destruct IH; split; [|constructor]|].
    intros H'. inversion H'. tauto.
  - intros H'. inversion H' as [|? ? Ht _]; subst. apply (parse_token_iff parsed) in Ht as [? Ht]. congruence.
Qed.

(** [from_string] on any input: it answers true exactly when every token between
    commas is one number or two numbers joined by a dash, each fitting the
    width; it leaves a well-formed set in either case, and the empty one when
    it fails. *)
Theorem from_string_spec old input :
  rs_ok (fst (from_string old input))
  /\ (snd (from_string old input) = true <-> Forall token_ok (split_on "," input))
  /\ (snd (from_string old input) = false -> fst (from_string old input) = []).
Proof.
  unfold from_string. pose proof (parse_tokens_spec (split_on "," input) [] I) as H.
  destruct (parse_tokens [] _) as [p|]; simpl.
  - destruct H. split_and!; [done|done|done].
  - split_and!; [done| |done]. by split.
Qed.
