(* ===== verification/Censorship.v ===== *)
(** * Censorship detector

    [xrpld/app/src/consensus/censorship_detector.rs]: the transactions this node
    proposed that have not made it into a validated ledger, each with the sequence
    of the round in which it was first proposed. The identifiers ([Uint256],
    compared as big-endian numbers) and the sequences ([u32]) are integers. *)

From S2P Require Import Prelude.

(** ** Data and operations *)

Record TxIDSeq := mkTxIDSeq { txid : Z; tx_seq : Z }.

(** The derived order: identifier first, then sequence. *)
Definition tx_leb (a b : TxIDSeq) : bool :=
  match Z.compare (txid a) (txid b) with
  | Lt => true
  | Gt => false
  | Eq => tx_seq a <=? tx_seq b
  end.

Definition tx_le (a b : TxIDSeq) : Prop := tx_leb a b = true.
#[global] Instance tx_le_dec : RelDecision tx_le := fun a b => bool_eq_dec (tx_leb a b) true.

Definition CensorshipDetector : Type := list TxIDSeq.
Definition detector_new : CensorshipDetector := [].

(** The loop over both lists, with the rest of [proposed] as its result. *)
Fixpoint keep_seqs (old : list TxIDSeq) : list TxIDSeq -> list TxIDSeq :=
  fix go proposed :=
    match old, proposed with
    | o :: old', p :: proposed' =>
        match Z.compare (txid o) (txid p) with
        | Lt => keep_seqs old' proposed
        | Gt => p :: go proposed'
        | Eq => mkTxIDSeq (txid p) (tx_seq o) :: keep_seqs old' proposed'
        end
    | _, _ => proposed
    end.

Definition propose (tracker : CensorshipDetector) (proposed : list TxIDSeq) : CensorshipDetector :=
  keep_seqs tracker (merge_sort tx_le proposed).

(** [binary_search] on the sorted copy of the accepted identifiers finds exactly
    its elements. *)
Definition check (tracker : list TxIDSeq) (accepted : list Z) (pred : Z -> Z -> bool)
  : list TxIDSeq :=
  filter (fun entry =>
    negb (bool_decide (txid entry ∈ merge_sort Z.le accepted)) && negb (pred (txid entry) (tx_seq entry))
      = true) tracker.

Definition reset (tracker : CensorshipDetector) : CensorshipDetector := [].

(** ** What the detector stands for

    A finite map from identifiers to the sequence of first proposal. *)

Inductive detector_op :=
| Propose (proposed : list TxIDSeq)
| Check (accepted : list Z) (pred : Z -> Z -> bool)
| Reset.

Definition detector_step (t : CensorshipDetector) (op : detector_op) : CensorshipDetector :=
  match op with
  | Propose proposed => propose t proposed
  | Check accepted pred => check t accepted pred
  | Reset => reset t
  end.

(** A proposal keeps the earlier sequence of an identifier already tracked and
    drops whatever is not proposed again; a check drops the accepted identifiers
    and those the predicate gives up on. *)
Definition entries (l : list TxIDSeq) : gmap Z Z :=
  list_to_map ((fun e => (txid e, tx_seq e)) <$> l).

Definition spec_step (m : gmap Z Z) (op : detector_op) : gmap Z Z :=
  match op with
  | Propose proposed => map_imap (fun k v => Some (default v (m !! k))) (entries proposed)
  | Check accepted pred => filter (fun '(k, v) => k ∉ accepted /\ pred k v = false) m
  | Reset => ∅
  end.

(** A round proposes each transaction of a set once. *)
Definition op_ok (op : detector_op) : Prop :=
  match op with
  | Propose proposed => NoDup (txid <$> proposed)
  | _ => True
  end.

(** ** Sorted lists *)

#[global] Instance tx_le_total : Total tx_le.
Proof.
  intros a b. unfold tx_le, tx_leb.
  destruct (Z.compare_spec (txid a) (txid b)), (Z.compare_spec (txid b) (txid a)); auto; lia.
Qed.

#[global] Instance tx_le_trans : Transitive tx_le.
Proof.
  intros a b c. unfold tx_le, tx_leb.
  destruct (Z.compare_spec (txid a) (txid b)), (Z.compare_spec (txid b) (txid c)),
    (Z.compare_spec (txid a) (txid c)); auto; lia.
Qed.

(** Strictly increasing identifiers. *)
Definition increasing (t : list TxIDSeq) : Prop := StronglySorted (fun a b => txid a < txid b) t.

Lemma sorted_increasing l : NoDup (txid <$> l) -> increasing (merge_sort tx_le l).
Proof.
  intros Hnd. set (l' := merge_sort _ l).
  assert (NoDup (txid <$> l')) as Hnd'.
  { eapply NoDup_Permutation_proper; [|exact Hnd]. apply fmap_Permutation, merge_sort_Permutation. }
  assert (StronglySorted tx_le l') as Hs.
  { apply StronglySorted_merge_sort; apply _. }
  clearbody l'. clear Hnd l. unfold increasing. induction Hs as [|a l' Hs IH Ha]; [constructor|].
  simpl in Hnd'. apply NoDup_cons in Hnd' as [Hn Hnd']. constructor; [auto|].
  rewrite Forall_forall in Ha |- *. intros b Hb. specialize (Ha b Hb). unfold tx_le, tx_leb in Ha.
  destruct (Z.compare_spec (txid a) (txid b)) as [E| |]; [|done|done].
  destruct Hn. rewrite E. by apply list_elem_of_fmap_2.
Qed.

Lemma increasing_NoDup t : increasing t -> NoDup (txid <$> t).
Proof.
  induction 1 as [|a t _ IH Ha]; simpl; constructor; [|done].
  intros (b & E & Hb)%list_elem_of_fmap. rewrite Forall_forall in Ha. specialize (Ha b Hb). lia.
Qed.

(** ** Refinement *)

Lemma entries_lookup l k v :
  NoDup (txid <$> l) -> entries l !! k = Some v <-> mkTxIDSeq k v ∈ l.
Proof.
  intros Hnd. unfold entries. rewrite <- elem_of_list_to_map.
  - rewrite list_elem_of_fmap. split; [intros ([] & [= -> ->] & H); exact H|]. intros H. by exists (mkTxIDSeq k v).
  - by rewrite <- list_fmap_compose.
Qed.

Lemma keep_seqs_txids old proposed : txid <$> keep_seqs old proposed = txid <$> proposed.
Proof.
  revert proposed. induction old as [|o old IH]; intros proposed; [by destruct proposed|].
  induction proposed as [|p proposed IHp]; [done|]. simpl.
  destruct (Z.compare (txid o) (txid p)); simpl; [by rewrite IH|by rewrite IH|].
  f_equal. exact IHp.
Qed.

Lemma increasing_txids t t' : txid <$> t = txid <$> t' -> increasing t -> increasing t'.
Proof.
  intros E Hs. revert t' E. induction Hs as [|a t Hs IH Ha]; intros [|b t'] E; try done; [constructor|].
  rewrite !fmap_cons in E. injection E as Eab E. constructor; [by apply IH|].
  apply Forall_forall. intros c Hc.
  assert (txid c ∈ txid <$> t) as (c' & Ec & Hc')%list_elem_of_fmap by (rewrite E; by apply list_elem_of_fmap_2).
  rewrite Forall_forall in Ha. specialize (Ha c' Hc'). lia.
Qed.

(** An entry of the result is a proposed entry, with the tracked sequence if
    there is one. *)
Lemma keep_seqs_elem old proposed k v :
  increasing old -> increasing proposed ->
  mkTxIDSeq k v ∈ keep_seqs old proposed ->
  exists v', mkTxIDSeq k v' ∈ proposed /\ v = default v' (entries old !! k).
Proof.
  intros Ho. revert proposed.
  induction Ho as [|o old Ho IH Hlt]; intros proposed Hp.
  { destruct proposed; intros H; (exists v; split; [exact H|done]). }
  assert (entries (o :: old) = <[txid o := tx_seq o]> (entries old)) as Ecs by done.
  induction Hp as [|p proposed Hp IHp Hlt']; [simpl; set_solver|].
  assert (forall v', mkTxIDSeq k v' ∈ p :: proposed -> txid o < txid p ->
    entries (o :: old) !! k = entries old !! k) as Hlt1.
  { intros v' Hv' Hop. rewrite Ecs, lookup_insert_ne; [done|].
    apply elem_of_cons in Hv' as [<-|Hv']; [simpl in *; lia|].
    rewrite Forall_forall in Hlt'. specialize (Hlt' _ Hv'). simpl in Hlt'. lia. }
  assert (keep_seqs (o :: old) (p :: proposed) = match Z.compare (txid o) (txid p) with
        | Lt => keep_seqs old (p :: proposed)
        | Gt => p :: keep_seqs (o :: old) proposed
        | Eq => mkTxIDSeq (txid p) (tx_seq o) :: keep_seqs old proposed
        end) as -> by done.
  destruct (Z.compare_spec (txid o) (txid p)) as [E|E|E].
  - intros [[= -> ->]|H]%elem_of_cons.
    + exists (tx_seq p). split; [destruct p; left|].
      by rewrite Ecs, E, lookup_insert_eq.
    + destruct (IH _ Hp H) as (v' & Hv' & ->). exists v'. split; [by right|].
      rewrite Ecs, lookup_insert_ne; [done|]. rewrite Forall_forall in Hlt'.
      specialize (Hlt' _ Hv'). simpl in Hlt'. lia.
  - intros H. destruct (IH (p :: proposed)) as (v' & Hv' & ->); [by constructor|done|].
    exists v'. split; [done|]. by rewrite (Hlt1 v').
  - intros [<-|H]%elem_of_cons.
    + exists v. simpl in E. split; [left|].
      rewrite Ecs, lookup_insert_ne by lia.
      assert (entries old !! k = None) as ->; [|done].
      apply not_elem_of_list_to_map_1. rewrite <- list_fmap_compose.
      intros (c & Ec & Hc)%list_elem_of_fmap. simpl in Ec.
      rewrite Forall_forall in Hlt. specialize (Hlt _ Hc). lia.
    + destruct (IHp H) as (v' & Hv' & ->). exists v'. split; [by right|done].
Qed.

Lemma propose_increasing t proposed : NoDup (txid <$> proposed) -> increasing (propose t proposed).
Proof.
  intros Hp. eapply increasing_txids; [symmetry; apply keep_seqs_txids|]. by apply sorted_increasing.
Qed.

Lemma propose_entries t proposed :
  increasing t -> NoDup (txid <$> proposed) ->
  entries (propose t proposed) = spec_step (entries t) (Propose proposed).
Proof.
  intros Ht Hp. pose proof (propose_increasing t proposed Hp) as Hinc.
  pose proof (merge_sort_Permutation tx_le proposed) as Hperm.
  apply map_eq. intros k. apply option_eq. intros v. simpl.
  rewrite entries_lookup by by apply increasing_NoDup.
  rewrite map_lookup_imap, bind_Some. setoid_rewrite entries_lookup; [|done].
  assert (forall v, mkTxIDSeq k v ∈ propose t proposed -> exists v', mkTxIDSeq k v' ∈ proposed
    /\ v = default v' (entries t !! k)) as Hkeep.
  { intros v' H%keep_seqs_elem; [|done|by apply sorted_increasing].
    by setoid_rewrite Hperm in H. }
  split.
  - intros (v' & Hv' & ->)%Hkeep. by exists v'.
  - intros (v' & Hv' & [= <-]).
    assert (k ∈ txid <$> propose t proposed) as ([k' v] & -> & H)%list_elem_of_fmap.
    { unfold propose. rewrite keep_seqs_txids, Hperm. by apply (list_elem_of_fmap_2' _ _ (mkTxIDSeq k v')). }
    simpl in *. pose proof H as (v'' & Hv'' & ->)%Hkeep.
    assert (v'' = v') as ->; [|done].
    apply entries_lookup in Hv', Hv''; [|done..]. congruence.
Qed.

Lemma check_increasing t accepted pred : increasing t -> increasing (check t accepted pred).
Proof.
  unfold check. induction 1 as [|a t Ht IH Ha]; [constructor|]. rewrite filter_cons.
  case_decide; [|done]. constructor; [done|]. apply Forall_forall.
  intros b [_ Hb]%list_elem_of_filter. rewrite Forall_forall in Ha. by apply Ha.
Qed.

Lemma check_entries t accepted pred :
  increasing t -> entries (check t accepted pred) = spec_step (entries t) (Check accepted pred).
Proof.
  intros Ht. pose proof (check_increasing t accepted pred Ht) as Hinc.
  apply map_eq. intros k. apply option_eq. intros v. simpl.
  rewrite entries_lookup by by apply increasing_NoDup.
  rewrite map_lookup_filter_Some, entries_lookup by by apply increasing_NoDup.
  unfold check. rewrite list_elem_of_filter. simpl.
  rewrite andb_true_iff, !negb_true_iff, bool_decide_eq_false, merge_sort_Permutation. naive_solver.
Qed.

Lemma detector_history ops t :
  increasing t -> Forall op_ok ops ->
  increasing (foldl detector_step t ops)
  /\ entries (foldl detector_step t ops) = foldl spec_step (entries t) ops.
Proof.
  intros Ht Hops. revert t Ht. induction Hops as [|op ops Hop _ IH]; intros t Ht; [done|]. simpl.
  destruct op as [proposed|accepted pred|].
  - rewrite <- propose_entries by done. apply IH. by apply propose_increasing.
  - rewrite <- check_entries by done. apply IH. by apply check_increasing.
  - apply (IH []). constructor.
Qed.

(** over any history of rounds the detector holds exactly the map that keeps, for
    every identifier proposed in each round since and neither accepted nor given
    up, the sequence of its first proposal; its vector is sorted by identifier
    without repetition. *)
Theorem detector_refines_map ops :
  Forall op_ok ops ->
  increasing (foldl detector_step detector_new ops)
  /\ entries (foldl detector_step detector_new ops) = foldl spec_step ∅ ops.
Proof. intros Hops. apply (detector_history ops []); [constructor|done]. Qed.

Definition demo_rounds : list detector_op :=
  [ Propose [mkTxIDSeq 2 10; mkTxIDSeq 1 10]; Check [2] (fun _ _ => false);
    Propose [mkTxIDSeq 3 11; mkTxIDSeq 1 11]; Check [] (fun id _ => id =? 3) ].

Lemma detector_refines_map_witness :
  foldl detector_step detector_new demo_rounds = [mkTxIDSeq 1 10]
  /\ entries (foldl detector_step detector_new demo_rounds) = foldl spec_step ∅ demo_rounds.
Proof.
  split; [vm_compute; reflexivity|]. apply detector_refines_map.
  unfold demo_rounds. repeat constructor; set_solver.
Defined.
