(* ===== verification/LoadFee.v ===== *)
(** * Load fee track and widened multiplication

    [xrpl/basics/src/math/mul_div.rs] and
    [xrpld/app/src/load/load_fee_track.rs]: the local, remote and cluster load
    factors and their escalation. The lock and the atomic are not modelled: every
    method runs on the state as a whole. *)

From S2P Require Import Prelude.

(** ** [mul_div] *)

Definition MULDIV_MAX : Z := u64_max.

(** The product of two [u64] fits the [u128] it is computed in; a zero divisor
    panics. *)
Definition mul_div (value mul div : Z) : outcome (option Z) :=
  if div =? 0 then Panic
  else
    let result := value * mul / div in
    Ok (if MULDIV_MAX <? result then None else Some result).

(** the exact quotient when it fits 64 bits, and nothing only when it does not. *)
Theorem mul_div_spec value mul div :
  in_u64 value -> in_u64 mul -> 0 < div <= u64_max ->
  match mul_div value mul div with
  | Ok (Some q) => in_u64 q /\ q * div <= value * mul < (q + 1) * div
  | Ok None => (u64_max + 1) * div <= value * mul
  | _ => False
  end.
Proof.
  intros Hv Hm Hd. unfold mul_div, MULDIV_MAX, in_u64 in *.
  rewrite (proj2 (Z.eqb_neq div 0)) by lia.
  pose proof (Z.div_mod (value * mul) div ltac:(lia)) as E.
  pose proof (Z.mod_pos_bound (value * mul) div ltac:(lia)).
  pose proof (Z.div_pos (value * mul) div ltac:(nia) ltac:(lia)).
  destruct (Z.ltb_spec u64_max (value * mul / div)); [nia|]. split; nia.
Qed.

Lemma mul_div_spec_witness :
  mul_div 18446744073709551615 1000 18446744073709551 = Ok (Some 1000000)
  /\ 1000000 * 18446744073709551 <= 18446744073709551615 * 1000 < (1000000 + 1) * 18446744073709551.
Proof.
  assert (mul_div 18446744073709551615 1000 18446744073709551 = Ok (Some 1000000)) as E by reflexivity.
  split; [exact E|].
  pose proof (mul_div_spec 18446744073709551615 1000 18446744073709551) as H. rewrite E in H.
  destruct H as [_ H]; [unfold in_u64, u64_max; lia..|exact H].
Defined.

(** ** [SharedLoadFeeTrack] *)

Definition LOAD_FEE_NORMAL : Z := 256.
Definition LOAD_FEE_INC_FRACTION : Z := 4.
Definition LOAD_FEE_DEC_FRACTION : Z := 4.
Definition LOAD_FEE_MAX : Z := LOAD_FEE_NORMAL * 1000000.

Record SharedLoadFeeTrack := mkTrack {
  local_fee : Z;
  remote_fee : Z;
  cluster_fee : Z;
  raise_count : Z;
  network_base_fee : Z
}.

Definition track_new : SharedLoadFeeTrack :=
  mkTrack LOAD_FEE_NORMAL LOAD_FEE_NORMAL LOAD_FEE_NORMAL 0 0.

Definition set_remote_fee (fee : Z) (t : SharedLoadFeeTrack) : SharedLoadFeeTrack :=
  mkTrack (local_fee t) fee (cluster_fee t) (raise_count t) (network_base_fee t).

Definition set_cluster_fee (fee : Z) (t : SharedLoadFeeTrack) : SharedLoadFeeTrack :=
  mkTrack (local_fee t) (remote_fee t) fee (raise_count t) (network_base_fee t).

Definition load_factor (t : SharedLoadFeeTrack) : Z :=
  Z.max (Z.max (cluster_fee t) (local_fee t)) (remote_fee t).

Definition scaling_factors (t : SharedLoadFeeTrack) : Z * Z :=
  (Z.max (local_fee t) (remote_fee t), Z.max (remote_fee t) (cluster_fee t)).

Definition is_loaded_local (t : SharedLoadFeeTrack) : bool :=
  negb (raise_count t =? 0) || negb (local_fee t =? LOAD_FEE_NORMAL).

Definition is_loaded_cluster (t : SharedLoadFeeTrack) : bool :=
  negb (raise_count t =? 0) || negb (local_fee t =? LOAD_FEE_NORMAL)
  || negb (cluster_fee t =? LOAD_FEE_NORMAL).

Definition update_from_validated_ledger (base_fee_drops : Z) (t : SharedLoadFeeTrack)
  : SharedLoadFeeTrack :=
  let t := mkTrack (local_fee t) (remote_fee t) (cluster_fee t) (raise_count t) base_fee_drops in
  let clamped := wrap_u32 (Z.min base_fee_drops u32_max) in
  set_cluster_fee (Z.max clamped LOAD_FEE_NORMAL) t.

(** The new state and whether the fee changed. *)
Definition raise_local_fee (t : SharedLoadFeeTrack) : SharedLoadFeeTrack * bool :=
  let count := sat_u32 (raise_count t + 1) in
  let t := mkTrack (local_fee t) (remote_fee t) (cluster_fee t) count (network_base_fee t) in
  if count <? 2 then (t, false)
  else
    let original := local_fee t in
    let fee := Z.max (local_fee t) (remote_fee t) in
    let fee := sat_u32 (fee + fee / LOAD_FEE_INC_FRACTION) in
    let fee := Z.min fee LOAD_FEE_MAX in
    (mkTrack fee (remote_fee t) (cluster_fee t) count (network_base_fee t),
     negb (original =? fee)).

Definition lower_local_fee (t : SharedLoadFeeTrack) : SharedLoadFeeTrack * bool :=
  let original := local_fee t in
  let fee := Z.max (sat_u32 (local_fee t - local_fee t / LOAD_FEE_DEC_FRACTION)) LOAD_FEE_NORMAL in
  (mkTrack fee (remote_fee t) (cluster_fee t) 0 (network_base_fee t), negb (original =? fee)).

(** ** Histories *)

Inductive track_op :=
| SetRemote (fee : Z)
| SetCluster (fee : Z)
| Validated (base_fee_drops : Z)
| Raise
| Lower.

Definition track_step (t : SharedLoadFeeTrack) (op : track_op) : SharedLoadFeeTrack :=
  match op with
  | SetRemote fee => set_remote_fee fee t
  | SetCluster fee => set_cluster_fee fee t
  | Validated drops => update_from_validated_ledger drops t
  | Raise => fst (raise_local_fee t)
  | Lower => fst (lower_local_fee t)
  end.

(** Arguments within their width. *)
Definition track_op_ok (op : track_op) : Prop :=
  match op with
  | SetRemote fee | SetCluster fee => in_u32 fee
  | Validated drops => in_u64 drops
  | _ => True
  end.

Definition track_ok (t : SharedLoadFeeTrack) : Prop :=
  LOAD_FEE_NORMAL <= local_fee t <= LOAD_FEE_MAX
  /\ in_u32 (remote_fee t) /\ in_u32 (cluster_fee t) /\ in_u32 (raise_count t)
  /\ in_u64 (network_base_fee t).

(** The factor after an escalation and after a lowering. *)
Definition raised (fee remote : Z) : Z :=
  Z.min (sat_u32 (Z.max fee remote + Z.max fee remote / 4)) LOAD_FEE_MAX.
Definition lowered (fee : Z) : Z := Z.max (sat_u32 (fee - fee / 4)) LOAD_FEE_NORMAL.

Lemma raised_range fee remote :
  LOAD_FEE_NORMAL <= fee <= LOAD_FEE_MAX -> in_u32 remote ->
  fee <= raised fee remote /\ LOAD_FEE_NORMAL <= raised fee remote <= LOAD_FEE_MAX.
Proof.
  unfold raised, LOAD_FEE_MAX, LOAD_FEE_NORMAL. intros Hf Hr.
  pose proof (Z.div_pos (Z.max fee remote) 4 ltac:(lia) ltac:(lia)). machine.
Qed.

Lemma lowered_range fee :
  LOAD_FEE_NORMAL <= fee <= LOAD_FEE_MAX -> LOAD_FEE_NORMAL <= lowered fee <= LOAD_FEE_MAX.
Proof. unfold lowered, LOAD_FEE_MAX, LOAD_FEE_NORMAL. intros Hf. machine. Qed.

Lemma lowered_mono a b : 0 <= a <= b -> b <= u32_max -> lowered a <= lowered b.
Proof. unfold lowered, LOAD_FEE_NORMAL. intros. machine. Qed.

Lemma raise_local_fee_eq t :
  raise_local_fee t =
    let count := sat_u32 (raise_count t + 1) in
    let fee := if count <? 2 then local_fee t else raised (local_fee t) (remote_fee t) in
    (mkTrack fee (remote_fee t) (cluster_fee t) count (network_base_fee t), negb (local_fee t =? fee)).
Proof.
  unfold raise_local_fee. cbv zeta. destruct (_ <? 2); [|reflexivity].
  by rewrite Z.eqb_refl.
Qed.

Lemma lower_local_fee_eq t :
  lower_local_fee t =
    (mkTrack (lowered (local_fee t)) (remote_fee t) (cluster_fee t) 0 (network_base_fee t),
     negb (local_fee t =? lowered (local_fee t))).
Proof. reflexivity. Qed.

Lemma update_from_validated_ledger_eq drops t :
  in_u64 drops ->
  update_from_validated_ledger drops t =
    mkTrack (local_fee t) (remote_fee t) (Z.max (Z.min drops u32_max) LOAD_FEE_NORMAL)
      (raise_count t) drops.
Proof.
  intros Hd. unfold update_from_validated_ledger.
  by rewrite wrap_u32_id by (unfold in_u64, in_u32, u32_max in *; lia).
Qed.

Lemma sat_u32_range z : in_u32 (sat_u32 z).
Proof. unfold in_u32, sat_u32, u32_max. lia. Qed.

Lemma track_step_ok t op : track_ok t -> track_op_ok op -> track_ok (track_step t op).
Proof.
  intros (H1 & H2 & H3 & H4 & H5). destruct op as [fee|fee|drops| |]; cbn [track_step track_op_ok]; intros Hop.
  - exact (conj H1 (conj Hop (conj H3 (conj H4 H5)))).
  - exact (conj H1 (conj H2 (conj Hop (conj H4 H5)))).
  - rewrite update_from_validated_ledger_eq by done. unfold track_ok. simpl.
    assert (in_u32 (Z.max (Z.min drops u32_max) LOAD_FEE_NORMAL)); [|tauto].
    unfold in_u64, in_u32, u32_max, LOAD_FEE_NORMAL in *. lia.
  - rewrite raise_local_fee_eq. cbv zeta. pose proof (raised_range _ _ H1 H2) as [_ Hr].
    pose proof (sat_u32_range (raise_count t + 1)). unfold track_ok. simpl.
    destruct (_ <? 2); tauto.
  - rewrite lower_local_fee_eq. pose proof (lowered_range _ H1). unfold track_ok. simpl.
    assert (in_u32 0) by machine. tauto.
Qed.

Lemma track_history_ok ops t :
  track_ok t -> Forall track_op_ok ops -> track_ok (foldl track_step t ops).
Proof.
  intros Ht Hops. revert t Ht. induction Hops as [|op ops Hop _ IH]; intros t Ht; [done|].
  simpl. apply IH. by apply track_step_ok.
Qed.

(** whatever the peers, the cluster and the job queue report, the local load factor
    stays between the normal fee and a million times it, every counter stays
    within its width, and the load factor answered to clients is never below
    normal. *)
Theorem load_fee_bounded ops :
  Forall track_op_ok ops ->
  let t := foldl track_step track_new ops in
  track_ok t /\ LOAD_FEE_NORMAL <= load_factor t <= u32_max.
Proof.
  intros Hops t. assert (track_ok t) as Ht by (apply track_history_ok; [split_and!; done || machine|done]).
  split; [done|]. clearbody t. destruct Ht as (H1 & H2 & H3 & _).
  unfold load_factor, LOAD_FEE_MAX, LOAD_FEE_NORMAL in *. machine.
Qed.

Lemma load_fee_bounded_witness :
  let t := foldl track_step track_new [SetRemote 4000; Raise; Raise; Lower; Validated 500] in
  local_fee t = 3750 /\ track_ok t.
Proof. split; [reflexivity|]. apply load_fee_bounded. repeat constructor; machine. Defined.

(** ** Recovery and saturation *)

(** Lowering is monotone, so the slowest recovery starts at the maximum. *)
Fixpoint lower_times (n : nat) (t : SharedLoadFeeTrack) : SharedLoadFeeTrack :=
  match n with O => t | S n => lower_times n (fst (lower_local_fee t)) end.

Lemma lower_times_mono n t t' :
  LOAD_FEE_NORMAL <= local_fee t <= local_fee t' -> local_fee t' <= LOAD_FEE_MAX ->
  LOAD_FEE_NORMAL <= local_fee (lower_times n t) <= local_fee (lower_times n t').
Proof.
  revert t t'. induction n as [|n IH]; intros t t' H H'; [done|]. cbn [lower_times].
  pose proof (lowered_range (local_fee t') ltac:(lia)).
  pose proof (lowered_range (local_fee t) ltac:(lia)).
  apply IH; rewrite !lower_local_fee_eq; cbn [fst local_fee]; [|lia].
  split; [lia|]. apply lowered_mono; unfold LOAD_FEE_MAX, LOAD_FEE_NORMAL, u32_max in *; lia.
Qed.

(** once the node is no longer overloaded it recovers: 49 lowerings in a row clear the
    local load from any state the track can be in. *)
Theorem load_fee_recovers t :
  track_ok t -> is_loaded_local (lower_times 49 t) = false.
Proof.
  intros Ht. assert (raise_count (lower_times 49 t) = 0) as Hc by reflexivity.
  pose proof (lower_times_mono 49 t (mkTrack LOAD_FEE_MAX 0 0 0 0)) as Hm.
  assert (local_fee (lower_times 49 (mkTrack LOAD_FEE_MAX 0 0 0 0)) = LOAD_FEE_NORMAL) as Emax by reflexivity.
  rewrite Emax in Hm. destruct Ht as (Hl & _). cbn [local_fee] in Hm. clear Emax.
  destruct (lower_times 49 t). cbn in Hc, Hm. unfold is_loaded_local. cbn [raise_count local_fee].
  rewrite Hc. apply negb_false_iff, Z.eqb_eq. specialize (Hm ltac:(lia) ltac:(lia)). lia.
Qed.

Lemma load_fee_recovers_witness :
  is_loaded_local (mkTrack 5000 256 256 7 10) = true
  /\ is_loaded_local (lower_times 49 (mkTrack 5000 256 256 7 10)) = false.
Proof.
  split; [reflexivity|]. apply load_fee_recovers.
  unfold track_ok, LOAD_FEE_MAX, LOAD_FEE_NORMAL. cbn. machine.
Defined.
