(* ===== verification/VoteTxSet.v ===== *)
(** * Pseudo-transactions and the sets they are voted into

    The write surface of [xrpld/app/src/tx_queue/vote_tx_set.rs] that the voting
    helpers share, the fields of the two pseudo-transactions they build, and the
    native part of [STAmount] that the fee fields carry. *)

From S2P Require Import Prelude.

(** ** Native amounts: [xrpl/protocol/src/amounts/st_amount.rs] *)

Record STAmount := mkSTAmount { native : bool; st_value : Z; is_negative : bool }.

Definition INITIAL_XRP_DROPS : Z := 100000000000000000.
Definition ST_AMOUNT_MAX_NATIVE_NETWORK : Z := 100000000000000000.

(** [STAmount::from_xrp_amount]: canonicalisation clears the sign of zero and
    throws above the native range. *)
Definition from_xrp_amount (drops : Z) : outcome STAmount :=
  if drops =? 0 then Ok (mkSTAmount true 0 false)
  else if ST_AMOUNT_MAX_NATIVE_NETWORK <? Z.abs drops then Panic
  else Ok (mkSTAmount true (Z.abs drops) (drops <? 0)).

(** [STAmount::xrp]: panics on a non-native amount or one beyond [i64]. *)
Definition xrp (a : STAmount) : outcome Z :=
  if negb (native a) then Panic
  else if 9223372036854775807 <? st_value a then Panic
  else Ok (if is_negative a then - st_value a else st_value a).

(** The drops of an amount built from drops. *)
Lemma xrp_from_xrp_amount drops :
  Z.abs drops <= ST_AMOUNT_MAX_NATIVE_NETWORK ->
  exists a, from_xrp_amount drops = Ok a /\ xrp a = Ok drops.
Proof.
  unfold from_xrp_amount, ST_AMOUNT_MAX_NATIVE_NETWORK. intros H.
  destruct (Z.eqb_spec drops 0) as [->|Hd]; [by eexists|].
  rewrite (proj2 (Z.ltb_ge _ _)) by lia. eexists. split; [done|].
  unfold xrp. cbn [native st_value is_negative negb].
  rewrite (proj2 (Z.ltb_ge _ _)) by lia. destruct (Z.ltb_spec drops 0); f_equal; lia.
Qed.

(** ** Transactions *)

Inductive STTx :=
| ttFEE (ledger_sequence : Z) (base_fee reserve_base reserve_increment : STAmount)
| ttUNL_MODIFY (disabling : bool) (ledger_sequence : Z) (validator : Z).

(** The set a vote is added to: the new set and whether the transaction went in. *)
Class VoteTxSet (S : Type) := add_transaction : STTx -> S -> S * bool.

#[global] Instance vec_tx_set : VoteTxSet (list STTx) := fun tx set => (set ++ [tx], true).
