(* ===== verification/FeeVote.v ===== *)
(** * Fee voting

    [xrpld/app/src/load/fee_vote.rs]: each validator publishes the fees it wants in
    its validations; on a flag ledger the votes of the trusted validations are
    tallied and a fee change is proposed if the tally moves any of the three fees.
    The journal is dropped. Vote counts are [usize]: there are fewer validations
    than the width can count. *)

From S2P Require Import Prelude VoteTxSet.

(** ** Data *)

Record Fees := mkFees { fee_base : Z; fee_reserve : Z; fee_increment : Z }.

Record FeeSetup := mkFeeSetup { reference_fee : Z; account_reserve : Z; owner_reserve : Z }.
Definition default_fee_setup : FeeSetup := mkFeeSetup 10 10000000 2000000.

(** [i64] to [u64], failing on negative amounts. *)
Definition drops_as_u64 (drops : Z) : option Z := if 0 <=? drops then Some drops else None.

Definition to_fees (s : FeeSetup) : outcome Fees :=
  base ← expect (drops_as_u64 (reference_fee s));
  reserve ← expect (drops_as_u64 (account_reserve s));
  increment ← expect (drops_as_u64 (owner_reserve s));
  Ok (mkFees base reserve increment).

(** The trust mark and the three fee fields of a validation. *)
Record STValidation := mkSTValidation {
  is_trusted : bool;
  sfBaseFeeDrops : option STAmount;
  sfReserveBaseDrops : option STAmount;
  sfReserveIncrementDrops : option STAmount
}.

Record FeeVoteLedger := mkFeeVoteLedger { ledger_fees : Fees; ledger_seq : Z }.

(** ** [VotableValue]

    The [BTreeMap] of votes is the list of its entries in key order. *)

Record VotableValue := mkVotable { current : Z; target : Z; vote_map : list (Z * Z) }.

Fixpoint bump (vote : Z) (m : list (Z * Z)) : list (Z * Z) :=
  match m with
  | [] => [(vote, 1)]
  | (k, n) :: m' =>
      match Z.compare vote k with
      | Lt => (vote, 1) :: m
      | Eq => (k, n + 1) :: m'
      | Gt => (k, n) :: bump vote m'
      end
  end.

Definition votable_new (current target : Z) : VotableValue :=
  mkVotable current target (bump target []).

Definition add_vote (vote : Z) (v : VotableValue) : VotableValue :=
  mkVotable (current v) (target v) (bump vote (vote_map v)).

Definition no_vote (v : VotableValue) : VotableValue := add_vote (current v) v.

(** One entry of the loop over the map. *)
Definition vote_step (low high : Z) (best : Z * Z) (entry : Z * Z) : Z * Z :=
  let '(our_vote, weight) := best in
  let '(value, count) := entry in
  if (low <=? value) && (value <=? high) && (weight <? count) then (value, count)
  else (our_vote, weight).

Definition get_votes (v : VotableValue) : Z * bool :=
  let low := Z.min (current v) (target v) in
  let high := Z.max (current v) (target v) in
  let our_vote := fst (foldl (vote_step low high) (current v, 0) (vote_map v)) in
  (our_vote, negb (our_vote =? current v)).

(** ** Publishing and tallying *)

Definition is_legal_amount_signed (drops : Z) : bool :=
  (- INITIAL_XRP_DROPS <=? drops) && (drops <=? INITIAL_XRP_DROPS).

(** The field's value if the validation has it. *)
Definition apply_xrp_vote (field : option STAmount) (value : VotableValue) : outcome VotableValue :=
  match field with
  | None => Ok (no_vote value)
  | Some amount =>
      if negb (native amount) then Ok (no_vote value)
      else
        vote ← xrp amount;
        Ok (if is_legal_amount_signed vote then add_vote vote value else no_vote value)
  end.

(** [i64::try_from] of the ledger's [u64] fees. *)
Definition drops_of_u64 (z : Z) : option Z := if z <=? 9223372036854775807 then Some z else None.

Definition current_fee_schedule (last_fees : Fees) : outcome (Z * Z * Z) :=
  base ← expect (drops_of_u64 (fee_base last_fees));
  reserve ← expect (drops_of_u64 (fee_reserve last_fees));
  increment ← expect (drops_of_u64 (fee_increment last_fees));
  Ok (base, reserve, increment).

(** The new value of one field. *)
Definition vote_xrp_field (field : option STAmount) (current target : Z) : outcome (option STAmount) :=
  if current =? target then Ok field
  else amount ← from_xrp_amount target; Ok (Some amount).

Definition do_validation (setup : FeeSetup) (last_fees : Fees) (v : STValidation)
  : outcome STValidation :=
  '(current_base, current_reserve, current_increment) ← current_fee_schedule last_fees;
  base ← vote_xrp_field (sfBaseFeeDrops v) current_base (reference_fee setup);
  reserve ← vote_xrp_field (sfReserveBaseDrops v) current_reserve (account_reserve setup);
  increment ← vote_xrp_field (sfReserveIncrementDrops v) current_increment (owner_reserve setup);
  Ok (mkSTValidation (is_trusted v) base reserve increment).

(** The three tallies over the trusted validations, in the order of the slice. *)
Definition tally_step (votes : VotableValue * VotableValue * VotableValue) (v : STValidation)
  : outcome (VotableValue * VotableValue * VotableValue) :=
  let '(base, reserve, increment) := votes in
  base ← apply_xrp_vote (sfBaseFeeDrops v) base;
  reserve ← apply_xrp_vote (sfReserveBaseDrops v) reserve;
  increment ← apply_xrp_vote (sfReserveIncrementDrops v) increment;
  Ok (base, reserve, increment).

Definition do_voting {S : Type} `{VoteTxSet S} (setup : FeeSetup) (last_closed_ledger : FeeVoteLedger)
  (parent_validations : list STValidation) (initial_position : S) : outcome S :=
  '(current_base, current_reserve, current_increment)
    ← current_fee_schedule (ledger_fees last_closed_ledger);
  '(base_fee_vote, base_reserve_vote, inc_reserve_vote)
    ← foldM tally_step
        (votable_new current_base (reference_fee setup),
         votable_new current_reserve (account_reserve setup),
         votable_new current_increment (owner_reserve setup))
        (filter (fun v => is_trusted v = true) parent_validations);
  let base_fee := get_votes base_fee_vote in
  let base_reserve := get_votes base_reserve_vote in
  let inc_reserve := get_votes inc_reserve_vote in
  let seq := wrap_u32 (ledger_seq last_closed_ledger + 1) in
  if negb (snd base_fee || snd base_reserve || snd inc_reserve) then Ok initial_position
  else
    a ← from_xrp_amount (fst base_fee);
    b ← from_xrp_amount (fst base_reserve);
    c ← from_xrp_amount (fst inc_reserve);
    Ok (fst (add_transaction (ttFEE seq a b c) initial_position)).

(** ** Tallies *)

(** How many votes a value has. *)
Definition tally (votes : list Z) (v : Z) : Z := Z.of_nat (count_occ Z.eq_dec votes v).

(** The value elected between the current and the target one: the most voted, and
    the least of the most voted. *)
Definition winner (current target : Z) (votes : list Z) (v : Z) : Prop :=
  let low := Z.min current target in
  let high := Z.max current target in
  low <= v <= high
  /\ forall w, low <= w <= high ->
       tally votes w < tally votes v \/ (tally votes w = tally votes v /\ v <= w).

Definition weight (m : list (Z * Z)) (w : Z) : Z :=
  foldr (fun e n => (if fst e =? w then snd e else 0) + n) 0 m.

Definition sorted_map (m : list (Z * Z)) : Prop :=
  StronglySorted (fun a b => fst a < fst b) m /\ Forall (fun e => 0 < snd e) m.

Lemma weight_app m m' w : weight (m ++ m') w = weight m w + weight m' w.
Proof. induction m as [|e m IH]; [done|]. cbn [weight foldr app] in *. unfold weight in *. lia. Qed.

Lemma weight_absent m w : Forall (fun e => fst e <> w) m -> weight m w = 0.
Proof.
  induction 1 as [|e m He _ IH]; [done|]. unfold weight in *. simpl.
  rewrite (proj2 (Z.eqb_neq _ _) He). lia.
Qed.

Lemma bump_weight vote m w :
  weight (bump vote m) w = weight m w + (if vote =? w then 1 else 0).
Proof.
  induction m as [|[k n] m IH]; unfold weight in *; simpl; [lia|].
  destruct (Z.compare_spec vote k) as [->|Hlt|Hgt]; simpl.
  - destruct (k =? w); lia.
  - lia.
  - rewrite IH. lia.
Qed.

Lemma bump_keys vote m (P : Z -> Prop) :
  P vote -> Forall (fun e => P (fst e)) m -> Forall (fun e => P (fst e)) (bump vote m).
Proof.
  intros Hv. induction 1 as [|[k n] m Hk Hm IH]; simpl; [by repeat constructor|].
  destruct (Z.compare vote k); repeat constructor; auto.
Qed.

Lemma bump_sorted vote m : sorted_map m -> sorted_map (bump vote m).
Proof.
  intros [Hs Hc]. induction Hs as [|[k n] m Hs IH Hk]; [by repeat constructor|].
  inversion Hc as [|? ? Hn Hc']; subst. destruct (IH Hc') as [Hs' Hc'']. simpl in *.
  destruct (Z.compare_spec vote k) as [->|Hlt|Hgt].
  - split; constructor; simpl; [done|done|lia|done].
  - split; constructor; simpl; [by constructor| |lia|done].
    constructor; [done|]. eapply Forall_impl; [exact Hk|]. simpl. intros; lia.
  - split; constructor; simpl; [done| |done|done].
    by apply (bump_keys vote m (fun x => k < x)).
Qed.

(** ** The election *)

(** What the loop has found after a part of the map. *)
Definition elected (current low high : Z) (m : list (Z * Z)) (best : Z * Z) : Prop :=
  (best = (current, 0) /\ forall w, low <= w <= high -> weight m w = 0)
  \/ (low <= fst best <= high /\ 0 < snd best /\ weight m (fst best) = snd best
      /\ forall w, low <= w <= high ->
           weight m w < snd best \/ (weight m w = snd best /\ fst best <= w)).

Lemma elected_step current low high m k n best :
  elected current low high m best -> Forall (fun e => fst e < k) m -> 0 < n ->
  elected current low high (m ++ [(k, n)]) (vote_step low high best (k, n)).
Proof.
  intros Hb Hk Hn. destruct best as [v wt]. unfold vote_step.
  assert (forall w, weight (m ++ [(k, n)]) w = weight m w + (if k =? w then n else 0)) as Hw.
  { intros w. rewrite weight_app. unfold weight at 2. simpl. lia. }
  assert (weight m k = 0) as H0.
  { apply weight_absent. eapply Forall_impl; [exact Hk|]. simpl. lia. }
  assert (forall w, weight m w <> 0 -> w < k) as Hlt.
  { intros w Hne. destruct (decide (w < k)) as [|Hge]; [done|]. destruct Hne.
    apply weight_absent. eapply Forall_impl; [exact Hk|]. simpl. lia. }
  destruct ((low <=? k) && (k <=? high) && (wt <? n)) eqn:E.
  - right. simpl. rewrite Hw, H0, Z.eqb_refl. split_and!; [lia..|]. intros w Hr. rewrite Hw.
    destruct (Z.eqb_spec k w) as [->|]; [lia|]. left.
    destruct Hb as [[[= -> ->] Hb]|(Hv & Hp & Hm & Hb)]; simpl in *; [rewrite Hb; lia|].
    destruct (Hb w Hr); lia.
  - destruct Hb as [[[= -> ->] Hb]|(Hv & Hp & Hm & Hb)]; simpl in *.
    + left. split; [done|]. intros w Hr. rewrite Hw, (Hb w Hr).
      destruct (Z.eqb_spec k w) as [->|]; lia.
    + right. simpl. pose proof (Hlt v ltac:(lia)). rewrite Hw, (proj2 (Z.eqb_neq k v)) by lia.
      split_and!; [lia..|]. intros w Hr. rewrite Hw. destruct (Z.eqb_spec k w) as [->|].
      * rewrite H0. lia.
      * rewrite Z.add_0_r. by apply Hb.
Qed.

Lemma elected_fold current low high m :
  sorted_map m -> elected current low high m (foldl (vote_step low high) (current, 0) m).
Proof.
  intros [Hs Hc]. induction m as [|[k n] m IH] using rev_ind; [left; done|].
  apply StronglySorted_app in Hs as (Hlt & Hs & _). apply Forall_app in Hc as [Hc Hn].
  rewrite foldl_app. simpl. apply elected_step; [by apply IH| |by inversion Hn].
  apply Forall_forall. intros e He. apply (Hlt e (k, n)); [done|by left].
Qed.

(** The votes counted into a value are its map. *)
Definition counts (v : VotableValue) (votes : list Z) : Prop :=
  sorted_map (vote_map v) /\ forall w, weight (vote_map v) w = tally votes w.

Lemma tally_cons x votes w : tally (x :: votes) w = tally votes w + (if x =? w then 1 else 0).
Proof.
  unfold tally. simpl. destruct (Z.eq_dec x w) as [->|]; [rewrite Z.eqb_refl; lia|].
  rewrite (proj2 (Z.eqb_neq x w)) by done. lia.
Qed.

Lemma counts_new cur tgt : counts (votable_new cur tgt) [tgt].
Proof.
  split; [apply bump_sorted; split; constructor|]. intros w.
  rewrite tally_cons. simpl. unfold weight. simpl. unfold tally. simpl. lia.
Qed.

Lemma counts_add x v votes : counts v votes -> counts (add_vote x v) (x :: votes).
Proof.
  intros [Hs Hw]. split; [by apply bump_sorted|]. intros w. simpl.
  by rewrite bump_weight, Hw, tally_cons.
Qed.

Lemma get_votes_winner v votes :
  counts v votes -> target v ∈ votes ->
  winner (current v) (target v) votes (fst (get_votes v))
  /\ snd (get_votes v) = negb (fst (get_votes v) =? current v).
Proof.
  intros [Hs Hw] Ht. split; [|done]. unfold get_votes, winner. simpl.
  set (low := Z.min _ _). set (high := Z.max _ _).
  destruct (elected_fold (current v) low high _ Hs) as [[E H0]|(Hr & Hp & Hm & Hb)].
  - assert (0 < tally votes (target v)).
    { unfold tally. apply list_elem_of_In, (count_occ_In Z.eq_dec) in Ht. lia. }
    rewrite <- Hw, H0 in H; lia.
  - split; [done|]. intros w Hrw. rewrite <- !Hw, Hm. by apply Hb.
Qed.

Lemma winner_unique cur tgt votes v v' :
  winner cur tgt votes v -> winner cur tgt votes v' -> v = v'.
Proof.
  intros [Hr Hv] [Hr' Hv']. destruct (Hv v' Hr'), (Hv' v Hr); lia.
Qed.

(** ** The vote of a validation *)

(** A missing, non-native or illegal field counts for the current value. *)
Definition vote_of (cur : Z) (field : option STAmount) : Z :=
  match field with
  | Some amount =>
      if native amount then
        match xrp amount with
        | Ok vote => if is_legal_amount_signed vote then vote else cur
        | _ => cur
        end
      else cur
  | None => cur
  end.

(** A native amount of a field is within [i64], as every decoded amount is. *)
Definition field_ok (field : option STAmount) : bool :=
  match field with
  | Some amount => negb (native amount) || (st_value amount <=? 9223372036854775807)
  | None => true
  end.

Definition validation_ok (v : STValidation) : bool :=
  field_ok (sfBaseFeeDrops v) && field_ok (sfReserveBaseDrops v)
  && field_ok (sfReserveIncrementDrops v).

Lemma apply_xrp_vote_eq field value :
  apply_xrp_vote field value =
    if field_ok field then Ok (add_vote (vote_of (current value) field) value) else Panic.
Proof.
  destruct field as [a|]; [|done]. unfold apply_xrp_vote, field_ok, vote_of, no_vote, xrp.
  destruct (native a); [|done]. simpl. rewrite Z.ltb_antisym. destruct (_ <=? _); [|done]. simpl.
  by destruct (is_legal_amount_signed _).
Qed.

Definition add_votes (cur : Z) (v : VotableValue) (fields : list (option STAmount)) : VotableValue :=
  foldl (fun v f => add_vote (vote_of cur f) v) v fields.

Lemma add_votes_spec cur v fields votes :
  counts v votes ->
  current (add_votes cur v fields) = current v /\ target (add_votes cur v fields) = target v
  /\ counts (add_votes cur v fields) (reverse (vote_of cur <$> fields) ++ votes).
Proof.
  unfold add_votes. revert v votes. induction fields as [|f fields IH]; intros v votes Hc; [done|].
  simpl. destruct (IH _ _ (counts_add (vote_of cur f) v votes Hc)) as (-> & -> & H).
  split_and!; [done..|]. by rewrite reverse_cons, <- app_assoc.
Qed.

(** The tally of one fee: our own target and the votes of the trusted validations. *)
Definition fee_votes (cur tgt : Z) (fields : list (option STAmount)) : list Z :=
  reverse (vote_of cur <$> fields) ++ [tgt].

Lemma fee_votes_winner cur tgt fields :
  let r := get_votes (add_votes cur (votable_new cur tgt) fields) in
  winner cur tgt (fee_votes cur tgt fields) (fst r) /\ snd r = negb (fst r =? cur).
Proof.
  destruct (add_votes_spec cur _ fields _ (counts_new cur tgt)) as (Ec & Et & Hc).
  pose proof (get_votes_winner _ _ Hc) as H. rewrite Ec, Et in H. apply H.
  apply elem_of_app. right. by left.
Qed.

Lemma fee_tally_fold vs a b c :
  foldM tally_step (a, b, c) vs =
    if forallb validation_ok vs then
      Ok (add_votes (current a) a (sfBaseFeeDrops <$> vs),
          add_votes (current b) b (sfReserveBaseDrops <$> vs),
          add_votes (current c) c (sfReserveIncrementDrops <$> vs))
    else Panic.
Proof.
  revert a b c. induction vs as [|v vs IH]; intros a b c; [done|].
  cbn [foldM forallb fmap list_fmap]. unfold tally_step, validation_ok at 1.
  rewrite !apply_xrp_vote_eq.
  destruct (field_ok (sfBaseFeeDrops v)); [|done]. cbn [mbind outcome_bind andb].
  destruct (field_ok (sfReserveBaseDrops v)); [|done]. cbn [mbind outcome_bind andb].
  destruct (field_ok (sfReserveIncrementDrops v)); [|done]. cbn [mbind outcome_bind andb].
  rewrite IH. done.
Qed.

(** Current fees within [i64] give the schedule. *)
Lemma current_fee_schedule_ok f :
  fee_base f <= 9223372036854775807 -> fee_reserve f <= 9223372036854775807 ->
  fee_increment f <= 9223372036854775807 ->
  current_fee_schedule f = Ok (fee_base f, fee_reserve f, fee_increment f).
Proof.
  intros H1 H2 H3. unfold current_fee_schedule, drops_of_u64.
  by rewrite !(proj2 (Z.leb_le _ _)) by done.
Qed.

Lemma votable_new_current cur tgt : current (votable_new cur tgt) = cur.
Proof. done. Qed.

Section Voting.
Context {S : Type} `{VoteTxSet S}.
Implicit Types (setup : FeeSetup) (l : FeeVoteLedger) (vs : list STValidation) (s : S).

Definition trusted (vs : list STValidation) : list STValidation :=
  filter (fun v => is_trusted v = true) vs.

(** Legal amounts of the native currency. *)
Definition legal (drops : Z) : Prop := 0 <= drops <= INITIAL_XRP_DROPS.
Definition fees_legal (f : Fees) : Prop := legal (fee_base f) /\ legal (fee_reserve f) /\ legal (fee_increment f).
Definition setup_legal (s : FeeSetup) : Prop :=
  legal (reference_fee s) /\ legal (account_reserve s) /\ legal (owner_reserve s).

Lemma winner_legal cur tgt votes v :
  legal cur -> legal tgt -> winner cur tgt votes v -> Z.abs v <= ST_AMOUNT_MAX_NATIVE_NETWORK.
Proof. unfold legal, winner, INITIAL_XRP_DROPS, ST_AMOUNT_MAX_NATIVE_NETWORK. lia. Qed.

(** C29: fee voting elects each of the three fees by itself: among the values between the
    current fee and our own target, the one most trusted validations (and we) vote
    for, the least of them on a tie; a validation without a legal vote counts for
    the current fee. Nothing is proposed when all three stay, and otherwise one
    fee transaction for the next ledger with the three elected fees. *)
Theorem fee_voting_spec setup l vs s :
  setup_legal setup -> fees_legal (ledger_fees l) -> Forall (fun v => validation_ok v = true) vs ->
  let f := ledger_fees l in
  let t := trusted vs in
  exists base reserve increment,
    winner (fee_base f) (reference_fee setup)
      (fee_votes (fee_base f) (reference_fee setup) (sfBaseFeeDrops <$> t)) base
    /\ winner (fee_reserve f) (account_reserve setup)
      (fee_votes (fee_reserve f) (account_reserve setup) (sfReserveBaseDrops <$> t)) reserve
    /\ winner (fee_increment f) (owner_reserve setup)
      (fee_votes (fee_increment f) (owner_reserve setup) (sfReserveIncrementDrops <$> t)) increment
    /\ if decide (base = fee_base f /\ reserve = fee_reserve f /\ increment = fee_increment f)
       then do_voting setup l vs s = Ok s
       else exists a b c,
         xrp a = Ok base /\ xrp b = Ok reserve /\ xrp c = Ok increment
         /\ do_voting setup l vs s
            = Ok (fst (add_transaction (ttFEE (wrap_u32 (ledger_seq l + 1)) a b c) s)).
Proof.
  intros (Ht1 & Ht2 & Ht3) (Hf1 & Hf2 & Hf3) Hok f t.
  destruct (fee_votes_winner (fee_base f) (reference_fee setup) (sfBaseFeeDrops <$> t)) as [W1 E1].
  destruct (fee_votes_winner (fee_reserve f) (account_reserve setup) (sfReserveBaseDrops <$> t)) as [W2 E2].
  destruct (fee_votes_winner (fee_increment f) (owner_reserve setup) (sfReserveIncrementDrops <$> t)) as [W3 E3].
  eexists _, _, _. split; [exact W1|]. split; [exact W2|]. split; [exact W3|].
  destruct (xrp_from_xrp_amount _ (winner_legal _ _ _ _ Hf1 Ht1 W1)) as (a & Ea & Ha).
  destruct (xrp_from_xrp_amount _ (winner_legal _ _ _ _ Hf2 Ht2 W2)) as (b & Eb & Hb).
  destruct (xrp_from_xrp_amount _ (winner_legal _ _ _ _ Hf3 Ht3 W3)) as (c & Ec & Hc).
  assert (forallb validation_ok t = true) as Hall.
  { apply forallb_forall. intros v Hv%list_elem_of_In. apply list_elem_of_filter in Hv as [_ Hv].
    rewrite Forall_forall in Hok. by apply Hok. }
  assert (do_voting setup l vs s =
    if negb (snd (get_votes (add_votes (fee_base f) (votable_new (fee_base f) (reference_fee setup)) (sfBaseFeeDrops <$> t)))
      || snd (get_votes (add_votes (fee_reserve f) (votable_new (fee_reserve f) (account_reserve setup)) (sfReserveBaseDrops <$> t)))
      || snd (get_votes (add_votes (fee_increment f) (votable_new (fee_increment f) (owner_reserve setup)) (sfReserveIncrementDrops <$> t))))
    then Ok s else Ok (fst (add_transaction (ttFEE (wrap_u32 (ledger_seq l + 1)) a b c) s))) as ->.
  { unfold do_voting. rewrite current_fee_schedule_ok by (unfold legal, INITIAL_XRP_DROPS in *; lia).
    cbn [mbind outcome_bind]. fold (trusted vs). fold t. rewrite fee_tally_fold, Hall. fold f.
    cbv beta iota zeta delta [mbind outcome_bind]. rewrite !votable_new_current.
    rewrite Ea, Eb, Ec. by destruct (negb _). }
  rewrite E1, E2, E3. clear -Ha Hb Hc.
  destruct (decide _) as [(-> & -> & ->)|Hne]; [by rewrite !Z.eqb_refl|].
  exists a, b, c. split_and!; [done..|].
  match goal with |- (if ?x then _ else _) = _ => destruct x eqn:Hx end; [|done].
  exfalso. apply Hne. apply negb_true_iff, orb_false_iff in Hx as [Hx H3].
  apply orb_false_iff in Hx as [H1 H2]. apply negb_false_iff, Z.eqb_eq in H1, H2, H3. done.
Qed.

Lemma counts_winner_perm cur tgt votes votes' v :
  votes ≡ₚ votes' -> winner cur tgt votes v -> winner cur tgt votes' v.
Proof.
  intros Hp [Hr Hw]. split; [done|]. intros w Hrw. unfold tally in *.
  rewrite <- !(proj1 (Permutation_count_occ Z.eq_dec votes votes') Hp). by apply Hw.
Qed.

Lemma get_votes_perm cur tgt fields fields' :
  fields ≡ₚ fields' ->
  get_votes (add_votes cur (votable_new cur tgt) fields)
  = get_votes (add_votes cur (votable_new cur tgt) fields').
Proof.
  intros Hp. destruct (fee_votes_winner cur tgt fields) as [W E].
  destruct (fee_votes_winner cur tgt fields') as [W' E'].
  assert (fee_votes cur tgt fields ≡ₚ fee_votes cur tgt fields') as Hv.
  { unfold fee_votes. by rewrite !reverse_Permutation, Hp. }
  apply (counts_winner_perm _ _ _ _ _ Hv), (winner_unique _ _ _ _ _ W') in W.
  rewrite (surjective_pairing (get_votes _)), E. rewrite <- W. by rewrite <- E', <- surjective_pairing.
Qed.

(** the order in which the validations of the parent ledger are kept does not
    matter: validators with the same targets that saw the same validations
    propose the same fee transaction, panics included. *)
Theorem fee_voting_order setup l vs vs' s :
  vs ≡ₚ vs' -> do_voting setup l vs s = do_voting setup l vs' s.
Proof.
  intros Hp. unfold do_voting. destruct (current_fee_schedule _) as [[[b r] i]| |]; [|done|done].
  cbn [mbind outcome_bind]. rewrite !fee_tally_fold.
  assert (trusted vs ≡ₚ trusted vs') as Ht by (unfold trusted; by rewrite Hp).
  fold (trusted vs) (trusted vs').
  assert (forallb validation_ok (trusted vs) = forallb validation_ok (trusted vs')) as ->.
  { apply eq_true_iff_eq. rewrite !forallb_forall. setoid_rewrite <- list_elem_of_In. by setoid_rewrite Ht. }
  destruct (forallb _ _); [|done]. cbn [mbind outcome_bind].
  rewrite (get_votes_perm _ _ (sfBaseFeeDrops <$> trusted vs) (sfBaseFeeDrops <$> trusted vs')) by by rewrite Ht.
  rewrite (get_votes_perm _ _ (sfReserveBaseDrops <$> trusted vs) (sfReserveBaseDrops <$> trusted vs')) by by rewrite Ht.
  rewrite (get_votes_perm _ _ (sfReserveIncrementDrops <$> trusted vs) (sfReserveIncrementDrops <$> trusted vs')) by by rewrite Ht.
  done.
Qed.

End Voting.

(** ** A vote *)

Definition demo_amount (drops : Z) : option STAmount := Some (mkSTAmount true drops false).
Definition demo_ledger : FeeVoteLedger := mkFeeVoteLedger (mkFees 10 20000000 5000000) 511.
Definition demo_validations : list STValidation :=
  [ mkSTValidation true None (demo_amount 10000000) (demo_amount 3000000);
    mkSTValidation true (demo_amount 10) (demo_amount 12000000) (demo_amount 3000000);
    mkSTValidation false (demo_amount 500) (demo_amount 500) (demo_amount 500);
    mkSTValidation true None (demo_amount 10000000) None ].

Lemma fee_voting_spec_witness :
  do_voting default_fee_setup demo_ledger demo_validations ([] : list STTx)
    = Ok [ttFEE 512 (mkSTAmount true 10 false) (mkSTAmount true 10000000 false) (mkSTAmount true 3000000 false)]
  /\ exists base, winner 10 10 (fee_votes 10 10 (sfBaseFeeDrops <$> trusted demo_validations)) base.
Proof.
  split; [vm_compute; reflexivity|].
  destruct (fee_voting_spec default_fee_setup demo_ledger demo_validations ([] : list STTx))
    as (base & _ & _ & H & _).
  - unfold setup_legal, legal, INITIAL_XRP_DROPS. simpl. lia.
  - unfold fees_legal, legal, INITIAL_XRP_DROPS. simpl. lia.
  - repeat constructor.
  - exists base. exact H.
Defined.

Lemma fee_voting_order_witness :
  do_voting default_fee_setup demo_ledger (reverse demo_validations) ([] : list STTx)
  = do_voting default_fee_setup demo_ledger demo_validations ([] : list STTx).
Proof. apply fee_voting_order. apply reverse_Permutation. Defined.
