(* ===== verification/NegativeUnl.v ===== *)
(** * Negative UNL voting

    [xrpld/app/src/amendments/negative_unl_vote.rs]: on a flag ledger the node
    measures how many of the last 256 ledgers each validator of its list validated,
    and votes one unreliable validator onto the negative list and one reliable one
    off it. Keys, node identifiers (160 bits) and ledger hashes (256 bits) are the
    numbers their big-endian bytes spell, so that their byte order is [<=]. The
    journal and the lock are dropped; [usize] and unchecked [u32] arithmetic wraps. *)

From S2P Require Import Prelude VoteTxSet.

(** ** Constants and data *)

Definition FLAG_LEDGER_INTERVAL : Z := 256.
Definition NEGATIVE_UNL_LOW_WATER_MARK : Z := FLAG_LEDGER_INTERVAL * 50 / 100.
Definition NEGATIVE_UNL_HIGH_WATER_MARK : Z := FLAG_LEDGER_INTERVAL * 80 / 100.
Definition NEGATIVE_UNL_MIN_LOCAL_VALS_TO_VOTE : Z := FLAG_LEDGER_INTERVAL * 90 / 100.
Definition NEW_VALIDATOR_DISABLE_SKIP : Z := FLAG_LEDGER_INTERVAL * 2.

(** What the vote reads of the previous ledger. *)
Record NegativeUNLLedgerView := mkLedgerView {
  nl_seq : Z;
  nl_hash : Z;
  negative_unl : gset Z;
  validator_to_disable : option Z;
  validator_to_re_enable : option Z;
  recent_ancestor_hashes : option (list Z)
}.

(** The store of validations: both methods take it by mutable reference. *)
Class NegativeUNLVoteValidations (V : Type) := {
  set_seq_to_keep : Z -> Z -> V -> V;
  trusted_keys_for_ledger : Z -> Z -> V -> list Z * V
}.

Inductive NegativeUNLModify := ToDisable | ToReEnable.

Record NegativeUNLCandidates := mkCandidates {
  to_disable_candidates : list Z;
  to_re_enable_candidates : list Z
}.

(** [my_id] never changes; the tracked new validators do. *)
Record NegativeUNLVote := mkVote { my_id : Z; new_validators_map : gmap Z Z }.

(** ** Operations *)

(** The validators trusted from this ledger on. *)
Definition new_validators `{!HashOrder} (seq : Z) (now_trusted : gset Z) (n : NegativeUNLVote)
  : NegativeUNLVote :=
  mkVote (my_id n)
    (foldl (fun tracked node_id =>
        if decide (is_Some (tracked !! node_id)) then tracked else <[node_id := seq]> tracked)
      (new_validators_map n) (hash_set_iter now_trusted)).

(** The first 20 of the hash's 32 bytes. *)
Definition random_pad (random_pad_data : Z) : Z := Z.shiftr random_pad_data 96.

Definition choose (random_pad_data : Z) (candidates : list Z) : outcome Z :=
  match candidates with
  | [] => Panic
  | first :: rest =>
      let pad := random_pad random_pad_data in
      Ok (foldl (fun chosen candidate =>
            if Z.lxor candidate pad <? Z.lxor chosen pad then candidate else chosen) first rest)
  end.

(** [(len as f64 * 0.25).ceil() as usize]: multiplying by a quarter is exact for
    every length below 2^53. *)
Definition max_negative_listed (unl_len : Z) : Z := (unl_len + 3) / 4.

Definition find_all_candidates `{!HashOrder} (n : NegativeUNLVote) (unl neg_unl : gset Z)
  (score_table : gmap Z Z) : NegativeUNLCandidates :=
  let max_negative_listed := max_negative_listed (Z.of_nat (size unl)) in
  let negative_listed :=
    Z.of_nat (length (filter (fun node_id => node_id ∈ neg_unl) (hash_set_iter unl))) in
  let can_add := negative_listed <? max_negative_listed in
  let entries := hash_iter score_table in
  let to_disable :=
    fst <$> filter (fun '(node_id, score) =>
      can_add = true /\ score < NEGATIVE_UNL_LOW_WATER_MARK
      /\ node_id ∉ neg_unl /\ new_validators_map n !! node_id = None) entries in
  let to_re_enable :=
    fst <$> filter (fun '(node_id, score) =>
      NEGATIVE_UNL_HIGH_WATER_MARK < score /\ node_id ∈ neg_unl) entries in
  mkCandidates to_disable
    (match to_re_enable with
     | [] => filter (fun node_id => node_id ∉ unl) (hash_set_iter neg_unl)
     | _ => to_re_enable
     end).

Section Scoring.
Context `{!HashOrder} {V : Type} `{!NegativeUNLVoteValidations V}.
(** [RIPEMD160(SHA256(key))] *)
Context (calc_node_id : Z -> Z).

(** A key of the list, and a key of the negative list, entered with its identifier. *)
Definition unl_step (acc : gset Z * gmap Z Z) (key : Z) : gset Z * gmap Z Z :=
  let '(ids, m) := acc in ({[calc_node_id key]} ∪ ids, <[calc_node_id key := key]> m).

Definition neg_step (acc : gset Z * gmap Z Z) (key : Z) : gset Z * gmap Z Z :=
  let '(ids, m) := acc in
  ({[calc_node_id key]} ∪ ids,
   match m !! calc_node_id key with Some _ => m | None => <[calc_node_id key := key]> m end).

(** One validator's key of one ledger. *)
Definition score_key (table : gmap Z Z) (key : Z) : gmap Z Z :=
  let node_id := calc_node_id key in
  match table !! node_id with
  | Some score => <[node_id := wrap_u32 (score + 1)]> table
  | None => table
  end.

(** The ledger [i] back from the parent. *)
Definition score_ledger (seq : Z) (ancestors : list Z) (acc : gmap Z Z * V) (i : Z)
  : outcome (gmap Z Z * V) :=
  let '(table, vals) := acc in
  ledger_id ← expect (ancestors !! Z.to_nat (Z.of_nat (length ancestors) - 1 - i));
  let '(keys, vals) := trusted_keys_for_ledger ledger_id (wrap_u32 (seq - 2 - i)) vals in
  Ok (foldl score_key table keys, vals).

Definition build_score_table (n : NegativeUNLVote) (prev_ledger : NegativeUNLLedgerView)
  (unl : gset Z) (vals : V) : outcome (option (gmap Z Z) * V) :=
  let seq := wrap_u32 (nl_seq prev_ledger + 1) in
  let vals := set_seq_to_keep (wrap_u32 (seq - 1)) (wrap_u32 (seq + FLAG_LEDGER_INTERVAL)) vals in
  match recent_ancestor_hashes prev_ledger with
  | None => Ok (None, vals)
  | Some ledger_ancestors =>
      if Z.of_nat (length ledger_ancestors) <? FLAG_LEDGER_INTERVAL then Ok (None, vals)
      else
        let score_table := list_to_map ((fun node_id => (node_id, 0)) <$> hash_set_iter unl) in
        '(score_table, vals)
          ← foldM (score_ledger seq ledger_ancestors) (score_table, vals) (seqZ 0 FLAG_LEDGER_INTERVAL);
        let my_validation_count := default 0 (score_table !! my_id n) in
        if my_validation_count <? NEGATIVE_UNL_MIN_LOCAL_VALS_TO_VOTE then Ok (None, vals)
        else if my_validation_count <=? FLAG_LEDGER_INTERVAL then Ok (Some score_table, vals)
        else Ok (None, vals)
  end.

Definition purge_new_validators (seq : Z) (n : NegativeUNLVote) : NegativeUNLVote :=
  mkVote (my_id n)
    (filter (fun '(_, added_seq) => sat_u32 (seq - added_seq) <= NEW_VALIDATOR_DISABLE_SKIP)
      (new_validators_map n)).

Definition add_tx {S : Type} `{VoteTxSet S} (seq public_key : Z) (modify : NegativeUNLModify)
  (initial_set : S) : S :=
  let disabling := match modify with ToDisable => true | ToReEnable => false end in
  fst (add_transaction (ttUNL_MODIFY disabling seq public_key) initial_set).

(** The vote of one kind: nothing without candidates or without the key. *)
Definition vote_one {S : Type} `{VoteTxSet S} (prev_ledger : NegativeUNLLedgerView) (seq : Z)
  (node_id_to_key : gmap Z Z) (candidates : list Z) (modify : NegativeUNLModify) (initial_set : S)
  : outcome S :=
  match candidates with
  | [] => Ok initial_set
  | _ =>
      node_id ← choose (nl_hash prev_ledger) candidates;
      Ok (match node_id_to_key !! node_id with
          | Some public_key => add_tx seq public_key modify initial_set
          | None => initial_set
          end)
  end.

(** The negative list of the next ledger, with the pending changes made. *)
Definition next_negative_unl (prev_ledger : NegativeUNLLedgerView) : gset Z :=
  let neg_unl_keys := negative_unl prev_ledger in
  let neg_unl_keys :=
    match validator_to_disable prev_ledger with
    | Some key => {[key]} ∪ neg_unl_keys
    | None => neg_unl_keys
    end in
  match validator_to_re_enable prev_ledger with
  | Some key => neg_unl_keys ∖ {[key]}
  | None => neg_unl_keys
  end.

Definition do_voting {S : Type} `{VoteTxSet S} (n : NegativeUNLVote)
  (prev_ledger : NegativeUNLLedgerView) (unl_keys : gset Z) (vals : V) (initial_set : S)
  : outcome (NegativeUNLVote * V * S) :=
  let '(unl_node_ids, node_id_to_key) :=
    foldl unl_step (∅, ∅) (hash_set_iter unl_keys) in
  '(score_table, vals) ← build_score_table n prev_ledger unl_node_ids vals;
  match score_table with
  | None => Ok (n, vals, initial_set)
  | Some score_table =>
      let neg_unl_keys := next_negative_unl prev_ledger in
      let '(neg_unl_node_ids, node_id_to_key) :=
        foldl neg_step (∅, node_id_to_key) (hash_set_iter neg_unl_keys) in
      let seq := wrap_u32 (nl_seq prev_ledger + 1) in
      let n := purge_new_validators seq n in
      let candidates := find_all_candidates n unl_node_ids neg_unl_node_ids score_table in
      initial_set
        ← vote_one prev_ledger seq node_id_to_key (to_disable_candidates candidates) ToDisable initial_set;
      initial_set
        ← vote_one prev_ledger seq node_id_to_key (to_re_enable_candidates candidates) ToReEnable initial_set;
      Ok (n, vals, initial_set)
  end.

End Scoring.

(** ** The choice *)

Lemma lxor_cancel a b p : Z.lxor a p = Z.lxor b p -> a = b.
Proof.
  intros E. apply (f_equal (fun x => Z.lxor x p)) in E.
  by rewrite !Z.lxor_assoc, Z.lxor_nilpotent, !Z.lxor_0_r in E.
Qed.

(** The candidate closest to the pad. *)
Definition closest (pad : Z) (candidates : list Z) (x : Z) : Prop :=
  x ∈ candidates /\ forall y, y ∈ candidates -> Z.lxor x pad <= Z.lxor y pad.

Lemma choose_closest h candidates :
  candidates <> [] -> exists x, choose h candidates = Ok x /\ closest (random_pad h) candidates x.
Proof.
  destruct candidates as [|c cs]; [done|]. intros _. eexists. split; [done|].
  generalize (random_pad h) as pad. intros pad. revert c. induction cs as [|d cs IH]; intros c; simpl.
  - split; [by left|]. intros y Hy. apply list_elem_of_singleton in Hy. by subst.
  - destruct (Z.ltb_spec (Z.lxor d pad) (Z.lxor c pad)).
    + destruct (IH d) as [Hin Hmin]. split; [set_solver|].
      intros y [->|Hy]%elem_of_cons; [|by apply Hmin].
      specialize (Hmin d ltac:(left)). lia.
    + destruct (IH c) as [Hin Hmin]. split; [set_solver|].
      intros y [->|[->|Hy]%elem_of_cons]%elem_of_cons.
      * apply Hmin. left.
      * specialize (Hmin c ltac:(left)). lia.
      * apply Hmin. by right.
Qed.

Lemma closest_unique pad candidates x y :
  closest pad candidates x -> closest pad candidates y -> x = y.
Proof.
  intros [Hx Hx'] [Hy Hy']. apply (lxor_cancel _ _ pad). specialize (Hx' _ Hy). specialize (Hy' _ Hx). lia.
Qed.

Lemma choose_perm h l l' : l ≡ₚ l' -> choose h l = choose h l'.
Proof.
  intros Hp. destruct l as [|c cs]; [apply Permutation_nil_l in Hp; by subst|].
  destruct (choose_closest h (c :: cs)) as (x & -> & Hx); [done|].
  destruct (choose_closest h l') as (y & -> & Hy).
  { intros ->. by apply Permutation_nil_r in Hp. }
  f_equal. apply (closest_unique (random_pad h) l'); [|done].
  destruct Hx as [Hin Hmin]. split; [by rewrite <- Hp|]. intros z. rewrite <- Hp. apply Hmin.
Qed.

(** ** The maps and sets of the vote do not depend on the hash order *)

Section Keys.
Context (calc_node_id : Z -> Z).
Notation unl_step := (unl_step calc_node_id).
Notation neg_step := (neg_step calc_node_id).

(** No two of these keys share a node identifier. *)
Definition distinct_ids (keys : gset Z) : Prop :=
  forall k k', k ∈ keys -> k' ∈ keys -> calc_node_id k = calc_node_id k' -> k = k'.

Lemma unl_step_comm acc x y :
  (calc_node_id x = calc_node_id y -> x = y) ->
  unl_step (unl_step acc x) y = unl_step (unl_step acc y) x.
Proof.
  intros Hd. destruct acc as [ids m]. simpl. f_equal; [set_solver|].
  destruct (decide (calc_node_id x = calc_node_id y)) as [E|Hne]; [by rewrite (Hd E)|].
  by apply insert_insert_ne.
Qed.

Lemma neg_step_comm acc x y :
  (calc_node_id x = calc_node_id y -> x = y) ->
  neg_step (neg_step acc x) y = neg_step (neg_step acc y) x.
Proof.
  intros Hd. destruct acc as [ids m]. simpl. f_equal; [set_solver|].
  destruct (decide (calc_node_id x = calc_node_id y)) as [E|Hne]; [by rewrite (Hd E)|].
  destruct (m !! calc_node_id x) eqn:Ex, (m !! calc_node_id y) eqn:Ey;
    rewrite ?lookup_insert_ne, ?Ex, ?Ey by done; try done. by apply insert_insert_ne.
Qed.

(** What the two loops compute, over any list of keys. *)
Lemma unl_fold l ids m :
  fst (foldl unl_step (ids, m) l) = list_to_set (calc_node_id <$> l) ∪ ids.
Proof.
  revert ids m. induction l as [|k l IH]; intros ids m; simpl; [set_solver|]. rewrite IH. set_solver.
Qed.

Lemma neg_fold l ids m :
  fst (foldl neg_step (ids, m) l) = list_to_set (calc_node_id <$> l) ∪ ids.
Proof.
  revert ids m. induction l as [|k l IH]; intros ids m; simpl; [set_solver|]. rewrite IH. set_solver.
Qed.

(** Every entry of the key map is a key under its own identifier. *)
Definition keys_ok (m : gmap Z Z) (P : Z -> Prop) : Prop :=
  forall id k, m !! id = Some k -> calc_node_id k = id /\ P k.

Lemma unl_fold_keys l ids m (P : Z -> Prop) :
  keys_ok m P -> (forall k, k ∈ l -> P k) -> keys_ok (snd (foldl unl_step (ids, m) l)) P.
Proof.
  revert ids m. induction l as [|k l IH]; intros ids m Hm Hl; simpl; [done|].
  apply IH; [|set_solver]. intros id k' [[<- <-]|[_ H]]%lookup_insert_Some; [set_solver|by apply Hm].
Qed.

Lemma neg_fold_keys l ids m (P : Z -> Prop) :
  keys_ok m P -> (forall k, k ∈ l -> P k) -> keys_ok (snd (foldl neg_step (ids, m) l)) P.
Proof.
  revert ids m. induction l as [|k l IH]; intros ids m Hm Hl; simpl; [done|].
  apply IH; [|set_solver]. destruct (m !! _); [done|].
  intros id k' [[<- <-]|[_ H]]%lookup_insert_Some; [set_solver|by apply Hm].
Qed.

End Keys.

(** ** Determinism *)

Lemma candidates_perm (O O' : HashOrder) n unl neg table :
  let c := @find_all_candidates O n unl neg table in
  let c' := @find_all_candidates O' n unl neg table in
  to_disable_candidates c ≡ₚ to_disable_candidates c'
  /\ to_re_enable_candidates c ≡ₚ to_re_enable_candidates c'.
Proof.
  assert (forall X : gset Z, @hash_set_iter O _ _ _ X ≡ₚ @hash_set_iter O' _ _ _ X) as Hset.
  { intros X. by rewrite !hash_set_iter_perm. }
  assert (@hash_iter O _ _ _ _ table ≡ₚ @hash_iter O' _ _ _ _ table) as Hmap.
  { by rewrite !hash_iter_perm. }
  unfold find_all_candidates. simpl.
  replace (length (filter (fun id => id ∈ neg) (@hash_set_iter O' _ _ _ unl)))
    with (length (filter (fun id => id ∈ neg) (@hash_set_iter O _ _ _ unl)))
    by (by rewrite (Hset unl)).
  split; [by rewrite Hmap|].
  match goal with |- match ?a with _ => _ end ≡ₚ match ?b with _ => _ end =>
    assert (a ≡ₚ b) as Hab by (by rewrite Hmap); destruct a as [|x l] eqn:Ea end.
  - apply Permutation_nil_l in Hab. rewrite <- Hab. by rewrite (Hset neg).
  - match goal with |- _ ≡ₚ match ?b with _ => _ end => destruct b eqn:Eb end; [|done].
    by apply Permutation_nil_r in Hab.
Qed.

Lemma vote_one_perm {S} `{VoteTxSet S} prev seq m l l' modify (s : S) :
  l ≡ₚ l' -> vote_one prev seq m l modify s = vote_one prev seq m l' modify s.
Proof.
  intros Hp. unfold vote_one. rewrite (choose_perm _ _ _ Hp).
  destruct l; [by apply Permutation_nil_l in Hp; subst|]. destruct l'; [|done].
  by apply Permutation_nil_r in Hp.
Qed.

Section Determinism.
Context {V : Type} `{!NegativeUNLVoteValidations V} (calc_node_id : Z -> Z).

Lemma build_score_table_order (O O' : HashOrder) n prev unl (vals : V) :
  @build_score_table O V _ calc_node_id n prev unl vals
  = @build_score_table O' V _ calc_node_id n prev unl vals.
Proof.
  unfold build_score_table. destruct (recent_ancestor_hashes prev); [|done].
  destruct (_ <? _); [done|]. do 2 f_equal. f_equal.
  apply list_to_map_proper.
  - rewrite <- list_fmap_compose. rewrite (hash_set_iter_perm _ unl). simpl.
    rewrite list_fmap_id. apply NoDup_elements.
  - by rewrite !hash_set_iter_perm.
Qed.

Lemma unl_fold_order (O O' : HashOrder) keys :
  distinct_ids calc_node_id keys ->
  foldl (unl_step calc_node_id) (∅, ∅) (@hash_set_iter O _ _ _ keys)
  = foldl (unl_step calc_node_id) (∅, ∅) (@hash_set_iter O' _ _ _ keys).
Proof.
  intros Hd. apply foldl_perm_comm; [|by rewrite !hash_set_iter_perm].
  intros acc x y. rewrite hash_set_iter_perm, !elem_of_elements. intros Hx Hy.
  apply unl_step_comm. by apply Hd.
Qed.

Lemma neg_fold_order (O O' : HashOrder) keys ids m :
  distinct_ids calc_node_id keys ->
  foldl (neg_step calc_node_id) (ids, m) (@hash_set_iter O _ _ _ keys)
  = foldl (neg_step calc_node_id) (ids, m) (@hash_set_iter O' _ _ _ keys).
Proof.
  intros Hd. apply foldl_perm_comm; [|by rewrite !hash_set_iter_perm].
  intros acc x y. rewrite hash_set_iter_perm, !elem_of_elements. intros Hx Hy.
  apply neg_step_comm. by apply Hd.
Qed.

End Determinism.

(** ** Scores *)

Section Scores.
Context `{!HashOrder} {V : Type} `{!NegativeUNLVoteValidations V} (calc_node_id : Z -> Z).

(** The keys the validations store answers for the ledgers asked about, in order. *)
Fixpoint polled (seq : Z) (ancestors : list Z) (steps : list Z) (vals : V) : list Z * V :=
  match steps with
  | [] => ([], vals)
  | i :: steps =>
      let ledger_id := nth (Z.to_nat (Z.of_nat (length ancestors) - 1 - i)) ancestors 0 in
      let '(keys, vals) := trusted_keys_for_ledger ledger_id (wrap_u32 (seq - 2 - i)) vals in
      let '(rest, vals) := polled seq ancestors steps vals in
      (keys ++ rest, vals)
  end.

(** How many of the keys have this node identifier. *)
Definition appearances (keys : list Z) (id : Z) : Z :=
  Z.of_nat (length (filter (fun k => calc_node_id k = id) keys)).

Lemma appearances_cons k keys id :
  appearances (k :: keys) id = (if decide (calc_node_id k = id) then 1 else 0) + appearances keys id.
Proof. unfold appearances. rewrite filter_cons. case_decide; simpl length; lia. Qed.

Lemma score_key_fold keys table id :
  (forall id s, table !! id = Some s -> in_u32 s) ->
  foldl (score_key calc_node_id) table keys !! id
  = (fun s => wrap_u32 (s + appearances keys id)) <$> table !! id.
Proof.
  revert table. induction keys as [|k keys IH]; intros table Ht; simpl.
  - destruct (table !! id) as [s|] eqn:E; [|done]. simpl. f_equal. unfold appearances. simpl.
    rewrite Z.add_0_r. symmetry. apply wrap_u32_id. by eapply Ht.
  - rewrite IH; clear IH.
    + rewrite appearances_cons. unfold score_key. destruct (table !! calc_node_id k) as [s|] eqn:E.
      * case_decide as Hid; [subst id; rewrite lookup_insert_eq, E|by rewrite lookup_insert_ne].
        simpl. f_equal. unfold wrap_u32. rewrite Zplus_mod_idemp_l. f_equal. lia.
      * case_decide as Hid; [subst id; by rewrite E|done].
    + intros id' s'. unfold score_key. destruct (table !! calc_node_id k); [|apply Ht].
      intros [[<- <-]|[_ Hs]]%lookup_insert_Some; [apply wrap_u32_range|by eapply Ht].
Qed.

Lemma score_ledgers steps seq ancestors table (vals : V) :
  Forall (fun i => 0 <= i < Z.of_nat (length ancestors)) steps ->
  foldM (score_ledger calc_node_id seq ancestors) (table, vals) steps
  = Ok (foldl (score_key calc_node_id) table (fst (polled seq ancestors steps vals)),
        snd (polled seq ancestors steps vals)).
Proof.
  intros His. revert table vals. induction His as [|i steps Hi _ IH]; intros table vals; [done|]. simpl.
  destruct (lookup_lt_is_Some_2 ancestors (Z.to_nat (Z.of_nat (length ancestors) - 1 - i))) as [id Hid];
    [lia|].
  rewrite Hid. simpl. rewrite (nth_lookup_Some _ _ _ _ Hid).
  destruct (trusted_keys_for_ledger _ _ vals) as [keys vals']. simpl. rewrite IH.
  destruct (polled seq ancestors steps vals') as [rest vals'']. simpl. by rewrite foldl_app.
Qed.

(** The table the scores start from, and the one they end in. *)
Lemma score_table_lookup unl keys id :
  foldl (score_key calc_node_id) (list_to_map ((fun id => (id, 0)) <$> hash_set_iter unl)) keys !! id
  = if decide (id ∈ unl) then Some (wrap_u32 (appearances keys id)) else None.
Proof.
  rewrite score_key_fold.
  - case_decide as Hid.
    + rewrite (elem_of_list_to_map_1 _ id 0); [done|..].
      * rewrite <- list_fmap_compose, (hash_set_iter_perm _ unl). simpl.
        rewrite list_fmap_id. apply NoDup_elements.
      * apply list_elem_of_fmap. exists id. split; [done|]. by rewrite hash_set_iter_perm, elem_of_elements.
    + rewrite not_elem_of_list_to_map_1; [done|]. rewrite <- list_fmap_compose. simpl.
      rewrite list_fmap_id, hash_set_iter_perm. by rewrite elem_of_elements.
  - intros id' s Hs%elem_of_list_to_map_2. apply list_elem_of_fmap in Hs as (? & [= -> ->] & _). machine.
Qed.

Lemma score_table_total n prev unl (vals : V) :
  exists o vals', build_score_table calc_node_id n prev unl vals = Ok (o, vals').
Proof.
  unfold build_score_table. destruct (recent_ancestor_hashes prev) as [ancestors|]; [|by eexists _, _].
  change FLAG_LEDGER_INTERVAL with 256.
  destruct (Z.ltb_spec (Z.of_nat (length ancestors)) 256); [by eexists _, _|].
  rewrite score_ledgers by (apply Forall_seqZ; lia). cbn [mbind outcome_bind].
  destruct (_ <? _); [by eexists _, _|]. destruct (_ <=? _); by eexists _, _.
Qed.

(** the reliability score of a validator is the number of the last 256 ledgers for
    which the store has its trusted validation. Without that much history there
    is no score; nor is there one when our own score says that this node itself
    was away (below 90 percent) or was counted twice. *)
Theorem score_table_spec n prev unl (vals : V) :
  let seq := wrap_u32 (nl_seq prev + 1) in
  let kept := set_seq_to_keep (wrap_u32 (seq - 1)) (wrap_u32 (seq + FLAG_LEDGER_INTERVAL)) vals in
  match recent_ancestor_hashes prev with
  | Some ancestors =>
      if decide (256 <= Z.of_nat (length ancestors)) then
        let keys := fst (polled seq ancestors (seqZ 0 256) kept) in
        let own := if decide (my_id n ∈ unl) then wrap_u32 (appearances keys (my_id n)) else 0 in
        exists table,
          (forall id, table !! id
             = if decide (id ∈ unl) then Some (wrap_u32 (appearances keys id)) else None)
          /\ build_score_table calc_node_id n prev unl vals
             = Ok (if decide (230 <= own <= 256) then Some table else None,
                   snd (polled seq ancestors (seqZ 0 256) kept))
      else build_score_table calc_node_id n prev unl vals = Ok (None, kept)
  | None => build_score_table calc_node_id n prev unl vals = Ok (None, kept)
  end.
Proof.
  cbv zeta. unfold build_score_table. destruct (recent_ancestor_hashes prev) as [ancestors|]; [|done].
  change FLAG_LEDGER_INTERVAL with 256.
  destruct (Z.ltb_spec (Z.of_nat (length ancestors)) 256); [by rewrite decide_False by lia|].
  rewrite decide_True by lia. rewrite score_ledgers by (apply Forall_seqZ; lia).
  cbn [mbind outcome_bind].
  eexists. split; [intros id; apply score_table_lookup|].
  rewrite score_table_lookup. change NEGATIVE_UNL_MIN_LOCAL_VALS_TO_VOTE with 230.
  set (c := appearances _ _). replace (default 0 _) with (if decide (my_id n ∈ unl) then wrap_u32 c else 0)
    by (by destruct (decide (my_id n ∈ unl))).
  set (own := if decide (my_id n ∈ unl) then _ else _).
  destruct (Z.ltb_spec own 230); [by rewrite decide_False by lia|].
  destruct (Z.leb_spec own 256); [by rewrite decide_True by lia|by rewrite decide_False by lia].
Qed.

End Scores.

Section Identifiers.
Context `{!HashOrder} (calc_node_id : Z -> Z).

(** The identifiers of a set of keys. *)
Definition node_ids (keys : gset Z) : gset Z := list_to_set (calc_node_id <$> hash_set_iter keys).

Lemma elem_of_node_ids keys id : id ∈ node_ids keys <-> exists k, k ∈ keys /\ calc_node_id k = id.
Proof.
  unfold node_ids. rewrite elem_of_list_to_set, list_elem_of_fmap.
  setoid_rewrite (hash_set_iter_perm _ keys). setoid_rewrite elem_of_elements. naive_solver.
Qed.

End Identifiers.

(** ** Two validators *)

Section Agreement.
Context (calc_node_id : Z -> Z).

(** Which validators are tracked matters only for those with a score. *)
Lemma candidates_tracked `{!HashOrder} n n' unl neg table :
  (forall id, is_Some (table !! id) ->
     is_Some (new_validators_map n !! id) <-> is_Some (new_validators_map n' !! id)) ->
  find_all_candidates n unl neg table = find_all_candidates n' unl neg table.
Proof.
  intros Ht. unfold find_all_candidates. f_equal. f_equal. apply filter_ext_elem. intros [id score] Hin.
  rewrite hash_iter_perm, elem_of_map_to_list in Hin.
  specialize (Ht id ltac:(eauto)). rewrite <- !not_eq_None_Some in Ht.
  destruct (new_validators_map n !! id), (new_validators_map n' !! id); naive_solver.
Qed.

(** The vote of a validator with this score table. *)
Definition cast {S} `{VoteTxSet S} (O : HashOrder) n prev unl table (s : S) : outcome S :=
  let '(ids, m) := foldl (unl_step calc_node_id) (∅, ∅) (@hash_set_iter O _ _ _ unl) in
  let '(neg, m') := foldl (neg_step calc_node_id) (∅, m)
                      (@hash_set_iter O _ _ _ (next_negative_unl prev)) in
  let seq := wrap_u32 (nl_seq prev + 1) in
  let c := @find_all_candidates O (purge_new_validators seq n) ids neg table in
  s' ← vote_one prev seq m' (to_disable_candidates c) ToDisable s;
  vote_one prev seq m' (to_re_enable_candidates c) ToReEnable s'.

Lemma vote_one_total {S} `{VoteTxSet S} prev seq m l modify (s : S) :
  exists s', vote_one prev seq m l modify s = Ok s'.
Proof.
  unfold vote_one. destruct l as [|c cs]; [eauto|].
  destruct (choose_closest (nl_hash prev) (c :: cs)) as (id & -> & _); [done|]. simpl. eauto.
Qed.

Lemma cast_total {S} `{VoteTxSet S} O n prev unl table (s : S) : exists s', cast O n prev unl table s = Ok s'.
Proof.
  unfold cast. destruct (foldl _ _ (hash_set_iter unl)) as [ids m].
  destruct (foldl _ _ (hash_set_iter (next_negative_unl prev))) as [neg m'].
  destruct (vote_one_total prev (wrap_u32 (nl_seq prev + 1)) m' (to_disable_candidates
    (find_all_candidates (purge_new_validators (wrap_u32 (nl_seq prev + 1)) n) ids neg table)) ToDisable s)
    as [s' ->].
  apply vote_one_total.
Qed.

Lemma cast_agree {S} `{VoteTxSet S} (O O' : HashOrder) n n' prev unl table (s : S) :
  let tracked n := new_validators_map (purge_new_validators (wrap_u32 (nl_seq prev + 1)) n) in
  distinct_ids calc_node_id unl -> distinct_ids calc_node_id (next_negative_unl prev) ->
  (forall id, is_Some (table !! id) -> is_Some (tracked n !! id) <-> is_Some (tracked n' !! id)) ->
  cast O n prev unl table s = cast O' n' prev unl table s.
Proof.
  intros tracked Hu Hn Ht. unfold cast. rewrite (unl_fold_order calc_node_id O O' unl Hu).
  destruct (foldl (unl_step calc_node_id) (∅, ∅) _) as [ids m].
  rewrite (neg_fold_order calc_node_id O O' (next_negative_unl prev)) by done.
  destruct (foldl (neg_step calc_node_id) (∅, m) _) as [neg m'].
  rewrite <- (candidates_tracked _ (purge_new_validators _ n') ids neg table Ht).
  destruct (candidates_perm O O' (purge_new_validators (wrap_u32 (nl_seq prev + 1)) n) ids neg table)
    as [Hd Hr].
  rewrite (vote_one_perm _ _ _ _ _ _ _ Hd).
  destruct (vote_one _ _ _ (to_disable_candidates _) _ _) as [s'| |]; [|done..]. cbn [mbind outcome_bind].
  by rewrite (vote_one_perm _ _ _ _ _ _ _ Hr).
Qed.

(** The trusted keys a store answers for the last 256 ledgers. *)
Definition heard {V} `{!NegativeUNLVoteValidations V} (prev : NegativeUNLLedgerView) (vals : V) : list Z :=
  let seq := wrap_u32 (nl_seq prev + 1) in
  fst (polled seq (default [] (recent_ancestor_hashes prev)) (seqZ 0 256)
    (set_seq_to_keep (wrap_u32 (seq - 1)) (wrap_u32 (seq + FLAG_LEDGER_INTERVAL)) vals)).

(** The validator knows the last 256 ledgers, is on the list, and validated at least 90
    percent of them. *)
Definition takes_part {V} `{!NegativeUNLVoteValidations V} n prev (unl : gset Z) (vals : V) : Prop :=
  (exists ancestors, recent_ancestor_hashes prev = Some ancestors /\ 256 <= Z.of_nat (length ancestors))
  /\ (exists key, key ∈ unl /\ calc_node_id key = my_id n)
  /\ 230 <= wrap_u32 (appearances calc_node_id (heard prev vals) (my_id n)) <= 256.

Lemma score_table_cases {V} `{!NegativeUNLVoteValidations V} (O : HashOrder) n prev unl (vals : V) :
  exists table w,
    (forall id, table !! id = if decide (id ∈ node_ids calc_node_id unl)
       then Some (wrap_u32 (appearances calc_node_id (heard prev vals) id)) else None)
    /\ (takes_part n prev unl vals
        /\ build_score_table calc_node_id n prev (node_ids calc_node_id unl) vals = Ok (Some table, w)
        \/ ~ takes_part n prev unl vals
           /\ build_score_table calc_node_id n prev (node_ids calc_node_id unl) vals = Ok (None, w)).
Proof.
  pose proof (score_table_spec calc_node_id n prev (node_ids calc_node_id unl) vals) as Hs. cbv zeta in Hs.
  pose (T := foldl (score_key calc_node_id)
    (list_to_map ((fun id => (id, 0)) <$> hash_set_iter (node_ids calc_node_id unl))) (heard prev vals)).
  assert (forall id, T !! id = if decide (id ∈ node_ids calc_node_id unl)
    then Some (wrap_u32 (appearances calc_node_id (heard prev vals) id)) else None) as HT
    by (intros id; apply score_table_lookup).
  assert (my_id n ∈ node_ids calc_node_id unl <-> exists key, key ∈ unl /\ calc_node_id key = my_id n)
    as Hid by apply elem_of_node_ids.
  exists T. unfold takes_part. unfold heard in HT |- *.
  destruct (recent_ancestor_hashes prev) as [ancestors|]; cbn [default] in *; unfold id in *.
  2: { eexists. split; [exact HT|]. right. split; [|exact Hs]. by intros [(? & ? & _) _]. }
  case_decide as Hlen.
  2: { eexists. split; [exact HT|]. right. split; [|exact Hs]. intros [(? & [= <-] & ?) _]. done. }
  destruct Hs as (table & Htab & Hs). eexists. split; [exact HT|].
  assert (table = T) as -> by (apply map_eq; intros id; by rewrite Htab, HT).
  case_decide as Hown.
  - left. split; [|exact Hs]. case_decide as Hmem; [|lia].
    split_and!; [by exists ancestors|by apply Hid|apply Hown..].
  - right. split; [|exact Hs]. intros (_ & Hmem%Hid & Hrange). apply Hown.
    by rewrite decide_True.
Qed.

Lemma do_voting_cases {S} `{VoteTxSet S} {V} `{!NegativeUNLVoteValidations V} (O : HashOrder)
    n prev unl (vals : V) (s : S) :
  exists table w,
    (forall id, table !! id = if decide (id ∈ node_ids calc_node_id unl)
       then Some (wrap_u32 (appearances calc_node_id (heard prev vals) id)) else None)
    /\ (takes_part n prev unl vals
        /\ do_voting calc_node_id n prev unl vals s
            = (r ← cast O n prev unl table s;
               Ok (purge_new_validators (wrap_u32 (nl_seq prev + 1)) n, w, r))
        \/ ~ takes_part n prev unl vals /\ do_voting calc_node_id n prev unl vals s = Ok (n, w, s)).
Proof.
  pose proof (unl_fold calc_node_id (hash_set_iter unl) ∅ ∅) as Hids.
  destruct (score_table_cases O n prev unl vals) as (table & w & Ht & Hcase).
  exists table, w. split; [exact Ht|]. unfold do_voting, cast.
  destruct (foldl (unl_step calc_node_id) (∅, ∅) (hash_set_iter unl)) as [ids m]. simpl in Hids.
  rewrite union_empty_r_L in Hids. fold (node_ids calc_node_id unl) in Hids. subst ids.
  destruct Hcase as [[Hp ->]|[Hp ->]]; [left|by right]. split; [done|]. cbn [mbind outcome_bind].
  destruct (foldl (neg_step calc_node_id) (∅, m) _) as [neg m'].
  by destruct (vote_one _ _ _ (to_disable_candidates _) _ _).
Qed.

(** C23: validators that take part agree on the negative-list vote. Take two validators
    with the same previous ledger, list and set to vote into, no two of whose keys share
    a node identifier. Their identities, their stores of validations, the hash order of
    their maps and the sequences they track new validators under may differ, as long as
    for each validator of the list both have heard as many validations over the last 256
    ledgers and both or neither still track it as new. Then both calls return; one that
    lacks the ledgers, is not on the list, or was itself heard for less than 90 percent
    of them or more than once per ledger adds nothing; and two that do take part add the
    same transactions. *)
Theorem neg_unl_vote_deterministic {S} `{VoteTxSet S} {V V'} `{!NegativeUNLVoteValidations V}
    `{!NegativeUNLVoteValidations V'} (O O' : HashOrder) n n' prev unl (vals : V) (vals' : V') (s : S) :
  let tracked n := new_validators_map (purge_new_validators (wrap_u32 (nl_seq prev + 1)) n) in
  distinct_ids calc_node_id unl -> distinct_ids calc_node_id (next_negative_unl prev) ->
  (forall key, key ∈ unl ->
     appearances calc_node_id (heard prev vals) (calc_node_id key)
       = appearances calc_node_id (heard prev vals') (calc_node_id key)
     /\ (is_Some (tracked n !! calc_node_id key) <-> is_Some (tracked n' !! calc_node_id key))) ->
  exists m w r m' w' r',
    @do_voting O V _ calc_node_id S _ n prev unl vals s = Ok (m, w, r)
    /\ @do_voting O' V' _ calc_node_id S _ n' prev unl vals' s = Ok (m', w', r')
    /\ (~ takes_part n prev unl vals -> r = s) /\ (~ takes_part n' prev unl vals' -> r' = s)
    /\ (takes_part n prev unl vals -> takes_part n' prev unl vals' -> r = r').
Proof.
  intros tracked Hu Hn Hsame.
  destruct (do_voting_cases O n prev unl vals s) as (table & w & Ht & Hc).
  destruct (do_voting_cases O' n' prev unl vals' s) as (table' & w' & Ht' & Hc').
  destruct (cast_total O n prev unl table s) as [r Er].
  assert (cast O' n' prev unl table' s = Ok r) as Er'.
  { rewrite <- Er. assert (table' = table) as ->.
    - apply map_eq. intros id. rewrite Ht, Ht', (decide_ext (id ∈ @node_ids O' _ _) (id ∈ @node_ids O _ _))
        by (by rewrite !elem_of_node_ids).
      case_decide as Hd; [|done]. apply elem_of_node_ids in Hd as (key & Hk & <-).
      by rewrite (proj1 (Hsame key Hk)).
    - symmetry. apply cast_agree; [done|done|]. intros id. rewrite Ht. case_decide as Hd; [|by intros []].
      intros _. apply elem_of_node_ids in Hd as (key & Hk & <-). apply (Hsame key Hk). }
  rewrite Er in Hc. rewrite Er' in Hc'.
  destruct Hc as [[Hp ->]|[Hp ->]], Hc' as [[Hp' ->]|[Hp' ->]]; do 6 eexists; split_and!;
    try reflexivity; naive_solver.
Qed.

End Agreement.

(** ** Soundness of the vote *)

Section Soundness.
Context `{!HashOrder} {V : Type} `{!NegativeUNLVoteValidations V} (calc_node_id : Z -> Z).
Notation node_ids := (node_ids calc_node_id).

Lemma elements_node_ids keys :
  distinct_ids calc_node_id keys -> elements (node_ids keys) ≡ₚ calc_node_id <$> elements keys.
Proof.
  intros Hd. apply NoDup_Permutation; [apply NoDup_elements| |].
  - apply NoDup_fmap_2_strong; [|apply NoDup_elements].
    intros x y. rewrite !elem_of_elements. apply Hd.
  - intros id. rewrite elem_of_elements, elem_of_node_ids, list_elem_of_fmap.
    setoid_rewrite elem_of_elements. naive_solver.
Qed.

Lemma size_node_ids keys : distinct_ids calc_node_id keys -> size (node_ids keys) = size keys.
Proof.
  intros Hd. unfold size, set_size. simpl. rewrite (elements_node_ids keys Hd). by rewrite length_fmap.
Qed.

Lemma distinct_ids_mono X Y : X ⊆ Y -> distinct_ids calc_node_id Y -> distinct_ids calc_node_id X.
Proof. intros HX HY k k' Hk Hk'. apply HY; set_solver. Qed.

Lemma node_ids_shared unl neg k :
  distinct_ids calc_node_id (unl ∪ neg) -> k ∈ unl -> calc_node_id k ∈ node_ids neg <-> k ∈ neg.
Proof.
  intros Hd Hk. rewrite elem_of_node_ids. split; [|eauto].
  intros (k' & Hk' & E). rewrite <- (Hd k' k) by (done || set_solver). done.
Qed.

Lemma length_filter_fmap (f : Z -> Z) (X : gset Z) l :
  length (filter (fun id => id ∈ X) (f <$> l)) = length (filter (fun k => f k ∈ X) l).
Proof.
  induction l as [|k l IH]; [done|]. rewrite fmap_cons, !filter_cons.
  case_decide; simpl length; by rewrite IH.
Qed.

(** The listed part of our list, counted by identifiers and by keys. *)
Lemma listed_count unl neg :
  distinct_ids calc_node_id (unl ∪ neg) ->
  length (filter (fun id => id ∈ node_ids neg) (hash_set_iter (node_ids unl))) = size (unl ∩ neg).
Proof.
  intros Hd. rewrite hash_set_iter_perm, elements_node_ids
    by (by eapply distinct_ids_mono; [|exact Hd]; set_solver).
  rewrite length_filter_fmap. unfold size, set_size. simpl. apply Permutation_length.
  apply NoDup_Permutation; [apply NoDup_filter, NoDup_elements|apply NoDup_elements|].
  intros k. rewrite list_elem_of_filter, !elem_of_elements, elem_of_intersection. simpl. split.
  - intros [Hn Hk]. split; [done|]. by apply (node_ids_shared unl neg k Hd Hk).
  - intros [Hk Hn]. split; [|done]. by apply (node_ids_shared unl neg k Hd Hk).
Qed.

Lemma disable_candidate n unl neg table id :
  distinct_ids calc_node_id (unl ∪ neg) ->
  id ∈ to_disable_candidates (find_all_candidates n (node_ids unl) (node_ids neg) table) ->
  exists score, table !! id = Some score /\ score < 128 /\ id ∉ node_ids neg
    /\ new_validators_map n !! id = None
    /\ Z.of_nat (size (unl ∩ neg)) + 1 <= max_negative_listed (Z.of_nat (size unl)).
Proof.
  intros Hd. unfold find_all_candidates. cbn [to_disable_candidates].
  rewrite listed_count, size_node_ids by (done || by eapply distinct_ids_mono; [|exact Hd]; set_solver).
  rewrite list_elem_of_fmap. intros ([id' score] & -> & Hf). apply list_elem_of_filter in Hf as [Hf Hin].
  rewrite hash_iter_perm, elem_of_map_to_list in Hin. simpl. exists score.
  destruct Hf as (Hadd & Hs & Hn & Hnew). split_and!; [done|exact Hs|done|done|lia].
Qed.

Lemma re_enable_candidate n unl neg table id :
  id ∈ to_re_enable_candidates (find_all_candidates n unl neg table) ->
  id ∈ neg /\ ((exists score, table !! id = Some score /\ 204 < score) \/ id ∉ unl).
Proof.
  unfold find_all_candidates. cbn [to_re_enable_candidates].
  match goal with |- id ∈ match ?l with _ => _ end -> _ => destruct l as [|x l'] eqn:E end.
  - intros [Hn Hin]%list_elem_of_filter. rewrite hash_set_iter_perm, elem_of_elements in Hin. auto.
  - rewrite <- E. rewrite list_elem_of_fmap. intros ([id' score] & -> & Hf).
    apply list_elem_of_filter in Hf as [[Hs Hn] Hin].
    rewrite hash_iter_perm, elem_of_map_to_list in Hin. simpl. split; [done|]. left. by exists score.
Qed.

(** At most one transaction, for a candidate and under its own key. *)
Lemma vote_one_spec prev seq m l modify (txs : list STTx) (P : Z -> Prop) :
  keys_ok calc_node_id m P ->
  exists new, vote_one prev seq m l modify txs = Ok (txs ++ new) /\ (length new <= 1)%nat
    /\ forall tx, tx ∈ new -> exists key, calc_node_id key ∈ l /\ P key
         /\ tx = ttUNL_MODIFY (match modify with ToDisable => true | ToReEnable => false end) seq key.
Proof.
  intros Hm. unfold vote_one. destruct l as [|c cs].
  { exists []. rewrite app_nil_r. split_and!; [done|simpl; lia|set_solver]. }
  destruct (choose_closest (nl_hash prev) (c :: cs)) as (id & -> & Hin & _); [done|]. simpl.
  destruct (m !! id) as [key|] eqn:E.
  - destruct (Hm _ _ E) as [Hid HP]. eexists [_]. split_and!; [done|simpl; lia|].
    intros tx ->%list_elem_of_singleton. exists key. by rewrite Hid.
  - exists []. rewrite app_nil_r. split_and!; [done|simpl; lia|set_solver].
Qed.

(** Everything a vote does. *)
Lemma neg_unl_vote_ok n prev unl (vals : V) :
  let neg := next_negative_unl prev in
  let seq := wrap_u32 (nl_seq prev + 1) in
  distinct_ids calc_node_id (unl ∪ neg) ->
  exists n' vals' disable re_enable,
    do_voting calc_node_id n prev unl vals ([] : list STTx) = Ok (n', vals', disable ++ re_enable)
    /\ (n' = n \/ n' = purge_new_validators seq n)
    /\ (length disable <= 1)%nat /\ (length re_enable <= 1)%nat
    /\ (forall tx, tx ∈ disable -> exists key score scores,
          tx = ttUNL_MODIFY true seq key /\ key ∈ unl /\ key ∉ neg
          /\ build_score_table calc_node_id n prev (node_ids unl) vals = Ok (Some scores, vals')
          /\ scores !! calc_node_id key = Some score /\ score < 128
          /\ new_validators_map n' !! calc_node_id key = None
          /\ Z.of_nat (size (unl ∩ neg)) + 1 <= max_negative_listed (Z.of_nat (size unl)))
    /\ (forall tx, tx ∈ re_enable -> exists key,
          tx = ttUNL_MODIFY false seq key /\ key ∈ neg
          /\ (key ∉ unl \/ exists score scores,
                build_score_table calc_node_id n prev (node_ids unl) vals = Ok (Some scores, vals')
                /\ scores !! calc_node_id key = Some score /\ 204 < score)).
Proof.
  intros neg seq Hd. unfold do_voting.
  pose proof (unl_fold calc_node_id (hash_set_iter unl) ∅ ∅) as Hids.
  pose proof (unl_fold_keys calc_node_id (hash_set_iter unl) ∅ ∅ (fun k => k ∈ unl ∪ neg)) as Hk1.
  destruct (foldl (unl_step calc_node_id) (∅, ∅) (hash_set_iter unl)) as [ids m]. simpl in Hids.
  rewrite union_empty_r_L in Hids. fold (node_ids unl) in Hids. subst ids.
  assert (keys_ok calc_node_id m (fun k => k ∈ unl ∪ neg)) as Hm.
  { apply Hk1; [intros ? ? ?; done|]. intros k. rewrite hash_set_iter_perm, elem_of_elements. set_solver. }
  clear Hk1.
  assert (exists o vals', build_score_table calc_node_id n prev (node_ids unl) vals = Ok (o, vals'))
    as (o & vals' & Eb).
  { apply score_table_total. }
  rewrite Eb. cbn [mbind outcome_bind].
  destruct o as [scores|]; [|by exists n, vals', [], []; split_and!; [done|by left|simpl; lia..|set_solver|set_solver]].
  fold neg. fold seq.
  pose proof (neg_fold calc_node_id (hash_set_iter neg) ∅ m) as Hnids.
  pose proof (neg_fold_keys calc_node_id (hash_set_iter neg) ∅ m (fun k => k ∈ unl ∪ neg) Hm) as Hk2.
  destruct (foldl (neg_step calc_node_id) (∅, m) (hash_set_iter neg)) as [nids m']. simpl in Hnids, Hk2.
  rewrite union_empty_r_L in Hnids. fold (node_ids neg) in Hnids. subst nids.
  assert (keys_ok calc_node_id m' (fun k => k ∈ unl ∪ neg)) as Hm'.
  { apply Hk2. intros k. rewrite hash_set_iter_perm, elem_of_elements. set_solver. }
  set (c := find_all_candidates _ _ _ _).
  destruct (vote_one_spec prev seq m' (to_disable_candidates c) ToDisable [] _ Hm') as (dis & -> & Hl & Hdis).
  cbn [mbind outcome_bind app].
  destruct (vote_one_spec prev seq m' (to_re_enable_candidates c) ToReEnable dis _ Hm') as (ree & -> & Hl' & Hree).
  cbn [mbind outcome_bind].
  exists (purge_new_validators seq n), vals', dis, ree. split; [done|]. split; [by right|]. split; [done|]. split; [done|].
  split.
  - intros tx Htx. destruct (Hdis tx Htx) as (key & Hc & Hkey & ->).
    apply disable_candidate in Hc as (score & H1 & H2 & H3 & H4 & H5); [|done].
    assert (key ∉ neg) as Hn by (intros Hkn; apply H3, elem_of_node_ids; eauto).
    exists key, score, scores. split_and!; try done. set_solver.
  - intros tx Htx. destruct (Hree tx Htx) as (key & Hc & Hkey & ->).
    apply re_enable_candidate in Hc as [H1 H2]. exists key. split; [done|].
    apply elem_of_node_ids in H1 as (key' & Hk' & E).
    assert (key' = key) as -> by (apply Hd; [set_solver|done|done]). split; [done|].
    destruct H2 as [(score & ? & ?)|H2]; [right; by exists score, scores|left].
    intros Hku. apply H2, elem_of_node_ids. eauto.
Qed.


(** the vote on a flag ledger always returns, and adds at most one transaction that
    disables and one that re-enables. A validator voted onto the negative list is
    on our list and not on the negative one, validated fewer than half of the
    last 256 ledgers, is not new, and its listing keeps the listed part of our
    list within a quarter, rounded up; one voted off is on the negative list, and
    validated more than 80 percent or left our list. *)
Theorem neg_unl_vote_sound n prev unl (vals : V) :
  let neg := next_negative_unl prev in
  let seq := wrap_u32 (nl_seq prev + 1) in
  distinct_ids calc_node_id (unl ∪ neg) ->
  exists n' vals' disable re_enable,
    do_voting calc_node_id n prev unl vals ([] : list STTx) = Ok (n', vals', disable ++ re_enable)
    /\ (length disable <= 1)%nat /\ (length re_enable <= 1)%nat
    /\ (forall tx, tx ∈ disable -> exists key score scores,
          tx = ttUNL_MODIFY true seq key /\ key ∈ unl /\ key ∉ neg
          /\ build_score_table calc_node_id n prev (node_ids unl) vals = Ok (Some scores, vals')
          /\ scores !! calc_node_id key = Some score /\ score < 128
          /\ new_validators_map n' !! calc_node_id key = None
          /\ Z.of_nat (size (unl ∩ neg)) + 1 <= max_negative_listed (Z.of_nat (size unl)))
    /\ (forall tx, tx ∈ re_enable -> exists key,
          tx = ttUNL_MODIFY false seq key /\ key ∈ neg
          /\ (key ∉ unl \/ exists score scores,
                build_score_table calc_node_id n prev (node_ids unl) vals = Ok (Some scores, vals')
                /\ scores !! calc_node_id key = Some score /\ 204 < score)).
Proof.
  intros neg seq Hd. destruct (neg_unl_vote_ok n prev unl vals Hd) as (n' & vals' & dis & ree & H1 & _ & H2).
  by exists n', vals', dis, ree.
Qed.

(** ** New validators *)

Lemma new_validators_lookup seq now n id :
  new_validators_map (new_validators seq now n) !! id
  = match new_validators_map n !! id with
    | Some added => Some added
    | None => if decide (id ∈ now) then Some seq else None
    end.
Proof.
  unfold new_validators. cbn [new_validators_map].
  assert (id ∈ now <-> id ∈ hash_set_iter now) as Hin by (by rewrite hash_set_iter_perm, elem_of_elements).
  rewrite (decide_ext (id ∈ now) (id ∈ hash_set_iter now)) by exact Hin. clear Hin.
  generalize (new_validators_map n). induction (hash_set_iter now) as [|x l IH]; intros m; simpl.
  - by destruct (m !! id).
  - rewrite IH. destruct (decide (is_Some (m !! x))) as [Hx|Hx].
    + destruct (m !! id) eqn:E; [done|]. apply decide_ext. rewrite elem_of_cons. split; [by right|].
      intros [->|?]; [|done]. rewrite E in Hx. by destruct Hx.
    + destruct (decide (id = x)) as [->|Hne].
      * rewrite lookup_insert_eq. destruct (m !! x) eqn:E; [destruct Hx; by eexists|].
        rewrite decide_True; [done|left].
      * rewrite lookup_insert_ne by done. destruct (m !! id); [done|].
        apply decide_ext. rewrite elem_of_cons. naive_solver.
Qed.

(** a validator that has just become trusted is not voted onto the negative list for
    the next 512 ledgers, however unreliable it looks. *)
Theorem new_validator_protected n prev unl (vals : V) added now key :
  distinct_ids calc_node_id (unl ∪ next_negative_unl prev) ->
  in_u32 (nl_seq prev) -> nl_seq prev < u32_max ->
  calc_node_id key ∈ now -> new_validators_map n !! calc_node_id key = None ->
  nl_seq prev + 1 - added <= 512 ->
  exists n' vals' txs,
    do_voting calc_node_id (new_validators added now n) prev unl vals ([] : list STTx) = Ok (n', vals', txs)
    /\ forall seq, ttUNL_MODIFY true seq key ∉ txs.
Proof.
  intros Hd Hs Hs' Hnow Hnew Hrecent.
  destruct (neg_unl_vote_ok (new_validators added now n) prev unl vals Hd)
    as (n' & vals' & dis & ree & E & Hn' & _ & _ & Hdis & Hree).
  exists n', vals', (dis ++ ree). split; [done|]. intros seq [Htx|Htx]%elem_of_app.
  - destruct (Hdis _ Htx) as (key' & score & scores & [= -> <-] & _ & _ & _ & _ & _ & Hnone & _).
    pose proof (new_validators_lookup added now n (calc_node_id key)) as Hl.
    rewrite Hnew, decide_True in Hl by done.
    destruct Hn' as [->| ->]; [congruence|].
    unfold purge_new_validators in Hnone. cbn [new_validators_map] in Hnone.
    rewrite map_lookup_filter, Hl in Hnone. simpl in Hnone.
    rewrite option_guard_True in Hnone; [done|].
    rewrite wrap_u32_id by machine. unfold sat_u32. change NEW_VALIDATOR_DISABLE_SKIP with 512. lia.
  - destruct (Hree _ Htx) as (key' & ? & _). done.
Qed.

End Soundness.

(** ** A vote *)

Module Demo.

(** The iteration order opposite to the canonical one. *)
Definition reversed_order : HashOrder := {|
  hash_iter := fun K V _ _ m => reverse (map_to_list m);
  hash_iter_perm := fun K V _ _ m => reverse_Permutation _;
  hash_set_iter := fun K _ _ s => reverse (elements s);
  hash_set_iter_perm := fun K _ _ s => reverse_Permutation _
|}.

(** Validators 1 to 3 validate every ledger, 4 and 5 the odd ones only up to 400. *)
#[local] Instance demo_validations : NegativeUNLVoteValidations unit := {|
  set_seq_to_keep := fun _ _ v => v;
  trusted_keys_for_ledger := fun _ seq v =>
    (if (seq <? 400) && Z.odd seq then [1; 2; 3; 4; 5] else [1; 2; 3], v)
|}.

Definition demo_ledger : NegativeUNLLedgerView :=
  mkLedgerView 511 (Z.shiftl 7 96) ∅ None None (Some (seqZ 1000 256)).
Definition demo_vote : NegativeUNLVote := mkVote 1 {[9 := 100]}.
Definition demo_unl : gset Z := {[1; 2; 3; 4; 5]}.

Lemma demo_distinct keys : distinct_ids (fun k => k) keys.
Proof. intros k k' _ _ E. exact E. Qed.

Lemma demo_result :
  @do_voting canonical_order unit _ (fun k => k) (list STTx) _ demo_vote demo_ledger demo_unl tt []
  = Ok (mkVote 1 {[9 := 100]}, tt, [ttUNL_MODIFY true 512 5]).
Proof. vm_compute. reflexivity. Qed.

(** Validator 2 with the other hash order, tracking 9 under another sequence, votes as
    validator 1 does; validator 4, too often away, does not vote. *)
Lemma neg_unl_vote_deterministic_witness :
  exists m w,
    @do_voting reversed_order unit _ (fun k => k) (list STTx) _ (mkVote 2 {[9 := 200]}) demo_ledger
      demo_unl tt [] = Ok (m, w, [ttUNL_MODIFY true 512 5])
    /\ takes_part (fun k => k) demo_vote demo_ledger demo_unl tt
    /\ takes_part (fun k => k) (mkVote 2 {[9 := 200]}) demo_ledger demo_unl tt
    /\ ~ takes_part (fun k => k) (mkVote 4 {[9 := 100]}) demo_ledger demo_unl tt.
Proof.
  assert (forall id c, appearances (fun k => k) (heard demo_ledger tt) id = c -> id ∈ demo_unl ->
    230 <= c <= 256 -> takes_part (fun k => k) (mkVote id {[9 := 200]}) demo_ledger demo_unl tt) as Htp.
  { intros id c Hc Hid Hr. split; [eexists; split; [reflexivity|vm_compute; discriminate]|].
    split; [by exists id|]. simpl my_id. rewrite Hc, wrap_u32_id by machine. exact Hr. }
  destruct (neg_unl_vote_deterministic (fun k => k) canonical_order reversed_order demo_vote
    (mkVote 2 {[9 := 200]}) demo_ledger demo_unl tt tt ([] : list STTx) (demo_distinct _) (demo_distinct _))
    as (m & w & r & m' & w' & r' & E & E' & _ & _ & Hr).
  { intros key Hkey. split; [reflexivity|]. assert (key <> 9) as Hne by (unfold demo_unl in Hkey; set_solver).
    cbn [purge_new_validators new_validators_map demo_vote]. rewrite !map_lookup_filter, !lookup_singleton_ne by done.
    reflexivity. }
  rewrite demo_result in E. injection E as <- <- <-.
  assert (takes_part (fun k => k) demo_vote demo_ledger demo_unl tt) as H1.
  { exact (Htp 1 256 ltac:(vm_compute; reflexivity) ltac:(vm_compute; reflexivity) ltac:(lia)). }
  assert (takes_part (fun k => k) (mkVote 2 {[9 := 200]}) demo_ledger demo_unl tt) as H2.
  { exact (Htp 2 256 ltac:(vm_compute; reflexivity) ltac:(vm_compute; reflexivity) ltac:(lia)). }
  exists m', w'. rewrite <- (Hr H1 H2) in E'. split_and!; [exact E'|exact H1|exact H2|].
  intros (_ & _ & Hc). vm_compute in Hc. destruct Hc as [Hc _]. by apply Hc.
Defined.

Lemma neg_unl_vote_sound_witness :
  exists n' vals' disable re_enable,
    @do_voting canonical_order unit _ (fun k => k) (list STTx) _ demo_vote demo_ledger demo_unl tt []
      = Ok (n', vals', disable ++ re_enable)
    /\ (length disable <= 1)%nat /\ (length re_enable <= 1)%nat.
Proof.
  destruct (@neg_unl_vote_sound canonical_order unit _ (fun k => k) demo_vote demo_ledger demo_unl tt
    (demo_distinct _)) as (n' & vals' & disable & re_enable & E & H1 & H2 & _).
  exists n', vals', disable, re_enable. exact (conj E (conj H1 H2)).
Defined.

Lemma new_validator_protected_witness :
  exists n' vals' txs,
    @do_voting canonical_order unit _ (fun k => k) (list STTx) _
      (@new_validators canonical_order 450 {[5]} demo_vote) demo_ledger demo_unl tt [] = Ok (n', vals', txs)
    /\ forall seq, ttUNL_MODIFY true seq 5 ∉ txs.
Proof.
  apply (@new_validator_protected canonical_order unit _ (fun k => k) demo_vote demo_ledger demo_unl tt 450 {[5]} 5);
    [apply demo_distinct|cbn; machine|cbn; machine|set_solver|reflexivity|cbn; lia].
Defined.

End Demo.
