(* ===== verification/Serializer.v ===== *)
(** * Binary serialization

    [xrpl/protocol/src/serialization/serializer.rs]: the byte buffer that builds
    canonical binary forms and the iterator that reads them back: big-endian
    integers, fixed-width bit strings, field identifiers and length-prefixed blobs.
    Bytes are integers from 0 to 255; a bit string is the number its bytes spell.
    Hashing ([get_sha512_half]) and allocation ([reserve], [capacity]) are not
    modelled. *)

From S2P Require Import Prelude.

(** ** Bytes *)

Definition is_byte (b : Z) : Prop := 0 <= b < 256.
Definition as_u8 (z : Z) : Z := z mod 256.

(** [to_be_bytes] of an [n]-byte integer, signed ones in two's complement. *)
Fixpoint be_bytes (n : nat) (v : Z) : list Z :=
  match n with
  | O => []
  | S n => as_u8 (Z.shiftr v (8 * Z.of_nat n)) :: be_bytes n v
  end.

Definition from_be (bytes : list Z) : Z := foldl (fun acc b => acc * 256 + b) 0 bytes.

(** Indexing a slice by a range. *)
Definition slice_range (l : list Z) (first last : Z) : outcome (list Z) :=
  if (0 <=? first) && (first <=? last) && (last <=? Z.of_nat (length l))
  then Ok (take (Z.to_nat (last - first)) (drop (Z.to_nat first) l))
  else Panic.

(** The implementors of [SerializerInteger]. *)
Inductive int_kind := U8 | U16 | U32 | I32 | U64 | I64.

Definition BYTES (k : int_kind) : nat :=
  match k with U8 => 1 | U16 => 2 | U32 | I32 => 4 | U64 | I64 => 8 end%nat.

Definition write_be (k : int_kind) (v : Z) : list Z := be_bytes (BYTES k) v.

Definition read_be (k : int_kind) (bytes : list Z) : Z :=
  match k with
  | I32 => wrap_i32 (from_be bytes)
  | I64 => wrap_i64 (from_be bytes)
  | _ => from_be bytes
  end.

(** ** [Serializer]

    Every [add] returns the offset it wrote at, as [i32]. *)

Definition Serializer : Type := list Z.
Definition offset_of (s : Serializer) : Z := wrap_i32 (Z.of_nat (length s)).

Definition add8 (s : Serializer) (v : Z) : Serializer * Z := (s ++ [v], offset_of s).
Definition add16 (s : Serializer) (v : Z) : Serializer * Z := (s ++ be_bytes 2 v, offset_of s).
Definition add32 (s : Serializer) (v : Z) : Serializer * Z := (s ++ be_bytes 4 v, offset_of s).
Definition add64 (s : Serializer) (v : Z) : Serializer * Z := (s ++ be_bytes 8 v, offset_of s).

Definition add_integer (k : int_kind) (s : Serializer) (v : Z) : Serializer * Z :=
  (s ++ write_be k v, offset_of s).

Definition add_raw (s : Serializer) (bytes : list Z) : Serializer * Z := (s ++ bytes, offset_of s).

Definition add_bit_string (width : nat) (s : Serializer) (v : Z) : Serializer * Z :=
  add_raw s (be_bytes width v).

Definition encode_length_length (length : Z) : outcome Z :=
  if length <=? 192 then Ok 1
  else if length <=? 12480 then Ok 2
  else if length <=? 918744 then Ok 3
  else Panic.

(** The [debug_assert_eq!] on the header's width is [add_encoded_width] below. *)
Definition add_encoded (s : Serializer) (len : Z) : outcome (Serializer * Z) :=
  let ret := offset_of s in
  s' ←
    (if len <=? 192 then Ok (s ++ [as_u8 len])
     else if len <=? 12480 then
       let adjusted := len - 193 in
       Ok (s ++ [as_u8 (193 + Z.shiftr adjusted 8); as_u8 (Z.land adjusted 255)])
     else if len <=? 918744 then
       let adjusted := len - 12481 in
       Ok (s ++ [as_u8 (241 + Z.shiftr adjusted 16); as_u8 (Z.land (Z.shiftr adjusted 8) 255);
                 as_u8 (Z.land adjusted 255)])
     else Panic);
  Ok (s', ret).

Definition add_vl (s : Serializer) (bytes : list Z) : outcome (Serializer * Z) :=
  '(s, ret) ← add_encoded s (Z.of_nat (length bytes));
  Ok ((if bool_decide (bytes = []) then s else fst (add_raw s bytes)), ret).

(** One chunk: the bytes are written before the length is checked. *)
Definition vl_chunk (acc : Serializer * Z) (chunk : list Z) : outcome (Serializer * Z) :=
  let '(s, remaining) := acc in
  let s := fst (add_raw s chunk) in
  if remaining <? Z.of_nat (length chunk) then Panic
  else Ok (s, remaining - Z.of_nat (length chunk)).

Definition add_vl_chunks (s : Serializer) (chunks : list (list Z)) (len : Z)
  : outcome (Serializer * Z) :=
  '(s, ret) ← add_encoded s len;
  '(s, remaining) ← foldM vl_chunk (s, len) chunks;
  if remaining =? 0 then Ok (s, ret) else Panic.

(** The out parameter and the answer. *)
Definition ser_get8 (s : Serializer) (out offset : Z) : Z * bool :=
  match s !! Z.to_nat offset with
  | Some byte => (byte, true)
  | None => (out, false)
  end.

Definition get_integer (k : int_kind) (s : Serializer) (out offset : Z) : outcome (Z * bool) :=
  let last := wrap_u64 (offset + Z.of_nat (BYTES k)) in
  if Z.of_nat (length s) <? last then Ok (out, false)
  else bytes ← slice_range s offset last; Ok (read_be k bytes, true).

Definition ser_get_bit_string (width : nat) (s : Serializer) (out offset : Z) : outcome (Z * bool) :=
  let last := wrap_u64 (offset + Z.of_nat width) in
  if Z.of_nat (length s) <? last then Ok (out, false)
  else bytes ← slice_range s offset last; Ok (from_be bytes, true).

Definition add_field_id (s : Serializer) (type name : Z) : Serializer * Z :=
  if negb ((1 <=? type) && (type <? 256)) || negb ((1 <=? name) && (name <? 256)) then (s, 0)
  else
    (s ++
      (if type <? 16 then
         if name <? 16 then [as_u8 (Z.lor (Z.shiftl type 4) name)]
         else [as_u8 (Z.shiftl type 4); as_u8 name]
       else if name <? 16 then [as_u8 name; as_u8 type]
       else [0; as_u8 type; as_u8 name]),
     offset_of s).

Definition ser_erase (s : Serializer) : Serializer := [].

Definition chop (s : Serializer) (bytes : Z) : Serializer * bool :=
  if Z.of_nat (length s) <? bytes then (s, false)
  else (take (length s - Z.to_nat bytes) s, true).

Definition resize (s : Serializer) (size : nat) : Serializer :=
  take size s ++ replicate (size - length s) 0.

(** ** Length headers *)

Definition decode_length_length (b1 : Z) : outcome Z :=
  if b1 <? 0 then Panic
  else if b1 <=? 192 then Ok 1
  else if b1 <=? 240 then Ok 2
  else if b1 <=? 254 then Ok 3
  else Panic.

Definition decode_vl_length_1 (b1 : Z) : outcome Z :=
  if b1 <? 0 then Panic else if 192 <? b1 then Panic else Ok b1.

Definition decode_vl_length_2 (b1 b2 : Z) : outcome Z :=
  if b1 <? 193 then Panic else if 240 <? b1 then Panic
  else Ok (193 + (b1 - 193) * 256 + b2).

Definition decode_vl_length_3 (b1 b2 b3 : Z) : outcome Z :=
  if b1 <? 241 then Panic else if 254 <? b1 then Panic
  else Ok (12481 + (b1 - 241) * 65536 + b2 * 256 + b3).

(** ** [SerialIter] *)

Record SerialIter := mkIter { it_data : list Z; it_used : nat }.

Definition iter_new (data : list Z) : SerialIter := mkIter data 0.
Definition iter_empty (it : SerialIter) : bool := (it_used it =? length (it_data it))%nat.
Definition iter_reset (it : SerialIter) : SerialIter := mkIter (it_data it) 0.

Definition get_bytes_left (it : SerialIter) : Z :=
  wrap_i32 (Z.of_nat (length (it_data it) - it_used it)).

Definition skip (it : SerialIter) (len : nat) : SerialIter :=
  if (length (it_data it) - it_used it <? len)%nat then mkIter (it_data it) (length (it_data it))
  else mkIter (it_data it) (it_used it + len).

(** The next [n] bytes, if they are there; the position moves past them. *)
Definition next_bytes (it : SerialIter) (n : nat) : option (list Z * SerialIter) :=
  if (length (it_data it) - it_used it <? n)%nat then None
  else Some (take n (drop (it_used it) (it_data it)), mkIter (it_data it) (it_used it + n)).

(** An underflowing read answers zero and stays. *)
Definition get8 (it : SerialIter) : Z * SerialIter :=
  match next_bytes it 1 with
  | Some (bytes, it) => (from_be bytes, it)
  | None => (0, it)
  end.

Definition read_integer (k : int_kind) (it : SerialIter) : Z * SerialIter :=
  match next_bytes it (BYTES k) with
  | Some (bytes, it) => (read_be k bytes, it)
  | None => (read_be k (replicate (BYTES k) 0), it)
  end.

Definition get16 := read_integer U16.
Definition get32 := read_integer U32.
Definition geti32 := read_integer I32.
Definition get64 := read_integer U64.
Definition geti64 := read_integer I64.

Definition get_bit_string (width : nat) (it : SerialIter) : Z * SerialIter :=
  match next_bytes it width with
  | Some (bytes, it) => (from_be bytes, it)
  | None => (0, it)
  end.

Definition get_field_id (it : SerialIter) : Z * Z * SerialIter :=
  let '(b, it) := get8 it in
  let name := Z.land b 15 in
  let type := Z.shiftr b 4 in
  let '(type, it) := if type =? 0 then get8 it else (type, it) in
  if (Z.shiftr b 4 =? 0) && (type <? 16) then (-1, name, it)
  else if name =? 0 then
    let '(name, it) := get8 it in
    (type, (if name <? 16 then -1 else name), it)
  else (type, name, it).

Definition get_vl_data_length (it : SerialIter) : outcome (Z * SerialIter) :=
  let '(b1, it) := get8 it in
  len_len ← decode_length_length b1;
  if len_len =? 1 then
    len ← decode_vl_length_1 b1; Ok (len, it)
  else if len_len =? 2 then
    let '(b2, it) := get8 it in
    len ← decode_vl_length_2 b1 b2; Ok (len, it)
  else
    let '(b2, it) := get8 it in
    let '(b3, it) := get8 it in
    len ← decode_vl_length_3 b1 b2 b3; Ok (len, it).

Definition get_slice (it : SerialIter) (n : nat) : list Z * SerialIter :=
  match next_bytes it n with
  | Some r => r
  | None => ([], it)
  end.

Definition get_raw (it : SerialIter) (n : nat) : outcome (list Z * SerialIter) :=
  expect (next_bytes it n).

Definition get_raw_helper_buffer (it : SerialIter) (n : nat) : list Z * SerialIter :=
  match next_bytes it n with
  | Some r => r
  | None => ([], mkIter (it_data it) (length (it_data it)))
  end.

Definition get_vl (it : SerialIter) : outcome (list Z * SerialIter) :=
  '(len, it) ← get_vl_data_length it;
  get_raw it (Z.to_nat len).

Definition get_vl_buffer (it : SerialIter) : outcome (list Z * SerialIter) :=
  '(len, it) ← get_vl_data_length it;
  Ok (get_raw_helper_buffer it (Z.to_nat len)).

(** ** Integers *)

Lemma from_be_acc l acc : foldl (fun acc b => acc * 256 + b) acc l = acc * 256 ^ Z.of_nat (length l) + from_be l.
Proof.
  unfold from_be. revert acc. induction l as [|b l IH]; intros acc; [simpl; lia|].
  cbn [foldl length]. rewrite IH, (IH (0 * 256 + b)), Nat2Z.inj_succ, Z.pow_succ_r by lia. lia.
Qed.

Lemma from_be_cons b l : from_be (b :: l) = b * 256 ^ Z.of_nat (length l) + from_be l.
Proof. unfold from_be at 1. cbn [foldl]. by rewrite from_be_acc. Qed.

Lemma length_be_bytes n v : length (be_bytes n v) = n.
Proof. induction n as [|n IH]; simpl; [done|]. by rewrite IH. Qed.

Lemma be_bytes_bytes n v : Forall is_byte (be_bytes n v).
Proof. induction n; constructor; [|done]. apply Z.mod_pos_bound. lia. Qed.

Lemma from_be_be_bytes n v : from_be (be_bytes n v) = v mod 256 ^ Z.of_nat n.
Proof.
  induction n as [|n IH]; [simpl; by rewrite Z.mod_1_r|].
  cbn [be_bytes]. rewrite from_be_cons, length_be_bytes, IH. unfold as_u8.
  rewrite Z.shiftr_div_pow2 by lia. rewrite Z.pow_mul_r by lia. change (2 ^ 8) with 256.
  rewrite Nat2Z.inj_succ, Z.pow_succ_r by lia.
  assert (0 < 256 ^ Z.of_nat n) by (apply Z.pow_pos_nonneg; lia).
  rewrite (Z.mul_comm 256), Z.rem_mul_r by lia. lia.
Qed.

Lemma from_be_range l : Forall is_byte l -> 0 <= from_be l < 256 ^ Z.of_nat (length l).
Proof.
  induction 1 as [|b l Hb _ IH]; [done|]. rewrite from_be_cons. cbn [length].
  rewrite Nat2Z.inj_succ, Z.pow_succ_r by lia. unfold is_byte in Hb. nia.
Qed.

(** The bytes of an integer do not see what is above them. *)
Lemma be_bytes_low n v a : be_bytes n (a * 256 ^ Z.of_nat n + v) = be_bytes n v.
Proof.
  revert a. induction n as [|n IH]; intros a; [done|]. cbn [be_bytes].
  rewrite Nat2Z.inj_succ, Z.pow_succ_r by lia.
  assert (0 < 256 ^ Z.of_nat n) by (apply Z.pow_pos_nonneg; lia).
  replace (a * (256 * 256 ^ Z.of_nat n) + v) with (a * 256 * 256 ^ Z.of_nat n + v) by lia.
  rewrite IH. f_equal. unfold as_u8. rewrite !Z.shiftr_div_pow2 by lia.
  rewrite Z.pow_mul_r by lia. change (2 ^ 8) with 256.
  rewrite Z.div_add_l by lia. rewrite Z.add_comm, Z.mod_add by lia. done.
Qed.

Lemma be_bytes_from_be l : Forall is_byte l -> be_bytes (length l) (from_be l) = l.
Proof.
  induction 1 as [|b l Hb Hl IH]; [done|]. cbn [length be_bytes]. rewrite from_be_cons, be_bytes_low, IH.
  f_equal. unfold as_u8. pose proof (from_be_range l Hl).
  rewrite Z.shiftr_div_pow2, Z.pow_mul_r by lia. change (2 ^ 8) with 256.
  rewrite Z.div_add_l, (Z.div_small (from_be l)) by lia. rewrite Z.add_0_r. by apply Z.mod_small.
Qed.

(** The range of the values of a kind. *)
Definition in_kind (k : int_kind) (v : Z) : Prop :=
  match k with
  | U8 => 0 <= v < 256
  | U16 => 0 <= v < 65536
  | U32 => in_u32 v
  | I32 => in_i32 v
  | U64 => in_u64 v
  | I64 => -9223372036854775808 <= v <= 9223372036854775807
  end.

Lemma read_write_be k v : in_kind k v -> read_be k (write_be k v) = v.
Proof.
  unfold write_be, read_be. rewrite from_be_be_bytes. intros Hv.
  destruct k; cbn [BYTES in_kind] in *; unfold in_u32, in_i32, in_u64, u32_max, u64_max, i32_min, i32_max in *.
  - change (256 ^ Z.of_nat 1) with 256. apply Z.mod_small. lia.
  - change (256 ^ Z.of_nat 2) with 65536. apply Z.mod_small. lia.
  - change (256 ^ Z.of_nat 4) with 4294967296. apply Z.mod_small. lia.
  - change (256 ^ Z.of_nat 4) with 4294967296. unfold wrap_i32, u32_modulus.
    rewrite Zplus_mod_idemp_l, Z.mod_small; lia.
  - change (256 ^ Z.of_nat 8) with 18446744073709551616. apply Z.mod_small. lia.
  - change (256 ^ Z.of_nat 8) with 18446744073709551616. unfold wrap_i64, u64_modulus.
    rewrite Zplus_mod_idemp_l, Z.mod_small; lia.
Qed.

(** ** Reading at a position *)

(** The iterator with [pre] behind it and [suf] ahead. *)
Definition at_pos (pre suf : list Z) : SerialIter := mkIter (pre ++ suf) (length pre).

Lemma next_bytes_at pre l rest :
  next_bytes (at_pos pre (l ++ rest)) (length l) = Some (l, at_pos (pre ++ l) rest).
Proof.
  unfold next_bytes, at_pos. cbn [it_data it_used]. rewrite !length_app.
  rewrite (proj2 (Nat.ltb_ge _ _)) by lia. rewrite drop_app_length, take_app_length.
  by rewrite <- app_assoc.
Qed.

Lemma get8_at pre b rest : get8 (at_pos pre (b :: rest)) = (b, at_pos (pre ++ [b]) rest).
Proof.
  unfold get8. pose proof (next_bytes_at pre [b] rest) as E. cbn [app length] in E. by rewrite E.
Qed.

Lemma get_raw_at pre l rest :
  get_raw (at_pos pre (l ++ rest)) (length l) = Ok (l, at_pos (pre ++ l) rest).
Proof. unfold get_raw. by rewrite next_bytes_at. Qed.

Lemma read_integer_at k pre v rest :
  in_kind k v ->
  read_integer k (at_pos pre (write_be k v ++ rest)) = (v, at_pos (pre ++ write_be k v) rest).
Proof.
  intros Hv. unfold read_integer. replace (BYTES k) with (length (write_be k v)) by apply length_be_bytes.
  rewrite next_bytes_at. by rewrite read_write_be.
Qed.

Lemma get_bit_string_at w pre v rest :
  0 <= v < 256 ^ Z.of_nat w ->
  get_bit_string w (at_pos pre (be_bytes w v ++ rest)) = (v, at_pos (pre ++ be_bytes w v) rest).
Proof.
  intros Hv. unfold get_bit_string. pose proof (next_bytes_at pre (be_bytes w v) rest) as E.
  rewrite length_be_bytes in E. rewrite E, from_be_be_bytes. by rewrite Z.mod_small.
Qed.

(** ** Length-prefixed blobs *)

(** The header of a length. *)
Definition header (len : Z) : list Z :=
  if len <=? 192 then [len]
  else if len <=? 12480 then [193 + (len - 193) / 256; (len - 193) mod 256]
  else [241 + (len - 12481) / 65536; (len - 12481) / 256 mod 256; (len - 12481) mod 256].

Lemma land_255 a : Z.land a 255 = a mod 256.
Proof. change 255 with (Z.ones 8). apply Z.land_ones. lia. Qed.

Lemma as_u8_id a : 0 <= a < 256 -> as_u8 a = a.
Proof. apply Z.mod_small. Qed.

Lemma add_encoded_eq s len :
  0 <= len -> add_encoded s len = if len <=? 918744 then Ok (s ++ header len, offset_of s) else Panic.
Proof.
  intros H. unfold add_encoded, header. rewrite !land_255, !Z.shiftr_div_pow2 by lia.
  change (2 ^ 8) with 256. change (2 ^ 16) with 65536.
  destruct (Z.leb_spec len 192); [rewrite (proj2 (Z.leb_le len 918744)) by lia; by rewrite as_u8_id by lia|].
  destruct (Z.leb_spec len 12480); [rewrite (proj2 (Z.leb_le len 918744)) by lia|].
  - rewrite !as_u8_id; [done|apply Z.mod_pos_bound; lia|].
    split; [|]; Z.to_euclidean_division_equations; lia.
  - destruct (Z.leb_spec len 918744); [|done].
    rewrite !as_u8_id; [done|apply Z.mod_pos_bound; lia|apply Z.mod_pos_bound; lia|].
    split; Z.to_euclidean_division_equations; lia.
Qed.

Lemma add_encoded_width len : 0 <= len <= 918744 -> encode_length_length len = Ok (Z.of_nat (length (header len))).
Proof.
  intros H. unfold encode_length_length, header.
  destruct (_ <=? 192); [done|]. destruct (_ <=? 12480); [done|].
  by rewrite (proj2 (Z.leb_le len 918744)) by lia.
Qed.

Lemma get_vl_data_length_at pre len rest :
  0 <= len <= 918744 ->
  get_vl_data_length (at_pos pre (header len ++ rest)) = Ok (len, at_pos (pre ++ header len) rest).
Proof.
  intros H. unfold get_vl_data_length, header.
  destruct (Z.leb_spec len 192); [|destruct (Z.leb_spec len 12480)]; cbn [app]; rewrite !get8_at;
    unfold decode_length_length, decode_vl_length_1, decode_vl_length_2, decode_vl_length_3.
  - rewrite (proj2 (Z.ltb_ge len 0)), (proj2 (Z.leb_le len 192)), (proj2 (Z.ltb_ge 192 len)) by lia. done.
  - assert (193 <= 193 + (len - 193) / 256 <= 240) by (Z.to_euclidean_division_equations; lia).
    rewrite (proj2 (Z.ltb_ge _ 0)), (proj2 (Z.leb_gt _ 192)), (proj2 (Z.leb_le _ 240)) by lia.
    cbn [mbind outcome_bind Z.eqb Pos.eqb].
    rewrite (proj2 (Z.ltb_ge _ 193)), (proj2 (Z.ltb_ge 240 _)) by lia.
    cbn [mbind outcome_bind]. rewrite <- app_assoc. do 2 f_equal.
    Z.to_euclidean_division_equations; lia.
  - assert (241 <= 241 + (len - 12481) / 65536 <= 254) by (Z.to_euclidean_division_equations; lia).
    rewrite (proj2 (Z.ltb_ge _ 0)), (proj2 (Z.leb_gt _ 192)), (proj2 (Z.leb_gt _ 240)), (proj2 (Z.leb_le _ 254)) by lia.
    cbn [mbind outcome_bind Z.eqb Pos.eqb].
    rewrite (proj2 (Z.ltb_ge _ 241)), (proj2 (Z.ltb_ge 254 _)) by lia.
    cbn [mbind outcome_bind]. rewrite <- !app_assoc. do 2 f_equal.
    Z.to_euclidean_division_equations; lia.
Qed.

Lemma add_vl_eq s bytes :
  Z.of_nat (length bytes) <= 918744 ->
  add_vl s bytes = Ok (s ++ header (Z.of_nat (length bytes)) ++ bytes, offset_of s).
Proof.
  intros H. unfold add_vl. rewrite add_encoded_eq by lia. rewrite (proj2 (Z.leb_le _ _)) by lia.
  cbn [mbind outcome_bind]. case_bool_decide; [subst; by rewrite app_nil_r|].
  unfold add_raw. cbn [fst]. by rewrite <- app_assoc.
Qed.

Lemma get_vl_at pre bytes rest :
  Z.of_nat (length bytes) <= 918744 ->
  get_vl (at_pos pre (header (Z.of_nat (length bytes)) ++ bytes ++ rest))
  = Ok (bytes, at_pos (pre ++ header (Z.of_nat (length bytes)) ++ bytes) rest).
Proof.
  intros H. unfold get_vl. rewrite get_vl_data_length_at by lia. cbn [mbind outcome_bind].
  rewrite Nat2Z.id, get_raw_at. by rewrite <- app_assoc.
Qed.

(** a blob of any length up to 918744 that is written anywhere in a buffer is read
    back whole from there, leaving the iterator just after it, whatever precedes
    and follows; a longer blob makes the writer panic. *)
Theorem vl_roundtrip s bytes rest :
  if decide (Z.of_nat (length bytes) <= 918744) then
    exists written, add_vl s bytes = Ok (s ++ written, offset_of s)
      /\ get_vl (at_pos s (written ++ rest)) = Ok (bytes, at_pos (s ++ written) rest)
      /\ get_vl_buffer (at_pos s (written ++ rest)) = Ok (bytes, at_pos (s ++ written) rest)
  else add_vl s bytes = Panic.
Proof.
  case_decide as H.
  - eexists. split; [by apply add_vl_eq|]. rewrite <- !app_assoc. split; [by apply get_vl_at|].
    unfold get_vl_buffer. rewrite get_vl_data_length_at by lia. cbn [mbind outcome_bind].
    unfold get_raw_helper_buffer. rewrite Nat2Z.id, next_bytes_at. by rewrite <- app_assoc.
  - unfold add_vl. rewrite add_encoded_eq by lia. by rewrite (proj2 (Z.leb_gt _ _)) by lia.
Qed.

(** ** Length headers are canonical *)

(** reading a length is deterministic in the other direction too: the bytes of a
    header are determined by the length they announce. So two different headers never
    announce the same length, and a blob has one binary form. Lengths from 918745 to
    929984 can be announced but never written. *)
Theorem length_header_canonical b1 b2 b3 rest len it :
  is_byte b1 -> is_byte b2 -> is_byte b3 ->
  get_vl_data_length (iter_new (b1 :: b2 :: b3 :: rest)) = Ok (len, it) ->
  0 <= len <= 929984
  /\ it = mkIter (b1 :: b2 :: b3 :: rest) (length (header len))
  /\ header len = take (length (header len)) [b1; b2; b3].
Proof.
  intros H1 H2 H3. unfold is_byte in *. change (iter_new (b1 :: b2 :: b3 :: rest)) with (at_pos [] (b1 :: b2 :: b3 :: rest)).
  unfold get_vl_data_length. rewrite !get8_at. cbn [app].
  unfold decode_length_length, decode_vl_length_1, decode_vl_length_2, decode_vl_length_3, header.
  rewrite (proj2 (Z.ltb_ge b1 0)) by lia.
  destruct (Z.leb_spec b1 192); [|destruct (Z.leb_spec b1 240); [|destruct (Z.leb_spec b1 254)]]; [..|done];
    cbn [mbind outcome_bind Z.eqb Pos.eqb].
  - rewrite (proj2 (Z.ltb_ge 192 b1)) by lia. intros [= <- <-].
    rewrite (proj2 (Z.leb_le b1 192)) by lia. split; [lia|done].
  - rewrite (proj2 (Z.ltb_ge b1 193)), (proj2 (Z.ltb_ge 240 b1)) by lia. intros [= <- <-].
    rewrite (proj2 (Z.leb_gt _ 192)), (proj2 (Z.leb_le _ 12480)) by lia. split; [lia|]. split; [done|].
    cbn [length take]. f_equal; [|f_equal]; Z.to_euclidean_division_equations; lia.
  - rewrite (proj2 (Z.ltb_ge b1 241)), (proj2 (Z.ltb_ge 254 b1)) by lia. intros [= <- <-].
    rewrite (proj2 (Z.leb_gt _ 192)), (proj2 (Z.leb_gt _ 12480)) by lia. split; [lia|]. split; [done|].
    cbn [length take]. f_equal; [|f_equal; [|f_equal]]; Z.to_euclidean_division_equations; lia.
Qed.

Lemma length_header_canonical_witness :
  get_vl_data_length (iter_new [241; 0; 7; 9]) = Ok (12488, mkIter [241; 0; 7; 9] 3)
  /\ header 12488 = take (length (header 12488)) [241; 0; 7].
Proof.
  split; [reflexivity|].
  apply (length_header_canonical 241 0 7 [9] 12488 (mkIter [241; 0; 7; 9] 3));
    [unfold is_byte; lia..|reflexivity].
Defined.

(** ** Field identifiers *)

Lemma field_id_lor type name :
  0 <= type < 16 -> 0 <= name < 16 -> Z.lor (Z.shiftl type 4) name = type * 16 + name.
Proof.
  intros Ht Hn.
  assert (forallb (fun t => forallb (fun n => Z.lor (Z.shiftl t 4) n =? t * 16 + n) (seqZ 0 16)) (seqZ 0 16)
    = true) as H by (vm_compute; reflexivity).
  rewrite forallb_forall in H. specialize (H type). rewrite <- list_elem_of_In, elem_of_seqZ in H.
  specialize (H ltac:(lia)). rewrite forallb_forall in H. specialize (H name).
  rewrite <- list_elem_of_In, elem_of_seqZ in H. specialize (H ltac:(lia)). lia.
Qed.

(** The bytes of an identifier: a small type and a small name share one byte. *)
Definition field_bytes (type name : Z) : list Z :=
  if type <? 16 then if name <? 16 then [type * 16 + name] else [type * 16; name]
  else if name <? 16 then [name; type] else [0; type; name].

Lemma add_field_id_eq s type name :
  1 <= type < 256 -> 1 <= name < 256 ->
  add_field_id s type name = (s ++ field_bytes type name, offset_of s).
Proof.
  intros Ht Hn. unfold add_field_id, field_bytes.
  rewrite (proj2 (Z.leb_le 1 type)), (proj2 (Z.ltb_lt type 256)), (proj2 (Z.leb_le 1 name)),
    (proj2 (Z.ltb_lt name 256)) by lia. cbn [andb negb orb].
  destruct (Z.ltb_spec type 16), (Z.ltb_spec name 16); rewrite ?field_id_lor by lia;
    rewrite ?Z.shiftl_mul_pow2 by lia; change (2 ^ 4) with 16; by rewrite ?as_u8_id by lia.
Qed.

Lemma get_field_id_at pre type name rest :
  1 <= type < 256 -> 1 <= name < 256 ->
  get_field_id (at_pos pre (field_bytes type name ++ rest))
  = (type, name, at_pos (pre ++ field_bytes type name) rest).
Proof.
  intros Ht Hn. unfold get_field_id, field_bytes.
  assert (forall b, Z.land b 15 = b mod 16) as Hland.
  { intros b. change 15 with (Z.ones 4). by apply Z.land_ones. }
  assert (forall b, Z.shiftr b 4 = b / 16) as Hshift by (intros b; by apply Z.shiftr_div_pow2).
  destruct (Z.ltb_spec type 16), (Z.ltb_spec name 16); cbn [app]; rewrite get8_at, Hland, Hshift.
  - replace ((type * 16 + name) mod 16) with name by (Z.to_euclidean_division_equations; lia).
    replace ((type * 16 + name) / 16) with type by (Z.to_euclidean_division_equations; lia).
    rewrite (proj2 (Z.eqb_neq type 0)), (proj2 (Z.eqb_neq name 0)) by lia. done.
  - replace (type * 16 mod 16) with 0 by (Z.to_euclidean_division_equations; lia).
    replace (type * 16 / 16) with type by (Z.to_euclidean_division_equations; lia).
    rewrite (proj2 (Z.eqb_neq type 0)) by lia. cbn [andb Z.eqb]. rewrite get8_at.
    rewrite (proj2 (Z.ltb_ge name 16)) by lia. by rewrite <- app_assoc.
  - replace (name mod 16) with name by (Z.to_euclidean_division_equations; lia).
    replace (name / 16) with 0 by (Z.to_euclidean_division_equations; lia).
    cbn [Z.eqb andb]. rewrite get8_at.
    rewrite (proj2 (Z.ltb_ge type 16)), (proj2 (Z.eqb_neq name 0)) by lia. by rewrite <- app_assoc.
  - change (0 mod 16) with 0. change (0 / 16) with 0. cbn [Z.eqb andb]. rewrite get8_at.
    rewrite (proj2 (Z.ltb_ge type 16)) by lia. cbn [Z.eqb]. rewrite get8_at.
    rewrite (proj2 (Z.ltb_ge name 16)) by lia. by rewrite <- !app_assoc.
Qed.

(** ** Whole objects *)

Inductive field :=
| FInt (k : int_kind) (v : Z)
| FBits (width : nat) (v : Z)
| FId (type name : Z)
| FVl (bytes : list Z)
| FRaw (bytes : list Z).

(** What a reader has to know to read a field. *)
Inductive shape := SInt (k : int_kind) | SBits (width : nat) | SId | SVl | SRaw (n : nat).

Definition shape_of (f : field) : shape :=
  match f with
  | FInt k _ => SInt k
  | FBits w _ => SBits w
  | FId _ _ => SId
  | FVl _ => SVl
  | FRaw bytes => SRaw (length bytes)
  end.

Definition field_ok (f : field) : Prop :=
  match f with
  | FInt k v => in_kind k v
  | FBits w v => 0 <= v < 256 ^ Z.of_nat w
  | FId type name => 1 <= type < 256 /\ 1 <= name < 256
  | FVl bytes => Z.of_nat (length bytes) <= 918744
  | FRaw _ => True
  end.

Definition write_field (s : Serializer) (f : field) : outcome Serializer :=
  match f with
  | FInt k v => Ok (fst (add_integer k s v))
  | FBits w v => Ok (fst (add_bit_string w s v))
  | FId type name => Ok (fst (add_field_id s type name))
  | FVl bytes => r ← add_vl s bytes; Ok (fst r)
  | FRaw bytes => Ok (fst (add_raw s bytes))
  end.

Definition read_field (sh : shape) (it : SerialIter) : outcome (field * SerialIter) :=
  match sh with
  | SInt k => let '(v, it) := read_integer k it in Ok (FInt k v, it)
  | SBits w => let '(v, it) := get_bit_string w it in Ok (FBits w v, it)
  | SId => let '(type, name, it) := get_field_id it in Ok (FId type name, it)
  | SVl => '(bytes, it) ← get_vl it; Ok (FVl bytes, it)
  | SRaw n => '(bytes, it) ← get_raw it n; Ok (FRaw bytes, it)
  end.

Fixpoint read_fields (shapes : list shape) (it : SerialIter) : outcome (list field * SerialIter) :=
  match shapes with
  | [] => Ok ([], it)
  | sh :: shapes =>
      '(f, it) ← read_field sh it;
      '(fs, it) ← read_fields shapes it;
      Ok (f :: fs, it)
  end.

Lemma write_read_field s f rest :
  field_ok f ->
  exists written, write_field s f = Ok (s ++ written)
    /\ read_field (shape_of f) (at_pos s (written ++ rest)) = Ok (f, at_pos (s ++ written) rest).
Proof.
  destruct f as [k v|w v|type name|bytes|bytes]; cbn [field_ok shape_of write_field read_field]; intros Hf.
  - eexists. split; [done|]. by rewrite read_integer_at.
  - eexists. split; [done|]. by rewrite get_bit_string_at.
  - destruct Hf. rewrite add_field_id_eq by done. eexists. split; [done|]. by rewrite get_field_id_at.
  - rewrite add_vl_eq by done. eexists. split; [done|]. rewrite <- app_assoc. by rewrite get_vl_at.
  - eexists. split; [done|]. by rewrite get_raw_at.
Qed.

Lemma write_read_fields fs s :
  Forall field_ok fs ->
  exists written, foldM write_field s fs = Ok (s ++ written)
    /\ forall rest, read_fields (shape_of <$> fs) (at_pos s (written ++ rest))
         = Ok (fs, at_pos (s ++ written) rest).
Proof.
  intros Hfs. revert s. induction Hfs as [|f fs Hf _ IH]; intros s.
  { exists []. cbn. rewrite app_nil_r. done. }
  destruct (write_read_field s f [] Hf) as (w & Hw & _). cbn [foldM]. rewrite Hw. cbn [mbind outcome_bind].
  destruct (IH (s ++ w)) as (w' & Hw' & Hr). rewrite Hw'. exists (w ++ w'). split; [by rewrite app_assoc|].
  intros rest. rewrite fmap_cons. cbn [read_fields].
  destruct (write_read_field s f (w' ++ rest) Hf) as (w2 & Hw2 & Hr2).
  assert (w2 = w) as -> by (rewrite Hw in Hw2; injection Hw2 as E; by apply app_inv_head in E).
  rewrite <- app_assoc, Hr2. cbn [mbind outcome_bind].
  rewrite (Hr rest). cbn [mbind outcome_bind]. by rewrite app_assoc.
Qed.

(** C30: the binary form of an object is faithful: any sequence of integers, bit strings,
    field identifiers, blobs and raw bytes written to an empty serializer is read
    back, value for value, by a reader that knows the kinds, and the reader ends
    at the end of the buffer. *)
Theorem serializer_roundtrip fs :
  Forall field_ok fs ->
  exists s it, foldM write_field [] fs = Ok s
    /\ read_fields (shape_of <$> fs) (iter_new s) = Ok (fs, it) /\ iter_empty it = true.
Proof.
  intros Hfs. destruct (write_read_fields fs [] Hfs) as (w & Hw & Hr). exists w, (at_pos w []).
  split; [done|]. specialize (Hr []). rewrite app_nil_r in Hr. split; [exact Hr|].
  unfold iter_empty, at_pos. cbn [it_used it_data]. rewrite app_nil_r. by apply Nat.eqb_eq.
Qed.

Definition demo_fields : list field :=
  [FId 1 2; FInt U16 0; FId 2 36; FInt U32 4294967295; FId 17 1; FBits 20 12345; FId 7 3; FVl [1; 2; 3]; FInt I64 (-5)].

Lemma serializer_roundtrip_witness :
  exists s it, foldM write_field [] demo_fields = Ok s
    /\ read_fields (shape_of <$> demo_fields) (iter_new s) = Ok (demo_fields, it) /\ iter_empty it = true.
Proof.
  apply serializer_roundtrip. unfold demo_fields.
  repeat constructor; cbn; unfold in_u32, u32_max; try lia.
Defined.

(** ** How far a read moves

    The bytes a read takes of what is ahead, [None] where it panics; a byte that is
    not there reads as zero and takes nothing. *)





















(** reading past the end: a fixed-width value answers zero and a slice answers nothing,
    without moving; a buffer answers nothing and moves to the end; raw bytes panic. *)
Theorem underflow_spec k it :
  (length (it_data it) - it_used it < BYTES k)%nat ->
  read_integer k it = (0, it) /\ get_bit_string (BYTES k) it = (0, it)
  /\ get_slice it (BYTES k) = ([], it) /\ get_raw it (BYTES k) = Panic
  /\ get_raw_helper_buffer it (BYTES k) = ([], mkIter (it_data it) (length (it_data it))).
Proof.
  intros H. assert (next_bytes it (BYTES k) = None) as E.
  { unfold next_bytes. by rewrite (proj2 (Nat.ltb_lt _ _)). }
  unfold read_integer, get_bit_string, get_slice, get_raw, get_raw_helper_buffer. rewrite E.
  split; [by destruct k|done].
Qed.

Lemma underflow_spec_witness :
  read_integer U32 (mkIter [1; 2; 3; 4] 1) = (0, mkIter [1; 2; 3; 4] 1)
  /\ get_raw (mkIter [1; 2; 3; 4] 1) 4 = Panic.
Proof.
  destruct (underflow_spec U32 (mkIter [1; 2; 3; 4] 1)) as (H1 & _ & _ & H2 & _); [simpl; lia|].
  exact (conj H1 H2).
Defined.
