(* ===== verification/ShaMapNodeId.v ===== *)
(** * Positions in a SHAMap

    [xrpl/shamap/src/nodes/node_id.rs]: a node of the 16-way radix tree over 256-bit
    keys is named by its depth (at most 64) and the key prefix that leads to it.
    A [Uint256] is the number its big-endian bytes spell. *)

From S2P Require Import Prelude Serializer.

(** ** Definitions *)

Definition SHAMAP_BRANCH_FACTOR : Z := 16.
Definition SHAMAP_LEAF_DEPTH : Z := 64.

Inductive SHAMapNodeIdError :=
| InvalidDepth
| HashDoesNotMatchDepth
| InvalidBranch
| LeafHasNoChildren.

Record SHAMapNodeId := mkNodeId { nid : Z; ndepth : Z }.

Definition root_id : SHAMapNodeId := mkNodeId 0 0.

(** [DEPTH_MASKS[depth]]: the loop over the nibbles it keeps. *)
Definition depth_mask (depth : Z) : Z :=
  foldl (fun mask nibble =>
      Z.lor mask (Z.shiftl (if Z.land nibble 1 =? 0 then 240 else 15) (8 * (31 - nibble / 2))))
    0 (seqZ 0 depth).

Definition node_id_new (depth hash : Z) : SHAMapNodeId + SHAMapNodeIdError :=
  if SHAMAP_LEAF_DEPTH <? depth then inr InvalidDepth
  else if negb (hash =? Z.land hash (depth_mask depth)) then inr HashDoesNotMatchDepth
  else inl (mkNodeId hash depth).

Definition is_root (n : SHAMapNodeId) : bool := ndepth n =? 0.

(** The 32 bytes of the prefix, then the depth. *)
Definition get_raw_string (n : SHAMapNodeId) : list Z := be_bytes 32 (nid n) ++ [ndepth n].

Definition get_child_node_id (n : SHAMapNodeId) (branch : Z) : SHAMapNodeId + SHAMapNodeIdError :=
  if SHAMAP_BRANCH_FACTOR <=? branch then inr InvalidBranch
  else if SHAMAP_LEAF_DEPTH <=? ndepth n then inr LeafHasNoChildren
  else if negb (nid n =? Z.land (nid n) (depth_mask (ndepth n))) then inr HashDoesNotMatchDepth
  else
    let depth := ndepth n in
    let byte := if Z.land depth 1 =? 1 then branch else Z.shiftl branch 4 in
    inl (mkNodeId (Z.lor (nid n) (Z.shiftl byte (8 * (31 - depth / 2)))) (depth + 1)).

Definition create_id (depth key : Z) : SHAMapNodeId + SHAMapNodeIdError :=
  if SHAMAP_LEAF_DEPTH <? depth then inr InvalidDepth
  else node_id_new depth (Z.land key (depth_mask depth)).

Definition deserialize_shamap_node_id (data : list Z) : option SHAMapNodeId :=
  if negb (length data =? 33)%nat then None
  else
    depth ← data !! 32%nat;
    if SHAMAP_LEAF_DEPTH <? depth then None
    else
      match node_id_new depth (from_be (take 32 data)) with
      | inl n => Some n
      | inr _ => None
      end.

Definition select_branch (n : SHAMapNodeId) (hash : Z) : Z :=
  let depth := Z.min (ndepth n) (SHAMAP_LEAF_DEPTH - 1) in
  let branch := Z.land (Z.shiftr hash (8 * (31 - depth / 2))) 255 in
  if Z.land depth 1 =? 1 then Z.land branch 15 else Z.shiftr branch 4.

(** ** Keys as digits *)

Definition is_key (k : Z) : Prop := 0 <= k < 2 ^ 256.

(** The digit of a key that an inner node at depth [d] branches on. *)
Definition nibble (d k : Z) : Z := (k / 16 ^ (63 - d)) mod 16.

(** The first [d] digits of a key, the rest zero. *)
Definition prefix (d k : Z) : Z := k / 16 ^ (64 - d) * 16 ^ (64 - d).

Lemma nibble_range d k : 0 <= nibble d k < 16.
Proof. apply Z.mod_pos_bound. lia. Qed.

(** What holds of each of the depths in a range, checked one by one. *)
Lemma depth_cases (P : Z -> bool) lo n :
  forallb P (seqZ lo n) = true -> forall d, lo <= d < lo + n -> P d = true.
Proof. intros H d Hd. rewrite forallb_forall in H. apply H, list_elem_of_In, elem_of_seqZ. lia. Qed.

Lemma land_1_odd d : Z.land d 1 = d mod 2.
Proof. change 1 with (Z.ones 1). by apply Z.land_ones. Qed.

Lemma select_branch_nibble n k : 0 <= ndepth n < 64 -> select_branch n k = nibble (ndepth n) k.
Proof.
  intros Hd. unfold select_branch, nibble, SHAMAP_LEAF_DEPTH. rewrite Z.min_l by lia.
  set (d := ndepth n) in *. rewrite land_1_odd.
  change 15 with (Z.ones 4). change 255 with (Z.ones 8).
  rewrite !Z.land_ones, !Z.shiftr_div_pow2 by (Z.to_euclidean_division_equations; lia).
  change (2 ^ 4) with 16. change (2 ^ 8) with 256.
  assert (2 ^ (8 * (31 - d / 2)) = 256 ^ (31 - d / 2)) as ->
    by (rewrite Z.pow_mul_r by (Z.to_euclidean_division_equations; lia); done).
  pose proof (Z.div_mod d 2 ltac:(lia)) as Ed. pose proof (Z.mod_pos_bound d 2 ltac:(lia)).
  set (q := d / 2) in *. assert (0 <= q <= 31) by lia.
  assert (0 < 256 ^ (31 - q)) by (apply Z.pow_pos_nonneg; lia).
  assert (256 ^ (31 - q) = 16 ^ (2 * (31 - q))) as E16 by (rewrite Z.pow_mul_r by lia; done).
  destruct (Z.eqb_spec (d mod 2) 1) as [Hodd|Heven].
  - replace (63 - d) with (2 * (31 - q)) by lia. rewrite <- E16.
    symmetry. apply (Znumtheory.Zmod_div_mod 16 256); [lia|lia|]. by exists 16.
  - replace (63 - d) with (2 * (31 - q) + 1) by lia. rewrite Z.pow_add_r, <- E16 by lia.
    change (16 ^ 1) with 16. rewrite <- Z.div_div by lia.
    generalize (k / 256 ^ (31 - q)). intros a. Z.to_euclidean_division_equations; lia.
Qed.

Lemma depth_mask_eq d : 0 <= d <= 64 -> depth_mask d = Z.shiftl (Z.ones (4 * d)) (4 * (64 - d)).
Proof.
  intros Hd. apply Z.eqb_eq.
  apply (depth_cases (fun d => depth_mask d =? Z.shiftl (Z.ones (4 * d)) (4 * (64 - d))) 0 65); [|lia].
  vm_compute. reflexivity.
Qed.

Lemma testbit_high k i : is_key k -> 256 <= i -> Z.testbit k i = false.
Proof.
  intros [H0 H] Hi. destruct (Z.eq_dec k 0) as [->|Hk]; [apply Z.bits_0|].
  apply Z.bits_above_log2; [lia|]. apply Z.log2_lt_pow2; [lia|].
  eapply Z.lt_le_trans; [exact H|]. apply Z.pow_le_mono_r; lia.
Qed.

Lemma prefix_shift d k : 0 <= d <= 64 -> prefix d k = Z.shiftl (Z.shiftr k (4 * (64 - d))) (4 * (64 - d)).
Proof.
  intros Hd. unfold prefix. rewrite Z.shiftl_mul_pow2, Z.shiftr_div_pow2 by lia.
  by rewrite Z.pow_mul_r by lia.
Qed.

(** Masking a key keeps its first digits. *)
Lemma land_depth_mask d k : 0 <= d <= 64 -> is_key k -> Z.land k (depth_mask d) = prefix d k.
Proof.
  intros Hd Hk. rewrite depth_mask_eq, prefix_shift by done. apply Z.bits_inj'. intros i Hi.
  rewrite Z.land_spec. destruct (Z.ltb_spec i (4 * (64 - d))) as [Hlt|Hge].
  - rewrite !Z.shiftl_spec_low by done. by rewrite andb_false_r.
  - rewrite !Z.shiftl_spec_high, Z.shiftr_spec by lia.
    replace (i - 4 * (64 - d) + 4 * (64 - d)) with i by lia.
    destruct (Z.ltb_spec i 256).
    + rewrite Z.ones_spec_low by lia. by rewrite andb_true_r.
    + rewrite testbit_high by done. done.
Qed.

Lemma pow16_pos e : 0 <= e -> 0 < 16 ^ e.
Proof. apply Z.pow_pos_nonneg. lia. Qed.

Lemma prefix_idem d k : 0 <= d <= 64 -> prefix d (prefix d k) = prefix d k.
Proof. intros Hd. unfold prefix. rewrite Z.div_mul by (pose proof (pow16_pos (64 - d)); lia). done. Qed.

Lemma prefix_range d k : 0 <= d <= 64 -> is_key k -> is_key (prefix d k).
Proof.
  intros Hd [H0 H]. pose proof (pow16_pos (64 - d) ltac:(lia)). unfold prefix, is_key.
  pose proof (Z.mul_div_le k (16 ^ (64 - d)) ltac:(lia)). pose proof (Z.div_pos k (16 ^ (64 - d)) H0 ltac:(lia)).
  split; [nia|lia].
Qed.

(** One more digit. *)
Lemma prefix_succ d k :
  0 <= d < 64 -> prefix (d + 1) k = prefix d k + nibble d k * 16 ^ (63 - d).
Proof.
  intros Hd. unfold prefix, nibble. replace (64 - (d + 1)) with (63 - d) by lia.
  replace (64 - d) with (Z.succ (63 - d)) by lia. rewrite Z.pow_succ_r by lia.
  pose proof (pow16_pos (63 - d) ltac:(lia)).
  rewrite (Z.mul_comm 16), <- Z.div_div by lia.
  pose proof (Z.div_mod (k / 16 ^ (63 - d)) 16 ltac:(lia)). nia.
Qed.

Lemma lor_low a b s : 0 <= s -> 0 <= b < 2 ^ s -> Z.lor (a * 2 ^ s) b = a * 2 ^ s + b.
Proof.
  intros Hs Hb. assert (Z.land (a * 2 ^ s) b = 0) as E.
  { apply Z.bits_inj'. intros i Hi. rewrite Z.land_spec, Z.bits_0.
    destruct (Z.ltb_spec i s).
    - by rewrite Z.mul_pow2_bits_low.
    - destruct (Z.eq_dec b 0) as [->|Hb0]; [by rewrite Z.bits_0, andb_false_r|].
      rewrite (Z.bits_above_log2 b i); [by rewrite andb_false_r|lia|].
      apply Z.log2_lt_pow2; [lia|]. eapply Z.lt_le_trans; [apply Hb|]. apply Z.pow_le_mono_r; lia. }
  rewrite <- Z.lxor_lor by done. symmetry. by apply Z.add_nocarry_lxor.
Qed.

(** ** Names of nodes *)

(** The position at depth [d] on the way to a key. *)
Definition position (d k : Z) : SHAMapNodeId := mkNodeId (prefix d k) d.

Definition id_ok (n : SHAMapNodeId) : Prop :=
  0 <= ndepth n <= 64 /\ is_key (nid n) /\ prefix (ndepth n) (nid n) = nid n.

Lemma position_ok d k : 0 <= d <= 64 -> is_key k -> id_ok (position d k).
Proof. intros Hd Hk. split; [done|]. split; [by apply prefix_range|]. by apply prefix_idem. Qed.

Lemma create_id_eq d k : 0 <= d <= 64 -> is_key k -> create_id d k = inl (position d k).
Proof.
  intros Hd Hk. unfold create_id, node_id_new, SHAMAP_LEAF_DEPTH.
  rewrite (proj2 (Z.ltb_ge 64 d)) by lia. rewrite land_depth_mask by done.
  rewrite land_depth_mask by (done || by apply prefix_range). rewrite prefix_idem by done.
  by rewrite Z.eqb_refl.
Qed.

Lemma child_shift d b :
  0 <= d < 64 -> 0 <= b ->
  Z.shiftl (if Z.land d 1 =? 1 then b else Z.shiftl b 4) (8 * (31 - d / 2)) = b * 16 ^ (63 - d).
Proof.
  intros Hd Hb. rewrite land_1_odd. pose proof (Z.div_mod d 2 ltac:(lia)). pose proof (Z.mod_pos_bound d 2 ltac:(lia)).
  set (q := d / 2) in *. rewrite Z.shiftl_mul_pow2 by lia.
  assert (2 ^ (8 * (31 - q)) = 16 ^ (2 * (31 - q))) as ->.
  { rewrite !Z.pow_mul_r by lia. done. }
  destruct (Z.eqb_spec (d mod 2) 1).
  - by replace (63 - d) with (2 * (31 - q)) by lia.
  - replace (63 - d) with (Z.succ (2 * (31 - q))) by lia. rewrite Z.pow_succ_r by lia.
    rewrite Z.shiftl_mul_pow2 by lia. change (2 ^ 4) with 16. lia.
Qed.

Lemma get_child_node_id_position d k :
  0 <= d < 64 -> is_key k -> get_child_node_id (position d k) (nibble d k) = inl (position (d + 1) k).
Proof.
  intros Hd Hk. unfold get_child_node_id, SHAMAP_BRANCH_FACTOR, SHAMAP_LEAF_DEPTH, position.
  cbn [nid ndepth]. pose proof (nibble_range d k).
  rewrite (proj2 (Z.leb_gt 16 _)), (proj2 (Z.leb_gt 64 d)) by lia.
  rewrite land_depth_mask by (lia || (apply prefix_range; [lia|done])). rewrite prefix_idem, Z.eqb_refl by lia.
  cbn [negb]. rewrite child_shift by lia. do 2 f_equal. rewrite prefix_succ by lia.
  unfold prefix. replace (16 ^ (64 - d)) with (2 ^ (4 * (64 - d))) by (by rewrite Z.pow_mul_r by lia).
  apply lor_low; [lia|]. rewrite Z.pow_mul_r by lia. change (2 ^ 4) with 16.
  replace (64 - d) with (Z.succ (63 - d)) by lia. rewrite Z.pow_succ_r by lia.
  pose proof (pow16_pos (63 - d) ltac:(lia)). nia.
Qed.

(** descending a SHAMap along a key names the nodes by the key's prefixes: selecting the
    branch of the key at the position of depth [d] and taking the child there is the
    position of depth [d + 1], and no other branch has that name. *)
Theorem node_id_follows_key d k b :
  0 <= d < 64 -> is_key k -> 0 <= b < 16 ->
  create_id d k = inl (position d k)
  /\ (get_child_node_id (position d k) b = inl (position (d + 1) k) <-> b = select_branch (position d k) k).
Proof.
  intros Hd Hk Hb. split; [apply create_id_eq; [lia|done]|]. rewrite select_branch_nibble by done.
  cbn [ndepth position]. split; [|intros ->; by apply get_child_node_id_position].
  pose proof (get_child_node_id_position d k Hd Hk) as E. revert E.
  unfold get_child_node_id, SHAMAP_BRANCH_FACTOR, SHAMAP_LEAF_DEPTH. cbn [nid ndepth position].
  pose proof (nibble_range d k).
  rewrite (proj2 (Z.leb_gt 16 _)), (proj2 (Z.leb_gt 16 b)), (proj2 (Z.leb_gt 64 d)) by lia.
  destruct (negb _); [done|]. rewrite !child_shift by lia. intros [= E] [= E'].
  rewrite <- E in E'. unfold prefix in E'.
  replace (16 ^ (64 - d)) with (2 ^ (4 * (64 - d))) in E' by (by rewrite Z.pow_mul_r by lia).
  assert (2 ^ (4 * (64 - d)) = 16 * 16 ^ (63 - d)) as E2.
  { rewrite Z.pow_mul_r by lia. change (2 ^ 4) with 16. rewrite <- Z.pow_succ_r by lia. f_equal. lia. }
  pose proof (pow16_pos (63 - d) ltac:(lia)).
  rewrite !lor_low in E' by (lia || rewrite E2; nia). nia.
Qed.

Lemma node_id_follows_key_witness :
  get_child_node_id (position 2 (Z.shiftl 171 248)) 7 <> inl (position 3 (Z.shiftl 171 248)).
Proof.
  destruct (node_id_follows_key 2 (Z.shiftl 171 248) 7) as [_ H]; [lia|unfold is_key; vm_compute; split; congruence|lia|].
  intros E. apply H in E. vm_compute in E. congruence.
Defined.

Lemma node_id_new_ok d k : 0 <= d -> is_key k -> forall n, node_id_new d k = inl n <-> n = mkNodeId k d /\ id_ok n.
Proof.
  intros Hd Hk n. unfold node_id_new, SHAMAP_LEAF_DEPTH, id_ok.
  destruct (Z.ltb_spec 64 d); [split; [done|intros [-> [? _]]; simpl in *; lia]|].
  rewrite land_depth_mask by (lia || done).
  destruct (Z.eqb_spec k (prefix d k)) as [E|E]; simpl.
  - split; [intros [= <-]; simpl; split; [done|]; split; [lia|]; by split|]. by intros [-> _].
  - split; [done|]. intros [-> (_ & _ & E')]. simpl in E'. congruence.
Qed.

(** a node name has one wire form: the 33 bytes written for a well-formed name are read
    back as that name, and whatever 33 bytes the reader accepts are the wire form of a
    well-formed name. Depths above 64 and prefixes longer than the depth are
    refused. *)
Theorem node_id_wire data n :
  Forall is_byte data ->
  deserialize_shamap_node_id data = Some n <-> id_ok n /\ data = get_raw_string n.
Proof.
  intros Hb. unfold deserialize_shamap_node_id, get_raw_string. split.
  - destruct (Nat.eqb_spec (length data) 33) as [Hlen|]; [|done]. cbn [negb].
    destruct (lookup_lt_is_Some_2 data 32 ltac:(lia)) as [d Ed]. rewrite Ed. cbn [mbind option_bind].
    destruct (SHAMAP_LEAF_DEPTH <? d); [done|].
    assert (data = take 32 data ++ [d]) as Edata.
    { rewrite <- (take_drop 32 data) at 1. f_equal. rewrite (drop_S data d 32 Ed). by rewrite drop_ge by lia. }
    assert (Forall is_byte (take 32 data)) as Hb' by (by apply Forall_take).
    assert (length (take 32 data) = 32%nat) as Hl by (rewrite length_take; lia).
    assert (is_byte d) as Hd by exact (Forall_lookup_1 _ _ _ _ Hb Ed).
    pose proof (from_be_range _ Hb') as Hr. rewrite Hl in Hr.
    destruct (node_id_new d (from_be (take 32 data))) as [n'|] eqn:E; [|done]. intros [= ->].
    apply node_id_new_ok in E as [-> Hok]; [|unfold is_byte in Hd; lia|exact Hr].
    split; [done|]. cbn [nid ndepth].
    pose proof (be_bytes_from_be _ Hb') as E. rewrite Hl in E. by rewrite E.
  - intros [Hok ->]. destruct n as [k d]. cbn [nid ndepth] in *.
    pose proof Hok as (Hd & Hk & _). cbn [nid ndepth] in *.
    rewrite length_app, length_be_bytes. cbn [length Nat.add Nat.eqb negb].
    rewrite lookup_app_r, length_be_bytes by (rewrite length_be_bytes; lia). change (32 - 32)%nat with 0%nat.
    cbn [lookup list_lookup mbind option_bind].
    unfold SHAMAP_LEAF_DEPTH. rewrite (proj2 (Z.ltb_ge 64 d)) by lia.
    rewrite take_app_length' by (by rewrite length_be_bytes). rewrite from_be_be_bytes.
    rewrite Z.mod_small by exact Hk.
    rewrite (proj2 (node_id_new_ok d k ltac:(lia) Hk (mkNodeId k d))); done.
Qed.

Lemma node_id_wire_witness :
  deserialize_shamap_node_id (get_raw_string (position 3 (Z.shiftl 2748 244)))
    = Some (position 3 (Z.shiftl 2748 244))
  /\ deserialize_shamap_node_id (be_bytes 32 1 ++ [3]) = None.
Proof.
  split; [|reflexivity]. apply node_id_wire.
  - apply Forall_app. split; [apply be_bytes_bytes|]. repeat constructor; cbn; lia.
  - split; [|reflexivity]. apply position_ok; [lia|]. unfold is_key. vm_compute. split; congruence.
Defined.
