(* ===== verification/ShaMap.v ===== *)
(** * The mutable SHAMap: definitions

    The radix tree that holds ledger state and transaction sets, with copy-on-write
    sharing between trees: [xrpl/shamap/src/operations/mutation.rs] ([MutableTree]),
    the descent of [xrpl/shamap/src/operations/search.rs], and the nodes of
    [xrpl/shamap/src/nodes/tree_node.rs].

    Nodes are shared by reference, so they live in a store addressed by location; a
    method is a handler on the store and on the tree it is called on. The compact
    arrays of an inner node are the map from the branches present to the hash and
    the loaded child kept there. Locks, reference counts, the persisted mark and the
    full-below generation are dropped. [SHA-512] is a parameter. Trees are not
    backed by storage ([backed = false]): a branch without a loaded child is a
    missing node. The writer of [walk_subtree] is [None]. *)

From S2P Require Import Prelude Stateful Serializer ShaMapNodeId.

(** ** Nodes *)

Inductive SHAMapNodeType := NtInner | TransactionNm | TransactionMd | AccountState.
#[global] Instance node_type_eq_dec : EqDecision SHAMapNodeType.
Proof. solve_decision. Defined.

Record SHAMapItem := mkItem { item_key : Z; item_data : list Z }.
#[global] Instance item_eq_dec : EqDecision SHAMapItem.
Proof. solve_decision. Defined.

Definition MIN_SHAMAP_ITEM_BYTES : Z := 12.
Definition BRANCH_FACTOR : Z := 16.
Definition HASH_PREFIX_TRANSACTION_ID : Z := 1415073280.
Definition HASH_PREFIX_TX_NODE : Z := 1397638144.
Definition HASH_PREFIX_LEAF_NODE : Z := 1296846336.
Definition HASH_PREFIX_INNER_NODE : Z := 1296649728.

(** One present branch: the hash recorded for it and the child if it is loaded. *)
Record Child := mkChild { ch_hash : Z; ch_node : option nat }.

Inductive NodeBody :=
| Inner (children : gmap Z Child)
| Leaf (node_type : SHAMapNodeType) (item : SHAMapItem).

Record SHAMapTreeNode := mkNode { cowid : Z; hash : Z; node_body : NodeBody }.

Definition set_cowid (c : Z) (n : SHAMapTreeNode) : SHAMapTreeNode := mkNode c (hash n) (node_body n).
Definition set_hash (h : Z) (n : SHAMapTreeNode) : SHAMapTreeNode := mkNode (cowid n) h (node_body n).

Definition is_inner (n : SHAMapTreeNode) : bool :=
  match node_body n with Inner _ => true | Leaf _ _ => false end.

(** No child on a leaf, as [get_child] and [is_empty_branch] answer there. *)
Definition children_of (n : SHAMapTreeNode) : gmap Z Child :=
  match node_body n with Inner children => children | Leaf _ _ => ∅ end.

Definition is_empty_branch (n : SHAMapTreeNode) (branch : Z) : bool :=
  is_inner n && bool_decide (children_of n !! branch = None).
Definition branch_count (n : SHAMapTreeNode) : Z := Z.of_nat (size (children_of n)).
Definition get_child (n : SHAMapTreeNode) (branch : Z) : option nat :=
  c ← children_of n !! branch; ch_node c.
Definition get_child_hash (n : SHAMapTreeNode) (branch : Z) : Z :=
  match children_of n !! branch with Some c => ch_hash c | None => 0 end.
Definition peek_item (n : SHAMapTreeNode) : option SHAMapItem :=
  match node_body n with Leaf _ item => Some item | Inner _ => None end.
Definition get_type (n : SHAMapTreeNode) : SHAMapNodeType :=
  match node_body n with Leaf t _ => t | Inner _ => NtInner end.

Definition branches : list Z := seqZ 0 BRANCH_FACTOR.

(** ** Trees and errors *)

Record MutableTree := mkTree { root : nat; tree_cowid : Z }.

Record NodePathEntry := mkEntry { entry_node : nat; entry_id : SHAMapNodeId }.

Inductive TraversalError :=
| MissingNode (hash : Z)
| RootNotFound
| View.

Inductive MutationError :=
| Traversal (error : TraversalError)
| RootMustBeInner
| InnerNodeMustBeOwned (id : SHAMapNodeId)
| LeafNodeMustBeOwned (id : SHAMapNodeId)
| DuplicateExactLeaf (key : Z)
| MissingExactLeaf (key : Z)
| CrossTypeChange (requested existing : SHAMapNodeType).

Record World := mkWorld { cells : gmap nat SHAMapTreeNode; self : MutableTree }.

Notation action := (handler World).

Definition set_cells (c : gmap nat SHAMapTreeNode) (w : World) : World := mkWorld c (self w).
Definition set_root (l : nat) (w : World) : World := mkWorld (cells w) (mkTree l (tree_cowid (self w))).

(** [Result]: the next step runs on success only. *)
Definition and_then {A B} (m : action (A + MutationError)) (f : A -> action (B + MutationError))
  : action (B + MutationError) :=
  r ← m;
  match r with inl a => f a | inr e => mret (inr e) end.

Section Operations.
(** The first half of [SHA-512], as a number. *)
Context (sha512_half : list Z -> Z).

(** ** Hashes *)

Definition compute_leaf_hash (t : SHAMapNodeType) (item : SHAMapItem) : Z :=
  match t with
  | TransactionNm => sha512_half (be_bytes 4 HASH_PREFIX_TRANSACTION_ID ++ item_data item)
  | TransactionMd =>
      sha512_half (be_bytes 4 HASH_PREFIX_TX_NODE ++ item_data item ++ be_bytes 32 (item_key item))
  | _ =>
      sha512_half (be_bytes 4 HASH_PREFIX_LEAF_NODE ++ item_data item ++ be_bytes 32 (item_key item))
  end.

(** All sixteen hashes, zero for an absent branch. *)
Definition compute_inner_hash (children : gmap Z Child) : Z :=
  if bool_decide (children = ∅) then 0
  else
    sha512_half (be_bytes 4 HASH_PREFIX_INNER_NODE ++
      concat ((fun b => be_bytes 32 (match children !! b with Some c => ch_hash c | None => 0 end))
        <$> branches)).

(** ** Operations on one node *)

Definition node_at (l : nat) : action SHAMapTreeNode :=
  w ← gets cells; lift (expect (w !! l)).

Definition store (l : nat) (n : SHAMapTreeNode) : action unit :=
  modify (fun w => set_cells (<[l := n]> (cells w)) w).

Definition alloc (n : SHAMapTreeNode) : action nat :=
  w ← gets cells;
  let l := fresh (dom w) in
  _ ← store l n;
  mret l.

Definition new_inner (c : Z) : action nat := alloc (mkNode c 0 (Inner ∅)).

Definition new_leaf_with_hash (t : SHAMapNodeType) (item : SHAMapItem) (c h : Z) : action nat :=
  _ ← debug_assert (MIN_SHAMAP_ITEM_BYTES <=? Z.of_nat (length (item_data item)));
  _ ← debug_assert (negb (bool_decide (t = NtInner)));
  alloc (mkNode c h (Leaf t item)).

Definition new_leaf (t : SHAMapNodeType) (item : SHAMapItem) (c : Z) : action nat :=
  _ ← debug_assert (MIN_SHAMAP_ITEM_BYTES <=? Z.of_nat (length (item_data item)));
  _ ← debug_assert (negb (bool_decide (t = NtInner)));
  new_leaf_with_hash t item c (compute_leaf_hash t item).

Definition clone_with_cowid (l : nat) (c : Z) : action nat :=
  n ← node_at l;
  match node_body n with
  | Leaf t item => new_leaf_with_hash t item c (hash n)
  | Inner children => alloc (mkNode c (hash n) (Inner children))
  end.

Definition set_child (l : nat) (branch : Z) (child : option nat) : action unit :=
  n ← node_at l;
  _ ← debug_assert ((0 <=? branch) && (branch <? BRANCH_FACTOR));
  _ ← debug_assert (negb (cowid n =? 0));
  match node_body n with
  | Leaf _ _ => lift Panic
  | Inner children =>
      let children :=
        match child with
        | Some c => <[branch := mkChild 0 (Some c)]> children
        | None => delete branch children
        end in
      store l (mkNode (cowid n) 0 (Inner children))
  end.

Definition share_child (l : nat) (branch : Z) (child : nat) : action unit :=
  n ← node_at l;
  _ ← debug_assert (negb (cowid n =? 0));
  match node_body n with
  | Leaf _ _ => lift Panic
  | Inner children =>
      c ← lift (expect (children !! branch));
      store l (mkNode (cowid n) (hash n) (Inner (<[branch := mkChild (ch_hash c) (Some child)]> children)))
  end.

(** Whether the hash changed. *)
Definition set_item (l : nat) (item : SHAMapItem) : action bool :=
  n ← node_at l;
  match node_body n with
  | Inner _ => lift Panic
  | Leaf t _ =>
      _ ← debug_assert (negb (cowid n =? 0));
      let next := compute_leaf_hash t item in
      _ ← store l (mkNode (cowid n) next (Leaf t item));
      mret (negb (hash n =? next))
  end.

Definition update_hash (l : nat) : action unit :=
  n ← node_at l;
  store l (set_hash (match node_body n with
                     | Inner children => compute_inner_hash children
                     | Leaf t item => compute_leaf_hash t item
                     end) n).

(** The hashes of the loaded children are recorded first. *)
Definition update_hash_deep (l : nat) : action unit :=
  n ← node_at l;
  w ← gets cells;
  match node_body n with
  | Leaf _ _ => lift Panic
  | Inner children =>
      let children :=
        (fun c => match ch_node c with
                  | Some l' => mkChild (match w !! l' with Some n' => hash n' | None => 0 end) (Some l')
                  | None => c
                  end) <$> children in
      store l (mkNode (cowid n) (compute_inner_hash children) (Inner children))
  end.

Definition unshare_cell (l : nat) : action unit :=
  n ← node_at l; store l (set_cowid 0 n).

(** ** Descent *)

Definition child_id (n : SHAMapNodeId) (branch : Z) : action SHAMapNodeId :=
  lift (expect (match get_child_node_id n branch with inl n => Some n | inr _ => None end)).

(** [walk_towards_key_with_path]: the terminal node, if any, and the nodes visited.
    The depth grows at every step, so 65 steps are enough. *)
Fixpoint walk (fuel : nat) (key : Z) (l : nat) (id : SHAMapNodeId)
  : action ((option nat * list NodePathEntry) + MutationError) :=
  match fuel with
  | O => no_fuel
  | S fuel =>
      n ← node_at l;
      if negb (is_inner n) then mret (inl (Some l, [mkEntry l id]))
      else
        let branch := select_branch id key in
        if is_empty_branch n branch then mret (inl (None, [mkEntry l id]))
        else
          match get_child n branch with
          | None => mret (inr (Traversal (MissingNode (get_child_hash n branch))))
          | Some next =>
              id' ← child_id id branch;
              and_then (walk fuel key next id') (fun r =>
                mret (inl (fst r, mkEntry l id :: snd r)))
          end
  end.

Definition walk_towards_key_with_path (key : Z)
  : action ((option nat * list NodePathEntry) + MutationError) :=
  t ← gets self;
  walk 65 key (root t) root_id.

Definition find_key (key : Z) : action (option nat + MutationError) :=
  and_then (walk_towards_key_with_path key) (fun r =>
    match fst r with
    | None => mret (inl None)
    | Some leaf =>
        n ← node_at leaf;
        mret (inl (match peek_item n with
                   | Some item => if item_key item =? key then Some leaf else None
                   | None => None
                   end))
    end).

Definition has_item (key : Z) : action bool :=
  r ← find_key key;
  mret (match r with inl (Some _) => true | _ => false end).

(** ** Copy on write *)

Definition unshare_node (l : nat) (id : SHAMapNodeId) : action nat :=
  n ← node_at l;
  t ← gets self;
  _ ← debug_assert (cowid n <=? tree_cowid t);
  if cowid n =? tree_cowid t then mret l
  else
    cloned ← clone_with_cowid l (tree_cowid t);
    _ ← when (is_root id) (modify (set_root cloned));
    mret cloned.

(** The loop over the path from its end; the child to link is the next result. *)
Fixpoint dirty_up_loop (entries : list NodePathEntry) (target : Z) (child : nat) : action nat :=
  match entries with
  | [] => mret child
  | e :: entries =>
      let branch := select_branch (entry_id e) target in
      node ← unshare_node (entry_node e) (entry_id e);
      _ ← set_child node branch (Some child);
      dirty_up_loop entries target node
  end.

Definition dirty_up (path : list NodePathEntry) (target : Z) (child : nat) : action nat :=
  dirty_up_loop (reverse path) target child.

(** The path without its last entry. *)
Definition parents (path : list NodePathEntry) : list NodePathEntry :=
  take (length path - 1) path.

Definition add_into_empty_branch (path : list NodePathEntry) (target : Z) (t : SHAMapNodeType)
  (item : SHAMapItem) : action (bool + MutationError) :=
  match last path with
  | None => mret (inr RootMustBeInner)
  | Some parent_entry =>
      let branch := select_branch (entry_id parent_entry) target in
      parent ← unshare_node (entry_node parent_entry) (entry_id parent_entry);
      pn ← node_at parent;
      _ ← debug_assert (is_inner pn);
      _ ← debug_assert (is_empty_branch pn branch);
      s ← gets self;
      leaf ← new_leaf t item (tree_cowid s);
      _ ← set_child parent branch (Some leaf);
      r ← dirty_up (parents path) target parent;
      _ ← modify (set_root r);
      mret (inl true)
  end.

(** The loop of [add_with_leaf_split]: one inner node per level on which the two
    keys agree. *)
Fixpoint split_loop (fuel : nat) (t : SHAMapNodeType) (item existing : SHAMapItem)
  (graft_stack : list NodePathEntry) (id : SHAMapNodeId) (split_node : nat)
  : action (bool + MutationError) :=
  match fuel with
  | O => no_fuel
  | S fuel =>
      s ← gets self;
      let target := item_key item in
      let new_branch := select_branch id target in
      let old_branch := select_branch id (item_key existing) in
      if negb (new_branch =? old_branch) then
        new ← new_leaf t item (tree_cowid s);
        _ ← set_child split_node new_branch (Some new);
        old ← new_leaf t existing (tree_cowid s);
        _ ← set_child split_node old_branch (Some old);
        r ← dirty_up graft_stack target split_node;
        _ ← modify (set_root r);
        mret (inl true)
      else
        id' ← child_id id new_branch;
        next ← new_inner (tree_cowid s);
        split_loop fuel t item existing (graft_stack ++ [mkEntry split_node id]) id' next
  end.

Definition add_with_leaf_split (path : list NodePathEntry) (leaf : nat) (t : SHAMapNodeType)
  (item : SHAMapItem) : action (bool + MutationError) :=
  let target := item_key item in
  match last path with
  | None => mret (inr RootMustBeInner)
  | Some leaf_entry =>
      n ← node_at leaf;
      match peek_item n with
      | None => mret (inr (MissingExactLeaf target))
      | Some existing =>
          if item_key existing =? target then mret (inl false)
          else if negb (bool_decide (get_type n = t)) then
            mret (inr (CrossTypeChange t (get_type n)))
          else
            s ← gets self;
            split_node ← new_inner (tree_cowid s);
            split_loop 65 t item existing (parents path) (entry_id leaf_entry) split_node
      end
  end.

Definition add_item (t : SHAMapNodeType) (item : SHAMapItem) : action (bool + MutationError) :=
  _ ← debug_assert (negb (bool_decide (t = NtInner)));
  let target := item_key item in
  and_then (walk_towards_key_with_path target) (fun r =>
    match fst r with
    | None => add_into_empty_branch (snd r) target t item
    | Some leaf => add_with_leaf_split (snd r) leaf t item
    end).

Definition update_item (t : SHAMapNodeType) (item : SHAMapItem) : action (bool + MutationError) :=
  _ ← debug_assert (negb (bool_decide (t = NtInner)));
  let target := item_key item in
  and_then (walk_towards_key_with_path target) (fun r =>
    match fst r, last (snd r) with
    | Some leaf, Some leaf_entry =>
        n ← node_at leaf;
        match peek_item n with
        | None => mret (inr (MissingExactLeaf target))
        | Some existing =>
            if negb (item_key existing =? target) then mret (inr (MissingExactLeaf target))
            else if negb (bool_decide (get_type n = t)) then
              mret (inr (CrossTypeChange t (get_type n)))
            else
              leaf ← unshare_node leaf (entry_id leaf_entry);
              changed ← set_item leaf item;
              _ ← when changed
                    (r' ← dirty_up (parents (snd r)) target leaf;
                     modify (set_root r'));
              mret (inl true)
        end
    | _, _ => mret (inr (MissingExactLeaf target))
    end).

(** ** Deletion *)

Definition select_only_branch (n : SHAMapTreeNode) : option Z :=
  head (filter (fun b => is_empty_branch n b = false) branches).

(** The only loaded child of an inner node: [None] if a child is missing or there
    are several. *)
Fixpoint only_child (n : SHAMapTreeNode) (bs : list Z) (next : option nat) : option (option nat) :=
  match bs with
  | [] => Some next
  | b :: bs =>
      if is_empty_branch n b then only_child n bs next
      else
        match get_child n b, next with
        | None, _ => None
        | Some _, Some _ => None
        | Some child, None => only_child n bs (Some child)
        end
  end.

Fixpoint only_below_loaded_leaf (fuel : nat) (l : nat) : action (option nat) :=
  match fuel with
  | O => no_fuel
  | S fuel =>
      n ← node_at l;
      if negb (is_inner n) then mret (Some l)
      else
        match only_child n branches None with
        | Some (Some child) => only_below_loaded_leaf fuel child
        | _ => mret None
        end
  end.

(** The loop over the path from the parent of the deleted leaf up. *)
Fixpoint delete_loop (entries : list NodePathEntry) (target : Z) (prev_node : option nat)
  : action unit :=
  match entries with
  | [] => mret tt
  | e :: entries =>
      node ← unshare_node (entry_node e) (entry_id e);
      let branch := select_branch (entry_id e) target in
      _ ← set_child node branch prev_node;
      if is_root (entry_id e) then
        _ ← modify (set_root node);
        delete_loop entries target None
      else
        n ← node_at node;
        if branch_count n =? 0 then delete_loop entries target None
        else if branch_count n =? 1 then
          sole ← only_below_loaded_leaf 65 node;
          match sole with
          | None => delete_loop entries target (Some node)
          | Some sole_leaf =>
              sole_branch ← lift (expect (select_only_branch n));
              ln ← node_at sole_leaf;
              sole_item ← lift (expect (peek_item ln));
              _ ← set_child node sole_branch None;
              s ← gets self;
              fresh_leaf ← new_leaf (get_type ln) sole_item (tree_cowid s);
              delete_loop entries target (Some fresh_leaf)
          end
        else delete_loop entries target (Some node)
  end.

Definition delete_item (target : Z) : action (bool + MutationError) :=
  and_then (walk_towards_key_with_path target) (fun r =>
    match fst r with
    | None => mret (inl false)
    | Some leaf =>
        n ← node_at leaf;
        match peek_item n with
        | None => mret (inl false)
        | Some existing =>
            if negb (item_key existing =? target) then mret (inl false)
            else
              _ ← delete_loop (reverse (parents (snd r))) target None;
              mret (inl true)
        end
    end).

(** ** Snapshots and sharing *)

(** [clone_loaded_subtree_as_shareable]; the recursion follows the depth. *)
Fixpoint clone_shareable (fuel : nat) (l : nat) (c : Z) : action nat :=
  match fuel with
  | O => no_fuel
  | S fuel =>
      n ← node_at l;
      if cowid n =? 0 then mret l
      else
        cloned ← clone_with_cowid l c;
        _ ←
          (if is_inner n then
             _ ← for_each branches (fun b =>
               if is_empty_branch n b then mret tt
               else
                 match get_child n b with
                 | None => mret tt
                 | Some child =>
                     cloned_child ← clone_shareable fuel child c;
                     set_child cloned b (Some cloned_child)
                 end);
             update_hash_deep cloned
           else update_hash cloned);
        _ ← unshare_cell cloned;
        mret cloned
  end.

(** The snapshot; the tree itself keeps its root. *)
Definition mutable_snapshot (next_cowid : Z) : action MutableTree :=
  t ← gets self;
  _ ← debug_assert (tree_cowid t <? next_cowid);
  r ← clone_shareable 65 (root t) next_cowid;
  mret (mkTree r next_cowid).

Definition pre_flush_node (l : nat) (owner_cowid : Z) : action nat :=
  n ← node_at l;
  if cowid n =? owner_cowid then mret l else clone_with_cowid l owner_cowid.

(** The loop of [walk_subtree_impl] on the node at hand, the next branch to look at
    and the stack of parents; each turn is one turn of the code's inner loop, or
    the closing of a node. *)
Fixpoint flush_loop (fuel : nat) (owner : Z) (node : nat) (pos : Z) (stack : list (nat * Z))
  (flushed : Z) : action (nat * Z) :=
  match fuel with
  | O => no_fuel
  | S fuel =>
      if pos <? BRANCH_FACTOR then
        n ← node_at node;
        if is_empty_branch n pos then flush_loop fuel owner node (pos + 1) stack flushed
        else
          match get_child n pos with
          | None => flush_loop fuel owner node (pos + 1) stack flushed
          | Some child =>
              cn ← node_at child;
              if cowid cn =? 0 then flush_loop fuel owner node (pos + 1) stack flushed
              else
                child ← pre_flush_node child owner;
                if is_inner cn then flush_loop fuel owner child 0 ((node, pos) :: stack) flushed
                else
                  _ ← update_hash child;
                  _ ← unshare_cell child;
                  _ ← share_child node pos child;
                  flush_loop fuel owner node (pos + 1) stack (flushed + 1)
          end
      else
        _ ← update_hash_deep node;
        _ ← unshare_cell node;
        match stack with
        | [] => mret (node, flushed + 1)
        | (parent, branch) :: stack =>
            _ ← share_child parent branch node;
            flush_loop fuel owner parent (branch + 1) stack (flushed + 1)
        end
  end.

Definition walk_subtree (fuel : nat) (l : nat) (owner : Z) : action (nat * Z) :=
  _ ← debug_assert (negb (owner =? 0));
  n ← node_at l;
  if cowid n =? 0 then mret (l, 0)
  else if negb (is_inner n) then
    l ← pre_flush_node l owner;
    _ ← update_hash l;
    _ ← unshare_cell l;
    mret (l, 1)
  else if bool_decide (children_of n = ∅) then
    l ← new_inner 0;
    mret (l, 1)
  else
    l ← pre_flush_node l owner;
    flush_loop fuel owner l 0 [] 0.

Definition unshare (fuel : nat) : action Z :=
  t ← gets self;
  '(r, count) ← walk_subtree fuel (root t) (tree_cowid t);
  _ ← modify (set_root r);
  mret count.

Definition tree_new (c : Z) : action MutableTree :=
  _ ← debug_assert (negb (c =? 0));
  l ← new_inner c;
  mret (mkTree l c).

End Operations.
