(* ===== verification/ShaMapRep.v ===== *)
(** * What a SHAMap holds

    The contents a tree of the store represents, the cells it owns, the hash its
    contents determine, and the rules that carry a representation across the steps of
    an operation.

    A node is owned by a tree when its [cowid] is the tree's; it then has one place in
    the tree, recorded in the ghost map [P] from cells to digit strings. A node with
    [cowid] zero may be shared by several trees and is never changed. *)

From S2P Require Import Prelude Stateful Serializer ShaMapNodeId ShaMap.

Notation contents := (gmap Z (SHAMapNodeType * SHAMapItem)).
Notation heap := (gmap nat SHAMapTreeNode).
Notation places := (gmap nat (list Z)).

(** ** Keys and their digits *)

(** The first [d] digits of a key. *)
Fixpoint trail (d : nat) (k : Z) : list Z :=
  match d with
  | O => []
  | S d => trail d k ++ [nibble (Z.of_nat d) k]
  end.

Lemma length_trail d k : length (trail d k) = d.
Proof. induction d; [done|]. cbn [trail]. rewrite length_app. simpl. lia. Qed.

Lemma trail_app_inv d k p b : trail (S d) k = p ++ [b] -> trail d k = p /\ nibble (Z.of_nat d) k = b.
Proof. intros E. by apply app_inj_tail in E. Qed.

Lemma trail_prefix d k k' :
  (d <= 64)%nat -> trail d k = trail d k' -> prefix (Z.of_nat d) k - prefix 0 k = prefix (Z.of_nat d) k' - prefix 0 k'.
Proof.
  induction d as [|d IH]; intros Hd E; [change (Z.of_nat 0) with 0; lia|].
  apply trail_app_inv in E as [E En]. rewrite Nat2Z.inj_succ, <- Z.add_1_r, !prefix_succ by lia.
  rewrite En. specialize (IH ltac:(lia) E). lia.
Qed.

(** The digits name the key. *)
Lemma trail_inj k k' : is_key k -> is_key k' -> trail 64 k = trail 64 k' -> k = k'.
Proof.
  intros Hk Hk' E. apply trail_prefix in E; [|lia].
  assert (forall k, is_key k -> prefix (Z.of_nat 64) k - prefix 0 k = k) as G.
  { intros x [H0 H1]. unfold prefix. change (64 - Z.of_nat 64) with 0. rewrite Z.pow_0_r, Z.div_1_r.
    rewrite (Z.div_small x (16 ^ (64 - 0))); [lia|].
    split; [done|]. replace (16 ^ (64 - 0)) with (2 ^ 256) by (vm_compute; reflexivity). done. }
  by rewrite !G in E.
Qed.

Lemma trail_prefix_of i j k : (i <= j)%nat -> trail i k `prefix_of` trail j k.
Proof.
  induction 1 as [|j _ IH]; [done|]. etransitivity; [exact IH|]. by exists [nibble (Z.of_nat j) k].
Qed.

(** A place off the trail at depth [d] has nothing of the trail below it. *)
Lemma off_trail d k b i :
  b <> nibble (Z.of_nat d) k -> ~ (trail d k ++ [b]) `prefix_of` trail i k.
Proof.
  intros Hb Hp. assert ((S d <= i)%nat) as Hi.
  { apply prefix_length in Hp. rewrite length_app, !length_trail in Hp. simpl in Hp. lia. }
  pose proof (trail_prefix_of _ _ k Hi) as Hq.
  destruct (prefix_weak_total _ _ _ Hp Hq) as [H|H]; apply prefix_length_eq in H;
    rewrite ?length_app, ?length_trail; simpl; try lia;
    cbn [trail] in H; apply app_inj_tail in H as [_ H]; congruence.
Qed.

(** ** Parts of the contents *)

(** The items whose digit at depth [d] is [b]. *)
Definition sub (d : nat) (b : Z) (m : contents) : contents :=
  filter (fun kx => nibble (Z.of_nat d) (fst kx) = b) m.

Lemma lookup_sub d b m k :
  sub d b m !! k = (if decide (nibble (Z.of_nat d) k = b) then m !! k else None).
Proof.
  unfold sub. case_decide as E.
  - destruct (m !! k) as [x|] eqn:Ex.
    + by apply map_lookup_filter_Some.
    + apply map_lookup_filter_None. by left.
  - apply map_lookup_filter_None. right. intros x _ H. by apply E.
Qed.

(** The contents with the item of a key replaced, added or removed. *)
Definition put (k : Z) (o : option (SHAMapNodeType * SHAMapItem)) (m : contents) : contents :=
  partial_alter (fun _ => o) k m.

Lemma put_Some k x m : put k (Some x) m = <[k := x]> m.
Proof. done. Qed.

Lemma put_None k m : put k None m = delete k m.
Proof. done. Qed.

Lemma lookup_put k o m j : put k o m !! j = (if decide (j = k) then o else m !! j).
Proof.
  unfold put. case_decide as E; [subst; apply lookup_partial_alter_eq|by rewrite lookup_partial_alter_ne].
Qed.

Lemma sub_put d b m k o :
  sub d b (put k o m) = (if decide (b = nibble (Z.of_nat d) k) then put k o (sub d b m) else sub d b m).
Proof.
  apply map_eq. intros j. rewrite lookup_sub, lookup_put.
  destruct (decide (b = nibble (Z.of_nat d) k)) as [Eb|Eb].
  - rewrite lookup_put. destruct (decide (j = k)) as [->|Hj]; [by rewrite decide_True|].
    by rewrite lookup_sub.
  - rewrite lookup_sub. destruct (decide (j = k)) as [->|Hj]; [by rewrite !decide_False|done].
Qed.

Lemma sub_singleton d b k (x : SHAMapNodeType * SHAMapItem) :
  sub d b {[k := x]} = (if decide (b = nibble (Z.of_nat d) k) then {[k := x]} else ∅).
Proof.
  apply map_eq. intros j. rewrite lookup_sub.
  destruct (decide (j = k)) as [->|Hj]; repeat case_decide; simplify_map_eq; congruence.
Qed.

Lemma sub_empty d b : sub d b ∅ = ∅.
Proof. apply map_filter_empty. Qed.

Lemma sub_subseteq d b m : sub d b m ⊆ m.
Proof. apply map_filter_subseteq. Qed.

(** A branch outside the sixteen holds nothing. *)
Lemma sub_range d b m : sub d b m <> ∅ -> 0 <= b < 16.
Proof.
  intros H. apply map_choose in H as (k & x & H). rewrite lookup_sub in H. case_decide as E; [|done].
  rewrite <- E. apply nibble_range.
Qed.

(** All items lie below one branch. *)
Lemma sub_all d b m : (forall b', b' <> b -> sub d b' m = ∅) -> sub d b m = m.
Proof.
  intros H. apply map_eq. intros k. rewrite lookup_sub. case_decide as E; [done|].
  specialize (H _ E). apply (f_equal (.!! k)) in H. rewrite lookup_sub, decide_True in H by done.
  by rewrite lookup_empty in H.
Qed.

(** ** Hashes the contents determine *)

Section Rep.
Context (sha512_half : list Z -> Z).

Definition leaf_hash (m : contents) : Z :=
  match map_to_list m with
  | [(_, (t, item))] => compute_leaf_hash sha512_half t item
  | _ => 0
  end.

Definition inner_hash (H : contents -> Z) (d : nat) (m : contents) : Z :=
  if bool_decide (m = ∅) then 0
  else
    sha512_half (be_bytes 4 HASH_PREFIX_INNER_NODE ++
      concat ((fun b => be_bytes 32 (if bool_decide (sub d b m = ∅) then 0 else H (sub d b m)))
        <$> branches)).

(** The hash of a node below the root, [n] levels above the deepest leaves. *)
Fixpoint node_hash (n : nat) (m : contents) : Z :=
  match n with
  | O => leaf_hash m
  | S n' => if (size m =? 1)%nat then leaf_hash m else inner_hash (node_hash n') (64 - n) m
  end.

Definition root_hash (m : contents) : Z := inner_hash (node_hash 63) 0 m.

(** The hash of a node at a place. *)
Definition hash_at (n : nat) (p : list Z) (m : contents) : Z :=
  match p with [] => root_hash m | _ => node_hash n m end.

(** ** Representation *)

Definition leaf_ok (t : SHAMapNodeType) (item : SHAMapItem) : Prop :=
  t <> NtInner /\ MIN_SHAMAP_ITEM_BYTES <= Z.of_nat (length (item_data item)) /\ is_key (item_key item).

(** The node is shared, or owned by the tree [c] at its place. *)
Definition own_ok (P : places) (c : Z) (sh : bool) (p : list Z) (l : nat) (nd : SHAMapTreeNode) : Prop :=
  cowid nd = 0 \/ (sh = false /\ cowid nd = c /\ P !! l = Some p).

Definition child_ok (sh : bool) (H : contents -> Z) (R : nat -> contents -> Prop) (m : contents)
  (o : option Child) : Prop :=
  match o with
  | None => m = ∅
  | Some cd => m <> ∅ /\ (sh = true -> ch_hash cd = H m) /\ exists l, ch_node cd = Some l /\ R l m
  end.

(** The node [l], at place [p] and at most [n] levels above the deepest leaves, holds
    the contents [m]; [sh] says that its parent is shared. *)
Fixpoint rep (n : nat) (h : heap) (P : places) (c : Z) (sh : bool) (p : list Z) (l : nat) (m : contents) : Prop :=
  exists nd, h !! l = Some nd /\ own_ok P c sh p l nd /\
  match node_body nd with
  | Leaf t item =>
      p <> [] /\ leaf_ok t item /\ trail (length p) (item_key item) = p
      /\ m = {[item_key item := (t, item)]} /\ hash nd = compute_leaf_hash sha512_half t item
  | Inner ch =>
      match n with
      | O => False
      | S n' =>
          (p = [] \/ (2 <= size m)%nat) /\ (cowid nd = 0 -> hash nd = hash_at n p m)
          /\ forall b, child_ok (cowid nd =? 0) (node_hash n')
               (rep n' h P c (cowid nd =? 0) (p ++ [b])) (sub (length p) b m) (ch !! b)
      end
  end.

Lemma child_ok_mono (sh sh' : bool) H (R R' : nat -> contents -> Prop) m o :
  child_ok sh H R m o -> (sh' = true -> sh = true) -> (forall l, R l m -> R' l m) -> child_ok sh' H R' m o.
Proof.
  destruct o as [cd|]; [|done]. intros (Hm & Hh & l & El & Hl) Hsh HR.
  split; [done|]. split; [auto|]. eauto.
Qed.

Lemma rep_inv n h P c sh p l m :
  rep n h P c sh p l m ->
  exists nd, h !! l = Some nd /\ own_ok P c sh p l nd /\
    ((exists t item, node_body nd = Leaf t item /\ p <> [] /\ leaf_ok t item
        /\ trail (length p) (item_key item) = p /\ m = {[item_key item := (t, item)]}
        /\ hash nd = compute_leaf_hash sha512_half t item)
     \/ (exists n' ch, n = S n' /\ node_body nd = Inner ch /\ (p = [] \/ (2 <= size m)%nat)
           /\ (cowid nd = 0 -> hash nd = hash_at n p m)
           /\ forall b, child_ok (cowid nd =? 0) (node_hash n')
                (rep n' h P c (cowid nd =? 0) (p ++ [b])) (sub (length p) b m) (ch !! b))).
Proof.
  intros Hr. destruct n as [|n]; destruct Hr as (nd & El & Hown & Hb); exists nd; (split; [done|]); (split; [done|]);
    destruct (node_body nd) as [ch|t item]; try done; [left; eauto|right; eauto|left; eauto].
Qed.

(** A representation reads only shared cells and owned cells at or below its place. *)
Lemma rep_keep n h h' P P' c sh p l m :
  (forall l nd, h !! l = Some nd ->
     cowid nd = 0 \/ (sh = false /\ exists q, P !! l = Some q /\ p `prefix_of` q) -> h' !! l = Some nd) ->
  (forall l q, sh = false -> p `prefix_of` q -> P !! l = Some q -> P' !! l = Some q) ->
  rep n h P c sh p l m -> rep n h' P' c sh p l m.
Proof.
  revert sh p l m. induction n as [|n IH]; intros sh p l m Hh HP (nd & El & Hown & Hb);
    exists nd; (split; [apply Hh; [done|]; destruct Hown as [?|(? & ? & ?)]; eauto|]);
    (split; [destruct Hown as [?|(? & ? & ?)]; [by left|right]; eauto|]);
    destruct (node_body nd) as [ch|t item]; try done.
  destruct Hb as (Hs & Hhash & Hb). split; [done|]. split; [done|]. intros b. specialize (Hb b).
  eapply child_ok_mono; [exact Hb|done|]. intros l'. apply IH.
  - intros x xd Hx Hor. apply Hh; [done|]. destruct Hor as [?|(Esh & q & Hq & Hpq)]; [by left|].
    right. destruct Hown as [H0|(-> & _)]; [apply Z.eqb_neq in Esh; lia|]. split; [done|].
    exists q. split; [done|]. etransitivity; [|exact Hpq]. by exists [b].
  - intros x q Esh Hpq. destruct Hown as [H0|(-> & _)]; [apply Z.eqb_neq in Esh; lia|].
    apply HP; [done|]. etransitivity; [|exact Hpq]. by exists [b].
Qed.

(** Below a shared parent a tree's own cells do not matter. *)
Lemma rep_shared n h P P' c c' sh' p l m : rep n h P c true p l m -> rep n h P' c' sh' p l m.
Proof.
  revert sh' p l m. induction n as [|n IH]; intros sh' p l m (nd & El & [H0|(? & _)] & Hb); try done;
    exists nd; (split; [done|]); (split; [by left|]); destruct (node_body nd) as [ch|t item]; try done.
  destruct Hb as (Hs & Hhash & Hb). split; [done|]. split; [done|]. intros b. specialize (Hb b).
  rewrite H0 in *. eapply child_ok_mono; [exact Hb|done|]. intros l'. apply IH.
Qed.

Lemma rep_keys n h P c sh p l m k x :
  rep n h P c sh p l m -> m !! k = Some x ->
  is_key k /\ trail (length p) k = p /\ item_key (snd x) = k /\ leaf_ok (fst x) (snd x).
Proof.
  revert sh p l m. induction n as [|n IH]; intros sh p l m (nd & _ & _ & Hb) Hk;
    (destruct (node_body nd) as [ch|t item];
      [|destruct Hb as (_ & Hl & Ht & -> & _); apply lookup_singleton_Some in Hk as [<- <-];
        split; [apply Hl|done]]); [done|].
  destruct Hb as (_ & _ & Hb). specialize (Hb (nibble (Z.of_nat (length p)) k)).
  assert (sub (length p) (nibble (Z.of_nat (length p)) k) m !! k = Some x) as Hx
    by (by rewrite lookup_sub, decide_True).
  destruct (ch !! _) as [cd|]; simpl in Hb; [|by rewrite Hb, lookup_empty in Hx].
  destruct Hb as (_ & _ & l' & _ & Hr). destruct (IH _ _ _ _ Hr Hx) as (? & Ht & ?).
  rewrite length_app, Nat.add_1_r in Ht. by apply trail_app_inv in Ht as [? _].
Qed.

(** Below the root, a leaf holds one item and an inner node at least two. *)
Lemma rep_size n h P c sh p l m nd :
  p <> [] -> rep n h P c sh p l m -> h !! l = Some nd ->
  if is_inner nd then (2 <= size m)%nat
  else exists t item, node_body nd = Leaf t item /\ m = {[item_key item := (t, item)]}.
Proof.
  intros Hp Hr El. destruct n as [|n]; destruct Hr as (nd' & El' & _ & Hb);
    rewrite El in El'; injection El' as <-; unfold is_inner;
    destruct (node_body nd) as [ch|t item]; try done.
  - by destruct Hb as (_ & _ & _ & -> & _); eauto.
  - by destruct Hb as ([?|?] & _).
  - by destruct Hb as (_ & _ & _ & -> & _); eauto.
Qed.

Lemma rep_nonempty n h P c sh p l m : p <> [] -> rep n h P c sh p l m -> m <> ∅.
Proof.
  intros Hp Hr. assert (exists nd, h !! l = Some nd) as [nd El]
    by (destruct n; destruct Hr as (nd & ? & _); eauto).
  pose proof (rep_size _ _ _ _ _ _ _ _ _ Hp Hr El) as Hs.
  destruct (is_inner nd); [|by destruct Hs as (t & item & _ & ->)].
  intros ->. rewrite map_size_empty in Hs. lia.
Qed.

(** An owned inner node from its parts. *)
Lemma rep_inner_intro n h P c p l hs ch m :
  h !! l = Some (mkNode c hs (Inner ch)) -> P !! l = Some p -> 0 < c ->
  p = [] \/ (2 <= size m)%nat ->
  (forall b, child_ok false (node_hash n) (rep n h P c false (p ++ [b])) (sub (length p) b m) (ch !! b)) ->
  rep (S n) h P c false p l m.
Proof.
  intros El HP Hc Hs Hb. eexists. split; [exact El|]. split; [by right|]. cbn [node_body cowid].
  split; [done|]. split; [lia|]. rewrite (proj2 (Z.eqb_neq c 0)) by lia. done.
Qed.

Lemma rep_leaf_intro n h P c p l t item :
  h !! l = Some (mkNode c (compute_leaf_hash sha512_half t item) (Leaf t item)) -> P !! l = Some p ->
  p <> [] -> leaf_ok t item -> trail (length p) (item_key item) = p ->
  rep n h P c false p l {[item_key item := (t, item)]}.
Proof. intros El HP Hp Hok Ht. destruct n; (eexists; split; [exact El|]; split; [by right|]; by cbn). Qed.

End Rep.

(** ** Steps of a tree *)

(** What a step may change: owned cells at the places [A]. New cells may be owned. *)
Record evolve (A : list Z -> Prop) (h : heap) (P : places) (h' : heap) (P' : places) : Prop := mkEvolve {
  ev_places : P ⊆ P';
  ev_new : forall l, P !! l = None -> is_Some (P' !! l) -> h !! l = None;
  ev_dom : forall l, is_Some (h !! l) -> is_Some (h' !! l);
  ev_keep : forall l nd, h !! l = Some nd ->
    cowid nd = 0 \/ (forall q, P !! l = Some q -> ~ A q) -> h' !! l = Some nd;
  ev_owned : (forall l, is_Some (P !! l) -> is_Some (h !! l)) ->
    forall l, is_Some (P' !! l) -> is_Some (h' !! l) }.

Definition places_ok (h : heap) (P : places) : Prop := forall l, is_Some (P !! l) -> is_Some (h !! l).

Lemma evolve_refl A h P : evolve A h P h P.
Proof. constructor; try done. intros l -> [? ?]. done. Qed.

Lemma evolve_mono (A A' : list Z -> Prop) h P h' P' :
  (forall q, A q -> A' q) -> evolve A h P h' P' -> evolve A' h P h' P'.
Proof.
  intros HA []. constructor; auto. intros l nd El [?|H]; auto. apply ev_keep0; [done|]. right.
  intros q Hq ?. by eapply H; [|apply HA].
Qed.

Lemma evolve_trans A h P h1 P1 h2 P2 :
  evolve A h P h1 P1 -> evolve A h1 P1 h2 P2 -> evolve A h P h2 P2.
Proof.
  intros [HP Hn Hd Hk Ho] [HP1 Hn1 Hd1 Hk1 Ho1]. constructor; auto.
  - by etransitivity.
  - intros l Hl [q Hq]. destruct (P1 !! l) eqn:E1; [eauto|].
    destruct (h !! l) eqn:Eh; [|done]. destruct (Hd l) as [? Eh1]; [eauto|].
    rewrite Hn1 in Eh1; [done|eauto|eauto].
  - intros l nd El Hor. apply Hk1; [by apply Hk|]. destruct Hor as [?|Hor]; [by left|right].
    intros q Hq. destruct (P !! l) as [q'|] eqn:E.
    + apply (lookup_weaken _ _ _ _ E) in HP. simplify_eq. by apply Hor.
    + rewrite Hn in El; [done|eauto|eauto].
Qed.

Section Frame.
Context (sha512_half : list Z -> Z).

(** A step at other places leaves a representation alone. *)
Lemma rep_evolve A n h h' P P' c sh p l m :
  evolve A h P h' P' -> (sh = false -> forall q, p `prefix_of` q -> ~ A q) ->
  rep sha512_half n h P c sh p l m -> rep sha512_half n h' P' c sh p l m.
Proof.
  intros [HP _ _ Hk _] HA. apply rep_keep.
  - intros x nd Hx [H0|(Esh & q & Hq & Hpq)]; apply Hk; auto. right. intros q' Hq'.
    rewrite Hq in Hq'. injection Hq' as <-. by apply HA.
  - intros x q _ _ Hq. by eapply lookup_weaken.
Qed.

(** The cells of another tree. *)
Lemma rep_other A n h h' P P' Q c sh p l m :
  evolve A h P h' P' -> (forall l, is_Some (Q !! l) -> P !! l = None) ->
  rep sha512_half n h Q c sh p l m -> rep sha512_half n h' Q c sh p l m.
Proof.
  intros [HP _ _ Hk _] HQ. apply rep_keep; [|done].
  intros x nd Hx [H0|(Esh & q & Hq & Hpq)]; apply Hk; auto. right. intros q' Hq'.
  rewrite HQ in Hq'; [done|eauto].
Qed.

End Frame.
