(* ===== verification/ShaMapSteps.v ===== *)
(** * Walking and rewriting a SHAMap

    The rules for the store, copy on write, the descent along a key and the relinking
    of the nodes above a changed one. *)

From S2P Require Import Prelude Stateful Serializer ShaMapNodeId ShaMap ShaMapRep.

(** ** The store *)

Lemma wp_node_at (Q : SHAMapTreeNode -> World -> Prop) l n w :
  cells w !! l = Some n -> Q n w -> wp False (node_at l) Q w.
Proof. intros El HQ. unfold node_at. wp_steps. by eapply wp_lift; [rewrite El|]. Qed.

Lemma wp_store (Q : unit -> World -> Prop) l n w :
  Q tt (set_cells (<[l := n]> (cells w)) w) -> wp False (store l n) Q w.
Proof. done. Qed.

Lemma wp_alloc (Q : nat -> World -> Prop) n w :
  (forall l, cells w !! l = None -> Q l (set_cells (<[l := n]> (cells w)) w)) -> wp False (alloc n) Q w.
Proof.
  intros HQ. unfold alloc. wp_steps. apply wp_store. wp_steps. apply HQ.
  apply not_elem_of_dom, is_fresh.
Qed.

Lemma wp_and_then {A B} (m : action (A + MutationError)) (f : A -> action (B + MutationError)) Q w :
  wp False m (fun r w => match r with inl a => wp False (f a) Q w | inr e => Q (inr e) w end) w ->
  wp False (and_then m f) Q w.
Proof.
  intros H. unfold and_then. wp_step. eapply wp_mono; [exact H|]. intros [a|e] w'; [done|]. intros. by wp_step.
Qed.

Lemma wp_set_child (Q : unit -> World -> Prop) l b o c hs ch w :
  cells w !! l = Some (mkNode c hs (Inner ch)) -> 0 < c -> 0 <= b < 16 ->
  Q tt (set_cells (<[l := mkNode c 0 (Inner (match o with
                                           | Some x => <[b := mkChild 0 (Some x)]> ch
                                           | None => delete b ch
                                           end))]> (cells w)) w) ->
  wp False (set_child l b o) Q w.
Proof.
  intros El Hc Hb HQ. unfold set_child. wp_step. eapply wp_node_at; [exact El|].
  wp_step. apply wp_debug_assert; [unfold BRANCH_FACTOR; apply andb_true_iff; split; [apply Z.leb_le|apply Z.ltb_lt]; lia|].
  wp_step. apply wp_debug_assert; [cbn [cowid]; apply negb_true_iff, Z.eqb_neq; lia|]. exact HQ.
Qed.

Lemma evolve_alloc A h P l nd p :
  h !! l = None -> places_ok h P -> evolve A h P (<[l := nd]> h) (<[l := p]> P).
Proof.
  intros Hl Hok. assert (P !! l = None) as HP.
  { destruct (P !! l) eqn:E; [|done]. destruct (Hok l) as [? ?]; [eauto|congruence]. }
  constructor.
  - by apply insert_subseteq.
  - intros x Hx Hs. destruct (decide (x = l)) as [->|]; [done|]. rewrite lookup_insert_ne in Hs by done.
    rewrite Hx in Hs. by destruct Hs.
  - intros x Hx. destruct (decide (x = l)) as [->|]; simplify_map_eq; eauto.
  - intros x xd Hx _. destruct (decide (x = l)) as [->|]; simplify_map_eq; eauto.
  - intros _ x Hx. destruct (decide (x = l)) as [->|]; simplify_map_eq; eauto.
Qed.

Lemma evolve_store (A : list Z -> Prop) h P l nd nd' p :
  h !! l = Some nd -> cowid nd <> 0 -> P !! l = Some p -> A p -> evolve A h P (<[l := nd']> h) P.
Proof.
  intros Hl Hc HP HA. constructor.
  - done.
  - intros x -> [? ?]. done.
  - intros x Hx. destruct (decide (x = l)) as [->|]; simplify_map_eq; eauto.
  - intros x xd Hx Hor. destruct (decide (x = l)) as [->|]; [|by rewrite lookup_insert_ne].
    rewrite Hl in Hx. injection Hx as <-. destruct Hor as [?|Hor]; [done|]. by destruct (Hor p).
  - intros Hok x Hx. destruct (decide (x = l)) as [->|]; simplify_map_eq; eauto.
Qed.

Lemma evolve_ok A h P h' P' : evolve A h P h' P' -> places_ok h P -> places_ok h' P'.
Proof. intros []. done. Qed.

Lemma evolve_place A h P h' P' l p : evolve A h P h' P' -> P !! l = Some p -> P' !! l = Some p.
Proof. intros [] Hp. by eapply lookup_weaken. Qed.

Definition nowhere : list Z -> Prop := fun _ => False.

Lemma evolve_nowhere A h P h' P' : evolve nowhere h P h' P' -> evolve A h P h' P'.
Proof. by apply evolve_mono. Qed.

Lemma evolve_nowhere_cell h P h' P' l nd : evolve nowhere h P h' P' -> h !! l = Some nd -> h' !! l = Some nd.
Proof. intros [] El. apply ev_keep; [done|]. right. by intros q _ ?. Qed.

(** ** The state of a tree *)

Section Tree.
Context (sha512_half : list Z -> Z).
Local Notation rep := (rep sha512_half).
Local Notation node_hash := (node_hash sha512_half).

Record holds (w : World) (P : places) (c : Z) : Prop := mkHolds {
  holds_cowid : tree_cowid (self w) = c;
  holds_pos : 0 < c;
  holds_places : places_ok (cells w) P }.

Lemma holds_evolve A w w' P P' c :
  holds w P c -> evolve A (cells w) P (cells w') P' -> tree_cowid (self w') = c -> holds w' P' c.
Proof. intros [H1 H2 H3] Hev Hc. constructor; [done|done|]. by eapply evolve_ok. Qed.

Lemma wp_clone Q l c nd w :
  cells w !! l = Some nd -> (forall t item, node_body nd = Leaf t item -> leaf_ok t item) ->
  (forall x, cells w !! x = None -> Q x (set_cells (<[x := set_cowid c nd]> (cells w)) w)) ->
  wp False (clone_with_cowid l c) Q w.
Proof.
  intros El Hok HQ. unfold clone_with_cowid. wp_step. eapply wp_node_at; [exact El|].
  destruct nd as [c0 hs [ch|t item]]; cbn [node_body hash]; [by apply wp_alloc|].
  destruct (Hok t item eq_refl) as (Ht & Hlen & _). unfold new_leaf_with_hash.
  wp_step. apply wp_debug_assert; [by apply Z.leb_le|].
  wp_step. apply wp_debug_assert; [apply negb_true_iff; by rewrite bool_decide_eq_false_2|].
  by apply wp_alloc.
Qed.

Lemma wp_new_leaf Q t item c w :
  leaf_ok t item ->
  (forall x, cells w !! x = None ->
     Q x (set_cells (<[x := mkNode c (compute_leaf_hash sha512_half t item) (Leaf t item)]> (cells w)) w)) ->
  wp False (new_leaf sha512_half t item c) Q w.
Proof.
  intros (Ht & Hlen & _) HQ. unfold new_leaf, new_leaf_with_hash.
  do 2 (wp_step; apply wp_debug_assert; [by apply Z.leb_le|];
  wp_step; apply wp_debug_assert; [apply negb_true_iff; by rewrite bool_decide_eq_false_2|]).
  by apply wp_alloc.
Qed.

(** Copy on write: the node itself if the tree owns it, a copy it owns otherwise. *)
Lemma wp_unshare (Q : nat -> World -> Prop) w c P sh p l nd id :
  holds w P c -> cells w !! l = Some nd -> own_ok P c sh p l nd ->
  (forall t item, node_body nd = Leaf t item -> leaf_ok t item) ->
  (forall l' w' P', evolve nowhere (cells w) P (cells w') P' -> holds w' P' c ->
     (is_root id = false -> self w' = self w) ->
     cells w' !! l' = Some (set_cowid c nd) -> P' !! l' = Some p -> Q l' w') ->
  wp False (unshare_node l id) Q w.
Proof.
  intros [Hc Hpos Hok] El Hown Hleaf HQ. unfold unshare_node.
  wp_step. eapply wp_node_at; [exact El|]. wp_steps. rewrite Hc.
  apply wp_debug_assert; [apply Z.leb_le; destruct Hown as [?|(_ & ? & _)]; lia|].
  destruct (Z.eqb_spec (cowid nd) c) as [Ec|Ec].
  - wp_steps. destruct Hown as [?|(_ & _ & HP)]; [lia|].
    eapply HQ; [apply evolve_refl|by constructor|done| |exact HP]. rewrite El. f_equal. rewrite <- Ec. by destruct nd.
  - wp_step. eapply wp_clone; [exact El|done|]. intros x Hx.
    assert (evolve nowhere (cells w) P (<[x := set_cowid c nd]> (cells w)) (<[x := p]> P)) as Hev
      by (by apply evolve_alloc).
    wp_steps.
    + eapply HQ; [exact Hev|constructor; [exact Hc|done|by eapply evolve_ok]|congruence| |]; simpl; by rewrite lookup_insert_eq.
    + eapply HQ; [exact Hev|constructor; [exact Hc|done|by eapply evolve_ok]|done| |]; simpl; by rewrite lookup_insert_eq.
Qed.

(** ** The way down *)

(** The places on the trail of a key, from depth [d] on. *)
Definition on_trail (k : Z) (d : nat) (q : list Z) : Prop := exists i, (d <= i)%nat /\ q = trail i k.

Lemma on_trail_le k d d' q : (d' <= d)%nat -> on_trail k d q -> on_trail k d' q.
Proof. intros Hd (i & Hi & ->). exists i. split; [lia|done]. Qed.

(** The children off the trail. *)
Definition siblings (h : heap) (P : places) (c k : Z) (d : nat) (sh : bool) (ch : gmap Z Child) (m : contents) : Prop :=
  forall b, b <> nibble (Z.of_nat d) k ->
    child_ok sh (node_hash (63 - d)) (rep (63 - d) h P c sh (trail d k ++ [b])) (sub d b m) (ch !! b).

Lemma siblings_evolve h P h' P' c k d i sh ch m :
  evolve (on_trail k i) h P h' P' -> siblings h P c k d sh ch m -> siblings h' P' c k d sh ch m.
Proof.
  intros Hev Hs b Hb. eapply child_ok_mono; [by apply Hs|done|]. intros l. eapply rep_evolve; [exact Hev|].
  intros _ q Hq (j & _ & ->). by eapply off_trail.
Qed.

Lemma siblings_own h P c k d sh ch m : siblings h P c k d sh ch m -> siblings h P c k d false ch m.
Proof.
  intros Hs b Hb. eapply child_ok_mono; [by apply Hs|done|]. intros l. destruct sh; [apply rep_shared|done].
Qed.

(** The nodes visited, the nearest first, and the part [m] of the contents [M] that is
    left below the last; [G] holds of the contents of each below the root. *)
Fixpoint spine (G : contents -> Prop) (h : heap) (P : places) (c k : Z) (M : contents)
  (es : list NodePathEntry) (d : nat) (m : contents) : Prop :=
  match es, d with
  | [], O => m = M
  | e :: es, S d =>
      entry_id e = position (Z.of_nat d) k /\
      exists nd ch m',
        h !! entry_node e = Some nd /\ node_body nd = Inner ch
        /\ own_ok P c false (trail d k) (entry_node e) nd
        /\ m = sub d (nibble (Z.of_nat d) k) m' /\ (d = O \/ G m')
        /\ siblings h P c k d (cowid nd =? 0) ch m' /\ spine G h P c k M es d m'
  | _, _ => False
  end.

Lemma spine_lookup G h P c k M es d m : spine G h P c k M es d m -> M !! k = m !! k.
Proof.
  revert d m. induction es as [|e es IH]; intros [|d] m; cbn [spine]; try done; [by intros ->|].
  intros (_ & nd & ch & m' & _ & _ & _ & -> & _ & _ & Hs).
  rewrite lookup_sub, decide_True by done. by eapply IH.
Qed.

Lemma spine_subseteq G h P c k M es d m : spine G h P c k M es d m -> m ⊆ M.
Proof.
  revert d m. induction es as [|e es IH]; intros [|d] m; cbn [spine]; try done; [by intros ->|].
  intros (_ & nd & ch & m' & _ & _ & _ & -> & _ & _ & Hs). etransitivity; [apply sub_subseteq|]. by eapply IH.
Qed.

Lemma spine_mono (G G' : contents -> Prop) h P c k M es d m :
  (forall m, m !! k = M !! k -> G m -> G' m) -> spine G h P c k M es d m -> spine G' h P c k M es d m.
Proof.
  intros HG. revert d m. induction es as [|e es IH]; intros [|d] m; cbn [spine]; try done.
  intros (Eid & nd & ch & m' & El & Eb & Hown & Em & Hsz & Hsib & Hs). split; [done|].
  exists nd, ch, m'. split_and!; try done; [|by apply IH].
  destruct Hsz as [?|Hsz]; [by left|right]. apply HG; [|done]. symmetry. by eapply spine_lookup.
Qed.

Lemma own_ok_weaken P c sh p l nd : own_ok P c sh p l nd -> own_ok P c false p l nd.
Proof. intros [?|(? & ? & ?)]; [by left|by right]. Qed.

(** The nodes above do not change when something below does. *)
Lemma spine_evolve G h P h' P' c k M es d i m :
  (d <= i)%nat -> evolve (on_trail k i) h P h' P' -> spine G h P c k M es d m -> spine G h' P' c k M es d m.
Proof.
  intros Hi Hev. revert d m Hi. induction es as [|e es IH]; intros [|d] m Hi; cbn [spine]; try done.
  intros (Eid & nd & ch & m' & El & Eb & Hown & Em & Hsz & Hsib & Hs).
  split; [done|]. exists nd, ch, m'. split_and!; try done.
  - eapply ev_keep; [exact Hev|exact El|]. destruct Hown as [?|(_ & _ & HP)]; [by left|right].
    rewrite HP. intros q [= <-] (j & Hj & E). apply (f_equal length) in E. rewrite !length_trail in E. lia.
  - destruct Hown as [?|(? & ? & ?)]; [by left|right]. split_and!; [done|done|by eapply evolve_place].
  - by eapply siblings_evolve.
  - apply IH; [lia|done].
Qed.

(** Below the root, at least two items below every inner node. *)
Definition two_items (m : contents) : Prop := (2 <= size m)%nat.

Lemma position_0 k : is_key k -> position 0 k = root_id.
Proof.
  intros [H0 H]. unfold position, prefix, root_id. f_equal. rewrite Z.div_small; [done|].
  replace (16 ^ (64 - 0)) with (2 ^ 256) by (vm_compute; reflexivity). done.
Qed.

(** Where a walk ends: at a leaf, or at an inner node without the branch. *)
Definition stops (k : Z) (d : nat) (l : nat) (nd : SHAMapTreeNode) (term : option nat) : Prop :=
  (term = Some l /\ is_inner nd = false)
  \/ (term = None /\ exists ch, node_body nd = Inner ch /\ ch !! nibble (Z.of_nat d) k = None).

Lemma wp_walk (Q : _ -> World -> Prop) fuel c k M P l d es m sh w :
  is_key k -> (64 < fuel + d)%nat -> (d <= 64)%nat ->
  spine two_items (cells w) P c k M es d m -> rep (64 - d) (cells w) P c sh (trail d k) l m ->
  (forall term path d' es' l' m' sh' nd,
     reverse path ++ es = mkEntry l' (position (Z.of_nat d') k) :: es' -> (d' <= 64)%nat ->
     spine two_items (cells w) P c k M es' d' m' -> rep (64 - d') (cells w) P c sh' (trail d' k) l' m' ->
     cells w !! l' = Some nd -> stops k d' l' nd term -> Q (inl (term, path)) w) ->
  wp False (walk fuel k l (position (Z.of_nat d) k)) Q w.
Proof.
  intros Hk. revert Q l d es m sh. induction fuel as [|fuel IH]; intros Q l d es m sh Hf Hd Hsp Hrep HQ; [lia|].
  cbn [walk]. destruct (rep_inv _ _ _ _ _ _ _ _ _ Hrep)
    as (nd & El & Hown & [(t & item & Eb & _)|(n & ch & En & Eb & Hsz & _ & Hb)]);
    wp_step; (eapply wp_node_at; [exact El|]); unfold is_inner at 1; rewrite Eb; cbn [negb].
  { wp_step. eapply (HQ (Some l) [mkEntry l (position (Z.of_nat d) k)]); [by rewrite reverse_singleton|done..|].
    left. split; [done|]. unfold is_inner. by rewrite Eb. }
  rewrite length_trail in Hb.
  rewrite select_branch_nibble by (cbn [position ndepth]; lia). cbn [position ndepth].
  pose proof (Hb (nibble (Z.of_nat d) k)) as Hn.
  unfold is_empty_branch, get_child, is_inner, children_of. rewrite Eb. cbn [andb].
  destruct (ch !! nibble (Z.of_nat d) k) as [cd|] eqn:Ech.
  2:{ rewrite bool_decide_eq_true_2 by done. wp_step.
      eapply (HQ None [mkEntry l (position (Z.of_nat d) k)]); [by rewrite reverse_singleton|done..|].
      right. eauto. }
  rewrite bool_decide_eq_false_2 by done. cbn [mbind option_bind].
  destruct Hn as (Hne & _ & l' & El' & Hr). rewrite El'. wp_step. unfold child_id.
  fold (position (Z.of_nat d) k). rewrite get_child_node_id_position by (lia || done). eapply wp_lift; [done|].
  replace (Z.of_nat d + 1) with (Z.of_nat (S d)) by lia. apply wp_and_then.
  apply (IH _ l' (S d) (mkEntry l (position (Z.of_nat d) k) :: es) (sub d (nibble (Z.of_nat d) k) m) (cowid nd =? 0)).
  - lia.
  - lia.
  - cbn [spine entry_id entry_node]. split; [done|]. exists nd, ch, m. split_and!; try done.
    + by eapply own_ok_weaken.
    + destruct Hsz as [Hsz|?]; [left|by right]. apply (f_equal length) in Hsz. by rewrite length_trail in Hsz.
    + intros b _. replace (63 - d)%nat with n by lia. apply Hb.
  - replace (64 - S d)%nat with n by lia. exact Hr.
  - intros term path d' es' x m' sh' xd Ep Hd' Hs' Hr' Ex Hst. wp_step. cbn [fst snd].
    eapply HQ; [|exact Hd'|exact Hs'|exact Hr'|exact Ex|exact Hst].
    rewrite reverse_cons, <- app_assoc. exact Ep.
Qed.

(** ** The way up *)

(** A node of the spine, with the children below the trail replaced. *)
Lemma rep_graft h P c k d l hs ch ch' m o :
  h !! l = Some (mkNode c hs (Inner ch')) -> P !! l = Some (trail d k) -> 0 < c -> (d < 64)%nat ->
  d = O \/ (2 <= size (put k o m))%nat ->
  siblings h P c k d false ch m ->
  (forall b, b <> nibble (Z.of_nat d) k -> ch' !! b = ch !! b) ->
  child_ok false (node_hash (63 - d)) (rep (63 - d) h P c false (trail (S d) k))
    (put k o (sub d (nibble (Z.of_nat d) k) m)) (ch' !! nibble (Z.of_nat d) k) ->
  rep (64 - d) h P c false (trail d k) l (put k o m).
Proof.
  intros El HP Hc Hd Hsz Hsib Hch Hnew. replace (64 - d)%nat with (S (63 - d)) by lia.
  eapply rep_inner_intro; [exact El|done|done| |].
  - destruct Hsz as [->|?]; [by left|by right].
  - intros b. rewrite length_trail, sub_put. destruct (decide (b = nibble (Z.of_nat d) k)) as [->|Hb]; [exact Hnew|].
    rewrite Hch by done. by apply Hsib.
Qed.

Definition relink (b : Z) (o : option nat) (ch : gmap Z Child) : gmap Z Child :=
  match o with Some x => <[b := mkChild 0 (Some x)]> ch | None => delete b ch end.

Lemma lookup_relink_ne b o ch b' : b' <> b -> relink b o ch !! b' = ch !! b'.
Proof. intros Hb. destruct o; simpl; [by rewrite lookup_insert_ne|by rewrite lookup_delete_ne]. Qed.

Lemma lookup_relink b o ch : relink b o ch !! b = (x ← o; Some (mkChild 0 (Some x))).
Proof. destruct o; simpl; [by rewrite lookup_insert_eq|by rewrite lookup_delete_eq]. Qed.

(** Making the nearest node of the spine the tree's own and giving it a new child. *)
Lemma wp_relink {A} (Q : A -> World -> Prop) (K : nat -> action A) G w c P k M e es d m o :
  holds w P c -> is_key k -> (d < 64)%nat -> spine G (cells w) P c k M (e :: es) (S d) m ->
  (forall l' w' P' ch m',
     evolve (eq (trail d k)) (cells w) P (cells w') P' -> holds w' P' c -> (d <> O -> self w' = self w) ->
     cells w' !! l' = Some (mkNode c 0 (Inner (relink (nibble (Z.of_nat d) k) o ch))) ->
     P' !! l' = Some (trail d k) -> m = sub d (nibble (Z.of_nat d) k) m' -> d = O \/ G m' ->
     siblings (cells w') P' c k d false ch m' -> spine G (cells w') P' c k M es d m' -> wp False (K l') Q w') ->
  wp False (node ← unshare_node (entry_node e) (entry_id e);
            _ ← set_child node (select_branch (entry_id e) k) o; K node) Q w.
Proof.
  intros Hw Hk Hd (Eid & nd & ch & m' & El & Eb & Hown & Em & Hsz & Hsib & Hsp) HQ.
  wp_step. eapply wp_unshare; [exact Hw|exact El|exact Hown|by rewrite Eb|].
  intros l' w' P' Hev Hw' Hroot El' HP'. wp_step.
  assert (select_branch (entry_id e) k = nibble (Z.of_nat d) k) as ->
    by (rewrite Eid, select_branch_nibble; cbn [position ndepth]; [done|lia]).
  eapply wp_set_child; [rewrite El'; unfold set_cowid; by rewrite Eb|apply Hw|apply nibble_range|].
  assert (evolve (eq (trail d k)) (cells w) P (<[l' := mkNode c 0 (Inner (relink (nibble (Z.of_nat d) k) o ch))]> (cells w')) P') as Hev'.
  { eapply evolve_trans; [by apply evolve_nowhere|]. eapply evolve_store; [exact El'| |exact HP'|done].
    cbn [cowid set_cowid]. pose proof (holds_pos _ _ _ Hw). lia. }
  assert (evolve (on_trail k d) (cells w) P (<[l' := mkNode c 0 (Inner (relink (nibble (Z.of_nat d) k) o ch))]> (cells w')) P') as Hev2.
  { eapply evolve_mono; [|exact Hev']. intros q <-. by exists d. }
  eapply HQ; [exact Hev'| | | |exact HP'|exact Em|exact Hsz| |].
  - eapply holds_evolve; [exact Hw|exact Hev'|apply Hw'].
  - intros Hd0. cbn [self set_cells]. apply Hroot. rewrite Eid. unfold is_root. cbn [position ndepth].
    apply Z.eqb_neq. lia.
  - cbn [cells set_cells]. by rewrite lookup_insert_eq.
  - eapply siblings_evolve; [exact Hev2|]. by eapply siblings_own.
  - eapply spine_evolve; [|exact Hev2|exact Hsp]. done.
Qed.

Lemma child_survives h P h' P' c k d l m :
  evolve (eq (trail d k)) h P h' P' -> rep (64 - S d) h P c false (trail (S d) k) l m ->
  rep (63 - d) h' P' c false (trail (S d) k) l m.
Proof.
  intros Hev Hr. replace (63 - d)%nat with (64 - S d)%nat by lia. eapply rep_evolve; [exact Hev| |exact Hr].
  intros _ q Hq <-. apply prefix_length in Hq. rewrite !length_trail in Hq. lia.
Qed.

(** Relinking the whole spine above a node that now has the item [x] at the key. *)
Lemma wp_dirty_up_loop (Q : nat -> World -> Prop) es c k M x P d m child w :
  holds w P c -> is_key k -> (d <= 64)%nat -> spine (fun m => two_items (<[k := x]> m)) (cells w) P c k M es d m ->
  rep (64 - d) (cells w) P c false (trail d k) child (<[k := x]> m) ->
  (forall r w' P', evolve (on_trail k 0) (cells w) P (cells w') P' -> holds w' P' c ->
     rep 64 (cells w') P' c false [] r (<[k := x]> M) -> Q r w') ->
  wp False (dirty_up_loop es k child) Q w.
Proof.
  intros Hw Hk. revert Q P d m child w Hw. induction es as [|e es IH]; intros Q P d m child w Hw Hd Hsp Hr HQ.
  - cbn [spine] in Hsp. destruct d as [|d]; [|done]. subst m. cbn [dirty_up_loop]. wp_step.
    eapply HQ; [apply evolve_refl|done|exact Hr].
  - destruct d as [|d]; [done|]. cbn [dirty_up_loop].
    eapply wp_relink; [exact Hw|exact Hk| |exact Hsp|]; [lia|].
    intros l' w' P' ch m' Hev Hw' _ El' HP' -> Hsz Hsib Hsp'.
    eapply IH; [exact Hw'| |exact Hsp'| |]; [lia| |].
    + rewrite <- put_Some. eapply rep_graft; [exact El'|exact HP'|apply Hw|lia| |exact Hsib|intros; by apply lookup_relink_ne|].
      * exact Hsz.
      * rewrite lookup_relink. cbn [mbind option_bind child_ok ch_node]. rewrite put_Some. split; [apply insert_non_empty|].
        split; [done|]. exists child. split; [done|]. by eapply child_survives.
    + intros r w2 P2 Hev2 Hw2 Hr2. eapply HQ; [|exact Hw2|exact Hr2].
      eapply evolve_trans; [|exact Hev2]. eapply evolve_mono; [|exact Hev]. intros q <-. exists d. split; [lia|done].
Qed.

End Tree.
