(* ===== verification/ShaMapOps.v ===== *)
(** * Lookup, insertion and update

    The effect of [find_key], [add_item] and [update_item] on the contents of a tree,
    on every branch. *)

From S2P Require Import Prelude Stateful Serializer ShaMapNodeId ShaMap ShaMapRep ShaMapSteps.

Section Ops.
Context (sha512_half : list Z -> Z).
Local Notation rep := (rep sha512_half).
Local Notation node_hash := (node_hash sha512_half).
Local Notation spine := (spine sha512_half).
Local Notation siblings := (siblings sha512_half).

(** The tree of the world holds [M], and [P] places its own cells. *)
Record tree_rep (w : World) (P : places) (c : Z) (M : contents) : Prop := mkTreeRep {
  tr_holds : holds w P c;
  tr_rep : rep 64 (cells w) P c false [] (root (self w)) M }.

(** A run that leaves the tree with the contents [M'] and touches no one else's cells. *)
Definition moves {A} (P : places) (c : Z) (M' : contents) (R : A -> Prop) (w : World) (a : A) (w' : World) : Prop :=
  R a /\ exists P', evolve (fun _ => True) (cells w) P (cells w') P' /\ tree_rep w' P' c M'.

Lemma wp_walk_root (Q : _ -> World -> Prop) w P c M k :
  tree_rep w P c M -> is_key k ->
  (forall term path d es l m sh nd,
     reverse path = mkEntry l (position (Z.of_nat d) k) :: es -> (d <= 64)%nat ->
     spine two_items (cells w) P c k M es d m -> rep (64 - d) (cells w) P c sh (trail d k) l m ->
     cells w !! l = Some nd -> stops k d l nd term -> Q (inl (term, path)) w) ->
  wp False (walk_towards_key_with_path k) Q w.
Proof.
  intros [Hw Hr] Hk HQ. unfold walk_towards_key_with_path. wp_steps. rewrite <- (position_0 k) by done.
  change 0 with (Z.of_nat 0). apply (wp_walk sha512_half _ 65 c k M P _ 0 [] M false); [done|lia|lia|done|exact Hr|].
  intros term path d es l m sh nd Ep. rewrite app_nil_r in Ep. by apply HQ.
Qed.

Lemma path_end (path : list NodePathEntry) e es :
  reverse path = e :: es -> last path = Some e /\ reverse (parents path) = es.
Proof.
  intros E. assert (path = reverse es ++ [e]) as ->
    by (rewrite <- (reverse_involutive path), E; by rewrite reverse_cons).
  rewrite last_snoc. split; [done|]. unfold parents. rewrite length_app. cbn [length].
  rewrite Nat.add_sub, take_app_length. apply reverse_involutive.
Qed.

(** What the end of the walk says of the key. *)
Lemma stops_leaf n h P c sh k d l m nd :
  rep n h P c sh (trail d k) l m -> h !! l = Some nd -> stops k d l nd (Some l) ->
  exists t item, nd = mkNode (cowid nd) (compute_leaf_hash sha512_half t item) (Leaf t item)
    /\ own_ok P c sh (trail d k) l nd
    /\ m = {[item_key item := (t, item)]} /\ leaf_ok t item /\ trail d (item_key item) = trail d k /\ d <> O.
Proof.
  intros Hr El [[_ Hi]|[? _]]; [|done].
  destruct (rep_inv _ _ _ _ _ _ _ _ _ Hr) as (nd' & El' & Hown & Hb). rewrite El in El'. injection El' as <-.
  destruct Hb as [(t & item & Eb & Hp & Hok & Ht & -> & Eh)|(? & ? & _ & Eb & _)];
    [|unfold is_inner in Hi; by rewrite Eb in Hi].
  rewrite length_trail in Ht. exists t, item. split_and!; try done; [|by intros ->].
  destruct nd as [? hs ?]. cbn in *. by subst.
Qed.

Lemma stops_inner n h P c sh k d l m nd :
  rep n h P c sh (trail d k) l m -> h !! l = Some nd -> stops k d l nd None ->
  exists n' ch, n = S n' /\ node_body nd = Inner ch /\ ch !! nibble (Z.of_nat d) k = None
    /\ own_ok P c sh (trail d k) l nd /\ (d = O \/ two_items m) /\ m !! k = None
    /\ forall b, child_ok (cowid nd =? 0) (node_hash n')
         (rep n' h P c (cowid nd =? 0) (trail d k ++ [b])) (sub d b m) (ch !! b).
Proof.
  intros Hr El [[? _]|(_ & ch & Eb & Ech)]; [done|].
  destruct (rep_inv _ _ _ _ _ _ _ _ _ Hr) as (nd' & El' & Hown & Hb). rewrite El in El'. injection El' as <-.
  destruct Hb as [(t & item & Eb' & _)|(n' & ch' & -> & Eb' & Hsz & _ & Hb)]; rewrite Eb in Eb'; [done|].
  injection Eb' as <-. rewrite length_trail in Hb. exists n', ch. split_and!; try done.
  - destruct Hsz as [E|?]; [left|by right]. apply (f_equal length) in E. by rewrite length_trail in E.
  - pose proof (Hb (nibble (Z.of_nat d) k)) as Hn. rewrite Ech in Hn. cbn [child_ok] in Hn.
    apply (f_equal (.!! k)) in Hn. by rewrite lookup_sub, decide_True, lookup_empty in Hn.
Qed.

Lemma stops_cases k d l nd term : stops k d l nd term -> term = Some l \/ term = None.
Proof. intros [[-> _]|[-> _]]; auto. Qed.

(** ** Lookup *)

(** The leaf that holds the key's item, in a tree that is left as it was. *)
Definition found (w : World) (M : contents) (k : Z) (r : option nat + MutationError) (w' : World) : Prop :=
  w' = w /\
  match M !! k with
  | Some (t, item) => exists l c, r = inl (Some l)
      /\ cells w !! l = Some (mkNode c (compute_leaf_hash sha512_half t item) (Leaf t item))
  | None => r = inl None
  end.

Lemma wp_find_key w P c M k :
  tree_rep w P c M -> is_key k -> wp False (find_key k) (found w M k) w.
Proof.
  intros Hw Hk. unfold find_key. apply wp_and_then. eapply wp_walk_root; [exact Hw|done|].
  intros term path d es l m sh nd Ep Hd Hsp Hr El Hst. cbn [fst].
  pose proof (spine_lookup _ _ _ _ _ _ _ _ _ _ Hsp) as Hlk.
  destruct (stops_cases _ _ _ _ _ Hst) as [-> | ->].
  - destruct (stops_leaf _ _ _ _ _ _ _ _ _ _ Hr El Hst) as (t & item & End & _ & -> & _).
    wp_step. eapply wp_node_at; [exact El|]. wp_step. split; [done|]. rewrite Hlk, End. cbn [peek_item node_body].
    destruct (Z.eqb_spec (item_key item) k) as [->|Hne].
    + rewrite lookup_singleton_eq. exists l, (cowid nd). split; [done|]. by rewrite <- End.
    + by rewrite lookup_singleton_ne.
  - destruct (stops_inner _ _ _ _ _ _ _ _ _ _ Hr El Hst) as (_ & _ & _ & _ & _ & _ & _ & Hm & _).
    wp_step. split; [done|]. by rewrite Hlk, Hm.
Qed.

(** ** Insertion *)

Lemma two_items_insert k x m : two_items m -> two_items (<[k := x]> m).
Proof. unfold two_items. rewrite map_size_insert. destruct (m !! k); simpl; lia. Qed.

(** Where an item of a new key meets a single other item. *)
Lemma two_items_pair k x (k' : Z) y : k <> k' -> two_items (<[k := x]> ({[k' := y]} : contents)).
Proof.
  intros Hk. unfold two_items. rewrite map_size_insert_None by (by rewrite lookup_singleton_ne).
  by rewrite map_size_singleton.
Qed.

(** The relinked root becomes the tree's. *)
Lemma wp_graft_root (R : (bool + MutationError) -> Prop) w0 P0 es c k M x P d m child w :
  evolve (fun _ => True) (cells w0) P0 (cells w) P ->
  holds w P c -> is_key k -> (d <= 64)%nat -> spine (fun m => two_items (<[k := x]> m)) (cells w) P c k M es d m ->
  rep (64 - d) (cells w) P c false (trail d k) child (<[k := x]> m) -> R (inl true) ->
  wp False (r ← dirty_up_loop es k child; _ ← modify (set_root r); mret (inl true))
    (moves P0 c (<[k := x]> M) R w0) w.
Proof.
  intros Hev Hw Hk Hd Hsp Hr HR. wp_step. eapply wp_dirty_up_loop; [exact Hw|exact Hk|exact Hd|exact Hsp|exact Hr|].
  intros r w' P' Hev' Hw' Hr'. wp_steps. split; [done|]. exists P'. split.
  - eapply evolve_trans; [exact Hev|]. by eapply evolve_mono; [|exact Hev'].
  - constructor; [|exact Hr']. destruct Hw'. by constructor.
Qed.

Lemma wp_add_empty w P c M k t item path d es l m sh nd :
  tree_rep w P c M -> leaf_ok t item -> k = item_key item ->
  reverse path = mkEntry l (position (Z.of_nat d) k) :: es -> (d <= 64)%nat ->
  spine two_items (cells w) P c k M es d m -> rep (64 - d) (cells w) P c sh (trail d k) l m ->
  cells w !! l = Some nd -> stops k d l nd None ->
  wp False (add_into_empty_branch sha512_half path k t item)
    (moves P c (<[k := (t, item)]> M) (eq (inl true)) w) w.
Proof.
  intros [Hw _] Hok Ek Ep Hd Hsp Hr El Hst. assert (is_key k) as Hk by (rewrite Ek; apply Hok).
  destruct (stops_inner _ _ _ _ _ _ _ _ _ _ Hr El Hst) as (n' & ch & En & Eb & Ech & Hown & Hsz & Hm & Hch).
  destruct (path_end _ _ _ Ep) as [Elast Epar]. unfold add_into_empty_branch. rewrite Elast.
  cbn [entry_id entry_node]. rewrite select_branch_nibble by (cbn [position ndepth]; lia). cbn [position ndepth].
  wp_step. eapply wp_unshare; [exact Hw|exact El|exact Hown|by rewrite Eb|].
  intros l1 w1 P1 Hev1 Hw1 _ El1 HP1. assert (set_cowid c nd = mkNode c (hash nd) (Inner ch)) as Es
    by (unfold set_cowid; by rewrite Eb). rewrite Es in El1.
  wp_step. eapply wp_node_at; [exact El1|]. wp_step. apply wp_debug_assert; [done|].
  wp_step. apply wp_debug_assert; [by apply bool_decide_eq_true_2|]. wp_steps.
  rewrite (holds_cowid _ _ _ Hw1). apply wp_new_leaf; [done|]. intros x Hx.
  set (leaf := mkNode c _ (Leaf t item)).
  assert (evolve nowhere (cells w1) P1 (<[x := leaf]> (cells w1)) (<[x := trail (S d) k]> P1)) as Hev2
    by (apply evolve_alloc; [done|apply Hw1]).
  assert (x <> l1) as Hxl by congruence. pose proof (holds_pos _ _ _ Hw) as Hc.
  wp_step. eapply (wp_set_child _ _ _ (Some x)); [cbn; by rewrite lookup_insert_ne|done|apply nibble_range|].
  set (h3 := <[l1 := _]> _). set (P3 := <[x := trail (S d) k]> P1) in *.
  assert (P3 !! l1 = Some (trail d k)) as HP3 by (unfold P3; by rewrite lookup_insert_ne).
  assert (evolve (on_trail k d) (cells w) P h3 P3) as Hev3.
  { eapply evolve_trans; [by apply evolve_nowhere|]. eapply evolve_trans; [apply evolve_nowhere, Hev2|].
    eapply evolve_store; [cbn; rewrite lookup_insert_ne by done; exact El1|cbn; lia|exact HP3|by exists d]. }
  unfold dirty_up. rewrite Epar. eapply (wp_graft_root _ _ _ _ _ _ _ _ P3).
  - eapply evolve_mono; [|exact Hev3]. done.
  - eapply (holds_evolve _ w); [exact Hw|exact Hev3|apply Hw1].
  - done.
  - exact Hd.
  - eapply spine_mono; [intros ? _; apply two_items_insert|]. by eapply spine_evolve; [|exact Hev3|].
  - rewrite <- put_Some. eapply (rep_graft _ _ _ _ _ _ _ _ ch); [unfold h3; cbn; by rewrite lookup_insert_eq|done|done|lia| | | |].
    + destruct Hsz; [by left|right]. by apply two_items_insert.
    + eapply siblings_evolve; [exact Hev3|]. eapply siblings_own. intros b _.
      replace (63 - d)%nat with n' by lia. apply Hch.
    + intros b Hb. by rewrite lookup_insert_ne.
    + rewrite lookup_insert_eq. rewrite put_Some. cbn [child_ok ch_node]. split; [apply insert_non_empty|].
      split; [done|]. exists x. split; [done|].
      assert (sub d (nibble (Z.of_nat d) k) m = ∅) as ->.
      { pose proof (Hch (nibble (Z.of_nat d) k)) as Hn. by rewrite Ech in Hn. }
      rewrite insert_empty. rewrite Ek at 2. apply rep_leaf_intro.
      * unfold h3. cbn. by rewrite lookup_insert_ne, lookup_insert_eq by done.
      * unfold P3. by rewrite lookup_insert_eq.
      * cbn [trail]. by destruct (trail d k).
      * done.
      * by rewrite length_trail, <- Ek.
  - done.
Qed.

(** Two keys that part at depth [d]: an inner node with a leaf for each. *)
Lemma rep_pair h P c k k' d l x y t item existing hs :
  h !! l = Some (mkNode c hs (Inner (<[nibble (Z.of_nat d) k' := mkChild 0 (Some y)]>
                                      {[nibble (Z.of_nat d) k := mkChild 0 (Some x)]}))) ->
  h !! x = Some (mkNode c (compute_leaf_hash sha512_half t item) (Leaf t item)) ->
  h !! y = Some (mkNode c (compute_leaf_hash sha512_half t existing) (Leaf t existing)) ->
  P !! l = Some (trail d k) -> P !! x = Some (trail (S d) k) -> P !! y = Some (trail (S d) k') ->
  0 < c -> (d < 64)%nat -> leaf_ok t item -> leaf_ok t existing -> item_key item = k -> item_key existing = k' ->
  trail d k' = trail d k -> nibble (Z.of_nat d) k <> nibble (Z.of_nat d) k' ->
  rep (64 - d) h P c false (trail d k) l (<[k := (t, item)]> {[k' := (t, existing)]}).
Proof.
  intros El Ex Ey HPl HPx HPy Hc Hd Hok Hok' Ek Ek' Et Hne.
  assert (forall n z, trail (S n) z <> []) as Hnil by (intros n z; cbn [trail]; by destruct (trail n z)).
  rewrite <- put_Some. eapply (rep_graft _ _ _ _ _ _ _ _ {[nibble (Z.of_nat d) k' := mkChild 0 (Some y)]});
    [exact El|done|done|done| | | |].
  - right. apply two_items_pair. congruence.
  - intros b Hb. rewrite sub_singleton. case_decide as E.
    + subst b. rewrite lookup_singleton_eq. split; [done|]. split; [done|]. exists y. split; [done|].
      rewrite <- Ek' at 2. apply rep_leaf_intro; rewrite ?Ek'; try done.
      * rewrite HPy. cbn [trail]. by rewrite Et.
      * by destruct (trail d k).
      * rewrite length_app, length_trail, Nat.add_1_r. cbn [trail]. by rewrite Et.
    + by rewrite lookup_singleton_ne.
  - intros b Hb. destruct (decide (b = nibble (Z.of_nat d) k')) as [->|].
    + by rewrite lookup_insert_eq, lookup_singleton_eq.
    + by rewrite lookup_insert_ne, !lookup_singleton_ne.
  - rewrite lookup_insert_ne, lookup_singleton_eq by done. rewrite put_Some.
    split; [apply insert_non_empty|]. split; [done|]. exists x. split; [done|].
    rewrite sub_singleton, decide_False, insert_empty by done.
    rewrite <- Ek at 2. apply rep_leaf_intro; rewrite ?Ek; try done. by rewrite length_trail.
Qed.

(** A new inner node of the tree on the trail of two keys that still agree. *)
Lemma spine_split G h P c k k' M es d l hs y :
  h !! l = Some (mkNode c hs (Inner ∅)) -> P !! l = Some (trail d k) ->
  nibble (Z.of_nat d) k = nibble (Z.of_nat d) k' -> G {[k' := y]} ->
  spine G h P c k M es d {[k' := y]} ->
  spine G h P c k M (mkEntry l (position (Z.of_nat d) k) :: es) (S d) {[k' := y]}.
Proof.
  intros El HP En HG Hsp. cbn [ShaMapSteps.spine entry_id entry_node]. split; [done|].
  exists (mkNode c hs (Inner ∅)), ∅, {[k' := y]}. split_and!; try done.
  - by right.
  - by rewrite sub_singleton, decide_True.
  - by right.
  - intros b Hb. rewrite lookup_empty, sub_singleton, decide_False by congruence. done.
Qed.

(** The level where the two keys part. *)
Lemma wp_split_here w0 P0 w P c M t item existing stack d split k k' :
  evolve (fun _ => True) (cells w0) P0 (cells w) P -> holds w P c ->
  leaf_ok t item -> leaf_ok t existing -> item_key item = k -> item_key existing = k' ->
  (d < 64)%nat -> trail d k' = trail d k -> nibble (Z.of_nat d) k <> nibble (Z.of_nat d) k' ->
  spine (fun m => two_items (<[k := (t, item)]> m)) (cells w) P c k M (reverse stack) d {[k' := (t, existing)]} ->
  cells w !! split = Some (mkNode c 0 (Inner ∅)) -> P !! split = Some (trail d k) ->
  wp False (new ← new_leaf sha512_half t item c;
            _ ← set_child split (nibble (Z.of_nat d) k) (Some new);
            old ← new_leaf sha512_half t existing c;
            _ ← set_child split (nibble (Z.of_nat d) k') (Some old);
            r ← dirty_up stack k split; _ ← modify (set_root r); mret (inl true : bool + MutationError))
    (moves P0 c (<[k := (t, item)]> M) (eq (inl true)) w0) w.
Proof.
  intros Hev Hw Hok Hok' Ek Ek' Hd Et En Hsp El HP. pose proof (holds_pos _ _ _ Hw) as Hc.
  wp_step. apply wp_new_leaf; [done|]. intros x Hx. assert (split <> x) by congruence.
  wp_step. eapply (wp_set_child _ _ _ (Some x)); [cbn; rewrite lookup_insert_ne by done; exact El|done|apply nibble_range|].
  cbn [cells set_cells self]. set (h1 := <[split := _]> (<[x := _]> _)). set (P1 := <[x := trail (S d) k]> P).
  assert (evolve (on_trail k d) (cells w) P h1 P1) as Hev1.
  { eapply evolve_trans; [apply (evolve_alloc _ _ _ x); [done|apply Hw]|].
    eapply (evolve_store _ _ _ split _ _ (trail d k)); [rewrite lookup_insert_ne by done; exact El|cbn; lia| |by exists d].
    unfold P1. by rewrite lookup_insert_ne. }
  wp_step. apply wp_new_leaf; [done|]. intros y Hy. cbn [cells set_cells self] in *.
  assert (y <> split) by (intros ->; unfold h1 in Hy; by rewrite lookup_insert_eq in Hy).
  assert (y <> x) by (intros ->; unfold h1 in Hy; by rewrite lookup_insert_ne, lookup_insert_eq in Hy).
  assert (h1 !! split = Some (mkNode c 0 (Inner {[nibble (Z.of_nat d) k := mkChild 0 (Some x)]}))) as El1
    by (unfold h1; by rewrite lookup_insert_eq).
  assert (P1 !! split = Some (trail d k)) as HP1 by (unfold P1; by rewrite lookup_insert_ne).
  wp_step. eapply (wp_set_child _ _ _ (Some y)); [cbn; rewrite lookup_insert_ne by done; exact El1|done|apply nibble_range|].
  cbn [cells set_cells self]. set (h2 := <[split := _]> (<[y := _]> _)). set (P2 := <[y := trail (S d) k']> P1).
  assert (P2 !! split = Some (trail d k)) as HP2 by (unfold P2; by rewrite lookup_insert_ne).
  assert (evolve (on_trail k d) (cells w) P h2 P2) as Hev2.
  { eapply evolve_trans; [exact Hev1|]. eapply evolve_trans; [apply (evolve_alloc _ _ _ y); [done|]|].
    - eapply evolve_ok; [exact Hev1|apply Hw].
    - eapply (evolve_store _ _ _ split _ _ (trail d k)); [rewrite lookup_insert_ne by done; exact El1|cbn; lia|exact HP2|by exists d]. }
  unfold dirty_up. eapply (wp_graft_root _ _ _ _ _ _ _ _ P2).
  - eapply evolve_trans; [exact Hev|]. by eapply evolve_mono; [|exact Hev2].
  - eapply holds_evolve; [exact Hw|exact Hev2|apply Hw].
  - rewrite <- Ek. apply Hok.
  - exact (Nat.lt_le_incl _ _ Hd).
  - eapply spine_evolve; [exact (le_n _)|exact Hev2|exact Hsp].
  - eapply (rep_pair _ _ _ _ _ _ _ x y); try done; unfold h2, h1, P2, P1; cbn; simplify_map_eq; done.
  - done.
Qed.

Lemma wp_split_loop fuel w0 P0 w P c M t item existing stack d split :
  evolve (fun _ => True) (cells w0) P0 (cells w) P -> holds w P c ->
  leaf_ok t item -> leaf_ok t existing -> item_key item <> item_key existing ->
  (64 < fuel + d)%nat -> (d <= 64)%nat -> trail d (item_key existing) = trail d (item_key item) ->
  spine (fun m => two_items (<[item_key item := (t, item)]> m)) (cells w) P c (item_key item) M (reverse stack) d
    {[item_key existing := (t, existing)]} ->
  cells w !! split = Some (mkNode c 0 (Inner ∅)) -> P !! split = Some (trail d (item_key item)) ->
  wp False (split_loop sha512_half fuel t item existing stack (position (Z.of_nat d) (item_key item)) split)
    (moves P0 c (<[item_key item := (t, item)]> M) (eq (inl true)) w0) w.
Proof.
  intros Hev Hw Hok Hok' Hne. set (k := item_key item) in *. set (k' := item_key existing) in *.
  revert w P stack d split Hev Hw. induction fuel as [|fuel IH]; intros w P stack d split Hev Hw Hf Hd Et Hsp El HP; [lia|].
  pose proof (holds_pos _ _ _ Hw) as Hc.
  assert (d <> 64%nat) as Hd64 by (intros ->; apply Hne, trail_inj; [apply Hok|apply Hok'|done]).
  cbn [split_loop]. wp_step. wp_step. fold k k'. rewrite (holds_cowid _ _ _ Hw).
  rewrite !select_branch_nibble by (cbn [position ndepth]; lia). cbn [position ndepth].
  destruct (Z.eqb_spec (nibble (Z.of_nat d) k) (nibble (Z.of_nat d) k')) as [En|En]; cbn [negb].
  - wp_step. unfold child_id. fold (position (Z.of_nat d) k).
    rewrite get_child_node_id_position by (lia || apply Hok). eapply wp_lift; [done|].
    replace (Z.of_nat d + 1) with (Z.of_nat (S d)) by lia.
    wp_step. apply wp_alloc. intros x Hx.
    assert (forall A, evolve A (cells w) P (<[x := mkNode c 0 (Inner ∅)]> (cells w)) (<[x := trail (S d) k]> P)) as Hev'
      by (intros A; apply evolve_alloc; [done|apply Hw]).
    eapply (IH _ (<[x := trail (S d) k]> P)).
    + eapply evolve_trans; [exact Hev|apply Hev'].
    + eapply holds_evolve; [exact Hw|apply (Hev' nowhere)|apply Hw].
    + lia.
    + lia.
    + cbn [trail]. congruence.
    + rewrite reverse_app, reverse_singleton. eapply spine_evolve; [exact (le_n _)|apply Hev'|].
      eapply spine_split; [exact El|exact HP|exact En| |exact Hsp]. by apply two_items_pair.
    + cbn. by rewrite lookup_insert_eq.
    + by rewrite lookup_insert_eq.
  - eapply wp_split_here; try done. lia.
Qed.

(** The answer of [add_item]: the key is new and the item goes in, or it is taken, or
    an item of another type is in the way. *)
Definition added (w : World) (P : places) (c : Z) (M : contents) (t : SHAMapNodeType) (item : SHAMapItem)
  (r : bool + MutationError) (w' : World) : Prop :=
  match M !! item_key item with
  | Some _ => r = inl false /\ w' = w
  | None =>
      moves P c (<[item_key item := (t, item)]> M) (eq (inl true)) w r w'
      \/ exists k' t' item', M !! k' = Some (t', item') /\ t' <> t /\ r = inr (CrossTypeChange t t') /\ w' = w
  end.

Lemma wp_add_split w P c M t item path d es l m sh nd :
  tree_rep w P c M -> leaf_ok t item ->
  reverse path = mkEntry l (position (Z.of_nat d) (item_key item)) :: es -> (d <= 64)%nat ->
  spine two_items (cells w) P c (item_key item) M es d m ->
  rep (64 - d) (cells w) P c sh (trail d (item_key item)) l m ->
  cells w !! l = Some nd -> stops (item_key item) d l nd (Some l) ->
  wp False (add_with_leaf_split sha512_half path l t item) (added w P c M t item) w.
Proof.
  intros [Hw _] Hok Ep Hd Hsp Hr El Hst. set (k := item_key item) in *.
  destruct (stops_leaf _ _ _ _ _ _ _ _ _ _ Hr El Hst) as (t' & existing & End & _ & -> & Hok' & Et & _).
  pose proof (spine_lookup _ _ _ _ _ _ _ _ _ _ Hsp) as Hlk. destruct (path_end _ _ _ Ep) as [Elast Epar].
  unfold add_with_leaf_split, added. fold k. rewrite Elast, Hlk. wp_step. eapply wp_node_at; [exact El|].
  rewrite End. cbn [peek_item get_type node_body entry_id].
  destruct (Z.eqb_spec (item_key existing) k) as [Ek|Hne].
  { wp_step. by rewrite <- Ek, lookup_singleton_eq. }
  rewrite lookup_singleton_ne by done.
  destruct (bool_decide_reflect (t' = t)) as [->|Ht]; cbn [negb].
  2:{ wp_step. right. exists (item_key existing), t', existing. split_and!; try done.
      eapply lookup_weaken; [|by eapply spine_subseteq]. by rewrite lookup_singleton_eq. }
  wp_steps. rewrite (holds_cowid _ _ _ Hw). apply wp_alloc. intros x Hx.
  assert (forall A, evolve A (cells w) P (<[x := mkNode c 0 (Inner ∅)]> (cells w)) (<[x := trail d k]> P)) as Hev
    by (intros A; apply evolve_alloc; [done|apply Hw]).
  eapply wp_mono; [|intros r w' Hm; left; exact Hm].
  eapply (wp_split_loop 65 _ _ _ (<[x := trail d k]> P)); [apply Hev| |done|done|by intros E; apply Hne|lia|exact Hd|exact Et| | |].
  - eapply holds_evolve; [exact Hw|apply (Hev nowhere)|apply Hw].
  - rewrite Epar. eapply spine_mono; [intros ? _; apply two_items_insert|].
    eapply spine_evolve; [exact (le_n _)|apply Hev|exact Hsp].
  - cbn. by rewrite lookup_insert_eq.
  - by rewrite lookup_insert_eq.
Qed.

Lemma wp_add_item w P c M t item :
  tree_rep w P c M -> leaf_ok t item -> wp False (add_item sha512_half t item) (added w P c M t item) w.
Proof.
  intros Hw Hok. unfold add_item. wp_step.
  apply wp_debug_assert; [apply negb_true_iff; rewrite bool_decide_eq_false_2; [done|apply Hok]|].
  apply wp_and_then. eapply wp_walk_root; [exact Hw|apply Hok|].
  intros term path d es l m sh nd Ep Hd Hsp Hr El Hst. cbn [fst snd].
  destruct (stops_cases _ _ _ _ _ Hst) as [-> | ->]; [by eapply wp_add_split|].
  eapply wp_mono; [by eapply wp_add_empty|]. intros r w' Hm. unfold added.
  rewrite (spine_lookup _ _ _ _ _ _ _ _ _ _ Hsp).
  destruct (stops_inner _ _ _ _ _ _ _ _ _ _ Hr El Hst) as (_ & _ & _ & _ & _ & _ & _ & -> & _). by left.
Qed.

(** ** Update *)

Definition updated (w : World) (P : places) (c : Z) (M : contents) (t : SHAMapNodeType) (item : SHAMapItem)
  (r : bool + MutationError) (w' : World) : Prop :=
  match M !! item_key item with
  | None => r = inr (MissingExactLeaf (item_key item)) /\ w' = w
  | Some (t', _) =>
      if decide (t' = t) then moves P c (<[item_key item := (t, item)]> M) (eq (inl true)) w r w'
      else r = inr (CrossTypeChange t t') /\ w' = w
  end.

(** The new item has another hash unless it is the old one. *)
Definition distinct_hash (t : SHAMapNodeType) (old new : SHAMapItem) : Prop :=
  compute_leaf_hash sha512_half t old = compute_leaf_hash sha512_half t new -> old = new.

Lemma wp_set_item (Q : bool -> World -> Prop) l item c hs t old w :
  cells w !! l = Some (mkNode c hs (Leaf t old)) -> 0 < c ->
  Q (negb (hs =? compute_leaf_hash sha512_half t item))
    (set_cells (<[l := mkNode c (compute_leaf_hash sha512_half t item) (Leaf t item)]> (cells w)) w) ->
  wp False (set_item sha512_half l item) Q w.
Proof.
  intros El Hc HQ. unfold set_item. wp_step. eapply wp_node_at; [exact El|]. cbn [node_body cowid hash].
  wp_step. apply wp_debug_assert; [apply negb_true_iff, Z.eqb_neq; lia|]. exact HQ.
Qed.

Lemma wp_update_leaf w P c M t item es d l m sh hs existing c0 :
  tree_rep w P c M -> leaf_ok t item -> leaf_ok t existing -> distinct_hash t existing item ->
  (d <= 64)%nat -> d <> O -> M !! item_key item = Some (t, existing) ->
  spine two_items (cells w) P c (item_key item) M es d m -> m = {[item_key item := (t, existing)]} ->
  own_ok P c sh (trail d (item_key item)) l (mkNode c0 hs (Leaf t existing)) ->
  hs = compute_leaf_hash sha512_half t existing -> cells w !! l = Some (mkNode c0 hs (Leaf t existing)) ->
  wp False (leaf ← unshare_node l (position (Z.of_nat d) (item_key item));
            changed ← set_item sha512_half leaf item;
            _ ← when changed (r' ← dirty_up_loop es (item_key item) leaf; modify (set_root r'));
            mret (inl true : bool + MutationError)) (moves P c (<[item_key item := (t, item)]> M) (eq (inl true)) w) w.
Proof.
  intros [Hw Hroot] Hok Hok' Hcol Hd Hd0 HM Hsp Em Hown Ehs El. set (k := item_key item) in *.
  pose proof (holds_pos _ _ _ Hw) as Hc.
  wp_step. eapply wp_unshare; [exact Hw|exact El|exact Hown|cbn; congruence|].
  intros l1 w1 P1 Hev1 Hw1 Hself El1 HP1. cbn [set_cowid hash node_body] in El1.
  wp_step. eapply wp_set_item; [exact El1|done|]. rewrite Ehs. wp_step. apply wp_when; intros Hch.
  - set (h2 := <[l1 := _]> _). assert (evolve (on_trail k d) (cells w) P h2 P1) as Hev2.
    { eapply evolve_trans; [by apply evolve_nowhere|].
      eapply evolve_store; [exact El1|cbn; lia|exact HP1|by exists d]. }
    wp_step. eapply wp_dirty_up_loop.
    + eapply (holds_evolve _ w); [exact Hw|exact Hev2|apply Hw1].
    + apply Hok.
    + exact Hd.
    + eapply spine_mono; [intros ? _; apply two_items_insert|].
      eapply spine_evolve; [exact (le_n _)|exact Hev2|exact Hsp].
    + subst m. rewrite insert_singleton_eq. apply rep_leaf_intro; try done.
      * unfold h2. cbn. by rewrite lookup_insert_eq.
      * intros E. apply (f_equal length) in E. by rewrite length_trail in E.
      * by rewrite length_trail.
    + intros r w' P' Hev' Hw' Hr'. wp_steps. split; [done|]. exists P'. split.
      * eapply evolve_trans; [by eapply evolve_mono; [|exact Hev2]|]. by eapply evolve_mono; [|exact Hev'].
      * constructor; [|exact Hr']. destruct Hw'. by constructor.
  - apply negb_false_iff, Z.eqb_eq in Hch. apply Hcol in Hch as E. subst existing. wp_step. split; [done|].
    exists P1. rewrite (insert_id M) by done. cbn [cells set_cells self]. rewrite Ehs in El1.
    assert (self w1 = self w) as Es by (apply Hself; unfold is_root; cbn [position ndepth]; apply Z.eqb_neq; lia).
    assert (<[l1 := mkNode c (compute_leaf_hash sha512_half t item) (Leaf t item)]> (cells w1) = cells w1) as Eh
      by (by apply insert_id). rewrite Eh. split; [by apply evolve_nowhere|].
    constructor; cbn [cells set_cells self].
    + destruct Hw1. by constructor.
    + rewrite Es. eapply rep_evolve; [exact Hev1|by intros _ q _ ?|exact Hroot].
Qed.

Lemma wp_update_item w P c M t item :
  tree_rep w P c M -> leaf_ok t item ->
  (forall old, M !! item_key item = Some (t, old) -> distinct_hash t old item) ->
  wp False (update_item sha512_half t item) (updated w P c M t item) w.
Proof.
  intros Hw Hok Hcol. unfold update_item. wp_step.
  apply wp_debug_assert; [apply negb_true_iff; rewrite bool_decide_eq_false_2; [done|apply Hok]|].
  apply wp_and_then. eapply wp_walk_root; [exact Hw|apply Hok|].
  intros term path d es l m sh nd Ep Hd Hsp Hr El Hst. cbn [fst snd].
  destruct (path_end _ _ _ Ep) as [Elast Epar]. rewrite Elast. unfold updated.
  pose proof (spine_lookup _ _ _ _ _ _ _ _ _ _ Hsp) as Hlk.
  destruct (stops_cases _ _ _ _ _ Hst) as [-> | ->].
  2:{ destruct (stops_inner _ _ _ _ _ _ _ _ _ _ Hr El Hst) as (_ & _ & _ & _ & _ & _ & _ & Hm & _).
      wp_step. by rewrite Hlk, Hm. }
  destruct (stops_leaf _ _ _ _ _ _ _ _ _ _ Hr El Hst) as (t' & existing & End & Hown & -> & Hok' & _ & Hd0).
  wp_step. eapply wp_node_at; [exact El|]. rewrite End in El, Hown |- *. cbn [peek_item get_type node_body entry_id].
  destruct (Z.eqb_spec (item_key existing) (item_key item)) as [Ek|Hne]; cbn [negb].
  2:{ wp_step. by rewrite Hlk, lookup_singleton_ne. }
  rewrite Ek, lookup_singleton_eq in Hlk. rewrite Hlk.
  destruct (bool_decide_reflect (t' = t)) as [->|Ht]; cbn [negb].
  2:{ wp_step. by rewrite decide_False. }
  destruct (decide (t = t)); [|done]. unfold dirty_up. rewrite Epar.
  eapply wp_update_leaf; try done; [by apply Hcol|by rewrite Ek].
Qed.

End Ops.
