(* ===== verification/ShaMapDelete.v ===== *)
(** * Deletion

    [delete_item] removes a leaf and, on the way up, replaces every inner node that is
    left with a single item by a leaf for it. *)

From S2P Require Import Prelude Stateful Serializer ShaMapNodeId ShaMap ShaMapRep ShaMapSteps ShaMapOps.

(** ** The branches present *)

Definition present (ch : gmap Z Child) : list Z := filter (fun b => is_Some (ch !! b)) branches.

Lemma branches_elem b : b ∈ branches <-> 0 <= b < 16.
Proof. unfold branches, BRANCH_FACTOR. rewrite elem_of_seqZ. lia. Qed.

Lemma present_elem ch b :
  (forall b, is_Some (ch !! b) -> 0 <= b < 16) -> b ∈ present ch <-> is_Some (ch !! b).
Proof.
  intros H. unfold present. rewrite list_elem_of_filter, branches_elem. split; [by intros [? _]|]. auto.
Qed.

Lemma present_NoDup ch : NoDup (present ch).
Proof. apply NoDup_filter, NoDup_seqZ. Qed.

Lemma present_length ch :
  (forall b, is_Some (ch !! b) -> 0 <= b < 16) -> length (present ch) = size ch.
Proof.
  intros H. rewrite <- (size_dom (D := gset Z)).
  rewrite <- (size_list_to_set (C := gset Z) (present ch)) by apply present_NoDup.
  f_equal. apply set_eq. intros b. rewrite elem_of_list_to_set, elem_of_dom. by apply present_elem.
Qed.

Lemma empty_branch_inner nd ch b :
  node_body nd = Inner ch -> is_empty_branch nd b = bool_decide (ch !! b = None).
Proof. intros E. unfold is_empty_branch, is_inner, children_of. by rewrite E. Qed.

Lemma select_only_branch_eq nd ch : node_body nd = Inner ch -> select_only_branch nd = head (present ch).
Proof.
  intros E. unfold select_only_branch, present. f_equal. apply list_filter_iff. intros b.
  rewrite (empty_branch_inner _ _ _ E), bool_decide_eq_false. by rewrite <- not_eq_None_Some.
Qed.

Definition loaded (ch : gmap Z Child) : Prop := forall b cd, ch !! b = Some cd -> is_Some (ch_node cd).

Lemma get_child_inner nd ch b : node_body nd = Inner ch -> get_child nd b = (cd ← ch !! b; ch_node cd).
Proof. intros E. unfold get_child, children_of. by rewrite E. Qed.

(** One step of the search loop. *)
Lemma only_child_cons nd ch b bs next :
  node_body nd = Inner ch -> loaded ch ->
  only_child nd (b :: bs) next =
    match ch !! b, next with
    | None, _ => only_child nd bs next
    | Some _, Some _ => None
    | Some cd, None => only_child nd bs (ch_node cd)
    end.
Proof.
  intros E Hl. cbn [only_child]. rewrite (empty_branch_inner _ _ _ E), (get_child_inner _ _ _ E).
  destruct (ch !! b) as [cd|] eqn:Eb; [|by rewrite bool_decide_eq_true_2].
  rewrite bool_decide_eq_false_2 by done. cbn [mbind option_bind].
  destruct (Hl _ _ Eb) as [l ->]. by destruct next.
Qed.

Lemma only_child_some nd ch bs x :
  node_body nd = Inner ch -> loaded ch ->
  only_child nd bs (Some x) =
    match filter (fun b => is_Some (ch !! b)) bs with [] => Some (Some x) | _ => None end.
Proof.
  intros E Hl. induction bs as [|b bs IH]; [done|]. rewrite (only_child_cons _ _ _ _ _ E Hl), filter_cons.
  destruct (ch !! b); [by rewrite decide_True|]. rewrite IH, decide_False; [done|]. by intros [? ?].
Qed.

Lemma only_child_eq nd ch :
  node_body nd = Inner ch -> loaded ch ->
  only_child nd branches None =
    match present ch with
    | [] => Some None
    | [b] => Some (cd ← ch !! b; ch_node cd)
    | _ => None
    end.
Proof.
  intros E Hl. unfold present. generalize branches. intros bs.
  induction bs as [|b bs IH]; [done|]. rewrite (only_child_cons _ _ _ _ _ E Hl), filter_cons.
  destruct (ch !! b) as [cd|] eqn:Eb; [|rewrite IH, decide_False; [done|by intros [? ?]]].
  rewrite decide_True by done. destruct (Hl _ _ Eb) as [l El]. rewrite El, (only_child_some _ _ _ _ E Hl).
  destruct (filter _ bs); [|done]. rewrite Eb. cbn. by rewrite El.
Qed.

Section Delete.
Context (sha512_half : list Z -> Z).
Local Notation rep := (rep sha512_half).
Local Notation node_hash := (node_hash sha512_half).
Local Notation spine := (spine sha512_half).
Local Notation siblings := (siblings sha512_half).
Local Notation tree_rep := (tree_rep sha512_half).
Local Notation moves := (moves sha512_half).

(** ** Children and the contents below them *)

(** The children of a node at depth [d], each with its part of the contents. *)
Definition kids (sh : bool) (H : contents -> Z) (R : Z -> nat -> contents -> Prop) (d : nat) (m : contents)
  (ch : gmap Z Child) : Prop :=
  forall b, child_ok sh H (R b) (sub d b m) (ch !! b).

Section Kids.
Context (sh : bool) (H : contents -> Z) (R : Z -> nat -> contents -> Prop) (d : nat) (m : contents) (ch : gmap Z Child).
Context (Hk : kids sh H R d m ch).

Lemma kids_range b : is_Some (ch !! b) -> 0 <= b < 16.
Proof using Hk.
  intros [cd E]. specialize (Hk b). rewrite E in Hk. destruct Hk as [Hne _]. by eapply sub_range.
Qed.

Lemma kids_loaded : loaded ch.
Proof using Hk. intros b cd E. specialize (Hk b). rewrite E in Hk. destruct Hk as (_ & _ & l & -> & _). eauto. Qed.

Lemma kids_absent b : ch !! b = None -> sub d b m = ∅.
Proof using Hk. intros E. specialize (Hk b). by rewrite E in Hk. Qed.

Lemma kids_none : present ch = [] -> m = ∅.
Proof using Hk.
  intros E. apply map_empty. intros k.
  assert (ch !! nibble (Z.of_nat d) k = None) as Hn.
  { apply eq_None_not_Some. intros Hs. apply present_elem in Hs; [|apply kids_range]. rewrite E in Hs. by apply elem_of_nil in Hs. }
  apply kids_absent in Hn. apply (f_equal (.!! k)) in Hn. by rewrite lookup_sub, decide_True, lookup_empty in Hn.
Qed.

Lemma kids_one b : present ch = [b] -> exists cd l, ch !! b = Some cd /\ ch_node cd = Some l /\ R b l m.
Proof using Hk.
  intros E. assert (sub d b m = m) as Em.
  { apply sub_all. intros b' Hb'. apply kids_absent. apply eq_None_not_Some. intros Hs.
    apply present_elem in Hs; [|apply kids_range]. rewrite E in Hs. by apply list_elem_of_singleton in Hs. }
  assert (b ∈ present ch) as Hs by (rewrite E; by left).
  apply present_elem in Hs as [cd Ec]; [|apply kids_range].
  specialize (Hk b). rewrite Ec in Hk. destruct Hk as (_ & _ & l & El & HR). rewrite Em in HR. eauto.
Qed.

Lemma kids_many b b' bs : present ch = b :: b' :: bs -> two_items m.
Proof using Hk.
  intros E. assert (b <> b') as Hne.
  { pose proof (present_NoDup ch) as Hnd. rewrite E in Hnd. apply NoDup_cons in Hnd as [Hn _].
    intros ->. apply Hn. by left. }
  assert (forall x, x ∈ present ch -> exists k y, m !! k = Some y /\ nibble (Z.of_nat d) k = x) as G.
  { intros x Hx. apply present_elem in Hx as [cd Ec]; [|apply kids_range].
    specialize (Hk x). rewrite Ec in Hk. destruct Hk as (Hsub & _).
    apply map_choose in Hsub as (k & y & Hy). rewrite lookup_sub in Hy. case_decide; [|done]. eauto. }
  destruct (G b) as (k & y & Ek & Hk1); [rewrite E; by left|].
  destruct (G b') as (k' & y' & Ek' & Hk2); [rewrite E; right; by left|].
  assert (k <> k') as Hkk by congruence. unfold two_items.
  rewrite <- (insert_delete_id m k y) by done. rewrite map_size_insert_None by apply lookup_delete_eq.
  rewrite <- (insert_delete_id (delete k m) k' y') by (by rewrite lookup_delete_ne).
  rewrite map_size_insert_None by apply lookup_delete_eq. lia.
Qed.

End Kids.

(** ** The only leaf below a node *)

Definition sole (w : World) (m : contents) (r : option nat) (w' : World) : Prop :=
  w' = w /\
  match r with
  | Some x => exists c t item, cells w !! x = Some (mkNode c (compute_leaf_hash sha512_half t item) (Leaf t item))
      /\ m = {[item_key item := (t, item)]}
  | None => two_items m
  end.

Lemma wp_only_below fuel n w P c sh p l m :
  p <> [] -> (n < fuel)%nat -> rep n (cells w) P c sh p l m ->
  wp False (only_below_loaded_leaf fuel l) (sole w m) w.
Proof.
  revert n sh p l. induction fuel as [|fuel IH]; intros n sh p l Hp Hf Hr; [lia|].
  destruct (rep_inv _ _ _ _ _ _ _ _ _ Hr)
    as (nd & El & _ & [(t & item & Eb & _ & _ & _ & -> & Eh)|(n' & ch & -> & Eb & [?|Hsz] & _ & Hb)]); [|done|];
    cbn [only_below_loaded_leaf]; wp_step; (eapply wp_node_at; [exact El|]); unfold is_inner; rewrite Eb; cbn [negb].
  { wp_step. split; [done|]. exists (cowid nd), t, item. split; [|done]. rewrite El. destruct nd. cbn in *. congruence. }
  change (kids (cowid nd =? 0) (node_hash n') (fun b => rep n' (cells w) P c (cowid nd =? 0) (p ++ [b])) (length p) m ch) in Hb.
  rewrite (only_child_eq _ _ Eb (kids_loaded _ _ _ _ _ _ Hb)).
  destruct (present ch) as [|b [|b' bs]] eqn:Ep; [by wp_step| |by wp_step].
  destruct (kids_one _ _ _ _ _ _ Hb b Ep) as (cd & x & Ec & Ex & Hx). rewrite Ec. cbn [mbind option_bind]. rewrite Ex.
  eapply (IH n'); [|lia|exact Hx]. by destruct p.
Qed.

(** ** The way up *)

(** What the node that takes the place of [m] holds once the key is gone. *)
Definition remains (w : World) (P : places) (c k : Z) (d : nat) (m : contents) (prev : option nat) : Prop :=
  match prev with
  | None => delete k m = ∅
  | Some l => rep (64 - d) (cells w) P c false (trail d k) l (delete k m)
  end.

Lemma trail_S_nil d k : trail (S d) k <> [].
Proof. cbn [trail]. by destruct (trail d k). Qed.

(** The children of the relinked node. *)
Lemma kids_relink w w' P P' c k d m ch prev :
  evolve (eq (trail d k)) (cells w) P (cells w') P' ->
  siblings (cells w') P' c k d false ch m ->
  remains w P c k (S d) (sub d (nibble (Z.of_nat d) k) m) prev ->
  kids false (node_hash (63 - d)) (fun b => rep (63 - d) (cells w') P' c false (trail d k ++ [b])) d
    (delete k m) (relink (nibble (Z.of_nat d) k) prev ch).
Proof.
  intros Hev Hsib Hrem b. rewrite <- put_None, sub_put. destruct (decide (b = nibble (Z.of_nat d) k)) as [->|Hb].
  - rewrite lookup_relink, put_None. destruct prev as [l|]; cbn [mbind option_bind child_ok]; [|exact Hrem].
    pose proof Hrem as Hne. cbn [remains] in Hne. apply rep_nonempty in Hne; [|apply trail_S_nil].
    split; [exact Hne|]. split; [done|]. exists l. split; [done|]. by eapply child_survives.
  - rewrite lookup_relink_ne by done. by apply Hsib.
Qed.

Lemma rep_of_kids w P c k d m l hs ch :
  cells w !! l = Some (mkNode c hs (Inner ch)) -> P !! l = Some (trail d k) -> 0 < c -> (d < 64)%nat ->
  d = O \/ two_items m ->
  kids false (node_hash (63 - d)) (fun b => rep (63 - d) (cells w) P c false (trail d k ++ [b])) d m ch ->
  rep (64 - d) (cells w) P c false (trail d k) l m.
Proof.
  intros El HP Hc Hd Hsz Hk. replace (64 - d)%nat with (S (63 - d)) by lia.
  eapply rep_inner_intro; [exact El|done|done| |by rewrite length_trail].
  destruct Hsz as [->|?]; [by left|by right].
Qed.

Lemma wp_only_below_one w P c p d m l hs ch b :
  cells w !! l = Some (mkNode c hs (Inner ch)) ->
  kids false (node_hash (63 - d)) (fun b => rep (63 - d) (cells w) P c false (p ++ [b])) d m ch ->
  present ch = [b] -> wp False (only_below_loaded_leaf 65 l) (sole w m) w.
Proof.
  intros El Hkids Ep. destruct (kids_one _ _ _ _ _ _ Hkids b Ep) as (cd & x & Ec & Ex & Hx).
  assert (p ++ [b] <> []) as Hp by (by destruct p).
  pose proof (wp_only_below 64 (63 - d) w P c false (p ++ [b]) x m Hp ltac:(lia) Hx) as Hnext.
  change 65%nat with (S 64). revert Hnext. generalize 64%nat. intros fuel Hnext. cbn [only_below_loaded_leaf].
  wp_step. eapply wp_node_at; [exact El|]. cbn [is_inner node_body negb].
  rewrite (only_child_eq (mkNode c hs (Inner ch)) ch eq_refl (kids_loaded _ _ _ _ _ _ Hkids)), Ep, Ec.
  cbn [mbind option_bind]. rewrite Ex. exact Hnext.
Qed.

(** A node left with a single item gives way to a leaf. *)
Lemma wp_collapse {A} (Q : A -> World -> Prop) (K : nat -> action A) w P c k d m node ch b leaf t item c0 :
  holds w P c -> d <> O -> cells w !! node = Some (mkNode c 0 (Inner ch)) -> P !! node = Some (trail d k) ->
  kids false (node_hash (63 - d)) (fun b => rep (63 - d) (cells w) P c false (trail d k ++ [b])) d m ch ->
  present ch = [b] -> cells w !! leaf = Some (mkNode c0 (compute_leaf_hash sha512_half t item) (Leaf t item)) ->
  m = {[item_key item := (t, item)]} ->
  (forall x w' P', evolve (eq (trail d k)) (cells w) P (cells w') P' -> holds w' P' c ->
     rep (64 - d) (cells w') P' c false (trail d k) x m -> wp False (K x) Q w') ->
  wp False (sole_branch ← lift (expect (select_only_branch (mkNode c 0 (Inner ch))));
            ln ← node_at leaf;
            sole_item ← lift (expect (peek_item ln));
            _ ← set_child node sole_branch None;
            s ← gets self;
            fresh_leaf ← new_leaf sha512_half (get_type ln) sole_item (tree_cowid s);
            K fresh_leaf) Q w.
Proof.
  intros Hw Hd El HP Hk Ep Eleaf Em HQ. pose proof (holds_pos _ _ _ Hw) as Hc.
  assert (is_key (item_key item) /\ trail (S d) (item_key item) = trail d k ++ [b] /\ leaf_ok t item) as (Hkey & Ht & Hok).
  { destruct (kids_one _ _ _ _ _ _ Hk b Ep) as (cd & x & _ & _ & Hx).
    destruct (rep_keys _ _ _ _ _ _ _ _ _ (item_key item) (t, item) Hx) as (? & Ht & _ & ?); [rewrite Em; by rewrite lookup_singleton_eq|].
    rewrite length_app, length_trail, Nat.add_1_r in Ht. done. }
  wp_step. rewrite (select_only_branch_eq _ ch) by done. rewrite Ep. eapply wp_lift; [done|].
  wp_step. eapply wp_node_at; [exact Eleaf|]. wp_step. eapply wp_lift; [done|].
  wp_step. eapply wp_set_child; [exact El|done| |].
  { eapply (kids_range _ _ _ _ _ _ Hk). apply present_elem; [apply (kids_range _ _ _ _ _ _ Hk)|]. rewrite Ep. by left. }
  set (h1 := <[node := _]> _). wp_step. wp_step. cbn [self set_cells]. rewrite (holds_cowid _ _ _ Hw).
  assert (evolve (eq (trail d k)) (cells w) P h1 P) as Hev1 by (eapply evolve_store; [exact El|cbn; lia|exact HP|done]).
  wp_step. apply wp_new_leaf; [done|]. cbn [cells set_cells self get_type node_body]. intros x Hx.
  assert (evolve (eq (trail d k)) h1 P (<[x := mkNode c (compute_leaf_hash sha512_half t item) (Leaf t item)]> h1) (<[x := trail d k]> P)) as Hev2
    by (apply evolve_alloc; [exact Hx|eapply evolve_ok; [exact Hev1|apply Hw]]).
  assert (evolve (eq (trail d k)) (cells w) P (<[x := mkNode c (compute_leaf_hash sha512_half t item) (Leaf t item)]> h1) (<[x := trail d k]> P)) as Hev
    by (by eapply evolve_trans).
  eapply (HQ x _ (<[x := trail d k]> P)); [exact Hev|eapply holds_evolve; [exact Hw|exact Hev|apply Hw]|].
  rewrite Em. apply rep_leaf_intro; [cbn; by rewrite lookup_insert_eq|by rewrite lookup_insert_eq| |done|].
  - destruct d; [done|apply trail_S_nil].
  - rewrite length_trail. by apply trail_app_inv in Ht as [? _].
Qed.

Lemma wp_delete_loop (Q : unit -> World -> Prop) es c k M P d m prev w :
  holds w P c -> is_key k -> (d < 64)%nat -> spine two_items (cells w) P c k M es (S d) m ->
  remains w P c k (S d) m prev ->
  (forall w' P', evolve (on_trail k 0) (cells w) P (cells w') P' -> tree_rep w' P' c (delete k M) -> Q tt w') ->
  wp False (delete_loop sha512_half es k prev) Q w.
Proof.
  intros Hw Hk. revert P d m prev w Hw. induction es as [|e es IH]; intros P d m prev w Hw Hd Hsp Hrem HQ; [done|].
  pose proof (holds_pos _ _ _ Hw) as Hc. cbn [delete_loop].
  assert (is_root (entry_id e) = (d =? 0)%nat) as Eroot.
  { destruct Hsp as [-> _]. unfold is_root. cbn [position ndepth]. by destruct d. }
  eapply wp_relink; [exact Hw|exact Hk|exact Hd|exact Hsp|].
  intros l' w1 P1 ch m' Hev Hw1 _ El' HP' -> Hsz Hsib Hsp'. rewrite Eroot.
  pose proof (kids_relink _ _ _ _ _ _ _ _ _ _ Hev Hsib Hrem) as Hkids.
  set (ch' := relink _ _ _) in *.
  assert (evolve (on_trail k 0) (cells w) P (cells w1) P1) as Hev0.
  { eapply evolve_mono; [|exact Hev]. intros q <-. exists d. split; [lia|done]. }
  destruct d as [|d].
  { cbn [Nat.eqb]. destruct es; [|done]. cbn [ShaMapSteps.spine] in Hsp'. subst m'.
    cbn [delete_loop]. wp_steps. eapply (HQ _ P1); [exact Hev0|]. constructor; [destruct Hw1; by constructor|].
    cbn [root self set_root cells]. change 64%nat with (64 - 0)%nat. change [] with (trail 0 k).
    eapply rep_of_kids; [exact El'|exact HP'|done|lia|by left|exact Hkids]. }
  cbn [Nat.eqb]. destruct Hsz as [?|Hsz]; [done|].
  assert (forall prev2 w2 P2, evolve (eq (trail (S d) k)) (cells w1) P1 (cells w2) P2 -> holds w2 P2 c ->
            remains w2 P2 c k (S d) m' prev2 -> wp False (delete_loop sha512_half es k prev2) Q w2) as Hnext.
  { intros prev2 w2 P2 Hev2 Hw2 Hrem2. eapply (IH P2 d m'); [exact Hw2|lia| |exact Hrem2|].
    - eapply spine_evolve; [exact (le_n _)| |exact Hsp']. eapply evolve_mono; [|exact Hev2]. intros q <-. by exists (S d).
    - intros w3 P3 Hev3 Ht. apply (HQ _ P3); [|done]. eapply evolve_trans; [exact Hev0|].
      eapply evolve_trans; [|exact Hev3]. eapply evolve_mono; [|exact Hev2]. intros q <-. exists (S d). split; [lia|done]. }
  wp_step. eapply wp_node_at; [exact El'|]. unfold branch_count, children_of. cbn [node_body].
  rewrite <- (present_length ch') by apply (kids_range _ _ _ _ _ _ Hkids).
  destruct (present ch') as [|b [|b' bs]] eqn:Ep.
  - exfalso. pose proof (kids_none _ _ _ _ _ _ Hkids Ep) as Hm. unfold two_items in Hsz.
    pose proof (map_size_delete k m') as Hs. rewrite Hm, map_size_empty in Hs. destruct (m' !! k); cbn in Hs; lia.
  - cbn [length]. change (Z.of_nat 1 =? 0) with false. change (Z.of_nat 1 =? 1) with true. cbv iota.
    wp_step. eapply wp_mono; [by eapply wp_only_below_one|].
    intros [leaf|] w1' [-> Hs]; cbv beta iota.
    + destruct Hs as (c0 & t & item & Eleaf & Em).
      eapply wp_collapse; [exact Hw1| |exact El'|exact HP'|exact Hkids|exact Ep|exact Eleaf|exact Em|]; [done|].
      intros y w2 P2 Hev2 Hw2 Hr2. by eapply Hnext.
    + apply (Hnext (Some l') w1 P1); [apply evolve_refl|done|].
      eapply (rep_of_kids _ _ _ _ (S d)); [exact El'|exact HP'|done|lia|by right|exact Hkids].
  - cbn [length]. rewrite (proj2 (Z.eqb_neq _ 0)), (proj2 (Z.eqb_neq _ 1)) by lia.
    apply (Hnext (Some l') w1 P1); [apply evolve_refl|done|].
    eapply (rep_of_kids _ _ _ _ (S d)); [exact El'|exact HP'|done|lia|right|exact Hkids]. by eapply kids_many.
Qed.

(** ** Deletion *)

Definition deleted (w : World) (P : places) (c : Z) (M : contents) (k : Z) (r : bool + MutationError) (w' : World) : Prop :=
  match M !! k with
  | Some _ => moves P c (delete k M) (eq (inl true)) w r w'
  | None => r = inl false /\ w' = w
  end.

Lemma wp_delete_item w P c M k :
  tree_rep w P c M -> is_key k -> wp False (delete_item sha512_half k) (deleted w P c M k) w.
Proof.
  intros Hw Hk. unfold delete_item. apply wp_and_then. eapply wp_walk_root; [exact Hw|exact Hk|].
  intros term path d es l m sh nd Ep Hd Hsp Hr El Hst. cbn [fst snd]. unfold deleted.
  pose proof (spine_lookup _ _ _ _ _ _ _ _ _ _ Hsp) as Hlk. destruct (path_end _ _ _ Ep) as [_ Epar].
  destruct (stops_cases _ _ _ _ _ Hst) as [-> | ->].
  2:{ destruct (stops_inner _ _ _ _ _ _ _ _ _ _ _ Hr El Hst) as (_ & _ & _ & _ & _ & _ & _ & Hm & _).
      wp_step. by rewrite Hlk, Hm. }
  destruct (stops_leaf _ _ _ _ _ _ _ _ _ _ _ Hr El Hst) as (t & item & End & _ & -> & _ & _ & Hd0).
  wp_step. eapply wp_node_at; [exact El|]. rewrite End. cbn [peek_item node_body].
  destruct (Z.eqb_spec (item_key item) k) as [Ek|Hne]; cbn [negb].
  2:{ wp_step. by rewrite Hlk, lookup_singleton_ne. }
  rewrite Hlk, Ek, lookup_singleton_eq. rewrite Epar. destruct d as [|d]; [done|].
  wp_step. eapply wp_delete_loop; [apply Hw|exact Hk| |exact Hsp| |]; [lia| |].
  - cbn [remains]. rewrite Ek. apply delete_singleton_eq.
  - intros w' P' Hev Ht. wp_step. split; [done|]. exists P'. split; [|done]. by eapply evolve_mono; [|exact Hev].
Qed.

End Delete.
