(* ===== verification/ShaMapFlush.v ===== *)
(** * Snapshots and flushing

    [mutable_snapshot] shares the nodes of a tree. [unshare] walks a tree with an explicit stack and gives up every node the tree
    owns, leaf first, with its hash filled in. The loop ends, keeps the contents and
    leaves the root with the hash of the contents. *)

From S2P Require Import Prelude Stateful Serializer ShaMapNodeId ShaMap ShaMapRep ShaMapSteps ShaMapOps ShaMapDelete.

(** ** Snapshots, flushing and hashes

    [mutable_snapshot] and [unshare] turn a tree's own nodes into shared ones with
    their hashes filled in; the hashes depend on the contents alone. *)

Section Share.
Context (sha512_half : list Z -> Z).
Local Notation rep := (rep sha512_half).
Local Notation node_hash := (node_hash sha512_half).
Local Notation inner_hash := (inner_hash sha512_half).
Local Notation hash_at := (hash_at sha512_half).
Local Notation tree_rep := (tree_rep sha512_half).

(** ** Hashes *)

Lemma node_hash_leaf n k t item :
  node_hash n {[k := (t, item)]} = compute_leaf_hash sha512_half t item.
Proof.
  assert (leaf_hash sha512_half {[k := (t, item)]} = compute_leaf_hash sha512_half t item) as E
    by (unfold leaf_hash; by rewrite map_to_list_singleton).
  destruct n as [|n]; [exact E|]. cbn [ShaMapRep.node_hash]. by rewrite map_size_singleton.
Qed.

Lemma hash_at_inner n p m :
  p = [] \/ two_items m -> (length p + S n = 64)%nat -> hash_at (S n) p m = inner_hash (node_hash n) (length p) m.
Proof.
  intros Hsz Hn. destruct p as [|b p]; cbn [ShaMapRep.hash_at].
  - cbn [length] in *. assert (n = 63%nat) as -> by lia. done.
  - destruct Hsz as [?|Hsz]; [done|]. cbn [ShaMapRep.node_hash]. unfold two_items in Hsz.
    rewrite (proj2 (Nat.eqb_neq _ 1)) by lia. f_equal. lia.
Qed.

(** A shared node below the root carries the hash of its contents. *)
Lemma rep_hash n h P c p l m nd :
  rep n h P c true p l m -> p <> [] -> h !! l = Some nd -> hash nd = node_hash n m.
Proof.
  intros Hr Hp El. destruct (rep_inv _ _ _ _ _ _ _ _ _ Hr) as (nd' & El' & [H0|(? & _)] & Hb); [|done].
  rewrite El in El'. injection El' as <-.
  destruct Hb as [(t & item & _ & _ & _ & _ & -> & ->)|(n' & ch & -> & _ & _ & Hh & _)].
  - by rewrite node_hash_leaf.
  - rewrite Hh by done. by destruct p.
Qed.

(** Children that carry the hashes of their contents. *)
Lemma compute_inner_hash_eq H R d m ch :
  kids true H R d m ch -> compute_inner_hash sha512_half ch = inner_hash H d m.
Proof.
  intros Hk. unfold compute_inner_hash, ShaMapRep.inner_hash.
  assert (ch = ∅ <-> m = ∅) as E.
  { split.
    - intros ->. by eapply kids_none.
    - intros ->. apply map_empty. intros b. specialize (Hk b). destruct (ch !! b); [|done].
      destruct Hk as [Hne _]. by rewrite sub_empty in Hne. }
  rewrite (bool_decide_ext _ _ E). case_bool_decide; [done|]. do 2 f_equal. f_equal.
  apply list_fmap_ext. intros i b _. f_equal. specialize (Hk b). destruct (ch !! b) as [cd|]; cbn [child_ok] in Hk.
  - destruct Hk as (Hne & -> & _); [|done]. by rewrite bool_decide_eq_false_2.
  - by rewrite bool_decide_eq_true_2.
Qed.

(** ** Shared nodes *)

(** A node with [cowid] zero is shared whatever its parent is. *)
Lemma rep_zero n h P P' c c' sh sh' p l m nd :
  rep n h P c sh p l m -> h !! l = Some nd -> cowid nd = 0 -> rep n h P' c' sh' p l m.
Proof.
  intros Hr El H0. destruct n as [|n]; destruct Hr as (nd' & El' & _ & Hb);
    rewrite El in El'; injection El' as <-; exists nd; (split; [done|]); (split; [by left|]);
    destruct (node_body nd) as [ch|t item]; try done.
  destruct Hb as (Hs & Hh & Hb). split; [done|]. split; [done|]. intros b. rewrite H0 in *.
  eapply child_ok_mono; [apply Hb|done|]. intros x. apply rep_shared.
Qed.

Lemma rep_mono n h h' P c sh p l m : h ⊆ h' -> rep n h P c sh p l m -> rep n h' P c sh p l m.
Proof. intros Hh. apply rep_keep; [|done]. intros x nd Hx _. by eapply lookup_weaken. Qed.

(** A change of a node that is not shared. *)
Lemma rep_shared_store n h P c p l m x nd nd' :
  h !! x = Some nd -> cowid nd <> 0 -> rep n h P c true p l m -> rep n (<[x := nd']> h) P c true p l m.
Proof.
  intros Hx H0. apply rep_keep; [|done]. intros y yd Hy [Hy0|(? & _)]; [|done].
  rewrite lookup_insert_ne; [done|]. congruence.
Qed.

Definition shared_kids (h : heap) (P : places) (c : Z) (n : nat) (p : list Z) (m : contents) (ch : gmap Z Child) : Prop :=
  kids false (node_hash n) (fun b => rep n h P c true (p ++ [b])) (length p) m ch.

(** Filling in the hash of an inner node and giving it up. *)
Lemma wp_close (Q : unit -> World -> Prop) w P c0 c n p l m hs ch :
  cells w !! l = Some (mkNode c hs (Inner ch)) -> c <> 0 -> (length p + S n = 64)%nat -> p = [] \/ two_items m ->
  shared_kids (cells w) P c0 n p m ch ->
  (forall nd, cowid nd = 0 -> rep (S n) (<[l := nd]> (cells w)) P c0 true p l m ->
     Q tt (set_cells (<[l := nd]> (cells w)) w)) ->
  wp False (_ ← update_hash_deep sha512_half l; unshare_cell l) Q w.
Proof.
  intros El Hc Hn Hsz Hk HQ. wp_step. unfold update_hash_deep. wp_step. eapply wp_node_at; [exact El|].
  wp_steps. cbn [node_body cowid]. set (ch' := _ <$> ch). apply wp_store. unfold unshare_cell. wp_step.
  eapply wp_node_at; [cbn; by rewrite lookup_insert_eq|]. apply wp_store. cbn [cells set_cells self set_cowid hash node_body].
  rewrite insert_insert_eq. unfold set_cells at 2. cbn [self]. set (nd := mkNode 0 (compute_inner_hash sha512_half ch') (Inner ch')).
  apply (HQ nd); [done|]. assert (kids true (node_hash n) (fun b => rep n (<[l := nd]> (cells w)) P c0 true (p ++ [b])) (length p) m ch') as Hk'.
  { intros b. specialize (Hk b). unfold ch'. rewrite lookup_fmap. destruct (ch !! b) as [cd|]; cbn; [|done].
    destruct Hk as (Hne & _ & x & Ex & Hr). rewrite Ex. cbn [ch_hash ch_node]. split; [done|].
    assert (exists xd, cells w !! x = Some xd) as [xd Exd] by (destruct n; destruct Hr as (xd & ? & _); eauto).
    split; [intros _; rewrite Exd; eapply rep_hash; [exact Hr|by destruct p|exact Exd]|].
    exists x. split; [done|]. by eapply rep_shared_store; [exact El| |]. }
  exists nd. split; [by rewrite lookup_insert_eq|]. split; [by left|]. cbn [nd node_body cowid].
  split; [done|]. split; [|exact Hk']. intros _. cbn [hash]. rewrite hash_at_inner by done.
  by eapply compute_inner_hash_eq.
Qed.

(** A leaf is given up as it is. *)
Lemma wp_close_leaf (Q : unit -> World -> Prop) w c l t item :
  cells w !! l = Some (mkNode c (compute_leaf_hash sha512_half t item) (Leaf t item)) ->
  Q tt (set_cells (<[l := mkNode 0 (compute_leaf_hash sha512_half t item) (Leaf t item)]> (cells w)) w) ->
  wp False (_ ← update_hash sha512_half l; unshare_cell l) Q w.
Proof.
  intros El HQ. wp_step. unfold update_hash. wp_step. eapply wp_node_at; [exact El|]. apply wp_store.
  unfold unshare_cell. wp_step. eapply wp_node_at; [cbn; by rewrite lookup_insert_eq|]. apply wp_store.
  cbn [cells set_cells self set_cowid hash node_body set_hash]. by rewrite insert_insert_eq.
Qed.

(** ** Snapshots *)

(** Nothing that was there changes; the copy is shared. *)
Definition copied (n : nat) (p : list Z) (m : contents) (w : World) (l : nat) (w' : World) : Prop :=
  cells w ⊆ cells w' /\ self w' = self w /\ forall P c sh, rep n (cells w') P c sh p l m.

Lemma wp_assoc_left {A B C} (m : action A) (f : A -> action B) (g : B -> action C) Q w :
  wp False ((m ≫= f) ≫= g) Q w -> wp False (m ≫= fun a => f a ≫= g) Q w.
Proof. unfold wp, mbind, handler_bind. by destruct (m w) as [[a w']| |]. Qed.

Lemma wp_assoc_right {A B C} (m : action A) (f : A -> action B) (g : B -> action C) Q w :
  wp False (m ≫= fun a => f a ≫= g) Q w -> wp False ((m ≫= f) ≫= g) Q w.
Proof. unfold wp, mbind, handler_bind. by destruct (m w) as [[a w']| |]. Qed.

(** The loop over the children of the copy. *)
Lemma wp_clone_children fuel w0 P c sh n p m nd ch x c' w :
  node_body nd = Inner ch -> 0 < c' -> cells w0 !! x = None ->
  (forall w b l m', rep n (cells w) P c sh (p ++ [b]) l m' ->
     wp False (clone_shareable sha512_half fuel l c') (copied n (p ++ [b]) m' w) w) ->
  kids false (node_hash n) (fun b => rep n (cells w0) P c sh (p ++ [b])) (length p) m ch ->
  cells w = <[x := mkNode c' (hash nd) (Inner ch)]> (cells w0) -> self w = self w0 ->
  wp False (for_each branches (fun b =>
      if is_empty_branch nd b then mret tt
      else match get_child nd b with
           | None => mret tt
           | Some child => cloned_child ← clone_shareable sha512_half fuel child c'; set_child x b (Some cloned_child)
           end))
    (fun _ w' => cells w0 ⊆ cells w' /\ self w' = self w0 /\ exists hs ch',
       cells w' !! x = Some (mkNode c' hs (Inner ch')) /\ shared_kids (cells w') P c n p m ch') w.
Proof.
  intros Eb Hc Hx Hclone Hk Ew Es.
  set (I := fun (bs : list Z) (w' : World) => cells w0 ⊆ cells w' /\ self w' = self w0 /\ exists hs ch',
    cells w' !! x = Some (mkNode c' hs (Inner ch')) /\
    (forall b, if decide (b ∈ bs) then child_ok false (node_hash n) (rep n (cells w') P c true (p ++ [b])) (sub (length p) b m) (ch' !! b)
               else ch' !! b = ch !! b)).
  eapply wp_mono; [apply (wp_for_each_prefix _ _ _ I)|].
  - split; [rewrite Ew; by apply insert_subseteq|]. split; [done|]. exists (hash nd), ch. rewrite Ew, lookup_insert_eq.
    split; [done|]. intros b. rewrite decide_False; [done|]. by apply not_elem_of_nil.
  - intros bs b rest w1 Ebs (Hsub & Es1 & hs & ch1 & Ex & Hch1).
    assert (b ∉ bs) as Hnb.
    { pose proof (NoDup_seqZ 0 BRANCH_FACTOR) as Hnd. fold branches in Hnd. rewrite Ebs in Hnd.
      apply NoDup_app in Hnd as (_ & Hd & _). intros Hin. apply (Hd b Hin). by left. }
    pose proof (Hch1 b) as Eb1. rewrite decide_False in Eb1 by done.
    rewrite (empty_branch_inner _ _ _ Eb), (get_child_inner _ _ _ Eb). pose proof (Hk b) as Hkb.
    destruct (ch !! b) as [cd|] eqn:Ecb.
    + rewrite bool_decide_eq_false_2 by done. destruct Hkb as (Hne & _ & l & El & Hr). cbn [mbind option_bind]. rewrite El.
      wp_step. eapply wp_mono; [apply Hclone; eapply rep_mono; [exact Hsub|exact Hr]|].
      intros l2 w2 (Hsub2 & Es2 & Hr2). eapply wp_set_child; [by eapply lookup_weaken|done|by eapply sub_range|].
      assert (cells w2 !! x = Some (mkNode c' hs (Inner ch1))) as Ex2 by (by eapply lookup_weaken).
      split_and!; [apply insert_subseteq_r; [done|by etransitivity]|cbn; congruence|].
      exists 0, (<[b := mkChild 0 (Some l2)]> ch1). cbn [cells set_cells]. rewrite lookup_insert_eq. split; [done|].
      intros b'. destruct (decide (b' = b)) as [->|Hb'].
      * rewrite decide_True by set_solver. rewrite lookup_insert_eq. split; [done|]. split; [done|]. exists l2. split; [done|].
        eapply rep_shared_store; [exact Ex2|cbn; lia|]. apply Hr2.
      * rewrite lookup_insert_ne by done. specialize (Hch1 b'). destruct (decide (b' ∈ bs)).
        -- rewrite decide_True by set_solver. eapply child_ok_mono; [exact Hch1|done|]. intros y Hy.
           eapply rep_shared_store; [exact Ex2|cbn; lia|]. by eapply rep_mono.
        -- rewrite decide_False by set_solver. done.
    + rewrite bool_decide_eq_true_2 by done. wp_step. split; [done|]. split; [done|]. exists hs, ch1. split; [done|].
      intros b'. specialize (Hch1 b'). destruct (decide (b' = b)) as [->|Hb'].
      * rewrite decide_True by set_solver. rewrite Eb1. exact Hkb.
      * destruct (decide (b' ∈ bs)); [rewrite decide_True by set_solver|rewrite decide_False by set_solver]; done.
  - intros _ w' (Hsub & Es' & hs & ch' & Ex & Hch). split; [done|]. split; [done|]. exists hs, ch'. split; [done|].
    intros b. specialize (Hch b). destruct (decide (b ∈ branches)) as [Hin|Hin]; [done|]. rewrite Hch.
    destruct (ch !! b) as [cd|] eqn:E; [|specialize (Hk b); by rewrite E in Hk].
    exfalso. apply Hin, branches_elem. eapply (kids_range _ _ _ _ _ _ Hk). eauto.
Qed.

Lemma wp_clone_shareable fuel n w P c sh p l m c' :
  (n < fuel)%nat -> (length p + n = 64)%nat -> 0 < c' -> rep n (cells w) P c sh p l m ->
  wp False (clone_shareable sha512_half fuel l c') (copied n p m w) w.
Proof.
  intros Hf Hn Hc. revert n w sh p l m Hf Hn. induction fuel as [|fuel IH]; intros n w sh p l m Hf Hn Hr; [lia|].
  destruct (rep_inv _ _ _ _ _ _ _ _ _ Hr) as (nd & El & Hown & Hb).
  cbn [clone_shareable]. wp_step. eapply wp_node_at; [exact El|].
  destruct (Z.eqb_spec (cowid nd) 0) as [H0|H0].
  { wp_step. split; [done|]. split; [done|]. intros P' c0 sh'. by eapply rep_zero. }
  wp_step. eapply wp_clone; [exact El| |].
  { intros t item E. destruct Hb as [(? & ? & E' & _ & ? & _)|(? & ? & _ & E' & _)]; congruence. }
  intros x Hx. apply wp_assoc_left. wp_step.
  destruct Hb as [(t & item & Eb & Hp & Hok & Ht & -> & Eh)|(n' & ch & -> & Eb & Hsz & _ & Hk)];
    unfold is_inner at 1; rewrite Eb.
  - eapply wp_close_leaf; [cbn; rewrite lookup_insert_eq; unfold set_cowid; by rewrite Eb, Eh|].
    wp_step. cbn [cells set_cells self]. rewrite insert_insert_eq. split; [by apply insert_subseteq|]. split; [done|].
    intros P' c0 sh'. cbn [cells set_cells].
    destruct n; (eexists; split; [by rewrite lookup_insert_eq|]; split; [by left|]; by cbn).
  - apply wp_assoc_right. wp_step. eapply wp_mono; [eapply (wp_clone_children _ w P c false); try done|].
    + intros w1 b l1 m1 Hr1. eapply (IH n' w1 false (p ++ [b])); [lia| |exact Hr1]. rewrite length_app. cbn [length]. lia.
    + exact Hk.
    + cbn [cells set_cells]. unfold set_cowid. by rewrite Eb.
    + intros _ w1 (Hsub & Es & hs & ch' & Ex & Hk').
      eapply wp_close; [exact Ex|lia|exact Hn|exact Hsz|exact Hk'|].
      intros xd Hx0 Hr'. wp_step. split; [by apply insert_subseteq_r|]. split; [done|].
      intros P' c0 sh'. eapply rep_shared. exact Hr'.
Qed.

End Share.

Section Flush.
Context (sha512_half : list Z -> Z).
Local Notation rep := (rep sha512_half).
Local Notation node_hash := (node_hash sha512_half).
Local Notation tree_rep := (tree_rep sha512_half).
Local Notation shared_kids := (shared_kids sha512_half).

(** ** One node at a time *)

(** What the loop does once a node is closed. *)
Definition finish (fuel : nat) (c : Z) (node : nat) (stack : list (nat * Z)) (flushed : Z) : action (nat * Z) :=
  match stack with
  | [] => mret (node, flushed)
  | (parent, branch) :: stack =>
      _ ← share_child parent branch node;
      flush_loop sha512_half fuel c parent (branch + 1) stack flushed
  end.

(** From branch [pos] of a node the loop gets to the node's end; by then the node is
    shared with all below it, and nothing outside its place has changed. *)
Definition flushes (n : nat) (w : World) (P : places) (c : Z) (p : list Z) (l : nat) (m : contents) (pos : Z) : Prop :=
  exists (turns : nat) cnt w',
    evolve (fun q => p `prefix_of` q) (cells w) P (cells w') P /\ self w' = self w
    /\ rep n (cells w') P c true p l m
    /\ forall (Q : nat * Z -> World -> Prop) fuel stack flushed,
         wp False (finish fuel c l stack (flushed + cnt)) Q w' ->
         wp False (flush_loop sha512_half (turns + fuel) c l pos stack flushed) Q w.

(** The children, those before [pos] shared. *)
Definition kids_to (pos : Z) (h : heap) (P : places) (c : Z) (n : nat) (p : list Z) (m : contents) (ch : gmap Z Child) : Prop :=
  kids false (node_hash n) (fun b => rep n h P c (b <? pos) (p ++ [b])) (length p) m ch.

Lemma place_not_below (p q : list Z) b : (p ++ [b]) `prefix_of` q -> q <> p.
Proof. intros H ->. apply prefix_length in H. rewrite length_app in H. simpl in H. lia. Qed.

Lemma place_branch (p q : list Z) b b' : (p ++ [b]) `prefix_of` q -> (p ++ [b']) `prefix_of` q -> b = b'.
Proof.
  intros [x ->] [y E]. rewrite <- !app_assoc in E. apply app_inv_head in E. by injection E.
Qed.

(** A step below branch [pos] that leaves its child shared. *)
Lemma kids_advance pos w w' P c n p m ch :
  kids_to pos (cells w) P c n p m ch ->
  evolve (fun q => (p ++ [pos]) `prefix_of` q) (cells w) P (cells w') P ->
  (forall cd l, ch !! pos = Some cd -> ch_node cd = Some l ->
     rep n (cells w') P c true (p ++ [pos]) l (sub (length p) pos m)) ->
  kids_to (pos + 1) (cells w') P c n p m ch.
Proof.
  intros Hk Hev Hpos b. specialize (Hk b). cbn beta in Hk. destruct (decide (b = pos)) as [->|Hb].
  - destruct (ch !! pos) as [cd|] eqn:E; [|done]. destruct Hk as (Hne & Hh & l & El & _). split; [done|]. split; [done|].
    exists l. split; [done|]. rewrite (proj2 (Z.ltb_lt pos (pos + 1))) by lia. by eapply Hpos.
  - replace (b <? pos + 1) with (b <? pos) by (destruct (Z.ltb_spec b pos), (Z.ltb_spec b (pos + 1)); lia).
    eapply child_ok_mono; [exact Hk|done|]. intros l. eapply rep_evolve; [exact Hev|].
    intros _ q Hq Hq'. apply Hb. by eapply place_branch.
Qed.

Lemma wp_share_child_id (Q : unit -> World -> Prop) w l b c hs ch cd x :
  cells w !! l = Some (mkNode c hs (Inner ch)) -> c <> 0 -> ch !! b = Some cd -> ch_node cd = Some x ->
  Q tt w -> wp False (share_child l b x) Q w.
Proof.
  intros El Hc Eb Ex HQ. unfold share_child. wp_step. eapply wp_node_at; [exact El|]. cbn [node_body cowid hash].
  wp_step. apply wp_debug_assert; [by apply negb_true_iff, Z.eqb_neq|].
  wp_step. eapply wp_lift; [by rewrite Eb|]. apply wp_store.
  assert (mkChild (ch_hash cd) (Some x) = cd) as -> by (destruct cd; cbn in *; congruence).
  rewrite (insert_id ch) by done. rewrite insert_id by done. by destruct w.
Qed.

(** A child that is already shared, or absent, is passed over. *)
Lemma flush_skip w c l pos hs ch stack flushed fuel (Q : nat * Z -> World -> Prop) :
  cells w !! l = Some (mkNode c hs (Inner ch)) -> pos < 16 ->
  (forall cd, ch !! pos = Some cd -> exists x xd, ch_node cd = Some x /\ cells w !! x = Some xd /\ cowid xd = 0) ->
  wp False (flush_loop sha512_half fuel c l (pos + 1) stack flushed) Q w ->
  wp False (flush_loop sha512_half (S fuel) c l pos stack flushed) Q w.
Proof.
  intros El Hpos Hch HQ. cbn [flush_loop]. unfold BRANCH_FACTOR. rewrite (proj2 (Z.ltb_lt pos 16)) by lia.
  wp_step. eapply wp_node_at; [exact El|]. rewrite (empty_branch_inner _ ch), (get_child_inner _ ch) by done.
  destruct (ch !! pos) as [cd|] eqn:E; [|by rewrite bool_decide_eq_true_2].
  rewrite bool_decide_eq_false_2 by done. destruct (Hch _ eq_refl) as (x & xd & Ex & Exd & H0).
  cbn [mbind option_bind]. rewrite Ex. wp_step. eapply wp_node_at; [exact Exd|]. by rewrite H0.
Qed.

(** The tree's own child at [pos], a leaf or an inner node. *)
Lemma flush_child w c l pos hs ch cd x xd stack flushed fuel (Q : nat * Z -> World -> Prop) :
  cells w !! l = Some (mkNode c hs (Inner ch)) -> c <> 0 -> pos < 16 -> ch !! pos = Some cd -> ch_node cd = Some x ->
  cells w !! x = Some xd -> cowid xd = c ->
  wp False (if is_inner xd then flush_loop sha512_half fuel c x 0 ((l, pos) :: stack) flushed
            else (_ ← update_hash sha512_half x; _ ← unshare_cell x; _ ← share_child l pos x;
                  flush_loop sha512_half fuel c l (pos + 1) stack (flushed + 1))) Q w ->
  wp False (flush_loop sha512_half (S fuel) c l pos stack flushed) Q w.
Proof.
  intros El Hc Hpos E Ex Exd Hxc HQ. cbn [flush_loop]. unfold BRANCH_FACTOR. rewrite (proj2 (Z.ltb_lt pos 16)) by lia.
  wp_step. eapply wp_node_at; [exact El|]. rewrite (empty_branch_inner _ ch), (get_child_inner _ ch) by done.
  rewrite E, bool_decide_eq_false_2 by done. cbn [mbind option_bind]. rewrite Ex.
  wp_step. eapply wp_node_at; [exact Exd|]. rewrite Hxc, (proj2 (Z.eqb_neq c 0)) by done.
  wp_step. unfold pre_flush_node. wp_step. eapply wp_node_at; [exact Exd|]. rewrite Hxc, Z.eqb_refl. wp_step. exact HQ.
Qed.


Lemma flushes_step n w w1 P c p l m pos cnt (steps : nat) :
  evolve (fun q => (p ++ [pos]) `prefix_of` q) (cells w) P (cells w1) P -> self w1 = self w ->
  flushes n w1 P c p l m (pos + 1) ->
  (forall (Q : nat * Z -> World -> Prop) fuel stack flushed,
     wp False (flush_loop sha512_half fuel c l (pos + 1) stack (flushed + cnt)) Q w1 ->
     wp False (flush_loop sha512_half (steps + fuel) c l pos stack flushed) Q w) ->
  flushes n w P c p l m pos.
Proof.
  intros Hev Es (turns & cnt' & w' & Hev' & Es' & Hr & Hrun) Hstep.
  exists (steps + turns)%nat, (cnt + cnt'), w'. split_and!; [|congruence|exact Hr|].
  - eapply evolve_trans; [|exact Hev']. eapply evolve_mono; [|exact Hev]. intros q Hq.
    etransitivity; [|exact Hq]. by exists [pos].
  - intros Q fuel stack flushed HQ. rewrite <- Nat.add_assoc. apply Hstep, Hrun. by rewrite <- Z.add_assoc.
Qed.

(** Closing a node all of whose children are shared. *)
Lemma flushes_end w P c n p l m hs ch :
  cells w !! l = Some (mkNode c hs (Inner ch)) -> P !! l = Some p -> 0 < c -> (length p + S n = 64)%nat ->
  p = [] \/ two_items m -> kids_to 16 (cells w) P c n p m ch -> flushes (S n) w P c p l m 16.
Proof.
  intros El HP Hc Hn Hsz Hk. assert (shared_kids (cells w) P c n p m ch) as Hk'.
  { intros b. destruct (ch !! b) as [cd|] eqn:E; [|specialize (Hk b); by rewrite E in Hk].
    pose proof (kids_range _ _ _ _ _ _ Hk b ltac:(eauto)). specialize (Hk b). rewrite E in Hk. cbn beta in Hk.
    by rewrite (proj2 (Z.ltb_lt b 16)) in Hk by lia. }
  destruct (wp_total _ _ _ (wp_close sha512_half
    (fun _ w' => exists nd, w' = set_cells (<[l := nd]> (cells w)) w /\ rep (S n) (<[l := nd]> (cells w)) P c true p l m)
    w P c c n p l m hs ch El ltac:(lia) Hn Hsz Hk' ltac:(by intros nd _ ?; exists nd))) as ([] & w' & Erun & nd & -> & Hr).
  exists 1%nat, 1, (set_cells (<[l := nd]> (cells w)) w). split_and!; [|done|exact Hr|].
  - eapply evolve_store; [exact El|cbn; lia|exact HP|done].
  - intros Q fuel stack flushed HQ. cbn [Nat.add flush_loop]. change (16 <? BRANCH_FACTOR) with false. cbv iota.
    apply wp_assoc_left, wp_bind. unfold wp at 1. rewrite Erun. exact HQ.
Qed.

(** One branch of a node; [Hbelow] is the induction hypothesis on the height. *)
Lemma flushes_branch w P c n p l m hs ch pos :
  (forall w l m xd b, rep n (cells w) P c false (p ++ [b]) l m -> cells w !! l = Some xd -> cowid xd <> 0 ->
     is_inner xd = true -> flushes n w P c (p ++ [b]) l m 0) ->
  cells w !! l = Some (mkNode c hs (Inner ch)) -> P !! l = Some p -> 0 < c -> 0 <= pos < 16 ->
  kids_to pos (cells w) P c n p m ch ->
  exists w1 cnt (steps : nat),
    evolve (fun q => (p ++ [pos]) `prefix_of` q) (cells w) P (cells w1) P /\ self w1 = self w
    /\ kids_to (pos + 1) (cells w1) P c n p m ch
    /\ forall (Q : nat * Z -> World -> Prop) fuel stack flushed,
         wp False (flush_loop sha512_half fuel c l (pos + 1) stack (flushed + cnt)) Q w1 ->
         wp False (flush_loop sha512_half (steps + fuel) c l pos stack flushed) Q w.
Proof.
  intros Hbelow El HP Hc Hpos Hk. pose proof (Hk pos) as Hkp. cbn beta in Hkp.
  destruct (ch !! pos) as [cd|] eqn:E.
  2:{ exists w, 0, 1%nat. split_and!; [apply evolve_refl|done| |].
      - eapply kids_advance; [exact Hk|apply evolve_refl|]. by rewrite E.
      - intros Q fuel stack flushed HQ. rewrite Z.add_0_r in HQ. eapply flush_skip; [exact El|lia|by rewrite E|exact HQ]. }
  destruct Hkp as (Hne & _ & x & Ex & Hx). rewrite Z.ltb_irrefl in Hx.
  destruct (rep_inv _ _ _ _ _ _ _ _ _ Hx) as (xd & Exd & Hown & Hb).
  destruct Hown as [H0|(_ & Hxc & HPx)].
  { exists w, 0, 1%nat. split_and!; [apply evolve_refl|done| |].
    - eapply kids_advance; [exact Hk|apply evolve_refl|]. intros cd' x' E' Ex'. simplify_eq. by eapply rep_zero.
    - intros Q fuel stack flushed HQ. rewrite Z.add_0_r in HQ. eapply flush_skip; [exact El|lia| |exact HQ].
      intros cd' E'. simplify_eq. eauto. }
  destruct (is_inner xd) eqn:Ein.
  - destruct (Hbelow w x _ xd pos Hx Exd ltac:(lia) Ein) as (turns & cnt & w1 & Hev & Es & Hr & Hrun).
    exists w1, cnt, (S turns). split_and!; [exact Hev|exact Es| |].
    + eapply kids_advance; [exact Hk|exact Hev|]. intros cd' x' E' Ex'. by simplify_eq.
    + intros Q fuel stack flushed HQ.
      eapply flush_child; [exact El|lia|lia|exact E|exact Ex|exact Exd|exact Hxc|]. rewrite Ein.
      apply Hrun. cbn [finish]. wp_step. eapply (wp_share_child_id _ _ _ _ c hs ch); [|lia|exact E|exact Ex|exact HQ].
      eapply ev_keep; [exact Hev|exact El|]. right. rewrite HP. intros q [= <-] Hq. by eapply place_not_below.
  - destruct Hb as [(t & item & Eb & Hp & Hok & Ht & Em & Eh)|(? & ? & _ & Eb & _)]; [|unfold is_inner in Ein; by rewrite Eb in Ein].
    assert (xd = mkNode c (compute_leaf_hash sha512_half t item) (Leaf t item)) as Exd'
      by (destruct xd; cbn in *; congruence).
    set (xd' := mkNode 0 (compute_leaf_hash sha512_half t item) (Leaf t item)).
    assert (x <> l) as Hxl by (intros ->; apply (place_not_below p p pos); [rewrite HPx in HP; injection HP as HP; by rewrite HP|done]).
    exists (set_cells (<[x := xd']> (cells w)) w), 1, 1%nat.
    assert (evolve (fun q => (p ++ [pos]) `prefix_of` q) (cells w) P (<[x := xd']> (cells w)) P) as Hev
      by (eapply evolve_store; [exact Exd|lia|exact HPx|done]).
    split_and!; [exact Hev|done| |].
    + eapply (kids_advance _ w (set_cells (<[x := xd']> (cells w)) w)); [exact Hk|exact Hev|]. intros cd' x' E' Ex'. simplify_eq. rewrite Em.
      destruct n; (exists xd'; split; [cbn; by rewrite lookup_insert_eq|]; split; [by left|]; by cbn).
    + intros Q fuel stack flushed HQ. eapply flush_child; [exact El|lia|lia|exact E|exact Ex|exact Exd|exact Hxc|]. rewrite Ein.
      apply wp_assoc_left, wp_bind. rewrite Exd' in Exd. eapply wp_close_leaf; [exact Exd|].
      wp_step. eapply (wp_share_child_id _ _ _ _ c hs ch); [|lia|exact E|exact Ex|exact HQ]. cbn. rewrite lookup_insert_ne by done. exact El.
Qed.

Lemma flushes_from w P c n p l m hs ch pos (j : nat) :
  (forall w l m xd b, rep n (cells w) P c false (p ++ [b]) l m -> cells w !! l = Some xd -> cowid xd <> 0 ->
     is_inner xd = true -> flushes n w P c (p ++ [b]) l m 0) ->
  cells w !! l = Some (mkNode c hs (Inner ch)) -> P !! l = Some p -> 0 < c -> (length p + S n = 64)%nat ->
  p = [] \/ two_items m -> 0 <= pos -> pos + Z.of_nat j = 16 -> kids_to pos (cells w) P c n p m ch ->
  flushes (S n) w P c p l m pos.
Proof.
  intros Hbelow. revert w pos. induction j as [|j IH]; intros w pos El HP Hc Hn Hsz Hpos Hj Hk.
  { assert (pos = 16) as -> by lia. by eapply flushes_end. }
  destruct (flushes_branch w P c n p l m hs ch pos Hbelow El HP Hc ltac:(lia) Hk)
    as (w1 & cnt & steps & Hev & Es & Hk' & Hrun).
  eapply flushes_step; [exact Hev|exact Es| |exact Hrun].
  apply IH; try done; try lia.
  eapply ev_keep; [exact Hev|exact El|]. right. rewrite HP. intros q [= <-] Hq. by eapply place_not_below.
Qed.

(** Every inner node of the tree is flushed in finitely many turns. *)
Lemma flushes_node n w P c p l m nd :
  rep n (cells w) P c false p l m -> cells w !! l = Some nd -> cowid nd <> 0 -> is_inner nd = true ->
  0 < c -> (length p + n = 64)%nat -> flushes n w P c p l m 0.
Proof.
  revert w p l m nd. induction n as [|n IH]; intros w p l m nd Hr El H0 Hin Hc Hn;
    destruct (rep_inv _ _ _ _ _ _ _ _ _ Hr) as (nd' & El' & Hown & Hb); rewrite El in El'; injection El' as <-;
    (destruct Hb as [(t & item & Eb & _)|(n' & ch & En & Eb & Hsz & _ & Hk)]; [unfold is_inner in Hin; by rewrite Eb in Hin|]);
    [done|]. injection En as <-.
  destruct Hown as [?|(_ & Ec & HP)]; [done|].
  eapply (flushes_from w P c n p l m (hash nd) ch 0 16); try done.
  - intros w' x m' xd b Hx Ex Hx0 Hxi. eapply (IH w' (p ++ [b])); try done. rewrite length_app. cbn [length]. lia.
  - rewrite El. f_equal. destruct nd; cbn in *; congruence.
  - intros b. destruct (Z.eqb_spec (cowid nd) 0) as [?|_]; [done|]. specialize (Hk b).
    destruct (ch !! b) as [cd|] eqn:E; [|done]. assert (0 <= b < 16) as Hb by (by eapply sub_range, Hk).
    rewrite (proj2 (Z.ltb_ge b 0)) by lia. eapply child_ok_mono; [exact Hk|done|done].
Qed.

(** ** The whole tree *)

Lemma root_hash_empty : root_hash sha512_half ∅ = 0.
Proof. unfold root_hash, inner_hash. by rewrite bool_decide_eq_true_2. Qed.

Definition unshared (w : World) (P : places) (c : Z) (M : contents) : Prop :=
  exists turns cnt w' P', evolve (fun _ => True) (cells w) P (cells w') P' /\ tree_rep w' P' c M
    /\ rep 64 (cells w') P' c true [] (root (self w')) M
    /\ forall fuel, unshare sha512_half (turns + fuel) w = Ok (cnt, w').

Lemma unshared_intro w P c M cnt w' turns P' :
  holds w P c -> evolve (fun _ => True) (cells w) P (cells w') P' -> tree_cowid (self w') = c ->
  rep 64 (cells w') P' c true [] (root (self w')) M ->
  (forall fuel, wp False (walk_subtree sha512_half (turns + fuel) (root (self w)) (tree_cowid (self w)))
     (fun rc w1 => rc = (root (self w'), cnt) /\ w' = set_root (fst rc) w1) w) ->
  unshared w P c M.
Proof.
  intros Hw Hev Hc' Hr' Hrun. exists turns, cnt, w', P'. split_and!; [done| |done|].
  - constructor; [by eapply holds_evolve|]. by eapply rep_shared.
  - intros fuel. destruct (wp_total _ _ _ (Hrun fuel)) as (rc & w1 & E & -> & ->).
    unfold unshare, mbind, handler_bind, gets, modify. rewrite E. done.
Qed.

(** The answers of [walk_subtree] at the root. *)
Lemma wp_walk_subtree (Q : nat * Z -> World -> Prop) fuel w P c nd ch :
  holds w P c -> cells w !! root (self w) = Some nd -> node_body nd = Inner ch -> cowid nd = 0 \/ cowid nd = c ->
  (if cowid nd =? 0 then Q (root (self w), 0) w
   else if bool_decide (ch = ∅) then
     forall x, cells w !! x = None -> x = fresh (dom (cells w)) -> Q (x, 1) (set_cells (<[x := mkNode 0 0 (Inner ∅)]> (cells w)) w)
   else wp False (flush_loop sha512_half fuel c (root (self w)) 0 [] 0) Q w) ->
  wp False (walk_subtree sha512_half fuel (root (self w)) (tree_cowid (self w))) Q w.
Proof.
  intros Hw El Eb Hown HQ. pose proof (holds_pos _ _ _ Hw) as Hc. unfold walk_subtree. rewrite (holds_cowid _ _ _ Hw).
  wp_step. apply wp_debug_assert; [apply negb_true_iff, Z.eqb_neq; lia|].
  eapply wp_bind, wp_node_at; [exact El|]. unfold is_inner, children_of. rewrite Eb. cbn [negb].
  destruct (Z.eqb_spec (cowid nd) 0); [by wp_step|]. destruct (bool_decide (ch = ∅)).
  - wp_step. unfold new_inner, alloc. wp_steps. apply wp_store. wp_steps. apply HQ; [|done]. apply not_elem_of_dom, is_fresh.
  - wp_step. unfold pre_flush_node. eapply wp_bind, wp_node_at; [exact El|].
    destruct Hown as [?|Ec]; [done|]. rewrite Ec, Z.eqb_refl. wp_step. exact HQ.
Qed.

(** [unshare] returns, keeps the contents, and leaves a shared root. *)
Lemma unshare_total w P c M : tree_rep w P c M -> unshared w P c M.
Proof.
  intros [Hw Hr]. pose proof (holds_pos _ _ _ Hw) as Hc. destruct (rep_inv _ _ _ _ _ _ _ _ _ Hr)
    as (nd & El & Hown & [(? & ? & _ & Hp & _)|(n' & ch & En & Eb & _ & _ & Hk)]); [done|]. injection En as <-.
  assert (cowid nd = 0 \/ cowid nd = c) as Hcow by (destruct Hown as [?|(_ & ? & _)]; auto).
  destruct (Z.eq_dec (cowid nd) 0) as [H0|H0].
  { eapply (unshared_intro w P c M 0 w O P); [done|apply evolve_refl|apply Hw|by eapply rep_zero|]. intros fuel.
    eapply wp_walk_subtree; [done|exact El|exact Eb|done|]. rewrite H0. split; [done|]. by destruct w as [? []]. }
  destruct (bool_decide_reflect (ch = ∅)) as [->|Hne].
  - set (x := fresh (dom (cells w))). assert (cells w !! x = None) as Hx by (apply not_elem_of_dom, is_fresh).
    assert (M = ∅) as ->
      by (by eapply (kids_none _ _ (fun b => rep 63 (cells w) P c (cowid nd =? 0) ([] ++ [b])) 0 M ∅ Hk)).
    set (w' := set_root x (set_cells (<[x := mkNode 0 0 (Inner ∅)]> (cells w)) w)).
    eapply (unshared_intro w P c ∅ 1 w' O (<[x := []]> P)); [done|apply evolve_alloc; [done|apply Hw]|apply Hw| |].
    + exists (mkNode 0 0 (Inner ∅)). split; [cbn; by rewrite lookup_insert_eq|]. split; [by left|]. cbn.
      split; [by left|]. split; [by rewrite root_hash_empty|]. intros b. by rewrite lookup_empty, sub_empty.
    + intros fuel. eapply wp_walk_subtree; [done|exact El|exact Eb|done|].
      rewrite (proj2 (Z.eqb_neq _ 0)), bool_decide_eq_true_2 by done. by intros y _ ->.
  - destruct (flushes_node 64 w P c [] (root (self w)) M nd Hr El H0 ltac:(unfold is_inner; by rewrite Eb) Hc eq_refl)
      as (turns & cnt & w1 & Hev & Es & Hr1 & Hrun).
    eapply (unshared_intro w P c M cnt w1 turns P); [done|by eapply evolve_mono; [|exact Hev]|rewrite Es; apply Hw|by rewrite Es|].
    intros fuel. eapply wp_walk_subtree; [done|exact El|exact Eb|done|].
    rewrite (proj2 (Z.eqb_neq _ 0)), bool_decide_eq_false_2 by done.
    apply Hrun. cbn [finish]. wp_steps. rewrite <- Es. split; [done|]. by destruct w1 as [? []].
Qed.

(** The hash a shared root carries. *)
Lemma rep_root_hash n h P c l m nd :
  rep n h P c true [] l m -> h !! l = Some nd -> hash nd = root_hash sha512_half m.
Proof.
  intros Hr El. destruct (rep_inv _ _ _ _ _ _ _ _ _ Hr) as (nd' & El' & [H0|(? & _)] & Hb); [|done].
  rewrite El in El'. injection El' as <-.
  destruct Hb as [(t & item & _ & ? & _)|(n' & ch & -> & _ & _ & Hh & _)]; [done|]. by rewrite Hh.
Qed.

End Flush.
