(* ===== verification/ShaMapForest.v ===== *)
(** * Trees that share nodes

    Any number of trees over one store: created empty, changed, searched, copied by
    [mutable_snapshot] and flushed by [unshare], in any order. Each behaves as a map of
    its own, and a flushed root carries the hash of its map. *)

From S2P Require Import Prelude Stateful Serializer ShaMapNodeId ShaMap ShaMapRep ShaMapSteps ShaMapOps ShaMapDelete ShaMapFlush.

(** ** Operations *)

Record Forest := mkForest { f_cells : heap; f_trees : list MutableTree }.

Inductive tree_op :=
| OpNew (c : Z)
| OpAdd (i : nat) (item : SHAMapItem)
| OpUpdate (i : nat) (item : SHAMapItem)
| OpDelete (i : nat) (key : Z)
| OpFind (i : nat) (key : Z)
| OpHas (i : nat) (key : Z)
| OpSnapshot (i : nat) (c : Z)
| OpUnshare (i : nat).

Inductive tree_answer :=
| ADone
| ABool (b : bool)
| AError (e : MutationError)
| AItem (item : option SHAMapItem)
| AHash (h : Z).

Definition of_result (r : bool + MutationError) : tree_answer :=
  match r with inl b => ABool b | inr e => AError e end.

(** The [cowid] and the contents of each tree. *)
Notation maps := (list (Z * contents)).

Section Run.
Context (sha512_half : list Z -> Z) (ty : SHAMapNodeType).

(** A method of one tree. *)
Definition on_tree (i : nat) (m : action tree_answer) : handler Forest tree_answer := fun f =>
  match f_trees f !! i with
  | None => Panic
  | Some t =>
      match m (mkWorld (f_cells f) t) with
      | Ok (a, w) => Ok (a, mkForest (cells w) (<[i := self w]> (f_trees f)))
      | Panic => Panic
      | OutOfFuel => OutOfFuel
      end
  end.

(** A constructor of a tree, called on another tree or on none. *)
Definition make_tree (t : MutableTree) (m : action MutableTree) : handler Forest tree_answer := fun f =>
  match m (mkWorld (f_cells f) t) with
  | Ok (t', w) => Ok (ADone, mkForest (cells w) (f_trees f ++ [t']))
  | Panic => Panic
  | OutOfFuel => OutOfFuel
  end.

Definition run_op (fuel : nat) (op : tree_op) : handler Forest tree_answer :=
  match op with
  | OpNew c => make_tree (mkTree 0 c) (tree_new c)
  | OpAdd i item => on_tree i (r ← add_item sha512_half ty item; mret (of_result r))
  | OpUpdate i item => on_tree i (r ← update_item sha512_half ty item; mret (of_result r))
  | OpDelete i key => on_tree i (r ← delete_item sha512_half key; mret (of_result r))
  | OpFind i key =>
      on_tree i (r ← find_key key;
        match r with
        | inr e => mret (AError e)
        | inl None => mret (AItem None)
        | inl (Some l) => n ← node_at l; mret (AItem (peek_item n))
        end)
  | OpHas i key => on_tree i (b ← has_item key; mret (ABool b))
  | OpSnapshot i c => fun f =>
      match f_trees f !! i with
      | None => Panic
      | Some t => make_tree t (mutable_snapshot sha512_half c) f
      end
  | OpUnshare i =>
      on_tree i (_ ← unshare sha512_half fuel; t ← gets self; n ← node_at (root t); mret (AHash (hash n)))
  end.

Fixpoint run_ops (fuel : nat) (ops : list tree_op) : handler Forest (list tree_answer) :=
  match ops with
  | [] => mret []
  | op :: ops => a ← run_op fuel op; l ← run_ops fuel ops; mret (a :: l)
  end.

(** ** Maps *)

Definition spec_op (op : tree_op) (ms : maps) : tree_answer * maps :=
  match op with
  | OpNew c => (ADone, ms ++ [(c, ∅)])
  | OpAdd i item =>
      match ms !! i with
      | None => (ADone, ms)
      | Some (c, m) =>
          match m !! item_key item with
          | Some _ => (ABool false, ms)
          | None => (ABool true, <[i := (c, <[item_key item := (ty, item)]> m)]> ms)
          end
      end
  | OpUpdate i item =>
      match ms !! i with
      | None => (ADone, ms)
      | Some (c, m) =>
          match m !! item_key item with
          | Some _ => (ABool true, <[i := (c, <[item_key item := (ty, item)]> m)]> ms)
          | None => (AError (MissingExactLeaf (item_key item)), ms)
          end
      end
  | OpDelete i key =>
      match ms !! i with
      | None => (ADone, ms)
      | Some (c, m) =>
          match m !! key with
          | Some _ => (ABool true, <[i := (c, delete key m)]> ms)
          | None => (ABool false, ms)
          end
      end
  | OpFind i key =>
      match ms !! i with None => (ADone, ms) | Some (_, m) => (AItem (snd <$> m !! key), ms) end
  | OpHas i key =>
      match ms !! i with None => (ADone, ms) | Some (_, m) => (ABool (bool_decide (is_Some (m !! key))), ms) end
  | OpSnapshot i c =>
      match ms !! i with None => (ADone, ms) | Some (_, m) => (ADone, ms ++ [(c, m)]) end
  | OpUnshare i =>
      match ms !! i with None => (ADone, ms) | Some (_, m) => (AHash (root_hash sha512_half m), ms) end
  end.

Fixpoint spec_ops (ops : list tree_op) (ms : maps) : list tree_answer * maps :=
  match ops with
  | [] => ([], ms)
  | op :: ops =>
      let r := spec_op op ms in
      let rs := spec_ops ops (snd r) in
      (fst r :: fst rs, snd rs)
  end.

(** The calls that meet the code's assertions. *)
Definition op_ok (ms : maps) (op : tree_op) : Prop :=
  match op with
  | OpNew c => 0 < c
  | OpAdd i item => (i < length ms)%nat /\ leaf_ok ty item
  | OpUpdate i item => leaf_ok ty item /\ exists c m, ms !! i = Some (c, m)
      /\ forall t old, m !! item_key item = Some (t, old) -> distinct_hash sha512_half ty old item
  | OpDelete i key | OpFind i key | OpHas i key => (i < length ms)%nat /\ is_key key
  | OpSnapshot i c => exists c0 m, ms !! i = Some (c0, m) /\ c0 < c
  | OpUnshare i => (i < length ms)%nat
  end.

Fixpoint ops_ok (ms : maps) (ops : list tree_op) : Prop :=
  match ops with
  | [] => True
  | op :: ops => op_ok ms op /\ ops_ok (snd (spec_op op ms)) ops
  end.

(** ** The invariant *)

Local Notation tree_rep := (tree_rep sha512_half).

(** Each tree holds its map, all items have one type, and no cell belongs to two. *)
Definition forest_inv (h : heap) (ts : list MutableTree) (ms : maps) (Ps : list places) : Prop :=
  length ts = length ms /\ length Ps = length ms
  /\ (forall i t P c m, ts !! i = Some t -> Ps !! i = Some P -> ms !! i = Some (c, m) ->
        tree_rep (mkWorld h t) P c m /\ map_Forall (fun _ x => fst x = ty) m)
  /\ (forall i j P P', i <> j -> Ps !! i = Some P -> Ps !! j = Some P' -> forall l, is_Some (P !! l) -> P' !! l = None).

Definition forest_ok (f : Forest) (ms : maps) : Prop := exists Ps, forest_inv (f_cells f) (f_trees f) ms Ps.

(** One tree changes. *)
Lemma forest_set f ms i t c m P Ps w' P' m' :
  forest_inv (f_cells f) (f_trees f) ms Ps -> ms !! i = Some (c, m) -> f_trees f !! i = Some t -> Ps !! i = Some P ->
  evolve (fun _ => True) (f_cells f) P (cells w') P' -> tree_rep w' P' c m' -> map_Forall (fun _ x => fst x = ty) m' ->
  forest_ok (mkForest (cells w') (<[i := self w']> (f_trees f))) (<[i := (c, m')]> ms).
Proof.
  intros (Hlt & HlP & Hinv & Hdis) Em Et EP Hev Hr Hty. exists (<[i := P']> Ps). cbn [f_cells f_trees].
  assert (i < length ms)%nat as Hi by (by eapply lookup_lt_Some).
  assert (forall j Pj, j <> i -> Ps !! j = Some Pj -> forall l, is_Some (Pj !! l) -> is_Some (f_cells f !! l)) as Hin.
  { intros j Pj Hj EPj. destruct (lookup_lt_is_Some_2 ms j) as [[cj mj] Emj]; [rewrite <- HlP; by eapply lookup_lt_Some|].
    destruct (lookup_lt_is_Some_2 (f_trees f) j) as [tj Etj]; [rewrite Hlt; by eapply lookup_lt_Some|].
    destruct (Hinv _ _ _ _ _ Etj EPj Emj) as [[[_ _ Hok] _] _]. exact Hok. }
  split_and!; [by rewrite !length_insert|by rewrite !length_insert| |].
  - intros j tj Pj cj mj. rewrite !list_lookup_insert_Some.
    intros [(<- & <- & _)|(Hj & Etj)] [(E & <- & _)|(Hj' & EPj)] [(E' & [= <- <-] & _)|(Hj'' & Emj)]; try congruence.
    + split; [|done]. by destruct w'.
    + destruct (Hinv _ _ _ _ _ Etj EPj Emj) as [[[Hc Hpos Hok] Hrj] Htyj]. split; [|done]. constructor.
      * constructor; [done|done|]. intros l Hl. eapply ev_dom; [exact Hev|]. by apply Hok.
      * eapply rep_other; [exact Hev| |exact Hrj]. by apply (Hdis j i Pj P).
  - intros j k Pj Pk Hjk. rewrite !list_lookup_insert_Some.
    intros [(<- & <- & _)|(Hj & EPj)] [(E' & <- & _)|(Hk & EPk)] l Hl; try congruence.
    + destruct (P !! l) eqn:El; [eapply (Hdis i k); eauto|].
      assert (f_cells f !! l = None) as Hn by (by eapply ev_new).
      destruct (Pk !! l) eqn:Ek; [|done]. destruct (Hin k Pk ltac:(congruence) EPk l) as [? ?]; [eauto|congruence].
    + destruct (P' !! l) eqn:El; [|done]. assert (P !! l = None) as HPl by (by eapply (Hdis j i)).
      destruct (Hin j Pj ltac:(congruence) EPj l Hl) as [? ?].
      assert (f_cells f !! l = None) by (eapply ev_new; [exact Hev|done|eauto]). congruence.
    + by eapply (Hdis j k).
Qed.

(** A tree is added; nothing that was there changes. *)
Lemma forest_snoc f ms c m P' w' t' :
  forest_ok f ms -> f_cells f ⊆ cells w' -> tree_rep (mkWorld (cells w') t') P' c m ->
  (forall l, is_Some (P' !! l) -> f_cells f !! l = None) -> map_Forall (fun _ x => fst x = ty) m ->
  forest_ok (mkForest (cells w') (f_trees f ++ [t'])) (ms ++ [(c, m)]).
Proof.
  intros (Ps & Hlt & HlP & Hinv & Hdis) Hsub Hr Hnew Hty. exists (Ps ++ [P']). cbn [f_cells f_trees].
  assert (forall j Pj, Ps !! j = Some Pj -> forall l, is_Some (Pj !! l) -> is_Some (f_cells f !! l)) as Hin.
  { intros j Pj EPj. destruct (lookup_lt_is_Some_2 ms j) as [[cj mj] Emj]; [rewrite <- HlP; by eapply lookup_lt_Some|].
    destruct (lookup_lt_is_Some_2 (f_trees f) j) as [tj Etj]; [rewrite Hlt; by eapply lookup_lt_Some|].
    destruct (Hinv _ _ _ _ _ Etj EPj Emj) as [[[_ _ Hok] _] _]. exact Hok. }
  split_and!; [rewrite !length_app; simpl; lia|rewrite !length_app; simpl; lia| |].
  - intros j tj Pj cj mj. rewrite !lookup_snoc_Some.
    intros [(Hj & Etj)|(-> & <-)] [(Hj' & EPj)|(E & <-)] [(Hj'' & Emj)|(E' & [= <- <-])]; try lia; [|done].
    destruct (Hinv _ _ _ _ _ Etj EPj Emj) as [[[Hc Hpos Hok] Hrj] Htyj]. split; [|done]. constructor.
    + constructor; [done|done|]. intros l Hl. destruct (Hok l Hl) as [xd Hx]. exists xd. by eapply lookup_weaken.
    + by eapply rep_mono.
  - intros j k Pj Pk Hjk. rewrite !lookup_snoc_Some.
    intros [(Hj & EPj)|(-> & <-)] [(Hk & EPk)|(E & <-)] l Hl; try lia; [by eapply (Hdis j k)| |].
    + destruct (P' !! l) eqn:E'; [|done]. destruct (Hin j Pj EPj l Hl) as [? ?]. rewrite Hnew in *; [done|eauto].
    + destruct (Pk !! l) eqn:E'; [|done]. destruct (Hin k Pk EPk l) as [? ?]; [eauto|]. rewrite Hnew in *; done.
Qed.

(** ** One operation *)

(** The tree after a method: its contents, and no one else's cell touched. *)
Definition tree_step (w : World) (P : places) (c : Z) (ans : tree_answer) (m' : contents) (a : tree_answer) (w' : World) : Prop :=
  a = ans /\ map_Forall (fun _ x => fst x = ty) m' /\ exists P', evolve (fun _ => True) (cells w) P (cells w') P' /\ tree_rep w' P' c m'.

Lemma tree_step_same w P c m ans :
  tree_rep w P c m -> map_Forall (fun _ x => fst x = ty) m -> tree_step w P c ans m ans w.
Proof. intros Hr Hty. split; [done|]. split; [done|]. exists P. split; [apply evolve_refl|done]. Qed.

Lemma tree_step_moves {A} (r : A) w P c m' a w' ans (R : A -> Prop) :
  moves sha512_half P c m' R w r w' -> a = ans -> map_Forall (fun _ x => fst x = ty) m' -> tree_step w P c ans m' a w'.
Proof. intros (_ & P' & Hev & Hr) -> Hty. split; [done|]. split; [done|]. by exists P'. Qed.

Lemma on_tree_ok f ms i c m ans m' (act : action tree_answer) :
  forest_ok f ms -> ms !! i = Some (c, m) ->
  (forall t P, tree_rep (mkWorld (f_cells f) t) P c m -> map_Forall (fun _ x => fst x = ty) m ->
     wp False act (tree_step (mkWorld (f_cells f) t) P c ans m') (mkWorld (f_cells f) t)) ->
  exists f', on_tree i act f = Ok (ans, f') /\ forest_ok f' (<[i := (c, m')]> ms).
Proof.
  intros (Ps & Hinv) Em Hact. pose proof Hinv as (Hlt & HlP & Htree & _).
  assert (i < length ms)%nat as Hi by (by eapply lookup_lt_Some).
  destruct (lookup_lt_is_Some_2 (f_trees f) i) as [t Et]; [lia|].
  destruct (lookup_lt_is_Some_2 Ps i) as [P EP]; [lia|].
  destruct (Htree _ _ _ _ _ Et EP Em) as [Hr Hty].
  destruct (wp_total _ _ _ (Hact t P Hr Hty)) as (a & w' & E & -> & Hty' & P' & Hev & Hr').
  exists (mkForest (cells w') (<[i := self w']> (f_trees f))). unfold on_tree. rewrite Et, E. split; [done|].
  by eapply forest_set.
Qed.

Lemma on_tree_same f ms i c m ans (act : action tree_answer) :
  forest_ok f ms -> ms !! i = Some (c, m) ->
  (forall t P, tree_rep (mkWorld (f_cells f) t) P c m -> map_Forall (fun _ x => fst x = ty) m ->
     wp False act (tree_step (mkWorld (f_cells f) t) P c ans m) (mkWorld (f_cells f) t)) ->
  exists f', on_tree i act f = Ok (ans, f') /\ forest_ok f' ms.
Proof.
  intros Hf Em Hact. destruct (on_tree_ok _ _ _ _ _ _ _ _ Hf Em Hact) as (f' & E & H).
  rewrite list_insert_id in H by done. eauto.
Qed.

Lemma run_add f ms i item fuel :
  forest_ok f ms -> op_ok ms (OpAdd i item) ->
  exists f', run_op fuel (OpAdd i item) f = Ok (fst (spec_op (OpAdd i item) ms), f')
    /\ forest_ok f' (snd (spec_op (OpAdd i item) ms)).
Proof.
  intros Hf [Hi Hok]. destruct (lookup_lt_is_Some_2 ms i Hi) as [[c m] Em]. cbn [run_op spec_op]. rewrite Em.
  destruct (m !! item_key item) as [old|] eqn:Eo; cbn [fst snd].
  - eapply on_tree_same; [done|exact Em|]. intros t P Hr Hty. wp_step.
    eapply wp_mono; [by apply wp_add_item|]. intros r w'. unfold added. rewrite Eo. intros [-> ->]. wp_step.
    by apply tree_step_same.
  - eapply on_tree_ok; [done|exact Em|]. intros t P Hr Hty. wp_step.
    eapply wp_mono; [by apply wp_add_item|]. intros r w'. unfold added. rewrite Eo.
    intros [Hm|(k' & t' & item' & Ek & Hne & _)]; [|by specialize (Hty _ _ Ek)]. wp_step.
    eapply tree_step_moves; [exact Hm|by destruct Hm as [<- _]|]. by apply map_Forall_insert_2.
Qed.

Lemma run_update f ms i item fuel :
  forest_ok f ms -> op_ok ms (OpUpdate i item) ->
  exists f', run_op fuel (OpUpdate i item) f = Ok (fst (spec_op (OpUpdate i item) ms), f')
    /\ forest_ok f' (snd (spec_op (OpUpdate i item) ms)).
Proof.
  intros Hf (Hok & c & m & Em & Hcol). cbn [run_op spec_op]. rewrite Em.
  destruct (m !! item_key item) as [[t0 old]|] eqn:Eo; cbn [fst snd].
  - eapply on_tree_ok; [done|exact Em|]. intros t P Hr Hty. wp_step. specialize (Hty _ _ Eo) as Ht0. cbn in Ht0. subst t0.
    eapply wp_mono; [eapply wp_update_item; [exact Hr|done|]; intros o Ho; apply (Hcol ty); congruence|]. intros r w'. unfold updated. rewrite Eo.
    destruct (decide (ty = ty)); [|done]. intros Hm. wp_step.
    eapply tree_step_moves; [exact Hm|by destruct Hm as [<- _]|]. by apply map_Forall_insert_2.
  - eapply on_tree_same; [done|exact Em|]. intros t P Hr Hty. wp_step.
    eapply wp_mono; [apply wp_update_item; [exact Hr|done|congruence]|]. intros r w'. unfold updated. rewrite Eo.
    intros [-> ->]. wp_step. by apply tree_step_same.
Qed.

Lemma run_delete f ms i k fuel :
  forest_ok f ms -> op_ok ms (OpDelete i k) ->
  exists f', run_op fuel (OpDelete i k) f = Ok (fst (spec_op (OpDelete i k) ms), f')
    /\ forest_ok f' (snd (spec_op (OpDelete i k) ms)).
Proof.
  intros Hf [Hi Hk]. destruct (lookup_lt_is_Some_2 ms i Hi) as [[c m] Em]. cbn [run_op spec_op]. rewrite Em.
  destruct (m !! k) as [old|] eqn:Eo; cbn [fst snd].
  - eapply on_tree_ok; [done|exact Em|]. intros t P Hr Hty. wp_step.
    eapply wp_mono; [by apply wp_delete_item|]. intros r w'. unfold deleted. rewrite Eo. intros Hm. wp_step.
    eapply tree_step_moves; [exact Hm|by destruct Hm as [<- _]|]. by apply map_Forall_delete.
  - eapply on_tree_same; [done|exact Em|]. intros t P Hr Hty. wp_step.
    eapply wp_mono; [by apply wp_delete_item|]. intros r w'. unfold deleted. rewrite Eo. intros [-> ->]. wp_step.
    by apply tree_step_same.
Qed.

Lemma run_find f ms i k fuel :
  forest_ok f ms -> op_ok ms (OpFind i k) ->
  exists f', run_op fuel (OpFind i k) f = Ok (fst (spec_op (OpFind i k) ms), f')
    /\ forest_ok f' (snd (spec_op (OpFind i k) ms)).
Proof.
  intros Hf [Hi Hk]. destruct (lookup_lt_is_Some_2 ms i Hi) as [[c m] Em]. cbn [run_op spec_op]. rewrite Em.
  eapply on_tree_same; [done|exact Em|]. intros t P Hr Hty. wp_step.
  eapply wp_mono; [by eapply wp_find_key|]. intros r w' [-> Hfound].
  destruct (m !! k) as [[t0 item]|]; cbn.
  - destruct Hfound as (l & c0 & -> & El). wp_step. eapply wp_node_at; [exact El|]. wp_step. by apply tree_step_same.
  - rewrite Hfound. wp_step. by apply tree_step_same.
Qed.

Lemma run_has f ms i k fuel :
  forest_ok f ms -> op_ok ms (OpHas i k) ->
  exists f', run_op fuel (OpHas i k) f = Ok (fst (spec_op (OpHas i k) ms), f')
    /\ forest_ok f' (snd (spec_op (OpHas i k) ms)).
Proof.
  intros Hf [Hi Hk]. destruct (lookup_lt_is_Some_2 ms i Hi) as [[c m] Em]. cbn [run_op spec_op]. rewrite Em.
  eapply on_tree_same; [done|exact Em|]. intros t P Hr Hty. unfold has_item. wp_steps.
  eapply wp_mono; [by eapply wp_find_key|]. intros r w' [-> Hfound]. wp_steps.
  destruct (m !! k) as [[t0 item]|]; cbn.
  - destruct Hfound as (l & c0 & -> & El). by apply tree_step_same.
  - rewrite Hfound. by apply tree_step_same.
Qed.

Lemma run_unshare f ms i :
  forest_ok f ms -> op_ok ms (OpUnshare i) ->
  exists n f', (forall fuel, run_op (n + fuel) (OpUnshare i) f = Ok (fst (spec_op (OpUnshare i) ms), f'))
    /\ forest_ok f' (snd (spec_op (OpUnshare i) ms)).
Proof.
  intros Hf Hi. destruct (lookup_lt_is_Some_2 ms i Hi) as [[c m] Em]. cbn [run_op spec_op]. rewrite Em. cbn [fst snd].
  pose proof Hf as (Ps & Hlt & HlP & Htree & Hdis). cbn in Hi.
  destruct (lookup_lt_is_Some_2 (f_trees f) i) as [t Et]; [lia|].
  destruct (lookup_lt_is_Some_2 Ps i) as [P EP]; [lia|].
  destruct (Htree _ _ _ _ _ Et EP Em) as [Hr Hty].
  destruct (unshare_total _ _ _ _ _ Hr) as (turns & cnt & w' & P' & Hev & Hr' & Hsh & Hrun).
  exists turns, (mkForest (cells w') (<[i := self w']> (f_trees f))).
  destruct (rep_inv _ _ _ _ _ _ _ _ _ Hsh) as (nd & End & _).
  split.
  - intros fuel. unfold on_tree. rewrite Et. unfold mbind, handler_bind. rewrite Hrun.
    unfold gets, node_at, mbind, handler_bind, gets. rewrite End. cbn.
    by rewrite (rep_root_hash _ _ _ _ _ _ _ _ Hsh End).
  - rewrite <- (list_insert_id ms i (c, m)) by done. eapply forest_set; try done.
Qed.

Lemma run_new f ms c fuel :
  forest_ok f ms -> op_ok ms (OpNew c) ->
  exists f', run_op fuel (OpNew c) f = Ok (fst (spec_op (OpNew c) ms), f')
    /\ forest_ok f' (snd (spec_op (OpNew c) ms)).
Proof.
  intros Hf Hc. cbn in Hc. cbn [run_op spec_op fst snd]. set (w := mkWorld (f_cells f) (mkTree 0 c)).
  assert (wp False (tree_new c) (fun t w' => exists x, f_cells f !! x = None /\ t = mkTree x c
            /\ cells w' = <[x := mkNode c 0 (Inner ∅)]> (f_cells f)) w) as Hw.
  { unfold tree_new. wp_step. apply wp_debug_assert; [apply negb_true_iff, Z.eqb_neq; lia|].
    wp_step. apply wp_alloc. intros x Hx. wp_step. by exists x. }
  destruct (wp_total _ _ _ Hw) as (t & w' & E & x & Hx & -> & Ew). unfold make_tree. fold w. rewrite E.
  exists (mkForest (cells w') (f_trees f ++ [mkTree x c])). split; [done|].
  eapply (forest_snoc _ _ _ _ {[x := []]}); [done|rewrite Ew; by apply insert_subseteq| | |done].
  - constructor; cbn [cells self root].
    + constructor; [done|done|]. intros l Hl. cbn. rewrite Ew. destruct (decide (l = x)) as [->|]; [rewrite lookup_insert_eq; eauto|].
      rewrite lookup_singleton_ne in Hl by done. by destruct Hl.
    + rewrite Ew. eapply rep_inner_intro; [by rewrite lookup_insert_eq|by rewrite lookup_singleton_eq|done|by left|].
      intros b. by rewrite lookup_empty, sub_empty.
  - intros l Hl. destruct (decide (l = x)) as [->|]; [done|]. rewrite lookup_singleton_ne in Hl by done. by destruct Hl.
Qed.

Lemma run_snapshot f ms i c fuel :
  forest_ok f ms -> op_ok ms (OpSnapshot i c) ->
  exists f', run_op fuel (OpSnapshot i c) f = Ok (fst (spec_op (OpSnapshot i c) ms), f')
    /\ forest_ok f' (snd (spec_op (OpSnapshot i c) ms)).
Proof.
  intros Hf (c0 & m & Em & Hc). cbn [run_op spec_op]. rewrite Em. cbn [fst snd].
  pose proof Hf as (Ps & Hlt & HlP & Htree & Hdis). assert (i < length ms)%nat as Hi by (by eapply lookup_lt_Some).
  destruct (lookup_lt_is_Some_2 (f_trees f) i) as [t Et]; [lia|].
  destruct (lookup_lt_is_Some_2 Ps i) as [P EP]; [lia|].
  destruct (Htree _ _ _ _ _ Et EP Em) as [[Hw Hr] Hty]. rewrite Et. pose proof (holds_pos _ _ _ Hw) as Hpos.
  set (w := mkWorld (f_cells f) t) in *.
  assert (wp False (mutable_snapshot sha512_half c) (fun t' w' => f_cells f ⊆ cells w' /\ tree_cowid t' = c
            /\ forall P c sh, rep sha512_half 64 (cells w') P c sh [] (root t') m) w) as Hs.
  { unfold mutable_snapshot. wp_steps. apply wp_debug_assert; [rewrite (holds_cowid _ _ _ Hw); by apply Z.ltb_lt|].
    wp_step. eapply wp_mono; [eapply (wp_clone_shareable _ 65 64 _ P c0 false []); [lia|done|lia|exact Hr]|].
    intros l w' (Hsub & _ & Hrep). by wp_step. }
  destruct (wp_total _ _ _ Hs) as (t' & w' & E & Hsub & Hc' & Hrep). unfold make_tree. fold w. rewrite E.
  exists (mkForest (cells w') (f_trees f ++ [t'])). split; [done|].
  eapply (forest_snoc _ _ _ _ ∅); [done|done| | |done].
  - constructor; [|apply Hrep]. constructor; [done|lia|]. intros l Hl. rewrite lookup_empty in Hl. by destruct Hl.
  - intros l Hl. rewrite lookup_empty in Hl. by destruct Hl.
Qed.

Lemma run_op_total op f ms :
  forest_ok f ms -> op_ok ms op ->
  exists n f', (forall fuel, run_op (n + fuel) op f = Ok (fst (spec_op op ms), f')) /\ forest_ok f' (snd (spec_op op ms)).
Proof.
  intros Hf Hop.
  assert (forall op, (exists f', (forall fuel, run_op fuel op f = run_op 0 op f) /\ run_op 0 op f = Ok (fst (spec_op op ms), f')
            /\ forest_ok f' (snd (spec_op op ms))) ->
          exists n f', (forall fuel, run_op (n + fuel) op f = Ok (fst (spec_op op ms), f')) /\ forest_ok f' (snd (spec_op op ms))) as G.
  { intros o (f' & Hsame & E & H). exists 0%nat, f'. split; [|done]. intros fuel. by rewrite Hsame. }
  destruct op; [| | | | | | |by apply run_unshare]; apply G;
    [edestruct run_new as (f' & E & H)|edestruct run_add as (f' & E & H)|edestruct run_update as (f' & E & H)
    |edestruct run_delete as (f' & E & H)|edestruct run_find as (f' & E & H)|edestruct run_has as (f' & E & H)
    |edestruct run_snapshot as (f' & E & H)]; try done; exists f'; by split_and!.
Qed.

Lemma run_ops_total ops f ms :
  forest_ok f ms -> ops_ok ms ops ->
  exists n f', (forall fuel, (n <= fuel)%nat -> run_ops fuel ops f = Ok (fst (spec_ops ops ms), f'))
    /\ forest_ok f' (snd (spec_ops ops ms)).
Proof.
  revert f ms. induction ops as [|op ops IH]; intros f ms Hf Hok; [exists 0%nat, f; by split|].
  destruct Hok as [Hop Hok]. destruct (run_op_total op f ms Hf Hop) as (n & f1 & Hrun & Hf1).
  destruct (IH f1 _ Hf1 Hok) as (n2 & f2 & Hrun2 & Hf2). exists (n + n2)%nat, f2. split; [|exact Hf2].
  intros fuel Hfuel. cbn [run_ops spec_ops fst snd]. unfold mbind, handler_bind.
  replace fuel with (n + (fuel - n))%nat at 1 by lia. rewrite Hrun. rewrite Hrun2 by lia. done.
Qed.

Lemma forest_empty : forest_ok (mkForest ∅ []) [].
Proof. exists []. by split_and!. Qed.

End Run.
