(* ===== verification/ShaMapTheorems.v ===== *)
(** * SHAMap: the theorems

    Trees refine maps, in any interleaving of changes and snapshots; the root hash is a
    function of the contents; and the answers of the mutations on trees of mixed
    types. *)

From S2P Require Import Prelude Stateful Serializer ShaMapNodeId ShaMap ShaMapRep ShaMapSteps ShaMapOps ShaMapDelete ShaMapFlush ShaMapForest.

Section Theorems.
Context (sha512_half : list Z -> Z).

(** C5: any number of SHAMaps over shared nodes behave as independent maps. Whatever valid
    sequence of creations, insertions, updates, deletions, lookups, snapshots and
    flushes is run, no call panics or runs forever, and every answer is the one that
    separate finite maps give: a snapshot keeps its contents whatever happens to the tree
    it was taken from and the other way round, and a flush answers the hash of the
    contents. *)
Theorem shamap_refines_maps ty ops :
  ops_ok sha512_half ty [] ops ->
  exists n, forall fuel, (n <= fuel)%nat -> exists f',
    run_ops sha512_half ty fuel ops (mkForest ∅ []) = Ok (fst (spec_ops sha512_half ty ops []), f').
Proof.
  intros Hok. destruct (run_ops_total sha512_half ty ops _ _ (forest_empty sha512_half ty) Hok) as (n & f' & Hrun & _).
  exists n. intros fuel Hfuel. exists f'. by apply Hrun.
Qed.

Lemma spec_ops_snoc ty ops op ms :
  spec_ops sha512_half ty (ops ++ [op]) ms =
    (fst (spec_ops sha512_half ty ops ms) ++ [fst (spec_op sha512_half ty op (snd (spec_ops sha512_half ty ops ms)))],
     snd (spec_op sha512_half ty op (snd (spec_ops sha512_half ty ops ms)))).
Proof. revert ms. induction ops as [|o ops IH]; intros ms; [done|]. cbn [spec_ops app fst snd]. by rewrite IH. Qed.

Lemma ops_ok_snoc ty ops op ms :
  ops_ok sha512_half ty ms ops -> op_ok sha512_half ty (snd (spec_ops sha512_half ty ops ms)) op ->
  ops_ok sha512_half ty ms (ops ++ [op]).
Proof. revert ms. induction ops as [|o ops IH]; intros ms; [done|]. intros [Ho H] Hop. split; [done|]. by apply IH. Qed.

(** The last answer of a history that ends with a flush. *)
Lemma flush_answer ty ops i c m :
  ops_ok sha512_half ty [] ops -> snd (spec_ops sha512_half ty ops []) !! i = Some (c, m) ->
  exists n, forall fuel, (n <= fuel)%nat -> exists l f',
    run_ops sha512_half ty fuel (ops ++ [OpUnshare i]) (mkForest ∅ []) = Ok (l ++ [AHash (root_hash sha512_half m)], f').
Proof.
  intros Hok Ei. assert (ops_ok sha512_half ty [] (ops ++ [OpUnshare i])) as Hok'
    by (apply ops_ok_snoc; [done|]; cbn; by eapply lookup_lt_Some).
  destruct (run_ops_total sha512_half ty _ _ _ (forest_empty sha512_half ty) Hok') as (n & f' & Hrun & _).
  exists n. intros fuel Hfuel. rewrite Hrun, spec_ops_snoc by done. cbn [spec_op]. rewrite Ei. eauto.
Qed.

(** C35: the root hash of a SHAMap depends on its contents alone. Two trees that hold the same
    items, however they came to hold them (in whatever order items were added,
    updated and deleted, through whatever snapshots), have the same root hash once
    flushed. *)
Theorem shamap_hash_canonical ty ty' ops ops' i j c c' m :
  ops_ok sha512_half ty [] ops -> ops_ok sha512_half ty' [] ops' ->
  snd (spec_ops sha512_half ty ops []) !! i = Some (c, m) ->
  snd (spec_ops sha512_half ty' ops' []) !! j = Some (c', m) ->
  exists h n, forall fuel, (n <= fuel)%nat -> exists l f l' f',
    run_ops sha512_half ty fuel (ops ++ [OpUnshare i]) (mkForest ∅ []) = Ok (l ++ [AHash h], f)
    /\ run_ops sha512_half ty' fuel (ops' ++ [OpUnshare j]) (mkForest ∅ []) = Ok (l' ++ [AHash h], f').
Proof.
  intros Hok Hok' Ei Ej. destruct (flush_answer _ _ _ _ _ Hok Ei) as (n & Hn).
  destruct (flush_answer _ _ _ _ _ Hok' Ej) as (n' & Hn'). exists (root_hash sha512_half m), (n + n')%nat.
  intros fuel Hfuel. destruct (Hn fuel ltac:(lia)) as (l & f & E). destruct (Hn' fuel ltac:(lia)) as (l' & f' & E').
  by exists l, f, l', f'.
Qed.

(** C38: the answers of the mutations on a well-formed tree that may be changed and whose
    items may have several types, for an item that is not given the type of an inner
    node, has at least 12 bytes of payload, and does not hash to the same value as a
    different item of its type under its key (the code asserts the first two, and carries a
    change up the tree only when the hash of the leaf changes). Then [add_item], [update_item] and
    [delete_item] return: adding fails with [CrossTypeChange] only when an item of another
    type is in the tree, answers [false] and changes nothing when the key is taken, and
    adds the item otherwise; updating fails with [MissingExactLeaf] or [CrossTypeChange]
    exactly when the key is absent or has another type; deleting answers whether the key
    was there. Errors change nothing. *)
Theorem shamap_mutation_answers w P c M t item :
  tree_rep sha512_half w P c M ->
  t <> NtInner -> MIN_SHAMAP_ITEM_BYTES <= Z.of_nat (length (item_data item)) -> is_key (item_key item) ->
  (forall old, M !! item_key item = Some (t, old) ->
     compute_leaf_hash sha512_half t old = compute_leaf_hash sha512_half t item -> old = item) ->
  (exists r w', add_item sha512_half t item w = Ok (r, w') /\ added sha512_half w P c M t item r w')
  /\ (exists r w', update_item sha512_half t item w = Ok (r, w') /\ updated sha512_half w P c M t item r w')
  /\ (exists r w', delete_item sha512_half (item_key item) w = Ok (r, w') /\ deleted sha512_half w P c M (item_key item) r w').
Proof.
  intros Hw Ht Hlen Hkey Hcol. pose proof (conj Ht (conj Hlen Hkey) : leaf_ok t item) as Hok.
  split_and!; apply wp_total.
  - by apply wp_add_item.
  - by apply wp_update_item.
  - apply wp_delete_item; [done|]. apply Hok.
Qed.

End Theorems.

(** ** A run *)

Module Demo.

(** A stand-in for the hash. *)
Definition sum_hash (l : list Z) : Z := foldl (fun a b => (a * 257 + b + 1) mod 2 ^ 256) 7 l.

Definition key (n : Z) : Z := Z.shiftl n 240.
Definition item_of (n v : Z) : SHAMapItem := mkItem (key n) (v :: replicate 11 0).

Lemma item_of_ok n v : 0 <= n < 2 ^ 16 -> leaf_ok AccountState (item_of n v).
Proof.
  intros Hn. split; [done|]. split; [cbn; done|]. unfold is_key, item_of, key. cbn [item_key].
  rewrite Z.shiftl_mul_pow2 by lia. change (2 ^ 256) with (2 ^ 16 * 2 ^ 240).
  assert (0 < 2 ^ 240) by (apply Z.pow_pos_nonneg; lia). nia.
Qed.

(** Two keys that share three digits, a snapshot, an update in it and a deletion in the
    original. *)
Definition history : list tree_op :=
  [OpNew 1; OpAdd 0 (item_of 4660 1); OpAdd 0 (item_of 4661 2); OpAdd 0 (item_of 4660 3); OpSnapshot 0 2;
   OpUpdate 1 (item_of 4660 9); OpDelete 0 (key 4661); OpFind 1 (key 4661); OpHas 0 (key 4661); OpUnshare 0].

Lemma key_ok n : 0 <= n < 2 ^ 16 -> is_key (key n).
Proof. intros Hn. by apply (item_of_ok n 0). Qed.

Lemma history_ok : ops_ok sum_hash AccountState [] history.
Proof.
  split; [exact (Z.lt_0_1)|].
  split; [split; [apply Nat.ltb_lt; vm_compute; reflexivity|apply item_of_ok; lia]|].
  split; [split; [apply Nat.ltb_lt; vm_compute; reflexivity|apply item_of_ok; lia]|].
  split; [split; [apply Nat.ltb_lt; vm_compute; reflexivity|apply item_of_ok; lia]|].
  split; [exists 1; eexists; split; [vm_compute; reflexivity|lia]|].
  split.
  { split; [apply item_of_ok; lia|]. exists 2. eexists. split; [vm_compute; reflexivity|].
    intros t old E. vm_compute in E. injection E as <- <-. intros E. exfalso. vm_compute in E. discriminate E. }
  split; [split; [apply Nat.ltb_lt; vm_compute; reflexivity|apply key_ok; lia]|].
  split; [split; [apply Nat.ltb_lt; vm_compute; reflexivity|apply key_ok; lia]|].
  split; [split; [apply Nat.ltb_lt; vm_compute; reflexivity|apply key_ok; lia]|].
  split; [apply Nat.ltb_lt; vm_compute; reflexivity|exact I].
Qed.

Lemma shamap_refines_maps_witness :
  exists n, forall fuel, (n <= fuel)%nat -> exists f',
    run_ops sum_hash AccountState fuel history (mkForest ∅ []) = Ok (fst (spec_ops sum_hash AccountState history []), f').
Proof. apply shamap_refines_maps. exact history_ok. Defined.

(** The same map built without the item that was deleted. *)
Definition short_history : list tree_op := [OpNew 5; OpAdd 0 (item_of 4660 1)].

Lemma short_history_ok : ops_ok sum_hash AccountState [] short_history.
Proof.
  split; [apply Z.ltb_lt; reflexivity|].
  split; [split; [apply Nat.ltb_lt; vm_compute; reflexivity|apply item_of_ok; lia]|exact I].
Qed.

Lemma shamap_hash_canonical_witness :
  exists h n, forall fuel, (n <= fuel)%nat -> exists l f l' f',
    run_ops sum_hash AccountState fuel (history ++ [OpUnshare 0]) (mkForest ∅ []) = Ok (l ++ [AHash h], f)
    /\ run_ops sum_hash AccountState fuel (short_history ++ [OpUnshare 0]) (mkForest ∅ []) = Ok (l' ++ [AHash h], f').
Proof.
  eapply (shamap_hash_canonical sum_hash); [exact history_ok|exact short_history_ok|vm_compute; reflexivity|].
  vm_compute. reflexivity.
Defined.

(** The empty tree. *)
Definition new_world : World := mkWorld {[0%nat := mkNode 1 0 (Inner ∅)]} (mkTree 0 1).

Lemma new_world_rep : tree_rep sum_hash new_world {[0%nat := []]} 1 ∅.
Proof.
  constructor.
  - constructor; [done|lia|]. intros l Hl. destruct (decide (l = 0%nat)) as [->|]; [by eexists|].
    rewrite lookup_singleton_ne in Hl by done. by destruct Hl.
  - eapply rep_inner_intro; [done|done|lia|by left|]. intros b. by rewrite lookup_empty, sub_empty.
Qed.

Lemma shamap_mutation_answers_witness :
  (exists w', add_item sum_hash AccountState (item_of 1 1) new_world = Ok (inl true, w'))
  /\ (exists w', update_item sum_hash AccountState (item_of 1 1) new_world = Ok (inr (MissingExactLeaf (key 1)), w'))
  /\ (exists w', delete_item sum_hash (key 1) new_world = Ok (inl false, w')).
Proof.
  assert (forall old, (∅ : contents) !! item_key (item_of 1 1) = Some (AccountState, old) ->
            compute_leaf_hash sum_hash AccountState old = compute_leaf_hash sum_hash AccountState (item_of 1 1) ->
            old = item_of 1 1) as Hcol.
  { intros old E. exfalso. rewrite lookup_empty in E. discriminate E. }
  pose proof (shamap_mutation_answers sum_hash new_world {[0%nat := []]} 1 ∅ AccountState (item_of 1 1)
    new_world_rep (proj1 (item_of_ok 1 1 ltac:(lia))) (proj1 (proj2 (item_of_ok 1 1 ltac:(lia))))
    (proj2 (proj2 (item_of_ok 1 1 ltac:(lia)))) Hcol) as (H1 & H2 & H3).
  unfold added, updated, deleted in H1, H2, H3. rewrite lookup_empty in H1, H2, H3.
  split; [|split].
  - destruct H1 as (r & w & E & [(Hr & _)|(k & t & it & E' & _)]); [|rewrite lookup_empty in E'; discriminate E'].
    exists w. rewrite Hr. exact E.
  - destruct H2 as (r & w & E & Hr & _). exists w. rewrite E, Hr. reflexivity.
  - destruct H3 as (r & w & E & Hr & _). exists w. change (key 1) with (item_key (item_of 1 1)). rewrite E, Hr. reflexivity.
Defined.

(** Outside these conditions the assertions fire. *)
Example short_item_panics : add_item sum_hash AccountState (mkItem (key 1) (replicate 11 0)) new_world = Panic.
Proof. vm_compute. reflexivity. Qed.

Example inner_item_panics : add_item sum_hash NtInner (item_of 1 1) new_world = Panic.
Proof. vm_compute. reflexivity. Qed.

End Demo.
