(* ===== verification/ShaMapArrays.v ===== *)
(** * The arrays of an inner node

    [TaggedPointer] of [xrpl/shamap/src/nodes/tree_node.rs]: the hashes and children of
    an inner node in two arrays of 2, 4, 6 or 16 slots. With 16 slots a branch is at its
    own number; with fewer, the present branches are packed in order and a branch is at
    the number of present branches below it. The bit set [is_branch] says which are
    present. The file shows that the arrays are a map from branches to hash and child,
    which is how [ShaMap] represents them.

    The allocation is a pair of lists; reading or writing outside it is [Panic]. The
    slots that [rebuild] empties belong to the arrays it drops. Counters of live
    nodes are dropped. *)

From S2P Require Import Prelude Serializer ShaMapNodeId ShaMap.

(** ** Definitions *)

Definition TAGGED_POINTER_BOUNDARIES : list Z := [2; 4; 6; 16].

(** [x & (1 << b) != 0] *)
Definition bit (x b : Z) : bool := negb (Z.land x (Z.shiftl 1 b) =? 0).

(** [u16::count_ones] *)
Definition count_ones (x : Z) : Z := Z.of_nat (length (filter (fun b => Z.testbit x b = true) branches)).

Definition validate_branch (b : Z) : outcome unit :=
  if (0 <=? b) && (b <? BRANCH_FACTOR) then Ok tt else Panic.

Definition capacity_for_children (num_children : Z) : outcome Z :=
  expect (snd <$> list_find (fun c => num_children <= c) TAGGED_POINTER_BOUNDARIES).

Definition boundary_index (num_children : Z) : outcome nat :=
  expect (fst <$> list_find (fun c => num_children <= c) TAGGED_POINTER_BOUNDARIES).

Record TaggedPointer := mkTagged { tp_tag : nat; tp_hashes : list Z; tp_children : list (option nat) }.

(** The tag has two bits: the index is in range. *)
Definition capacity (t : TaggedPointer) : Z := default 0 (TAGGED_POINTER_BOUNDARIES !! tp_tag t).

Definition tagged_new (num_children : Z) : outcome TaggedPointer :=
  tag ← boundary_index num_children;
  let cap := Z.to_nat (default 0 (TAGGED_POINTER_BOUNDARIES !! tag)) in
  Ok (mkTagged tag (replicate cap 0) (replicate cap None)).

Definition is_dense (t : TaggedPointer) : bool := capacity t =? BRANCH_FACTOR.

(** The number of present branches below one. *)
Definition rank (x b : Z) : Z := count_ones (Z.land x (Z.shiftl 1 b - 1)).

Definition child_index (t : TaggedPointer) (is_branch branch : Z) : outcome (option Z) :=
  _ ← validate_branch branch;
  Ok (if is_dense t then Some branch
      else if negb (bit is_branch branch) then None
      else Some (rank is_branch branch)).

Definition tp_get_hash (t : TaggedPointer) (is_branch branch : Z) : outcome Z :=
  i ← child_index t is_branch branch;
  match i with
  | None => Ok 0
  | Some i => expect (tp_hashes t !! Z.to_nat i)
  end.

Definition set_hash_at_index (t : TaggedPointer) (index h : Z) : outcome TaggedPointer :=
  if index <? capacity t then Ok (mkTagged (tp_tag t) (<[Z.to_nat index := h]> (tp_hashes t)) (tp_children t))
  else Panic.

Definition get_child_at_index (t : TaggedPointer) (index : Z) : outcome (option nat) :=
  if index <? capacity t then expect (tp_children t !! Z.to_nat index) else Panic.

Definition set_child_at_index (t : TaggedPointer) (index : Z) (c : option nat) : outcome TaggedPointer :=
  if index <? capacity t then Ok (mkTagged (tp_tag t) (tp_hashes t) (<[Z.to_nat index := c]> (tp_children t)))
  else Panic.

(** The hashes of all sixteen branches in order. *)
Definition iter_children (t : TaggedPointer) (is_branch : Z) : outcome (list Z) :=
  if is_dense t then
    foldM (fun acc b => h ← expect (tp_hashes t !! Z.to_nat b); Ok (acc ++ [h])) [] branches
  else
    r ← foldM (fun '(acc, compact_index) b =>
          if bit is_branch b then
            h ← expect (tp_hashes t !! Z.to_nat compact_index);
            Ok (acc ++ [h], compact_index + 1)
          else Ok (acc ++ [0], compact_index)) ([], 0) branches;
    Ok (fst r).

(** One branch of the loop of [rebuild]. *)
Definition move_branch (t : TaggedPointer) (src_branches dst_branches : Z) (next : TaggedPointer) (branch : Z)
  : outcome TaggedPointer :=
  if negb (bit dst_branches branch) then Ok next
  else
    di ← child_index next dst_branches branch;
    match di with
    | None => Ok next
    | Some dst_index =>
        if negb (bit src_branches branch) then Ok next
        else
          let src_index := if is_dense t then branch else rank src_branches branch in
          h ← expect (tp_hashes t !! Z.to_nat src_index);
          c ← expect (tp_children t !! Z.to_nat src_index);
          let effective_dst_index := if is_dense next then branch else dst_index in
          next ← set_hash_at_index next effective_dst_index h;
          set_child_at_index next effective_dst_index c
    end.

Definition rebuild (t : TaggedPointer) (src_branches dst_branches to_allocate : Z) : outcome TaggedPointer :=
  new_capacity ← capacity_for_children to_allocate;
  if (new_capacity =? capacity t) && (src_branches =? dst_branches) then Ok t
  else
    next ← tagged_new to_allocate;
    foldM (move_branch t src_branches dst_branches) next branches.

(** The arrays of an inner node with its bit set. *)
Record Arrays := mkArrays { is_branch : Z; tagged : TaggedPointer }.

Definition with_branch (x b : Z) : Z := Z.lor x (Z.shiftl 1 b).
Definition without_branch (x b : Z) : Z := Z.ldiff x (Z.shiftl 1 b).

Definition arrays_new : outcome Arrays := t ← tagged_new 0; Ok (mkArrays 0 t).

Definition arrays_get_hash (a : Arrays) (branch : Z) : outcome Z :=
  _ ← validate_branch branch; tp_get_hash (tagged a) (is_branch a) branch.

Definition arrays_get_child (a : Arrays) (branch : Z) : outcome (option nat) :=
  _ ← validate_branch branch;
  i ← child_index (tagged a) (is_branch a) branch;
  match i with None => Ok None | Some i => get_child_at_index (tagged a) i end.

Definition arrays_set_child (a : Arrays) (branch : Z) (child : option nat) : outcome Arrays :=
  _ ← validate_branch branch;
  let src := is_branch a in
  let dst := match child with Some _ => with_branch src branch | None => without_branch src branch end in
  t ← rebuild (tagged a) src dst (count_ones dst);
  match child with
  | None => Ok (mkArrays dst t)
  | Some c =>
      i ← child_index t dst branch;
      n ← expect i;
      t ← set_hash_at_index t n 0;
      t ← set_child_at_index t n (Some c);
      Ok (mkArrays dst t)
  end.

Definition arrays_set_child_hash (a : Arrays) (branch h : Z) : outcome Arrays :=
  _ ← validate_branch branch;
  let src := is_branch a in
  let dst := if negb (h =? 0) then with_branch src branch else without_branch src branch in
  t ← rebuild (tagged a) src dst (count_ones dst);
  if negb (h =? 0) then
    i ← child_index t dst branch;
    n ← expect i;
    t ← set_hash_at_index t n h;
    Ok (mkArrays dst t)
  else Ok (mkArrays dst t).

Definition arrays_share_child (a : Arrays) (branch : Z) (child : nat) : outcome Arrays :=
  _ ← validate_branch branch;
  i ← child_index (tagged a) (is_branch a) branch;
  n ← expect i;
  t ← set_child_at_index (tagged a) n (Some child);
  Ok (mkArrays (is_branch a) t).

(** ** Bits *)

Lemma bit_testbit x b : 0 <= b -> bit x b = Z.testbit x b.
Proof.
  intros Hb. unfold bit. rewrite Z.shiftl_1_l. destruct (Z.testbit x b) eqn:E.
  - apply negb_true_iff, Z.eqb_neq. intros E0. apply (f_equal (fun z => Z.testbit z b)) in E0.
    by rewrite Z.land_spec, E, Z.pow2_bits_true, Z.bits_0 in E0 by done.
  - apply negb_false_iff, Z.eqb_eq. apply Z.bits_inj'. intros i Hi. rewrite Z.land_spec, Z.bits_0.
    destruct (decide (i = b)) as [->|Hne]; [by rewrite E|]. rewrite Z.pow2_bits_false by done. by rewrite andb_false_r.
Qed.

Lemma testbit_with x b i : 0 <= b -> 0 <= i -> Z.testbit (with_branch x b) i = Z.testbit x i || (i =? b).
Proof.
  intros Hb Hi. unfold with_branch. rewrite Z.lor_spec, Z.shiftl_1_l, Z.pow2_bits_eqb by done. by rewrite Z.eqb_sym.
Qed.

Lemma testbit_without x b i : 0 <= b -> 0 <= i -> Z.testbit (without_branch x b) i = Z.testbit x i && negb (i =? b).
Proof.
  intros Hb Hi. unfold without_branch. rewrite Z.ldiff_spec, Z.shiftl_1_l, Z.pow2_bits_eqb by done. by rewrite Z.eqb_sym.
Qed.

Lemma filter_ext_in {A} (P Q : A -> Prop) `{!forall x, Decision (P x), !forall x, Decision (Q x)} (l : list A) :
  (forall x, x ∈ l -> P x <-> Q x) -> filter P l = filter Q l.
Proof.
  induction l as [|x l IH]; intros Heq; [done|]. rewrite !filter_cons.
  rewrite IH by (intros; apply Heq; by right). specialize (Heq x ltac:(left)). repeat case_decide; tauto.
Qed.

Lemma seqZ_split b n : 0 <= b <= n -> seqZ 0 n = seqZ 0 b ++ seqZ b (n - b).
Proof. intros Hb. pose proof (seqZ_app 0 b (n - b) ltac:(lia) ltac:(lia)) as E. by replace (b + (n - b)) with n in E by lia. Qed.

(** The present branches below [b]. *)
Lemma rank_eq x b : 0 <= b <= 16 ->
  rank x b = Z.of_nat (length (filter (fun i => Z.testbit x i = true) (seqZ 0 b))).
Proof.
  intros Hb. unfold rank, count_ones, branches, BRANCH_FACTOR. rewrite (seqZ_split b 16), filter_app, length_app by lia.
  rewrite Z.shiftl_1_l. replace (2 ^ b - 1) with (Z.ones b) by (rewrite Z.ones_equiv; lia).
  rewrite (filter_ext_in _ (fun i => Z.testbit x i = true) (seqZ 0 b)).
  2:{ intros i Hi%elem_of_seqZ. rewrite Z.land_spec, Z.ones_spec_low by lia. by rewrite andb_true_r. }
  rewrite (filter_ext_in _ (fun _ => False) (seqZ b (16 - b))).
  2:{ intros i Hi%elem_of_seqZ. rewrite Z.land_spec, Z.ones_spec_high by lia. by rewrite andb_false_r. }
  assert (forall l : list Z, filter (fun _ => False) l = []) as ->
    by (intros l; induction l as [|y l IH]; [done|]; rewrite filter_cons_False; [exact IH|tauto]).
  simpl. lia.
Qed.

Lemma rank_step x b b' : 0 <= b < b' -> b' <= 16 -> Z.testbit x b = true -> rank x b < rank x b'.
Proof.
  intros Hb Hb' Hx. rewrite !rank_eq by lia. rewrite (seqZ_split b b'), filter_app, length_app by lia.
  rewrite (seqZ_cons b (b' - b)) by lia. rewrite filter_cons_True by done. cbn [length]. lia.
Qed.

Lemma count_ones_rank x : count_ones x = rank x 16.
Proof. by rewrite rank_eq by lia. Qed.

Lemma rank_nonneg x b : 0 <= rank x b.
Proof. unfold rank, count_ones. lia. Qed.

Lemma count_ones_le x : count_ones x <= 16.
Proof. unfold count_ones. pose proof (length_filter (fun b => Z.testbit x b = true) branches) as H.
  change (length branches) with 16%nat in H. lia. Qed.

(** ** Arrays as maps *)

(** Where a present branch is. *)
Definition index (t : TaggedPointer) (x b : Z) : Z := if is_dense t then b else rank x b.

Definition slot (t : TaggedPointer) (i : Z) : option (Z * option nat) :=
  h ← tp_hashes t !! Z.to_nat i; c ← tp_children t !! Z.to_nat i; Some (h, c).

Definition sized (t : TaggedPointer) : Prop :=
  In (capacity t) TAGGED_POINTER_BOUNDARIES
  /\ length (tp_hashes t) = Z.to_nat (capacity t) /\ length (tp_children t) = Z.to_nat (capacity t).

Record holds_map (a : Arrays) (m : gmap Z Child) : Prop := mkHoldsMap {
  hm_sized : sized (tagged a);
  hm_bits : forall b, 0 <= b -> Z.testbit (is_branch a) b = true <-> is_Some (m !! b);
  hm_range : forall b, is_Some (m !! b) -> 0 <= b < 16;
  hm_fit : count_ones (is_branch a) <= capacity (tagged a);
  hm_slot : forall b cd, m !! b = Some cd ->
    slot (tagged a) (index (tagged a) (is_branch a) b) = Some (ch_hash cd, ch_node cd);
  hm_dense : is_dense (tagged a) = true ->
    forall b, 0 <= b < 16 -> m !! b = None -> slot (tagged a) b = Some (0, None) }.

Lemma sized_slot t i : sized t -> 0 <= i < capacity t -> is_Some (slot t i).
Proof.
  intros (_ & Hh & Hc) Hi. unfold slot.
  destruct (lookup_lt_is_Some_2 (tp_hashes t) (Z.to_nat i)) as [h ->]; [lia|].
  destruct (lookup_lt_is_Some_2 (tp_children t) (Z.to_nat i)) as [c ->]; [lia|]. by eexists.
Qed.

Lemma slot_Some t i h c : slot t i = Some (h, c) -> tp_hashes t !! Z.to_nat i = Some h /\ tp_children t !! Z.to_nat i = Some c.
Proof. unfold slot. intros H. destruct (tp_hashes t !! _); [|done]. cbn in H. destruct (tp_children t !! _); [|done]. cbn in H. by simplify_eq. Qed.

Lemma validate_branch_ok b : 0 <= b < 16 -> validate_branch b = Ok tt.
Proof. intros Hb. unfold validate_branch, BRANCH_FACTOR. by rewrite (proj2 (Z.leb_le 0 b)), (proj2 (Z.ltb_lt b 16)) by lia. Qed.

(** The index of a present branch, and that it is in the arrays. *)
Lemma child_index_present t x b :
  0 <= b < 16 -> Z.testbit x b = true -> child_index t x b = Ok (Some (index t x b)).
Proof.
  intros Hb Hx. unfold child_index, index. rewrite validate_branch_ok by done. cbn.
  destruct (is_dense t); [done|]. by rewrite bit_testbit, Hx by lia.
Qed.

Lemma index_range t x b :
  0 <= b < 16 -> Z.testbit x b = true -> count_ones x <= capacity t -> 0 <= index t x b < capacity t.
Proof.
  intros Hb Hx Hfit. unfold index, is_dense, BRANCH_FACTOR. destruct (Z.eqb_spec (capacity t) 16) as [->|]; [done|].
  pose proof (rank_step x b 16 ltac:(lia) ltac:(lia) Hx) as H. rewrite <- count_ones_rank in H.
  pose proof (rank_nonneg x b). lia.
Qed.

Lemma index_inj t x b b' :
  0 <= b < 16 -> 0 <= b' < 16 -> Z.testbit x b = true -> Z.testbit x b' = true -> index t x b = index t x b' -> b = b'.
Proof.
  intros Hb Hb' Hx Hx'. unfold index. destruct (is_dense t); [done|]. intros E.
  destruct (Z.lt_trichotomy b b') as [H|[H|H]]; [|done|].
  - pose proof (rank_step x b b' ltac:(lia) ltac:(lia) Hx). lia.
  - pose proof (rank_step x b' b ltac:(lia) ltac:(lia) Hx'). lia.
Qed.

(** Writing both arrays of one slot. *)
Definition set_slot (t : TaggedPointer) (i h : Z) (c : option nat) : outcome TaggedPointer :=
  t ← set_hash_at_index t i h; set_child_at_index t i c.

Lemma set_slot_ok t i h c :
  sized t -> 0 <= i < capacity t ->
  exists t', set_slot t i h c = Ok t' /\ sized t' /\ capacity t' = capacity t
    /\ slot t' i = Some (h, c) /\ forall j, 0 <= j -> j <> i -> slot t' j = slot t j.
Proof.
  intros (Hcap & Hh & Hc) Hi. unfold set_slot, set_hash_at_index. rewrite (proj2 (Z.ltb_lt i _)) by lia. cbn.
  unfold set_child_at_index, capacity. cbn [tp_tag]. change (default 0 (TAGGED_POINTER_BOUNDARIES !! tp_tag t)) with (capacity t).
  rewrite (proj2 (Z.ltb_lt i _)) by lia. eexists. split; [reflexivity|]. cbn [tp_hashes tp_children tp_tag].
  split_and!; [|done| |].
  - split; [done|]. cbn [tp_hashes tp_children]. rewrite !length_insert. done.
  - unfold slot. cbn [tp_hashes tp_children]. rewrite !list_lookup_insert_eq by lia. done.
  - intros j Hj Hne. unfold slot. cbn [tp_hashes tp_children]. rewrite !list_lookup_insert_ne by lia. done.
Qed.

(** ** Allocation and resizing *)

Lemma boundaries_find n : n <= 16 ->
  exists i c, list_find (fun c => n <= c) TAGGED_POINTER_BOUNDARIES = Some (i, c)
    /\ TAGGED_POINTER_BOUNDARIES !! i = Some c /\ n <= c.
Proof.
  intros Hn. destruct (list_find (fun c => n <= c) TAGGED_POINTER_BOUNDARIES) as [[i c]|] eqn:E.
  - apply list_find_Some in E as (Ei & Hc & _). eauto.
  - apply list_find_None in E. exfalso. do 3 apply Forall_cons in E as [_ E]. apply Forall_cons in E as [E _]. lia.
Qed.

Lemma tagged_new_ok n : n <= 16 ->
  exists t, tagged_new n = Ok t /\ sized t /\ n <= capacity t
    /\ capacity_for_children n = Ok (capacity t)
    /\ forall i, 0 <= i < capacity t -> slot t i = Some (0, None).
Proof.
  intros Hn. destruct (boundaries_find n Hn) as (i & c & E & Ei & Hc).
  unfold tagged_new, boundary_index, capacity_for_children. rewrite E. cbn [fmap option_fmap option_map fst snd expect mbind outcome_bind].
  eexists. split; [reflexivity|]. unfold sized, capacity. cbn [tp_tag tp_hashes tp_children]. rewrite Ei. cbn [default from_option id].
  rewrite !length_replicate. split_and!; try done.
  - apply list_elem_of_In. by eapply list_elem_of_lookup_2.
  - intros j Hj. unfold slot. cbn [tp_hashes tp_children]. rewrite !lookup_replicate_2 by lia. done.
Qed.

(** What a branch of a map holds, empty for an absent one. *)
Definition held (m : gmap Z Child) (b : Z) : Z * option nat :=
  match m !! b with Some cd => (ch_hash cd, ch_node cd) | None => (0, None) end.

(** The loop of [rebuild], with the branches moved so far. *)
Definition moved (m : gmap Z Child) (dst : Z) (t0 : TaggedPointer) (seen : list Z) (t : TaggedPointer) : Prop :=
  sized t /\ capacity t = capacity t0
  /\ (forall b, 0 <= b < 16 -> Z.testbit dst b = true ->
        slot t (index t dst b) = Some (if decide (b ∈ seen) then held m b else (0, None)))
  /\ (is_dense t = true -> forall b, 0 <= b < 16 -> Z.testbit dst b = false -> slot t b = Some (0, None)).

Lemma index_capacity t t' x b : capacity t = capacity t' -> index t x b = index t' x b.
Proof. intros E. unfold index, is_dense. by rewrite E. Qed.

Lemma moved_skip m dst t0 seen b t :
  (0 <= b < 16 -> Z.testbit dst b = true -> held m b = (0, None)) -> b ∉ seen ->
  moved m dst t0 seen t -> moved m dst t0 (seen ++ [b]) t.
Proof.
  intros Hb Hn (Hs & Hc & Hslot & Hd). split_and!; [done|done| |done]. intros b' Hb' Hx. rewrite Hslot by done. f_equal.
  destruct (decide (b' = b)) as [->|Hne].
  - rewrite decide_False by done. rewrite decide_True by set_solver. by rewrite Hb.
  - destruct (decide (b' ∈ seen)); [rewrite decide_True by set_solver|rewrite decide_False by set_solver]; done.
Qed.

Lemma move_branch_ok a m dst t0 seen b t :
  holds_map a m -> 0 <= b < 16 -> b ∉ seen -> count_ones dst <= capacity t0 -> moved m dst t0 seen t ->
  exists t', move_branch (tagged a) (is_branch a) dst t b = Ok t' /\ moved m dst t0 (seen ++ [b]) t'.
Proof.
  intros Ha Hb Hn Hfit Hm. unfold move_branch. rewrite !bit_testbit by lia.
  destruct (Z.testbit dst b) eqn:Ed; cbn [negb]; [|exists t; split; [done|]; apply moved_skip; [congruence|done|done]].
  rewrite child_index_present by done. cbn [mbind outcome_bind].
  destruct (Z.testbit (is_branch a) b) eqn:Es; cbn [negb].
  2:{ exists t. split; [done|]. apply moved_skip; [|done|done]. intros _ _. unfold held.
      destruct (m !! b) eqn:Em; [|done]. assert (Z.testbit (is_branch a) b = true) by (apply (hm_bits _ _ Ha); [lia|eauto]). congruence. }
  destruct (proj1 (hm_bits _ _ Ha b ltac:(lia)) Es) as [cd Ecd].
  pose proof (hm_slot _ _ Ha b cd Ecd) as Hsl. apply slot_Some in Hsl as [Eh Ec].
  unfold index in Eh, Ec. rewrite Eh, Ec. cbn [expect mbind outcome_bind].
  destruct Hm as (Hs & Hc & Hslot & Hd).
  assert ((if is_dense t then b else index t dst b) = index t dst b) as -> by (unfold index; by destruct (is_dense t)).
  destruct (set_slot_ok t (index t dst b) (ch_hash cd) (ch_node cd) Hs) as (t' & E & Hs' & Hc' & Hnew & Hold);
    [apply index_range; [done|done|lia]|].
  unfold set_slot in E. exists t'. split; [exact E|]. split_and!; [done|congruence| |].
  - intros b' Hb' Hx. rewrite (index_capacity t' t) by done. destruct (decide (b' = b)) as [->|Hne].
    + rewrite Hnew, decide_True by set_solver. unfold held. by rewrite Ecd.
    + rewrite Hold; [|apply index_range; [done|done|lia]|intros Ei; apply Hne; by eapply index_inj].
      rewrite Hslot by done. f_equal.
      destruct (decide (b' ∈ seen)); [rewrite decide_True by set_solver|rewrite decide_False by set_solver]; done.
  - intros Hd' b' Hb' Hx. assert (is_dense t = true) as Hdt by (unfold is_dense in *; congruence).
    rewrite Hold; [by apply Hd|lia|]. unfold index. rewrite Hdt. congruence.
Qed.

Lemma rebuild_ok a m dst m' :
  holds_map a m ->
  (forall b, 16 <= b -> Z.testbit dst b = false) ->
  (forall b, m' !! b = if decide (0 <= b /\ Z.testbit dst b = true) then Some (default (mkChild 0 None) (m !! b)) else None) ->
  exists t, rebuild (tagged a) (is_branch a) dst (count_ones dst) = Ok t /\ holds_map (mkArrays dst t) m'.
Proof.
  intros Ha Hhigh Hm'. destruct (tagged_new_ok (count_ones dst) (count_ones_le dst)) as (t0 & E0 & Hs0 & Hfit & Ecap & Hz).
  unfold rebuild. rewrite Ecap. cbn [mbind outcome_bind].
  destruct ((capacity t0 =? capacity (tagged a)) && (is_branch a =? dst)) eqn:Esame.
  { apply andb_true_iff in Esame as [_ Esame%Z.eqb_eq]. exists (tagged a). split; [done|].
    assert (m' = m) as ->; [|rewrite <- Esame; by destruct a].
    apply map_eq. intros b. rewrite Hm'. destruct (m !! b) as [cd|] eqn:Eb; cbn.
    - pose proof (hm_range _ _ Ha b ltac:(eauto)). rewrite decide_True; [done|]. split; [lia|].
      rewrite <- Esame. apply (hm_bits _ _ Ha); [lia|eauto].
    - rewrite decide_False; [done|]. intros [Hb Hx]. rewrite <- Esame in Hx. apply (hm_bits _ _ Ha) in Hx as [? ?]; [congruence|done]. }
  rewrite E0. cbn [mbind outcome_bind].
  destruct (foldM_prefix (moved m dst t0) (move_branch (tagged a) (is_branch a) dst) branches t0) as (t & E & Hs & Hc & Hslot & Hd).
  { intros seen b rest t Hl Hm. pose proof (NoDup_seqZ 0 BRANCH_FACTOR) as Hnd. fold branches in Hnd.
    assert (b ∈ branches) as Hb by (rewrite Hl; set_solver). rewrite Hl in Hnd. apply NoDup_app in Hnd as (_ & Hnd & _).
    apply elem_of_seqZ in Hb. apply (move_branch_ok a m); [done|unfold BRANCH_FACTOR in Hb; lia| |done|done].
    intros Hin. apply (Hnd b Hin). by left. }
  { split_and!; [done|done| |].
    - intros b Hb Hx. rewrite Hz; [by rewrite decide_False by (apply not_elem_of_nil)|]. apply index_range; [done|done|lia].
    - intros Hdense b Hb _. apply Hz. unfold is_dense, BRANCH_FACTOR in Hdense. apply Z.eqb_eq in Hdense. lia. }
  exists t. split; [done|]. constructor; cbn [is_branch tagged]; try done.
  - intros b Hb. rewrite Hm'. case_decide as Hx; [split; [by eexists|by intros _; apply Hx]|].
    split; [tauto|by intros [? ?]].
  - intros b. rewrite Hm'. case_decide as Hx; [|by intros [? ?]]. intros _. destruct (Z.lt_ge_cases b 16); [lia|].
    rewrite Hhigh in Hx by lia. by destruct Hx.
  - lia.
  - intros b cd Eb. rewrite Hm' in Eb. case_decide as Hx; [|done]. injection Eb as <-.
    assert (b < 16) by (destruct (Z.lt_ge_cases b 16); [done|]; rewrite Hhigh in Hx by lia; by destruct Hx).
    rewrite Hslot by (lia || apply Hx). rewrite decide_True by (apply elem_of_seqZ; unfold BRANCH_FACTOR; lia).
    unfold held. by destruct (m !! b).
  - intros Hdense b Hb Eb. apply Hd; [done|done|]. rewrite Hm' in Eb. case_decide as Hx; [done|].
    destruct (Z.testbit dst b); [|done]. exfalso. apply Hx. split; [lia|done].
Qed.

(** ** The operations *)

Lemma holds_map_write a m b cd0 h c :
  holds_map a m -> m !! b = Some cd0 ->
  exists t, set_slot (tagged a) (index (tagged a) (is_branch a) b) h c = Ok t
    /\ holds_map (mkArrays (is_branch a) t) (<[b := mkChild h c]> m).
Proof.
  intros Ha Eb. pose proof (hm_range _ _ Ha b ltac:(eauto)) as Hb.
  assert (Z.testbit (is_branch a) b = true) as Hx by (apply (hm_bits _ _ Ha); [lia|eauto]).
  destruct (set_slot_ok (tagged a) (index (tagged a) (is_branch a) b) h c (hm_sized _ _ Ha))
    as (t & E & Hs & Hc & Hnew & Hold); [apply index_range; [done|done|apply Ha]|].
  exists t. split; [done|]. constructor; cbn [is_branch tagged]; try done.
  - intros b' Hb'. rewrite lookup_insert_is_Some. rewrite (hm_bits _ _ Ha) by done.
    destruct (decide (b = b')) as [<-|]; [|tauto]. split; [by left|intros _; eauto].
  - intros b'. rewrite lookup_insert_is_Some. intros [<-|[_ ?]]; [done|]. by apply (hm_range _ _ Ha).
  - rewrite Hc. apply Ha.
  - intros b' cd Eb'. rewrite (index_capacity t (tagged a)) by done. destruct (decide (b' = b)) as [->|Hne].
    + rewrite lookup_insert_eq in Eb'. injection Eb' as <-. exact Hnew.
    + rewrite lookup_insert_ne in Eb' by done. pose proof (hm_range _ _ Ha b' ltac:(eauto)) as Hb'.
      assert (Z.testbit (is_branch a) b' = true) as Hx' by (apply (hm_bits _ _ Ha); [lia|eauto]).
      rewrite Hold; [by apply (hm_slot _ _ Ha)|apply index_range; [done|done|apply Ha]|].
      intros Ei. apply Hne. by eapply index_inj.
  - intros Hd b' Hb' Eb'. assert (is_dense (tagged a) = true) as Hda by (unfold is_dense in *; congruence).
    assert (b' <> b) by (intros ->; by rewrite lookup_insert_eq in Eb').
    rewrite lookup_insert_ne in Eb' by done. rewrite Hold; [by apply (hm_dense _ _ Ha)|lia|].
    unfold index. by rewrite Hda.
Qed.

(** Writing one array of a slot. *)
Lemma set_child_slot t i h c c' : sized t -> 0 <= i < capacity t -> slot t i = Some (h, c) ->
  set_child_at_index t i c' = set_slot t i h c'.
Proof.
  intros Hs Hi [Eh Ec]%slot_Some. unfold set_slot, set_hash_at_index. rewrite (proj2 (Z.ltb_lt i _)) by lia.
  cbn [mbind outcome_bind]. rewrite list_insert_id by done. by destruct t.
Qed.

Lemma set_hash_slot t i h c h' : sized t -> 0 <= i < capacity t -> slot t i = Some (h, c) ->
  set_hash_at_index t i h' = set_slot t i h' c.
Proof.
  intros Hs Hi [Eh Ec]%slot_Some. unfold set_slot, set_hash_at_index. rewrite (proj2 (Z.ltb_lt i _)) by lia.
  cbn [mbind outcome_bind]. unfold set_child_at_index, capacity. cbn [tp_tag].
  change (default 0 (TAGGED_POINTER_BOUNDARIES !! tp_tag t)) with (capacity t).
  rewrite (proj2 (Z.ltb_lt i _)) by lia. cbn [tp_children tp_hashes]. by rewrite (list_insert_id (tp_children t)).
Qed.

Lemma holds_map_index a m b cd :
  holds_map a m -> m !! b = Some cd ->
  child_index (tagged a) (is_branch a) b = Ok (Some (index (tagged a) (is_branch a) b))
  /\ 0 <= index (tagged a) (is_branch a) b < capacity (tagged a).
Proof.
  intros Ha Eb. pose proof (hm_range _ _ Ha b ltac:(eauto)) as Hb.
  assert (Z.testbit (is_branch a) b = true) as Hx by (apply (hm_bits _ _ Ha); [lia|eauto]).
  split; [by apply child_index_present|]. apply index_range; [done|done|apply Ha].
Qed.

(** An absent branch has no index, or an empty slot. *)
Lemma holds_map_absent a m b :
  holds_map a m -> 0 <= b < 16 -> m !! b = None ->
  child_index (tagged a) (is_branch a) b = Ok None
  \/ (child_index (tagged a) (is_branch a) b = Ok (Some b) /\ b < capacity (tagged a) /\ slot (tagged a) b = Some (0, None)).
Proof.
  intros Ha Hb Eb. unfold child_index. rewrite validate_branch_ok by done. cbn [mbind outcome_bind].
  destruct (is_dense (tagged a)) eqn:Hd.
  - right. split; [done|]. split; [|by apply (hm_dense _ _ Ha)].
    unfold is_dense, BRANCH_FACTOR in Hd. apply Z.eqb_eq in Hd. lia.
  - left. rewrite bit_testbit by lia. destruct (Z.testbit (is_branch a) b) eqn:Hx; [|done].
    apply (hm_bits _ _ Ha) in Hx as [? ?]; [congruence|lia].
Qed.

Lemma testbit_high_word a m b : holds_map a m -> 16 <= b -> Z.testbit (is_branch a) b = false.
Proof.
  intros Ha Hb. destruct (Z.testbit (is_branch a) b) eqn:E; [|done].
  apply (hm_bits _ _ Ha) in E; [|lia]. apply (hm_range _ _ Ha) in E. lia.
Qed.

(** The two results of [rebuild] that the operations use. *)
Lemma rebuild_with a m b :
  holds_map a m -> 0 <= b < 16 ->
  exists t, rebuild (tagged a) (is_branch a) (with_branch (is_branch a) b) (count_ones (with_branch (is_branch a) b)) = Ok t
    /\ holds_map (mkArrays (with_branch (is_branch a) b) t) (<[b := default (mkChild 0 None) (m !! b)]> m).
Proof.
  intros Ha Hb. apply (rebuild_ok a m); [done| |].
  - intros i Hi. rewrite testbit_with by lia. rewrite (testbit_high_word _ _ _ Ha) by done. apply Z.eqb_neq. lia.
  - intros i. destruct (decide (i = b)) as [->|Hne].
    + rewrite lookup_insert_eq, decide_True; [done|]. split; [lia|]. rewrite testbit_with by lia.
      by rewrite Z.eqb_refl, orb_true_r.
    + rewrite lookup_insert_ne by done. case_decide as Hx.
      * destruct Hx as [Hi Hx]. rewrite testbit_with in Hx by lia. rewrite (proj2 (Z.eqb_neq i b)), orb_false_r in Hx by done.
        apply (hm_bits _ _ Ha) in Hx as [cd ->]; done.
      * destruct (m !! i) as [cd|] eqn:E; [|done]. exfalso. apply Hx. pose proof (hm_range _ _ Ha i ltac:(eauto)).
        split; [lia|]. rewrite testbit_with by lia. rewrite (proj2 (hm_bits _ _ Ha i ltac:(lia))); [done|eauto].
Qed.

Lemma rebuild_without a m b :
  holds_map a m -> 0 <= b < 16 ->
  exists t, rebuild (tagged a) (is_branch a) (without_branch (is_branch a) b) (count_ones (without_branch (is_branch a) b)) = Ok t
    /\ holds_map (mkArrays (without_branch (is_branch a) b) t) (delete b m).
Proof.
  intros Ha Hb. apply (rebuild_ok a m); [done| |].
  - intros i Hi. rewrite testbit_without by lia. by rewrite (testbit_high_word _ _ _ Ha).
  - intros i. destruct (decide (i = b)) as [->|Hne].
    + rewrite lookup_delete_eq, decide_False; [done|]. intros [_ Hx]. rewrite testbit_without in Hx by lia.
      by rewrite Z.eqb_refl, andb_false_r in Hx.
    + rewrite lookup_delete_ne by done. case_decide as Hx.
      * destruct Hx as [Hi Hx]. rewrite testbit_without in Hx by lia. apply andb_true_iff in Hx as [Hx _].
        apply (hm_bits _ _ Ha) in Hx as [cd ->]; done.
      * destruct (m !! i) as [cd|] eqn:E; [|done]. exfalso. apply Hx. pose proof (hm_range _ _ Ha i ltac:(eauto)).
        split; [lia|]. rewrite testbit_without by lia.
        rewrite (proj2 (hm_bits _ _ Ha i ltac:(lia))), (proj2 (Z.eqb_neq i b)); [done|done|eauto].
Qed.

Lemma arrays_read a m b :
  holds_map a m -> 0 <= b < 16 ->
  arrays_get_hash a b = Ok (fst (held m b)) /\ arrays_get_child a b = Ok (snd (held m b)).
Proof.
  intros Ha Hb. unfold arrays_get_hash, arrays_get_child, tp_get_hash, get_child_at_index, held.
  rewrite validate_branch_ok by done. cbn [mbind outcome_bind]. destruct (m !! b) as [cd|] eqn:Eb.
  - destruct (holds_map_index a m b cd Ha Eb) as [-> Hi]. cbn [mbind outcome_bind].
    pose proof (hm_slot _ _ Ha b cd Eb) as Hs. apply slot_Some in Hs as [-> ->].
    rewrite (proj2 (Z.ltb_lt _ _)) by apply Hi. done.
  - destruct (holds_map_absent a m b Ha Hb Eb) as [->|(-> & Hlt & Hs)]; [done|]. cbn [mbind outcome_bind].
    apply slot_Some in Hs as [-> ->]. by rewrite (proj2 (Z.ltb_lt _ _)).
Qed.

Lemma arrays_set_child_ok a m b o :
  holds_map a m -> 0 <= b < 16 ->
  exists a', arrays_set_child a b o = Ok a'
    /\ holds_map a' (match o with Some x => <[b := mkChild 0 (Some x)]> m | None => delete b m end).
Proof.
  intros Ha Hb. unfold arrays_set_child. rewrite validate_branch_ok by done. cbn [mbind outcome_bind].
  destruct o as [x|].
  - destruct (rebuild_with a m b Ha Hb) as (t & -> & Ht). cbn [mbind outcome_bind].
    assert (<[b := default (mkChild 0 None) (m !! b)]> m !! b = Some (default (mkChild 0 None) (m !! b))) as Eb
      by (by rewrite lookup_insert_eq).
    destruct (holds_map_index _ _ _ _ Ht Eb) as [Ei _]. cbn [tagged is_branch] in Ei. rewrite Ei. cbn [mbind outcome_bind expect].
    destruct (holds_map_write _ _ _ _ 0 (Some x) Ht Eb) as (t' & E & Ht'). cbn [tagged is_branch] in E, Ht'.
    unfold set_slot in E. apply bind_Ok in E as (t1 & E1 & E2). rewrite E1. cbn [mbind outcome_bind]. rewrite E2. cbn [mbind outcome_bind].
    eexists. split; [done|]. by rewrite insert_insert_eq in Ht'.
  - destruct (rebuild_without a m b Ha Hb) as (t & -> & Ht). by eexists.
Qed.

Lemma arrays_set_child_hash_ok a m b h :
  holds_map a m -> 0 <= b < 16 ->
  exists a', arrays_set_child_hash a b h = Ok a'
    /\ holds_map a' (if h =? 0 then delete b m else <[b := mkChild h (snd (held m b))]> m).
Proof.
  intros Ha Hb. unfold arrays_set_child_hash. rewrite validate_branch_ok by done. cbn [mbind outcome_bind].
  destruct (Z.eqb_spec h 0) as [->|Hh]; cbn [negb].
  - destruct (rebuild_without a m b Ha Hb) as (t & -> & Ht). by eexists.
  - destruct (rebuild_with a m b Ha Hb) as (t & -> & Ht). cbn [mbind outcome_bind].
    set (cd := default (mkChild 0 None) (m !! b)) in *.
    assert (<[b := cd]> m !! b = Some cd) as Eb by (by rewrite lookup_insert_eq).
    destruct (holds_map_index _ _ _ _ Ht Eb) as [Ei Hi]. cbn [tagged is_branch] in Ei, Hi. rewrite Ei. cbn [mbind outcome_bind expect].
    pose proof (hm_slot _ _ Ht b cd Eb) as Hs. cbn [tagged is_branch] in Hs.
    rewrite (set_hash_slot t _ _ _ h (hm_sized _ _ Ht) Hi Hs).
    destruct (holds_map_write _ _ _ _ h (ch_node cd) Ht Eb) as (t' & E & Ht'). cbn [tagged is_branch] in E, Ht'.
    rewrite E. cbn [mbind outcome_bind]. eexists. split; [done|]. rewrite insert_insert_eq in Ht'.
    replace (snd (held m b)) with (ch_node cd); [done|]. unfold cd, held. by destruct (m !! b).
Qed.

Lemma arrays_share_child_ok a m b cd x :
  holds_map a m -> m !! b = Some cd ->
  exists a', arrays_share_child a b x = Ok a' /\ holds_map a' (<[b := mkChild (ch_hash cd) (Some x)]> m).
Proof.
  intros Ha Eb. unfold arrays_share_child. rewrite validate_branch_ok by (apply (hm_range _ _ Ha); eauto). cbn [mbind outcome_bind].
  destruct (holds_map_index a m b cd Ha Eb) as [-> Hi]. cbn [mbind outcome_bind expect].
  rewrite (set_child_slot _ _ _ _ (Some x) (hm_sized _ _ Ha) Hi (hm_slot _ _ Ha b cd Eb)).
  destruct (holds_map_write _ _ _ _ (ch_hash cd) (Some x) Ha Eb) as (t & -> & Ht). by eexists.
Qed.

(** The branches present are as many as the bits. *)
Lemma arrays_count a m : holds_map a m -> count_ones (is_branch a) = Z.of_nat (size m).
Proof.
  intros Ha. unfold count_ones. f_equal. rewrite <- (size_dom (D := gset Z)).
  rewrite <- (size_list_to_set (C := gset Z)) by (apply NoDup_filter, NoDup_seqZ). f_equal. apply set_eq. intros b.
  rewrite elem_of_list_to_set, elem_of_dom, list_elem_of_filter. unfold branches, BRANCH_FACTOR. rewrite elem_of_seqZ. split.
  - intros [Hx Hb]. apply (hm_bits _ _ Ha); [lia|done].
  - intros Hs. pose proof (hm_range _ _ Ha b Hs). split; [|lia]. apply (hm_bits _ _ Ha); [lia|done].
Qed.

Lemma rank_succ x b : 0 <= b < 16 -> rank x (b + 1) = rank x b + (if Z.testbit x b then 1 else 0).
Proof.
  intros Hb. rewrite !rank_eq by lia. rewrite (seqZ_split b (b + 1)), filter_app, length_app by lia.
  replace (b + 1 - b) with 1 by lia. rewrite (seqZ_cons b 1) by lia. change (seqZ (Z.succ b) (Z.pred 1)) with (@nil Z). rewrite filter_cons, filter_nil.
  destruct (Z.testbit x b); [rewrite decide_True by done|rewrite decide_False by done]; cbn [length]; lia.
Qed.

Lemma branches_prefix seen b rest : branches = seen ++ b :: rest -> seen = seqZ 0 b /\ 0 <= b < 16.
Proof.
  intros E. assert (branches !! length seen = Some b) as Eb by (rewrite E; apply list_lookup_middle; done).
  apply lookup_seqZ in Eb as [Eb Hlt]. unfold BRANCH_FACTOR in Hlt. split; [|lia].
  apply (f_equal (take (length seen))) in E. rewrite take_app_length in E. rewrite <- E.
  unfold branches, BRANCH_FACTOR. rewrite (seqZ_split b 16), take_app_length' by (rewrite ?length_seqZ; lia). done.
Qed.

Lemma iter_children_ok a m :
  holds_map a m -> iter_children (tagged a) (is_branch a) = Ok ((fun b => fst (held m b)) <$> branches).
Proof.
  intros Ha. unfold iter_children. destruct (is_dense (tagged a)) eqn:Hd.
  - edestruct (foldM_prefix (fun seen acc => acc = (fun b => fst (held m b)) <$> seen)) as (acc & E & ->); [| |exact E]; [|done].
    intros seen b rest acc Hl ->. destruct (branches_prefix _ _ _ Hl) as [_ Hb].
    assert (slot (tagged a) b = Some (held m b)) as Hs.
    { unfold held. destruct (m !! b) as [cd|] eqn:Eb; [|by apply (hm_dense _ _ Ha)].
      pose proof (hm_slot _ _ Ha b cd Eb) as Hs. unfold index in Hs. by rewrite Hd in Hs. }
    destruct (held m b) as [h c] eqn:Eh. apply slot_Some in Hs as [-> _]. eexists. split; [done|]. rewrite fmap_app. cbn. by rewrite Eh.
  - edestruct (foldM_prefix (fun seen (r : list Z * Z) => r = ((fun b => fst (held m b)) <$> seen, rank (is_branch a) (Z.of_nat (length seen)))))
      as (r & E & ->); [| |rewrite E; done]; [|change (Z.of_nat (length [])) with 0; by rewrite rank_eq by lia].
    intros seen b rest r Hl ->. destruct (branches_prefix _ _ _ Hl) as [-> Hb].
    rewrite !length_app, length_seqZ, bit_testbit by lia. cbn [length].
    replace (Z.of_nat (Z.to_nat b + 1)) with (b + 1) by lia. replace (Z.of_nat (Z.to_nat b)) with b by lia.
    rewrite rank_succ, fmap_app by done. unfold held. destruct (Z.testbit (is_branch a) b) eqn:Hx.
    + pose proof (proj1 (hm_bits _ _ Ha b ltac:(lia)) Hx) as [cd Eb]. pose proof (hm_slot _ _ Ha b cd Eb) as Hs.
      unfold index in Hs. rewrite Hd in Hs. apply slot_Some in Hs as [-> _]. cbn. rewrite Eb. by eexists.
    + rewrite Z.add_0_r. eexists. split; [done|]. cbn. destruct (m !! b) as [cd|] eqn:Eb; [|done].
      assert (Z.testbit (is_branch a) b = true) by (apply (hm_bits _ _ Ha); [lia|eauto]). congruence.
Qed.

(** the packed arrays of an inner node are a map from branches to hash and child. In
    every state reached by the operations, reading a branch gives the map's hash and
    child (zero and none for an absent branch), setting a child or a hash, sharing a
    child and removing a branch act on the map and leave valid arrays, the number of
    bits is the size of the map, and the sixteen hashes are visited in order; no index
    ever leaves the arrays, packed or not. *)
Theorem arrays_refine_map a m b h x o :
  holds_map a m -> 0 <= b < 16 ->
  arrays_get_hash a b = Ok (fst (held m b)) /\ arrays_get_child a b = Ok (snd (held m b))
  /\ (exists a', arrays_set_child a b o = Ok a'
        /\ holds_map a' (match o with Some x => <[b := mkChild 0 (Some x)]> m | None => delete b m end))
  /\ (exists a', arrays_set_child_hash a b h = Ok a'
        /\ holds_map a' (if h =? 0 then delete b m else <[b := mkChild h (snd (held m b))]> m))
  /\ (is_Some (m !! b) -> exists a', arrays_share_child a b x = Ok a'
        /\ holds_map a' (<[b := mkChild (fst (held m b)) (Some x)]> m))
  /\ count_ones (is_branch a) = Z.of_nat (size m)
  /\ iter_children (tagged a) (is_branch a) = Ok ((fun b => fst (held m b)) <$> branches).
Proof.
  intros Ha Hb. destruct (arrays_read a m b Ha Hb) as [H1 H2]. split_and!; try done.
  - by apply arrays_set_child_ok.
  - by apply arrays_set_child_hash_ok.
  - intros [cd Eb]. unfold held. rewrite Eb. by apply arrays_share_child_ok.
  - by apply arrays_count.
  - by apply iter_children_ok.
Qed.

(** The arrays of a new node. *)
Lemma arrays_new_ok : exists a, arrays_new = Ok a /\ holds_map a ∅.
Proof.
  destruct (tagged_new_ok 0 ltac:(lia)) as (t & E & Hs & Hc & _ & Hz). unfold arrays_new. rewrite E. eexists. split; [done|].
  constructor; cbn [is_branch tagged]; try done.
  - intros b Hb. rewrite Z.bits_0, lookup_empty. split; [done|by intros [? ?]].
  - intros b [? ?]. by rewrite lookup_empty in *.
  - intros Hd b Hb _. apply Hz. unfold is_dense, BRANCH_FACTOR in Hd. apply Z.eqb_eq in Hd. lia.
Qed.

Definition demo_arrays : Arrays := mkArrays 5 (mkTagged 0 [11; 22] [None; Some 7%nat]).

Lemma demo_arrays_ok : holds_map demo_arrays {[0 := mkChild 11 None; 2 := mkChild 22 (Some 7%nat)]}.
Proof.
  destruct arrays_new_ok as (a0 & E0 & H0). vm_compute in E0. injection E0 as <-.
  destruct (arrays_set_child_hash_ok _ _ 0 11 H0) as (a1 & E1 & H1); [lia|]. vm_compute in E1. injection E1 as <-.
  destruct (arrays_set_child_hash_ok _ _ 2 22 H1) as (a2 & E2 & H2); [lia|]. vm_compute in E2. injection E2 as <-.
  destruct (arrays_share_child_ok _ _ 2 (mkChild 22 None) 7%nat H2) as (a3 & E3 & H3); [reflexivity|].
  vm_compute in E3. injection E3 as <-. unfold demo_arrays. vm_compute in H3 |- *. exact H3.
Qed.

Lemma arrays_refine_map_witness :
  exists a', arrays_set_child demo_arrays 1 (Some 9%nat) = Ok a'
    /\ holds_map a' (<[1 := mkChild 0 (Some 9%nat)]> {[0 := mkChild 11 None; 2 := mkChild 22 (Some 7%nat)]}).
Proof. apply (arrays_refine_map demo_arrays _ 1 0 9%nat (Some 9%nat) demo_arrays_ok). lia. Defined.
