(* ===== verification/ShaMapWire.v ===== *)
(** * SHAMap nodes as bytes

    The wire form and the hashed form of a node ([serialize_for_wire],
    [serialize_with_prefix], [make_from_wire], [make_from_prefix] of
    [xrpl/shamap/src/nodes/tree_node.rs]). A node read back has [cowid] zero, no loaded
    child, and the hash that was given or is computed. *)

From S2P Require Import Prelude Serializer ShaMapNodeId ShaMap.

(** ** Definitions *)

Definition WIRE_TYPE_TRANSACTION : Z := 0.
Definition WIRE_TYPE_ACCOUNT_STATE : Z := 1.
Definition WIRE_TYPE_INNER : Z := 2.
Definition WIRE_TYPE_COMPRESSED_INNER : Z := 3.
Definition WIRE_TYPE_TRANSACTION_WITH_META : Z := 4.

Inductive SHAMapCodecError :=
| ShortPrefixNode
| UnknownPrefixType (prefix : Z)
| UnknownWireType (ty : Z)
| InvalidFullInnerSize (len : nat)
| InvalidCompressedInnerSize (len : nat)
| InvalidCompressedInnerBranch (b : Z)
| ShortLeafNode (node_type : SHAMapNodeType) (len : nat)
| ShortTransactionWithMetaNode (len : nat)
| ShortAccountStateNode (len : nat)
| InvalidAccountStateNode
| EmptyInnerNodeSerialization.

(** The key follows the payload, except for a plain transaction. *)
Definition leaf_payload (t : SHAMapNodeType) (item : SHAMapItem) : list Z :=
  item_data item ++ (if bool_decide (t = TransactionNm) then [] else be_bytes 32 (item_key item)).

Definition serialize_leaf_for_wire (t : SHAMapNodeType) (item : SHAMapItem) : outcome (list Z) :=
  ty ← match t with
       | NtInner => Panic
       | TransactionNm => Ok WIRE_TYPE_TRANSACTION
       | TransactionMd => Ok WIRE_TYPE_TRANSACTION_WITH_META
       | AccountState => Ok WIRE_TYPE_ACCOUNT_STATE
       end;
  Ok (leaf_payload t item ++ [ty]).

Definition serialize_leaf_with_prefix (t : SHAMapNodeType) (item : SHAMapItem) : outcome (list Z) :=
  p ← match t with
      | NtInner => Panic
      | TransactionNm => Ok HASH_PREFIX_TRANSACTION_ID
      | TransactionMd => Ok HASH_PREFIX_TX_NODE
      | AccountState => Ok HASH_PREFIX_LEAF_NODE
      end;
  Ok (be_bytes 4 p ++ leaf_payload t item).

Definition hash_of (ch : gmap Z Child) (b : Z) : Z :=
  match ch !! b with Some c => ch_hash c | None => 0 end.

Definition all_hashes (ch : gmap Z Child) : list Z := concat ((fun b => be_bytes 32 (hash_of ch b)) <$> branches).

Definition serialize_inner_for_wire (ch : gmap Z Child) : list Z + SHAMapCodecError :=
  if bool_decide (ch = ∅) then inr EmptyInnerNodeSerialization
  else if (size ch <? 12)%nat then
    inl (concat ((fun b => be_bytes 32 (hash_of ch b) ++ [b]) <$> filter (fun b => is_Some (ch !! b)) branches)
         ++ [WIRE_TYPE_COMPRESSED_INNER])
  else inl (all_hashes ch ++ [WIRE_TYPE_INNER]).

Definition serialize_inner_with_prefix (ch : gmap Z Child) : list Z + SHAMapCodecError :=
  if bool_decide (ch = ∅) then inr EmptyInnerNodeSerialization
  else inl (be_bytes 4 HASH_PREFIX_INNER_NODE ++ all_hashes ch).

Definition serialize_for_wire (n : SHAMapTreeNode) : outcome (list Z + SHAMapCodecError) :=
  match node_body n with
  | Inner ch => Ok (serialize_inner_for_wire ch)
  | Leaf t item => bytes ← serialize_leaf_for_wire t item; Ok (inl bytes)
  end.

Definition serialize_with_prefix (n : SHAMapTreeNode) : outcome (list Z + SHAMapCodecError) :=
  match node_body n with
  | Inner ch => Ok (serialize_inner_with_prefix ch)
  | Leaf t item => bytes ← serialize_leaf_with_prefix t item; Ok (inl bytes)
  end.

(** [slice::chunks_exact] *)
Definition chunks_exact (n : nat) (l : list Z) : list (list Z) := reshape (replicate (length l / n) n) l.

Definition split_key (data : list Z) : list Z * Z :=
  (take (length data - 32) data, from_be (drop (length data - 32) data)).

(** A branch is present once it was given a hash; a later zero for it only erases the
    hash. *)
Definition put_hash (ch : gmap Z Child) (b h : Z) : gmap Z Child :=
  if negb (h =? 0) then <[b := mkChild h None]> ch else alter (fun _ => mkChild 0 None) b ch.

Section Codec.
Context (sha512_half : list Z -> Z).

Definition validate_leaf_payload (t : SHAMapNodeType) (data : list Z) : option SHAMapCodecError :=
  if Z.of_nat (length data) <? MIN_SHAMAP_ITEM_BYTES then Some (ShortLeafNode t (length data)) else None.

Definition make_leaf (t : SHAMapNodeType) (item : SHAMapItem) (known : option Z) : SHAMapTreeNode :=
  mkNode 0 (default (compute_leaf_hash sha512_half t item) known) (Leaf t item).

Definition make_transaction_node (data : list Z) (known : option Z) : SHAMapTreeNode + SHAMapCodecError :=
  match validate_leaf_payload TransactionNm data with
  | Some e => inr e
  | None =>
      inl (make_leaf TransactionNm (mkItem (sha512_half (be_bytes 4 HASH_PREFIX_TRANSACTION_ID ++ data)) data) known)
  end.

Definition make_transaction_with_meta_node (data : list Z) (known : option Z) : SHAMapTreeNode + SHAMapCodecError :=
  if (length data <? 32)%nat then inr (ShortTransactionWithMetaNode (length data))
  else
    let '(payload, key) := split_key data in
    match validate_leaf_payload TransactionMd payload with
    | Some e => inr e
    | None => inl (make_leaf TransactionMd (mkItem key payload) known)
    end.

Definition make_account_state_node (data : list Z) (known : option Z) : SHAMapTreeNode + SHAMapCodecError :=
  if (length data <? 32)%nat then inr (ShortAccountStateNode (length data))
  else
    let '(payload, key) := split_key data in
    match validate_leaf_payload AccountState payload with
    | Some e => inr e
    | None =>
        if key =? 0 then inr InvalidAccountStateNode
        else inl (make_leaf AccountState (mkItem key payload) known)
    end.

Definition make_inner (ch : gmap Z Child) (known : option Z) : SHAMapTreeNode :=
  mkNode 0 (default (compute_inner_hash sha512_half ch) known) (Inner ch).

Definition make_full_inner (data : list Z) (known : option Z) : SHAMapTreeNode + SHAMapCodecError :=
  if negb (length data =? 512)%nat then inr (InvalidFullInnerSize (length data))
  else
    let ch := foldl (fun ch '(b, chunk) => put_hash ch b (from_be chunk)) ∅ (zip branches (chunks_exact 32 data)) in
    inl (make_inner ch known).

(** The loop over the entries: a hash and its branch. *)
Fixpoint read_entries (ch : gmap Z Child) (entries : list (list Z)) : gmap Z Child + SHAMapCodecError :=
  match entries with
  | [] => inl ch
  | c :: entries =>
      let b := default 0 (c !! 32%nat) in
      if BRANCH_FACTOR <=? b then inr (InvalidCompressedInnerBranch b)
      else read_entries (put_hash ch b (from_be (take 32 c))) entries
  end.

Definition make_compressed_inner (data : list Z) : SHAMapTreeNode + SHAMapCodecError :=
  if negb (length data mod 33 =? 0)%nat || (528 <? length data)%nat then
    inr (InvalidCompressedInnerSize (length data))
  else
    match read_entries ∅ (chunks_exact 33 data) with
    | inl ch => inl (make_inner ch None)
    | inr e => inr e
    end.

Definition make_from_wire (raw : list Z) : option SHAMapTreeNode + SHAMapCodecError :=
  match last raw with
  | None => inl None
  | Some ty =>
      let data := take (length raw - 1) raw in
      let r :=
        if ty =? WIRE_TYPE_TRANSACTION then make_transaction_node data None
        else if ty =? WIRE_TYPE_ACCOUNT_STATE then make_account_state_node data None
        else if ty =? WIRE_TYPE_INNER then make_full_inner data None
        else if ty =? WIRE_TYPE_COMPRESSED_INNER then make_compressed_inner data
        else if ty =? WIRE_TYPE_TRANSACTION_WITH_META then make_transaction_with_meta_node data None
        else inr (UnknownWireType ty) in
      match r with inl n => inl (Some n) | inr e => inr e end
  end.

Definition make_from_prefix (raw : list Z) (h : Z) : SHAMapTreeNode + SHAMapCodecError :=
  if (length raw <? 4)%nat then inr ShortPrefixNode
  else
    let p := from_be (take 4 raw) in
    let d := drop 4 raw in
    if p =? HASH_PREFIX_TRANSACTION_ID then make_transaction_node d (Some h)
    else if p =? HASH_PREFIX_LEAF_NODE then make_account_state_node d (Some h)
    else if p =? HASH_PREFIX_INNER_NODE then make_full_inner d (Some h)
    else if p =? HASH_PREFIX_TX_NODE then make_transaction_with_meta_node d (Some h)
    else inr (UnknownPrefixType p).

(** ** Well-formed nodes *)

(** The node as it is without its children: what the bytes carry. *)
Definition unload (ch : gmap Z Child) : gmap Z Child := (fun c => mkChild (ch_hash c) None) <$> ch.

Definition stored (n : SHAMapTreeNode) (h : Z) : SHAMapTreeNode :=
  mkNode 0 h (match node_body n with Inner ch => Inner (unload ch) | Leaf t item => Leaf t item end).

(** A branch with a hash for every child; an item long enough, under its own key. *)
Definition node_ok (n : SHAMapTreeNode) : Prop :=
  match node_body n with
  | Inner ch => ch <> ∅ /\ forall b c, ch !! b = Some c -> 0 <= b < 16 /\ 0 < ch_hash c < 2 ^ 256
  | Leaf t item =>
      t <> NtInner /\ MIN_SHAMAP_ITEM_BYTES <= Z.of_nat (length (item_data item)) /\ is_key (item_key item)
      /\ (t = TransactionNm -> item_key item = compute_leaf_hash sha512_half t item)
      /\ (t = AccountState -> item_key item <> 0)
  end.

Definition node_hash_of (n : SHAMapTreeNode) : Z :=
  match node_body n with
  | Inner ch => compute_inner_hash sha512_half ch
  | Leaf t item => compute_leaf_hash sha512_half t item
  end.

(** ** Leaves *)

Lemma validate_ok t data : MIN_SHAMAP_ITEM_BYTES <= Z.of_nat (length data) -> validate_leaf_payload t data = None.
Proof. intros H. unfold validate_leaf_payload. by rewrite (proj2 (Z.ltb_ge _ _)). Qed.

Lemma split_key_app data k : is_key k -> split_key (data ++ be_bytes 32 k) = (data, k).
Proof.
  intros Hk. unfold split_key. rewrite length_app, length_be_bytes.
  replace (length data + 32 - 32)%nat with (length data) by lia.
  rewrite take_app_length, drop_app_length, from_be_be_bytes.
  change (256 ^ Z.of_nat 32) with (2 ^ 256). by rewrite Z.mod_small by exact Hk.
Qed.

Lemma make_leaf_payload t item known :
  t <> NtInner -> MIN_SHAMAP_ITEM_BYTES <= Z.of_nat (length (item_data item)) -> is_key (item_key item) ->
  (t = TransactionNm -> item_key item = compute_leaf_hash sha512_half t item) ->
  (t = AccountState -> item_key item <> 0) ->
  match t with
  | TransactionNm => make_transaction_node (leaf_payload t item) known
  | TransactionMd => make_transaction_with_meta_node (leaf_payload t item) known
  | _ => make_account_state_node (leaf_payload t item) known
  end = inl (make_leaf t item known).
Proof.
  intros Ht Hlen Hk Htx Hz. destruct item as [k data]. cbn [item_key item_data] in *. unfold leaf_payload. cbn [item_data item_key].
  destruct t; [done| | |].
  - rewrite bool_decide_eq_true_2, app_nil_r by done. unfold make_transaction_node. rewrite validate_ok by done.
    specialize (Htx eq_refl). cbn [compute_leaf_hash item_data] in Htx. by rewrite <- Htx.
  - rewrite bool_decide_eq_false_2 by done. unfold make_transaction_with_meta_node.
    rewrite length_app, length_be_bytes, (proj2 (Nat.ltb_ge _ 32)) by lia. rewrite split_key_app by done. by rewrite validate_ok.
  - rewrite bool_decide_eq_false_2 by done. unfold make_account_state_node.
    rewrite length_app, length_be_bytes, (proj2 (Nat.ltb_ge _ 32)) by lia. rewrite split_key_app by done.
    rewrite validate_ok by done. by rewrite (proj2 (Z.eqb_neq k 0)) by (by apply Hz).
Qed.

(** ** Inner nodes *)

Lemma length_concat (n : nat) (ls : list (list Z)) :
  Forall (fun l => length l = n) ls -> length (concat ls) = (length ls * n)%nat.
Proof. induction 1 as [|l ls Hl _ IH]; [done|]. cbn [concat length]. rewrite length_app, Hl, IH. lia. Qed.

Lemma chunks_exact_concat (n : nat) (ls : list (list Z)) :
  (0 < n)%nat -> Forall (fun l => length l = n) ls -> chunks_exact n (concat ls) = ls.
Proof.
  intros Hn Hls. unfold chunks_exact. rewrite (length_concat n ls Hls), Nat.div_mul by lia.
  induction Hls as [|l ls Hl _ IH]; [done|]. cbn [length replicate reshape concat].
  by rewrite take_app_length', drop_app_length', IH by done.
Qed.

Lemma hash_bytes ch b :
  (forall b c, ch !! b = Some c -> 0 <= b < 16 /\ 0 < ch_hash c < 2 ^ 256) -> from_be (be_bytes 32 (hash_of ch b)) = hash_of ch b.
Proof.
  intros Hok. rewrite from_be_be_bytes. change (256 ^ Z.of_nat 32) with (2 ^ 256). apply Z.mod_small. unfold hash_of.
  destruct (ch !! b) as [c|] eqn:E; [apply Hok in E; lia|]. split; [lia|]. apply Z.pow_pos_nonneg; lia.
Qed.

(** Giving branches their hashes rebuilds the part of the map they name. *)
Lemma put_hashes ch bs i :
  (forall b c, ch !! b = Some c -> 0 <= b < 16 /\ 0 < ch_hash c < 2 ^ 256) ->
  foldl (fun acc b => put_hash acc b (hash_of ch b)) ∅ bs !! i = if decide (i ∈ bs) then unload ch !! i else None.
Proof.
  intros Hok. induction bs as [|b bs IH] using rev_ind; [by rewrite decide_False by apply not_elem_of_nil|].
  rewrite foldl_app. cbn [foldl]. set (r := foldl _ ∅ bs) in *. unfold unload in *. rewrite lookup_fmap in *.
  unfold put_hash, hash_of.
  destruct (ch !! b) as [c|] eqn:Eb.
  - destruct (Hok _ _ Eb) as [_ Hc]. rewrite (proj2 (Z.eqb_neq _ 0)) by lia. cbn [negb]. destruct (decide (i = b)) as [->|Hne].
    + by rewrite lookup_insert_eq, decide_True, Eb by set_solver.
    + rewrite lookup_insert_ne, IH by done. destruct (decide (i ∈ bs)); [rewrite decide_True by set_solver|rewrite decide_False by set_solver]; done.
  - change (0 =? 0) with true. cbn [negb]. destruct (decide (i = b)) as [->|Hne].
    + rewrite lookup_alter_eq, IH, Eb. by repeat case_decide.
    + rewrite lookup_alter_ne, IH by done. destruct (decide (i ∈ bs)); [rewrite decide_True by set_solver|rewrite decide_False by set_solver]; done.
Qed.

Lemma put_hashes_all ch bs :
  (forall b c, ch !! b = Some c -> 0 <= b < 16 /\ 0 < ch_hash c < 2 ^ 256) -> (forall b, is_Some (ch !! b) -> b ∈ bs) ->
  foldl (fun acc b => put_hash acc b (hash_of ch b)) ∅ bs = unload ch.
Proof.
  intros Hok Hall. apply map_eq. intros i. rewrite put_hashes by done. case_decide as Hi; [done|].
  unfold unload. rewrite lookup_fmap. destruct (ch !! i) eqn:E; [|done]. destruct Hi. apply Hall. eauto.
Qed.

Lemma foldl_zip (f : Z -> list Z) acc bs :
  foldl (fun ch '(b, chunk) => put_hash ch b (from_be chunk)) acc (zip bs (f <$> bs))
  = foldl (fun ch b => put_hash ch b (from_be (f b))) acc bs.
Proof. revert acc. induction bs as [|b bs IH]; intros acc; [done|]. cbn. apply IH. Qed.

Lemma foldl_ext_in {A} (f g : A -> Z -> A) acc bs :
  (forall a b, f a b = g a b) -> foldl f acc bs = foldl g acc bs.
Proof. intros H. revert acc. induction bs as [|b bs IH]; intros acc; [done|]. cbn. rewrite H. apply IH. Qed.

Lemma make_full_inner_eq ch known :
  (forall b c, ch !! b = Some c -> 0 <= b < 16 /\ 0 < ch_hash c < 2 ^ 256) ->
  make_full_inner (all_hashes ch) known = inl (make_inner (unload ch) known).
Proof.
  intros Hok. unfold make_full_inner, all_hashes.
  assert (Forall (fun l => length l = 32%nat) ((fun b => be_bytes 32 (hash_of ch b)) <$> branches)) as Hl.
  { apply Forall_fmap, Forall_true. intros b. apply length_be_bytes. }
  rewrite (length_concat 32 _ Hl), length_fmap. change (length branches * 32 =? 512)%nat with true. cbn [negb].
  rewrite chunks_exact_concat by (lia || done). rewrite foldl_zip. do 2 f_equal.
  rewrite (foldl_ext_in _ (fun acc b => put_hash acc b (hash_of ch b))) by (intros; by rewrite hash_bytes).
  apply put_hashes_all; [done|]. intros b [c Hc]. apply elem_of_seqZ. apply Hok in Hc. unfold BRANCH_FACTOR. lia.
Qed.

Lemma read_entries_eq ch acc bs :
  (forall b c, ch !! b = Some c -> 0 <= b < 16 /\ 0 < ch_hash c < 2 ^ 256) -> Forall (fun b => b < 16) bs ->
  read_entries acc ((fun b => be_bytes 32 (hash_of ch b) ++ [b]) <$> bs)
  = inl (foldl (fun acc b => put_hash acc b (hash_of ch b)) acc bs).
Proof.
  intros Hok Hb. revert acc. induction Hb as [|b bs Hb _ IH]; intros acc; [done|]. cbn [fmap list_fmap read_entries foldl].
  rewrite lookup_app_r, length_be_bytes by (rewrite length_be_bytes; lia). change ((32 - 32)%nat) with 0%nat.
  cbn [lookup list_lookup default from_option id]. unfold BRANCH_FACTOR. rewrite (proj2 (Z.leb_gt 16 b)) by done.
  rewrite take_app_length' by (by rewrite length_be_bytes). rewrite hash_bytes by done. apply IH.
Qed.

Lemma make_compressed_inner_eq ch :
  (forall b c, ch !! b = Some c -> 0 <= b < 16 /\ 0 < ch_hash c < 2 ^ 256) ->
  make_compressed_inner (concat ((fun b => be_bytes 32 (hash_of ch b) ++ [b]) <$> filter (fun b => is_Some (ch !! b)) branches))
  = inl (make_inner (unload ch) None).
Proof.
  intros Hok. unfold make_compressed_inner. set (bs := filter _ _).
  assert (Forall (fun l => length l = 33%nat) ((fun b => be_bytes 32 (hash_of ch b) ++ [b]) <$> bs)) as Hl.
  { apply Forall_fmap, Forall_true. intros b. unfold compose. rewrite length_app, length_be_bytes. done. }
  assert (length bs <= 16)%nat as Hlen by (unfold bs; apply (length_filter _ branches)).
  rewrite (length_concat 33 _ Hl), length_fmap, Nat.Div0.mod_mul. rewrite (proj2 (Nat.ltb_ge 528 _)) by lia. cbn [Nat.eqb negb orb].
  rewrite chunks_exact_concat by (lia || done). rewrite read_entries_eq; [|done|].
  - rewrite put_hashes_all; [done|done|]. intros b [c Hc]. apply list_elem_of_filter. split; [by eexists|].
    apply elem_of_seqZ. apply Hok in Hc. unfold BRANCH_FACTOR. lia.
  - apply Forall_forall. intros b Hb. apply list_elem_of_filter in Hb as [[c Hc] _]. apply Hok in Hc. lia.
Qed.

Lemma hash_of_unload ch b : hash_of (unload ch) b = hash_of ch b.
Proof. unfold hash_of, unload. rewrite lookup_fmap. by destruct (ch !! b). Qed.

Lemma compute_inner_hash_unload ch : compute_inner_hash sha512_half (unload ch) = compute_inner_hash sha512_half ch.
Proof.
  unfold compute_inner_hash. rewrite (bool_decide_ext (unload ch = ∅) (ch = ∅)) by (unfold unload; apply fmap_empty_iff).
  case_bool_decide; [done|]. do 3 f_equal. apply list_fmap_ext. intros i b _. f_equal. apply (hash_of_unload ch b).
Qed.

(** ** The two forms *)

Lemma from_wire_snoc data ty :
  make_from_wire (data ++ [ty]) =
    match (if ty =? WIRE_TYPE_TRANSACTION then make_transaction_node data None
           else if ty =? WIRE_TYPE_ACCOUNT_STATE then make_account_state_node data None
           else if ty =? WIRE_TYPE_INNER then make_full_inner data None
           else if ty =? WIRE_TYPE_COMPRESSED_INNER then make_compressed_inner data
           else if ty =? WIRE_TYPE_TRANSACTION_WITH_META then make_transaction_with_meta_node data None
           else inr (UnknownWireType ty)) with inl n => inl (Some n) | inr e => inr e end.
Proof. unfold make_from_wire. rewrite last_snoc, length_app. cbn [length]. by rewrite Nat.add_sub, take_app_length. Qed.

Lemma wire_form n :
  node_ok n -> exists bytes, serialize_for_wire n = Ok (inl bytes)
    /\ make_from_wire bytes = inl (Some (stored n (node_hash_of n))).
Proof.
  unfold node_ok, serialize_for_wire, stored, node_hash_of. destruct n as [cw hs body]. cbn [node_body].
  destruct body as [ch|t item].
  - intros [Hne Hok]. unfold serialize_inner_for_wire. rewrite bool_decide_eq_false_2 by done.
    destruct (size ch <? 12)%nat; (eexists; split; [reflexivity|]); rewrite from_wire_snoc; cbn [Z.eqb].
    + change (make_compressed_inner _) with (make_compressed_inner (concat ((fun b => be_bytes 32 (hash_of ch b) ++ [b]) <$> filter (fun b => is_Some (ch !! b)) branches))).
      cbv [WIRE_TYPE_COMPRESSED_INNER WIRE_TYPE_TRANSACTION WIRE_TYPE_ACCOUNT_STATE WIRE_TYPE_INNER]. cbn [Z.eqb Pos.eqb].
      rewrite make_compressed_inner_eq by done. unfold make_inner. cbn [default from_option]. by rewrite compute_inner_hash_unload.
    + cbv [WIRE_TYPE_TRANSACTION WIRE_TYPE_ACCOUNT_STATE WIRE_TYPE_INNER]. cbn [Z.eqb Pos.eqb].
      rewrite make_full_inner_eq by done. unfold make_inner. cbn [default from_option]. by rewrite compute_inner_hash_unload.
  - intros (Ht & Hlen & Hk & Htx & Hz). pose proof (make_leaf_payload t item None Ht Hlen Hk Htx Hz) as E.
    destruct t; [done| | |]; (eexists; split; [reflexivity|]); rewrite from_wire_snoc;
      cbv [WIRE_TYPE_TRANSACTION WIRE_TYPE_ACCOUNT_STATE WIRE_TYPE_INNER WIRE_TYPE_COMPRESSED_INNER WIRE_TYPE_TRANSACTION_WITH_META];
      cbn [Z.eqb Pos.eqb]; by rewrite E.
Qed.

Lemma from_prefix_app p data h :
  0 <= p < 2 ^ 32 ->
  make_from_prefix (be_bytes 4 p ++ data) h =
    if p =? HASH_PREFIX_TRANSACTION_ID then make_transaction_node data (Some h)
    else if p =? HASH_PREFIX_LEAF_NODE then make_account_state_node data (Some h)
    else if p =? HASH_PREFIX_INNER_NODE then make_full_inner data (Some h)
    else if p =? HASH_PREFIX_TX_NODE then make_transaction_with_meta_node data (Some h)
    else inr (UnknownPrefixType p).
Proof.
  intros Hp. unfold make_from_prefix. rewrite length_app, length_be_bytes, (proj2 (Nat.ltb_ge _ 4)) by lia.
  rewrite take_app_length', drop_app_length' by (by rewrite length_be_bytes). rewrite from_be_be_bytes.
  change (256 ^ Z.of_nat 4) with (2 ^ 32). by rewrite Z.mod_small.
Qed.

Lemma prefix_form n h :
  node_ok n -> exists bytes, serialize_with_prefix n = Ok (inl bytes)
    /\ make_from_prefix bytes h = inl (stored n h) /\ sha512_half bytes = node_hash_of n.
Proof.
  unfold node_ok, serialize_with_prefix, stored, node_hash_of. destruct n as [cw hs body]. cbn [node_body].
  destruct body as [ch|t item].
  - intros [Hne Hok]. unfold serialize_inner_with_prefix. rewrite bool_decide_eq_false_2 by done.
    eexists. split; [reflexivity|]. split.
    + rewrite from_prefix_app by (unfold HASH_PREFIX_INNER_NODE; lia).
      change (HASH_PREFIX_INNER_NODE =? HASH_PREFIX_TRANSACTION_ID) with false.
      change (HASH_PREFIX_INNER_NODE =? HASH_PREFIX_LEAF_NODE) with false. rewrite Z.eqb_refl. by rewrite make_full_inner_eq.
    + unfold compute_inner_hash. by rewrite bool_decide_eq_false_2.
  - intros (Ht & Hlen & Hk & Htx & Hz). pose proof (make_leaf_payload t item (Some h) Ht Hlen Hk Htx Hz) as E.
    destruct t; [done| | |]; (eexists; split; [reflexivity|]); split.
    1,3,5: rewrite from_prefix_app by (unfold HASH_PREFIX_TRANSACTION_ID, HASH_PREFIX_TX_NODE, HASH_PREFIX_LEAF_NODE; lia).
    + by rewrite Z.eqb_refl.
    + exact E.
    + exact E.
    + unfold leaf_payload. rewrite bool_decide_eq_true_2, app_nil_r by done. done.
    + unfold leaf_payload. by rewrite bool_decide_eq_false_2.
    + unfold leaf_payload. by rewrite bool_decide_eq_false_2.
Qed.

(** C40: a SHAMap node can be read back from its bytes. For every well-formed node the wire
    form and the hashed form exist; reading the wire form gives the node without its
    loaded children and with the hash of its contents, reading the hashed form gives it
    with the hash that was asked for, and the digest of the hashed form is the node's
    hash. *)
Theorem node_bytes_roundtrip n h :
  node_ok n ->
  (exists wire, serialize_for_wire n = Ok (inl wire) /\ make_from_wire wire = inl (Some (stored n (node_hash_of n))))
  /\ (exists bytes, serialize_with_prefix n = Ok (inl bytes) /\ make_from_prefix bytes h = inl (stored n h)
        /\ sha512_half bytes = node_hash_of n).
Proof. intros Hn. split; [by apply wire_form|by apply prefix_form]. Qed.

End Codec.

(** An inner node with one loaded child. *)
Definition demo_node : SHAMapTreeNode := mkNode 3 0 (Inner {[1 := mkChild 11 (Some 4%nat); 9 := mkChild 5 None]}).

Lemma demo_node_ok : node_ok from_be demo_node.
Proof.
  split; [apply insert_non_empty|]. intros b c. rewrite lookup_insert_Some, lookup_singleton_Some.
  intros [[<- <-]|(_ & [<- <-])]; cbn [ch_hash]; lia.
Qed.

Lemma node_bytes_roundtrip_witness :
  exists wire, serialize_for_wire demo_node = Ok (inl wire)
    /\ make_from_wire from_be wire = inl (Some (stored demo_node (node_hash_of from_be demo_node))).
Proof. exact (proj1 (node_bytes_roundtrip from_be demo_node 0 demo_node_ok)). Defined.
