(* ===== verification/Resource.v ===== *)
(** * Resource manager

    [xrpl/resource]: every remote endpoint the node talks to has an entry with a
    decaying balance of what its requests cost; a consumer whose balance passes a
    threshold is warned, then dropped. Entries are shared: each live [Consumer]
    and each item of an imported gossip report holds one reference, and an entry
    with no reference is forgotten after a while.

    The state behind the mutex is a [ResourceState]; a handler works on a [World]
    that adds what the manager calls out to: the readings of the clock, the journal
    and the two meters. [Instant]s are nanoseconds on a monotonic clock. *)

From stdpp Require Import strings.
From S2P Require Import Prelude Chrono Stateful.

(** ** Thresholds and fees *)

Definition WARNING_THRESHOLD : Z := 5000.
Definition DROP_THRESHOLD : Z := 25000.
Definition DECAY_WINDOW_SECONDS : Z := 32.
Definition MINIMUM_GOSSIP_BALANCE : Z := 1000.
Definition SECONDS_UNTIL_EXPIRATION : Z := from_secs 300.
Definition GOSSIP_EXPIRATION_SECONDS : Z := from_secs 30.
Definition FEE_LOG_AS_WARN : Z := 3000.
Definition FEE_LOG_AS_INFO : Z := 1000.
Definition FEE_LOG_AS_DEBUG : Z := 100.

Record Charge := mkCharge { cost : Z; label : string }.

(** Charges compare by cost alone; [*] multiplies the cost in [i32]. *)
Definition charge_eqb (a b : Charge) : bool := cost a =? cost b.
Definition charge_cmp (a b : Charge) : comparison := Z.compare (cost a) (cost b).
Definition charge_mul (c : Charge) (rhs : Z) : Charge := mkCharge (wrap_i32 (cost c * rhs)) (label c).

Definition FEE_WARNING : Charge := mkCharge 4000 "received warning".
Definition FEE_DROP : Charge := mkCharge 6000 "dropped".

Inductive Disposition := DispOk | DispWarn | DispDrop.
Inductive Kind := Inbound | Outbound | Unlimited.
Inductive JournalLevel := LevelTrace | LevelDebug | LevelInfo | LevelWarn | LevelFatal.

(** Bytes are integers. *)
Notation PublicKey := (list Z) (only parsing).

(** ** Addresses and keys *)

Inductive IpAddr := V4 (bits : Z) | V6 (bits : Z).
Record SocketAddr := mkSocketAddr { ip : IpAddr; port : Z }.
Record Key := mkKey { kind : Kind; address : SocketAddr }.

#[global] Instance Kind_eq_dec : EqDecision Kind.
Proof. solve_decision. Defined.
#[global] Instance IpAddr_eq_dec : EqDecision IpAddr.
Proof. solve_decision. Defined.
#[global] Instance SocketAddr_eq_dec : EqDecision SocketAddr.
Proof. solve_decision. Defined.
#[global] Instance Key_eq_dec : EqDecision Key.
Proof. solve_decision. Defined.

#[global] Instance Kind_countable : Countable Kind.
Proof.
  refine (inj_countable'
    (fun k => match k with Inbound => 0%nat | Outbound => 1%nat | Unlimited => 2%nat end)
    (fun n => match n with 0%nat => Inbound | 1%nat => Outbound | _ => Unlimited end) _).
  by intros [].
Defined.

#[global] Instance IpAddr_countable : Countable IpAddr.
Proof.
  refine (inj_countable'
    (fun a => match a with V4 b => inl b | V6 b => inr b end)
    (fun s => match s with inl b => V4 b | inr b => V6 b end) _).
  by intros [].
Defined.

#[global] Instance SocketAddr_countable : Countable SocketAddr.
Proof.
  refine (inj_countable' (fun a => (ip a, port a)) (fun p => mkSocketAddr p.1 p.2) _).
  by intros [].
Defined.

#[global] Instance Key_countable : Countable Key.
Proof.
  refine (inj_countable' (fun k => (kind k, address k)) (fun p => mkKey p.1 p.2) _).
  by intros [].
Defined.

Definition normalize_inbound_address (a : SocketAddr) : SocketAddr := mkSocketAddr (ip a) 0.
Definition normalize_unlimited_address (a : SocketAddr) : SocketAddr := mkSocketAddr (ip a) 1.

(** What [get_fingerprint] prints: the address, and the public key if known. *)
Record fingerprint := mkFingerprint { fp_address : SocketAddr; fp_public_key : option PublicKey }.

#[global] Instance fingerprint_eq_dec : EqDecision fingerprint.
Proof. solve_decision. Defined.
#[global] Instance fingerprint_countable : Countable fingerprint.
Proof.
  refine (inj_countable' (fun f => (fp_address f, fp_public_key f))
            (fun p => mkFingerprint p.1 p.2) _).
  by intros [].
Defined.

Definition get_fingerprint (a : SocketAddr) (pk : option PublicKey) : fingerprint := mkFingerprint a pk.

(** ** The decaying sample

    [DecayingSample<WINDOW>]: a sum that loses a [WINDOW]-th of itself every second. *)

Record DecayingSample := mkSample { sample_value : Z; sample_when : Z }.

Definition sample_new (now : Z) : DecayingSample := mkSample 0 now.

(** One turn of the [while elapsed > 0] loop. *)
Definition decay_once (W v : Z) : Z :=
  wrap_i64 (v - Z.quot (wrap_i64 (wrap_i64 (v + W) - 1)) W).

(** [Instant::duration_since] saturates at zero; [as_secs] drops the fraction. *)
Definition decay (W : Z) (s : DecayingSample) (now : Z) : DecayingSample :=
  if now =? sample_when s then s else
  let v := sample_value s in
  let v' :=
    if v =? 0 then v else
    let elapsed := wrap_i64 (as_secs (saturating_duration_since now (sample_when s))) in
    if 4 * W <? elapsed then 0 else Nat.iter (Z.to_nat elapsed) (decay_once W) v in
  mkSample v' now.

Definition sample_add (W : Z) (s : DecayingSample) (value now : Z) : Z * DecayingSample :=
  let s := decay W s now in
  let v := wrap_i64 (sample_value s + value) in
  (Z.quot v W, mkSample v (sample_when s)).

Definition sample_value_at (W : Z) (s : DecayingSample) (now : Z) : Z * DecayingSample :=
  let s := decay W s now in (Z.quot (sample_value s) W, s).

(** ** Entries, imports and the shared state *)

Record Entry := mkEntry {
  entry_key : Key;
  public_key : option PublicKey;
  refcount : Z;
  local_balance : DecayingSample;
  remote_balance : Z;
  last_warning_time : option Z;
  when_expires : option Z
}.

Definition entry_new (key : Key) (now : Z) : Entry :=
  mkEntry key None 0 (sample_new now) 0 None None.

Definition set_public_key_field (pk : option PublicKey) (e : Entry) : Entry :=
  mkEntry (entry_key e) pk (refcount e) (local_balance e) (remote_balance e)
    (last_warning_time e) (when_expires e).
Definition set_refcount (n : Z) (e : Entry) : Entry :=
  mkEntry (entry_key e) (public_key e) n (local_balance e) (remote_balance e)
    (last_warning_time e) (when_expires e).
Definition set_local (s : DecayingSample) (e : Entry) : Entry :=
  mkEntry (entry_key e) (public_key e) (refcount e) s (remote_balance e)
    (last_warning_time e) (when_expires e).
Definition set_remote (z : Z) (e : Entry) : Entry :=
  mkEntry (entry_key e) (public_key e) (refcount e) (local_balance e) z
    (last_warning_time e) (when_expires e).
Definition set_last_warning (t : option Z) (e : Entry) : Entry :=
  mkEntry (entry_key e) (public_key e) (refcount e) (local_balance e) (remote_balance e)
    t (when_expires e).
Definition set_when_expires (t : option Z) (e : Entry) : Entry :=
  mkEntry (entry_key e) (public_key e) (refcount e) (local_balance e) (remote_balance e)
    (last_warning_time e) t.

Definition is_unlimited (e : Entry) : bool := bool_decide (kind (entry_key e) = Unlimited).
Definition entry_string (e : Entry) : fingerprint :=
  get_fingerprint (address (entry_key e)) (public_key e).

Definition balance (e : Entry) (now : Z) : Z * Entry :=
  let '(v, s) := sample_value_at DECAY_WINDOW_SECONDS (local_balance e) now in
  (wrap_i64 (v + remote_balance e), set_local s e).

Definition charge_entry (e : Entry) (charge now : Z) : Z * Entry :=
  let '(v, s) := sample_add DECAY_WINDOW_SECONDS (local_balance e) charge now in
  (wrap_i64 (v + remote_balance e), set_local s e).

Record GossipItem := mkGossipItem { gossip_balance : Z; gossip_address : SocketAddr }.
Notation Gossip := (list GossipItem) (only parsing).
Record ImportItem := mkImportItem { item_balance : Z; item_key : Key }.
Record Import := mkImport { import_expires : Z; import_items : list ImportItem }.

Record ResourceState := mkState {
  entries : gmap Key Entry;
  inbound : list Key;
  outbound : list Key;
  admin : list Key;
  inactive : list Key;
  imports : gmap string Import
}.

Definition state_new : ResourceState := mkState ∅ [] [] [] [] ∅.

Definition set_entries (m : gmap Key Entry) (s : ResourceState) : ResourceState :=
  mkState m (inbound s) (outbound s) (admin s) (inactive s) (imports s).
Definition set_inactive (l : list Key) (s : ResourceState) : ResourceState :=
  mkState (entries s) (inbound s) (outbound s) (admin s) l (imports s).
Definition set_imports (m : gmap string Import) (s : ResourceState) : ResourceState :=
  mkState (entries s) (inbound s) (outbound s) (admin s) (inactive s) m.

(** The list that holds the active entries of a kind. *)
Definition list_for_kind (s : ResourceState) (k : Kind) : list Key :=
  match k with Inbound => inbound s | Outbound => outbound s | Unlimited => admin s end.
Definition set_list_for_kind (k : Kind) (l : list Key) (s : ResourceState) : ResourceState :=
  match k with
  | Inbound => mkState (entries s) l (outbound s) (admin s) (inactive s) (imports s)
  | Outbound => mkState (entries s) (inbound s) l (admin s) (inactive s) (imports s)
  | Unlimited => mkState (entries s) (inbound s) (outbound s) l (inactive s) (imports s)
  end.

(** [position] finds the first occurrence and [remove] takes it out. *)
Fixpoint remove_key (l : list Key) (key : Key) : list Key :=
  match l with
  | [] => []
  | candidate :: l' => if bool_decide (candidate = key) then l' else candidate :: remove_key l' key
  end.

Definition disposition (balance : Z) : Disposition :=
  if DROP_THRESHOLD <=? balance then DispDrop
  else if WARNING_THRESHOLD <=? balance then DispWarn
  else DispOk.

(** [if let Some(entry) = state.entries.get_mut(&key)]. *)
Definition update_entry (key : Key) (f : Entry -> Entry) (s : ResourceState) : ResourceState :=
  match entries s !! key with
  | Some e => set_entries (<[key := f e]> (entries s)) s
  | None => s
  end.

(** ** Critical sections on the state *)

Definition push_back_kind (key : Key) (s : ResourceState) : ResourceState :=
  set_list_for_kind (kind key) (list_for_kind s (kind key) ++ [key]) s.

Definition create_or_acquire_key_locked (s : ResourceState) (key : Key) (now : Z) : ResourceState :=
  let was_new := negb (bool_decide (is_Some (entries s !! key))) in
  let entry := default (entry_new key now) (entries s !! key) in
  let was_inactive := refcount entry =? 0 in
  let entry := set_refcount (wrap_u64 (refcount entry + 1)) entry in
  if was_inactive then
    let s := set_entries (<[key := set_when_expires None entry]> (entries s)) s in
    let s := set_inactive (remove_key (inactive s) key) s in
    push_back_kind key s
  else
    let s := set_entries (<[key := entry]> (entries s)) s in
    if was_new then push_back_kind key s else s.

(** [Instant + Duration] panics past the last instant the clock can name. *)
Definition instant_max : Z := 9223372036854775807 * NANOS_PER_SEC + 999999999.
Definition instant_add (t d : Z) : outcome Z := if t + d <=? instant_max then Ok (t + d) else Panic.

Definition release_key_locked (s : ResourceState) (key : Key) (now : Z)
  : outcome (option fingerprint * ResourceState) :=
  match entries s !! key with
  | None => Ok (None, s)
  | Some entry =>
      if refcount entry =? 0 then Ok (None, s) else
      let entry := set_refcount (refcount entry - 1) entry in
      if refcount entry =? 0 then
        expires ← instant_add now SECONDS_UNTIL_EXPIRATION;
        let entry := set_when_expires (Some expires) entry in
        let s := set_entries (<[key := entry]> (entries s)) s in
        let s := set_list_for_kind (kind key) (remove_key (list_for_kind s (kind key)) key) s in
        Ok (Some (entry_string entry), set_inactive (inactive s ++ [key]) s)
      else Ok (None, set_entries (<[key := entry]> (entries s)) s)
  end.

(** The loop over the inbound list of [export_consumers]. *)
Fixpoint export_loop (keys : list Key) (now : Z) (s : ResourceState) : list GossipItem * ResourceState :=
  match keys with
  | [] => ([], s)
  | key :: keys' =>
      match entries s !! key with
      | None => export_loop keys' now s
      | Some e =>
          let '(b, e') := balance e now in
          let '(items, s') := export_loop keys' now (set_entries (<[key := e']> (entries s)) s) in
          (if MINIMUM_GOSSIP_BALANCE <=? b then mkGossipItem b (address key) :: items else items, s')
      end
  end.

Definition export_section (s : ResourceState) (now : Z) : Gossip * ResourceState :=
  export_loop (inbound s) now s.

(** One item of [import_consumers]: take a reference, add the reported balance. *)
Definition import_item (now : Z) (acc : ResourceState * list ImportItem) (g : GossipItem)
  : ResourceState * list ImportItem :=
  let key := mkKey Inbound (normalize_inbound_address (gossip_address g)) in
  let s := create_or_acquire_key_locked acc.1 key now in
  let s := update_entry key (fun e => set_remote (wrap_i64 (remote_balance e + gossip_balance g)) e) s in
  (s, acc.2 ++ [mkImportItem (gossip_balance g) key]).

(** Take the balances of an import back out of the entries. *)
Definition unimport (items : list ImportItem) (s : ResourceState) : ResourceState :=
  foldl (fun s item =>
    update_entry (item_key item)
      (fun e => set_remote (wrap_i64 (remote_balance e - item_balance item)) e) s) s items.

(** What [import_consumers] does under the lock; the answer is the import it replaced. *)
Definition import_section (s : ResourceState) (now expires : Z) (origin : string) (gossip : Gossip)
  : option Import * ResourceState :=
  let '(s, items) := foldl (import_item now) (s, []) gossip in
  let previous := imports s !! origin in
  let s := set_imports (<[origin := mkImport expires items]> (imports s)) s in
  let s := match previous with Some p => unimport (import_items p) s | None => s end in
  (previous, s).

(** The [while let] loop of [periodic_activity] on the front of the inactive list;
    the answer lists the entries it forgot. *)
Fixpoint expire_loop (l : list Key) (now : Z) (m : gmap Key Entry)
  : list fingerprint * (list Key * gmap Key Entry) :=
  match l with
  | [] => ([], ([], m))
  | key :: l' =>
      match m !! key with
      | None => expire_loop l' now m
      | Some entry =>
          match when_expires entry with
          | None => ([], (l, m))
          | Some t =>
              if now <? t then ([], (l, m)) else
              let '(log, r) := expire_loop l' now (delete key m) in
              (entry_string entry :: log, r)
          end
      end
  end.

Definition expire_inactive (s : ResourceState) (now : Z) : list fingerprint * ResourceState :=
  let '(log, (l, m)) := expire_loop (inactive s) now (entries s) in
  (log, set_inactive l (set_entries m s)).

Section Imports.
Context `{!HashOrder}.

(** The second half of [periodic_activity] under the lock; the answer is the list
    of expired imports. *)
Definition expire_imports (s : ResourceState) (now : Z) : list Import * ResourceState :=
  let origins := map fst (filter (fun p => import_expires p.2 <= now) (hash_iter (imports s))) in
  foldl (fun acc origin =>
    match imports acc.2 !! origin with
    | None => acc
    | Some import =>
        let s := set_imports (delete origin (imports acc.2)) acc.2 in
        (acc.1 ++ [import], unimport (import_items import) s)
    end) ([], s) origins.

End Imports.

(** ** The manager and what it calls out to *)

(** [trait ResourceClock]: the value of each successive reading. *)
Class ResourceClock := clock_reading : nat -> Z.

Inductive Message :=
| MsgForwardedFor (forwarded_for : string) (proxy : SocketAddr)
| MsgNewEndpoint (k : Kind) (entry : fingerprint)
| MsgInactive (entry : fingerprint)
| MsgExpired (entry : fingerprint)
| MsgCharging (entry : fingerprint) (fee : Charge) (context : option string)
| MsgLoadWarning (entry : fingerprint)
| MsgDropped (entry : fingerprint) (balance : Z)
| MsgDisconnecting (entry : fingerprint).

(** [disconnect] takes a journal of the caller's; all else goes to the manager's. *)
Inductive Journal := ManagerJournal | CallerJournal.

Record World := mkWorld {
  w_state : ResourceState;
  w_reads : nat;
  w_log : list (Journal * JournalLevel * Message);
  warn_meter : nat;
  drop_meter : nat
}.

Definition world_new : World := mkWorld state_new 0 [] 0 0.

Definition set_state (s : ResourceState) (w : World) : World :=
  mkWorld s (w_reads w) (w_log w) (warn_meter w) (drop_meter w).
Definition count_read (w : World) : World :=
  mkWorld (w_state w) (S (w_reads w)) (w_log w) (warn_meter w) (drop_meter w).
Definition add_log (e : Journal * JournalLevel * Message) (w : World) : World :=
  mkWorld (w_state w) (w_reads w) (w_log w ++ [e]) (warn_meter w) (drop_meter w).
Definition count_warn (w : World) : World :=
  mkWorld (w_state w) (w_reads w) (w_log w) (S (warn_meter w)) (drop_meter w).
Definition count_drop (w : World) : World :=
  mkWorld (w_state w) (w_reads w) (w_log w) (warn_meter w) (S (drop_meter w)).

Section Manager.
Context `{!ResourceClock, !HashOrder}.

Definition clock_now : handler World Z := fun w => Ok (clock_reading (w_reads w), count_read w).

Definition journal_log (j : Journal) (l : JournalLevel) (m : Message) : handler World unit :=
  modify (add_log (j, l, m)).

(** [with_state_mut]: run a critical section and keep the state it leaves. *)
Definition with_state_mut {A} (f : ResourceState -> A * ResourceState) : handler World A :=
  fun w => let '(a, s) := f (w_state w) in Ok (a, set_state s w).

(** [state.entries.get(&key).expect("resource entry must exist")]. *)
Definition get_entry (key : Key) : handler World Entry := fun w =>
  match entries (w_state w) !! key with Some e => Ok (e, w) | None => Panic end.
Definition put_entry (key : Key) (e : Entry) : handler World unit :=
  modify (fun w => set_state (set_entries (<[key := e]> (entries (w_state w))) (w_state w)) w).

Definition entry_string_locked (key : Key) : handler World fingerprint :=
  e ← get_entry key; mret (entry_string e).

Definition balance_locked (key : Key) : handler World Z :=
  now ← clock_now;
  e ← get_entry key;
  let '(b, e') := balance e now in
  _ ← put_entry key e';
  mret b.

Definition set_public_key_locked (key : Key) (pk : PublicKey) : handler World unit :=
  e ← get_entry key; put_entry key (set_public_key_field (Some pk) e).

Definition charge_level (cost : Z) : JournalLevel :=
  if FEE_LOG_AS_WARN <=? cost then LevelWarn
  else if FEE_LOG_AS_INFO <=? cost then LevelInfo
  else if FEE_LOG_AS_DEBUG <=? cost then LevelDebug
  else LevelTrace.

Definition charge_locked_state (key : Key) (fee : Charge) (context : option string)
    (allow_unlimited : bool) : handler World Disposition :=
  now ← clock_now;
  e ← get_entry key;
  if negb allow_unlimited && is_unlimited e then mret DispOk else
  let context := match context with Some EmptyString => None | c => c end in
  _ ← journal_log ManagerJournal (charge_level (cost fee)) (MsgCharging (entry_string e) fee context);
  let '(b, e') := charge_entry e (cost fee) now in
  _ ← put_entry key e';
  mret (disposition b).

Definition warn_locked (key : Key) : handler World bool :=
  now ← clock_now;
  e ← get_entry key;
  if is_unlimited e then mret false else
  let '(b, e') := balance e now in
  if (WARNING_THRESHOLD <=? b) && negb (bool_decide (last_warning_time e' = Some now)) then
    _ ← put_entry key (set_last_warning (Some now) e');
    _ ← charge_locked_state key FEE_WARNING None true;
    _ ← journal_log ManagerJournal LevelInfo (MsgLoadWarning (entry_string e'));
    _ ← modify count_warn;
    mret true
  else _ ← put_entry key e'; mret false.

Definition disconnect_locked (key : Key) : handler World bool :=
  now ← clock_now;
  e ← get_entry key;
  if is_unlimited e then mret false else
  let '(b, e') := balance e now in
  _ ← put_entry key e';
  if DROP_THRESHOLD <=? b then
    _ ← journal_log ManagerJournal LevelWarn (MsgDropped (entry_string e') b);
    _ ← charge_locked_state key FEE_DROP None true;
    _ ← modify count_drop;
    mret true
  else mret false.

(** The critical section of [release_key], with its own reading of the clock. *)
Definition release_key_inner (key : Key) : handler World (option fingerprint) :=
  now ← clock_now;
  s ← gets w_state;
  r ← lift (release_key_locked s key now);
  _ ← modify (set_state r.2);
  mret r.1.

Definition release_key (key : Key) : handler World unit :=
  r ← release_key_inner key;
  match r with
  | Some e => journal_log ManagerJournal LevelDebug (MsgInactive e)
  | None => mret tt
  end.

(** ** [Consumer] *)

(** [inner] is the handle to the manager. *)
Record Consumer := mkConsumer { has_inner : bool; consumer_key : option Key }.
Definition consumer_default : Consumer := mkConsumer false None.

Definition new_endpoint (k : Kind) (a : SocketAddr) : handler World Consumer :=
  let key := mkKey k a in
  now ← clock_now;
  _ ← modify (fun w => set_state (create_or_acquire_key_locked (w_state w) key now) w);
  e ← entry_string_locked key;
  _ ← journal_log ManagerJournal LevelDebug (MsgNewEndpoint k e);
  mret (mkConsumer true (Some key)).

Definition new_inbound_endpoint (a : SocketAddr) : handler World Consumer :=
  new_endpoint Inbound (normalize_inbound_address a).
Definition new_outbound_endpoint (a : SocketAddr) : handler World Consumer :=
  new_endpoint Outbound a.
Definition new_unlimited_endpoint (a : SocketAddr) : handler World Consumer :=
  new_endpoint Unlimited (normalize_unlimited_address a).

(** [parse] is [IpAddr::from_str]. *)
Definition new_inbound_endpoint_with_proxy (parse : string -> option IpAddr) (a : SocketAddr)
    (proxy : bool) (forwarded_for : string) : handler World Consumer :=
  if negb proxy then new_inbound_endpoint a else
  match parse forwarded_for with
  | Some i => new_endpoint Inbound (mkSocketAddr i 0)
  | None =>
      _ ← journal_log ManagerJournal LevelWarn (MsgForwardedFor forwarded_for a);
      new_inbound_endpoint a
  end.

Definition consumer_clone (c : Consumer) : handler World Consumer :=
  if negb (has_inner c) then mret consumer_default else
  key ← lift (expect (consumer_key c));
  now ← clock_now;
  _ ← modify (fun w => set_state (create_or_acquire_key_locked (w_state w) key now) w);
  mret (mkConsumer true (Some key)).

Definition consumer_drop (c : Consumer) : handler World unit :=
  match has_inner c, consumer_key c with
  | true, Some key => release_key key
  | _, _ => mret tt
  end.

(** The key of a handle that must be initialised. *)
Definition inner_key (c : Consumer) : handler World Key :=
  if has_inner c then lift (expect (consumer_key c)) else lift Panic.

Definition consumer_is_unlimited (c : Consumer) : handler World bool :=
  if negb (has_inner c) then mret false else
  key ← inner_key c;
  gets (fun w => match entries (w_state w) !! key with Some e => is_unlimited e | None => false end).

Definition consumer_disposition (c : Consumer) : handler World Disposition :=
  if negb (has_inner c) then mret DispOk else
  key ← inner_key c;
  charge_locked_state key (mkCharge 0 "") None true.

Definition charge_with_context (c : Consumer) (fee : Charge) (context : string)
  : handler World Disposition :=
  if negb (has_inner c) then mret DispOk else
  key ← inner_key c;
  charge_locked_state key fee (match context with EmptyString => None | _ => Some context end) false.

Definition charge (c : Consumer) (fee : Charge) : handler World Disposition :=
  charge_with_context c fee "".

Definition consumer_warn (c : Consumer) : handler World bool :=
  key ← inner_key c; warn_locked key.

Definition disconnect (j : Journal) (c : Consumer) : handler World bool :=
  key ← inner_key c;
  disconnected ← disconnect_locked key;
  if disconnected : bool then
    e ← entry_string_locked key;
    _ ← journal_log j LevelDebug (MsgDisconnecting e);
    mret true
  else mret false.

Definition disconnect_with_manager_journal (c : Consumer) : handler World bool :=
  disconnect ManagerJournal c.

Definition consumer_balance (c : Consumer) : handler World Z :=
  key ← inner_key c; balance_locked key.

Definition set_public_key (c : Consumer) (pk : PublicKey) : handler World unit :=
  key ← inner_key c; set_public_key_locked key pk.

(** ** Gossip and housekeeping *)

Definition export_consumers : handler World Gossip :=
  now ← clock_now; with_state_mut (fun s => export_section s now).

(** The part of [import_consumers] under the lock. *)
Definition import_locked (origin : string) (gossip : Gossip) : handler World (option Import) :=
  now ← clock_now;
  expires ← lift (instant_add now GOSSIP_EXPIRATION_SECONDS);
  with_state_mut (fun s => import_section s now expires origin gossip).

Definition import_consumers (origin : string) (gossip : Gossip) : handler World unit :=
  previous ← import_locked origin gossip;
  match previous with
  | Some p => for_each (import_items p) (fun item => release_key (item_key item))
  | None => mret tt
  end.

(** The part of [periodic_activity] under the lock. *)
Definition periodic_locked : handler World (list Import) :=
  now ← clock_now;
  log ← with_state_mut (fun s => expire_inactive s now);
  _ ← for_each log (fun e => journal_log ManagerJournal LevelDebug (MsgExpired e));
  with_state_mut (fun s => expire_imports s now).

Definition periodic_activity : handler World unit :=
  expired ← periodic_locked;
  for_each expired (fun import =>
    for_each (import_items import) (fun item => release_key (item_key item))).

(** ** Reports *)

Record JsonEntry := mkJsonEntry { json_local : Z; json_remote : Z; json_type : Kind }.

Fixpoint json_loop (k : Kind) (keys : list Key) (now threshold : Z) (s : ResourceState)
    (root : gmap fingerprint JsonEntry) : gmap fingerprint JsonEntry * ResourceState :=
  match keys with
  | [] => (root, s)
  | key :: keys' =>
      match entries s !! key with
      | None => json_loop k keys' now threshold s root
      | Some e =>
          let '(local, sample) := sample_value_at DECAY_WINDOW_SECONDS (local_balance e) now in
          let e' := set_local sample e in
          let root := if threshold <=? wrap_i64 (local + remote_balance e')
                      then <[entry_string e' := mkJsonEntry local (remote_balance e') k]> root
                      else root in
          json_loop k keys' now threshold (set_entries (<[key := e']> (entries s)) s) root
      end
  end.

Definition get_json_with_threshold (threshold : Z) : handler World (gmap fingerprint JsonEntry) :=
  now ← clock_now;
  with_state_mut (fun s =>
    foldl (fun acc k => json_loop k (list_for_kind acc.2 k) now threshold acc.2 acc.1)
      (∅, s) [Inbound; Outbound; Unlimited]).

Definition get_json : handler World (gmap fingerprint JsonEntry) :=
  get_json_with_threshold WARNING_THRESHOLD.

Record WriteItem := mkWriteItem {
  write_count : option Z;
  write_name : fingerprint;
  write_balance : Z;
  write_remote : option Z
}.

Fixpoint write_list (keys : list Key) (now : Z) (s : ResourceState) : list WriteItem * ResourceState :=
  match keys with
  | [] => ([], s)
  | key :: keys' =>
      match entries s !! key with
      | None => write_list keys' now s
      | Some e =>
          let '(b, e') := balance e now in
          let item := mkWriteItem (if refcount e =? 0 then None else Some (refcount e))
            (entry_string e) b (if remote_balance e' =? 0 then None else Some (remote_balance e')) in
          let '(items, s') := write_list keys' now (set_entries (<[key := e']> (entries s)) s) in
          (item :: items, s')
      end
  end.

Definition on_write : handler World (list (list WriteItem)) :=
  now ← clock_now;
  with_state_mut (fun s =>
    foldl (fun acc keys => let '(items, s') := write_list keys now acc.2 in (acc.1 ++ [items], s'))
      ([], s) [inbound s; outbound s; admin s; inactive s]).

End Manager.
