(* ===== verification/ResourceInv.v ===== *)
(** * Resource manager: accounting invariant

    [wf s R B] says that the shared state [s] keeps the books of [R] references
    and a remote balance [B] per key: an entry exists for every key with a
    reference, carries their number and the sum of the balances reported for it,
    sits in the list of its kind exactly while it is referenced and in the inactive
    list exactly while it is not. Every critical section is shown to move [R] and
    [B] in the way its name says. *)

From stdpp Require Import strings.
From S2P Require Import Prelude Chrono Stateful Resource.

(** ** Books *)

Definition bump {A} `{EqDecision A} (f : A -> Z) (k : A) (d : Z) : A -> Z :=
  fun k' => if bool_decide (k' = k) then f k' + d else f k'.

Record wf (s : ResourceState) (R B : Key -> Z) : Prop := {
  wf_entry : forall k e, entries s !! k = Some e ->
    entry_key e = k /\ refcount e = R k /\ remote_balance e = wrap_i64 (B k) /\
    (when_expires e = None <-> R k <> 0);
  wf_none : forall k, entries s !! k = None -> R k = 0;
  wf_range : forall k, 0 <= R k <= u64_max;
  wf_zero : forall k, R k = 0 -> B k = 0;
  wf_kind : forall k, kind k <> Inbound -> B k = 0;
  wf_active : forall kd, NoDup (list_for_kind s kd) /\
    forall k, k ∈ list_for_kind s kd <-> kind k = kd /\ R k <> 0;
  wf_inactive : NoDup (inactive s) /\
    forall k, k ∈ inactive s <-> is_Some (entries s !! k) /\ R k = 0;
  wf_unlimited : forall k e, entries s !! k = Some e -> kind k = Unlimited ->
    sample_value (local_balance e) = 0
}.

Lemma wf_ext s R R' B B' :
  (forall k, R k = R' k) -> (forall k, B k = B' k) -> wf s R B -> wf s R' B'.
Proof.
  intros HR HB [He Hn Hr Hz Hk Ha Hi Hu]. split.
  - intros k e. rewrite <- HR, <- HB. apply He.
  - intros k. rewrite <- HR. apply Hn.
  - intros k. rewrite <- HR. apply Hr.
  - intros k. rewrite <- HR, <- HB. apply Hz.
  - intros k. rewrite <- HB. apply Hk.
  - intros kd. split; [apply Ha|]. intros k. rewrite <- HR. apply Ha.
  - split; [apply Hi|]. intros k. rewrite <- HR. apply Hi.
  - done.
Qed.

Lemma wf_exists s R B k : wf s R B -> R k <> 0 -> exists e, entries s !! k = Some e.
Proof.
  intros Hwf HR. destruct (entries s !! k) eqn:E; [eauto|]. by apply (wf_none _ _ _ Hwf) in E.
Qed.

(** ** Lists *)

Lemma elem_of_remove_key l k k' : NoDup l -> k' ∈ remove_key l k <-> k' ∈ l /\ k' <> k.
Proof.
  induction 1 as [|x l Hx Hnd IH]; simpl; [set_solver|].
  case_bool_decide; subst; set_solver.
Qed.

Lemma NoDup_remove_key l k : NoDup l -> NoDup (remove_key l k).
Proof.
  induction 1 as [|x l Hx Hnd IH]; simpl; [constructor|].
  case_bool_decide; [done|]. constructor; [|done].
  rewrite elem_of_remove_key by done. tauto.
Qed.

Lemma NoDup_snoc {A} (l : list A) x : NoDup l -> x ∉ l -> NoDup (l ++ [x]).
Proof.
  intros Hl Hx. apply NoDup_app. split; [done|]. split; [|apply NoDup_singleton].
  intros y Hy ->%list_elem_of_singleton. done.
Qed.

Lemma list_for_set_kind s kd kd' l :
  list_for_kind (set_list_for_kind kd l s) kd' = if bool_decide (kd' = kd) then l else list_for_kind s kd'.
Proof. by destruct kd, kd'. Qed.

Lemma set_kind_fields s kd l :
  entries (set_list_for_kind kd l s) = entries s /\
  inactive (set_list_for_kind kd l s) = inactive s /\
  imports (set_list_for_kind kd l s) = imports s.
Proof. by destruct kd. Qed.

Lemma entries_set_kind s kd l : entries (set_list_for_kind kd l s) = entries s.
Proof. by destruct kd. Qed.
Lemma inactive_set_kind s kd l : inactive (set_list_for_kind kd l s) = inactive s.
Proof. by destruct kd. Qed.
Lemma imports_set_kind s kd l : imports (set_list_for_kind kd l s) = imports s.
Proof. by destruct kd. Qed.
Lemma list_for_set_entries s m kd : list_for_kind (set_entries m s) kd = list_for_kind s kd.
Proof. by destruct kd. Qed.
Lemma list_for_set_inactive s l kd : list_for_kind (set_inactive l s) kd = list_for_kind s kd.
Proof. by destruct kd. Qed.
Lemma list_for_set_imports s m kd : list_for_kind (set_imports m s) kd = list_for_kind s kd.
Proof. by destruct kd. Qed.

Create Rewrite HintDb resource.
#[export] Hint Rewrite entries_set_kind inactive_set_kind imports_set_kind list_for_set_entries
  list_for_set_inactive list_for_set_imports list_for_set_kind : resource.
Ltac rsimpl := autorewrite with resource in *; simpl in *; autorewrite with resource in *.

Lemma bump_eq {A} `{EqDecision A} (f : A -> Z) k d : bump f k d k = f k + d.
Proof. unfold bump. by rewrite bool_decide_true. Qed.
Lemma bump_ne {A} `{EqDecision A} (f : A -> Z) k k' d : k' <> k -> bump f k d k' = f k'.
Proof. intros. unfold bump. by rewrite bool_decide_false. Qed.
#[export] Hint Rewrite @bump_eq : resource.
#[export] Hint Rewrite @bump_ne using congruence : resource.

(** ** Changing one key

    Every critical section changes the books, the entry and the places in the
    lists of a single key. *)

Definition entry_ok (k : Key) (r b : Z) (e : Entry) : Prop :=
  entry_key e = k /\ refcount e = r /\ remote_balance e = wrap_i64 b /\
  (when_expires e = None <-> r <> 0) /\
  (kind k = Unlimited -> sample_value (local_balance e) = 0).

Lemma wf_entry_ok s R B k e : wf s R B -> entries s !! k = Some e -> entry_ok k (R k) (B k) e.
Proof.
  intros Hwf He. destruct (wf_entry _ _ _ Hwf k e He) as (? & ? & ? & ?).
  split_and!; try done. by apply (wf_unlimited _ _ _ Hwf).
Qed.

Lemma wf_at s s' R R' B B' k e' :
  wf s R B -> entries s' = <[k := e']> (entries s) ->
  (forall k', k' <> k -> R' k' = R k' /\ B' k' = B k') ->
  entry_ok k (R' k) (B' k) e' -> 0 <= R' k <= u64_max ->
  (R' k = 0 -> B' k = 0) -> (kind k <> Inbound -> B' k = 0) ->
  (forall kd, NoDup (list_for_kind s' kd)) -> NoDup (inactive s') ->
  (forall kd, k ∈ list_for_kind s' kd <-> kind k = kd /\ R' k <> 0) ->
  (k ∈ inactive s' <-> R' k = 0) ->
  (forall kd k', k' <> k -> k' ∈ list_for_kind s' kd <-> k' ∈ list_for_kind s kd) ->
  (forall k', k' <> k -> k' ∈ inactive s' <-> k' ∈ inactive s) ->
  wf s' R' B'.
Proof.
  intros Hwf Hs' Hoff (O1 & O2 & O3 & O4 & O5) Hr' Hz' Hk' Hnd Hndi Hlk Hik Hl Hi'.
  destruct Hwf as [He Hn Hr Hz Hk Ha Hi Hu].
  assert (forall k', k' <> k -> entries s' !! k' = entries s !! k') as Hne
    by (intros; rewrite Hs'; by apply lookup_insert_ne).
  assert (entries s' !! k = Some e') as Heq by (rewrite Hs'; apply lookup_insert_eq).
  split.
  - intros k' e. destruct (decide (k' = k)) as [->|N]; [by rewrite Heq; intros [= <-]|].
    rewrite Hne by done. destruct (Hoff k' N) as [-> ->]. apply He.
  - intros k'. destruct (decide (k' = k)) as [->|N]; [by rewrite Heq|].
    rewrite Hne by done. destruct (Hoff k' N) as [-> _]. apply Hn.
  - intros k'. destruct (decide (k' = k)) as [->|N]; [done|]. destruct (Hoff k' N) as [-> _]. apply Hr.
  - intros k'. destruct (decide (k' = k)) as [->|N]; [done|]. destruct (Hoff k' N) as [-> ->]. apply Hz.
  - intros k'. destruct (decide (k' = k)) as [->|N]; [done|]. destruct (Hoff k' N) as [_ ->]. apply Hk.
  - intros kd. split; [done|]. intros k'. destruct (decide (k' = k)) as [->|N]; [done|].
    rewrite Hl by done. destruct (Hoff k' N) as [-> _]. apply Ha.
  - split; [done|]. intros k'. destruct (decide (k' = k)) as [->|N].
    + rewrite Heq. naive_solver.
    + rewrite Hi', Hne by done. destruct (Hoff k' N) as [-> _]. apply Hi.
  - intros k' e. destruct (decide (k' = k)) as [->|N]; [by rewrite Heq; intros [= <-]|].
    rewrite Hne by done. apply Hu.
Qed.

(** The entry changes and the lists stay. *)
Lemma wf_put s R B B' k e e' :
  wf s R B -> entries s !! k = Some e -> (forall k', k' <> k -> B' k' = B k') ->
  (R k = 0 -> B' k = 0) -> (kind k <> Inbound -> B' k = 0) ->
  entry_ok k (R k) (B' k) e' -> wf (set_entries (<[k := e']> (entries s)) s) R B'.
Proof.
  intros Hwf He HB Hz Hk Hok.
  eapply (wf_at s _ R R B B' k e'); try done; simpl; intros;
    rewrite ?list_for_set_entries; try apply Hwf; auto.
  rewrite (proj2 (wf_inactive _ _ _ Hwf)), He. naive_solver.
Qed.

(** The balances are charged and decayed in place. *)
Lemma wf_local s R B k e e' :
  wf s R B -> entries s !! k = Some e ->
  entry_key e' = entry_key e -> refcount e' = refcount e ->
  remote_balance e' = remote_balance e -> when_expires e' = when_expires e ->
  (kind k = Unlimited -> sample_value (local_balance e) = 0 -> sample_value (local_balance e') = 0) ->
  wf (set_entries (<[k := e']> (entries s)) s) R B.
Proof.
  intros Hwf He H1 H2 H3 H4 H5. destruct (wf_entry_ok _ _ _ _ _ Hwf He) as (O1 & O2 & O3 & O4 & O5).
  eapply (wf_put s R B B k e); try done; [apply Hwf .. |].
  unfold entry_ok. rewrite H1, H2, H3, H4. naive_solver.
Qed.

Lemma wrap_i64_add a b : wrap_i64 (wrap_i64 a + b) = wrap_i64 (a + b).
Proof.
  unfold wrap_i64. f_equal.
  replace (_ - _ + b + _) with ((a + 9223372036854775808) mod u64_modulus + b) by lia.
  rewrite Z.add_mod_idemp_l by done. f_equal. lia.
Qed.

(** A reported balance is added to an entry that is referenced. *)
Lemma wf_remote s R B k d :
  wf s R B -> R k <> 0 -> kind k = Inbound ->
  wf (update_entry k (fun e => set_remote (wrap_i64 (remote_balance e + d)) e) s) R (bump B k d).
Proof.
  intros Hwf HR Hin. destruct (wf_exists _ _ _ k Hwf HR) as [e Hke].
  unfold update_entry. rewrite Hke. eapply (wf_put s R B); try done; rsimpl.
  - intros. by rewrite bump_ne.
  - destruct (wf_entry_ok _ _ _ _ _ Hwf Hke) as (O1 & O2 & O3 & O4 & O5).
    split_and!; try done. simpl. rewrite O3. apply wrap_i64_add.
Qed.

(** A reference is taken. *)
Lemma wf_acquire s R B k now :
  wf s R B -> R k < u64_max -> wf (create_or_acquire_key_locked s k now) (bump R k 1) B.
Proof.
  intros Hwf Hlt. pose proof (wf_range _ _ _ Hwf k) as Hr.
  unfold create_or_acquire_key_locked, push_back_kind.
  set (e := default (entry_new k now) (entries s !! k)).
  assert (entry_key e = k /\ refcount e = R k /\ remote_balance e = wrap_i64 (B k) /\
    (R k <> 0 -> when_expires e = None) /\
    (kind k = Unlimited -> sample_value (local_balance e) = 0)) as (O1 & O2 & O3 & O4 & O5).
  { unfold e. destruct (entries s !! k) as [e0|] eqn:E; simpl.
    - destruct (wf_entry_ok _ _ _ _ _ Hwf E) as (? & ? & ? & ? & ?). naive_solver.
    - pose proof (wf_none _ _ _ Hwf k E) as H0. rewrite H0, (wf_zero _ _ _ Hwf k H0). done. }
  assert (wrap_u64 (refcount e + 1) = R k + 1) as Hw
    by (rewrite O2; apply wrap_u64_id; unfold in_u64 in *; lia).
  destruct (wf_inactive _ _ _ Hwf) as [Hndi Hi].
  destruct (refcount e =? 0) eqn:E0.
  - apply Z.eqb_eq in E0. eapply (wf_at s _ R _ B B k); try done; rsimpl; try done; intros; rsimpl; try done; try lia.
    + unfold entry_ok. simpl. split_and!; try done. split; [lia|done].
    + by apply (wf_kind _ _ _ Hwf).
    + destruct (wf_active _ _ _ Hwf kd) as [Hnd Hl]. case_bool_decide as Hkd; [subst kd|done].
      apply NoDup_snoc; [done|]. rewrite Hl. lia.
    + by apply NoDup_remove_key.
    + destruct (wf_active _ _ _ Hwf kd) as [Hnd Hl]. case_bool_decide as Hkd; [subst kd|].
      * rewrite elem_of_app, list_elem_of_singleton. naive_solver lia.
      * rewrite Hl. naive_solver.
    + rewrite elem_of_remove_key by done. naive_solver lia.
    + case_bool_decide as Hkd; [subst kd|done]. set_solver.
    + rewrite elem_of_remove_key by done. naive_solver.
  - apply Z.eqb_neq in E0.
    assert (is_Some (entries s !! k)) as Hs by (destruct (wf_exists _ _ _ k Hwf ltac:(lia)) as [? ->]; done).
    rewrite bool_decide_true by done. simpl.
    eapply (wf_at s _ R _ B B k); try done; rsimpl; try done; intros; rsimpl; try done; try lia.
    + unfold entry_ok. simpl. split_and!; try done. split; [lia|]. intros _. apply O4. lia.
    + by apply (wf_kind _ _ _ Hwf).
    + apply (wf_active _ _ _ Hwf).
    + rewrite (proj2 (wf_active _ _ _ Hwf kd)). naive_solver lia.
    + rewrite Hi. naive_solver lia.
Qed.

(** A reference is given back; the last one starts the expiry. *)
Lemma wf_release s R B k now :
  wf s R B -> R k <> 0 -> (R k = 1 -> B k = 0) -> now + SECONDS_UNTIL_EXPIRATION <= instant_max ->
  exists r s', release_key_locked s k now = Ok (r, s') /\ wf s' (bump R k (-1)) B /\ imports s' = imports s.
Proof.
  intros Hwf HR HB Hnow. pose proof (wf_range _ _ _ Hwf k) as Hr.
  destruct (wf_exists _ _ _ k Hwf HR) as [e Hke]. unfold release_key_locked. rewrite Hke.
  destruct (wf_entry_ok _ _ _ _ _ Hwf Hke) as (O1 & O2 & O3 & O4 & O5).
  destruct (wf_inactive _ _ _ Hwf) as [Hndi Hi].
  destruct (refcount e =? 0) eqn:E0; [lia|]. simpl.
  destruct (refcount e - 1 =? 0) eqn:E1.
  - apply Z.eqb_eq in E1. unfold instant_add. rewrite (proj2 (Z.leb_le _ _)) by done. simpl.
    eexists _, _. split; [done|]. split; [|by rsimpl].
    eapply (wf_at s _ R _ B B k); try done; rsimpl; try done; intros; rsimpl; try done; try lia.
    + unfold entry_ok. simpl. split_and!; try done; [lia|]. split; [done|lia].
    + destruct (wf_active _ _ _ Hwf kd) as [Hnd Hl]. case_bool_decide as Hkd; [subst kd|done].
      by apply NoDup_remove_key.
    + apply NoDup_snoc; [done|]. rewrite Hi. naive_solver lia.
    + destruct (wf_active _ _ _ Hwf kd) as [Hnd Hl]. case_bool_decide as Hkd; [subst kd|].
      * rewrite elem_of_remove_key by done. naive_solver lia.
      * rewrite Hl. naive_solver.
    + rewrite elem_of_app, list_elem_of_singleton. naive_solver lia.
    + case_bool_decide as Hkd; [subst kd|done]. rewrite elem_of_remove_key by apply Hwf. naive_solver.
    + set_solver.
  - apply Z.eqb_neq in E1. eexists _, _. split; [done|]. split; [|done].
    eapply (wf_at s _ R _ B B k); try done; rsimpl; try done; intros; rsimpl; try done; try lia.
    + unfold entry_ok. simpl. split_and!; try done; [lia|]. rewrite O4. lia.
    + by apply (wf_kind _ _ _ Hwf).
    + apply (wf_active _ _ _ Hwf).
    + rewrite (proj2 (wf_active _ _ _ Hwf kd)). naive_solver lia.
    + rewrite Hi. naive_solver lia.
Qed.

(** ** What holds references

    A key is referenced by the live consumers and by the references waiting to be
    given back, both in [held]; by import items not yet filed, [extra]; and by the
    items of the filed imports. Only items carry a balance. *)

Definition one (k k' : Key) : Z := if bool_decide (k' = k) then 1 else 0.
Definition item_one (k : Key) (it : ImportItem) : Z := one k (item_key it).
Definition item_bal (k : Key) (it : ImportItem) : Z :=
  if bool_decide (item_key it = k) then item_balance it else 0.

Definition refs (held : list Key) (extra : list ImportItem) (m : gmap string Import) (k : Key) : Z :=
  zsum (one k) held + zsum (item_one k) extra + msum (fun i => zsum (item_one k) (import_items i)) m.
Definition bals (extra : list ImportItem) (m : gmap string Import) (k : Key) : Z :=
  zsum (item_bal k) extra + msum (fun i => zsum (item_bal k) (import_items i)) m.
Definition total (held : list Key) (extra : list ImportItem) (m : gmap string Import) : Z :=
  Z.of_nat (length held) + Z.of_nat (length extra) +
  msum (fun i => Z.of_nat (length (import_items i))) m.

Definition is_inbound (it : ImportItem) : Prop := kind (item_key it) = Inbound.

Record books (s : ResourceState) (held : list Key) (extra : list ImportItem) : Prop := {
  books_wf : wf s (refs held extra (imports s)) (bals extra (imports s));
  books_extra : Forall is_inbound extra;
  books_imports : forall o i, imports s !! o = Some i -> Forall is_inbound (import_items i)
}.

Lemma one_range k k' : 0 <= one k k' <= 1.
Proof. unfold one. case_bool_decide; lia. Qed.

Lemma one_refl k : one k k = 1.
Proof. unfold one. by rewrite bool_decide_true. Qed.

Lemma held_range k l : 0 <= zsum (one k) l <= Z.of_nat (length l).
Proof. induction l as [|a l IH]; simpl; [lia|]. pose proof (one_range k a). lia. Qed.

Lemma items_range k l : 0 <= zsum (item_one k) l <= Z.of_nat (length l).
Proof.
  induction l as [|a l IH]; simpl; [lia|]. unfold item_one at 1 3. pose proof (one_range k (item_key a)). lia.
Qed.

Lemma items_zero k l : zsum (item_one k) l = 0 -> zsum (item_bal k) l = 0.
Proof.
  induction l as [|a l IH]; simpl; [done|]. pose proof (items_range k l) as Hl.
  unfold item_one at 1, item_bal at 1, one. case_bool_decide; intros; [lia|]. rewrite IH; lia.
Qed.

Lemma imports_one_nonneg k (m : gmap string Import) o i :
  m !! o = Some i -> 0 <= zsum (item_one k) (import_items i).
Proof. intros _. apply items_range. Qed.

Lemma refs_range held extra m k : 0 <= refs held extra m k <= total held extra m.
Proof.
  unfold refs, total. pose proof (held_range k held). pose proof (items_range k extra).
  pose proof (msum_nonneg (fun i => zsum (item_one k) (import_items i)) m (imports_one_nonneg k m)).
  assert (msum (fun i => zsum (item_one k) (import_items i)) m
          <= msum (fun i => Z.of_nat (length (import_items i))) m); [|lia].
  apply zsum_mono. intros x _. apply items_range.
Qed.

Lemma refs_zero_bals held extra m k : refs held extra m k = 0 -> bals extra m k = 0.
Proof.
  unfold refs, bals. intros H. pose proof (held_range k held).
  pose proof (items_range k extra).
  pose proof (msum_nonneg (fun i => zsum (item_one k) (import_items i)) m (imports_one_nonneg k m)).
  rewrite items_zero by lia.
  rewrite msum_zero; [done|]. intros o i Hi. apply items_zero.
  pose proof (msum_elem_le (fun i => zsum (item_one k) (import_items i)) o i m
                (imports_one_nonneg k m) Hi).
  pose proof (imports_one_nonneg k m o i Hi). simpl in *. lia.
Qed.

Lemma items_inbound k l : Forall is_inbound l -> kind k <> Inbound -> zsum (item_bal k) l = 0.
Proof.
  induction 1 as [|a l Ha _ IH]; intros Hk; simpl; [done|]. rewrite IH by done.
  unfold item_bal. rewrite bool_decide_false; [done|]. intros <-. done.
Qed.

Lemma refs_cons held extra m k k' : refs (k :: held) extra m k' = bump (refs held extra m) k 1 k'.
Proof.
  unfold refs, bump, one. simpl. case_bool_decide as H1; case_bool_decide as H2; subst; try done; lia.
Qed.

Lemma refs_move held extra m it k :
  refs (item_key it :: held) extra m k = refs held (it :: extra) m k.
Proof. unfold refs, item_one. simpl. lia. Qed.

Lemma bals_cons extra m it k :
  bals (it :: extra) m k = bump (bals extra m) (item_key it) (item_balance it) k.
Proof.
  unfold bals, bump, item_bal. simpl. repeat case_bool_decide; subst; try done; lia.
Qed.

Lemma refs_held_pos held extra m k : k ∈ held -> refs held extra m k <> 0.
Proof.
  intros (l1 & l2 & ->)%list_elem_of_split. unfold refs. rewrite zsum_app. simpl. rewrite one_refl.
  pose proof (held_range k l1). pose proof (held_range k l2).
  pose proof (items_range k extra).
  pose proof (msum_nonneg (fun i => zsum (item_one k) (import_items i)) m (imports_one_nonneg k m)).
  lia.
Qed.

Lemma books_perm s held held' extra extra' :
  held ≡ₚ held' -> extra ≡ₚ extra' -> books s held extra -> books s held' extra'.
Proof.
  intros Hh He [Hwf Hx Hi]. split; [|by rewrite <- He|done].
  eapply wf_ext; [| |exact Hwf]; intros k; unfold refs, bals; by rewrite <- ?Hh, <- ?He.
Qed.

Lemma imports_acquire s k now : imports (create_or_acquire_key_locked s k now) = imports s.
Proof.
  unfold create_or_acquire_key_locked, push_back_kind. repeat case_match; by rsimpl.
Qed.
Lemma imports_update s k f : imports (update_entry k f s) = imports s.
Proof. unfold update_entry. by case_match. Qed.
#[export] Hint Rewrite imports_acquire imports_update : resource.

(** ** The critical sections keep the books *)

Lemma books_acquire s held extra k now :
  books s held extra -> total held extra (imports s) < u64_max ->
  books (create_or_acquire_key_locked s k now) (k :: held) extra.
Proof.
  intros [Hwf Hx Hi] Ht. split; rewrite ?imports_acquire; try done.
  eapply wf_ext; [intros; symmetry; apply refs_cons | done |].
  apply wf_acquire; [done|]. pose proof (refs_range held extra (imports s) k). lia.
Qed.

Lemma books_credit s held extra it :
  books s (item_key it :: held) extra -> is_inbound it ->
  books (update_entry (item_key it)
    (fun e => set_remote (wrap_i64 (remote_balance e + item_balance it)) e) s) held (it :: extra).
Proof.
  intros [Hwf Hx Hi] Hin. split; rewrite ?imports_update; try done; [|by constructor].
  eapply wf_ext; [intros; apply refs_move | intros; symmetry; apply bals_cons |].
  apply wf_remote; [done | | done]. apply refs_held_pos. left.
Qed.

Lemma books_debit s held extra it :
  books s held (it :: extra) ->
  books (update_entry (item_key it)
    (fun e => set_remote (wrap_i64 (remote_balance e - item_balance it)) e) s)
    (item_key it :: held) extra.
Proof.
  intros [Hwf Hx Hi]. inversion Hx as [|? ? Hin Hx']; subst. split; rewrite ?imports_update; try done.
  assert (refs held (it :: extra) (imports s) (item_key it) <> 0) as Hne
    by (rewrite <- refs_move; apply refs_held_pos; left).
  eapply wf_ext; [intros; symmetry; apply refs_move | |
                  exact (wf_remote s _ _ (item_key it) (- item_balance it) Hwf Hne Hin)].
  intros k. unfold bump. rewrite bals_cons. unfold bump. case_bool_decide; lia.
Qed.

Lemma books_release s held extra k now :
  books s (k :: held) extra -> now + SECONDS_UNTIL_EXPIRATION <= instant_max ->
  exists r s', release_key_locked s k now = Ok (r, s') /\ books s' held extra.
Proof.
  intros [Hwf Hx Hi] Hnow.
  destruct (wf_release _ _ _ k now Hwf) as (r & s' & Hr & Hwf' & Him); [| |done|].
  - apply refs_held_pos. left.
  - rewrite refs_cons, bump_eq. intros. apply (refs_zero_bals held). lia.
  - exists r, s'. split; [done|]. split; rewrite ?Him; try done.
    eapply wf_ext; [|done|exact Hwf']. intros k'. unfold bump at 1. rewrite refs_cons. unfold bump.
    case_bool_decide; lia.
Qed.

(** ** Imports *)

Lemma books_import_item now s held extra g acc :
  books s held (extra ++ acc) -> total held (extra ++ acc) (imports s) < u64_max ->
  exists it s', import_item now (s, extra) g = (s', extra ++ [it]) /\
    item_balance it = gossip_balance g /\
    item_key it = mkKey Inbound (normalize_inbound_address (gossip_address g)) /\
    imports s' = imports s /\ books s' held ((extra ++ [it]) ++ acc).
Proof.
  intros Hb Ht. unfold import_item. simpl.
  set (it := mkImportItem (gossip_balance g) (mkKey Inbound (normalize_inbound_address (gossip_address g)))).
  exists it. eexists. split; [done|]. split_and!; try done; [by rsimpl|].
  eapply (books_perm _ held held (it :: extra ++ acc)); [done| |].
  { rewrite <- app_assoc. simpl. by rewrite Permutation_middle. }
  change (mkKey Inbound _) with (item_key it). change (gossip_balance g) with (item_balance it).
  apply books_credit; [|done]. by apply books_acquire.
Qed.

Lemma books_import_loop now gossip s held extra :
  books s held extra -> total held extra (imports s) + Z.of_nat (length gossip) <= u64_max ->
  exists s' items, foldl (import_item now) (s, extra) gossip = (s', extra ++ items) /\
    length items = length gossip /\ imports s' = imports s /\ books s' held (extra ++ items).
Proof.
  revert s extra. induction gossip as [|g gossip IH]; intros s extra Hb Ht; simpl.
  { exists s, []. by rewrite app_nil_r. }
  destruct (books_import_item now s held extra g []) as (it & s1 & -> & _ & _ & Him & Hb1).
  { by rewrite app_nil_r. }
  { rewrite app_nil_r. simpl in Ht. lia. }
  rewrite app_nil_r in Hb1.
  destruct (IH s1 (extra ++ [it])) as (s' & items & -> & Hlen & Him' & Hb'); [done| |].
  { rewrite Him. unfold total in *. rewrite length_app. simpl in *. lia. }
  exists s', (it :: items). rewrite <- app_assoc in *. simpl in *.
  split_and!; [done | by rewrite Hlen | congruence | done].
Qed.

Lemma imports_unimport items s : imports (unimport items s) = imports s.
Proof.
  unfold unimport. revert s. induction items as [|it items IH]; intros s; simpl; [done|].
  rewrite IH. by rsimpl.
Qed.

Lemma books_unimport items s held extra :
  books s held (items ++ extra) -> books (unimport items s) (map item_key items ++ held) extra.
Proof.
  unfold unimport. revert s held. induction items as [|it items IH]; intros s held Hb; simpl; [done|].
  eapply books_perm; [|done|apply IH; by apply books_debit].
  by rewrite Permutation_middle.
Qed.

(** Filing an import under its origin takes the one it replaces off the books. *)
Lemma wf_set_imports s m R B : wf s R B -> wf (set_imports m s) R B.
Proof. by intros [He Hn Hr Hz Hk Ha Hi Hu]. Qed.

Definition items_of (i : option Import) : list ImportItem := from_option import_items [] i.

Lemma msum_file (f : ImportItem -> Z) (m : gmap string Import) o i :
  msum (fun i => zsum f (import_items i)) (<[o := i]> m) + zsum f (items_of (m !! o))
    = msum (fun i => zsum f (import_items i)) m + zsum f (import_items i).
Proof.
  destruct (m !! o) eqn:E; simpl; [rewrite (msum_insert_old _ _ _ _ _ E) | rewrite msum_insert_new by done]; lia.
Qed.

Lemma books_file s held o i :
  books s held (import_items i) ->
  books (set_imports (<[o := i]> (imports s)) s) held (items_of (imports s !! o)).
Proof.
  intros [Hwf Hx Hi]. split; simpl.
  - apply wf_set_imports. eapply wf_ext; [| |exact Hwf]; intros k; unfold refs, bals;
      [pose proof (msum_file (item_one k) (imports s) o i) | pose proof (msum_file (item_bal k) (imports s) o i)];
      lia.
  - destruct (imports s !! o) eqn:E; [by eapply Hi | constructor].
  - intros o' i'. destruct (decide (o' = o)) as [->|Hne].
    + rewrite lookup_insert_eq. by intros [= <-].
    + rewrite lookup_insert_ne by done. apply Hi.
Qed.

Lemma books_unfile s held o i :
  books s held [] -> imports s !! o = Some i ->
  books (set_imports (delete o (imports s)) s) held (import_items i).
Proof.
  intros [Hwf Hx Hi] Ho. split; simpl; [|by eapply Hi|].
  - apply wf_set_imports. eapply wf_ext; [| |exact Hwf]; intros k; unfold refs, bals;
      rewrite (msum_delete _ _ _ _ Ho); simpl; lia.
  - intros o' i' [_ Ho']%lookup_delete_Some. by eapply Hi.
Qed.

Lemma books_import s held origin gossip now expires :
  books s held [] -> total held [] (imports s) + Z.of_nat (length gossip) <= u64_max ->
  exists s', import_section s now expires origin gossip = (imports s !! origin, s') /\
    books s' (map item_key (items_of (imports s !! origin)) ++ held) [].
Proof.
  intros Hb Ht. unfold import_section.
  destruct (books_import_loop now gossip s held [] Hb Ht) as (s1 & items & -> & _ & Him & Hb1).
  simpl. rewrite Him. eexists. split; [done|].
  pose proof (books_file s1 held origin (mkImport expires items) Hb1) as Hb2. rewrite Him in Hb2.
  destruct (imports s !! origin) as [p|]; [|done].
  apply books_unimport. by rewrite app_nil_r.
Qed.

(** ** Expiry *)

Lemma wf_forget s R B k l :
  wf s R B -> inactive s = k :: l ->
  wf (set_inactive l (set_entries (delete k (entries s)) s)) R B.
Proof.
  intros [He Hn Hr Hz Hk Ha [Hnd Hi] Hu] Hl. rewrite Hl in *.
  apply NoDup_cons in Hnd as [Hkl Hnd].
  assert (R k = 0) as Hk0 by (apply Hi; left). split; simpl; try done.
  - intros k' e [_ Hk']%lookup_delete_Some. by apply He.
  - intros k' [->|Hk']%lookup_delete_None; auto.
  - split; [done|]. intros k'. destruct (decide (k' = k)) as [->|Hne].
    + rewrite lookup_delete_eq. split; [done|]. by intros [[? [=]] _].
    + rewrite lookup_delete_ne by done. rewrite <- Hi. set_solver.
  - intros k' e [_ Hk']%lookup_delete_Some. by apply Hu.
Qed.

(** What the loop leaves: a tail of the inactive list, with the entries of the
    head forgotten. Each forgotten entry was unreferenced and due. *)
Lemma wf_expire_loop l now s R B :
  wf s R B -> inactive s = l ->
  exists gone rest log m,
    expire_loop l now (entries s) = (log, (rest, m)) /\ l = gone ++ rest /\
    wf (set_inactive rest (set_entries m s)) R B /\
    (forall k, k ∈ gone -> exists e t, entries s !! k = Some e /\ R k = 0 /\
       when_expires e = Some t /\ t <= now) /\
    (forall k, m !! k = if decide (k ∈ gone) then None else entries s !! k) /\
    (forall k, head rest = Some k -> exists e t, entries s !! k = Some e /\
       when_expires e = Some t /\ now < t).
Proof.
  revert s. induction l as [|k l IH]; intros s Hwf Hl; simpl.
  { exists [], [], [], (entries s). split_and!; try done.
    - destruct s. simpl in *. by subst.
    - set_solver. }
  pose proof (wf_inactive _ _ _ Hwf) as [Hnd Hi]. rewrite Hl in Hnd.
  apply NoDup_cons in Hnd as [Hkl _].
  assert (is_Some (entries s !! k) /\ R k = 0) as [[e He] Hk0] by (apply Hi; rewrite Hl; left).
  rewrite He. destruct (wf_entry_ok _ _ _ _ _ Hwf He) as (_ & _ & _ & Hexp & _).
  destruct (when_expires e) as [t|] eqn:Et; [|exfalso; by apply Hexp].
  destruct (now <? t) eqn:Hlt.
  - exists [], (k :: l), [], (entries s). split_and!; try done.
    + destruct s. simpl in *. by subst.
    + set_solver.
    + intros k' [= <-]. exists e, t. split_and!; try done. lia.
  - pose proof (wf_forget s R B k l Hwf Hl) as Hwf1.
    destruct (IH _ Hwf1 eq_refl) as (gone & rest & log & m & E & -> & Hw & Hg & Hm & Hr).
    simpl in *. rewrite E. exists (k :: gone), rest, (entry_string e :: log), m.
    split_and!; try done.
    + intros k' [->|Hk']%elem_of_cons; [exists e, t; split_and!; try done; lia|].
      destruct (Hg k' Hk') as (e' & t' & [_ H1]%lookup_delete_Some & H2). naive_solver.
    + intros k'. rewrite Hm. destruct (decide (k' = k)) as [->|Hne].
      * rewrite (decide_True (P := k ∈ k :: gone)) by left. case_decide; [done|]. apply lookup_delete_eq.
      * rewrite lookup_delete_ne by done. repeat case_decide; set_solver.
    + intros k' Hk'. destruct (Hr k' Hk') as (e' & t' & [_ H1]%lookup_delete_Some & H2). naive_solver.
Qed.

Lemma books_expire_inactive s held now :
  books s held [] -> books (expire_inactive s now).2 held [] /\ imports (expire_inactive s now).2 = imports s.
Proof.
  intros [Hwf Hx Hi]. unfold expire_inactive.
  destruct (wf_expire_loop _ now s _ _ Hwf eq_refl) as (gone & rest & log & m & -> & _ & Hw & _).
  simpl. done.
Qed.

Section Periodic.
Context `{!HashOrder}.

Definition expired_keys (l : list Import) : list Key := map item_key (l ≫= import_items).

Lemma books_expire_imports s held now :
  books s held [] ->
  exists l s', expire_imports s now = (l, s') /\ books s' (expired_keys l ++ held) [].
Proof.
  intros Hb. unfold expire_imports. generalize (map fst (filter (fun p : string * Import =>
    import_expires p.2 <= now) (hash_iter (imports s)))) as origins. intros origins.
  assert (forall acc s, books s (expired_keys acc ++ held) [] ->
    exists l s', foldl (fun acc origin =>
      match imports acc.2 !! origin with
      | None => acc
      | Some import =>
          let s := set_imports (delete origin (imports acc.2)) acc.2 in
          (acc.1 ++ [import], unimport (import_items import) s)
      end) (acc, s) origins = (l, s') /\ books s' (expired_keys l ++ held) []) as G;
    [|by apply (G [])].
  clear s Hb. induction origins as [|o origins IH]; intros acc s Hb; simpl; [eauto|].
  destruct (imports s !! o) as [i|] eqn:E; [|by apply IH].
  apply IH. eapply books_perm; [|done|].
  2: { apply books_unimport. rewrite app_nil_r. eapply books_unfile; [done|exact E]. }
  unfold expired_keys. rewrite bind_app, map_app. simpl. rewrite app_nil_r, !app_assoc.
  apply Permutation_app_tail, Permutation_app_comm.
Qed.

End Periodic.
