(* ===== verification/ResourceTheorems.v ===== *)
(** * Resource manager: theorems

    The manager with its clients as a transition system: the live consumers, the
    references a thread still has to give back after it left the critical section
    of [import_consumers] or [periodic_activity], and one operation per critical
    section, in any order. In every reachable state the accounting is exact, no
    operation panics, a referenced entry is never forgotten and an unlimited
    endpoint is never warned or dropped. *)

From stdpp Require Import strings.
From S2P Require Import Prelude Chrono Stateful Resource ResourceInv.

(** ** The decaying sample *)

Lemma decay_zero W s now : sample_value s = 0 -> sample_value (decay W s now) = 0.
Proof. intros H. unfold decay. case_match; [done|]. simpl. by rewrite H. Qed.

(** One turn takes the [W]-th part, rounded up. *)
Lemma decay_once_spec W v :
  0 < W < 4294967296 -> 0 <= v < 4611686018427387904 ->
  decay_once W v = v - (v + W - 1) / W /\ 0 <= decay_once W v <= v /\
  W * decay_once W v <= (W - 1) * v /\ (0 < v -> decay_once W v < v).
Proof.
  intros HW Hv. unfold decay_once.
  rewrite (wrap_i64_id (v + W)), (wrap_i64_id (v + W - 1)) by lia.
  rewrite Z.quot_div_nonneg by lia.
  assert (0 <= (v + W - 1) / W <= v) as Hq.
  { split; [apply Z.div_pos; lia|]. destruct (decide (v = 0)) as [->|Hv0].
    - rewrite Z.div_small; lia.
    - apply Z.div_le_upper_bound; [lia|]. nia. }
  rewrite wrap_i64_id by lia. split_and!; [done|lia|lia| |].
  - pose proof (Z.div_mod (v + W - 1) W ltac:(lia)). pose proof (Z.mod_pos_bound (v + W - 1) W ltac:(lia)). nia.
  - intros Hpos. assert (1 <= (v + W - 1) / W); [|lia]. apply Z.div_le_lower_bound; lia.
Qed.

Lemma decay_iter W v n :
  0 < W < 4294967296 -> 0 <= v < 4611686018427387904 ->
  0 <= Nat.iter n (decay_once W) v <= v /\
  W ^ Z.of_nat n * Nat.iter n (decay_once W) v <= (W - 1) ^ Z.of_nat n * v.
Proof.
  intros HW Hv. induction n as [|n IH]; [simpl; lia|].
  rewrite Nat.iter_succ. destruct IH as [Hb Hp].
  destruct (decay_once_spec W (Nat.iter n (decay_once W) v)) as (_ & Hr & Hs & _); [lia|lia|].
  split; [lia|]. rewrite Nat2Z.inj_succ, !Z.pow_succ_r by lia.
  assert (0 <= W ^ Z.of_nat n) by (apply Z.pow_nonneg; lia). nia.
Qed.

(** What a sample keeps after [n] whole seconds. *)
Lemma decay_left s now :
  0 <= sample_value s < 4611686018427387904 ->
  let n := as_secs (saturating_duration_since now (sample_when s)) in
  let left := sample_value (decay 32 s now) in
  0 <= left <= sample_value s /\
  (n <= 128 -> 32 ^ n * left <= 31 ^ n * sample_value s) /\
  (128 < n < 9223372036854775808 -> left = 0) /\
  (n = 0 -> left = sample_value s) /\
  sample_when (decay 32 s now) = now.
Proof.
  intros Hv n left.
  assert (0 <= n) as Hn by (apply Z.div_pos; unfold saturating_duration_since; [lia|done]).
  unfold left, decay. destruct (now =? sample_when s) eqn:Et.
  { apply Z.eqb_eq in Et. assert (n = 0) as ->
      by (unfold n, saturating_duration_since; rewrite Et, Z.sub_diag; done).
    split_and!; try lia. }
  cbn [sample_value sample_when]. destruct (sample_value s =? 0) eqn:E0.
  { apply Z.eqb_eq in E0. rewrite E0. split_and!; lia. }
  fold n. destruct (Z_le_gt_dec n 9223372036854775807) as [Hbig|Hbig].
  - rewrite (wrap_i64_id n) by lia. destruct (4 * 32 <? n) eqn:E4; [split_and!; lia|].
    destruct (decay_iter 32 (sample_value s) (Z.to_nat n) ltac:(lia) Hv) as [Hr Hp].
    rewrite Z2Nat.id in Hp by lia. change (32 - 1) with 31 in Hp.
    split_and!; try lia. intros ->. done.
  - match goal with |- 0 <= ?v <= _ /\ _ => assert (0 <= v <= sample_value s) end;
      [case_match; [lia|apply decay_iter; lia] | split_and!; lia].
Qed.

(** ** Updates in place *)

Record local_update (k : Key) (e e' : Entry) : Prop := {
  lu_key : entry_key e' = entry_key e;
  lu_refcount : refcount e' = refcount e;
  lu_remote : remote_balance e' = remote_balance e;
  lu_expires : when_expires e' = when_expires e;
  lu_zero : kind k = Unlimited -> sample_value (local_balance e) = 0 ->
    sample_value (local_balance e') = 0
}.

Lemma lu_balance k e now : local_update k e (balance e now).2.
Proof.
  unfold balance, sample_value_at. split; simpl; try done. intros _. apply decay_zero.
Qed.

Lemma lu_charge k e fee now :
  (kind k = Unlimited -> fee = 0) -> local_update k e (charge_entry e fee now).2.
Proof.
  intros Hf. unfold charge_entry, sample_add. split; simpl; try done.
  intros Hk Hz. rewrite (Hf Hk), decay_zero by done. done.
Qed.

Lemma books_update s held extra k e e' :
  books s held extra -> entries s !! k = Some e -> local_update k e e' ->
  books (set_entries (<[k := e']> (entries s)) s) held extra.
Proof.
  intros [Hwf Hx Hi] He []. split; simpl; try done. by eapply wf_local.
Qed.

Lemma books_live s held extra k : books s held extra -> k ∈ held -> exists e, entries s !! k = Some e.
Proof. intros [Hwf _ _] Hk. eapply wf_exists; [done|]. by apply refs_held_pos. Qed.

(** ** The handlers keep the books *)

Section Handlers.
Context `{!ResourceClock, !HashOrder}.

Definition kept (held : list Key) (w : World) : Prop := books (w_state w) held [].

Lemma wp_clock F (Q : Z -> World -> Prop) w :
  Q (clock_reading (w_reads w)) (count_read w) -> wp F clock_now Q w.
Proof. done. Qed.

Lemma wp_get_entry F k e (Q : Entry -> World -> Prop) w :
  entries (w_state w) !! k = Some e -> Q e w -> wp F (get_entry k) Q w.
Proof. intros He HQ. unfold wp, get_entry. by rewrite He. Qed.

Lemma wp_put_entry F k e e' held (Q : unit -> World -> Prop) w :
  kept held w -> entries (w_state w) !! k = Some e -> local_update k e e' ->
  (forall w', kept held w' -> entries (w_state w') !! k = Some e' -> Q tt w') ->
  wp F (put_entry k e') Q w.
Proof.
  intros Hb He Hl HQ. apply wp_modify. apply HQ; [by eapply books_update|]. simpl. apply lookup_insert_eq.
Qed.

Lemma wp_log F j l m held k e (Q : unit -> World -> Prop) w :
  kept held w -> entries (w_state w) !! k = Some e ->
  (forall w', kept held w' -> entries (w_state w') !! k = Some e -> Q tt w') ->
  wp F (journal_log j l m) Q w.
Proof. intros Hb He HQ. apply wp_modify. by apply HQ. Qed.

Lemma wp_charge_locked held k e fee ctx au w :
  kept held w -> entries (w_state w) !! k = Some e ->
  (au = true -> kind k = Unlimited -> cost fee = 0) ->
  wp False (charge_locked_state k fee ctx au)
    (fun _ w' => kept held w' /\ is_Some (entries (w_state w') !! k)) w.
Proof.
  intros Hb He Hfee. unfold charge_locked_state.
  apply wp_bind, wp_clock, wp_bind. eapply wp_get_entry; [done|].
  destruct (negb au && is_unlimited e) eqn:Hu; [by apply wp_ret|].
  apply wp_bind. eapply (wp_log _ _ _ _ held k e); [done..|]. intros w1 Hb1 He1.
  destruct (charge_entry e (cost fee) _) as [b e'] eqn:Hc.
  assert (e' = (charge_entry e (cost fee) (clock_reading (w_reads w))).2) as -> by by rewrite Hc.
  apply wp_bind. eapply (wp_put_entry _ k e); [done..| |].
  - apply lu_charge. intros Hk. destruct au; [auto|].
    destruct (wf_entry_ok _ _ _ _ _ (books_wf _ _ _ Hb) He) as (Hek & _).
    unfold is_unlimited in Hu. rewrite Hek in Hu. by rewrite bool_decide_true in Hu.
  - intros w2 Hb2 He2. apply wp_ret. eauto.
Qed.

Lemma entry_kind held w k e :
  kept held w -> entries (w_state w) !! k = Some e -> is_unlimited e = bool_decide (kind k = Unlimited).
Proof.
  intros Hb He. destruct (wf_entry_ok _ _ _ _ _ (books_wf _ _ _ Hb) He) as (Hek & _).
  unfold is_unlimited. by rewrite Hek.
Qed.

Lemma wp_warn_locked held k e w :
  kept held w -> entries (w_state w) !! k = Some e ->
  wp False (warn_locked k) (fun b w' => kept held w' /\ (kind k = Unlimited -> b = false)) w.
Proof.
  intros Hb He. unfold warn_locked.
  apply wp_bind, wp_clock, wp_bind. eapply wp_get_entry; [done|].
  rewrite (entry_kind held w k e Hb He). case_bool_decide as Hk; [by apply wp_ret|].
  pose proof (lu_balance k e (clock_reading (w_reads w))) as Hl.
  destruct (balance e _) as [b e']. simpl in Hl. case_match.
  - apply wp_bind. eapply (wp_put_entry _ k e _ held); [done..| |].
    { destruct Hl. by split. }
    intros w1 Hb1 He1. apply wp_bind.
    eapply wp_mono; [eapply (wp_charge_locked held); [done..|]; by intros|].
    intros d w2 [Hb2 _]. repeat wp_step. split; [done|]. done.
  - apply wp_bind. eapply (wp_put_entry _ k e _ held); [done..|]. intros w1 Hb1 He1. by apply wp_ret.
Qed.

Lemma wp_disconnect_locked held k e w :
  kept held w -> entries (w_state w) !! k = Some e ->
  wp False (disconnect_locked k)
    (fun b w' => kept held w' /\ is_Some (entries (w_state w') !! k) /\ (kind k = Unlimited -> b = false)) w.
Proof.
  intros Hb He. unfold disconnect_locked.
  apply wp_bind, wp_clock, wp_bind. eapply wp_get_entry; [done|].
  rewrite (entry_kind held w k e Hb He). case_bool_decide as Hk; [apply wp_ret; eauto|].
  pose proof (lu_balance k e (clock_reading (w_reads w))) as Hl.
  destruct (balance e _) as [b e']. simpl in Hl.
  apply wp_bind. eapply (wp_put_entry _ k e _ held); [done..|]. intros w1 Hb1 He1.
  case_match; [|apply wp_ret; eauto].
  apply wp_bind. eapply (wp_log _ _ _ _ held k e'); [done..|]. intros w2 Hb2 He2.
  apply wp_bind. eapply wp_mono; [eapply (wp_charge_locked held); [done..|]; by intros|].
  intros d w3 [Hb3 He3]. repeat wp_step. split_and!; [done..|]. done.
Qed.

End Handlers.

(** ** Reports only decay balances *)

Lemma books_export keys now s held :
  books s held [] -> books (export_loop keys now s).2 held [].
Proof.
  revert s. induction keys as [|k keys IH]; intros s Hb; [done|].
  cbn [export_loop]. destruct (entries s !! k) as [e|] eqn:E; [|by apply IH].
  pose proof (lu_balance k e now) as Hl. destruct (balance e now) as [b e']. simpl in Hl.
  specialize (IH _ (books_update s held [] k e e' Hb E Hl)).
  by destruct (export_loop keys now _) as [items s'].
Qed.

Lemma books_json kd keys now t s root held :
  books s held [] -> books (json_loop kd keys now t s root).2 held [].
Proof.
  revert s root. induction keys as [|k keys IH]; intros s root Hb; [done|].
  cbn [json_loop]. destruct (entries s !! k) as [e|] eqn:E; [|by apply IH].
  unfold sample_value_at. apply IH. eapply books_update; [done..|].
  pose proof (lu_balance k e now) as []. by split.
Qed.

Lemma books_write keys now s held :
  books s held [] -> books (write_list keys now s).2 held [].
Proof.
  revert s. induction keys as [|k keys IH]; intros s Hb; [done|].
  cbn [write_list]. destruct (entries s !! k) as [e|] eqn:E; [|by apply IH].
  pose proof (lu_balance k e now) as Hl. destruct (balance e now) as [b e']. simpl in Hl.
  specialize (IH _ (books_update s held [] k e e' Hb E Hl)).
  by destruct (write_list keys now _) as [items s'].
Qed.

(** ** The transition system *)

Record System := mkSystem { world : World; live : list Key; pending : list Key }.

Definition system_new : System := mkSystem world_new [] [].

Inductive op :=
| ONewInbound (a : SocketAddr)
| ONewProxied (a : SocketAddr) (proxy : bool) (forwarded_for : string)
| ONewOutbound (a : SocketAddr)
| ONewUnlimited (a : SocketAddr)
| OClone (k : Key)
| ODrop (k : Key)
| OCharge (k : Key) (fee : Charge) (context : string)
| ODisposition (k : Key)
| OWarn (k : Key)
| ODisconnect (j : Journal) (k : Key)
| OBalance (k : Key)
| OSetPublicKey (k : Key) (pk : list Z)
| OExport
| OJson (threshold : Z)
| OWriteReport
| OImport (origin : string) (gossip : list GossipItem)
| OPeriodic
| ORelease (k : Key).

Definition handle (k : Key) : Consumer := mkConsumer true (Some k).

Definition room (sy : System) (n : nat) : bool :=
  total (live sy ++ pending sy) [] (imports (w_state (world sy))) + Z.of_nat n <=? u64_max.

(** Only a live consumer is used, only a pending reference is given back, and there
    are at most [usize::MAX] references, each of which occupies memory. *)
Definition allowed (o : op) (sy : System) : bool :=
  match o with
  | ONewInbound _ | ONewProxied _ _ _ | ONewOutbound _ | ONewUnlimited _ => room sy 1
  | OClone k => bool_decide (k ∈ live sy) && room sy 1
  | ODrop k | OCharge k _ _ | ODisposition k | OWarn k | ODisconnect _ k | OBalance k
  | OSetPublicKey k _ => bool_decide (k ∈ live sy)
  | OExport | OJson _ | OWriteReport | OPeriodic => true
  | OImport _ gossip => room sy (length gossip)
  | ORelease k => bool_decide (k ∈ pending sy)
  end.

Section System.
Context `{!ResourceClock, !HashOrder} (parse : string -> option IpAddr).

(** Run a handler that changes neither the consumers nor the pending references. *)
Definition on_world {A} (h : handler World A) (sy : System) : outcome System :=
  r ← h (world sy); Ok (mkSystem r.2 (live sy) (pending sy)).
(** A handler that makes a consumer. *)
Definition on_new (h : handler World Consumer) (sy : System) : outcome System :=
  r ← h (world sy);
  k ← expect (consumer_key r.1);
  Ok (mkSystem r.2 (k :: live sy) (pending sy)).

Definition run_op (o : op) (sy : System) : outcome System :=
  match o with
  | ONewInbound a => on_new (new_inbound_endpoint a) sy
  | ONewProxied a proxy f => on_new (new_inbound_endpoint_with_proxy parse a proxy f) sy
  | ONewOutbound a => on_new (new_outbound_endpoint a) sy
  | ONewUnlimited a => on_new (new_unlimited_endpoint a) sy
  | OClone k => on_new (consumer_clone (handle k)) sy
  | ODrop k =>
      r ← consumer_drop (handle k) (world sy);
      Ok (mkSystem r.2 (remove_key (live sy) k) (pending sy))
  | OCharge k fee c => on_world (charge_with_context (handle k) fee c) sy
  | ODisposition k => on_world (consumer_disposition (handle k)) sy
  | OWarn k => on_world (consumer_warn (handle k)) sy
  | ODisconnect j k => on_world (disconnect j (handle k)) sy
  | OBalance k => on_world (consumer_balance (handle k)) sy
  | OSetPublicKey k pk => on_world (set_public_key (handle k) pk) sy
  | OExport => on_world export_consumers sy
  | OJson t => on_world (get_json_with_threshold t) sy
  | OWriteReport => on_world on_write sy
  | OImport origin gossip =>
      r ← import_locked origin gossip (world sy);
      Ok (mkSystem r.2 (live sy) (map item_key (items_of r.1) ++ pending sy))
  | OPeriodic =>
      r ← periodic_locked (world sy);
      Ok (mkSystem r.2 (live sy) (expired_keys r.1 ++ pending sy))
  | ORelease k =>
      r ← release_key k (world sy);
      Ok (mkSystem r.2 (live sy) (remove_key (pending sy) k))
  end.

Inductive reach : System -> Prop :=
| reach_new : reach system_new
| reach_step sy o sy' : reach sy -> allowed o sy = true -> run_op o sy = Ok sy' -> reach sy'.

Definition held (sy : System) : list Key := live sy ++ pending sy.
Definition sound (sy : System) : Prop := kept (held sy) (world sy).

(** The clock stays below the last instant it can name. *)
Definition clock_in_range : Prop := forall n, clock_reading n + SECONDS_UNTIL_EXPIRATION <= instant_max.

Lemma sound_on_world {A} (h : handler World A) sy Q :
  wp False h (fun a w' => kept (held sy) w' /\ Q a w') (world sy) ->
  exists sy', on_world h sy = Ok sy' /\ sound sy'.
Proof.
  intros (a & w' & E & Hb & _)%wp_total. unfold on_world. rewrite E. simpl. eauto.
Qed.

Lemma sound_on_new (h : handler World Consumer) sy :
  wp False h (fun c w' => exists k, consumer_key c = Some k /\ kept (k :: held sy) w') (world sy) ->
  exists sy', on_new h sy = Ok sy' /\ sound sy'.
Proof.
  intros (a & w' & E & k & Hk & Hb)%wp_total. unfold on_new. rewrite E. simpl. rewrite Hk. simpl. eauto.
Qed.

Lemma wp_new_endpoint F sy kd a :
  sound sy -> room sy 1 = true ->
  wp F (new_endpoint kd a) (fun c w' => exists k, consumer_key c = Some k /\ kept (k :: held sy) w') (world sy).
Proof.
  intros Hs Hr%Z.leb_le. unfold new_endpoint. apply wp_bind, wp_clock.
  pose proof (books_acquire _ _ _ (mkKey kd a) (clock_reading (w_reads (world sy))) Hs) as Hb.
  unfold held in Hb. specialize (Hb ltac:(simpl; lia)).
  destruct (books_live _ _ _ (mkKey kd a) Hb) as [e He]; [left|].
  apply wp_bind, wp_modify, wp_bind. unfold entry_string_locked.
  apply wp_bind. eapply wp_get_entry; [exact He|]. apply wp_ret. repeat wp_step.
  exists (mkKey kd a). done.
Qed.

Lemma remove_key_perm l k : k ∈ l -> l ≡ₚ k :: remove_key l k.
Proof.
  induction l as [|x l IH]; intros Hk; [set_solver|]. simpl. case_bool_decide; [by subst|].
  rewrite (IH ltac:(set_solver)) at 1. constructor.
Qed.

Lemma wp_release k hs w (Q : unit -> World -> Prop) :
  clock_in_range -> kept (k :: hs) w -> (forall w', kept hs w' -> Q tt w') ->
  wp False (release_key k) Q w.
Proof.
  intros Hc Hk HQ. unfold release_key, release_key_inner.
  apply wp_bind, wp_bind, wp_clock, wp_bind, wp_gets.
  destruct (books_release (w_state (count_read w)) hs [] k (clock_reading (w_reads w)) Hk)
    as (r & s' & E & Hb); [apply Hc|].
  apply wp_bind. eapply wp_lift; [exact E|]. apply wp_bind, wp_modify. apply wp_ret. simpl.
  destruct r; [apply wp_modify | apply wp_ret]; by apply HQ.
Qed.

Lemma wp_with_handle {A} k (f : Key -> handler World A) Q w :
  wp False (f k) Q w -> wp False (key ← inner_key (handle k); f key) Q w.
Proof. intros Hwp. apply wp_bind. eapply wp_lift; [reflexivity|done]. Qed.

Lemma wp_consumer_clone sy k :
  sound sy -> room sy 1 = true ->
  wp False (consumer_clone (handle k))
    (fun c w' => exists k, consumer_key c = Some k /\ kept (k :: held sy) w') (world sy).
Proof.
  intros Hs Hr%Z.leb_le. unfold consumer_clone. simpl. apply wp_bind.
  eapply wp_lift; [reflexivity|]. apply wp_bind, wp_clock, wp_bind, wp_modify, wp_ret.
  exists k. split; [done|]. apply books_acquire; [done|]. simpl. unfold held. lia.
Qed.

Lemma wp_proxied sy a proxy f :
  sound sy -> room sy 1 = true ->
  wp False (new_inbound_endpoint_with_proxy parse a proxy f)
    (fun c w' => exists k, consumer_key c = Some k /\ kept (k :: held sy) w') (world sy).
Proof.
  intros Hs Hr. unfold new_inbound_endpoint_with_proxy.
  destruct (negb proxy); [by apply wp_new_endpoint|].
  destruct (parse f); [by apply wp_new_endpoint|]. apply wp_bind, wp_modify.
  by apply (wp_new_endpoint _ (mkSystem (add_log (ManagerJournal, LevelWarn, MsgForwardedFor f a)
    (world sy)) (live sy) (pending sy))).
Qed.

Lemma wp_disconnect hs j k e w :
  kept hs w -> entries (w_state w) !! k = Some e ->
  wp False (disconnect j (handle k)) (fun b w' => kept hs w' /\ (kind k = Unlimited -> b = false)) w.
Proof.
  intros Hb He. apply wp_with_handle, wp_bind.
  eapply wp_mono; [by eapply wp_disconnect_locked|]. intros b w' (Hb' & [e' He'] & Hu).
  destruct b; [|by apply wp_ret]. apply wp_bind. unfold entry_string_locked. apply wp_bind.
  eapply wp_get_entry; [exact He'|]. apply wp_ret. repeat wp_step. split; [done|]. exact Hu.
Qed.

Lemma wp_consumer_balance hs k e w :
  kept hs w -> entries (w_state w) !! k = Some e ->
  wp False (consumer_balance (handle k)) (fun _ w' => kept hs w' /\ True) w.
Proof.
  intros Hb He. apply wp_with_handle. unfold balance_locked.
  apply wp_bind, wp_clock, wp_bind. eapply wp_get_entry; [done|].
  pose proof (lu_balance k e (clock_reading (w_reads w))) as Hl.
  destruct (balance e _) as [b e']. simpl in Hl.
  apply wp_bind. eapply (wp_put_entry _ k e _ hs); [done..|]. intros w1 Hb1 He1. by apply wp_ret.
Qed.

Lemma wp_set_public_key hs k e pk w :
  kept hs w -> entries (w_state w) !! k = Some e ->
  wp False (set_public_key (handle k) pk) (fun _ w' => kept hs w' /\ True) w.
Proof.
  intros Hb He. apply wp_with_handle. unfold set_public_key_locked.
  apply wp_bind. eapply wp_get_entry; [done|].
  eapply (wp_put_entry _ k e _ hs); [done..| |done]. by split.
Qed.

(** A section that only touches the state. *)
Lemma wp_with_state {A} (f : ResourceState -> A * ResourceState) (Q : A -> World -> Prop) w :
  Q (f (w_state w)).1 (set_state (f (w_state w)).2 w) -> wp False (with_state_mut f) Q w.
Proof. unfold wp, with_state_mut. by destruct (f (w_state w)). Qed.

Lemma wp_report {A} (f : ResourceState -> Z -> A * ResourceState) hs w :
  kept hs w -> (forall s now, books s hs [] -> books (f s now).2 hs []) ->
  wp False (now ← clock_now; with_state_mut (fun s => f s now)) (fun _ w' => kept hs w' /\ True) w.
Proof. intros Hb Hf. apply wp_bind, wp_clock, wp_with_state. split; [by apply Hf|done]. Qed.

Lemma books_json_all hs t now s :
  books s hs [] ->
  books (foldl (fun acc k => json_loop k (list_for_kind acc.2 k) now t acc.2 acc.1)
      (∅, s) [Inbound; Outbound; Unlimited]).2 hs [].
Proof. intros Hb. cbn [foldl]. by repeat apply books_json. Qed.

Lemma books_write_all hs now s ls (acc : list (list WriteItem)) :
  books s hs [] ->
  books (foldl (fun acc keys => let '(items, s') := write_list keys now acc.2 in (acc.1 ++ [items], s'))
      (acc, s) ls).2 hs [].
Proof.
  revert acc s. induction ls as [|l ls IH]; intros acc s Hb; simpl; [done|].
  pose proof (books_write l now s hs Hb) as Hb'. destruct (write_list l now s) as [items s']. by apply IH.
Qed.

Lemma wp_import sy origin gossip :
  clock_in_range -> sound sy -> room sy (length gossip) = true ->
  wp False (import_locked origin gossip)
    (fun p w' => kept (live sy ++ map item_key (items_of p) ++ pending sy) w') (world sy).
Proof.
  intros Hc Hs Hr%Z.leb_le. unfold import_locked. apply wp_bind, wp_clock, wp_bind.
  eapply wp_lift.
  { unfold instant_add. rewrite (proj2 (Z.leb_le _ _)); [reflexivity|].
    specialize (Hc (w_reads (world sy))). unfold SECONDS_UNTIL_EXPIRATION, GOSSIP_EXPIRATION_SECONDS, from_secs,
      NANOS_PER_SEC in *. lia. }
  apply wp_with_state.
  destruct (books_import (w_state (world sy)) (held sy) origin gossip (clock_reading (w_reads (world sy)))
    (clock_reading (w_reads (world sy)) + GOSSIP_EXPIRATION_SECONDS) Hs Hr) as (s' & E & Hb).
  change (w_state (count_read (world sy))) with (w_state (world sy)). rewrite E. simpl. eapply books_perm; [|done|exact Hb]. unfold held.
  rewrite !app_assoc. apply Permutation_app_tail, Permutation_app_comm.
Qed.

Lemma wp_log_all hs (log : list fingerprint) w :
  kept hs w ->
  wp False (for_each log (fun e => journal_log ManagerJournal LevelDebug (MsgExpired e)))
    (fun _ => kept hs) w.
Proof. intros Hb. apply wp_for_each; [done|]. intros x w' _ Hb'. by apply wp_modify. Qed.

Lemma wp_periodic sy :
  sound sy ->
  wp False periodic_locked (fun l w' => kept (live sy ++ expired_keys l ++ pending sy) w') (world sy).
Proof.
  intros Hs. unfold periodic_locked. apply wp_bind, wp_clock, wp_bind, wp_with_state, wp_bind.
  eapply wp_mono; [apply wp_log_all; by apply (books_expire_inactive _ (held sy)) |].
  intros [] w1 Hb1. apply wp_with_state.
  edestruct (books_expire_imports (w_state w1) (held sy)) as (l & s' & E & Hb); [exact Hb1|].
  rewrite E. simpl. eapply books_perm; [|done|exact Hb]. unfold held.
  rewrite !app_assoc. apply Permutation_app_tail, Permutation_app_comm.
Qed.

Lemma wp_drop sy k rest :
  clock_in_range -> sound sy -> held sy ≡ₚ k :: rest ->
  wp False (release_key k) (fun _ w' => kept rest w') (world sy).
Proof.
  intros Hc Hs Hp. apply (wp_release k rest); [done| |done]. by eapply books_perm; [exact Hp|done|].
Qed.

(** Every operation that is allowed returns and keeps the books. *)
Lemma op_sound sy o :
  clock_in_range -> sound sy -> allowed o sy = true -> exists sy', run_op o sy = Ok sy' /\ sound sy'.
Proof.
  intros Hc Hs Ha.
  assert (forall k, bool_decide (k ∈ live sy) = true ->
    exists e, entries (w_state (world sy)) !! k = Some e) as Hlive.
  { intros k Hk%bool_decide_eq_true. eapply books_live; [exact Hs|]. apply elem_of_app. by left. }
  destruct o; simpl in Ha.
  1-4: by apply sound_on_new; first [apply wp_new_endpoint | apply wp_proxied].
  - apply andb_prop in Ha as [_ Hr]. by apply sound_on_new, wp_consumer_clone.
  - apply bool_decide_eq_true in Ha.
    assert (held sy ≡ₚ k :: remove_key (live sy) k ++ pending sy) as Hp
      by (unfold held; by rewrite (remove_key_perm _ _ Ha) at 1).
    destruct (wp_total _ _ _ (wp_drop sy k _ Hc Hs Hp)) as ([] & w' & E & Hb).
    cbn [run_op consumer_drop handle has_inner consumer_key]. rewrite E. eexists. by split.
  - destruct (Hlive _ Ha) as [e He]. eapply sound_on_world, wp_with_handle. by eapply wp_charge_locked.
  - destruct (Hlive _ Ha) as [e He]. eapply sound_on_world, wp_with_handle. by eapply wp_charge_locked.
  - destruct (Hlive _ Ha) as [e He]. eapply sound_on_world, wp_with_handle. by eapply wp_warn_locked.
  - destruct (Hlive _ Ha) as [e He]. eapply sound_on_world. by eapply wp_disconnect.
  - destruct (Hlive _ Ha) as [e He]. eapply sound_on_world. by eapply wp_consumer_balance.
  - destruct (Hlive _ Ha) as [e He]. eapply sound_on_world. by eapply wp_set_public_key.
  - eapply sound_on_world, wp_report; [done|]. intros s now. apply books_export.
  - eapply sound_on_world, (wp_report (fun s now => foldl _ (∅, s) _)); [done|].
    intros s now. apply books_json_all.
  - eapply sound_on_world, (wp_report (fun s now => foldl _ ([], s) _)); [done|].
    intros s now. apply books_write_all.
  - destruct (wp_total _ _ _ (wp_import sy origin gossip Hc Hs Ha)) as (p & w' & E & Hb).
    cbn [run_op]. rewrite E. eexists. by split.
  - destruct (wp_total _ _ _ (wp_periodic sy Hs)) as (p & w' & E & Hb). cbn [run_op]. rewrite E. eexists. by split.
  - apply bool_decide_eq_true in Ha.
    assert (held sy ≡ₚ k :: live sy ++ remove_key (pending sy) k) as Hp
      by (unfold held; rewrite (remove_key_perm _ _ Ha) at 1; by rewrite Permutation_middle).
    destruct (wp_total _ _ _ (wp_drop sy k _ Hc Hs Hp)) as ([] & w' & E & Hb).
    cbn [run_op]. rewrite E. eexists. by split.
Qed.

Lemma sound_new : sound system_new.
Proof.
  split; [|constructor|done]. split; simpl; try done.
  - intros kd. destruct kd; (split; [constructor|]); intros k; (split; [set_solver|]); intros [_ []]; done.
  - split; [constructor|]. intros k. rewrite lookup_empty. split; [by intros ?%not_elem_of_nil|].
    by intros [[? [=]] _].
Qed.

Lemma reach_sound sy : clock_in_range -> reach sy -> sound sy.
Proof.
  intros Hc. induction 1 as [|sy o sy' _ IH Ha Hr]; [apply sound_new|].
  destruct (op_sound sy o Hc IH Ha) as (sy'' & E & Hs). congruence.
Qed.

(** ** The public calls, run to the end *)

Lemma reach_releases items w lv rest :
  clock_in_range -> reach (mkSystem w lv (map item_key items ++ rest)) ->
  exists w', for_each items (fun item => release_key (item_key item)) w = Ok (tt, w') /\
    reach (mkSystem w' lv rest).
Proof.
  intros Hc. revert w. induction items as [|it items IH]; intros w Hr; [by exists w|].
  assert (allowed (ORelease (item_key it)) (mkSystem w lv (map item_key (it :: items) ++ rest)) = true) as Ha
    by (apply bool_decide_eq_true; left).
  destruct (op_sound _ _ Hc (reach_sound _ Hc Hr) Ha) as (sy' & E & _).
  pose proof (reach_step _ _ _ Hr Ha E) as Hr'.
  cbn [run_op world] in E. destruct (release_key (item_key it) w) as [[[] w1]| |] eqn:E1; [|done..].
  simpl in E. injection E as <-. rewrite bool_decide_true in Hr' by done.
  destruct (IH w1 Hr') as (w' & E2 & Hr2). exists w'. split; [|done].
  cbn [for_each]. unfold mbind, handler_bind. by rewrite E1.
Qed.

Lemma reach_releases_all imps w lv rest :
  clock_in_range -> reach (mkSystem w lv (expired_keys imps ++ rest)) ->
  exists w', for_each imps (fun i => for_each (import_items i) (fun item => release_key (item_key item))) w
      = Ok (tt, w') /\ reach (mkSystem w' lv rest).
Proof.
  intros Hc. revert w. induction imps as [|i imps IH]; intros w Hr; [by exists w|].
  unfold expired_keys in Hr. rewrite bind_cons, map_app, <- app_assoc in Hr.
  destruct (reach_releases _ _ _ _ Hc Hr) as (w1 & E1 & Hr1).
  destruct (IH w1 Hr1) as (w' & E2 & Hr2). exists w'. split; [|done].
  cbn [for_each]. unfold mbind, handler_bind. by rewrite E1.
Qed.

Lemma import_consumers_runs sy origin gossip :
  clock_in_range -> reach sy -> room sy (length gossip) = true ->
  exists w', import_consumers origin gossip (world sy) = Ok (tt, w') /\
    reach (mkSystem w' (live sy) (pending sy)).
Proof.
  intros Hc Hr Ha. destruct (op_sound sy (OImport origin gossip) Hc (reach_sound _ Hc Hr) Ha) as (sy' & E & _).
  pose proof (reach_step sy (OImport origin gossip) _ Hr Ha E) as Hr'.
  cbn [run_op] in E. unfold import_consumers. unfold mbind at 1, handler_bind.
  destruct (import_locked origin gossip (world sy)) as [[p w1]| |]; [|done..].
  simpl in E. injection E as <-. destruct p as [p|]; [by apply reach_releases|]. exists w1. done.
Qed.

Lemma periodic_activity_runs sy :
  clock_in_range -> reach sy ->
  exists w', periodic_activity (world sy) = Ok (tt, w') /\ reach (mkSystem w' (live sy) (pending sy)).
Proof.
  intros Hc Hr. destruct (op_sound sy OPeriodic Hc (reach_sound _ Hc Hr) eq_refl) as (sy' & E & _).
  pose proof (reach_step sy OPeriodic _ Hr eq_refl E) as Hr'.
  cbn [run_op] in E. unfold periodic_activity. unfold mbind at 1, handler_bind.
  destruct (periodic_locked (world sy)) as [[p w1]| |]; [|done..].
  simpl in E. injection E as <-. by apply reach_releases_all.
Qed.

(** ** Charging *)

(** The state a charge leaves, and its answer. *)
Lemma charge_with_context_eq w k e fee c :
  entries (w_state w) !! k = Some e -> is_unlimited e = false ->
  exists w', charge_with_context (handle k) fee c w
      = Ok (disposition (charge_entry e (cost fee) (clock_reading (w_reads w))).1, w') /\
    entries (w_state w') !! k = Some (charge_entry e (cost fee) (clock_reading (w_reads w))).2 /\
    (forall k', k' <> k -> entries (w_state w') !! k' = entries (w_state w) !! k').
Proof.
  intros He Hu. unfold charge_with_context, charge_locked_state. simpl.
  unfold inner_key, mbind, handler_bind. simpl. unfold get_entry. simpl. rewrite He, Hu. simpl.
  unfold put_entry, modify, mret, handler_ret. simpl. eexists. split; [done|]. simpl. split.
  - by rewrite lookup_insert_eq.
  - intros k' Hk. by rewrite lookup_insert_ne.
Qed.

(** charging a limited consumer adds the cost to what is left of its balance after
    decaying it for the whole seconds since it was last used: the answer is [Drop] from
    25000 on, [Warn] from 5000 on and [Ok] below, of the local balance divided by the
    window of 32 seconds plus the reported remote balance. A balance idle for up to 128
    seconds keeps at most (31/32)^n of itself, one idle for longer nothing; no other entry
    changes. *)
Theorem charge_spec sy k e fee c :
  clock_in_range -> reach sy -> k ∈ live sy -> kind k <> Unlimited ->
  entries (w_state (world sy)) !! k = Some e ->
  0 <= sample_value (local_balance e) < 4611686018427387904 -> 0 <= cost fee <= i32_max ->
  let now := clock_reading (w_reads (world sy)) in
  let n := as_secs (saturating_duration_since now (sample_when (local_balance e))) in
  exists left w',
    0 <= left <= sample_value (local_balance e) /\
    (n <= 128 -> 32 ^ n * left <= 31 ^ n * sample_value (local_balance e)) /\
    (128 < n < 9223372036854775808 -> left = 0) /\
    (n = 0 -> left = sample_value (local_balance e)) /\
    charge_with_context (handle k) fee c (world sy)
      = Ok (disposition (wrap_i64 ((left + cost fee) / 32 + remote_balance e)), w') /\
    (exists e', entries (w_state w') !! k = Some e' /\
       local_balance e' = mkSample (left + cost fee) now /\ remote_balance e' = remote_balance e) /\
    (forall k', k' <> k -> entries (w_state w') !! k' = entries (w_state (world sy)) !! k').
Proof.
  intros Hc Hr Hk Hkind He Hv Hf now n. pose proof (reach_sound _ Hc Hr) as Hs.
  assert (is_unlimited e = false) as Hu
    by (rewrite (entry_kind _ _ k e Hs He); by apply bool_decide_eq_false).
  destruct (charge_with_context_eq (world sy) k e fee c He Hu) as (w' & E & Ek & Hoth).
  pose proof (decay_left (local_balance e) now Hv) as (Hl & H1 & H2 & H3 & Hw).
  exists (sample_value (decay 32 (local_balance e) now)), w'. split_and!; try done; try apply Hl.
  - rewrite E. f_equal. f_equal. unfold charge_entry, sample_add. fold now. simpl.
    change DECAY_WINDOW_SECONDS with 32.
    rewrite (wrap_i64_id (_ + cost fee)) by (unfold i32_max in *; lia).
    by rewrite Z.quot_div_nonneg by lia.
  - eexists. split; [exact Ek|]. unfold charge_entry, sample_add. fold now. simpl. split; [|done].
    change DECAY_WINDOW_SECONDS with 32. rewrite Hw.
    by rewrite (wrap_i64_id (_ + cost fee)) by (unfold i32_max in *; lia).
Qed.

(** C18: the manager's books are exact at every moment, whatever the order of the critical
    sections of all threads. Every key some live consumer, filed import item or pending
    release refers to has an entry; an entry's reference count is the number of those
    referrers and its remote balance the sum of the balances the filed imports report for
    it (in [i64] arithmetic); it is in the list of its kind exactly while it is referenced,
    and in the inactive list with an expiry time exactly while it is not; no list holds a
    key twice. *)
Theorem resource_books_exact sy :
  clock_in_range -> reach sy ->
  let s := w_state (world sy) in
  let R := refs (live sy ++ pending sy) [] (imports s) in
  (forall k, R k <> 0 -> is_Some (entries s !! k)) /\
  (forall k e, entries s !! k = Some e ->
     entry_key e = k /\ refcount e = R k /\ remote_balance e = wrap_i64 (bals [] (imports s) k) /\
     (k ∈ list_for_kind s (kind k) <-> refcount e <> 0) /\
     (k ∈ inactive s <-> refcount e = 0) /\ (is_Some (when_expires e) <-> refcount e = 0)) /\
  (forall kd, NoDup (list_for_kind s kd) /\ Forall (fun k => kind k = kd) (list_for_kind s kd)) /\
  NoDup (inactive s).
Proof.
  intros Hc Hr s R. destruct (reach_sound _ Hc Hr) as [Hwf _ _]. fold s in Hwf.
  change (refs (held sy) [] (imports s)) with R in Hwf. split_and!.
  - intros k Hk. destruct (wf_exists _ _ _ k Hwf Hk). eauto.
  - intros k e He. destruct (wf_entry_ok _ _ _ _ _ Hwf He) as (-> & -> & -> & Hx & _).
    split_and!; try done.
    + rewrite (proj2 (wf_active _ _ _ Hwf (kind k))). tauto.
    + rewrite (proj2 (wf_inactive _ _ _ Hwf)), He. naive_solver.
    + destruct (when_expires e); split; [|eauto| |].
      * intros _. destruct (decide (R k = 0)); [done|]. by apply Hx in n.
      * by intros [].
      * intros H0'. by apply (proj1 Hx eq_refl) in H0'.
  - intros kd. destruct (wf_active _ _ _ Hwf kd) as [Hnd Hl]. split; [done|].
    apply Forall_forall. intros k Hk. by apply Hl in Hk as [-> _].
  - apply (wf_inactive _ _ _ Hwf).
Qed.

(** no operation of the manager panics or gets stuck: from every reachable state, each
    critical section that a client may run returns, and the calls made of several critical
    sections ([import_consumers] and [periodic_activity], which give references back after
    they released the lock) run to their end and leave nothing pending of their own. *)
Theorem resource_never_panics sy :
  clock_in_range -> reach sy ->
  (forall o, allowed o sy = true -> exists sy', run_op o sy = Ok sy') /\
  (forall origin gossip, room sy (length gossip) = true ->
     exists w', import_consumers origin gossip (world sy) = Ok (tt, w') /\
       reach (mkSystem w' (live sy) (pending sy))) /\
  (exists w', periodic_activity (world sy) = Ok (tt, w') /\
     reach (mkSystem w' (live sy) (pending sy))).
Proof.
  intros Hc Hr. split_and!.
  - intros o Ha. destruct (op_sound sy o Hc (reach_sound _ Hc Hr) Ha) as (sy' & E & _). eauto.
  - intros. by apply import_consumers_runs.
  - by apply periodic_activity_runs.
Qed.

(** an unlimited endpoint is never limited: whatever it was charged and whatever its
    peers report, it is neither warned nor disconnected and its disposition is [Ok]. *)
Theorem unlimited_never_limited sy k :
  clock_in_range -> reach sy -> k ∈ live sy -> kind k = Unlimited ->
  (forall fee c, exists w', charge_with_context (handle k) fee c (world sy) = Ok (DispOk, w')) /\
  (exists w', consumer_disposition (handle k) (world sy) = Ok (DispOk, w')) /\
  (exists w', consumer_warn (handle k) (world sy) = Ok (false, w')) /\
  (forall j, exists w', disconnect j (handle k) (world sy) = Ok (false, w')).
Proof.
  intros Hc Hr Hk Hu. pose proof (reach_sound _ Hc Hr) as Hs.
  destruct (books_live _ _ _ k Hs) as [e He]; [apply elem_of_app; by left|].
  assert (is_unlimited e = true) as Hue
    by (rewrite (entry_kind _ _ k e Hs He); by apply bool_decide_eq_true).
  destruct (wf_entry_ok _ _ _ _ _ (books_wf _ _ _ Hs) He) as (_ & _ & Hrem & _ & Hz).
  rewrite (wf_kind _ _ _ (books_wf _ _ _ Hs) k ltac:(congruence)) in Hrem.
  split_and!.
  - intros fee c. exists (count_read (world sy)).
    unfold charge_with_context, charge_locked_state, inner_key, mbind, handler_bind. simpl.
    unfold get_entry. simpl. by rewrite He, Hue.
  - eexists. unfold consumer_disposition, charge_locked_state, inner_key, mbind, handler_bind. simpl.
    unfold get_entry. simpl. rewrite He. simpl. rewrite decay_zero by auto. by rewrite Hrem.
  - exists (count_read (world sy)). unfold consumer_warn, warn_locked, inner_key, mbind, handler_bind. simpl.
    unfold get_entry. simpl. by rewrite He, Hue.
  - intros j. exists (count_read (world sy)).
    unfold disconnect, disconnect_locked, inner_key, mbind, handler_bind. simpl.
    unfold get_entry. simpl. by rewrite He, Hue.
Qed.

(** housekeeping forgets an entry only when nothing refers to it and its time is over:
    it removes the longest prefix of the inactive list whose entries are due, forgets
    exactly those entries, and leaves every other entry as it was. When the inactive
    list is in order of expiry, no due entry stays. *)
Theorem expire_inactive_spec sy now :
  clock_in_range -> reach sy ->
  let s := w_state (world sy) in
  let s' := (expire_inactive s now).2 in
  let due k := exists e t, entries s !! k = Some e /\ when_expires e = Some t /\ t <= now in
  exists gone, inactive s = gone ++ inactive s' /\
    (forall k, k ∈ gone -> due k /\ refs (live sy ++ pending sy) [] (imports s) k = 0) /\
    (forall k, entries s' !! k = if decide (k ∈ gone) then None else entries s !! k) /\
    (forall k, head (inactive s') = Some k -> ~ due k) /\
    (StronglySorted (fun k1 k2 => due k2 -> due k1) (inactive s) ->
     forall k, due k -> refs (live sy ++ pending sy) [] (imports s) k = 0 -> entries s' !! k = None).
Proof.
  intros Hc Hr s s' due. destruct (reach_sound _ Hc Hr) as [Hwf _ _]. fold s in Hwf.
  destruct (wf_expire_loop _ now s _ _ Hwf eq_refl) as (gone & rest & log & m & E & Hl & _ & Hg & Hm & Hh).
  assert (s' = set_inactive rest (set_entries m s)) as -> by (unfold s', expire_inactive; by rewrite E).
  assert (forall k, head rest = Some k -> ~ due k) as Hhead.
  { intros k Hk (e & t & He & Ht & Hle). destruct (Hh k Hk) as (e' & t' & He' & Ht' & Hlt).
    simplify_eq. lia. }
  exists gone. simpl. split_and!; try done.
  - intros k Hk. destruct (Hg k Hk) as (e & t & He & H0' & Ht & Hle). split; [|exact H0']. by exists e, t.
  - intros Hsort k Hdue H0'. rewrite Hm. case_decide as Hin; [done|]. exfalso.
    assert (k ∈ inactive s) as Hk.
    { apply (proj2 (wf_inactive _ _ _ Hwf)). destruct Hdue as (e & t & -> & _). split; [done|exact H0']. }
    rewrite Hl in Hk, Hsort. apply elem_of_app in Hk as [Hk|Hk]; [done|].
    apply StronglySorted_app_1_r in Hsort. destruct rest as [|k0 rest]; [set_solver|].
    apply (Hhead k0 eq_refl). apply elem_of_cons in Hk as [->|Hk]; [done|].
    inversion Hsort as [|? ? _ Hf]; subst. rewrite Forall_forall in Hf. by apply (Hf k).
Qed.

End System.

(** ** A sample in steady use *)

(** A sequence of charges to one sample. *)
Definition charge_all (W : Z) (s : DecayingSample) (l : list (Z * Z)) : DecayingSample :=
  foldl (fun s c => (sample_add W s c.1 c.2).2) s l.

(** Each use is less than a second after the one before. *)
Fixpoint steady (t : Z) (l : list (Z * Z)) : Prop :=
  match l with
  | [] => True
  | c :: l' => t <= c.2 < t + NANOS_PER_SEC /\ steady c.2 l'
  end.

(** C34: a sample used more often than once a second never decays: the fraction of a
    second between two uses is dropped and the clock of the sample moved forward, so the
    charges of steady traffic add up without end. *)
Theorem steady_use_never_decays W s l :
  0 < W -> steady (sample_when s) l -> Forall (fun c => 0 <= c.1) l -> 0 <= sample_value s ->
  sample_value s + zsum fst l <= 9223372036854775807 ->
  sample_value (charge_all W s l) = sample_value s + zsum fst l.
Proof.
  intros HW. unfold charge_all. revert s. induction l as [|[v t] l IH]; intros s.
  { simpl. lia. }
  intros [Ht Hst] Hpos Hv Hb. inversion Hpos as [|? ? Hv0 Hpos']; subst. cbn [foldl].
  cbn [zsum foldr fst snd] in *. fold (zsum fst l) in *.
  assert (0 <= zsum fst l) as Hl
    by (apply zsum_nonneg; intros x Hx; rewrite Forall_forall in Hpos'; auto).
  assert (sample_value (decay W s t) = sample_value s /\ sample_when (decay W s t) = t) as [E1 E2].
  { unfold decay. destruct (t =? sample_when s) eqn:Et; [split; [done|lia]|]. simpl. split; [|done].
    case_match; [done|].
    assert (as_secs (saturating_duration_since t (sample_when s)) = 0) as ->
      by (unfold as_secs, saturating_duration_since; apply Z.div_small; lia).
    change (wrap_i64 0) with 0. case_match; [|done]. lia. }
  assert ((sample_add W s v t).2 = mkSample (sample_value s + v) t) as ->.
  { unfold sample_add. simpl. rewrite E1, E2, wrap_i64_id by lia. done. }
  rewrite IH; simpl; try done; lia.
Qed.

(** ** A concrete run *)

Module Demo.

(** Two seconds pass between readings, for a thousand readings. *)
Definition clock : ResourceClock := fun n => from_secs (2 * Z.of_nat (Nat.min n 1000)).
#[local] Existing Instance clock.
#[local] Existing Instance canonical_order.

Definition no_ip (_ : string) : option IpAddr := None.

Definition peer : SocketAddr := mkSocketAddr (V4 167772161) 51235.
Definition local : SocketAddr := mkSocketAddr (V4 2130706433) 6006.
Definition peer_key : Key := mkKey Inbound (normalize_inbound_address peer).
Definition local_key : Key := mkKey Unlimited (normalize_unlimited_address local).
Definition gone_key : Key := mkKey Outbound local.

Fixpoint run_all (l : list op) (sy : System) : outcome System :=
  match l with
  | [] => Ok sy
  | o :: l' => if allowed o sy then sy' ← run_op no_ip o sy; run_all l' sy' else Panic
  end.

Lemma run_all_reach l sy sy' : reach no_ip sy -> run_all l sy = Ok sy' -> reach no_ip sy'.
Proof.
  revert sy. induction l as [|o l IH]; intros sy Hr; simpl; [by intros [= <-]|].
  destruct (allowed o sy) eqn:Ha; [|done]. destruct (run_op no_ip o sy) as [sy1| |] eqn:E; [|done..].
  simpl. apply IH. by eapply reach_step.
Qed.

Definition ops : list op :=
  [ ONewInbound peer; ONewUnlimited local; ONewOutbound local; OClone peer_key;
    OImport "a" [mkGossipItem 7000 peer; mkGossipItem 10 local];
    OCharge peer_key (mkCharge 64000 "heavy") "";
    OCharge local_key (mkCharge 1000000 "rpc") ""; ODrop gone_key;
    OImport "a" [mkGossipItem 6000 peer] ].

Definition system : System := match run_all ops system_new with Ok sy => sy | _ => system_new end.

Lemma clock_range : clock_in_range.
Proof.
  intros n. unfold clock_reading, clock, SECONDS_UNTIL_EXPIRATION, instant_max, from_secs, NANOS_PER_SEC. lia.
Qed.

Lemma system_reach : reach no_ip system.
Proof. apply (run_all_reach ops system_new); [constructor|]. by vm_compute. Qed.

Lemma resource_books_exact_witness :
  clock_in_range /\ reach no_ip system /\
  (refs (live system ++ pending system) [] (imports (w_state (world system))) peer_key <> 0 ->
   is_Some (entries (w_state (world system)) !! peer_key)).
Proof.
  split; [exact clock_range|]. split; [exact system_reach|].
  apply (proj1 (resource_books_exact no_ip system clock_range system_reach)).
Defined.

Lemma resource_never_panics_witness :
  allowed OPeriodic system = true /\ exists sy', run_op no_ip OPeriodic system = Ok sy'.
Proof.
  split; [done|].
  by apply (proj1 (resource_never_panics no_ip system clock_range system_reach)).
Defined.

Lemma local_live : local_key ∈ live system.
Proof. apply (bool_decide_unpack _). by vm_compute. Qed.
Lemma peer_live : peer_key ∈ live system.
Proof. apply (bool_decide_unpack _). by vm_compute. Qed.

Lemma unlimited_never_limited_witness :
  kind local_key = Unlimited /\
  exists w', consumer_disposition (handle local_key) (world system) = Ok (DispOk, w').
Proof.
  split; [done|].
  apply (proj1 (proj2 (unlimited_never_limited no_ip system local_key clock_range system_reach
    local_live eq_refl))).
Defined.

Definition peer_entry : Entry :=
  default (entry_new peer_key 0) (entries (w_state (world system)) !! peer_key).

Lemma peer_entry_eq : entries (w_state (world system)) !! peer_key = Some peer_entry.
Proof. by vm_compute. Qed.

Lemma peer_value : sample_value (local_balance peer_entry) = 64000.
Proof. by vm_compute. Qed.

Lemma charge_spec_witness :
  sample_value (local_balance peer_entry) = 64000 /\
  exists left w', 0 <= left <= 64000 /\
    charge_with_context (handle peer_key) (mkCharge 100 "") "" (world system)
      = Ok (disposition (wrap_i64 ((left + 100) / 32 + remote_balance peer_entry)), w').
Proof.
  split; [exact peer_value|].
  destruct (charge_spec no_ip system peer_key peer_entry (mkCharge 100 "") "" clock_range system_reach
    peer_live) as (left & w' & H1 & _ & _ & _ & H2 & _); [done | exact peer_entry_eq | | done | ].
  - rewrite peer_value. lia.
  - exists left, w'. rewrite peer_value in H1. by split.
Defined.

Lemma expire_inactive_spec_witness :
  exists gone, inactive (w_state (world system)) = gone ++
    inactive (expire_inactive (w_state (world system)) (from_secs 2000)).2.
Proof.
  destruct (expire_inactive_spec no_ip system (from_secs 2000) clock_range system_reach) as (gone & H & _).
  by exists gone.
Defined.

Lemma steady_use_never_decays_witness :
  sample_value (charge_all 32 (mkSample 0 0)
    [(10, 900000000); (10, 1800000000); (10, 2700000000)]) = 30.
Proof.
  apply (steady_use_never_decays 32 (mkSample 0 0)); [lia | | | simpl; lia | simpl; lia].
  - simpl. unfold NANOS_PER_SEC. split_and!; lia.
  - repeat constructor; simpl; lia.
Defined.

End Demo.
