(* ===== verification/Amendment.v ===== *)
(** * Amendments: the table, its votes and their application

    [xrpld/app/src/amendments/amendment_status.rs] keeps what this node knows of the
    protocol's amendments and of the votes of the validators it trusts, and decides
    on flag ledgers which amendment pseudo-transactions to propose.
    [xrpld/tx/src/account/change.rs] applies pseudo-transactions to the ledger.
    Amendment identifiers ([Uint256]), public keys and times are integers. *)

From stdpp Require Import strings.
From S2P Require Import Prelude Chrono NegativeUnl.

(** ** The registry: [xrpl/protocol/src/base/feature.rs] *)

Inductive RegisteredFeatureVote := DefaultYes | DefaultNo | VoteObsolete.
Record RegisteredFeature := mkFeature {
  feature_label : string;
  feature_supported : bool;
  feature_vote : RegisteredFeatureVote
}.

(** The hash that names a feature and the rendering of a time are parameters. *)
Class FeatureRegistry := {
  registered_features : list RegisteredFeature;
  feature_id : string -> Z;
  confidential_crypto_available : bool;
  to_xrpl_string : Z -> string
}.

Definition FEATURE_CONFIDENTIAL_TRANSFER_NAME : string := "ConfidentialTransfer".

(** [Display for BaseUInt]: upper-case hexadecimal, most significant byte first. *)
Definition hex_digit (d : Z) : string :=
  nth (Z.to_nat d) ["0"; "1"; "2"; "3"; "4"; "5"; "6"; "7"; "8"; "9"; "A"; "B"; "C"; "D"; "E"; "F"]
    ""%string.
Fixpoint hex_digits (n : nat) (z : Z) : string :=
  match n with
  | O => ""
  | S n' => String.append (hex_digit ((z / 16 ^ Z.of_nat n') mod 16)) (hex_digits n' z)
  end.
Definition uint256_to_string (z : Z) : string := hex_digits 64 z.

Section Registry.
Context `{!FeatureRegistry}.

Definition registered_feature_supported (f : RegisteredFeature) : bool :=
  if negb (feature_supported f) then false
  else negb (bool_decide (feature_label f = FEATURE_CONFIDENTIAL_TRANSFER_NAME))
       || confidential_crypto_available.

Definition registered_feature (amendment : Z) : option RegisteredFeature :=
  List.find (fun f => feature_id (feature_label f) =? amendment) registered_features.

Definition feature_name (amendment : Z) : option string :=
  feature_label <$> registered_feature amendment.

End Registry.

(** ** State *)

Definition TRUSTED_VOTE_EXPIRATION : Z := hours 24.
Definition AMENDMENT_THRESHOLD_NUMERATOR : Z := 80.
Definition AMENDMENT_THRESHOLD_DENOMINATOR : Z := 100.
Definition ENABLE_AMENDMENT_GOT_MAJORITY_FLAG : Z := 65536.
Definition ENABLE_AMENDMENT_LOST_MAJORITY_FLAG : Z := 131072.

Record UnsupportedMajorityWarningDetails := mkDetails { expected_date : Z; expected_date_utc : string }.

Inductive AmendmentVote := Obsolete | Up | Down.
#[global] Instance AmendmentVote_eq_dec : EqDecision AmendmentVote.
Proof. solve_decision. Defined.

Record KnownAmendment := mkKnown {
  known_name : string;
  known_amendment : Z;
  known_supported : bool;
  known_vote : AmendmentVote
}.

Record AmendmentState := mkAmendmentState {
  a_vote : AmendmentVote;
  a_enabled : bool;
  a_supported : bool;
  a_name : string
}.
(** [AmendmentState::default()]. *)
Definition amendment_default : AmendmentState := mkAmendmentState Down false false "".

Record TrustedValidatorVotes := mkVotes { up_votes : list Z; timeout : option Z }.

Record AmendmentLastVote := mkLastVote {
  trusted_validations : Z;
  threshold : Z;
  votes_cast : gmap Z Z
}.

Record AmendmentStatusState := mkStatus {
  amendments : gmap Z AmendmentState;
  trusted_validators : gset Z;
  recorded_votes : gmap Z TrustedValidatorVotes;
  last_update_seq : Z;
  last_vote : option AmendmentLastVote;
  majority_amendments : gmap Z Z;
  unsupported_enabled : bool;
  first_unsupported_expected : option Z;
  warned : bool;
  warning_details : option UnsupportedMajorityWarningDetails
}.

Definition status_default : AmendmentStatusState :=
  mkStatus ∅ ∅ ∅ 0 None ∅ false None false None.

Definition set_amendments (m : gmap Z AmendmentState) (s : AmendmentStatusState) : AmendmentStatusState :=
  mkStatus m (trusted_validators s) (recorded_votes s) (last_update_seq s) (last_vote s)
    (majority_amendments s) (unsupported_enabled s) (first_unsupported_expected s) (warned s)
    (warning_details s).
Definition set_trusted (t : gset Z) (s : AmendmentStatusState) : AmendmentStatusState :=
  mkStatus (amendments s) t (recorded_votes s) (last_update_seq s) (last_vote s)
    (majority_amendments s) (unsupported_enabled s) (first_unsupported_expected s) (warned s)
    (warning_details s).
Definition set_recorded (m : gmap Z TrustedValidatorVotes) (s : AmendmentStatusState) : AmendmentStatusState :=
  mkStatus (amendments s) (trusted_validators s) m (last_update_seq s) (last_vote s)
    (majority_amendments s) (unsupported_enabled s) (first_unsupported_expected s) (warned s)
    (warning_details s).
Definition set_last_vote (v : option AmendmentLastVote) (s : AmendmentStatusState) : AmendmentStatusState :=
  mkStatus (amendments s) (trusted_validators s) (recorded_votes s) (last_update_seq s) v
    (majority_amendments s) (unsupported_enabled s) (first_unsupported_expected s) (warned s)
    (warning_details s).
Definition set_unsupported_enabled (b : bool) (s : AmendmentStatusState) : AmendmentStatusState :=
  mkStatus (amendments s) (trusted_validators s) (recorded_votes s) (last_update_seq s) (last_vote s)
    (majority_amendments s) b (first_unsupported_expected s) (warned s) (warning_details s).
Definition set_validated (seq : Z) (m : gmap Z Z) (first : option Z) (s : AmendmentStatusState)
  : AmendmentStatusState :=
  mkStatus (amendments s) (trusted_validators s) (recorded_votes s) seq (last_vote s)
    m (unsupported_enabled s) first (warned s) (warning_details s).
Definition set_warning (b : bool) (d : option UnsupportedMajorityWarningDetails)
    (s : AmendmentStatusState) : AmendmentStatusState :=
  mkStatus (amendments s) (trusted_validators s) (recorded_votes s) (last_update_seq s) (last_vote s)
    (majority_amendments s) (unsupported_enabled s) (first_unsupported_expected s) b d.

Record AmendmentStatus := mkAmendmentStatus { majority_time : Z; inner : AmendmentStatusState }.

(** ** Operations on the table *)

Section Status.
Context `{!FeatureRegistry, !HashOrder}.

Definition default_known_amendments : list KnownAmendment :=
  map (fun r => mkKnown (feature_label r) (feature_id (feature_label r)) (registered_feature_supported r)
    (match feature_vote r with DefaultYes => Up | DefaultNo => Down | VoteObsolete => Obsolete end))
    registered_features.

Definition with_known_amendments (majority_time : Z) (known : list KnownAmendment) : AmendmentStatus :=
  mkAmendmentStatus majority_time
    (foldl (fun s k =>
       let state := default amendment_default (amendments s !! known_amendment k) in
       set_amendments (<[known_amendment k :=
         mkAmendmentState (known_vote k) (a_enabled state) (known_supported k) (known_name k)]>
         (amendments s)) s) status_default known).

Definition amendment_status_new : AmendmentStatus :=
  with_known_amendments (weeks 2) default_known_amendments.

Definition find_amendment (s : AmendmentStatusState) (name : string) : option Z :=
  fst <$> List.find (fun p => bool_decide (a_name p.2 = name)) (btree_iter (amendments s)).

(** The name of an entry made on the fly. *)
Definition fill_name (amendment : Z) (state : AmendmentState) : AmendmentState :=
  if bool_decide (a_name state = ""%string) then
    mkAmendmentState (a_vote state) (a_enabled state) (a_supported state)
      (default (uint256_to_string amendment) (feature_name amendment))
  else state.

Definition set_vote (s : AmendmentStatusState) (amendment : Z) (vote : AmendmentVote)
  : AmendmentStatusState :=
  let state := fill_name amendment (default amendment_default (amendments s !! amendment)) in
  let state := if bool_decide (a_vote state = Obsolete) then state
               else mkAmendmentState vote (a_enabled state) (a_supported state) (a_name state) in
  set_amendments (<[amendment := state]> (amendments s)) s.

Definition set_trusted_validators (s : AmendmentStatusState) (validators : list Z)
  : AmendmentStatusState :=
  let s := set_trusted (list_to_set validators) s in
  set_recorded (filter (fun p => p.1 ∈ trusted_validators s) (recorded_votes s)) s.

Definition enable_locked (s : AmendmentStatusState) (amendment : Z) : bool * AmendmentStatusState :=
  let state := default amendment_default (amendments s !! amendment) in
  if a_enabled state then (false, set_amendments (<[amendment := state]> (amendments s)) s) else
  let state := fill_name amendment state in
  let state := mkAmendmentState (a_vote state) true (a_supported state) (a_name state) in
  let s := set_amendments (<[amendment := state]> (amendments s)) s in
  (true, if negb (a_supported state) then set_unsupported_enabled true s else s).

Definition is_enabled (s : AmendmentStatusState) (amendment : Z) : bool :=
  match amendments s !! amendment with Some st => a_enabled st | None => false end.
Definition is_supported (s : AmendmentStatusState) (amendment : Z) : bool :=
  match amendments s !! amendment with Some st => a_supported st | None => false end.

Definition set_unsupported_majority_warning_details (s : AmendmentStatusState)
    (warning : option UnsupportedMajorityWarningDetails)
  : option UnsupportedMajorityWarningDetails * AmendmentStatusState :=
  (warning_details s, set_warning (bool_decide (is_Some warning) || warned s) warning s).

Definition set_unsupported_majority_warned (s : AmendmentStatusState) (w : bool)
  : bool * AmendmentStatusState :=
  (warned s, set_warning w (if w then warning_details s else None) s).

(** What the status reads from a ledger. *)
Record AmendmentLedger := mkAmendmentLedger {
  al_seq : Z;
  al_parent_close_time : Z;
  al_enabled : gset Z;
  al_majority : gmap Z Z
}.

Definition al_is_flag_ledger (l : AmendmentLedger) : bool := al_seq l mod FLAG_LEDGER_INTERVAL =? 0.

Definition sync_warning_state_for_validated_ledger (s : AmendmentStatusState) (l : AmendmentLedger)
  : AmendmentStatusState :=
  if unsupported_enabled s then s else
  if negb (warned s) || al_is_flag_ledger l then
    match first_unsupported_expected s with
    | Some first =>
        (set_unsupported_majority_warning_details s (Some (mkDetails first (to_xrpl_string first)))).2
    | None => (set_unsupported_majority_warned s false).2
    end
  else s.

Definition need_validated_ledger (s : AmendmentStatusState) (seq : Z) : bool :=
  negb (wrap_u32 (seq - 1) / 256 =? wrap_u32 (last_update_seq s - 1) / 256).

(** One entry of the majority map in [do_validated_ledger_with_sets]. *)
Definition validated_step (s : AmendmentStatusState) (p : Z * Z) : AmendmentStatusState :=
  let '(amendment, when) := p in
  let state := default amendment_default (amendments s !! amendment) in
  let s := set_amendments (<[amendment := state]> (amendments s)) s in
  if a_enabled state then s else
  if negb (a_supported state) then
    set_validated (last_update_seq s) (majority_amendments s)
      (Some (from_option (fun current => Z.min current when) when (first_unsupported_expected s))) s
  else s.

Definition do_validated_ledger_with_sets (majority_time : Z) (s : AmendmentStatusState) (seq : Z)
    (enabled : gset Z) (majority : gmap Z Z) : AmendmentStatusState :=
  let s := foldl (fun s a => (enable_locked s a).2) s (merge_sort Z.le (elements enabled)) in
  let s := set_validated seq majority None s in
  let s := foldl validated_step s (btree_iter majority) in
  match first_unsupported_expected s with
  | Some first =>
      set_validated (last_update_seq s) (majority_amendments s) (checked_add first majority_time) s
  | None => s
  end.

Definition do_validated_ledger (majority_time : Z) (s : AmendmentStatusState) (l : AmendmentLedger)
  : AmendmentStatusState :=
  if negb (need_validated_ledger s (al_seq l)) then s
  else do_validated_ledger_with_sets majority_time s (al_seq l) (al_enabled l) (al_majority l).

Definition do_validation (s : AmendmentStatusState) (enabled : gset Z) : list Z :=
  map fst (filter (fun p => a_supported p.2 = true /\ a_vote p.2 = Up /\ p.1 ∉ enabled)
    (btree_iter (amendments s))).

Definition get_desired (s : AmendmentStatusState) : list Z := do_validation s ∅.

(** ** Voting *)

(** A validation as [do_voting] reads it. *)
Record AmendmentValidation := mkAmendmentValidation {
  v_trusted : bool;
  v_signer : Z;
  v_amendments : option (list Z)
}.

Definition record_one (trusted : gset Z) (new_timeout : Z) (m : gmap Z TrustedValidatorVotes)
    (v : AmendmentValidation) : gmap Z TrustedValidatorVotes :=
  if negb (bool_decide (trusted = ∅)) && negb (bool_decide (v_signer v ∈ trusted)) then m
  else <[v_signer v := mkVotes (default [] (v_amendments v)) (Some new_timeout)]> m.

Definition expire_votes (close_time : Z) (r : TrustedValidatorVotes) : TrustedValidatorVotes :=
  match timeout r with
  | None => mkVotes [] None
  | Some t => if t <? close_time then mkVotes [] None else r
  end.

Definition record_votes_locked (s : AmendmentStatusState) (close_time : Z)
    (validations : list AmendmentValidation) : outcome AmendmentStatusState :=
  let m := if bool_decide (trusted_validators s = ∅) then recorded_votes s
           else filter (fun p => p.1 ∈ trusted_validators s) (recorded_votes s) in
  new_timeout ← net_clock_add close_time TRUSTED_VOTE_EXPIRATION;
  let m := foldl (record_one (trusted_validators s) new_timeout) m
             (filter (fun v => v_trusted v = true) validations) in
  Ok (set_recorded (expire_votes close_time <$> m) s).

(** One validator's record. *)
Definition tally_record (acc : gmap Z Z * Z) (r : TrustedValidatorVotes) : gmap Z Z * Z :=
  match timeout r with
  | None => acc
  | Some _ => (foldl (fun m a => entry_add wrap_u64 a 1 m) acc.1 (up_votes r), wrap_u64 (acc.2 + 1))
  end.

Definition tally_votes (s : AmendmentStatusState) : AmendmentLastVote :=
  let '(votes, n) := foldl tally_record (∅, 0) (map snd (hash_iter (recorded_votes s))) in
  mkLastVote n
    (Z.max 1 (wrap_u64 (n * AMENDMENT_THRESHOLD_NUMERATOR) / AMENDMENT_THRESHOLD_DENOMINATOR)) votes.

Definition passes_majority (trusted_validations threshold votes_for : Z) : bool :=
  if trusted_validations =? 1 then threshold <=? votes_for else threshold <? votes_for.

(** What is proposed for one amendment, if anything. *)
Definition vote_action (majority_time close_time : Z) (enabled : gset Z) (majority : gmap Z Z)
    (lv : AmendmentLastVote) (amendment : Z) (state : AmendmentState) : option Z :=
  if bool_decide (amendment ∈ enabled) then None else
  let votes_for := default 0 (votes_cast lv !! amendment) in
  let has_validation_majority := passes_majority (trusted_validations lv) (threshold lv) votes_for in
  let has_ledger_majority := bool_decide (is_Some (majority !! amendment)) in
  if has_validation_majority && negb has_ledger_majority && bool_decide (a_vote state = Up)
  then Some ENABLE_AMENDMENT_GOT_MAJORITY_FLAG
  else if negb has_validation_majority && has_ledger_majority
  then Some ENABLE_AMENDMENT_LOST_MAJORITY_FLAG
  else if has_ledger_majority && bool_decide (a_vote state = Up) &&
    match majority !! amendment ≫= (fun t => checked_add t majority_time) with
    | Some until => until <=? close_time
    | None => false
    end
  then Some 0
  else None.

Definition do_voting (st : AmendmentStatus) (close_time : Z) (enabled : gset Z) (majority : gmap Z Z)
    (validations : list AmendmentValidation) : outcome (gmap Z Z * AmendmentStatus) :=
  s ← record_votes_locked (inner st) close_time validations;
  let lv := tally_votes s in
  let actions := foldl (fun actions p =>
    match vote_action (majority_time st) close_time enabled majority lv p.1 p.2 with
    | Some flags => <[p.1 := flags]> actions
    | None => actions
    end) ∅ (btree_iter (amendments s)) in
  Ok (actions, mkAmendmentStatus (majority_time st) (set_last_vote (Some lv) s)).

(** The amendment pseudo-transaction; [sfFlags] is set when not zero. *)
Record ttAMENDMENT := mkAmendmentTx { tx_amendment : Z; tx_ledger_sequence : Z; tx_flags : option Z }.

Definition do_voting_for_ledger {S} (add : ttAMENDMENT -> S -> S * bool) (st : AmendmentStatus)
    (l : AmendmentLedger) (validations : list AmendmentValidation) (initial_position : S)
  : outcome (gmap Z Z * AmendmentStatus * S) :=
  if negb (al_is_flag_ledger l) then Panic else
  '(actions, st) ← do_voting st (al_parent_close_time l) (al_enabled l) (al_majority l) validations;
  let position := foldl (fun p a =>
    (add (mkAmendmentTx a.1 (wrap_u32 (al_seq l + 1)) (if a.2 =? 0 then None else Some a.2)) p).1)
    initial_position (btree_iter actions) in
  Ok (actions, st, position).

End Status.

(** ** Applying pseudo-transactions *)

Inductive Ter :=
| TES_SUCCESS | TEF_ALREADY | TEF_FAILURE | TEM_INVALID_FLAG | TEM_INVALID | TEM_MALFORMED
| TEM_UNKNOWN | TEM_BAD_SRC_ACCOUNT | TEM_BAD_FEE | TEM_BAD_SIGNATURE | TEM_BAD_SEQUENCE
| TER_OTHER (code : Z).

Record DecodedMajorityEntry := mkMajority { close_time : Z; majority_amendment : Z }.
Record DecodedAmendmentsEntry := mkAmendmentsEntry {
  entry_amendments : list Z;
  entry_majorities : list DecodedMajorityEntry;
  entry_previous_txn_id : option Z;
  entry_previous_txn_lgr_seq : option Z
}.
(** [DecodedAmendmentsEntry::default()]. *)
Definition amendments_entry_default : DecodedAmendmentsEntry := mkAmendmentsEntry [] [] None None.
Definition set_entry (amendments : list Z) (majorities : list DecodedMajorityEntry)
    (e : DecodedAmendmentsEntry) : DecodedAmendmentsEntry :=
  mkAmendmentsEntry amendments majorities (entry_previous_txn_id e) (entry_previous_txn_lgr_seq e).

Record ChangeAmendmentFacts := mkAmendmentFacts {
  fact_amendment : Z;
  got_majority : bool;
  lost_majority : bool;
  parent_close_time : Z;
  amendment_supported : bool
}.

Record ChangeAmendmentOutcome := mkAmendmentOutcome {
  ca_result : Ter;
  amendments_entry : option DecodedAmendmentsEntry;
  amendment_blocked : bool;
  unsupported_majority_warning : bool
}.

Definition change_amendment_failure (r : Ter) : ChangeAmendmentOutcome :=
  mkAmendmentOutcome r None false false.

(** The loop over the recorded majorities: [None] is the early return of a second
    report of a majority. *)
Fixpoint sift_majorities (amendment : Z) (got : bool) (l : list DecodedMajorityEntry)
  : option (list DecodedMajorityEntry * bool) :=
  match l with
  | [] => Some ([], false)
  | m :: l' =>
      if majority_amendment m =? amendment then
        if got then None else '(rest, _) ← sift_majorities amendment got l'; Some (rest, true)
      else '(rest, found) ← sift_majorities amendment got l'; Some (m :: rest, found)
  end.

Definition run_change_apply_amendment (facts : ChangeAmendmentFacts)
    (entry : option DecodedAmendmentsEntry) : ChangeAmendmentOutcome :=
  let object := default amendments_entry_default entry in
  if bool_decide (fact_amendment facts ∈ entry_amendments object)
  then change_amendment_failure TEF_ALREADY
  else if got_majority facts && lost_majority facts then change_amendment_failure TEM_INVALID_FLAG
  else match sift_majorities (fact_amendment facts) (got_majority facts) (entry_majorities object) with
  | None => change_amendment_failure TEF_ALREADY
  | Some (new_majorities, found) =>
      if negb found && lost_majority facts then change_amendment_failure TEF_ALREADY else
      let warning := got_majority facts && negb (amendment_supported facts) in
      if got_majority facts then
        mkAmendmentOutcome TES_SUCCESS
          (Some (set_entry (entry_amendments object)
            (new_majorities ++ [mkMajority (parent_close_time facts) (fact_amendment facts)]) object))
          false warning
      else if negb (lost_majority facts) then
        mkAmendmentOutcome TES_SUCCESS
          (Some (set_entry (entry_amendments object ++ [fact_amendment facts]) new_majorities object))
          (negb (amendment_supported facts)) warning
      else
        mkAmendmentOutcome TES_SUCCESS
          (Some (set_entry (entry_amendments object) new_majorities object)) false warning
  end.

(** The sets a ledger's amendments entry stands for: [get_enabled_amendments] and
    [get_majority_amendments] of [xrpld/ledger/src/lib.rs]. *)
Definition get_enabled_amendments (entry : option DecodedAmendmentsEntry) : gset Z :=
  list_to_set (entry_amendments (default amendments_entry_default entry)).
Definition get_majority_amendments (entry : option DecodedAmendmentsEntry) : gmap Z Z :=
  foldl (fun m e => <[majority_amendment e := close_time e]> m) ∅
    (entry_majorities (default amendments_entry_default entry)).

(** The [TxType::AMENDMENT] arm of [transactor_dispatcher.rs]: the answer and the entry
    of the ledger afterwards. An absent [sfFlags] reads as zero. *)
Definition apply_amendment_tx `{!FeatureRegistry} (time : Z) (existing : option DecodedAmendmentsEntry)
    (tx : ttAMENDMENT) : Ter * option DecodedAmendmentsEntry :=
  let flags := default 0 (tx_flags tx) in
  let outcome := run_change_apply_amendment
    (mkAmendmentFacts (tx_amendment tx)
      (negb (Z.land flags ENABLE_AMENDMENT_GOT_MAJORITY_FLAG =? 0))
      (negb (Z.land flags ENABLE_AMENDMENT_LOST_MAJORITY_FLAG =? 0))
      time
      (match registered_feature (tx_amendment tx) with
       | Some f => registered_feature_supported f
       | None => false
       end)) existing in
  match ca_result outcome with
  | TES_SUCCESS => (TES_SUCCESS, amendments_entry outcome)
  | r => (r, existing)
  end.

(** ** The other pseudo-transactions of [change.rs] *)

Record DecodedDisabledValidator := mkDisabled { dv_public_key : list Z; dv_first_ledger_sequence : Z }.
Record DecodedNegativeUnlEntry := mkNegativeUnlEntry {
  disabled_validators : list DecodedDisabledValidator;
  validator_to_disable : option (list Z);
  validator_to_re_enable : option (list Z);
  nu_previous_txn_id : option Z;
  nu_previous_txn_lgr_seq : option Z
}.
Definition negative_unl_default : DecodedNegativeUnlEntry := mkNegativeUnlEntry [] None None None None.

Record ChangeUnlModifyFacts := mkUnlModifyFacts {
  um_is_flag_ledger : bool;
  unl_modify_disabling : option Z;
  ledger_sequence : option Z;
  current_ledger_sequence : Z;
  validator_public_key : option (list Z);
  validator_public_key_type_known : bool
}.
Record ChangeUnlModifyOutcome := mkUnlModifyOutcome {
  um_result : Ter;
  negative_unl_entry : option DecodedNegativeUnlEntry
}.
Definition change_unl_modify_failure : ChangeUnlModifyOutcome := mkUnlModifyOutcome TEF_FAILURE None.

Definition run_change_apply_unl_modify (facts : ChangeUnlModifyFacts)
    (entry : option DecodedNegativeUnlEntry) : ChangeUnlModifyOutcome :=
  if negb (um_is_flag_ledger facts) then change_unl_modify_failure else
  match unl_modify_disabling facts, ledger_sequence facts, validator_public_key facts with
  | Some d, Some seq, Some validator =>
      if 1 <? d then change_unl_modify_failure else
      if negb (seq =? current_ledger_sequence facts) then change_unl_modify_failure else
      if negb (validator_public_key_type_known facts) then change_unl_modify_failure else
      let u := default negative_unl_default entry in
      let found := existsb (fun e => bool_decide (dv_public_key e = validator)) (disabled_validators u) in
      if negb (d =? 0) then
        if bool_decide (is_Some (validator_to_disable u)) then change_unl_modify_failure else
        if bool_decide (validator_to_re_enable u = Some validator) then change_unl_modify_failure else
        if found then change_unl_modify_failure else
        mkUnlModifyOutcome TES_SUCCESS (Some (mkNegativeUnlEntry (disabled_validators u) (Some validator)
          (validator_to_re_enable u) (nu_previous_txn_id u) (nu_previous_txn_lgr_seq u)))
      else
        if bool_decide (is_Some (validator_to_re_enable u)) then change_unl_modify_failure else
        if bool_decide (validator_to_disable u = Some validator) then change_unl_modify_failure else
        if negb found then change_unl_modify_failure else
        mkUnlModifyOutcome TES_SUCCESS (Some (mkNegativeUnlEntry (disabled_validators u)
          (validator_to_disable u) (Some validator) (nu_previous_txn_id u) (nu_previous_txn_lgr_seq u)))
  | _, _, _ => change_unl_modify_failure
  end.

Inductive TxType := TtFee | TtAmendment | TtUnlModify | TtOther.

Record ChangePreflightFacts := mkPreflightFacts {
  account_is_zero : bool;
  fee_is_native_and_zero : bool;
  signing_pub_key_empty : bool;
  signature_empty : bool;
  signers_present : bool;
  sequence_is_zero : bool;
  previous_txn_id_present : bool
}.

Definition is_tes_success (t : Ter) : bool := match t with TES_SUCCESS => true | _ => false end.

Definition run_change_preflight (lower : Ter) (f : ChangePreflightFacts) : Ter :=
  if negb (is_tes_success lower) then lower
  else if negb (account_is_zero f) then TEM_BAD_SRC_ACCOUNT
  else if negb (fee_is_native_and_zero f) then TEM_BAD_FEE
  else if negb (signing_pub_key_empty f) || negb (signature_empty f) || signers_present f
  then TEM_BAD_SIGNATURE
  else if negb (sequence_is_zero f) || previous_txn_id_present f then TEM_BAD_SEQUENCE
  else TES_SUCCESS.

Record ChangePreclaimFacts := mkPreclaimFacts {
  ledger_is_open : bool;
  base_fee_present : bool;
  reference_fee_units_present : bool;
  reserve_base_present : bool;
  reserve_increment_present : bool;
  base_fee_drops_present : bool;
  reserve_base_drops_present : bool;
  reserve_increment_drops_present : bool
}.

Definition run_change_preclaim (t : TxType) (f : ChangePreclaimFacts) : Ter :=
  if ledger_is_open f then TEM_INVALID else
  match t with
  | TtFee =>
      if negb (base_fee_drops_present f) || negb (reserve_base_drops_present f)
         || negb (reserve_increment_drops_present f) then TEM_MALFORMED
      else if base_fee_present f || reference_fee_units_present f || reserve_base_present f
              || reserve_increment_present f then TEM_MALFORMED
      else TES_SUCCESS
  | TtAmendment | TtUnlModify => TES_SUCCESS
  | TtOther => TEM_UNKNOWN
  end.

Definition run_change_do_apply {A} (t : TxType) (amendment fee unl_modify : A -> Ter * A) (a : A) : Ter * A :=
  match t with
  | TtAmendment => amendment a
  | TtFee => fee a
  | TtUnlModify => unl_modify a
  | TtOther => (TEF_FAILURE, a)
  end.
