(* ===== verification/AmendmentTheorems.v ===== *)
(** * Amendments: theorems

    The tally and the majority rule, what a vote proposes, that what is proposed
    applies, and the life of an amendment over a chain of flag ledgers. *)

From stdpp Require Import strings.
From S2P Require Import Prelude Chrono NegativeUnl Amendment.

(** ** The tally *)

Definition times (a : Z) (l : list Z) : Z := zsum (fun x => if bool_decide (x = a) then 1 else 0) l.
Definition is_live (r : TrustedValidatorVotes) : bool := bool_decide (is_Some (timeout r)).

Definition live_times (a : Z) (r : TrustedValidatorVotes) : Z :=
  if is_live r then times a (up_votes r) else 0.
Definition live_one (r : TrustedValidatorVotes) : Z := if is_live r then 1 else 0.

(** How often an amendment is named in the live records. *)
Definition votes_for (m : gmap Z TrustedValidatorVotes) (a : Z) : Z :=
  msum (live_times a) m.
(** How many validators have a live record. *)
Definition voters (m : gmap Z TrustedValidatorVotes) : Z := msum live_one m.

Lemma times_cons a x l : times a (x :: l) = (if bool_decide (x = a) then 1 else 0) + times a l.
Proof. done. Qed.

Lemma times_nonneg a l : 0 <= times a l.
Proof. apply zsum_nonneg. intros x _. case_bool_decide; lia. Qed.

Lemma entry_adds l (m : gmap Z Z) a :
  0 <= default 0 (m !! a) -> default 0 (m !! a) + times a l <= u64_max ->
  default 0 (foldl (fun m a => Prelude.entry_add wrap_u64 a 1 m) m l !! a) = default 0 (m !! a) + times a l.
Proof.
  revert m. induction l as [|x l IH]; intros m Hm Hb; [unfold times; simpl; lia|].
  pose proof (times_nonneg a l). cbn [foldl]. rewrite times_cons in *. unfold Prelude.entry_add.
  destruct (decide (x = a)) as [->|Hne].
  - rewrite bool_decide_true in * by done. rewrite IH; rewrite lookup_insert_eq; simpl;
      rewrite wrap_u64_id by (unfold in_u64; lia); lia.
  - rewrite bool_decide_false in * by done. rewrite IH; rewrite lookup_insert_ne by done; lia.
Qed.

Lemma live_times_nonneg a l : 0 <= zsum (live_times a) l.
Proof. apply zsum_nonneg. intros r _. unfold live_times. case_match; [apply times_nonneg|lia]. Qed.
Lemma live_one_nonneg l : 0 <= zsum live_one l.
Proof. apply zsum_nonneg. intros r _. unfold live_one. case_match; lia. Qed.

Lemma tally_votes_fold l acc a :
  0 <= acc.2 -> 0 <= default 0 (acc.1 !! a) ->
  acc.2 + zsum live_one l <= u64_max -> default 0 (acc.1 !! a) + zsum (live_times a) l <= u64_max ->
  default 0 ((foldl tally_record acc l).1 !! a) = default 0 (acc.1 !! a) + zsum (live_times a) l /\
  (foldl tally_record acc l).2 = acc.2 + zsum live_one l.
Proof.
  revert acc. induction l as [|r l IH]; intros acc Hn Ha Hb1 Hb2; [simpl; lia|].
  pose proof (live_times_nonneg a l). pose proof (live_one_nonneg l).
  pose proof (times_nonneg a (up_votes r)).
  cbn [foldl zsum foldr] in *. fold (zsum live_one l) in *. fold (zsum (live_times a) l) in *.
  destruct (timeout r) as [t|] eqn:Et.
  - assert (live_one r = 1 /\ live_times a r = times a (up_votes r)) as [E1 E2]
      by (unfold live_one, live_times, is_live; by rewrite Et).
    rewrite E1, E2 in *.
    assert (tally_record acc r = (foldl (fun m a => Prelude.entry_add wrap_u64 a 1 m) acc.1 (up_votes r),
      acc.2 + 1)) as -> by (unfold tally_record; rewrite Et, wrap_u64_id by (unfold in_u64; lia); done).
    destruct (IH (foldl (fun m a => Prelude.entry_add wrap_u64 a 1 m) acc.1 (up_votes r), acc.2 + 1))
      as [I1 I2]; cbn [fst snd] in *; rewrite ?entry_adds in * by lia; lia.
  - assert (live_one r = 0 /\ live_times a r = 0) as [E1 E2]
      by (unfold live_one, live_times, is_live; by rewrite Et).
    rewrite E1, E2 in *. assert (tally_record acc r = acc) as -> by (unfold tally_record; by rewrite Et).
    destruct (IH acc) as [I1 I2]; lia.
Qed.

Section Tally.
Context `{!FeatureRegistry, !HashOrder}.

(** Fewer votes and voters than a [usize] can count. *)
Definition countable_votes (m : gmap Z TrustedValidatorVotes) : Prop :=
  100 * voters m <= u64_max /\ forall a, votes_for m a <= u64_max.

Lemma hash_values {A} (f : A -> Z) (m : gmap Z A) : zsum f (map snd (hash_iter m)) = msum f m.
Proof.
  unfold msum. rewrite <- (zsum_perm _ _ _ (hash_iter_perm Z A m)).
  induction (hash_iter m) as [|p l IH]; simpl; [done|]. by rewrite IH.
Qed.

Lemma tally_votes_eq s a :
  countable_votes (recorded_votes s) ->
  let lv := tally_votes s in
  trusted_validations lv = voters (recorded_votes s) /\
  threshold lv = Z.max 1 (voters (recorded_votes s) * 80 / 100) /\
  default 0 (votes_cast lv !! a) = votes_for (recorded_votes s) a.
Proof.
  intros [Hv Ha]. specialize (Ha a). unfold voters, votes_for in *.
  rewrite <- !(hash_values _ (recorded_votes s)) in *. unfold tally_votes.
  pose proof (live_one_nonneg (map snd (hash_iter (recorded_votes s)))).
  pose proof (live_times_nonneg a (map snd (hash_iter (recorded_votes s)))).
  destruct (tally_votes_fold (map snd (hash_iter (recorded_votes s))) (∅, 0) a) as [E1 E2]; simpl; try lia.
  { rewrite lookup_empty. done. }
  { rewrite lookup_empty. simpl. lia. }
  destruct (foldl tally_record (∅, 0) _) as [vs n]. simpl in *. rewrite lookup_empty in E1. simpl in *.
  subst n. unfold AMENDMENT_THRESHOLD_NUMERATOR, AMENDMENT_THRESHOLD_DENOMINATOR.
  rewrite Z.add_0_l in *. rewrite wrap_u64_id by (unfold in_u64, u64_max in *; lia). done.
Qed.

Lemma passes_majority_eq n v :
  0 <= n -> 0 <= v -> (n = 0 -> v = 0) ->
  passes_majority n (Z.max 1 (n * 80 / 100)) v = (80 * n <? 100 * v).
Proof.
  intros Hn Hv Hz. unfold passes_majority.
  pose proof (Z.div_mod (n * 80) 100 ltac:(lia)). pose proof (Z.mod_pos_bound (n * 80) 100 ltac:(lia)).
  destruct (n =? 1) eqn:E1.
  - apply Z.eqb_eq in E1. subst. change (1 * 80 / 100) with 0.
    destruct (Z.leb_spec (Z.max 1 0) v), (Z.ltb_spec (80 * 1) (100 * v)); lia.
  - apply Z.eqb_neq in E1.
    destruct (Z.ltb_spec (Z.max 1 (n * 80 / 100)) v), (Z.ltb_spec (80 * n) (100 * v)); lia.
Qed.

Lemma voters_zero m a : voters m = 0 -> votes_for m a = 0.
Proof.
  unfold voters, votes_for. intros H0'. apply msum_zero. intros k r Hk.
  assert (live_one r = 0) as Hr.
  { pose proof (msum_elem_le live_one k r m) as Hle. rewrite H0' in Hle.
    assert (forall r, 0 <= live_one r) as Hn by (intros; unfold live_one; case_match; lia).
    specialize (Hle ltac:(intros; apply Hn) Hk). specialize (Hn r). lia. }
  unfold live_one, live_times in *. by destruct (is_live r).
Qed.

(** The majority rule on the records: strictly more than 80 per cent of the voters. *)
Lemma majority_eq s a :
  countable_votes (recorded_votes s) ->
  passes_majority (trusted_validations (tally_votes s)) (threshold (tally_votes s))
    (default 0 (votes_cast (tally_votes s) !! a))
    = (80 * voters (recorded_votes s) <? 100 * votes_for (recorded_votes s) a).
Proof.
  intros Hc. destruct (tally_votes_eq s a Hc) as (-> & -> & ->). apply passes_majority_eq.
  - apply msum_nonneg. intros. unfold live_one. case_match; lia.
  - apply msum_nonneg. intros. unfold live_times. case_match; [apply times_nonneg|lia].
  - apply voters_zero.
Qed.

End Tally.

(** ** Recording votes *)

(** The last validation of a signer in a list. *)
Fixpoint last_of (k : Z) (l : list AmendmentValidation) : option AmendmentValidation :=
  match l with
  | [] => None
  | v :: l' =>
      match last_of k l' with
      | Some v' => Some v'
      | None => if v_signer v =? k then Some v else None
      end
  end.

Definition accepted (trusted : gset Z) (k : Z) : bool :=
  bool_decide (trusted = ∅) || bool_decide (k ∈ trusted).

Lemma record_lookup trusted t l m k :
  foldl (record_one trusted t) m l !! k =
    match last_of k l with
    | Some v => if accepted trusted k then Some (mkVotes (default [] (v_amendments v)) (Some t)) else m !! k
    | None => m !! k
    end.
Proof.
  revert m. induction l as [|v l IH]; intros m; simpl; [done|]. rewrite IH.
  unfold record_one, accepted.
  destruct (Z.eqb_spec (v_signer v) k) as [<-|Hne].
  - destruct (last_of (v_signer v) l) as [v'|].
    + repeat case_bool_decide; simpl; try done.
    + repeat case_bool_decide; simpl; try done; by rewrite lookup_insert_eq.
  - destruct (last_of k l) as [v'|]; repeat case_bool_decide; simpl; try done; by rewrite lookup_insert_ne.
Qed.

(** The record of [k] after a round: its latest trusted validation if it sent one, else
    what was recorded before, if that has not timed out; nothing for a signer that is not
    trusted. *)
Definition record_after (trusted : gset Z) (close_time t : Z) (trusted_vals : list AmendmentValidation)
    (old : option TrustedValidatorVotes) (k : Z) : option TrustedValidatorVotes :=
  if accepted trusted k then
    match last_of k trusted_vals with
    | Some v => Some (mkVotes (default [] (v_amendments v)) (Some t))
    | None => expire_votes close_time <$> old
    end
  else None.

Lemma record_votes_lookup s ct t vals s' :
  net_clock_add ct TRUSTED_VOTE_EXPIRATION = Ok t -> ct <= t ->
  record_votes_locked s ct vals = Ok s' ->
  amendments s' = amendments s /\
  forall k, recorded_votes s' !! k =
    record_after (trusted_validators s) ct t (filter (fun v => v_trusted v = true) vals)
      (recorded_votes s !! k) k.
Proof.
  intros Ht Hle. unfold record_votes_locked. rewrite Ht. simpl. intros [= <-]. simpl. split; [done|].
  intros k. rewrite lookup_fmap, record_lookup. unfold record_after.
  destruct (last_of k _) as [v|].
  - destruct (accepted (trusted_validators s) k) eqn:Ha; simpl.
    + unfold expire_votes. simpl. by rewrite (proj2 (Z.ltb_ge _ _)) by lia.
    + unfold accepted in Ha. apply orb_false_iff in Ha as [H1 H2]. rewrite H1.
      apply bool_decide_eq_false in H2. by rewrite map_lookup_filter_None_2 by (right; intros ? _; exact H2).
  - unfold accepted. case_bool_decide as H1; simpl; [done|].
    case_bool_decide as H2; simpl.
    + f_equal. destruct (recorded_votes s !! k) as [r|] eqn:E.
      * by apply map_lookup_filter_Some_2.
      * apply map_lookup_filter_None. by left.
    + by rewrite map_lookup_filter_None_2 by (right; intros ? _; exact H2).
Qed.

(** ** What a vote proposes *)

Lemma fold_actions (f : Z -> AmendmentState -> option Z) l acc a :
  NoDup (map fst l) ->
  foldl (fun (actions : gmap Z Z) p =>
    match f p.1 p.2 with Some flags => <[p.1 := flags]> actions | None => actions end) acc l !! a
  = match (list_to_map l : gmap Z AmendmentState) !! a ≫= f a with Some flags => Some flags | None => acc !! a end.
Proof.
  revert acc. induction l as [|[x st] l IH]; intros acc Hnd; [done|].
  cbn [foldl map fst snd] in *. apply NoDup_cons in Hnd as [Hx Hnd]. rewrite IH by done.
  simpl. destruct (decide (x = a)) as [->|Hne].
  - rewrite lookup_insert_eq. rewrite (not_elem_of_list_to_map_1 l a) by done. simpl.
    destruct (f a st); [by rewrite lookup_insert_eq|done].
  - rewrite lookup_insert_ne by done. destruct (f x st); [by rewrite lookup_insert_ne|done].
Qed.

Lemma btree_iter_NoDup {V} (m : gmap Z V) : NoDup (map fst (btree_iter m)).
Proof.
  assert (map fst (btree_iter m) ≡ₚ (map_to_list m).*1) as ->
    by (apply Permutation_map, sort_by_perm).
  apply NoDup_fst_map_to_list.
Qed.

Lemma btree_iter_map {V} (m : gmap Z V) : list_to_map (btree_iter m) = m.
Proof.
  rewrite <- (list_to_map_to_list m) at 2. apply list_to_map_proper; [apply btree_iter_NoDup|].
  apply sort_by_perm.
Qed.

Section Voting.
Context `{!FeatureRegistry, !HashOrder}.

Lemma do_voting_lookup st ct enabled majority vals actions st' :
  do_voting st ct enabled majority vals = Ok (actions, st') ->
  exists s, record_votes_locked (inner st) ct vals = Ok s /\
    st' = mkAmendmentStatus (majority_time st) (set_last_vote (Some (tally_votes s)) s) /\
    forall a, actions !! a = amendments s !! a ≫=
      vote_action (majority_time st) ct enabled majority (tally_votes s) a.
Proof.
  unfold do_voting. intros (s & E & Hv)%bind_Ok. injection Hv as <- <-. exists s. split_and!; try done.
  intros a. rewrite fold_actions by apply btree_iter_NoDup. rewrite btree_iter_map.
  by destruct (_ ≫= _).
Qed.

End Voting.

(** ** What is proposed applies *)

Notation ids l := (map majority_amendment l) (only parsing).

Record entry_wf (e : DecodedAmendmentsEntry) : Prop := {
  ew_majorities : NoDup (ids (entry_majorities e));
  ew_disjoint : forall a, a ∈ ids (entry_majorities e) -> a ∉ entry_amendments e
}.

Lemma sift_spec a got l :
  sift_majorities a got l =
    if bool_decide (a ∈ ids l) && got then None
    else Some (filter (fun m => majority_amendment m <> a) l, bool_decide (a ∈ ids l)).
Proof.
  induction l as [|m l IH]; [done|]. cbn [sift_majorities map]. rewrite IH.
  destruct (Z.eqb_spec (majority_amendment m) a) as [<-|Hne].
  - rewrite (bool_decide_true (_ ∈ _ :: _)) by left. rewrite filter_cons_False by tauto.
    destruct got; [done|]. by rewrite andb_false_r.
  - rewrite (bool_decide_ext (a ∈ majority_amendment m :: ids l) (a ∈ ids l)) by set_solver.
    rewrite filter_cons_True by done. by destruct (bool_decide _ && got).
Qed.

Lemma elem_of_ids a l : a ∈ ids l <-> exists t, mkMajority t a ∈ l.
Proof.
  rewrite list_elem_of_In, in_map_iff. split.
  - intros ([t a'] & <- & Hin). exists t. by apply list_elem_of_In.
  - intros [t Hin]. exists (mkMajority t a). split; [done|]. by apply list_elem_of_In.
Qed.

Lemma ids_filter a a' l : a' ∈ ids (filter (fun m => majority_amendment m <> a) l) <-> a' ∈ ids l /\ a' <> a.
Proof. rewrite !elem_of_ids. setoid_rewrite list_elem_of_filter. simpl. naive_solver. Qed.

Lemma NoDup_ids_filter a l : NoDup (ids l) -> NoDup (ids (filter (fun m => majority_amendment m <> a) l)).
Proof.
  induction l as [|m l IH]; intros Hnd; [done|]. cbn [map] in Hnd. apply NoDup_cons in Hnd as [Hm Hnd].
  destruct (decide (majority_amendment m <> a)) as [Ha|Ha].
  - rewrite filter_cons_True by done. cbn [map]. apply NoDup_cons. rewrite ids_filter. naive_solver.
  - rewrite filter_cons_False by done. by apply IH.
Qed.

Notation majorities_map l :=
  (foldl (fun m e => <[majority_amendment e := close_time e]> m) (∅ : gmap Z Z) l) (only parsing).

Lemma majorities_fold (l : list DecodedMajorityEntry) (m : gmap Z Z) a :
  NoDup (ids l) ->
  foldl (fun m e => <[majority_amendment e := close_time e]> m) m l !! a
    = match List.find (fun e => majority_amendment e =? a) l with
      | Some e => Some (close_time e)
      | None => m !! a
      end.
Proof.
  revert m. induction l as [|e l IH]; intros m Hnd; [done|]. cbn [foldl map List.find] in *.
  apply NoDup_cons in Hnd as [He Hnd]. rewrite IH by done.
  destruct (Z.eqb_spec (majority_amendment e) a) as [<-|Hne].
  - destruct (List.find _ l) as [e'|] eqn:E; [|by rewrite lookup_insert_eq].
    apply find_some in E as [Hin Heq]. apply Z.eqb_eq in Heq. exfalso. apply He.
    rewrite <- Heq. apply list_elem_of_In, in_map, Hin.
  - destruct (List.find _ l); [done|]. by rewrite lookup_insert_ne.
Qed.

Lemma majority_lookup e a t :
  NoDup (ids (entry_majorities e)) ->
  get_majority_amendments (Some e) !! a = Some t <-> mkMajority t a ∈ entry_majorities e.
Proof.
  intros Hnd. unfold get_majority_amendments.
  change (default amendments_entry_default (Some e)) with e. rewrite majorities_fold by done.
  rewrite lookup_empty. generalize dependent (entry_majorities e). intros l Hnd.
  induction l as [|[t' a'] l IH]; [by split; [|intros ?%not_elem_of_nil]|]. cbn [map List.find majority_amendment close_time] in *.
  apply NoDup_cons in Hnd as [Hm Hnd]. destruct (Z.eqb_spec a' a) as [->|Hne].
  - split; [intros [= ->]; left|]. intros [Heq|Hin]%elem_of_cons; [by injection Heq as ->|].
    exfalso. apply Hm, elem_of_ids. by exists t.
  - rewrite IH by done. rewrite elem_of_cons. naive_solver.
Qed.

Lemma majority_is_Some e a :
  NoDup (ids (entry_majorities e)) ->
  is_Some (get_majority_amendments (Some e) !! a) <-> a ∈ ids (entry_majorities e).
Proof.
  intros Hnd. rewrite elem_of_ids. split.
  - intros [t Ht]. exists t. by apply majority_lookup.
  - intros [t Ht]. exists t. by apply majority_lookup.
Qed.

Lemma enabled_elem e a : a ∈ get_enabled_amendments (Some e) <-> a ∈ entry_amendments e.
Proof. apply elem_of_list_to_set. Qed.

Notation entry_of eo := (default amendments_entry_default eo) (only parsing).

(** The pseudo-transaction of an action, as [do_voting_for_ledger] builds it. *)
Definition tx_of (seq : Z) (p : Z * Z) : ttAMENDMENT :=
  mkAmendmentTx p.1 seq (if p.2 =? 0 then None else Some p.2).

(** An action that fits the ledger's sets. *)
Definition action_ok (enabled : gset Z) (majority : gmap Z Z) (a f : Z) : Prop :=
  a ∉ enabled /\
  ((f = ENABLE_AMENDMENT_GOT_MAJORITY_FLAG /\ majority !! a = None) \/
   (f = ENABLE_AMENDMENT_LOST_MAJORITY_FLAG /\ is_Some (majority !! a)) \/
   (f = 0 /\ is_Some (majority !! a))).

Definition enabled_after (enabled : gset Z) (a f : Z) : gset Z :=
  if f =? 0 then {[a]} ∪ enabled else enabled.
Definition majority_after (time : Z) (majority : gmap Z Z) (a f : Z) : gmap Z Z :=
  if f =? ENABLE_AMENDMENT_GOT_MAJORITY_FLAG then <[a := time]> majority else delete a majority.

Lemma majority_filter e (m : gmap Z Z) ms a :
  entry_wf e -> m = get_majority_amendments (Some e) ->
  ms = filter (fun x => majority_amendment x <> a) (entry_majorities e) ->
  forall en, get_majority_amendments (Some (set_entry en ms e)) = delete a m.
Proof.
  intros [Hnd Hd] -> -> en. apply map_eq. intros k. apply option_eq. intros t.
  rewrite majority_lookup by (simpl; by apply NoDup_ids_filter). simpl.
  rewrite list_elem_of_filter, lookup_delete_Some, majority_lookup by done. simpl. naive_solver.
Qed.

Section Apply.
Context `{!FeatureRegistry}.

Lemma apply_got e time a seq :
  entry_wf e -> a ∉ entry_amendments e -> a ∉ ids (entry_majorities e) ->
  exists e', apply_amendment_tx time (Some e) (tx_of seq (a, ENABLE_AMENDMENT_GOT_MAJORITY_FLAG))
      = (TES_SUCCESS, Some e') /\ entry_wf e' /\
    get_enabled_amendments (Some e') = get_enabled_amendments (Some e) /\
    get_majority_amendments (Some e') = <[a := time]> (get_majority_amendments (Some e)).
Proof.
  intros Hwf Ha Hm. pose proof Hwf as [Hnd Hd].
  assert (filter (fun m => majority_amendment m <> a) (entry_majorities e) = entry_majorities e) as Hf.
  { apply filter_all. intros [t a'] Hin Heq. apply Hm, elem_of_ids. simpl in Heq. subst a'. by exists t. }
  unfold apply_amendment_tx, run_change_apply_amendment. simpl.
  rewrite bool_decide_false by done. rewrite sift_spec, bool_decide_false by done. simpl. rewrite Hf.
  eexists. split; [done|].
  assert (NoDup (ids (entry_majorities e ++ [mkMajority time a]))) as Hnd'.
  { rewrite map_app. apply NoDup_app. split; [done|]. split; [|apply NoDup_singleton].
    intros x Hx ->%list_elem_of_singleton. done. }
  split_and!; [|done|].
  - split; simpl; [done|]. intros x. rewrite map_app. intros [Hx|Hx]%elem_of_app; [by apply Hd|].
    apply list_elem_of_singleton in Hx. by subst x.
  - apply map_eq. intros k. apply option_eq. intros t. rewrite majority_lookup by done. simpl.
    rewrite elem_of_app, list_elem_of_singleton, <- majority_lookup by done.
    destruct (decide (k = a)) as [->|Hne].
    + rewrite lookup_insert_eq. split; [|intros [= ->]; by right].
      intros [Ht|Ht]; [|by injection Ht as ->]. exfalso. apply Hm, (majority_is_Some e a Hnd). eauto.
    + rewrite lookup_insert_ne by done. naive_solver.
Qed.

Lemma apply_lost e time a seq :
  entry_wf e -> a ∉ entry_amendments e -> a ∈ ids (entry_majorities e) ->
  exists e', apply_amendment_tx time (Some e) (tx_of seq (a, ENABLE_AMENDMENT_LOST_MAJORITY_FLAG))
      = (TES_SUCCESS, Some e') /\ entry_wf e' /\
    get_enabled_amendments (Some e') = get_enabled_amendments (Some e) /\
    get_majority_amendments (Some e') = delete a (get_majority_amendments (Some e)).
Proof.
  intros Hwf Ha Hm. pose proof Hwf as [Hnd Hd].
  unfold apply_amendment_tx, run_change_apply_amendment. simpl.
  rewrite bool_decide_false by done. rewrite sift_spec, bool_decide_true by done. simpl.
  eexists. split; [done|]. split_and!; [|done|by eapply majority_filter].
  split; simpl; [by apply NoDup_ids_filter|]. intros x [Hx _]%ids_filter. by apply Hd.
Qed.

Lemma apply_enable e time a seq :
  entry_wf e -> a ∉ entry_amendments e ->
  exists e', apply_amendment_tx time (Some e) (tx_of seq (a, 0)) = (TES_SUCCESS, Some e') /\ entry_wf e' /\
    get_enabled_amendments (Some e') = {[a]} ∪ get_enabled_amendments (Some e) /\
    get_majority_amendments (Some e') = delete a (get_majority_amendments (Some e)).
Proof.
  intros Hwf Ha. pose proof Hwf as [Hnd Hd].
  unfold apply_amendment_tx, run_change_apply_amendment. simpl.
  rewrite bool_decide_false by done. rewrite sift_spec. simpl. rewrite andb_false_r. simpl.
  rewrite andb_false_r. eexists. split; [done|]. split_and!; [|unfold get_enabled_amendments; simpl; set_solver|by eapply majority_filter].
  split; simpl; [by apply NoDup_ids_filter|].
  intros x [Hx Hne]%ids_filter [Hx'|Hx']%elem_of_app; [by eapply Hd|]. set_solver.
Qed.

(** A fitting action succeeds and has its effect on the two sets. *)
Lemma apply_action eo time a f seq :
  entry_wf (entry_of eo) ->
  action_ok (get_enabled_amendments eo) (get_majority_amendments eo) a f ->
  exists e', apply_amendment_tx time eo (tx_of seq (a, f)) = (TES_SUCCESS, Some e') /\ entry_wf e' /\
    get_enabled_amendments (Some e') = enabled_after (get_enabled_amendments eo) a f /\
    get_majority_amendments (Some e') = majority_after time (get_majority_amendments eo) a f.
Proof.
  set (e := entry_of eo). intros Hwf [Ha Hf].
  change (get_enabled_amendments eo) with (get_enabled_amendments (Some e)) in *.
  change (get_majority_amendments eo) with (get_majority_amendments (Some e)) in *.
  assert (forall tx, (apply_amendment_tx time eo tx).1 = TES_SUCCESS ->
    apply_amendment_tx time eo tx = apply_amendment_tx time (Some e) tx) as Heq.
  { intros tx. unfold apply_amendment_tx, run_change_apply_amendment.
    change (default amendments_entry_default (Some e)) with e. fold e. by case_match. }
  assert (forall tx r, apply_amendment_tx time (Some e) tx = (TES_SUCCESS, r) ->
    apply_amendment_tx time eo tx = (TES_SUCCESS, r)) as Hback.
  { intros tx r Hr. rewrite Heq; [done|]. revert Hr. unfold apply_amendment_tx, run_change_apply_amendment.
    change (default amendments_entry_default (Some e)) with e. fold e. by case_match; intros [= <-]. }
  rewrite enabled_elem in Ha. pose proof (majority_is_Some e a (ew_majorities e Hwf)) as Hmi.
  destruct Hf as [[-> Hm]|[[-> Hm]|[-> Hm]]].
  - destruct (apply_got e time a seq Hwf Ha) as (e' & E & He' & E1 & E2).
    { rewrite <- Hmi, Hm. by intros []. }
    exists e'. split_and!; auto.
  - destruct (apply_lost e time a seq Hwf Ha) as (e' & E & He' & E1 & E2); [by apply Hmi|].
    exists e'. split_and!; auto.
  - destruct (apply_enable e time a seq Hwf Ha) as (e' & E & He' & E1 & E2). exists e'. split_and!; auto.
Qed.

(** The transactions of a vote, in order; [None] if one of them fails. *)
Fixpoint apply_all (time seq : Z) (eo : option DecodedAmendmentsEntry) (l : list (Z * Z))
  : option (option DecodedAmendmentsEntry) :=
  match l with
  | [] => Some eo
  | p :: l' =>
      match apply_amendment_tx time eo (tx_of seq p) with
      | (TES_SUCCESS, eo') => apply_all time seq eo' l'
      | _ => None
      end
  end.

Definition actions_effect (actions : gmap Z Z) (E : gset Z) (M : gmap Z Z) (time : Z)
    (E' : gset Z) (M' : gmap Z Z) : Prop :=
  forall a,
    (a ∈ E' <-> a ∈ E \/ actions !! a = Some 0) /\
    M' !! a = match actions !! a with
              | Some f => if f =? ENABLE_AMENDMENT_GOT_MAJORITY_FLAG then Some time else None
              | None => M !! a
              end.

Lemma apply_all_effect l eo time seq :
  NoDup (map fst l) -> entry_wf (entry_of eo) ->
  (forall a f, (a, f) ∈ l -> action_ok (get_enabled_amendments eo) (get_majority_amendments eo) a f) ->
  exists eo', apply_all time seq eo l = Some eo' /\ entry_wf (entry_of eo') /\
    actions_effect (list_to_map l) (get_enabled_amendments eo) (get_majority_amendments eo) time
      (get_enabled_amendments eo') (get_majority_amendments eo').
Proof.
  revert eo. induction l as [|[a f] l IH]; intros eo Hnd Hwf Hok.
  { exists eo. split_and!; [done..|]. intros a. simpl. rewrite lookup_empty. split; [naive_solver|done]. }
  cbn [map fst] in Hnd. apply NoDup_cons in Hnd as [Ha Hnd].
  destruct (apply_action eo time a f seq Hwf) as (e1 & E1 & Hwf1 & He & Hm); [apply Hok; left|].
  cbn [apply_all]. rewrite E1.
  destruct (IH (Some e1) Hnd Hwf1) as (eo' & E2 & Hwf2 & Heff).
  { intros a' f' Hin. assert (a' <> a) as Hne.
    { intros ->. apply Ha. apply list_elem_of_In, in_map_iff. exists (a, f'). split; [done|].
      by apply list_elem_of_In. }
    destruct (Hok a' f' ltac:(by right)) as [H1 H2]. rewrite He, Hm. unfold enabled_after, majority_after.
    split; [case_match; set_solver|]. case_match; by rewrite ?lookup_insert_ne, ?lookup_delete_ne. }
  exists eo'. split_and!; [done..|]. intros a'. specialize (Heff a'). destruct Heff as [Hen Hma].
  rewrite Hen, Hma, He, Hm. simpl. unfold enabled_after, majority_after.
  destruct (decide (a' = a)) as [->|Hne].
  - rewrite lookup_insert_eq, (not_elem_of_list_to_map_1 l a) by done.
    split; [destruct (Z.eqb_spec f 0); set_solver|].
    destruct (Z.eqb_spec f ENABLE_AMENDMENT_GOT_MAJORITY_FLAG); [apply lookup_insert_eq | apply lookup_delete_eq].
  - rewrite lookup_insert_ne by done. split.
    + destruct (Z.eqb_spec f 0); [|done]. rewrite elem_of_union, elem_of_singleton. naive_solver.
    + destruct (list_to_map l !! a'); [done|].
      destruct (Z.eqb_spec f ENABLE_AMENDMENT_GOT_MAJORITY_FLAG);
        [by rewrite lookup_insert_ne | by rewrite lookup_delete_ne].
Qed.

End Apply.

(** ** The decision for one amendment *)

Section Decision.
Context `{!FeatureRegistry, !HashOrder}.

Lemma vote_action_cases mt ct enabled majority lv a st f :
  vote_action mt ct enabled majority lv a st = Some f ->
  let backed := passes_majority (trusted_validations lv) (threshold lv) (default 0 (votes_cast lv !! a)) in
  a ∉ enabled /\
  ((f = ENABLE_AMENDMENT_GOT_MAJORITY_FLAG /\ majority !! a = None /\ backed = true /\ a_vote st = Up) \/
   (f = ENABLE_AMENDMENT_LOST_MAJORITY_FLAG /\ is_Some (majority !! a) /\ backed = false) \/
   (f = 0 /\ backed = true /\ a_vote st = Up /\ exists t until, majority !! a = Some t /\
      checked_add t mt = Some until /\ until <= ct)).
Proof.
  unfold vote_action. case_bool_decide as Ha; [done|]. intros Hv. split; [done|]. revert Hv.
  destruct (passes_majority _ _ _); destruct (majority !! a) as [t|] eqn:Em; simpl;
    try (case_bool_decide as Hu); simpl; try (intros [= <-]); try done; eauto 10.
  - destruct (checked_add t mt) as [until|] eqn:Ec; [|done].
    destruct (until <=? ct) eqn:El; [|done]. intros [= <-]. right. right. split_and!; try done.
    exists t, until. split_and!; try done. by apply Z.leb_le.
Qed.

Lemma vote_action_none mt ct enabled majority lv a st t :
  vote_action mt ct enabled majority lv a st = None -> a ∉ enabled -> majority !! a = Some t ->
  passes_majority (trusted_validations lv) (threshold lv) (default 0 (votes_cast lv !! a)) = true.
Proof.
  unfold vote_action. intros Hv Ha Hm. rewrite bool_decide_false, Hm in Hv by done. simpl in Hv.
  rewrite andb_false_r in Hv. simpl in Hv. by destruct (passes_majority _ _ _).
Qed.

Lemma vote_action_ok mt ct enabled majority lv a st f :
  vote_action mt ct enabled majority lv a st = Some f -> action_ok enabled majority a f.
Proof.
  intros Hv. apply vote_action_cases in Hv. unfold action_ok. naive_solver.
Qed.

Lemma votes_apply st eo ct vals actions st' time seq :
  entry_wf (entry_of eo) ->
  do_voting st ct (get_enabled_amendments eo) (get_majority_amendments eo) vals = Ok (actions, st') ->
  exists eo', apply_all time seq eo (btree_iter actions) = Some eo' /\ entry_wf (entry_of eo') /\
    actions_effect actions (get_enabled_amendments eo) (get_majority_amendments eo) time
      (get_enabled_amendments eo') (get_majority_amendments eo').
Proof.
  intros Hwf Hv. destruct (do_voting_lookup _ _ _ _ _ _ _ Hv) as (s & _ & _ & Hl).
  destruct (apply_all_effect (btree_iter actions) eo time seq) as (eo' & E & Hwf' & Heff).
  - apply btree_iter_NoDup.
  - done.
  - intros a f Hin%elem_of_btree_iter. rewrite Hl in Hin.
    destruct (amendments s !! a) as [x|]; [|done]. by eapply vote_action_ok.
  - exists eo'. split_and!; try done. by rewrite btree_iter_map in Heff.
Qed.

(** ** A chain of flag ledgers *)

Record round := mkRound {
  r_status : AmendmentStatus;
  r_close : Z;
  r_vals : list AmendmentValidation;
  r_time : Z;
  r_seq : Z
}.

(** The voter of the round has counted a majority for the amendment. *)
Definition backs (r : round) (a : Z) : Prop :=
  exists s, record_votes_locked (inner (r_status r)) (r_close r) (r_vals r) = Ok s /\
    passes_majority (trusted_validations (tally_votes s)) (threshold (tally_votes s))
      (default 0 (votes_cast (tally_votes s) !! a)) = true.
(** Its own vote is for the amendment. *)
Definition in_favour (r : round) (a : Z) : Prop :=
  exists st, amendments (inner (r_status r)) !! a = Some st /\ a_vote st = Up.
Definition knows (r : round) (a : Z) : Prop := is_Some (amendments (inner (r_status r)) !! a).

(** Each round votes on the ledger the last one left, and what it proposes is applied. *)
Inductive chain : list round -> option DecodedAmendmentsEntry -> Prop :=
| chain_genesis : chain [] None
| chain_round h eo r actions st' eo' :
    chain h eo ->
    do_voting (r_status r) (r_close r) (get_enabled_amendments eo) (get_majority_amendments eo) (r_vals r)
      = Ok (actions, st') ->
    apply_all (r_time r) (r_seq r) eo (btree_iter actions) = Some eo' ->
    chain (h ++ [r]) eo'.

(** A majority gained in round [g] and backed in every round after it. *)
Definition held_since (h : list round) (g : round) (a : Z) : Prop :=
  exists h1 h2, h = h1 ++ g :: h2 /\ backs g a /\ in_favour g a /\
    forall x, x ∈ h2 -> knows x a -> backs x a.

Definition activated (h : list round) (a : Z) : Prop :=
  exists h' r h'' g until, h = h' ++ r :: h'' /\ held_since h' g a /\ backs r a /\ in_favour r a /\
    checked_add (r_time g) (majority_time (r_status r)) = Some until /\ until <= r_close r.

Record life (h : list round) (eo : option DecodedAmendmentsEntry) : Prop := {
  life_wf : entry_wf (entry_of eo);
  life_majority : forall a t, get_majority_amendments eo !! a = Some t ->
    exists g, held_since h g a /\ r_time g = t;
  life_enabled : forall a, a ∈ get_enabled_amendments eo -> activated h a
}.

Lemma held_since_snoc h g a r :
  held_since h g a -> (knows r a -> backs r a) -> held_since (h ++ [r]) g a.
Proof.
  intros (h1 & h2 & -> & Hb & Hf & Hall) Hr. exists h1, (h2 ++ [r]). rewrite <- app_assoc. split_and!; try done.
  intros x [Hx|Hx]%elem_of_app; [by apply Hall|]. apply list_elem_of_singleton in Hx. by subst.
Qed.

Lemma activated_snoc h a r : activated h a -> activated (h ++ [r]) a.
Proof.
  intros (h' & x & h'' & g & until & -> & H'). exists h', x, (h'' ++ [r]), g, until.
  by rewrite <- app_assoc.
Qed.

Lemma life_round h eo r actions st' eo' :
  life h eo ->
  do_voting (r_status r) (r_close r) (get_enabled_amendments eo) (get_majority_amendments eo) (r_vals r)
    = Ok (actions, st') ->
  apply_all (r_time r) (r_seq r) eo (btree_iter actions) = Some eo' ->
  life (h ++ [r]) eo'.
Proof.
  intros [Hwf Hm He] Hv Ha.
  destruct (do_voting_lookup _ _ _ _ _ _ _ Hv) as (s & Hs & _ & Hl).
  destruct (votes_apply _ _ _ _ _ _ (r_time r) (r_seq r) Hwf Hv) as (eo1 & E & Hwf' & Heff).
  rewrite Ha in E. injection E as <-.
  assert (amendments s = amendments (inner (r_status r))) as Ham.
  { revert Hs. unfold record_votes_locked. intros (t & _ & Hs)%bind_Ok. by injection Hs as <-. }
  split; [done| |].
  - intros a t Ht. destruct (Heff a) as [_ Hma]. rewrite Ht in Hma. destruct (actions !! a) as [f|] eqn:Ef.
    + destruct (Z.eqb_spec f ENABLE_AMENDMENT_GOT_MAJORITY_FLAG) as [->|]; [|done]. injection Hma as ->.
      rewrite Hl in Ef. destruct (amendments s !! a) as [x|] eqn:Ex; [|done].
      apply vote_action_cases in Ef as (_ & [(_ & _ & Hb & Hu)|[(? & _)|(? & _)]]); [|done..].
      exists r. split; [|done]. exists h, []. split_and!; [done|by exists s| |by intros ? ?%not_elem_of_nil].
      exists x. by rewrite <- Ham.
    + destruct (Hm a t) as (g & Hg & <-); [done|]. exists g. split; [|done]. apply held_since_snoc; [done|].
      intros [x Hx]. exists s. split; [done|]. rewrite Hl, Ham, Hx in Ef.
      eapply vote_action_none; [exact Ef| |symmetry; exact Hma].
      rewrite (enabled_elem (entry_of eo)). apply (ew_disjoint _ Hwf), (majority_is_Some _ _ (ew_majorities _ Hwf)).
      exists (r_time g). symmetry. exact Hma.
  - intros a Hin. destruct (Heff a) as [Hen _]. apply Hen in Hin as [Hin|Ef]; [by apply activated_snoc, He|].
    rewrite Hl in Ef. destruct (amendments s !! a) as [x|] eqn:Ex; [|done].
    apply vote_action_cases in Ef as (_ & [(? & _)|[(? & _)|(_ & Hb & Hu & t & until & Ht & Hc & Hle)]]); [done..|].
    destruct (Hm a t Ht) as (g & Hg & <-). exists h, r, [], g, until. split_and!; try done; [by exists s|].
    exists x. by rewrite <- Ham.
Qed.

Lemma chain_life h eo : chain h eo -> life h eo.
Proof.
  induction 1 as [|h eo r actions st' eo' _ IH Hv Ha].
  - split; [split; [constructor|by intros ? ?%not_elem_of_nil] | |].
    + intros a t Ht. change (get_majority_amendments None) with (∅ : gmap Z Z) in Ht. by rewrite lookup_empty in Ht.
    + intros a Ha. by apply elem_of_empty in Ha.
  - by eapply life_round.
Qed.

(** C17: an amendment is enabled only after it held its majority for the whole waiting time.
    On a chain of flag ledgers that starts with no amendments entry, where every round
    applies what a voter proposes on the ledger before it (the voters, their tables and
    the validations they saw may differ from round to round), every enabled amendment
    was first given a majority in a round whose voter counted one and was in favour; no
    later voter that knows the amendment saw the majority gone; and the round that enabled
    it closed at least the voter's majority time after the recorded start. *)
Theorem amendment_lifecycle h eo a :
  chain h eo -> a ∈ get_enabled_amendments eo ->
  exists h1 g h2 r h3 until, h = h1 ++ g :: h2 ++ r :: h3 /\
    backs g a /\ in_favour g a /\ (forall x, x ∈ h2 -> knows x a -> backs x a) /\
    backs r a /\ in_favour r a /\
    checked_add (r_time g) (majority_time (r_status r)) = Some until /\ until <= r_close r.
Proof.
  intros Hc Ha. destruct (life_enabled _ _ (chain_life _ _ Hc) a Ha)
    as (h' & r & h'' & g & until & -> & (h1 & h2 & -> & Hb & Hf & Hall) & Hrest).
  exists h1, g, h2, r, h'', until. rewrite <- app_assoc. naive_solver.
Qed.

(** C21: everything a vote proposes applies: on a well-formed amendments entry the
    pseudo-transactions of one vote, applied in order, all succeed. A majority reported
    is then recorded with the ledger's time, one reported lost is removed, an amendment
    activated is enabled and leaves the majorities, and nothing else changes. *)
Theorem amendment_votes_apply st eo ct vals actions st' time seq :
  entry_wf (entry_of eo) ->
  do_voting st ct (get_enabled_amendments eo) (get_majority_amendments eo) vals = Ok (actions, st') ->
  exists eo', apply_all time seq eo (btree_iter actions) = Some eo' /\ entry_wf (entry_of eo') /\
    forall a,
      (a ∈ get_enabled_amendments eo' <-> a ∈ get_enabled_amendments eo \/ actions !! a = Some 0) /\
      get_majority_amendments eo' !! a =
        match actions !! a with
        | Some f => if f =? ENABLE_AMENDMENT_GOT_MAJORITY_FLAG then Some time else None
        | None => get_majority_amendments eo !! a
        end.
Proof. intros Hwf Hv. by eapply votes_apply. Qed.

Lemma checked_add_hours ct : 0 <= ct -> ct + 86400 <= u32_max -> net_clock_add ct TRUSTED_VOTE_EXPIRATION = Ok (ct + 86400).
Proof.
  intros H1 H2. unfold net_clock_add, checked_add, TRUSTED_VOTE_EXPIRATION, hours.
  rewrite whole_seconds_seconds. simpl. change (24 * 3600) with 86400.
  assert (u32_try_from (ct + 86400) = Some (ct + 86400)) as ->; [|done].
  apply u32_try_from_Some. split; [done|]. unfold in_u32. lia.
Qed.

(** C32: the amendment vote, on a ledger whose close time leaves room for a day in u32.
    The voter first brings its records up to date: a validator it accepts is recorded
    with its latest trusted validation for 24 hours, an older record counts until it
    times out, nobody else counts. As long as the tallies fit u64, an amendment is backed
    when it is named more often than 80 per cent of the validators with a live record.
    For a known amendment that is not enabled the proposal is then: gained majority, when
    it is backed, the ledger has no majority recorded and this node's own vote is for it;
    lost majority, when it is not backed and the ledger has one recorded, whatever the
    node's own vote; activation, when it is backed, the ledger has a majority recorded
    whose start lies at least the majority time back, and this node's own vote is for it.
    In every other case nothing is proposed; so a node that vetoes an amendment neither
    reports its majority nor activates it. *)
Theorem amendment_vote_spec st ct enabled majority vals :
  0 <= ct -> ct + 86400 <= u32_max ->
  let trusted := trusted_validators (inner st) in
  exists actions st' rec,
    do_voting st ct enabled majority vals = Ok (actions, st') /\
    recorded_votes (inner st') = rec /\
    (forall k, rec !! k = record_after trusted ct (ct + 86400) (filter (fun v => v_trusted v = true) vals)
       (recorded_votes (inner st) !! k) k) /\
    (countable_votes rec -> forall a,
       let backed := 80 * voters rec <? 100 * votes_for rec a in
       actions !! a =
         match amendments (inner st) !! a with
         | None => None
         | Some x =>
             if bool_decide (a ∈ enabled) then None else
             match majority !! a with
             | None => if backed && bool_decide (a_vote x = Up)
                       then Some ENABLE_AMENDMENT_GOT_MAJORITY_FLAG else None
             | Some t => if negb backed then Some ENABLE_AMENDMENT_LOST_MAJORITY_FLAG
                         else if bool_decide (a_vote x = Up) &&
                                 match checked_add t (majority_time st) with
                                 | Some until => until <=? ct
                                 | None => false
                                 end
                         then Some 0 else None
             end
         end).
Proof.
  intros Hct Hle trusted. pose proof (checked_add_hours ct Hct Hle) as Ht.
  destruct (record_votes_locked (inner st) ct vals) as [s| |] eqn:Es;
    [|unfold record_votes_locked in Es; by rewrite Ht in Es..].
  destruct (record_votes_lookup _ _ _ _ _ Ht ltac:(lia) Es) as [Ham Hrec].
  destruct (do_voting st ct enabled majority vals) as [[actions st']| |] eqn:Ev;
    [|unfold do_voting in Ev; by rewrite Es in Ev..].
  destruct (do_voting_lookup _ _ _ _ _ _ _ Ev) as (s' & Es' & -> & Hl).
  rewrite Es in Es'. injection Es' as <-. eexists actions, _, (recorded_votes s). split_and!; [done..|].
  intros Hc a backed. rewrite Hl, Ham. destruct (amendments (inner st) !! a) as [x|]; [|done]. simpl.
  unfold vote_action. rewrite (majority_eq s a Hc). fold backed.
  case_bool_decide; [done|]. destruct (majority !! a) as [t|]; simpl.
  - rewrite andb_false_r, andb_true_r. simpl. by destruct backed.
  - rewrite andb_true_r, andb_false_r. simpl. by destruct (backed && _).
Qed.

End Decision.

(** ** The table *)

Section Table.
Context `{!FeatureRegistry, !HashOrder}.

(** The two marks of an amendment, [(false, false)] for one the table lacks. *)
Definition marks (m : gmap Z AmendmentState) (a : Z) : bool * bool :=
  match m !! a with Some st => (a_enabled st, a_supported st) | None => (false, false) end.

Definition is_blocked (m : gmap Z AmendmentState) : Prop := exists a, marks m a = (true, false).

(** What no operation undoes: an enabled amendment stays enabled, support never changes. *)
Definition marks_grow (m m' : gmap Z AmendmentState) : Prop :=
  forall a, (marks m a).2 = (marks m' a).2 /\ ((marks m a).1 = true -> (marks m' a).1 = true).

Definition flag_exact (s : AmendmentStatusState) : Prop :=
  unsupported_enabled s = true <-> is_blocked (amendments s).

Lemma marks_grow_refl m : marks_grow m m.
Proof. done. Qed.
Lemma marks_grow_trans m1 m2 m3 : marks_grow m1 m2 -> marks_grow m2 m3 -> marks_grow m1 m3.
Proof. intros H1 H2 a. destruct (H1 a), (H2 a). split; [congruence|auto]. Qed.

Lemma marks_insert m a st a' :
  marks (<[a := st]> m) a' = if bool_decide (a' = a) then (a_enabled st, a_supported st) else marks m a'.
Proof.
  unfold marks. case_bool_decide; [subst; by rewrite lookup_insert_eq | by rewrite lookup_insert_ne].
Qed.

Lemma marks_default m a :
  (a_enabled (default amendment_default (m !! a)), a_supported (default amendment_default (m !! a))) = marks m a.
Proof. unfold marks. by destruct (m !! a). Qed.

(** An update that keeps both marks. *)
Lemma marks_same m a st :
  a_enabled st = a_enabled (default amendment_default (m !! a)) ->
  a_supported st = a_supported (default amendment_default (m !! a)) ->
  forall a', marks (<[a := st]> m) a' = marks m a'.
Proof.
  intros H1 H2 a'. rewrite marks_insert. case_bool_decide; [|done]. subst. rewrite H1, H2. apply marks_default.
Qed.

Lemma fill_name_marks a st : a_enabled (fill_name a st) = a_enabled st /\ a_supported (fill_name a st) = a_supported st.
Proof. unfold fill_name. by case_bool_decide. Qed.

Lemma enable_locked_spec s a :
  let r := enable_locked s a in
  (forall a', marks (amendments r.2) a' =
     if bool_decide (a' = a) then (true, (marks (amendments s) a).2) else marks (amendments s) a') /\
  (r.1 = true <-> (marks (amendments s) a).1 = false) /\
  (flag_exact s -> flag_exact r.2).
Proof.
  unfold enable_locked. pose proof (marks_default (amendments s) a) as Hd.
  set (st := default amendment_default (amendments s !! a)) in *. rewrite <- Hd.
  destruct (fill_name_marks a st) as [_ Hs].
  destruct (a_enabled st) eqn:Ee; simpl.
  - assert (forall a', marks (<[a := st]> (amendments s)) a' = marks (amendments s) a') as Hm
      by (apply marks_same; done).
    split_and!; [|done|].
    + intros a'. rewrite Hm. case_bool_decide; [subst; by rewrite <- Hd|done].
    + unfold flag_exact, is_blocked. simpl. by setoid_rewrite Hm.
  - set (st' := mkAmendmentState _ true _ _).
    assert (forall a', marks (<[a := st']> (amendments s)) a' =
      if bool_decide (a' = a) then (true, a_supported st) else marks (amendments s) a') as Hm.
    { intros a'. rewrite marks_insert. simpl. by rewrite Hs. }
    rewrite Hs. split_and!; [by destruct (a_supported st)|done|].
    unfold flag_exact, is_blocked. intros Hf. destruct (a_supported st) eqn:Esup; simpl.
    + setoid_rewrite Hm. rewrite Hf. split; intros [a' Ha'].
      * exists a'. case_bool_decide; [|done]. subst. rewrite <- Hd in Ha'. done.
      * exists a'. case_bool_decide; [done|done].
    + setoid_rewrite Hm. split; [|done]. intros _. exists a. by rewrite bool_decide_true.
Qed.

Lemma enable_grow s a : marks_grow (amendments s) (amendments (enable_locked s a).2).
Proof.
  intros a'. rewrite (proj1 (enable_locked_spec s a)). case_bool_decide; [by subst|done].
Qed.

Lemma enable_all_spec l s :
  let s' := foldl (fun s a => (enable_locked s a).2) s l in
  marks_grow (amendments s) (amendments s') /\ (flag_exact s -> flag_exact s') /\
  (forall a, (marks (amendments s') a).1 = true <-> (marks (amendments s) a).1 = true \/ a ∈ l).
Proof.
  revert s. induction l as [|a l IH]; intros s; simpl.
  { split_and!; [done..|]. intros a. set_solver. }
  destruct (enable_locked_spec s a) as (Hm & _ & Hf). destruct (IH (enable_locked s a).2) as (I1 & I2 & I3).
  split_and!; [by eapply marks_grow_trans; [apply enable_grow|]|auto|].
  intros a'. rewrite I3, Hm, elem_of_cons. case_bool_decide; naive_solver.
Qed.

(** The earliest of the times of the unsupported amendments that are not enabled. *)
Definition pending_times (m : gmap Z AmendmentState) (l : list (Z * Z)) : list Z :=
  map snd (filter (fun p => marks m p.1 = (false, false)) l).
Definition earliest (acc : option Z) (l : list Z) : option Z :=
  foldl (fun acc t => Some (from_option (fun c => Z.min c t) t acc)) acc l.

Lemma validated_fold l s :
  let s' := foldl validated_step s l in
  (forall a, marks (amendments s') a = marks (amendments s) a) /\
  unsupported_enabled s' = unsupported_enabled s /\
  last_update_seq s' = last_update_seq s /\ majority_amendments s' = majority_amendments s /\
  first_unsupported_expected s' = earliest (first_unsupported_expected s) (pending_times (amendments s) l).
Proof.
  revert s. induction l as [|[a t] l IH]; intros s; [done|]. cbn [foldl].
  assert (forall a', marks (amendments (validated_step s (a, t))) a' = marks (amendments s) a') as Hm.
  { intros a'. unfold validated_step. repeat case_match; simpl; by apply marks_same. }
  destruct (IH (validated_step s (a, t))) as (I1 & I2 & I3 & I4 & I5).
  assert (pending_times (amendments (validated_step s (a, t))) l = pending_times (amendments s) l) as Hp.
  { unfold pending_times. f_equal. apply list_filter_iff. intros p. by rewrite Hm. }
  split_and!.
  - intros a'. by rewrite I1, Hm.
  - rewrite I2. unfold validated_step. by repeat case_match.
  - rewrite I3. unfold validated_step. by repeat case_match.
  - rewrite I4. unfold validated_step. by repeat case_match.
  - rewrite I5, Hp. unfold pending_times. pose proof (marks_default (amendments s) a) as Hd.
    destruct (decide (marks (amendments s) a = (false, false))) as [E|E].
    + rewrite filter_cons_True by done. rewrite E in Hd. injection Hd as H1 H2.
      unfold validated_step. rewrite H1, H2. done.
    + rewrite filter_cons_False by done. unfold validated_step. rewrite <- Hd in E.
      destruct (a_enabled _), (a_supported _); done.
Qed.

Lemma pending_times_elem m (majority : gmap Z Z) t :
  t ∈ pending_times m (btree_iter majority) <->
  exists a, majority !! a = Some t /\ marks m a = (false, false).
Proof.
  unfold pending_times. rewrite list_elem_of_In, in_map_iff. split.
  - intros ([a t'] & <- & H1). apply list_elem_of_In, list_elem_of_filter in H1 as [H1 H2].
    exists a. split; [by apply elem_of_btree_iter|done].
  - intros (a & H1 & H2). exists (a, t). split; [done|]. apply list_elem_of_In, list_elem_of_filter.
    split; [done|]. by apply elem_of_btree_iter.
Qed.

Lemma earliest_min acc l :
  match earliest acc l with
  | None => acc = None /\ l = []
  | Some m => (m ∈ l \/ acc = Some m) /\ (forall t, t ∈ l -> m <= t) /\ (forall t, acc = Some t -> m <= t)
  end.
Proof.
  unfold earliest. revert acc. induction l as [|t l IH]; intros acc; simpl.
  { destruct acc; [|done]. split_and!; [by right|by intros ? ?%not_elem_of_nil|]. intros ? [= ->]. lia. }
  specialize (IH (Some (from_option (fun c => Z.min c t) t acc))).
  destruct (foldl _ _ l) as [m|]; [|by destruct IH]. destruct IH as (H1 & H2 & H3).
  specialize (H3 _ eq_refl). split_and!.
  - destruct H1 as [H1|[= H1]]; [left; by right|]. destruct acc as [c|]; simpl in *.
    + destruct (Z.min_spec c t) as [[_ E]|[_ E]]; rewrite E in H1; subst; [by right|left; left].
    + subst. left. left.
  - intros t' [->|Ht']%elem_of_cons; [destruct acc; simpl in *; lia|auto].
  - intros t' ->. simpl in *. lia.
Qed.

(** taking over a validated ledger. The amendments it lists become enabled and no other
    does, nothing is ever disabled and no support mark changes; the node is marked blocked
    exactly when some enabled amendment is not supported; and the date announced for an
    unsupported amendment is the majority time after the earliest majority of an
    unsupported amendment that is not enabled, when there is one. *)
Theorem validated_ledger_spec mt s seq enabled majority :
  flag_exact s ->
  let s' := do_validated_ledger_with_sets mt s seq enabled majority in
  let waiting t := exists a, majority !! a = Some t /\ marks (amendments s') a = (false, false) in
  flag_exact s' /\ last_update_seq s' = seq /\ majority_amendments s' = majority /\
  (forall a, is_enabled s' a = is_enabled s a || bool_decide (a ∈ enabled)) /\
  (forall a, is_supported s' a = is_supported s a) /\
  match first_unsupported_expected s' with
  | None => (forall t, ~ waiting t) \/ exists m, waiting m /\ checked_add m mt = None
  | Some d => exists m, waiting m /\ (forall t, waiting t -> m <= t) /\ checked_add m mt = Some d
  end.
Proof.
  intros Hf s' waiting.
  set (s1 := foldl (fun s a => (enable_locked s a).2) s (merge_sort Z.le (elements enabled))).
  set (s2 := foldl validated_step (set_validated seq majority None s1) (btree_iter majority)).
  destruct (enable_all_spec (merge_sort Z.le (elements enabled)) s) as (Hg & Hfl & Hen). fold s1 in Hg, Hfl, Hen.
  destruct (validated_fold (btree_iter majority) (set_validated seq majority None s1)) as (Hm & Hu & Hq & Hj & Hx).
  fold s2 in Hm, Hu, Hq, Hj, Hx. cbn [set_validated amendments unsupported_enabled last_update_seq
    majority_amendments first_unsupported_expected] in *.
  assert (amendments s' = amendments s2 /\ unsupported_enabled s' = unsupported_enabled s2 /\
    last_update_seq s' = seq /\ majority_amendments s' = majority) as (E1 & E2 & E3 & E4).
  { unfold s', do_validated_ledger_with_sets. fold s1 s2. by case_match. }
  assert (forall a, marks (amendments s') a = marks (amendments s1) a) as Hms by (intros; by rewrite E1, Hm).
  split_and!; try done.
  - unfold flag_exact, is_blocked. rewrite E2, Hu. setoid_rewrite Hms. by apply Hfl.
  - intros a. unfold is_enabled. apply eq_iff_eq_true. rewrite orb_true_iff, bool_decide_eq_true.
    pose proof (Hen a) as Ha. rewrite <- Hms in Ha. unfold marks in Ha.
    rewrite merge_sort_Permutation, elem_of_elements in Ha.
    destruct (amendments s' !! a), (amendments s !! a); simpl in *; naive_solver.
  - intros a. unfold is_supported. destruct (Hg a) as [Hs _]. rewrite <- Hms in Hs. unfold marks in Hs.
    destruct (amendments s' !! a), (amendments s !! a); simpl in *; done.
  - assert (forall t, waiting t <-> t ∈ pending_times (amendments s1) (btree_iter majority)) as Hw.
    { intros t. rewrite pending_times_elem. unfold waiting. by setoid_rewrite Hms. }
    assert (first_unsupported_expected s' = first_unsupported_expected s2 ≫= fun m => checked_add m mt) as ->.
    { unfold s', do_validated_ledger_with_sets. fold s1 s2. by destruct (first_unsupported_expected s2) eqn:E. }
    pose proof (earliest_min None (pending_times (amendments s1) (btree_iter majority))) as He.
    rewrite <- Hx in He. destruct (first_unsupported_expected s2) as [m|]; simpl.
    + destruct He as ([Hin|?] & Hmin & _); [|done].
      destruct (checked_add m mt) eqn:Ec.
      * exists m. split_and!; [by apply Hw| |done]. intros t Ht. by apply Hmin, Hw.
      * right. exists m. split; [by apply Hw|done].
    + destruct He as [_ He]. left. intros t Ht%Hw. rewrite He in Ht. by apply not_elem_of_nil in Ht.
Qed.

End Table.

(** ** A concrete chain *)

Module AmendmentDemo.

Definition registry : FeatureRegistry := {|
  registered_features := [mkFeature "A" true DefaultYes; mkFeature "BB" false DefaultNo];
  feature_id := fun s => Z.of_nat (String.length s);
  confidential_crypto_available := false;
  to_xrpl_string := uint256_to_string
|}.
#[local] Existing Instance registry.
#[local] Existing Instance canonical_order.

Definition status : AmendmentStatus :=
  mkAmendmentStatus (weeks 2) (set_trusted_validators (inner amendment_status_new) [7; 8]).
Definition vals : list AmendmentValidation :=
  [mkAmendmentValidation true 7 (Some [1]); mkAmendmentValidation true 8 (Some [1]);
   mkAmendmentValidation true 9 (Some [2])].

Definition round_at (t seq : Z) : round := mkRound status t vals t seq.

(** A majority, a round that keeps it, and the activation two weeks later. *)
Definition rounds : list round := [round_at 1000 257; round_at 2000 513; round_at 1210600 769].

Definition run_round (eo : option DecodedAmendmentsEntry) (r : round)
  : outcome (option DecodedAmendmentsEntry) :=
  '(actions, _) ← do_voting (r_status r) (r_close r) (get_enabled_amendments eo)
     (get_majority_amendments eo) (r_vals r);
  expect (apply_all (r_time r) (r_seq r) eo (btree_iter actions)).

Lemma run_rounds_chain l h eo eo' :
  chain h eo -> foldM run_round eo l = Ok eo' -> chain (h ++ l) eo'.
Proof.
  revert h eo. induction l as [|r l IH]; intros h eo Hc; simpl; [intros [= <-]; by rewrite app_nil_r|].
  intros (eo1 & H1 & H2)%bind_Ok. unfold run_round in H1. apply bind_Ok in H1 as ([actions st'] & H1 & H3).
  apply expect_Ok in H3. replace (h ++ r :: l) with ((h ++ [r]) ++ l) by by rewrite <- app_assoc.
  eapply IH; [|exact H2]. by eapply chain_round.
Qed.

Definition final : option DecodedAmendmentsEntry :=
  match foldM run_round None rounds with Ok eo => eo | _ => None end.

Lemma final_chain : chain rounds final.
Proof. apply (run_rounds_chain rounds [] None); [constructor|]. by vm_compute. Qed.

Lemma final_enabled : 1 ∈ get_enabled_amendments final.
Proof. apply (bool_decide_unpack _). by vm_compute. Qed.

Lemma amendment_lifecycle_witness :
  chain rounds final /\ 1 ∈ get_enabled_amendments final /\
  exists h1 g h2 r h3, rounds = h1 ++ g :: h2 ++ r :: h3 /\ backs g 1 /\ backs r 1.
Proof.
  split; [exact final_chain|]. split; [exact final_enabled|].
  destruct (amendment_lifecycle rounds final 1 final_chain final_enabled)
    as (h1 & g & h2 & r & h3 & until & H1 & H2 & _ & _ & H3 & _).
  exists h1, g, h2, r, h3. by split_and!.
Defined.

Definition first_vote : outcome (gmap Z Z * AmendmentStatus) := do_voting status 1000 ∅ ∅ vals.
Definition first_actions : gmap Z Z := match first_vote with Ok r => r.1 | _ => ∅ end.
Definition first_status : AmendmentStatus := match first_vote with Ok r => r.2 | _ => status end.

Lemma first_vote_eq :
  do_voting status 1000 (get_enabled_amendments None) (get_majority_amendments None) vals
    = Ok (first_actions, first_status).
Proof. by vm_compute. Qed.

Lemma empty_wf : entry_wf (default amendments_entry_default None).
Proof. split; [constructor|by intros ? ?%not_elem_of_nil]. Qed.

Lemma amendment_votes_apply_witness :
  first_actions !! 1 = Some ENABLE_AMENDMENT_GOT_MAJORITY_FLAG /\
  exists eo', apply_all 1500 257 None (btree_iter first_actions) = Some eo' /\
    get_majority_amendments eo' !! 1 = Some 1500.
Proof.
  assert (first_actions !! 1 = Some ENABLE_AMENDMENT_GOT_MAJORITY_FLAG) as H1 by by vm_compute.
  split; [exact H1|].
  destruct (amendment_votes_apply status None 1000 vals first_actions first_status 1500 257
    empty_wf first_vote_eq) as (eo' & E & _ & Heff).
  exists eo'. split; [exact E|]. destruct (Heff 1) as [_ Hm]. rewrite H1 in Hm. exact Hm.
Defined.

(** Two weeks after both validators' majorities for 1 and 2 were recorded, 1 is
    activated, and 2, which this node votes against, is not. *)
Definition later_vals : list AmendmentValidation :=
  [mkAmendmentValidation true 7 (Some [1; 2]); mkAmendmentValidation true 8 (Some [1; 2])].

Lemma votes_countable (m : gmap Z TrustedValidatorVotes) :
  100 * voters m <= u64_max -> msum (fun r => Z.of_nat (length (up_votes r))) m <= u64_max ->
  countable_votes m.
Proof.
  intros H1 H2. split; [exact H1|]. intros a. etrans; [|exact H2]. apply zsum_mono. intros [k r] _. simpl.
  unfold live_times. destruct (is_live r); [|lia]. induction (up_votes r) as [|x l IH]; [done|].
  rewrite times_cons. simpl length. case_bool_decide; lia.
Qed.

Lemma amendment_vote_spec_witness :
  exists actions st',
    do_voting status 1210600 ∅ {[1 := 1000; 2 := 1000]} later_vals = Ok (actions, st')
    /\ (a_vote <$> amendments (inner status) !! 2 = Some Down)
    /\ actions !! 1 = Some 0 /\ actions !! 2 = None.
Proof.
  destruct (amendment_vote_spec status 1210600 ∅ {[1 := 1000; 2 := 1000]} later_vals ltac:(lia)
    ltac:(unfold u32_max; lia)) as (actions & st' & rec & E1 & E2 & _ & E3).
  exists actions, st'. split; [exact E1|]. split; [by vm_compute|].
  assert (st' = match do_voting status 1210600 ∅ {[1 := 1000; 2 := 1000]} later_vals with
                | Ok r => r.2 | _ => status end) as Est by (by rewrite E1).
  rewrite Est in E2. vm_compute in E2. subst rec.
  specialize (E3 ltac:(apply votes_countable; vm_compute; discriminate)).
  split; [rewrite (E3 1)|rewrite (E3 2)]; by vm_compute.
Defined.

Lemma status_exact : flag_exact (inner status).
Proof.
  split; [by vm_compute|]. intros [a Ha]. exfalso. revert Ha. unfold marks.
  destruct (amendments (inner status) !! a) as [st|] eqn:E; [|done].
  assert (map_Forall (fun _ st => a_enabled st = false) (amendments (inner status))) as Hall
    by (apply (bool_decide_unpack _); by vm_compute).
  rewrite (Hall a st E). done.
Qed.

Lemma validated_ledger_spec_witness :
  flag_exact (do_validated_ledger_with_sets (weeks 2) (inner status) 256 {[2]} {[3 := 50]}).
Proof.
  apply (proj1 (validated_ledger_spec (weeks 2) (inner status) 256 {[2]} {[3 := 50]} status_exact)).
Defined.

End AmendmentDemo.
