(* ===== verification/TxQTypes.v ===== *)
(** * Transaction queue: sequence proxies, consequences and queued transactions

    The data of the transaction queue: [SeqProxy] ([xrpl/protocol], the order of
    an account's transactions), the [Ter] codes and [ApplyFlags] bits the queue
    reads, [TxConsequences], the preflight and apply results, [MaybeTx] with its
    retry bookkeeping, the fee order [OrderCandidates], the per-account queue
    [TxQAccount] and the pair of views [QueueViews]. Accounts and hashes are the
    numbers their big-endian bytes spell, so that the order of bytes is the order
    of numbers. The transaction, rules, journal and batch types are parameters of
    the Rust code; they are the fields of the class [TxQTypes]. *)

From S2P Require Import Prelude BTree.

(** ** [SeqProxy] *)

Inductive SeqProxyKind := Sequence | Ticket.

Record SeqProxy := mkSeqProxy {
  sp_value : Z;
  sp_kind : SeqProxyKind
}.

#[global] Instance SeqProxyKind_eq_dec : EqDecision SeqProxyKind.
Proof. solve_decision. Defined.
#[global] Instance SeqProxy_eq_dec : EqDecision SeqProxy.
Proof. solve_decision. Defined.

Definition sequence (value : Z) : SeqProxy := mkSeqProxy value Sequence.
Definition ticket (value : Z) : SeqProxy := mkSeqProxy value Ticket.

Definition is_seq (s : SeqProxy) : bool :=
  match sp_kind s with Sequence => true | Ticket => false end.
Definition is_ticket (s : SeqProxy) : bool :=
  match sp_kind s with Sequence => false | Ticket => true end.

Definition advance_by (s : SeqProxy) (amount : Z) : SeqProxy :=
  mkSeqProxy (wrap_u32 (sp_value s + amount)) (sp_kind s).

Definition kind_code (k : SeqProxyKind) : Z := match k with Sequence => 0 | Ticket => 1 end.

Definition seq_proxy_code (s : SeqProxy) : Z * Z := (kind_code (sp_kind s), sp_value s).
Definition seq_proxy_decode (c : Z * Z) : SeqProxy :=
  mkSeqProxy c.2 (if c.1 =? 0 then Sequence else Ticket).

Lemma seq_proxy_decode_code s : seq_proxy_decode (seq_proxy_code s) = s.
Proof. by destruct s as [v []]. Qed.

#[global] Instance SeqProxy_countable : Countable SeqProxy :=
  inj_countable' seq_proxy_code seq_proxy_decode seq_proxy_decode_code.

(** [Ord for SeqProxy]: the kind first, so that every sequence precedes every
    ticket, then the value. *)
#[global] Instance SeqProxy_ord : TotalOrd SeqProxy :=
  fun a b => ord_ltb (seq_proxy_code a) (seq_proxy_code b).

#[global] Instance SeqProxy_ord_laws : TotalOrdLaws SeqProxy.
Proof.
  split; unfold ord_ltb, SeqProxy_ord; intros.
  - apply ord_irrefl.
  - eapply ord_trans; eauto.
  - rewrite <- (seq_proxy_decode_code a), <- (seq_proxy_decode_code b).
    f_equal. by apply ord_total.
Qed.

Lemma seq_ltb_iff a b : ord_ltb a b = true <->
  (sp_kind a = Sequence /\ sp_kind b = Ticket) \/ (sp_kind a = sp_kind b /\ sp_value a < sp_value b).
Proof.
  destruct a as [va ka], b as [vb kb].
  unfold ord_ltb at 1, SeqProxy_ord, ord_ltb, pair_ord, Z_ord, ord_ltb, seq_proxy_code.
  destruct ka, kb; simpl; rewrite ?orb_false_r, ?Z.ltb_lt; naive_solver lia.
Qed.

(** ** Result codes and flags *)

Abbreviation Ter := Z (only parsing).
Definition TEL_INSUF_FEE_P : Ter := -394.
Definition TEL_CAN_NOT_QUEUE : Ter := -392.
Definition TEL_CAN_NOT_QUEUE_BALANCE : Ter := -391.
Definition TEL_CAN_NOT_QUEUE_BLOCKS : Ter := -390.
Definition TEL_CAN_NOT_QUEUE_BLOCKED : Ter := -389.
Definition TEL_CAN_NOT_QUEUE_FEE : Ter := -388.
Definition TEL_CAN_NOT_QUEUE_FULL : Ter := -387.
Definition TEM_MALFORMED : Ter := -299.
Definition TEF_FAILURE : Ter := -199.
Definition TEF_INTERNAL : Ter := -192.
Definition TEF_PAST_SEQ : Ter := -190.
Definition TEF_NO_TICKET : Ter := -180.
Definition TER_RETRY : Ter := -99.
Definition TER_NO_ACCOUNT : Ter := -96.
Definition TER_PRE_SEQ : Ter := -92.
Definition TER_QUEUED : Ter := -89.
Definition TER_PRE_TICKET : Ter := -88.
Definition TES_SUCCESS : Ter := 0.
Definition TEC_CLAIM : Ter := 100.

Definition is_tes_success (code : Ter) : bool := code =? TES_SUCCESS.
Definition is_tec_claim (code : Ter) : bool := TEC_CLAIM <=? code.
Definition is_tem_malformed (code : Ter) : bool := (TEM_MALFORMED <=? code) && (code <? TEF_FAILURE).
Definition is_tef_failure (code : Ter) : bool := (TEF_FAILURE <=? code) && (code <? TER_RETRY).

(** [ApplyFlags], the bits of a [u32]. *)
Definition NONE : Z := 0.
Definition FAIL_HARD : Z := 16.
Definition RETRY : Z := 32.

Definition any_apply_flags (flags : Z) : bool := negb (flags =? 0).
Definition flags_not (flags : Z) : Z := Z.lxor u32_max flags.

Definition likely_to_claim_fee (ter : Ter) (flags : Z) : bool :=
  is_tes_success ter || (is_tec_claim ter && negb (any_apply_flags (Z.land flags RETRY))).

(** ** [TxConsequences] *)

Inductive TxConsequencesCategory := CatNormal | CatBlocker.

Inductive TxConsequencesShape :=
| ShapeNormal
| ShapeBlocker
| ShapePotentialSpend (drops : Z)
| ShapeSequencesConsumed (n : Z).

Record TxConsequences := mkConsequences {
  tc_is_blocker : bool;
  tc_fee_drops : Z;
  tc_potential_spend_drops : Z;
  tc_seq_proxy : SeqProxy;
  tc_sequences_consumed : Z
}.

#[global] Instance TxConsequences_eq_dec : EqDecision TxConsequences.
Proof. solve_decision. Defined.

Definition consequences_new (fee_drops : Z) (s : SeqProxy) : TxConsequences :=
  mkConsequences false fee_drops 0 s (if is_seq s then 1 else 0).

Definition consequences_from_preflight (ter : Ter) : outcome TxConsequences :=
  if is_tes_success ter then Panic else Ok (mkConsequences false 0 0 (sequence 0) 0).

Definition with_category (fee_drops : Z) (s : SeqProxy) (c : TxConsequencesCategory)
    : TxConsequences :=
  let base := consequences_new fee_drops s in
  mkConsequences (match c with CatBlocker => true | CatNormal => false end)
    (tc_fee_drops base) (tc_potential_spend_drops base) (tc_seq_proxy base)
    (tc_sequences_consumed base).

Definition with_potential_spend (fee_drops : Z) (s : SeqProxy) (spend : Z) : TxConsequences :=
  let base := consequences_new fee_drops s in
  mkConsequences (tc_is_blocker base) (tc_fee_drops base) spend (tc_seq_proxy base)
    (tc_sequences_consumed base).

Definition with_sequences_consumed (fee_drops : Z) (s : SeqProxy) (n : Z) : TxConsequences :=
  let base := consequences_new fee_drops s in
  mkConsequences (tc_is_blocker base) (tc_fee_drops base) (tc_potential_spend_drops base)
    (tc_seq_proxy base) n.

Definition from_shape (fee_drops : Z) (s : SeqProxy) (shape : TxConsequencesShape)
    : TxConsequences :=
  match shape with
  | ShapeNormal => consequences_new fee_drops s
  | ShapeBlocker => with_category fee_drops s CatBlocker
  | ShapePotentialSpend drops => with_potential_spend fee_drops s drops
  | ShapeSequencesConsumed n => with_sequences_consumed fee_drops s n
  end.

Definition following_seq (c : TxConsequences) : SeqProxy :=
  advance_by (tc_seq_proxy c) (tc_sequences_consumed c).

(** ** Preflight, preclaim and apply results *)

Class TxQTypes := {
  Tx : Type;
  Rules : Type;
  Journal : Type;
  ParentBatchId : Type;
  rules_eq_dec : EqDecision Rules
}.
#[global] Existing Instance rules_eq_dec.

Record ApplyResult := mkApplyResult {
  ar_ter : Ter;
  ar_applied : bool;
  ar_metadata_present : bool
}.

#[global] Instance ApplyResult_eq_dec : EqDecision ApplyResult.
Proof. solve_decision. Defined.

Section Types.
Context `{!TxQTypes}.

Record PreflightResult := mkPreflight {
  pf_tx : Tx;
  pf_parent_batch_id : option ParentBatchId;
  pf_rules : Rules;
  pf_consequences : TxConsequences;
  pf_flags : Z;
  pf_journal : Journal;
  pf_ter : Ter
}.

Definition needs_reflight (p : PreflightResult) (current_rules : Rules) : bool :=
  negb (bool_decide (pf_rules p = current_rules)).

Record PreclaimResult := mkPreclaim {
  pc_ledger_seq : Z;
  pc_tx : Tx;
  pc_parent_batch_id : option ParentBatchId;
  pc_flags : Z;
  pc_journal : Journal;
  pc_ter : Ter;
  pc_likely_to_claim_fee : bool
}.

Definition preclaim_new (ledger_seq : Z) (t : Tx) (parent : option ParentBatchId) (flags : Z)
    (journal : Journal) (ter : Ter) : PreclaimResult :=
  mkPreclaim ledger_seq t parent flags journal ter (likely_to_claim_fee ter flags).

(** ** [MaybeTx] *)

Definition MAYBE_TX_RETRIES_ALLOWED : Z := 10.

Record MaybeTx := mkMaybeTx {
  mt_fee_level : Z;
  mt_tx_id : Z;
  mt_account : Z;
  mt_last_valid : option Z;
  mt_seq_proxy : SeqProxy;
  mt_retries_remaining : Z;
  mt_flags : Z;
  mt_last_result : option Ter;
  mt_pf_result : PreflightResult
}.

Definition maybe_tx_new (tx_id fee_level account : Z) (last_valid : option Z) (s : SeqProxy)
    (flags : Z) (pf : PreflightResult) : MaybeTx :=
  mkMaybeTx fee_level tx_id account last_valid s MAYBE_TX_RETRIES_ALLOWED flags None pf.

Definition set_retries (t : MaybeTx) (n : Z) : MaybeTx :=
  mkMaybeTx (mt_fee_level t) (mt_tx_id t) (mt_account t) (mt_last_valid t) (mt_seq_proxy t)
    n (mt_flags t) (mt_last_result t) (mt_pf_result t).

Definition set_last_result (t : MaybeTx) (r : option Ter) : MaybeTx :=
  mkMaybeTx (mt_fee_level t) (mt_tx_id t) (mt_account t) (mt_last_valid t) (mt_seq_proxy t)
    (mt_retries_remaining t) (mt_flags t) r (mt_pf_result t).

Definition set_pf_result (t : MaybeTx) (p : PreflightResult) : MaybeTx :=
  mkMaybeTx (mt_fee_level t) (mt_tx_id t) (mt_account t) (mt_last_valid t) (mt_seq_proxy t)
    (mt_retries_remaining t) (mt_flags t) (mt_last_result t) p.

Definition record_apply_attempt_result (t : MaybeTx) (r : ApplyResult) : MaybeTx :=
  set_last_result (set_retries t (wrap_i32 (mt_retries_remaining t - 1))) (Some (ar_ter r)).

Definition needs_apply_reflight (t : MaybeTx) (current_rules : Rules) : bool :=
  needs_reflight (mt_pf_result t) current_rules
  || negb (pf_flags (mt_pf_result t) =? mt_flags t).

Definition refresh_preflight_if_needed (t : MaybeTx) (current_rules : Rules)
    (run_preflight : Tx -> Z -> Journal -> PreflightResult) : MaybeTx * bool :=
  if negb (needs_apply_reflight t current_rules) then (t, false)
  else
    (set_pf_result t (run_preflight (pf_tx (mt_pf_result t)) (mt_flags t)
                        (pf_journal (mt_pf_result t))), true).

(** The open ledger [do_apply] changes is the state [S]. *)
Definition apply_with_current_rules {S} (current_rules : Rules)
    (run_preflight : Tx -> Z -> Journal -> PreflightResult)
    (run_preclaim : S -> PreflightResult -> PreclaimResult)
    (do_apply : S -> PreclaimResult -> S * ApplyResult)
    (s : S) (t : MaybeTx) : S * MaybeTx * ApplyResult :=
  let t' := (refresh_preflight_if_needed t current_rules run_preflight).1 in
  let preclaim_result := run_preclaim s (mt_pf_result t') in
  let '(s', r) := do_apply s preclaim_result in
  (s', t', r).

Record TxDetails := mkTxDetails {
  td_fee_level : Z;
  td_last_valid : option Z;
  td_consequences : TxConsequences;
  td_account : Z;
  td_seq_proxy : SeqProxy;
  td_tx : Tx;
  td_retries_remaining : Z;
  td_flags : Z;
  td_preflight_result : Ter;
  td_last_result : option Ter
}.

Definition get_tx_details (t : MaybeTx) : TxDetails :=
  mkTxDetails (mt_fee_level t) (mt_last_valid t) (pf_consequences (mt_pf_result t))
    (mt_account t) (mt_seq_proxy t) (pf_tx (mt_pf_result t)) (mt_retries_remaining t)
    (mt_flags t) (pf_ter (mt_pf_result t)) (mt_last_result t).

(** ** [TxQAccount] and the two views *)

Record MaybeTxCore := mkCore {
  core_payload : MaybeTx;
  core_consequences : TxConsequences
}.

Record TxQAccount := mkTxQAccount {
  qa_account : Z;
  qa_transactions : gmap SeqProxy MaybeTxCore;
  qa_retry_penalty : bool;
  qa_drop_penalty : bool
}.

Definition txq_account_new (account : Z) : TxQAccount := mkTxQAccount account ∅ false false.

Definition with_transactions (a : TxQAccount) (m : gmap SeqProxy MaybeTxCore) : TxQAccount :=
  mkTxQAccount (qa_account a) m (qa_retry_penalty a) (qa_drop_penalty a).

Definition get_txn_count (a : TxQAccount) : Z := Z.of_nat (size (qa_transactions a)).

(** The entry before [s], or else the first one at or after it. *)
Definition get_prev_tx (a : TxQAccount) (s : SeqProxy) : option (SeqProxy * MaybeTxCore) :=
  match last (range_before s (qa_transactions a)) with
  | Some e => Some e
  | None => head (range_from s (qa_transactions a))
  end.

Definition account_add (a : TxQAccount) (s : SeqProxy) (t : MaybeTxCore) : outcome TxQAccount :=
  match qa_transactions a !! s with
  | Some _ => Panic
  | None => Ok (with_transactions a (<[s := t]> (qa_transactions a)))
  end.

Definition account_remove (a : TxQAccount) (s : SeqProxy) : TxQAccount * bool :=
  (with_transactions a (delete s (qa_transactions a)),
   bool_decide (is_Some (qa_transactions a !! s))).

Fixpoint next_queuable_from (attempt : SeqProxy) (queued : list (SeqProxy * MaybeTxCore))
    : SeqProxy :=
  match queued with
  | [] => attempt
  | (queued_seq, queued_txn) :: rest =>
      if ord_ltb attempt queued_seq then attempt
      else next_queuable_from (following_seq (core_consequences queued_txn)) rest
  end.

Definition next_queuable_seq (a : TxQAccount) (account_seq_proxy : SeqProxy) : SeqProxy :=
  match range_from account_seq_proxy (qa_transactions a) with
  | [] => account_seq_proxy
  | (s, txn) :: queued =>
      if negb (is_seq s) || negb (bool_decide (s = account_seq_proxy)) then account_seq_proxy
      else next_queuable_from (following_seq (core_consequences txn)) queued
  end.

(** [OrderCandidates]: by fee level, then by the hash mixed with the parent
    ledger's. *)
Definition compares_by_fee_and_tx_id (parent_hash_comp : Z)
    (lhs_fee_level lhs_tx_id rhs_fee_level rhs_tx_id : Z) : bool :=
  if lhs_fee_level =? rhs_fee_level
  then Z.lxor lhs_tx_id parent_hash_comp <? Z.lxor rhs_tx_id parent_hash_comp
  else rhs_fee_level <? lhs_fee_level.

Record FeeQueueKey := mkKey {
  fk_account : Z;
  fk_seq_proxy : SeqProxy
}.

#[global] Instance FeeQueueKey_eq_dec : EqDecision FeeQueueKey.
Proof. solve_decision. Defined.

Record QueueAdvanceCandidate := mkCandidate {
  qc_fee_level : Z;
  qc_tx_id : Z;
  qc_seq_proxy : SeqProxy
}.

Record FeeQueueEntry := mkEntry {
  fe_key : FeeQueueKey;
  fe_candidate : QueueAdvanceCandidate
}.

Record QueueViews := mkViews {
  fee_order : list FeeQueueEntry;
  accounts : gmap Z TxQAccount
}.
End Types.
