(* ===== verification/TxQMetrics.v ===== *)
(** * Transaction queue: fee levels and fee escalation

    [xrpld/tx/src/utility/queue_fee_metrics.rs] and [txq_setup.rs]: the setup read
    from the configuration, the number of transactions a ledger is expected to
    hold and how each closed ledger moves it, the escalation of the open-ledger
    fee above that number, and the fee level a transaction pays. [usize] has 64
    bits. *)

From stdpp Require Import strings.
From S2P Require Import Prelude LoadFee.

Definition TXQ_BASE_LEVEL : Z := 256.

Definition i64_max : Z := 9223372036854775807.

Record QueueFeeMetricsSnapshot := mkSnapshot {
  ms_txns_expected : Z;
  ms_escalation_multiplier : Z
}.

Record QueueFeeMetricsConfig := mkMetricsConfig {
  mc_ledgers_in_queue : Z;
  mc_queue_size_min : Z;
  mc_minimum_escalation_multiplier : Z;
  mc_minimum_txn_in_ledger : Z;
  mc_target_txn_in_ledger : Z;
  mc_maximum_txn_in_ledger : option Z;
  mc_normal_consensus_increase_percent : Z;
  mc_slow_consensus_decrease_percent : Z
}.

Definition history_capacity (c : QueueFeeMetricsConfig) : Z := Z.max (mc_ledgers_in_queue c) 1.
Definition minimum_txn_count (c : QueueFeeMetricsConfig) : Z := mc_minimum_txn_in_ledger c.
Definition target_txn_count (c : QueueFeeMetricsConfig) : Z :=
  Z.max (mc_target_txn_in_ledger c) (minimum_txn_count c).
Definition maximum_txn_count (c : QueueFeeMetricsConfig) : option Z :=
  (fun maximum => Z.max maximum (target_txn_count c)) <$> mc_maximum_txn_in_ledger c.

Record QueueFeeMetricsState := mkMetrics {
  fm_config : QueueFeeMetricsConfig;
  fm_txns_expected : Z;
  fm_recent_txn_counts : list Z;
  fm_escalation_multiplier : Z
}.

Definition metrics_new (c : QueueFeeMetricsConfig) : QueueFeeMetricsState :=
  mkMetrics c (minimum_txn_count c) [] (mc_minimum_escalation_multiplier c).

Definition metrics_snapshot (m : QueueFeeMetricsState) : QueueFeeMetricsSnapshot :=
  mkSnapshot (fm_txns_expected m) (fm_escalation_multiplier m).

(** [Ord::clamp] panics on an empty interval. *)
Definition clamp_u64 (v lo hi : Z) : outcome Z :=
  if hi <? lo then Panic else Ok (Z.max lo (Z.min v hi)).

(** [VecDeque::pop_front] until at most [cap] counts are left. *)
Definition trim_front (cap : Z) (l : list Z) : list Z :=
  drop (Z.to_nat (Z.of_nat (length l) - cap)) l.

Definition slow_consensus_count (c : QueueFeeMetricsConfig) (txns_expected size : Z) : outcome Z :=
  let cut_pct := wrap_u64 (100 - mc_slow_consensus_decrease_percent c) in
  scaled ← mul_div txns_expected cut_pct 100;
  let upper_limit := Z.max (default u64_max scaled) (minimum_txn_count c) in
  cut ← mul_div size cut_pct 100;
  clamp_u64 (default u64_max cut) (minimum_txn_count c) upper_limit.

Definition busy_ledger_counts (c : QueueFeeMetricsConfig) (recent : list Z) (size : Z)
    : outcome (list Z) :=
  next_count ← mul_div size (wrap_u32 (100 + mc_normal_consensus_increase_percent c)) 100;
  mret (trim_front (history_capacity c) (recent ++ [default u64_max next_count])).

Definition busy_ledger_expected (c : QueueFeeMetricsConfig) (txns_expected max_recent : Z) : Z :=
  let next :=
    if txns_expected <=? max_recent then max_recent
    else let value := (txns_expected * 9 + max_recent) / 10 in
         if u64_max <? value then u64_max else value in
  match maximum_txn_count c with
  | Some maximum => Z.min next maximum
  | None => next
  end.

(** The median of the ledger's fee levels, rounded up, and at least the
    configured minimum. *)
Definition escalation_of (c : QueueFeeMetricsConfig) (levels : list Z) : outcome Z :=
  if bool_decide (levels = []) then Ok (mc_minimum_escalation_multiplier c)
  else
    let sorted := sort_by Z.leb levels in
    mid_high ← expect (sorted !! (length levels / 2)%nat);
    mid_low ← expect (sorted !! ((length levels - 1) / 2)%nat);
    let median := (mid_high + mid_low + 1) / 2 in
    Ok (Z.max (if u64_max <? median then u64_max else median)
              (mc_minimum_escalation_multiplier c)).

Definition metrics_update (m : QueueFeeMetricsState) (levels : list Z) (time_leap : bool)
    : outcome (QueueFeeMetricsState * Z) :=
  let c := fm_config m in
  let size := Z.of_nat (length levels) in
  '(expected, recent) ←
    (if time_leap then
       expected ← slow_consensus_count c (fm_txns_expected m) size;
       mret (expected, [])
     else if (fm_txns_expected m <? size) || (target_txn_count c <? size) then
       recent ← busy_ledger_counts c (fm_recent_txn_counts m) size;
       max_recent ← expect (max_by Z.gtb recent);
       mret (busy_ledger_expected c (fm_txns_expected m) max_recent, recent)
     else mret (fm_txns_expected m, fm_recent_txn_counts m));
  escalation ← escalation_of c levels;
  mret (mkMetrics c expected recent escalation, size).

(** ** Fee levels *)

Record QueueFeeLevelPaidInputs := mkFeePaid {
  fp_calculated_base_fee_drops : Z;
  fp_fee_paid_drops : Z;
  fp_default_base_fee_drops : Z
}.

Definition evaluate_fee_level_paid (i : QueueFeeLevelPaidInputs) : outcome Z :=
  let fee_mod_drops :=
    if 0 <? fp_calculated_base_fee_drops i then 0
    else if fp_default_base_fee_drops i =? 0 then 1
    else fp_default_base_fee_drops i in
  let base_fee_drops := wrap_i64 (fp_calculated_base_fee_drops i + fee_mod_drops) in
  let effective_fee_paid_drops := wrap_i64 (fp_fee_paid_drops i + fee_mod_drops) in
  if negb (0 <? base_fee_drops) then Panic
  else if (effective_fee_paid_drops <=? 0) || (base_fee_drops <=? 0) then Ok 0
  else
    level ← mul_div effective_fee_paid_drops TXQ_BASE_LEVEL base_fee_drops;
    mret (default u64_max level).

Definition scale_fee_level (s : QueueFeeMetricsSnapshot) (open_ledger_tx_count : Z) : outcome Z :=
  if open_ledger_tx_count <=? ms_txns_expected s then Ok TXQ_BASE_LEVEL
  else
    let current := open_ledger_tx_count in
    let target := ms_txns_expected s in
    level ← mul_div (ms_escalation_multiplier s) (sat_u64 (current * current))
              (sat_u64 (target * target));
    mret (default u64_max level).

Definition evaluate_required_fee_level (s : QueueFeeMetricsSnapshot) (open_ledger_tx_count : Z)
    (_flags : Z) : outcome Z :=
  scale_fee_level s open_ledger_tx_count.

(** ** [TxQSetup] *)

Inductive TxQSetupError :=
| MaximumBelowMinimumTxnInLedger
| MaximumBelowMinimumTxnInLedgerStandalone.

Record TxQSetup := mkSetup {
  su_ledgers_in_queue : Z;
  su_queue_size_min : Z;
  su_retry_sequence_percent : Z;
  su_minimum_escalation_multiplier : Z;
  su_minimum_txn_in_ledger : Z;
  su_minimum_txn_in_ledger_standalone : Z;
  su_target_txn_in_ledger : Z;
  su_maximum_txn_in_ledger : option Z;
  su_normal_consensus_increase_percent : Z;
  su_slow_consensus_decrease_percent : Z;
  su_maximum_txn_per_account : Z;
  su_minimum_last_ledger_buffer : Z;
  su_standalone : bool
}.

Definition setup_default : TxQSetup :=
  mkSetup 20 2000 25 (TXQ_BASE_LEVEL * 500) 32 1000 256 None 20 50 10 2 false.

Definition minimum_txn_in_ledger_for_mode (s : TxQSetup) : Z :=
  if su_standalone s then su_minimum_txn_in_ledger_standalone s else su_minimum_txn_in_ledger s.

Definition fee_metrics_config (s : TxQSetup) : QueueFeeMetricsConfig :=
  mkMetricsConfig (su_ledgers_in_queue s) (su_queue_size_min s)
    (su_minimum_escalation_multiplier s) (minimum_txn_in_ledger_for_mode s)
    (su_target_txn_in_ledger s) (su_maximum_txn_in_ledger s)
    (su_normal_consensus_increase_percent s) (su_slow_consensus_decrease_percent s).

Definition fee_metrics_state (s : TxQSetup) : QueueFeeMetricsState :=
  metrics_new (fee_metrics_config s).

(** A configuration section: the number each key's value spells, if any. A value
    too large for the field's type does not parse. *)
Definition Section_ : Type := string -> option Z.

Definition section_get (limit : Z) (name : string) (section : Section_) : option Z :=
  match section name with
  | Some v => if (0 <=? v) && (v <=? limit) then Some v else None
  | None => None
  end.

Definition config_set (limit : Z) (target : Z) (name : string) (section : Section_) : Z :=
  default target (section_get limit name section).

Definition setup_txq (section : Section_) (standalone : bool) : TxQSetupError + TxQSetup :=
  let d := setup_default in
  let minimum := config_set u64_max (su_minimum_txn_in_ledger d)
                   "minimum_txn_in_ledger" section in
  let minimum_standalone := config_set u64_max (su_minimum_txn_in_ledger_standalone d)
                              "minimum_txn_in_ledger_standalone" section in
  let finish (maximum : option Z) :=
    mkSetup
      (config_set u64_max (su_ledgers_in_queue d) "ledgers_in_queue" section)
      (config_set u64_max (su_queue_size_min d) "minimum_queue_size" section)
      (config_set u32_max (su_retry_sequence_percent d) "retry_sequence_percent" section)
      (config_set u64_max (su_minimum_escalation_multiplier d)
         "minimum_escalation_multiplier" section)
      minimum minimum_standalone
      (config_set u64_max (su_target_txn_in_ledger d) "target_txn_in_ledger" section)
      maximum
      (Z.min (config_set u32_max (su_normal_consensus_increase_percent d)
                "normal_consensus_increase_percent" section) 1000)
      (Z.min (config_set u32_max (su_slow_consensus_decrease_percent d)
                "slow_consensus_decrease_percent" section) 100)
      (config_set u32_max (su_maximum_txn_per_account d) "maximum_txn_per_account" section)
      (config_set u32_max (su_minimum_last_ledger_buffer d) "minimum_last_ledger_buffer" section)
      standalone in
  match section_get u64_max "maximum_txn_in_ledger" section with
  | Some maximum =>
      if maximum <? minimum then inl MaximumBelowMinimumTxnInLedger
      else if maximum <? minimum_standalone then inl MaximumBelowMinimumTxnInLedgerStandalone
      else inr (finish (Some maximum))
  | None => inr (finish (su_maximum_txn_in_ledger d))
  end.
