(* ===== verification/TxQMetricsTheorems.v ===== *)
(** * Transaction queue: theorems on fee levels and escalation *)

From stdpp Require Import strings.
From S2P Require Import Prelude LoadFee TxQMetrics.

(** ** The expected ledger size *)

Record config_ok (c : QueueFeeMetricsConfig) : Prop := {
  co_minimum : in_u64 (mc_minimum_txn_in_ledger c);
  co_target : in_u64 (mc_target_txn_in_ledger c);
  co_maximum : forall v, mc_maximum_txn_in_ledger c = Some v -> in_u64 v;
  co_multiplier : in_u64 (mc_minimum_escalation_multiplier c);
  co_increase : 0 <= mc_normal_consensus_increase_percent c <= 1000;
  co_decrease : 0 <= mc_slow_consensus_decrease_percent c <= 100
}.

Definition expected_cap (c : QueueFeeMetricsConfig) : Z := default u64_max (maximum_txn_count c).

Record metrics_ok (m : QueueFeeMetricsState) : Prop := {
  mo_config : config_ok (fm_config m);
  mo_expected : minimum_txn_count (fm_config m) <= fm_txns_expected m <= expected_cap (fm_config m);
  mo_recent : Forall in_u64 (fm_recent_txn_counts m);
  mo_history : Z.of_nat (length (fm_recent_txn_counts m)) <= history_capacity (fm_config m);
  mo_multiplier : mc_minimum_escalation_multiplier (fm_config m)
                  <= fm_escalation_multiplier m <= u64_max
}.

Lemma expected_cap_bounds c : config_ok c ->
  target_txn_count c <= expected_cap c <= u64_max.
Proof.
  intros [Hmin Ht Hmax _ _ _]. unfold expected_cap, maximum_txn_count, target_txn_count,
    minimum_txn_count, in_u64 in *.
  destruct (mc_maximum_txn_in_ledger c) as [v|]; simpl; [specialize (Hmax v eq_refl)|]; lia.
Qed.

Lemma mul_div_percent v p : in_u64 v -> 0 <= p <= 1100 ->
  exists r, mul_div v p 100 = Ok r /\ in_u64 (default u64_max r)
    /\ (p <= 100 -> default u64_max r <= v) /\ (100 <= p -> v <= default u64_max r).
Proof.
  intros Hv Hp. unfold mul_div, MULDIV_MAX, in_u64 in *. eexists. split; [reflexivity|].
  pose proof (Z.div_mod (v * p) 100 ltac:(lia)). pose proof (Z.mod_pos_bound (v * p) 100 ltac:(lia)).
  assert (0 <= v * p / 100) by (apply Z.div_pos; nia).
  destruct (Z.ltb_spec u64_max (v * p / 100)); simpl; repeat split; try lia; intros; nia.
Qed.

Lemma slow_consensus_count_ok m size :
  metrics_ok m -> in_u64 size ->
  exists e, slow_consensus_count (fm_config m) (fm_txns_expected m) size = Ok e
    /\ minimum_txn_count (fm_config m) <= e <= fm_txns_expected m.
Proof.
  intros [Hc He _ _ _] Hs. pose proof (expected_cap_bounds _ Hc) as Hcap.
  destruct Hc as [Hmin _ _ _ _ Hdec]. unfold slow_consensus_count.
  rewrite wrap_u64_id by (unfold in_u64, u64_max; lia).
  set (p := 100 - mc_slow_consensus_decrease_percent (fm_config m)).
  assert (in_u64 (fm_txns_expected m)) as Hexp
    by (unfold in_u64, minimum_txn_count in *; lia).
  destruct (mul_div_percent (fm_txns_expected m) p Hexp ltac:(lia)) as (r1 & -> & _ & L1 & _).
  destruct (mul_div_percent size p Hs ltac:(lia)) as (r2 & E2 & _ & _ & _).
  cbn [mbind outcome_bind]. rewrite E2. cbn [mbind outcome_bind]. unfold clamp_u64.
  specialize (L1 ltac:(lia)). rewrite (proj2 (Z.ltb_ge _ _)) by lia.
  eexists. split; [reflexivity|]. lia.
Qed.

Lemma trim_front_length cap l : 0 <= cap -> Z.of_nat (length (trim_front cap l)) <= cap.
Proof. intros. unfold trim_front. rewrite length_drop. lia. Qed.

Lemma trim_front_snoc cap l x : 1 <= cap -> exists l', trim_front cap (l ++ [x]) = l' ++ [x].
Proof.
  intros. unfold trim_front. rewrite length_app. cbn [length].
  exists (drop (Z.to_nat (Z.of_nat (length l + 1) - cap)) l).
  rewrite drop_app_le by lia. done.
Qed.

Lemma gtb_max l x y : max_by Z.gtb l = Some x -> y ∈ l -> y <= x.
Proof.
  intros E Hy. pose proof (max_by_greatest Z.gtb l x y) as G.
  rewrite Z.gtb_ltb in G. apply Z.ltb_ge, G; [| |done|done]; intros *; rewrite !Z.gtb_ltb;
    rewrite ?Z.ltb_lt, ?Z.ltb_ge; lia.
Qed.

Lemma busy_ledger_ok m size :
  metrics_ok m -> in_u64 size ->
  exists recent max_recent,
    busy_ledger_counts (fm_config m) (fm_recent_txn_counts m) size = Ok recent
    /\ max_by Z.gtb recent = Some max_recent
    /\ Forall in_u64 recent
    /\ Z.of_nat (length recent) <= history_capacity (fm_config m)
    /\ size <= max_recent <= u64_max.
Proof.
  intros [Hc He Hr Hh _] Hs. destruct Hc as [_ _ _ _ Hinc _]. unfold busy_ledger_counts.
  rewrite wrap_u32_id by (unfold in_u32, u32_max; lia).
  destruct (mul_div_percent size (100 + mc_normal_consensus_increase_percent (fm_config m)) Hs
              ltac:(lia)) as (r & -> & Hr64 & _ & Hge). cbn [mbind outcome_bind mret outcome_ret].
  set (x := default u64_max r) in *.
  assert (1 <= history_capacity (fm_config m)) as Hcap by (unfold history_capacity; lia).
  pose proof (trim_front_length (history_capacity (fm_config m))
                (fm_recent_txn_counts m ++ [x]) ltac:(lia)) as Hlen.
  assert (Forall in_u64 (trim_front (history_capacity (fm_config m))
                           (fm_recent_txn_counts m ++ [x]))) as HF.
  { unfold trim_front. apply Forall_drop, Forall_app. split; [done|]. by constructor. }
  destruct (trim_front_snoc _ (fm_recent_txn_counts m) x Hcap) as [l' E].
  rewrite E in *. destruct (max_by Z.gtb (l' ++ [x])) as [mx|] eqn:Em.
  2: { destruct l'; discriminate Em. }
  exists (l' ++ [x]), mx. split_and!; try done.
  - pose proof (gtb_max _ _ x Em ltac:(apply elem_of_app; right; left)).
    specialize (Hge ltac:(lia)). lia.
  - rewrite Forall_forall in HF. apply max_by_elem in Em. by apply HF in Em as [_ ?].
Qed.

Lemma busy_ledger_expected_ok m size max_recent :
  metrics_ok m -> size <= max_recent <= u64_max ->
  fm_txns_expected m < size \/ target_txn_count (fm_config m) < size ->
  let e := busy_ledger_expected (fm_config m) (fm_txns_expected m) max_recent in
  minimum_txn_count (fm_config m) <= e <= expected_cap (fm_config m)
  /\ Z.min size (expected_cap (fm_config m)) <= e.
Proof.
  intros [Hc He _ _ _] Hx Hbusy. pose proof (expected_cap_bounds _ Hc) as Hcap.
  assert (minimum_txn_count (fm_config m) <= target_txn_count (fm_config m))
    by (unfold target_txn_count; lia).
  unfold busy_ledger_expected, expected_cap in *.
  set (t := fm_txns_expected m) in *.
  assert (forall v, max_recent <= v <= u64_max ->
    let e := match maximum_txn_count (fm_config m) with Some x => Z.min v x | None => v end in
    minimum_txn_count (fm_config m) <= e <= default u64_max (maximum_txn_count (fm_config m))
    /\ Z.min size (default u64_max (maximum_txn_count (fm_config m))) <= e) as G.
  { intros v Hv. destruct (maximum_txn_count (fm_config m)); simpl in *; lia. }
  apply G. destruct (Z.leb_spec t max_recent); [lia|].
  pose proof (Z.div_mod (t * 9 + max_recent) 10 ltac:(lia)).
  pose proof (Z.mod_pos_bound (t * 9 + max_recent) 10 ltac:(lia)).
  rewrite (proj2 (Z.ltb_ge _ _)); [lia|].
  destruct (maximum_txn_count (fm_config m)); simpl in *; lia.
Qed.

(** ** The escalation multiplier *)

Lemma escalation_of_ok c levels :
  config_ok c -> Forall in_u64 levels ->
  exists e, escalation_of c levels = Ok e
    /\ mc_minimum_escalation_multiplier c <= e <= u64_max
    /\ (e = mc_minimum_escalation_multiplier c
        \/ exists hi lo, hi ∈ levels /\ lo ∈ levels /\ lo <= e <= hi).
Proof.
  intros Hc Hl. destruct Hc as [_ _ _ Hm _ _]. unfold escalation_of, in_u64 in *.
  destruct (decide (levels = [])) as [->|Hne].
  { eexists. split; [reflexivity|]. split; [lia | by left]. }
  rewrite bool_decide_eq_false_2 by done.
  assert (0 < length levels)%nat as Hlen by (destruct levels; [done | simpl; lia]).
  assert (length (sort_by Z.leb levels) = length levels) as El by by rewrite sort_by_perm.
  assert (forall i, (i < length levels)%nat -> exists v, sort_by Z.leb levels !! i = Some v
            /\ v ∈ levels /\ 0 <= v <= u64_max) as Hget.
  { intros i Hi. destruct (lookup_lt_is_Some_2 (sort_by Z.leb levels) i ltac:(lia)) as [v Ev].
    exists v. assert (v ∈ levels) as Hin
      by (rewrite <- (sort_by_perm Z.leb); by eapply list_elem_of_lookup_2).
    rewrite Forall_forall in Hl. split_and!; try done; by apply Hl. }
  destruct (Hget (length levels / 2)%nat) as (hi & Ehi & Hhi & Bhi).
  { apply Nat.div_lt; lia. }
  destruct (Hget ((length levels - 1) / 2)%nat) as (lo & Elo & Hlo & Blo).
  { apply Nat.Div0.div_lt_upper_bound; lia. }
  cbn zeta. rewrite Ehi, Elo. cbn [expect mbind outcome_bind].
  pose proof (Z.div_mod (hi + lo + 1) 2 ltac:(lia)). pose proof (Z.mod_pos_bound (hi + lo + 1) 2 ltac:(lia)).
  rewrite (proj2 (Z.ltb_ge _ _)) by lia. eexists. split; [reflexivity|]. split; [lia|].
  destruct (Z.le_ge_cases ((hi + lo + 1) / 2) (mc_minimum_escalation_multiplier c)) as [L|G];
    [left; lia | right].
  destruct (Z.le_ge_cases lo hi); [exists hi, lo | exists lo, hi]; split_and!; try done; lia.
Qed.

(** One closed ledger. *)
Lemma metrics_update_full m levels time_leap :
  metrics_ok m -> Forall in_u64 levels -> in_u64 (Z.of_nat (length levels)) ->
  let size := Z.of_nat (length levels) in
  let c := fm_config m in
  exists m', metrics_update m levels time_leap = Ok (m', size)
    /\ metrics_ok m' /\ fm_config m' = c
    /\ (time_leap = true ->
          fm_txns_expected m' <= fm_txns_expected m /\ fm_recent_txn_counts m' = [])
    /\ (time_leap = false -> fm_txns_expected m < size \/ target_txn_count c < size ->
          Z.min size (expected_cap c) <= fm_txns_expected m')
    /\ (time_leap = false -> size <= fm_txns_expected m -> size <= target_txn_count c ->
          fm_txns_expected m' = fm_txns_expected m
          /\ fm_recent_txn_counts m' = fm_recent_txn_counts m).
Proof.
  intros Hm Hl Hs size c. pose proof Hm as [Hc He Hr Hh _].
  destruct (escalation_of_ok c levels Hc Hl) as (e & Ee & He64 & _).
  pose proof (expected_cap_bounds c Hc). fold c in He. unfold metrics_update. fold c size.
  assert (forall expected recent,
    minimum_txn_count c <= expected <= expected_cap c -> Forall in_u64 recent ->
    Z.of_nat (length recent) <= history_capacity c ->
    metrics_ok (mkMetrics c expected recent e)) as Hok by (intros; constructor; simpl; auto).
  destruct time_leap.
  - destruct (slow_consensus_count_ok m size Hm Hs) as (x & Ex & Hx).
    fold c in Ex, Hx. rewrite Ex. cbn [mbind outcome_bind mret outcome_ret]. rewrite Ee.
    eexists. split; [reflexivity|]. simpl. split_and!; try done; [|intros; split; [lia | done]].
    apply Hok; [lia | done | unfold history_capacity; simpl; lia].
  - destruct ((fm_txns_expected m <? size) || (target_txn_count c <? size)) eqn:Eb.
    + apply orb_true_iff in Eb. rewrite !Z.ltb_lt in Eb.
      destruct (busy_ledger_ok m size Hm Hs) as (rc & mx & Ec & Emx & HF & Hlen & Hmx).
      fold c in Ec, Hlen. rewrite Ec. cbn [mbind outcome_bind mret outcome_ret].
      rewrite Emx. cbn [expect mbind outcome_bind mret outcome_ret]. rewrite Ee.
      pose proof (busy_ledger_expected_ok m size mx Hm Hmx Eb) as [B1 B2].
      eexists. split; [reflexivity|]. simpl. split_and!; [by apply Hok | done..| by intros _ _ | intros; exfalso; lia].
    + apply orb_false_iff in Eb. rewrite !Z.ltb_ge in Eb.
      cbn [mbind outcome_bind mret outcome_ret]. rewrite Ee.
      eexists. split; [reflexivity|]. simpl. split_and!; [by apply Hok | done..| intros; lia | done].
Qed.

(** closing a ledger never fails and keeps the metrics within the
    configuration: the expected size stays between the configured minimum and
    maximum, the history within its capacity, the multiplier at least the
    configured one. A slow round never raises the expected size and forgets the
    history; a busy normal round leaves it no smaller than the ledger just closed
    (up to the maximum); any other normal round leaves it alone. *)
Theorem metrics_update_spec m levels time_leap :
  metrics_ok m -> Forall in_u64 levels -> in_u64 (Z.of_nat (length levels)) ->
  let size := Z.of_nat (length levels) in
  let c := fm_config m in
  exists m', metrics_update m levels time_leap = Ok (m', size)
    /\ metrics_ok m' /\ fm_config m' = c
    /\ (time_leap = true ->
          fm_txns_expected m' <= fm_txns_expected m /\ fm_recent_txn_counts m' = [])
    /\ (time_leap = false -> fm_txns_expected m < size \/ target_txn_count c < size ->
          Z.min size (expected_cap c) <= fm_txns_expected m')
    /\ (time_leap = false -> size <= fm_txns_expected m -> size <= target_txn_count c ->
          fm_txns_expected m' = fm_txns_expected m
          /\ fm_recent_txn_counts m' = fm_recent_txn_counts m).
Proof. exact (metrics_update_full m levels time_leap). Qed.

(** What the configuration file can produce is within the bounds. *)
Lemma config_set_range limit target name section :
  0 <= target <= limit -> 0 <= config_set limit target name section <= limit.
Proof.
  intros. unfold config_set, section_get.
  destruct (section name) as [v|]; simpl; [|lia].
  destruct (0 <=? v) eqn:E1, (v <=? limit) eqn:E2; simpl; lia.
Qed.

Lemma setup_config_ok section standalone s :
  setup_txq section standalone = inr s ->
  config_ok (fee_metrics_config s)
  /\ forall v, su_maximum_txn_in_ledger s = Some v -> minimum_txn_in_ledger_for_mode s <= v.
Proof.
  unfold setup_txq.
  set (mn := config_set u64_max _ "minimum_txn_in_ledger" section).
  set (ms := config_set u64_max _ "minimum_txn_in_ledger_standalone" section).
  pose proof (config_set_range u64_max 32 "minimum_txn_in_ledger" section ltac:(unfold u64_max; lia)).
  pose proof (config_set_range u64_max 1000 "minimum_txn_in_ledger_standalone" section
                ltac:(unfold u64_max; lia)).
  pose proof (config_set_range u64_max 256 "target_txn_in_ledger" section ltac:(unfold u64_max; lia)).
  pose proof (config_set_range u64_max 128000 "minimum_escalation_multiplier" section
                ltac:(unfold u64_max; lia)).
  pose proof (config_set_range u32_max 20 "normal_consensus_increase_percent" section
                ltac:(unfold u32_max; lia)).
  pose proof (config_set_range u32_max 50 "slow_consensus_decrease_percent" section
                ltac:(unfold u32_max; lia)).
  assert (forall maximum s',
    (forall v, maximum = Some v -> in_u64 v /\ mn <= v /\ ms <= v) ->
    su_minimum_txn_in_ledger s' = mn -> su_minimum_txn_in_ledger_standalone s' = ms ->
    su_maximum_txn_in_ledger s' = maximum ->
    in_u64 (su_target_txn_in_ledger s') -> in_u64 (su_minimum_escalation_multiplier s') ->
    0 <= su_normal_consensus_increase_percent s' <= 1000 ->
    0 <= su_slow_consensus_decrease_percent s' <= 100 ->
    config_ok (fee_metrics_config s')
    /\ forall v, su_maximum_txn_in_ledger s' = Some v -> minimum_txn_in_ledger_for_mode s' <= v)
    as G.
  { intros maximum s' Hmax E1 E2 E3 ? ? ? ?. subst mn ms. split.
    - constructor; simpl; try done.
      + unfold minimum_txn_in_ledger_for_mode. rewrite E1, E2. unfold in_u64.
        destruct (su_standalone s'); assumption.
      + intros v. rewrite E3. intros Ev. by apply (Hmax v Ev).
    - intros v. rewrite E3. intros Ev. destruct (Hmax v Ev) as (_ & ? & ?).
      unfold minimum_txn_in_ledger_for_mode. rewrite E1, E2. by destruct (su_standalone s'). }
  unfold section_get. destruct (section "maximum_txn_in_ledger") as [v|]; simpl.
  - destruct (0 <=? v) eqn:Ea, (v <=? u64_max) eqn:Eb; simpl;
      [destruct (Z.ltb_spec v mn); [done|]; destruct (Z.ltb_spec v ms); [done|]|..];
      intros [= <-]; (eapply G; [|reflexivity..| | | |]);
      try (unfold in_u64; simpl; lia); try done.
    intros w [= <-]. unfold in_u64. lia.
  - intros [= <-]; (eapply G; [|reflexivity..| | | |]); try (unfold in_u64; simpl; lia); done.
Qed.

(** ** Escalation of the open-ledger fee *)

Lemma sat_u64_mono a b : a <= b -> sat_u64 a <= sat_u64 b.
Proof. unfold sat_u64. lia. Qed.

Lemma sat_square_pos t : 1 <= t -> 1 <= sat_u64 (t * t) <= u64_max.
Proof. intros. unfold sat_u64, u64_max. nia. Qed.

Lemma mul_div_default v a d : in_u64 v -> 0 <= a -> 0 < d ->
  exists r, mul_div v a d = Ok r /\ default u64_max r = Z.min u64_max (v * a / d)
    /\ in_u64 (default u64_max r).
Proof.
  intros Hv Ha Hd. unfold mul_div, MULDIV_MAX, in_u64 in *. rewrite (proj2 (Z.eqb_neq d 0)) by lia.
  assert (0 <= v * a / d) by (apply Z.div_pos; nia).
  eexists. split; [reflexivity|].
  destruct (Z.ltb_spec u64_max (v * a / d)); simpl; unfold u64_max in *; lia.
Qed.

Definition escalated (s : QueueFeeMetricsSnapshot) (n : Z) : Z :=
  if n <=? ms_txns_expected s then TXQ_BASE_LEVEL
  else Z.min u64_max (ms_escalation_multiplier s * sat_u64 (n * n)
                      / sat_u64 (ms_txns_expected s * ms_txns_expected s)).

Lemma scale_fee_level_eq s n :
  1 <= ms_txns_expected s -> in_u64 (ms_escalation_multiplier s) ->
  scale_fee_level s n = Ok (escalated s n).
Proof.
  intros Ht Hm. unfold scale_fee_level, escalated.
  destruct (Z.leb_spec n (ms_txns_expected s)); [done|].
  pose proof (sat_square_pos _ Ht). pose proof (sat_square_pos n ltac:(lia)).
  destruct (mul_div_default (ms_escalation_multiplier s) (sat_u64 (n * n))
    (sat_u64 (ms_txns_expected s * ms_txns_expected s)) Hm ltac:(lia) ltac:(lia))
    as (r & E & Er & _). rewrite E. cbn [mbind outcome_bind mret outcome_ret]. by rewrite Er.
Qed.

Lemma escalated_mono s n n' :
  1 <= ms_txns_expected s -> TXQ_BASE_LEVEL <= ms_escalation_multiplier s <= u64_max ->
  n <= n' -> escalated s n <= escalated s n'.
Proof.
  intros Ht Hm Hn. unfold escalated. pose proof (sat_square_pos _ Ht) as Hd.
  set (d := sat_u64 (ms_txns_expected s * ms_txns_expected s)) in *.
  destruct (Z.leb_spec n (ms_txns_expected s)), (Z.leb_spec n' (ms_txns_expected s)); try lia.
  - apply Z.min_glb; [unfold TXQ_BASE_LEVEL, u64_max; lia|]. apply Z.div_le_lower_bound; [lia|].
    assert (d <= sat_u64 (n' * n')) by (apply sat_u64_mono; nia). unfold TXQ_BASE_LEVEL in *. nia.
  - apply Z.min_le_compat_l, Z.div_le_mono; [lia|].
    assert (sat_u64 (n * n) <= sat_u64 (n' * n')) by (apply sat_u64_mono; nia).
    unfold TXQ_BASE_LEVEL in *. nia.
Qed.

(** the fee level the open ledger asks for: the base level up to the expected
    number of transactions; above it at least the escalation multiplier, namely
    the multiplier times the square of the ratio of the counts (rounded down, and
    saturated at 64 bits); and it never falls as transactions are added. It fails
    for no count when the expected number is positive. *)
Theorem scale_fee_level_spec s n n' :
  1 <= ms_txns_expected s -> TXQ_BASE_LEVEL <= ms_escalation_multiplier s <= u64_max ->
  n <= n' ->
  exists level level',
    scale_fee_level s n = Ok level /\ scale_fee_level s n' = Ok level'
    /\ TXQ_BASE_LEVEL <= level <= level' /\ level' <= u64_max
    /\ (n <= ms_txns_expected s -> level = TXQ_BASE_LEVEL)
    /\ (ms_txns_expected s < n -> ms_escalation_multiplier s <= level)
    /\ (ms_txns_expected s < n -> n * n <= u64_max ->
        level = Z.min u64_max (ms_escalation_multiplier s * (n * n)
                               / (ms_txns_expected s * ms_txns_expected s))).
Proof.
  intros Ht Hm Hn. assert (in_u64 (ms_escalation_multiplier s)) as Hm64
    by (unfold in_u64, TXQ_BASE_LEVEL in *; lia).
  exists (escalated s n), (escalated s n').
  split; [by apply scale_fee_level_eq|]. split; [by apply scale_fee_level_eq|].
  pose proof (escalated_mono s n n' Ht Hm Hn). unfold escalated in *.
  pose proof (sat_square_pos _ Ht) as Hd.
  set (d := sat_u64 (ms_txns_expected s * ms_txns_expected s)) in *.
  assert (ms_txns_expected s < n ->
    ms_escalation_multiplier s <= ms_escalation_multiplier s * sat_u64 (n * n) / d) as Hge.
  { intros. apply Z.div_le_lower_bound; [lia|].
    assert (d <= sat_u64 (n * n)) by (apply sat_u64_mono; nia). unfold TXQ_BASE_LEVEL in *. nia. }
  split_and!; [ | lia | | | |].
  - destruct (Z.leb_spec n (ms_txns_expected s)); [lia|].
    specialize (Hge ltac:(lia)). unfold u64_max, TXQ_BASE_LEVEL in *. lia.
  - destruct (Z.leb_spec n' (ms_txns_expected s)); unfold u64_max, TXQ_BASE_LEVEL; lia.
  - intros. by rewrite (proj2 (Z.leb_le _ _)).
  - intros Hlt. rewrite (proj2 (Z.leb_gt _ _)) by lia. specialize (Hge Hlt). lia.
  - intros Hlt Hsq. rewrite (proj2 (Z.leb_gt _ _)) by lia. subst d.
    assert (forall x, 1 <= x <= n -> sat_u64 (x * x) = x * x) as Hid
      by (intros x Hx; assert (0 <= x * x <= n * n) by nia; unfold sat_u64; lia).
    by rewrite !Hid by lia.
Qed.

(** ** The level a fee pays *)


Lemma fee_level_paid_eq base default_base fee :
  0 < base <= i64_max -> 0 <= fee <= i64_max ->
  evaluate_fee_level_paid (mkFeePaid base fee default_base)
    = Ok (Z.min u64_max (fee * TXQ_BASE_LEVEL / base)).
Proof.
  intros Hb Hr. unfold evaluate_fee_level_paid. cbn [fp_calculated_base_fee_drops
    fp_fee_paid_drops fp_default_base_fee_drops].
  rewrite (proj2 (Z.ltb_lt 0 base)) by lia. rewrite !Z.add_0_r.
  unfold i64_max in *. rewrite !wrap_i64_id by lia. rewrite (proj2 (Z.ltb_lt 0 base)) by lia.
  rewrite (proj2 (Z.leb_gt base 0)), orb_false_r by lia. cbn [negb].
  destruct (Z.leb_spec fee 0) as [L|L]; [by replace fee with 0 by lia|].
  destruct (mul_div_default fee TXQ_BASE_LEVEL base) as (r & -> & Er & _);
    [unfold in_u64, u64_max; lia | unfold TXQ_BASE_LEVEL; lia | lia |].
  cbn [mbind outcome_bind mret outcome_ret]. by rewrite Er.
Qed.

(** with a positive base fee, the level a transaction pays is its fee over the
    base fee in units of 1/256, rounded down and saturated: it reaches the base
    level exactly when the fee reaches the base fee, and a larger fee never pays a
    lower level. *)
Theorem fee_level_paid_spec base default_base fee fee' :
  0 < base <= i64_max -> 0 <= fee <= fee' -> fee' <= i64_max ->
  exists level level',
    evaluate_fee_level_paid (mkFeePaid base fee default_base) = Ok level
    /\ evaluate_fee_level_paid (mkFeePaid base fee' default_base) = Ok level'
    /\ level = Z.min u64_max (fee * TXQ_BASE_LEVEL / base)
    /\ (TXQ_BASE_LEVEL <= level <-> base <= fee)
    /\ level <= level' <= u64_max.
Proof.
  intros Hb Hf Hf'.
  do 2 eexists. split; [by apply fee_level_paid_eq; lia|]. split; [by apply fee_level_paid_eq; lia|]. split; [done|].
  unfold TXQ_BASE_LEVEL, u64_max, i64_max in *.
  pose proof (Z.div_le_mono (fee * 256) (fee' * 256) base ltac:(lia) ltac:(lia)).
  pose proof (Z.div_mod (fee * 256) base ltac:(lia)).
  pose proof (Z.mod_pos_bound (fee * 256) base ltac:(lia)).
  split; [|lia]. split; intros; nia.
Qed.

Module MetricsDemo.

Definition demo_metrics : QueueFeeMetricsState := fee_metrics_state setup_default.
Definition demo_levels : list Z := replicate 300 (256 * 600).

Lemma demo_metrics_ok : metrics_ok demo_metrics.
Proof.
  apply Build_metrics_ok.
  - by apply (setup_config_ok (fun _ => None) false setup_default).
  - vm_compute. split; discriminate.
  - constructor.
  - vm_compute. discriminate.
  - vm_compute. split; discriminate.
Qed.

(** A ledger of 300 transactions raises the expected size from 32 to 360. *)
Lemma metrics_update_spec_witness :
  exists m', metrics_update demo_metrics demo_levels false = Ok (m', 300)
    /\ metrics_ok m' /\ fm_txns_expected m' = 360 /\ fm_escalation_multiplier m' = 256 * 600
    /\ Z.min 300 (expected_cap (fm_config demo_metrics)) <= fm_txns_expected m'.
Proof.
  destruct (metrics_update_spec demo_metrics demo_levels false) as (m' & E & Hok & _ & _ & Hb & _).
  - exact demo_metrics_ok.
  - unfold demo_levels. apply Forall_replicate. unfold in_u64, u64_max. lia.
  - vm_compute. split; discriminate.
  - exists m'. split; [exact E|]. split; [exact Hok|].
    specialize (Hb eq_refl (or_introl eq_refl)).
    vm_compute in E. injection E as <-. split; [reflexivity|]. split; [reflexivity|exact Hb].
Defined.

Definition demo_snapshot : QueueFeeMetricsSnapshot := mkSnapshot 32 128000.

Lemma scale_fee_level_spec_witness :
  scale_fee_level demo_snapshot 32 = Ok 256 /\ scale_fee_level demo_snapshot 48 = Ok 288000
  /\ exists level level', scale_fee_level demo_snapshot 32 = Ok level
       /\ scale_fee_level demo_snapshot 48 = Ok level' /\ level <= level'.
Proof.
  split; [reflexivity|]. split; [reflexivity|].
  destruct (scale_fee_level_spec demo_snapshot 32 48) as (l & l' & E & E' & H & _);
    [simpl; lia | vm_compute; split; discriminate | lia |].
  exists l, l'. split; [exact E|]. split; [exact E'|]. apply H.
Defined.

Lemma fee_level_paid_spec_witness :
  evaluate_fee_level_paid (mkFeePaid 10 12 10) = Ok 307
  /\ exists level, evaluate_fee_level_paid (mkFeePaid 10 12 10) = Ok level
       /\ (TXQ_BASE_LEVEL <= level <-> 10 <= 12).
Proof.
  split; [reflexivity|].
  destruct (fee_level_paid_spec 10 10 12 12) as (l & l' & E & _ & _ & H & _);
    [unfold i64_max; lia..|].
  exists l. split; [exact E | exact H].
Defined.
End MetricsDemo.
