(* ===== verification/TxQViews.v ===== *)
(** * Transaction queue: the two synchronised views

    [queue_views.rs], [queue_advance.rs], [queue_erase_candidate.rs],
    [queue_erase_range.rs], [queue_closed_ledger.rs], the enqueue and full-queue
    mutations ([queue_apply_enqueue.rs], [queue_apply_full_queue.rs]) and
    [rebuild_queue_accept_fee_order] of [queue_accept.rs]: every operation that
    changes the queue keeps an account-ordered map and a fee-ordered vector. A
    failed [expect] or [assert!] is [Panic]. *)

From S2P Require Import Prelude BTree LoadFee TxQTypes TxQMetrics.

Section Views.
Context `{!TxQTypes}.

Definition views_empty : QueueViews := mkViews [] ∅.

Definition with_fee_order (v : QueueViews) (l : list FeeQueueEntry) : QueueViews :=
  mkViews l (accounts v).
Definition with_account (v : QueueViews) (k : Z) (a : TxQAccount) : QueueViews :=
  mkViews (fee_order v) (<[k := a]> (accounts v)).

Definition find_fee_candidate_index (v : QueueViews) (target : FeeQueueKey) : option nat :=
  fst <$> list_find (fun e => fe_key e = target) (fee_order v).

Definition next_fee_candidate_key (v : QueueViews) (target : FeeQueueKey) : option FeeQueueKey :=
  index ← find_fee_candidate_index v target;
  fe_key <$> fee_order v !! S index.

(** [get_mut(account).expect(..).remove(seq_proxy)] followed by the assertion that
    something was removed. *)
Definition remove_from_account (v : QueueViews) (k : FeeQueueKey) : outcome QueueViews :=
  a ← expect (accounts v !! fk_account k);
  let '(a', found) := account_remove a (fk_seq_proxy k) in
  if negb found then Panic else Ok (with_account v (fk_account k) a').

(** [self.fee_order.remove(index).key] *)
Definition remove_from_fee_order (v : QueueViews) (index : nat)
    : outcome (QueueViews * FeeQueueKey) :=
  e ← expect (fee_order v !! index);
  mret (with_fee_order v (delete index (fee_order v)), fe_key e).

Definition remove_fee_candidate_by_key (v : QueueViews) (target : FeeQueueKey)
    : outcome (QueueViews * FeeQueueKey) :=
  delete_index ← expect (find_fee_candidate_index v target);
  v' ← remove_from_account v target;
  remove_from_fee_order v' delete_index.

Definition entry_before (order : Z) (x y : FeeQueueEntry) : bool :=
  compares_by_fee_and_tx_id order
    (qc_fee_level (fe_candidate x)) (qc_tx_id (fe_candidate x))
    (qc_fee_level (fe_candidate y)) (qc_tx_id (fe_candidate y)).

Definition insert_fee_entry (v : QueueViews) (entry : FeeQueueEntry) (order : Z)
    : QueueViews * nat :=
  let insert_index :=
    default (length (fee_order v))
      (fst <$> list_find (fun existing => entry_before order entry existing = true)
                 (fee_order v)) in
  (with_fee_order v (take insert_index (fee_order v) ++ entry :: drop insert_index (fee_order v)),
   insert_index).

Inductive AdvanceTarget :=
| AdvanceEnd
| AdvanceFeeNext (c : QueueAdvanceCandidate)
| AdvanceAccountNext (c : QueueAdvanceCandidate).

Definition choose_next_after_erase (current : QueueAdvanceCandidate)
    (current_is_first_for_account : bool) (account_next fee_next : option QueueAdvanceCandidate)
    (order : Z) : outcome AdvanceTarget :=
  if negb (is_ticket (qc_seq_proxy current) || current_is_first_for_account) then Panic
  else
    let fallback :=
      match fee_next with Some f => AdvanceFeeNext f | None => AdvanceEnd end in
    match account_next with
    | Some a =>
        if ord_ltb (qc_seq_proxy current) (qc_seq_proxy a)
           && match fee_next with
              | None => true
              | Some f => compares_by_fee_and_tx_id order (qc_fee_level a) (qc_tx_id a)
                            (qc_fee_level f) (qc_tx_id f)
              end
        then Ok (AdvanceAccountNext a) else Ok fallback
    | None => Ok fallback
    end.

Inductive QueueViewNext :=
| NextEnd
| NextFee (k : FeeQueueKey)
| NextAccount (k : FeeQueueKey).

Definition erase_and_advance (v : QueueViews) (candidate_index : nat) (order : Z)
    : outcome (QueueViews * FeeQueueKey * QueueViewNext) :=
  current_entry ← expect (fee_order v !! candidate_index);
  let key := fe_key current_entry in
  txq_account ← expect (accounts v !! fk_account key);
  let current_is_first_for_account :=
    match first_key_value (qa_transactions txq_account) with
    | Some (s, _) => bool_decide (s = fk_seq_proxy key)
    | None => false
    end in
  account_next_entry ←
    match head (range_after (fk_seq_proxy key) (qa_transactions txq_account)) with
    | Some (s, _) =>
        e ← expect (snd <$> list_find (fun e => fe_key e = mkKey (fk_account key) s)
                              (fee_order v));
        mret (Some e)
    | None => mret None
    end;
  let fee_next_entry := fee_order v !! S candidate_index in
  target ← choose_next_after_erase (fe_candidate current_entry) current_is_first_for_account
             (fe_candidate <$> account_next_entry) (fe_candidate <$> fee_next_entry) order;
  next ← match target with
         | AdvanceEnd => mret NextEnd
         | AdvanceFeeNext _ => e ← expect fee_next_entry; mret (NextFee (fe_key e))
         | AdvanceAccountNext _ => e ← expect account_next_entry; mret (NextAccount (fe_key e))
         end;
  '(v', removed) ← remove_from_fee_order v candidate_index;
  v'' ← remove_from_account v' removed;
  mret (v'', removed, next).

Definition remove_replaced_candidate (v : QueueViews) (replaced : option FeeQueueKey)
    (expected_account : Z) (expected_seq_proxy : SeqProxy)
    : outcome (QueueViews * option FeeQueueKey) :=
  match replaced with
  | None => Ok (v, None)
  | Some r =>
      delete_index ← expect (find_fee_candidate_index v r);
      if negb (bool_decide (fk_seq_proxy r = expected_seq_proxy)) then Panic
      else if negb (fk_account r =? expected_account) then Panic
      else
        v' ← remove_from_account v r;
        '(v'', removed) ← remove_from_fee_order v' delete_index;
        mret (v'', Some removed)
  end.

Definition cleanup_direct_apply_success (v : QueueViews) (applied_account : Z)
    (applied_seq_proxy : SeqProxy) : outcome (QueueViews * option FeeQueueKey) :=
  let replaced :=
    a ← accounts v !! applied_account;
    _ ← qa_transactions a !! applied_seq_proxy;
    Some (mkKey applied_account applied_seq_proxy) in
  remove_replaced_candidate v replaced applied_account applied_seq_proxy.

(** ** Enqueue and eviction *)

Record QueueApplyEnqueueResult := mkEnqueueResult {
  eq_queued : FeeQueueKey;
  eq_removed_replacement : option FeeQueueKey;
  eq_account_created : bool;
  eq_stored_flags : Z
}.

Definition enqueue_queue_apply_candidate (v : QueueViews) (replaced : option FeeQueueKey)
    (account tx_id : Z) (last_valid : option Z) (s : SeqProxy) (fee_level flags : Z)
    (pf : PreflightResult) (order : Z) : outcome (QueueViews * QueueApplyEnqueueResult) :=
  '(v1, removed_replacement) ← remove_replaced_candidate v replaced account s;
  let '(v2, account_created) :=
    match accounts v1 !! account with
    | Some _ => (v1, false)
    | None => (with_account v1 account (txq_account_new account), true)
    end in
  let stored_flags := Z.land flags (flags_not RETRY) in
  let queued := maybe_tx_new tx_id fee_level account last_valid s stored_flags pf in
  let consequences := pf_consequences (mt_pf_result queued) in
  a ← expect (accounts v2 !! account);
  a' ← account_add a s (mkCore queued consequences);
  let v3 := with_account v2 account a' in
  let queued_key := mkKey account s in
  let '(v4, _) := insert_fee_entry v3 (mkEntry queued_key (mkCandidate fee_level tx_id s)) order in
  mret (v4, mkEnqueueResult queued_key removed_replacement account_created stored_flags).

Inductive QueueApplyFullQueueDecision :=
| FqBypass
| RejectFullSameAccount
| RejectFullLowerFee (end_effective_fee_level : Z)
| EvictCheapest (dropped : FeeQueueKey) (end_effective_fee_level : Z).

Definition fq_rejects_full (d : QueueApplyFullQueueDecision) : bool :=
  match d with
  | RejectFullSameAccount | RejectFullLowerFee _ => true
  | FqBypass | EvictCheapest _ _ => false
  end.

Definition apply_queue_apply_full_queue_decision (v : QueueViews) (d : QueueApplyFullQueueDecision)
    : outcome (QueueViews * QueueApplyFullQueueDecision) :=
  match d with
  | EvictCheapest dropped _ =>
      '(v', removed) ← remove_fee_candidate_by_key v dropped;
      if bool_decide (removed = dropped) then mret (v', d) else Panic
  | _ => mret (v, d)
  end.

(** The average level of the account's transactions, summed as quotients and
    remainders. *)
Fixpoint sum_levels (count total_div total_mod : Z) (levels : list Z) : Z :=
  match levels with
  | [] => total_div + total_mod / count
  | fee_level :: rest =>
      let next_div := fee_level / count in
      let next_mod := fee_level mod count in
      if (u64_max - next_div <=? total_div) || (u64_max - next_mod <=? total_mod) then u64_max
      else sum_levels count (total_div + next_div) (total_mod + next_mod) rest
  end.

Definition account_levels (a : TxQAccount) : list Z :=
  (fun e => mt_fee_level (core_payload e.2)) <$> btree_iter (qa_transactions a).

Definition compute_end_effective_fee_level (end_tail_fee_level candidate_fee_level : Z)
    (end_account : TxQAccount) : Z :=
  if (candidate_fee_level <? end_tail_fee_level)
     || Nat.eqb (size (qa_transactions end_account)) 1
  then end_tail_fee_level
  else sum_levels (Z.of_nat (size (qa_transactions end_account))) 0 0 (account_levels end_account).

Definition evaluate_queue_apply_full_queue (replaces_existing queue_is_full : bool)
    (candidate_account candidate_fee_level : Z) (v : QueueViews)
    : outcome QueueApplyFullQueueDecision :=
  if replaces_existing || negb queue_is_full then Ok FqBypass
  else
    match list_find (fun e => fk_account (fe_key e) <> candidate_account) (rev (fee_order v)) with
    | None => Ok RejectFullSameAccount
    | Some (_, last_other_account) =>
        end_account ← expect (accounts v !! fk_account (fe_key last_other_account));
        let end_effective_fee_level :=
          compute_end_effective_fee_level (qc_fee_level (fe_candidate last_other_account))
            candidate_fee_level end_account in
        if candidate_fee_level <=? end_effective_fee_level
        then Ok (RejectFullLowerFee end_effective_fee_level)
        else
          '(s, _) ← expect (last_key_value (qa_transactions end_account));
          mret (EvictCheapest (mkKey (fk_account (fe_key last_other_account)) s)
                  end_effective_fee_level)
    end.

(** ** Erasure of a range of an account, and of one candidate of plain keys *)

Record EraseRangeResult := mkEraseRange {
  er_removed_seq_proxies : list SeqProxy;
  er_next_seq_proxy : option SeqProxy
}.

Definition erase_account_range (a : TxQAccount) (begin : SeqProxy)
    (end_exclusive : option SeqProxy) : outcome (TxQAccount * EraseRangeResult) :=
  let removed := fst <$>
    take_while (fun e : SeqProxy * MaybeTxCore =>
                  match end_exclusive with Some e' => ord_ltb e.1 e' | None => true end)
      (range_from begin (qa_transactions a)) in
  a' ← foldM (fun a s => let '(a', found) := account_remove a s in
                         if found then Ok a' else Panic) a removed;
  mret (a', mkEraseRange removed (fst <$> head (range_from begin (qa_transactions a')))).

Definition erase_fee_candidate (accts : gmap Z TxQAccount) (order : list FeeQueueKey)
    (candidate_index : nat)
    : outcome (gmap Z TxQAccount * list FeeQueueKey * FeeQueueKey * option FeeQueueKey) :=
  removed ← expect (order !! candidate_index);
  a ← expect (accts !! fk_account removed);
  let order' := delete candidate_index order in
  let '(a', found) := account_remove a (fk_seq_proxy removed) in
  if negb found then Panic
  else Ok (<[fk_account removed := a']> accts, order', removed, order' !! candidate_index).

(** ** Closed ledgers *)

Record ClosedLedgerCandidate := mkClosedCandidate {
  cc_account : Z;
  cc_seq_proxy : SeqProxy;
  cc_last_valid : option Z
}.

Record ClosedLedgerMaintenance := mkMaintenance {
  cm_next_max_size : Z;
  cm_expired_candidates : list ClosedLedgerCandidate;
  cm_emptied_accounts : list Z
}.

Definition candidate_expired (ledger_seq : Z) (c : ClosedLedgerCandidate) : bool :=
  match cc_last_valid c with
  | None => false
  | Some last_valid => negb (ledger_seq <? last_valid)
  end.

Definition expire_candidate (ledger_seq : Z)
    (st : gmap Z TxQAccount * list ClosedLedgerCandidate) (c : ClosedLedgerCandidate)
    : outcome (gmap Z TxQAccount * list ClosedLedgerCandidate) :=
  let '(accts, expired) := st in
  if negb (candidate_expired ledger_seq c) then Ok st
  else
    a ← expect (accts !! cc_account c);
    if negb (qa_account a =? cc_account c) then Panic
    else
      let a1 := mkTxQAccount (qa_account a) (qa_transactions a) (qa_retry_penalty a) true in
      let '(a2, found) := account_remove a1 (cc_seq_proxy c) in
      if negb found then Panic
      else Ok (<[cc_account c := a2]> accts, expired ++ [c]).

Definition is_emptied (a : TxQAccount) : bool := bool_decide (qa_transactions a = ∅).

Definition emptied_accounts (accts : gmap Z TxQAccount) : list Z :=
  fst <$> filter (fun e => is_emptied e.2 = true) (btree_iter accts).

Definition process_closed_ledger (accts : gmap Z TxQAccount)
    (by_fee_candidates : list ClosedLedgerCandidate) (ledger_seq current_max_size : Z)
    (time_leap : bool) (txns_expected ledgers_in_queue queue_size_min : Z)
    : outcome (gmap Z TxQAccount * ClosedLedgerMaintenance) :=
  let next_max_size :=
    if time_leap then current_max_size
    else Z.max (wrap_u64 (txns_expected * ledgers_in_queue)) queue_size_min in
  '(accts', expired) ← foldM (expire_candidate ledger_seq) (accts, []) by_fee_candidates;
  let emptied := emptied_accounts accts' in
  accts'' ← foldM (fun m k => match m !! k with Some _ => Ok (delete k m) | None => Panic end)
              accts' emptied;
  mret (accts'', mkMaintenance next_max_size expired emptied).

(** ** Rebuilding the fee order *)

Definition entry_of (account : Z) (s : SeqProxy) (core : MaybeTxCore) : FeeQueueEntry :=
  mkEntry (mkKey account s)
    (mkCandidate (mt_fee_level (core_payload core)) (mt_tx_id (core_payload core)) s).

Definition account_entries (account : Z) (a : TxQAccount) : list FeeQueueEntry :=
  (fun e => entry_of account e.1 e.2) <$> btree_iter (qa_transactions a).

Record QueueAcceptRebuildResult := mkRebuild {
  rb_parent_hash_unchanged : bool;
  rb_next_order : Z;
  rb_starting_size : nat;
  rb_rebuilt_size : nat
}.

Definition rebuild_queue_accept_fee_order (v : QueueViews) (previous next : Z)
    : outcome (QueueViews * QueueAcceptRebuildResult) :=
  rebuilt_entries ←
    foldM (fun acc e => let '(account_key, account_queue) := e in
                        if negb (qa_account account_queue =? account_key) then Panic
                        else Ok (acc ++ account_entries account_key account_queue))
      [] (btree_iter (accounts v));
  let v' := foldl (fun v e => (insert_fee_entry v e next).1) (with_fee_order v [])
              rebuilt_entries in
  if negb (Nat.eqb (length (fee_order v')) (length (fee_order v))) then Panic
  else Ok (v', mkRebuild (previous =? next) next (length (fee_order v)) (length (fee_order v'))).
End Views.
