(* ===== verification/TxQInv.v ===== *)
(** * Transaction queue: the two views describe one queue

    [views_ok]: the fee-ordered vector lists exactly the queued transactions, each
    once and with the fee level and hash of its entry in the account map;
    [fee_sorted]: it lists them in fee order. Every mutation of the views is shown
    to be one of two abstract ones, [erase_key] and an insertion, which keep both. *)

From S2P Require Import Prelude BTree TxQTypes TxQViews.

Section Inv.
Context `{!TxQTypes}.
Implicit Types (v : QueueViews) (k : FeeQueueKey) (core : MaybeTxCore) (order : Z).

(** The queue as a map. *)
Definition queue_lookup v k : option MaybeTxCore :=
  a ← accounts v !! fk_account k; qa_transactions a !! fk_seq_proxy k.

Definition key_entry k core : FeeQueueEntry := entry_of (fk_account k) (fk_seq_proxy k) core.

(** The payload names the account and the sequence it is filed under. *)
Definition core_names k core : Prop :=
  mt_account (core_payload core) = fk_account k /\ mt_seq_proxy (core_payload core) = fk_seq_proxy k.

Record views_ok v : Prop := {
  vo_nodup : NoDup (fe_key <$> fee_order v);
  vo_entries : forall e, e ∈ fee_order v <->
    exists core, queue_lookup v (fe_key e) = Some core /\ e = key_entry (fe_key e) core;
  vo_accounts : forall n a, accounts v !! n = Some a -> qa_account a = n;
  vo_payload : forall k core, queue_lookup v k = Some core -> core_names k core
}.

Definition fee_sorted order v : Prop :=
  StronglySorted (fun x y => entry_before order y x = false) (fee_order v).

Lemma views_empty_ok : views_ok views_empty.
Proof.
  assert (forall k, queue_lookup views_empty k = None) as Hnone by done.
  constructor; [constructor| |done|intros k core; by rewrite Hnone].
  intros e. split; [by intros ?%elem_of_nil|]. intros (core & E & _). by rewrite Hnone in E.
Qed.

Lemma views_empty_sorted order : fee_sorted order views_empty.
Proof. constructor. Qed.

(** The views only matter through the fee order, the queue and the names. *)
Lemma views_ok_same v v' :
  views_ok v -> fee_order v' = fee_order v ->
  (forall k, queue_lookup v' k = queue_lookup v k) ->
  (forall n a, accounts v' !! n = Some a -> qa_account a = n) -> views_ok v'.
Proof.
  intros [H1 H2 _ H4] Ef Eq Hn. constructor; rewrite ?Ef; [done| |done|].
  - intros e. rewrite H2. by setoid_rewrite Eq.
  - intros k core. rewrite Eq. apply H4.
Qed.

Lemma queued_entry v k core :
  views_ok v -> queue_lookup v k = Some core -> key_entry k core ∈ fee_order v.
Proof. intros Hv Hk. apply (vo_entries _ Hv). by exists core; destruct k. Qed.

Lemma entry_queued v e :
  views_ok v -> e ∈ fee_order v ->
  exists core, queue_lookup v (fe_key e) = Some core /\ e = key_entry (fe_key e) core.
Proof. intros Hv He. by apply (vo_entries _ Hv). Qed.

Lemma queue_lookup_account v k core :
  queue_lookup v k = Some core ->
  exists a, accounts v !! fk_account k = Some a /\ qa_transactions a !! fk_seq_proxy k = Some core.
Proof.
  unfold queue_lookup. destruct (accounts v !! fk_account k) as [a|]; simpl; [eauto|done].
Qed.

Lemma find_index_spec v k core :
  views_ok v -> queue_lookup v k = Some core ->
  exists i, find_fee_candidate_index v k = Some i /\ fee_order v !! i = Some (key_entry k core).
Proof.
  intros Hv Hk. pose proof (queued_entry v k core Hv Hk) as Hin. unfold find_fee_candidate_index.
  destruct (list_find _ (fee_order v)) as [[i e]|] eqn:E; simpl.
  - exists i. split; [done|]. apply list_find_Some in E as (Hi & Hke & _).
    destruct (entry_queued v e Hv (list_elem_of_lookup_2 _ _ _ Hi)) as (c' & Hc' & He).
    rewrite Hke in Hc', He. rewrite Hk in Hc'. injection Hc' as <-. by rewrite He in Hi.
  - apply list_find_None in E. rewrite Forall_forall in E. by destruct (E _ Hin); destruct k.
Qed.

Lemma delete_NoDup_filter {A B} `{EqDecision B} (f : A -> B) (l : list A) i x :
  NoDup (f <$> l) -> l !! i = Some x -> delete i l = filter (fun y => f y <> f x) l.
Proof.
  revert i. induction l as [|y l IH]; intros i; [done|]. rewrite fmap_cons.
  intros [Hn Hd]%NoDup_cons. destruct i as [|i]; cbn [lookup list_lookup].
  - intros [= ->]. rewrite filter_cons_False by naive_solver.
    change (delete 0%nat (x :: l)) with l. symmetry. apply filter_all.
    intros z Hz Ez. apply Hn. rewrite <- Ez. by apply list_elem_of_fmap_2.
  - intros Hi. change (delete (S i) (y :: l)) with (y :: delete i l).
    rewrite filter_cons_True.
    + by rewrite (IH i).
    + intros Ey. apply Hn. rewrite Ey. apply list_elem_of_fmap_2.
      by eapply list_elem_of_lookup_2.
Qed.

Lemma NoDup_fmap_filter {A B} (f : A -> B) (P : A -> Prop) `{!forall x, Decision (P x)}
    (l : list A) : NoDup (f <$> l) -> NoDup (f <$> filter P l).
Proof.
  induction l as [|x l IH]; [done|]. rewrite fmap_cons. intros [Hn Hd]%NoDup_cons.
  rewrite filter_cons. case_decide; [|by apply IH]. rewrite fmap_cons. constructor; [|by apply IH].
  intros (y & Ey & [_ Hy]%list_elem_of_filter)%list_elem_of_fmap. apply Hn. rewrite Ey.
  by apply list_elem_of_fmap_2.
Qed.

(** ** Erasing a key *)

Definition erase_key v k : QueueViews :=
  mkViews (filter (fun e => fe_key e <> k) (fee_order v))
    (alter (fun a => (account_remove a (fk_seq_proxy k)).1) (fk_account k) (accounts v)).

Lemma queue_lookup_erase v k k' :
  queue_lookup (erase_key v k) k' = if decide (k' = k) then None else queue_lookup v k'.
Proof.
  unfold queue_lookup, erase_key. cbn [accounts]. destruct k as [n s], k' as [n' s'].
  cbn [fk_account fk_seq_proxy]. destruct (decide (n' = n)) as [->|Hn].
  - rewrite lookup_alter_eq. destruct (accounts v !! n) as [a|]; cbn [mbind option_bind fmap option_fmap option_map];
      [|by case_decide]. cbn [account_remove fst with_transactions qa_transactions].
    destruct (decide (s' = s)) as [->|Hs].
    + rewrite lookup_delete_eq. by rewrite decide_True.
    + rewrite lookup_delete_ne by done. rewrite decide_False by congruence. done.
  - rewrite lookup_alter_ne by done. rewrite decide_False by congruence. done.
Qed.

Lemma erase_key_accounts v k :
  (forall n a, accounts v !! n = Some a -> qa_account a = n) ->
  forall n a, accounts (erase_key v k) !! n = Some a -> qa_account a = n.
Proof.
  intros Hname n a. unfold erase_key. cbn [accounts]. destruct (decide (n = fk_account k)) as [->|Hn].
  - rewrite lookup_alter_eq. destruct (accounts v !! fk_account k) as [b|] eqn:E; [|done].
    simpl. intros [= <-]. simpl. by apply Hname.
  - rewrite lookup_alter_ne by done. apply Hname.
Qed.

Lemma erase_key_ok v k : views_ok v -> views_ok (erase_key v k).
Proof.
  intros Hv. constructor.
  - cbn [erase_key fee_order]. by apply NoDup_fmap_filter, (vo_nodup _ Hv).
  - intros e. cbn [erase_key fee_order]. rewrite list_elem_of_filter, (vo_entries _ Hv), queue_lookup_erase.
    case_decide; naive_solver.
  - apply erase_key_accounts, (vo_accounts _ Hv).
  - intros k' core. rewrite queue_lookup_erase. case_decide; [done|]. apply (vo_payload _ Hv).
Qed.

Lemma erase_key_sorted order v k : fee_sorted order v -> fee_sorted order (erase_key v k).
Proof. apply StronglySorted_filter. Qed.

Lemma filter_length_delete v k core :
  views_ok v -> queue_lookup v k = Some core ->
  length (fee_order v) = S (length (fee_order (erase_key v k))).
Proof.
  intros Hv Hk. destruct (find_index_spec v k core Hv Hk) as (i & _ & Hi).
  destruct k as [n s].
  pose proof (delete_NoDup_filter fe_key (fee_order v) i _ (vo_nodup _ Hv) Hi) as E.
  cbn [erase_key fee_order]. unfold key_entry, entry_of in E. cbn [fe_key fk_account fk_seq_proxy] in E.
  rewrite <- E, length_delete by eauto. apply lookup_lt_Some in Hi. lia.
Qed.

Lemma alter_lookup {V} (f : V -> V) (n : Z) (m : gmap Z V) x :
  m !! n = Some x -> alter f n m = <[n := f x]> m.
Proof.
  intros E. apply map_eq. intros j. destruct (decide (j = n)) as [->|Hj].
  - by rewrite lookup_alter_eq, lookup_insert_eq, E.
  - by rewrite lookup_alter_ne, lookup_insert_ne by done.
Qed.

(** The source's two-step removals, in either order, are [erase_key]. *)
Lemma remove_from_account_eq v k core :
  queue_lookup v k = Some core ->
  remove_from_account v k = Ok (mkViews (fee_order v) (accounts (erase_key v k))).
Proof.
  intros Hk. destruct (queue_lookup_account v k core Hk) as (a & Ea & Et).
  unfold remove_from_account. rewrite Ea. cbn [expect mbind outcome_bind account_remove].
  rewrite bool_decide_eq_true_2 by eauto. cbn [negb]. unfold with_account, erase_key.
  cbn [accounts fee_order]. by rewrite (alter_lookup _ _ _ a Ea).
Qed.

Lemma remove_from_fee_order_eq v i e :
  NoDup (fe_key <$> fee_order v) -> fee_order v !! i = Some e ->
  remove_from_fee_order v i
  = Ok (mkViews (fee_order (erase_key v (fe_key e))) (accounts v), fe_key e).
Proof.
  intros Hd Hi. unfold remove_from_fee_order. rewrite Hi.
  cbn [expect mbind outcome_bind mret outcome_ret].
  unfold with_fee_order. by rewrite (delete_NoDup_filter fe_key _ i e).
Qed.

Lemma remove_by_key_eq v k core :
  views_ok v -> queue_lookup v k = Some core ->
  remove_fee_candidate_by_key v k = Ok (erase_key v k, k).
Proof.
  intros Hv Hk. destruct (find_index_spec v k core Hv Hk) as (i & Ei & Hi).
  unfold remove_fee_candidate_by_key. rewrite Ei. cbn [expect mbind outcome_bind].
  rewrite (remove_from_account_eq v k core Hk). cbn [mbind outcome_bind].
  rewrite (remove_from_fee_order_eq _ i (key_entry k core)) by (try apply Hv; done).
  by destruct k.
Qed.

Lemma remove_replaced_eq v k core :
  views_ok v -> queue_lookup v k = Some core ->
  remove_replaced_candidate v (Some k) (fk_account k) (fk_seq_proxy k)
  = Ok (erase_key v k, Some k).
Proof.
  intros Hv Hk. destruct (find_index_spec v k core Hv Hk) as (i & Ei & Hi).
  unfold remove_replaced_candidate. rewrite Ei. cbn [expect mbind outcome_bind].
  rewrite bool_decide_eq_true_2, Z.eqb_refl by done. cbn [negb].
  rewrite (remove_from_account_eq v k core Hk). cbn [mbind outcome_bind].
  rewrite (remove_from_fee_order_eq _ i (key_entry k core)) by (try apply Hv; done).
  by destruct k.
Qed.

(** Removing the entry an account has for a sequence, if it has one. *)
Definition erase_if_queued v k : QueueViews :=
  match queue_lookup v k with Some _ => erase_key v k | None => v end.

Lemma erase_if_queued_ok v k : views_ok v -> views_ok (erase_if_queued v k).
Proof. unfold erase_if_queued. destruct (queue_lookup v k); [apply erase_key_ok | done]. Qed.

Lemma erase_if_queued_sorted order v k : fee_sorted order v -> fee_sorted order (erase_if_queued v k).
Proof. unfold erase_if_queued. destruct (queue_lookup v k); [apply erase_key_sorted | done]. Qed.

Lemma queue_lookup_erase_if v k k' :
  queue_lookup (erase_if_queued v k) k' = if decide (k' = k) then None else queue_lookup v k'.
Proof.
  unfold erase_if_queued. destruct (queue_lookup v k) eqn:E; [apply queue_lookup_erase|].
  by case_decide; subst.
Qed.

Lemma cleanup_direct_eq v account s :
  views_ok v ->
  cleanup_direct_apply_success v account s
  = Ok (erase_if_queued v (mkKey account s), (fun _ => mkKey account s) <$> queue_lookup v (mkKey account s)).
Proof.
  intros Hv. unfold cleanup_direct_apply_success, erase_if_queued.
  destruct (queue_lookup v (mkKey account s)) as [core|] eqn:E.
  - pose proof E as (a & Ea & Et)%queue_lookup_account. cbn [fk_account fk_seq_proxy] in *.
    rewrite Ea. cbn [mbind option_bind]. rewrite Et. cbn [mbind option_bind].
    apply (remove_replaced_eq v (mkKey account s) core Hv E).
  - unfold queue_lookup in E. cbn [fk_account fk_seq_proxy] in E.
    destruct (accounts v !! account) as [a|]; cbn [mbind option_bind] in *; [|done].
    rewrite E. done.
Qed.

(** ** The fee order is a strict weak order *)

Definition entry_rank order (e : FeeQueueEntry) : Z * Z :=
  (- qc_fee_level (fe_candidate e), Z.lxor (qc_tx_id (fe_candidate e)) order).

Lemma entry_before_rank order x y :
  entry_before order x y = ord_ltb (entry_rank order x) (entry_rank order y).
Proof.
  unfold entry_before, compares_by_fee_and_tx_id, entry_rank, ord_ltb, pair_ord, ord_ltb, Z_ord.
  cbn [fst snd]. destruct (Z.eqb_spec (qc_fee_level (fe_candidate x)) (qc_fee_level (fe_candidate y)))
    as [E|E].
  - rewrite E, Z.ltb_irrefl. done.
  - destruct (Z.ltb_spec (qc_fee_level (fe_candidate y)) (qc_fee_level (fe_candidate x)));
      destruct (Z.ltb_spec (- qc_fee_level (fe_candidate x)) (- qc_fee_level (fe_candidate y)));
      destruct (Z.ltb_spec (- qc_fee_level (fe_candidate y)) (- qc_fee_level (fe_candidate x)));
      simpl; done || lia.
Qed.

Lemma entry_before_asym order x y : entry_before order x y = true -> entry_before order y x = false.
Proof. rewrite !entry_before_rank. apply ord_ltb_asym. Qed.

Lemma entry_before_not_trans order x y z :
  entry_before order y x = false -> entry_before order z y = false -> entry_before order z x = false.
Proof.
  rewrite !entry_before_rank. intros Hyx Hzy.
  pose proof (ord_leb_trans (entry_rank order x) (entry_rank order y) (entry_rank order z)) as T.
  unfold ord_leb in T. rewrite Hyx, Hzy in T. specialize (T eq_refl eq_refl).
  by apply negb_true_iff in T.
Qed.

(** ** Inserting an entry *)

Lemma insert_fee_entry_split v e order :
  exists l1 l2, fee_order v = l1 ++ l2
    /\ (insert_fee_entry v e order).1 = with_fee_order v (l1 ++ e :: l2)
    /\ (forall x, x ∈ l1 -> entry_before order e x = false)
    /\ (forall y, head l2 = Some y -> entry_before order e y = true).
Proof.
  unfold insert_fee_entry. destruct (list_find _ (fee_order v)) as [[i y]|] eqn:E; cbn [fmap option_fmap option_map default fst].
  - apply list_find_Some in E as (Hi & Hy & Hbefore).
    exists (take i (fee_order v)), (drop i (fee_order v)).
    split; [by rewrite take_drop|]. split; [done|]. split.
    + intros x (j & Hj)%list_elem_of_lookup. apply lookup_take_Some in Hj as [Hj Hlt].
      specialize (Hbefore j x Hj Hlt). by destruct (entry_before order e x).
    + intros y'. rewrite (drop_S _ y i Hi). simpl. by intros [= <-].
  - apply list_find_None in E. exists (fee_order v), [].
    split; [by rewrite app_nil_r|]. rewrite take_ge, drop_ge by lia. split; [done|].
    split; [|done]. intros x Hx. rewrite Forall_forall in E. specialize (E x Hx).
    by destruct (entry_before order e x).
Qed.

Lemma insert_fee_entry_perm v e order :
  fee_order (insert_fee_entry v e order).1 ≡ₚ e :: fee_order v
  /\ accounts (insert_fee_entry v e order).1 = accounts v.
Proof.
  destruct (insert_fee_entry_split v e order) as (l1 & l2 & El & -> & _ & _).
  simpl. rewrite El. split; [|done]. by rewrite Permutation_middle.
Qed.

Lemma insert_fee_entry_sorted v e order :
  fee_sorted order v -> fee_sorted order (insert_fee_entry v e order).1.
Proof.
  intros S. destruct (insert_fee_entry_split v e order) as (l1 & l2 & El & -> & H1 & H2).
  unfold fee_sorted in *. simpl. rewrite El in S. clear El.
  induction l1 as [|x l1 IH]; simpl in *.
  - constructor; [done|]. destruct l2 as [|y l2]; [constructor|].
    specialize (H2 y eq_refl). inversion S as [|? ? _ Hy]; subst.
    constructor; [by apply entry_before_asym|]. rewrite Forall_forall in *.
    intros z Hz. apply (entry_before_not_trans order e y z); [|by apply Hy].
    by apply entry_before_asym.
  - inversion S as [|? ? S' Hx]; subst. constructor.
    + apply IH; [done|]. intros. apply H1. by right.
    + rewrite Forall_app in *. destruct Hx as [Hx1 Hx2]. split; [done|].
      constructor; [apply H1; left | done].
Qed.

(** ** Enqueueing *)

Lemma with_account_lookup v n a k :
  queue_lookup (with_account v n a) k
  = if decide (fk_account k = n) then qa_transactions a !! fk_seq_proxy k else queue_lookup v k.
Proof.
  unfold queue_lookup, with_account. cbn [accounts]. case_decide as E.
  - by rewrite E, lookup_insert_eq.
  - by rewrite lookup_insert_ne.
Qed.

(** Adding one entry to both views. *)
Definition adds v v' k core : Prop :=
  fee_order v' ≡ₚ key_entry k core :: fee_order v
  /\ (forall k', queue_lookup v' k' = if decide (k' = k) then Some core else queue_lookup v k')
  /\ (forall n a, accounts v' !! n = Some a -> qa_account a = n).

Lemma adds_ok v v' k core :
  views_ok v -> queue_lookup v k = None -> core_names k core -> adds v v' k core -> views_ok v'.
Proof.
  intros Hv Hnone Hc (Hp & Hq & Hn). constructor; [| |done|].
  - rewrite Hp, fmap_cons. constructor; [|apply Hv].
    intros (e & Ee & He)%list_elem_of_fmap. destruct (entry_queued v e Hv He) as (c & Hcq & _).
    assert (fe_key e = k) as Ek by (rewrite <- Ee; by destruct k). by rewrite Ek, Hnone in Hcq.
  - intros e. rewrite Hp, elem_of_cons, (vo_entries _ Hv), Hq. split.
    + intros [->|(c & Hcq & He)].
      * exists core. rewrite decide_True by by destruct k. by destruct k.
      * exists c. split; [|done]. rewrite decide_False; [done|]. intros Ek.
        by rewrite Ek, Hnone in Hcq.
    + intros (c & Hcq & He). case_decide as Ek; [|right; eauto].
      injection Hcq as <-. left. by rewrite He, Ek.
  - intros k' c'. rewrite Hq. case_decide as Ek; [|apply (vo_payload _ Hv)].
    intros [= <-]. by rewrite Ek.
Qed.

Definition queued_core (account tx_id : Z) (last_valid : option Z) (s : SeqProxy)
    (fee_level flags : Z) (pf : PreflightResult) : MaybeTxCore :=
  mkCore (maybe_tx_new tx_id fee_level account last_valid s (Z.land flags (flags_not RETRY)) pf)
    (pf_consequences pf).

(** The account map after an entry is added to an existing or a new account. *)
Definition account_or_new v (n : Z) : TxQAccount :=
  match accounts v !! n with Some a => a | None => txq_account_new n end.

Lemma account_or_new_spec v k :
  views_ok v -> queue_lookup v k = None ->
  qa_transactions (account_or_new v (fk_account k)) !! fk_seq_proxy k = None
  /\ qa_account (account_or_new v (fk_account k)) = fk_account k.
Proof.
  intros Hv Hnone. unfold account_or_new, queue_lookup in *.
  destruct (accounts v !! fk_account k) as [a|] eqn:Ea; simpl in *; [|done].
  split; [done | by apply (vo_accounts _ Hv)].
Qed.

Definition insert_core v k core order : QueueViews :=
  let a := account_or_new v (fk_account k) in
  (insert_fee_entry
     (with_account v (fk_account k)
        (with_transactions a (<[fk_seq_proxy k := core]> (qa_transactions a))))
     (key_entry k core) order).1.

Lemma insert_core_adds v k core order :
  views_ok v -> queue_lookup v k = None ->
  adds v (insert_core v k core order) k core
  /\ (fee_sorted order v -> fee_sorted order (insert_core v k core order)).
Proof.
  intros Hv Hnone. destruct (account_or_new_spec v k Hv Hnone) as [_ Hname].
  unfold insert_core. set (a := account_or_new v (fk_account k)) in *.
  set (v3 := with_account v _ _).
  destruct (insert_fee_entry_perm v3 (key_entry k core) order) as [Hp Hacc].
  split; [split_and!; [done| |]|].
  - intros k'. transitivity (queue_lookup v3 k'); [unfold queue_lookup; by rewrite Hacc|].
    unfold v3. rewrite with_account_lookup. cbn [qa_transactions with_transactions].
    case_decide as En; [|by rewrite decide_False by (intros ->; done)].
    destruct (decide (k' = k)) as [->|Hk']; [by rewrite lookup_insert_eq|].
    rewrite lookup_insert_ne
      by (intros Es; apply Hk'; destruct k, k'; simpl in *; congruence).
    unfold queue_lookup. rewrite En. subst a. unfold account_or_new.
    by destruct (accounts v !! fk_account k).
  - rewrite Hacc. unfold v3. cbn [accounts with_account]. intros n b.
    destruct (decide (n = fk_account k)) as [->|Hn].
    + rewrite lookup_insert_eq. by intros [= <-].
    + rewrite lookup_insert_ne by done. apply (vo_accounts _ Hv).
  - intros S. apply insert_fee_entry_sorted. unfold fee_sorted, v3. by cbn [fee_order with_account].
Qed.

(** Enqueueing replaces what the account had queued for the sequence, which the
    caller must name exactly when there is such an entry. *)
Lemma enqueue_spec v replaced account tx_id last_valid s fee_level flags pf order :
  views_ok v ->
  replaced = (fun _ => mkKey account s) <$> queue_lookup v (mkKey account s) ->
  exists created,
    enqueue_queue_apply_candidate v replaced account tx_id last_valid s fee_level flags pf order
      = Ok (insert_core (erase_if_queued v (mkKey account s)) (mkKey account s)
              (queued_core account tx_id last_valid s fee_level flags pf) order,
            mkEnqueueResult (mkKey account s) replaced created (Z.land flags (flags_not RETRY))).
Proof.
  intros Hv Hr. set (k := mkKey account s) in *. set (v1 := erase_if_queued v k).
  assert (remove_replaced_candidate v replaced account s = Ok (v1, replaced)) as E1.
  { subst v1. unfold erase_if_queued. destruct (queue_lookup v k) as [c|] eqn:E; rewrite Hr; [|done].
    apply (remove_replaced_eq v k c Hv E). }
  assert (views_ok v1) as Hv1 by by apply erase_if_queued_ok.
  assert (queue_lookup v1 k = None) as Hnone
    by (subst v1; by rewrite queue_lookup_erase_if, decide_True).
  destruct (account_or_new_spec v1 k Hv1 Hnone) as [Ha _].
  unfold enqueue_queue_apply_candidate. rewrite E1. cbn [mbind outcome_bind].
  exists (match accounts v1 !! account with Some _ => false | None => true end).
  unfold insert_core, account_or_new, account_add, key_entry, entry_of in *.
  cbn [core_payload queued_core mt_fee_level mt_tx_id maybe_tx_new fk_account fk_seq_proxy k] in *.
  destruct (accounts v1 !! account) as [a|] eqn:Ea.
  - rewrite Ea. cbn [expect mbind outcome_bind]. rewrite Ha. cbn [mbind outcome_bind].
    by destruct (insert_fee_entry _ _ order).
  - cbn [accounts with_account]. rewrite lookup_insert_eq. cbn [expect mbind outcome_bind].
    rewrite Ha. cbn [mbind outcome_bind]. unfold with_account. cbn [fee_order accounts].
    rewrite insert_insert_eq. by destruct (insert_fee_entry _ _ order).
Qed.
End Inv.
