(* ===== verification/TxQOps.v ===== *)
(** * Transaction queue: what each mutation of the views does

    [erase_and_advance], the full-queue eviction, the expiry at a closed ledger and
    the rebuild of the fee order, on synchronised views. *)

From S2P Require Import Prelude BTree TxQTypes TxQMetrics TxQViews TxQInv.

Section Ops.
Context `{!TxQTypes}.
Implicit Types (v : QueueViews) (k : FeeQueueKey) (core : MaybeTxCore) (order : Z).

(** ** [erase_and_advance] *)

(** A candidate may be tried when it is a ticket or its account's first. *)
Definition account_front v k : Prop :=
  forall k', fk_account k' = fk_account k -> is_Some (queue_lookup v k') ->
  ord_leb (fk_seq_proxy k) (fk_seq_proxy k') = true.

Definition front_or_ticket v k : Prop :=
  is_ticket (fk_seq_proxy k) = true \/ account_front v k.

Lemma account_front_first v k a core :
  accounts v !! fk_account k = Some a -> qa_transactions a !! fk_seq_proxy k = Some core ->
  account_front v k <-> first_key_value (qa_transactions a) = Some (fk_seq_proxy k, core).
Proof.
  intros Ea Et. split.
  - intros Hf. destruct (first_key_value_is_Some _ _ _ Et) as [[s c] Es].
    rewrite Es. destruct (first_key_value_spec _ _ _ Es) as [Hs Hmin].
    assert (ord_leb (fk_seq_proxy k) s = true) as Hle.
    { apply (Hf (mkKey (fk_account k) s)); [done|]. unfold queue_lookup. simpl. rewrite Ea. eauto. }
    assert (s = fk_seq_proxy k) as ->; [|congruence].
    apply ord_leb_cases in Hle as [->|Hlt]; [done|].
    destruct (proj1 (ord_leb_cases _ _) (Hmin _ _ Et)) as [->|Hlt2]; [done|].
    by rewrite (ord_ltb_asym _ _ Hlt) in Hlt2.
  - intros Es k' En [c' Hc']. destruct (first_key_value_spec _ _ _ Es) as [_ Hmin].
    unfold queue_lookup in Hc'. rewrite En, Ea in Hc'. by apply (Hmin _ c').
Qed.

(** The account's transaction after [k]. *)
Definition account_next v k : option FeeQueueKey :=
  a ← accounts v !! fk_account k;
  '(s, _) ← head (range_after (fk_seq_proxy k) (qa_transactions a));
  Some (mkKey (fk_account k) s).

Lemma account_next_spec v k k' :
  account_next v k = Some k' ->
  fk_account k' = fk_account k /\ ord_ltb (fk_seq_proxy k) (fk_seq_proxy k') = true
  /\ is_Some (queue_lookup v k')
  /\ forall x, fk_account x = fk_account k -> is_Some (queue_lookup v x) ->
       ord_ltb (fk_seq_proxy k) (fk_seq_proxy x) = true ->
       ord_leb (fk_seq_proxy k') (fk_seq_proxy x) = true.
Proof.
  unfold account_next. destruct (accounts v !! fk_account k) as [a|] eqn:Ea; [|done]. simpl.
  destruct (head _) as [[s c]|] eqn:Es; [|done]. simpl. intros [= <-]. simpl.
  destruct (key_sorted_head (range_after (fk_seq_proxy k) (qa_transactions a)) (s, c)) as [Hin Hmin];
    [apply key_sorted_filter, btree_iter_sorted | done |].
  apply elem_of_range_after in Hin as [Hs Hlt].
  split_and!; [done|done|unfold queue_lookup; simpl; rewrite Ea; eauto|].
  intros x Ex [cx Hcx] Hx. apply (Hmin (fk_seq_proxy x, cx)).
  apply elem_of_range_after. unfold queue_lookup in Hcx. by rewrite Ex, Ea in Hcx.
Qed.

Lemma account_next_None v k x :
  account_next v k = None -> fk_account x = fk_account k -> is_Some (queue_lookup v x) ->
  ord_ltb (fk_seq_proxy k) (fk_seq_proxy x) = false.
Proof.
  unfold account_next, queue_lookup. intros En -> [cx Hcx].
  destruct (accounts v !! fk_account k) as [a|]; [|done]. simpl in *.
  destruct (head _) as [[s c]|] eqn:Es; [done|].
  destruct (ord_ltb (fk_seq_proxy k) (fk_seq_proxy x)) eqn:E; [|done].
  assert ((fk_seq_proxy x, cx) ∈ range_after (fk_seq_proxy k) (qa_transactions a)) as Hin
    by by apply elem_of_range_after.
  destruct (range_after _ _); [by apply elem_of_nil in Hin | done].
Qed.

(** Where the walk goes on: the account's next transaction when it beats the next
    one in fee order, and otherwise that one. *)
Definition next_ok order v (i : nat) k (next : QueueViewNext) : Prop :=
  match next with
  | NextEnd => fee_order v !! S i = None /\ account_next v k = None
  | NextFee k' => fe_key <$> fee_order v !! S i = Some k'
      /\ forall x core e, account_next v k = Some x -> queue_lookup v x = Some core ->
           fee_order v !! S i = Some e -> entry_before order (key_entry x core) e = false
  | NextAccount k' => account_next v k = Some k'
      /\ forall core e, queue_lookup v k' = Some core -> fee_order v !! S i = Some e ->
           entry_before order (key_entry k' core) e = true
  end.

Lemma find_entry v k core :
  views_ok v -> queue_lookup v k = Some core ->
  snd <$> list_find (fun e => fe_key e = k) (fee_order v) = Some (key_entry k core).
Proof.
  intros Hv Hk. destruct (find_index_spec v k core Hv Hk) as (i & Ei & Hi).
  unfold find_fee_candidate_index in Ei.
  destruct (list_find _ (fee_order v)) as [[j e]|] eqn:E; [|done].
  simpl in Ei. injection Ei as ->. apply list_find_Some in E as (Hj & _ & _).
  simpl. by rewrite <- Hi, Hj.
Qed.

Lemma queue_lookup_same_account v k a s :
  accounts v !! fk_account k = Some a -> queue_lookup v (mkKey (fk_account k) s) = qa_transactions a !! s.
Proof. intros E. unfold queue_lookup. simpl. by rewrite E. Qed.

Lemma choose_next_total current first account_next fee_next order :
  is_ticket (qc_seq_proxy current) || first = true ->
  (forall a, account_next = Some a -> ord_ltb (qc_seq_proxy current) (qc_seq_proxy a) = true) ->
  exists t, choose_next_after_erase current first account_next fee_next order = Ok t
    /\ match t with
       | AdvanceEnd => fee_next = None /\ account_next = None
       | AdvanceFeeNext f => fee_next = Some f /\ forall a, account_next = Some a ->
           compares_by_fee_and_tx_id order (qc_fee_level a) (qc_tx_id a)
             (qc_fee_level f) (qc_tx_id f) = false
       | AdvanceAccountNext a => account_next = Some a /\ forall f, fee_next = Some f ->
           compares_by_fee_and_tx_id order (qc_fee_level a) (qc_tx_id a)
             (qc_fee_level f) (qc_tx_id f) = true
       end.
Proof.
  intros Hc Hlt. unfold choose_next_after_erase. rewrite Hc. cbn [negb].
  destruct account_next as [a|]; [|by destruct fee_next; (eexists; split; [reflexivity|])].
  rewrite (Hlt a eq_refl). cbn [andb].
  destruct fee_next as [f|]; [|by eexists; split; [reflexivity|]].
  destruct (compares_by_fee_and_tx_id order _ _ _ _) eqn:E2;
    (eexists; split; [reflexivity|]); (split; [done|]); by intros ? [= <-].
Qed.

Lemma account_next_entry v k a :
  views_ok v -> accounts v !! fk_account k = Some a ->
  match head (range_after (fk_seq_proxy k) (qa_transactions a)) with
  | Some (s, _) =>
      e ← expect (snd <$> list_find (fun e => fe_key e = mkKey (fk_account k) s) (fee_order v));
      mret (Some e)
  | None => mret None
  end
  = Ok (x ← account_next v k; core ← queue_lookup v x; Some (key_entry x core)).
Proof.
  intros Hv Ea. unfold account_next. rewrite Ea. cbn [mbind option_bind].
  destruct (head _) as [[s c]|] eqn:Es; cbn [mbind option_bind]; [|done].
  apply head_Some_elem_of, elem_of_range_after in Es as [Hs _].
  assert (queue_lookup v (mkKey (fk_account k) s) = Some c) as Hq
    by by rewrite (queue_lookup_same_account v k a s Ea).
  by rewrite Hq, (find_entry v _ c Hv Hq).
Qed.

Lemma account_next_seq v k e :
  (x ← account_next v k; core ← queue_lookup v x; Some (key_entry x core)) = Some e ->
  account_next v k = Some (fe_key e)
  /\ (exists core, queue_lookup v (fe_key e) = Some core /\ e = key_entry (fe_key e) core)
  /\ ord_ltb (fk_seq_proxy k) (qc_seq_proxy (fe_candidate e)) = true.
Proof.
  destruct (account_next v k) as [x|] eqn:Ex; [|done]. cbn [mbind option_bind].
  destruct (account_next_spec v k x Ex) as (_ & Hlt & _ & _).
  destruct (queue_lookup v x) as [c|] eqn:Ec; [|done]. cbn [mbind option_bind].
  intros [= <-]. destruct x as [n s]. split_and!; [done|by exists c|done].
Qed.

(** The candidate chosen, read back as a key. *)
Lemma advance_next_ok v i k order t :
  let ane := x ← account_next v k; core ← queue_lookup v x; Some (key_entry x core) in
  match t with
  | AdvanceEnd => fe_candidate <$> fee_order v !! S i = None /\ fe_candidate <$> ane = None
  | AdvanceFeeNext f => fe_candidate <$> fee_order v !! S i = Some f
      /\ forall a, fe_candidate <$> ane = Some a ->
         compares_by_fee_and_tx_id order (qc_fee_level a) (qc_tx_id a)
           (qc_fee_level f) (qc_tx_id f) = false
  | AdvanceAccountNext a => fe_candidate <$> ane = Some a
      /\ forall f, fe_candidate <$> fee_order v !! S i = Some f ->
         compares_by_fee_and_tx_id order (qc_fee_level a) (qc_tx_id a)
           (qc_fee_level f) (qc_tx_id f) = true
  end ->
  exists next, match t with
     | AdvanceEnd => mret NextEnd
     | AdvanceFeeNext _ => e0 ← expect (fee_order v !! S i); mret (NextFee (fe_key e0))
     | AdvanceAccountNext _ => e0 ← expect ane; mret (NextAccount (fe_key e0))
     end = Ok next /\ next_ok order v i k next.
Proof.
  intros ane. destruct t as [|f|c].
  - intros [Ef Ea]. eexists. split; [reflexivity|]. split; [by destruct (fee_order v !! S i)|].
    destruct (account_next v k) as [x|] eqn:Ex; [|done].
    destruct (account_next_spec v k x Ex) as (_ & _ & [cx Hcx] & _).
    subst ane. cbn [mbind option_bind] in Ea. by rewrite Hcx in Ea.
  - intros [Ef Ha]. destruct (fee_order v !! S i) as [e|] eqn:Ei; [|done]. injection Ef as <-.
    eexists. split; [reflexivity|]. simpl. rewrite Ei. split; [done|].
    intros x cx e' Hx Hcx [= <-]. apply (Ha (fe_candidate (key_entry x cx))).
    subst ane. by rewrite Hx; cbn [mbind option_bind]; rewrite Hcx.
  - intros [Ea Hf]. destruct ane as [y|] eqn:Ey; [|done]. injection Ea as <-.
    apply account_next_seq in Ey as (Hn & (cy & Hcy & Eq) & _).
    eexists. split; [reflexivity|]. split; [done|]. intros core e' Hc Ei.
    rewrite Hcy in Hc. injection Hc as <-. rewrite <- Eq. apply Hf. by rewrite Ei.
Qed.

Lemma erase_and_advance_spec v i e order :
  views_ok v -> fee_order v !! i = Some e -> front_or_ticket v (fe_key e) ->
  exists next, erase_and_advance v i order = Ok (erase_key v (fe_key e), fe_key e, next)
    /\ next_ok order v i (fe_key e) next.
Proof.
  intros Hv Hi Hfront. set (k := fe_key e) in *.
  destruct (entry_queued v e Hv (list_elem_of_lookup_2 _ _ _ Hi)) as (core & Hk & He).
  fold k in Hk, He. destruct (queue_lookup_account v k core Hk) as (a & Ea & Et).
  unfold erase_and_advance. rewrite Hi. cbn [expect mbind outcome_bind]. fold k. rewrite Ea.
  cbn [expect mbind outcome_bind]. rewrite (account_next_entry v k a Hv Ea).
  cbn [mbind outcome_bind].
  set (ane := x ← account_next v k; core ← queue_lookup v x; Some (key_entry x core)).
  destruct (choose_next_total (fe_candidate e)
    match first_key_value (qa_transactions a) with
    | Some (s, _) => bool_decide (s = fk_seq_proxy k) | None => false end
    (fe_candidate <$> ane) (fe_candidate <$> fee_order v !! S i) order) as (t & -> & Ht).
  { rewrite He. cbn [fe_candidate key_entry entry_of qc_seq_proxy].
    destruct Hfront as [->|Hf]; [done|]. apply (account_front_first v k a core Ea Et) in Hf.
    rewrite Hf, bool_decide_eq_true_2 by done. by rewrite orb_true_r. }
  { intros c. destruct ane as [x|] eqn:Ex; [|done]. intros [= <-]. rewrite He.
    by apply account_next_seq in Ex as (_ & _ & ?). }
  cbn [mbind outcome_bind].
  assert (exists next, match t with
     | AdvanceEnd => mret NextEnd
     | AdvanceFeeNext _ => e0 ← expect (fee_order v !! S i); mret (NextFee (fe_key e0))
     | AdvanceAccountNext _ => e0 ← expect ane; mret (NextAccount (fe_key e0))
     end = Ok next /\ next_ok order v i k next) as (next & -> & Hnext);
    [by apply advance_next_ok|].
  cbn [mbind outcome_bind]. rewrite (remove_from_fee_order_eq v i e (vo_nodup _ Hv) Hi). fold k.
  cbn [mbind outcome_bind]. rewrite (remove_from_account_eq _ k core) by exact Hk.
  eexists. split; [reflexivity|done].
Qed.

(** ** Expiry at a closed ledger *)

Definition cand_key (c : ClosedLedgerCandidate) : FeeQueueKey :=
  mkKey (cc_account c) (cc_seq_proxy c).

Definition expired_keys (ledger_seq : Z) (l : list ClosedLedgerCandidate) : list FeeQueueKey :=
  cand_key <$> filter (fun c => candidate_expired ledger_seq c = true) l.

Definition hit (keys : list FeeQueueKey) (n : Z) : bool :=
  existsb (fun k => fk_account k =? n) keys.

(** An account after the given keys expired: their entries are gone and it carries
    the drop penalty if it lost any. *)
Definition expire_account (keys : list FeeQueueKey) (n : Z) (a a' : TxQAccount) : Prop :=
  qa_account a' = qa_account a /\ qa_retry_penalty a' = qa_retry_penalty a
  /\ qa_drop_penalty a' = qa_drop_penalty a || hit keys n
  /\ forall s, qa_transactions a' !! s
       = if decide (mkKey n s ∈ keys) then None else qa_transactions a !! s.

Definition accounts_expired (keys : list FeeQueueKey) (m m' : gmap Z TxQAccount) : Prop :=
  forall n, match m !! n, m' !! n with
            | Some a, Some a' => expire_account keys n a a'
            | None, None => True
            | _, _ => False
            end.

Lemma accounts_expired_refl m : accounts_expired [] m m.
Proof.
  intros n. destruct (m !! n) as [a|]; [|done]. split_and!; [done..| |].
  - by rewrite orb_false_r.
  - intros s. by rewrite decide_False by apply not_elem_of_nil.
Qed.

Lemma expired_keys_snoc ledger_seq l c :
  expired_keys ledger_seq (l ++ [c])
  = expired_keys ledger_seq l ++ (if candidate_expired ledger_seq c then [cand_key c] else []).
Proof.
  unfold expired_keys. rewrite filter_app, fmap_app. f_equal. rewrite filter_cons.
  by destruct (candidate_expired ledger_seq c).
Qed.

Lemma expire_account_snoc keys k a b :
  expire_account keys (fk_account k) a b ->
  expire_account (keys ++ [k]) (fk_account k) a
    (mkTxQAccount (qa_account b) (delete (fk_seq_proxy k) (qa_transactions b))
       (qa_retry_penalty b) true).
Proof.
  intros (E1 & E2 & _ & E4). split_and!; simpl; [done|done| |].
  - unfold hit. rewrite existsb_app. simpl. by rewrite Z.eqb_refl, !orb_true_r.
  - intros s. destruct (decide (s = fk_seq_proxy k)) as [->|Hs].
    + rewrite lookup_delete_eq, decide_True; [done|]. apply elem_of_app. right.
      apply list_elem_of_singleton. by destruct k.
    + rewrite lookup_delete_ne, E4 by done. destruct (decide (mkKey (fk_account k) s ∈ keys)) as [Hin|Hn].
      * by rewrite decide_True by (apply elem_of_app; by left).
      * rewrite decide_False; [done|]. intros [?|Hk%list_elem_of_singleton]%elem_of_app; [done|].
        apply Hs. by rewrite <- Hk.
Qed.

Lemma expire_account_other keys k n a b :
  fk_account k <> n -> expire_account keys n a b -> expire_account (keys ++ [k]) n a b.
Proof.
  intros Hn (E1 & E2 & E3 & E4). split_and!; [done|done| |].
  - rewrite E3. unfold hit. rewrite existsb_app. simpl.
    by rewrite (proj2 (Z.eqb_neq _ _)), !orb_false_r.
  - intros s. rewrite E4. destruct (decide (mkKey n s ∈ keys)) as [Hin|Hni].
    + by rewrite decide_True by (apply elem_of_app; by left).
    + rewrite decide_False; [done|]. intros [?|Hk%list_elem_of_singleton]%elem_of_app; [done|].
      by destruct k; simplify_eq.
Qed.

(** Candidates that are all queued, each once, expire without failing. *)
Lemma expire_candidates_ok v cs ledger_seq :
  views_ok v -> NoDup (cand_key <$> cs) ->
  (forall c, c ∈ cs -> is_Some (queue_lookup v (cand_key c))) ->
  exists m', foldM (expire_candidate ledger_seq) (accounts v, []) cs
      = Ok (m', filter (fun c => candidate_expired ledger_seq c = true) cs)
    /\ accounts_expired (expired_keys ledger_seq cs) (accounts v) m'.
Proof.
  intros Hv Hnd Hq.
  destruct (foldM_prefix (fun seen st =>
      st.2 = filter (fun c => candidate_expired ledger_seq c = true) seen
      /\ accounts_expired (expired_keys ledger_seq seen) (accounts v) st.1)
    (expire_candidate ledger_seq) cs (accounts v, [])) as ([m' ex] & E & Hex & Hm).
  - intros seen c rest [m ex] Ecs [Hex Hm]. simpl in Hex, Hm. unfold expire_candidate.
    rewrite expired_keys_snoc, filter_app, filter_cons, filter_nil.
    destruct (candidate_expired ledger_seq c) eqn:Ec; cbn [negb].
    2: { eexists. split; [reflexivity|]. by rewrite decide_False, !app_nil_r by done. }
    rewrite decide_True by done.
    destruct (Hq c ltac:(rewrite Ecs; apply elem_of_app; right; left)) as [core Hc].
    destruct (queue_lookup_account v _ core Hc) as (a & Ea & Et).
    cbn [cand_key fk_account fk_seq_proxy] in Ea, Et. pose proof (Hm (cc_account c)) as Hmc.
    rewrite Ea in Hmc. destruct (m !! cc_account c) as [b|] eqn:Eb; [|done].
    cbn [expect mbind outcome_bind].
    assert (qa_account b =? cc_account c = true) as ->
      by (apply Z.eqb_eq; by rewrite (proj1 Hmc), (vo_accounts _ Hv _ _ Ea)).
    cbn [negb account_remove qa_transactions]. rewrite (proj2 (proj2 (proj2 Hmc))), decide_False, Et, bool_decide_eq_true_2; [| eauto |].
    + cbn [negb]. eexists. split; [reflexivity|]. simpl. split; [by rewrite Hex|].
      intros n. destruct (decide (n = cc_account c)) as [->|Hn].
      * rewrite Ea, lookup_insert_eq.
        exact (expire_account_snoc _ (cand_key c) _ _ Hmc).
      * rewrite lookup_insert_ne by done. specialize (Hm n).
        destruct (accounts v !! n), (m !! n); try done. by apply expire_account_other.
    + intros (c' & Hk & [_ Hin]%list_elem_of_filter)%list_elem_of_fmap.
      rewrite Ecs, fmap_app, fmap_cons in Hnd. apply NoDup_app in Hnd as (_ & Hd & _).
      apply (Hd (cand_key c')); [by apply list_elem_of_fmap_2|]. rewrite <- Hk. left.
  - split; [done | apply accounts_expired_refl].
  - exists m'. simpl in Hex. by rewrite E, Hex.
Qed.

Lemma elem_of_emptied m n :
  n ∈ emptied_accounts m <-> exists a, m !! n = Some a /\ is_emptied a = true.
Proof.
  unfold emptied_accounts. rewrite list_elem_of_fmap. split.
  - intros ([n' a] & -> & [He Hin]%list_elem_of_filter). exists a. split; [|done].
    by apply elem_of_btree_iter.
  - intros (a & Ha & He). exists (n, a). split; [done|]. apply list_elem_of_filter.
    split; [done|]. by apply elem_of_btree_iter.
Qed.

Lemma emptied_NoDup m : NoDup (emptied_accounts m).
Proof.
  unfold emptied_accounts. apply NoDup_fmap_filter. unfold btree_iter. rewrite sort_by_perm.
  apply NoDup_fst_map_to_list.
Qed.

Lemma prune_emptied_ok (m : gmap Z TxQAccount) :
  exists m', foldM (fun m (n : Z) => match m !! n with Some _ => Ok (delete n m) | None => Panic end)
               m (emptied_accounts m) = Ok m'
    /\ forall n, m' !! n = a ← m !! n; if is_emptied a then None else Some a.
Proof.
  destruct (foldM_prefix (fun seen (m' : gmap Z TxQAccount) => forall n, m' !! n = if decide (n ∈ seen) then None else m !! n)
    (fun m (n : Z) => match m !! n with Some _ => Ok (delete n m) | None => Panic end)
    (emptied_accounts m) m) as (m' & E & Hm).
  - intros seen k rest m' Ee Hm'. rewrite Hm'.
    assert (k ∈ emptied_accounts m) as (a & Ha & _)%elem_of_emptied
      by (rewrite Ee; apply elem_of_app; right; left).
    pose proof (emptied_NoDup m) as Hnd. rewrite Ee in Hnd. apply NoDup_app in Hnd as (_ & Hd & _).
    rewrite decide_False, Ha by (intros Hin; apply (Hd k Hin); left).
    eexists. split; [reflexivity|]. intros n. destruct (decide (n = k)) as [->|Hn].
    + rewrite lookup_delete_eq, decide_True; [done|]. apply elem_of_app. right. left.
    + rewrite lookup_delete_ne, Hm' by done. destruct (decide (n ∈ seen)) as [Hin|Hni].
      * by rewrite decide_True by (apply elem_of_app; by left).
      * rewrite decide_False; [done|]. by intros [?|?%list_elem_of_singleton]%elem_of_app.
  - intros n. by rewrite decide_False by apply not_elem_of_nil.
  - exists m'. split; [done|]. intros n. rewrite Hm.
    destruct (decide (n ∈ emptied_accounts m)) as [(a & Ha & He)%elem_of_emptied|Hn].
    + rewrite Ha. simpl. by rewrite He.
    + destruct (m !! n) as [a|] eqn:Ha; [|done]. simpl.
      destruct (is_emptied a) eqn:He; [|done]. destruct Hn. apply elem_of_emptied. eauto.
Qed.

(** The account map after a closed ledger: the expired entries are gone and so are
    the accounts left without any. *)
Lemma process_closed_ledger_ok v cs ledger_seq max_size time_leap expected in_queue size_min :
  views_ok v -> NoDup (cand_key <$> cs) ->
  (forall c, c ∈ cs -> is_Some (queue_lookup v (cand_key c))) ->
  let keys := expired_keys ledger_seq cs in
  exists m' emptied,
    process_closed_ledger (accounts v) cs ledger_seq max_size time_leap expected in_queue size_min
      = Ok (m', mkMaintenance
                  (if time_leap then max_size else Z.max (wrap_u64 (expected * in_queue)) size_min)
                  (filter (fun c => candidate_expired ledger_seq c = true) cs) emptied)
    /\ (forall n a', m' !! n = Some a' -> exists a, accounts v !! n = Some a
          /\ expire_account keys n a a' /\ qa_transactions a' <> ∅)
    /\ (forall k, queue_lookup (mkViews (fee_order v) m') k
          = if decide (k ∈ keys) then None else queue_lookup v k).
Proof.
  intros Hv Hnd Hq keys.
  destruct (expire_candidates_ok v cs ledger_seq Hv Hnd Hq) as (m1 & E1 & Hm1). fold keys in Hm1.
  destruct (prune_emptied_ok m1) as (m2 & E2 & Hm2).
  exists m2, (emptied_accounts m1). unfold process_closed_ledger. rewrite E1.
  cbn [mbind outcome_bind]. rewrite E2. split; [reflexivity|]. split.
  - intros n a' Ha'. rewrite Hm2 in Ha'. specialize (Hm1 n).
    destruct (m1 !! n) as [b|]; [|done]. simpl in Ha'.
    destruct (is_emptied b) eqn:He; [done|]. injection Ha' as <-.
    destruct (accounts v !! n) as [a|]; [|done]. exists a. split_and!; [done|done|].
    by apply bool_decide_eq_false in He.
  - intros [n s]. unfold queue_lookup. cbn [accounts fk_account fk_seq_proxy].
    specialize (Hm1 n). rewrite Hm2.
    destruct (accounts v !! n) as [a|], (m1 !! n) as [b|]; try done; simpl; [|by case_decide].
    destruct Hm1 as (_ & _ & _ & E4). rewrite <- E4.
    destruct (is_emptied b) eqn:He; [|done].
    apply bool_decide_eq_true in He. by rewrite He, lookup_empty.
Qed.

(** ** Rebuilding the fee order *)

Lemma btree_account_entries v (e : FeeQueueEntry) :
  e ∈ concat ((fun x => account_entries x.1 x.2) <$> btree_iter (accounts v)) <->
  exists core, queue_lookup v (fe_key e) = Some core /\ e = key_entry (fe_key e) core.
Proof.
  rewrite list_elem_of_In, in_concat. setoid_rewrite <- list_elem_of_In. split.
  - intros (l & ([n a] & -> & Hin)%list_elem_of_fmap & He). simpl in He.
    apply elem_of_btree_iter in Hin. apply list_elem_of_fmap in He as ([s c] & -> & Hs).
    apply elem_of_btree_iter in Hs. exists c. unfold queue_lookup, key_entry, entry_of.
    cbn [fe_key fk_account fk_seq_proxy fst snd]. by rewrite Hin.
  - intros (core & Hk & He). destruct (queue_lookup_account v _ core Hk) as (a & Ea & Et).
    exists (account_entries (fk_account (fe_key e)) a). split.
    + apply list_elem_of_fmap. exists (fk_account (fe_key e), a). split; [done|].
      by apply elem_of_btree_iter.
    + apply list_elem_of_fmap. exists (fk_seq_proxy (fe_key e), core). split; [done|].
      by apply elem_of_btree_iter.
Qed.

Lemma account_entries_NoDup n a : NoDup (account_entries n a).
Proof.
  apply NoDup_fmap_2_strong.
  - intros [s c] [s' c'] Hx Hy [= <- _ _]. f_equal.
    apply elem_of_btree_iter in Hx, Hy. congruence.
  - unfold btree_iter. rewrite sort_by_perm. apply NoDup_map_to_list.
Qed.

Lemma concat_entries_NoDup (l : list (Z * TxQAccount)) :
  NoDup l.*1 -> NoDup (concat ((fun x => account_entries x.1 x.2) <$> l)).
Proof.
  induction l as [|[n a] l IH]; [constructor|]. rewrite !fmap_cons. cbn [concat fst snd].
  intros [Hn Hd]%NoDup_cons. apply NoDup_app. split_and!; [apply account_entries_NoDup| |by apply IH].
  intros e ([s c] & -> & _)%list_elem_of_fmap. rewrite list_elem_of_In, in_concat.
  intros (l' & Hl' & He). rewrite <- list_elem_of_In in Hl'. rewrite <- list_elem_of_In in He.
  apply list_elem_of_fmap in Hl' as ([n' a'] & -> & Hin).
  apply list_elem_of_fmap in He as ([s' c'] & Eq & _). injection Eq as Eq _ _ _ _. simpl in *.
  apply Hn. apply list_elem_of_fmap. exists (n', a'). done.
Qed.

Lemma collect_entries_ok v :
  (forall n a, accounts v !! n = Some a -> qa_account a = n) ->
  foldM (fun acc (e : Z * TxQAccount) =>
           let '(account_key, account_queue) := e in
           if negb (qa_account account_queue =? account_key) then Panic
           else Ok (acc ++ account_entries account_key account_queue))
    [] (btree_iter (accounts v))
  = Ok (concat ((fun x => account_entries x.1 x.2) <$> btree_iter (accounts v))).
Proof.
  intros Hn. destruct (foldM_prefix (fun seen acc =>
      acc = concat ((fun x => account_entries x.1 x.2) <$> seen))
    (fun acc (e : Z * TxQAccount) =>
           let '(account_key, account_queue) := e in
           if negb (qa_account account_queue =? account_key) then Panic
           else Ok (acc ++ account_entries account_key account_queue))
    (btree_iter (accounts v)) []) as (r & E & ->); [|done|exact E].
  intros seen [n a] rest acc El ->.
  assert (accounts v !! n = Some a) as Ha
    by (apply elem_of_btree_iter; rewrite El; apply elem_of_app; right; left).
  rewrite (Hn _ _ Ha), Z.eqb_refl. eexists. split; [reflexivity|].
  by rewrite fmap_app, concat_app, fmap_cons, fmap_nil, concat_cons, concat_nil, app_nil_r.
Qed.

Lemma insert_all_ok order (l : list FeeQueueEntry) v :
  fee_sorted order v ->
  let v' := foldl (fun v e => (insert_fee_entry v e order).1) v l in
  fee_order v' ≡ₚ l ++ fee_order v /\ accounts v' = accounts v /\ fee_sorted order v'.
Proof.
  revert v. induction l as [|e l IH]; intros v S; cbn [foldl app]; [done|].
  destruct (insert_fee_entry_perm v e order) as [Hp Ha].
  destruct (IH _ (insert_fee_entry_sorted v e order S)) as (Hp' & Ha' & S').
  split_and!; [|by rewrite Ha', Ha|done]. rewrite Hp', Hp. by rewrite Permutation_middle.
Qed.

Lemma rebuild_order_ok v previous next :
  views_ok v ->
  exists v', rebuild_queue_accept_fee_order v previous next
      = Ok (v', mkRebuild (previous =? next) next (length (fee_order v)) (length (fee_order v)))
    /\ accounts v' = accounts v /\ fee_order v' ≡ₚ fee_order v
    /\ views_ok v' /\ fee_sorted next v'.
Proof.
  intros Hv. unfold rebuild_queue_accept_fee_order.
  rewrite (collect_entries_ok v (vo_accounts _ Hv)). cbn [mbind outcome_bind].
  set (es := concat _).
  assert (es ≡ₚ fee_order v) as Hes.
  { apply NoDup_Permutation.
    - apply concat_entries_NoDup. unfold btree_iter. rewrite sort_by_perm.
      apply NoDup_fst_map_to_list.
    - apply (NoDup_fmap_1 fe_key), Hv.
    - intros e. unfold es. rewrite btree_account_entries. symmetry. apply (vo_entries _ Hv). }
  destruct (insert_all_ok next es (with_fee_order v [])) as (Hp & Ha & S); [constructor|].
  set (v' := foldl _ _ es) in *. cbn [fee_order with_fee_order accounts] in Hp, Ha.
  rewrite app_nil_r, Hes in Hp. rewrite (Permutation_length Hp), Nat.eqb_refl. cbn [negb]. exists v'.
  split_and!; try done. constructor.
  - rewrite Hp. apply Hv.
  - intros e. rewrite Hp, (vo_entries _ Hv). unfold queue_lookup. by rewrite Ha.
  - rewrite Ha. apply Hv.
  - intros k core. unfold queue_lookup. rewrite Ha. apply (vo_payload _ Hv).
Qed.
End Ops.
