(* ===== verification/TxQAccept.v ===== *)
(** * Transaction queue: filling the open ledger from the queue

    [queue_accept_gate.rs], [queue_failure.rs] and [queue_accept.rs]: the walk of
    [TxQ::accept] over the fee order, which tries each eligible transaction against
    the open ledger, drops or keeps the ones that fail, and rebuilds the fee order
    for the next parent hash. The closures of the Rust code are functions of a
    state [S], the open ledger they change. The walk is written twice in the
    source, as one loop over a closure and as a machine that hands each
    application to its caller; both are here. Log messages are not modelled. *)

From S2P Require Import Prelude BTree TxQTypes TxQMetrics TxQViews.

(** ** The gate and the policy for failures *)

Inductive AcceptCandidateGate := GateSkipNotFirst | GateTryApply | GateStopInsufficientFee.

Definition evaluate_accept_candidate (candidate_seq_proxy account_front_seq_proxy : SeqProxy)
    (fee_level_paid required_fee_level : Z) : AcceptCandidateGate :=
  if is_seq candidate_seq_proxy && ord_ltb account_front_seq_proxy candidate_seq_proxy
  then GateSkipNotFirst
  else if required_fee_level <=? fee_level_paid then GateTryApply
  else GateStopInsufficientFee.

Inductive PenaltyUpdate := PenaltyNone | MarkDropPenalty | MarkRetryPenalty.
Inductive FailedCandidateAction :=
| RemoveCurrent | KeepQueued | DropCurrentTicket | DropLastFromAccount.

Record FailedCandidateDecision := mkDecision {
  fd_action : FailedCandidateAction;
  fd_penalty_update : PenaltyUpdate;
  fd_next_retries_remaining : Z;
  fd_last_result : option Ter
}.

Definition decide_failed_candidate (txn_result : Ter) (retries_remaining : Z)
    (account_retry_penalty account_drop_penalty : bool) (account_txn_count : nat)
    (queue_nearly_full : bool) (s : SeqProxy) : FailedCandidateDecision :=
  if is_tef_failure txn_result || is_tem_malformed txn_result || (retries_remaining <=? 0)
  then mkDecision RemoveCurrent
         (if retries_remaining <=? 0 then MarkRetryPenalty else MarkDropPenalty)
         retries_remaining None
  else
    let next_retries_remaining :=
      if account_retry_penalty && (2 <? retries_remaining) then 1 else retries_remaining - 1 in
    let action :=
      if account_drop_penalty && Nat.ltb 1 account_txn_count && queue_nearly_full
      then if is_ticket s then DropCurrentTicket else DropLastFromAccount
      else KeepQueued in
    mkDecision action PenaltyNone next_retries_remaining (Some txn_result).

Definition queue_accept_is_nearly_full (current_queue_size : nat) (current_max_size : option Z)
    : bool :=
  match current_max_size with
  | Some max_size => sat_u64 (max_size * 95) / 100 <=? Z.of_nat current_queue_size
  | None => false
  end.

(** ** One iteration *)

Record QueueAcceptCandidate := mkAcceptCandidate {
  ac_key : FeeQueueKey;
  ac_tx_id : Z;
  ac_fee_level : Z;
  ac_retries_remaining : Z;
  ac_flags : Z
}.

Inductive QueueAcceptIteration :=
| ItSkipNotFirst (c : QueueAcceptCandidate) (next : option FeeQueueKey)
| ItStopInsufficientFee (c : QueueAcceptCandidate) (required_fee_level : Z)
| ItApplied (c : QueueAcceptCandidate) (txn_result : Ter) (next : option FeeQueueKey)
| ItRemovedFailed (c : QueueAcceptCandidate) (txn_result : Ter) (penalty_update : PenaltyUpdate)
    (next : option FeeQueueKey)
| ItDroppedCurrentTicket (c : QueueAcceptCandidate) (txn_result : Ter) (next : option FeeQueueKey)
| ItRetainedFailed (c : QueueAcceptCandidate) (txn_result : Ter) (next_retries_remaining : Z)
    (dropped_last_from_account : bool) (removed_tail : option FeeQueueKey)
    (next : option FeeQueueKey).

Definition it_ledger_changed (it : QueueAcceptIteration) : bool :=
  match it with ItApplied _ _ _ => true | _ => false end.

Definition it_next_candidate (it : QueueAcceptIteration) : option FeeQueueKey :=
  match it with
  | ItSkipNotFirst _ n | ItApplied _ _ n | ItRemovedFailed _ _ _ n
  | ItDroppedCurrentTicket _ _ n | ItRetainedFailed _ _ _ _ _ n => n
  | ItStopInsufficientFee _ _ => None
  end.

Definition it_stop_candidate (it : QueueAcceptIteration) : option QueueAcceptCandidate :=
  match it with ItStopInsufficientFee c _ => Some c | _ => None end.

Record PreparedQueueAcceptApply := mkPrepared {
  pr_candidate : QueueAcceptCandidate;
  pr_required_fee_level : Z;
  pr_queue_nearly_full : bool;
  pr_candidate_index : nat;
  pr_account_retry_penalty : bool;
  pr_account_drop_penalty : bool;
  pr_account_txn_count : nat;
  pr_order : Z
}.

Inductive QueueAcceptPreparedIteration :=
| PiComplete (it : QueueAcceptIteration)
| PiReady (p : PreparedQueueAcceptApply).

Definition queue_view_next_to_option (n : QueueViewNext) : option FeeQueueKey :=
  match n with NextEnd => None | NextFee k | NextAccount k => Some k end.

Section Accept.
Context `{!TxQTypes}.

Definition queue_accept_account_state (v : QueueViews) (current : FeeQueueKey)
    : outcome (SeqProxy * bool * bool * nat) :=
  a ← expect (accounts v !! fk_account current);
  '(front, _) ← expect (first_key_value (qa_transactions a));
  mret (front, qa_retry_penalty a, qa_drop_penalty a, size (qa_transactions a)).

Definition snapshot_candidate (v : QueueViews) (current : FeeQueueKey)
    : outcome QueueAcceptCandidate :=
  a ← expect (accounts v !! fk_account current);
  core ← expect (qa_transactions a !! fk_seq_proxy current);
  let t := core_payload core in
  mret (mkAcceptCandidate current (mt_tx_id t) (mt_fee_level t) (mt_retries_remaining t) (mt_flags t)).

Definition prepare_queue_accept_iteration (v : QueueViews) (current : FeeQueueKey)
    (required_fee_level : Z) (queue_nearly_full : bool) (order : Z)
    : outcome QueueAcceptPreparedIteration :=
  candidate_index ← expect (find_fee_candidate_index v current);
  candidate ← snapshot_candidate v current;
  '(front, retry_penalty, drop_penalty, txn_count) ← queue_accept_account_state v current;
  match evaluate_accept_candidate (fk_seq_proxy current) front (ac_fee_level candidate)
          required_fee_level with
  | GateSkipNotFirst =>
      mret (PiComplete (ItSkipNotFirst candidate (next_fee_candidate_key v current)))
  | GateStopInsufficientFee =>
      mret (PiComplete (ItStopInsufficientFee candidate required_fee_level))
  | GateTryApply =>
      mret (PiReady (mkPrepared candidate required_fee_level queue_nearly_full candidate_index
                       retry_penalty drop_penalty txn_count order))
  end.

(** [views.accounts.get_mut(account).expect(..)] and a change of the account. *)
Definition update_account (v : QueueViews) (n : Z) (f : TxQAccount -> TxQAccount)
    : outcome QueueViews :=
  a ← expect (accounts v !! n); mret (with_account v n (f a)).

Definition mark_penalty (v : QueueViews) (n : Z) (p : PenaltyUpdate) : outcome QueueViews :=
  match p with
  | PenaltyNone => Ok v
  | MarkDropPenalty => update_account v n (fun a =>
      mkTxQAccount (qa_account a) (qa_transactions a) (qa_retry_penalty a) true)
  | MarkRetryPenalty => update_account v n (fun a =>
      mkTxQAccount (qa_account a) (qa_transactions a) true (qa_drop_penalty a))
  end.

(** A change of one queued payload, found by its key. *)
Definition update_payload (v : QueueViews) (k : FeeQueueKey) (t : MaybeTx) : outcome QueueViews :=
  a ← expect (accounts v !! fk_account k);
  core ← expect (qa_transactions a !! fk_seq_proxy k);
  mret (with_account v (fk_account k)
          (with_transactions a (<[fk_seq_proxy k := mkCore t (core_consequences core)]>
                                  (qa_transactions a)))).

Definition get_payload (v : QueueViews) (k : FeeQueueKey) : outcome MaybeTx :=
  a ← expect (accounts v !! fk_account k);
  core ← expect (qa_transactions a !! fk_seq_proxy k);
  mret (core_payload core).

Definition account_tail (v : QueueViews) (n : Z) : option FeeQueueKey :=
  a ← accounts v !! n;
  '(s, _) ← last_key_value (qa_transactions a);
  Some (mkKey n s).

Definition finalize_retained (v : QueueViews) (candidate : QueueAcceptCandidate) (ter : Ter)
    (decision : FailedCandidateDecision) : outcome (QueueViews * QueueAcceptIteration) :=
  let current := ac_key candidate in
  let drop_last := match fd_action decision with DropLastFromAccount => true | _ => false end in
  queued ← get_payload v current;
  v1 ← update_payload v current
         (set_last_result (set_retries queued (fd_next_retries_remaining decision))
            (fd_last_result decision));
  '(v2, removed_tail) ←
    (if drop_last then
       tail_key ← expect (account_tail v1 (fk_account current));
       if bool_decide (tail_key = current) then mret (v1, None)
       else
         '(v2, k) ← remove_fee_candidate_by_key v1 tail_key;
         mret (v2, Some k)
     else mret (v1, None));
  mret (v2, ItRetainedFailed candidate ter (fd_next_retries_remaining decision) drop_last
              removed_tail (next_fee_candidate_key v2 current)).

Definition finalize_prepared_queue_accept_apply (v : QueueViews) (p : PreparedQueueAcceptApply)
    (r : ApplyResult) : outcome (QueueViews * QueueAcceptIteration) :=
  let candidate := pr_candidate p in
  let current := ac_key candidate in
  if ar_applied r then
    '(v', _, next) ← erase_and_advance v (pr_candidate_index p) (pr_order p);
    mret (v', ItApplied candidate (ar_ter r) (queue_view_next_to_option next))
  else
    let decision :=
      decide_failed_candidate (ar_ter r) (ac_retries_remaining candidate)
        (pr_account_retry_penalty p) (pr_account_drop_penalty p) (pr_account_txn_count p)
        (pr_queue_nearly_full p) (fk_seq_proxy current) in
    v1 ← mark_penalty v (fk_account current) (fd_penalty_update decision);
    match fd_action decision with
    | RemoveCurrent =>
        '(v', _, next) ← erase_and_advance v1 (pr_candidate_index p) (pr_order p);
        mret (v', ItRemovedFailed candidate (ar_ter r) (fd_penalty_update decision)
                    (queue_view_next_to_option next))
    | DropCurrentTicket =>
        '(v', _, next) ← erase_and_advance v1 (pr_candidate_index p) (pr_order p);
        mret (v', ItDroppedCurrentTicket candidate (ar_ter r) (queue_view_next_to_option next))
    | KeepQueued | DropLastFromAccount => finalize_retained v1 candidate (ar_ter r) decision
    end.

Section Walk.
Context {S : Type} (apply : S -> MaybeTx -> S * MaybeTx * ApplyResult).

Definition run_prepared_queue_accept_apply (s : S) (v : QueueViews) (p : PreparedQueueAcceptApply)
    : outcome (S * QueueViews * QueueAcceptIteration) :=
  let key := ac_key (pr_candidate p) in
  queued ← get_payload v key;
  let '(s', queued', r) := apply s queued in
  v' ← update_payload v key queued';
  '(v'', it) ← finalize_prepared_queue_accept_apply v' p r;
  mret (s', v'', it).

Definition run_queue_accept_iteration (s : S) (v : QueueViews) (current : FeeQueueKey)
    (required_fee_level : Z) (queue_nearly_full : bool) (order : Z)
    : outcome (S * QueueViews * QueueAcceptIteration) :=
  prepared ← prepare_queue_accept_iteration v current required_fee_level queue_nearly_full order;
  match prepared with
  | PiComplete it => mret (s, v, it)
  | PiReady p => run_prepared_queue_accept_apply s v p
  end.

(** ** The stage: the loop over a closure *)

Record QueueAcceptStageResult := mkStage {
  sg_ledger_changed : bool;
  sg_processed_candidates : Z;
  sg_stop_candidate : option FeeQueueKey
}.

Variable required_fee : S -> QueueViews -> outcome Z.
Variable nearly_full : QueueViews -> bool.

Fixpoint run_queue_accept_loop (fuel : nat) (order : Z) (s : S) (v : QueueViews)
    (changed : bool) (processed : Z) (current : option FeeQueueKey)
    : outcome (S * QueueViews * QueueAcceptStageResult) :=
  match fuel with
  | O => OutOfFuel
  | Datatypes.S fuel' =>
      match current with
      | None => mret (s, v, mkStage changed processed None)
      | Some candidate_key =>
          required_fee_level ← required_fee s v;
          '(s', v', it) ← run_queue_accept_iteration s v candidate_key required_fee_level
                            (nearly_full v) order;
          let changed' := changed || it_ledger_changed it in
          match it_stop_candidate it with
          | Some stop => mret (s', v', mkStage changed' (processed + 1) (Some (ac_key stop)))
          | None => run_queue_accept_loop fuel' order s' v' changed' (processed + 1)
                      (it_next_candidate it)
          end
      end
  end.

Definition run_queue_accept_stage (fuel : nat) (order : Z) (s : S) (v : QueueViews)
    : outcome (S * QueueViews * QueueAcceptStageResult) :=
  run_queue_accept_loop fuel order s v false 0 (fe_key <$> head (fee_order v)).
End Walk.

(** ** [TxQ::accept] on the queue's state *)

Record QueueAcceptCallState := mkCallState {
  cs_open_ledger_tx_count : Z;
  cs_current_max_size : option Z;
  cs_next_parent_hash_comp : Z
}.

(** What a call returns, besides the views and the open ledger: the stage's result,
    the rebuild's, and the hash the queue is ordered by from now on. *)
Record QueueAcceptOwnerResult := mkOwnerResult {
  ow_stage : QueueAcceptStageResult;
  ow_rebuild : QueueAcceptRebuildResult;
  ow_parent_hash_comp : Z
}.

(** Counts the applications, as the [Cell] of the source does. *)
Definition counting {S} (apply : S -> MaybeTx -> S * MaybeTx * ApplyResult)
    (st : S * Z) (t : MaybeTx) : S * Z * MaybeTx * ApplyResult :=
  let '(s', t', r) := apply st.1 t in
  ((s', if ar_applied r then sat_u64 (st.2 + 1) else st.2), t', r).

Definition call_required_fee {S} (snapshot : QueueFeeMetricsSnapshot) (cs : QueueAcceptCallState)
    (st : S * Z) (_ : QueueViews) : outcome Z :=
  evaluate_required_fee_level snapshot (sat_u64 (cs_open_ledger_tx_count cs + st.2)) NONE.

Definition call_nearly_full (cs : QueueAcceptCallState) (v : QueueViews) : bool :=
  queue_accept_is_nearly_full (length (fee_order v)) (cs_current_max_size cs).

Definition finalize_queue_accept_owner_result (v : QueueViews) (previous next : Z)
    (stage : QueueAcceptStageResult) : outcome (QueueViews * QueueAcceptOwnerResult) :=
  '(v', rebuild) ← rebuild_queue_accept_fee_order v previous next;
  mret (v', mkOwnerResult stage rebuild next).

Definition run_queue_accept_with_call_state {S}
    (apply : S -> MaybeTx -> S * MaybeTx * ApplyResult) (fuel : nat) (s : S) (v : QueueViews)
    (metrics : QueueFeeMetricsState) (parent_hash_comp : Z) (cs : QueueAcceptCallState)
    : outcome (S * QueueViews * QueueAcceptOwnerResult) :=
  let snapshot := metrics_snapshot metrics in
  '(st, v', stage) ← run_queue_accept_stage (counting apply) (call_required_fee snapshot cs)
                       (call_nearly_full cs) fuel parent_hash_comp (s, 0) v;
  '(v'', owner) ← finalize_queue_accept_owner_result v' parent_hash_comp
                    (cs_next_parent_hash_comp cs) stage;
  mret (st.1, v'', owner).

(** ** The same walk, handing each application to the caller *)

Record PreparedQueueAcceptCall := mkPreparedCall {
  pq_prepared_apply : PreparedQueueAcceptApply;
  pq_metrics_snapshot : QueueFeeMetricsSnapshot;
  pq_call_state : QueueAcceptCallState;
  pq_previous_parent_hash_comp : Z;
  pq_ledger_changed : bool;
  pq_processed_candidates : Z;
  pq_applied_count : Z
}.

Inductive QueueAcceptPreparedCallStep :=
| StepComplete (r : QueueAcceptOwnerResult)
| StepReady (c : PreparedQueueAcceptCall).

Fixpoint continue_queue_accept (fuel : nat) (v : QueueViews) (snapshot : QueueFeeMetricsSnapshot)
    (cs : QueueAcceptCallState) (previous : Z) (changed : bool) (processed applied_count : Z)
    (current : option FeeQueueKey) : outcome (QueueViews * QueueAcceptPreparedCallStep) :=
  let finish (stop : option FeeQueueKey) (processed : Z) :=
    '(v', r) ← finalize_queue_accept_owner_result v previous (cs_next_parent_hash_comp cs)
                 (mkStage changed processed stop);
    mret (v', StepComplete r) in
  match fuel with
  | O => OutOfFuel
  | Datatypes.S fuel' =>
      match current with
      | None => finish None processed
      | Some candidate_key =>
          required_fee_level ← evaluate_required_fee_level snapshot
                                 (sat_u64 (cs_open_ledger_tx_count cs + applied_count)) NONE;
          prepared ← prepare_queue_accept_iteration v candidate_key required_fee_level
                       (call_nearly_full cs v) previous;
          match prepared with
          | PiComplete it =>
              match it_stop_candidate it with
              | Some stop => finish (Some (ac_key stop)) (processed + 1)
              | None => continue_queue_accept fuel' v snapshot cs previous
                          (changed || it_ledger_changed it) (processed + 1) applied_count
                          (it_next_candidate it)
              end
          | PiReady p =>
              mret (v, StepReady (mkPreparedCall p snapshot cs previous changed (processed + 1)
                                    applied_count))
          end
      end
  end.

Definition prepare_queue_accept_with_call_state (fuel : nat) (v : QueueViews)
    (metrics : QueueFeeMetricsState) (parent_hash_comp : Z) (cs : QueueAcceptCallState)
    : outcome (QueueViews * QueueAcceptPreparedCallStep) :=
  continue_queue_accept fuel v (metrics_snapshot metrics) cs parent_hash_comp false 0 0
    (fe_key <$> head (fee_order v)).

Definition resume_prepared_queue_accept (fuel : nat) (v : QueueViews)
    (c : PreparedQueueAcceptCall) (r : ApplyResult)
    : outcome (QueueViews * QueueAcceptPreparedCallStep) :=
  '(v', it) ← finalize_prepared_queue_accept_apply v (pq_prepared_apply c) r;
  continue_queue_accept fuel v' (pq_metrics_snapshot c) (pq_call_state c)
    (pq_previous_parent_hash_comp c) (pq_ledger_changed c || it_ledger_changed it)
    (pq_processed_candidates c)
    (sat_u64 (pq_applied_count c + (if it_ledger_changed it then 1 else 0)))
    (it_next_candidate it).

Definition run_prepared_queue_accept_call {S} (apply : S -> MaybeTx -> S * MaybeTx * ApplyResult)
    (fuel : nat) (s : S) (v : QueueViews) (c : PreparedQueueAcceptCall)
    : outcome (S * QueueViews * QueueAcceptPreparedCallStep) :=
  let key := ac_key (pr_candidate (pq_prepared_apply c)) in
  queued ← get_payload v key;
  let '(s', queued', r) := apply s queued in
  v' ← update_payload v key queued';
  '(v'', step) ← resume_prepared_queue_accept fuel v' c r;
  mret (s', v'', step).

Fixpoint drive_prepared {S} (apply : S -> MaybeTx -> S * MaybeTx * ApplyResult) (fuel : nat)
    (s : S) (v : QueueViews) (step : QueueAcceptPreparedCallStep)
    : outcome (S * QueueViews * QueueAcceptOwnerResult) :=
  match fuel with
  | O => OutOfFuel
  | Datatypes.S fuel' =>
      match step with
      | StepComplete r => mret (s, v, r)
      | StepReady c =>
          '(s', v', step') ← run_prepared_queue_accept_call apply fuel s v c;
          drive_prepared apply fuel' s' v' step'
      end
  end.

Definition run_queue_accept_with_caller_prepared_apply {S}
    (apply : S -> MaybeTx -> S * MaybeTx * ApplyResult) (fuel : nat) (s : S) (v : QueueViews)
    (metrics : QueueFeeMetricsState) (parent_hash_comp : Z) (cs : QueueAcceptCallState)
    : outcome (S * QueueViews * QueueAcceptOwnerResult) :=
  '(v', step) ← prepare_queue_accept_with_call_state fuel v metrics parent_hash_comp cs;
  drive_prepared apply fuel s v' step.
End Accept.
