(* ===== verification/TxQAcceptInv.v ===== *)
(** * Transaction queue: one iteration of the walk, and its end

    Up to the retry bookkeeping of payloads ([views_sim]), an iteration leaves the
    queue alone, erases the candidate it tried, or erases the last transaction of
    that candidate's account. [iteration_spec] is the case analysis the theorems on
    [TxQ::accept] use. *)

From S2P Require Import Prelude BTree TxQTypes TxQMetrics TxQViews TxQInv TxQOps TxQAccept.

Section AcceptInv.
Context `{!TxQTypes}.
Implicit Types (v w : QueueViews) (k : FeeQueueKey) (core : MaybeTxCore) (order : Z).

(** What identifies a queued transaction; applying it may refresh the rest. *)
Definition same_identity (t t' : MaybeTx) : Prop :=
  mt_fee_level t' = mt_fee_level t /\ mt_tx_id t' = mt_tx_id t
  /\ mt_account t' = mt_account t /\ mt_seq_proxy t' = mt_seq_proxy t
  /\ mt_last_valid t' = mt_last_valid t.

Definition core_sim core core' : Prop :=
  same_identity (core_payload core) (core_payload core')
  /\ core_consequences core' = core_consequences core.

#[global] Instance core_sim_equiv : Equivalence core_sim.
Proof.
  split; unfold core_sim, same_identity.
  - done.
  - intros x y. naive_solver.
  - intros x y z. naive_solver congruence.
Qed.

Definition views_sim v w : Prop :=
  fee_order w = fee_order v
  /\ forall k, option_Forall2 core_sim (queue_lookup v k) (queue_lookup w k).

#[global] Instance views_sim_equiv : Equivalence views_sim.
Proof.
  split.
  - intros v. split; [done|]. intros k. reflexivity.
  - intros v w [Ef Eq]. split; [done|]. intros k. symmetry. apply Eq.
  - intros u v w [Ef Eq] [Ef' Eq']. split; [congruence|]. intros k. etrans; [apply Eq | apply Eq'].
Qed.

Lemma views_sim_keys v w k :
  views_sim v w -> is_Some (queue_lookup v k) <-> is_Some (queue_lookup w k).
Proof. intros [_ Eq]. specialize (Eq k). inversion Eq; split; intros; eauto; by destruct H0. Qed.

Lemma views_sim_core v w k core :
  views_sim v w -> queue_lookup v k = Some core ->
  exists core', queue_lookup w k = Some core' /\ core_sim core core'.
Proof. intros [_ Eq] E. specialize (Eq k). rewrite E in Eq. inversion Eq; eauto. Qed.

Lemma views_sim_front v w k : views_sim v w -> account_front v k -> account_front w k.
Proof. intros Hs Hf k' En Hk'. apply Hf; [done|]. by apply (views_sim_keys v w k'). Qed.

Lemma views_sim_front_or_ticket v w k :
  views_sim v w -> front_or_ticket v k -> front_or_ticket w k.
Proof. intros Hs [?|?]; [by left | right; by eapply views_sim_front]. Qed.

Lemma key_entry_sim k core core' : core_sim core core' -> key_entry k core' = key_entry k core.
Proof. intros [(E1 & E2 & _) _]. unfold key_entry, entry_of. by rewrite E1, E2. Qed.

Lemma views_sim_ok v w :
  views_sim v w -> views_ok v -> (forall n a, accounts w !! n = Some a -> qa_account a = n) ->
  views_ok w.
Proof.
  intros Hs Hv Hn. pose proof Hs as [Ef Eq]. assert (views_sim w v) as Hs' by by symmetry.
  constructor; rewrite ?Ef; [apply Hv| |done|].
  - intros e. rewrite (vo_entries _ Hv). split; intros (c & Hc & He).
    + destruct (views_sim_core v w _ c Hs Hc) as (c' & Hc' & Hsim). exists c'.
      split; [done|]. by rewrite (key_entry_sim _ c c').
    + destruct (views_sim_core w v _ c Hs' Hc) as (c' & Hc' & Hsim). exists c'.
      split; [done|]. by rewrite (key_entry_sim _ c c').
  - intros k c Hc. destruct (views_sim_core w v _ c Hs' Hc) as (c' & Hc' & Hsim).
    destruct (vo_payload _ Hv k c' Hc') as [H1 H2]. destruct Hsim as [(_ & _ & E3 & E4 & _) _].
    split; congruence.
Qed.

(** ** Reading and updating one payload *)

Lemma get_payload_eq v k core :
  queue_lookup v k = Some core -> get_payload v k = Ok (core_payload core).
Proof.
  intros (a & Ea & Et)%queue_lookup_account. unfold get_payload. by rewrite Ea; simpl; rewrite Et.
Qed.

Lemma update_payload_spec v k core t :
  views_ok v -> queue_lookup v k = Some core -> same_identity (core_payload core) t ->
  exists v', update_payload v k t = Ok v' /\ views_sim v v' /\ views_ok v'
    /\ queue_lookup v' k = Some (mkCore t (core_consequences core)).
Proof.
  intros Hv Hk Ht. destruct (queue_lookup_account v k core Hk) as (a & Ea & Et).
  unfold update_payload. rewrite Ea. cbn [expect mbind outcome_bind]. rewrite Et.
  cbn [expect mbind outcome_bind mret outcome_ret].
  set (a' := with_transactions a _). set (v' := with_account v (fk_account k) a').
  assert (forall k', queue_lookup v' k'
    = if decide (k' = k) then Some (mkCore t (core_consequences core)) else queue_lookup v k') as Hq.
  { intros k'. unfold v'. rewrite with_account_lookup. cbn [a' with_transactions qa_transactions].
    case_decide as En; [|by rewrite decide_False by (intros ->; done)].
    destruct (decide (k' = k)) as [->|Hne]; [by rewrite lookup_insert_eq|].
    rewrite lookup_insert_ne by (intros Es; apply Hne; destruct k, k'; simpl in *; congruence).
    unfold queue_lookup. by rewrite En, Ea. }
  assert (views_sim v v') as Hs.
  { split; [done|]. intros k'. rewrite Hq. case_decide as E; [|reflexivity].
    rewrite E, Hk. constructor. done. }
  exists v'. split_and!; [done|done| |by rewrite Hq, decide_True].
  apply (views_sim_ok v v' Hs Hv). intros n b. unfold v'. cbn [accounts with_account].
  destruct (decide (n = fk_account k)) as [->|Hn].
  - rewrite lookup_insert_eq. intros [= <-]. simpl. by apply (vo_accounts _ Hv).
  - rewrite lookup_insert_ne by done. apply (vo_accounts _ Hv).
Qed.

Lemma mark_penalty_spec v n p :
  views_ok v -> is_Some (accounts v !! n) ->
  exists v', mark_penalty v n p = Ok v' /\ views_ok v' /\ fee_order v' = fee_order v
    /\ forall k, queue_lookup v' k = queue_lookup v k.
Proof.
  intros Hv [a Ea]. assert (forall f : TxQAccount -> TxQAccount,
    (qa_account (f a) = qa_account a) -> qa_transactions (f a) = qa_transactions a ->
    exists v', update_account v n f = Ok v' /\ views_ok v' /\ fee_order v' = fee_order v
      /\ forall k, queue_lookup v' k = queue_lookup v k) as G.
  { intros f E1 E2. unfold update_account. rewrite Ea. cbn [expect mbind outcome_bind mret outcome_ret].
    eexists. split; [reflexivity|].
    assert (forall k, queue_lookup (with_account v n (f a)) k = queue_lookup v k) as Hq.
    { intros k. rewrite with_account_lookup. case_decide as En; [|done].
      unfold queue_lookup. by rewrite En, Ea, E2. }
    split_and!; [|done|done]. apply (views_ok_same v); [done|done|done|].
    intros n' b. cbn [accounts with_account]. destruct (decide (n' = n)) as [->|Hn].
    - rewrite lookup_insert_eq. intros [= <-]. rewrite E1. by apply (vo_accounts _ Hv).
    - rewrite lookup_insert_ne by done. apply (vo_accounts _ Hv). }
  destruct p; cbn [mark_penalty]; [by exists v | by apply G | by apply G].
Qed.

Lemma same_lookup_sim v w :
  fee_order w = fee_order v -> (forall k, queue_lookup w k = queue_lookup v k) -> views_sim v w.
Proof. intros Ef Eq. split; [done|]. intros k. by rewrite Eq. Qed.

(** ** Preparing an iteration *)

Lemma prepare_spec v k core req full order :
  views_ok v -> queue_lookup v k = Some core ->
  exists r, prepare_queue_accept_iteration v k req full order = Ok r
    /\ match r with
       | PiComplete (ItSkipNotFirst c next) =>
           is_seq (fk_seq_proxy k) = true /\ ~ account_front v k
           /\ next = next_fee_candidate_key v k
       | PiComplete (ItStopInsufficientFee c rq) =>
           front_or_ticket v k /\ mt_fee_level (core_payload core) < req /\ ac_key c = k /\ rq = req
       | PiComplete _ => False
       | PiReady p =>
           front_or_ticket v k /\ req <= mt_fee_level (core_payload core)
           /\ fee_order v !! pr_candidate_index p = Some (key_entry k core)
           /\ ac_key (pr_candidate p) = k /\ pr_order p = order
       end.
Proof.
  intros Hv Hk. destruct (queue_lookup_account v k core Hk) as (a & Ea & Et).
  destruct (find_index_spec v k core Hv Hk) as (i & Ei & Hi).
  destruct (first_key_value_is_Some _ _ _ Et) as [[front cf] Ef].
  unfold prepare_queue_accept_iteration, snapshot_candidate, queue_accept_account_state.
  rewrite Ei, Ea. cbn [expect mbind outcome_bind]. rewrite Et. cbn [expect mbind outcome_bind mret outcome_ret].
  rewrite Ef. cbn [expect mbind outcome_bind mret outcome_ret ac_fee_level].
  unfold evaluate_accept_candidate.
  destruct (first_key_value_spec _ _ _ Ef) as [Hf Hmin].
  destruct (is_seq (fk_seq_proxy k) && ord_ltb front (fk_seq_proxy k)) eqn:Eg.
  - apply andb_true_iff in Eg as [Es Hlt]. eexists. split; [reflexivity|].
    split_and!; [done| |done]. intros Hfr.
    apply (account_front_first v k a core Ea Et) in Hfr. rewrite Ef in Hfr. injection Hfr as -> _.
    by rewrite ord_irrefl in Hlt.
  - assert (front_or_ticket v k) as Hfr.
    { apply andb_false_iff in Eg as [Es|Hnlt].
      - left. unfold is_seq, is_ticket in *. by destruct (sp_kind (fk_seq_proxy k)).
      - right. apply (account_front_first v k a core Ea Et).
        rewrite (first_key_value_lower _ _ _ _ _ Ef Et Hnlt) in Et |- *. congruence. }
    destruct (Z.leb_spec req (mt_fee_level (core_payload core)));
      (eexists; split; [reflexivity|]); simpl; split_and!; done || lia.
Qed.

Section Iteration.
Context {St : Type} (apply : St -> MaybeTx -> St * MaybeTx * ApplyResult).

(** The caller's contract: applying a transaction does not change what it is. *)
Definition apply_frame : Prop :=
  forall s t s' t' r, apply s t = (s', t', r) -> same_identity t t'.

Inductive iter_case order (s : St) v k core (req : Z)
    : St -> QueueViews -> QueueAcceptIteration -> Prop :=
| ic_skip c :
    is_seq (fk_seq_proxy k) = true -> ~ account_front v k ->
    iter_case order s v k core req s v (ItSkipNotFirst c (next_fee_candidate_key v k))
| ic_stop c :
    front_or_ticket v k -> mt_fee_level (core_payload core) < req -> ac_key c = k ->
    iter_case order s v k core req s v (ItStopInsufficientFee c req)
| ic_erased s' t' r v1 i next it :
    front_or_ticket v k -> req <= mt_fee_level (core_payload core) ->
    apply s (core_payload core) = (s', t', r) ->
    views_sim v v1 -> views_ok v1 -> fe_key <$> fee_order v1 !! i = Some k ->
    next_ok order v1 i k next ->
    it_ledger_changed it = ar_applied r -> it_stop_candidate it = None ->
    it_next_candidate it = queue_view_next_to_option next ->
    iter_case order s v k core req s' (erase_key v1 k) it
| ic_retained s' t' r v1 it :
    front_or_ticket v k -> req <= mt_fee_level (core_payload core) ->
    apply s (core_payload core) = (s', t', r) -> ar_applied r = false ->
    views_sim v v1 -> views_ok v1 ->
    it_ledger_changed it = false -> it_stop_candidate it = None ->
    it_next_candidate it = next_fee_candidate_key v1 k ->
    iter_case order s v k core req s' v1 it
| ic_tail_dropped s' t' r v1 tail it :
    front_or_ticket v k -> req <= mt_fee_level (core_payload core) ->
    apply s (core_payload core) = (s', t', r) -> ar_applied r = false ->
    views_sim v v1 -> views_ok v1 ->
    tail <> k -> fk_account tail = fk_account k -> is_Some (queue_lookup v1 tail) ->
    (forall x, fk_account x = fk_account k -> is_Some (queue_lookup v1 x) ->
       ord_leb (fk_seq_proxy x) (fk_seq_proxy tail) = true) ->
    it_ledger_changed it = false -> it_stop_candidate it = None ->
    it_next_candidate it = next_fee_candidate_key (erase_key v1 tail) k ->
    iter_case order s v k core req s' (erase_key v1 tail) it.

Lemma account_tail_spec v k core :
  queue_lookup v k = Some core ->
  exists tail, account_tail v (fk_account k) = Some tail /\ fk_account tail = fk_account k
    /\ is_Some (queue_lookup v tail)
    /\ forall x, fk_account x = fk_account k -> is_Some (queue_lookup v x) ->
         ord_leb (fk_seq_proxy x) (fk_seq_proxy tail) = true.
Proof.
  intros (a & Ea & Et)%queue_lookup_account. unfold account_tail. rewrite Ea. cbn [mbind option_bind].
  destruct (last_key_value_is_Some _ _ _ Et) as [[s c] Es]. rewrite Es. cbn [mbind option_bind].
  destruct (last_key_value_spec _ _ _ Es) as [Hs Hmax].
  eexists. split; [reflexivity|]. split; [done|]. split.
  - unfold queue_lookup. simpl. rewrite Ea. eauto.
  - intros x Ex [cx Hcx]. simpl. apply (Hmax _ cx). unfold queue_lookup in Hcx.
    by rewrite Ex, Ea in Hcx.
Qed.

Lemma finalize_retained_spec v k core candidate ter d :
  views_ok v -> queue_lookup v k = Some core -> ac_key candidate = k ->
  exists v1 v' it, finalize_retained v candidate ter d = Ok (v', it)
    /\ views_sim v v1 /\ views_ok v1
    /\ it_ledger_changed it = false /\ it_stop_candidate it = None
    /\ it_next_candidate it = next_fee_candidate_key v' k
    /\ (v' = v1
        \/ exists tail, v' = erase_key v1 tail /\ tail <> k /\ fk_account tail = fk_account k
             /\ is_Some (queue_lookup v1 tail)
             /\ forall x, fk_account x = fk_account k -> is_Some (queue_lookup v1 x) ->
                  ord_leb (fk_seq_proxy x) (fk_seq_proxy tail) = true).
Proof.
  intros Hv Hk Ec. unfold finalize_retained. rewrite Ec, (get_payload_eq v k core Hk).
  cbn [mbind outcome_bind].
  destruct (update_payload_spec v k core
    (set_last_result (set_retries (core_payload core) (fd_next_retries_remaining d))
       (fd_last_result d)) Hv Hk) as (v1 & E1 & Hs & Hv1 & Hk1); [done|].
  rewrite E1. cbn [mbind outcome_bind].
  set (drop_last := match fd_action d with DropLastFromAccount => true | _ => false end).
  destruct drop_last.
  2: { do 3 eexists. split; [reflexivity|]. split_and!; [done..|by left]. }
  destruct (account_tail_spec v1 k _ Hk1) as (tail & -> & Etn & Htq & Hmax).
  cbn [expect mbind outcome_bind]. destruct (decide (tail = k)) as [Etk|Hne].
  - rewrite bool_decide_eq_true_2 by done. do 3 eexists. split; [reflexivity|].
    split_and!; [done..|by left].
  - rewrite bool_decide_eq_false_2 by done. destruct Htq as [ct Hct].
    rewrite (remove_by_key_eq v1 tail ct Hv1 Hct). do 3 eexists. split; [reflexivity|].
    split_and!; [done..|]. right. exists tail. split_and!; eauto.
Qed.

(** After an application, on views that only differ in payloads from those the
    iteration was prepared on. *)
Lemma finalize_spec v k core p r :
  views_ok v -> queue_lookup v k = Some core -> front_or_ticket v k ->
  fee_order v !! pr_candidate_index p = Some (key_entry k core) -> ac_key (pr_candidate p) = k ->
  exists v' it, finalize_prepared_queue_accept_apply v p r = Ok (v', it)
    /\ it_stop_candidate it = None /\ it_ledger_changed it = ar_applied r
    /\ exists v1, views_sim v v1 /\ views_ok v1
       /\ ((exists next, v' = erase_key v1 k /\ fe_key <$> fee_order v1 !! pr_candidate_index p = Some k
               /\ next_ok (pr_order p) v1 (pr_candidate_index p) k next
               /\ it_next_candidate it = queue_view_next_to_option next)
           \/ (ar_applied r = false /\ it_next_candidate it = next_fee_candidate_key v' k
               /\ (v' = v1
                   \/ exists tail, v' = erase_key v1 tail /\ tail <> k
                        /\ fk_account tail = fk_account k /\ is_Some (queue_lookup v1 tail)
                        /\ forall x, fk_account x = fk_account k -> is_Some (queue_lookup v1 x) ->
                             ord_leb (fk_seq_proxy x) (fk_seq_proxy tail) = true))).
Proof.
  intros Hv Hk Hfr Hi Hck. unfold finalize_prepared_queue_accept_apply.
  assert (fe_key (key_entry k core) = k) as Ekk by by destruct k.
  assert (forall w, views_ok w -> fee_order w = fee_order v ->
    (forall k', queue_lookup w k' = queue_lookup v k') ->
    exists next, erase_and_advance w (pr_candidate_index p) (pr_order p) = Ok (erase_key w k, k, next)
      /\ next_ok (pr_order p) w (pr_candidate_index p) k next) as Herase.
  { intros w Hw Ef Eq. destruct (erase_and_advance_spec w (pr_candidate_index p) (key_entry k core)
      (pr_order p)) as (next & E & Hn); [done|by rewrite Ef| |by rewrite Ekk in E, Hn; eauto].
    rewrite Ekk. by apply (views_sim_front_or_ticket v w k); [apply same_lookup_sim|]. }
  destruct (ar_applied r) eqn:Ear.
  - destruct (Herase v Hv eq_refl ltac:(done)) as (next & -> & Hn). cbn [mbind outcome_bind].
    do 2 eexists. split; [reflexivity|]. split; [done|]. split; [done|].
    exists v. split; [reflexivity|]. split; [done|]. left. exists next. split_and!; try done.
    by rewrite Hi, <- Ekk.
  - set (d := decide_failed_candidate _ _ _ _ _ _ _). rewrite Hck.
    destruct (queue_lookup_account v k core Hk) as (a & Ea & _).
    destruct (mark_penalty_spec v (fk_account k) (fd_penalty_update d) Hv ltac:(eauto))
      as (w & -> & Hw & Ef & Eq). cbn [mbind outcome_bind].
    pose proof (same_lookup_sim v w Ef Eq) as Hs.
    destruct (Herase w Hw Ef Eq) as (next & Ew & Hn).
    assert (fe_key <$> fee_order w !! pr_candidate_index p = Some k) as Hwi
      by by rewrite Ef, Hi, <- Ekk.
    destruct (fd_action d); rewrite ?Ew; cbn [mbind outcome_bind].
    1, 3: do 2 eexists; (split; [reflexivity|]); (split; [done|]); (split; [done|]);
      exists w; (split; [done|]); (split; [done|]); left; exists next; by split_and!.
    all: destruct (finalize_retained_spec w k core (pr_candidate p) (ar_ter r) d Hw
           ltac:(by rewrite Eq) Hck) as (v1 & v' & it & -> & Hs1 & Hv1 & E1 & E2 & E3 & E4);
      do 2 eexists; (split; [reflexivity|]); (split; [done|]); (split; [done|]);
      exists v1; (split; [by etrans|]); (split; [done|]); right; by split_and!.
Qed.

Lemma iter_case_intro order s v k core req full :
  apply_frame -> views_ok v -> queue_lookup v k = Some core ->
  exists s' v' it, run_queue_accept_iteration apply s v k req full order = Ok (s', v', it)
    /\ views_ok v' /\ iter_case order s v k core req s' v' it.
Proof.
  intros Hfr Hv Hk. unfold run_queue_accept_iteration.
  destruct (prepare_spec v k core req full order Hv Hk) as (pi & -> & Hpi). cbn [mbind outcome_bind].
  destruct pi as [[]|p]; try done.
  - destruct Hpi as (H1 & H2 & ->). do 3 eexists. split; [reflexivity|]. split; [done|]. by constructor.
  - destruct Hpi as (H1 & H2 & H3 & ->). do 3 eexists. split; [reflexivity|]. split; [done|]. by constructor.
  - destruct Hpi as (Hf & Hreq & Hi & Hck & Hord). unfold run_prepared_queue_accept_apply.
    rewrite Hck, (get_payload_eq v k core Hk). cbn [mbind outcome_bind].
    destruct (apply s (core_payload core)) as [[s' t'] r] eqn:Ea.
    destruct (update_payload_spec v k core t' Hv Hk (Hfr _ _ _ _ _ Ea)) as (w & -> & Hs & Hw & Hkw).
    cbn [mbind outcome_bind].
    destruct (finalize_spec w k _ p r Hw Hkw) as (v' & it & -> & Hst & Hlc & v1 & Hs1 & Hv1 & Hcase);
      [by eapply views_sim_front_or_ticket| |done|].
    { rewrite (proj1 Hs), Hi. f_equal. symmetry. apply key_entry_sim. split; [|done].
      by apply (Hfr _ _ _ _ _ Ea). }
    cbn [mbind outcome_bind]. do 3 eexists. split; [reflexivity|].
    assert (views_sim v v1) as Hs' by by etrans.
    destruct Hcase as [(next & -> & Hk1 & Hn & Hnx)|(Hna & Hnx & [->|(tail & -> & H1 & H2 & H3 & H4)])].
    + split; [by apply erase_key_ok|]. rewrite Hord in Hn. by eapply ic_erased.
    + split; [done|]. rewrite Hna in Hlc. by eapply ic_retained.
    + split; [by apply erase_key_ok|]. rewrite Hna in Hlc. by eapply ic_tail_dropped.
Qed.
End Iteration.
End AcceptInv.

(** ** Transaction queue: the loop of [TxQ::accept]

    The walk goes back when an account's next transaction has become eligible, so
    its termination needs a measure: each iteration shortens the queue or moves
    forward in it. [accept_loop_ind] is the induction principle the theorems use. *)

Section Loop.
Context `{!TxQTypes}.
Implicit Types (v w : QueueViews) (k : FeeQueueKey) (core : MaybeTxCore) (order : Z).

Definition position v k : nat := default 0%nat (find_fee_candidate_index v k).

(** How much of the walk can still come. *)
Definition walk_measure v (current : option FeeQueueKey) : nat :=
  let n := length (fee_order v) in
  match current with
  | None => 0%nat
  | Some k => (n * (n + 1) + (n - position v k))%nat
  end.

Definition current_ok v (current : option FeeQueueKey) : Prop :=
  forall k, current = Some k -> is_Some (queue_lookup v k).

Lemma position_spec v k core :
  views_ok v -> queue_lookup v k = Some core ->
  fee_order v !! position v k = Some (key_entry k core)
  /\ find_fee_candidate_index v k = Some (position v k).
Proof.
  intros Hv Hk. destruct (find_index_spec v k core Hv Hk) as (i & Ei & Hi).
  unfold position. by rewrite Ei.
Qed.

Lemma find_position_unique v k i :
  views_ok v -> fe_key <$> fee_order v !! i = Some k -> position v k = i.
Proof.
  intros Hv Hi. destruct (fee_order v !! i) as [e|] eqn:Ee; [|done]. injection Hi as Hk.
  destruct (entry_queued v e Hv (list_elem_of_lookup_2 _ _ _ Ee)) as (c & Hc & _).
  rewrite Hk in Hc. destruct (position_spec v k c Hv Hc) as [Hp _].
  apply (NoDup_lookup (fe_key <$> fee_order v) _ _ k (vo_nodup _ Hv));
    rewrite list_lookup_fmap; [rewrite Hp; by destruct k | by rewrite Ee, <- Hk].
Qed.

Lemma next_key_spec v k core :
  views_ok v -> queue_lookup v k = Some core ->
  next_fee_candidate_key v k = fe_key <$> fee_order v !! S (position v k).
Proof.
  intros Hv Hk. destruct (position_spec v k core Hv Hk) as [_ Ei].
  unfold next_fee_candidate_key. by rewrite Ei.
Qed.

Lemma fee_key_queued v i k :
  views_ok v -> fe_key <$> fee_order v !! i = Some k -> is_Some (queue_lookup v k).
Proof.
  intros Hv Hi. destruct (fee_order v !! i) as [e|] eqn:Ee; [|done]. injection Hi as <-.
  destruct (entry_queued v e Hv (list_elem_of_lookup_2 _ _ _ Ee)) as (c & Hc & _). eauto.
Qed.

Lemma position_lt v k : views_ok v -> is_Some (queue_lookup v k) ->
  (position v k < length (fee_order v))%nat.
Proof. intros Hv [c Hc]. destruct (position_spec v k c Hv Hc) as [Hp _]. by apply lookup_lt_Some in Hp. Qed.

(** Moving to the next entry of the same queue. *)
Lemma measure_forward v k :
  views_ok v -> is_Some (queue_lookup v k) ->
  (walk_measure v (next_fee_candidate_key v k) < walk_measure v (Some k))%nat
  /\ current_ok v (next_fee_candidate_key v k).
Proof.
  intros Hv [core Hk]. pose proof (position_lt v k Hv ltac:(eauto)) as Hlt.
  rewrite (next_key_spec v k core Hv Hk).
  destruct (fe_key <$> fee_order v !! S (position v k)) as [k'|] eqn:E; simpl.
  - pose proof (find_position_unique v k' _ Hv E). pose proof (fee_key_queued v _ k' Hv E) as Hq.
    pose proof (position_lt v k' Hv Hq). split; [lia|]. by intros ? [= <-].
  - split; [lia|done].
Qed.

(** A shorter queue has a smaller measure wherever the walk stands. *)
Lemma measure_shorter v w k current :
  views_ok v -> is_Some (queue_lookup v k) -> length (fee_order v) = S (length (fee_order w)) ->
  (walk_measure w current < walk_measure v (Some k))%nat.
Proof.
  intros Hv Hk Hlen. pose proof (position_lt v k Hv Hk). unfold walk_measure.
  destruct current; rewrite Hlen in *; nia.
Qed.

Lemma sim_length v w : views_sim v w -> length (fee_order w) = length (fee_order v).
Proof. by intros [-> _]. Qed.

Lemma next_ok_current order v i k next :
  views_ok v -> fe_key <$> fee_order v !! i = Some k -> next_ok order v i k next ->
  current_ok (erase_key v k) (queue_view_next_to_option next).
Proof.
  intros Hv Hi Hn k' Ek'. rewrite queue_lookup_erase.
  destruct next as [|x|x]; [done|..]; injection Ek' as ->.
  - destruct Hn as [Hx _]. rewrite decide_False; [by apply (fee_key_queued v (S i))|].
    intros ->. pose proof (find_position_unique v k i Hv Hi). pose proof (find_position_unique v k (S i) Hv Hx). lia.
  - destruct Hn as [Hx _]. destruct (account_next_spec v k k' Hx) as (_ & Hlt & Hq & _).
    rewrite decide_False; [done|]. intros ->. by rewrite ord_irrefl in Hlt.
Qed.

Section Run.
Context {St : Type} (apply : St -> MaybeTx -> St * MaybeTx * ApplyResult) (Hframe : apply_frame apply).

(** Every iteration that goes on makes progress and stays inside the queue. *)
Lemma iteration_progress order s v k core req s' v' it :
  views_ok v -> queue_lookup v k = Some core -> views_ok v' ->
  iter_case apply order s v k core req s' v' it -> it_stop_candidate it = None ->
  (walk_measure v' (it_next_candidate it) < walk_measure v (Some k))%nat
  /\ current_ok v' (it_next_candidate it) /\ (length (fee_order v') <= length (fee_order v))%nat.
Proof.
  intros Hv Hk Hv' Hc Hst.
  assert (forall w, views_sim v w -> views_ok w -> queue_lookup w k <> None ->
    forall k', is_Some (queue_lookup w k') ->
    length (fee_order v) = S (length (fee_order (erase_key w k')))) as Hshort.
  { intros w Hs Hw _ k' [c' Hc']. rewrite <- (sim_length v w Hs).
    by apply (filter_length_delete w k' c'). }
  destruct Hc as [c Hsq Hnf|c|s' t' r v1 i next it Hf Hreq Ha Hs Hv1 Hi Hn _ _ ->
    |s' t' r v1 it Hf Hreq Ha Hna Hs Hv1 _ _ ->
    |s' t' r v1 tail it Hf Hreq Ha Hna Hs Hv1 Hne Htn Htq Hmax _ _ ->].
  - destruct (measure_forward v k Hv ltac:(eauto)). simpl. split_and!; done || lia.
  - done.
  - destruct (views_sim_core v v1 k core Hs Hk) as (c1 & Hc1 & _).
    pose proof (Hshort v1 Hs Hv1 ltac:(by rewrite Hc1) k ltac:(eauto)) as Hlen.
    split_and!; [|by eapply next_ok_current|lia]. apply measure_shorter; eauto.
  - destruct (views_sim_core v v1 k core Hs Hk) as (c1 & Hc1 & _).
    destruct (measure_forward v1 k Hv1 ltac:(eauto)) as [Hm Hcur].
    assert (walk_measure v (Some k) = walk_measure v1 (Some k)) as ->.
    { unfold walk_measure, position, find_fee_candidate_index. by rewrite (proj1 Hs). }
    rewrite (sim_length v v1 Hs). split_and!; done || lia.
  - destruct (views_sim_core v v1 k core Hs Hk) as (c1 & Hc1 & _).
    pose proof (Hshort v1 Hs Hv1 ltac:(by rewrite Hc1) tail Htq) as Hlen.
    split_and!; [|apply measure_forward; [done|] |lia].
    + apply measure_shorter; eauto.
    + rewrite queue_lookup_erase, decide_False by done. eauto.
Qed.

Lemma iter_stop order s v k core req s' v' it stop :
  iter_case apply order s v k core req s' v' it -> it_stop_candidate it = Some stop ->
  s' = s /\ v' = v /\ front_or_ticket v k /\ mt_fee_level (core_payload core) < req
  /\ ac_key stop = k /\ it_ledger_changed it = false /\ it_next_candidate it = None.
Proof. intros Hc Est. inversion Hc; subst; try congruence; [done|]. by injection Est as <-. Qed.

Variable required_fee : St -> QueueViews -> outcome Z.
Variable nearly_full : QueueViews -> bool.
Hypothesis Hrequired : forall s v, exists req, required_fee s v = Ok req.

(** The loop returns, whatever the applications do, and an invariant of the
    iterations holds where it stops. *)
Lemma accept_loop_ind (I : St -> QueueViews -> option FeeQueueKey -> bool -> Prop) order :
  (forall s v k core req s' v' it changed,
     views_ok v -> queue_lookup v k = Some core -> required_fee s v = Ok req -> views_ok v' ->
     I s v (Some k) changed -> iter_case apply order s v k core req s' v' it ->
     it_stop_candidate it = None ->
     I s' v' (it_next_candidate it) (changed || it_ledger_changed it)) ->
  forall fuel s v changed n current,
  views_ok v -> current_ok v current -> I s v current changed ->
  (walk_measure v current < fuel)%nat ->
  exists s' v' stage,
    run_queue_accept_loop apply required_fee nearly_full fuel order s v changed n current
      = Ok (s', v', stage)
    /\ views_ok v' /\ (length (fee_order v') <= length (fee_order v))%nat
    /\ n <= sg_processed_candidates stage <= n + Z.of_nat (walk_measure v current) + 1
    /\ I s' v' (sg_stop_candidate stage) (sg_ledger_changed stage)
    /\ forall k, sg_stop_candidate stage = Some k ->
         exists core req, queue_lookup v' k = Some core /\ required_fee s' v' = Ok req
           /\ front_or_ticket v' k /\ mt_fee_level (core_payload core) < req.
Proof.
  intros Hstep. induction fuel as [|fuel IH]; intros s v changed n current Hv Hcur HI Hfuel; [lia|].
  cbn [run_queue_accept_loop]. destruct current as [k|].
  2: { do 3 eexists. split; [reflexivity|]. simpl. split_and!; try done; lia. }
  destruct (Hcur k eq_refl) as [core Hk]. destruct (Hrequired s v) as [req Ereq]. rewrite Ereq.
  cbn [mbind outcome_bind].
  destruct (iter_case_intro apply order s v k core req (nearly_full v) Hframe Hv Hk)
    as (s' & v' & it & -> & Hv' & Hcase). cbn [mbind outcome_bind].
  destruct (it_stop_candidate it) as [stop|] eqn:Est.
  - destruct (iter_stop order s v k core req s' v' it stop Hcase Est)
      as (-> & -> & Hf & Hlt & Hkc & Hch & Hnx).
    do 3 eexists. split; [reflexivity|]. cbn [sg_processed_candidates sg_stop_candidate sg_ledger_changed].
    rewrite Hkc, Hch, orb_false_r. split_and!; try done; try lia.
    intros k' [= <-]. eauto 10.
  - destruct (iteration_progress order s v k core req s' v' it Hv Hk Hv' Hcase Est)
      as (Hm & Hcur' & Hlen).
    destruct (IH s' v' (changed || it_ledger_changed it) (n + 1) (it_next_candidate it) Hv' Hcur')
      as (s2 & v2 & stage & -> & Hv2 & Hl2 & Hn & HI2 & Hstop); [exact (Hstep s v k core req s' v' it changed Hv Hk Ereq Hv' HI Hcase Est)|lia|].
    do 3 eexists. split; [reflexivity|]. split_and!; try done; lia.
Qed.
End Run.
End Loop.
