(* ===== verification/TxQAcceptSettled.v ===== *)
(** * Transaction queue: the walk leaves nothing eligible behind

    [settled_upto]: every entry before the walk's position was tried, or waits for an
    earlier transaction of its account. An erased candidate may free its successor,
    which may stand before the position; [choose_next_after_erase] then goes back to
    it, and this is what keeps the invariant. *)

From S2P Require Import Prelude BTree TxQTypes TxQMetrics TxQMetricsTheorems TxQViews TxQInv TxQOps TxQAccept.
From S2P Require Import TxQAcceptInv.

(** ** Transaction queue: the history of a call of [TxQ::accept]

    [traced] records what a call tries against the open ledger, in order. [history]
    ties that record to the queue; [settled_before] says that what the walk has left
    behind was tried or cannot be tried. Both hold through every iteration. *)

Section Trace.
Context `{!TxQTypes} {Ledger : Type}.
Implicit Types (v w : QueueViews) (k : FeeQueueKey) (core : MaybeTxCore) (order : Z).

Record Attempt := mkAttempt { at_tx : MaybeTx; at_result : ApplyResult }.
Implicit Types (a b : Attempt) (tr : list Attempt).

Definition traced (apply : Ledger -> MaybeTx -> Ledger * MaybeTx * ApplyResult)
    (st : Ledger * list Attempt) (t : MaybeTx) : Ledger * list Attempt * MaybeTx * ApplyResult :=
  let '(s', t', r) := apply st.1 t in ((s', st.2 ++ [mkAttempt t r]), t', r).

Definition tx_key (t : MaybeTx) : FeeQueueKey := mkKey (mt_account t) (mt_seq_proxy t).
Definition succeeded a : Prop := ar_applied (at_result a) = true.
Definition applied_in tr : Z := Z.of_nat (length (filter succeeded tr)).

Lemma applied_in_snoc tr a :
  applied_in (tr ++ [a]) = applied_in tr + (if ar_applied (at_result a) then 1 else 0).
Proof.
  unfold applied_in. rewrite filter_app, length_app, filter_cons, filter_nil. unfold succeeded.
  destruct (ar_applied (at_result a)) eqn:E; [rewrite decide_True | rewrite decide_False];
    simpl; done || lia.
Qed.

Lemma sat_u64_succ x : 0 <= x -> sat_u64 (sat_u64 x + 1) = sat_u64 (x + 1).
Proof. unfold sat_u64, u64_max. lia. Qed.

Variable apply : Ledger -> MaybeTx -> Ledger * MaybeTx * ApplyResult.
Hypothesis Hframe : apply_frame apply.

Notation recorded := (counting (traced apply)).
Notation St := (Ledger * list Attempt * Z)%type.
Notation trace st := (st.1.2).

Lemma recorded_frame : apply_frame recorded.
Proof.
  intros [[s tr] n] t st' t' r. unfold counting, traced. simpl.
  destruct (apply s t) as [[s1 t1] r1] eqn:E. intros [= _ <- <-]. by apply (Hframe _ _ _ _ _ E).
Qed.

Lemma recorded_state st t st' t' r :
  recorded st t = (st', t', r) ->
  trace st' = trace st ++ [mkAttempt t r]
  /\ st'.2 = (if ar_applied r then sat_u64 (st.2 + 1) else st.2).
Proof.
  destruct st as [[s tr] n]. unfold counting, traced. simpl.
  destruct (apply s t) as [[s1 t1] r1]. by intros [= <- _ <-].
Qed.

(** After an attempt at [k] at most one key is gone: [k], or, if the attempt failed,
    the last of its account. *)
Definition one_leaves v v' k (r : ApplyResult) : Prop :=
  (forall x, is_Some (queue_lookup v x) -> is_Some (queue_lookup v' x))
  \/ exists x, is_Some (queue_lookup v x) /\ queue_lookup v' x = None
     /\ (forall y, is_Some (queue_lookup v y) -> is_Some (queue_lookup v' y) \/ y = x)
     /\ (x = k \/ ar_applied r = false /\ fk_account x = fk_account k
          /\ ord_ltb (fk_seq_proxy k) (fk_seq_proxy x) = true
          /\ forall y, fk_account y = fk_account k -> is_Some (queue_lookup v y) ->
               ord_leb (fk_seq_proxy y) (fk_seq_proxy x) = true).

(** What an iteration that goes on does to the queue and to the record. *)
Record attempted (st : St) v k core (req : Z) (st' : St) v' (it : QueueAcceptIteration)
    (r : ApplyResult) : Prop := {
  am_eligible : front_or_ticket v k;
  am_paid : req <= mt_fee_level (core_payload core);
  am_trace : trace st' = trace st ++ [mkAttempt (core_payload core) r];
  am_count : st'.2 = (if ar_applied r then sat_u64 (st.2 + 1) else st.2);
  am_changed : it_ledger_changed it = ar_applied r;
  am_sub : forall x c', queue_lookup v' x = Some c' ->
    exists c, queue_lookup v x = Some c /\ core_sim c c';
  am_gone : one_leaves v v' k r;
  am_applied : ar_applied r = true -> queue_lookup v' k = None
}.

Lemma sim_sub v w x c' :
  views_sim v w -> queue_lookup w x = Some c' -> exists c, queue_lookup v x = Some c /\ core_sim c c'.
Proof.
  intros Hs Hx. destruct (views_sim_core w v x c' ltac:(by symmetry) Hx) as (c & Hc & Hsim).
  exists c. split; [done|]. by symmetry.
Qed.

Lemma erase_sub v w y x c' :
  views_sim v w -> queue_lookup (erase_key w y) x = Some c' ->
  exists c, queue_lookup v x = Some c /\ core_sim c c'.
Proof. intros Hs. rewrite queue_lookup_erase. case_decide; [done|]. by apply sim_sub. Qed.

Lemma erase_gone v w y x :
  views_sim v w -> is_Some (queue_lookup v x) -> is_Some (queue_lookup (erase_key w y) x) \/ x = y.
Proof.
  intros Hs Hx. rewrite queue_lookup_erase. case_decide; [by right|]. left.
  by apply (views_sim_keys v w x Hs).
Qed.

Lemma iter_attempted order st v k core req st' v' it :
  queue_lookup v k = Some core ->
  iter_case recorded order st v k core req st' v' it -> it_stop_candidate it = None ->
  (st' = st /\ v' = v /\ it_ledger_changed it = false)
  \/ exists r, attempted st v k core req st' v' it r.
Proof.
  intros Hk Hc Est. destruct Hc as [c Hsq Hnf|c|s' t' r v1 i next it Hf Hreq Ha Hs Hv1 Hi Hn El _ _
    |s' t' r v1 it Hf Hreq Ha Hna Hs Hv1 El _ _
    |s' t' r v1 tail it Hf Hreq Ha Hna Hs Hv1 Hne Htn Htq Hmax El _ _]; [by left|done|..]; right;
    exists r; destruct (recorded_state _ _ _ _ _ Ha) as [Et Ec]; split; try done; try congruence.
  - intros x c'. by apply erase_sub.
  - right. exists k. split_and!; [by eauto|by rewrite queue_lookup_erase, decide_True| |by left].
    intros y. by apply erase_gone.
  - intros _. by rewrite queue_lookup_erase, decide_True.
  - intros x c'. by apply sim_sub.
  - left. intros x Hx. by apply (views_sim_keys v v1 x Hs).
  - intros x c'. by apply erase_sub.
  - right. exists tail. split_and!; [by apply (views_sim_keys v v1 tail Hs)
      |by rewrite queue_lookup_erase, decide_True|intros y; by apply erase_gone|right].
    split_and!; [done|done| |intros y Ey Hy; apply Hmax; [done|by apply (views_sim_keys v v1 y Hs)]].
    pose proof (proj1 (views_sim_keys v v1 k Hs) ltac:(eauto)) as Hk1.
    destruct (proj1 (ord_leb_cases _ _) (Hmax k eq_refl Hk1)) as [E|?]; [|done].
    exfalso. apply Hne. destruct k, tail; simpl in *; congruence.
Qed.

(** ** The record and the queue *)

(** [b] is tried after [a]: no lower sequence of the account, and not the same
    transaction, ticket or not, once [a] is applied. *)
Definition in_account_order a b : Prop :=
  mt_account (at_tx a) = mt_account (at_tx b) ->
  (is_seq (mt_seq_proxy (at_tx a)) = true ->
     ord_leb (mt_seq_proxy (at_tx a)) (mt_seq_proxy (at_tx b)) = true)
  /\ (succeeded a -> mt_seq_proxy (at_tx a) <> mt_seq_proxy (at_tx b)).

(** Why [k] left, when [before] had left and [tr] has been tried: it was tried itself, or
    an earlier transaction of its account failed and nothing of that account was
    queued after it. *)
Definition left_rightly v0 tr (before : list FeeQueueKey) k : Prop :=
  exists a, a ∈ tr /\ mt_account (at_tx a) = fk_account k
    /\ (mt_seq_proxy (at_tx a) = fk_seq_proxy k
        \/ ~ succeeded a /\ ord_ltb (mt_seq_proxy (at_tx a)) (fk_seq_proxy k) = true
           /\ forall y, fk_account y = fk_account k -> is_Some (queue_lookup v0 y) ->
                ord_ltb (fk_seq_proxy k) (fk_seq_proxy y) = true -> y ∈ before).

(** The keys that left, in the order in which they left. *)
Definition departures v0 v tr (left : list FeeQueueKey) : Prop :=
  NoDup left
  /\ (forall k, k ∈ left <-> is_Some (queue_lookup v0 k) /\ queue_lookup v k = None)
  /\ forall before k after, left = before ++ k :: after -> left_rightly v0 tr before k.

(** The fee level asked of the attempt that comes after [pre]. *)
Definition level_after (snapshot : QueueFeeMetricsSnapshot) (cs : QueueAcceptCallState) pre : Z :=
  escalated snapshot (sat_u64 (cs_open_ledger_tx_count cs + sat_u64 (applied_in pre))).

Record history v0 snapshot cs (st : St) v (changed : bool) : Prop := {
  hi_sub : forall k c', queue_lookup v k = Some c' ->
    exists c, queue_lookup v0 k = Some c /\ core_sim c c';
  hi_count : st.2 = sat_u64 (applied_in (trace st));
  hi_changed : changed = (0 <? applied_in (trace st));
  hi_paid : forall pre a post, trace st = pre ++ a :: post ->
    level_after snapshot cs pre <= mt_fee_level (at_tx a);
  hi_queued : forall a, a ∈ trace st -> exists core, queue_lookup v0 (tx_key (at_tx a)) = Some core
    /\ same_identity (core_payload core) (at_tx a);
  hi_applied : forall a, a ∈ trace st -> succeeded a -> queue_lookup v (tx_key (at_tx a)) = None;
  hi_low : forall a k, a ∈ trace st -> is_seq (mt_seq_proxy (at_tx a)) = true ->
    fk_account k = mt_account (at_tx a) -> is_Some (queue_lookup v k) ->
    ord_leb (mt_seq_proxy (at_tx a)) (fk_seq_proxy k) = true;
  hi_order : StronglySorted in_account_order (trace st);
  hi_gone : exists left, departures v0 v (trace st) left
}.

Lemma history_start v snapshot cs s : history v snapshot cs (s, [], 0) v false.
Proof.
  constructor; simpl; try done.
  - intros k c Hk. by exists c.
  - by intros [|? ?].
  - by intros a ?%elem_of_nil.
  - by intros a ?%elem_of_nil.
  - by intros a k ?%elem_of_nil.
  - constructor.
  - exists []. split_and!; [constructor| |by intros [|? ?]]. intros k. split; [by intros ?%elem_of_nil|].
    intros [[c ->] ?]. done.
Qed.

Lemma StronglySorted_snoc {A} (R : A -> A -> Prop) l x :
  StronglySorted R l -> (forall y, y ∈ l -> R y x) -> StronglySorted R (l ++ [x]).
Proof.
  induction 1 as [|y l S IH Hy]; intros Hx; simpl; [repeat constructor|].
  constructor; [apply IH; intros; apply Hx; by right|].
  apply Forall_app. split; [done|]. constructor; [apply Hx; by left|done].
Qed.

Lemma snoc_split {A} (tr pre post : list A) (x a : A) :
  tr ++ [x] = pre ++ a :: post ->
  (exists post', tr = pre ++ a :: post') \/ (pre = tr /\ a = x).
Proof.
  destruct post as [|y post _] using rev_ind; intros E.
  - right. apply app_inj_2 in E as [-> [= <-]]; done.
  - left. exists post. rewrite app_comm_cons, app_assoc in E. by apply app_inj_2 in E as [-> _].
Qed.

Lemma core_names_key v k core : views_ok v -> queue_lookup v k = Some core ->
  tx_key (core_payload core) = k.
Proof.
  intros Hv Hk. destruct (vo_payload _ Hv k core Hk) as [E1 E2].
  unfold tx_key. rewrite E1, E2. by destruct k.
Qed.

Lemma core_sim_key c c' : core_sim c c' -> tx_key (core_payload c') = tx_key (core_payload c).
Proof. intros [(_ & _ & E3 & E4 & _) _]. unfold tx_key. by rewrite E3, E4. Qed.

Section Step.
Variables (v0 : QueueViews) (snapshot : QueueFeeMetricsSnapshot) (cs : QueueAcceptCallState).
Hypothesis Hv0 : views_ok v0.

Lemma attempt_order st v changed k core a :
  history v0 snapshot cs st v changed -> views_ok v -> queue_lookup v k = Some core ->
  a ∈ trace st -> in_account_order a (mkAttempt (core_payload core) (at_result a)).
Proof.
  intros Hh Hv Hk Ha En. destruct (vo_payload _ Hv k core Hk) as [E1 E2]. simpl in *.
  rewrite E1, E2 in *. split.
  - intros Es. by apply (hi_low _ _ _ _ _ _ Hh a k); eauto.
  - intros Hs Heq. pose proof (hi_applied _ _ _ _ _ _ Hh a Ha Hs) as Hnone.
    unfold tx_key in Hnone. rewrite En, Heq in Hnone. destruct k. simpl in *. congruence.
Qed.

Lemma left_rightly_app tr a before k : left_rightly v0 tr before k -> left_rightly v0 (tr ++ [a]) before k.
Proof. intros (b & Hb & Hr). exists b. split; [apply elem_of_app; by left|done]. Qed.

(** One attempt makes at most one key leave. *)
Lemma departures_attempt v v' tr k core r left :
  departures v0 v tr left -> views_ok v -> queue_lookup v k = Some core ->
  (forall x, is_Some (queue_lookup v x) -> is_Some (queue_lookup v0 x)) ->
  (forall x, is_Some (queue_lookup v' x) -> is_Some (queue_lookup v x)) ->
  one_leaves v v' k r ->
  exists left', departures v0 v' (tr ++ [mkAttempt (core_payload core) r]) left'.
Proof.
  intros (Hnd & Hin & Hwhy) Hv Hk Hv0' Hback [Hall|(x & Hx & Hgone & Hrest & Hcase)].
  - exists left. split_and!; [done| |intros; by eapply left_rightly_app, Hwhy].
    intros y. rewrite Hin, !eq_None_not_Some. naive_solver.
  - exists (left ++ [x]). destruct (vo_payload _ Hv k core Hk) as [E1 E2]. split_and!.
    + apply NoDup_app. split_and!; [done| |apply NoDup_singleton].
      intros y [_ Hy]%Hin ->%list_elem_of_singleton. rewrite Hy in Hx. by destruct Hx.
    + intros y. rewrite elem_of_app, list_elem_of_singleton, Hin, !eq_None_not_Some.
      rewrite eq_None_not_Some in Hgone. split; [naive_solver|].
      intros [Hy0 Hn]. destruct (decide (y = x)) as [->|Hne]; [by right|]. left. split; [done|].
      intros [|]%Hrest; done.
    + intros before y after [[post' E]|[-> ->]]%snoc_split; [by eapply left_rightly_app, Hwhy|].
      eexists. split; [apply elem_of_app; right; by left|]. cbn [at_tx]. rewrite E1, E2.
      destruct Hcase as [->|(Hna & En & Hlt & Hlast)]; [by eauto|]. split; [done|]. right.
      split_and!; [unfold succeeded; simpl; congruence|done|].
      intros y Ey Hy Hgt. apply Hin. split; [done|]. apply eq_None_not_Some. intros Hyv.
      assert (ord_leb (fk_seq_proxy y) (fk_seq_proxy x) = true) as Hle by (apply Hlast; [congruence|done]).
      unfold ord_leb in Hle. by rewrite Hgt in Hle.
Qed.

Lemma history_attempt st v changed k core st' v' it r :
  history v0 snapshot cs st v changed -> views_ok v -> queue_lookup v k = Some core ->
  attempted st v k core (level_after snapshot cs (trace st)) st' v' it r ->
  history v0 snapshot cs st' v' (changed || it_ledger_changed it).
Proof.
  intros Hh Hv Hk Ham. pose proof (core_names_key v k core Hv Hk) as Ekey.
  destruct (vo_payload _ Hv k core Hk) as [E1 E2].
  destruct Ham as [Hel Hp Et Ec Ech Hsub Hgone Happ].
  assert (forall x, is_Some (queue_lookup v' x) -> is_Some (queue_lookup v x)) as Hback.
  { intros x [c' Hc']. destruct (Hsub x c' Hc') as (c & Hc & _). eauto. }
  constructor; rewrite ?Et.
  - intros x c' Hc'. destruct (Hsub x c' Hc') as (c & Hc & Hsim).
    destruct (hi_sub _ _ _ _ _ _ Hh x c Hc) as (c0 & Hc0 & Hsim0).
    exists c0. split; [done|]. by etrans.
  - rewrite Ec, applied_in_snoc, (hi_count _ _ _ _ _ _ Hh). cbn [at_result].
    destruct (ar_applied r); [|by rewrite Z.add_0_r]. apply sat_u64_succ. unfold applied_in; lia.
  - rewrite Ech, applied_in_snoc, (hi_changed _ _ _ _ _ _ Hh). cbn [at_result].
    assert (0 <= applied_in (trace st)) by (unfold applied_in; lia).
    destruct (ar_applied r), (Z.ltb_spec 0 (applied_in (trace st))), (Z.ltb_spec 0 (applied_in (trace st) + 1));
      rewrite ?Z.add_0_r; simpl; try lia; symmetry; by apply Z.ltb_lt || by apply Z.ltb_ge.
  - intros pre a post [[post' E]|[-> ->]]%snoc_split; [by eapply hi_paid|done].
  - intros a [Ha| ->%list_elem_of_singleton]%elem_of_app; [by eapply hi_queued|]. cbn [at_tx].
    rewrite Ekey. destruct (hi_sub _ _ _ _ _ _ Hh k core Hk) as (c0 & Hc0 & Hsim & _). eauto.
  - intros a [Ha| ->%list_elem_of_singleton]%elem_of_app Hs; cbn [at_tx]; [|rewrite Ekey; by apply Happ].
    apply eq_None_not_Some. intros [c Hc]%Hback.
    by rewrite (hi_applied _ _ _ _ _ _ Hh a Ha Hs) in Hc.
  - intros a x [Ha| ->%list_elem_of_singleton]%elem_of_app Hs En Hx.
    + by apply (hi_low _ _ _ _ _ _ Hh a x); eauto.
    + cbn [at_tx] in *. rewrite E1 in En. rewrite E2 in Hs |- *. destruct Hel as [Ht|Hfr].
      * unfold is_ticket, is_seq in *. by destruct (sp_kind (fk_seq_proxy k)).
      * by apply Hfr; [|apply Hback].
  - apply StronglySorted_snoc; [by eapply hi_order|]. intros a Ha.
    by apply (attempt_order st v changed k core a).
  - destruct (hi_gone _ _ _ _ _ _ Hh) as [left Hl].
    apply (departures_attempt v v' (trace st) k core r left); [done..| |done|done].
    intros x [c Hc]. destruct (hi_sub _ _ _ _ _ _ Hh x c Hc) as (c0 & -> & _). done.
Qed.
End Step.
End Trace.

Section Settled.
Context `{!TxQTypes}.
Implicit Types (v w : QueueViews) (k : FeeQueueKey) (core : MaybeTxCore) (order : Z) (e : FeeQueueEntry).
Implicit Types tr : list Attempt.

Definition tried tr k : Prop := exists a, a ∈ tr /\ tx_key (at_tx a) = k.

Definition settled tr v e : Prop :=
  tried tr (fe_key e) \/ (is_seq (fk_seq_proxy (fe_key e)) = true /\ ~ account_front v (fe_key e)).

Definition settled_upto tr v (current : option FeeQueueKey) : Prop :=
  match current with
  | Some k => exists pre e post, fee_order v = pre ++ e :: post /\ fe_key e = k
                /\ Forall (settled tr v) pre
  | None => Forall (settled tr v) (fee_order v)
  end.

Definition distinct_ids v : Prop := NoDup ((fun e => qc_tx_id (fe_candidate e)) <$> fee_order v).

Lemma distinct_ids_erase v k : distinct_ids v -> distinct_ids (erase_key v k).
Proof. intros D. by apply NoDup_fmap_filter. Qed.

Lemma tried_app tr a k : tried tr k -> tried (tr ++ [a]) k.
Proof. intros (b & Hb & E). exists b. split; [apply elem_of_app; by left|done]. Qed.

Lemma tried_snoc tr a : tried (tr ++ [a]) (tx_key (at_tx a)).
Proof. exists a. split; [apply elem_of_app; right; by left|done]. Qed.

Lemma settled_upto_app tr a v cur : settled_upto tr v cur -> settled_upto (tr ++ [a]) v cur.
Proof.
  assert (forall l, Forall (settled tr v) l -> Forall (settled (tr ++ [a]) v) l) as G.
  { intros l Hl. eapply Forall_impl; [exact Hl|]. intros x [Ht|?]; [left; by apply tried_app | by right]. }
  destruct cur as [k|]; simpl; [|apply G]. intros (pre & e & post & E1 & E2 & Hp).
  exists pre, e, post. split_and!; [done..|by apply G].
Qed.

Lemma settled_sim tr v w e : views_sim v w -> settled tr v e -> settled tr w e.
Proof.
  intros Hs [?|[Hq Hn]]; [by left|]. right. split; [done|]. intros Hf. apply Hn.
  by apply (views_sim_front w v); [symmetry|].
Qed.

Lemma settled_upto_sim tr v w cur : views_sim v w -> settled_upto tr v cur -> settled_upto tr w cur.
Proof.
  intros Hs. destruct cur as [k|]; simpl; rewrite (proj1 Hs).
  - intros (pre & e & post & E1 & E2 & Hp). exists pre, e, post. split_and!; [done..|].
    eapply Forall_impl; [exact Hp|]. intros x. by apply settled_sim.
  - intros Hl. eapply Forall_impl; [exact Hl|]. intros x. by apply settled_sim.
Qed.

Lemma next_of_split v pre e post :
  views_ok v -> fee_order v = pre ++ e :: post ->
  next_fee_candidate_key v (fe_key e) = fe_key <$> head post.
Proof.
  intros Hv E. destruct (entry_queued v e Hv) as (c & Hc & _);
    [rewrite E; apply elem_of_app; right; by left|].
  rewrite (next_key_spec v _ c Hv Hc), (find_position_unique v (fe_key e) (length pre) Hv).
  - rewrite E, lookup_app_r by lia. replace (S (length pre) - length pre)%nat with 1%nat by lia.
    by destruct post.
  - by rewrite E, list_lookup_middle.
Qed.

(** Going on past a settled candidate. *)
Lemma settled_forward tr v k :
  views_ok v -> settled_upto tr v (Some k) ->
  tried tr k \/ (is_seq (fk_seq_proxy k) = true /\ ~ account_front v k) ->
  settled_upto tr v (next_fee_candidate_key v k).
Proof.
  intros Hv (pre & e & post & E & <- & Hp) Hk. rewrite (next_of_split v pre e post Hv E).
  assert (Forall (settled tr v) (pre ++ [e])) as Hpre by (apply Forall_app; split; [done|by constructor]).
  destruct post as [|e' post]; simpl; [by rewrite E|].
  exists (pre ++ [e]), e', post. by rewrite E, <- app_assoc.
Qed.

Lemma filter_key_other (l : list FeeQueueEntry) k :
  k ∉ fe_key <$> l -> filter (fun e => fe_key e <> k) l = l.
Proof.
  induction l as [|x l IH]; [done|]. rewrite fmap_cons, not_elem_of_cons. intros [Hx Hl].
  by rewrite filter_cons_True, IH.
Qed.

Lemma erase_split v pre e post :
  views_ok v -> fee_order v = pre ++ e :: post ->
  fee_order (erase_key v (fe_key e)) = pre ++ post /\ fe_key e ∉ fe_key <$> pre
  /\ fe_key e ∉ fe_key <$> post.
Proof.
  intros Hv E. pose proof (vo_nodup _ Hv) as N. rewrite E, fmap_app, fmap_cons in N.
  apply NoDup_app in N as (N1 & N2 & N3). apply NoDup_cons in N3 as [N3 N4].
  assert (fe_key e ∉ fe_key <$> pre) as Hpre.
  { intros Hin. apply (N2 _ Hin). by left. }
  split_and!; [|done|done]. cbn [erase_key fee_order].
  rewrite E, filter_app, filter_cons_False by (intros Hx; by apply Hx).
  by rewrite !filter_key_other.
Qed.

(** Only the successor of the erased transaction can become its account's first. *)
Lemma freed_is_next v k x :
  views_ok v -> is_Some (queue_lookup v x) -> x <> k ->
  account_front (erase_key v k) x -> ~ account_front v x -> account_next v k = Some x.
Proof.
  intros Hv Hx Hne Hfr Hnf.
  assert (fk_account x = fk_account k /\ ord_ltb (fk_seq_proxy k) (fk_seq_proxy x) = true) as [En Hlt].
  { destruct (decide (fk_account x = fk_account k)) as [En|En].
    - split; [done|]. destruct (ord_ltb _ _) eqn:Elt; [done|]. exfalso. apply Hnf. intros y Ey Hy.
      destruct (decide (y = k)) as [->|Hyk]; [unfold ord_leb; by rewrite Elt|].
      apply Hfr; [done|]. by rewrite queue_lookup_erase, decide_False.
    - exfalso. apply Hnf. intros y Ey Hy. apply Hfr; [done|].
      rewrite queue_lookup_erase, decide_False by (intros ->; congruence). done. }
  destruct (account_next v k) as [y|] eqn:E; [|by rewrite (account_next_None v k x E En Hx) in Hlt].
  destruct (account_next_spec v k y E) as (Ey & Hky & Hy & Hmin).
  specialize (Hmin x En Hx Hlt).
  assert (ord_leb (fk_seq_proxy x) (fk_seq_proxy y) = true) as Hle.
  { apply Hfr; [congruence|]. rewrite queue_lookup_erase, decide_False; [done|].
    intros ->. by rewrite ord_irrefl in Hky. }
  f_equal. destruct x as [n s], y as [n' s']. simpl in *. f_equal; [congruence|].
  apply ord_leb_cases in Hmin as [?|H1]; [done|].
  unfold ord_leb in Hle. by rewrite H1 in Hle.
Qed.

Lemma settled_erase tr v k e :
  views_ok v -> e ∈ fee_order v -> fe_key e <> k -> settled tr v e ->
  account_next v k <> Some (fe_key e) -> settled tr (erase_key v k) e.
Proof.
  intros Hv He Hne [Ht|[Hq Hn]] Hnx; [by left|]. right. split; [done|]. intros Hf. apply Hnx.
  destruct (entry_queued v e Hv He) as (c & Hc & _). by apply freed_is_next; eauto.
Qed.

(** Sorted entries with distinct hashes are strictly ordered. *)
Lemma sorted_before order v pre x mid y post :
  fee_sorted order v -> distinct_ids v -> fee_order v = pre ++ x :: mid ++ y :: post ->
  entry_before order x y = true /\ entry_before order y x = false.
Proof.
  unfold fee_sorted, distinct_ids. intros S D E. rewrite E in S, D.
  assert (entry_before order y x = false) as Hyx.
  { apply StronglySorted_app in S as (_ & _ & S). inversion S as [|? ? _ Hx]; subst.
    rewrite Forall_forall in Hx. apply Hx, elem_of_app. right. by left. }
  split; [|done]. destruct (entry_before order x y) eqn:Exy; [done|]. exfalso.
  rewrite entry_before_rank in Exy, Hyx.
  assert (entry_rank order x = entry_rank order y) as Er by by apply ord_total.
  unfold entry_rank in Er. injection Er as _ Er.
  assert (qc_tx_id (fe_candidate x) = qc_tx_id (fe_candidate y)) as Eid.
  { apply (f_equal (fun z => Z.lxor z order)) in Er.
    by rewrite !Z.lxor_assoc, Z.lxor_nilpotent, !Z.lxor_0_r in Er. }
  rewrite fmap_app, fmap_cons, fmap_app, fmap_cons in D. apply NoDup_app in D as (_ & _ & D).
  apply NoDup_cons in D as [D _]. apply D, elem_of_app. right. rewrite Eid. by left.
Qed.

Lemma split_of_elem {A} (l : list A) x : x ∈ l -> exists l1 l2, l = l1 ++ x :: l2.
Proof. apply list_elem_of_split. Qed.

(** Erasing the candidate and advancing. *)
Section EraseStep.
Variables (tr : list Attempt) (order : Z) (v : QueueViews).
Variables (pre post : list FeeQueueEntry) (e : FeeQueueEntry).
Hypotheses (Hv : views_ok v) (Hsorted : fee_sorted order v) (Hids : distinct_ids v).
Hypotheses (E : fee_order v = pre ++ e :: post) (Hp : Forall (settled tr v) pre).

Lemma erase_settled l :
  incl l pre -> (forall x, x ∈ l -> account_next v (fe_key e) <> Some (fe_key x)) ->
  Forall (settled tr (erase_key v (fe_key e))) l.
Proof.
  intros Hin Hnx. rewrite Forall_forall. intros x Hx.
  assert (x ∈ pre) as Hxp by (apply list_elem_of_In, Hin, list_elem_of_In, Hx).
  destruct (erase_split v pre e post Hv E) as (_ & Npre & _).
  apply settled_erase; [done|rewrite E; apply elem_of_app; by left| | |by apply Hnx].
  - intros Ek. apply Npre. rewrite <- Ek. by apply list_elem_of_fmap_2.
  - rewrite Forall_forall in Hp. by apply Hp.
Qed.

(** The entry the walk goes on with does not come after the freed one. *)
Lemma fee_next_settled e' post' :
  post = e' :: post' ->
  (forall x core, account_next v (fe_key e) = Some x -> queue_lookup v x = Some core ->
     entry_before order (key_entry x core) e' = false) ->
  Forall (settled tr (erase_key v (fe_key e))) pre.
Proof.
  intros Epost Hnx. apply erase_settled; [apply incl_refl|]. intros x Hx Hax.
  destruct (split_of_elem pre x Hx) as (p1 & p2 & Epre).
  destruct (entry_queued v x Hv) as (c & Hc & Ex); [rewrite E; apply elem_of_app; by left|].
  specialize (Hnx _ c Hax Hc). rewrite <- Ex in Hnx.
  destruct (sorted_before order v p1 x (p2 ++ [e]) e' post' Hsorted Hids) as [Hb _]; [|congruence].
  by rewrite E, Epre, Epost, <- !app_assoc.
Qed.

(** A freed transaction that beats the next entry stands before the position. *)
Lemma account_next_before k c :
  account_next v (fe_key e) = Some k -> queue_lookup v k = Some c ->
  (forall y, head post = Some y -> entry_before order (key_entry k c) y = true) ->
  key_entry k c ∈ pre.
Proof.
  intros Hax Hc Hb. destruct (account_next_spec v _ _ Hax) as (_ & Hlt & _).
  assert (fe_key (key_entry k c) = k) as Ex by by destruct k.
  pose proof (queued_entry v k c Hv Hc) as Hin. set (x := key_entry k c) in *.
  rewrite E in Hin. apply elem_of_app in Hin as [Hin|[Hxe|Hin]%elem_of_cons]; [done|exfalso..].
  - rewrite <- Hxe, Ex, ord_irrefl in Hlt. done.
  - destruct post as [|y post'] eqn:Epost; [by apply elem_of_nil in Hin|].
    specialize (Hb y eq_refl). apply elem_of_cons in Hin as [Hxy|Hin].
    + by rewrite Hxy, entry_before_rank, ord_irrefl in Hb.
    + destruct (split_of_elem post' x Hin) as (p1 & p2 & Ep).
      destruct (sorted_before order v (pre ++ [e]) y p1 x p2 Hsorted Hids); [|congruence].
      by rewrite E, Ep, <- !app_assoc.
Qed.

Lemma account_next_settled x :
  account_next v (fe_key e) = Some (fe_key x) -> x ∈ pre ->
  settled_upto tr (erase_key v (fe_key e)) (Some (fe_key x)).
Proof.
  intros Hax Hin. destruct (split_of_elem pre x Hin) as (p1 & p2 & Epre).
  destruct (erase_split v pre e post Hv E) as (Ee & _ & _).
  exists p1, x, (p2 ++ post). split_and!; [by rewrite Ee, Epre, <- app_assoc|done|].
  apply erase_settled; [rewrite Epre; apply incl_appl, incl_refl|]. intros y Hy. rewrite Hax. intros [= Exy].
  pose proof (vo_nodup _ Hv) as N. rewrite E, Epre, <- app_assoc, <- app_comm_cons, fmap_app, fmap_cons in N.
  apply NoDup_app in N as (_ & N & _). apply (N (fe_key y)); [by apply list_elem_of_fmap_2|].
  rewrite <- Exy. by left.
Qed.
End EraseStep.

Lemma settled_erase_step tr order v i k next :
  views_ok v -> fee_sorted order v -> distinct_ids v ->
  settled_upto tr v (Some k) -> fe_key <$> fee_order v !! i = Some k -> next_ok order v i k next ->
  settled_upto tr (erase_key v k) (queue_view_next_to_option next).
Proof.
  intros Hv S D (pre & e & post & E & <- & Hp) Hi Hn.
  destruct (erase_split v pre e post Hv E) as (Ee & _ & _).
  assert (i = length pre) as ->.
  { rewrite <- (find_position_unique v (fe_key e) i Hv Hi). apply find_position_unique; [done|].
    by rewrite E, list_lookup_middle. }
  assert (fee_order v !! Datatypes.S (length pre) = head post) as Enext.
  { rewrite E, lookup_app_r by lia. replace (Datatypes.S (length pre) - length pre)%nat with 1%nat by lia.
    by destruct post. }
  unfold next_ok in Hn. rewrite Enext in Hn.
  destruct next as [|k'|k']; cbn [queue_view_next_to_option].
  - destruct Hn as [Hpost Hnx]. destruct post; [|done]. cbn [settled_upto]. rewrite Ee, app_nil_r.
    eapply erase_settled; [done|done|done|apply incl_refl|]. intros x _. by rewrite Hnx.
  - destruct Hn as [Hpost Hnx]. destruct post as [|e' post]; [done|]. injection Hpost as <-.
    exists pre, e', post. split_and!; [done..|].
    by eapply fee_next_settled; [..|intros; eapply Hnx].
  - destruct Hn as [Hax Hb]. destruct (account_next_spec v _ _ Hax) as (_ & _ & [c Hc] & _).
    assert (fe_key (key_entry k' c) = k') as Ex by by destruct k'.
    rewrite <- Ex. eapply account_next_settled; [done..|by rewrite Ex|].
    eapply account_next_before; [done..|]. intros y Hy. by apply Hb.
Qed.

(** Dropping an account's last transaction frees none. *)
Lemma settled_tail_erase tr v k tail :
  views_ok v -> tail <> k -> fk_account tail = fk_account k ->
  (forall x, fk_account x = fk_account k -> is_Some (queue_lookup v x) ->
     ord_leb (fk_seq_proxy x) (fk_seq_proxy tail) = true) ->
  settled_upto tr v (Some k) -> settled_upto tr (erase_key v tail) (Some k).
Proof.
  intros Hv Hne En Hmax (pre & e & post & E & Ek & Hp).
  exists (filter (fun e => fe_key e <> tail) pre), e, (filter (fun e => fe_key e <> tail) post).
  cbn [erase_key fee_order]. rewrite E, filter_app, filter_cons_True by congruence.
  split_and!; [done..|]. rewrite Forall_forall in *. intros x [Hx Hin]%list_elem_of_filter.
  apply settled_erase; [done|rewrite E; apply elem_of_app; by left|done|by apply Hp|].
  intros Hax. destruct (account_next_spec v tail _ Hax) as (Ex & Hlt & Hq & _).
  specialize (Hmax (fe_key x) ltac:(congruence) Hq). unfold ord_leb in Hmax. by rewrite Hlt in Hmax.
Qed.

(** ** The invariant of the walk *)

Record walked order tr v (current : option FeeQueueKey) : Prop := {
  wk_sorted : fee_sorted order v;
  wk_ids : distinct_ids v;
  wk_settled : settled_upto tr v current
}.

Lemma walked_start order v : fee_sorted order v -> distinct_ids v ->
  walked order [] v (fe_key <$> head (fee_order v)).
Proof.
  intros S D. split; [done|done|]. destruct (fee_order v) as [|e l] eqn:E; simpl; rewrite E.
  - constructor.
  - by exists [], e, l.
Qed.

Lemma sim_sorted order v w : views_sim v w -> fee_sorted order v -> fee_sorted order w.
Proof. unfold fee_sorted. by intros [-> _]. Qed.

Lemma sim_ids v w : views_sim v w -> distinct_ids v -> distinct_ids w.
Proof. unfold distinct_ids. by intros [-> _]. Qed.

Lemma walked_step {Ledger} (apply : Ledger -> MaybeTx -> Ledger * MaybeTx * ApplyResult)
    order st v k core req st' v' it :
  views_ok v -> queue_lookup v k = Some core -> views_ok v' ->
  walked order st.1.2 v (Some k) ->
  iter_case (counting (traced apply)) order st v k core req st' v' it ->
  it_stop_candidate it = None -> walked order st'.1.2 v' (it_next_candidate it).
Proof.
  intros Hv Hk Hv' [S D W] Hc Est. pose proof (core_names_key v k core Hv Hk) as Ekey.
  destruct Hc as [c Hsq Hnf|c|s' t' r v1 i next it Hf Hreq Ha Hs Hv1 Hi Hn El _ ->
    |s' t' r v1 it Hf Hreq Ha Hna Hs Hv1 El _ ->
    |s' t' r v1 tail it Hf Hreq Ha Hna Hs Hv1 Hne Htn Htq Hmax El _ ->].
  { split; [done|done|]. simpl. apply settled_forward; [done|done|by right]. }
  { done. }
  all: destruct (recorded_state _ _ _ _ _ _ Ha) as [-> _].
  all: pose proof (sim_sorted order v v1 Hs S) as S1; pose proof (sim_ids v v1 Hs D) as D1.
  all: apply (settled_upto_app _ (mkAttempt (core_payload core) r)) in W.
  all: apply (settled_upto_sim _ v v1 _ Hs) in W.
  all: pose proof (tried_snoc st.1.2 (mkAttempt (core_payload core) r)) as Ht; cbn [at_tx] in Ht;
    rewrite Ekey in Ht.
  - split; [by apply erase_key_sorted|by apply distinct_ids_erase|]. by eapply settled_erase_step.
  - split; [done|done|]. apply settled_forward; [done|done|by left].
  - split; [by apply erase_key_sorted|by apply distinct_ids_erase|].
    apply settled_forward; [by apply erase_key_ok|by apply settled_tail_erase|by left].
Qed.

(** Where the walk stops for want of fee, the rest of the queue pays no more. *)
Lemma walked_stop order tr v k core :
  views_ok v -> walked order tr v (Some k) -> queue_lookup v k = Some core ->
  forall x c, queue_lookup v x = Some c -> front_or_ticket v x ->
  tried tr x \/ mt_fee_level (core_payload c) <= mt_fee_level (core_payload core).
Proof.
  intros Hv [S _ (pre & e & post & E & Ek & Hp)] Hk x c Hx Hfr.
  pose proof (queued_entry v x c Hv Hx) as Hin. rewrite E in Hin.
  assert (fe_key (key_entry x c) = x) as Ex by by destruct x.
  destruct (entry_queued v e Hv) as (ce & Hce & Ee); [rewrite E; apply elem_of_app; right; by left|].
  rewrite Ek, Hk in Hce. injection Hce as <-.
  apply elem_of_app in Hin as [Hin|[Hxe|Hin]%elem_of_cons].
  - left. rewrite Forall_forall in Hp. specialize (Hp _ Hin). unfold settled in Hp. rewrite Ex in Hp.
    destruct Hp as [?|[Hq Hn]]; [done|]. exfalso. destruct Hfr as [Ht|Hf]; [|by apply Hn].
    unfold is_seq, is_ticket in *. by destruct (sp_kind (fk_seq_proxy x)).
  - right. rewrite <- Hxe, Ex in Ek. subst k. rewrite Hx in Hk. injection Hk as <-. lia.
  - right. unfold fee_sorted in S. rewrite E in S. apply StronglySorted_app in S as (_ & _ & S).
    inversion S as [|? ? _ Hall]; subst. rewrite Forall_forall in Hall. specialize (Hall _ Hin).
    rewrite Ee in Hall. unfold entry_before, compares_by_fee_and_tx_id in Hall.
    cbn [key_entry entry_of fe_candidate qc_fee_level qc_tx_id] in Hall.
    destruct (Z.eqb_spec (mt_fee_level (core_payload c)) (mt_fee_level (core_payload core))); [lia|].
    apply Z.ltb_ge in Hall. lia.
Qed.

Lemma walked_end order tr v :
  views_ok v -> walked order tr v None ->
  forall x c, queue_lookup v x = Some c -> front_or_ticket v x -> tried tr x.
Proof.
  intros Hv [_ _ W] x c Hx Hfr. cbn [settled_upto] in W. rewrite Forall_forall in W.
  specialize (W _ (queued_entry v x c Hv Hx)). unfold settled in W.
  assert (fe_key (key_entry x c) = x) as Ex by by destruct x. rewrite Ex in W.
  destruct W as [?|[Hq Hn]]; [done|]. exfalso. destruct Hfr as [Ht|Hf]; [|by apply Hn].
  unfold is_seq, is_ticket in *. by destruct (sp_kind (fk_seq_proxy x)).
Qed.
End Settled.
