(* ===== verification/TxQAcceptTheorems.v ===== *)
(** * Transaction queue: what [TxQ::accept] guarantees

    A call returns for any outcome of the applications; what it tries pays the
    escalated fee level of the moment, in sequence order within an account; and what
    it leaves was tried or pays too little. The two forms of the walk agree. *)

From S2P Require Import Prelude BTree TxQTypes TxQMetrics TxQMetricsTheorems TxQViews TxQInv TxQOps TxQAccept TxQAcceptInv TxQAcceptSettled.

Section Call.
Context `{!TxQTypes}.
Implicit Types (v w : QueueViews) (k : FeeQueueKey) (core : MaybeTxCore) (order : Z).

Definition enough_fuel v (fuel : nat) : Prop :=
  ((length (fee_order v) + 1) * (length (fee_order v) + 1) <= fuel)%nat.

(** The fee level of the open ledger can be computed. *)
Definition metrics_usable (m : QueueFeeMetricsState) : Prop :=
  1 <= fm_txns_expected m /\ in_u64 (fm_escalation_multiplier m).

Lemma call_required_fee_eq {S} m cs (st : S * Z) v :
  metrics_usable m ->
  call_required_fee (metrics_snapshot m) cs st v
    = Ok (escalated (metrics_snapshot m) (sat_u64 (cs_open_ledger_tx_count cs + st.2))).
Proof.
  intros [H1 H2]. unfold call_required_fee, evaluate_required_fee_level. by apply scale_fee_level_eq.
Qed.

Lemma start_measure v fuel :
  views_ok v -> enough_fuel v fuel ->
  (walk_measure v (fe_key <$> head (fee_order v)) < fuel)%nat
  /\ Z.of_nat (walk_measure v (fe_key <$> head (fee_order v)))
     <= Z.of_nat (length (fee_order v)) * (Z.of_nat (length (fee_order v)) + 2)
  /\ current_ok v (fe_key <$> head (fee_order v)).
Proof.
  intros Hv Hf. unfold enough_fuel in Hf.
  destruct (fee_order v) as [|e l] eqn:E; cbn [head fmap option_fmap option_map].
  - simpl in *. split_and!; [lia|lia|done].
  - assert (fe_key <$> fee_order v !! 0%nat = Some (fe_key e)) as H0 by by rewrite E.
    pose proof (find_position_unique v (fe_key e) 0 Hv H0) as Hp. unfold walk_measure. rewrite Hp, E.
    split_and!; [nia|nia|]. intros k [= <-]. by apply (fee_key_queued v 0).
Qed.

(** The call is the loop and the rebuild. *)
Lemma accept_call {S} (apply : S -> MaybeTx -> S * MaybeTx * ApplyResult) fuel s v m h cs
    (I : S * Z -> QueueViews -> option FeeQueueKey -> bool -> Prop) :
  apply_frame apply -> metrics_usable m -> views_ok v -> enough_fuel v fuel ->
  I (s, 0) v (fe_key <$> head (fee_order v)) false ->
  (forall st w k core st' w' it changed,
     views_ok w -> queue_lookup w k = Some core -> views_ok w' -> I st w (Some k) changed ->
     iter_case (counting apply) h st w k core
       (escalated (metrics_snapshot m) (sat_u64 (cs_open_ledger_tx_count cs + st.2))) st' w' it ->
     it_stop_candidate it = None -> I st' w' (it_next_candidate it) (changed || it_ledger_changed it)) ->
  exists st w v' owner,
    run_queue_accept_with_call_state apply fuel s v m h cs = Ok (st.1, v', owner)
    /\ views_ok w /\ views_ok v' /\ fee_sorted (cs_next_parent_hash_comp cs) v'
    /\ accounts v' = accounts w /\ fee_order v' ≡ₚ fee_order w
    /\ (length (fee_order v') <= length (fee_order v))%nat
    /\ ow_parent_hash_comp owner = cs_next_parent_hash_comp cs
    /\ 0 <= sg_processed_candidates (ow_stage owner)
         <= Z.of_nat (length (fee_order v)) * (Z.of_nat (length (fee_order v)) + 2) + 1
    /\ I st w (sg_stop_candidate (ow_stage owner)) (sg_ledger_changed (ow_stage owner))
    /\ forall k, sg_stop_candidate (ow_stage owner) = Some k ->
         exists core, queue_lookup w k = Some core /\ front_or_ticket w k
           /\ mt_fee_level (core_payload core)
              < escalated (metrics_snapshot m) (sat_u64 (cs_open_ledger_tx_count cs + st.2)).
Proof.
  intros Hfr Hm Hv Hfuel HI Hstep. destruct (start_measure v fuel Hv Hfuel) as (Hlt & Hle & Hcur).
  assert (apply_frame (counting apply)) as Hcf.
  { intros [s0 n] t st' t' r. unfold counting. simpl. destruct (apply s0 t) as [[s1 t1] r1] eqn:E.
    intros [= _ <- <-]. by apply (Hfr _ _ _ _ _ E). }
  destruct (accept_loop_ind (counting apply) Hcf (call_required_fee (metrics_snapshot m) cs)
    (call_nearly_full cs) ltac:(intros; eexists; by apply call_required_fee_eq) I h)
    with (fuel := fuel) (s := (s, 0)) (v := v) (changed := false) (n := 0)
      (current := fe_key <$> head (fee_order v))
    as (st & w & stage & E & Hw & Hlen & Hn & HI' & Hstop); [|done|done|done|done|].
  { intros st w k core req st' w' it changed Hw Hk Ereq Hw' Hi Hc Hs.
    rewrite call_required_fee_eq in Ereq by done. injection Ereq as <-. exact (Hstep st w k core st' w' it changed Hw Hk Hw' Hi Hc Hs). }
  destruct (rebuild_order_ok w h (cs_next_parent_hash_comp cs) Hw) as (v' & Er & Ea & Ep & Hv' & Hs').
  exists st, w, v'. eexists. unfold run_queue_accept_with_call_state, run_queue_accept_stage.
  rewrite E. cbn [mbind outcome_bind]. unfold finalize_queue_accept_owner_result. rewrite Er.
  cbn [mbind outcome_bind mret outcome_ret]. split; [reflexivity|]. cbn [ow_stage ow_parent_hash_comp].
  rewrite (Permutation_length Ep). split_and!; try done; try lia.
  intros k Hk. destruct (Hstop k Hk) as (core & req & H1 & H2 & H3 & H4).
  rewrite call_required_fee_eq in H2 by done. injection H2 as <-. eauto.
Qed.

Lemma queue_lookup_accounts v w k : accounts v = accounts w -> queue_lookup v k = queue_lookup w k.
Proof. unfold queue_lookup. by intros ->. Qed.

Lemma front_same v w k : accounts v = accounts w -> front_or_ticket v k -> front_or_ticket w k.
Proof.
  intros Ea [?|Hf]; [by left|]. right. intros x En. rewrite <- (queue_lookup_accounts v w x Ea).
  by apply Hf.
Qed.

(** C16: filling the open ledger finishes. On a queue whose two views agree, with an
    expected ledger size of at least one transaction and a multiplier that fits u64,
    and whatever applying a transaction does short of changing which transaction it
    is, a call ends after at most n(n+2)+1 iterations on a queue of n transactions,
    without tripping any of the code's assertions; it leaves the two views in
    agreement and sorted for the new parent hash, only removes transactions, and
    keeps the identity of the rest. (An expected size of 0, which the configuration
    accepts, is excluded: see [zero_expected_panics].) *)
Theorem accept_terminates {S} (apply : S -> MaybeTx -> S * MaybeTx * ApplyResult) fuel s v m h cs :
  apply_frame apply -> 1 <= fm_txns_expected m -> in_u64 (fm_escalation_multiplier m) ->
  views_ok v -> enough_fuel v fuel ->
  exists s' v' owner,
    run_queue_accept_with_call_state apply fuel s v m h cs = Ok (s', v', owner)
    /\ views_ok v' /\ fee_sorted (cs_next_parent_hash_comp cs) v'
    /\ (length (fee_order v') <= length (fee_order v))%nat
    /\ (forall k c', queue_lookup v' k = Some c' ->
          exists c, queue_lookup v k = Some c /\ core_sim c c')
    /\ ow_parent_hash_comp owner = cs_next_parent_hash_comp cs
    /\ 0 <= sg_processed_candidates (ow_stage owner)
         <= Z.of_nat (length (fee_order v)) * (Z.of_nat (length (fee_order v)) + 2) + 1.
Proof.
  intros Hfr Hm1 Hm2 Hv Hfuel. pose proof (conj Hm1 Hm2 : metrics_usable m) as Hm.
  destruct (accept_call apply fuel s v m h cs
    (fun _ w _ _ => forall k c', queue_lookup w k = Some c' ->
       exists c, queue_lookup v k = Some c /\ core_sim c c') Hfr Hm Hv Hfuel)
    as (st & w & v' & owner & E & Hw & Hv' & Hs & Ea & Ep & Hlen & Hh & Hn & HI & _).
  - intros k c Hc. by exists c.
  - intros st w k core st' w' it _ Hw Hk _ HI Hc Est x c' Hx.
    assert (exists c, queue_lookup w x = Some c /\ core_sim c c') as (c & Hxc & Hsim).
    { destruct Hc; first [by exists c' | by eapply sim_sub | by eapply erase_sub]. }
    destruct (HI x c Hxc) as (c0 & Hc0 & Hsim0). exists c0. split; [done|]. by etrans.
  - exists st.1, v', owner. split_and!; try done; try lia. intros k c'.
    rewrite (queue_lookup_accounts v' w k Ea). apply HI.
Qed.

(** With an expected size of 0 the level of a ledger that holds a transaction is a
    division by zero, and a call on a non-empty queue panics. *)
Theorem zero_expected_panics {S} (apply : S -> MaybeTx -> S * MaybeTx * ApplyResult) fuel s v m h cs :
  fm_txns_expected m = 0 -> fee_order v <> [] -> in_u64 (cs_open_ledger_tx_count cs) ->
  1 <= cs_open_ledger_tx_count cs ->
  run_queue_accept_with_call_state apply (Datatypes.S fuel) s v m h cs = Panic.
Proof.
  intros E0 Hne Hu Hc. destruct (fee_order v) as [|e l] eqn:El; [done|].
  assert (call_required_fee (metrics_snapshot m) cs (s, 0) v = Panic) as E.
  { unfold call_required_fee, evaluate_required_fee_level, scale_fee_level.
    cbn [metrics_snapshot ms_txns_expected snd]. rewrite E0, (proj2 (Z.leb_gt _ 0)); [reflexivity|].
    unfold sat_u64, in_u64 in *. lia. }
  unfold run_queue_accept_with_call_state, run_queue_accept_stage. rewrite El.
  cbn [head fmap option_fmap option_map run_queue_accept_loop]. rewrite E. reflexivity.
Qed.

(** Both invariants of a recorded call, at its end. *)
Lemma accept_recorded {S} (apply : S -> MaybeTx -> S * MaybeTx * ApplyResult) fuel s v m h cs :
  apply_frame apply -> metrics_usable m -> views_ok v -> enough_fuel v fuel ->
  fee_sorted h v -> distinct_ids v ->
  exists s' tr n w v' owner,
    run_queue_accept_with_call_state (traced apply) fuel (s, []) v m h cs = Ok ((s', tr), v', owner)
    /\ views_ok w /\ accounts v' = accounts w
    /\ history v (metrics_snapshot m) cs (s', tr, n) w (sg_ledger_changed (ow_stage owner))
    /\ walked h tr w (sg_stop_candidate (ow_stage owner))
    /\ forall k, sg_stop_candidate (ow_stage owner) = Some k ->
         exists core, queue_lookup w k = Some core /\ front_or_ticket w k
           /\ mt_fee_level (core_payload core) < level_after (metrics_snapshot m) cs tr.
Proof.
  intros Hfr Hm Hv Hfuel Hs Hd.
  assert (apply_frame (traced apply)) as Htf.
  { intros [s0 tr] t st' t' r. unfold traced. simpl. destruct (apply s0 t) as [[s1 t1] r1] eqn:E.
    intros [= _ <- <-]. by apply (Hfr _ _ _ _ _ E). }
  destruct (accept_call (traced apply) fuel (s, []) v m h cs
    (fun st w cur changed => history v (metrics_snapshot m) cs st w changed
       /\ walked h st.1.2 w cur) Htf Hm Hv Hfuel)
    as (st & w & v' & owner & E & Hw & Hv' & _ & Ea & _ & _ & _ & _ & [Hh Hwk] & Hstop).
  - split; [apply history_start|by apply walked_start].
  - intros st w k core st' w' it changed Hw Hk Hw' [Hh Hwk] Hc Est.
    split; [|exact (walked_step apply h st w k core _ st' w' it Hw Hk Hw' Hwk Hc Est)].
    rewrite (hi_count _ _ _ _ _ _ Hh) in Hc.
    destruct (iter_attempted apply h st w k core _ st' w' it Hk Hc Est) as [(-> & -> & ->)|[r Ha]].
    + by rewrite orb_false_r.
    + by apply (history_attempt v (metrics_snapshot m) cs st w changed k core st' w' it r).
  - destruct st as [[s' tr] n]. exists s', tr, n, w, v', owner. split_and!; try done.
    intros k Hk. destruct (Hstop k Hk) as (core & H1 & H2 & H3).
    rewrite (hi_count _ _ _ _ _ _ Hh) in H3. eauto.
Qed.

(** C12: what a call tries, on a queue whose two views agree, that is sorted and has
    distinct transaction ids, with an expected ledger size of at least one, whatever
    applying a transaction does short of changing which transaction it is. Every
    transaction tried was in the queue and pays at least the level the open ledger
    asks for at that moment, counting what the call has applied so far; the
    sequence-numbered transactions of one account are tried in sequence order, and
    nothing, ticket or not, is tried again once applied; the ledger is reported changed
    exactly when something was applied; an applied transaction leaves the queue. The
    keys that leave do so one at a time, in an order in which each was tried, or was
    the last its account still had queued and made way after an earlier one of that
    account had failed. *)
Theorem accept_tries {S} (apply : S -> MaybeTx -> S * MaybeTx * ApplyResult) fuel s v m h cs :
  apply_frame apply -> metrics_usable m -> views_ok v -> enough_fuel v fuel ->
  fee_sorted h v -> distinct_ids v ->
  exists s' tr v' owner left,
    run_queue_accept_with_call_state (traced apply) fuel (s, []) v m h cs = Ok ((s', tr), v', owner)
    /\ (forall pre a post, tr = pre ++ a :: post ->
          level_after (metrics_snapshot m) cs pre <= mt_fee_level (at_tx a)
          /\ exists core, queue_lookup v (tx_key (at_tx a)) = Some core
               /\ same_identity (core_payload core) (at_tx a))
    /\ StronglySorted in_account_order tr
    /\ sg_ledger_changed (ow_stage owner) = (0 <? applied_in tr)
    /\ (forall a, a ∈ tr -> succeeded a -> queue_lookup v' (tx_key (at_tx a)) = None)
    /\ NoDup left
    /\ (forall k, k ∈ left <-> is_Some (queue_lookup v k) /\ queue_lookup v' k = None)
    /\ (forall before k after, left = before ++ k :: after ->
          exists a, a ∈ tr /\ mt_account (at_tx a) = fk_account k
            /\ (mt_seq_proxy (at_tx a) = fk_seq_proxy k
                \/ ~ succeeded a /\ ord_ltb (mt_seq_proxy (at_tx a)) (fk_seq_proxy k) = true
                   /\ forall y, fk_account y = fk_account k -> is_Some (queue_lookup v y) ->
                        ord_ltb (fk_seq_proxy k) (fk_seq_proxy y) = true -> y ∈ before)).
Proof.
  intros Hfr Hm Hv Hfuel Hs Hd.
  destruct (accept_recorded apply fuel s v m h cs Hfr Hm Hv Hfuel Hs Hd)
    as (s' & tr & n & w & v' & owner & E & Hw & Ea & Hh & _ & _).
  destruct (hi_gone _ _ _ _ _ _ Hh) as (left & Hnd & Hin & Hwhy).
  exists s', tr, v', owner, left. split; [exact E|]. split_and!; [|apply Hh|apply Hh| |done| |exact Hwhy].
  - intros pre a post Et. split; [by eapply (hi_paid _ _ _ _ _ _ Hh)|].
    apply (hi_queued _ _ _ _ _ _ Hh). simpl. rewrite Et. apply elem_of_app. right. by left.
  - intros a Ha Hsa. rewrite (queue_lookup_accounts v' w _ Ea). by apply (hi_applied _ _ _ _ _ _ Hh).
  - intros k. by rewrite (queue_lookup_accounts v' w _ Ea), Hin.
Qed.

(** C13: what a call leaves. A transaction still queued that could be tried (it uses
    a ticket, or is its account's first) was tried in this call and kept for a retry,
    or pays less than the level the open ledger asks for when the call ends. *)
Theorem accept_leaves {S} (apply : S -> MaybeTx -> S * MaybeTx * ApplyResult) fuel s v m h cs :
  apply_frame apply -> metrics_usable m -> views_ok v -> enough_fuel v fuel ->
  fee_sorted h v -> distinct_ids v ->
  exists s' tr v' owner,
    run_queue_accept_with_call_state (traced apply) fuel (s, []) v m h cs = Ok ((s', tr), v', owner)
    /\ forall k core, queue_lookup v' k = Some core -> front_or_ticket v' k ->
         tried tr k \/ mt_fee_level (core_payload core) < level_after (metrics_snapshot m) cs tr.
Proof.
  intros Hfr Hm Hv Hfuel Hs Hd.
  destruct (accept_recorded apply fuel s v m h cs Hfr Hm Hv Hfuel Hs Hd)
    as (s' & tr & n & w & v' & owner & E & Hw & Ea & Hh & Hwk & Hstop).
  exists s', tr, v', owner. split; [exact E|]. intros k core Hk Hf.
  rewrite (queue_lookup_accounts v' w _ Ea) in Hk. apply (front_same v' w k Ea) in Hf.
  destruct (sg_stop_candidate (ow_stage owner)) as [stop|].
  - destruct (Hstop stop eq_refl) as (cs' & Hc & _ & Hlt).
    destruct (walked_stop h tr w stop cs' Hw Hwk Hc k core Hk Hf); [by left|right; lia].
  - left. by apply (walked_end h tr w Hw Hwk k core).
Qed.

(** ** The two forms of the walk *)

Section Equivalence.
Context {S : Type} (apply : S -> MaybeTx -> S * MaybeTx * ApplyResult).
Variables (snapshot : QueueFeeMetricsSnapshot) (cs : QueueAcceptCallState) (h : Z).

(** The rest of a call, from the middle of the loop. *)
Definition loop_then_rebuild (fuel : nat) (st : S * Z) v (changed : bool) (n : Z)
    (current : option FeeQueueKey) : outcome (S * QueueViews * QueueAcceptOwnerResult) :=
  '(st', v', stage) ← run_queue_accept_loop (counting apply) (call_required_fee snapshot cs)
                        (call_nearly_full cs) fuel h st v changed n current;
  '(v'', owner) ← finalize_queue_accept_owner_result v' h (cs_next_parent_hash_comp cs) stage;
  mret (st'.1, v'', owner).

Definition continue_then_drive (f1 f2 : nat) (st : S * Z) v (changed : bool) (n : Z)
    (current : option FeeQueueKey) : outcome (S * QueueViews * QueueAcceptOwnerResult) :=
  '(v', step) ← continue_queue_accept f1 v snapshot cs h changed n st.2 current;
  drive_prepared apply f2 st.1 v' step.

Lemma finalize_drive f v stage (s : S) :
  ('(v', step) ← ('(v', r) ← finalize_queue_accept_owner_result v h (cs_next_parent_hash_comp cs) stage;
                  mret (v', StepComplete r));
   drive_prepared apply (Datatypes.S f) s v' step)
  = '(v'', owner) ← finalize_queue_accept_owner_result v h (cs_next_parent_hash_comp cs) stage;
    mret (s, v'', owner).
Proof. destruct (finalize_queue_accept_owner_result v h _ stage) as [[v' r]| |]; reflexivity. Qed.

Lemma finalize_changed v p r v' it :
  finalize_prepared_queue_accept_apply v p r = Ok (v', it) ->
  it_ledger_changed it = ar_applied r /\ it_stop_candidate it = None.
Proof.
  unfold finalize_prepared_queue_accept_apply, finalize_retained.
  destruct (ar_applied r).
  - intros ([[v1 k1] next] & _ & [= <- <-])%bind_Ok. done.
  - intros (v1 & _ & E)%bind_Ok. destruct (fd_action _).
    1, 3: apply bind_Ok in E as ([[v2 k2] next] & _ & [= <- <-]); done.
    all: apply bind_Ok in E as (t & _ & E); apply bind_Ok in E as (v2 & _ & E);
      apply bind_Ok in E as ([v3 tail] & _ & [= <- <-]); done.
Qed.

Lemma prepare_complete v k req full order it :
  prepare_queue_accept_iteration v k req full order = Ok (PiComplete it) ->
  it_ledger_changed it = false.
Proof.
  unfold prepare_queue_accept_iteration.
  intros (i & _ & E)%bind_Ok. apply bind_Ok in E as (c & _ & E).
  apply bind_Ok in E as ([[[front rp] dp] n] & _ & E).
  by destruct (evaluate_accept_candidate _ _ _ _); try injection E as <-.
Qed.

Lemma prepared_call_eq f st v p changed n :
  in_u64 st.2 ->
  run_prepared_queue_accept_call apply f st.1 v (mkPreparedCall p snapshot cs h changed n st.2)
  = '(st', v', it) ← run_prepared_queue_accept_apply (counting apply) st v p;
    '(v'', step) ← continue_queue_accept f v' snapshot cs h (changed || it_ledger_changed it) n
                     st'.2 (it_next_candidate it);
    mret (st'.1, v'', step).
Proof.
  intros Hst. unfold run_prepared_queue_accept_apply, run_prepared_queue_accept_call.
  cbn [pq_prepared_apply]. destruct (get_payload v _) as [t| |]; [|done|done].
  cbn [mbind outcome_bind]. unfold counting. destruct (apply st.1 t) as [[s' t'] r].
  destruct (update_payload v _ t') as [v1| |]; [|done|done]. cbn [mbind outcome_bind].
  unfold resume_prepared_queue_accept. cbn [pq_prepared_apply].
  destruct (finalize_prepared_queue_accept_apply v1 p r) as [[v2 it]| |] eqn:Ef; [|done|done].
  cbn [mbind outcome_bind mret outcome_ret fst snd pq_metrics_snapshot pq_call_state
    pq_previous_parent_hash_comp pq_ledger_changed pq_processed_candidates pq_applied_count].
  destruct (finalize_changed _ _ _ _ _ Ef) as [-> _].
  destruct (ar_applied r); [done|]. unfold in_u64 in Hst.
  assert (sat_u64 (st.2 + 0) = st.2) as -> by (unfold sat_u64; lia). done.
Qed.

Lemma run_prepared_shape st v p st' v' it :
  in_u64 st.2 -> run_prepared_queue_accept_apply (counting apply) st v p = Ok (st', v', it) ->
  it_stop_candidate it = None /\ in_u64 st'.2.
Proof.
  intros Hst. unfold run_prepared_queue_accept_apply, counting.
  intros (t & _ & E)%bind_Ok. destruct (apply st.1 t) as [[s1 t1] r].
  apply bind_Ok in E as (v1 & _ & E). apply bind_Ok in E as ([v2 it'] & Ef & [= <- <- <-]).
  split; [by apply (finalize_changed _ _ _ _ _ Ef)|].
  simpl. destruct (ar_applied r); [|done]. unfold in_u64, sat_u64, u64_max in *. lia.
Qed.

Lemma loop_step fuel st v changed n k req :
  call_required_fee snapshot cs st v = Ok req ->
  loop_then_rebuild (Datatypes.S fuel) st v changed n (Some k)
  = '(st', v', it) ← run_queue_accept_iteration (counting apply) st v k req (call_nearly_full cs v) h;
    match it_stop_candidate it with
    | Some stop =>
        '(v'', owner) ← finalize_queue_accept_owner_result v' h (cs_next_parent_hash_comp cs)
          (mkStage (changed || it_ledger_changed it) (n + 1) (Some (ac_key stop)));
        mret (st'.1, v'', owner)
    | None => loop_then_rebuild fuel st' v' (changed || it_ledger_changed it) (n + 1)
                (it_next_candidate it)
    end.
Proof.
  intros E. unfold loop_then_rebuild at 1. cbn [run_queue_accept_loop]. rewrite E.
  cbn [mbind outcome_bind].
  destruct (run_queue_accept_iteration _ _ _ _ _ _ _) as [[[st' v'] it]| |]; [|reflexivity..].
  cbn [mbind outcome_bind]. by destruct (it_stop_candidate it).
Qed.

Lemma continue_step f1 f2 st v changed n k req :
  in_u64 st.2 -> call_required_fee snapshot cs st v = Ok req ->
  continue_then_drive (Datatypes.S f1) (Datatypes.S f2) st v changed n (Some k)
  = '(st', v', it) ← run_queue_accept_iteration (counting apply) st v k req (call_nearly_full cs v) h;
    match it_stop_candidate it with
    | Some stop =>
        '(v'', owner) ← finalize_queue_accept_owner_result v' h (cs_next_parent_hash_comp cs)
          (mkStage (changed || it_ledger_changed it) (n + 1) (Some (ac_key stop)));
        mret (st'.1, v'', owner)
    | None =>
        match prepare_queue_accept_iteration v k req (call_nearly_full cs v) h with
        | Ok (PiComplete _) => continue_then_drive f1 (Datatypes.S f2) st' v'
                (changed || it_ledger_changed it) (n + 1) (it_next_candidate it)
        | _ => continue_then_drive (Datatypes.S f2) f2 st' v' (changed || it_ledger_changed it) (n + 1)
                (it_next_candidate it)
        end
    end.
Proof.
  intros Hst E. unfold continue_then_drive at 1. cbn [continue_queue_accept].
  unfold call_required_fee in E. rewrite E. cbn [mbind outcome_bind]. unfold run_queue_accept_iteration.
  destruct (prepare_queue_accept_iteration v k req (call_nearly_full cs v) h) as [[it|p]| |] eqn:Ep;
    [| |reflexivity..]; cbn [mbind outcome_bind mret outcome_ret].
  - rewrite (prepare_complete _ _ _ _ _ _ Ep), orb_false_r.
    destruct (it_stop_candidate it) as [stop|]; [apply finalize_drive|done].
  - cbn [drive_prepared]. rewrite prepared_call_eq by done.
    destruct (run_prepared_queue_accept_apply _ st v p) as [[[st' v'] it]| |] eqn:Er; [|reflexivity..].
    destruct (run_prepared_shape st v p st' v' it Hst Er) as [Est _]. cbn [mbind outcome_bind].
    rewrite Est. unfold continue_then_drive.
    destruct (continue_queue_accept _ _ _ _ _ _ _ _ _) as [[v3 step]| |]; reflexivity.
Qed.

(** With enough fuel the machine does what the loop does. *)
Lemma prepared_matches_loop fuel f1 f2 st v changed n current :
  (fuel <= f1)%nat -> (fuel <= f2)%nat -> in_u64 st.2 ->
  loop_then_rebuild fuel st v changed n current <> OutOfFuel ->
  continue_then_drive f1 f2 st v changed n current
    = loop_then_rebuild fuel st v changed n current.
Proof.
  revert f1 f2 st v changed n current. induction fuel as [|fuel IH];
    intros f1 f2 st v changed n current H1 H2 Hst Hne; [by destruct Hne|].
  destruct f1 as [|f1]; [lia|]. destruct f2 as [|f2]; [lia|].
  destruct current as [k|]; [|apply finalize_drive].
  destruct (call_required_fee snapshot cs st v) as [req| |] eqn:Ereq.
  2, 3: unfold loop_then_rebuild, continue_then_drive; cbn [run_queue_accept_loop continue_queue_accept];
    rewrite Ereq; unfold call_required_fee in Ereq; rewrite Ereq; reflexivity.
  rewrite (continue_step f1 f2 st v changed n k req Hst Ereq).
  rewrite (loop_step fuel st v changed n k req Ereq) in Hne |- *.
  unfold run_queue_accept_iteration in *.
  destruct (prepare_queue_accept_iteration v k req (call_nearly_full cs v) h) as [[it|p]| |];
    [| |reflexivity..]; cbn [mbind outcome_bind mret outcome_ret] in *.
  - destruct (it_stop_candidate it); [done|]. apply IH; done || lia.
  - destruct (run_prepared_queue_accept_apply _ st v p) as [[[st' v'] it]| |] eqn:Er; [|reflexivity..].
    destruct (run_prepared_shape st v p st' v' it Hst Er) as [Est Hst'].
    cbn [mbind outcome_bind] in *. rewrite Est in *. apply IH; done || lia.
Qed.
End Equivalence.

(** handing each application to the caller does not change what a call does.
    The walk written as a machine, which stops at every candidate it would apply and
    is resumed with the outcome, returns the same views, ledger and report as the
    walk written as one loop over a closure; and panics where that panics. *)
Theorem accept_forms_agree {S} (apply : S -> MaybeTx -> S * MaybeTx * ApplyResult)
    fuel fuel' s v m h cs :
  run_queue_accept_with_call_state apply fuel s v m h cs <> OutOfFuel -> (fuel <= fuel')%nat ->
  run_queue_accept_with_caller_prepared_apply apply fuel' s v m h cs
    = run_queue_accept_with_call_state apply fuel s v m h cs.
Proof.
  intros Hne Hle.
  apply (prepared_matches_loop apply (metrics_snapshot m) cs h fuel fuel' fuel' (s, 0) v false 0
    (fe_key <$> head (fee_order v))); [done|done| |exact Hne].
  unfold in_u64, u64_max. simpl. lia.
Qed.
End Call.

(** ** A queue of four *)

Lemma insert_core_ok `{!TxQTypes} v k core order :
  views_ok v -> queue_lookup v k = None -> core_names k core -> views_ok (insert_core v k core order).
Proof. intros Hv Hn Hc. by eapply adds_ok; [..|apply insert_core_adds]. Qed.

Module AcceptDemo.

Definition types : TxQTypes := Build_TxQTypes unit Z unit unit _.
#[global] Existing Instance types.

Definition preflight (s : SeqProxy) : PreflightResult :=
  mkPreflight tt None 0 (consequences_new 10 s) 0 tt TES_SUCCESS.

Definition core (tx_id fee_level account : Z) (s : SeqProxy) : MaybeTxCore :=
  queued_core account tx_id None s fee_level 0 (preflight s).

Definition queued (v : QueueViews) (c : Z * Z * Z * SeqProxy) : QueueViews :=
  let '(tx_id, fee_level, account, s) := c in
  insert_core v (mkKey account s) (core tx_id fee_level account s) 0.

(** Account 1 pays 300 and then 900, account 2 pays 500, a ticket of account 3 pays
    256. *)
Definition queue : QueueViews :=
  queued (queued (queued (queued views_empty (11, 300, 1, sequence 5)) (12, 900, 1, sequence 6))
            (13, 500, 2, sequence 9)) (14, 256, 3, ticket 4).

Lemma queue_ok : views_ok queue.
Proof. by repeat (apply insert_core_ok; [|reflexivity|done]); apply views_empty_ok. Qed.

Lemma queue_sorted : fee_sorted 0 queue.
Proof. unfold fee_sorted, queue. vm_compute. repeat constructor. Qed.

Lemma queue_ids : distinct_ids queue.
Proof. unfold distinct_ids. apply (bool_decide_unpack _). vm_compute. exact I. Qed.

(** The ledger lists what was applied; transaction 13 has to be retried. *)
Definition ledger_apply (s : list Z) (t : MaybeTx) : list Z * MaybeTx * ApplyResult :=
  if mt_tx_id t =? 13 then (s, t, mkApplyResult TER_RETRY false false)
  else (s ++ [mt_tx_id t], t, mkApplyResult TES_SUCCESS true false).

Lemma ledger_apply_frame : apply_frame ledger_apply.
Proof. intros s t s' t' r. unfold ledger_apply. by destruct (mt_tx_id t =? 13); intros [= _ <- _]. Qed.

(** One transaction is expected in a ledger. *)
Definition metrics : QueueFeeMetricsState :=
  mkMetrics (fm_config (fee_metrics_state setup_default)) 1 [] 128000.
Definition call : QueueAcceptCallState := mkCallState 0 None 7.

Lemma metrics_usable_demo : metrics_usable metrics.
Proof. split; [simpl; lia|]. vm_compute. split; discriminate. Qed.

Lemma fuel_enough : enough_fuel queue 25.
Proof. unfold enough_fuel. vm_compute. lia. Qed.

(** The call skips 900, keeps 500 for a retry, applies 300 and goes back to 900;
    then the ledger asks for more than anyone pays. *)
Definition call_result : outcome (list Z * list Z * Z * bool) :=
  '(st, v, owner) ← run_queue_accept_with_call_state (traced ledger_apply) 25 ([], []) queue
                      metrics 0 call;
  Ok (st.1, map (fun a => mt_tx_id (at_tx a)) st.2, sg_processed_candidates (ow_stage owner),
      sg_ledger_changed (ow_stage owner)).

Example call_result_eq : call_result = Ok ([11; 12], [13; 11; 12], 5, true).
Proof. vm_compute. reflexivity. Qed.

Lemma accept_terminates_witness :
  exists s' v' owner,
    run_queue_accept_with_call_state ledger_apply 25 [] queue metrics 0 call = Ok (s', v', owner)
    /\ views_ok v' /\ (length (fee_order v') <= 4)%nat
    /\ sg_processed_candidates (ow_stage owner) <= 25.
Proof.
  destruct (accept_terminates ledger_apply 25 [] queue metrics 0 call ledger_apply_frame
    (proj1 metrics_usable_demo) (proj2 metrics_usable_demo) queue_ok fuel_enough) as (s' & v' & owner & E & Hv & _ & Hl & _ & _ & Hn).
  exists s', v', owner. split; [exact E|]. split; [exact Hv|].
  change (length (fee_order queue)) with 4%nat in Hl, Hn. split; [exact Hl|]. lia.
Defined.

Lemma accept_tries_witness :
  exists s' tr v' owner,
    run_queue_accept_with_call_state (traced ledger_apply) 25 ([], []) queue metrics 0 call
      = Ok ((s', tr), v', owner)
    /\ StronglySorted in_account_order tr /\ map (fun a => mt_tx_id (at_tx a)) tr = [13; 11; 12]
    /\ sg_ledger_changed (ow_stage owner) = (0 <? applied_in tr).
Proof.
  destruct (accept_tries ledger_apply 25 [] queue metrics 0 call ledger_apply_frame
    metrics_usable_demo queue_ok fuel_enough queue_sorted queue_ids)
    as (s' & tr & v' & owner & left & E & _ & Ho & Hc & _).
  exists s', tr, v', owner. split; [exact E|]. split; [exact Ho|]. split; [|exact Hc].
  vm_compute in E. injection E as _ <- _ _. reflexivity.
Defined.

Lemma accept_leaves_witness :
  exists s' tr v' owner,
    run_queue_accept_with_call_state (traced ledger_apply) 25 ([], []) queue metrics 0 call
      = Ok ((s', tr), v', owner)
    /\ (fe_key <$> fee_order v') = [mkKey 2 (sequence 9); mkKey 3 (ticket 4)]
    /\ forall k c, queue_lookup v' k = Some c -> front_or_ticket v' k ->
         tried tr k \/ mt_fee_level (core_payload c) < level_after (metrics_snapshot metrics) call tr.
Proof.
  destruct (accept_leaves ledger_apply 25 [] queue metrics 0 call ledger_apply_frame
    metrics_usable_demo queue_ok fuel_enough queue_sorted queue_ids)
    as (s' & tr & v' & owner & E & Hl).
  exists s', tr, v', owner. split; [exact E|]. split; [|exact Hl].
  vm_compute in E. injection E as _ _ <- _. reflexivity.
Defined.

Lemma accept_forms_agree_witness :
  run_queue_accept_with_caller_prepared_apply ledger_apply 30 [] queue metrics 0 call
    = run_queue_accept_with_call_state ledger_apply 25 [] queue metrics 0 call.
Proof. apply accept_forms_agree; [vm_compute; discriminate | lia]. Defined.
End AcceptDemo.
