(* ===== verification/TxQueue.v ===== *)
(** * Transaction queue: the owner of the queue's state

    [txq.rs], [queue_accept_live_owner.rs], [queue_accept_txq.rs] and the clear-ahead
    bookkeeping of [app_registry.rs]: one record holds the settings, the fee metrics,
    the size limit, the parent hash the fee order is built on and the two views, and
    every operation of the node's queue is a function on it. The layers between the
    owner and [queue_accept.rs] only pass the pieces along. A panic leaves the state
    out of the picture, as everywhere here. The fee report holds the numbers the
    source prints in decimal. *)

From S2P Require Import Prelude LoadFee BTree TxQTypes TxQMetrics TxQViews TxQAccept.

Section Owner.
Context `{!TxQTypes}.

Record TxQ := mkTxQ {
  tq_setup : TxQSetup;
  tq_metrics : QueueFeeMetricsState;
  tq_current_max_size : option Z;
  tq_parent_hash_comp : Z;
  tq_views : QueueViews
}.

Definition new_from_setup (setup : TxQSetup) (current_max_size : option Z) (parent_hash_comp : Z)
    (v : QueueViews) : TxQ :=
  mkTxQ setup (fee_metrics_state setup) current_max_size parent_hash_comp v.

Definition with_setup (q : TxQ) (setup : TxQSetup) : TxQ :=
  mkTxQ setup (fee_metrics_state setup) (tq_current_max_size q) (tq_parent_hash_comp q) (tq_views q).

Definition with_standalone (s : TxQSetup) (standalone : bool) : TxQSetup :=
  mkSetup (su_ledgers_in_queue s) (su_queue_size_min s) (su_retry_sequence_percent s)
    (su_minimum_escalation_multiplier s) (su_minimum_txn_in_ledger s)
    (su_minimum_txn_in_ledger_standalone s) (su_target_txn_in_ledger s)
    (su_maximum_txn_in_ledger s) (su_normal_consensus_increase_percent s)
    (su_slow_consensus_decrease_percent s) (su_maximum_txn_per_account s)
    (su_minimum_last_ledger_buffer s) standalone.

Definition set_standalone (q : TxQ) (standalone : bool) : TxQ :=
  with_setup q (with_standalone (tq_setup q) standalone).

Definition reconfigure_setup (q : TxQ) (new_setup : TxQSetup) : TxQ :=
  with_setup q (with_standalone new_setup (su_standalone (tq_setup q))).

Definition with_views (q : TxQ) (v : QueueViews) : TxQ :=
  mkTxQ (tq_setup q) (tq_metrics q) (tq_current_max_size q) (tq_parent_hash_comp q) v.

(** ** Filling the open ledger *)

(** The open ledger's transaction count and parent hash, which the call reads once. *)
Record AcceptView := mkAcceptView { av_open_ledger_tx_count : Z; av_parent_hash : Z }.

Definition txq_accept {S} (apply : S -> MaybeTx -> S * MaybeTx * ApplyResult) (fuel : nat) (s : S)
    (q : TxQ) (view : AcceptView) : outcome (S * TxQ * QueueAcceptOwnerResult) :=
  '(s', v', owner) ← run_queue_accept_with_call_state apply fuel s (tq_views q) (tq_metrics q)
                       (tq_parent_hash_comp q)
                       (mkCallState (av_open_ledger_tx_count view) (tq_current_max_size q)
                          (av_parent_hash view));
  mret (s', mkTxQ (tq_setup q) (tq_metrics q) (tq_current_max_size q) (ow_parent_hash_comp owner) v',
        owner).

(** ** A ledger closes *)

Definition closed_candidate (v : QueueViews) (e : FeeQueueEntry) : outcome ClosedLedgerCandidate :=
  core ← expect (a ← accounts v !! fk_account (fe_key e); qa_transactions a !! fk_seq_proxy (fe_key e));
  mret (mkClosedCandidate (fk_account (fe_key e)) (fk_seq_proxy (fe_key e))
          (mt_last_valid (core_payload core))).

Record ClosedLedgerMaintenanceWithMetrics := mkMaintenanceWithMetrics {
  mm_validated_tx_count : Z;
  mm_metrics_snapshot : QueueFeeMetricsSnapshot;
  mm_maintenance : ClosedLedgerMaintenance
}.

Definition process_closed_ledger_with_metrics (m : QueueFeeMetricsState)
    (validated_fee_levels : list Z) (accts : gmap Z TxQAccount)
    (by_fee_candidates : list ClosedLedgerCandidate) (ledger_seq current_max_size : Z)
    (time_leap : bool)
    : outcome (QueueFeeMetricsState * gmap Z TxQAccount * ClosedLedgerMaintenanceWithMetrics) :=
  '(m', validated_tx_count) ← metrics_update m validated_fee_levels time_leap;
  let snapshot := metrics_snapshot m' in
  '(accts', maintenance) ←
    process_closed_ledger accts by_fee_candidates ledger_seq current_max_size time_leap
      (ms_txns_expected snapshot) (mc_ledgers_in_queue (fm_config m'))
      (mc_queue_size_min (fm_config m'));
  mret (m', accts', mkMaintenanceWithMetrics validated_tx_count snapshot maintenance).

Definition expired_key (c : ClosedLedgerCandidate) : FeeQueueKey :=
  mkKey (cc_account c) (cc_seq_proxy c).

Definition live_owner_process_closed_ledger (q : TxQ) (validated_fee_levels : list Z)
    (by_fee_candidates : list ClosedLedgerCandidate) (ledger_seq : Z) (time_leap : bool)
    : outcome (TxQ * ClosedLedgerMaintenanceWithMetrics) :=
  let had_current_max_size := match tq_current_max_size q with Some _ => true | None => false end in
  let current_max_size :=
    default (mc_queue_size_min (fm_config (tq_metrics q))) (tq_current_max_size q) in
  '(m', accts', result) ←
    process_closed_ledger_with_metrics (tq_metrics q) validated_fee_levels
      (accounts (tq_views q)) by_fee_candidates ledger_seq current_max_size time_leap;
  let expired := expired_key <$> cm_expired_candidates (mm_maintenance result) in
  let v' := mkViews (filter (fun e => fe_key e ∉ expired) (fee_order (tq_views q))) accts' in
  let max_size' := if negb had_current_max_size && time_leap then None
                   else Some (cm_next_max_size (mm_maintenance result)) in
  mret (mkTxQ (tq_setup q) m' max_size' (tq_parent_hash_comp q) v', result).

Definition txq_process_closed_ledger (q : TxQ) (validated_fee_levels : list Z) (ledger_seq : Z)
    (time_leap : bool) : outcome (TxQ * ClosedLedgerMaintenanceWithMetrics) :=
  by_fee_candidates ← mapM (closed_candidate (tq_views q)) (fee_order (tq_views q));
  live_owner_process_closed_ledger q validated_fee_levels by_fee_candidates ledger_seq time_leap.

(** ** Clearing an account's queue ahead of a transaction *)

Definition record_attempts (txs : gmap SeqProxy MaybeTxCore) (attempts : list (SeqProxy * ApplyResult))
    : gmap SeqProxy MaybeTxCore :=
  foldl (fun m '(s, r) =>
           match m !! s with
           | Some core => <[s := mkCore (record_apply_attempt_result (core_payload core) r)
                                   (core_consequences core)]> m
           | None => m
           end) txs attempts.

Definition apply_try_clear_effects (q : TxQ) (account : Z) (attempts : list (SeqProxy * ApplyResult))
    (removed : list SeqProxy) : TxQ :=
  let v := tq_views q in
  if bool_decide (attempts = []) && bool_decide (removed = []) then q
  else
    let accts' :=
      match accounts v !! account with
      | Some a =>
          let a1 := with_transactions a (record_attempts (qa_transactions a) attempts) in
          <[account := foldl (fun a s => (account_remove a s).1) a1 removed]> (accounts v)
      | None => accounts v
      end in
    let fee' :=
      if bool_decide (removed = []) then fee_order v
      else filter (fun e => fk_account (fe_key e) <> account
                            \/ fk_seq_proxy (fe_key e) ∉ removed) (fee_order v) in
    with_views q (mkViews fee' accts').

(** ** Queries *)

Inductive QueueTxQAccountState :=
| AccountMissing
| AccountPresent (account : Z) (s : SeqProxy).

(** The account's queue, when it holds anything. *)
Definition queued_account (q : TxQ) (account : Z) : option TxQAccount :=
  a ← accounts (tq_views q) !! account;
  if bool_decide (qa_transactions a = ∅) then None else Some a.

Definition txq_next_queuable_seq (q : TxQ) (st : QueueTxQAccountState) : SeqProxy :=
  match st with
  | AccountMissing => sequence 0
  | AccountPresent account s =>
      match queued_account q account with Some a => next_queuable_seq a s | None => s end
  end.

Definition get_account_txs (q : TxQ) (account : Z) : list TxDetails :=
  match accounts (tq_views q) !! account with
  | None => []
  | Some a => (fun e => get_tx_details (core_payload e.2)) <$> btree_iter (qa_transactions a)
  end.

Definition get_txs (q : TxQ) : outcome (list TxDetails) :=
  mapM (fun e =>
    core ← expect (a ← accounts (tq_views q) !! fk_account (fe_key e);
                   qa_transactions a !! fk_seq_proxy (fe_key e));
    mret (get_tx_details (core_payload core))) (fee_order (tq_views q)).

Record QueueTxQMetrics := mkTxQMetrics {
  qm_tx_count : nat;
  qm_tx_q_max_size : option Z;
  qm_tx_in_ledger : Z;
  qm_tx_per_ledger : Z;
  qm_reference_fee_level : Z;
  qm_min_processing_fee_level : Z;
  qm_med_fee_level : Z;
  qm_open_ledger_fee_level : Z
}.

Definition queue_is_full (q : TxQ) : bool :=
  match tq_current_max_size q with
  | Some max_size => max_size <=? Z.of_nat (length (fee_order (tq_views q)))
  | None => false
  end.

Definition build_metrics (q : TxQ) (tx_in_ledger : Z) : outcome QueueTxQMetrics :=
  let snapshot := metrics_snapshot (tq_metrics q) in
  min_level ←
    (if queue_is_full q
     then e ← expect (last (fee_order (tq_views q)));
          mret (wrap_u64 (qc_fee_level (fe_candidate e) + 1))
     else mret TXQ_BASE_LEVEL);
  open_level ← evaluate_required_fee_level snapshot tx_in_ledger NONE;
  mret (mkTxQMetrics (length (fee_order (tq_views q))) (tq_current_max_size q) tx_in_ledger
          (ms_txns_expected snapshot) TXQ_BASE_LEVEL min_level (ms_escalation_multiplier snapshot)
          open_level).

Record QueueTxQRequiredFeeAndSeq := mkRequired {
  rq_required_fee_drops : Z;
  rq_account_seq : Z;
  rq_available_seq : Z
}.

Definition get_tx_required_fee_and_seq (q : TxQ) (open_ledger_tx_count base_fee_drops : Z)
    (account : Z) (account_sequence : option Z) : outcome QueueTxQRequiredFeeAndSeq :=
  let snapshot := metrics_snapshot (tq_metrics q) in
  required_fee_level ← evaluate_required_fee_level snapshot open_ledger_tx_count NONE;
  let account_seq := default 0 account_sequence in
  let available_seq :=
    if account_seq =? 0 then 0
    else match queued_account q account with
         | Some a => sp_value (next_queuable_seq a (sequence account_seq))
         | None => account_seq
         end in
  fee ← mul_div required_fee_level base_fee_drops TXQ_BASE_LEVEL;
  mret (mkRequired
          (default i64_max (fee ≫= fun f => if f <=? i64_max then Some f else None))
          account_seq available_seq).

Record QueueTxQRpcReport := mkRpcReport {
  rp_ledger_current_index : Z;
  rp_expected_ledger_size : Z;
  rp_current_ledger_size : Z;
  rp_current_queue_size : nat;
  rp_max_queue_size : option Z;
  rp_reference_level : Z;
  rp_minimum_level : Z;
  rp_median_level : Z;
  rp_open_ledger_level : Z;
  rp_base_fee : Z;
  rp_median_fee : Z;
  rp_minimum_fee : Z;
  rp_open_ledger_fee : Z
}.

Definition effective_base_fee_drops (m : QueueTxQMetrics) (base_fee_drops : Z) : Z :=
  if (base_fee_drops =? 0) && negb (qm_open_ledger_fee_level m =? qm_reference_fee_level m)
  then 1 else base_fee_drops.

Definition rpc_open_ledger_fee (m : QueueTxQMetrics) (base_fee_drops : Z) : outcome Z :=
  let effective := effective_base_fee_drops m base_fee_drops in
  fee ← mul_div (qm_open_ledger_fee_level m) effective TXQ_BASE_LEVEL;
  let open_ledger_fee := default u64_max fee in
  if effective =? 0 then mret open_ledger_fee
  else
    level ← mul_div open_ledger_fee TXQ_BASE_LEVEL effective;
    mret (if default u64_max level <? qm_open_ledger_fee_level m
          then sat_u64 (open_ledger_fee + 1) else open_ledger_fee).

Definition get_rpc_fee_report (q : TxQ) (ledger_current_index open_ledger_tx_count base_fee_drops : Z)
    : outcome QueueTxQRpcReport :=
  metrics ← build_metrics q open_ledger_tx_count;
  let full := match qm_tx_q_max_size metrics with
              | Some max_size => max_size <=? Z.of_nat (qm_tx_count metrics)
              | None => false
              end in
  let minimum_fee_base_drops :=
    if full then effective_base_fee_drops metrics base_fee_drops else base_fee_drops in
  open_ledger_fee ← rpc_open_ledger_fee metrics base_fee_drops;
  median ← mul_div (qm_med_fee_level metrics) base_fee_drops TXQ_BASE_LEVEL;
  minimum ← mul_div (qm_min_processing_fee_level metrics) minimum_fee_base_drops TXQ_BASE_LEVEL;
  mret (mkRpcReport ledger_current_index (qm_tx_per_ledger metrics) (qm_tx_in_ledger metrics)
          (qm_tx_count metrics) (qm_tx_q_max_size metrics) (qm_reference_fee_level metrics)
          (qm_min_processing_fee_level metrics) (qm_med_fee_level metrics)
          (qm_open_ledger_fee_level metrics) base_fee_drops (default u64_max median)
          (default u64_max minimum) open_ledger_fee).
End Owner.
