(* ===== verification/TxQueueTheorems.v ===== *)
(** * Transaction queue: the owner's operations

    The reported fees against the fee level they have to reach, the expiry when a
    ledger closes, and the first free sequence of an account. *)

From S2P Require Import Prelude LoadFee BTree TxQTypes TxQMetrics TxQMetricsTheorems TxQViews TxQInv TxQOps TxQAccept TxQAcceptInv TxQAcceptSettled TxQAcceptTheorems TxQueue.

(** ** Fees that reach a level *)

Lemma mul_div_small v a d : 0 < d -> 0 <= v * a / d <= u64_max -> mul_div v a d = Ok (Some (v * a / d)).
Proof.
  intros Hd Hr. unfold mul_div, MULDIV_MAX. rewrite (proj2 (Z.eqb_neq d 0)) by lia.
  by rewrite (proj2 (Z.ltb_ge _ _)) by lia.
Qed.

(** The floor and the ceiling of [level * base / 256]. *)
Lemma least_fee_floor level base fee :
  0 < base -> 0 <= level -> 0 <= fee ->
  let floor := level * base / TXQ_BASE_LEVEL in
  let least := if floor * TXQ_BASE_LEVEL / base <? level then floor + 1 else floor in
  0 <= floor /\ floor * TXQ_BASE_LEVEL / base <= level
  /\ (level <= fee * TXQ_BASE_LEVEL / base <-> least <= fee).
Proof.
  intros Hb Hl Hf floor least. unfold TXQ_BASE_LEVEL in *.
  pose proof (Z.div_mod (level * base) 256 ltac:(lia)) as D1.
  pose proof (Z.mod_pos_bound (level * base) 256 ltac:(lia)) as M1. fold floor in D1.
  pose proof (Z.div_mod (floor * 256) base ltac:(lia)) as D2.
  pose proof (Z.mod_pos_bound (floor * 256) base ltac:(lia)) as M2.
  pose proof (Z.div_mod (fee * 256) base ltac:(lia)) as D3.
  pose proof (Z.mod_pos_bound (fee * 256) base ltac:(lia)) as M3.
  assert (0 <= floor) by (apply Z.div_pos; nia).
  split_and!; [done|nia|]. unfold least. destruct (Z.ltb_spec (floor * 256 / base) level) as [L|L].
  - split; intros; [|nia]. assert (level * base <= fee * 256) by nia.
    assert (floor * 256 < level * base) by nia. nia.
  - assert (level * base <= floor * 256) by nia. split; intros; [|nia].
    assert (level * base <= fee * 256) by nia. nia.
Qed.

Lemma floor_exact level base :
  0 < base -> 0 <= level ->
  let floor := level * base / TXQ_BASE_LEVEL in
  (if floor * TXQ_BASE_LEVEL / base <? level then floor + 1 else floor) = floor
  <-> (TXQ_BASE_LEVEL | level * base).
Proof.
  intros Hb Hl floor. unfold TXQ_BASE_LEVEL in *.
  pose proof (Z.div_mod (level * base) 256 ltac:(lia)) as D1.
  pose proof (Z.mod_pos_bound (level * base) 256 ltac:(lia)). fold floor in D1.
  pose proof (Z.div_mod (floor * 256) base ltac:(lia)).
  pose proof (Z.mod_pos_bound (floor * 256) base ltac:(lia)).
  rewrite <- Z.mod_divide by lia. destruct (Z.ltb_spec (floor * 256 / base) level) as [L|L].
  - split; [lia|]. intros E0. exfalso. assert (floor * 256 = level * base) as Eq by lia.
    rewrite Eq, Z.div_mul in L by lia. lia.
  - split; [|done]. intros _. nia.
Qed.

Section Fees.
Context `{!TxQTypes}.

(** The level the open ledger asks for, as the queue computes it. *)
Definition open_level (q : TxQ) (count : Z) : Z := escalated (metrics_snapshot (tq_metrics q)) count.

Lemma required_level_eq q count : metrics_usable (tq_metrics q) ->
  evaluate_required_fee_level (metrics_snapshot (tq_metrics q)) count NONE = Ok (open_level q count).
Proof. intros [H1 H2]. by apply scale_fee_level_eq. Qed.

Lemma open_level_range q count : metrics_usable (tq_metrics q) -> 0 <= open_level q count <= u64_max.
Proof.
  intros [H1 H2]. unfold open_level, escalated, TXQ_BASE_LEVEL.
  cbn [metrics_snapshot ms_txns_expected ms_escalation_multiplier].
  case_match; [unfold u64_max; lia|].
  pose proof (sat_square_pos _ H1). unfold in_u64 in H2.
  assert (0 <= sat_u64 (count * count)) by (pose proof (Z.square_nonneg count); unfold sat_u64, u64_max; lia).
  split; [|lia]. apply Z.min_glb; [unfold u64_max; lia|]. apply Z.div_pos; [|lia].
  apply Z.mul_nonneg_nonneg; [simpl; lia|done].
Qed.

Lemma build_metrics_eq q count :
  metrics_usable (tq_metrics q) -> (queue_is_full q = true -> fee_order (tq_views q) <> []) ->
  exists min_level, build_metrics q count
    = Ok (mkTxQMetrics (length (fee_order (tq_views q))) (tq_current_max_size q) count
            (fm_txns_expected (tq_metrics q)) TXQ_BASE_LEVEL min_level
            (fm_escalation_multiplier (tq_metrics q)) (open_level q count)).
Proof.
  intros Hm Hfull. unfold build_metrics. rewrite (required_level_eq q count Hm).
  destruct (queue_is_full q); [|eexists; reflexivity].
  destruct (last (fee_order (tq_views q))) as [e|] eqn:E; [eexists; reflexivity|].
  apply last_None in E. by destruct (Hfull eq_refl).
Qed.

Lemma mul_div_total v a d : 0 < d -> exists r, mul_div v a d = Ok r.
Proof. intros Hd. unfold mul_div. rewrite (proj2 (Z.eqb_neq d 0)) by lia. eauto. Qed.

Lemma rpc_open_fee_eq m base :
  0 < base -> 0 <= qm_open_ledger_fee_level m <= u64_max ->
  qm_open_ledger_fee_level m * base / TXQ_BASE_LEVEL < i64_max ->
  let floor := qm_open_ledger_fee_level m * base / TXQ_BASE_LEVEL in
  rpc_open_ledger_fee m base
    = Ok (if floor * TXQ_BASE_LEVEL / base <? qm_open_ledger_fee_level m then floor + 1 else floor).
Proof.
  intros Hb Hl Hr floor.
  destruct (least_fee_floor (qm_open_ledger_fee_level m) base 0 Hb ltac:(lia) ltac:(lia)) as (H1 & H2 & _).
  fold floor in H1, H2, Hr. unfold rpc_open_ledger_fee, effective_base_fee_drops.
  rewrite (proj2 (Z.eqb_neq base 0)) by lia. cbn [andb].
  rewrite mul_div_small by (unfold i64_max, u64_max, TXQ_BASE_LEVEL in *; fold floor; lia).
  fold floor. cbn [mbind outcome_bind default option_map from_option id].
  rewrite (proj2 (Z.eqb_neq base 0)) by lia.
  assert (0 <= floor * TXQ_BASE_LEVEL / base) by (apply Z.div_pos; unfold TXQ_BASE_LEVEL; nia).
  rewrite mul_div_small by lia. cbn [mbind outcome_bind default from_option id mret outcome_ret].
  case_match; [|done]. f_equal. unfold sat_u64, i64_max, u64_max in *. lia.
Qed.

Lemma rpc_open_fee_zero m :
  0 <= qm_open_ledger_fee_level m <= u64_max -> qm_reference_fee_level m = TXQ_BASE_LEVEL ->
  exists fee, rpc_open_ledger_fee m 0 = Ok fee /\
    fee = (if qm_open_ledger_fee_level m =? TXQ_BASE_LEVEL then 0
           else (qm_open_ledger_fee_level m + 255) / TXQ_BASE_LEVEL).
Proof.
  intros Hl Href. unfold TXQ_BASE_LEVEL in *. destruct (Z.eqb_spec (qm_open_ledger_fee_level m) 256) as [E|E].
  - exists 0. split; [|done]. unfold rpc_open_ledger_fee, effective_base_fee_drops. rewrite Href, E. reflexivity.
  - assert (rpc_open_ledger_fee m 0 = rpc_open_ledger_fee m 1) as ->.
    { unfold rpc_open_ledger_fee, effective_base_fee_drops. by rewrite Href, (proj2 (Z.eqb_neq _ 256) E). }
    pose proof (Z.div_mod (qm_open_ledger_fee_level m) 256 ltac:(lia)).
    pose proof (Z.mod_pos_bound (qm_open_ledger_fee_level m) 256 ltac:(lia)).
    rewrite rpc_open_fee_eq; unfold TXQ_BASE_LEVEL, i64_max, u64_max in *; [|lia|lia|rewrite Z.mul_1_r; lia].
    eexists. split; [reflexivity|]. rewrite Z.mul_1_r, Z.div_1_r.
    assert ((qm_open_ledger_fee_level m + 255) / 256
      = qm_open_ledger_fee_level m / 256 + (qm_open_ledger_fee_level m mod 256 + 255) / 256) as ->.
    { rewrite <- Z.div_add_l by lia. f_equal. lia. }
    destruct (Z.ltb_spec (qm_open_ledger_fee_level m / 256 * 256) (qm_open_ledger_fee_level m)).
    + rewrite (Z.div_unique_pos (qm_open_ledger_fee_level m mod 256 + 255) 256 1
        (qm_open_ledger_fee_level m mod 256 - 1)); lia.
    + rewrite (Z.div_small (qm_open_ledger_fee_level m mod 256 + 255)); lia.
Qed.

Lemma free_fee_level_paid fee :
  0 <= fee < i64_max ->
  evaluate_fee_level_paid (mkFeePaid 0 fee 0) = Ok (Z.min u64_max ((fee + 1) * TXQ_BASE_LEVEL)).
Proof.
  intros Hf. rewrite <- (Z.div_1_r ((fee + 1) * TXQ_BASE_LEVEL)).
  rewrite <- (fee_level_paid_eq 1 0) by (unfold i64_max in *; lia).
  unfold evaluate_fee_level_paid. cbn [fp_calculated_base_fee_drops fp_fee_paid_drops fp_default_base_fee_drops].
  by rewrite !Z.add_0_r.
Qed.

(** The two answers. *)
Lemma report_parts q index count base account seq :
  metrics_usable (tq_metrics q) -> (queue_is_full q = true -> fee_order (tq_views q) <> []) ->
  0 <= base <= i64_max -> open_level q count * base / TXQ_BASE_LEVEL < i64_max ->
  let level := open_level q count in
  let floor := level * base / TXQ_BASE_LEVEL in
  exists report required,
    get_rpc_fee_report q index count base = Ok report
    /\ get_tx_required_fee_and_seq q count base account seq = Ok required
    /\ rp_open_ledger_level report = level /\ rq_required_fee_drops required = floor
    /\ (0 < base -> rp_open_ledger_fee report
          = if floor * TXQ_BASE_LEVEL / base <? level then floor + 1 else floor)
    /\ (base = 0 -> rp_open_ledger_fee report
          = if level =? TXQ_BASE_LEVEL then 0 else (level + 255) / TXQ_BASE_LEVEL).
Proof.
  intros Hm Hfull Hb Hr level floor. pose proof (open_level_range q count Hm) as Hl.
  fold level in Hl, Hr. fold floor in Hr.
  destruct (build_metrics_eq q count Hm Hfull) as [min_level Em]. fold level in Em.
  set (m := mkTxQMetrics _ _ _ _ _ _ _ _) in Em.
  assert (exists fee, rpc_open_ledger_fee m base = Ok fee
    /\ (0 < base -> fee = if floor * TXQ_BASE_LEVEL / base <? level then floor + 1 else floor)
    /\ (base = 0 -> fee = if level =? TXQ_BASE_LEVEL then 0 else (level + 255) / TXQ_BASE_LEVEL))
    as (fee & Ef & Hpos & Hzero).
  { destruct (decide (base = 0)) as [->|Hne].
    - destruct (rpc_open_fee_zero m Hl eq_refl) as (fee & E & Hfee). exists fee. split_and!; [done|lia|done].
    - eexists. split; [apply (rpc_open_fee_eq m base ltac:(lia) Hl Hr)|]. split; [done|lia]. }
  assert (0 <= floor) as Hf0 by (apply Z.div_pos; unfold TXQ_BASE_LEVEL; nia).
  destruct (mul_div_total (qm_med_fee_level m) base TXQ_BASE_LEVEL ltac:(done)) as [med Emed].
  set (mbase := if queue_is_full q then effective_base_fee_drops m base else base).
  destruct (mul_div_total (qm_min_processing_fee_level m) mbase TXQ_BASE_LEVEL ltac:(done)) as [mn Emn].
  eexists. eexists. split.
  { unfold get_rpc_fee_report. rewrite Em. cbn [mbind outcome_bind]. rewrite Ef. cbn [mbind outcome_bind].
    rewrite Emed. cbn [mbind outcome_bind]. fold (queue_is_full q). unfold mbase in Emn.
    unfold queue_is_full in *. cbn [m qm_tx_q_max_size qm_tx_count]. rewrite Emn. reflexivity. }
  split.
  { unfold get_tx_required_fee_and_seq. rewrite (required_level_eq q count Hm). cbn [mbind outcome_bind].
    fold level. rewrite mul_div_small by (fold floor; unfold TXQ_BASE_LEVEL, i64_max, u64_max in *; lia).
    reflexivity. }
  cbn [rp_open_ledger_level rp_open_ledger_fee rq_required_fee_drops m qm_open_ledger_fee_level
       option_bind mbind]. fold floor.
  rewrite (proj2 (Z.leb_le floor i64_max)) by lia. done.
Qed.

(** C33: the fees the queue reports, with an expected ledger size of at least one, a
    queue that is not both empty and full, and a base fee from 0 up for which the fee in
    question stays below the i64 limit. With a base fee of at least one drop the fee
    reported for entering the open ledger is the least fee that reaches the level the
    open ledger asks for; the fee filled into a transaction is the same number rounded
    down, so it reaches the level only when nothing was lost in rounding, and is one drop
    short otherwise. With a base fee of 0 the fee filled in is 0 and the fee reported is 0
    at the reference level and otherwise the level in whole drops, rounded up; a
    transaction is then credited with one drop more than it pays (the default base fee
    being 0 too), so a fee suffices from one drop below the reported one on. *)
Theorem reported_fees q index count base default_base account seq :
  metrics_usable (tq_metrics q) -> (queue_is_full q = true -> fee_order (tq_views q) <> []) ->
  0 <= base <= i64_max -> open_level q count * base / TXQ_BASE_LEVEL < i64_max ->
  exists report required,
    get_rpc_fee_report q index count base = Ok report
    /\ get_tx_required_fee_and_seq q count base account seq = Ok required
    /\ rp_open_ledger_level report = open_level q count
    /\ (0 < base ->
          (forall fee, 0 <= fee <= i64_max ->
             exists paid, evaluate_fee_level_paid (mkFeePaid base fee default_base) = Ok paid
               /\ (rp_open_ledger_level report <= paid <-> rp_open_ledger_fee report <= fee))
          /\ rq_required_fee_drops required <= rp_open_ledger_fee report
               <= rq_required_fee_drops required + 1
          /\ (rp_open_ledger_fee report = rq_required_fee_drops required
              <-> (TXQ_BASE_LEVEL | open_level q count * base)))
    /\ (base = 0 ->
          rq_required_fee_drops required = 0
          /\ rp_open_ledger_fee report
               = (if open_level q count =? TXQ_BASE_LEVEL then 0
                  else (open_level q count + 255) / TXQ_BASE_LEVEL)
          /\ forall fee, 0 <= fee < i64_max ->
               exists paid, evaluate_fee_level_paid (mkFeePaid 0 fee 0) = Ok paid
                 /\ (rp_open_ledger_level report <= paid <-> rp_open_ledger_fee report - 1 <= fee)).
Proof.
  intros Hm Hfull Hb Hr. pose proof (open_level_range q count Hm) as Hl.
  destruct (report_parts q index count base account seq Hm Hfull Hb Hr)
    as (report & required & E1 & E2 & E3 & E4 & E5 & E6).
  exists report, required. do 3 (split; [done|]). split.
  - intros Hpos. rewrite E3, E4, (E5 Hpos). set (level := open_level q count) in *.
    set (floor := level * base / TXQ_BASE_LEVEL) in *.
    set (least := if floor * TXQ_BASE_LEVEL / base <? level then floor + 1 else floor).
    split; [|split].
    + intros fee Hfee. eexists. split; [apply fee_level_paid_eq; lia|].
      destruct (least_fee_floor level base fee ltac:(lia) ltac:(lia) ltac:(lia)) as (_ & _ & Hiff).
      fold floor in Hiff. fold least in Hiff. rewrite <- Hiff. lia.
    + unfold least. clear. destruct (_ <? _); lia.
    + by apply floor_exact; lia.
  - intros ->. rewrite E3, E4, (E6 eq_refl), Z.mul_0_r. split; [done|]. split; [done|]. intros fee Hfee.
    eexists. split; [by apply free_fee_level_paid|]. unfold TXQ_BASE_LEVEL in *.
    pose proof (Z.div_mod (open_level q count + 255) 256 ltac:(lia)).
    pose proof (Z.mod_pos_bound (open_level q count + 255) 256 ltac:(lia)).
    destruct (Z.eqb_spec (open_level q count) 256) as [->|]; unfold u64_max in *; lia.
Qed.
End Fees.

(** ** A ledger closes *)

Section ClosedLedger.
Context `{!TxQTypes}.
Implicit Types (v : QueueViews) (k : FeeQueueKey) (core : MaybeTxCore).

Definition expired_at (ledger_seq : Z) core : bool :=
  match mt_last_valid (core_payload core) with
  | None => false
  | Some last_valid => negb (ledger_seq <? last_valid)
  end.

(** The queue without what a ledger of this number expires. *)
Definition unexpired (ledger_seq : Z) (o : option MaybeTxCore) : option MaybeTxCore :=
  core ← o; if expired_at ledger_seq core then None else Some core.

Definition entry_candidate v (e : FeeQueueEntry) : ClosedLedgerCandidate :=
  mkClosedCandidate (fk_account (fe_key e)) (fk_seq_proxy (fe_key e))
    (queue_lookup v (fe_key e) ≫= fun c => mt_last_valid (core_payload c)).

Lemma mapM_Ok {A B} (f : A -> outcome B) (g : A -> B) l :
  (forall x, x ∈ l -> f x = Ok (g x)) -> mapM f l = Ok (g <$> l).
Proof.
  induction l as [|x l IH]; intros Hf; [done|]. cbn [mapM]. rewrite Hf by by left.
  cbn [mbind outcome_bind]. rewrite IH; [done|]. intros y Hy. apply Hf. by right.
Qed.

Lemma closed_candidates_eq v : views_ok v ->
  mapM (closed_candidate v) (fee_order v) = Ok (entry_candidate v <$> fee_order v).
Proof.
  intros Hv. apply mapM_Ok. intros e He. destruct (entry_queued v e Hv He) as (c & Hc & _).
  unfold closed_candidate, entry_candidate. fold (queue_lookup v (fe_key e)). by rewrite Hc.
Qed.

Lemma candidate_key v e : cand_key (entry_candidate v e) = fe_key e.
Proof. unfold cand_key. simpl. by destruct (fe_key e). Qed.

Lemma candidate_keys v : cand_key <$> (entry_candidate v <$> fee_order v) = fe_key <$> fee_order v.
Proof. rewrite <- list_fmap_compose. apply list_fmap_ext. intros i e _. apply candidate_key. Qed.

Lemma expired_keys_spec v ledger_seq k : views_ok v ->
  k ∈ expired_keys ledger_seq (entry_candidate v <$> fee_order v)
  <-> exists core, queue_lookup v k = Some core /\ expired_at ledger_seq core = true.
Proof.
  intros Hv. unfold expired_keys. rewrite list_elem_of_fmap. split.
  - intros (c & -> & [Hx (e & -> & He)%list_elem_of_fmap]%list_elem_of_filter).
    rewrite candidate_key. destruct (entry_queued v e Hv He) as (core & Hc & _). exists core.
    split; [done|]. unfold candidate_expired in Hx. simpl in Hx. by rewrite Hc in Hx.
  - intros (core & Hk & Hx). exists (entry_candidate v (key_entry k core)).
    rewrite candidate_key. split; [by destruct k|]. apply list_elem_of_filter. split.
    + unfold candidate_expired. simpl.
      replace (mkKey (fk_account k) (fk_seq_proxy k)) with k by by destruct k. by rewrite Hk.
    + apply list_elem_of_fmap_2. by apply queued_entry.
Qed.

Lemma unexpired_keys v ledger_seq k : views_ok v ->
  (if decide (k ∈ expired_keys ledger_seq (entry_candidate v <$> fee_order v))
   then None else queue_lookup v k) = unexpired ledger_seq (queue_lookup v k).
Proof.
  intros Hv. unfold unexpired. case_decide as Hd.
  - apply expired_keys_spec in Hd as (core & -> & Hx); [|done]. simpl. by rewrite Hx.
  - destruct (queue_lookup v k) as [core|] eqn:E; [|done]. simpl.
    destruct (expired_at ledger_seq core) eqn:Hx; [|done].
    destruct Hd. apply expired_keys_spec; eauto.
Qed.

Lemma retain_ok v m (keys : list FeeQueueKey) :
  views_ok v ->
  (forall k, queue_lookup (mkViews (fee_order v) m) k = if decide (k ∈ keys) then None else queue_lookup v k) ->
  (forall n a, m !! n = Some a -> qa_account a = n) ->
  views_ok (mkViews (filter (fun e => fe_key e ∉ keys) (fee_order v)) m).
Proof.
  intros Hv Hq Hn.
  assert (forall k l, queue_lookup (mkViews l m) k = queue_lookup (mkViews (fee_order v) m) k) as Hl by done.
  constructor; cbn [fee_order].
  - by apply NoDup_fmap_filter, (vo_nodup _ Hv).
  - intros e. rewrite list_elem_of_filter, (vo_entries _ Hv), Hl, Hq. case_decide; naive_solver.
  - done.
  - intros k core. rewrite Hl, Hq. case_decide; [done|]. apply (vo_payload _ Hv).
Qed.

(** What holds of the queue between operations. *)
Record txq_ok (q : TxQ) : Prop := {
  to_views : views_ok (tq_views q);
  to_sorted : fee_sorted (tq_parent_hash_comp q) (tq_views q);
  to_metrics : metrics_ok (tq_metrics q);
  to_positive : 1 <= minimum_txn_count (fm_config (tq_metrics q))
}.

Lemma txq_ok_usable q : txq_ok q -> metrics_usable (tq_metrics q).
Proof.
  intros [_ _ Hm Hp]. split; [pose proof (mo_expected _ Hm); lia|].
  pose proof (mo_multiplier _ Hm). pose proof (co_multiplier _ (mo_config _ Hm)).
  unfold in_u64 in *. lia.
Qed.

(** How the limit on the queue moves. *)
Definition next_max_size (q : TxQ) (time_leap : bool) (expected : Z) : option Z :=
  if time_leap then tq_current_max_size q
  else Some (Z.max (wrap_u64 (expected * mc_ledgers_in_queue (fm_config (tq_metrics q))))
               (mc_queue_size_min (fm_config (tq_metrics q)))).

Lemma hit_expired q ledger_seq n a a' :
  views_ok (tq_views q) -> accounts (tq_views q) !! n = Some a ->
  qa_drop_penalty a' = qa_drop_penalty a
    || hit (expired_keys ledger_seq (entry_candidate (tq_views q) <$> fee_order (tq_views q))) n ->
  qa_drop_penalty a' = true <-> qa_drop_penalty a = true
    \/ exists s core, qa_transactions a !! s = Some core /\ expired_at ledger_seq core = true.
Proof.
  intros Hv Ea ->. rewrite orb_true_iff. apply or_iff_compat_l. unfold hit.
  rewrite existsb_exists. split.
  - intros (k & Hin & <-%Z.eqb_eq). apply list_elem_of_In in Hin.
    apply expired_keys_spec in Hin as (core & Hk & Hx); [|done].
    exists (fk_seq_proxy k), core. split; [|done]. unfold queue_lookup in Hk. by rewrite Ea in Hk.
  - intros (s & core & Hs & Hx). exists (mkKey n s). split; [|by apply Z.eqb_eq].
    apply list_elem_of_In, expired_keys_spec; [done|]. exists core. split; [|done].
    unfold queue_lookup. simpl. by rewrite Ea.
Qed.

Lemma closed_ledger_full q levels ledger_seq time_leap :
  txq_ok q -> Forall in_u64 levels -> in_u64 (Z.of_nat (length levels)) ->
  exists q' r, txq_process_closed_ledger q levels ledger_seq time_leap = Ok (q', r)
    /\ txq_ok q' /\ tq_setup q' = tq_setup q /\ tq_parent_hash_comp q' = tq_parent_hash_comp q
    /\ (forall k, queue_lookup (tq_views q') k = unexpired ledger_seq (queue_lookup (tq_views q) k))
    /\ (forall n a', accounts (tq_views q') !! n = Some a' -> qa_transactions a' <> ∅
          /\ exists a, accounts (tq_views q) !! n = Some a
               /\ qa_retry_penalty a' = qa_retry_penalty a
               /\ (qa_drop_penalty a' = true <-> qa_drop_penalty a = true
                     \/ exists s core, qa_transactions a !! s = Some core
                                      /\ expired_at ledger_seq core = true))
    /\ tq_current_max_size q' = next_max_size q time_leap (fm_txns_expected (tq_metrics q')).
Proof.
  intros [Hv Hs Hm Hp] Hl Hn.
  destruct (metrics_update_full (tq_metrics q) levels time_leap Hm Hl Hn) as (m' & Em & Hm' & Hc & _).
  set (cs := entry_candidate (tq_views q) <$> fee_order (tq_views q)).
  set (keys := expired_keys ledger_seq cs).
  destruct (process_closed_ledger_ok (tq_views q) cs ledger_seq
    (default (mc_queue_size_min (fm_config (tq_metrics q))) (tq_current_max_size q)) time_leap
    (fm_txns_expected m') (mc_ledgers_in_queue (fm_config m')) (mc_queue_size_min (fm_config m')) Hv)
    as (accts & emptied & Ep & Ha & Hq).
  { unfold cs. rewrite candidate_keys. apply Hv. }
  { intros c (e & -> & He)%list_elem_of_fmap. rewrite candidate_key.
    destruct (entry_queued _ e Hv He) as (core & Hcore & _). eauto. }
  do 2 eexists. split.
  { unfold txq_process_closed_ledger. rewrite (closed_candidates_eq _ Hv). cbn [mbind outcome_bind].
    unfold live_owner_process_closed_ledger, process_closed_ledger_with_metrics. fold cs. rewrite Em.
    cbn [mbind outcome_bind metrics_snapshot ms_txns_expected]. rewrite Ep. reflexivity. }
  cbn [tq_views tq_setup tq_parent_hash_comp tq_metrics tq_current_max_size mm_maintenance
    cm_expired_candidates cm_next_max_size accounts].
  assert (forall k, queue_lookup (mkViews (fee_order (tq_views q)) accts) k
    = unexpired ledger_seq (queue_lookup (tq_views q) k)) as Hun.
  { intros k. rewrite Hq. by apply unexpired_keys. }
  split_and!; [| done | done | exact Hun | | rewrite ?Hc; unfold next_max_size; by destruct (tq_current_max_size q), time_leap].
  - split; cbn [tq_views tq_metrics tq_parent_hash_comp]; [|by apply StronglySorted_filter|done|by rewrite Hc].
    apply (retain_ok (tq_views q) accts keys Hv Hq).
    intros n a' Ha'. destruct (Ha n a' Ha') as (a & Ea & (En & _) & _). rewrite En.
    by apply (vo_accounts _ Hv).
  - intros n a' Ha'. destruct (Ha n a' Ha') as (a & Ea & (_ & Er & Ed & _) & Hne). split; [done|].
    exists a. split; [done|]. split; [done|]. by apply (hit_expired q ledger_seq n a a').
Qed.

(** closing a ledger drops from the queue exactly the transactions whose last
    valid ledger is not after it, from both views, never fails, keeps the queue
    consistent, marks the accounts that lost a transaction with the drop penalty and
    forgets the ones left empty; the size limit follows the new expected ledger size,
    except after a slow round, which leaves it as it was. *)
Theorem closed_ledger_spec q levels ledger_seq time_leap :
  txq_ok q -> Forall in_u64 levels -> in_u64 (Z.of_nat (length levels)) ->
  exists q' r, txq_process_closed_ledger q levels ledger_seq time_leap = Ok (q', r)
    /\ txq_ok q' /\ tq_setup q' = tq_setup q /\ tq_parent_hash_comp q' = tq_parent_hash_comp q
    /\ (forall k, queue_lookup (tq_views q') k = unexpired ledger_seq (queue_lookup (tq_views q) k))
    /\ (forall n a', accounts (tq_views q') !! n = Some a' -> qa_transactions a' <> ∅
          /\ exists a, accounts (tq_views q) !! n = Some a
               /\ qa_retry_penalty a' = qa_retry_penalty a
               /\ (qa_drop_penalty a' = true <-> qa_drop_penalty a = true
                     \/ exists s core, qa_transactions a !! s = Some core
                                      /\ expired_at ledger_seq core = true))
    /\ tq_current_max_size q' = next_max_size q time_leap (fm_txns_expected (tq_metrics q')).
Proof. exact (closed_ledger_full q levels ledger_seq time_leap). Qed.
End ClosedLedger.

(** ** The first free sequence *)

Section NextSeq.
Context `{!TxQTypes}.
Implicit Types (a : TxQAccount) (s : SeqProxy) (core : MaybeTxCore).

(** Each queued sequence ends before the next queued transaction begins. *)
Definition spaced a : Prop :=
  forall s core, qa_transactions a !! s = Some core -> is_seq s = true ->
  is_seq (following_seq (core_consequences core)) = true
  /\ ord_ltb s (following_seq (core_consequences core)) = true
  /\ forall s' core', qa_transactions a !! s' = Some core' -> ord_ltb s s' = true ->
       ord_leb (following_seq (core_consequences core)) s' = true.

(** Following the queued transactions from a sequence on, to one that is free. *)
Inductive seq_chain a : SeqProxy -> SeqProxy -> Prop :=
| sc_free s : qa_transactions a !! s = None -> seq_chain a s s
| sc_queued s core r :
    qa_transactions a !! s = Some core ->
    seq_chain a (following_seq (core_consequences core)) r -> seq_chain a s r.

Lemma next_queuable_from_chain a rest s :
  spaced a -> is_seq s = true -> key_sorted rest ->
  (forall e, e ∈ rest -> qa_transactions a !! e.1 = Some e.2 /\ ord_leb s e.1 = true) ->
  (forall s' core', qa_transactions a !! s' = Some core' -> ord_leb s s' = true -> (s', core') ∈ rest) ->
  seq_chain a s (next_queuable_from s rest).
Proof.
  intros Hsp. revert s. induction rest as [|[q core] rest IH]; intros s Hs Hsort Hin Hall; cbn [next_queuable_from].
  { apply sc_free. destruct (qa_transactions a !! s) as [c|] eqn:E; [|done].
    specialize (Hall s c E ltac:(apply ord_leb_cases; by left)). by apply elem_of_nil in Hall. }
  inversion Hsort as [|? ? Hsort' Hq]; subst. rewrite Forall_forall in Hq.
  destruct (Hin (q, core) ltac:(by left)) as [Eq Hle]. simpl in Eq, Hle.
  destruct (ord_ltb s q) eqn:Hlt.
  - apply sc_free. destruct (qa_transactions a !! s) as [c|] eqn:E; [|done].
    specialize (Hall s c E ltac:(apply ord_leb_cases; by left)).
    apply elem_of_cons in Hall as [[= -> _]|Hall]; [by rewrite ord_irrefl in Hlt|].
    specialize (Hq _ Hall). simpl in Hq. rewrite (ord_ltb_asym _ _ Hlt) in Hq. done.
  - apply ord_leb_cases in Hle as [<-|Hle]; [|congruence].
    destruct (Hsp s core Eq Hs) as (Hf & Hsf & Hnext). eapply sc_queued; [done|].
    apply IH; [done|done| |].
    + intros e He. split; [by apply Hin; right|]. destruct (Hin e ltac:(by right)) as [Ee _].
      apply (Hnext _ _ Ee). apply (Hq _ He).
    + intros s' core' E' Hle'.
      assert (ord_ltb s s' = true) as Hss.
      { apply ord_leb_cases in Hle' as [<-|?]; [done|]. by eapply ord_trans. }
      assert ((s', core') ∈ (s, core) :: rest) as Hm.
      { apply (Hall _ _ E'). apply ord_leb_cases. by right. }
      apply elem_of_cons in Hm as [[= -> _]|?]; [by rewrite ord_irrefl in Hss|done].
Qed.

Lemma next_queuable_eq a s :
  is_seq s = true ->
  next_queuable_seq a s = next_queuable_from s (range_from s (qa_transactions a)).
Proof.
  intros Hs. unfold next_queuable_seq.
  pose proof (elem_of_range_from s (qa_transactions a)) as Hr.
  destruct (range_from s (qa_transactions a)) as [|[q core] rest]; [done|]. cbn [next_queuable_from].
  destruct (decide (q = s)) as [->|Hne].
  - by rewrite bool_decide_eq_true_2, Hs, ord_irrefl.
  - rewrite bool_decide_eq_false_2, orb_true_r by done.
    destruct (proj1 (Hr q core) ltac:(by left)) as [_ Hle].
    apply ord_leb_cases in Hle as [->|Hlt]; [done|]. by rewrite Hlt.
Qed.

(** the sequence offered to an account's next transaction is the first one free
    after the transactions it has queued: from the account's own sequence it follows
    the queued transactions, each to the sequence after it, and stops at the first
    that none of them holds. *)
Theorem next_queuable_first_hole a s :
  spaced a -> is_seq s = true -> seq_chain a s (next_queuable_seq a s).
Proof.
  intros Hsp Hs. rewrite next_queuable_eq by done. apply next_queuable_from_chain; [done|done| | |].
  - apply range_from_sorted.
  - intros [s' core'] He. by apply elem_of_range_from in He.
  - intros s' core' E Hle. by apply elem_of_range_from.
Qed.
End NextSeq.

(** ** Examples *)

Module QueueDemo.
Import AcceptDemo.

(** Three transactions expected, four in the open ledger. *)
Definition busy : TxQ :=
  mkTxQ setup_default (mkMetrics (fm_config (fee_metrics_state setup_default)) 3 [] 128000) None 0 queue.

(** The report says 8889 drops, the number filled into a transaction is 8888, and that
    pays a level of 227532 where 227555 is asked for. *)
Lemma reported_fees_witness :
  exists report required,
    get_rpc_fee_report busy 40 4 10 = Ok report
    /\ get_tx_required_fee_and_seq busy 4 10 1 (Some 5) = Ok required
    /\ rp_open_ledger_level report = 227555 /\ rp_open_ledger_fee report = 8889
    /\ rq_required_fee_drops required = 8888 /\ rq_available_seq required = 7
    /\ evaluate_fee_level_paid (mkFeePaid 10 8888 10) = Ok 227532
    /\ (rp_open_ledger_fee report = rq_required_fee_drops required
        <-> (TXQ_BASE_LEVEL | open_level busy 4 * 10)).
Proof.
  destruct (reported_fees busy 40 4 10 10 1 (Some 5)) as (report & required & E1 & E2 & _ & H & _).
  - split; [simpl; lia|]. vm_compute. split; discriminate.
  - discriminate.
  - unfold i64_max. lia.
  - vm_compute. reflexivity.
  - exists report, required. split; [exact E1|]. split; [exact E2|].
    destruct (H ltac:(lia)) as (_ & _ & H'). clear H.
    vm_compute in E1. vm_compute in E2. injection E1 as <-. injection E2 as <-.
    do 5 (split; [reflexivity|]). exact H'.
Defined.

(** With a base fee of 0 the report says 889 drops, 888 are enough, and 0 is filled in. *)
Example zero_base_fee :
  (report ← get_rpc_fee_report busy 40 4 0; mret (rp_open_ledger_fee report)) = Ok 889
  /\ (required ← get_tx_required_fee_and_seq busy 4 0 1 (Some 5); mret (rq_required_fee_drops required)) = Ok 0
  /\ evaluate_fee_level_paid (mkFeePaid 0 888 0) = Ok 227584.
Proof. vm_compute. done. Qed.

(** Account 1's first transaction is only good up to ledger 40. *)
Definition expiring : QueueViews :=
  insert_core views_empty (mkKey 1 (sequence 5))
    (queued_core 1 11 (Some 40) (sequence 5) 300 0 (preflight (sequence 5))) 0.

Definition expiring_queue : TxQ := new_from_setup setup_default None 0 expiring.

Lemma expiring_ok : txq_ok expiring_queue.
Proof.
  split.
  - apply insert_core_ok; [apply views_empty_ok|reflexivity|done].
  - unfold fee_sorted. vm_compute. repeat constructor.
  - exact MetricsDemo.demo_metrics_ok.
  - vm_compute. discriminate.
Qed.

Lemma closed_ledger_spec_witness :
  exists q' r, txq_process_closed_ledger expiring_queue [256; 300] 40 false = Ok (q', r)
    /\ queue_lookup (tq_views q') (mkKey 1 (sequence 5)) = None
    /\ fee_order (tq_views q') = [] /\ accounts (tq_views q') = ∅
    /\ tq_current_max_size q' = Some 2000.
Proof.
  destruct (closed_ledger_spec expiring_queue [256; 300] 40 false expiring_ok)
    as (q' & r & E & _ & _ & _ & Hq & _).
  - repeat (constructor; [vm_compute; split; discriminate|]). constructor.
  - vm_compute. split; discriminate.
  - exists q', r. split; [exact E|]. rewrite Hq. split; [vm_compute; reflexivity|].
    vm_compute in E. injection E as <- <-. split; [reflexivity|]. split; reflexivity.
Defined.

(** An account with sequences 5 and 6 queued. *)
Definition two : TxQAccount :=
  with_transactions (txq_account_new 1)
    {[ sequence 5 := core 11 300 1 (sequence 5); sequence 6 := core 12 900 1 (sequence 6) ]}.

Lemma two_lookup s c : qa_transactions two !! s = Some c ->
  s = sequence 5 /\ c = core 11 300 1 (sequence 5) \/ s = sequence 6 /\ c = core 12 900 1 (sequence 6).
Proof.
  unfold two. cbn [with_transactions qa_transactions].
  intros [[<- <-]|[_ [<- <-]%lookup_singleton_Some]]%lookup_insert_Some; [by left|by right].
Qed.

Lemma two_spaced : spaced two.
Proof.
  intros s c [[-> ->]|[-> ->]]%two_lookup _; (split; [reflexivity|]); (split; [reflexivity|]);
    intros s' c' [[-> _]|[-> _]]%two_lookup Hlt; first [reflexivity | vm_compute in Hlt; discriminate].
Qed.

Lemma next_queuable_first_hole_witness :
  next_queuable_seq two (sequence 5) = sequence 7
  /\ seq_chain two (sequence 5) (next_queuable_seq two (sequence 5)).
Proof.
  split; [vm_compute; reflexivity|]. apply next_queuable_first_hole; [exact two_spaced|reflexivity].
Defined.
End QueueDemo.
