(* ===== verification/TxQApplyRules.v ===== *)
(** * Transaction queue: may a transaction be queued?

    The checks of [TxQ::apply], one source file each: [queue_rules.rs] (what may be
    held, where in the account's queue), [queue_apply_guards.rs],
    [queue_apply_window.rs], [queue_apply_balance.rs], [queue_apply_replace.rs],
    [queue_apply_path.rs], [queue_apply_account.rs], [queue_apply_multitxn.rs],
    [queue_apply_multitxn_stage.rs], [queue_apply_view_adjust.rs],
    [queue_apply_hold_fallback.rs] and [queue_apply_fee_context.rs]. *)

From S2P Require Import Prelude LoadFee BTree TxQTypes TxQMetrics TxQViews.

(** ** [queue_rules.rs] *)

Record QueueHoldPreflight := mkHoldPreflight {
  hp_has_previous_txn_id : bool;
  hp_has_account_txn_id : bool;
  hp_has_delegate : bool;
  hp_has_fee_sponsor : bool;
  hp_flags : Z;
  hp_last_valid_ledger : option Z
}.

Definition check_hold_preconditions (p : QueueHoldPreflight)
    (open_ledger_seq minimum_last_ledger_buffer : Z) : Ter :=
  if hp_has_previous_txn_id p || hp_has_account_txn_id p
     || any_apply_flags (Z.land (hp_flags p) FAIL_HARD)
  then TEL_CAN_NOT_QUEUE
  else if hp_has_delegate p then TEL_CAN_NOT_QUEUE
  else if hp_has_fee_sponsor p then TEL_CAN_NOT_QUEUE
  else
    let last_ledger_threshold := wrap_u32 (open_ledger_seq + minimum_last_ledger_buffer) in
    match hp_last_valid_ledger p with
    | Some last_valid => if last_valid <? last_ledger_threshold then TEL_CAN_NOT_QUEUE else TES_SUCCESS
    | None => TES_SUCCESS
    end.

Section Rules.
Context `{!TxQTypes}.
Implicit Types a : TxQAccount.

Definition check_queue_full a (maximum_txn_per_account : Z) (tx_seq_proxy account_seq_proxy : SeqProxy)
    : Ter :=
  if get_txn_count a <? maximum_txn_per_account then TES_SUCCESS
  else if is_ticket tx_seq_proxy then TEL_CAN_NOT_QUEUE_FULL
  else
    let next_queuable := next_queuable_seq a account_seq_proxy in
    if negb (bool_decide (tx_seq_proxy = next_queuable)) then TEL_CAN_NOT_QUEUE_FULL
    else match head (range_after next_queuable (qa_transactions a)) with
         | Some (next_seq_proxy, _) =>
             if is_seq next_seq_proxy then TES_SUCCESS else TEL_CAN_NOT_QUEUE_FULL
         | None => TEL_CAN_NOT_QUEUE_FULL
         end.

Definition check_hold_admission (p : QueueHoldPreflight)
    (open_ledger_seq minimum_last_ledger_buffer : Z) (tx_q_account : option TxQAccount)
    (maximum_txn_per_account : Z) (replaces_existing : bool)
    (tx_seq_proxy account_seq_proxy : SeqProxy) : Ter :=
  let result := check_hold_preconditions p open_ledger_seq minimum_last_ledger_buffer in
  if negb (result =? TES_SUCCESS) then result
  else match tx_q_account with
       | None => TES_SUCCESS
       | Some a =>
           if replaces_existing then TES_SUCCESS
           else check_queue_full a maximum_txn_per_account tx_seq_proxy account_seq_proxy
       end.

Definition check_sequence_position a (tx_seq_proxy account_seq_proxy : SeqProxy)
    (replaces_existing : bool) : Ter :=
  let prev_tx := get_prev_tx a tx_seq_proxy in
  let before_prev := match prev_tx with
                     | None => true
                     | Some (prev_seq_proxy, _) => ord_ltb tx_seq_proxy prev_seq_proxy
                     end in
  if before_prev then
    if is_seq tx_seq_proxy then
      if ord_ltb tx_seq_proxy account_seq_proxy then TEF_PAST_SEQ
      else if ord_ltb account_seq_proxy tx_seq_proxy then TER_PRE_SEQ
      else TES_SUCCESS
    else TES_SUCCESS
  else if negb replaces_existing && is_seq tx_seq_proxy
          && negb (bool_decide (next_queuable_seq a account_seq_proxy = tx_seq_proxy))
  then TEL_CAN_NOT_QUEUE
  else TES_SUCCESS.

(** ** [queue_apply_guards.rs] *)

Inductive QueueApplyPrerequisite :=
| PrReady | PrMissingAccount | PrMissingTicketPast | PrMissingTicketFuture.

Definition prerequisite_ter (p : QueueApplyPrerequisite) : option Ter :=
  match p with
  | PrReady => None
  | PrMissingAccount => Some TER_NO_ACCOUNT
  | PrMissingTicketPast => Some TEF_NO_TICKET
  | PrMissingTicketFuture => Some TER_PRE_TICKET
  end.

Definition evaluate_queue_apply_prerequisite (account_exists : bool)
    (account_seq_proxy tx_seq_proxy : SeqProxy) (ticket_exists : bool) : QueueApplyPrerequisite :=
  if negb account_exists then PrMissingAccount
  else if is_ticket tx_seq_proxy && negb ticket_exists
  then if sp_value tx_seq_proxy <? sp_value account_seq_proxy then PrMissingTicketPast
       else PrMissingTicketFuture
  else PrReady.

Inductive BlockerQueueAdmission :=
| BlockerAllowed | RejectsCoResidentQueue | RejectsNonReplacementOfLoneEntry.

Definition blocker_ter (b : BlockerQueueAdmission) : option Ter :=
  match b with BlockerAllowed => None | _ => Some TEL_CAN_NOT_QUEUE_BLOCKS end.

Definition evaluate_blocker_queue_admission (is_blocker : bool) (account_tx_count : nat)
    (tx_seq_proxy : SeqProxy) (queued_front_seq_proxy : option SeqProxy) : BlockerQueueAdmission :=
  if negb is_blocker then BlockerAllowed
  else if Nat.ltb 1 account_tx_count then RejectsCoResidentQueue
  else if Nat.eqb account_tx_count 1
          && match queued_front_seq_proxy with
             | Some q => negb (bool_decide (q = tx_seq_proxy))
             | None => false
             end
  then RejectsNonReplacementOfLoneEntry
  else BlockerAllowed.

(** ** [queue_apply_window.rs] *)

Record AccountQueueWindow := mkWindow {
  wd_account_is_in_queue : bool;
  wd_first_relevant_seq_proxy : option SeqProxy;
  wd_relevant_tx_count : nat;
  wd_replaces_existing : bool;
  wd_front_is_blocker : bool
}.

Definition window_default : AccountQueueWindow := mkWindow false None 0 false false.

Definition inspect_account_queue_window (tx_q_account : option TxQAccount)
    (account_seq_proxy tx_seq_proxy : SeqProxy) : AccountQueueWindow :=
  match tx_q_account with
  | None => window_default
  | Some a =>
      let relevant := range_from account_seq_proxy (qa_transactions a) in
      mkWindow true (fst <$> head relevant) (length relevant)
        (match qa_transactions a !! tx_seq_proxy with Some _ => true | None => false end)
        (match head relevant with
         | Some (_, queued) => tc_is_blocker (core_consequences queued)
         | None => false
         end)
  end.

Inductive QueuedBlockerAdmission := QueuedAllowed | BlockedByQueuedBlocker.

Definition queued_blocker_ter (b : QueuedBlockerAdmission) : option Ter :=
  match b with QueuedAllowed => None | BlockedByQueuedBlocker => Some TEL_CAN_NOT_QUEUE_BLOCKED end.

Definition evaluate_queued_blocker_admission (w : AccountQueueWindow) (tx_seq_proxy : SeqProxy)
    : QueuedBlockerAdmission :=
  if Nat.eqb (wd_relevant_tx_count w) 1 && wd_front_is_blocker w
     && match wd_first_relevant_seq_proxy w with
        | Some front => negb (bool_decide (front = tx_seq_proxy))
        | None => false
        end
  then BlockedByQueuedBlocker else QueuedAllowed.

(** ** [queue_apply_balance.rs] *)

Record QueueApplyBalanceTotals := mkTotals { bt_total_fee_drops : Z; bt_potential_spend_drops : Z }.

Inductive QueueApplyBalanceDecision :=
| BalanceAllowed (t : QueueApplyBalanceTotals)
| TotalFeesInFlightTooHigh (t : QueueApplyBalanceTotals).

Definition balance_totals (d : QueueApplyBalanceDecision) : QueueApplyBalanceTotals :=
  match d with BalanceAllowed t | TotalFeesInFlightTooHigh t => t end.

Definition balance_ter (d : QueueApplyBalanceDecision) : option Ter :=
  match d with
  | BalanceAllowed _ => None
  | TotalFeesInFlightTooHigh _ => Some TEL_CAN_NOT_QUEUE_BALANCE
  end.

Definition add_consequences (t : QueueApplyBalanceTotals) (c : TxConsequences)
    : QueueApplyBalanceTotals :=
  mkTotals (sat_u64 (bt_total_fee_drops t + tc_fee_drops c))
    (sat_u64 (bt_potential_spend_drops t + tc_potential_spend_drops c)).

(** The queued transactions from the account's sequence on; the candidate stands in
    for the one it replaces, unless that one is the last. *)
Fixpoint in_flight_totals (tx_seq_proxy : SeqProxy) (candidate : TxConsequences)
    (t : QueueApplyBalanceTotals) (relevant : list (SeqProxy * MaybeTxCore))
    : QueueApplyBalanceTotals :=
  match relevant with
  | [] => t
  | (s, queued) :: rest =>
      if negb (bool_decide (s = tx_seq_proxy))
      then in_flight_totals tx_seq_proxy candidate (add_consequences t (core_consequences queued)) rest
      else match rest with
           | [] => in_flight_totals tx_seq_proxy candidate t rest
           | _ => in_flight_totals tx_seq_proxy candidate (add_consequences t candidate) rest
           end
  end.

Definition evaluate_queue_apply_balance a (account_seq_proxy tx_seq_proxy : SeqProxy)
    (candidate : TxConsequences) (balance_drops reserve_drops base_fee_drops : Z)
    : QueueApplyBalanceDecision :=
  let totals := in_flight_totals tx_seq_proxy candidate (mkTotals 0 0)
                  (range_from account_seq_proxy (qa_transactions a)) in
  if (balance_drops <=? bt_total_fee_drops totals)
     || ((sat_u64 (base_fee_drops * 10) <? reserve_drops)
         && (reserve_drops <=? bt_total_fee_drops totals))
  then TotalFeesInFlightTooHigh totals
  else BalanceAllowed totals.

(** ** [queue_apply_replace.rs] *)

Inductive ReplacementFeeDecision :=
| ReplaceAllowed (required_fee_level : Z)
| ReplaceInsufficientFee (required_fee_level : Z).

Definition replacement_ter (d : ReplacementFeeDecision) : option Ter :=
  match d with
  | ReplaceAllowed _ => None
  | ReplaceInsufficientFee _ => Some TEL_CAN_NOT_QUEUE_FEE
  end.

Definition increase_replacement_fee_level (existing_fee_level retry_sequence_percent : Z) : outcome Z :=
  r ← mul_div existing_fee_level (100 + retry_sequence_percent) 100;
  mret (default MULDIV_MAX r).

Definition evaluate_replacement_fee (paid_fee_level existing_fee_level retry_sequence_percent : Z)
    : outcome ReplacementFeeDecision :=
  required_fee_level ← increase_replacement_fee_level existing_fee_level retry_sequence_percent;
  mret (if required_fee_level <? paid_fee_level then ReplaceAllowed required_fee_level
        else ReplaceInsufficientFee required_fee_level).

(** ** [queue_apply_path.rs] *)

Inductive QueueApplyPath := OpenLedger | QueuedAccount (requires_multi_txn : bool).

Definition path_requires_multi_txn (p : QueueApplyPath) : bool :=
  match p with OpenLedger => false | QueuedAccount b => b end.

Definition evaluate_queue_apply_path (account_tx_count : nat)
    (tx_seq_proxy account_seq_proxy : SeqProxy) (replaces_existing : bool) : Ter + QueueApplyPath :=
  if Nat.eqb account_tx_count 0 then
    if is_seq tx_seq_proxy then
      if ord_ltb tx_seq_proxy account_seq_proxy then inl TEF_PAST_SEQ
      else if ord_ltb account_seq_proxy tx_seq_proxy then inl TER_PRE_SEQ
      else inr OpenLedger
    else inr OpenLedger
  else if ord_ltb tx_seq_proxy account_seq_proxy then inl TEF_PAST_SEQ
  else inr (QueuedAccount (Nat.ltb 1 account_tx_count || negb replaces_existing)).

(** ** [queue_apply_account.rs] *)

Record QueueApplyAccountContext := mkAccountContext {
  ax_window : AccountQueueWindow;
  ax_first_relevant_retries_remaining : option Z;
  ax_replacement_decision : option ReplacementFeeDecision;
  ax_replaced : option FeeQueueKey
}.

Inductive QueueApplyAccountStage :=
| AcRejectBlockerAdmission (b : BlockerQueueAdmission)
| AcRejectQueuedBlocker (b : QueuedBlockerAdmission)
| AcRejectReplacementFee (d : ReplacementFeeDecision)
| AcReady (c : QueueApplyAccountContext).

Definition account_stage_result (st : QueueApplyAccountStage) : outcome ApplyResult :=
  match st with
  | AcRejectBlockerAdmission b => ter ← expect (blocker_ter b); mret (mkApplyResult ter false false)
  | AcRejectQueuedBlocker b => ter ← expect (queued_blocker_ter b); mret (mkApplyResult ter false false)
  | AcRejectReplacementFee d => ter ← expect (replacement_ter d); mret (mkApplyResult ter false false)
  | AcReady _ => mret (mkApplyResult TES_SUCCESS false false)
  end.

Definition run_queue_apply_account_stage (v : QueueViews) (account : Z)
    (account_seq_proxy tx_seq_proxy : SeqProxy) (is_blocker : bool)
    (fee_level_paid retry_sequence_percent : Z) : outcome QueueApplyAccountStage :=
  let tx_q_account := accounts v !! account in
  let window := inspect_account_queue_window tx_q_account account_seq_proxy tx_seq_proxy in
  match evaluate_blocker_queue_admission is_blocker (wd_relevant_tx_count window) tx_seq_proxy
          (wd_first_relevant_seq_proxy window) with
  | BlockerAllowed =>
      match evaluate_queued_blocker_admission window tx_seq_proxy with
      | QueuedAllowed =>
          replacement_decision ←
            match a ← tx_q_account; qa_transactions a !! tx_seq_proxy with
            | Some existing =>
                d ← evaluate_replacement_fee fee_level_paid (mt_fee_level (core_payload existing))
                      retry_sequence_percent;
                mret (Some d)
            | None => mret None
            end;
          match replacement_decision with
          | Some (ReplaceInsufficientFee _ as d) => mret (AcRejectReplacementFee d)
          | _ =>
              let retries :=
                first_relevant ← wd_first_relevant_seq_proxy window;
                a ← tx_q_account;
                queued ← qa_transactions a !! first_relevant;
                Some (mt_retries_remaining (core_payload queued)) in
              let replaced := if wd_replaces_existing window
                              then Some (mkKey account tx_seq_proxy) else None in
              mret (AcReady (mkAccountContext window retries replacement_decision replaced))
          end
      | b => mret (AcRejectQueuedBlocker b)
      end
  | b => mret (AcRejectBlockerAdmission b)
  end.

(** ** [queue_apply_multitxn.rs], [queue_apply_view_adjust.rs],
    [queue_apply_hold_fallback.rs], [queue_apply_multitxn_stage.rs] *)

Definition evaluate_queue_apply_multitxn_admission (path : QueueApplyPath) (p : QueueHoldPreflight)
    (open_ledger_seq minimum_last_ledger_buffer : Z) a (maximum_txn_per_account : Z)
    (tx_seq_proxy account_seq_proxy : SeqProxy) (replaces_existing : bool) : Ter + QueueApplyPath :=
  if negb (path_requires_multi_txn path) then inr path
  else
    let ter := check_hold_admission p open_ledger_seq minimum_last_ledger_buffer (Some a)
                 maximum_txn_per_account replaces_existing tx_seq_proxy account_seq_proxy in
    if negb (ter =? TES_SUCCESS) then inl ter
    else
      let ter := check_sequence_position a tx_seq_proxy account_seq_proxy replaces_existing in
      if negb (ter =? TES_SUCCESS) then inl ter else inr path.

Record QueueApplyViewAdjustment := mkAdjustment {
  va_potential_total_spend_drops : Z;
  va_adjusted_balance_drops : Z;
  va_applied_sequence_value : Z
}.

Definition to_i64_drops (drops : Z) : outcome Z := if drops <=? i64_max then Ok drops else Panic.

Definition evaluate_queue_apply_view_adjustment
    (total_fee potential_spend balance reserve base_fee : Z)
    (tx_seq_proxy next_queuable_seq : SeqProxy) : outcome QueueApplyViewAdjustment :=
  total_fee_drops ← to_i64_drops total_fee;
  potential_spend_drops ← to_i64_drops potential_spend;
  balance_drops ← to_i64_drops balance;
  reserve_drops ← to_i64_drops reserve;
  base_fee_drops ← to_i64_drops base_fee;
  let spendable_balance_drops := balance_drops - Z.min balance_drops reserve_drops in
  let potential_total_spend_drops :=
    wrap_i64 (total_fee_drops + Z.min spendable_balance_drops potential_spend_drops) in
  if (0 <? potential_total_spend_drops)
     || ((potential_total_spend_drops =? 0) && (base_fee_drops =? 0))
  then mret (mkAdjustment potential_total_spend_drops
               (wrap_i64 (balance_drops - potential_total_spend_drops))
               (if is_seq tx_seq_proxy then sp_value tx_seq_proxy else sp_value next_queuable_seq))
  else Panic.

Inductive QueueApplyHoldFallback :=
| AlreadyVerifiedByMultiTxn | HoldAllowed | HoldRejectCannotHold (t : Ter).

Definition hold_fallback_ter (h : QueueApplyHoldFallback) : option Ter :=
  match h with HoldRejectCannotHold t => Some t | _ => None end.

Definition evaluate_queue_apply_hold_fallback (has_multi_txn : bool) (can_be_held_result : Ter)
    : QueueApplyHoldFallback :=
  if has_multi_txn then AlreadyVerifiedByMultiTxn
  else if can_be_held_result =? TES_SUCCESS then HoldAllowed
  else HoldRejectCannotHold can_be_held_result.

Record QueueApplyMultiTxnInputs := mkMultiInputs {
  mi_preflight : QueueHoldPreflight;
  mi_open_ledger_seq : Z;
  mi_minimum_last_ledger_buffer : Z;
  mi_maximum_txn_per_account : Z;
  mi_account_seq_proxy : SeqProxy;
  mi_tx_seq_proxy : SeqProxy;
  mi_balance_drops : Z;
  mi_reserve_drops : Z;
  mi_base_fee_drops : Z;
  mi_can_be_held_result : Ter;
  mi_consequences : TxConsequences
}.

Record QueueApplyMultiTxnContext := mkMultiContext {
  mx_path : QueueApplyPath;
  mx_view_adjustment : option QueueApplyViewAdjustment;
  mx_hold_fallback : QueueApplyHoldFallback
}.

Inductive QueueApplyMultiTxnStage :=
| MtRejectPath (t : Ter)
| MtRejectBalance (d : QueueApplyBalanceDecision)
| MtReady (c : QueueApplyMultiTxnContext).

Definition multitxn_stage_result (st : QueueApplyMultiTxnStage) : outcome ApplyResult :=
  match st with
  | MtRejectPath ter => mret (mkApplyResult ter false false)
  | MtRejectBalance d => ter ← expect (balance_ter d); mret (mkApplyResult ter false false)
  | MtReady _ => mret (mkApplyResult TES_SUCCESS false false)
  end.

Definition run_queue_apply_multitxn_stage (tx_q_account : option TxQAccount)
    (c : QueueApplyAccountContext) (i : QueueApplyMultiTxnInputs) : outcome QueueApplyMultiTxnStage :=
  let replaces := wd_replaces_existing (ax_window c) in
  match evaluate_queue_apply_path (wd_relevant_tx_count (ax_window c)) (mi_tx_seq_proxy i)
          (mi_account_seq_proxy i) replaces with
  | inl ter => mret (MtRejectPath ter)
  | inr path =>
      if path_requires_multi_txn path then
        a ← expect tx_q_account;
        match evaluate_queue_apply_multitxn_admission path (mi_preflight i) (mi_open_ledger_seq i)
                (mi_minimum_last_ledger_buffer i) a (mi_maximum_txn_per_account i)
                (mi_tx_seq_proxy i) (mi_account_seq_proxy i) replaces with
        | inl ter => mret (MtRejectPath ter)
        | inr path =>
            let d := evaluate_queue_apply_balance a (mi_account_seq_proxy i) (mi_tx_seq_proxy i)
                       (mi_consequences i) (mi_balance_drops i) (mi_reserve_drops i)
                       (mi_base_fee_drops i) in
            match d with
            | TotalFeesInFlightTooHigh _ => mret (MtRejectBalance d)
            | BalanceAllowed t =>
                adjustment ← evaluate_queue_apply_view_adjustment (bt_total_fee_drops t)
                               (bt_potential_spend_drops t) (mi_balance_drops i) (mi_reserve_drops i)
                               (mi_base_fee_drops i) (mi_tx_seq_proxy i)
                               (next_queuable_seq a (mi_account_seq_proxy i));
                mret (MtReady (mkMultiContext path (Some adjustment)
                        (evaluate_queue_apply_hold_fallback (path_requires_multi_txn path)
                           (mi_can_be_held_result i))))
            end
        end
      else
        mret (MtReady (mkMultiContext path None
                (evaluate_queue_apply_hold_fallback false (mi_can_be_held_result i))))
  end.

(** ** [queue_apply_fee_context.rs] *)

Record QueueApplyFeeContext := mkFeeContext {
  fx_base_level : Z;
  fx_fee_level_paid : Z;
  fx_required_fee_level : Z
}.

Record QueueApplyFeeContextInputs := mkFeeInputs {
  fi_fee_paid : QueueFeeLevelPaidInputs;
  fi_metrics_snapshot : QueueFeeMetricsSnapshot;
  fi_open_ledger_tx_count : Z;
  fi_flags : Z
}.

Definition evaluate_queue_apply_fee_context (i : QueueApplyFeeContextInputs)
    : outcome QueueApplyFeeContext :=
  paid ← evaluate_fee_level_paid (fi_fee_paid i);
  required ← evaluate_required_fee_level (fi_metrics_snapshot i) (fi_open_ledger_tx_count i) (fi_flags i);
  mret (mkFeeContext TXQ_BASE_LEVEL paid required).
End Rules.
