(* ===== verification/TxQApply.v ===== *)
(** * Transaction queue: [TxQ::apply]

    [queue_direct_apply.rs], [queue_apply_preclaim_view.rs], [queue_apply_preclaim.rs],
    [queue_apply_try_clear.rs], [queue_apply_queue.rs], [queue_apply_flow.rs],
    [queue_apply_queued.rs], [queue_apply_entry.rs], [queue_apply_preflight.rs] and the
    inputs [queue_apply_live_owner.rs] derives, composed in the source's order; and
    [queue_try_clear.rs], the clear-ahead of one account's queue. What the caller does
    with the ledger (apply the transaction, build the staged view, preclaim, clear
    ahead, commit the sandbox) is a record of functions of a state [S]. Log messages
    are not modelled. *)

From S2P Require Import Prelude LoadFee BTree TxQTypes TxQMetrics TxQViews TxQApplyRules TxQueue.

Section Apply.
Context `{!TxQTypes}.

(** ** Direct application *)

Inductive DirectApplyEligibility :=
| DaMissingAccount | DaSequenceMismatch | DaInsufficientFee | DaEligible.

Record DirectApplyAttemptResult := mkAttemptResult {
  dr_apply_result : ApplyResult;
  dr_removed_replacement : option FeeQueueKey
}.

Definition evaluate_direct_apply_eligibility (account_exists : bool)
    (account_seq_proxy tx_seq_proxy : SeqProxy) (fee_level_paid required_fee_level : Z)
    : DirectApplyEligibility :=
  if negb account_exists then DaMissingAccount
  else if is_seq tx_seq_proxy && negb (bool_decide (tx_seq_proxy = account_seq_proxy))
  then DaSequenceMismatch
  else if fee_level_paid <? required_fee_level then DaInsufficientFee
  else DaEligible.

Definition finalize_direct_apply_attempt (v : QueueViews) (eligibility : DirectApplyEligibility)
    (applied_account : Z) (applied_seq_proxy : SeqProxy) (r : ApplyResult)
    : outcome (QueueViews * option DirectApplyAttemptResult) :=
  match eligibility with
  | DaEligible =>
      if ar_applied r then
        '(v', removed) ← cleanup_direct_apply_success v applied_account applied_seq_proxy;
        mret (v', Some (mkAttemptResult r removed))
      else mret (v, Some (mkAttemptResult r None))
  | _ => mret (v, None)
  end.

(** ** Preclaim *)

Inductive QueueApplyPreclaimViewSource := CurrentView | MultiTxnOpenView.

Definition source_has_multi_txn (s : QueueApplyPreclaimViewSource) : bool :=
  match s with MultiTxnOpenView => true | CurrentView => false end.

Inductive QueueApplyPreclaimViewStage :=
| PvRejectInternal
| PvReady (s : QueueApplyPreclaimViewSource).

Definition preclaim_view_result (st : QueueApplyPreclaimViewStage) : ApplyResult :=
  match st with
  | PvRejectInternal => mkApplyResult TEF_INTERNAL false false
  | PvReady _ => mkApplyResult TES_SUCCESS false false
  end.

(** What the caller does with the ledger. *)
Record ApplyCaller (S : Type) := mkCaller {
  cl_direct_apply : S -> S * ApplyResult;
  cl_prepare_multitxn : S -> QueueApplyViewAdjustment -> S * bool;
  cl_run_preclaim : S -> QueueApplyPreclaimViewSource -> S * PreclaimResult;
  cl_run_try_clear : S -> S * ApplyResult;
  cl_apply_sandbox : S -> S
}.
#[global] Arguments cl_direct_apply {S} _.
#[global] Arguments cl_prepare_multitxn {S} _.
#[global] Arguments cl_run_preclaim {S} _.
#[global] Arguments cl_run_try_clear {S} _.
#[global] Arguments cl_apply_sandbox {S} _.

Section Flow.
Context {S : Type} (caller : ApplyCaller S).

Definition run_direct_apply_if_eligible (s : S) (v : QueueViews) (account_exists : bool)
    (account_seq_proxy tx_seq_proxy : SeqProxy) (fee_level_paid required_fee_level : Z)
    (applied_account : Z) : outcome (S * QueueViews * option DirectApplyAttemptResult) :=
  match evaluate_direct_apply_eligibility account_exists account_seq_proxy tx_seq_proxy
          fee_level_paid required_fee_level with
  | DaEligible =>
      let '(s', r) := cl_direct_apply caller s in
      '(v', attempt) ← finalize_direct_apply_attempt v DaEligible applied_account tx_seq_proxy r;
      a ← expect attempt;
      mret (s', v', Some a)
  | _ => mret (s, v, None)
  end.

Definition run_queue_apply_preclaim_view_stage (s : S) (adjustment : option QueueApplyViewAdjustment)
    : S * QueueApplyPreclaimViewStage :=
  match adjustment with
  | None => (s, PvReady CurrentView)
  | Some adj =>
      let '(s', prepared) := cl_prepare_multitxn caller s adj in
      (s', if prepared then PvReady MultiTxnOpenView else PvRejectInternal)
  end.

Record QueueApplyPreclaimStage := mkPreclaimStage {
  ps_view_source : QueueApplyPreclaimViewSource;
  ps_preclaim_result : PreclaimResult
}.

Definition run_queue_apply_preclaim_stage (s : S) (source : QueueApplyPreclaimViewSource)
    (fee_level_paid base_level : Z) : outcome (S * (ApplyResult + QueueApplyPreclaimStage)) :=
  let '(s', r) := cl_run_preclaim caller s source in
  if negb (pc_likely_to_claim_fee r) then mret (s', inl (mkApplyResult (pc_ter r) false false))
  else if fee_level_paid <? base_level then Panic
  else mret (s', inr (mkPreclaimStage source r)).

(** ** Clearing ahead *)

Inductive QueueApplyTryClearGate := TcBypassGate | AttemptClearAhead.

Inductive QueueApplyTryClearStage :=
| TcBypass | TcContinueAfterAttempt | TcApplySandboxAndReturn (r : ApplyResult).

Definition evaluate_queue_apply_try_clear_gate (tx_seq_proxy : SeqProxy)
    (first_relevant_retries_remaining : option Z) (has_multi_txn : bool)
    (fee_level_paid required_fee_level base_fee_level : Z) : QueueApplyTryClearGate :=
  if is_seq tx_seq_proxy
     && bool_decide (first_relevant_retries_remaining = Some MAYBE_TX_RETRIES_ALLOWED)
     && has_multi_txn && (required_fee_level <? fee_level_paid)
     && (base_fee_level <? required_fee_level)
  then AttemptClearAhead else TcBypassGate.

Definition run_queue_apply_try_clear_stage (s : S) (gate : QueueApplyTryClearGate)
    : S * QueueApplyTryClearStage :=
  match gate with
  | TcBypassGate => (s, TcBypass)
  | AttemptClearAhead =>
      let '(s', r) := cl_run_try_clear caller s in
      if negb (ar_applied r) then (s', TcContinueAfterAttempt)
      else (cl_apply_sandbox caller s', TcApplySandboxAndReturn r)
  end.

(** ** Queueing *)

Inductive QueueApplyQueueStage :=
| QsRejectCannotHold (t : Ter)
| QsRejectFull
| QsQueued (r : QueueApplyEnqueueResult).

Definition queue_stage_ter (st : QueueApplyQueueStage) : Ter :=
  match st with
  | QsRejectCannotHold t => t
  | QsRejectFull => TEL_CAN_NOT_QUEUE_FULL
  | QsQueued _ => TER_QUEUED
  end.

(** The transaction and where it would go. *)
Record QueueCandidate := mkQueueCandidate {
  qd_replaced : option FeeQueueKey;
  qd_account : Z;
  qd_tx_id : Z;
  qd_last_valid : option Z;
  qd_seq_proxy : SeqProxy;
  qd_fee_level : Z;
  qd_flags : Z;
  qd_pf_result : PreflightResult;
  qd_order : Z
}.

Definition run_queue_apply_queue_stage (v : QueueViews) (hold_fallback : QueueApplyHoldFallback)
    (decision : QueueApplyFullQueueDecision) (c : QueueCandidate)
    : outcome (QueueViews * QueueApplyQueueStage) :=
  match hold_fallback_ter hold_fallback with
  | Some ter => mret (v, QsRejectCannotHold ter)
  | None =>
      '(v1, d) ← apply_queue_apply_full_queue_decision v decision;
      if fq_rejects_full d then mret (v1, QsRejectFull)
      else
        '(v2, r) ← enqueue_queue_apply_candidate v1 (qd_replaced c) (qd_account c) (qd_tx_id c)
                     (qd_last_valid c) (qd_seq_proxy c) (qd_fee_level c) (qd_flags c)
                     (qd_pf_result c) (qd_order c);
        mret (v2, QsQueued r)
  end.

Inductive QueueApplyFlowStage :=
| FsRejectPreclaim (r : ApplyResult)
| FsReturnTryClear (p : QueueApplyPreclaimStage) (r : ApplyResult)
| FsQueueOutcome (p : QueueApplyPreclaimStage) (t : QueueApplyTryClearStage) (q : QueueApplyQueueStage).

Definition flow_stage_result (st : QueueApplyFlowStage) : ApplyResult :=
  match st with
  | FsRejectPreclaim r => r
  | FsReturnTryClear _ r => r
  | FsQueueOutcome _ _ q => mkApplyResult (queue_stage_ter q) false false
  end.

Record PreparedFlow := mkPreparedFlow {
  pw_view_source : QueueApplyPreclaimViewSource;
  pw_first_relevant_retries_remaining : option Z;
  pw_base_level : Z;
  pw_required_fee_level : Z;
  pw_hold_fallback : QueueApplyHoldFallback;
  pw_full_queue_decision : QueueApplyFullQueueDecision;
  pw_candidate : QueueCandidate
}.

(** What follows once the preclaim is in: clear-ahead, then the queue. *)
Definition run_prepared_queue_apply_post_preclaim_stage (s : S) (v : QueueViews) (f : PreparedFlow)
    (p : QueueApplyPreclaimStage) : outcome (S * QueueViews * QueueApplyFlowStage) :=
  let c := pw_candidate f in
  let gate := evaluate_queue_apply_try_clear_gate (qd_seq_proxy c)
                (pw_first_relevant_retries_remaining f)
                (source_has_multi_txn (ps_view_source p)) (qd_fee_level c)
                (pw_required_fee_level f) (pw_base_level f) in
  let '(s1, try_clear) := run_queue_apply_try_clear_stage s gate in
  match try_clear with
  | TcApplySandboxAndReturn r => mret (s1, v, FsReturnTryClear p r)
  | _ =>
      '(v', q) ← run_queue_apply_queue_stage v (pw_hold_fallback f) (pw_full_queue_decision f) c;
      mret (s1, v', FsQueueOutcome p try_clear q)
  end.

Definition run_queue_apply_flow_stage (s : S) (v : QueueViews) (f : PreparedFlow)
    : outcome (S * QueueViews * QueueApplyFlowStage) :=
  '(s1, preclaim) ← run_queue_apply_preclaim_stage s (pw_view_source f)
                      (qd_fee_level (pw_candidate f)) (pw_base_level f);
  match preclaim with
  | inl r => mret (s1, v, FsRejectPreclaim r)
  | inr p => run_prepared_queue_apply_post_preclaim_stage s1 v f p
  end.

(** ** The path of a transaction that was not applied directly *)

Inductive QueueApplyQueuedStage :=
| QdAccount (st : QueueApplyAccountStage)
| QdMultiTxn (st : QueueApplyMultiTxnStage)
| QdPreclaimView (st : QueueApplyPreclaimViewStage)
| QdFlow (w : AccountQueueWindow) (d : option ReplacementFeeDecision) (p : QueueApplyPath)
    (adj : option QueueApplyViewAdjustment) (flow : QueueApplyFlowStage).

Definition queued_stage_result (st : QueueApplyQueuedStage) : outcome ApplyResult :=
  match st with
  | QdAccount st => account_stage_result st
  | QdMultiTxn st => multitxn_stage_result st
  | QdPreclaimView st => mret (preclaim_view_result st)
  | QdFlow _ _ _ _ flow => mret (flow_stage_result flow)
  end.

Record QueuedInputs := mkQueuedInputs {
  qi_account : Z;
  qi_preflight : QueueHoldPreflight;
  qi_is_blocker : bool;
  qi_open_ledger_seq : Z;
  qi_minimum_last_ledger_buffer : Z;
  qi_maximum_txn_per_account : Z;
  qi_retry_sequence_percent : Z;
  qi_queue_is_full : bool;
  qi_balance_drops : Z;
  qi_reserve_drops : Z;
  qi_base_fee_drops : Z;
  qi_can_be_held_result : Ter;
  qi_tx_id : Z;
  qi_last_valid : option Z;
  qi_flags : Z;
  qi_order : Z
}.

(** What is decided before the preclaim: the answer already, or the inputs of the
    rest. *)
Inductive QueueApplyPreparedQueuedFlowStage :=
| PqAccount (st : QueueApplyAccountStage)
| PqMultiTxn (st : QueueApplyMultiTxnStage)
| PqPreclaimView (st : QueueApplyPreclaimViewStage)
| PqFlow (w : AccountQueueWindow) (d : option ReplacementFeeDecision) (p : QueueApplyPath)
    (adj : option QueueApplyViewAdjustment) (prepared : PreparedFlow).

Definition derive_queue_apply_prepared_flow_stage (s : S) (v : QueueViews)
    (account_seq_proxy tx_seq_proxy : SeqProxy) (i : QueuedInputs) (fx : QueueApplyFeeContext)
    (pf : PreflightResult) : outcome (S * QueueApplyPreparedQueuedFlowStage) :=
  account_stage ← run_queue_apply_account_stage v (qi_account i) account_seq_proxy tx_seq_proxy
                    (qi_is_blocker i) (fx_fee_level_paid fx) (qi_retry_sequence_percent i);
  match account_stage with
  | AcReady ctx =>
      multitxn ← run_queue_apply_multitxn_stage (accounts v !! qi_account i) ctx
                   (mkMultiInputs (qi_preflight i) (qi_open_ledger_seq i)
                      (qi_minimum_last_ledger_buffer i) (qi_maximum_txn_per_account i)
                      account_seq_proxy tx_seq_proxy (qi_balance_drops i) (qi_reserve_drops i)
                      (qi_base_fee_drops i) (qi_can_be_held_result i) (pf_consequences pf));
      match multitxn with
      | MtReady mctx =>
          let '(s1, view_stage) := run_queue_apply_preclaim_view_stage s (mx_view_adjustment mctx) in
          match view_stage with
          | PvReady source =>
              decision ← evaluate_queue_apply_full_queue (wd_replaces_existing (ax_window ctx))
                           (qi_queue_is_full i) (qi_account i) (fx_fee_level_paid fx) v;
              mret (s1, PqFlow (ax_window ctx) (ax_replacement_decision ctx) (mx_path mctx)
                          (mx_view_adjustment mctx)
                (mkPreparedFlow source (ax_first_relevant_retries_remaining ctx) (fx_base_level fx)
                   (fx_required_fee_level fx) (mx_hold_fallback mctx) decision
                   (mkQueueCandidate (ax_replaced ctx) (qi_account i) (qi_tx_id i) (qi_last_valid i)
                      tx_seq_proxy (fx_fee_level_paid fx) (qi_flags i) pf (qi_order i))))
          | _ => mret (s1, PqPreclaimView view_stage)
          end
      | _ => mret (s, PqMultiTxn multitxn)
      end
  | _ => mret (s, PqAccount account_stage)
  end.

Definition run_prepared_queue_apply_queued_flow_stage (s : S) (v : QueueViews)
    (stage : QueueApplyPreparedQueuedFlowStage) : outcome (S * QueueViews * QueueApplyQueuedStage) :=
  match stage with
  | PqAccount st => mret (s, v, QdAccount st)
  | PqMultiTxn st => mret (s, v, QdMultiTxn st)
  | PqPreclaimView st => mret (s, v, QdPreclaimView st)
  | PqFlow w d p adj prepared =>
      '(s', v', flow) ← run_queue_apply_flow_stage s v prepared;
      mret (s', v', QdFlow w d p adj flow)
  end.

Definition run_queue_apply_queued_stage (s : S) (v : QueueViews)
    (account_seq_proxy tx_seq_proxy : SeqProxy) (i : QueuedInputs) (fx : QueueApplyFeeContext)
    (pf : PreflightResult) : outcome (S * QueueViews * QueueApplyQueuedStage) :=
  '(s1, stage) ← derive_queue_apply_prepared_flow_stage s v account_seq_proxy tx_seq_proxy i fx pf;
  run_prepared_queue_apply_queued_flow_stage s1 v stage.

(** ** The whole call *)

Inductive QueueApplyEntryStage :=
| EnDirectApplied (a : DirectApplyAttemptResult)
| EnRejectPrerequisite (p : QueueApplyPrerequisite)
| EnQueued (st : QueueApplyQueuedStage).

Inductive QueueApplyPreflightStage :=
| PfRejectPreflight (r : ApplyResult)
| PfEntry (st : QueueApplyEntryStage).

Definition preflight_stage_result (st : QueueApplyPreflightStage) : outcome ApplyResult :=
  match st with
  | PfRejectPreflight r => mret r
  | PfEntry (EnDirectApplied a) => mret (dr_apply_result a)
  | PfEntry (EnRejectPrerequisite p) =>
      ter ← expect (prerequisite_ter p); mret (mkApplyResult ter false false)
  | PfEntry (EnQueued st) => queued_stage_result st
  end.

Record EntryInputs := mkEntryInputs {
  ei_account_exists : bool;
  ei_account_seq_proxy : SeqProxy;
  ei_tx_seq_proxy : SeqProxy;
  ei_ticket_exists : bool;
  ei_fee_context_inputs : QueueApplyFeeContextInputs;
  ei_queued : QueuedInputs
}.

Definition run_queue_apply_after_preflight (s : S) (v : QueueViews) (i : EntryInputs)
    (pf : PreflightResult) : outcome (S * QueueViews * QueueApplyPreflightStage) :=
  if negb (is_tes_success (pf_ter pf))
  then mret (s, v, PfRejectPreflight (mkApplyResult (pf_ter pf) false false))
  else
    fx ← evaluate_queue_apply_fee_context (ei_fee_context_inputs i);
    '(s1, v1, direct) ← run_direct_apply_if_eligible s v (ei_account_exists i)
                          (ei_account_seq_proxy i) (ei_tx_seq_proxy i) (fx_fee_level_paid fx)
                          (fx_required_fee_level fx) (qi_account (ei_queued i));
    match direct with
    | Some attempt => mret (s1, v1, PfEntry (EnDirectApplied attempt))
    | None =>
        match evaluate_queue_apply_prerequisite (ei_account_exists i) (ei_account_seq_proxy i)
                (ei_tx_seq_proxy i) (ei_ticket_exists i) with
        | PrReady =>
            '(s2, v2, st) ← run_queue_apply_queued_stage s1 v1 (ei_account_seq_proxy i)
                              (ei_tx_seq_proxy i) (ei_queued i) fx pf;
            mret (s2, v2, PfEntry (EnQueued st))
        | p => mret (s1, v1, PfEntry (EnRejectPrerequisite p))
        end
    end.

(** What the call reads from the open ledger and from the transaction. *)
Record ApplyView := mkApplyView {
  aw_account : Z;
  aw_tx_id : Z;
  aw_tx_seq_proxy : SeqProxy;
  aw_account_lookup : option (Z * Z); (* sequence and balance *)
  aw_ticket_missing : bool;
  aw_fee_paid : QueueFeeLevelPaidInputs;
  aw_open_ledger_tx_count : Z;
  aw_open_ledger_seq : Z;
  aw_reserve_drops : Z;
  aw_base_fee_drops : Z;
  aw_hold_preflight : QueueHoldPreflight
}.

Definition MISSING_ACCOUNT_SEQ_PROXY : SeqProxy := sequence 0.

Definition account_seq_proxy_from_lookup (l : option (Z * Z)) : SeqProxy :=
  match l with Some (seq, _) => sequence seq | None => MISSING_ACCOUNT_SEQ_PROXY end.

Definition balance_drops_from_lookup (l : option (Z * Z)) : Z :=
  match l with Some (_, balance) => balance | None => 0 end.

Definition derive_can_be_held_result (q : TxQ) (w : ApplyView) : Ter :=
  let tx_q_account := accounts (tq_views q) !! aw_account w in
  check_hold_admission (aw_hold_preflight w) (aw_open_ledger_seq w)
    (su_minimum_last_ledger_buffer (tq_setup q)) tx_q_account
    (su_maximum_txn_per_account (tq_setup q))
    (match tx_q_account with
     | Some a => bool_decide (is_Some (qa_transactions a !! aw_tx_seq_proxy w))
     | None => false
     end)
    (aw_tx_seq_proxy w) (account_seq_proxy_from_lookup (aw_account_lookup w)).

Definition entry_inputs (q : TxQ) (w : ApplyView) (pf : PreflightResult) : EntryInputs :=
  mkEntryInputs (match aw_account_lookup w with Some _ => true | None => false end)
    (account_seq_proxy_from_lookup (aw_account_lookup w)) (aw_tx_seq_proxy w)
    (negb (aw_ticket_missing w))
    (mkFeeInputs (aw_fee_paid w) (metrics_snapshot (tq_metrics q)) (aw_open_ledger_tx_count w)
       (pf_flags pf))
    (mkQueuedInputs (aw_account w) (aw_hold_preflight w) (tc_is_blocker (pf_consequences pf))
       (aw_open_ledger_seq w) (su_minimum_last_ledger_buffer (tq_setup q))
       (su_maximum_txn_per_account (tq_setup q)) (su_retry_sequence_percent (tq_setup q))
       (queue_is_full q) (balance_drops_from_lookup (aw_account_lookup w)) (aw_reserve_drops w)
       (aw_base_fee_drops w) (derive_can_be_held_result q w) (aw_tx_id w)
       (hp_last_valid_ledger (aw_hold_preflight w)) (pf_flags pf) (tq_parent_hash_comp q)).

Definition txq_apply (s : S) (q : TxQ) (w : ApplyView) (pf : PreflightResult)
    : outcome (S * TxQ * QueueApplyPreflightStage) :=
  '(s', v', st) ← run_queue_apply_after_preflight s (tq_views q) (entry_inputs q w pf) pf;
  mret (s', with_views q v', st).
End Flow.
End Apply.
