(* ===== verification/TxQApplyTheorems.v ===== *)
(** * Transaction queue: what [TxQ::apply] guarantees

    The full-queue decision, the outcome of a call on every branch, and the
    invariant of the queue over any sequence of operations. *)

From S2P Require Import Prelude LoadFee BTree TxQTypes TxQMetrics TxQMetricsTheorems TxQViews TxQInv TxQOps TxQAccept.
From S2P Require Import TxQAcceptInv TxQAcceptSettled TxQAcceptTheorems TxQueue TxQueueTheorems TxQApplyRules TxQApply.

(** ** The average level of an account *)

Definition sum_list (l : list Z) : Z := foldr Z.add 0 l.

Lemma sum_levels_eq c l d m :
  0 < c -> Forall in_u64 l -> 0 <= d -> 0 <= m ->
  (c * d + m + sum_list l) / c <= u64_max -> m + c * Z.of_nat (length l) < u64_max ->
  sum_levels c d m l = (c * d + m + sum_list l) / c.
Proof.
  intros Hc. revert d m. induction l as [|x l IH]; intros d m Hl Hd Hm Hle Hb; cbn [sum_levels sum_list foldr].
  - replace (c * d + m + 0) with (m + d * c) by lia. rewrite Z.div_add by lia. lia.
  - apply Forall_cons in Hl as [Hx Hl]. unfold in_u64 in Hx. cbn [sum_list foldr length] in Hle, Hb.
    fold (sum_list l) in *.
    pose proof (Z.div_mod x c ltac:(lia)) as Dx. pose proof (Z.mod_pos_bound x c Hc) as Mx.
    assert (0 <= x / c) by (apply Z.div_pos; lia).
    assert (0 <= sum_list l) as Hs.
    { clear -Hl. induction Hl as [|y l Hy _ IHl]; simpl; [done|]. unfold in_u64, sum_list in *. lia. }
    replace (c * d + m + (x + sum_list l)) with (c * (d + x / c) + (m + x mod c) + sum_list l) in * by lia.
    destruct (Z.leb_spec (u64_max - x / c) d) as [L|L]; cbn [orb].
    + assert (u64_max <= (c * (d + x / c) + (m + x mod c) + sum_list l) / c); [|lia].
      apply Z.div_le_lower_bound; [lia|]. nia.
    + destruct (Z.leb_spec (u64_max - x mod c) m) as [L2|L2]; [nia|]. apply IH; try lia; done.
Qed.

(** The mean of the levels, rounded down. *)
Lemma average_level l :
  l <> [] -> Forall in_u64 l -> Z.of_nat (length l) <= u32_max ->
  sum_levels (Z.of_nat (length l)) 0 0 l = sum_list l / Z.of_nat (length l).
Proof.
  intros Hne Hl Hn. assert (0 < Z.of_nat (length l)) by (destruct l; simpl; [done|lia]).
  assert (sum_list l <= Z.of_nat (length l) * u64_max).
  { clear -Hl. induction Hl as [|y l Hy _ IHl]; simpl; [done|]. unfold in_u64, sum_list in *. lia. }
  rewrite sum_levels_eq; try done; try lia; [by rewrite Z.mul_0_r| |].
  - rewrite Z.mul_0_r. simpl. apply Z.div_le_upper_bound; lia.
  - unfold u32_max, u64_max in *. nia.
Qed.

Section FullQueue.
Context `{!TxQTypes}.
Implicit Types (v : QueueViews) (k : FeeQueueKey) (a : TxQAccount).

(** The level an account's queue is worth against a newcomer: its last entry's when
    the newcomer pays less or there is no other, and otherwise the mean. *)
Definition worth a (tail_level candidate_level : Z) : Z :=
  if (candidate_level <? tail_level) || Nat.eqb (length (account_levels a)) 1 then tail_level
  else sum_list (account_levels a) / Z.of_nat (length (account_levels a)).

Definition levels_ok v : Prop :=
  (forall k core, queue_lookup v k = Some core -> in_u64 (mt_fee_level (core_payload core)))
  /\ Z.of_nat (length (fee_order v)) <= u32_max.

Lemma account_levels_size a : length (account_levels a) = size (qa_transactions a).
Proof. unfold account_levels. by rewrite length_fmap, btree_iter_length. Qed.

Lemma account_size_le v n a : views_ok v -> accounts v !! n = Some a ->
  (size (qa_transactions a) <= length (fee_order v))%nat.
Proof.
  intros Hv Ea. rewrite <- btree_iter_length, <- (length_fmap (fun e : SeqProxy * MaybeTxCore => key_entry (mkKey n e.1) e.2)).
  apply submseteq_length, NoDup_submseteq.
  - apply NoDup_fmap_2_strong.
    + intros [s c] [s' c'] Hi Hi' E. unfold key_entry, entry_of in E. simpl in E. injection E as -> _ _.
      apply elem_of_btree_iter in Hi, Hi'. congruence.
    + unfold btree_iter. rewrite sort_by_perm. apply NoDup_map_to_list.
  - intros e ([s c] & -> & Hi)%list_elem_of_fmap. apply elem_of_btree_iter in Hi.
    apply queued_entry; [done|]. unfold queue_lookup. simpl. by rewrite Ea.
Qed.

(** The last entry of the fee order that belongs to another account. *)
Definition cheapest_other order v (account : Z) (e : FeeQueueEntry) : Prop :=
  e ∈ fee_order v /\ fk_account (fe_key e) <> account
  /\ forall e', e' ∈ fee_order v -> fk_account (fe_key e') <> account -> entry_before order e e' = false.

Lemma find_cheapest_other order v account i e :
  fee_sorted order v ->
  list_find (fun e => fk_account (fe_key e) <> account) (rev (fee_order v)) = Some (i, e) ->
  cheapest_other order v account e.
Proof.
  intros S Hf. apply list_find_Some in Hf as (Hi & Hne & Hbefore).
  pose proof (take_drop_middle _ _ _ Hi) as E. set (l1 := take i _) in E. set (l2 := drop _ _) in E.
  assert (fee_order v = rev l2 ++ e :: rev l1) as El.
  { rewrite <- (rev_involutive (fee_order v)), <- E, rev_app_distr. simpl. by rewrite <- app_assoc. }
  assert (forall x, x ∈ l1 -> fk_account (fe_key x) = account) as H1.
  { intros x (j & Hj)%list_elem_of_lookup. apply lookup_take_Some in Hj as [Hj Hlt].
    specialize (Hbefore j x Hj Hlt). by destruct (decide (fk_account (fe_key x) = account)). }
  unfold cheapest_other, fee_sorted in *. rewrite El in *. split_and!; [set_solver|done|].
  intros e' [He'|[->|He']%elem_of_cons]%elem_of_app Hne'.
  - apply StronglySorted_app in S as (S & _ & _). apply S; [done|by left].
  - rewrite entry_before_rank. apply ord_irrefl.
  - destruct Hne'. apply H1, list_elem_of_In, in_rev, list_elem_of_In, He'.
Qed.

Lemma effective_level_eq v n a tail level :
  views_ok v -> levels_ok v -> accounts v !! n = Some a -> qa_transactions a <> ∅ ->
  compute_end_effective_fee_level tail level a = worth a tail level.
Proof.
  intros Hv [Hl Hn] Ea Hne. unfold compute_end_effective_fee_level, worth.
  pose proof (account_size_le v n a Hv Ea) as Hsz. rewrite <- !account_levels_size in *.
  case_match; [done|]. apply average_level.
  - intros E. apply Hne, map_size_empty_inv. rewrite <- account_levels_size. by rewrite E.
  - unfold account_levels. rewrite Forall_fmap, Forall_forall. intros [s core] Hi.
    apply elem_of_btree_iter in Hi. apply (Hl (mkKey n s)). unfold queue_lookup. simpl. by rewrite Ea.
  - lia.
Qed.

(** when the queue is full, a transaction that replaces nothing is turned away if
    the queue holds only its own account's transactions; otherwise it is measured
    against the account of the cheapest entry of any other account, and either is
    turned away, if it pays no more than that account's queue is worth, or takes the
    place of that account's last transaction. *)
Theorem full_queue_spec order v account level :
  views_ok v -> levels_ok v -> fee_sorted order v ->
  exists d, evaluate_queue_apply_full_queue false true account level v = Ok d
    /\ match d with
       | FqBypass => False
       | RejectFullSameAccount => forall k, is_Some (queue_lookup v k) -> fk_account k = account
       | RejectFullLowerFee l =>
           exists e a, cheapest_other order v account e
             /\ accounts v !! fk_account (fe_key e) = Some a
             /\ l = worth a (qc_fee_level (fe_candidate e)) level /\ level <= l
       | EvictCheapest k l =>
           exists e a, cheapest_other order v account e
             /\ accounts v !! fk_account (fe_key e) = Some a
             /\ l = worth a (qc_fee_level (fe_candidate e)) level /\ l < level
             /\ fk_account k = fk_account (fe_key e) /\ is_Some (queue_lookup v k)
             /\ forall x, fk_account x = fk_account k -> is_Some (queue_lookup v x) ->
                  ord_leb (fk_seq_proxy x) (fk_seq_proxy k) = true
       end.
Proof.
  intros Hv Hl S. unfold evaluate_queue_apply_full_queue. cbn [orb negb].
  destruct (list_find _ _) as [[i e]|] eqn:Ef.
  2: { eexists. split; [reflexivity|]. intros k [c Hc]. apply list_find_None in Ef.
    rewrite Forall_forall in Ef. pose proof (queued_entry v k c Hv Hc) as Hin.
    destruct (decide (fk_account k = account)) as [|Hne]; [done|]. exfalso.
    apply (Ef (key_entry k c)); [|done]. by apply list_elem_of_In, in_rev; rewrite rev_involutive; apply list_elem_of_In. }
  pose proof (find_cheapest_other order v account i e S Ef) as Hch. pose proof Hch as (He & Hne & _).
  destruct (entry_queued v e Hv He) as (c & Hc & _).
  destruct (queue_lookup_account v _ c Hc) as (a & Ea & Et). rewrite Ea. cbn [expect mbind outcome_bind].
  assert (qa_transactions a <> ∅) as Hn by (intros E; by rewrite E, lookup_empty in Et).
  rewrite (effective_level_eq v _ a _ level Hv Hl Ea Hn).
  destruct (Z.leb_spec level (worth a (qc_fee_level (fe_candidate e)) level)) as [L|L].
  - eexists. split; [reflexivity|]. exists e, a. by split_and!.
  - destruct (last_key_value_is_Some _ _ _ Et) as [[s c'] Es]. rewrite Es.
    destruct (last_key_value_spec _ _ _ Es) as [Hs Hmax]. eexists. split; [reflexivity|].
    exists e, a. simpl. split_and!; try done.
    + unfold queue_lookup. simpl. rewrite Ea. eauto.
    + intros x Ex [cx Hx]. unfold queue_lookup in Hx. rewrite Ex, Ea in Hx. by apply (Hmax _ cx).
Qed.
End FullQueue.

(** ** The outcome of a call *)

Section Outcome.
Context `{!TxQTypes}.
Implicit Types (v : QueueViews) (k : FeeQueueKey) (core : MaybeTxCore) (q : TxQ).

Lemma evict_spec replaces full account level v k l :
  views_ok v -> evaluate_queue_apply_full_queue replaces full account level v = Ok (EvictCheapest k l) ->
  replaces = false /\ full = true /\ fk_account k <> account /\ is_Some (queue_lookup v k) /\ l < level
  /\ forall x, fk_account x = fk_account k -> is_Some (queue_lookup v x) ->
       ord_leb (fk_seq_proxy x) (fk_seq_proxy k) = true.
Proof.
  intros Hv. unfold evaluate_queue_apply_full_queue. destruct replaces, full; try done. cbn [orb negb].
  destruct (list_find _ _) as [[i e]|] eqn:Ef; [|done].
  intros (a & Ea%expect_Ok & E)%bind_Ok. case_match eqn:Hle; [done|]. apply Z.leb_gt in Hle.
  apply bind_Ok in E as ([s c] & Es%expect_Ok & [= <- <-]).
  apply list_find_Some in Ef as (_ & Hne & _). destruct (last_key_value_spec _ _ _ Es) as [Hs Hmax].
  simpl. split_and!; try done.
  - unfold queue_lookup. simpl. rewrite Ea. eauto.
  - intros x Ex [cx Hx]. unfold queue_lookup in Hx. rewrite Ex, Ea in Hx. by apply (Hmax _ cx).
Qed.

Lemma bypass_spec replaces full account level v :
  evaluate_queue_apply_full_queue replaces full account level v = Ok FqBypass ->
  replaces = true \/ full = false.
Proof.
  unfold evaluate_queue_apply_full_queue. destruct replaces, full; try (by auto). cbn [orb negb].
  destruct (list_find _ _) as [[i e]|]; [|done].
  intros (a & _ & E)%bind_Ok. case_match; [done|]. by apply bind_Ok in E as ([s c] & _ & E).
Qed.

(** The views once room has been made. *)
Definition make_room v (d : QueueApplyFullQueueDecision) : QueueViews :=
  match d with EvictCheapest k _ => erase_key v k | _ => v end.

Definition candidate_key (c : QueueCandidate) : FeeQueueKey := mkKey (qd_account c) (qd_seq_proxy c).

Definition candidate_core (c : QueueCandidate) : MaybeTxCore :=
  queued_core (qd_account c) (qd_tx_id c) (qd_last_valid c) (qd_seq_proxy c) (qd_fee_level c)
    (qd_flags c) (qd_pf_result c).

Lemma candidate_core_names c : core_names (candidate_key c) (candidate_core c).
Proof. done. Qed.

Section Decision.
Variables (v : QueueViews) (full : bool) (c : QueueCandidate) (d : QueueApplyFullQueueDecision).
Hypotheses (Hv : views_ok v)
  (Hd : evaluate_queue_apply_full_queue (bool_decide (is_Some (queue_lookup v (candidate_key c)))) full
          (qd_account c) (qd_fee_level c) v = Ok d).

Lemma full_decision_eq : apply_queue_apply_full_queue_decision v d = Ok (make_room v d, d).
Proof.
  destruct d as [| | |k l]; try done. destruct (evict_spec _ _ _ _ _ _ _ Hv Hd) as (_ & _ & _ & [ck Hk] & _).
  simpl. rewrite (remove_by_key_eq v k ck Hv Hk). cbn [mbind outcome_bind].
  by rewrite bool_decide_eq_true_2.
Qed.

Lemma make_room_keeps :
  queue_lookup (make_room v d) (candidate_key c) = queue_lookup v (candidate_key c).
Proof.
  destruct d as [| | |k l]; try done. simpl. rewrite queue_lookup_erase, decide_False; [done|].
  destruct (evict_spec _ _ _ _ _ _ _ Hv Hd) as (_ & _ & Hne & _). by intros <-.
Qed.
End Decision.

Lemma queue_stage_spec v hold c full d v' st :
  views_ok v ->
  qd_replaced c = (fun _ => candidate_key c) <$> queue_lookup v (candidate_key c) ->
  evaluate_queue_apply_full_queue (bool_decide (is_Some (queue_lookup v (candidate_key c)))) full
    (qd_account c) (qd_fee_level c) v = Ok d ->
  run_queue_apply_queue_stage v hold d c = Ok (v', st) ->
  match st with
  | QsQueued _ => fq_rejects_full d = false
      /\ v' = insert_core (erase_if_queued (make_room v d) (candidate_key c)) (candidate_key c)
                (candidate_core c) (qd_order c)
  | _ => v' = v
  end.
Proof.
  intros Hv Hr Hd. unfold run_queue_apply_queue_stage. destruct (hold_fallback_ter hold) as [t|].
  { by intros [= <- <-]. }
  rewrite (full_decision_eq v full c d Hv Hd).
  cbn [mbind outcome_bind]. destruct (fq_rejects_full d) eqn:Er.
  { intros [= <- <-]. by destruct d. }
  assert (views_ok (make_room v d)) as Hv1 by (destruct d; try done; by apply erase_key_ok).
  destruct (enqueue_spec (make_room v d) (qd_replaced c) (qd_account c) (qd_tx_id c) (qd_last_valid c)
    (qd_seq_proxy c) (qd_fee_level c) (qd_flags c) (qd_pf_result c) (qd_order c) Hv1)
    as (created & ->); [by fold (candidate_key c); rewrite (make_room_keeps v full c d Hv Hd)|].
  cbn [mbind outcome_bind]. by intros [= <- <-].
Qed.

Lemma account_stage_ready v account aseq s blocker level percent ctx :
  run_queue_apply_account_stage v account aseq s blocker level percent = Ok (AcReady ctx) ->
  wd_replaces_existing (ax_window ctx) = bool_decide (is_Some (queue_lookup v (mkKey account s)))
  /\ ax_replaced ctx = (fun _ => mkKey account s) <$> queue_lookup v (mkKey account s).
Proof.
  unfold run_queue_apply_account_stage. set (w := inspect_account_queue_window _ _ _).
  assert (wd_replaces_existing w = bool_decide (is_Some (queue_lookup v (mkKey account s)))) as Hw.
  { unfold w, inspect_account_queue_window, queue_lookup. simpl.
    destruct (accounts v !! account) as [a|]; simpl; [|done].
    by destruct (qa_transactions a !! s). }
  destruct (evaluate_blocker_queue_admission _ _ _ _); try done.
  destruct (evaluate_queued_blocker_admission _ _); try done.
  intros (dec & _ & E)%bind_Ok. rewrite Hw in E.
  assert (forall c : QueueApplyAccountContext, ax_window c = w ->
    ax_replaced c = (if bool_decide (is_Some (queue_lookup v (mkKey account s)))
                     then Some (mkKey account s) else None) ->
    wd_replaces_existing (ax_window c) = bool_decide (is_Some (queue_lookup v (mkKey account s)))
    /\ ax_replaced c = (fun _ => mkKey account s) <$> queue_lookup v (mkKey account s)) as G.
  { intros c -> ->. split; [done|]. by destruct (queue_lookup v (mkKey account s)). }
  destruct dec as [[l|l]|]; [|discriminate|]; injection E as <-; by apply G.
Qed.

(** Where a call may put the transaction, and what it would store. *)
Definition view_key (w : ApplyView) : FeeQueueKey := mkKey (aw_account w) (aw_tx_seq_proxy w).

Definition view_core (w : ApplyView) (pf : PreflightResult) (level : Z) : MaybeTxCore :=
  queued_core (aw_account w) (aw_tx_id w) (hp_last_valid_ledger (aw_hold_preflight w))
    (aw_tx_seq_proxy w) level (pf_flags pf) pf.

Definition queued_views q w pf level d : QueueViews :=
  insert_core (erase_if_queued (make_room (tq_views q) d) (view_key w)) (view_key w)
    (view_core w pf level) (tq_parent_hash_comp q).

(** Room can be made for the transaction, at the level it pays. *)
Definition admits q w level d : Prop :=
  evaluate_queue_apply_full_queue (bool_decide (is_Some (queue_lookup (tq_views q) (view_key w))))
    (queue_is_full q) (aw_account w) level (tq_views q) = Ok d /\ fq_rejects_full d = false.

Definition stage_views q w pf (st : QueueApplyPreflightStage) (v' : QueueViews) : Prop :=
  match st with
  | PfEntry (EnDirectApplied a) =>
      v' = if ar_applied (dr_apply_result a) then erase_if_queued (tq_views q) (view_key w)
           else tq_views q
  | PfEntry (EnQueued (QdFlow _ _ _ _ (FsQueueOutcome _ _ (QsQueued _)))) =>
      exists level d, evaluate_fee_level_paid (aw_fee_paid w) = Ok level /\ admits q w level d
        /\ v' = queued_views q w pf level d
  | _ => v' = tq_views q
  end.

Section Caller.
Context {S : Type} (caller : ApplyCaller S).

Lemma direct_apply_spec s v exists_ aseq s1 paid required account s' v' r :
  views_ok v ->
  run_direct_apply_if_eligible caller s v exists_ aseq s1 paid required account = Ok (s', v', r) ->
  match r with
  | None => v' = v
  | Some a => v' = if ar_applied (dr_apply_result a) then erase_if_queued v (mkKey account s1) else v
  end.
Proof.
  intros Hv. unfold run_direct_apply_if_eligible.
  destruct (evaluate_direct_apply_eligibility _ _ _ _ _); try (by intros [= _ <- <-]).
  destruct (cl_direct_apply caller s) as [s0 ar]. unfold finalize_direct_apply_attempt.
  destruct (ar_applied ar) eqn:Ea.
  - rewrite cleanup_direct_eq by done. cbn [mbind outcome_bind expect mret outcome_ret].
    intros [= _ <- <-]. simpl. by rewrite Ea.
  - cbn [mbind outcome_bind expect mret outcome_ret]. intros [= _ <- <-]. simpl. by rewrite Ea.
Qed.

Lemma queued_stage_views s q w pf level fx s' v' st :
  views_ok (tq_views q) -> evaluate_fee_level_paid (aw_fee_paid w) = Ok level ->
  fx_fee_level_paid fx = level ->
  run_queue_apply_queued_stage caller s (tq_views q) (ei_account_seq_proxy (entry_inputs q w pf))
    (aw_tx_seq_proxy w) (ei_queued (entry_inputs q w pf)) fx pf = Ok (s', v', st) ->
  stage_views q w pf (PfEntry (EnQueued st)) v'.
Proof.
  intros Hv Hlevel Hfx. unfold run_queue_apply_queued_stage. intros ([s1 stage] & E & Erun)%bind_Ok.
  unfold derive_queue_apply_prepared_flow_stage in E. cbn [entry_inputs ei_queued qi_account] in E.
  rewrite Hfx in E. apply bind_Ok in E as (ac & Eac & E).
  destruct ac as [b|b|b|ctx]; try (by injection E as <- <-; injection Erun as <- <- <-).
  destruct (account_stage_ready _ _ _ _ _ _ _ _ Eac) as [Hrep Hrepl]. fold (view_key w) in *.
  apply bind_Ok in E as (mt & _ & E). destruct mt as [t|d|mctx];
    try (by injection E as <- <-; injection Erun as <- <- <-).
  destruct (run_queue_apply_preclaim_view_stage caller s _) as [s0 [|source]];
    [by injection E as <- <-; injection Erun as <- <- <-|].
  apply bind_Ok in E as (d & Ed & E). rewrite Hrep in Ed. injection E as <- <-.
  cbn [run_prepared_queue_apply_queued_flow_stage] in Erun.
  apply bind_Ok in Erun as ([[s2 v2] flow] & Eflow & [= <- <- <-]).
  unfold run_queue_apply_flow_stage in Eflow. apply bind_Ok in Eflow as ([s3 pre] & _ & Eflow).
  destruct pre as [r|p]; [by injection Eflow as <- <- <-|].
  unfold run_prepared_queue_apply_post_preclaim_stage in Eflow.
  cbn [pw_candidate qd_seq_proxy qd_fee_level] in Eflow.
  destruct (run_queue_apply_try_clear_stage caller s3 _) as [s4 try_clear].
  set (c := mkQueueCandidate _ _ _ _ _ _ _ _ _) in Eflow.
  assert (forall st', ('(v0, q0) ← run_queue_apply_queue_stage (tq_views q) (mx_hold_fallback mctx) d c;
    mret (s4, v0, FsQueueOutcome p try_clear q0)) = Ok (s2, v2, st') ->
    stage_views q w pf (PfEntry (EnQueued (QdFlow (ax_window ctx) (ax_replacement_decision ctx)
      (mx_path mctx) (mx_view_adjustment mctx) st'))) v2) as G.
  { intros st' ([v0 q0] & Eq & [= <- <- <-])%bind_Ok.
    pose proof (queue_stage_spec (tq_views q) (mx_hold_fallback mctx) c (queue_is_full q) d v0 q0
      Hv Hrepl Ed Eq) as Hq.
    destruct q0; [done|done|]. destruct Hq as [Hr ->]. cbn [stage_views]. by exists level, d. }
  destruct try_clear; [by apply G | by apply G | by injection Eflow as <- <- <-].
Qed.

Lemma apply_stage_views s q w pf s' q' st :
  views_ok (tq_views q) -> txq_apply caller s q w pf = Ok (s', q', st) ->
  q' = with_views q (tq_views q') /\ stage_views q w pf st (tq_views q').
Proof.
  intros Hv. unfold txq_apply. intros ([[s1 v1] st1] & E & [= <- <- <-])%bind_Ok.
  split; [done|]. cbn [tq_views with_views]. unfold run_queue_apply_after_preflight in E.
  destruct (is_tes_success (pf_ter pf)); cbn [negb] in E; [|by injection E as <- <- <-].
  apply bind_Ok in E as (fx & Efx & E). apply bind_Ok in E as ([[s2 v2] direct] & Edir & E).
  unfold evaluate_queue_apply_fee_context in Efx. apply bind_Ok in Efx as (level & Elevel & Efx).
  apply bind_Ok in Efx as (req & _ & [= <-]).
  cbn [entry_inputs ei_fee_context_inputs fi_fee_paid ei_queued qi_account ei_tx_seq_proxy] in *.
  pose proof (direct_apply_spec _ _ _ _ _ _ _ _ _ _ _ Hv Edir) as Hdir.
  destruct direct as [attempt|]; [injection E as <- <- <-; exact Hdir|]. subst v2.
  destruct (evaluate_queue_apply_prerequisite _ _ _ _); try (by injection E as <- <- <-).
  apply bind_Ok in E as ([[s3 v3] st3] & E & [= <- <- <-]).
  by apply (queued_stage_views s2 q w pf level (mkFeeContext TXQ_BASE_LEVEL level req) s3 v3 st3).
Qed.
End Caller.

Definition evicted_key (d : QueueApplyFullQueueDecision) : option FeeQueueKey :=
  match d with EvictCheapest k _ => Some k | _ => None end.

Lemma make_room_lookup v d x :
  queue_lookup (make_room v d) x = if decide (evicted_key d = Some x) then None else queue_lookup v x.
Proof.
  destruct d as [| | |k l]; cbn [make_room evicted_key]; try (by rewrite decide_False).
  rewrite queue_lookup_erase. by destruct (decide (x = k)) as [->|Hne];
    [rewrite decide_True | rewrite decide_False by congruence].
Qed.

Lemma make_room_ok v d : views_ok v -> views_ok (make_room v d).
Proof. destruct d; try done. apply erase_key_ok. Qed.

Lemma make_room_sorted order v d : fee_sorted order v -> fee_sorted order (make_room v d).
Proof. destruct d; try done. apply erase_key_sorted. Qed.

Lemma erase_if_queued_length v k : views_ok v ->
  length (fee_order (erase_if_queued v k))
  = match queue_lookup v k with Some _ => (length (fee_order v) - 1)%nat | None => length (fee_order v) end.
Proof.
  intros Hv. unfold erase_if_queued. destruct (queue_lookup v k) as [c|] eqn:E; [|done].
  rewrite (filter_length_delete v k c Hv E). lia.
Qed.

Section Queued.
Variables (q : TxQ) (w : ApplyView) (pf : PreflightResult) (level : Z) (d : QueueApplyFullQueueDecision).
Hypotheses (Hv : views_ok (tq_views q)) (Hd : admits q w level d).

Lemma evicted_other x : evicted_key d = Some x -> x <> view_key w.
Proof.
  destruct Hd as [Ed _]. destruct d as [| | |k l]; try done. intros [= <-] ->.
  destruct (evict_spec _ _ _ _ _ _ _ Hv Ed) as (_ & _ & Hne & _). by apply Hne.
Qed.

Lemma queued_base_ok : views_ok (erase_if_queued (make_room (tq_views q) d) (view_key w))
  /\ queue_lookup (erase_if_queued (make_room (tq_views q) d) (view_key w)) (view_key w) = None.
Proof.
  split; [by apply erase_if_queued_ok, make_room_ok|]. by rewrite queue_lookup_erase_if, decide_True.
Qed.

Lemma queued_views_ok : views_ok (queued_views q w pf level d).
Proof. destruct queued_base_ok. by apply insert_core_ok. Qed.

Lemma queued_views_sorted :
  fee_sorted (tq_parent_hash_comp q) (tq_views q) ->
  fee_sorted (tq_parent_hash_comp q) (queued_views q w pf level d).
Proof.
  intros S. destruct queued_base_ok as [H1 H2]. apply insert_core_adds; [done|done|].
  by apply erase_if_queued_sorted, make_room_sorted.
Qed.

Lemma queued_views_lookup x :
  queue_lookup (queued_views q w pf level d) x
  = if decide (x = view_key w) then Some (view_core w pf level)
    else if decide (evicted_key d = Some x) then None else queue_lookup (tq_views q) x.
Proof.
  destruct queued_base_ok as [H1 H2].
  destruct (insert_core_adds _ _ (view_core w pf level) (tq_parent_hash_comp q) H1 H2) as [(_ & Hq & _) _].
  unfold queued_views. rewrite Hq. case_decide; [done|].
  rewrite queue_lookup_erase_if, decide_False by done. apply make_room_lookup.
Qed.

(** A full queue does not grow. *)
Lemma queued_views_length :
  (length (fee_order (queued_views q w pf level d)) <= S (length (fee_order (tq_views q))))%nat
  /\ (queue_is_full q = true ->
      (length (fee_order (queued_views q w pf level d)) <= length (fee_order (tq_views q)))%nat).
Proof.
  destruct queued_base_ok as [H1 H2].
  destruct (insert_core_adds _ _ (view_core w pf level) (tq_parent_hash_comp q) H1 H2) as [(Hp & _) _].
  unfold queued_views. rewrite (Permutation_length Hp). cbn [length].
  rewrite erase_if_queued_length, make_room_lookup by by apply make_room_ok.
  rewrite decide_False by (intros E; by apply (evicted_other _ E)). destruct Hd as [Ed Hr].
  destruct d as [| | |k l]; try done; cbn [make_room].
  - apply bypass_spec in Ed as [Hq|Hf]; [|rewrite Hf; split; [case_match; lia|done]].
    apply bool_decide_eq_true in Hq as [c Hc]. rewrite Hc.
    pose proof (filter_length_delete _ _ c Hv Hc). lia.
  - destruct (evict_spec _ _ _ _ _ _ _ Hv Ed) as (Hq & _ & _ & [ck Hk] & _).
    apply bool_decide_eq_false in Hq. destruct (queue_lookup (tq_views q) (view_key w)); [by destruct Hq; eauto|].
    pose proof (filter_length_delete _ _ ck Hv Hk). lia.
Qed.
End Queued.
End Outcome.

(** ** Transaction queue: [TxQ::apply] returns

    The assertions and conversions on the way of a call hold when the amounts are in
    range, the queued transactions pay a fee, and the caller's preclaim lets through
    only what pays the base fee. *)

Section Total.
Context `{!TxQTypes}.
Implicit Types (v : QueueViews) (k : FeeQueueKey) (core : MaybeTxCore) (q : TxQ) (a : TxQAccount).

(** ** Fees and spending in flight *)

Lemma sat_u64_bounds x : 0 <= x -> 0 <= sat_u64 x <= x /\ (1 <= x -> 1 <= sat_u64 x).
Proof. unfold sat_u64, u64_max. lia. Qed.

Lemma in_flight_bounds tx c B l t :
  0 <= tc_fee_drops c -> 0 <= tc_potential_spend_drops c <= B -> 0 <= B ->
  (forall s core, (s, core) ∈ l -> 1 <= tc_fee_drops (core_consequences core)
     /\ 0 <= tc_potential_spend_drops (core_consequences core) <= B) ->
  0 <= bt_total_fee_drops t -> 0 <= bt_potential_spend_drops t ->
  let r := in_flight_totals tx c t l in
  0 <= bt_total_fee_drops r
  /\ (1 <= bt_total_fee_drops t \/ (exists s core, (s, core) ∈ l /\ s <> tx) -> 1 <= bt_total_fee_drops r)
  /\ 0 <= bt_potential_spend_drops r <= bt_potential_spend_drops t + B * Z.of_nat (length l).
Proof.
  intros Hc Hs HB. revert t. induction l as [|[s core] l IH]; intros t Hl Hf Hp r.
  { subst r. simpl. split_and!; try lia. intros [?|(s & core & Hin & _)]; [done|by apply elem_of_nil in Hin]. }
  destruct (Hl s core ltac:(by left)) as [Hfee Hsp].
  assert (forall s core, (s, core) ∈ l -> 1 <= tc_fee_drops (core_consequences core)
     /\ 0 <= tc_potential_spend_drops (core_consequences core) <= B) as Hl'
    by (intros s' core' Hin; apply (Hl s'); by right).
  assert (forall c', 0 <= tc_fee_drops c' -> 0 <= tc_potential_spend_drops c' <= B ->
    let r := in_flight_totals tx c (add_consequences t c') l in
    0 <= bt_total_fee_drops r /\ (1 <= bt_total_fee_drops t \/ 1 <= tc_fee_drops c'
       \/ (exists s core, (s, core) ∈ l /\ s <> tx) -> 1 <= bt_total_fee_drops r)
    /\ 0 <= bt_potential_spend_drops r <= bt_potential_spend_drops t + B * Z.of_nat (length ((s, core) :: l))) as Hadd.
  { intros c' Hf' Hs' r'.
    destruct (sat_u64_bounds (bt_total_fee_drops t + tc_fee_drops c') ltac:(lia)) as [F1 F2].
    destruct (sat_u64_bounds (bt_potential_spend_drops t + tc_potential_spend_drops c') ltac:(lia)) as [P1 _].
    destruct (IH (add_consequences t c') Hl') as (H1 & H2 & H3); [simpl; lia..|].
    cbn [add_consequences bt_total_fee_drops bt_potential_spend_drops] in H2, H3. fold r' in H1, H2, H3.
    cbn [length]. split_and!; try lia. intros [?|[?|?]]; apply H2; [left; lia|left; lia|by right]. }
  cbn [in_flight_totals] in r. subst r. case_bool_decide as Es; cbn [negb].
  - assert ((exists s0 core0, (s0, core0) ∈ (s, core) :: l /\ s0 <> tx) ->
      exists s0 core0, (s0, core0) ∈ l /\ s0 <> tx) as Hex.
    { intros (s0 & core0 & [[= -> ->]|Hin]%elem_of_cons & Hne); [done|eauto]. }
    destruct l as [|e l'].
    + simpl. split_and!; try lia. intros [?|Hx%Hex]; [done|]. destruct Hx as (? & ? & Hin & _). by apply elem_of_nil in Hin.
    + destruct (Hadd c Hc Hs) as (H1 & H2 & H3). split_and!; try done; try lia.
      intros [?|Hx%Hex]; apply H2; auto.
  - destruct (Hadd (core_consequences core) ltac:(lia) Hsp) as (H1 & H2 & H3).
    split_and!; try done; try lia.
Qed.

(** ** What a call needs *)

Record apply_ready {S} (caller : ApplyCaller S) q (w : ApplyView) (pf : PreflightResult) : Prop := {
  rd_fee : 0 < fp_calculated_base_fee_drops (aw_fee_paid w) <= i64_max
           /\ 0 <= fp_fee_paid_drops (aw_fee_paid w) <= i64_max;
  rd_preclaim : forall s source, pc_likely_to_claim_fee (cl_run_preclaim caller s source).2 = true ->
    fp_calculated_base_fee_drops (aw_fee_paid w) <= fp_fee_paid_drops (aw_fee_paid w);
  rd_balance : 0 <= balance_drops_from_lookup (aw_account_lookup w)
               /\ 2 * balance_drops_from_lookup (aw_account_lookup w) <= i64_max;
  rd_reserve : 0 <= aw_reserve_drops w <= i64_max;
  rd_base_fee : 0 <= aw_base_fee_drops w <= i64_max;
  rd_candidate : 0 <= tc_fee_drops (pf_consequences pf);
  rd_fees : forall k core, queue_lookup (tq_views q) k = Some core ->
    1 <= tc_fee_drops (core_consequences core);
  rd_spend : exists B, 0 <= B /\ B * (Z.of_nat (length (fee_order (tq_views q)))) <= i64_max
    /\ 0 <= tc_potential_spend_drops (pf_consequences pf) <= B
    /\ forall k core, queue_lookup (tq_views q) k = Some core ->
         0 <= tc_potential_spend_drops (core_consequences core) <= B
}.

Lemma account_stage_total v account aseq s blocker level percent :
  exists st, run_queue_apply_account_stage v account aseq s blocker level percent = Ok st
    /\ ((exists ctx, st = AcReady ctx
           /\ ax_window ctx = inspect_account_queue_window (accounts v !! account) aseq s)
        \/ (match st with AcReady _ => False | _ => True end /\ exists r, account_stage_result st = Ok r)).
Proof.
  unfold run_queue_apply_account_stage. set (win := inspect_account_queue_window _ _ _).
  destruct (evaluate_blocker_queue_admission _ _ _ _);
    [|eexists; split; [reflexivity|]; right; (split; [done|]); eexists; reflexivity..].
  destruct (evaluate_queued_blocker_admission _ _);
    [|eexists; split; [reflexivity|]; right; (split; [done|]); eexists; reflexivity].
  assert (forall e, exists d, evaluate_replacement_fee level e percent = Ok d) as Hrep.
  { intros e. unfold evaluate_replacement_fee, increase_replacement_fee_level.
    destruct (mul_div_total e (100 + percent) 100 ltac:(lia)) as [r ->]. eexists. reflexivity. }
  match goal with |- context [mbind _ ?m] => assert (exists d, m = Ok d) as [d ->] end.
  { case_match; [|eexists; reflexivity].
    destruct (Hrep (mt_fee_level (core_payload m))) as [d ->]. eexists. reflexivity. }
  cbn [mbind outcome_bind]. destruct d as [[l|l]|].
  1, 3: eexists; (split; [reflexivity|]); left; by eexists.
  eexists. split; [reflexivity|]. right. split; [done|]. eexists. reflexivity.
Qed.

Lemma view_adjustment_total fee spend balance reserve base tx next :
  1 <= fee < balance -> 0 <= spend <= i64_max -> 2 * balance <= i64_max ->
  0 <= reserve <= i64_max -> 0 <= base <= i64_max ->
  exists adj, evaluate_queue_apply_view_adjustment fee spend balance reserve base tx next = Ok adj.
Proof.
  intros Hf Hs Hb Hr Hbase. unfold evaluate_queue_apply_view_adjustment, to_i64_drops.
  rewrite !(proj2 (Z.leb_le _ i64_max)) by lia. cbn [mbind outcome_bind].
  unfold i64_max in *. rewrite (wrap_i64_id (fee + _)) by lia.
  rewrite (proj2 (Z.ltb_lt 0 _)) by lia. cbn [orb]. eexists. reflexivity.
Qed.

Lemma relevant_other a aseq tx :
  range_from aseq (qa_transactions a) <> [] ->
  (1 < length (range_from aseq (qa_transactions a)))%nat \/ qa_transactions a !! tx = None ->
  exists s core, (s, core) ∈ range_from aseq (qa_transactions a) /\ s <> tx.
Proof.
  intros Hne Hc. pose proof (range_from_sorted aseq (qa_transactions a)) as Hs.
  pose proof (fun s core => proj1 (elem_of_range_from aseq (qa_transactions a) s core)) as Hin.
  destruct (range_from aseq (qa_transactions a)) as [|[s1 c1] l]; [done|].
  destruct (decide (s1 = tx)) as [->|?]; [|exists s1, c1; split; [by left|done]].
  destruct Hc as [Hlen|Hnone].
  - destruct l as [|[s2 c2] l]; [simpl in Hlen; lia|]. exists s2, c2. split; [right; by left|].
    inversion Hs as [|? ? _ Hall]; subst. apply Forall_cons in Hall as [Hlt _]. simpl in Hlt.
    intros ->. by rewrite ord_irrefl in Hlt.
  - destruct (Hin tx c1 ltac:(by left)) as [E _]. congruence.
Qed.

Lemma relevant_length v n a aseq : views_ok v -> accounts v !! n = Some a ->
  (length (range_from aseq (qa_transactions a)) <= length (fee_order v))%nat.
Proof.
  intros Hv Ea. etrans; [|by apply (account_size_le v n a)]. rewrite <- btree_iter_length.
  unfold range_from. apply length_filter.
Qed.

Lemma in_flight_ready {S} q w pf (caller : ApplyCaller S) a :
  views_ok (tq_views q) -> apply_ready caller q w pf -> accounts (tq_views q) !! aw_account w = Some a ->
  let aseq := account_seq_proxy_from_lookup (aw_account_lookup w) in
  let l := range_from aseq (qa_transactions a) in
  l <> [] -> (1 < length l)%nat \/ qa_transactions a !! aw_tx_seq_proxy w = None ->
  let r := in_flight_totals (aw_tx_seq_proxy w) (pf_consequences pf) (mkTotals 0 0) l in
  1 <= bt_total_fee_drops r /\ 0 <= bt_potential_spend_drops r /\ bt_potential_spend_drops r <= i64_max.
Proof.
  intros Hv Hr Ea aseq l Hne Hc r. destruct (rd_spend _ _ _ _ Hr) as (B & HB & Hlen & Hsp & Hq).
  pose proof (relevant_length (tq_views q) _ a aseq Hv Ea) as Hl. fold l in Hl.
  destruct (in_flight_bounds (aw_tx_seq_proxy w) (pf_consequences pf) B l (mkTotals 0 0))
    as (_ & H2 & H3); [apply Hr|done|done| |done|done|].
  { intros s core [Es _]%elem_of_range_from.
    assert (queue_lookup (tq_views q) (mkKey (aw_account w) s) = Some core) as Hk
      by (unfold queue_lookup; simpl; by rewrite Ea).
    split; [by apply (rd_fees _ _ _ _ Hr _ _ Hk)|by apply (Hq _ _ Hk)]. }
  fold r in H2, H3. cbn [bt_potential_spend_drops bt_total_fee_drops] in H3. split_and!; [|lia|nia].
  apply H2. right. by apply relevant_other.
Qed.

Lemma multitxn_stage_total {S} (caller : ApplyCaller S) q w pf ctx :
  views_ok (tq_views q) -> apply_ready caller q w pf ->
  let i := ei_queued (entry_inputs q w pf) in
  let aseq := account_seq_proxy_from_lookup (aw_account_lookup w) in
  let tqa := accounts (tq_views q) !! aw_account w in
  ax_window ctx = inspect_account_queue_window tqa aseq (aw_tx_seq_proxy w) ->
  exists st, run_queue_apply_multitxn_stage tqa ctx
      (mkMultiInputs (qi_preflight i) (qi_open_ledger_seq i) (qi_minimum_last_ledger_buffer i)
         (qi_maximum_txn_per_account i) aseq (aw_tx_seq_proxy w) (qi_balance_drops i)
         (qi_reserve_drops i) (qi_base_fee_drops i) (qi_can_be_held_result i) (pf_consequences pf)) = Ok st
    /\ ((exists c, st = MtReady c) \/ (match st with MtReady _ => False | _ => True end
            /\ exists r, multitxn_stage_result st = Ok r)).
Proof.
  intros Hv Hr i aseq tqa Hw. unfold run_queue_apply_multitxn_stage. rewrite Hw.
  cbn [mi_tx_seq_proxy mi_account_seq_proxy mi_preflight mi_open_ledger_seq mi_balance_drops
    mi_minimum_last_ledger_buffer mi_maximum_txn_per_account mi_reserve_drops mi_base_fee_drops
    mi_can_be_held_result mi_consequences].
  destruct tqa as [a|] eqn:Ea; cbn [inspect_account_queue_window].
  2: { cbn [window_default wd_relevant_tx_count wd_replaces_existing]. unfold evaluate_queue_apply_path.
    cbn [Nat.eqb]. repeat case_match; simplify_eq; eexists; (split; [reflexivity|]);
      (left; by eexists) || (right; split; [done|]; eexists; reflexivity). }
  cbn [wd_relevant_tx_count wd_replaces_existing].
  set (l := range_from aseq (qa_transactions a)). set (rep := match qa_transactions a !! _ with Some _ => true | None => false end).
  destruct (evaluate_queue_apply_path (length l) (aw_tx_seq_proxy w) aseq rep) as [t|path] eqn:Ep.
  { eexists. split; [reflexivity|]. right. split; [done|]. eexists. reflexivity. }
  destruct (path_requires_multi_txn path) eqn:Em; [|eexists; split; [reflexivity|]; left; by eexists].
  cbn [expect mbind outcome_bind].
  destruct (evaluate_queue_apply_multitxn_admission _ _ _ _ _ _ _ _ _) as [t|path'].
  { eexists. split; [reflexivity|]. right. split; [done|]. eexists. reflexivity. }
  destruct (in_flight_ready q w pf caller a Hv Hr Ea) as (H1 & H2 & H3).
  { fold aseq l. intros El. rewrite El in Ep. unfold evaluate_queue_apply_path in Ep. cbn [length Nat.eqb] in Ep.
    repeat case_match; simplify_eq; done. }
  { fold aseq l. unfold evaluate_queue_apply_path in Ep. repeat case_match; simplify_eq; try done.
    simpl in Em. apply orb_true_iff in Em as [Hlt%Nat.ltb_lt|Hn]; [by left|right].
    unfold rep in Hn. by destruct (qa_transactions a !! aw_tx_seq_proxy w). }
  fold aseq in H1, H2, H3. fold l in H1, H2, H3. unfold evaluate_queue_apply_balance. fold l.
  set (tot := in_flight_totals _ _ _ l) in *.
  destruct ((qi_balance_drops i <=? bt_total_fee_drops tot) || _) eqn:Hbal.
  { eexists. split; [reflexivity|]. right. split; [done|]. eexists. reflexivity. }
  apply orb_false_iff in Hbal as [Hlt%Z.leb_gt _].
  destruct (view_adjustment_total (bt_total_fee_drops tot) (bt_potential_spend_drops tot)
    (qi_balance_drops i) (qi_reserve_drops i) (qi_base_fee_drops i) (aw_tx_seq_proxy w)
    (next_queuable_seq a aseq)) as [adj ->]; [lia|lia|apply Hr..|].
  cbn [mbind outcome_bind]. eexists. split; [reflexivity|]. left. by eexists.
Qed.

Lemma full_queue_total replaces full account level v :
  views_ok v -> exists d, evaluate_queue_apply_full_queue replaces full account level v = Ok d.
Proof.
  intros Hv. unfold evaluate_queue_apply_full_queue. case_match; [eexists; reflexivity|].
  destruct (list_find _ _) as [[i e]|] eqn:Ef; [|eexists; reflexivity].
  apply list_find_Some in Ef as (Hi & _). apply list_elem_of_lookup_2, list_elem_of_In, in_rev, list_elem_of_In in Hi.
  destruct (entry_queued v e Hv Hi) as (c & Hc & _).
  destruct (queue_lookup_account v _ c Hc) as (a & Ea & Et). rewrite Ea. cbn [expect mbind outcome_bind].
  case_match; [eexists; reflexivity|].
  destruct (last_key_value_is_Some _ _ _ Et) as [[s c'] ->]. eexists. reflexivity.
Qed.

Section Caller.
Context {S : Type} (caller : ApplyCaller S).
Variables (q : TxQ) (w : ApplyView) (pf : PreflightResult).
Hypotheses (Hv : views_ok (tq_views q)) (Hr : apply_ready caller q w pf).

Let level := Z.min u64_max (fp_fee_paid_drops (aw_fee_paid w) * TXQ_BASE_LEVEL
                            / fp_calculated_base_fee_drops (aw_fee_paid w)).

Lemma ready_level : evaluate_fee_level_paid (aw_fee_paid w) = Ok level.
Proof.
  destruct (rd_fee _ _ _ _ Hr) as [H1 H2]. unfold level. destruct (aw_fee_paid w) as [b f d].
  by apply fee_level_paid_eq.
Qed.

Lemma preclaim_total s source :
  exists s' r, run_queue_apply_preclaim_stage caller s source level TXQ_BASE_LEVEL = Ok (s', r).
Proof.
  unfold run_queue_apply_preclaim_stage. pose proof (rd_preclaim _ _ _ _ Hr s source) as Hp.
  destruct (cl_run_preclaim caller s source) as [s' r]. simpl in Hp.
  destruct (pc_likely_to_claim_fee r); cbn [negb]; [|do 2 eexists; reflexivity].
  specialize (Hp eq_refl). destruct (rd_fee _ _ _ _ Hr) as [H1 H2].
  rewrite (proj2 (Z.ltb_ge _ _)); [do 2 eexists; reflexivity|].
  unfold level. apply Z.min_glb; [done|]. apply Z.div_le_lower_bound; [lia|]. unfold TXQ_BASE_LEVEL. lia.
Qed.

Lemma queue_stage_total hold full c d :
  qd_replaced c = (fun _ => candidate_key c) <$> queue_lookup (tq_views q) (candidate_key c) ->
  evaluate_queue_apply_full_queue
    (bool_decide (is_Some (queue_lookup (tq_views q) (candidate_key c)))) full
    (qd_account c) (qd_fee_level c) (tq_views q) = Ok d ->
  exists v' st, run_queue_apply_queue_stage (tq_views q) hold d c = Ok (v', st).
Proof.
  intros Hrep Hd. unfold run_queue_apply_queue_stage.
  destruct (hold_fallback_ter hold); [do 2 eexists; reflexivity|].
  rewrite (full_decision_eq (tq_views q) full c d Hv Hd). cbn [mbind outcome_bind].
  destruct (fq_rejects_full d); [do 2 eexists; reflexivity|].
  destruct (enqueue_spec (make_room (tq_views q) d) (qd_replaced c) (qd_account c) (qd_tx_id c)
    (qd_last_valid c) (qd_seq_proxy c) (qd_fee_level c) (qd_flags c) (qd_pf_result c) (qd_order c))
    as (created & ->); [by apply make_room_ok| |do 2 eexists; reflexivity].
  by fold (candidate_key c); rewrite (make_room_keeps (tq_views q) full c d Hv Hd).
Qed.

Lemma flow_total s source retries req hold d c full :
  qd_fee_level c = level ->
  qd_replaced c = (fun _ => candidate_key c) <$> queue_lookup (tq_views q) (candidate_key c) ->
  evaluate_queue_apply_full_queue
    (bool_decide (is_Some (queue_lookup (tq_views q) (candidate_key c)))) full
    (qd_account c) (qd_fee_level c) (tq_views q) = Ok d ->
  exists s' v' st, run_queue_apply_flow_stage caller s (tq_views q)
    (mkPreparedFlow source retries TXQ_BASE_LEVEL req hold d c) = Ok (s', v', st).
Proof.
  intros Hl Hrep Hd. unfold run_queue_apply_flow_stage, run_prepared_queue_apply_post_preclaim_stage.
  cbn [pw_candidate pw_view_source pw_base_level pw_first_relevant_retries_remaining
    pw_required_fee_level pw_hold_fallback pw_full_queue_decision].
  destruct (queue_stage_total hold full c d Hrep Hd) as (v' & st & Eq).
  rewrite Hl. destruct (preclaim_total s source) as (s' & r & ->). cbn [mbind outcome_bind].
  destruct r as [r|p]; [do 3 eexists; reflexivity|].
  destruct (run_queue_apply_try_clear_stage caller s' _) as [s2 [| |r]]; rewrite ?Eq;
    do 3 eexists; reflexivity.
Qed.

Lemma queued_stage_total s req :
  exists s' v' st r,
    run_queue_apply_queued_stage caller s (tq_views q) (ei_account_seq_proxy (entry_inputs q w pf))
      (aw_tx_seq_proxy w) (ei_queued (entry_inputs q w pf))
      (mkFeeContext TXQ_BASE_LEVEL level req) pf = Ok (s', v', st)
    /\ queued_stage_result st = Ok r.
Proof.
  unfold run_queue_apply_queued_stage, derive_queue_apply_prepared_flow_stage.
  cbn [fx_fee_level_paid fx_base_level fx_required_fee_level].
  destruct (account_stage_total (tq_views q) (qi_account (ei_queued (entry_inputs q w pf)))
    (ei_account_seq_proxy (entry_inputs q w pf)) (aw_tx_seq_proxy w)
    (qi_is_blocker (ei_queued (entry_inputs q w pf))) level
    (qi_retry_sequence_percent (ei_queued (entry_inputs q w pf)))) as (ast & Eac & Hac).
  rewrite Eac. cbn [mbind outcome_bind].
  destruct Hac as [(ctx & -> & Hwin)|[Hn [r Hres]]].
  2: { destruct ast; try done; do 4 eexists; (split; [reflexivity|exact Hres]). }
  destruct (account_stage_ready _ _ _ _ _ _ _ _ Eac) as [Hrep Hrepl].
  destruct (multitxn_stage_total caller q w pf ctx Hv Hr Hwin) as (mst & Emt & Hmt).
  cbn [entry_inputs ei_account_seq_proxy ei_queued qi_account] in *. rewrite Emt. cbn [mbind outcome_bind].
  destruct Hmt as [[mctx ->]|[Hn [r Hres]]].
  2: { destruct mst; try done; do 4 eexists; (split; [reflexivity|exact Hres]). }
  destruct (run_queue_apply_preclaim_view_stage caller s _) as [s1 [|source]].
  { do 4 eexists. split; [reflexivity|]. reflexivity. }
  rewrite Hrep. destruct (full_queue_total
    (bool_decide (is_Some (queue_lookup (tq_views q) (mkKey (aw_account w) (aw_tx_seq_proxy w)))))
    (queue_is_full q) (aw_account w) level (tq_views q) Hv) as [d Ed]. 
  cbn [qi_queue_is_full]. rewrite Ed. cbn [mbind outcome_bind].
  destruct (flow_total s1 source (ax_first_relevant_retries_remaining ctx) req (mx_hold_fallback mctx) d
    (mkQueueCandidate (ax_replaced ctx) (aw_account w) (aw_tx_id w)
       (hp_last_valid_ledger (aw_hold_preflight w)) (aw_tx_seq_proxy w) level (pf_flags pf) pf
       (tq_parent_hash_comp q)) (queue_is_full q)) as (s' & v' & st & Eflow); [done|exact Hrepl|exact Ed|].
  cbn [mret outcome_ret mbind outcome_bind run_prepared_queue_apply_queued_flow_stage qi_tx_id qi_last_valid qi_flags qi_order].
  rewrite Eflow. cbn [mbind outcome_bind].
  do 4 eexists. split; [reflexivity|]. reflexivity.
Qed.
End Caller.
End Total.
