(* ===== verification/TxQLifecycle.v ===== *)
(** * Transaction queue: the queue over its whole life

    The outcome of one call of [TxQ::apply], when it returns and what it does then,
    and the invariant of the queue's state over any sequence of its operations. *)

From stdpp Require Import strings.
From S2P Require Import Prelude LoadFee BTree TxQTypes TxQMetrics TxQMetricsTheorems TxQViews TxQInv TxQOps TxQAccept TxQAcceptInv TxQAcceptSettled TxQAcceptTheorems TxQueue TxQueueTheorems TxQApplyRules TxQApply TxQApplyTheorems.

Section Lifecycle.
Context `{!TxQTypes}.
Implicit Types (v : QueueViews) (k : FeeQueueKey) (core : MaybeTxCore) (q : TxQ).

(** ** One call of [apply] *)

Lemma stage_views_ok q w pf st v' :
  txq_ok q -> stage_views q w pf st v' -> txq_ok (with_views q v').
Proof.
  intros [Hv Hs Hm Hp] Hst.
  assert (views_ok v' /\ fee_sorted (tq_parent_hash_comp q) v') as [H1 H2]; [|by split].
  destruct st as [r|[a|p|[st|st|st|win dec p adj [r|pc r|pc tc [t| |r]]]]]; cbn [stage_views] in Hst;
    try (by subst v').
  - subst v'. case_match; [|done]. split; [by apply erase_if_queued_ok|by apply erase_if_queued_sorted].
  - destruct Hst as (level & d & _ & Hd & ->).
    split; [by apply queued_views_ok|by apply queued_views_sorted].
Qed.

Lemma full_bound q m n :
  tq_current_max_size q = Some m ->
  (n <= S (length (fee_order (tq_views q))))%nat ->
  (queue_is_full q = true -> (n <= length (fee_order (tq_views q)))%nat) ->
  Z.of_nat n <= Z.max (Z.of_nat (length (fee_order (tq_views q)))) m.
Proof.
  unfold queue_is_full. intros -> H1 H2.
  destruct (Z.leb_spec m (Z.of_nat (length (fee_order (tq_views q))))); [specialize (H2 eq_refl)|]; lia.
Qed.

(** C19: what a call of [TxQ::apply] does to the queue. It keeps the two views in
    agreement and in fee order, and a queue at its limit does not grow. A transaction
    applied directly takes the place of the one it replaces, if any; one that is
    queued is stored under its account and sequence at the level it pays, and at most
    one other transaction goes, the last of another account's, when the queue is full
    and nothing is replaced; in every other case the queue is as it was. *)
Theorem apply_outcome {S} (caller : ApplyCaller S) s q w pf s' q' st :
  txq_ok q -> txq_apply caller s q w pf = Ok (s', q', st) ->
  txq_ok q' /\ tq_current_max_size q' = tq_current_max_size q
  /\ (forall m, tq_current_max_size q = Some m ->
        Z.of_nat (length (fee_order (tq_views q')))
        <= Z.max (Z.of_nat (length (fee_order (tq_views q)))) m)
  /\ match st with
     | PfEntry (EnDirectApplied a) =>
         forall x, queue_lookup (tq_views q') x
           = if decide (ar_applied (dr_apply_result a) = true /\ x = view_key w) then None
             else queue_lookup (tq_views q) x
     | PfEntry (EnQueued (QdFlow _ _ _ _ (FsQueueOutcome _ _ (QsQueued _)))) =>
         exists level evicted, evaluate_fee_level_paid (aw_fee_paid w) = Ok level
           /\ (forall x, queue_lookup (tq_views q') x
                 = if decide (x = view_key w) then Some (view_core w pf level)
                   else if decide (evicted = Some x) then None else queue_lookup (tq_views q) x)
           /\ forall y, evicted = Some y ->
                queue_is_full q = true /\ queue_lookup (tq_views q) (view_key w) = None
                /\ fk_account y <> aw_account w /\ is_Some (queue_lookup (tq_views q) y)
                /\ forall x, fk_account x = fk_account y -> is_Some (queue_lookup (tq_views q) x) ->
                     ord_leb (fk_seq_proxy x) (fk_seq_proxy y) = true
     | _ => tq_views q' = tq_views q
     end.
Proof.
  intros Hq E. pose proof (to_views _ Hq) as Hv.
  destruct (apply_stage_views caller s q w pf s' q' st Hv E) as [Eq Hst].
  split; [rewrite Eq; by eapply stage_views_ok|]. split; [by rewrite Eq|].
  assert (forall v', v' = tq_views q -> forall m, tq_current_max_size q = Some m ->
    Z.of_nat (length (fee_order v')) <= Z.max (Z.of_nat (length (fee_order (tq_views q)))) m) as Hsame
    by (intros v' -> m _; lia).
  destruct st as [r|[a|p|[st|st|st|win dec p adj [r|pc r|pc tc [t| |r]]]]]; cbn [stage_views] in Hst;
    try (split; [by apply Hsame|done]).
  - rewrite Hst. destruct (ar_applied (dr_apply_result a)).
    + split.
      * intros m Hm. rewrite erase_if_queued_length by done. case_match; lia.
      * intros x. rewrite queue_lookup_erase_if. by repeat case_decide; naive_solver.
    + split; [by apply Hsame|]. intros x. by rewrite decide_False by naive_solver.
  - destruct Hst as (level & d & Hl & Hd & ->).
    destruct (queued_views_length q w pf level d Hv Hd) as [L1 L2].
    split; [intros m Hm; by apply (full_bound q m)|]. exists level, (evicted_key d).
    split; [done|]. split; [intros x; by apply queued_views_lookup|].
    intros y Hy. destruct Hd as [Ed _]. destruct d as [| | |k l]; try done. injection Hy as <-.
    destruct (evict_spec _ _ _ _ _ _ _ Hv Ed) as (Hn & Hf & Hne & Hk & _ & Hlast).
    split_and!; try done. apply bool_decide_eq_false in Hn. by apply eq_None_not_Some.
Qed.


(** ** Clear-ahead *)

Lemma record_attempts_lookup txs attempts s :
  option_Forall2 core_sim (txs !! s) (record_attempts txs attempts !! s).
Proof.
  unfold record_attempts. revert txs. induction attempts as [|[s' r] l IH]; intros txs; simpl; [reflexivity|].
  etrans; [|apply IH]. destruct (txs !! s') as [core|] eqn:E; [|reflexivity].
  destruct (decide (s = s')) as [->|Hne]; [|by rewrite lookup_insert_ne].
  rewrite lookup_insert_eq, E. constructor. by destruct core.
Qed.

Lemma remove_all_lookup removed a s :
  qa_account (foldl (fun a s => (account_remove a s).1) a removed) = qa_account a
  /\ qa_transactions (foldl (fun a s => (account_remove a s).1) a removed) !! s
     = if decide (s ∈ removed) then None else qa_transactions a !! s.
Proof.
  revert a. induction removed as [|x l IH]; intros a; cbn [foldl].
  { split; [done|]. case_decide as Hd; [by apply elem_of_nil in Hd|done]. }
  destruct (IH (account_remove a x).1) as [-> ->]. split; [done|].
  cbn [account_remove fst with_transactions qa_transactions].
  destruct (decide (s ∈ l)); [by rewrite decide_True by (by right)|].
  destruct (decide (s = x)) as [->|Hne]; [rewrite lookup_delete_eq, decide_True by (by left); done|].
  rewrite lookup_delete_ne by done. by rewrite decide_False by (intros [?|?]%elem_of_cons; done).
Qed.

(** The account map after the attempts are recorded and the sequences removed. *)
Definition try_clear_accounts v (account : Z) (attempts : list (SeqProxy * ApplyResult))
    (removed : list SeqProxy) : gmap Z TxQAccount :=
  match accounts v !! account with
  | Some a =>
      <[account := foldl (fun a s => (account_remove a s).1)
                     (with_transactions a (record_attempts (qa_transactions a) attempts)) removed]>
        (accounts v)
  | None => accounts v
  end.

(** The map with the attempts recorded only. *)
Definition recorded_views v account attempts : QueueViews :=
  mkViews (fee_order v) (try_clear_accounts v account attempts []).

Lemma recorded_sim v account attempts : views_ok v ->
  views_sim v (recorded_views v account attempts) /\ views_ok (recorded_views v account attempts).
Proof.
  intros Hv. assert (views_sim v (recorded_views v account attempts)) as Hs.
  { split; [done|]. intros [n s]. unfold recorded_views, try_clear_accounts, queue_lookup.
    cbn [accounts fk_account fk_seq_proxy foldl]. destruct (accounts v !! account) as [a|] eqn:Ea; [|reflexivity].
    destruct (decide (n = account)) as [->|Hne]; [|by rewrite lookup_insert_ne].
    rewrite lookup_insert_eq, Ea. apply record_attempts_lookup. }
  split; [done|]. apply (views_sim_ok v _ Hs Hv). intros n a'. cbn [recorded_views accounts].
  unfold try_clear_accounts. destruct (accounts v !! account) as [a|] eqn:Ea; [|apply (vo_accounts _ Hv)].
  destruct (decide (n = account)) as [->|Hne].
  - rewrite lookup_insert_eq. intros [= <-]. simpl. by apply (vo_accounts _ Hv).
  - rewrite lookup_insert_ne by done. apply (vo_accounts _ Hv).
Qed.

Lemma try_clear_lookup v account attempts removed l k :
  queue_lookup (mkViews l (try_clear_accounts v account attempts removed)) k
  = if decide (k ∈ mkKey account <$> removed) then None
    else queue_lookup (recorded_views v account attempts) k.
Proof.
  destruct k as [n s]. unfold recorded_views, try_clear_accounts, queue_lookup.
  cbn [accounts fk_account fk_seq_proxy foldl].
  assert (mkKey n s ∈ mkKey account <$> removed <-> n = account /\ s ∈ removed) as Hin.
  { rewrite list_elem_of_fmap. naive_solver. }
  destruct (accounts v !! account) as [a|] eqn:Ea.
  - destruct (decide (n = account)) as [->|Hne].
    + rewrite !lookup_insert_eq. cbn [mbind option_bind].
      destruct (remove_all_lookup removed (with_transactions a (record_attempts (qa_transactions a) attempts)) s)
        as [_ ->].
      destruct (decide (s ∈ removed)); [by rewrite decide_True by naive_solver|].
      by rewrite decide_False by naive_solver.
    + rewrite !lookup_insert_ne by done. by rewrite decide_False by naive_solver.
  - case_decide as Hd; [|done]. apply Hin in Hd as [-> _]. by rewrite Ea.
Qed.

Lemma try_clear_effects_eq q account attempts removed :
  ~ (attempts = [] /\ removed = []) ->
  apply_try_clear_effects q account attempts removed
  = with_views q (mkViews (filter (fun e => fe_key e ∉ mkKey account <$> removed) (fee_order (tq_views q)))
                    (try_clear_accounts (tq_views q) account attempts removed)).
Proof.
  intros Hne. unfold apply_try_clear_effects.
  fold (try_clear_accounts (tq_views q) account attempts removed).
  destruct (bool_decide (attempts = []) && bool_decide (removed = [])) eqn:E.
  { apply andb_true_iff in E as [E1%bool_decide_eq_true E2%bool_decide_eq_true]. by destruct Hne. }
  clear E. do 2 f_equal. case_bool_decide as Er.
  - rewrite Er. symmetry. clear. induction (fee_order (tq_views q)) as [|e l IH]; [done|].
    rewrite filter_cons_True by (by intros ?%elem_of_nil). by rewrite IH.
  - apply list_filter_iff. intros e. destruct (fe_key e) as [n s]. rewrite list_elem_of_fmap. simpl.
    destruct (decide (n = account)), (decide (s ∈ removed)); naive_solver.
Qed.

Lemma try_clear_ok q account attempts removed :
  txq_ok q -> txq_ok (apply_try_clear_effects q account attempts removed)
    /\ forall k, option_Forall2 core_sim
         (if decide (fk_account k = account /\ fk_seq_proxy k ∈ removed) then None
          else queue_lookup (tq_views q) k)
         (queue_lookup (tq_views (apply_try_clear_effects q account attempts removed)) k).
Proof.
  intros [Hv Hs Hm Hp]. set (keys := mkKey account <$> removed).
  assert (forall k, k ∈ keys <-> fk_account k = account /\ fk_seq_proxy k ∈ removed) as Hin.
  { intros [n s]. unfold keys. rewrite list_elem_of_fmap. simpl. naive_solver. }
  destruct (recorded_sim (tq_views q) account attempts Hv) as [Hsim Hrec].
  set (v' := mkViews (filter (fun e => fe_key e ∉ keys) (fee_order (tq_views q)))
    (try_clear_accounts (tq_views q) account attempts removed)).
  assert (views_ok v' /\ fee_sorted (tq_parent_hash_comp q) v'
    /\ forall k, option_Forall2 core_sim
         (if decide (fk_account k = account /\ fk_seq_proxy k ∈ removed) then None
          else queue_lookup (tq_views q) k) (queue_lookup v' k)) as (H1 & H2 & H3).
  { split_and!.
    - apply (retain_ok (recorded_views (tq_views q) account attempts)); [done| |].
      + intros k. apply try_clear_lookup.
      + intros n a'. unfold try_clear_accounts. destruct (accounts (tq_views q) !! account) as [a|] eqn:Ea;
          [|apply (vo_accounts _ Hv)].
        destruct (decide (n = account)) as [->|Hne]; [|rewrite lookup_insert_ne by done; apply (vo_accounts _ Hv)].
        rewrite lookup_insert_eq. intros [= <-]. rewrite (proj1 (remove_all_lookup _ _ (sequence 0))).
        simpl. by apply (vo_accounts _ Hv).
    - by apply StronglySorted_filter.
    - intros k. unfold v'. rewrite try_clear_lookup. fold keys.
      destruct (decide (k ∈ keys)) as [Hk|Hk]; [rewrite decide_True by (by apply Hin); constructor|].
      rewrite decide_False by (by rewrite <- Hin). apply Hsim. }
  destruct (decide (attempts = [] /\ removed = [])) as [[-> ->]|Hne].
  - split; [done|]. intros k. rewrite decide_False by (intros [_ ?%elem_of_nil]; done). reflexivity.
  - rewrite try_clear_effects_eq by done. fold keys. split; [by split|exact H3].
Qed.

(** ** Any sequence of operations *)

Definition setup_usable (s : TxQSetup) : Prop :=
  config_ok (fee_metrics_config s) /\ 1 <= minimum_txn_in_ledger_for_mode s.

(** What can happen to the queue between its creation and its end. *)
Inductive txq_step : TxQ -> TxQ -> Prop :=
| ts_accept {S} (apply : S -> MaybeTx -> S * MaybeTx * ApplyResult) fuel s q view s' q' owner :
    apply_frame apply -> enough_fuel (tq_views q) fuel ->
    txq_accept apply fuel s q view = Ok (s', q', owner) -> txq_step q q'
| ts_closed q levels ledger_seq time_leap q' r :
    Forall in_u64 levels -> in_u64 (Z.of_nat (length levels)) ->
    txq_process_closed_ledger q levels ledger_seq time_leap = Ok (q', r) -> txq_step q q'
| ts_apply {S} (caller : ApplyCaller S) s q w pf s' q' st :
    txq_apply caller s q w pf = Ok (s', q', st) -> txq_step q q'
| ts_try_clear q account attempts removed :
    txq_step q (apply_try_clear_effects q account attempts removed)
| ts_standalone q b : setup_usable (with_standalone (tq_setup q) b) -> txq_step q (set_standalone q b)
| ts_reconfigure q setup :
    setup_usable (with_standalone setup (su_standalone (tq_setup q))) ->
    txq_step q (reconfigure_setup q setup).

Lemma metrics_new_ok c : config_ok c -> metrics_ok (metrics_new c).
Proof.
  intros Hc. pose proof (expected_cap_bounds c Hc) as Hcap. unfold target_txn_count in Hcap.
  split; cbn [metrics_new fm_config fm_txns_expected fm_recent_txn_counts fm_escalation_multiplier].
  - done.
  - lia.
  - constructor.
  - simpl. unfold history_capacity. lia.
  - pose proof (co_multiplier _ Hc). unfold in_u64 in *. lia.
Qed.

Lemma with_setup_ok q setup : txq_ok q -> setup_usable setup -> txq_ok (with_setup q setup).
Proof.
  intros [Hv Hs _ _] [Hc Hp]. split; [done|done|by apply metrics_new_ok|exact Hp].
Qed.

Lemma txq_accept_ok {S} (apply : S -> MaybeTx -> S * MaybeTx * ApplyResult) fuel s q view s' q' owner :
  apply_frame apply -> enough_fuel (tq_views q) fuel -> txq_ok q ->
  txq_accept apply fuel s q view = Ok (s', q', owner) -> txq_ok q'.
Proof.
  intros Hfr Hfuel Hq. pose proof Hq as [Hv Hs Hm Hp]. unfold txq_accept. set (cs := mkCallState _ _ _).
  destruct (accept_call apply fuel s (tq_views q) (tq_metrics q) (tq_parent_hash_comp q) cs
    (fun _ _ _ _ => True) Hfr (txq_ok_usable q Hq) Hv Hfuel)
    as (st & w & v' & ow & -> & _ & Hv' & Hs' & _ & _ & _ & Hh & _); [done|done|].
  cbn [mbind outcome_bind]. intros [= <- <- <-]. split; try done. simpl. by rewrite Hh.
Qed.

(** C6: the queue stays consistent for as long as the node runs. From an empty queue,
    whatever sequence of open-ledger fills, closed ledgers, submissions, clear-aheads
    and reconfigurations follows, the account map and the fee-ordered list describe
    the same transactions, each once and under the account and sequence it names; the
    list is in fee order for the current parent hash; and the fee metrics stay within
    the configuration. *)
Theorem txq_consistent setup max_size h q :
  setup_usable setup ->
  rtc txq_step (new_from_setup setup max_size h views_empty) q ->
  txq_ok q.
Proof.
  intros [Hc Hp] Hr.
  assert (txq_ok (new_from_setup setup max_size h views_empty)) as H0.
  { split; [apply views_empty_ok|apply views_empty_sorted|by apply metrics_new_ok|exact Hp]. }
  induction Hr as [|q1 q2 q3 Hstep _ IH]; [done|]. apply IH. clear IH.
  destruct Hstep as [S apply fuel s q view s' q' owner Hf Hfuel E|q levels ledger_seq time_leap q' r Hl Hn E
    |S caller s q w pf s' q' st E|q account attempts removed|q b Hs|q st Hs].
  - by eapply txq_accept_ok.
  - destruct (closed_ledger_full q levels ledger_seq time_leap H0) as (q2 & r2 & E2 & Hok & _); [done|done|].
    congruence.
  - destruct (apply_stage_views caller s q w pf s' q' st (to_views _ H0) E) as [-> Hst].
    by eapply stage_views_ok.
  - by apply try_clear_ok.
  - by apply with_setup_ok.
  - by apply with_setup_ok.
Qed.
End Lifecycle.

(** ** A full queue and a newcomer *)

Module LifecycleDemo.
Import AcceptDemo.

(** The queue of four at its limit. *)
Definition q : TxQ := mkTxQ setup_default (fee_metrics_state setup_default) (Some 4) 0 queue.

Lemma q_ok : txq_ok q.
Proof.
  split; [exact queue_ok|exact queue_sorted|exact MetricsDemo.demo_metrics_ok|].
  vm_compute. discriminate.
Qed.

(** Account 9 offers three times the base fee while the open ledger is busy. *)
Definition view : ApplyView :=
  mkApplyView 9 15 (sequence 7) (Some (7, 1000000000)) false (mkFeePaid 10 30 10) 100 40 1000000 10
    (mkHoldPreflight false false false false 0 None).

Definition caller : ApplyCaller (list Z) :=
  mkCaller _ (fun s => (s, mkApplyResult TES_SUCCESS true false)) (fun s _ => (s, true))
    (fun s _ => (s, mkPreclaim 40 tt None 0 tt TES_SUCCESS true))
    (fun s => (s, mkApplyResult TER_RETRY false false)) (fun s => s).

Definition pf : PreflightResult := preflight (sequence 7).

Definition after : outcome (list FeeQueueKey * Ter) :=
  '(_, q', st) ← txq_apply caller [] q view pf;
  r ← preflight_stage_result st;
  Ok (fe_key <$> fee_order (tq_views q'), ar_ter r).

(** It is queued in place of the ticket of account 3. *)
Example after_eq :
  after = Ok ([mkKey 1 (sequence 6); mkKey 9 (sequence 7); mkKey 2 (sequence 9);
               mkKey 1 (sequence 5)], TER_QUEUED).
Proof. vm_compute. reflexivity. Qed.

Lemma queued_cores k c : queue_lookup queue k = Some c ->
  core_consequences c = consequences_new 10 (fk_seq_proxy k) /\ in_u64 (mt_fee_level (core_payload c)).
Proof.
  intros Hk. apply (queued_entry queue k c queue_ok) in Hk as Hin. revert Hk.
  assert (k ∈ fe_key <$> fee_order queue) as Hkey.
  { apply list_elem_of_fmap. exists (key_entry k c). split; [by destruct k|done]. }
  clear Hin. change (fe_key <$> fee_order queue)
    with [mkKey 1 (sequence 6); mkKey 2 (sequence 9); mkKey 1 (sequence 5); mkKey 3 (ticket 4)] in Hkey.
  rewrite !elem_of_cons, elem_of_nil in Hkey.
  assert (forall tx_id level n s, queue_lookup queue (mkKey n s) = Some (core tx_id level n s) ->
    in_u64 level -> queue_lookup queue (mkKey n s) = Some c ->
    core_consequences c = consequences_new 10 s /\ in_u64 (mt_fee_level (core_payload c))) as G.
  { intros tx_id level n s -> Hl [= <-]. by split. }
  destruct Hkey as [->|[->|[->|[->|[]]]]];
    [apply (G 12 900) | apply (G 13 500) | apply (G 11 300) | apply (G 14 256)];
    first [vm_compute; reflexivity | vm_compute; split; discriminate].
Qed.

Lemma levels_demo : levels_ok queue.
Proof. split; [intros k c Hc; by apply (queued_cores k c)|]. vm_compute. discriminate. Qed.


Lemma full_queue_spec_witness :
  exists l, evaluate_queue_apply_full_queue false true 9 768 queue = Ok (EvictCheapest (mkKey 3 (ticket 4)) l)
    /\ l < 768 /\ exists e, cheapest_other 0 queue 9 e /\ fk_account (fe_key e) = 3.
Proof.
  destruct (full_queue_spec 0 queue 9 768 queue_ok levels_demo queue_sorted) as (d & E & Hd).
  vm_compute in E. injection E as <-. exists 256. split; [vm_compute; reflexivity|]. split; [lia|].
  destruct Hd as (e & a & Hch & _ & _ & _ & Hacc & _). exists e. split; [exact Hch|]. symmetry. exact Hacc.
Defined.

Lemma apply_outcome_witness :
  exists s' q' st, txq_apply caller [] q view pf = Ok (s', q', st) /\ txq_ok q'
    /\ Z.of_nat (length (fee_order (tq_views q'))) <= 4.
Proof.
  destruct (txq_apply caller [] q view pf) as [[[s' q'] st]| |] eqn:E;
    [|vm_compute in E; discriminate..].
  exists s', q', st. split; [reflexivity|].
  destruct (apply_outcome caller [] q view pf s' q' st q_ok E) as (Hok & _ & Hlen & _).
  split; [exact Hok|]. exact (Hlen 4 eq_refl).
Defined.


(** A minimum of 0 is read from the configuration without complaint; a queue set up
    with it panics on the first submission while the open ledger holds a transaction,
    where the default returns. *)
Definition zero_minimum : Section_ :=
  fun name => if String.eqb name "minimum_txn_in_ledger" then Some 0 else None.

Theorem zero_minimum_panics :
  exists setup, setup_txq zero_minimum false = inr setup
    /\ (forall fuel s, run_queue_accept_with_call_state ledger_apply (Datatypes.S fuel) s queue
          (fee_metrics_state setup) 0 (mkCallState 1 None 7) = Panic)
    /\ txq_apply caller [] (new_from_setup setup None 0 queue) view pf = Panic
    /\ exists r, txq_apply caller [] (new_from_setup setup_default None 0 queue) view pf = Ok r.
Proof.
  eexists. split; [reflexivity|]. split; [|split; vm_compute; eauto].
  intros fuel s. apply zero_expected_panics; [reflexivity|vm_compute; discriminate| |simpl; lia].
  unfold in_u64, u64_max. simpl. lia.
Qed.

(** From an empty queue: a submission, then a closed ledger. *)
Lemma txq_consistent_witness :
  exists q1 q2, txq_step (new_from_setup setup_default None 0 views_empty) q1
    /\ txq_step q1 q2 /\ length (fee_order (tq_views q2)) = 1%nat /\ txq_ok q2.
Proof.
  set (q0 := new_from_setup setup_default None 0 views_empty).
  destruct (txq_apply caller [] q0 view pf) as [[[s1 q1] st]| |] eqn:E1; [|vm_compute in E1; discriminate..].
  destruct (txq_process_closed_ledger q1 [256] 40 false) as [[q2 r]| |] eqn:E2.
  2, 3: vm_compute in E1; injection E1 as <- <- <-; vm_compute in E2; discriminate.
  assert (txq_step q0 q1) as H1 by (eapply ts_apply; exact E1).
  assert (txq_step q1 q2) as H2.
  { apply (ts_closed q1 [256] 40 false q2 r); [|vm_compute; split; discriminate|exact E2].
    constructor; [vm_compute; split; discriminate|constructor]. }
  exists q1, q2. split; [exact H1|]. split; [exact H2|]. split.
  - vm_compute in E1. injection E1 as <- <- <-. vm_compute in E2. injection E2 as <- <-. reflexivity.
  - apply (txq_consistent setup_default None 0 q2).
    + split; [by apply (setup_config_ok (fun _ => None) false setup_default)|vm_compute; discriminate].
    + eapply rtc_l; [exact H1|]. eapply rtc_l; [exact H2|]. apply rtc_refl.
Defined.
End LifecycleDemo.
