(* ===== verification/TxQTryClear.v ===== *)
(** * Transaction queue: clearing an account's queue ahead of a transaction

    [queue_try_clear.rs]: when a new transaction pays enough for itself and for what
    its account has queued before it, all of them are applied together and leave the
    queue. *)

From S2P Require Import Prelude BTree TxQTypes TxQMetrics TxQViews TxQInv TxQOps TxQAccept TxQAcceptInv TxQAcceptTheorems.

Section TryClear.
Context `{!TxQTypes}.
Implicit Types a : TxQAccount.

Record TryClearAccountPlan := mkPlan {
  tp_queued_seq_proxies : list SeqProxy;
  tp_queued_count : nat;
  tp_target_was_already_queued : bool;
  tp_total_fee_level_paid : Z
}.

Inductive TryClearAccountFeeGate :=
| GateRequiredFeeOverflow (p : TryClearAccountPlan)
| GateInsufficientFee (p : TryClearAccountPlan) (required_total_fee_level : Z)
| GateClearQueue (p : TryClearAccountPlan) (required_total_fee_level : Z).

Definition evaluate_try_clear_account_fee_gate a (begin target : SeqProxy) (fee_level_paid : Z)
    (required_total_fee_level : nat -> option Z) : outcome TryClearAccountFeeGate :=
  match qa_transactions a !! begin with
  | None => Panic
  | Some _ =>
      let queued_seq_proxies :=
        fst <$> take_while (fun e : SeqProxy * MaybeTxCore => ord_ltb e.1 target)
                  (range_from begin (qa_transactions a)) in
      total ← foldM (fun total s =>
                       queued ← expect (qa_transactions a !! s);
                       mret (sat_u64 (total + mt_fee_level (core_payload queued))))
                fee_level_paid queued_seq_proxies;
      let plan := mkPlan queued_seq_proxies (length queued_seq_proxies)
                    (bool_decide (is_Some (qa_transactions a !! target))) total in
      match required_total_fee_level (tp_queued_count plan + 1)%nat with
      | None => mret (GateRequiredFeeOverflow plan)
      | Some required =>
          mret (if total <? required then GateInsufficientFee plan required
                else GateClearQueue plan required)
      end
  end.

Inductive TryClearQueuedBatchProgress :=
| ContinueToCurrentTx
| BatchFallBackToNormal (failed_index : nat) (result : ApplyResult).

Record TryClearSuccessCleanup := mkCleanup {
  sc_removed_seq_proxies : list SeqProxy;
  sc_removed_replaced_target : bool;
  sc_next_seq_proxy : option SeqProxy
}.

Record TryClearFinalization := mkFinalization {
  tf_current_result : ApplyResult;
  tf_cleanup : option TryClearSuccessCleanup
}.

Inductive TryClearExecution :=
| ExFallBackToNormal (failed_index : nat) (result : ApplyResult)
| ExCurrentTx (f : TryClearFinalization).

Definition execution_result (e : TryClearExecution) : ApplyResult :=
  match e with ExFallBackToNormal _ r => r | ExCurrentTx f => tf_current_result f end.

Inductive TryClearAccountResult :=
| ResRequiredFeeOverflow (p : TryClearAccountPlan)
| ResInsufficientFee (p : TryClearAccountPlan) (required_total_fee_level : Z)
| ResClearQueue (p : TryClearAccountPlan) (required_total_fee_level : Z) (e : TryClearExecution).

Definition try_clear_result (r : TryClearAccountResult) : ApplyResult :=
  match r with
  | ResRequiredFeeOverflow _ | ResInsufficientFee _ _ => mkApplyResult TEL_INSUF_FEE_P false false
  | ResClearQueue _ _ e => execution_result e
  end.

Section Run.
Context {S : Type} (apply_queued : S -> MaybeTx -> S * MaybeTx * ApplyResult).

Fixpoint run_try_clear_queued_account_plan (s : S) a (index : nat) (queued : list SeqProxy)
    : outcome (S * TxQAccount * TryClearQueuedBatchProgress) :=
  match queued with
  | [] => mret (s, a, ContinueToCurrentTx)
  | seq_proxy :: rest =>
      core ← expect (qa_transactions a !! seq_proxy);
      let '(s', t', r) := apply_queued s (core_payload core) in
      let a' := with_transactions a
                  (<[seq_proxy := mkCore (record_apply_attempt_result t' r) (core_consequences core)]>
                     (qa_transactions a)) in
      if ar_ter r =? TEF_NO_TICKET then run_try_clear_queued_account_plan s' a' (index + 1) rest
      else if negb (ar_applied r) then mret (s', a', BatchFallBackToNormal index r)
      else run_try_clear_queued_account_plan s' a' (index + 1) rest
  end.

Definition cleanup_after_try_clear_success a (begin target : SeqProxy)
    : outcome (TxQAccount * TryClearSuccessCleanup) :=
  '(a1, range_cleanup) ← erase_account_range a begin (Some target);
  if bool_decide (er_next_seq_proxy range_cleanup = Some target) then
    let '(a2, removed) := account_remove a1 target in
    if negb removed then Panic
    else mret (a2, mkCleanup (er_removed_seq_proxies range_cleanup ++ [target]) true
                     (fst <$> head (range_from target (qa_transactions a2))))
  else mret (a1, mkCleanup (er_removed_seq_proxies range_cleanup) false
                   (er_next_seq_proxy range_cleanup)).

Definition finalize_try_clear_result a (begin target : SeqProxy) (current_result : ApplyResult)
    : outcome (TxQAccount * TryClearFinalization) :=
  if ar_applied current_result then
    '(a', cleanup) ← cleanup_after_try_clear_success a begin target;
    mret (a', mkFinalization current_result (Some cleanup))
  else mret (a, mkFinalization current_result None).

Variable run_current_apply : S -> S * ApplyResult.

Definition run_try_clear_current_tx_after_batch (s : S) a (begin target : SeqProxy)
    (progress : TryClearQueuedBatchProgress) : outcome (S * TxQAccount * TryClearExecution) :=
  match progress with
  | ContinueToCurrentTx =>
      let '(s', r) := run_current_apply s in
      '(a', f) ← finalize_try_clear_result a begin target r;
      mret (s', a', ExCurrentTx f)
  | BatchFallBackToNormal failed_index result => mret (s, a, ExFallBackToNormal failed_index result)
  end.

Definition run_try_clear_account_queue_up_thru_tx (s : S) a (begin target : SeqProxy)
    (fee_level_paid : Z) (required_total_fee_level : nat -> option Z)
    : outcome (S * TxQAccount * TryClearAccountResult) :=
  gate ← evaluate_try_clear_account_fee_gate a begin target fee_level_paid required_total_fee_level;
  match gate with
  | GateRequiredFeeOverflow plan => mret (s, a, ResRequiredFeeOverflow plan)
  | GateInsufficientFee plan required => mret (s, a, ResInsufficientFee plan required)
  | GateClearQueue plan required =>
      '(s1, a1, progress) ← run_try_clear_queued_account_plan s a 0 (tp_queued_seq_proxies plan);
      '(s2, a2, execution) ← run_try_clear_current_tx_after_batch s1 a1 begin target progress;
      mret (s2, a2, ResClearQueue plan required execution)
  end.
End Run.

(** The sequences queued in [begin ≤ s < target]. *)
Definition queued_before a (begin target : SeqProxy) : list SeqProxy :=
  fst <$> take_while (fun e : SeqProxy * MaybeTxCore => ord_ltb e.1 target)
            (range_from begin (qa_transactions a)).

Lemma elem_of_queued_before a begin target q :
  q ∈ queued_before a begin target
  <-> is_Some (qa_transactions a !! q) /\ ord_leb begin q = true /\ ord_ltb q target = true.
Proof.
  unfold queued_before. rewrite list_elem_of_fmap. split.
  - intros [[k c] [-> Hin]]. apply elem_of_take_while in Hin as [Hin Ht].
    apply elem_of_range_from in Hin as [Hl Hb]. eauto.
  - intros ([c Hc] & Hb & Ht). exists (q, c). split; [done|].
    apply elem_of_take_while_sorted; [apply range_from_sorted| |].
    + intros x y Hxy Hy. exact (ord_trans _ _ _ Hxy Hy).
    + split; [|done]. apply elem_of_range_from. done.
Qed.

Lemma queued_before_NoDup a begin target : NoDup (queued_before a begin target).
Proof.
  unfold queued_before. generalize (range_from_sorted begin (qa_transactions a)).
  generalize (range_from begin (qa_transactions a)). intros l S.
  induction S as [|e l S IH He]; simpl; [constructor|].
  destruct (ord_ltb e.1 target); simpl; constructor; [|done].
  intros ([k c] & Ek & Hin%elem_of_take_while)%list_elem_of_fmap.
  rewrite Forall_forall in He. specialize (He _ (proj1 Hin)). simpl in *. rewrite Ek in He.
  by rewrite ord_irrefl in He.
Qed.

Lemma foldM_remove a (l : list SeqProxy) :
  NoDup l -> (forall q, q ∈ l -> is_Some (qa_transactions a !! q)) ->
  exists a', foldM (fun a s => let '(a', found) := account_remove a s in
                               if found then Ok a' else Panic) a l = Ok a'
    /\ qa_account a' = qa_account a
    /\ forall q, qa_transactions a' !! q = if decide (q ∈ l) then None else qa_transactions a !! q.
Proof.
  intros Hd. revert a. induction Hd as [|x l Hx Hd IH]; intros a Hl; simpl.
  { exists a. by split_and!. }
  rewrite bool_decide_eq_true_2 by (apply Hl; left). simpl.
  destruct (IH (with_transactions a (delete x (qa_transactions a)))) as (a' & E & En & Hq).
  { intros q Hin. simpl. rewrite lookup_delete_ne by (intros ->; done). apply Hl. by right. }
  exists a'. split_and!; [done..|]. intros q. rewrite Hq. simpl.
  destruct (decide (q = x)) as [->|Hne].
  - rewrite lookup_delete_eq. repeat case_decide; set_solver.
  - rewrite lookup_delete_ne by done. repeat case_decide; set_solver.
Qed.

(** The account without the sequences from [begin] to [target]. *)
Definition cleared a (begin target : SeqProxy) a' : Prop :=
  qa_account a' = qa_account a
  /\ forall q, qa_transactions a' !! q
       = if ord_leb begin q && ord_leb q target then None else qa_transactions a !! q.

Lemma erase_range_ok a begin target :
  exists a' r, erase_account_range a begin (Some target) = Ok (a', r)
    /\ qa_account a' = qa_account a
    /\ (forall q, qa_transactions a' !! q
          = if ord_leb begin q && ord_ltb q target then None else qa_transactions a !! q)
    /\ er_next_seq_proxy r = fst <$> head (range_from begin (qa_transactions a')).
Proof.
  unfold erase_account_range. fold (queued_before a begin target).
  destruct (foldM_remove a (queued_before a begin target)) as (a' & E & En & Hq).
  { apply queued_before_NoDup. }
  { intros q Hq%elem_of_queued_before. apply Hq. }
  rewrite E. simpl. eexists _, _. split; [reflexivity|]. split_and!; [done| |done].
  intros q. rewrite Hq. case_decide as Hd.
  - apply elem_of_queued_before in Hd as (_ & -> & ->). done.
  - destruct (ord_leb begin q) eqn:Eb, (ord_ltb q target) eqn:Et; try done. simpl.
    destruct (qa_transactions a !! q) eqn:Eq; [|done]. destruct Hd.
    apply elem_of_queued_before. eauto.
Qed.

Lemma head_range_target a begin target :
  (forall q, ord_leb begin q && ord_ltb q target = true -> qa_transactions a !! q = None) ->
  fst <$> head (range_from begin (qa_transactions a)) = Some target
  <-> ord_leb begin target = true /\ is_Some (qa_transactions a !! target).
Proof.
  intros Hgap. pose proof (range_from_sorted begin (qa_transactions a)) as S. split.
  - destruct (head _) as [[k c]|] eqn:E; [|done]. intros [= ->].
    destruct (key_sorted_head _ _ S E) as [Hin _]. apply elem_of_range_from in Hin. naive_solver.
  - intros [Hb [c Hc]].
    assert ((target, c) ∈ range_from begin (qa_transactions a)) as Hin by by apply elem_of_range_from.
    destruct (head _) as [[k c']|] eqn:E.
    2: { destruct (range_from _ _); [by apply elem_of_nil in Hin | done]. }
    destruct (key_sorted_head _ _ S E) as [Hk Hmin]. specialize (Hmin _ Hin). simpl in *.
    apply elem_of_range_from in Hk as [Hk Hkb].
    apply ord_leb_cases in Hmin as [->|Hlt]; [done|].
    rewrite Hgap in Hk; [done|]. by rewrite Hkb, Hlt.
Qed.

Lemma ord_leb_ne (q t : SeqProxy) : q <> t -> ord_leb q t = ord_ltb q t.
Proof.
  intros Hne. destruct (ord_ltb q t) eqn:E; [apply ord_leb_cases; by right|].
  destruct (ord_leb q t) eqn:El; [|done]. apply ord_leb_cases in El as [?|?]; congruence.
Qed.

Lemma cleanup_ok a begin target :
  exists a' c, cleanup_after_try_clear_success a begin target = Ok (a', c) /\ cleared a begin target a'.
Proof.
  unfold cleanup_after_try_clear_success.
  destruct (erase_range_ok a begin target) as (a1 & r & -> & En & Hq & Hnext). simpl. rewrite Hnext.
  assert (forall q, ord_leb begin q && ord_ltb q target = true -> qa_transactions a1 !! q = None) as Hgap.
  { intros q Hr. by rewrite Hq, Hr. }
  pose proof (head_range_target a1 begin target Hgap) as Hh.
  assert (ord_leb target target = true) as Hrefl by (apply ord_leb_cases; by left).
  case_bool_decide as Hd.
  - apply Hh in Hd as [Hb Hc]. rewrite bool_decide_eq_true_2 by done. simpl.
    eexists _, _. split; [reflexivity|]. split; [done|]. intros q. simpl.
    destruct (decide (q = target)) as [->|Hne]; [by rewrite lookup_delete_eq, Hb, Hrefl|].
    by rewrite lookup_delete_ne, Hq, (ord_leb_ne q target).
  - eexists _, _. split; [reflexivity|]. split; [done|]. intros q.
    destruct (decide (q = target)) as [->|Hne]; [|by rewrite Hq, (ord_leb_ne q target)].
    rewrite Hrefl, andb_true_r. destruct (ord_leb begin target) eqn:Hb; [|by rewrite Hq, Hb].
    apply eq_None_not_Some. intros Hc. by apply Hd, Hh.
Qed.

(** The queued transactions the plan tries, in sequence order. *)
Definition queued_entries a (begin target : SeqProxy) : list (SeqProxy * MaybeTxCore) :=
  take_while (fun e : SeqProxy * MaybeTxCore => ord_ltb e.1 target)
    (range_from begin (qa_transactions a)).

Definition entries_of a (l : list (SeqProxy * MaybeTxCore)) : Prop :=
  Forall (fun e => qa_transactions a !! e.1 = Some e.2) l.

Lemma queued_entries_of a begin target : entries_of a (queued_entries a begin target).
Proof.
  apply Forall_forall. intros [k c] [Hin _]%elem_of_take_while.
  by apply elem_of_range_from in Hin as [Hl _].
Qed.

Definition levels (l : list (SeqProxy * MaybeTxCore)) : list Z :=
  (fun e => mt_fee_level (core_payload e.2)) <$> l.

Definition paid_level (fee_level_paid : Z) (l : list (SeqProxy * MaybeTxCore)) : Z :=
  Z.min u64_max (fee_level_paid + foldr Z.add 0 (levels l)).

Lemma foldM_levels a (l : list (SeqProxy * MaybeTxCore)) total :
  entries_of a l -> Forall in_u64 (levels l) -> in_u64 total ->
  foldM (fun total s =>
           queued ← expect (qa_transactions a !! s);
           mret (sat_u64 (total + mt_fee_level (core_payload queued)))) total l.*1
  = Ok (paid_level total l).
Proof.
  unfold paid_level. intros He. revert total.
  induction He as [|[k c] l E He IH]; simpl; intros total Hl Ht.
  - f_equal. machine.
  - simpl in E. rewrite E. simpl. inversion Hl as [|? ? Hc Hl']; subst. simpl in *.
    assert (0 <= foldr Z.add 0 (levels l)).
    { clear -Hl'. induction Hl' as [|y l' Hy _ IHl]; simpl; [done|]. unfold in_u64 in Hy. lia. }
    rewrite IH; [|done|machine]. f_equal. machine.
Qed.

(** The account with the same transactions, up to retry bookkeeping. *)
Definition same_queue a a' : Prop :=
  qa_account a' = qa_account a
  /\ forall q, option_Forall2 core_sim (qa_transactions a !! q) (qa_transactions a' !! q).

(** Applying transactions in order until one is not applied, a missing ticket apart. *)
Fixpoint apply_in_order {S} (apply : S -> MaybeTx -> S * MaybeTx * ApplyResult) (s : S)
    (txs : list MaybeTx) : S * option ApplyResult :=
  match txs with
  | [] => (s, None)
  | t :: rest =>
      let '(s', _, r) := apply s t in
      if (ar_ter r =? TEF_NO_TICKET) || ar_applied r then apply_in_order apply s' rest
      else (s', Some r)
  end.

Definition progress_result (p : TryClearQueuedBatchProgress) : option ApplyResult :=
  match p with ContinueToCurrentTx => None | BatchFallBackToNormal _ r => Some r end.

Lemma run_plan_ok {S} (apply : S -> MaybeTx -> S * MaybeTx * ApplyResult) s a i
    (l : list (SeqProxy * MaybeTxCore)) :
  apply_frame apply -> entries_of a l -> NoDup l.*1 ->
  exists a' p,
    run_try_clear_queued_account_plan apply s a i l.*1
    = Ok ((apply_in_order apply s (core_payload <$> l.*2)).1, a', p)
    /\ progress_result p = (apply_in_order apply s (core_payload <$> l.*2)).2
    /\ same_queue a a' /\ (forall q, q ∉ l.*1 -> qa_transactions a' !! q = qa_transactions a !! q).
Proof.
  intros Hf. revert s a i. induction l as [|[k c] l IH]; intros s a i He Hd; simpl.
  { eexists _, _. split; [reflexivity|]. split_and!; [done| |done]. split; [done|]. intros q. reflexivity. }
  apply Forall_cons in He as [E He]. apply NoDup_cons in Hd as [Hk Hd]. simpl in *. rewrite E. simpl.
  destruct (apply s (core_payload c)) as [[s' t'] r] eqn:Ea.
  set (a1 := with_transactions a _).
  assert (same_queue a a1) as Hsame.
  { split; [done|]. intros q. simpl. destruct (decide (q = k)) as [->|Hne].
    - rewrite lookup_insert_eq, E. constructor. split; [exact (Hf _ _ _ _ _ Ea)|done].
    - rewrite lookup_insert_ne by done. reflexivity. }
  assert (forall q, q ≠ k -> qa_transactions a1 !! q = qa_transactions a !! q) as Hother.
  { intros q Hne. simpl. by rewrite lookup_insert_ne. }
  destruct (IH s' a1 (i + 1)%nat) as (a2 & p & Ep & Hp & [Hn Hs2] & Ho2); [|done|].
  { apply Forall_forall. intros [q c'] Hin. simpl. rewrite Forall_forall in He.
    rewrite Hother; [apply (He _ Hin)|]. intros ->. destruct Hk. apply list_elem_of_fmap. by exists (k, c'). }
  destruct (ar_ter r =? TEF_NO_TICKET), (ar_applied r); simpl;
    (eexists _, _; split; [first [exact Ep | reflexivity]|]; split; [first [exact Hp | reflexivity]|]).
  all: first [ split; [exact Hsame|]; intros q Hq; apply Hother; set_solver
             | split; [split; [by rewrite Hn|]; intros q; etrans; [apply Hsame|apply Hs2]|];
               intros q Hq; rewrite Ho2; [apply Hother|]; set_solver ].
Qed.

Lemma cleared_same_queue a a1 begin target a' :
  (forall q, q ∉ queued_before a begin target -> qa_transactions a1 !! q = qa_transactions a !! q) ->
  qa_account a1 = qa_account a -> cleared a1 begin target a' -> cleared a begin target a'.
Proof.
  intros Ho Hn [En Hq]. split; [congruence|]. intros q. rewrite Hq.
  destruct (ord_leb begin q && ord_leb q target) eqn:Er; [done|]. apply Ho.
  intros (_ & Hb & Ht)%elem_of_queued_before. rewrite Hb in Er. simpl in Er.
  by rewrite (proj2 (ord_leb_cases q target)) in Er by auto.
Qed.

Section Spec.
Context {S : Type} (apply_queued : S -> MaybeTx -> S * MaybeTx * ApplyResult)
  (run_current_apply : S -> S * ApplyResult) (required_total_fee_level : nat -> option Z).

(** What clearing an account comes to: the transactions queued from [begin] up to but
    not including [target] are tried in sequence order when they and the new one pay
    the required total; the account loses what lies between [begin] and [target]
    exactly when the new transaction is applied. *)
Definition try_clear_contract (s : S) a begin target (fee_level_paid : Z)
    (s' : S) a' (r : ApplyResult) : Prop :=
  let l := queued_entries a begin target in
  let unpaid := s' = s /\ a' = a /\ r = mkApplyResult TEL_INSUF_FEE_P false false in
  match required_total_fee_level (length l + 1)%nat with
  | None => unpaid
  | Some required =>
      if paid_level fee_level_paid l <? required then unpaid
      else
        match apply_in_order apply_queued s (core_payload <$> l.*2) with
        | (s1, Some failed) => s' = s1 /\ r = failed /\ same_queue a a'
        | (s1, None) =>
            (s', r) = run_current_apply s1
            /\ if ar_applied r then cleared a begin target a' else same_queue a a'
        end
  end.

(** C31: Clearing an account's queue ahead of a new transaction never panics when the
    first sequence is queued. The queued transactions below the new one are applied
    in sequence order, stopping at the first that fails for another reason than a
    missing ticket, and only when the saturating sum of the fee levels meets the
    required total; then the new one is applied, and when it is, exactly the queued
    sequences from the first to the new one are removed. In every other case the
    account keeps its transactions, up to the retry count and last result of those
    that were tried. *)
Theorem try_clear_spec s a begin target fee_level_paid :
  apply_frame apply_queued -> is_Some (qa_transactions a !! begin) -> in_u64 fee_level_paid ->
  map_Forall (fun _ c => in_u64 (mt_fee_level (core_payload c))) (qa_transactions a) ->
  exists s' a' r,
    run_try_clear_account_queue_up_thru_tx apply_queued run_current_apply s a begin target
      fee_level_paid required_total_fee_level = Ok (s', a', r)
    /\ try_clear_contract s a begin target fee_level_paid s' a' (try_clear_result r).
Proof.
  intros Hf [c0 Hb] Hfee Hl. unfold run_try_clear_account_queue_up_thru_tx, try_clear_contract.
  unfold evaluate_try_clear_account_fee_gate. rewrite Hb.
  fold (queued_entries a begin target).
  pose proof (queued_entries_of a begin target) as He. set (l := queued_entries a begin target) in *.
  rewrite (foldM_levels a l _ He); [|apply Forall_fmap|done].
  2: { eapply Forall_impl; [exact He|]. intros [k c] E. exact (Hl k c E). }
  simpl. rewrite length_fmap.
  destruct (required_total_fee_level _) as [required|]; simpl; [|by eexists _, _, _].
  destruct (_ <? _); simpl; [by eexists _, _, _|].
  destruct (run_plan_ok apply_queued s a 0 l Hf He (queued_before_NoDup a begin target))
    as (a1 & p & -> & Hp & Hsame & Ho). simpl.
  destruct (apply_in_order _ _ _) as [s1 failed]. simpl in *. subst failed.
  destruct p as [|i r]; simpl; [|by eexists _, _, _].
  destruct (run_current_apply s1) as [s2 r]. unfold finalize_try_clear_result.
  destruct (ar_applied r) eqn:Er; simpl.
  - destruct (cleanup_ok a1 begin target) as (a2 & c & -> & Hc). simpl.
    eexists _, _, _. split; [reflexivity|]. simpl. rewrite Er. split; [done|].
    apply (cleared_same_queue a a1); [exact Ho|apply Hsame|done].
  - eexists _, _, _. split; [reflexivity|]. simpl. rewrite Er. by split.
Qed.
End Spec.
End TryClear.

Module TryClearDemo.
Import AcceptDemo.

(** Account 1 has queued sequences 5, 6 and 8 and sends one with sequence 7. *)
Definition account : TxQAccount :=
  mkTxQAccount 1 (<[sequence 5 := core 11 300 1 (sequence 5)]>
    (<[sequence 6 := core 12 900 1 (sequence 6)]>
      (<[sequence 8 := core 13 500 1 (sequence 8)]> ∅))) false false.

Definition apply_queued (s : list Z) (t : MaybeTx) : list Z * MaybeTx * ApplyResult :=
  (s ++ [mt_tx_id t], t, mkApplyResult TES_SUCCESS true false).

Definition run_current (s : list Z) : list Z * ApplyResult :=
  (s ++ [99], mkApplyResult TES_SUCCESS true false).

Definition after (required : Z) : outcome (list Z * list SeqProxy) :=
  '(s, a, _) ← run_try_clear_account_queue_up_thru_tx apply_queued run_current [] account
                 (sequence 5) (sequence 7) 1000 (fun n => Some (required * Z.of_nat n));
  Ok (s, fst <$> btree_iter (qa_transactions a)).

(** With 2,200 paid in all, a level of 700 for each of the three clears the queue up
    to sequence 7 and a level of 800 does not. *)
Example clears : after 700 = Ok ([11; 12; 99], [sequence 8]).
Proof. vm_compute. reflexivity. Qed.

Example does_not_clear : after 800 = Ok ([], [sequence 5; sequence 6; sequence 8]).
Proof. vm_compute. reflexivity. Qed.

Lemma try_clear_spec_witness :
  exists s' a' r,
    run_try_clear_account_queue_up_thru_tx apply_queued run_current [] account
      (sequence 5) (sequence 7) 1000 (fun n => Some (700 * Z.of_nat n)) = Ok (s', a', r)
    /\ try_clear_contract apply_queued run_current (fun n => Some (700 * Z.of_nat n)) [] account
         (sequence 5) (sequence 7) 1000 s' a' (try_clear_result r).
Proof.
  apply try_clear_spec.
  - intros s t s' t' r [= <- <- <-]. done.
  - eexists. reflexivity.
  - vm_compute. split; discriminate.
  - repeat (apply map_Forall_insert_2; [vm_compute; split; discriminate|]). apply map_Forall_empty.
Defined.
End TryClearDemo.
