(* ===== verification/Number.v ===== *)
(** * Decimal floating-point numbers

    [xrpl/basics/src/math/number.rs]: the arithmetic that balances, pools, loans and
    fees are computed with. A number is a sign, a decimal mantissa and an exponent;
    the mantissa has 16 digits (scale [Small]) or 19 (the large scales), and in the
    large scales a mantissa beyond [i64::MAX] has a trailing zero, so that it can be
    shown as an [i64] with the next exponent. Digits that do not fit go through a
    guard of sixteen digits and a sticky bit, and the rounding mode decides from the
    guard.

    The scale and the rounding mode are thread-local cells of the source; here they are
    parameters, read once per call as in the source. Every loop that is not bounded by
    an exponent difference has explicit fuel, and running out of it is a result of its
    own. Unchecked [u128] and [i32] arithmetic wraps. *)

From S2P Require Import Prelude.

(** ** Results *)

Inductive result (E A : Type) : Type :=
| ROk (a : A)
| RErr (e : E)
| RFuel.
Arguments ROk {E A} _.
Arguments RErr {E A} _.
Arguments RFuel {E A}.

#[global] Instance result_ret E : MRet (result E) := fun A a => ROk a.
#[global] Instance result_bind E : MBind (result E) := fun A B f m =>
  match m with
  | ROk a => f a
  | RErr e => RErr e
  | RFuel => RFuel
  end.

(** [Result::map_err] *)
Definition map_err {E F A} (f : E -> F) (r : result E A) : result F A :=
  match r with ROk a => ROk a | RErr e => RErr (f e) | RFuel => RFuel end.

(** [?] in a function that may also panic. *)
Definition try_bind {E A B} (m : outcome (result E A)) (f : A -> outcome (result E B))
    : outcome (result E B) :=
  r ← m; match r with ROk a => f a | RErr e => Ok (RErr e) | RFuel => Ok RFuel end.

(** [throw_overflow] on an error, as the operators do. *)
Definition or_throw {E A} (r : result E A) : outcome A :=
  match r with ROk a => Ok a | RErr _ => Panic | RFuel => OutOfFuel end.

Inductive NumberShiftExponentError := ShiftOverflow.
Inductive NumberNormalizeError := ExponentOverflow | RequiresRounding.
Inductive NumberArithmeticError := ArOverflow | ArDivideByZero.

Definition u128_modulus : Z := 340282366920938463463374607431768211456.
Definition wrap_u128 (z : Z) : Z := z mod u128_modulus.

(** [checked_add], [checked_mul] and so on, with the error of [ok_or]. *)
Definition checked_u128 {E} (e : E) (z : Z) : result E Z :=
  if (0 <=? z) && (z <? u128_modulus) then ROk z else RErr e.
Definition checked_i32 {E} (e : E) (z : Z) : result E Z :=
  if (i32_min <=? z) && (z <=? i32_max) then ROk z else RErr e.
Definition checked_i64 {E} (e : E) (z : Z) : result E Z :=
  if (-9223372036854775808 <=? z) && (z <=? 9223372036854775807) then ROk z else RErr e.
Definition u64_try {E} (e : E) (z : Z) : result E Z :=
  if (0 <=? z) && (z <=? u64_max) then ROk z else RErr e.

(** ** Scales and rounding modes *)

Definition NUMBER_MIN_EXPONENT : Z := -32768.
Definition NUMBER_MAX_EXPONENT : Z := 32768.
Definition NUMBER_MAX_REP : Z := 9223372036854775807.
Definition NUMBER_MAX_REP_UP : Z := NUMBER_MAX_REP + 3.
Definition NUMBER_ZERO_EXPONENT : Z := i32_min.
Definition MANTISSA_SMALL_MIN : Z := 1000000000000000.
Definition MANTISSA_SMALL_MAX : Z := 9999999999999999.
Definition MANTISSA_LARGE_MIN : Z := 1000000000000000000.
Definition MANTISSA_LARGE_MAX : Z := 9999999999999999999.

Fixpoint log_ten_loop (fuel : nat) (value log : Z) : option Z :=
  match fuel with
  | O => None
  | S fuel' =>
      if 10 <=? value then
        if negb (value mod 10 =? 0) then None else log_ten_loop fuel' (value / 10) (log + 1)
      else if value =? 1 then Some log else None
  end.

Definition log_ten (value : Z) : option Z := log_ten_loop 21 value 0.
Definition is_power_of_ten (value : Z) : bool :=
  match log_ten value with Some _ => true | None => false end.

Inductive MantissaScale := Small | LargeLegacy | Large320 | Large330.

#[global] Instance MantissaScale_eq_dec : EqDecision MantissaScale.
Proof. solve_decision. Defined.

Definition Large : MantissaScale := Large330.

Inductive RoundingMode := ToNearest | TowardsZero | Downward | Upward.

Definition mantissa_range_min (scale : MantissaScale) : Z :=
  match scale with Small => MANTISSA_SMALL_MIN | _ => MANTISSA_LARGE_MIN end.
Definition mantissa_range_max (scale : MantissaScale) : Z :=
  match scale with Small => MANTISSA_SMALL_MAX | _ => MANTISSA_LARGE_MAX end.
Definition mantissa_range_log (scale : MantissaScale) : Z :=
  match scale with Small => 15 | _ => 18 end.

Record MantissaRange := mkMantissaRange {
  mr_min : Z; mr_max : Z; mr_log : Z; mr_scale : MantissaScale
}.

Definition mantissa_range_new (scale : MantissaScale) : MantissaRange :=
  mkMantissaRange (mantissa_range_min scale) (mantissa_range_max scale)
    (mantissa_range_log scale) scale.

Definition signed_external_mantissa_bounds (scale : MantissaScale) : Z * Z :=
  match scale with
  | Small => (- MANTISSA_SMALL_MAX, MANTISSA_SMALL_MAX)
  | _ => (- NUMBER_MAX_REP, NUMBER_MAX_REP)
  end.

Definition external_mantissa_in_range (scale : MantissaScale) (value : Z) : bool :=
  let '(lo, hi) := signed_external_mantissa_bounds scale in (lo <=? value) && (value <=? hi).

Definition cusp_rounding_320_enabled (scale : MantissaScale) : bool :=
  match scale with Large320 | Large330 => true | _ => false end.
Definition cusp_rounding_330_enabled (scale : MantissaScale) : bool :=
  match scale with Large330 => true | _ => false end.

Definition rep_limit (scale : MantissaScale) : Z :=
  if cusp_rounding_330_enabled scale then NUMBER_MAX_REP_UP else NUMBER_MAX_REP.

(** ** Numbers *)

Record NumberParts := mkNumber {
  np_negative : bool;
  np_mantissa : Z;
  np_exponent : Z
}.

#[global] Instance NumberParts_eq_dec : EqDecision NumberParts.
Proof. solve_decision. Defined.

Definition number_zero : NumberParts := mkNumber false 0 NUMBER_ZERO_EXPONENT.
Definition number_min (scale : MantissaScale) : NumberParts :=
  mkNumber false (mantissa_range_min scale) NUMBER_MIN_EXPONENT.
Definition number_max (scale : MantissaScale) : NumberParts :=
  let m := mantissa_range_max scale in
  mkNumber false (if NUMBER_MAX_REP <? m then NUMBER_MAX_REP else m) NUMBER_MAX_EXPONENT.
Definition number_lowest (scale : MantissaScale) : NumberParts :=
  let m := mantissa_range_max scale in
  mkNumber true (if NUMBER_MAX_REP <? m then NUMBER_MAX_REP else m) NUMBER_MAX_EXPONENT.
Definition number_one (scale : MantissaScale) : NumberParts :=
  match scale with
  | Small => mkNumber false MANTISSA_SMALL_MIN (- mantissa_range_log Small)
  | _ => mkNumber false MANTISSA_LARGE_MIN (- mantissa_range_log Large)
  end.

Definition is_normalized (x : NumberParts) (scale : MantissaScale) : bool :=
  if np_mantissa x =? 0 then negb (np_negative x) && (np_exponent x =? NUMBER_ZERO_EXPONENT)
  else (mantissa_range_min scale <=? np_mantissa x) && (np_mantissa x <=? mantissa_range_max scale)
       && ((np_mantissa x <=? NUMBER_MAX_REP) || (np_mantissa x mod 10 =? 0))
       && (NUMBER_MIN_EXPONENT <=? np_exponent x) && (np_exponent x <=? NUMBER_MAX_EXPONENT).

Definition number_neg (x : NumberParts) : NumberParts :=
  if np_mantissa x =? 0 then number_zero
  else mkNumber (negb (np_negative x)) (np_mantissa x) (np_exponent x).

Definition number_signum (x : NumberParts) : Z :=
  if np_negative x then -1 else if np_mantissa x =? 0 then 0 else 1.

Definition number_compare (x y : NumberParts) : comparison :=
  if negb (Bool.eqb (np_negative x) (np_negative y)) then if np_negative x then Lt else Gt
  else if np_mantissa x =? 0 then if 0 <? np_mantissa y then Lt else Eq
  else if np_mantissa y =? 0 then Gt
  else if negb (np_exponent x =? np_exponent y) then
    if np_exponent y <? np_exponent x
    then if np_negative x then Lt else Gt
    else if np_negative x then Gt else Lt
  else if np_negative x then np_mantissa y ?= np_mantissa x
  else np_mantissa x ?= np_mantissa y.

Definition number_ltb (x y : NumberParts) : bool :=
  match number_compare x y with Lt => true | _ => false end.

(** ** The guard *)

Record ArithmeticGuard := mkGuard { ag_digits : Z; ag_has_extra : bool; ag_negative : bool }.

Definition guard_default : ArithmeticGuard := mkGuard 0 false false.
Definition guard_set_negative (g : ArithmeticGuard) : ArithmeticGuard :=
  mkGuard (ag_digits g) (ag_has_extra g) true.
Definition guard_set_extra (g : ArithmeticGuard) : ArithmeticGuard :=
  mkGuard (ag_digits g) true (ag_negative g).

Definition guard_push (g : ArithmeticGuard) (digit : Z) : ArithmeticGuard :=
  mkGuard (Z.lor (Z.shiftr (ag_digits g) 4) (Z.shiftl (Z.land digit 15) 60))
    (ag_has_extra g || negb (Z.land (ag_digits g) 15 =? 0)) (ag_negative g).

Definition guard_pop (g : ArithmeticGuard) : Z * ArithmeticGuard :=
  (Z.shiftr (Z.land (ag_digits g) 0xF000000000000000) 60,
   mkGuard (wrap_u64 (Z.shiftl (ag_digits g) 4)) (ag_has_extra g) (ag_negative g)).

Definition guard_empty (g : ArithmeticGuard) : bool :=
  (ag_digits g =? 0) && negb (ag_has_extra g).

Section Arithmetic.
Context (mode : RoundingMode) (scale : MantissaScale).
Implicit Types g : ArithmeticGuard.

Definition guard_round g : Z :=
  match mode with
  | TowardsZero => -1
  | Downward =>
      if ag_negative g && ((0 <? ag_digits g) || ag_has_extra g) then 1 else -1
  | Upward =>
      if ag_negative g then -1
      else if (0 <? ag_digits g) || ag_has_extra g then 1 else -1
  | ToNearest =>
      let half := 0x5000000000000000 in
      if half <? ag_digits g then 1
      else if ag_digits g <? half then -1
      else if ag_has_extra g then 1 else 0
  end.

Definition bring_into_range (negative : bool) (mantissa exponent min_mantissa : Z)
    : bool * Z * Z :=
  let '(mantissa, exponent) :=
    if (mantissa <? min_mantissa) && (negb (cusp_rounding_330_enabled scale) || negb (mantissa =? 0))
    then (wrap_u128 (mantissa * 10), wrap_i32 (exponent - 1)) else (mantissa, exponent) in
  if (exponent <? NUMBER_MIN_EXPONENT) || (cusp_rounding_330_enabled scale && (mantissa =? 0))
  then (false, 0, NUMBER_ZERO_EXPONENT) else (negative, mantissa, exponent).

Definition safe_to_increment (max_mantissa mantissa : Z) : bool :=
  (mantissa <? max_mantissa) && (mantissa <? NUMBER_MAX_REP).

(** Between [i64::MAX] and the next multiple of ten the representable neighbours are
    three apart. *)
Definition in_cusp (mantissa : Z) : bool :=
  (NUMBER_MAX_REP <? mantissa) && (mantissa <? NUMBER_MAX_REP_UP).

Definition cusp_adjust g (mantissa : Z) : ArithmeticGuard * Z :=
  if cusp_rounding_330_enabled scale && (NUMBER_MAX_REP <=? mantissa)
     && (mantissa <? NUMBER_MAX_REP_UP)
  then
    let mantissa :=
      if mantissa mod 10 <? 9 then
        let rounded := guard_round g in
        if (rounded =? 1) || ((rounded =? 0) && (mantissa =? NUMBER_MAX_REP + 1))
        then mantissa + 1 else mantissa
      else mantissa in
    let diff := mantissa - NUMBER_MAX_REP in
    (guard_push g (diff * 10 / (NUMBER_MAX_REP_UP - NUMBER_MAX_REP)), mantissa)
  else (g, mantissa).

Fixpoint do_round_up (fuel : nat) g (negative : bool) (mantissa exponent min_mantissa max_mantissa : Z)
    : result NumberArithmeticError (bool * Z * Z) :=
  let finish (mantissa exponent : Z) :=
    let '(n, m, e) := bring_into_range negative mantissa exponent min_mantissa in
    if NUMBER_MAX_EXPONENT <? e then RErr ArOverflow else ROk (n, m, e) in
  match fuel with
  | O => RFuel
  | S fuel' =>
      let '(g, mantissa) := cusp_adjust g mantissa in
      let rounded := guard_round g in
      if (rounded =? 1) || ((rounded =? 0) && Z.odd mantissa) then
        if cusp_rounding_320_enabled scale then
          if safe_to_increment max_mantissa mantissa then finish (mantissa + 1) exponent
          else if cusp_rounding_330_enabled scale && in_cusp mantissa
          then finish NUMBER_MAX_REP_UP exponent
          else
            let g := guard_push g (mantissa mod 10) in
            let mantissa := mantissa / 10 in
            exponent ← checked_i32 ArOverflow (exponent + 1);
            if negb (safe_to_increment max_mantissa mantissa) then RErr ArOverflow
            else do_round_up fuel' g negative mantissa exponent min_mantissa max_mantissa
        else
          mantissa ← checked_u128 ArOverflow (mantissa + 1);
          if (max_mantissa <? mantissa) || (NUMBER_MAX_REP <? mantissa) then
            exponent ← checked_i32 ArOverflow (exponent + 1);
            finish (mantissa / 10) exponent
          else finish mantissa exponent
      else if cusp_rounding_330_enabled scale && in_cusp mantissa
      then finish NUMBER_MAX_REP exponent
      else finish mantissa exponent
  end.

Definition do_round_down g (negative : bool) (mantissa exponent min_mantissa : Z) : bool * Z * Z :=
  let rounded := guard_round g in
  let '(mantissa, exponent) :=
    if cusp_rounding_330_enabled scale then
      (if negb (guard_empty g) then wrap_u128 (mantissa - 1) else mantissa, exponent)
    else if (rounded =? 1) || ((rounded =? 0) && Z.odd mantissa) then
      let mantissa := wrap_u128 (mantissa - 1) in
      if mantissa <? min_mantissa then (wrap_u128 (mantissa * 10), wrap_i32 (exponent - 1))
      else (mantissa, exponent)
    else (mantissa, exponent) in
  bring_into_range negative mantissa exponent min_mantissa.

Definition do_round_i64 g (drops : Z) : result NumberArithmeticError Z :=
  let rounded := guard_round g in
  drops ← (if (rounded =? 1) || ((rounded =? 0) && Z.odd drops)
           then if drops =? NUMBER_MAX_REP then RErr ArOverflow else ROk (drops + 1)
           else ROk drops);
  if ag_negative g then checked_i64 ArOverflow (- drops) else ROk drops.

(** ** Normalization *)

Fixpoint scale_up (fuel : nat) (mantissa exponent min_mantissa : Z)
    : result NumberArithmeticError (Z * Z) :=
  match fuel with
  | O => RFuel
  | S fuel' =>
      if (mantissa <? min_mantissa) && (NUMBER_MIN_EXPONENT <? exponent) then
        mantissa ← checked_u128 ArOverflow (mantissa * 10);
        scale_up fuel' mantissa (exponent - 1) min_mantissa
      else ROk (mantissa, exponent)
  end.

Fixpoint scale_down (fuel : nat) g (mantissa exponent max_mantissa : Z)
    : result NumberArithmeticError (ArithmeticGuard * Z * Z) :=
  match fuel with
  | O => RFuel
  | S fuel' =>
      if max_mantissa <? mantissa then
        if NUMBER_MAX_EXPONENT <=? exponent then RErr ArOverflow
        else scale_down fuel' (guard_push g (mantissa mod 10)) (mantissa / 10) (exponent + 1) max_mantissa
      else ROk (g, mantissa, exponent)
  end.

(** [normalize_arithmetic_parts_with_dropped] up to its call of
    [finish_arithmetic_result]: [None] is the early return of zero. *)
Definition normalize_steps (negative : bool) (mantissa exponent min_mantissa max_mantissa : Z)
    (dropped : bool) : result NumberArithmeticError (option (bool * Z * Z)) :=
  if mantissa =? 0 then ROk None
  else
    '(mantissa, exponent) ← scale_up 40 mantissa exponent min_mantissa;
    let g := guard_default in
    let g := if negative then guard_set_negative g else g in
    let g := if dropped then guard_set_extra g else g in
    '(g, mantissa, exponent) ← scale_down 40 g mantissa exponent max_mantissa;
    if (exponent <? NUMBER_MIN_EXPONENT) || (mantissa <? min_mantissa) then ROk None
    else
      '(g, mantissa, exponent) ←
        (if rep_limit scale <? mantissa then
           if NUMBER_MAX_EXPONENT <=? exponent then RErr ArOverflow
           else ROk (guard_push g (mantissa mod 10), mantissa / 10, exponent + 1)
         else ROk (g, mantissa, exponent));
      r ← do_round_up 3 g negative mantissa exponent min_mantissa max_mantissa;
      ROk (Some r).

(** [finish_arithmetic_result], over the normalization it falls back on. *)
Definition finish_with (renormalize : bool -> Z -> Z -> result NumberArithmeticError NumberParts)
    (negative : bool) (mantissa exponent : Z) : result NumberArithmeticError NumberParts :=
  if (mantissa =? 0) || (exponent <? NUMBER_MIN_EXPONENT) then ROk number_zero
  else if NUMBER_MAX_EXPONENT <? exponent then RErr ArOverflow
  else
    mantissa ← u64_try ArOverflow mantissa;
    let x := mkNumber (negative && negb (mantissa =? 0)) mantissa exponent in
    if is_normalized x scale then ROk x
    else renormalize (np_negative x) (np_mantissa x) (np_exponent x).

(** The two functions of the source call each other. *)
Fixpoint normalize_arithmetic_parts_with_dropped (fuel : nat) (negative : bool)
    (mantissa exponent min_mantissa max_mantissa : Z) (dropped : bool)
    : result NumberArithmeticError NumberParts :=
  match fuel with
  | O => RFuel
  | S fuel' =>
      r ← normalize_steps negative mantissa exponent min_mantissa max_mantissa dropped;
      match r with
      | None => ROk number_zero
      | Some (n, m, e) =>
          finish_with (fun n m e =>
            normalize_arithmetic_parts_with_dropped fuel' n m e (mantissa_range_min scale)
              (mantissa_range_max scale) false) n m e
      end
  end.

Definition normalize_arithmetic_parts (negative : bool) (mantissa exponent min_mantissa max_mantissa : Z)
    : result NumberArithmeticError NumberParts :=
  normalize_arithmetic_parts_with_dropped 4 negative mantissa exponent min_mantissa max_mantissa false.

Definition finish_arithmetic_result (negative : bool) (mantissa exponent : Z)
    : result NumberArithmeticError NumberParts :=
  finish_with (fun n m e => normalize_arithmetic_parts n m e (mantissa_range_min scale)
                              (mantissa_range_max scale)) negative mantissa exponent.

(** ** Addition *)

(** The three loops of [adjust]; each turn brings the exponents one closer. *)
Fixpoint shrink_zeroes (turns : nat) g (shrink_m shrink_e expand_e : Z)
    : result NumberArithmeticError (ArithmeticGuard * Z * Z) :=
  match turns with
  | O => ROk (g, shrink_m, shrink_e)
  | S turns' =>
      if (shrink_e <? expand_e) && (shrink_m mod 10 =? 0) then
        shrink_e ← checked_i32 ArOverflow (shrink_e + 1);
        shrink_zeroes turns' (guard_push g (shrink_m mod 10)) (shrink_m / 10) shrink_e expand_e
      else ROk (g, shrink_m, shrink_e)
  end.

Fixpoint expand_digits (turns : nat) (expand_m expand_e shrink_e upper_limit : Z)
    : result NumberArithmeticError (Z * Z) :=
  match turns with
  | O => ROk (expand_m, expand_e)
  | S turns' =>
      if (shrink_e <? expand_e) && (NUMBER_MIN_EXPONENT <? expand_e) && (expand_m <? upper_limit) then
        expand_m ← checked_u128 ArOverflow (expand_m * 10);
        expand_e ← checked_i32 ArOverflow (expand_e - 1);
        expand_digits turns' expand_m expand_e shrink_e upper_limit
      else ROk (expand_m, expand_e)
  end.

Fixpoint shrink_digits (turns : nat) g (shrink_m shrink_e expand_e : Z)
    : result NumberArithmeticError (ArithmeticGuard * Z * Z) :=
  match turns with
  | O => ROk (g, shrink_m, shrink_e)
  | S turns' =>
      if shrink_e <? expand_e then
        shrink_e ← checked_i32 ArOverflow (shrink_e + 1);
        shrink_digits turns' (guard_push g (shrink_m mod 10)) (shrink_m / 10) shrink_e expand_e
      else ROk (g, shrink_m, shrink_e)
  end.

Definition adjust g (upper_limit expand_m expand_e shrink_m shrink_e : Z)
    : result NumberArithmeticError (ArithmeticGuard * Z * Z * Z * Z) :=
  let gap := Z.to_nat (expand_e - shrink_e) in
  '(g, expand_m, expand_e, shrink_m, shrink_e) ←
    (if cusp_rounding_330_enabled scale then
       '(g, shrink_m, shrink_e) ← shrink_zeroes gap g shrink_m shrink_e expand_e;
       '(expand_m, expand_e) ← expand_digits gap expand_m expand_e shrink_e upper_limit;
       ROk (g, expand_m, expand_e, shrink_m, shrink_e)
     else ROk (g, expand_m, expand_e, shrink_m, shrink_e));
  '(g, shrink_m, shrink_e) ← shrink_digits gap g shrink_m shrink_e expand_e;
  ROk (g, expand_m, expand_e, shrink_m, shrink_e).

(** Digits come back from the guard after a subtraction. *)
Fixpoint recover_330 (fuel : nat) g (xm xe upper_limit : Z)
    : result NumberArithmeticError (ArithmeticGuard * Z * Z) :=
  match fuel with
  | O => RFuel
  | S fuel' =>
      if (xm <? upper_limit) && negb (guard_empty g) then
        xm ← checked_u128 ArOverflow (xm * 10);
        let '(d, g) := guard_pop g in
        let xm := Z.max 0 (xm - d) in
        xe ← checked_i32 ArOverflow (xe - 1);
        recover_330 fuel' g xm xe upper_limit
      else ROk (g, xm, xe)
  end.

Fixpoint recover_legacy (fuel : nat) g (xm xe min_mantissa limit : Z)
    : result NumberArithmeticError (ArithmeticGuard * Z * Z) :=
  match fuel with
  | O => RFuel
  | S fuel' =>
      if (xm <? min_mantissa) && (Z.min (xm * 10) (u128_modulus - 1) <=? limit) then
        let '(d, g) := guard_pop g in
        let xm := Z.max 0 (wrap_u128 (xm * 10) - d) in
        xe ← checked_i32 ArOverflow (xe - 1);
        recover_legacy fuel' g xm xe min_mantissa limit
      else ROk (g, xm, xe)
  end.

Definition try_add (x y : NumberParts) : result NumberArithmeticError NumberParts :=
  if bool_decide (y = number_zero) then ROk x
  else if bool_decide (x = number_zero) then ROk y
  else if bool_decide (x = number_neg y) then ROk number_zero
  else
    let min_mantissa := mantissa_range_min scale in
    let max_mantissa := mantissa_range_max scale in
    let '(xn, xm, xe) := (np_negative x, np_mantissa x, np_exponent x) in
    let '(yn, ym, ye) := (np_negative y, np_mantissa y, np_exponent y) in
    let upper_limit := min_mantissa * 1000 in
    '(g, xm, xe, ym, ye) ←
      (if xe <? ye then
         let g := if xn then guard_set_negative guard_default else guard_default in
         '(g, ym, ye, xm, xe) ← adjust g upper_limit ym ye xm xe;
         ROk (g, xm, xe, ym, ye)
       else if ye <? xe then
         let g := if yn then guard_set_negative guard_default else guard_default in
         adjust g upper_limit xm xe ym ye
       else
         let g := if cusp_rounding_330_enabled scale && (((xm <? ym) && xn) || ((ym <? xm) && yn))
                  then guard_set_negative guard_default else guard_default in
         ROk (g, xm, xe, ym, ye));
    '(g, xn, xm, xe) ←
      (if Bool.eqb xn yn then
         xm ← checked_u128 ArOverflow (xm + ym);
         if negb (cusp_rounding_330_enabled scale) then
           '(g, xm, xe) ←
             (if (max_mantissa <? xm) || (rep_limit scale <? xm) then
                xe ← checked_i32 ArOverflow (xe + 1);
                ROk (guard_push g (xm mod 10), xm / 10, xe)
              else ROk (g, xm, xe));
           '(xn, xm, xe) ← do_round_up 3 g xn xm xe min_mantissa max_mantissa;
           ROk (g, xn, xm, xe)
         else ROk (g, xn, xm, xe)
       else
         let '(xn, xm, xe) := if ym <? xm then (xn, xm - ym, xe) else (yn, ym - xm, ye) in
         '(g, xm, xe) ←
           (if cusp_rounding_330_enabled scale then recover_330 40 g xm xe upper_limit
            else recover_legacy 40 g xm xe min_mantissa (rep_limit scale));
         let '(xn, xm, xe) := do_round_down g xn xm xe min_mantissa in
         ROk (g, xn, xm, xe));
    normalize_arithmetic_parts_with_dropped 4 xn xm xe min_mantissa max_mantissa
      (cusp_rounding_330_enabled scale && negb (guard_empty g)).

Definition try_sub (x y : NumberParts) : result NumberArithmeticError NumberParts :=
  try_add x (number_neg y).

(** ** Multiplication and division *)

Fixpoint shrink_product (fuel : nat) g (zm ze max_mantissa : Z)
    : result NumberArithmeticError (ArithmeticGuard * Z * Z) :=
  match fuel with
  | O => RFuel
  | S fuel' =>
      if (max_mantissa <? zm) || (rep_limit scale <? zm) then
        ze ← checked_i32 ArOverflow (ze + 1);
        shrink_product fuel' (guard_push g (zm mod 10)) (zm / 10) ze max_mantissa
      else ROk (g, zm, ze)
  end.

Definition try_mul (x y : NumberParts) : result NumberArithmeticError NumberParts :=
  if bool_decide (x = number_zero) then ROk x
  else if bool_decide (y = number_zero) then ROk number_zero
  else
    let min_mantissa := mantissa_range_min scale in
    let max_mantissa := mantissa_range_max scale in
    zm ← checked_u128 ArOverflow (np_mantissa x * np_mantissa y);
    ze ← checked_i32 ArOverflow (np_exponent x + np_exponent y);
    let zn := xorb (np_negative x) (np_negative y) in
    let g := if zn then guard_set_negative guard_default else guard_default in
    '(g, zm, ze) ← shrink_product 40 g zm ze max_mantissa;
    '(zn, zm, ze) ← do_round_up 3 g zn zm ze min_mantissa max_mantissa;
    finish_arithmetic_result zn zm ze.

Definition try_div (x y : NumberParts) : result NumberArithmeticError NumberParts :=
  if bool_decide (y = number_zero) then RErr ArDivideByZero
  else if bool_decide (x = number_zero) then ROk x
  else
    numerator ← checked_u128 ArOverflow (np_mantissa x * 100000000000000000);
    let dm := np_mantissa y in
    let zm := numerator / dm in
    ze ← checked_i32 ArOverflow (np_exponent x - np_exponent y);
    ze ← checked_i32 ArOverflow (ze - 17);
    let zn := xorb (np_negative x) (np_negative y) in
    '(zm, ze, dropped) ←
      (if bool_decide (scale = Small) then ROk (zm, ze, false)
       else
         let remainder := numerator mod dm in
         if remainder =? 0 then ROk (zm, ze, false)
         else
           let partial_numerator := remainder * 100000 in
           let correction := partial_numerator / dm in
           '(zm, ze) ←
             (if negb (correction =? 0) then
                zm ← checked_u128 ArOverflow (zm * 100000);
                ze ← checked_i32 ArOverflow (ze - 5);
                zm ← checked_u128 ArOverflow (zm + correction);
                ROk (zm, ze)
              else ROk (zm, ze));
           ROk (zm, ze, cusp_rounding_320_enabled scale && negb (partial_numerator mod dm =? 0)));
    normalize_arithmetic_parts_with_dropped 4 zn zm ze (mantissa_range_min scale)
      (mantissa_range_max scale) dropped.

(** ** Integers *)

Definition external_to_internal_mantissa (m : Z) : Z := if 0 <=? m then m else - m.

Definition external_parts (x : NumberParts) : result NumberNormalizeError (Z * Z) :=
  if np_mantissa x =? 0 then ROk (0, np_exponent x)
  else
    '(m, e) ←
      (if NUMBER_MAX_REP <? np_mantissa x then
         e ← checked_i32 ExponentOverflow (np_exponent x + 1);
         ROk (np_mantissa x / 10, e)
       else ROk (np_mantissa x, np_exponent x));
    m ← checked_i64 RequiresRounding m;
    ROk (if np_negative x then - m else m, e).

Fixpoint drop_digits (turns : nat) g (drops : Z) : ArithmeticGuard * Z :=
  match turns with
  | O => (g, drops)
  | S turns' => drop_digits turns' (guard_push g (Z.rem drops 10)) (Z.quot drops 10)
  end.

Fixpoint append_zeroes (turns : nat) (drops : Z) : result NumberArithmeticError Z :=
  match turns with
  | O => ROk drops
  | S turns' =>
      if Z.quot NUMBER_MAX_REP 10 <? drops then RErr ArOverflow
      else append_zeroes turns' (drops * 10)
  end.

Definition try_to_i64 (x : NumberParts) : result NumberArithmeticError Z :=
  '(external_mantissa, offset) ← map_err (fun _ => ArOverflow) (external_parts x);
  if external_mantissa =? 0 then ROk 0
  else
    '(g, drops) ←
      (if np_negative x then
         drops ← checked_i64 ArOverflow (- external_mantissa);
         ROk (guard_set_negative guard_default, drops)
       else ROk (guard_default, external_mantissa));
    let '(g, drops) := drop_digits (Z.to_nat (- offset)) g drops in
    drops ← append_zeroes (Z.to_nat offset) drops;
    do_round_i64 g drops.

Definition from_i64_and_exponent (m e : Z) : outcome NumberParts :=
  or_throw (normalize_arithmetic_parts (m <? 0) (external_to_internal_mantissa m) e
              (mantissa_range_min scale) (mantissa_range_max scale)).

Definition from_i64 (m : Z) : outcome NumberParts := from_i64_and_exponent m 0.

(** The operators: an error is thrown. *)
Definition number_add (x y : NumberParts) : outcome NumberParts := or_throw (try_add x y).
Definition number_sub (x y : NumberParts) : outcome NumberParts := or_throw (try_sub x y).
Definition number_mul (x y : NumberParts) : outcome NumberParts := or_throw (try_mul x y).
Definition number_div (x y : NumberParts) : outcome NumberParts := or_throw (try_div x y).
Definition number_increment (x : NumberParts) : outcome NumberParts := number_add x (number_one scale).
Definition number_decrement (x : NumberParts) : outcome NumberParts := number_sub x (number_one scale).

(** ** Exact normalization *)

Fixpoint exact_up (fuel : nat) (m e min_mantissa : Z) : result NumberNormalizeError (Z * Z) :=
  match fuel with
  | O => RFuel
  | S fuel' =>
      if (m <? min_mantissa) && (NUMBER_MIN_EXPONENT <? e) then
        m ← checked_u128 RequiresRounding (m * 10);
        exact_up fuel' m (e - 1) min_mantissa
      else ROk (m, e)
  end.

Fixpoint exact_down (fuel : nat) (m e max_mantissa : Z) : result NumberNormalizeError (Z * Z) :=
  match fuel with
  | O => RFuel
  | S fuel' =>
      if max_mantissa <? m then
        if NUMBER_MAX_EXPONENT <=? e then RErr ExponentOverflow
        else if negb (m mod 10 =? 0) then RErr RequiresRounding
        else exact_down fuel' (m / 10) (e + 1) max_mantissa
      else ROk (m, e)
  end.

Definition normalize_to_range (x : NumberParts) (min_mantissa max_mantissa : Z)
    : result NumberNormalizeError NumberParts :=
  if np_mantissa x =? 0 then ROk number_zero
  else
    '(m, e) ← exact_up 40 (np_mantissa x) (np_exponent x) min_mantissa;
    '(m, e) ← exact_down 40 m e max_mantissa;
    if (e <? NUMBER_MIN_EXPONENT) || (m <? min_mantissa) then ROk number_zero
    else
      m ← u64_try RequiresRounding m;
      ROk (mkNumber (np_negative x && negb (m =? 0)) m e).

Definition try_normalize_exact (x : NumberParts) : result NumberNormalizeError NumberParts :=
  normalize_to_range x (mantissa_range_min scale) (mantissa_range_max scale).

Definition try_from_external_parts (m e : Z) : result NumberNormalizeError NumberParts :=
  let negative := m <? 0 in
  let m := external_to_internal_mantissa m in
  if m <=? NUMBER_MAX_REP then try_normalize_exact (mkNumber negative m e)
  else map_err (fun _ => ExponentOverflow)
         (normalize_arithmetic_parts negative m e (mantissa_range_min scale) (mantissa_range_max scale)).

Definition shift_exponent (x : NumberParts) (delta : Z)
    : outcome (result NumberShiftExponentError NumberParts) :=
  _ ← assert_that (is_normalized x scale);
  Ok (e ← checked_i32 ShiftOverflow (np_exponent x + delta);
      if NUMBER_MAX_EXPONENT <=? e then RErr ShiftOverflow
      else if e <? NUMBER_MIN_EXPONENT then ROk number_zero
      else ROk (mkNumber (np_negative x) (np_mantissa x) e)).

Fixpoint truncate_loop (fuel : nat) (m e : Z) : result NumberNormalizeError (Z * Z) :=
  match fuel with
  | O => RFuel
  | S fuel' =>
      if (e <? 0) && negb (m =? 0) then truncate_loop fuel' (m / 10) (e + 1) else ROk (m, e)
  end.

(** [Result::unwrap_or] *)
Definition unwrap_or (x : NumberParts) (r : result NumberNormalizeError NumberParts)
    : result NumberNormalizeError NumberParts :=
  match r with RErr _ => ROk x | _ => r end.

Definition number_truncate (x : NumberParts) : result NumberNormalizeError NumberParts :=
  if (0 <=? np_exponent x) || (np_mantissa x =? 0) then unwrap_or x (try_normalize_exact x)
  else
    '(m, e) ← truncate_loop 21 (np_mantissa x) (np_exponent x);
    let y := mkNumber (np_negative x && negb (m =? 0)) m e in
    unwrap_or y (try_normalize_exact y).

(** ** Powers and roots *)

Definition exact_number (value : Z) : result NumberArithmeticError NumberParts :=
  map_err (fun _ => ArOverflow) (try_from_external_parts value 0).

Definition abs_number (x : NumberParts) : NumberParts :=
  if number_ltb x number_zero then number_neg x else x.

Definition squelch_number (x limit : NumberParts) : NumberParts :=
  if number_ltb (abs_number x) limit then number_zero else x.

Fixpoint gcd_loop (fuel : nat) (lhs rhs : Z) : Z :=
  match fuel with
  | O => lhs
  | S fuel' => if rhs =? 0 then lhs else gcd_loop fuel' rhs (lhs mod rhs)
  end.

(** Euclid's algorithm halves the product of its arguments every other turn. *)
Definition gcd_u32 (lhs rhs : Z) : Z := gcd_loop 66 lhs rhs.

Definition euclidean_remainder_adjust (e divisor : Z) : Z :=
  let remainder := e mod divisor in if remainder =? 0 then 0 else divisor - remainder.

Fixpoint power_impl (fuel : nat) (f : NumberParts) (n : Z) : result NumberArithmeticError NumberParts :=
  match fuel with
  | O => RFuel
  | S fuel' =>
      if n =? 0 then ROk (number_one scale)
      else if n =? 1 then ROk f
      else
        r ← power_impl fuel' f (n / 2);
        r ← try_mul r r;
        if negb (n mod 2 =? 0) then try_mul r f else ROk r
  end.

(** [n] is a [u32]. *)
Definition power (f : NumberParts) (n : Z) : result NumberArithmeticError NumberParts :=
  power_impl 33 f n.

(** The Newton iteration of [root] and [root2]: it stops when a value repeats. *)
Fixpoint newton (fuel : nat) (next : NumberParts -> result NumberArithmeticError NumberParts)
    (r rm1 : NumberParts) (rm2 : option NumberParts) : result NumberArithmeticError NumberParts :=
  match fuel with
  | O => RFuel
  | S fuel' =>
      r' ← next r;
      if bool_decide (r' = rm1) || bool_decide (rm2 = Some r') then ROk r'
      else newton fuel' next r' r (Some rm1)
  end.

Definition quadratic_fit (f a2 a1 a0 denom : NumberParts) : result NumberArithmeticError NumberParts :=
  t ← try_mul a2 f; t ← try_add t a1; t ← try_mul t f; t ← try_add t a0; try_div t denom.

Definition unshift {A} (o : outcome (result NumberShiftExponentError A))
    : outcome (result NumberArithmeticError A) :=
  r ← o; Ok (map_err (fun _ => ArOverflow) r).

Definition number_of_i128 (v : Z) : result NumberArithmeticError NumberParts :=
  v ← checked_i64 ArOverflow v; exact_number v.

Definition root (fuel : nat) (f : NumberParts) (d : Z)
    : outcome (result NumberArithmeticError NumberParts) :=
  let one := number_one scale in
  if bool_decide (f = one) || (d =? 1) then Ok (ROk f)
  else if d =? 0 then
    if bool_decide (f = number_neg one) then Ok (ROk one)
    else if number_ltb (abs_number f) one then Ok (ROk number_zero)
    else Ok (RErr ArOverflow)
  else if number_ltb f number_zero && (d mod 2 =? 0) then Ok (RErr ArOverflow)
  else if bool_decide (f = number_zero) then Ok (ROk f)
  else
    try_bind (Ok (checked_i32 ArOverflow d)) (fun di =>
    let e := np_exponent f + mantissa_range_log scale + 1 in
    let e := e + euclidean_remainder_adjust e di in
    try_bind (unshift (shift_exponent f (- e))) (fun f =>
    _ ← assert_that (is_normalized f scale);
    let neg := number_ltb f number_zero in
    let f := if neg then number_neg f else f in
    try_bind (Ok (
      a0 ← number_of_i128 (3 * di * ((2 * di - 3) * di + 1));
      a1 ← number_of_i128 (24 * di * (2 * di - 1));
      a2 ← number_of_i128 (-30 * (di - 1) * di);
      denom ← number_of_i128 (((6 * di + 11) * di + 6) * di + 1);
      d_number ← exact_number d;
      d_minus_one ← exact_number (d - 1);
      r ← quadratic_fit f a2 a1 a0 denom;
      let '(f, r) := if neg then (number_neg f, number_neg r) else (f, r) in
      newton fuel (fun r =>
        a ← try_mul d_minus_one r;
        p ← power_impl 33 r (d - 1);
        q ← try_div f p;
        s ← try_add a q;
        try_div s d_number) r number_zero None)) (fun r =>
    unshift (shift_exponent r (Z.quot e di))))).

Definition root2 (fuel : nat) (f : NumberParts)
    : outcome (result NumberArithmeticError NumberParts) :=
  let one := number_one scale in
  if bool_decide (f = one) then Ok (ROk f)
  else if number_ltb f number_zero then Ok (RErr ArOverflow)
  else if bool_decide (f = number_zero) then Ok (ROk f)
  else
    let e := np_exponent f + mantissa_range_log scale + 1 in
    let e := if negb (Z.rem e 2 =? 0) then e + 1 else e in
    try_bind (unshift (shift_exponent f (- e))) (fun f =>
    _ ← assert_that (is_normalized f scale);
    try_bind (Ok (
      a0 ← exact_number 18;
      a1 ← exact_number 144;
      a2 ← exact_number (-60);
      denom ← exact_number 105;
      two ← exact_number 2;
      r ← quadratic_fit f a2 a1 a0 denom;
      newton fuel (fun r => q ← try_div f r; s ← try_add r q; try_div s two) r number_zero None)) (fun r =>
    unshift (shift_exponent r (Z.quot e 2)))).

Definition power_fraction (fuel : nat) (f : NumberParts) (n d : Z)
    : outcome (result NumberArithmeticError NumberParts) :=
  let one := number_one scale in
  if bool_decide (f = one) then Ok (ROk f)
  else
    let g := gcd_u32 n d in
    if g =? 0 then Ok (RErr ArOverflow)
    else if d =? 0 then
      if bool_decide (f = number_neg one) then Ok (ROk one)
      else if number_ltb (abs_number f) one then Ok (ROk number_zero)
      else Ok (RErr ArOverflow)
    else if n =? 0 then Ok (ROk one)
    else
      let n := n / g in
      let d := d / g in
      if negb (n mod 2 =? 0) && (d mod 2 =? 0) && number_ltb f number_zero then Ok (RErr ArOverflow)
      else try_bind (Ok (power_impl 33 f n)) (fun p => root fuel p d).
End Arithmetic.

(** ** The thread-local cells *)

Record NumberContext := mkContext { nc_scale : MantissaScale; nc_mode : RoundingMode }.

Definition set_mantissa_scale (s : MantissaScale) (c : NumberContext) : NumberContext :=
  mkContext s (nc_mode c).
Definition set_rounding_mode (m : RoundingMode) (c : NumberContext) : RoundingMode * NumberContext :=
  (nc_mode c, mkContext (nc_scale c) m).

(** A guard's constructor and its [drop]. *)
Definition round_mode_guard_new (m : RoundingMode) (c : NumberContext) : RoundingMode * NumberContext :=
  set_rounding_mode m c.
Definition round_mode_guard_drop (saved : RoundingMode) (c : NumberContext) : NumberContext :=
  (set_rounding_mode saved c).2.
Definition scale_guard_new (s : MantissaScale) (c : NumberContext) : MantissaScale * NumberContext :=
  (nc_scale c, set_mantissa_scale s c).
Definition scale_guard_drop (saved : MantissaScale) (c : NumberContext) : NumberContext :=
  set_mantissa_scale saved c.
