(* ===== verification/NumberRound.v ===== *)
(** * Decimal numbers: what the guard knows

    The digits that are shifted out of a mantissa are a remainder [r] over a
    denominator [D]; the guard keeps the first of them and whether anything follows,
    which is enough for every rounding decision. [pick] is the decision on exact
    integers, and [do_round_up] takes it at the scale [Large330]. *)

From S2P Require Import Prelude Number.

Implicit Types (g : ArithmeticGuard) (mode : RoundingMode).

(** ** The guard as a remainder *)

Definition guard_bits : Z := 2 ^ 60.

(** Something was dropped, or nothing was. *)
Definition guard_weak g (r D : Z) : Prop :=
  0 <= ag_digits g < 2 ^ 64 /\ (guard_empty g = true <-> r = 0).

(** The first digit dropped, and whether it is the last one. *)
Definition guard_at g (r D : Z) : Prop :=
  0 <= ag_digits g < 2 ^ 64 /\ ag_digits g / guard_bits = 10 * r / D
  /\ ((ag_digits g mod guard_bits = 0 /\ ag_has_extra g = false) <-> (10 * r) mod D = 0).

Lemma guard_empty_iff g :
  guard_empty g = true <-> ag_digits g = 0 /\ ag_has_extra g = false.
Proof.
  unfold guard_empty. rewrite andb_true_iff, Z.eqb_eq, negb_true_iff. done.
Qed.

Lemma div_mod_zero a b : 0 < b -> 0 <= a -> a / b = 0 /\ a mod b = 0 <-> a = 0.
Proof.
  intros Hb Ha. split; [|by intros ->].
  intros [Hd Hm]. rewrite (Z.div_mod a b) by lia. rewrite Hd, Hm. lia.
Qed.

Lemma guard_at_weak g r D : 0 < D -> 0 <= r -> guard_at g r D -> guard_weak g r D.
Proof.
  intros HD Hr (Hd & Ht & He). split; [done|].
  rewrite guard_empty_iff.
  rewrite <- (div_mod_zero (ag_digits g) guard_bits) by (unfold guard_bits; lia).
  rewrite Ht. assert (10 * r / D = 0 /\ (10 * r) mod D = 0 <-> r = 0) as Hz.
  { rewrite div_mod_zero by lia. lia. }
  tauto.
Qed.

Lemma guard_default_at r D : 0 < D -> r = 0 -> guard_at guard_default r D.
Proof.
  intros HD ->. split; [simpl; lia|]. simpl. by rewrite Z.mul_0_r, !Zdiv_0_l, !Zmod_0_l.
Qed.

Lemma push_digits d x : 0 <= x < 2 ^ 64 -> 0 <= d <= 9 ->
  Z.lor (Z.shiftr x 4) (Z.shiftl (Z.land d 15) 60) = x / 16 + d * guard_bits.
Proof.
  intros Hx Hd. change 15 with (Z.ones 4). rewrite Z.land_ones by lia.
  rewrite Z.mod_small by lia. rewrite Z.shiftl_mul_pow2, Z.shiftr_div_pow2 by lia.
  change (2 ^ 4) with 16. unfold guard_bits.
  assert (Z.land (x / 16) (d * 2 ^ 60) = 0) as Hland.
  { apply Z.bits_inj'. intros n Hn. rewrite Z.land_spec, Z.bits_0.
    destruct (Z.ltb_spec n 60).
    - rewrite Z.mul_pow2_bits_low by lia. apply andb_false_r.
    - rewrite (Z.bits_above_log2 (x / 16)); [done|apply Z.div_pos; lia|].
      destruct (Z.eq_dec (x / 16) 0) as [->|]; [simpl; lia|].
      apply Z.log2_lt_pow2; [assert (0 <= x / 16) by (apply Z.div_pos; lia); lia|].
      apply Z.lt_le_trans with (2 ^ 60); [|apply Z.pow_le_mono_r; lia].
      apply Z.div_lt_upper_bound; lia. }
  by rewrite <- Z.lxor_lor, Z.add_nocarry_lxor.
Qed.

Lemma guard_push_at g r D d :
  0 < D -> 0 <= r < D -> 0 <= d <= 9 -> guard_weak g r D ->
  guard_at (guard_push g d) (d * D + r) (10 * D).
Proof.
  intros HD Hr Hd (Hx & He). unfold guard_at, guard_push. simpl.
  set (x := ag_digits g) in *. rewrite push_digits by done.
  assert (0 <= x / 16 < guard_bits) as Hq.
  { unfold guard_bits. split; [apply Z.div_pos; lia|apply Z.div_lt_upper_bound; lia]. }
  assert (0 < guard_bits) by (unfold guard_bits; lia).
  rewrite Z.div_add, Z.mod_add by lia. rewrite (Z.div_small (x / 16)), (Z.mod_small (x / 16)) by lia.
  rewrite Z.div_mul_cancel_l, Z.mul_mod_distr_l by lia.
  rewrite (Z.add_comm (d * D)), Z.div_add, Z.mod_add, (Z.div_small r D), (Z.mod_small r D) by lia.
  split_and!; [unfold guard_bits in *; lia|unfold guard_bits in *; lia|lia|].
  change 15 with (Z.ones 4). rewrite Z.land_ones by lia. change (2 ^ 4) with 16.
  rewrite orb_false_iff, negb_false_iff, Z.eqb_eq.
  rewrite guard_empty_iff in He. fold x in He. rewrite <- (div_mod_zero x 16) in He by lia.
  destruct (Z.eq_dec r 0); split; intros; try lia; tauto.
Qed.

Lemma guard_pop_at g r D d g' :
  0 < D -> 0 <= r < D -> guard_at g r D -> guard_pop g = (d, g') ->
  d = 10 * r / D /\ guard_weak g' ((10 * r) mod D) D.
Proof.
  intros HD Hr (Hx & Ht & He) [= <- <-]. set (x := ag_digits g) in *. split.
  - rewrite <- Ht. rewrite Z.shiftr_land. change (Z.shiftr 0xF000000000000000 60) with (Z.ones 4).
    rewrite Z.land_ones, Z.shiftr_div_pow2 by lia. apply Z.mod_small. unfold guard_bits in *.
    split; [apply Z.div_pos; lia|apply Z.div_lt_upper_bound; lia].
  - unfold guard_weak. rewrite guard_empty_iff. simpl. rewrite Z.shiftl_mul_pow2 by lia.
    assert (wrap_u64 (x * 2 ^ 4) = 16 * (x mod guard_bits)) as ->.
    { unfold wrap_u64. change u64_modulus with (16 * guard_bits). rewrite (Z.mul_comm x).
      change (2 ^ 4) with 16. rewrite Z.mul_mod_distr_l; unfold guard_bits; lia. }
    pose proof (Z.mod_pos_bound x guard_bits ltac:(unfold guard_bits; lia)).
    split; [unfold guard_bits in *; lia|]. rewrite <- He.
    split; intros [? ?]; split; try done; lia.
Qed.

(** ** The rounding decision *)

Definition round_dir mode (neg : bool) (r D : Z) : Z :=
  match mode with
  | TowardsZero => -1
  | Downward => if neg && (0 <? r) then 1 else -1
  | Upward => if neg then -1 else if 0 <? r then 1 else -1
  | ToNearest => match 2 * r ?= D with Gt => 1 | Lt => -1 | Eq => 0 end
  end.

Lemma guard_nonempty g r D : 0 < D -> 0 <= r < D -> guard_weak g r D ->
  (0 <? ag_digits g) || ag_has_extra g = (0 <? r).
Proof.
  intros HD Hr (Hx & He). rewrite guard_empty_iff in He.
  destruct (Z.ltb_spec 0 (ag_digits g)), (ag_has_extra g), (Z.ltb_spec 0 r); simpl; try done;
    exfalso; destruct He as [He1 He2]; try (destruct He2; [lia|]; lia || done);
    assert (r = 0) by (apply He1; split; [lia|done]); lia.
Qed.

Lemma guard_round_nearest g r D : 0 < D -> 0 <= r < D -> guard_at g r D ->
  guard_round ToNearest g = round_dir ToNearest (ag_negative g) r D.
Proof.
  intros HD Hr (Hx & Ht & He). simpl. set (x := ag_digits g) in *.
  pose proof (Z.div_mod x guard_bits ltac:(unfold guard_bits; lia)) as Ex.
  pose proof (Z.mod_pos_bound x guard_bits ltac:(unfold guard_bits; lia)) as Bx.
  pose proof (Z.div_mod (10 * r) D ltac:(lia)) as Er.
  pose proof (Z.mod_pos_bound (10 * r) D HD) as Br.
  rewrite Ht in Ex. set (t := 10 * r / D) in *. set (s := (10 * r) mod D) in *.
  set (y := x mod guard_bits) in *. change 0x5000000000000000 with (guard_bits * 5).
  destruct (Z.compare_spec (2 * r) D) as [E|L|L].
  - assert (t = 5 /\ s = 0) as [Et Es].
    { subst t s. replace (10 * r) with (5 * D) by lia. rewrite Z.div_mul, Z.mod_mul by lia. done. }
    rewrite Et in Ex. destruct (proj2 He Es) as [Ey ->].
    rewrite !(proj2 (Z.ltb_ge _ _)) by lia. done.
  - assert (t < 5) by (apply Z.div_lt_upper_bound; lia).
    assert (x < guard_bits * 5) by (unfold guard_bits in *; lia).
    by rewrite (proj2 (Z.ltb_ge (guard_bits * 5) x)), (proj2 (Z.ltb_lt x _)) by lia.
  - assert (5 <= t) by (apply Z.div_le_lower_bound; lia).
    destruct (Z.ltb_spec (guard_bits * 5) x); [done|].
    assert (t = 5 /\ y = 0) as [Et Ey] by (unfold guard_bits in *; lia).
    assert (x = guard_bits * 5) as -> by (rewrite Et, Ey in Ex; lia).
    rewrite Z.ltb_irrefl. destruct (ag_has_extra g); [done|]. exfalso.
    rewrite Et in Er. assert (s = 0) by (apply He; done). lia.
Qed.

Lemma guard_round_at mode g r D : 0 < D -> 0 <= r < D -> guard_at g r D ->
  guard_round mode g = round_dir mode (ag_negative g) r D.
Proof.
  intros HD Hr Hg. pose proof (guard_nonempty g r D HD Hr (guard_at_weak g r D HD (proj1 Hr) Hg)) as Hn.
  destruct mode; [by apply guard_round_nearest|done| |]; simpl; by rewrite Hn.
Qed.

(** ** The representable neighbours *)

Definition rep_below (m : Z) : Z :=
  if (NUMBER_MAX_REP <=? m) && (m <? NUMBER_MAX_REP_UP) then NUMBER_MAX_REP else m.

Definition rep_above (m : Z) : Z :=
  if (NUMBER_MAX_REP <=? m) && (m <? NUMBER_MAX_REP_UP) then NUMBER_MAX_REP_UP
  else if m =? NUMBER_MAX_REP_UP then NUMBER_MAX_REP_UP + 10 else m + 1.

(** The exact magnitude [N / D], rounded to one of its neighbours. *)
Definition pick mode (neg : bool) (N D : Z) : Z :=
  let lo := rep_below (N / D) in
  let hi := rep_above (N / D) in
  if N =? lo * D then lo
  else match mode with
       | TowardsZero => lo
       | Downward => if neg then hi else lo
       | Upward => if neg then lo else hi
       | ToNearest =>
           match 2 * N ?= (lo + hi) * D with
           | Lt => lo
           | Gt => hi
           | Eq => if Z.even lo then lo else hi
           end
       end.

(** The least mantissa a shifted-down one can have. *)
Definition window_low : Z := 922337203685477581.

Definition in_window (N D : Z) : Prop := window_low <= N / D <= NUMBER_MAX_REP_UP.

(** The exponent is adjusted, or the result vanishes or overflows. *)
Definition settle {A} (ok : bool -> Z -> Z -> A) (zero : A) (neg : bool) (k e : Z)
    : result NumberArithmeticError A :=
  let '(k, e) := if k <? MANTISSA_LARGE_MIN then (k * 10, e - 1) else (k, e) in
  if e <? NUMBER_MIN_EXPONENT then ROk zero
  else if NUMBER_MAX_EXPONENT <? e then RErr ArOverflow else ROk (ok neg k e).

Definition settle_parts : bool -> Z -> Z -> result NumberArithmeticError (bool * Z * Z) :=
  settle (fun n m e => (n, m, e)) (false, 0, NUMBER_ZERO_EXPONENT).

Ltac numbers :=
  unfold window_low, MANTISSA_LARGE_MIN, MANTISSA_LARGE_MAX, NUMBER_MAX_REP_UP, NUMBER_MAX_REP,
    NUMBER_MIN_EXPONENT, NUMBER_MAX_EXPONENT, u128_modulus, i32_min, i32_max, u64_max in *.

Ltac decide_compare :=
  repeat match goal with
    | |- context [?a ?= ?b] =>
        first [ rewrite (proj2 (Z.compare_lt_iff a b)) by lia
              | rewrite (proj2 (Z.compare_gt_iff a b)) by lia
              | rewrite (proj2 (Z.compare_eq_iff a b)) by lia ]
    end.

(** Decide the integer comparisons that hypotheses settle. *)
Ltac decide_ltb :=
  repeat match goal with
    | |- context [?a <? ?b] =>
        first [ rewrite (proj2 (Z.ltb_lt a b)) by (numbers; lia)
              | rewrite (proj2 (Z.ltb_ge a b)) by (numbers; lia) ]
    | |- context [?a <=? ?b] =>
        first [ rewrite (proj2 (Z.leb_le a b)) by (numbers; lia)
              | rewrite (proj2 (Z.leb_gt a b)) by (numbers; lia) ]
    | |- context [?a =? ?b] =>
        first [ rewrite (proj2 (Z.eqb_eq a b)) by (numbers; lia)
              | rewrite (proj2 (Z.eqb_neq a b)) by (numbers; lia) ]
    end; simpl andb; simpl orb; simpl negb; cbv iota.

Definition small_exponent (e : Z) : Prop := -200000 <= e <= 200000.

Lemma checked_u128_ok {E} (err : E) z : 0 <= z < u128_modulus -> checked_u128 err z = ROk z.
Proof. intros Hz. unfold checked_u128. decide_ltb. done. Qed.

Lemma checked_i32_ok {E} (err : E) z : i32_min <= z <= i32_max -> checked_i32 err z = ROk z.
Proof. intros Hz. unfold checked_i32. decide_ltb. done. Qed.

Lemma bring_settle neg k e :
  0 < k < MANTISSA_LARGE_MAX * 10 -> small_exponent e ->
  (let '(n, m, e') := bring_into_range Large330 neg k e MANTISSA_LARGE_MIN in
   if NUMBER_MAX_EXPONENT <? e' then RErr ArOverflow else ROk (n, m, e'))
  = settle_parts neg k e.
Proof.
  intros Hk He. unfold bring_into_range, settle_parts, settle, small_exponent in *. simpl.
  rewrite (proj2 (Z.eqb_neq k 0)) by lia. simpl. rewrite andb_true_r.
  destruct (Z.ltb_spec k MANTISSA_LARGE_MIN).
  - unfold wrap_u128. rewrite Z.mod_small by (numbers; lia).
    rewrite wrap_i32_id by (unfold in_i32; numbers; lia).
    rewrite (proj2 (Z.eqb_neq (k * 10) 0)) by lia. rewrite orb_false_r.
    destruct (Z.ltb_spec (e - 1) NUMBER_MIN_EXPONENT); [|done]. done.
  - rewrite (proj2 (Z.eqb_neq k 0)) by lia. rewrite orb_false_r.
    destruct (Z.ltb_spec e NUMBER_MIN_EXPONENT); done.
Qed.

Definition rounds_up mode g (m : Z) : bool :=
  (guard_round mode g =? 1) || ((guard_round mode g =? 0) && Z.odd m).

Lemma do_round_up_step mode fuel g neg m e g' m' :
  cusp_adjust mode Large330 g m = (g', m') -> 0 < m' <= NUMBER_MAX_REP_UP -> small_exponent e ->
  do_round_up mode Large330 (S fuel) g neg m e MANTISSA_LARGE_MIN MANTISSA_LARGE_MAX
  = if rounds_up mode g' m' then
      if safe_to_increment MANTISSA_LARGE_MAX m' then settle_parts neg (m' + 1) e
      else if in_cusp m' then settle_parts neg NUMBER_MAX_REP_UP e
      else if negb (safe_to_increment MANTISSA_LARGE_MAX (m' / 10)) then RErr ArOverflow
      else do_round_up mode Large330 fuel (guard_push g' (m' mod 10)) neg (m' / 10) (e + 1)
             MANTISSA_LARGE_MIN MANTISSA_LARGE_MAX
    else if in_cusp m' then settle_parts neg NUMBER_MAX_REP e else settle_parts neg m' e.
Proof.
  intros Hc Hm He. cbn [do_round_up]. rewrite Hc. fold (rounds_up mode g' m'). simpl.
  assert (checked_i32 ArOverflow (e + 1) = ROk (e + 1)) as ->.
  { unfold checked_i32, small_exponent in *. decide_ltb. done. }
  destruct (rounds_up mode g' m'); [destruct (safe_to_increment _ m')|];
    try destruct (in_cusp m'); simpl; try done; apply bring_settle; try done; numbers; lia.
Qed.

Lemma cusp_adjust_out mode g m :
  m < NUMBER_MAX_REP \/ NUMBER_MAX_REP_UP <= m -> cusp_adjust mode Large330 g m = (g, m).
Proof.
  intros Hm. unfold cusp_adjust. simpl.
  destruct Hm; [rewrite (proj2 (Z.leb_gt _ _)) by done; done|].
  rewrite (proj2 (Z.ltb_ge _ _)) by done. by rewrite andb_false_r.
Qed.

(** Deciding on the next integer. *)
Lemma rounds_up_pick mode g m r D :
  0 < D -> 0 <= r < D -> guard_at g r D -> rep_below m = m -> rep_above m = m + 1 ->
  (if rounds_up mode g m then m + 1 else m) = pick mode (ag_negative g) (m * D + r) D.
Proof.
  intros HD Hr Hg El Eh. unfold rounds_up, pick. rewrite (guard_round_at mode g r D HD Hr Hg).
  rewrite Z.div_add_l, (Z.div_small r D), Z.add_0_r, El, Eh by lia.
  destruct (Z.eqb_spec (m * D + r) (m * D)) as [E|E].
  - assert (r = 0) as -> by lia. assert (round_dir mode (ag_negative g) 0 D = -1) as ->; [|done].
    unfold round_dir. rewrite (proj2 (Z.compare_lt_iff (2 * 0) D)) by lia.
    by destruct mode, (ag_negative g).
  - unfold round_dir. destruct mode; try done.
    + replace (2 * (m * D + r) ?= (m + (m + 1)) * D) with (2 * r ?= D).
      2: { rewrite <- (Z.add_compare_mono_l (2 * m * D) (2 * r) D). f_equal; lia. }
      destruct (2 * r ?= D); simpl; [|done..]. rewrite <- Z.negb_odd. by destruct (Z.odd m).
    + rewrite (proj2 (Z.ltb_lt 0 r)), andb_true_r by lia. by destruct (ag_negative g).
    + rewrite (proj2 (Z.ltb_lt 0 r)) by lia. by destruct (ag_negative g).
Qed.

Lemma round_up_regular mode fuel g neg m r D e :
  0 < D -> 0 <= r < D -> guard_at g r D -> ag_negative g = neg ->
  0 < m < NUMBER_MAX_REP -> small_exponent e ->
  do_round_up mode Large330 (S fuel) g neg m e MANTISSA_LARGE_MIN MANTISSA_LARGE_MAX
  = settle_parts neg (pick mode neg (m * D + r) D) e.
Proof.
  intros HD Hr Hg <- Hm He.
  rewrite (do_round_up_step mode fuel g _ m e g m) by first [apply cusp_adjust_out; numbers; lia | done | numbers; lia].
  unfold safe_to_increment, in_cusp. decide_ltb.
  rewrite <- (rounds_up_pick mode g m r D HD Hr Hg).
  - by destruct (rounds_up mode g m).
  - unfold rep_below. decide_ltb. done.
  - unfold rep_above. decide_ltb. done.
Qed.

Lemma round_up_top mode fuel g neg r D e :
  0 < D -> 0 <= r < D -> guard_at g r D -> ag_negative g = neg -> small_exponent e ->
  small_exponent (e + 1) ->
  do_round_up mode Large330 (S (S fuel)) g neg NUMBER_MAX_REP_UP e MANTISSA_LARGE_MIN MANTISSA_LARGE_MAX
  = settle_parts neg (pick mode neg (NUMBER_MAX_REP_UP * D + r) D) e.
Proof.
  intros HD Hr Hg Hn He He'.
  rewrite (do_round_up_step mode _ g _ _ e g NUMBER_MAX_REP_UP)
    by first [apply cusp_adjust_out; numbers; lia | done | numbers; lia].
  assert (guard_at (guard_push g 0) (0 * D + r) (10 * D)) as Hg'.
  { apply guard_push_at; [done|done|lia|]. apply guard_at_weak; (done || lia). }
  assert (settle_parts neg window_low (e + 1) = settle_parts neg NUMBER_MAX_REP_UP e
          /\ settle_parts neg (window_low + 1) (e + 1) = settle_parts neg (NUMBER_MAX_REP_UP + 10) e)
    as [E0 E1].
  { unfold settle_parts, settle. simpl. by rewrite Z.add_simpl_r. }
  assert ((if rounds_up mode g NUMBER_MAX_REP_UP then
             settle_parts neg (pick mode neg (window_low * (10 * D) + (0 * D + r)) (10 * D)) (e + 1)
           else settle_parts neg NUMBER_MAX_REP_UP e)
          = settle_parts neg (pick mode neg (NUMBER_MAX_REP_UP * D + r) D) e) as <-.
  { rewrite <- Hn. rewrite <- (rounds_up_pick mode (guard_push g 0) window_low _ (10 * D))
      by (done || lia || (unfold rep_below, rep_above; decide_ltb; done)).
    unfold rounds_up. rewrite (guard_round_at mode _ (0 * D + r) (10 * D) ltac:(lia) ltac:(lia) Hg').
    rewrite (guard_round_at mode g r D HD Hr Hg). simpl ag_negative. rewrite Hn.
    unfold pick. rewrite Z.div_add_l, (Z.div_small r D), Z.add_0_r by lia.
    change (rep_below NUMBER_MAX_REP_UP) with NUMBER_MAX_REP_UP.
    change (rep_above NUMBER_MAX_REP_UP) with (NUMBER_MAX_REP_UP + 10).
    change (Z.odd NUMBER_MAX_REP_UP) with false. change (Z.odd window_low) with true.
    rewrite andb_false_r, orb_false_r, andb_true_r. unfold round_dir.
    destruct (Z.eqb_spec (NUMBER_MAX_REP_UP * D + r) (NUMBER_MAX_REP_UP * D)) as [E|E].
    - assert (r = 0) as -> by lia. rewrite (proj2 (Z.compare_lt_iff (2 * 0) D)) by lia.
      by destruct mode, neg.
    - assert (0 <? r = true) as -> by (apply Z.ltb_lt; lia).
      assert (0 <? 0 * D + r = true) as -> by (apply Z.ltb_lt; lia).
      rewrite (proj2 (Z.compare_lt_iff (2 * (0 * D + r)) (10 * D))) by lia.
      rewrite (proj2 (Z.compare_lt_iff (2 * (NUMBER_MAX_REP_UP * D + r)) _)) by (numbers; lia).
      destruct mode; [|destruct neg; done..]. by destruct (2 * r ?= D). }
  unfold safe_to_increment, in_cusp. decide_ltb.
  change (NUMBER_MAX_REP_UP / 10) with window_low. change (NUMBER_MAX_REP_UP mod 10) with 0.
  destruct (rounds_up mode g NUMBER_MAX_REP_UP); [|done]. decide_ltb.
  rewrite (round_up_regular mode fuel _ neg window_low (0 * D + r) (10 * D)); (done || lia || (numbers; lia)).
Qed.

(** The three integers after [i64::MAX] lie between neighbours that are three apart. *)
Lemma cusp_adjust_in mode g i r D :
  0 < D -> 0 <= r < D -> guard_at g r D -> 0 <= i < 3 ->
  exists j d, cusp_adjust mode Large330 g (NUMBER_MAX_REP + i) = (guard_push g d, NUMBER_MAX_REP + j)
    /\ d = 3 * j
    /\ j = if (i <? 2) && ((round_dir mode (ag_negative g) r D =? 1)
                            || ((round_dir mode (ag_negative g) r D =? 0) && (i =? 1)))
           then i + 1 else i.
Proof.
  intros HD Hr Hg Hi. unfold cusp_adjust. rewrite (guard_round_at mode g r D HD Hr Hg).
  assert (round_dir mode (ag_negative g) r D = -1 \/ round_dir mode (ag_negative g) r D = 0
          \/ round_dir mode (ag_negative g) r D = 1) as Hrd.
  { unfold round_dir. destruct mode, (ag_negative g), (0 <? r), (2 * r ?= D); simpl; tauto. }
  eexists _, _. split; [|split; reflexivity].
  assert (i = 0 \/ i = 1 \/ i = 2) as [->|[->| ->]] by lia; destruct Hrd as [->|[->| ->]];
    reflexivity.
Qed.

Lemma cusp_choice mode neg i r D j m :
  0 < D -> 0 <= r < D -> 0 <= i < 3 -> m = NUMBER_MAX_REP ->
  j = (if (i <? 2) && ((round_dir mode neg r D =? 1) || ((round_dir mode neg r D =? 0) && (i =? 1)))
       then i + 1 else i) ->
  let up := (round_dir mode neg (3 * j * D + r) (10 * D) =? 1)
            || ((round_dir mode neg (3 * j * D + r) (10 * D) =? 0) && Z.odd (m + j)) in
  (up = true -> j <> 0) /\
  (if (m + i) * D + r =? m * D then m
   else match mode with
        | TowardsZero => m
        | Downward => if neg then m + 3 else m
        | Upward => if neg then m else m + 3
        | ToNearest => match 2 * ((m + i) * D + r) ?= (m + (m + 3)) * D with
                       | Lt => m
                       | Gt => m + 3
                       | Eq => if Z.even m then m else m + 3
                       end
        end) = if up then m + 3 else m.
Proof.
  intros HD Hr Hi Em Ej. assert (Z.even m = false) as Hev by (by rewrite Em).
  assert ((m + i) * D + r =? m * D = (i =? 0) && (r =? 0)) as ->.
  { destruct (Z.eqb_spec i 0) as [->|], (Z.eqb_spec r 0) as [->|]; simpl;
      first [apply Z.eqb_eq | apply Z.eqb_neq]; nia. }
  assert (2 * ((m + i) * D + r) ?= (m + (m + 3)) * D = (2 * i * D + 2 * r ?= 3 * D)) as ->.
  { rewrite <- (Z.add_compare_mono_l (2 * m * D) (2 * i * D + 2 * r)). f_equal; lia. }
  assert (i = 0 \/ i = 1 \/ i = 2) as Hi3 by lia.
  assert (r =? 0 = negb (0 <? r)) as ->.
  { destruct (Z.ltb_spec 0 r); simpl; [apply Z.eqb_neq | apply Z.eqb_eq]; lia. }
  assert (0 <? 3 * j * D + r = (0 <? j) || (0 <? r)) as Hpos.
  { destruct (Z.ltb_spec 0 r).
    - rewrite orb_true_r. apply Z.ltb_lt. destruct (_ && _) in Ej; nia.
    - rewrite orb_false_r. destruct (Z.ltb_spec 0 j); [apply Z.ltb_lt | apply Z.ltb_ge];
        destruct (_ && _) in Ej; nia. }
  destruct mode.
  - unfold round_dir in *. rewrite Hev.
    destruct (Z.compare_spec (2 * r) D) as [E|E|E]; destruct Hi3 as [->|[->| ->]]; simpl in Ej; subst j;
      decide_compare; destruct (0 <? r); done.
  - simpl. split; [done|]. by destruct ((i =? 0) && _).
  - unfold round_dir in *. rewrite Hpos. destruct neg, (0 <? r), Hi3 as [->|[->| ->]]; simpl in *; subst j; done.
  - unfold round_dir in *. rewrite Hpos. destruct neg, (0 <? r), Hi3 as [->|[->| ->]]; simpl in *; subst j; done.
Qed.

Lemma round_up_cusp mode fuel g neg i r D e :
  0 < D -> 0 <= r < D -> guard_at g r D -> ag_negative g = neg -> 0 <= i < 3 -> small_exponent e ->
  do_round_up mode Large330 (S fuel) g neg (NUMBER_MAX_REP + i) e MANTISSA_LARGE_MIN MANTISSA_LARGE_MAX
  = settle_parts neg (pick mode neg ((NUMBER_MAX_REP + i) * D + r) D) e.
Proof.
  intros HD Hr Hg Hn Hi He.
  destruct (cusp_adjust_in mode g i r D HD Hr Hg Hi) as (j & d & Hc & -> & Hj).
  assert (0 <= j < 3) as Hj3.
  { destruct (Z.ltb_spec i 2); simpl in Hj; [|lia]. destruct (_ || _) in Hj; lia. }
  rewrite (do_round_up_step mode fuel g neg _ e _ _ Hc) by (done || (numbers; lia)).
  assert (guard_at (guard_push g (3 * j)) (3 * j * D + r) (10 * D)) as Hg'.
  { apply guard_push_at; [done|done|lia|]. apply guard_at_weak; (done || lia). }
  assert (0 <= 3 * j * D + r < 10 * D) as Hb by nia.
  unfold rounds_up. rewrite (guard_round_at mode _ (3 * j * D + r) (10 * D) ltac:(lia) Hb Hg').
  simpl ag_negative. rewrite Hn in *.
  unfold pick. rewrite Z.div_add_l, (Z.div_small r D), Z.add_0_r by lia.
  assert (rep_below (NUMBER_MAX_REP + i) = NUMBER_MAX_REP
          /\ rep_above (NUMBER_MAX_REP + i) = NUMBER_MAX_REP_UP) as [-> ->].
  { unfold rep_below, rep_above. decide_ltb. done. }
  assert (safe_to_increment MANTISSA_LARGE_MAX (NUMBER_MAX_REP + j) = false) as ->.
  { unfold safe_to_increment. decide_ltb. done. }
  assert (in_cusp (NUMBER_MAX_REP + j) = (0 <? j)) as ->.
  { unfold in_cusp. destruct (Z.ltb_spec 0 j); decide_ltb; done. }
  destruct (cusp_choice mode neg i r D j NUMBER_MAX_REP HD Hr Hi eq_refl Hj) as [Hup Hpick].
  change NUMBER_MAX_REP_UP with (NUMBER_MAX_REP + 3). rewrite Hpick.
  clear Hj Hc Hpick. destruct ((round_dir mode neg (3 * j * D + r) (10 * D) =? 1) || _) eqn:E.
  - assert (j <> 0) by auto. rewrite (proj2 (Z.ltb_lt 0 j)) by lia. done.
  - destruct (Z.ltb_spec 0 j); [done|]. f_equal. lia.
Qed.

(** At [Large330], [do_round_up] returns the neighbour [pick] chooses. *)
Lemma do_round_up_pick mode fuel g neg m e N D :
  0 < D -> 0 <= N -> m = N / D -> in_window N D -> guard_at g (N mod D) D -> ag_negative g = neg ->
  small_exponent e -> small_exponent (e + 1) ->
  do_round_up mode Large330 (S (S fuel)) g neg m e MANTISSA_LARGE_MIN MANTISSA_LARGE_MAX
  = settle_parts neg (pick mode neg N D) e.
Proof.
  intros HD HN -> Hw Hg Hn He He'. pose proof (Z.mod_pos_bound N D HD) as Hr.
  rewrite (Z.div_mod N D) at 2 by lia. rewrite (Z.mul_comm D).
  unfold in_window in Hw. set (m := N / D) in *. set (r := N mod D) in *.
  destruct (Z.lt_ge_cases m NUMBER_MAX_REP).
  { apply round_up_regular; (done || (numbers; lia)). }
  destruct (Z.eq_dec m NUMBER_MAX_REP_UP) as [->|]; [by apply round_up_top|].
  replace m with (NUMBER_MAX_REP + (m - NUMBER_MAX_REP)) by lia.
  apply round_up_cusp; (done || (numbers; lia)).
Qed.
