(* ===== verification/NumberSpec.v ===== *)
(** * Decimal numbers: the specification

    A number denotes a rational. [rounds_to mode v z] says that [z] is the normalized
    number the rounding mode asks for; [correctly_rounded mode v r] adds what happens at
    both ends of the exponent range. [settle_rounds] shows that the neighbour [pick]
    chooses is that number. *)

From Stdlib Require Import QArith Qabs Qpower Lqa.
From S2P Require Import Prelude Number NumberRound.

#[local] Open Scope Q_scope.

Implicit Types (mode : RoundingMode) (x y z w : NumberParts).

Definition q10 (e : Z) : Q := inject_Z 10 ^ e.

(** [N / D * 10^e] *)
Definition qv (N D e : Z) : Q := inject_Z N / inject_Z D * q10 e.

Definition magnitude x : Q := inject_Z (np_mantissa x) * q10 (np_exponent x).
Definition signed (neg : bool) (v : Q) : Q := if neg then - v else v.
Definition number_value x : Q := signed (np_negative x) (magnitude x).

Definition normal x : Prop := is_normalized x Large330 = true.

(** The least positive number, and the largest the source promises. *)
Definition smallest : Q := inject_Z MANTISSA_LARGE_MIN * q10 NUMBER_MIN_EXPONENT.
Definition largest_number : Q := inject_Z NUMBER_MAX_REP * q10 NUMBER_MAX_EXPONENT.

(** [z] is what the mode asks for among the numbers of [repr]. *)
Definition rounds_in (repr : NumberParts -> Prop) mode (v : Q) z : Prop :=
  repr z /\
  match mode with
  | Downward => number_value z <= v
                /\ forall w, repr w -> number_value w <= v -> number_value w <= number_value z
  | Upward => v <= number_value z
              /\ forall w, repr w -> v <= number_value w -> number_value z <= number_value w
  | TowardsZero => Qabs (number_value z) <= Qabs v
                   /\ (0 <= v -> 0 <= number_value z) /\ (v <= 0 -> number_value z <= 0)
                   /\ forall w, repr w -> Qabs (number_value w) <= Qabs v ->
                        Qabs (number_value w) <= Qabs (number_value z)
  | ToNearest => forall w, repr w ->
                   Qabs (number_value z - v) <= Qabs (number_value w - v)
                   /\ (Qabs (number_value z - v) == Qabs (number_value w - v) ->
                       ~ number_value w == number_value z -> Z.even (np_mantissa z) = true)
  end.

Definition rounds_to : RoundingMode -> Q -> NumberParts -> Prop := rounds_in normal.

Definition correctly_rounded mode (v : Q) (r : result NumberArithmeticError NumberParts) : Prop :=
  match r with
  | ROk z => normal z
             /\ (smallest <= Qabs v -> rounds_to mode v z)
             /\ (Qabs v < smallest ->
                 z = number_zero
                 \/ (Qabs (number_value z) == smallest /\ 9 * smallest < 10 * Qabs v
                     /\ 0 < number_value z * v))
  | RErr e => e = ArOverflow /\ largest_number < Qabs v
  | RFuel => False
  end.

#[global] Instance signed_proper neg : Proper (Qeq ==> Qeq) (signed neg).
Proof. intros v v' E. destruct neg; simpl; by rewrite E. Qed.

#[global] Instance rounds_in_proper repr mode : Proper (Qeq ==> eq ==> iff) (rounds_in repr mode).
Proof.
  intros v v' E z _ <-. unfold rounds_in. destruct mode; setoid_rewrite E; reflexivity.
Qed.

#[global] Instance rounds_to_proper mode : Proper (Qeq ==> eq ==> iff) (rounds_to mode).
Proof. apply rounds_in_proper. Qed.

#[global] Instance correctly_rounded_proper mode : Proper (Qeq ==> eq ==> iff) (correctly_rounded mode).
Proof. intros v v' E r _ <-. unfold correctly_rounded. destruct r; by rewrite ?E. Qed.

Lemma signed_square neg (u v : Q) : signed neg u * signed neg v == u * v.
Proof. destruct neg; simpl; ring. Qed.

(** ** Powers of ten *)

Lemma q10_pos e : 0 < q10 e.
Proof. apply Qpower_0_lt. reflexivity. Qed.

Lemma q10_plus a b : q10 (a + b) == q10 a * q10 b.
Proof. apply Qpower_plus. discriminate. Qed.

Lemma q10_nonneg n : (0 <= n)%Z -> q10 n == inject_Z (10 ^ n).
Proof. intros Hn. symmetry. by apply Zpower_Qpower. Qed.

Lemma inject_Z_pos n : (0 < n)%Z -> 0 < inject_Z n.
Proof. intros Hn. change 0 with (inject_Z 0). by rewrite <- Zlt_Qlt. Qed.

(** An integer in another unit. *)
Lemma q10_unit a e e' : (e <= e')%Z -> inject_Z a * q10 e' == inject_Z (a * 10 ^ (e' - e)) * q10 e.
Proof.
  intros He. replace e' with (e' - e + e)%Z at 1 by lia.
  rewrite q10_plus, inject_Z_mult, (q10_nonneg (e' - e)) by lia. ring.
Qed.

Lemma q10_mult_le a b e : inject_Z a * q10 e <= inject_Z b * q10 e <-> (a <= b)%Z.
Proof. rewrite Qmult_le_r by apply q10_pos. by rewrite <- Zle_Qle. Qed.

Lemma q10_mult_lt a b e : inject_Z a * q10 e < inject_Z b * q10 e <-> (a < b)%Z.
Proof. rewrite Qmult_lt_r by apply q10_pos. by rewrite <- Zlt_Qlt. Qed.

Lemma inject_Z_nonzero D : (0 < D)%Z -> ~ inject_Z D == 0.
Proof. intros HD E. apply (Qlt_irrefl 0). rewrite <- E at 2. by apply inject_Z_pos. Qed.

Lemma div_int_le a N D : (0 < D)%Z -> inject_Z a <= inject_Z N / inject_Z D <-> (a * D <= N)%Z.
Proof.
  intros HD. rewrite <- (Qmult_le_r _ _ (inject_Z D)) by (by apply inject_Z_pos).
  rewrite <- inject_Z_mult. assert (inject_Z N / inject_Z D * inject_Z D == inject_Z N) as ->.
  { field. by apply inject_Z_nonzero. }
  by rewrite <- Zle_Qle.
Qed.

Lemma div_le_int a N D : (0 < D)%Z -> inject_Z N / inject_Z D <= inject_Z a <-> (N <= a * D)%Z.
Proof.
  intros HD. rewrite <- (Qmult_le_r _ _ (inject_Z D)) by (by apply inject_Z_pos).
  rewrite <- inject_Z_mult. assert (inject_Z N / inject_Z D * inject_Z D == inject_Z N) as ->.
  { field. by apply inject_Z_nonzero. }
  by rewrite <- Zle_Qle.
Qed.

Lemma int_le_qv a N D e : (0 < D)%Z -> inject_Z a * q10 e <= qv N D e <-> (a * D <= N)%Z.
Proof. intros HD. unfold qv. rewrite Qmult_le_r by apply q10_pos. by apply div_int_le. Qed.

Lemma qv_le_int a N D e : (0 < D)%Z -> qv N D e <= inject_Z a * q10 e <-> (N <= a * D)%Z.
Proof. intros HD. unfold qv. rewrite Qmult_le_r by apply q10_pos. by apply div_le_int. Qed.

Lemma qv_lt_int a N D e : (0 < D)%Z -> qv N D e < inject_Z a * q10 e <-> (N < a * D)%Z.
Proof.
  intros HD. rewrite (Z.lt_nge N), <- (int_le_qv a N D e HD). split; [apply Qlt_not_le|apply Qnot_le_lt].
Qed.

Lemma int_lt_qv a N D e : (0 < D)%Z -> inject_Z a * q10 e < qv N D e <-> (a * D < N)%Z.
Proof.
  intros HD. rewrite (Z.lt_nge (a * D)), <- (qv_le_int a N D e HD).
  split; [apply Qlt_not_le|apply Qnot_le_lt].
Qed.

(** Moving the decimal point. *)
Lemma qv_push N D e : (0 < D)%Z -> qv N (10 * D) (e + 1) == qv N D e.
Proof.
  intros HD. unfold qv. rewrite q10_plus, inject_Z_mult. change (q10 1) with (inject_Z 10).
  field. by apply inject_Z_nonzero.
Qed.

Lemma qv_up N D e : (0 < D)%Z -> qv (10 * N) D (e - 1) == qv N D e.
Proof.
  intros HD. rewrite <- (qv_push (10 * N) D (e - 1) HD). replace (e - 1 + 1)%Z with e by lia.
  unfold qv. rewrite !inject_Z_mult. field. by apply inject_Z_nonzero.
Qed.

Lemma qv_shift N D e j : (0 < D)%Z -> (0 <= j)%Z -> qv (N * 10 ^ j) D (e - j) == qv N D e.
Proof.
  intros HD Hj. unfold qv. rewrite inject_Z_mult, <- (q10_nonneg j Hj).
  assert (q10 e == q10 j * q10 (e - j)) as ->.
  { rewrite <- q10_plus. by replace (j + (e - j))%Z with e by lia. }
  field. by apply inject_Z_nonzero.
Qed.

Lemma qv_pow N e b : (0 <= b)%Z -> qv N (10 ^ b) (e + b) == inject_Z N * q10 e.
Proof.
  intros Hb. unfold qv. rewrite q10_plus, <- (q10_nonneg b Hb). field.
  pose proof (q10_pos b). lra.
Qed.

Lemma qv_lt_floor N D e k : (0 < D)%Z -> (N / D < k)%Z -> qv N D e < inject_Z k * q10 e.
Proof.
  intros HD Hk. apply qv_lt_int; [done|]. pose proof (Z.div_mod N D ltac:(lia)).
  pose proof (Z.mod_pos_bound N D HD). nia.
Qed.

Lemma qv_nonneg N D e : (0 < D)%Z -> (0 <= N)%Z -> 0 <= qv N D e.
Proof.
  intros HD HN. pose proof (proj2 (int_le_qv 0 N D e HD) ltac:(lia)) as H.
  by rewrite Qmult_0_l in H.
Qed.

(** ** Normalized numbers *)

Lemma normal_zero : normal number_zero.
Proof. reflexivity. Qed.

Lemma normal_nonzero x : (np_mantissa x <> 0)%Z ->
  normal x <->
  (MANTISSA_LARGE_MIN <= np_mantissa x <= MANTISSA_LARGE_MAX
   /\ (np_mantissa x <= NUMBER_MAX_REP \/ np_mantissa x mod 10 = 0)
   /\ NUMBER_MIN_EXPONENT <= np_exponent x <= NUMBER_MAX_EXPONENT)%Z.
Proof.
  intros Hx. unfold normal, is_normalized. rewrite (proj2 (Z.eqb_neq _ _) Hx). simpl.
  rewrite !andb_true_iff, orb_true_iff, !Z.leb_le, Z.eqb_eq. tauto.
Qed.

Lemma normal_zero_inv x : normal x -> (np_mantissa x = 0)%Z -> x = number_zero.
Proof.
  unfold normal, is_normalized. intros Hn E. rewrite E in Hn. simpl in Hn.
  apply andb_true_iff in Hn as [Hs He]. apply Z.eqb_eq in He. apply negb_true_iff in Hs.
  destruct x as [s m e]; simpl in *. by subst.
Qed.

Lemma normal_null x : normal x -> (np_mantissa x = 0)%Z -> magnitude x == 0.
Proof. intros _ E. unfold magnitude. rewrite E. apply Qmult_0_l. Qed.

Lemma magnitude_nonneg x : normal x -> 0 <= magnitude x.
Proof.
  intros Hn. unfold magnitude. destruct (Z.eq_dec (np_mantissa x) 0) as [->|Hx].
  - by rewrite Qmult_0_l.
  - apply (normal_nonzero x Hx) in Hn. apply Qmult_le_0_compat; [|apply Qlt_le_weak, q10_pos].
    apply Qlt_le_weak, inject_Z_pos. numbers. lia.
Qed.

(** ** Neighbours *)

Section Neighbours.
Context (N D e : Z) (HD : (0 < D)%Z) (HN : (0 <= N)%Z) (Hw : in_window N D).

#[local] Notation lo := (rep_below (N / D)).
#[local] Notation hi := (rep_above (N / D)).

Lemma neighbours_int : (lo * D <= N < hi * D /\ window_low <= lo < hi /\ hi <= NUMBER_MAX_REP_UP + 10)%Z.
Proof using HD HN Hw.
  pose proof (Z.div_mod N D ltac:(lia)) as E. pose proof (Z.mod_pos_bound N D HD) as B.
  unfold in_window in Hw. unfold rep_below, rep_above. set (m := (N / D)%Z) in *.
  destruct (Z.leb_spec NUMBER_MAX_REP m), (Z.ltb_spec m NUMBER_MAX_REP_UP); simpl;
    try destruct (Z.eqb_spec m NUMBER_MAX_REP_UP); numbers; nia.
Qed.

(** No representable mantissa lies strictly between the two. *)
Lemma neighbours_same k : (MANTISSA_LARGE_MIN <= N / D)%Z ->
  (k <= NUMBER_MAX_REP \/ k mod 10 = 0)%Z -> (k <= lo \/ hi <= k)%Z.
Proof using Hw.
  intros Hm Hk. unfold in_window in Hw. unfold rep_below, rep_above. set (m := (N / D)%Z) in *.
  destruct (Z.leb_spec NUMBER_MAX_REP m), (Z.ltb_spec m NUMBER_MAX_REP_UP); simpl;
    try destruct (Z.eqb_spec m NUMBER_MAX_REP_UP); numbers; try lia;
    destruct Hk as [|Hk]; try lia; Z.to_euclidean_division_equations; lia.
Qed.

Lemma low_window : (N / D < MANTISSA_LARGE_MIN)%Z -> (lo = N / D /\ hi = N / D + 1)%Z.
Proof using.
  clear. intros Hm. unfold rep_below, rep_above. decide_ltb. done.
Qed.

Lemma rep_window_low m : (rep_below m < MANTISSA_LARGE_MIN -> rep_above m = rep_below m + 1)%Z.
Proof using.
  clear. unfold rep_below, rep_above. destruct (_ && _); [done|].
  intros Hm. decide_ltb. done.
Qed.

Lemma neighbours_mag w : normal w -> (np_mantissa w <> 0)%Z ->
  magnitude w <= inject_Z lo * q10 e \/ inject_Z hi * q10 e <= magnitude w.
Proof using HD HN Hw.
  intros Hn Hx. apply (normal_nonzero w Hx) in Hn as (Hm & Hc & _). unfold magnitude.
  set (k := np_mantissa w) in *. set (f := np_exponent w).
  pose proof neighbours_int as (_ & Hlo & Hhi). unfold in_window in Hw.
  (* a unit at which both are integers, and the factor between them *)
  assert (forall a b u v, (u <= v)%Z -> inject_Z a * q10 u <= inject_Z b * q10 v <-> (a <= b * 10 ^ (v - u))%Z) as Hle.
  { intros a b u v Huv. by rewrite (q10_unit b u v Huv), q10_mult_le. }
  assert (forall a b u v, (u <= v)%Z -> inject_Z b * q10 v <= inject_Z a * q10 u <-> (b * 10 ^ (v - u) <= a)%Z) as Hge.
  { intros a b u v Huv. by rewrite (q10_unit b u v Huv), q10_mult_le. }
  destruct (Z.lt_ge_cases (N / D) MANTISSA_LARGE_MIN) as [Hlow|Hbig].
  - destruct (low_window Hlow) as [El Eh].
    destruct (Z.lt_ge_cases f (e - 1)) as [Hf|Hf].
    + left. apply Hle; [lia|]. pose proof (Z.pow_le_mono_r 10 2 (e - f) ltac:(lia) ltac:(lia)). numbers. nia.
    + destruct (Z.eq_dec f (e - 1)) as [->|Hne].
      * rewrite Hle, Hge by lia. replace (e - (e - 1))%Z with 1%Z by lia. change (10 ^ 1)%Z with 10%Z.
        destruct Hc as [Hc|Hc]; [left; numbers; lia|].
        rewrite El, Eh. Z.to_euclidean_division_equations. lia.
      * right. apply Hle; [lia|]. pose proof (Z.pow_le_mono_r 10 0 (f - e) ltac:(lia) ltac:(lia)).
        rewrite Eh. numbers. nia.
  - destruct (Z.lt_ge_cases f e) as [Hf|Hf].
    + left. apply Hle; [lia|]. pose proof (Z.pow_le_mono_r 10 1 (e - f) ltac:(lia) ltac:(lia)).
      assert (MANTISSA_LARGE_MIN <= lo)%Z.
      { unfold rep_below. destruct (_ && _); [done|lia]. }
      numbers. nia.
    + destruct (Z.eq_dec f e) as [->|Hne].
      * rewrite !q10_mult_le. by apply neighbours_same.
      * right. apply Hle; [lia|]. pose proof (Z.pow_le_mono_r 10 1 (f - e) ltac:(lia) ltac:(lia)).
        numbers. nia.
Qed.
End Neighbours.

(** ** The choice *)

Lemma qv_double N D e : qv (2 * N) D e == 2 * qv N D e.
Proof. unfold qv, Qdiv. rewrite inject_Z_mult. ring. Qed.

Lemma rep_above_even m : Z.even (rep_below m) = false -> Z.even (rep_above m) = true.
Proof.
  unfold rep_below, rep_above. destruct (_ && _); [done|].
  destruct (Z.eqb_spec m NUMBER_MAX_REP_UP) as [->|]; [done|].
  intros E. by rewrite Z.even_add, E.
Qed.

(** What [pick] chooses between the neighbours [L] and [H] of [v]. *)
Record chosen mode (neg : bool) (L H v K : Q) : Prop := {
  ch_exact : v == L -> K == L;
  ch_side : K == L \/ K == H;
  ch_mode : ~ v == L ->
    match mode with
    | TowardsZero => K == L
    | Downward => K == if neg then H else L
    | Upward => K == if neg then L else H
    | ToNearest => (K == L /\ 2 * v <= L + H) \/ (K == H /\ L + H <= 2 * v)
    end
}.

Lemma chosen_eq mode neg (L H v K K' : Q) : K' == K -> chosen mode neg L H v K -> chosen mode neg L H v K'.
Proof.
  intros E [C1 C2 C3]. split.
  - intros Hv. by rewrite E, C1.
  - destruct C2 as [C|C]; [left|right]; by rewrite E, C.
  - intros Hv. specialize (C3 Hv). destruct mode; [|by rewrite E, C3..].
    destruct C3 as [[C ?]|[C ?]]; [left|right]; (split; [by rewrite E, C|done]).
Qed.

Lemma pick_even neg N D :
  (0 < D)%Z -> (2 * N = (rep_below (N / D) + rep_above (N / D)) * D)%Z ->
  (rep_below (N / D) < rep_above (N / D))%Z -> Z.even (pick ToNearest neg N D) = true.
Proof.
  intros HD E Hlt. unfold pick. destruct (Z.eqb_spec N (rep_below (N / D) * D)); [nia|].
  rewrite (proj2 (Z.compare_eq_iff _ _) E). destruct (Z.even (rep_below (N / D))) eqn:Ev; [done|].
  by apply rep_above_even.
Qed.

Lemma pick_chosen mode neg N D e :
  (0 < D)%Z ->
  chosen mode neg (inject_Z (rep_below (N / D)) * q10 e) (inject_Z (rep_above (N / D)) * q10 e)
    (qv N D e) (inject_Z (pick mode neg N D) * q10 e).
Proof.
  intros HD. unfold pick. set (lo := rep_below _). set (hi := rep_above _).
  assert (qv N D e == inject_Z lo * q10 e <-> (N = lo * D)%Z) as Heq.
  { split.
    - intros E. apply Z.le_antisymm; [apply (qv_le_int lo N D e HD) | apply (int_le_qv lo N D e HD)];
        rewrite E; apply Qle_refl.
    - intros E. apply Qle_antisym; [apply qv_le_int | apply int_le_qv]; lia. }
  destruct (Z.eqb_spec N (lo * D)) as [E|E].
  - split; [done|by left|]. intros Hv. destruct Hv. by apply Heq.
  - assert (2 * qv N D e == qv (2 * N) D e) as H2 by (symmetry; apply qv_double).
    assert (inject_Z lo * q10 e + inject_Z hi * q10 e == inject_Z (lo + hi) * q10 e) as HS
      by (rewrite inject_Z_plus; ring).
    split.
    + intros Hv. destruct E. by apply Heq.
    + destruct mode, neg; try destruct (_ ?= _)%Z; try destruct (Z.even lo);
        first [left; reflexivity | right; reflexivity].
    + intros _. destruct mode; [|destruct neg; done..]. rewrite H2, HS.
      rewrite qv_le_int, int_le_qv by done.
      destruct (Z.compare_spec (2 * N) ((lo + hi) * D)) as [C|C|C]; [|left; split; [done|lia]|right; split; [done|lia]].
      destruct (Z.even lo); [left|right]; (split; [done|lia]).
Qed.

Lemma abs_signed (neg : bool) (q : Q) : 0 <= q -> Qabs (signed neg q) == q.
Proof.
  intros Hq. unfold signed. destruct neg; [|by apply Qabs_pos].
  apply Qeq_trans with (Qabs q); [apply Qabs_opp|by apply Qabs_pos].
Qed.

Lemma abs_number w : 0 <= magnitude w -> Qabs (number_value w) == magnitude w.
Proof. apply abs_signed. Qed.

Lemma abs_number_value w : normal w -> Qabs (number_value w) == magnitude w.
Proof. intros Hw. apply abs_number. by apply magnitude_nonneg. Qed.

Lemma abs_diff_cases (a b : Q) : (a <= b /\ Qabs (a - b) == b - a) \/ (b <= a /\ Qabs (a - b) == a - b).
Proof.
  destruct (Qlt_le_dec a b).
  - left. split; [lra|]. rewrite Qabs_neg by lra. ring.
  - right. split; [lra|]. by rewrite Qabs_pos by lra.
Qed.

(** The spec of a mode, from the choice and from the gap between the neighbours. *)
Section Choice.
Context (repr : NumberParts -> Prop).
Context (Hmag : forall w, repr w -> 0 <= magnitude w) (Hnull : forall w, repr w -> np_mantissa w = 0%Z -> magnitude w == 0).
Context (mode : RoundingMode) (neg : bool) (L H v : Q) (z : NumberParts).
Context (HL : 0 < L) (HLv : L <= v) (HvH : v < H).
Context (Hgap : forall w, repr w -> (np_mantissa w <> 0)%Z -> magnitude w <= L \/ H <= magnitude w).
Context (Hz : repr z) (Hneg : np_negative z = neg).
Context (Hch : chosen mode neg L H v (magnitude z)).

Lemma number_cases w : repr w ->
  (number_value w == 0 /\ magnitude w == 0)
  \/ (0 <= magnitude w /\ (magnitude w <= L \/ H <= magnitude w)
      /\ ((np_negative w = false /\ number_value w == magnitude w)
          \/ (np_negative w = true /\ number_value w == - magnitude w))).
Proof using Hgap Hmag Hnull.
  intros Hw. unfold number_value. destruct (Z.eq_dec (np_mantissa w) 0) as [E|E].
  - left. pose proof (Hnull w Hw E) as E0. split; [|done]. rewrite E0. by destruct (np_negative w).
  - right. split_and!; [by apply Hmag|by apply Hgap|].
    destruct (np_negative w); [right|left]; split; (done || reflexivity).
Qed.

Lemma value_of_z : number_value z == signed neg (magnitude z).
Proof using Hneg. unfold number_value. by rewrite Hneg. Qed.

Lemma rounds_down : mode = Downward -> rounds_in repr mode (signed neg v) z.
Proof using HL HLv HvH Hgap Hz Hneg Hch Hmag Hnull.
  intros ->. destruct Hch as [He _ Hm]. pose proof value_of_z as Ez.
  split; [done|]. destruct neg; simpl in *.
  - destruct (Qeq_dec v L) as [E|E]; [specialize (He E)|specialize (Hm E)];
      (split; [lra|]; intros w Hw Hle; destruct (number_cases w Hw) as [[? ?]|(? & ? & ?)]; lra).
  - assert (magnitude z == L) by (destruct (Qeq_dec v L); auto).
    split; [lra|]. intros w Hw Hle. destruct (number_cases w Hw) as [[? ?]|(? & ? & ?)]; lra.
Qed.

Lemma rounds_upward : mode = Upward -> rounds_in repr mode (signed neg v) z.
Proof using HL HLv HvH Hgap Hz Hneg Hch Hmag Hnull.
  intros ->. destruct Hch as [He _ Hm]. pose proof value_of_z as Ez.
  split; [done|]. destruct neg; simpl in *.
  - assert (magnitude z == L) by (destruct (Qeq_dec v L); auto).
    split; [lra|]. intros w Hw Hle. destruct (number_cases w Hw) as [[? ?]|(? & ? & ?)]; lra.
  - destruct (Qeq_dec v L) as [E|E]; [specialize (He E)|specialize (Hm E)];
      (split; [lra|]; intros w Hw Hle; destruct (number_cases w Hw) as [[? ?]|(? & ? & ?)]; lra).
Qed.

Lemma rounds_zero : mode = TowardsZero -> rounds_in repr mode (signed neg v) z.
Proof using HL HLv HvH Hgap Hz Hneg Hch Hmag Hnull.
  intros ->. destruct Hch as [He _ Hm]. pose proof value_of_z as Ez.
  assert (magnitude z == L) as EL by (destruct (Qeq_dec v L); auto).
  pose proof (abs_number z (Hmag z Hz)) as Az. pose proof (abs_signed neg v ltac:(lra)) as Av.
  split; [done|].
  split_and!; [lra|destruct neg; simpl in *; lra|destruct neg; simpl in *; lra|].
  intros w Hw Hle. pose proof (abs_number w (Hmag w Hw)) as Aw.
  destruct (number_cases w Hw) as [[? ?]|(? & ? & ?)]; lra.
Qed.

Lemma rounds_nearest :
  mode = ToNearest -> (2 * v == L + H -> Z.even (np_mantissa z) = true) ->
  rounds_in repr mode (signed neg v) z.
Proof using HL HLv HvH Hgap Hz Hneg Hch Hmag Hnull.
  intros -> Heven. pose proof value_of_z as Ez. destruct Hch as [He Hs Hm].
  split; [done|]. intros w Hw.
  pose proof (abs_diff_cases (number_value z) (signed neg v)) as Az.
  pose proof (abs_diff_cases (number_value w) (signed neg v)) as Aw.
  assert ((magnitude z == L /\ 2 * v <= L + H) \/ (magnitude z == H /\ L + H <= 2 * v)) as Hk.
  { destruct (Qeq_dec v L) as [E|E]; [left; split; [by apply He|lra]|by apply Hm]. }
  clear He Hs Hm.
  split.
  - destruct neg; simpl in *; destruct (number_cases w Hw) as [[? ?]|(? & ? & ?)];
      destruct Hk as [[? ?]|[? ?]], Az as [[? ?]|[? ?]], Aw as [[? ?]|[? ?]]; lra.
  - intros Eq Hne. apply Heven. destruct (Qeq_dec (2 * v) (L + H)) as [|Hn]; [done|]. exfalso. apply Hne.
    assert (2 * v < L + H \/ L + H < 2 * v) as Hn'.
    { destruct (Qlt_le_dec (2 * v) (L + H)); [by left|right]. apply Qle_lteq in q as [|q]; [done|].
      destruct Hn. by symmetry. }
    clear Hn. destruct neg; simpl in *; destruct (number_cases w Hw) as [[? ?]|(? & ? & ?)];
      destruct Hk as [[? ?]|[? ?]], Az as [[? ?]|[? ?]], Aw as [[? ?]|[? ?]]; lra.
Qed.
End Choice.

(** ** Monotonicity *)

(** A representable value is never jumped over. *)
Lemma rounds_monotone (repr : NumberParts -> Prop) mode v z w :
  rounds_in repr mode v z -> repr w ->
  (v <= number_value w -> number_value z <= number_value w)
  /\ (number_value w <= v -> number_value w <= number_value z).
Proof.
  intros [Hz Hr] Hw. destruct mode.
  - destruct (Hr w Hw) as [Hle _].
    pose proof (abs_diff_cases (number_value z) v). pose proof (abs_diff_cases (number_value w) v). lra.
  - destruct Hr as (Hle & Hp & Hn & Hmax). specialize (Hmax w Hw).
    pose proof (abs_diff_cases (number_value z) 0) as Az. pose proof (abs_diff_cases v 0) as Av.
    pose proof (abs_diff_cases (number_value w) 0) as Aw. unfold Qminus in *. rewrite !Qplus_0_r in *.
    destruct (Qlt_le_dec v 0) as [Hv|Hv]; [specialize (Hn ltac:(lra))|specialize (Hp Hv)];
      (destruct (Qlt_le_dec (Qabs v) (Qabs (number_value w))) as [Hvw|Hvw]; [|specialize (Hmax Hvw)]); lra.
  - destruct Hr as [Hle Hmax]. specialize (Hmax w Hw). split; intros; [lra|auto].
  - destruct Hr as [Hle Hmin]. specialize (Hmin w Hw). split; intros; [auto|lra].
Qed.

(** ** Settling the exponent *)

Lemma int_q10_le a b u v : (0 <= b)%Z -> (u <= v)%Z -> (a <= b * 10 ^ (v - u))%Z ->
  inject_Z a * q10 u <= inject_Z b * q10 v.
Proof. intros Hb Huv Hab. rewrite (q10_unit b u v Huv). by apply q10_mult_le. Qed.

Lemma int_q10_ge a b u v : (u <= v)%Z -> (b * 10 ^ (v - u) <= a)%Z ->
  inject_Z b * q10 v <= inject_Z a * q10 u.
Proof. intros Huv Hab. rewrite (q10_unit b u v Huv). by apply q10_mult_le. Qed.

Lemma normal_ge_smallest z : normal z -> (np_mantissa z <> 0)%Z -> smallest <= magnitude z.
Proof.
  intros Hz Hx. apply (normal_nonzero z Hx) in Hz as (Hm & _ & He).
  apply int_q10_le; [numbers; lia|numbers; lia|].
  pose proof (Z.pow_le_mono_r 10 0 (np_exponent z - NUMBER_MIN_EXPONENT) ltac:(lia) ltac:(lia)).
  numbers. nia.
Qed.

Lemma normal_min : normal (number_min Large330).
Proof. reflexivity. Qed.

Lemma underflow_zero mode neg v : 0 <= v -> v < smallest ->
  correctly_rounded mode (signed neg v) (ROk number_zero).
Proof.
  intros Hv Hs. pose proof (abs_signed neg v Hv). split_and!; [done| |by left]. intros; lra.
Qed.

Lemma overflow_error mode neg v : 0 <= v -> largest_number < v ->
  correctly_rounded mode (signed neg v) (RErr ArOverflow).
Proof. intros Hv Hl. pose proof (abs_signed neg v Hv). split; [done|lra]. Qed.

Section Settle.
Context (mode : RoundingMode) (neg : bool) (N D e : Z).
Context (HD : (0 < D)%Z) (HN : (0 <= N)%Z) (Hw : in_window N D).

#[local] Notation lo := (rep_below (N / D)).
#[local] Notation hi := (rep_above (N / D)).
#[local] Notation k := (pick mode neg N D).

Lemma pick_side : (k = lo \/ k = hi)%Z.
Proof using.
  clear. unfold pick. destruct (N =? lo * D)%Z; [by left|].
  destruct mode, neg; try destruct (_ ?= _)%Z; try destruct (Z.even lo); auto.
Qed.

Lemma pick_representable : (k <= NUMBER_MAX_REP \/ k mod 10 = 0)%Z.
Proof using Hw.
  unfold in_window in Hw. destruct (Z.eq_dec (N / D) NUMBER_MAX_REP_UP) as [E|E].
  { destruct pick_side as [-> | ->]; rewrite E; by right. }
  destruct pick_side as [-> | ->]; unfold rep_below, rep_above;
    destruct (Z.leb_spec NUMBER_MAX_REP (N / D)), (Z.ltb_spec (N / D) NUMBER_MAX_REP_UP); cbn [andb];
    rewrite ?(proj2 (Z.eqb_neq _ _) E); first [left; numbers; lia | by right | exfalso; lia].
Qed.

Lemma settled_ok k' e' :
  (if k <? MANTISSA_LARGE_MIN then (k * 10, e - 1) else (k, e))%Z = (k', e') ->
  (NUMBER_MIN_EXPONENT <= e' <= NUMBER_MAX_EXPONENT)%Z ->
  normal (mkNumber neg k' e') /\ (k' <> 0)%Z /\ magnitude (mkNumber neg k' e') == inject_Z k * q10 e
  /\ (Z.even k = true -> Z.even k' = true).
Proof using HD HN Hw.
  intros Ek He. pose proof (neighbours_int N D HD HN Hw) as (_ & Hlo & Hhi).
  pose proof pick_representable as Hrep. assert (window_low <= k <= NUMBER_MAX_REP_UP + 10)%Z as Hk.
  { destruct pick_side as [-> | ->]; lia. }
  unfold magnitude. simpl.
  destruct (Z.ltb_spec k MANTISSA_LARGE_MIN); injection Ek as <- <-; split_and!; try (numbers; lia).
  - apply normal_nonzero; simpl; [numbers; lia|]. split_and!; try (numbers; lia). right. by rewrite Z.mod_mul.
  - rewrite (q10_unit k (e - 1) e) by lia. by replace (e - (e - 1))%Z with 1%Z by lia.
  - intros E. by rewrite Z.even_mul, E.
  - apply normal_nonzero; simpl; [numbers; lia|]. split_and!; first [numbers; lia | done].
  - reflexivity.
  - done.
Qed.

#[local] Notation L := (inject_Z lo * q10 e).
#[local] Notation H := (inject_Z hi * q10 e).
#[local] Notation v := (qv N D e).

Lemma neighbours_bracket : 0 < L /\ L <= v /\ v < H.
Proof using HD HN Hw.
  pose proof (neighbours_int N D HD HN Hw) as ([? ?] & ? & ?). split_and!.
  - rewrite <- (Qmult_0_l (q10 e)). change 0 with (inject_Z 0). apply q10_mult_lt. numbers. lia.
  - by apply int_le_qv.
  - by apply qv_lt_int.
Qed.

Lemma neighbours_close : 9 * H < 10 * L.
Proof using HD HN Hw.
  pose proof (neighbours_int N D HD HN Hw) as (_ & Hlo & Hhi).
  assert (9 * hi < 10 * lo)%Z as Hz.
  { unfold in_window in Hw. unfold rep_above, rep_below in *.
    destruct (_ && _); [numbers; lia|]. destruct (Z.eqb_spec (N / D) NUMBER_MAX_REP_UP); numbers; lia. }
  rewrite <- (q10_mult_lt _ _ e), !inject_Z_mult in Hz. change (inject_Z 9) with 9 in Hz.
  change (inject_Z 10) with 10 in Hz. lra.
Qed.

Lemma settled_tie : mode = ToNearest -> 2 * v == L + H -> Z.even k = true.
Proof using HD HN Hw.
  intros -> E. pose proof (neighbours_int N D HD HN Hw) as (_ & ? & _).
  assert (qv (2 * N) D e == inject_Z (lo + hi) * q10 e) as E2.
  { rewrite qv_double, E, inject_Z_plus. ring. }
  apply pick_even; [done| |lia].
  apply Z.le_antisymm; [apply (qv_le_int _ _ D e HD)|apply (int_le_qv _ _ D e HD)]; rewrite E2; apply Qle_refl.
Qed.

Lemma settled_rounds k' e' :
  (if k <? MANTISSA_LARGE_MIN then (k * 10, e - 1) else (k, e))%Z = (k', e') ->
  (NUMBER_MIN_EXPONENT <= e' <= NUMBER_MAX_EXPONENT)%Z ->
  correctly_rounded mode (signed neg v) (ROk (mkNumber neg k' e')).
Proof using HD HN Hw.
  intros Ek He. destruct (settled_ok k' e' Ek He) as (Hn & Hnz & Em & Hev).
  destruct neighbours_bracket as (HL & HLv & HvH). set (z := mkNumber neg k' e') in *.
  assert (chosen mode neg L H v (magnitude z)) as Hch.
  { by apply (chosen_eq mode neg L H v _ _ Em), pick_chosen. }
  pose proof (neighbours_mag N D e HD HN Hw) as Hgap.
  pose proof (abs_signed neg v ltac:(lra)) as Av. pose proof (abs_number_value z Hn) as Az.
  split_and!; [done| |].
  - intros _. destruct mode eqn:Emode.
    + apply (rounds_nearest normal magnitude_nonneg normal_null ToNearest neg L H); try done. intros Et. apply Hev. rewrite <- Emode in *.
      by apply settled_tie.
    + by apply (rounds_zero normal magnitude_nonneg normal_null TowardsZero neg L H).
    + by apply (rounds_down normal magnitude_nonneg normal_null Downward neg L H).
    + by apply (rounds_upward normal magnitude_nonneg normal_null Upward neg L H).
  - intros Hs. right. pose proof (normal_ge_smallest z Hn Hnz) as Hge.
    assert (H <= smallest) as Hle.
    { destruct (Hgap (number_min Large330) normal_min ltac:(done)) as [G|G]; change (magnitude (number_min Large330)) with smallest in G; [lra|done]. }
    assert (magnitude z == H) as C by (destruct Hch as [_ [C|C] _]; lra).
    pose proof neighbours_close as Hc. split_and!; [lra|lra|].
    unfold number_value. simpl np_negative. rewrite signed_square.
    apply Qmult_lt_0_compat; lra.
Qed.

(** The chosen neighbour, once its exponent is settled, is what the mode asks for. *)
Lemma settle_rounds :
  correctly_rounded mode (signed neg v) (settle mkNumber number_zero neg k e).
Proof using HD HN Hw.
  unfold settle. destruct (if k <? MANTISSA_LARGE_MIN then _ else _)%Z as [k' e'] eqn:Ek.
  destruct neighbours_bracket as (HL & HLv & HvH).
  pose proof (neighbours_int N D HD HN Hw) as (_ & Hlo & Hhi).
  pose proof Ek as Ek'.
  destruct (Z.ltb_spec e' NUMBER_MIN_EXPONENT) as [He|He];
    [|destruct (Z.ltb_spec NUMBER_MAX_EXPONENT e') as [He2|He2]; [|by apply settled_rounds]].
  - apply underflow_zero; [lra|]. apply Qlt_le_trans with H; [done|].
    destruct (Z.ltb_spec k MANTISSA_LARGE_MIN) as [Hk|Hk]; injection Ek as <- <-.
    + apply int_q10_le; [numbers; lia|lia|].
      pose proof (Z.pow_le_mono_r 10 0 (NUMBER_MIN_EXPONENT - e) ltac:(lia) ltac:(lia)).
      assert (hi <= MANTISSA_LARGE_MIN)%Z; [|numbers; nia].
      pose proof (rep_window_low (N / D)). destruct pick_side; numbers; lia.
    + apply int_q10_le; [numbers; lia|lia|].
      pose proof (Z.pow_le_mono_r 10 1 (NUMBER_MIN_EXPONENT - e) ltac:(lia) ltac:(lia)). numbers; nia.
  - apply overflow_error; [lra|]. apply Qlt_le_trans with L; [|done].
    assert (NUMBER_MAX_EXPONENT < e)%Z.
    { destruct (Z.ltb_spec k MANTISSA_LARGE_MIN); injection Ek as <- <-; lia. }
    apply Qlt_le_trans with (inject_Z (NUMBER_MAX_REP + 1) * q10 NUMBER_MAX_EXPONENT).
    + apply q10_mult_lt. lia.
    + apply int_q10_le; [numbers; lia|lia|].
      pose proof (Z.pow_le_mono_r 10 1 (e - NUMBER_MAX_EXPONENT) ltac:(lia) ltac:(lia)). numbers; nia.
Qed.
End Settle.
