(* ===== verification/NumberNormal.v ===== *)
(** * Decimal numbers: normalization, products and quotients round correctly

    Normalization is given an exact magnitude [N / D * 10^e] through its integer part
    and a bit that says whether anything was dropped. At [Large330] it returns the
    correctly rounded number, or the overflow error past the largest one. *)

From Stdlib Require Import QArith Qabs Lqa.
From S2P Require Import Prelude Number NumberRound NumberSpec.

Implicit Types (g : ArithmeticGuard) (mode : RoundingMode).

(** The guard of a negative or of a positive operand, with the dropped bit. *)
Definition guard_start (negative dropped : bool) : ArithmeticGuard :=
  let g := if negative then guard_set_negative guard_default else guard_default in
  if dropped then guard_set_extra g else g.

Lemma guard_start_negative neg dropped : ag_negative (guard_start neg dropped) = neg.
Proof. by destruct neg, dropped. Qed.

Lemma guard_start_weak neg (dropped : bool) r D : (dropped = true <-> r <> 0) -> guard_weak (guard_start neg dropped) r D.
Proof.
  intros Hd. split; [by destruct neg, dropped|].
  destruct neg, dropped; unfold guard_empty; simpl; destruct (Z.eq_dec r 0); naive_solver.
Qed.

Lemma guard_start_at neg (dropped : bool) r D :
  0 < D -> 0 <= r -> 10 * r < D -> (dropped = true <-> r <> 0) -> guard_at (guard_start neg dropped) r D.
Proof.
  intros HD Hr Hs Hd. unfold guard_at. rewrite (Z.div_small (10 * r)), (Z.mod_small (10 * r)) by lia.
  destruct neg, dropped; simpl; split_and!; try (done || lia);
    destruct (Z.eq_dec r 0); naive_solver lia.
Qed.

(** One digit moves from the integer part to the guard. *)
Lemma guard_push_state g N D : 0 < D -> 0 <= N -> guard_weak g (N mod D) D ->
  guard_at (guard_push g ((N / D) mod 10)) (N mod (10 * D)) (10 * D) /\ N / D / 10 = N / (10 * D).
Proof.
  intros HD HN Hg. split.
  - rewrite (Z.mul_comm 10), Z.rem_mul_r by lia. rewrite (Z.add_comm (N mod D)), (Z.mul_comm D ((N / D) mod 10)).
    rewrite (Z.mul_comm D 10). apply guard_push_at; [done| | |done].
    + by apply Z.mod_pos_bound.
    + pose proof (Z.mod_pos_bound (N / D) 10 ltac:(lia)). lia.
  - rewrite Z.div_div by lia. by rewrite (Z.mul_comm D).
Qed.

(** ** Scaling up *)

Lemma scale_up_spec f min M e :
  min <= MANTISSA_LARGE_MIN -> 0 < M -> min <= M * 10 ^ Z.of_nat f ->
  exists j, 0 <= j /\ scale_up (S f) M e min = ROk (M * 10 ^ j, e - j)
    /\ (j = 0 \/ (M * 10 ^ j < 10 * min /\ NUMBER_MIN_EXPONENT <= e - j))
    /\ (min <= M * 10 ^ j \/ e - j <= NUMBER_MIN_EXPONENT).
Proof.
  intros Hmin. revert M e. induction f as [|f IH]; intros M e HM Hf.
  - exists 0. change (10 ^ Z.of_nat 0) with 1 in Hf. change (10 ^ 0) with 1. rewrite !Z.mul_1_r, Z.sub_0_r in *.
    cbn [scale_up]. rewrite (proj2 (Z.ltb_ge M _)) by done. simpl. auto with lia.
  - cbn [scale_up]. destruct (Z.ltb_spec M min), (Z.ltb_spec NUMBER_MIN_EXPONENT e); cbn [andb].
    2-4: exists 0; change (10 ^ 0) with 1; rewrite Z.mul_1_r, Z.sub_0_r; auto with lia.
    unfold checked_u128. rewrite (proj2 (Z.leb_le 0 (M * 10))), (proj2 (Z.ltb_lt (M * 10) _)) by (numbers; lia).
    rewrite Nat2Z.inj_succ, Z.pow_succ_r in Hf by lia.
    destruct (IH (M * 10) (e - 1) ltac:(lia) ltac:(lia)) as (j & Hj & E & H1 & H2).
    exists (j + 1). rewrite Z.pow_add_r by lia. change (10 ^ 1) with 10.
    replace (M * (10 ^ j * 10)) with (M * 10 * 10 ^ j) by lia. replace (e - (j + 1)) with (e - 1 - j) by lia.
    split_and!; [lia|exact E| |done]. right. destruct H1 as [->|?]; [|done].
    change (10 ^ 0) with 1. lia.
Qed.

(** ** Scaling down *)

Lemma overflow_value m u N D e : 0 < D -> 0 <= m < N / D -> u <= e -> (inject_Z m * q10 u < qv N D e)%Q.
Proof.
  intros HD Hm He. pose proof (Z.mul_div_le N D HD).
  apply Qlt_le_trans with (inject_Z (m + 1) * q10 u)%Q.
  - apply q10_mult_lt. lia.
  - apply Qle_trans with (inject_Z (N / D) * q10 e)%Q; [|apply int_le_qv; lia].
    apply int_q10_le; [lia|lia|]. pose proof (Z.pow_le_mono_r 10 0 (e - u) ltac:(lia) ltac:(lia)). nia.
Qed.

Lemma scale_down_spec f min max g N D e :
  0 < min -> max + 1 = 10 * min ->
  0 < D -> 0 <= N -> guard_weak g (N mod D) D -> (N / D <= max -> guard_at g (N mod D) D) ->
  N / D < max * 10 ^ Z.of_nat f ->
  (scale_down (S f) g (N / D) e max = RErr ArOverflow /\ (inject_Z max * q10 NUMBER_MAX_EXPONENT < qv N D e)%Q)
  \/ exists g' D' e', scale_down (S f) g (N / D) e max = ROk (g', N / D', e')
     /\ 0 < D' /\ (qv N D' e' == qv N D e)%Q /\ guard_at g' (N mod D') D' /\ ag_negative g' = ag_negative g
     /\ N / D' <= max /\ e <= e' /\ (e' <= e \/ e' <= NUMBER_MAX_EXPONENT)
     /\ (min <= N / D' \/ (D' = D /\ e' = e)).
Proof.
  intros Hmin0 Hmax. revert g D e. induction f as [|f IH]; intros g D e HD HN Hg Hat Hf; cbn [scale_down].
  { change (10 ^ Z.of_nat 0) with 1 in Hf. rewrite (proj2 (Z.ltb_ge _ _)) by lia.
    right. exists g, D, e. split_and!; try done; auto with lia. }
  destruct (Z.ltb_spec max (N / D)).
  2: { right. exists g, D, e. split_and!; try done; auto with lia. }
  destruct (Z.leb_spec NUMBER_MAX_EXPONENT e).
  { left. split; [done|]. by apply overflow_value; lia. }
  destruct (guard_push_state g N D HD HN Hg) as [Hg' Em]. rewrite Em.
  rewrite Nat2Z.inj_succ, Z.pow_succ_r in Hf by lia.
  assert (N / (10 * D) < max * 10 ^ Z.of_nat f) as Hf'.
  { rewrite <- Em. apply Z.div_lt_upper_bound; lia. }
  destruct (IH (guard_push g ((N / D) mod 10)) (10 * D) (e + 1)) as [[E Hl]|(g' & D' & e' & E & HD' & Ev & Hat' & Hn & Hm & He1 & He2 & Hmin)]; try done; try lia.
  - apply guard_at_weak; [lia|apply Z.mod_pos_bound; lia|done].
  - left. split; [exact E|]. by rewrite qv_push in Hl.
  - right. exists g', D', e'. split_and!; try done; try lia.
    + by rewrite Ev, qv_push.
    + destruct Hmin as [?|[-> ->]]; [by left|left]. rewrite <- Em. apply Z.div_le_lower_bound; lia.
Qed.

(** ** Normalization *)

(** A settled neighbour is normalized: it is returned as it is. *)
Lemma finish_settle mode (ren : bool -> Z -> Z -> result NumberArithmeticError NumberParts) neg N D e :
  0 < D -> 0 <= N -> in_window N D ->
  ('(n, m, e) ← settle_parts neg (pick mode neg N D) e; finish_with Large330 ren n m e)
  = settle mkNumber number_zero neg (pick mode neg N D) e.
Proof.
  intros HD HN Hw. pose proof (settled_ok mode neg N D e HD HN Hw) as Hok.
  unfold settle_parts, settle. destruct (if _ <? _ then _ else _) as [k' e'] eqn:Ek.
  destruct (Z.ltb_spec e' NUMBER_MIN_EXPONENT); [done|].
  destruct (Z.ltb_spec NUMBER_MAX_EXPONENT e'); [done|].
  destruct (Hok k' e' eq_refl ltac:(lia)) as (Hn & Hk & _). simpl. unfold finish_with.
  pose proof (proj1 (normal_nonzero (mkNumber neg k' e') Hk) Hn) as (Hm & _). simpl in Hm.
  rewrite (proj2 (Z.eqb_neq _ _) Hk). decide_ltb.
  unfold u64_try. rewrite (proj2 (Z.leb_le 0 k')), (proj2 (Z.leb_le k' _)) by (numbers; lia). simpl.
  rewrite (proj2 (Z.eqb_neq _ _) Hk), andb_true_r. unfold normal in Hn. by rewrite Hn.
Qed.

(** What follows the scaling. *)
Definition finish_normalization mode (ren : bool -> Z -> Z -> result NumberArithmeticError NumberParts)
    g (neg : bool) (m e : Z) : result NumberArithmeticError NumberParts :=
  r ← ('(g, m, e) ←
         (if rep_limit Large330 <? m then
            if NUMBER_MAX_EXPONENT <=? e then RErr ArOverflow
            else ROk (guard_push g (m mod 10), m / 10, e + 1)
          else ROk (g, m, e));
       r ← do_round_up mode Large330 3 g neg m e MANTISSA_LARGE_MIN MANTISSA_LARGE_MAX;
       ROk (Some r));
  match r with
  | None => ROk number_zero
  | Some (n, m, e) => finish_with Large330 ren n m e
  end.

Lemma round_and_finish mode ren g neg N D e :
  0 < D -> 0 <= N -> in_window N D -> guard_at g (N mod D) D -> ag_negative g = neg -> -190000 <= e <= 190000 ->
  correctly_rounded mode (signed neg (qv N D e))
    ('(n, m, e) ← do_round_up mode Large330 3 g neg (N / D) e MANTISSA_LARGE_MIN MANTISSA_LARGE_MAX;
     finish_with Large330 ren n m e).
Proof.
  intros HD HN Hw Hg Hn He. rewrite (do_round_up_pick mode 1 g neg _ e N D) by (done || unfold small_exponent; lia).
  rewrite finish_settle by done. by apply settle_rounds.
Qed.

Lemma finish_some ren (r : result NumberArithmeticError (bool * Z * Z)) :
  (r ← (r ← r; ROk (Some r));
   match r with None => ROk number_zero | Some (n, m, e) => finish_with Large330 ren n m e end)
  = ('(n, m, e) ← r; finish_with Large330 ren n m e).
Proof. by destruct r. Qed.

Lemma finish_normalization_rounds mode ren g neg N D e :
  0 < D -> 0 <= N -> MANTISSA_LARGE_MIN <= N / D <= MANTISSA_LARGE_MAX -> guard_at g (N mod D) D ->
  ag_negative g = neg -> -180000 <= e <= 180000 ->
  correctly_rounded mode (signed neg (qv N D e)) (finish_normalization mode ren g neg (N / D) e).
Proof.
  intros HD HN Hm Hg Hn He. unfold finish_normalization. change (rep_limit Large330) with NUMBER_MAX_REP_UP.
  destruct (Z.ltb_spec NUMBER_MAX_REP_UP (N / D)).
  - destruct (Z.leb_spec NUMBER_MAX_EXPONENT e).
    + apply overflow_error; [by apply qv_nonneg|]. apply overflow_value; [done|numbers; lia|done].
    + destruct (guard_push_state g N D HD HN) as [Hg' Em].
      { apply guard_at_weak; [done|by apply Z.mod_pos_bound|done]. }
      cbn [mbind result_bind]. rewrite finish_some, Em, <- (qv_push N D e HD).
      apply round_and_finish; (done || lia || idtac).
      unfold in_window. rewrite <- Em. split; numbers.
      * apply Z.div_le_lower_bound; lia.
      * apply Z.div_le_upper_bound; lia.
  - cbn [mbind result_bind]. rewrite finish_some. apply round_and_finish; try (done || lia). unfold in_window. numbers. lia.
Qed.

(** The exact magnitude [N / D * 10^e], given by its integer part and the dropped bit. *)
Record dropped_part (N D : Z) (dropped : bool) : Prop := {
  dp_denominator : 0 < D;
  dp_positive : 0 < N / D;
  dp_width : N / D < u128_modulus;
  dp_dropped : dropped = true <-> N mod D <> 0;
  (** what is dropped is past the last digit of the result *)
  dp_below : dropped = true -> MANTISSA_LARGE_MAX < N / D \/ (10 ^ 16 <= N / D /\ 1000 * (N mod D) < D)
}.

Lemma scaled_part N D dropped j :
  dropped_part N D dropped -> 0 <= j -> (j = 0 \/ N / D * 10 ^ j < 10 * MANTISSA_LARGE_MIN) ->
  N / D * 10 ^ j = (N * 10 ^ j) / D
  /\ (dropped = true <-> (N * 10 ^ j) mod D <> 0)
  /\ (dropped = true -> (N * 10 ^ j) / D <= MANTISSA_LARGE_MAX -> 10 * ((N * 10 ^ j) mod D) < D).
Proof.
  intros [HD Hq _ Hd Hb] Hj Hsmall. pose proof (Z.div_mod N D ltac:(lia)) as E.
  pose proof (Z.mod_pos_bound N D HD) as Hr. set (q := N / D) in *. set (r := N mod D) in *.
  assert (0 < 10 ^ j) as HP by (apply Z.pow_pos_nonneg; lia). set (P := 10 ^ j) in *.
  assert (j = 0 -> P = 1) as HP0 by (by intros ->).
  assert (dropped = true -> q * P <= MANTISSA_LARGE_MAX -> 10 * (r * P) < D) as H10.
  { intros Ed Hle. destruct (Hb Ed) as [?|[? ?]]; [nia|].
    assert (P <= 100); [|nia]. assert (j <= 2); [|apply (Z.pow_le_mono_r 10 j 2); lia].
    destruct (Z.le_gt_cases j 2); [done|]. assert (1000 <= P) by (apply (Z.pow_le_mono_r 10 3 j); lia).
    numbers. nia. }
  assert (r * P < D) as HrP.
  { destruct dropped eqn:Ed; [|assert (r = 0) by (destruct (Z.eq_dec r 0); naive_solver); lia].
    destruct (Hb eq_refl) as [?|[? ?]].
    - assert (P = 1) as ->; [|lia]. destruct Hsmall as [|?]; [auto|]. numbers. nia.
    - destruct Hsmall as [Hj0|?]; [rewrite HP0 by done; lia|].
      specialize (H10 eq_refl ltac:(numbers; lia)). nia. }
  assert (N * P = D * (q * P) + r * P) as EN by (rewrite E at 1; ring).
  rewrite <- (Z.div_unique_pos (N * P) D (q * P) (r * P)) by nia.
  rewrite <- (Z.mod_unique_pos (N * P) D (q * P) (r * P)) by nia.
  split_and!; [done| |done]. rewrite Hd. nia.
Qed.

Lemma normalize_rounds mode fuel neg N D e dropped :
  dropped_part N D dropped -> -150000 <= e <= 150000 ->
  correctly_rounded mode (signed neg (qv N D e))
    (normalize_arithmetic_parts_with_dropped mode Large330 (S fuel) neg (N / D) e
       MANTISSA_LARGE_MIN MANTISSA_LARGE_MAX dropped).
Proof.
  intros Hdp He. pose proof Hdp as [HD Hq Hwid _ _].
  cbn [normalize_arithmetic_parts_with_dropped]. unfold normalize_steps.
  rewrite (proj2 (Z.eqb_neq (N / D) 0)) by lia.
  destruct (scale_up_spec 39 MANTISSA_LARGE_MIN (N / D) e ltac:(done) Hq ltac:(numbers; lia)) as (j & Hj & -> & Hj1 & Hj2). cbn [mbind result_bind].
  destruct (scaled_part N D dropped j Hdp Hj ltac:(tauto)) as (Em & Hd & Hb). rewrite Em in *.
  change (if dropped then guard_set_extra _ else _) with (guard_start neg dropped).
  assert (0 <= N * 10 ^ j) as HN.
  { assert (0 <= N) by (pose proof (Z.mul_div_le N D HD); nia). pose proof (Z.pow_nonneg 10 j ltac:(lia)). nia. }
  assert (qv (N * 10 ^ j) D (e - j) == qv N D e)%Q as Ev.
  { apply qv_shift; (done || lia). }
  destruct (scale_down_spec 39 MANTISSA_LARGE_MIN MANTISSA_LARGE_MAX (guard_start neg dropped) (N * 10 ^ j) D (e - j) ltac:(done) ltac:(done) HD HN)
    as [[E Hl]|(g' & D' & e' & E & HD' & Ev' & Hat' & Hn & Hm & He1 & He2 & Hmin)].
  - by apply guard_start_weak.
  - intros Hle. apply guard_start_at; [done|by apply Z.mod_pos_bound| |done].
    destruct dropped; [by apply Hb|]. destruct (Z.eq_dec ((N * 10 ^ j) mod D) 0); [lia|naive_solver].
  - destruct Hj1 as [->|[? _]]; [|numbers; lia]. rewrite Z.mul_1_r. numbers. lia.
  - rewrite E. apply overflow_error; [apply qv_nonneg; nia|]. rewrite Ev in Hl.
    apply Qlt_trans with (inject_Z MANTISSA_LARGE_MAX * q10 NUMBER_MAX_EXPONENT)%Q; [by apply q10_mult_lt|done].
  - rewrite E. cbn [mbind result_bind]. rewrite <- Ev, <- Ev'. rewrite guard_start_negative in Hn.
    destruct (Z.ltb_spec e' NUMBER_MIN_EXPONENT); [|destruct (Z.ltb_spec (N * 10 ^ j / D') MANTISSA_LARGE_MIN)].
    + apply underflow_zero; [by apply qv_nonneg|].
      apply Qlt_le_trans with (inject_Z (MANTISSA_LARGE_MAX + 1) * q10 e')%Q; [apply qv_lt_floor; lia|].
      apply int_q10_le; [numbers; lia|lia|].
      pose proof (Z.pow_le_mono_r 10 1 (NUMBER_MIN_EXPONENT - e') ltac:(lia) ltac:(lia)). numbers; nia.
    + apply underflow_zero; [by apply qv_nonneg|]. destruct Hmin as [?|[-> ->]]; [lia|].
      replace (e - j) with NUMBER_MIN_EXPONENT by lia. by apply qv_lt_floor.
    + cbn [orb]. apply finish_normalization_rounds; try done; try lia. numbers. lia.
Qed.

(** ** Decimal numbers: products and quotients

    At [Large330], [try_mul] and [try_div] return the correctly rounded product and
    quotient of two normalized numbers. *)

Implicit Types (x y : NumberParts).

(** ** Values *)

Lemma number_value_zero : (number_value number_zero == 0)%Q.
Proof. reflexivity. Qed.

Lemma zero_rounds mode (v : Q) : (v == 0)%Q -> correctly_rounded mode v (ROk number_zero).
Proof. intros ->. apply (underflow_zero mode false 0); [lra|reflexivity]. Qed.

Lemma normal_positive x : normal x -> x <> number_zero -> np_mantissa x <> 0.
Proof. intros Hn Hx E. destruct Hx. by apply normal_zero_inv. Qed.

Lemma normal_bounds x : normal x -> x <> number_zero ->
  MANTISSA_LARGE_MIN <= np_mantissa x <= MANTISSA_LARGE_MAX
  /\ NUMBER_MIN_EXPONENT <= np_exponent x <= NUMBER_MAX_EXPONENT.
Proof.
  intros Hn Hx. pose proof (normal_positive x Hn Hx) as Hp.
  apply (normal_nonzero x Hp) in Hn. tauto.
Qed.

Lemma signed_mult a b (u v : Q) : (signed a u * signed b v == signed (xorb a b) (u * v))%Q.
Proof. destruct a, b; simpl; ring. Qed.

Lemma value_mult x y :
  (signed (xorb (np_negative x) (np_negative y)) (qv (np_mantissa x * np_mantissa y) 1 (np_exponent x + np_exponent y))
   == number_value x * number_value y)%Q.
Proof.
  unfold number_value. rewrite signed_mult. unfold magnitude, qv. rewrite inject_Z_mult, q10_plus.
  apply signed_proper. field.
Qed.

Lemma value_div x y : 0 < np_mantissa y ->
  (signed (xorb (np_negative x) (np_negative y)) (qv (np_mantissa x) (np_mantissa y) (np_exponent x - np_exponent y))
   == number_value x / number_value y)%Q.
Proof.
  intros Hy. unfold number_value, magnitude, qv. set (u := np_exponent x). set (w := np_exponent y).
  assert (q10 u == q10 (u - w) * q10 w)%Q as ->.
  { rewrite <- q10_plus. by replace (u - w + w) with u by lia. }
  pose proof (q10_pos w). pose proof (inject_Z_pos _ Hy).
  destruct (np_negative x), (np_negative y); simpl; field; split; lra.
Qed.

(** ** Products *)

Lemma shrink_product_spec f g N D e :
  0 < D -> 0 <= N -> window_low <= N / D -> guard_weak g (N mod D) D ->
  (N / D <= NUMBER_MAX_REP_UP -> guard_at g (N mod D) D) ->
  N / D < NUMBER_MAX_REP_UP * 10 ^ Z.of_nat f -> -180000 <= e <= 180000 - Z.of_nat f ->
  exists g' D' e', shrink_product Large330 (S f) g (N / D) e MANTISSA_LARGE_MAX = ROk (g', N / D', e')
    /\ 0 < D' /\ (qv N D' e' == qv N D e)%Q /\ guard_at g' (N mod D') D' /\ ag_negative g' = ag_negative g
    /\ in_window N D' /\ e <= e' <= e + Z.of_nat f.
Proof.
  assert (forall m, (MANTISSA_LARGE_MAX <? m) || (rep_limit Large330 <? m) = (NUMBER_MAX_REP_UP <? m)) as Hc.
  { intros m. change (rep_limit Large330) with NUMBER_MAX_REP_UP.
    destruct (Z.ltb_spec NUMBER_MAX_REP_UP m); [apply orb_true_r|]. decide_ltb. done. }
  revert g D e. induction f as [|f IH]; intros g D e HD HN Hlow Hg Hat Hf He; cbn [shrink_product]; rewrite Hc.
  { change (10 ^ Z.of_nat 0) with 1 in Hf. rewrite (proj2 (Z.ltb_ge _ _)) by lia.
    exists g, D, e. unfold in_window. split_and!; try done; auto with lia. }
  destruct (Z.ltb_spec NUMBER_MAX_REP_UP (N / D)).
  2: { exists g, D, e. unfold in_window. split_and!; try done; auto with lia. }
  rewrite checked_i32_ok by (numbers; lia).
  destruct (guard_push_state g N D HD HN Hg) as [Hg' Em]. cbn [mbind result_bind]. rewrite Em.
  rewrite Nat2Z.inj_succ, Z.pow_succ_r in Hf by lia.
  destruct (IH (guard_push g ((N / D) mod 10)) (10 * D) (e + 1)) as (g' & D' & e' & E & HD' & Ev & Hat' & Hn & Hw & He'); try done; try lia.
  - rewrite <- Em. apply Z.div_le_lower_bound; numbers; lia.
  - apply guard_at_weak; [lia|apply Z.mod_pos_bound; lia|done].
  - rewrite <- Em. apply Z.div_lt_upper_bound; lia.
  - exists g', D', e'. split_and!; try done; try lia. by rewrite Ev, qv_push.
Qed.

Lemma try_mul_rounds mode x y : normal x -> normal y ->
  correctly_rounded mode (number_value x * number_value y) (try_mul mode Large330 x y).
Proof.
  intros Hx Hy. unfold try_mul.
  case_bool_decide as Ex; [subst; apply zero_rounds; rewrite number_value_zero; ring|].
  case_bool_decide as Ey; [subst; apply zero_rounds; rewrite number_value_zero; ring|].
  pose proof (normal_bounds x Hx Ex) as [Hmx Hex]. pose proof (normal_bounds y Hy Ey) as [Hmy Hey].
  rewrite <- value_mult. set (N := np_mantissa x * np_mantissa y).
  set (e := np_exponent x + np_exponent y). set (zn := xorb _ _).
  assert (10 ^ 36 <= N < 10 ^ 38) as HN by (subst N; numbers; nia).
  rewrite checked_u128_ok, checked_i32_ok by (subst e; numbers; lia). cbn [mbind result_bind].
  change (if zn then guard_set_negative guard_default else guard_default) with (guard_start zn false).
  change (mantissa_range_max Large330) with MANTISSA_LARGE_MAX. change (mantissa_range_min Large330) with MANTISSA_LARGE_MIN.
  rewrite <- (Z.div_1_r N).
  destruct (shrink_product_spec 39 (guard_start zn false) N 1 e) as (g' & D' & e' & -> & HD' & Ev & Hat & Hn & Hw & He');
    rewrite ?Z.div_1_r, ?Z.mod_1_r; try (numbers; lia).
  { by apply guard_start_weak. }
  cbn [mbind result_bind]. rewrite <- Ev. rewrite guard_start_negative in Hn.
  apply round_and_finish; try (done || lia). subst e. numbers. lia.
Qed.

(** ** Quotients *)

Lemma more_digits N D P : 0 < D ->
  (N * P) / D = N / D * P + (N mod D * P) / D /\ (N * P) mod D = (N mod D * P) mod D.
Proof.
  intros HD. rewrite (Z.div_mod N D) at 1 4 by lia.
  replace ((D * (N / D) + N mod D) * P) with (N mod D * P + N / D * P * D) by ring.
  rewrite Z.div_add, Z.mod_add by lia. lia.
Qed.

(** [try_div] from the seventeen-digit quotient on. *)
Definition refine_quotient (numerator dm ze : Z) : result NumberArithmeticError (Z * Z * bool) :=
  let zm := numerator / dm in
  let remainder := numerator mod dm in
  if remainder =? 0 then ROk (zm, ze, false)
  else
    let partial_numerator := remainder * 100000 in
    let correction := partial_numerator / dm in
    '(zm, ze) ←
      (if negb (correction =? 0) then
         zm ← checked_u128 ArOverflow (zm * 100000);
         ze ← checked_i32 ArOverflow (ze - 5);
         zm ← checked_u128 ArOverflow (zm + correction);
         ROk (zm, ze)
       else ROk (zm, ze));
    ROk (zm, ze, cusp_rounding_320_enabled Large330 && negb (partial_numerator mod dm =? 0)).

Lemma refine_quotient_spec N D e :
  0 < D -> 10 ^ 16 <= N / D < 10 ^ 18 -> -80000 <= e <= 80000 ->
  exists N' e' dropped, refine_quotient N D e = ROk (N' / D, e', dropped)
    /\ dropped_part N' D dropped /\ (qv N' D e' == qv N D e)%Q /\ -90000 <= e' <= 90000.
Proof.
  intros HD HM He. unfold refine_quotient. pose proof (Z.mod_pos_bound N D HD) as Hr.
  destruct (more_digits N D 100000 HD) as [Eq Er].
  destruct (Z.eqb_spec (N mod D) 0) as [E0|E0].
  { exists N, e, false. split_and!; try (done || lia). split; (done || lia || (numbers; lia)). }
  destruct (Z.eqb_spec (N mod D * 100000 / D) 0) as [Ec|Ec]; cbn [negb mbind result_bind].
  - assert (N mod D * 100000 < D) by (apply Z.div_small_iff in Ec; lia).
    exists N, e, true. rewrite (Z.mod_small (N mod D * 100000)) by lia.
    rewrite (proj2 (Z.eqb_neq _ _)) by lia. split_and!; try (done || lia).
    split; try (done || lia || (numbers; lia)).
  - assert (0 <= N mod D * 100000 / D < 100000) as Hc.
    { split; [apply Z.div_pos; lia|apply Z.div_lt_upper_bound; lia]. }
    rewrite !checked_u128_ok, checked_i32_ok by (numbers; lia). cbn [mbind result_bind].
    rewrite checked_u128_ok by (numbers; lia). cbn [mbind result_bind].
    exists (N * 10 ^ 5), (e - 5), (negb ((N mod D * 100000) mod D =? 0)).
    change (10 ^ 5) with 100000. rewrite Eq. split_and!; try (done || lia).
    + split; rewrite ?Eq, ?Er; try (done || (numbers; lia)).
    + by apply (qv_shift N D e 5).
Qed.

Lemma try_div_rounds mode x y : normal x -> normal y -> y <> number_zero ->
  correctly_rounded mode (number_value x / number_value y) (try_div mode Large330 x y).
Proof.
  intros Hx Hy Ey. unfold try_div. rewrite bool_decide_false by done.
  case_bool_decide as Ex; [subst; apply zero_rounds; rewrite number_value_zero; unfold Qdiv; ring|].
  pose proof (normal_bounds x Hx Ex) as [Hmx Hex]. pose proof (normal_bounds y Hy Ey) as [Hmy Hey].
  rewrite <- value_div by (numbers; lia). set (xm := np_mantissa x) in *. set (D := np_mantissa y) in *.
  set (e := np_exponent x - np_exponent y). set (zn := xorb _ _).
  assert (-70000 <= e <= 70000) as He by (subst e; numbers; lia).
  assert (0 < D) as HD by (numbers; lia). set (N := xm * 100000000000000000).
  assert (10 ^ 16 <= N / D < 10 ^ 18) as HM.
  { subst N. numbers. split; [apply Z.div_le_lower_bound; lia|apply Z.div_lt_upper_bound; lia]. }
  rewrite checked_u128_ok by (subst N; numbers; lia). cbn [mbind result_bind].
  rewrite !checked_i32_ok by (numbers; lia). cbn [mbind result_bind].
  rewrite !checked_i32_ok by (numbers; lia). cbn [mbind result_bind].
  rewrite bool_decide_false by done.
  destruct (refine_quotient_spec N D (e - 17) HD HM ltac:(lia)) as (N' & e' & dropped & E & Hdp & Ev & He').
  unfold refine_quotient in E. rewrite E. cbn [mbind result_bind].
  assert (qv N D (e - 17) == qv xm D e)%Q as Ev0 by (apply (qv_shift xm D e 17); lia).
  rewrite <- Ev0, <- Ev. apply normalize_rounds; [done|lia].
Qed.
