(* ===== verification/NumberSum.v ===== *)
(** * Decimal numbers: sums, differences, order and integers

    At [Large330], [try_add] and [try_sub] return the correctly rounded sum and
    difference of two normalized numbers. The operand with the larger exponent is
    expanded to at least [10^21] before digits of the other one are dropped, so what is
    dropped is past the last digit of the result even after a cancellation. *)

From Stdlib Require Import QArith Qabs Lqa.
From S2P Require Import Prelude Number NumberRound NumberSpec NumberNormal.

Implicit Types (g : ArithmeticGuard) (mode : RoundingMode) (x y : NumberParts).

Definition upper_limit : Z := MANTISSA_LARGE_MIN * 1000.

Definition guard_clear g : Prop := ag_digits g = 0 /\ ag_has_extra g = false.

Lemma guard_push_clear g : guard_clear g -> guard_push g 0 = g.
Proof. destruct g as [d x n]. intros [Hd Hx]. simpl in *. by subst. Qed.

Lemma guard_clear_at g D : 0 < D -> guard_clear g -> guard_at g 0 D.
Proof. intros HD [Hd Hx]. unfold guard_at. rewrite Hd, Hx, Z.mul_0_r, !Zdiv_0_l, !Zmod_0_l. done. Qed.

Lemma guard_clear_start n : guard_clear (guard_start n false).
Proof. by destruct n. Qed.

(** ** Aligning the exponents *)

Lemma shrink_zeroes_spec turns g m s e :
  guard_clear g -> 0 < m -> s <= e <= s + Z.of_nat turns -> -40000 <= s -> e <= 40000 ->
  exists a, 0 <= a /\ s + a <= e /\ m = m / 10 ^ a * 10 ^ a
    /\ shrink_zeroes turns g m s e = ROk (g, m / 10 ^ a, s + a).
Proof.
  intros Hg. revert m s. induction turns as [|turns IH]; intros m s Hm Hse Hs He; cbn [shrink_zeroes].
  { exists 0. rewrite Z.div_1_r, Z.add_0_r. auto with lia. }
  destruct (Z.ltb_spec s e), (Z.eqb_spec (m mod 10) 0) as [E|E]; cbn [andb].
  2-4: exists 0; rewrite Z.div_1_r, Z.add_0_r; auto with lia.
  rewrite checked_i32_ok by (numbers; lia). cbn [mbind result_bind]. rewrite E, guard_push_clear by done.
  pose proof (Z.div_mod m 10 ltac:(lia)) as Em.
  destruct (IH (m / 10) (s + 1) ltac:(lia) ltac:(lia) ltac:(lia) He) as (a & Ha & Hsa & Ea & ->).
  exists (a + 1). rewrite Z.pow_add_r, (Z.mul_comm (10 ^ a)), <- Z.div_div by lia.
  change (10 ^ 1) with 10. split_and!; [lia|lia|lia|]. do 2 f_equal. lia.
Qed.

Lemma expand_digits_spec turns m e s :
  0 < m < upper_limit * 10 -> s <= e <= s + Z.of_nat turns -> NUMBER_MIN_EXPONENT <= s -> e <= 40000 ->
  exists c, 0 <= c /\ s <= e - c /\ expand_digits turns m e s upper_limit = ROk (m * 10 ^ c, e - c)
    /\ (e - c = s \/ upper_limit <= m * 10 ^ c) /\ m * 10 ^ c < upper_limit * 10.
Proof.
  revert m e. induction turns as [|turns IH]; intros m e Hm Hse Hs He; cbn [expand_digits].
  { exists 0. rewrite Z.mul_1_r, Z.sub_0_r. auto with lia. }
  destruct (Z.ltb_spec s e), (Z.ltb_spec NUMBER_MIN_EXPONENT e), (Z.ltb_spec m upper_limit); cbn [andb];
    try (exfalso; lia);
    try (exists 0; rewrite Z.mul_1_r, Z.sub_0_r; split_and!; (done || lia)).
  rewrite checked_u128_ok by (unfold upper_limit in *; numbers; lia). cbn [mbind result_bind].
  rewrite checked_i32_ok by (numbers; lia). cbn [mbind result_bind].
  destruct (IH (m * 10) (e - 1)) as (c & Hc & Hsc & -> & Hor & Hb); try lia.
  exists (c + 1). rewrite Z.pow_add_r by lia. change (10 ^ 1) with 10.
  replace (m * (10 ^ c * 10)) with (m * 10 * 10 ^ c) by lia. replace (e - (c + 1)) with (e - 1 - c) by lia.
  split_and!; (done || lia).
Qed.

Lemma shrink_digits_spec turns g N D s e :
  0 < D -> 0 <= N -> guard_at g (N mod D) D -> s <= e <= s + Z.of_nat turns -> -40000 <= s -> e <= 40000 ->
  exists g' D', 0 < D' /\ D' = D * 10 ^ (e - s) /\ guard_at g' (N mod D') D'
    /\ shrink_digits turns g (N / D) s e = ROk (g', N / D', e).
Proof.
  revert g D s. induction turns as [|turns IH]; intros g D s HD HN Hg Hse Hs He; cbn [shrink_digits].
  { exists g, D. replace (e - s) with 0 by lia. replace s with e by lia. rewrite Z.mul_1_r. auto. }
  destruct (Z.ltb_spec s e).
  2: { exists g, D. replace (e - s) with 0 by lia. replace s with e by lia. rewrite Z.mul_1_r. auto. }
  rewrite checked_i32_ok by (numbers; lia). cbn [mbind result_bind].
  destruct (guard_push_state g N D HD HN) as [Hg' ->].
  { apply guard_at_weak; [done|by apply Z.mod_pos_bound|done]. }
  destruct (IH _ (10 * D) (s + 1) ltac:(lia) HN Hg') as (g' & D' & HD' & ED & Hat & ->); try lia.
  exists g', D'. split_and!; try done. rewrite ED. replace (e - s) with (1 + (e - (s + 1))) by lia.
  rewrite Z.pow_add_r by lia. change (10 ^ 1) with 10. ring.
Qed.

(** The operands at a common exponent [ae]: the larger is exact, the smaller is
    [al_small / al_den], of which the guard holds the fraction. *)
Record aligned (bm be sm se : Z) g (am ae ss D : Z) : Prop := {
  al_den : 0 < D;
  al_big : (inject_Z am * q10 ae == inject_Z bm * q10 be)%Q;
  al_small : (qv ss D ae == inject_Z sm * q10 se)%Q;
  al_guard : guard_at g (ss mod D) D;
  al_exact : D = 1 \/ (10 <= D /\ upper_limit <= am /\ NUMBER_MIN_EXPONENT < ae);
  al_bounds : 0 < ss <= MANTISSA_LARGE_MAX /\ 0 < am < upper_limit * 10
              /\ NUMBER_MIN_EXPONENT <= ae <= NUMBER_MAX_EXPONENT
}.

Lemma adjust_spec g bm be sm se :
  guard_clear g -> MANTISSA_LARGE_MIN <= bm <= MANTISSA_LARGE_MAX -> MANTISSA_LARGE_MIN <= sm <= MANTISSA_LARGE_MAX ->
  NUMBER_MIN_EXPONENT <= se -> se < be -> be <= NUMBER_MAX_EXPONENT ->
  exists g' am ae ss D, adjust Large330 g upper_limit bm be sm se = ROk (g', am, ae, ss / D, ae)
    /\ aligned bm be sm se g' am ae ss D /\ ss < am * D.
Proof.
  intros Hg Hbm Hsm Hse Hlt Hbe. unfold adjust. set (gap := Z.to_nat (be - se)). cbn [cusp_rounding_330_enabled].
  destruct (shrink_zeroes_spec gap g sm se be) as (a & Ha & Hsa & Ea & ->); try (done || numbers; lia).
  cbn [mbind result_bind]. set (ss := sm / 10 ^ a) in *.
  destruct (expand_digits_spec gap bm be (se + a)) as (c & Hc & Hsc & -> & Hor & Hb);
    try (unfold upper_limit; numbers; lia).
  cbn [mbind result_bind]. set (ae := be - c) in *.
  assert (0 < 10 ^ a) by (apply Z.pow_pos_nonneg; lia).
  assert (0 < ss <= MANTISSA_LARGE_MAX) as Hss by (numbers; nia).
  destruct (shrink_digits_spec gap g ss 1 (se + a) ae) as (g' & D & HD & ED & Hat & E); try (numbers; lia).
  { rewrite Z.mod_1_r. by apply guard_clear_at. }
  rewrite Z.div_1_r in E. rewrite E. cbn [mbind result_bind].
  exists g', (bm * 10 ^ c), ae, ss, D. split; [done|]. split; [split; try done|].
  - subst ae. rewrite (q10_unit bm (be - c) be) by lia. by replace (be - (be - c)) with c by lia.
  - rewrite ED, Z.mul_1_l. replace (qv ss (10 ^ (ae - (se + a))) ae) with (qv ss (10 ^ (ae - (se + a))) (se + a + (ae - (se + a)))) by (f_equal; lia).
    rewrite qv_pow, (q10_unit ss se (se + a)), Z.add_simpl_l, <- Ea by lia. reflexivity.
  - destruct (Z.eq_dec ae (se + a)) as [E0|E0]; [left|right].
    + rewrite ED, E0, Z.sub_diag. done.
    + pose proof (Z.pow_le_mono_r 10 1 (ae - (se + a)) ltac:(lia) ltac:(lia)). lia.
  - pose proof (Z.pow_pos_nonneg 10 c ltac:(lia) ltac:(lia)). split_and!; try (done || lia). numbers; nia.
  - assert (bm * 10 ^ c * D * 10 ^ a = bm * 10 ^ (be - se)) as Etot.
    { rewrite ED, Z.mul_1_l. replace (be - se) with (c + (ae - (se + a)) + a) by lia. rewrite !Z.pow_add_r by lia. ring. }
    pose proof (Z.pow_le_mono_r 10 1 (be - se) ltac:(lia) ltac:(lia)).
    apply (Z.mul_lt_mono_pos_r (10 ^ a)); [done|]. rewrite Etot, <- Ea. numbers. nia.
Qed.

(** ** After the alignment *)

Section Tail.
Context (mode : RoundingMode).

#[local] Notation normalized n m e dropped :=
  (normalize_arithmetic_parts_with_dropped mode Large330 4 n m e MANTISSA_LARGE_MIN MANTISSA_LARGE_MAX dropped).

Definition sum_tail g (n : bool) (m e : Z) : result NumberArithmeticError NumberParts :=
  normalized n m e (negb (guard_empty g)).

Definition lowered_tail g (n : bool) (m e : Z) : result NumberArithmeticError NumberParts :=
  let '(n, m, e) := do_round_down mode Large330 g n m e MANTISSA_LARGE_MIN in
  normalized n m e (negb (guard_empty g)).

Definition difference_tail g (n : bool) (m e : Z) : result NumberArithmeticError NumberParts :=
  '(g, m, e) ← recover_330 40 g m e upper_limit; lowered_tail g n m e.

Lemma guard_dropped g r D : guard_weak g r D -> negb (guard_empty g) = true <-> r <> 0.
Proof using. clear. intros [_ He]. rewrite negb_true_iff, <- not_true_iff_false. tauto. Qed.

Lemma sum_tail_rounds n bm be sm se g am ae ss D :
  aligned bm be sm se g am ae ss D ->
  correctly_rounded mode (signed n (qv (am * D + ss) D ae)) (sum_tail g n (am + ss / D) ae).
Proof using.
  clear. intros [HD _ _ Hg Hex Hb]. unfold sum_tail.
  assert (am + ss / D = (am * D + ss) / D) as -> by (by rewrite Z.div_add_l by lia).
  apply normalize_rounds; [|numbers; lia].
  assert ((am * D + ss) mod D = ss mod D) as Em by (rewrite Z.add_comm, Z.mod_add by lia; done).
  assert (0 <= ss / D <= ss) by (split; [apply Z.div_pos|apply Z.div_le_upper_bound]; nia).
  assert (negb (guard_empty g) = true <-> ss mod D <> 0) as Hd.
  { apply (guard_dropped g (ss mod D) D), guard_at_weak; [done|by apply Z.mod_pos_bound|done]. }
  split; rewrite ?Em, ?Z.div_add_l by lia; try done; try (unfold upper_limit in *; numbers; lia).
  intros E. left. destruct Hex as [->|Hex]; [|unfold upper_limit in *; numbers; lia].
  apply Hd in E. by rewrite Z.mod_1_r in E.
Qed.

Lemma bring_normalize n N D e dropped :
  dropped_part N D dropped -> (dropped = true -> MANTISSA_LARGE_MIN <= N / D) ->
  NUMBER_MIN_EXPONENT <= e <= 100000 ->
  correctly_rounded mode (signed n (qv N D e))
    (let '(n, m, e) := bring_into_range Large330 n (N / D) e MANTISSA_LARGE_MIN in normalized n m e dropped).
Proof using.
  clear. intros Hdp Hlow He. pose proof Hdp as [HD Hpos Hwid Hd _]. unfold bring_into_range.
  cbn [cusp_rounding_330_enabled negb orb]. rewrite (proj2 (Z.eqb_neq (N / D) 0)), andb_true_r by lia.
  destruct (Z.ltb_spec (N / D) MANTISSA_LARGE_MIN) as [Hm|Hm].
  2: { rewrite (proj2 (Z.ltb_ge e _)), (proj2 (Z.eqb_neq (N / D) 0)) by lia. apply normalize_rounds; [done|numbers; lia]. }
  assert (dropped = false) as -> by (destruct dropped; [specialize (Hlow eq_refl); lia|done]).
  assert (N mod D = 0) as Hr by (destruct (Z.eq_dec (N mod D) 0); naive_solver).
  unfold wrap_u128. rewrite Z.mod_small, wrap_i32_id by (unfold in_i32; numbers; lia).
  rewrite (proj2 (Z.eqb_neq (N / D * 10) 0)), orb_false_r by lia.
  destruct (Z.ltb_spec (e - 1) NUMBER_MIN_EXPONENT).
  - apply underflow_zero; [apply qv_nonneg; pose proof (Z.mul_div_le N D HD); nia|].
    replace e with NUMBER_MIN_EXPONENT by lia. by apply qv_lt_floor.
  - rewrite <- (qv_up N D e HD). destruct (more_digits N D 10 HD) as [Eq Er].
    rewrite Hr, Z.mul_0_l, Zmod_0_l, (Z.mul_comm N) in *. rewrite Zdiv_0_l, Z.add_0_r in Eq.
    rewrite <- Eq. apply normalize_rounds; [|numbers; lia].
    split; rewrite ?Er, ?Eq; (done || numbers; lia).
Qed.

(** A borrow: the digits in the guard are subtracted. *)
Lemma lowered_tail_rounds g n m r D N e :
  0 < D -> 0 <= r < D -> guard_weak g r D -> N = m * D - r -> 0 < N / D -> m < u128_modulus ->
  (r <> 0 -> MANTISSA_LARGE_MAX < N / D) -> NUMBER_MIN_EXPONENT <= e <= 100000 ->
  correctly_rounded mode (signed n (qv N D e)) (lowered_tail g n m e).
Proof using.
  clear. intros HD Hr Hg EN Hpos Hm Hbig He. pose proof (guard_dropped g r D Hg) as Hd.
  unfold lowered_tail, do_round_down. cbn [cusp_rounding_330_enabled].
  assert ((if negb (guard_empty g) then wrap_u128 (m - 1) else m) = N / D /\ (N mod D = 0 <-> r = 0)) as [-> Hr0].
  { destruct (Z.eq_dec r 0) as [E|E].
    - assert (negb (guard_empty g) = false) as -> by (destruct (negb _); naive_solver).
      assert (N = m * D) as -> by lia. rewrite Z.div_mul, Z.mod_mul by lia. done.
    - rewrite (proj2 Hd E).
      rewrite <- (Z.div_unique_pos N D (m - 1) (D - r)) in * by lia.
      rewrite <- (Z.mod_unique_pos N D (m - 1) (D - r)) by lia.
      split; [unfold wrap_u128; apply Z.mod_small; lia|lia]. }
  assert (N / D <= m) by (apply Z.div_le_upper_bound; lia).
  apply bring_normalize; [|intros E; apply Hd in E; specialize (Hbig E); numbers; lia|done].
  split; [done|done|lia|rewrite Hd; lia|]. intros E. left. apply Hbig. by apply Hd.
Qed.

Lemma recover_one g m e d g' :
  m < upper_limit -> upper_limit <= m * 10 - d -> m * 10 < u128_modulus -> 0 <= m -> 0 <= d ->
  guard_empty g = false -> guard_pop g = (d, g') -> -100000 <= e <= 100000 ->
  recover_330 40 g m e upper_limit = ROk (g', m * 10 - d, e - 1).
Proof using.
  clear. intros Hm Hge Hw H0 Hd0 Hne Hpop He. set (f := 38%nat). change 40%nat with (S (S f)). cbn [recover_330].
  rewrite Hne, (proj2 (Z.ltb_lt m _)) by done. cbn [andb negb].
  rewrite checked_u128_ok by lia. cbn [mbind result_bind]. rewrite Hpop.
  rewrite checked_i32_ok by (numbers; lia). cbn [mbind result_bind].
  rewrite Z.max_r by (unfold upper_limit in *; numbers; lia).
  by rewrite (proj2 (Z.ltb_ge (m * 10 - d) _)) by done.
Qed.

Lemma recover_none g m e : (upper_limit <= m \/ guard_empty g = true) ->
  recover_330 40 g m e upper_limit = ROk (g, m, e).
Proof using.
  clear. intros H. set (f := 39%nat). change 40%nat with (S f). cbn [recover_330].
  destruct H as [H|H]; [by rewrite (proj2 (Z.ltb_ge m _))|rewrite H; by rewrite andb_false_r].
Qed.

Lemma difference_tail_rounds n bm be sm se g am ae ss D :
  aligned bm be sm se g am ae ss D -> ss < am * D ->
  correctly_rounded mode (signed n (qv (am * D - ss) D ae)) (difference_tail g n (am - ss / D) ae).
Proof using.
  clear. intros [HD _ _ Hg Hex Hb] Hless. unfold difference_tail.
  pose proof (Z.mod_pos_bound ss D HD) as Hr. pose proof (Z.div_mod ss D ltac:(lia)) as Ess.
  assert (guard_weak g (ss mod D) D) as Hgw by (apply guard_at_weak; (done || lia)).
  set (r := ss mod D) in *. set (q := ss / D) in *. set (m := am - q).
  assert (am * D - ss = m * D - r) as EN by (subst m; nia).
  assert (0 <= q <= ss) by (subst q; split; [apply Z.div_pos|apply Z.div_le_upper_bound]; nia).
  assert (r <> 0 -> 10 * q <= MANTISSA_LARGE_MAX /\ upper_limit <= am /\ NUMBER_MIN_EXPONENT < ae) as Hr10.
  { intros E. destruct Hex as [->|Hex]; [subst r; by rewrite Z.mod_1_r in E|]. nia. }
  destruct (Z.lt_ge_cases m upper_limit) as [Hlt|Hge]; [destruct (guard_empty g) eqn:Eg|].
  - rewrite recover_none by auto. cbn [mbind result_bind].
    assert (r = 0) as Er by (by apply Hgw).
    apply (lowered_tail_rounds g n m r D); try done; try (subst m; unfold upper_limit in *; numbers; lia).
    rewrite EN, Er, Z.sub_0_r, Z.div_mul by lia. nia.
  - assert (r <> 0) as Er by (intros E; apply Hgw in E; congruence).
    destruct (Hr10 Er) as (Hq & Hup & Hae).
    destruct (guard_pop g) as [d g'] eqn:Ep. destruct (guard_pop_at g r D d g' HD Hr Hg Ep) as [Ed Hw'].
    assert (0 <= d <= 9) as Hd.
    { rewrite Ed. split; [apply Z.div_pos; lia|]. apply Z.lt_succ_r, Z.div_lt_upper_bound; lia. }
    pose proof (Z.div_mod (10 * r) D ltac:(lia)) as E10. rewrite <- Ed in E10.
    pose proof (Z.mod_pos_bound (10 * r) D HD) as Hr'.
    rewrite (recover_one g m ae d g') by (done || (subst m; unfold upper_limit in *; numbers; lia)).
    cbn [mbind result_bind]. rewrite <- (qv_up _ D ae HD).
    assert (m * 10 - d - 1 <= 10 * (am * D - ss) / D) by (apply Z.div_le_lower_bound; [done|]; rewrite EN; nia).
    apply (lowered_tail_rounds g' n (m * 10 - d) ((10 * r) mod D) D); try done;
      try (subst m; unfold upper_limit in *; numbers; lia).
  - rewrite recover_none by auto. cbn [mbind result_bind].
    apply (lowered_tail_rounds g n m r D); try done; try (subst m; unfold upper_limit in *; numbers; lia).
    + rewrite EN. apply Z.div_str_pos. unfold upper_limit in *. numbers. nia.
    + intros Er. rewrite EN. apply Z.lt_le_trans with (m - 1); [unfold upper_limit in *; numbers; lia|].
      apply Z.div_le_lower_bound; nia.
Qed.
End Tail.

(** ** Addition *)

Definition combine mode g (xn : bool) (xm xe : Z) (yn : bool) (ym ye : Z) : result NumberArithmeticError NumberParts :=
  if Bool.eqb xn yn then m ← checked_u128 ArOverflow (xm + ym); sum_tail mode g xn m xe
  else if ym <? xm then difference_tail mode g xn (xm - ym) xe
  else difference_tail mode g yn (ym - xm) ye.

Definition align x y : result NumberArithmeticError (ArithmeticGuard * Z * Z * Z * Z) :=
  let '(xn, xm, xe) := (np_negative x, np_mantissa x, np_exponent x) in
  let '(yn, ym, ye) := (np_negative y, np_mantissa y, np_exponent y) in
  if xe <? ye then
    let g := if xn then guard_set_negative guard_default else guard_default in
    '(g, ym, ye, xm, xe) ← adjust Large330 g upper_limit ym ye xm xe;
    ROk (g, xm, xe, ym, ye)
  else if ye <? xe then
    let g := if yn then guard_set_negative guard_default else guard_default in
    adjust Large330 g upper_limit xm xe ym ye
  else
    let g := if ((xm <? ym) && xn) || ((ym <? xm) && yn)
             then guard_set_negative guard_default else guard_default in
    ROk (g, xm, xe, ym, ye).

Lemma try_add_unfold mode x y :
  x <> number_zero -> y <> number_zero -> x <> number_neg y ->
  try_add mode Large330 x y
  = ('(g, xm, xe, ym, ye) ← align x y; combine mode g (np_negative x) xm xe (np_negative y) ym ye).
Proof.
  intros Hx Hy Hxy. unfold try_add. rewrite !bool_decide_false by done.
  unfold align. change (mantissa_range_min Large330 * 1000) with upper_limit.
  change (cusp_rounding_330_enabled Large330) with true. cbn [andb].
  match goal with |- (?A ≫= _) = (?B ≫= _) => change B with A; destruct A as [[[[[g xm] xe] ym] ye]| |]; try done end.
  cbn [mbind result_bind]. unfold combine. destruct (Bool.eqb _ _).
  - by destruct (checked_u128 _ _).
  - destruct (ym <? xm); unfold difference_tail, lowered_tail; cbn [mbind result_bind];
      (destruct (recover_330 _ _ _ _ _) as [[[g' m] e]| |]; [|done|done]);
      cbn [mbind result_bind]; by destruct (do_round_down _ _ _ _ _ _ _) as [[n' m'] e'].
Qed.

Lemma aligned_same g bm sm e :
  guard_clear g -> MANTISSA_LARGE_MIN <= bm <= MANTISSA_LARGE_MAX -> MANTISSA_LARGE_MIN <= sm <= MANTISSA_LARGE_MAX ->
  NUMBER_MIN_EXPONENT <= e <= NUMBER_MAX_EXPONENT -> aligned bm e sm e g bm e sm 1.
Proof.
  intros Hg Hbm Hsm He. split; try (reflexivity || lia || unfold upper_limit; numbers; lia).
  - unfold qv. field.
  - rewrite Z.mod_1_r. by apply guard_clear_at.
Qed.

Lemma qv_sum a b D e : 0 < D -> (qv (a * D + b) D e == inject_Z a * q10 e + qv b D e)%Q.
Proof.
  intros HD. unfold qv. rewrite inject_Z_plus, inject_Z_mult. field. by apply inject_Z_nonzero.
Qed.

Section Combine.
Context (mode : RoundingMode) (bn sn : bool) (bm be sm se : Z) (g : ArithmeticGuard) (am ae ss D : Z).
Context (Hal : aligned bm be sm se g am ae ss D).
#[local] Notation total := (signed bn (inject_Z bm * q10 be) + signed sn (inject_Z sm * q10 se))%Q.

Lemma total_same : bn = sn -> (signed bn (qv (am * D + ss) D ae) == total)%Q.
Proof using Hal.
  intros <-. destruct Hal as [HD Eb Es _ _ _]. rewrite qv_sum, Eb, Es by done. destruct bn; simpl; ring.
Qed.

Lemma total_opposite : bn <> sn -> (signed bn (qv (am * D - ss) D ae) == total)%Q.
Proof using Hal.
  intros Hne. destruct Hal as [HD Eb Es _ _ _].
  assert (qv (am * D - ss) D ae == inject_Z bm * q10 be - inject_Z sm * q10 se)%Q as ->.
  { rewrite <- Eb, <- Es. change (am * D - ss) with (am * D + - ss). rewrite qv_sum by done.
    unfold qv. rewrite inject_Z_opp. field. by apply inject_Z_nonzero. }
  destruct bn, sn; try done; simpl; ring.
Qed.

Lemma small_below : ss < am * D -> ss / D < am.
Proof using Hal. destruct Hal as [HD _ _ _ _ _]. intros. apply Z.div_lt_upper_bound; lia. Qed.

Lemma small_width : 0 <= am + ss / D < u128_modulus.
Proof using Hal.
  destruct Hal as [HD _ _ _ _ Hb].
  assert (0 <= ss / D <= ss) by (split; [apply Z.div_pos|apply Z.div_le_upper_bound]; nia).
  unfold upper_limit in *. numbers. lia.
Qed.

Lemma combine_big_first : (bn <> sn -> ss < am * D) ->
  correctly_rounded mode total (combine mode g bn am ae sn (ss / D) ae).
Proof using Hal.
  intros Hless. unfold combine. destruct (Bool.eqb bn sn) eqn:E.
  - apply eqb_prop in E. rewrite checked_u128_ok by apply small_width. cbn [mbind result_bind].
    rewrite <- total_same by done. by apply (sum_tail_rounds mode bn bm be sm se).
  - apply eqb_false_iff in E. specialize (Hless E). pose proof (small_below Hless).
    rewrite (proj2 (Z.ltb_lt (ss / D) am)) by lia. rewrite <- total_opposite by done.
    by apply (difference_tail_rounds mode bn bm be sm se).
Qed.

Lemma combine_big_second : (bn <> sn -> ss < am * D) ->
  correctly_rounded mode total (combine mode g sn (ss / D) ae bn am ae).
Proof using Hal.
  intros Hless. unfold combine. destruct (Bool.eqb sn bn) eqn:E.
  - apply eqb_prop in E. rewrite Z.add_comm, checked_u128_ok by apply small_width. cbn [mbind result_bind].
    rewrite <- total_same, E by done. by apply (sum_tail_rounds mode bn bm be sm se).
  - apply eqb_false_iff in E. specialize (Hless (not_eq_sym E)). pose proof (small_below Hless).
    rewrite (proj2 (Z.ltb_ge am (ss / D))) by lia. rewrite <- total_opposite by done.
    by apply (difference_tail_rounds mode bn bm be sm se).
Qed.
End Combine.

(** ** Exact results *)

Lemma rounds_in_self (repr : NumberParts -> Prop) mode x : repr x -> rounds_in repr mode (number_value x) x.
Proof.
  intros Hx. split; [done|]. destruct mode; [|split_and!; try done; lra..].
  intros w Hw. assert (number_value x - number_value x == 0)%Q as E0 by ring. rewrite E0. clear E0.
  change (Qabs 0) with 0%Q. split; [apply Qabs_nonneg|]. intros E Hne. destruct Hne.
  assert (Qabs (number_value w - number_value x) <= 0)%Q as E' by (rewrite <- E; lra).
  apply Qabs_Qle_condition in E'. lra.
Qed.

Lemma exact_rounds mode x : normal x -> correctly_rounded mode (number_value x) (ROk x).
Proof.
  intros Hx. split_and!; [done| |].
  - intros _. by apply rounds_in_self.
  - rewrite abs_number_value by done. intros Hs. left. apply normal_zero_inv; [done|].
    destruct (Z.eq_dec (np_mantissa x) 0); [done|]. pose proof (normal_ge_smallest x Hx n). lra.
Qed.

Lemma number_value_neg x : (number_value (number_neg x) == - number_value x)%Q.
Proof.
  unfold number_neg. destruct (Z.eqb_spec (np_mantissa x) 0) as [E|E].
  - rewrite number_value_zero. unfold number_value, magnitude. rewrite E. destruct (np_negative x); cbn [signed]; ring.
  - unfold number_value, magnitude. cbn [np_negative np_mantissa np_exponent].
    destruct (np_negative x); cbn [signed negb]; ring.
Qed.

Lemma normal_neg x : normal x -> normal (number_neg x).
Proof.
  unfold number_neg. destruct (Z.eqb_spec (np_mantissa x) 0) as [E|E]; [by intros _|].
  by rewrite !normal_nonzero.
Qed.

Lemma try_add_rounds mode x y : normal x -> normal y ->
  correctly_rounded mode (number_value x + number_value y) (try_add mode Large330 x y).
Proof.
  intros Hx Hy. destruct (decide (y = number_zero)) as [->|Ey].
  { unfold try_add. rewrite bool_decide_true by done. rewrite number_value_zero, Qplus_0_r. by apply exact_rounds. }
  destruct (decide (x = number_zero)) as [->|Ex].
  { unfold try_add. rewrite bool_decide_false, bool_decide_true by done.
    rewrite number_value_zero, Qplus_0_l. by apply exact_rounds. }
  destruct (decide (x = number_neg y)) as [->|Exy].
  { unfold try_add. rewrite !bool_decide_false, bool_decide_true by done.
    apply zero_rounds. rewrite number_value_neg. ring. }
  rewrite try_add_unfold by done.
  pose proof (normal_bounds x Hx Ex) as [Hmx Hex]. pose proof (normal_bounds y Hy Ey) as [Hmy Hey].
  unfold align, number_value, magnitude.
  destruct (Z.ltb_spec (np_exponent x) (np_exponent y)) as [Hlt|Hge].
  - change (if np_negative x then _ else _) with (guard_start (np_negative x) false).
    destruct (adjust_spec (guard_start (np_negative x) false) (np_mantissa y) (np_exponent y) (np_mantissa x) (np_exponent x))
      as (g & am & ae & ss & D & -> & Hal & Hless); try (done || lia || apply guard_clear_start).
    cbn [mbind result_bind]. rewrite Qplus_comm. by apply combine_big_second.
  - destruct (Z.ltb_spec (np_exponent y) (np_exponent x)) as [Hlt|Hge'].
    + change (if np_negative y then _ else _) with (guard_start (np_negative y) false).
      destruct (adjust_spec (guard_start (np_negative y) false) (np_mantissa x) (np_exponent x) (np_mantissa y) (np_exponent y))
        as (g & am & ae & ss & D & -> & Hal & Hless); try (done || lia || apply guard_clear_start).
      cbn [mbind result_bind]. by apply combine_big_first.
    + cbn [mbind result_bind]. set (neg := orb _ _). change (if neg then _ else _) with (guard_start neg false).
      replace (np_exponent y) with (np_exponent x) by lia.
      destruct (Z.lt_ge_cases (np_mantissa x) (np_mantissa y)).
      * pose proof (combine_big_second mode (np_negative y) (np_negative x) _ _ _ _ _ _ _ _ _
          (aligned_same (guard_start neg false) _ _ _ (guard_clear_start neg) Hmy Hmx Hex) ltac:(lia)) as HC.
        rewrite Z.div_1_r in HC. by rewrite Qplus_comm.
      * pose proof (combine_big_first mode (np_negative x) (np_negative y) _ _ _ _ _ _ _ _ _
          (aligned_same (guard_start neg false) _ _ _ (guard_clear_start neg) Hmx Hmy Hex)) as HC.
        rewrite Z.div_1_r in HC. apply HC. intros Hn. rewrite Z.mul_1_r.
        apply Z.le_neq. split; [lia|]. intros E. apply Exy. unfold number_neg.
        destruct (Z.eqb_spec (np_mantissa y) 0); [numbers; lia|].
        destruct x as [xn xm xe], y as [yn ym ye]; simpl in *. f_equal; try lia. by destruct xn, yn.
Qed.

(** [number_neg] is exact, so the difference is the sum with it. *)
Lemma try_sub_rounds mode x y : normal x -> normal y ->
  correctly_rounded mode (number_value x - number_value y) (try_sub mode Large330 x y).
Proof.
  intros Hx Hy. unfold try_sub, Qminus. rewrite <- number_value_neg. apply try_add_rounds; [done|by apply normal_neg].
Qed.

(** ** Decimal numbers: order and integers

    The comparison of normalized numbers is the order of their values, and the
    conversion to [i64] rounds the value to an integer in the mode of the thread. *)

(** ** Order *)

Lemma magnitude_exponent_lt x y : normal x -> normal y -> np_mantissa x <> 0 -> np_mantissa y <> 0 ->
  np_exponent x < np_exponent y -> (magnitude x < magnitude y)%Q.
Proof.
  intros Hx Hy Ex Ey He. apply (normal_nonzero x Ex) in Hx as (Hmx & _). apply (normal_nonzero y Ey) in Hy as (Hmy & _).
  apply Qlt_le_trans with (inject_Z (MANTISSA_LARGE_MAX + 1) * q10 (np_exponent x))%Q.
  - apply q10_mult_lt. lia.
  - apply int_q10_le; [numbers; lia|lia|].
    pose proof (Z.pow_le_mono_r 10 1 (np_exponent y - np_exponent x) ltac:(lia) ltac:(lia)). numbers. nia.
Qed.

Lemma magnitude_compare x y : normal x -> normal y -> np_mantissa x <> 0 -> np_mantissa y <> 0 ->
  (magnitude x ?= magnitude y)%Q
  = (if np_exponent x =? np_exponent y then np_mantissa x ?= np_mantissa y
     else if np_exponent y <? np_exponent x then Gt else Lt).
Proof.
  intros Hx Hy Ex Ey. destruct (Z.eqb_spec (np_exponent x) (np_exponent y)) as [E|E].
  - unfold magnitude. rewrite E. destruct (Z.compare_spec (np_mantissa x) (np_mantissa y)) as [->|L|L].
    + by apply Qeq_alt.
    + by apply Qlt_alt, q10_mult_lt.
    + by apply Qgt_alt, q10_mult_lt.
  - destruct (Z.ltb_spec (np_exponent y) (np_exponent x)).
    + by apply Qgt_alt, magnitude_exponent_lt.
    + apply Qlt_alt, magnitude_exponent_lt; (done || lia).
Qed.

Lemma magnitude_positive x : normal x -> np_mantissa x <> 0 -> (0 < magnitude x)%Q.
Proof.
  intros Hx Ex. apply Qlt_le_trans with smallest; [reflexivity|by apply normal_ge_smallest].
Qed.

Lemma Qcompare_opp (a b : Q) : (- a ?= - b)%Q = (b ?= a)%Q.
Proof.
  destruct (Qcompare_spec b a) as [E|E|E]; [apply (proj1 (Qeq_alt _ _))|apply (proj1 (Qlt_alt _ _))|apply (proj1 (Qgt_alt _ _))].
  - by rewrite E.
  - lra.
  - lra.
Qed.

Lemma number_compare_value x y : normal x -> normal y ->
  number_compare x y = (number_value x ?= number_value y)%Q.
Proof.
  intros Hx Hy. unfold number_compare.
  assert (forall z, normal z -> np_mantissa z = 0 -> np_negative z = false /\ (number_value z == 0)%Q) as Hzero.
  { intros z Hz E. by rewrite (normal_zero_inv z Hz E). }
  destruct (Z.eqb_spec (np_mantissa x) 0) as [Ex|Ex]; [destruct (Hzero x Hx Ex) as [-> Vx]|];
    (destruct (Z.eqb_spec (np_mantissa y) 0) as [Ey|Ey]; [destruct (Hzero y Hy Ey) as [-> Vy]|]).
  - simpl. rewrite Ey. simpl. symmetry. apply (proj1 (Qeq_alt _ _)). lra.
  - pose proof (magnitude_positive y Hy Ey). pose proof (normal_nonzero y Ey) as [Hb _]. specialize (Hb Hy).
    rewrite (proj2 (Z.ltb_lt 0 (np_mantissa y))) by (numbers; lia).
    unfold number_value at 2. destruct (np_negative y); simpl; symmetry; [apply (proj1 (Qgt_alt _ _))|apply (proj1 (Qlt_alt _ _))]; lra.
  - pose proof (magnitude_positive x Hx Ex).
    unfold number_value at 1. destruct (np_negative x); simpl; symmetry; [apply (proj1 (Qlt_alt _ _))|apply (proj1 (Qgt_alt _ _))]; lra.
  - pose proof (magnitude_positive x Hx Ex). pose proof (magnitude_positive y Hy Ey).
    unfold number_value. destruct (np_negative x), (np_negative y); cbn [Bool.eqb negb signed].
    + rewrite Qcompare_opp, magnitude_compare by done.
      destruct (Z.eqb_spec (np_exponent x) (np_exponent y)), (Z.eqb_spec (np_exponent y) (np_exponent x)); cbn [negb]; try (done || lia).
      destruct (Z.ltb_spec (np_exponent y) (np_exponent x)), (Z.ltb_spec (np_exponent x) (np_exponent y)); (done || lia).
    + symmetry. apply (proj1 (Qlt_alt _ _)). lra.
    + symmetry. apply (proj1 (Qgt_alt _ _)). lra.
    + rewrite magnitude_compare by done.
      destruct (Z.eqb_spec (np_exponent x) (np_exponent y)) as [|E]; cbn [negb]; [done|].
      destruct (Z.ltb_spec (np_exponent y) (np_exponent x)); done.
Qed.

Lemma number_compare_eq x y : normal x -> normal y -> number_compare x y = Eq -> x = y.
Proof.
  intros Hx Hy. unfold number_compare.
  destruct (Z.eqb_spec (np_mantissa x) 0) as [Ex|Ex].
  { rewrite (normal_zero_inv x Hx Ex). destruct (np_negative y) eqn:En; simpl; [done|].
    destruct (Z.ltb_spec 0 (np_mantissa y)); [done|]. intros _. symmetry. apply normal_zero_inv; [done|].
    destruct (Z.eq_dec (np_mantissa y) 0) as [|Ey]; [done|].
    apply (normal_nonzero y Ey) in Hy. numbers. lia. }
  destruct x as [xn xm xe], y as [yn ym ye]; simpl in *.
  destruct xn, yn; simpl; try done; destruct (Z.eqb_spec ym 0); try done;
    (destruct (Z.eqb_spec xe ye) as [->|]; simpl; [|by destruct (_ <? _)]);
    intros E%Z.compare_eq; by subst.
Qed.

(** ** Conversion to an integer *)

Definition rounds_int mode (v : Q) (k : Z) : Prop :=
  match mode with
  | Downward => inject_Z k <= v /\ v < inject_Z k + 1
  | Upward => inject_Z k - 1 < v /\ v <= inject_Z k
  | TowardsZero => (0 <= v -> inject_Z k <= v /\ v < inject_Z k + 1)
                   /\ (v <= 0 -> inject_Z k - 1 < v /\ v <= inject_Z k)
  | ToNearest => 2 * Qabs (v - inject_Z k) <= 1
                 /\ (2 * Qabs (v - inject_Z k) == 1 -> Z.even k = true)
  end%Q.

Definition integer_rounded mode (v : Q) (r : result NumberArithmeticError Z) : Prop :=
  match r with
  | ROk k => rounds_int mode v k /\ - NUMBER_MAX_REP <= k <= NUMBER_MAX_REP
  | RErr e => e = ArOverflow /\ (inject_Z NUMBER_MAX_REP < Qabs v)%Q
  | RFuel => False
  end.

#[global] Instance rounds_int_proper mode : Proper (Qeq ==> eq ==> iff) (rounds_int mode).
Proof. intros v v' E k _ <-. unfold rounds_int. destruct mode; setoid_rewrite E; reflexivity. Qed.

#[global] Instance integer_rounded_proper mode : Proper (Qeq ==> eq ==> iff) (integer_rounded mode).
Proof. intros v v' E r _ <-. unfold integer_rounded. destruct r; by rewrite ?E. Qed.

Lemma qv_int_bounds N D : 0 < D -> (inject_Z (N / D) <= qv N D 0 /\ qv N D 0 < inject_Z (N / D) + 1)%Q.
Proof.
  intros HD. split.
  - rewrite <- (Qmult_1_r (inject_Z (N / D))). change 1%Q with (q10 0). apply int_le_qv; [done|].
    rewrite Z.mul_comm. by apply Z.mul_div_le.
  - change 1%Q with (inject_Z 1). rewrite <- inject_Z_plus, <- (Qmult_1_r (inject_Z (_ + _))).
    change 1%Q with (q10 0). apply qv_lt_floor; lia.
Qed.

Lemma qv_int_fraction N D : 0 < D ->
  (qv N D 0 == inject_Z (N / D) + inject_Z (N mod D) / inject_Z D)%Q.
Proof.
  intros HD. unfold qv. change (q10 0) with 1%Q. rewrite (Z.div_mod N D) at 1 by lia.
  rewrite inject_Z_plus, inject_Z_mult. field. by apply inject_Z_nonzero.
Qed.

Lemma fraction_facts r D : 0 < D -> 0 <= r < D ->
  let f := (inject_Z r / inject_Z D)%Q in
  (0 <= f /\ f < 1)%Q /\ (0 <? r = true -> (0 < f)%Q) /\ (0 <? r = false -> (f == 0)%Q)
  /\ match (2 * r ?= D)%Z with Lt => 2 * f < 1 | Gt => 1 < 2 * f | Eq => 2 * f == 1 end%Q.
Proof.
  intros HD Hr f. assert (inject_Z r == f * inject_Z D)%Q as E by (unfold f; field; by apply inject_Z_nonzero).
  pose proof (inject_Z_pos D HD) as HDq. pose proof Hr as [H0 H1].
  rewrite Zle_Qle in H0. rewrite Zlt_Qlt in H1. change (inject_Z 0) with 0%Q in H0.
  assert (inject_Z (2 * r) == 2 * f * inject_Z D)%Q as E2 by (rewrite inject_Z_mult, E; ring).
  split_and!.
  - nra.
  - nra.
  - intros L%Z.ltb_lt. pose proof (inject_Z_pos r L) as L'. apply Qnot_le_lt. intros Hle. nra.
  - intros L%Z.ltb_ge. assert (r = 0) as -> by lia. unfold f. field. by apply inject_Z_nonzero.
  - destruct (Z.compare_spec (2 * r) D) as [C|C|C].
    + rewrite C in E2. assert (2 * f * inject_Z D == 1 * inject_Z D)%Q as E3 by (rewrite <- E2; ring).
      apply Qmult_inj_r in E3; [done|by apply inject_Z_nonzero].
    + rewrite Zlt_Qlt, E2 in C. apply (Qmult_lt_r _ _ (inject_Z D)); [done|lra].
    + rewrite Zlt_Qlt, E2 in C. apply (Qmult_lt_r _ _ (inject_Z D)); [done|lra].
Qed.

Definition round_i64_magnitude mode neg (N D : Z) : Z :=
  let d := round_dir mode neg (N mod D) D in
  if (d =? 1) || ((d =? 0) && Z.odd (N / D)) then N / D + 1 else N / D.

Lemma round_i64_choice mode neg N D : 0 < D -> 0 <= N ->
  let k := round_i64_magnitude mode neg N D in
  rounds_int mode (signed neg (qv N D 0)) (if neg then - k else k).
Proof.
  intros HD HN k. subst k. unfold round_i64_magnitude. rewrite qv_int_fraction by done.
  pose proof (Z.mod_pos_bound N D HD) as Hr. set (r := N mod D) in *.
  assert (0 <= inject_Z (N / D))%Q as Hq by (change 0%Q with (inject_Z 0); rewrite <- Zle_Qle; by apply Z.div_pos).
  set (q := N / D) in *.
  destruct (fraction_facts r D HD Hr) as (Hf & Hp & Hz & Hc). set (f := (inject_Z r / inject_Z D)%Q) in *.
  assert (inject_Z (q + 1) == inject_Z q + 1)%Q as E1 by (rewrite inject_Z_plus; reflexivity).
  assert (inject_Z (- q) == - inject_Z q)%Q as E2 by (rewrite inject_Z_opp; reflexivity).
  assert (inject_Z (- (q + 1)) == - inject_Z q - 1)%Q as E3 by (rewrite inject_Z_opp, E1; ring).
  destruct mode; unfold rounds_int, round_dir.
  - set (up := orb _ _). set (k := if neg then _ else _).
    assert (up = true -> 1 <= 2 * f /\ (2 * f == 1 -> Z.odd q = true))%Q as Hup.
    { subst up. destruct (2 * r ?= D); cbn [Z.eqb Pos.eqb orb andb]; intros; split; (done || lra || idtac); intros; (done || lra). }
    assert (up = false -> 2 * f <= 1 /\ (2 * f == 1 -> Z.odd q = false))%Q as Hdn.
    { subst up. destruct (2 * r ?= D); cbn [Z.eqb Pos.eqb orb andb]; intros; split; (done || lra || idtac); intros; (done || lra). }
    pose proof (abs_diff_cases (signed neg (inject_Z q + f)) (inject_Z k)) as Ha.
    assert (Z.even k = if up then Z.odd q else negb (Z.odd q)) as Hev.
    { subst k. rewrite Z.negb_odd. destruct neg, up; rewrite ?Z.even_opp, ?Z.even_add, <- ?Z.negb_even; by destruct (Z.even q). }
    clearbody up. rewrite Hev. destruct up.
    + destruct (Hup eq_refl) as [U1 U2]. split; [subst k; destruct neg, Ha as [[? ?]|[? ?]]; cbn [signed] in *; lra|].
      intros Et. apply U2. subst k; destruct neg, Ha as [[? ?]|[? ?]]; cbn [signed] in *; lra.
    + destruct (Hdn eq_refl) as [U1 U2]. split; [subst k; destruct neg, Ha as [[? ?]|[? ?]]; cbn [signed] in *; lra|].
      intros Et. rewrite U2; [done|]. subst k; destruct neg, Ha as [[? ?]|[? ?]]; cbn [signed] in *; lra.
  - destruct neg; cbn [Z.eqb Pos.eqb orb andb signed]; lra.
  - destruct neg, (0 <? r); cbn [Z.eqb Pos.eqb orb andb signed]; try specialize (Hp eq_refl); try specialize (Hz eq_refl); lra.
  - destruct neg, (0 <? r); cbn [Z.eqb Pos.eqb orb andb signed]; try specialize (Hp eq_refl); try specialize (Hz eq_refl); lra.
Qed.

Lemma do_round_i64_rounds mode g neg N D :
  0 < D -> 0 <= N -> guard_at g (N mod D) D -> ag_negative g = neg -> N / D <= NUMBER_MAX_REP ->
  integer_rounded mode (signed neg (qv N D 0)) (do_round_i64 mode g (N / D)).
Proof.
  intros HD HN Hg Hn Hq. pose proof (Z.mod_pos_bound N D HD) as Hr. pose proof (Z.div_pos N D HN HD) as Hq0.
  pose proof (round_i64_choice mode neg N D HD HN) as Hk. cbn zeta in Hk. unfold round_i64_magnitude in Hk.
  unfold do_round_i64. rewrite (guard_round_at mode g (N mod D) D HD Hr Hg), Hn.
  assert (forall k, 0 <= k <= NUMBER_MAX_REP -> (if neg then checked_i64 ArOverflow (- k) else ROk k) = ROk (if neg then - k else k)) as Hneg.
  { intros k Hk'. destruct neg; [|done]. unfold checked_i64. decide_ltb. done. }
  set (up := orb _ _) in *. destruct up eqn:Eup.
  - destruct (Z.eqb_spec (N / D) NUMBER_MAX_REP) as [E|E]; cbn [mbind result_bind].
    + split; [done|]. rewrite abs_signed by (by apply qv_nonneg).
      rewrite qv_int_fraction, E by done. destruct (fraction_facts (N mod D) D HD Hr) as (_ & Hp & _).
      destruct (0 <? N mod D) eqn:E0; [specialize (Hp eq_refl); lra|]. exfalso.
      apply Z.ltb_ge in E0. assert (N mod D = 0) as Er by lia. subst up. rewrite Er in Eup.
      unfold round_dir in Eup. rewrite (proj2 (Z.compare_lt_iff (2 * 0) D)) in Eup by lia. by destruct mode, neg.
    + rewrite Hneg by lia. split; [done|]. destruct neg; lia.
  - cbn [mbind result_bind]. rewrite Hneg by lia. split; [done|]. destruct neg; lia.
Qed.

Lemma drop_digits_spec turns g N D :
  0 < D -> 0 <= N -> guard_at g (N mod D) D ->
  exists g', drop_digits turns g (N / D) = (g', N / (D * 10 ^ Z.of_nat turns)) /\ ag_negative g' = ag_negative g
    /\ guard_at g' (N mod (D * 10 ^ Z.of_nat turns)) (D * 10 ^ Z.of_nat turns).
Proof.
  revert g D. induction turns as [|turns IH]; intros g D HD HN Hg; cbn [drop_digits].
  { exists g. by rewrite Z.mul_1_r. }
  pose proof (Z.div_pos N D HN HD). rewrite Z.rem_mod_nonneg, Z.quot_div_nonneg by lia.
  destruct (guard_push_state g N D HD HN) as [Hg' ->].
  { apply guard_at_weak; [done|by apply Z.mod_pos_bound|done]. }
  destruct (IH _ (10 * D) ltac:(lia) HN Hg') as (g' & -> & Hn & Hat).
  exists g'. rewrite Nat2Z.inj_succ, Z.pow_succ_r by lia.
  replace (D * (10 * 10 ^ Z.of_nat turns)) with (10 * D * 10 ^ Z.of_nat turns) by ring. done.
Qed.

Lemma append_zeroes_spec turns m : 0 < m <= NUMBER_MAX_REP ->
  append_zeroes turns m
  = if NUMBER_MAX_REP <? m * 10 ^ Z.of_nat turns then RErr ArOverflow else ROk (m * 10 ^ Z.of_nat turns).
Proof.
  revert m. induction turns as [|turns IH]; intros m Hm; cbn [append_zeroes].
  { rewrite Z.mul_1_r. by rewrite (proj2 (Z.ltb_ge _ _)) by lia. }
  change (Z.quot NUMBER_MAX_REP 10) with 922337203685477580.
  rewrite Nat2Z.inj_succ, Z.pow_succ_r by lia. pose proof (Z.pow_pos_nonneg 10 (Z.of_nat turns) ltac:(lia) ltac:(lia)).
  replace (m * (10 * 10 ^ Z.of_nat turns)) with (m * 10 * 10 ^ Z.of_nat turns) by ring.
  destruct (Z.ltb_spec 922337203685477580 m).
  - by rewrite (proj2 (Z.ltb_lt _ _)) by (numbers; nia).
  - apply IH. numbers. lia.
Qed.

Lemma external_parts_spec x : normal x -> np_mantissa x <> 0 ->
  exists m e, external_parts x = ROk (if np_negative x then - m else m, e)
    /\ 0 < m <= NUMBER_MAX_REP /\ (inject_Z m * q10 e == magnitude x)%Q
    /\ NUMBER_MIN_EXPONENT <= e <= NUMBER_MAX_EXPONENT + 1.
Proof.
  intros Hx Ex. apply (normal_nonzero x Ex) in Hx as (Hm & Hc & He). unfold external_parts, magnitude.
  rewrite (proj2 (Z.eqb_neq _ _) Ex).
  destruct (Z.ltb_spec NUMBER_MAX_REP (np_mantissa x)).
  - destruct Hc as [?|Hc]; [lia|]. pose proof (Z.div_mod (np_mantissa x) 10 ltac:(lia)) as E.
    exists (np_mantissa x / 10), (np_exponent x + 1). rewrite checked_i32_ok by (numbers; lia).
    cbn [mbind result_bind]. unfold checked_i64. decide_ltb. cbn [mbind result_bind].
    split_and!; try (done || (numbers; lia)).
    rewrite (q10_unit _ (np_exponent x) (np_exponent x + 1)), Z.add_simpl_l by lia.
    change (10 ^ 1) with 10. by replace (np_mantissa x / 10 * 10) with (np_mantissa x) by lia.
  - exists (np_mantissa x), (np_exponent x). cbn [mbind result_bind]. unfold checked_i64. decide_ltb.
    split_and!; try (done || (numbers; lia)).
Qed.

(** What [try_to_i64] does once the mantissa fits an [i64]. *)
Lemma to_i64_of_parts mode x m e (neg := np_negative x) :
  external_parts x = ROk (if neg then - m else m, e) -> 0 < m <= NUMBER_MAX_REP ->
  integer_rounded mode (signed neg (inject_Z m * q10 e)) (try_to_i64 mode x).
Proof.
  intros Ep Hm. unfold try_to_i64. rewrite Ep. cbn [map_err mbind result_bind]. subst neg.
  assert ((if np_negative x then - m else m) =? 0 = false) as -> by (apply Z.eqb_neq; destruct (np_negative x); lia).
  assert ((if np_negative x
           then drops ← checked_i64 ArOverflow (- (if np_negative x then - m else m)); ROk (guard_set_negative guard_default, drops)
           else ROk (guard_default, if np_negative x then - m else m))
          = @ROk NumberArithmeticError _ (guard_start (np_negative x) false, m)) as ->.
  { destruct (np_negative x); [|done]. rewrite Z.opp_involutive. unfold checked_i64. decide_ltb. done. }
  cbn [mbind result_bind]. set (neg := np_negative x).
  pose proof (guard_clear_at (guard_start neg false) 1 ltac:(lia) (guard_clear_start neg)) as Hg.
  destruct (Z.lt_ge_cases e 0) as [Hneg|Hpos].
  - destruct (drop_digits_spec (Z.to_nat (- e)) (guard_start neg false) m 1) as (g' & E & Hn & Hat); try lia.
    { by rewrite Z.mod_1_r. }
    rewrite Z.div_1_r in E. rewrite E. rewrite guard_start_negative in Hn. rewrite Z.mul_1_l, Z2Nat.id in * by lia.
    replace (Z.to_nat e) with 0%nat by lia. cbn [append_zeroes mbind result_bind].
    rewrite <- (qv_pow m e (- e)), Z.add_opp_diag_r by lia.
    assert (0 < 10 ^ - e) by (apply Z.pow_pos_nonneg; lia).
    apply do_round_i64_rounds; try done; try lia. apply Z.div_le_upper_bound; nia.
  - replace (Z.to_nat (- e)) with 0%nat by lia. cbn [drop_digits]. rewrite append_zeroes_spec, Z2Nat.id by lia.
    assert (inject_Z m * q10 e == qv (m * 10 ^ e) 1 0)%Q as ->.
    { rewrite (q10_unit m 0 e), Z.sub_0_r by lia. unfold qv. field. }
    pose proof (Z.pow_pos_nonneg 10 e ltac:(lia) ltac:(lia)).
    destruct (Z.ltb_spec NUMBER_MAX_REP (m * 10 ^ e)); cbn [mbind result_bind].
    + split; [done|]. rewrite abs_signed by (apply qv_nonneg; nia).
      rewrite <- (Qmult_1_r (inject_Z NUMBER_MAX_REP)). change 1%Q with (q10 0). apply int_lt_qv; lia.
    + rewrite <- (Z.div_1_r (m * 10 ^ e)) at 2. apply do_round_i64_rounds; try (done || lia).
      * by rewrite Z.mod_1_r.
      * apply guard_start_negative.
      * by rewrite Z.div_1_r.
Qed.

Lemma try_to_i64_rounds mode x : normal x -> integer_rounded mode (number_value x) (try_to_i64 mode x).
Proof.
  intros Hx. destruct (Z.eq_dec (np_mantissa x) 0) as [Ex|Ex].
  { rewrite (normal_zero_inv x Hx Ex), number_value_zero.
    split; [by destruct mode|numbers; lia]. }
  destruct (external_parts_spec x Hx Ex) as (m & e & Ep & Hm & Ev & _).
  unfold number_value. rewrite <- Ev. by apply to_i64_of_parts.
Qed.

(** ** Representable values *)

Lemma normal_value_inj x y : normal x -> normal y -> (number_value x == number_value y)%Q -> x = y.
Proof.
  intros Hx Hy E. apply number_compare_eq; [done|done|]. rewrite number_compare_value by done. by apply Qeq_alt.
Qed.

Lemma rounds_to_exact (repr : NumberParts -> Prop) mode v z w :
  rounds_in repr mode v z -> repr w -> (number_value w == v)%Q -> (number_value z == v)%Q.
Proof.
  intros Hr Hw E. destruct (rounds_monotone repr mode v z w Hr Hw) as [M1 M2].
  apply Qle_antisym; rewrite <- E; [apply M1|apply M2]; lra.
Qed.

(** A representable value is returned as it is. *)
Lemma rounded_exact mode v r w :
  correctly_rounded mode v r -> normal w -> (number_value w == v)%Q -> (Qabs v <= largest_number)%Q -> r = ROk w.
Proof.
  intros Hr Hw E Hl. destruct r as [z|err|]; [|destruct Hr; lra|done].
  destruct Hr as (Hz & Hbig & Hsmall). f_equal. apply normal_value_inj; [done|done|]. rewrite E.
  destruct (Qlt_le_dec (Qabs v) smallest) as [Hs|Hs].
  - assert (w = number_zero) as ->.
    { apply normal_zero_inv; [done|]. destruct (Z.eq_dec (np_mantissa w) 0) as [|Ew]; [done|].
      pose proof (normal_ge_smallest w Hw Ew). pose proof (abs_number_value w Hw) as A. rewrite E in A. lra. }
    rewrite number_value_zero in E. assert (Qabs v == 0)%Q as Ev by (rewrite <- E; reflexivity).
    assert (0 < smallest)%Q by reflexivity.
    destruct (Hsmall Hs) as [-> |(_ & Habs & _)]; [by rewrite number_value_zero|lra].
  - by apply (rounds_to_exact normal mode v z w); auto; apply Hbig.
Qed.

(** Every integer of an [i64] but the least one is a number. *)
Lemma integer_representable m : 0 < m <= NUMBER_MAX_REP ->
  exists j, 0 <= j <= 18 /\ MANTISSA_LARGE_MIN <= m * 10 ^ j <= MANTISSA_LARGE_MAX /\ (j = 0 \/ (m * 10 ^ j) mod 10 = 0).
Proof.
  intros Hm. destruct (scale_up_spec 39 MANTISSA_LARGE_MIN m 0 ltac:(done) ltac:(lia) ltac:(numbers; lia)) as (j & Hj & _ & H1 & H2).
  assert (j <= 18) as Hj18.
  { destruct H1 as [->|[Hb _]]; [lia|]. destruct (Z.le_gt_cases j 18); [done|].
    pose proof (Z.pow_le_mono_r 10 19 j ltac:(lia) ltac:(lia)). numbers. nia. }
  exists j. split; [lia|]. split.
  - split; [destruct H2; [done|numbers; lia]|]. destruct H1 as [->|[Hb _]]; [rewrite Z.mul_1_r|]; numbers; lia.
  - destruct (Z.eq_dec j 0); [by left|right]. replace j with (j - 1 + 1) by lia.
    rewrite Z.pow_add_r, Z.mul_assoc by lia. by apply Z.mod_mul.
Qed.

Lemma from_i64_exact mode m : - NUMBER_MAX_REP <= m <= NUMBER_MAX_REP ->
  exists x, from_i64 mode Large330 m = Ok x /\ normal x /\ (number_value x == inject_Z m)%Q.
Proof.
  intros Hm. unfold from_i64, from_i64_and_exponent.
  destruct (Z.eq_dec m 0) as [->|Hm0]; [by exists number_zero|].
  assert (external_to_internal_mantissa m = Z.abs m) as ->.
  { unfold external_to_internal_mantissa. destruct (Z.leb_spec 0 m); lia. }
  destruct (integer_representable (Z.abs m) ltac:(lia)) as (j & Hj & Hb & Hc).
  set (w := mkNumber (m <? 0) (Z.abs m * 10 ^ j) (- j)).
  assert (normal w) as Hw.
  { apply normal_nonzero; subst w; cbn [np_mantissa np_exponent]; [numbers; lia|]. split_and!; try (numbers; lia).
    destruct Hc as [->|?]; [left; rewrite Z.mul_1_r; lia|by right]. }
  assert (signed (m <? 0) (qv (Z.abs m) 1 0) == inject_Z m)%Q as Ev.
  { unfold qv. change (q10 0) with 1%Q. destruct (Z.ltb_spec m 0); cbn [signed].
    - rewrite Z.abs_neq, inject_Z_opp by lia. field.
    - rewrite Z.abs_eq by lia. field. }
  assert (number_value w == inject_Z m)%Q as Evw.
  { rewrite <- Ev. unfold number_value, magnitude. subst w. cbn [np_negative np_mantissa np_exponent].
    apply signed_proper. rewrite <- (qv_shift (Z.abs m) 1 0 j) by lia. unfold qv. change (0 - j) with (- j). field. }
  pose proof (normalize_rounds mode 3 (m <? 0) (Z.abs m) 1 0 false) as HR. rewrite Z.div_1_r, Ev in HR.
  exists w. split; [|done].
  unfold normalize_arithmetic_parts. rewrite (rounded_exact mode (inject_Z m) _ w); [done| |done|done|].
  - apply HR; [|lia]. split; rewrite ?Z.div_1_r, ?Z.mod_1_r; try (done || numbers; lia).
  - rewrite <- Ev, abs_signed by (by apply qv_nonneg; lia).
    apply Qle_trans with (inject_Z (Z.abs m) * q10 0)%Q; [apply qv_le_int; lia|].
    apply int_q10_le; [numbers; lia|numbers; lia|].
    pose proof (Z.pow_le_mono_r 10 0 (NUMBER_MAX_EXPONENT - 0) ltac:(lia) ltac:(numbers; lia)) as HP.
    set (P := 10 ^ (NUMBER_MAX_EXPONENT - 0)) in *. clearbody P. change (10 ^ 0) with 1 in HP. numbers. nia.
Qed.

Lemma rounds_int_exact mode m k : rounds_int mode (inject_Z m) k -> k = m.
Proof.
  intros Hr. assert (inject_Z k - 1 < inject_Z m /\ inject_Z m < inject_Z k + 1)%Q as [H1 H2].
  { unfold rounds_int in Hr. pose proof (abs_diff_cases (inject_Z m) (inject_Z k)) as Ha.
    destruct (Qlt_le_dec (inject_Z m) 0), mode; lra. }
  assert (k - 1 < m) by (rewrite Zlt_Qlt; unfold Z.sub; rewrite inject_Z_plus; exact H1).
  assert (m < k + 1) by (rewrite Zlt_Qlt, inject_Z_plus; exact H2). lia.
Qed.

Lemma try_to_i64_exact mode x m : normal x -> (number_value x == inject_Z m)%Q ->
  - NUMBER_MAX_REP <= m <= NUMBER_MAX_REP -> try_to_i64 mode x = ROk m.
Proof.
  intros Hx E Hm. pose proof (try_to_i64_rounds mode x Hx) as HR. rewrite E in HR.
  destruct (try_to_i64 mode x) as [k|err|]; [|exfalso|done].
  - destruct HR as [Hr _]. by rewrite (rounds_int_exact mode m k Hr).
  - destruct HR as [_ Hlt]. assert (Qabs (inject_Z m) <= inject_Z NUMBER_MAX_REP)%Q; [|lra].
    apply Qabs_Qle_condition. rewrite <- inject_Z_opp, <- !Zle_Qle. lia.
Qed.
