(* ===== verification/NumberTheorems.v ===== *)
(** * Decimal numbers: the theorems

    The claims about [number.rs] at the scale [Large330], the one of a thread without
    transaction rules and of rules with fixCleanup3_3_0: the
    four operations round correctly in every mode, the comparison is the order of the
    values, and integers survive the way through a number. *)

From Stdlib Require Import QArith Qabs Lqa.
From S2P Require Import Prelude Number NumberRound NumberSpec NumberNormal NumberSum.

Implicit Types (mode : RoundingMode) (x y : NumberParts).

(** C7: at the scale [Large330], addition and subtraction of numbers normalized at that
    scale return the correctly rounded exact result in each of the four modes: the
    representable value the mode asks for (ties to the even mantissa), zero or the least
    number below the range, and the overflow error only above the largest number;
    cancellation, the gap after [i64::MAX] and both ends of the exponent range included.
    [Large330] is the scale of a thread without transaction rules and of rules with
    fixCleanup3_3_0; the three older scales round sums at the gap differently
    ([older_scales_miss_the_gap]). *)
Theorem add_sub_correctly_rounded mode scale x y :
  scale = Large330 -> normal x -> normal y ->
  correctly_rounded mode (number_value x + number_value y) (try_add mode scale x y)
  /\ correctly_rounded mode (number_value x - number_value y) (try_sub mode scale x y).
Proof. intros -> Hx Hy. split; [by apply try_add_rounds|by apply try_sub_rounds]. Qed.

(** C8: at the scale [Large330], the product and the quotient of numbers normalized at that
    scale are correctly rounded in the same sense in each of the four modes, and a zero
    divisor is the [DivideByZero] error. *)
Theorem mul_div_correctly_rounded mode scale x y :
  scale = Large330 -> normal x -> normal y ->
  correctly_rounded mode (number_value x * number_value y) (try_mul mode scale x y)
  /\ if bool_decide (y = number_zero) then try_div mode scale x y = RErr ArDivideByZero
     else correctly_rounded mode (number_value x / number_value y) (try_div mode scale x y).
Proof.
  intros -> Hx Hy. split; [by apply try_mul_rounds|]. case_bool_decide as E.
  - unfold try_div. by rewrite bool_decide_true.
  - by apply try_div_rounds.
Qed.

(** C28: on normalized numbers [compare] is the order of the values, and only a number itself
    compares equal to it: a value has one normalized representation. *)
Theorem compare_is_value_order x y :
  normal x -> normal y ->
  number_compare x y = (number_value x ?= number_value y)%Q
  /\ (number_compare x y = Eq <-> x = y).
Proof.
  intros Hx Hy. split; [by apply number_compare_value|]. split; [by apply number_compare_eq|].
  intros ->. rewrite number_compare_value by done. apply (proj1 (Qeq_alt _ _)). reflexivity.
Qed.

(** C39: the conversion of a number normalized at the scale [Large330] to an [i64] rounds
    its value to an integer in the mode of the thread, ties to the even integer; the
    result is within [i64::MAX] on both sides, and the only error is an overflow, only for
    a value of a magnitude above [i64::MAX]. *)
Theorem to_i64_correctly_rounded mode x :
  normal x -> integer_rounded mode (number_value x) (try_to_i64 mode x).
Proof. apply try_to_i64_rounds. Qed.

(** every [i64] but [i64::MIN] becomes a normalized number of the same value and
    comes back as itself, whatever the two rounding modes. *)
Theorem i64_roundtrip mode mode' m :
  - NUMBER_MAX_REP <= m <= NUMBER_MAX_REP ->
  exists x, from_i64 mode Large330 m = Ok x /\ normal x /\ (number_value x == inject_Z m)%Q
    /\ try_to_i64 mode' x = ROk m.
Proof.
  intros Hm. destruct (from_i64_exact mode m Hm) as (x & E & Hx & Ev). exists x.
  split_and!; try done. by apply try_to_i64_exact.
Qed.

Module NumberDemo.

Definition one : NumberParts := number_one Large330.
Definition three : NumberParts := mkNumber false 3000000000000000000 (-18).
Definition top : NumberParts := mkNumber false NUMBER_MAX_REP 0.

Lemma add_sub_correctly_rounded_witness :
  try_add Upward Large330 top one = ROk (mkNumber false NUMBER_MAX_REP_UP 0)
  /\ correctly_rounded Upward (number_value top + number_value one) (try_add Upward Large330 top one)
  /\ correctly_rounded Upward (number_value top - number_value one) (try_sub Upward Large330 top one).
Proof.
  split; [vm_compute; reflexivity|]. apply (add_sub_correctly_rounded Upward Large330 top one); reflexivity.
Defined.

(** [i64::MAX + 0.6] rounded upward: the least number above is 9223372036854775810. *)
Definition fraction : NumberParts := mkNumber false 6000000000000000000 (-19).
Example older_scales_miss_the_gap :
  try_add Upward Large330 top fraction = ROk (mkNumber false 9223372036854775810 0)
  /\ try_add Upward LargeLegacy top fraction = ROk (mkNumber false 9223372036854775800 0)
  /\ try_add ToNearest Large330 top fraction = ROk top
  /\ try_add ToNearest Large320 top fraction = ROk (mkNumber false 9223372036854775810 0).
Proof. by vm_compute. Qed.

Lemma mul_div_correctly_rounded_witness :
  try_div ToNearest Large330 one three = ROk (mkNumber false 3333333333333333333 (-19))
  /\ correctly_rounded ToNearest (number_value one / number_value three) (try_div ToNearest Large330 one three).
Proof.
  split; [vm_compute; reflexivity|].
  apply (mul_div_correctly_rounded ToNearest Large330 one three); reflexivity.
Defined.

Lemma compare_is_value_order_witness :
  number_compare one three = Lt /\ number_compare one three = (number_value one ?= number_value three)%Q.
Proof.
  split; [reflexivity|]. apply (compare_is_value_order one three); reflexivity.
Defined.

Lemma to_i64_correctly_rounded_witness :
  try_to_i64 ToNearest (mkNumber true 2500000000000000000 (-18)) = ROk (-2)
  /\ integer_rounded ToNearest (number_value (mkNumber true 2500000000000000000 (-18)))
       (try_to_i64 ToNearest (mkNumber true 2500000000000000000 (-18))).
Proof.
  split; [vm_compute; reflexivity|]. apply (to_i64_correctly_rounded ToNearest). reflexivity.
Defined.

Lemma i64_roundtrip_witness :
  exists x, from_i64 ToNearest Large330 (-42) = Ok x /\ normal x /\ (number_value x == inject_Z (-42))%Q
    /\ try_to_i64 Upward x = ROk (-42).
Proof. apply (i64_roundtrip ToNearest Upward (-42)). numbers. lia. Defined.

End NumberDemo.
