(* ===== verification/IouAmount.v ===== *)
(** * Issued amounts

    [xrpl/protocol/src/amounts/iou_amount.rs] and its modules [normalization.rs],
    [rounding.rs], [mul_ratio.rs], [operators.rs], [traits.rs]: amounts with a sixteen
    digit mantissa, computed through [Number]. The guard of [rounding.rs] is the one of
    [number.rs] with the same fields and the same rounding decision, and is modelled by
    the same record. The rounding mode and the scale of the thread are parameters. *)

From S2P Require Import Prelude Number.

Definition MIN_IOU_EXPONENT : Z := -96.
Definition MAX_IOU_EXPONENT : Z := 80.
Definition MIN_IOU_MANTISSA : Z := 1000000000000000.
Definition MAX_IOU_MANTISSA : Z := 9999999999999999.
Definition IOU_ZERO_EXPONENT : Z := -100.

Record IOUAmount := mkIOU { iou_mantissa : Z; iou_exponent : Z }.

#[global] Instance IOUAmount_eq_dec : EqDecision IOUAmount.
Proof. solve_decision. Defined.

Definition iou_new : IOUAmount := mkIOU 0 IOU_ZERO_EXPONENT.
Definition iou_is_zero (a : IOUAmount) : bool := iou_mantissa a =? 0.
Definition iou_signum (a : IOUAmount) : Z :=
  if iou_mantissa a <? 0 then -1 else if iou_mantissa a =? 0 then 0 else 1.
Definition iou_min_positive_amount : IOUAmount := mkIOU MIN_IOU_MANTISSA MIN_IOU_EXPONENT.
Definition iou_neg (a : IOUAmount) : IOUAmount :=
  if iou_is_zero a then a else mkIOU (- iou_mantissa a) (iou_exponent a).

(** [u64::checked_mul] and [u64::try_from] *)
Definition checked_u64 {E} (e : E) (z : Z) : result E Z :=
  if (0 <=? z) && (z <=? u64_max) then ROk z else RErr e.

Section Issued.
Context (mode : RoundingMode) (scale : MantissaScale).
Implicit Types g : ArithmeticGuard.

(** ** Rounding: [rounding.rs] *)

Definition iou_bring_into_range (negative : bool) (mantissa exponent min_mantissa : Z) : bool * Z * Z :=
  let '(mantissa, exponent) :=
    if mantissa <? min_mantissa then (wrap_u128 (mantissa * 10), wrap_i32 (exponent - 1))
    else (mantissa, exponent) in
  if exponent <? NUMBER_MIN_EXPONENT then (false, 0, NUMBER_ZERO_EXPONENT)
  else (negative, mantissa, exponent).

Definition iou_do_round_up g (negative : bool) (mantissa exponent min_mantissa max_mantissa : Z)
    : result NumberArithmeticError (bool * Z * Z) :=
  let rounded := guard_round mode g in
  '(mantissa, exponent) ←
    (if (rounded =? 1) || ((rounded =? 0) && Z.odd mantissa) then
       mantissa ← checked_u128 ArOverflow (mantissa + 1);
       if (max_mantissa <? mantissa) || (NUMBER_MAX_REP <? mantissa) then
         exponent ← checked_i32 ArOverflow (exponent + 1);
         ROk (mantissa / 10, exponent)
       else ROk (mantissa, exponent)
     else ROk (mantissa, exponent));
  let '(n, m, e) := iou_bring_into_range negative mantissa exponent min_mantissa in
  if NUMBER_MAX_EXPONENT <? e then RErr ArOverflow else ROk (n, m, e).

(** ** Normalization: [normalization.rs] *)

Fixpoint iou_scale_up (fuel : nat) (mantissa exponent min_mantissa : Z)
    : result NumberArithmeticError (Z * Z) :=
  match fuel with
  | O => RFuel
  | S fuel' =>
      if (mantissa <? min_mantissa) && (NUMBER_MIN_EXPONENT <? exponent) then
        mantissa ← checked_u64 ArOverflow (mantissa * 10);
        iou_scale_up fuel' mantissa (exponent - 1) min_mantissa
      else ROk (mantissa, exponent)
  end.

Definition normalize_parts_to_range (negative : bool) (mantissa exponent min_mantissa max_mantissa : Z)
    : result NumberArithmeticError NumberParts :=
  if mantissa =? 0 then ROk number_zero
  else
    '(mantissa, exponent) ← iou_scale_up 40 mantissa exponent min_mantissa;
    let g := guard_default in
    let g := if negative then guard_set_negative g else g in
    '(g, mantissa, exponent) ← scale_down 40 g mantissa exponent max_mantissa;
    if (exponent <? NUMBER_MIN_EXPONENT) || (mantissa <? min_mantissa) then ROk number_zero
    else
      '(g, mantissa, exponent) ←
        (if NUMBER_MAX_REP <? mantissa then
           if NUMBER_MAX_EXPONENT <=? exponent then RErr ArOverflow
           else ROk (guard_push g (mantissa mod 10), mantissa / 10, exponent + 1)
         else ROk (g, mantissa, exponent));
      '(n, m, e) ← iou_do_round_up g negative mantissa exponent min_mantissa max_mantissa;
      m' ← u64_try ArOverflow m;
      ROk (mkNumber (n && negb (m =? 0)) m' e).

Definition runtime_number_from_external_parts (mantissa exponent : Z)
    : result NumberArithmeticError NumberParts :=
  let range := mantissa_range_new scale in
  normalize_parts_to_range (mantissa <? 0) (external_to_internal_mantissa mantissa) exponent
    (mr_min range) (mr_max range).

Definition normalize_runtime_number_to_range (number : NumberParts) (min_mantissa max_mantissa : Z)
    : result NumberArithmeticError NumberParts :=
  normalize_parts_to_range (np_negative number) (np_mantissa number) (np_exponent number)
    min_mantissa max_mantissa.

Definition signed_runtime_mantissa (number : NumberParts) : result NumberArithmeticError Z :=
  m ← checked_i64 ArOverflow (np_mantissa number);
  if np_negative number then checked_i64 ArOverflow (- m) else ROk m.

(** ** Conversions and sums: [iou_amount.rs] *)

Definition raw_iou_parts_from_number (number : NumberParts) : result NumberArithmeticError (Z * Z) :=
  normalized ← normalize_runtime_number_to_range number MIN_IOU_MANTISSA MAX_IOU_MANTISSA;
  m ← signed_runtime_mantissa normalized;
  ROk (m, np_exponent normalized).

Definition iou_from_number (number : NumberParts) : result NumberArithmeticError IOUAmount :=
  '(m, e) ← raw_iou_parts_from_number number;
  if (m =? 0) || (e <? MIN_IOU_EXPONENT) then ROk iou_new
  else if MAX_IOU_EXPONENT <? e then RErr ArOverflow
  else ROk (mkIOU m e).

Definition iou_normalize (a : IOUAmount) : result NumberArithmeticError IOUAmount :=
  if iou_mantissa a =? 0 then ROk iou_new
  else
    runtime ← runtime_number_from_external_parts (iou_mantissa a) (iou_exponent a);
    iou_from_number runtime.

Definition iou_from_parts (mantissa exponent : Z) : result NumberArithmeticError IOUAmount :=
  iou_normalize (mkIOU mantissa exponent).

(** [From<IOUAmount> for RuntimeNumber], with its [expect]. *)
Definition number_of_iou (a : IOUAmount) : outcome NumberParts :=
  or_throw (runtime_number_from_external_parts (iou_mantissa a) (iou_exponent a)).

(** The outer outcome is the [expect] of a conversion. *)
Definition iou_checked_add (a b : IOUAmount) : outcome (result NumberArithmeticError IOUAmount) :=
  if iou_is_zero b then Ok (ROk a)
  else if iou_is_zero a then Ok (ROk b)
  else
    x ← number_of_iou a;
    y ← number_of_iou b;
    Ok (sum ← try_add mode scale x y; iou_from_number sum).

Definition iou_checked_sub (a b : IOUAmount) : outcome (result NumberArithmeticError IOUAmount) :=
  iou_checked_add a (iou_neg b).

(** [Ord::cmp] *)
Definition iou_cmp (a b : IOUAmount) : outcome comparison :=
  x ← number_of_iou a; y ← number_of_iou b; Ok (number_compare x y).

(** ** Ratios: [mul_ratio.rs] *)

Fixpoint pow10_loop (turns : nat) (value : Z) : result NumberArithmeticError Z :=
  match turns with
  | O => ROk value
  | S turns' => value ← checked_u128 ArOverflow (value * 10); pow10_loop turns' value
  end.

Definition pow10_u128 (exponent : Z) : result NumberArithmeticError Z :=
  pow10_loop (Z.to_nat exponent) 1.

Fixpoint log10_loop (fuel : nat) (value log : Z) : Z :=
  match fuel with
  | O => log
  | S fuel' => if 10 <=? value then log10_loop fuel' (value / 10) (log + 1) else log
  end.

Definition log10_floor_u128 (value : Z) : Z := if value =? 0 then -1 else log10_loop 40 value 0.

Definition log10_ceil_u128 (value : Z) : outcome Z :=
  if value =? 0 then Ok 0
  else
    let floor := log10_floor_u128 value in
    power ← or_throw (pow10_u128 floor);
    Ok (if power =? value then floor else floor + 1).

(** The digits of the quotient that still fit. *)
Definition grow_quotient (low remainder denominator exponent room_to_grow : Z)
    : result NumberArithmeticError (Z * Z * Z) :=
  '(low, remainder, exponent) ←
    (if 0 <? room_to_grow then
       sc ← pow10_u128 room_to_grow;
       exponent ← checked_i32 ArOverflow (exponent - room_to_grow);
       low ← checked_u128 ArOverflow (low * sc);
       remainder ← checked_u128 ArOverflow (remainder * sc);
       ROk (low, remainder, exponent)
     else ROk (low, remainder, exponent));
  let add_remainder := remainder / denominator in
  low ← checked_u128 ArOverflow (low + add_remainder);
  ROk (low, remainder - add_remainder * denominator, exponent).

Definition shrink_quotient (low exponent must_shrink : Z) (has_remainder : bool)
    : result NumberArithmeticError (Z * Z * bool) :=
  if 0 <? must_shrink then
    sc ← pow10_u128 must_shrink;
    exponent ← checked_i32 ArOverflow (exponent + must_shrink);
    let low' := low / sc in
    ROk (low', exponent, has_remainder || negb (low - low' * sc =? 0))
  else ROk (low, exponent, has_remainder).

(** The last digit, rounded away from the truncated value. *)
Definition adjust_ratio (negative round_up has_remainder : bool) (a : IOUAmount)
    : result NumberArithmeticError IOUAmount :=
  if negb has_remainder then ROk a
  else if round_up && negb negative then
    if iou_is_zero a then ROk iou_min_positive_amount
    else m ← checked_i64 ArOverflow (iou_mantissa a + 1); iou_from_parts m (iou_exponent a)
  else if negb round_up && negative then
    if iou_is_zero a then iou_from_parts (- MIN_IOU_MANTISSA) MIN_IOU_EXPONENT
    else m ← checked_i64 ArOverflow (iou_mantissa a - 1); iou_from_parts m (iou_exponent a)
  else ROk a.

(** [num] and [den] are [u32]; the outer outcome is the [expect] of a logarithm. *)
Definition iou_mul_ratio (amount : IOUAmount) (num den : Z) (round_up : bool)
    : outcome (result NumberArithmeticError IOUAmount) :=
  if den =? 0 then Ok (RErr ArDivideByZero)
  else
    let negative := iou_mantissa amount <? 0 in
    match checked_u128 ArOverflow (Z.abs (iou_mantissa amount) * num) with
    | ROk multiplied =>
        let low := multiplied / den in
        let remainder := multiplied - low * den in
        grown ← (if negb (remainder =? 0) then
                   ceil ← log10_ceil_u128 low;
                   Ok (grow_quotient low remainder den (iou_exponent amount)
                         (log10_floor_u128 NUMBER_MAX_REP - ceil))
                 else Ok (ROk (low, remainder, iou_exponent amount)));
        match grown with
        | ROk (low, remainder, exponent) =>
            ceil ← log10_ceil_u128 low;
            Ok ('(low, exponent, has_remainder) ←
                  shrink_quotient low exponent (ceil - log10_floor_u128 NUMBER_MAX_REP)
                    (negb (remainder =? 0));
                m ← checked_i64 ArOverflow low;
                m ← (if negative then checked_i64 ArOverflow (- m) else ROk m);
                a ← iou_from_parts m exponent;
                adjust_ratio negative round_up has_remainder a)
        | RErr e => Ok (RErr e)
        | RFuel => OutOfFuel
        end
    | RErr e => Ok (RErr e)
    | RFuel => OutOfFuel
    end.

(** ** Operators: [operators.rs], where an error throws *)

Definition unwrap_result {E A} (r : outcome (result E A)) : outcome A := r ← r; or_throw r.

Definition iou_add (a b : IOUAmount) : outcome IOUAmount := unwrap_result (iou_checked_add a b).
Definition iou_sub (a b : IOUAmount) : outcome IOUAmount := unwrap_result (iou_checked_sub a b).

Definition is_upward : bool := match mode with Upward => true | _ => false end.

(** [rhs.unsigned_abs() as u32] keeps the low 32 bits. *)
Definition iou_mul (a : IOUAmount) (rhs : Z) : outcome IOUAmount :=
  r ← unwrap_result (iou_mul_ratio a (wrap_u32 (Z.abs rhs)) 1 is_upward);
  Ok (if rhs <? 0 then iou_neg r else r).

Definition iou_div (a : IOUAmount) (rhs : Z) : outcome IOUAmount :=
  r ← unwrap_result (iou_mul_ratio a 1 (wrap_u32 (Z.abs rhs)) is_upward);
  Ok (if rhs <? 0 then iou_neg r else r).
End Issued.
