(* ===== verification/IouRounding.v ===== *)
(** * Issued amounts: conversions, sums and order

    A canonical issued amount denotes a rational; [iou_from_number] returns the
    canonical amount the rounding mode asks for, and the way back into a [Number] is
    exact. *)

From Stdlib Require Import QArith Qabs Lqa.
From S2P Require Import Prelude Number NumberRound NumberSpec NumberNormal NumberSum IouAmount.

Implicit Types (g : ArithmeticGuard) (mode : RoundingMode) (a b : IOUAmount).

Ltac ious :=
  unfold MIN_IOU_EXPONENT, MAX_IOU_EXPONENT, MIN_IOU_MANTISSA, MAX_IOU_MANTISSA, IOU_ZERO_EXPONENT in *; numbers.

(** ** Canonical amounts and their values *)

Definition canonical a : Prop :=
  a = iou_new
  \/ (MIN_IOU_MANTISSA <= Z.abs (iou_mantissa a) <= MAX_IOU_MANTISSA
      /\ MIN_IOU_EXPONENT <= iou_exponent a <= MAX_IOU_EXPONENT).

Definition iou_number a : NumberParts :=
  mkNumber (iou_mantissa a <? 0) (Z.abs (iou_mantissa a)) (iou_exponent a).
Definition iou_value a : Q := number_value (iou_number a).
Definition iou_repr (z : NumberParts) : Prop := exists a, canonical a /\ z = iou_number a.

Definition iou_smallest : Q := inject_Z MIN_IOU_MANTISSA * q10 MIN_IOU_EXPONENT.
Definition iou_largest : Q := inject_Z MAX_IOU_MANTISSA * q10 MAX_IOU_EXPONENT.

Definition iou_rounded mode (v : Q) (r : result NumberArithmeticError IOUAmount) : Prop :=
  match r with
  | ROk a => canonical a
             /\ (iou_smallest <= Qabs v -> rounds_in iou_repr mode v (iou_number a))%Q
             /\ (Qabs v < iou_smallest ->
                 a = iou_new
                 \/ (Qabs (iou_value a) == iou_smallest /\ 9 * iou_smallest < 10 * Qabs v
                     /\ 0 < iou_value a * v))%Q
  | RErr e => e = ArOverflow /\ (iou_largest < Qabs v)%Q
  | RFuel => False
  end.

#[global] Instance iou_rounded_proper mode : Proper (Qeq ==> eq ==> iff) (iou_rounded mode).
Proof. intros v v' E r _ <-. unfold iou_rounded. destruct r; by rewrite ?E. Qed.

Lemma iou_value_new : (iou_value iou_new == 0)%Q.
Proof. reflexivity. Qed.

Lemma iou_repr_mag w : iou_repr w -> (0 <= magnitude w)%Q.
Proof.
  intros (a & Ha & ->). unfold magnitude, iou_number. cbn [np_mantissa np_exponent].
  apply Qmult_le_0_compat; [|apply Qlt_le_weak, q10_pos]. change 0%Q with (inject_Z 0). rewrite <- Zle_Qle. lia.
Qed.

Lemma iou_repr_null w : iou_repr w -> np_mantissa w = 0 -> (magnitude w == 0)%Q.
Proof. intros _ E. unfold magnitude. rewrite E. apply Qmult_0_l. Qed.

Lemma iou_zero_rounds mode (v : Q) : (0 <= Qabs v)%Q -> (Qabs v < iou_smallest)%Q -> iou_rounded mode v (ROk iou_new).
Proof. intros Hv Hs. split_and!; [by left| |by left]. intros; lra. Qed.

Lemma iou_overflow mode (v : Q) : (iou_largest < Qabs v)%Q -> iou_rounded mode v (RErr ArOverflow).
Proof. done. Qed.

(** ** Rounding to sixteen digits *)

Definition iou_window (N D : Z) : Prop := MIN_IOU_MANTISSA <= N / D <= MAX_IOU_MANTISSA.

(** The chosen neighbour with its exponent, or the end of the range it falls off. *)
Definition iou_settle (neg : bool) (k e : Z) : result NumberArithmeticError IOUAmount :=
  let '(k, e) := if MAX_IOU_MANTISSA <? k then (k / 10, e + 1) else (k, e) in
  if e <? MIN_IOU_EXPONENT then ROk iou_new
  else if MAX_IOU_EXPONENT <? e then RErr ArOverflow
  else ROk (mkIOU (if neg then - k else k) e).

Section Window.
Context (mode : RoundingMode) (neg : bool) (N D e : Z).
Context (HD : 0 < D) (HN : 0 <= N) (Hw : iou_window N D).

#[local] Notation k := (pick mode neg N D).
#[local] Notation L := (inject_Z (N / D) * q10 e)%Q.
#[local] Notation H := (inject_Z (N / D + 1) * q10 e)%Q.
#[local] Notation v := (qv N D e).

Lemma iou_neighbours : rep_below (N / D) = N / D /\ rep_above (N / D) = N / D + 1.
Proof using Hw. unfold iou_window in Hw. unfold rep_below, rep_above. ious. decide_ltb. done. Qed.

Lemma iou_pick_side : k = N / D \/ k = N / D + 1.
Proof using Hw. destruct iou_neighbours as [E1 E2]. destruct (pick_side mode neg N D) as [->| ->]; auto. Qed.

Lemma iou_chosen : chosen mode neg L H v (inject_Z k * q10 e).
Proof using HD Hw.
  pose proof (pick_chosen mode neg N D e HD) as Hc. destruct iou_neighbours as [E1 E2]. by rewrite E1, E2 in Hc.
Qed.

Lemma iou_bracket : (0 < L /\ L <= v /\ v < H)%Q.
Proof using HD HN Hw.
  unfold iou_window in Hw. split_and!.
  - rewrite <- (Qmult_0_l (q10 e)). change 0%Q with (inject_Z 0). apply q10_mult_lt. ious. lia.
  - apply int_le_qv; [done|]. rewrite Z.mul_comm. by apply Z.mul_div_le.
  - apply qv_lt_floor; lia.
Qed.

Lemma iou_gap w : iou_repr w -> np_mantissa w <> 0 -> (magnitude w <= L \/ H <= magnitude w)%Q.
Proof using Hw.
  intros (a & Ha & ->) Hm. unfold iou_number, magnitude in *. cbn [np_mantissa np_exponent] in *.
  destruct Ha as [->|[Hb He]]; [done|]. set (m := Z.abs (iou_mantissa a)) in *. set (f := iou_exponent a) in *.
  unfold iou_window in Hw. destruct (Z.lt_trichotomy f e) as [Hf|[->|Hf]].
  - left. apply int_q10_le; [ious; lia|lia|].
    pose proof (Z.pow_le_mono_r 10 1 (e - f) ltac:(lia) ltac:(lia)). ious. nia.
  - rewrite !q10_mult_le. lia.
  - right. apply int_q10_le; [ious; lia|lia|].
    pose proof (Z.pow_le_mono_r 10 1 (f - e) ltac:(lia) ltac:(lia)). ious. nia.
Qed.

Lemma iou_settled k' e' :
  (if MAX_IOU_MANTISSA <? k then (k / 10, e + 1) else (k, e)) = (k', e') ->
  MIN_IOU_MANTISSA <= k' <= MAX_IOU_MANTISSA /\ (inject_Z k' * q10 e' == inject_Z k * q10 e)%Q
  /\ (Z.even k = true -> Z.even k' = true).
Proof using Hw.
  intros Ek. assert (MIN_IOU_MANTISSA <= k <= MAX_IOU_MANTISSA + 1) as Hk.
  { unfold iou_window in Hw. destruct iou_pick_side as [->| ->]; lia. }
  destruct (Z.ltb_spec MAX_IOU_MANTISSA k); injection Ek as <- <-.
  - assert (k = 10000000000000000) as -> by (ious; lia).
    change (10000000000000000 / 10) with MIN_IOU_MANTISSA. split_and!; [done|done| |done].
    rewrite (q10_unit MIN_IOU_MANTISSA e (e + 1)), Z.add_simpl_l by lia. reflexivity.
  - split_and!; (done || lia).
Qed.

Lemma iou_tie : mode = ToNearest -> (2 * v == L + H)%Q -> Z.even k = true.
Proof using HD Hw.
  intros -> E. destruct iou_neighbours as [E1 E2].
  assert (qv (2 * N) D e == inject_Z (N / D + (N / D + 1)) * q10 e)%Q as Eq.
  { rewrite qv_double, E, !inject_Z_plus. ring. }
  apply pick_even; [done| |rewrite E1, E2; lia]. rewrite E1, E2.
  apply Z.le_antisymm; [apply (qv_le_int _ _ D e HD)|apply (int_le_qv _ _ D e HD)]; rewrite Eq; apply Qle_refl.
Qed.

Lemma iou_number_mk (m f : Z) : 0 < m -> iou_number (mkIOU (if neg then - m else m) f) = mkNumber neg m f.
Proof using.
  clear. intros Hm. unfold iou_number. cbn [iou_mantissa iou_exponent].
  destruct neg; [rewrite (proj2 (Z.ltb_lt _ _)) by lia|rewrite (proj2 (Z.ltb_ge _ _)) by lia]; f_equal; lia.
Qed.

Lemma iou_settled_rounds k' e' :
  (if MAX_IOU_MANTISSA <? k then (k / 10, e + 1) else (k, e)) = (k', e') ->
  MIN_IOU_EXPONENT <= e' <= MAX_IOU_EXPONENT ->
  iou_rounded mode (signed neg v) (ROk (mkIOU (if neg then - k' else k') e')).
Proof using HD HN Hw.
  intros Ek He. destruct (iou_settled k' e' Ek) as (Hk & Em & Hev). destruct iou_bracket as (HL & HLv & HvH).
  assert (0 < k') as Hpos by (ious; lia). set (a := mkIOU (if neg then - k' else k') e').
  assert (canonical a) as Ha.
  { right. subst a. cbn [iou_mantissa iou_exponent]. split; [destruct neg; lia|done]. }
  assert (iou_number a = mkNumber neg k' e') as Ea by (by apply iou_number_mk).
  assert (iou_repr (iou_number a)) as Hr by (by exists a).
  assert (magnitude (iou_number a) == inject_Z k * q10 e)%Q as Emag by (rewrite Ea; exact Em).
  pose proof (chosen_eq mode neg L H v _ _ Emag iou_chosen) as Hch.
  assert (np_negative (iou_number a) = neg) as Hn by (by rewrite Ea).
  pose proof (abs_signed neg v ltac:(lra)) as Av.
  split_and!; [done| |].
  - intros _. destruct mode eqn:Emode.
    + apply (rounds_nearest iou_repr iou_repr_mag iou_repr_null ToNearest neg L H); try done; [apply iou_gap|].
      intros Et. rewrite Ea. apply Hev. rewrite <- Emode in *. by apply iou_tie.
    + apply (rounds_zero iou_repr iou_repr_mag iou_repr_null TowardsZero neg L H); try done; apply iou_gap.
    + apply (rounds_down iou_repr iou_repr_mag iou_repr_null Downward neg L H); try done; apply iou_gap.
    + apply (rounds_upward iou_repr iou_repr_mag iou_repr_null Upward neg L H); try done; apply iou_gap.
  - intros Hs. right. rewrite Av in *. unfold iou_value. rewrite abs_number by (by apply iou_repr_mag).
    assert (iou_smallest <= magnitude (iou_number a))%Q as Hge.
    { rewrite Ea. unfold magnitude. cbn [np_mantissa np_exponent].
      apply int_q10_le; [lia|lia|]. pose proof (Z.pow_le_mono_r 10 0 (e' - MIN_IOU_EXPONENT) ltac:(lia) ltac:(lia)). nia. }
    assert (H <= iou_smallest)%Q as Hle.
    { destruct (iou_gap (iou_number iou_min_positive_amount)) as [G|G]; [exists iou_min_positive_amount; split; [by right|done]|done| |exact G].
      change (magnitude (iou_number iou_min_positive_amount)) with iou_smallest in G. lra. }
    assert (magnitude (iou_number a) == H)%Q as C by (destruct Hch as [_ [C|C] _]; lra).
    assert (9 * H < 10 * L)%Q as Hc.
    { unfold iou_window in Hw. assert (9 * (N / D + 1) < 10 * (N / D)) as Hz by (ious; lia).
      rewrite <- (q10_mult_lt _ _ e), !inject_Z_mult in Hz. change (inject_Z 9) with 9%Q in Hz.
      change (inject_Z 10) with 10%Q in Hz. lra. }
    split_and!; [lra|lra|]. unfold number_value. rewrite Hn, signed_square. apply Qmult_lt_0_compat; lra.
Qed.

Lemma iou_settle_rounds : iou_rounded mode (signed neg v) (iou_settle neg k e).
Proof using HD HN Hw.
  unfold iou_settle. destruct (if MAX_IOU_MANTISSA <? k then _ else _) as [k' e'] eqn:Ek.
  destruct (iou_settled k' e' Ek) as (Hk & Em & _). destruct iou_bracket as (HL & HLv & HvH).
  pose proof (abs_signed neg v ltac:(lra)) as Av.
  pose proof iou_pick_side as Hside.
  assert (e' = e \/ (e' = e + 1 /\ N / D = MAX_IOU_MANTISSA)) as He'.
  { destruct (Z.ltb_spec MAX_IOU_MANTISSA k); injection Ek as <- <-; [right|by left]. unfold iou_window in Hw. lia. }
  unfold iou_window in Hw.
  destruct (Z.ltb_spec e' MIN_IOU_EXPONENT) as [Hlt|Hge];
    [|destruct (Z.ltb_spec MAX_IOU_EXPONENT e') as [Hgt|Hgt]; [|by apply iou_settled_rounds]].
  - apply iou_zero_rounds; rewrite Av; [lra|]. apply Qlt_le_trans with H; [done|].
    apply int_q10_le; [ious; lia|ious; lia|].
    pose proof (Z.pow_le_mono_r 10 1 (MIN_IOU_EXPONENT - e) ltac:(lia) ltac:(lia)). ious. nia.
  - apply iou_overflow. rewrite Av. destruct He' as [->|[-> EM]].
    + apply Qlt_le_trans with L; [|done].
      apply Qlt_le_trans with (inject_Z (MAX_IOU_MANTISSA + 1) * q10 MAX_IOU_EXPONENT)%Q; [apply q10_mult_lt; lia|].
      apply int_q10_le; [ious; lia|ious; lia|].
      pose proof (Z.pow_le_mono_r 10 1 (e - MAX_IOU_EXPONENT) ltac:(lia) ltac:(lia)). ious. nia.
    + assert (L < v)%Q as HLv'.
      { apply Qle_lteq in HLv as [|E]; [done|]. exfalso. destruct iou_chosen as [Hex _ _].
        specialize (Hex (Qeq_sym _ _ E)). apply (Qlt_irrefl L). rewrite <- Hex at 2. apply q10_mult_lt.
        destruct (Z.ltb_spec MAX_IOU_MANTISSA k); injection Ek; intros; lia. }
      apply Qle_lt_trans with L; [|done]. rewrite EM.
      apply int_q10_le; [ious; lia|lia|].
      pose proof (Z.pow_le_mono_r 10 0 (e - MAX_IOU_EXPONENT) ltac:(lia) ltac:(lia)). ious. nia.
Qed.
End Window.

(** ** From a number *)

Lemma checked_u64_ok {E} (err : E) z : 0 <= z <= u64_max -> checked_u64 err z = ROk z.
Proof. intros Hz. unfold checked_u64. by rewrite (proj2 (Z.leb_le _ _)), (proj2 (Z.leb_le _ _)) by lia. Qed.

Lemma checked_i64_ok {E} (err : E) z : - NUMBER_MAX_REP <= z <= NUMBER_MAX_REP -> checked_i64 err z = ROk z.
Proof. intros Hz. unfold checked_i64. ious. by rewrite (proj2 (Z.leb_le _ _)), (proj2 (Z.leb_le _ _)) by lia. Qed.

Lemma iou_scale_up_eq f M e min : min <= MANTISSA_LARGE_MIN -> 0 <= M ->
  iou_scale_up f M e min = scale_up f M e min.
Proof.
  intros Hmin. revert M e. induction f as [|f IH]; intros M e HM; [done|]. cbn [iou_scale_up scale_up].
  destruct (Z.ltb_spec M min), (NUMBER_MIN_EXPONENT <? e); cbn [andb]; try done.
  rewrite checked_u64_ok, checked_u128_ok by (numbers; lia). cbn [mbind result_bind]. apply IH. lia.
Qed.

Definition iou_shift (k e : Z) : Z * Z := if MAX_IOU_MANTISSA <? k then (k / 10, e + 1) else (k, e).

Lemma iou_do_round_up_pick mode g neg N D e :
  0 < D -> 0 <= N -> iou_window N D -> guard_at g (N mod D) D -> ag_negative g = neg ->
  NUMBER_MIN_EXPONENT <= e <= 150000 ->
  iou_do_round_up mode g neg (N / D) e MIN_IOU_MANTISSA MAX_IOU_MANTISSA
  = let '(k, e) := iou_shift (pick mode neg N D) e in
    if NUMBER_MAX_EXPONENT <? e then RErr ArOverflow else ROk (neg, k, e).
Proof.
  intros HD HN Hw Hg Hn He. pose proof (Z.mod_pos_bound N D HD) as Hr.
  destruct (iou_neighbours N D Hw) as [E1 E2].
  pose proof (rounds_up_pick mode g (N / D) (N mod D) D HD Hr Hg E1 E2) as Hup.
  rewrite Hn in Hup. rewrite (Z.mul_comm (N / D)), <- Z.div_mod in Hup by lia.
  unfold iou_window in Hw. unfold iou_do_round_up, iou_shift, rounds_up in *. set (up := orb _ _) in *.
  assert (forall m e', MIN_IOU_MANTISSA <= m -> e <= e' ->
            iou_bring_into_range neg m e' MIN_IOU_MANTISSA = (neg, m, e')) as Hbring.
  { intros m e' Hm He'. unfold iou_bring_into_range.
    rewrite (proj2 (Z.ltb_ge m _)), (proj2 (Z.ltb_ge e' _)) by lia. done. }
  rewrite <- Hup. clear Hup. destruct up; cbn [mbind result_bind].
  - rewrite checked_u128_ok by (ious; lia). cbn [mbind result_bind].
    rewrite (proj2 (Z.ltb_ge NUMBER_MAX_REP _)), orb_false_r by (ious; lia).
    destruct (Z.ltb_spec MAX_IOU_MANTISSA (N / D + 1)); cbn [mbind result_bind].
    + rewrite checked_i32_ok by (ious; lia). cbn [mbind result_bind].
      rewrite Hbring; [done| |lia]. apply Z.div_le_lower_bound; ious; lia.
    + rewrite Hbring by lia. done.
  - rewrite (proj2 (Z.ltb_ge MAX_IOU_MANTISSA _)) by lia. rewrite Hbring by lia. done.
Qed.

(** What [iou_from_number] does after the normalization. *)
Lemma iou_finish mode neg N D e : 0 < D -> 0 <= N -> iou_window N D ->
  ('(m, e) ←
     (normalized ← ('(n, m, e) ←
          (let '(k, e) := iou_shift (pick mode neg N D) e in
           if NUMBER_MAX_EXPONENT <? e then RErr ArOverflow else ROk (neg, k, e));
        m' ← u64_try ArOverflow m; ROk (mkNumber (n && negb (m =? 0)) m' e));
      m ← signed_runtime_mantissa normalized; ROk (m, np_exponent normalized));
   if (m =? 0) || (e <? MIN_IOU_EXPONENT) then ROk iou_new
   else if MAX_IOU_EXPONENT <? e then RErr ArOverflow else ROk (mkIOU m e))
  = iou_settle neg (pick mode neg N D) e.
Proof.
  intros HD HN Hw. unfold iou_settle, iou_shift. destruct (if _ <? _ then _ else _) as [k e'] eqn:Ek.
  destruct (iou_settled mode neg N D e Hw k e' Ek) as (Hk & _).
  destruct (Z.ltb_spec NUMBER_MAX_EXPONENT e').
  { cbn [mbind result_bind]. rewrite (proj2 (Z.ltb_ge e' _)), (proj2 (Z.ltb_lt _ e')) by (ious; lia). done. }
  cbn [mbind result_bind]. unfold u64_try. rewrite (proj2 (Z.leb_le 0 k)), (proj2 (Z.leb_le k _)) by (ious; lia).
  cbn [andb mbind result_bind]. rewrite (proj2 (Z.eqb_neq k 0)) by (ious; lia).
  unfold signed_runtime_mantissa. cbn [np_mantissa np_negative np_exponent negb]. rewrite andb_true_r.
  rewrite checked_i64_ok by (ious; lia). cbn [mbind result_bind].
  destruct neg; [rewrite checked_i64_ok by (ious; lia)|]; cbn [mbind result_bind];
    rewrite (proj2 (Z.eqb_neq _ 0)) by (ious; lia); done.
Qed.

Lemma iou_from_number_rounds mode x :
  0 <= np_mantissa x <= u64_max -> (np_mantissa x <> 0 -> -150000 <= np_exponent x <= 100000) ->
  iou_rounded mode (number_value x) (iou_from_number mode x).
Proof.
  intros Hm He. unfold iou_from_number, raw_iou_parts_from_number, normalize_runtime_number_to_range, normalize_parts_to_range.
  destruct (Z.eqb_spec (np_mantissa x) 0) as [E0|E0].
  { assert (number_value x == 0)%Q as ->.
    { unfold number_value, magnitude. rewrite E0, Qmult_0_l. by destruct (np_negative x). }
    apply iou_zero_rounds; [discriminate|reflexivity]. }
  specialize (He E0). set (M := np_mantissa x) in *. set (e := np_exponent x) in *. set (neg := np_negative x).
  assert (number_value x == signed neg (qv M 1 e))%Q as ->.
  { unfold number_value. apply signed_proper. unfold magnitude, qv. fold M. fold e. field. }
  rewrite iou_scale_up_eq by (ious; lia).
  destruct (scale_up_spec 39 MIN_IOU_MANTISSA M e ltac:(done) ltac:(lia) ltac:(ious; lia)) as (j & Hj & -> & Hj1 & Hj2).
  cbn [mbind result_bind]. change (if neg then guard_set_negative guard_default else guard_default) with (guard_start neg false).
  assert (0 < 10 ^ j) as HP by (apply Z.pow_pos_nonneg; lia).
  assert (0 <= M * 10 ^ j) as HN by nia.
  rewrite <- (qv_shift M 1 e j) by lia.
  pose proof (guard_clear_at (guard_start neg false) 1 ltac:(lia) (guard_clear_start neg)) as Hclear.
  destruct (scale_down_spec 39 MIN_IOU_MANTISSA MAX_IOU_MANTISSA (guard_start neg false) (M * 10 ^ j) 1 (e - j))
    as [[E Hl]|(g' & D' & e' & E & HD' & Ev & Hat & Hn & Hmax & He1 & He2 & Hmin)]; try (rewrite ?Z.mod_1_r; done || lia).
  - rewrite Z.mod_1_r. by apply guard_start_weak.
  - rewrite Z.div_1_r. destruct Hj1 as [->|[? _]]; [rewrite Z.mul_1_r|]; ious; unfold u64_max in *; lia.
  - rewrite Z.div_1_r in E. rewrite E. cbn [mbind result_bind]. apply iou_overflow. rewrite abs_signed by (by apply qv_nonneg).
    eapply Qle_lt_trans; [|exact Hl]. apply int_q10_le; [ious; lia|ious; lia|].
    pose proof (Z.pow_le_mono_r 10 0 (NUMBER_MAX_EXPONENT - MAX_IOU_EXPONENT) ltac:(lia) ltac:(ious; lia)) as HP0.
    set (P0 := 10 ^ (NUMBER_MAX_EXPONENT - MAX_IOU_EXPONENT)) in *. clearbody P0. ious. nia.
  - rewrite Z.div_1_r in E. rewrite E. cbn [mbind result_bind]. rewrite <- Ev. rewrite guard_start_negative in Hn.
    destruct (Z.ltb_spec e' NUMBER_MIN_EXPONENT); [|destruct (Z.ltb_spec (M * 10 ^ j / D') MIN_IOU_MANTISSA)]; cbn [orb].
    + change (iou_rounded mode (signed neg (qv (M * 10 ^ j) D' e')) (ROk iou_new)).
      pose proof (qv_nonneg (M * 10 ^ j) D' e' HD' HN). apply iou_zero_rounds; rewrite abs_signed by done; [done|].
      apply Qlt_le_trans with (inject_Z (MAX_IOU_MANTISSA + 1) * q10 e')%Q; [apply qv_lt_floor; lia|].
      apply int_q10_le; [ious; lia|ious; lia|].
      pose proof (Z.pow_le_mono_r 10 1 (MIN_IOU_EXPONENT - e') ltac:(lia) ltac:(ious; lia)). ious; nia.
    + change (iou_rounded mode (signed neg (qv (M * 10 ^ j) D' e')) (ROk iou_new)).
      pose proof (qv_nonneg (M * 10 ^ j) D' e' HD' HN). apply iou_zero_rounds; rewrite abs_signed by done; [done|].
      destruct Hmin as [?|[-> ->]]; [lia|]. rewrite Z.div_1_r in *.
      apply Qlt_le_trans with (inject_Z MIN_IOU_MANTISSA * q10 (e - j))%Q; [apply qv_lt_floor; rewrite ?Z.div_1_r; lia|].
      apply int_q10_le; [ious; lia|ious; lia|].
      pose proof (Z.pow_le_mono_r 10 0 (MIN_IOU_EXPONENT - (e - j)) ltac:(lia) ltac:(ious; lia)). ious; nia.
    + rewrite (proj2 (Z.ltb_ge NUMBER_MAX_REP _)) by (ious; lia). cbn [mbind result_bind].
      rewrite (iou_do_round_up_pick mode g' neg) by (done || (ious; lia)).
      rewrite iou_finish by done. by apply iou_settle_rounds.
Qed.

(** ** Into a number *)

Lemma guard_round_clear mode g : guard_clear g -> guard_round mode g = -1.
Proof. destruct g as [d x n]. intros [Hd Hx]. simpl in *. subst. by destruct mode, n. Qed.

(** A multiple of ten in the range of the large scale is kept, past [i64::MAX] too. *)
Lemma keep_large mode g (neg : bool) m e :
  guard_clear g -> MANTISSA_LARGE_MIN <= m <= MANTISSA_LARGE_MAX -> m mod 10 = 0 -> -200 <= e <= 200 ->
  ('(g, mantissa, exponent) ←
     (if NUMBER_MAX_REP <? m then
        if NUMBER_MAX_EXPONENT <=? e then RErr ArOverflow
        else ROk (guard_push g (m mod 10), m / 10, e + 1)
      else ROk (g, m, e));
   '(n, m, e) ← iou_do_round_up mode g neg mantissa exponent MANTISSA_LARGE_MIN MANTISSA_LARGE_MAX;
   m' ← u64_try ArOverflow m;
   ROk (mkNumber (n && negb (m =? 0)) m' e))
  = ROk (mkNumber neg m e).
Proof.
  intros Hg Hm H10 He. pose proof (Z.div_mod m 10 ltac:(lia)) as Em.
  assert (forall m' e', MANTISSA_LARGE_MIN <= m' * 10 -> (MANTISSA_LARGE_MIN <= m' /\ m = m' /\ e' = e) \/ (m' < MANTISSA_LARGE_MIN /\ m = m' * 10 /\ e' = e + 1) ->
            ('(n, m, e) ← iou_do_round_up mode g neg m' e' MANTISSA_LARGE_MIN MANTISSA_LARGE_MAX;
             x ← u64_try ArOverflow m; ROk (mkNumber (n && negb (m =? 0)) x e)) = ROk (mkNumber neg m e)) as Hfin.
  { intros m' e' Hm' Hor. unfold iou_do_round_up. rewrite guard_round_clear by done. cbn [Z.eqb orb andb mbind result_bind].
    assert (iou_bring_into_range neg m' e' MANTISSA_LARGE_MIN = (neg, m, e)) as ->.
    { unfold iou_bring_into_range. destruct Hor as [(H1 & -> & ->)|(H1 & -> & ->)].
      - rewrite (proj2 (Z.ltb_ge m' _)), (proj2 (Z.ltb_ge e _)) by (numbers; lia). done.
      - rewrite (proj2 (Z.ltb_lt m' _)) by lia. unfold wrap_u128. rewrite Z.mod_small by (numbers; lia).
        rewrite wrap_i32_id by (unfold in_i32; numbers; lia). rewrite Z.add_simpl_r.
        rewrite (proj2 (Z.ltb_ge e _)) by (numbers; lia). done. }
    rewrite (proj2 (Z.ltb_ge NUMBER_MAX_EXPONENT e)) by (numbers; lia). cbn [mbind result_bind].
    unfold u64_try. rewrite (proj2 (Z.leb_le 0 m)), (proj2 (Z.leb_le m _)) by (numbers; unfold u64_max in *; lia).
    cbn [andb mbind result_bind]. rewrite (proj2 (Z.eqb_neq m 0)) by (numbers; lia). by rewrite andb_true_r. }
  destruct (Z.ltb_spec NUMBER_MAX_REP m).
  - rewrite (proj2 (Z.leb_gt NUMBER_MAX_EXPONENT e)) by (numbers; lia). cbn [mbind result_bind].
    rewrite H10, guard_push_clear by done. apply Hfin; [numbers; lia|].
    destruct (Z.lt_ge_cases (m / 10) MANTISSA_LARGE_MIN); [right; lia|numbers; lia].
  - apply Hfin; [numbers; lia|left; lia].
Qed.

Lemma number_of_iou_exact mode a : canonical a ->
  exists x, number_of_iou mode Large330 a = Ok x /\ normal x /\ (number_value x == iou_value a)%Q.
Proof.
  intros [->|[Hm He]]; [by exists number_zero|].
  unfold number_of_iou, runtime_number_from_external_parts, normalize_parts_to_range.
  cbn [mr_min mr_max mantissa_range_new mantissa_range_min mantissa_range_max].
  assert (external_to_internal_mantissa (iou_mantissa a) = Z.abs (iou_mantissa a)) as ->.
  { unfold external_to_internal_mantissa. destruct (Z.leb_spec 0 (iou_mantissa a)); lia. }
  set (M := Z.abs (iou_mantissa a)) in *. set (e := iou_exponent a) in *. set (neg := iou_mantissa a <? 0).
  rewrite (proj2 (Z.eqb_neq M 0)), iou_scale_up_eq by (ious; lia).
  destruct (scale_up_spec 39 MANTISSA_LARGE_MIN M e ltac:(done) ltac:(ious; lia) ltac:(ious; lia)) as (j & Hj & -> & Hj1 & Hj2).
  destruct Hj1 as [->|[Hub Hej]]; [ious; lia|].
  assert (1 <= j <= 4) as Hj4.
  { assert (j <> 0) by (intros ->; ious; lia). split; [lia|]. apply Z.nlt_ge. intros Hlt.
    pose proof (Z.pow_le_mono_r 10 5 j ltac:(lia) ltac:(lia)). ious. nia. }
  assert ((M * 10 ^ j) mod 10 = 0) as H10.
  { replace j with (j - 1 + 1) by lia. rewrite Z.pow_add_r, Z.mul_assoc by lia. by apply Z.mod_mul. }
  assert (MANTISSA_LARGE_MIN <= M * 10 ^ j <= MANTISSA_LARGE_MAX) as Hb.
  { destruct Hj2; [|ious; lia]. split; [done|]. numbers. lia. }
  set (m := M * 10 ^ j) in *. cbn [mbind result_bind].
  change (if neg then guard_set_negative guard_default else guard_default) with (guard_start neg false).
  set (g := guard_start neg false). set (f := 39%nat). change 40%nat with (S f). cbn [scale_down].
  rewrite (proj2 (Z.ltb_ge MANTISSA_LARGE_MAX m)) by lia. cbn [mbind result_bind].
  rewrite (proj2 (Z.ltb_ge (e - j) _)), (proj2 (Z.ltb_ge m MANTISSA_LARGE_MIN)) by (ious; lia). cbn [orb].
  rewrite keep_large by (done || apply guard_clear_start || (ious; lia)).
  exists (mkNumber neg m (e - j)). split_and!; [done| |].
  - apply normal_nonzero; cbn [np_mantissa np_exponent]; [numbers; lia|]. split_and!; try (ious; lia).
  - unfold iou_value, number_value, magnitude, iou_number. cbn [np_negative np_mantissa np_exponent].
    apply signed_proper. fold M. fold e. subst m. rewrite (q10_unit M (e - j) e) by lia.
    by replace (e - (e - j)) with j by lia.
Qed.

(** ** Issued amounts: sums and order

    A sum of issued amounts is rounded twice, to nineteen digits by [Number] and to
    sixteen by the conversion back. It is one of the two neighbours of the exact sum in
    every mode, and in the directed modes the one the mode asks for. *)


Section IouSums.
#[local] Open Scope Q_scope.

Implicit Types (c w : IOUAmount) (v : Q).

(** No canonical amount lies strictly between the exact value and the result. *)
Definition faithful v a : Prop :=
  forall w, canonical w ->
    (v <= iou_value w -> iou_value a <= iou_value w) /\ (iou_value w <= v -> iou_value w <= iou_value a).

(** What a sum or a difference of issued amounts promises. *)
Definition sum_rounded mode v (r : result NumberArithmeticError IOUAmount) : Prop :=
  match r with
  | ROk c => canonical c /\ faithful v c
             /\ (mode <> ToNearest -> iou_smallest <= Qabs v -> rounds_in iou_repr mode v (iou_number c))
  | RErr e => e = ArOverflow /\ iou_largest < Qabs v
  | RFuel => False
  end.

(** ** Canonical values among the numbers *)

Lemma canonical_number w : canonical w -> exists z, normal z /\ number_value z == iou_value w.
Proof. intros Hw. destruct (number_of_iou_exact ToNearest w Hw) as (z & _ & Hz & E). by exists z. Qed.

Lemma canonical_cases w : canonical w -> iou_value w == 0 \/ iou_smallest <= Qabs (iou_value w).
Proof.
  intros [->|[Hm He]]; [by left|right]. unfold iou_value.
  assert (iou_repr (iou_number w)) as Hr by (exists w; split; [by right|done]).
  rewrite abs_number by (by apply iou_repr_mag). unfold magnitude, iou_number. cbn [np_mantissa np_exponent].
  apply int_q10_le; [lia|lia|].
  pose proof (Z.pow_le_mono_r 10 0 (iou_exponent w - MIN_IOU_EXPONENT) ltac:(lia) ltac:(lia)). ious. nia.
Qed.

Lemma canonical_neg w : canonical w -> canonical (iou_neg w) /\ iou_value (iou_neg w) == - iou_value w.
Proof.
  intros Hw. unfold iou_neg, iou_is_zero. destruct (Z.eqb_spec (iou_mantissa w) 0) as [E|E].
  { split; [done|]. unfold iou_value, number_value, magnitude, iou_number. cbn [np_negative np_mantissa np_exponent].
    rewrite E. change (Z.abs 0) with 0%Z. rewrite Qmult_0_l. reflexivity. }
  destruct Hw as [->|[Hm He]]; [done|]. split.
  - right. cbn [iou_mantissa iou_exponent]. rewrite Z.abs_opp. done.
  - unfold iou_value, number_value, magnitude, iou_number. cbn [np_negative np_mantissa np_exponent iou_mantissa iou_exponent].
    rewrite Z.abs_opp. destruct (Z.ltb_spec (- iou_mantissa w) 0), (Z.ltb_spec (iou_mantissa w) 0); try lia; cbn [signed]; ring.
Qed.

Lemma canonical_max : canonical (mkIOU MAX_IOU_MANTISSA MAX_IOU_EXPONENT) /\ iou_value (mkIOU MAX_IOU_MANTISSA MAX_IOU_EXPONENT) == iou_largest.
Proof. split; [right; done|reflexivity]. Qed.

Lemma canonical_min : canonical iou_min_positive_amount /\ iou_value iou_min_positive_amount == iou_smallest.
Proof. split; [right; done|reflexivity]. Qed.

Lemma iou_rounded_faithful mode v a : iou_rounded mode v (ROk a) -> faithful v a.
Proof.
  intros (Ha & Hbig & Hsmall) w Hw. destruct (Qlt_le_dec (Qabs v) iou_smallest) as [Hs|Hs].
  - pose proof (canonical_cases w Hw) as Hcw. pose proof (abs_diff_cases v 0) as Av.
    pose proof (abs_diff_cases (iou_value w) 0) as Aw. unfold Qminus in *. rewrite !Qplus_0_r in *.
    destruct (Hsmall Hs) as [->|(Ea & Hc & Hsg)].
    + rewrite iou_value_new. lra.
    + pose proof (abs_diff_cases (iou_value a) 0) as Aa. unfold Qminus in *. rewrite !Qplus_0_r in *.
      destruct Aa as [[? ?]|[? ?]], Av as [[? ?]|[? ?]]; try nra; lra.
  - apply (rounds_monotone iou_repr mode v (iou_number a) (iou_number w) (Hbig Hs)). by exists w.
Qed.

(** ** Rounding twice *)

Lemma normal_cases z : normal z -> number_value z == 0 \/ smallest <= Qabs (number_value z).
Proof.
  intros Hz. destruct (Z.eq_dec (np_mantissa z) 0) as [E|E]; [left; by rewrite (normal_zero_inv z Hz E)|right].
  rewrite abs_number_value by done. by apply normal_ge_smallest.
Qed.

Lemma correctly_rounded_faithful mode v z (w : NumberParts) : correctly_rounded mode v (ROk z) -> normal w ->
  (v <= number_value w -> number_value z <= number_value w) /\ (number_value w <= v -> number_value w <= number_value z).
Proof.
  intros (Hz & Hbig & Hsmall) Hw. destruct (Qlt_le_dec (Qabs v) smallest) as [Hs|Hs].
  - pose proof (normal_cases w Hw) as Hcw. pose proof (abs_diff_cases v 0) as Av.
    pose proof (abs_diff_cases (number_value w) 0) as Aw. unfold Qminus in *. rewrite !Qplus_0_r in *.
    destruct (Hsmall Hs) as [->|(Ea & Hc & Hsg)].
    + rewrite number_value_zero. lra.
    + pose proof (abs_diff_cases (number_value z) 0) as Aa. unfold Qminus in *. rewrite !Qplus_0_r in *.
      destruct Aa as [[? ?]|[? ?]], Av as [[? ?]|[? ?]]; try nra; lra.
  - by apply (rounds_monotone normal mode v z w (Hbig Hs)).
Qed.

Lemma smallest_below : smallest <= iou_smallest.
Proof. apply int_q10_le; [ious; lia|ious; lia|]. vm_compute. discriminate. Qed.

Lemma largest_above : iou_largest <= largest_number.
Proof.
  apply int_q10_le; [ious; lia|ious; lia|].
  pose proof (Z.pow_le_mono_r 10 0 (NUMBER_MAX_EXPONENT - MAX_IOU_EXPONENT) ltac:(lia) ltac:(ious; lia)) as HP.
  set (P := (10 ^ (NUMBER_MAX_EXPONENT - MAX_IOU_EXPONENT))%Z) in *. clearbody P. ious. nia.
Qed.

(** Whatever the first rounding, a canonical amount is not jumped over by it. *)
Lemma first_rounding mode v z w : correctly_rounded mode v (ROk z) -> canonical w ->
  (v <= iou_value w -> number_value z <= iou_value w) /\ (iou_value w <= v -> iou_value w <= number_value z).
Proof.
  intros Hr Hw. destruct (canonical_number w Hw) as (y & Hy & E). rewrite <- E.
  by apply (correctly_rounded_faithful mode).
Qed.

Lemma first_rounding_abs mode v z w (u : Q) : correctly_rounded mode v (ROk z) -> canonical w -> iou_value w == u -> 0 <= u ->
  (Qabs v <= u -> Qabs (number_value z) <= u) /\ (u <= Qabs v -> u <= Qabs (number_value z)).
Proof.
  intros Hr Hw Eu Hu. destruct (canonical_neg w Hw) as [Cn En]. rewrite Eu in En.
  destruct (first_rounding mode v z w Hr Hw) as [M1 M2], (first_rounding mode v z _ Hr Cn) as [N1 N2].
  rewrite Eu in M1, M2. rewrite En in N1, N2.
  pose proof (abs_diff_cases v 0) as Av. pose proof (abs_diff_cases (number_value z) 0) as Az.
  unfold Qminus in *. rewrite !Qplus_0_r in *. split; intros Hle.
  - assert (number_value z <= u) by (apply M1; lra). assert (- u <= number_value z) by (apply N2; lra). lra.
  - destruct Av as [[? ?]|[? ?]]; [assert (number_value z <= - u) by (apply N1; lra)|assert (u <= number_value z) by (apply M2; lra)]; lra.
Qed.

Lemma from_normal_rounds mode z : normal z -> iou_rounded mode (number_value z) (iou_from_number mode z).
Proof.
  intros Hz. destruct (Z.eq_dec (np_mantissa z) 0) as [E|E].
  - apply iou_from_number_rounds; [rewrite E; unfold u64_max; lia|done].
  - apply (normal_nonzero z E) in Hz as (Hm & _ & He).
    apply iou_from_number_rounds; [unfold u64_max; ious; lia|ious; lia].
Qed.

Lemma directed_twice mode v z a : mode <> ToNearest -> rounds_to mode v z ->
  rounds_in iou_repr mode (number_value z) (iou_number a) -> rounds_in iou_repr mode v (iou_number a).
Proof.
  intros Hmode [Hz Hr] [Ha Hr2]. split; [done|]. destruct mode; [done| | |].
  - destruct Hr as (H1 & H2 & H3 & H4), Hr2 as (K1 & K2 & K3 & K4). split_and!; [lra|auto|auto|].
    intros w Hw Hle. apply K4; [done|]. destruct Hw as (b & Hb & ->).
    destruct (canonical_number b Hb) as (y & Hy & E). unfold iou_value in E. rewrite <- E in *. by apply H4.
  - destruct Hr as [H1 H2], Hr2 as [K1 K2]. split; [lra|]. intros w Hw Hle. apply K2; [done|].
    destruct Hw as (b & Hb & ->). destruct (canonical_number b Hb) as (y & Hy & E). unfold iou_value in E.
    rewrite <- E in *. by apply H2.
  - destruct Hr as [H1 H2], Hr2 as [K1 K2]. split; [lra|]. intros w Hw Hle. apply K2; [done|].
    destruct Hw as (b & Hb & ->). destruct (canonical_number b Hb) as (y & Hy & E). unfold iou_value in E.
    rewrite <- E in *. by apply H2.
Qed.

Lemma compose_rounds mode v r : correctly_rounded mode v r -> sum_rounded mode v (z ← r; iou_from_number mode z).
Proof.
  intros Hr. destruct r as [z|err|]; cbn [mbind result_bind]; [|destruct Hr as [-> Hl]; split; [done|pose proof largest_above; lra]|done].
  pose proof (first_rounding mode v z) as Hmono. pose proof Hr as (Hz & Hbig & _).
  pose proof (from_normal_rounds mode z Hz) as Hi.
  destruct (iou_from_number mode z) as [a|err|]; [|destruct Hi as [-> Hl]; split; [done|]|done].
  - split_and!; [apply Hi| |].
    + intros w Hw. pose proof (iou_rounded_faithful mode _ a Hi w Hw) as [F1 F2].
      destruct (Hmono w Hr Hw) as [M1 M2]. auto.
    + intros Hmode Hs. pose proof smallest_below. apply (directed_twice mode v z a Hmode); [apply Hbig; lra|].
      apply Hi. destruct canonical_min as [Cm Em].
      by apply (first_rounding_abs mode v z _ iou_smallest Hr Cm Em).
  - destruct canonical_max as [Cm Em]. apply Qnot_le_lt. intros Hle. apply (Qlt_not_le _ _ Hl).
    by apply (first_rounding_abs mode v z _ iou_largest Hr Cm Em).
Qed.

(** ** Sums, differences and order *)

Lemma faithful_self v a : iou_value a == v -> faithful v a.
Proof. intros E w Hw. rewrite E. done. Qed.

Lemma sum_rounded_self mode v a : canonical a -> iou_value a == v -> sum_rounded mode v (ROk a).
Proof.
  intros Ha E. split_and!; [done|by apply faithful_self|]. intros _ _. rewrite <- E. apply rounds_in_self. by exists a.
Qed.

Lemma is_zero_value a : iou_is_zero a = true -> iou_value a == 0.
Proof.
  intros E%Z.eqb_eq. unfold iou_value, number_value, magnitude, iou_number. cbn [np_mantissa np_exponent np_negative].
  rewrite E. change (Z.abs 0) with 0%Z. rewrite Qmult_0_l. reflexivity.
Qed.

#[global] Instance sum_rounded_proper mode : Proper (Qeq ==> eq ==> iff) (sum_rounded mode).
Proof.
  intros v v' E r _ <-. unfold sum_rounded, faithful. destruct r; [|by rewrite E|done].
  setoid_rewrite E. reflexivity.
Qed.

Lemma iou_add_rounds mode a b : canonical a -> canonical b ->
  exists r, iou_checked_add mode Large330 a b = Ok r /\ sum_rounded mode (iou_value a + iou_value b) r.
Proof.
  intros Ha Hb. unfold iou_checked_add.
  destruct (iou_is_zero b) eqn:Eb.
  { eexists. split; [done|]. apply sum_rounded_self; [done|]. rewrite (is_zero_value b Eb). ring. }
  destruct (iou_is_zero a) eqn:Ea.
  { eexists. split; [done|]. apply sum_rounded_self; [done|]. rewrite (is_zero_value a Ea). ring. }
  destruct (number_of_iou_exact mode a Ha) as (x & -> & Hx & Ex).
  destruct (number_of_iou_exact mode b Hb) as (y & -> & Hy & Ey).
  eexists. split; [reflexivity|]. rewrite <- Ex, <- Ey. apply compose_rounds. by apply try_add_rounds.
Qed.

Lemma iou_sub_rounds mode a b : canonical a -> canonical b ->
  exists r, iou_checked_sub mode Large330 a b = Ok r /\ sum_rounded mode (iou_value a - iou_value b) r.
Proof.
  intros Ha Hb. destruct (canonical_neg b Hb) as [Cn En]. destruct (iou_add_rounds mode a (iou_neg b) Ha Cn) as (r & E & Hr).
  exists r. split; [done|]. rewrite En in Hr. exact Hr.
Qed.

Lemma iou_cmp_value mode a b : canonical a -> canonical b ->
  iou_cmp mode Large330 a b = Ok (iou_value a ?= iou_value b).
Proof.
  intros Ha Hb. unfold iou_cmp.
  destruct (number_of_iou_exact mode a Ha) as (x & -> & Hx & Ex).
  destruct (number_of_iou_exact mode b Hb) as (y & -> & Hy & Ey).
  cbn [mbind outcome_bind]. by rewrite number_compare_value, Ex, Ey.
Qed.

Lemma magnitude_gap a : (MIN_IOU_MANTISSA <= Z.abs (iou_mantissa a) <= MAX_IOU_MANTISSA)%Z ->
  0 < inject_Z (Z.abs (iou_mantissa a)) * q10 (iou_exponent a).
Proof.
  intros Hm. rewrite <- (Qmult_0_l (q10 (iou_exponent a))). change 0 with (inject_Z 0). apply q10_mult_lt. ious. lia.
Qed.

Lemma exponent_gap a b : (MIN_IOU_MANTISSA <= Z.abs (iou_mantissa a) <= MAX_IOU_MANTISSA)%Z ->
  (MIN_IOU_MANTISSA <= Z.abs (iou_mantissa b) <= MAX_IOU_MANTISSA)%Z -> (iou_exponent a < iou_exponent b)%Z ->
  inject_Z (Z.abs (iou_mantissa a)) * q10 (iou_exponent a) < inject_Z (Z.abs (iou_mantissa b)) * q10 (iou_exponent b).
Proof.
  intros Ha Hb He. apply Qlt_le_trans with (inject_Z (MAX_IOU_MANTISSA + 1) * q10 (iou_exponent a)); [apply q10_mult_lt; lia|].
  apply int_q10_le; [ious; lia|lia|].
  pose proof (Z.pow_le_mono_r 10 1 (iou_exponent b - iou_exponent a) ltac:(lia) ltac:(lia)). ious. nia.
Qed.

Lemma canonical_bounded a : canonical a -> Qabs (iou_value a) <= iou_largest.
Proof.
  intros Ha. unfold iou_value. rewrite abs_number by (apply iou_repr_mag; by exists a).
  unfold magnitude, iou_number. cbn [np_mantissa np_exponent]. destruct Ha as [->|[Hm He]].
  - change (inject_Z (Z.abs (iou_mantissa iou_new))) with (inject_Z 0). rewrite Qmult_0_l.
    apply Qlt_le_weak. rewrite <- (Qmult_0_l (q10 MAX_IOU_EXPONENT)). change 0 with (inject_Z 0). by apply q10_mult_lt.
  - apply int_q10_le; [ious; lia|lia|].
    pose proof (Z.pow_le_mono_r 10 0 (MAX_IOU_EXPONENT - iou_exponent a) ltac:(lia) ltac:(lia)). ious. nia.
Qed.

(** A value has one canonical amount. *)
Lemma iou_value_inj a b : canonical a -> canonical b -> iou_value a == iou_value b -> a = b.
Proof.
  intros Ha Hb E.
  assert (Qabs (iou_value a) == Qabs (iou_value b)) as Eabs by (by rewrite E).
  assert (forall c, canonical c -> Qabs (iou_value c) == inject_Z (Z.abs (iou_mantissa c)) * q10 (iou_exponent c)) as Hc.
  { intros c Hc. unfold iou_value. rewrite abs_number; [reflexivity|]. apply iou_repr_mag. by exists c. }
  rewrite !Hc in Eabs by done. clear Hc.
  destruct Ha as [->|[Hma Hea]], Hb as [->|[Hmb Heb]]; [done| | |].
  1-2: exfalso; change (Z.abs (iou_mantissa iou_new)) with 0%Z in Eabs; rewrite Qmult_0_l in Eabs.
  1: pose proof (magnitude_gap b Hmb) as G; lra.
  1: pose proof (magnitude_gap a Hma) as G; lra.
  destruct (Z.lt_trichotomy (iou_exponent a) (iou_exponent b)) as [Hlt|[Heq|Hlt]].
  - exfalso. pose proof (exponent_gap a b Hma Hmb Hlt). lra.
  - rewrite Heq in Eabs. assert (Z.abs (iou_mantissa a) = Z.abs (iou_mantissa b)) as Em.
    { apply Z.le_antisymm; apply (q10_mult_le _ _ (iou_exponent b)); rewrite Eabs; apply Qle_refl. }
    destruct (Z.eq_dec (iou_mantissa a) (iou_mantissa b)) as [E1|E1].
    + destruct a as [ma ea], b as [mb eb]; cbn in *. by subst.
    + exfalso. pose proof (magnitude_gap a Hma) as Ga.
      unfold iou_value, number_value, magnitude, iou_number in E. cbn [np_negative np_mantissa np_exponent] in E.
      rewrite <- Em, <- Heq in E.
      destruct (Z.ltb_spec (iou_mantissa a) 0), (Z.ltb_spec (iou_mantissa b) 0); try lia; cbn [signed] in E; lra.
  - exfalso. pose proof (exponent_gap b a Hmb Hma Hlt). lra.
Qed.

Lemma iou_from_number_exact mode a : canonical a -> iou_from_number mode (iou_number a) = ROk a.
Proof.
  intros Ha. assert (iou_rounded mode (iou_value a) (iou_from_number mode (iou_number a))) as HR.
  { apply iou_from_number_rounds; unfold iou_number; cbn [np_mantissa np_exponent];
      destruct Ha as [->|[? ?]]; unfold u64_max; ious; cbn; lia. }
  destruct (iou_from_number mode (iou_number a)) as [c|err|]; [f_equal|exfalso|done].
  - destruct (iou_rounded_faithful mode _ c HR a Ha) as [F1 F2]. apply iou_value_inj; [apply HR|done|].
    apply Qle_antisym; [apply F1|apply F2]; apply Qle_refl.
  - destruct HR as [_ Hl]. apply (Qlt_not_le _ _ Hl). apply canonical_bounded; done.
Qed.
End IouSums.
