(* ===== verification/StAmount.v ===== *)
(** * Serialized amounts

    [xrpl/protocol/src/amounts]: the native and token amounts of [xrp_amount.rs] and
    [mpt_amount.rs], and [st_amount.rs] with the wire helpers of [amount_support.rs] and
    the assets of [ledger/issue.rs]: native, issued and token amounts behind one type,
    their canonical form, wire form, order and arithmetic. The field name an amount carries in its
    object is left out: no operation here reads it. Currencies, accounts and token
    identifiers are the integers of their bytes. The rounding mode and the scale of the
    thread, and whether a native overflow throws, are parameters. *)

From S2P Require Import Prelude Number IouAmount Serializer.

(** ** Native and token amounts

    [xrpl/protocol/src/amounts/xrp_amount.rs] and [mpt_amount.rs]: amounts that are one
    [i64]. Whether an overflow throws depends on the amendment [fixCleanup3_5_0]
    (with no transaction rules installed it does); [throws] stands for that answer.
    Throwing is [Panic]. *)

Record XRPAmount := mkXRP { drops : Z }.
Record MPTAmount := mkMPT { mpt_value : Z }.

#[global] Instance XRPAmount_eq_dec : EqDecision XRPAmount.
Proof. solve_decision. Defined.
#[global] Instance MPTAmount_eq_dec : EqDecision MPTAmount.
Proof. solve_decision. Defined.

Definition DROPS_PER_XRP : XRPAmount := mkXRP 1000000.
Definition MAX_MP_TOKEN_AMOUNT : Z := 9223372036854775807.

(** [i64::checked_add] and so on. *)
Definition in_i64 (z : Z) : bool := (-9223372036854775808 <=? z) && (z <=? 9223372036854775807).
Definition checked (z : Z) : option Z := if in_i64 z then Some z else None.

Definition checked_or_legacy_overflow (throws : bool) (result : option Z) (legacy : Z) : outcome Z :=
  match result with
  | Some value => Ok value
  | None => if throws then Panic else Ok legacy
  end.

(** [i64]'s division panics on zero and on [i64::MIN / -1]. *)
Definition i64_div (a b : Z) : outcome Z :=
  if b =? 0 then Panic else if in_i64 (Z.quot a b) then Ok (Z.quot a b) else Panic.

Definition sign_of (z : Z) : Z := if z <? 0 then -1 else if z =? 0 then 0 else 1.

(** ** XRPAmount *)

Definition xrp_signum (a : XRPAmount) : Z := sign_of (drops a).
Definition xrp_is_zero (a : XRPAmount) : bool := drops a =? 0.
Definition xrp_from_number (mode : RoundingMode) (x : NumberParts) : result NumberArithmeticError XRPAmount :=
  d ← try_to_i64 mode x; ROk (mkXRP d).

(** [From<XRPAmount> for NumberParts]: exact, or unchecked when it is not representable. *)
Definition number_of_xrp (mode : RoundingMode) (scale : MantissaScale) (a : XRPAmount) : NumberParts :=
  match try_from_external_parts mode scale (drops a) 0 with
  | ROk x => x
  | _ => mkNumber (drops a <? 0) (Z.abs (drops a)) 0
  end.

(** The result of an operator on drops. *)
Definition xrp_result (r : outcome Z) : outcome XRPAmount := d ← r; Ok (mkXRP d).

Definition xrp_add (throws : bool) (a b : XRPAmount) : outcome XRPAmount :=
  xrp_result (checked_or_legacy_overflow throws (checked (drops a + drops b)) (wrap_i64 (drops a + drops b))).
Definition xrp_sub (throws : bool) (a b : XRPAmount) : outcome XRPAmount :=
  xrp_result (checked_or_legacy_overflow throws (checked (drops a - drops b)) (wrap_i64 (drops a - drops b))).
Definition xrp_mul (throws : bool) (a : XRPAmount) (rhs : Z) : outcome XRPAmount :=
  xrp_result (checked_or_legacy_overflow throws (checked (drops a * rhs)) (wrap_i64 (drops a * rhs))).
Definition xrp_div (a : XRPAmount) (rhs : Z) : outcome XRPAmount := xrp_result (i64_div (drops a) rhs).
Definition xrp_neg (a : XRPAmount) : XRPAmount := mkXRP (wrap_i64 (- drops a)).

(** ** Ratios *)

(** The body both [mul_ratio]s share: [i128] division truncates. *)
Definition ratio (amount num den : Z) (round_up : bool) : result NumberArithmeticError Z :=
  if den =? 0 then RErr ArDivideByZero
  else
    let negative := amount <? 0 in
    let multiplied := amount * num in
    let result := Z.quot multiplied den in
    let result :=
      if negb (Z.rem multiplied den =? 0) then
        let result := if negb negative && round_up then result + 1 else result in
        if negative && negb round_up then result - 1 else result
      else result in
    checked_i64 ArOverflow result.

Definition xrp_mul_ratio (a : XRPAmount) (num den : Z) (round_up : bool) : result NumberArithmeticError XRPAmount :=
  r ← ratio (drops a) num den round_up; ROk (mkXRP r).

(** ** MPTAmount *)

Definition mpt_signum (a : MPTAmount) : Z := sign_of (mpt_value a).
Definition mpt_is_zero (a : MPTAmount) : bool := mpt_value a =? 0.
Definition mpt_from_number (mode : RoundingMode) (x : NumberParts) : result NumberArithmeticError MPTAmount :=
  v ← try_to_i64 mode x; ROk (mkMPT v).
Definition number_of_mpt (mode : RoundingMode) (scale : MantissaScale) (a : MPTAmount) : outcome NumberParts :=
  from_i64 mode scale (mpt_value a).

Definition mpt_result (r : outcome Z) : outcome MPTAmount := d ← r; Ok (mkMPT d).

Definition mpt_add (throws : bool) (a b : MPTAmount) : outcome MPTAmount :=
  mpt_result (checked_or_legacy_overflow throws (checked (mpt_value a + mpt_value b)) (wrap_i64 (mpt_value a + mpt_value b))).
Definition mpt_sub (throws : bool) (a b : MPTAmount) : outcome MPTAmount :=
  mpt_result (checked_or_legacy_overflow throws (checked (mpt_value a - mpt_value b)) (wrap_i64 (mpt_value a - mpt_value b))).
Definition mpt_mul (a : MPTAmount) (rhs : Z) : MPTAmount := mkMPT (wrap_i64 (mpt_value a * rhs)).
Definition mpt_div (a : MPTAmount) (rhs : Z) : outcome MPTAmount := mpt_result (i64_div (mpt_value a) rhs).
Definition mpt_neg (a : MPTAmount) : MPTAmount := mkMPT (wrap_i64 (- mpt_value a)).

Definition mpt_mul_ratio (a : MPTAmount) (num den : Z) (round_up : bool) : result NumberArithmeticError MPTAmount :=
  r ← ratio (mpt_value a) num den round_up; ROk (mkMPT r).

(** ** Facts *)

Lemma quot_rem_div m den : 0 < den -> 0 <= m ->
  Z.quot m den = m / den /\ Z.rem m den = m mod den
  /\ Z.quot (- m) den = - (m / den) /\ Z.rem (- m) den = - (m mod den).
Proof.
  intros Hd Hm. rewrite Z.quot_opp_l, Z.rem_opp_l by lia.
  by rewrite Z.quot_div_nonneg, Z.rem_mod_nonneg by lia.
Qed.

Lemma ceil_div m den : 0 < den -> - (- m / den) = if m mod den =? 0 then m / den else m / den + 1.
Proof.
  intros Hd. destruct (Z.eqb_spec (m mod den) 0) as [E|E].
  - rewrite Z.div_opp_l_z by lia. lia.
  - rewrite Z.div_opp_l_nz by lia. lia.
Qed.

(** [mul_ratio] is the floor or the ceiling of the exact quotient. *)
Lemma ratio_spec amount num den (round_up : bool) : 0 < den -> 0 <= num ->
  ratio amount num den round_up
  = checked_i64 ArOverflow (if round_up then - (- (amount * num) / den) else amount * num / den).
Proof.
  intros Hd Hn. unfold ratio. rewrite (proj2 (Z.eqb_neq den 0)) by lia. f_equal.
  destruct (Z.ltb_spec amount 0) as [Ha|Ha].
  - destruct (quot_rem_div (- (amount * num)) den Hd ltac:(nia)) as (_ & _ & Eq & Er).
    rewrite Z.opp_involutive in Eq, Er. rewrite Eq, Er. cbn [negb andb].
    pose proof (ceil_div (- (amount * num)) den Hd) as Hc. rewrite Z.opp_involutive in Hc.
    assert (- (- (amount * num) mod den) =? 0 = (- (amount * num) mod den =? 0)) as ->.
    { destruct (Z.eqb_spec (- (amount * num) mod den) 0) as [->|]; [done|]. apply Z.eqb_neq. lia. }
    destruct (- (amount * num) mod den =? 0), round_up; cbn [negb andb]; lia.
  - destruct (quot_rem_div (amount * num) den Hd ltac:(nia)) as (Eq & Er & _ & _). rewrite Eq, Er.
    pose proof (ceil_div (amount * num) den Hd) as Hc.
    destruct ((amount * num) mod den =? 0), round_up; cbn [negb andb]; lia.
Qed.

(** ** Assets *)

Inductive Asset :=
| AIssue (currency account : Z)
| AMPTIssue (mpt_id : Z).

#[global] Instance Asset_eq_dec : EqDecision Asset.
Proof. solve_decision. Defined.

Definition is_xrp_currency (currency : Z) : bool := currency =? 0.
Definition xrp_issue : Asset := AIssue 0 0.
Definition no_issue : Asset := AIssue 1 1.

(** [Issue::native] compares with [xrp_issue], and the account of the native currency
    does not matter. *)
Definition asset_native (a : Asset) : bool :=
  match a with AIssue currency _ => is_xrp_currency currency | AMPTIssue _ => false end.
Definition asset_integral (a : Asset) : bool :=
  match a with AIssue _ _ => asset_native a | AMPTIssue _ => true end.
Definition is_mpt_asset (a : Asset) : bool :=
  match a with AIssue _ _ => false | AMPTIssue _ => true end.

(** ** Amounts *)

Definition ST_AMOUNT_MIN_OFFSET : Z := -96.
Definition ST_AMOUNT_MAX_OFFSET : Z := 80.
Definition ST_AMOUNT_MIN_MANTISSA : Z := 1000000000000000.
Definition ST_AMOUNT_MAX_MANTISSA : Z := ST_AMOUNT_MIN_MANTISSA * 10 - 1.
Definition ST_AMOUNT_MAX_NATIVE_NETWORK : Z := 100000000000000000.
Definition ST_AMOUNT_ISSUED_CURRENCY_FLAG : Z := 0x8000000000000000.
Definition ST_AMOUNT_POSITIVE_FLAG : Z := 0x4000000000000000.
Definition ST_AMOUNT_MP_TOKEN_FLAG : Z := 0x2000000000000000.
Definition ST_AMOUNT_ISSUED_HEADER_SHIFT : Z := 54.
Definition ST_AMOUNT_ISSUED_HEADER_MASK : Z := wrap_u64 (Z.shiftl 1023 ST_AMOUNT_ISSUED_HEADER_SHIFT).
Definition ST_AMOUNT_ISSUED_POSITIVE_BITS : Z := 256.
Definition ST_AMOUNT_ISSUED_EXPONENT_BIAS : Z := 97.
Definition IOU_ZERO_OFFSET : Z := -100.

(** [!mask] on a [u64] *)
Definition not_u64 (mask : Z) : Z := u64_max - mask.

Inductive AmountError :=
| NativeOutOfRange | MptOutOfRange | IssuedOutOfRange | DivisionByZero | ArithmeticOverflow.

Record STAmount := mkST { sa_asset : Asset; sa_value : Z; sa_offset : Z; sa_negative : bool }.

#[global] Instance STAmount_eq_dec : EqDecision STAmount.
Proof. solve_decision. Defined.

Definition integral (a : STAmount) : bool := asset_integral (sa_asset a).
Definition sa_native (a : STAmount) : bool := asset_native (sa_asset a).
Definition holds_mpt_issue (a : STAmount) : bool := is_mpt_asset (sa_asset a).
Definition st_signum (a : STAmount) : Z :=
  if sa_value a =? 0 then 0 else if sa_negative a then -1 else 1.

(** [Ord] of [Issue] and of [Asset], whose native issues are all equal. *)
Definition issue_cmp (c i d j : Z) : comparison :=
  match c ?= d with
  | Eq => if is_xrp_currency c then Eq else i ?= j
  | ordering => ordering
  end.
Definition asset_cmp (a b : Asset) : comparison :=
  match a, b with
  | AIssue c i, AIssue d j => issue_cmp c i d j
  | AMPTIssue i, AMPTIssue j => i ?= j
  | AIssue _ _, AMPTIssue _ => Gt
  | AMPTIssue _, AIssue _ _ => Lt
  end.
Definition issue_eq (c i d j : Z) : bool := (c =? d) && (is_xrp_currency c || (i =? j)).
Definition asset_eq (a b : Asset) : bool :=
  match a, b with
  | AIssue c i, AIssue d j => issue_eq c i d j
  | AMPTIssue i, AMPTIssue j => i =? j
  | _, _ => false
  end.
Definition equal_tokens (a b : Asset) : bool :=
  match a, b with
  | AIssue c _, AIssue d _ => c =? d
  | AMPTIssue i, AMPTIssue j => i =? j
  | _, _ => false
  end.
Definition is_consistent (currency account : Z) : bool := Bool.eqb (is_xrp_currency currency) (account =? 0).

Definition with_field : STAmount := mkST xrp_issue 0 0 false.
Definition new_native (mantissa : Z) (negative : bool) : STAmount :=
  mkST xrp_issue mantissa 0 (negb (mantissa =? 0) && negative).
Definition from_native_i64_unchecked (d : Z) : STAmount := mkST xrp_issue (Z.abs d) 0 (d <? 0).

(** [AmountError::throw]; a loop of the model that lacks fuel keeps saying so. *)
Definition canonical_or_throw {A} (r : result AmountError A) : outcome A := or_throw r.

Definition is_legal_net (a : STAmount) : bool :=
  if sa_native a then sa_value a <=? ST_AMOUNT_MAX_NATIVE_NETWORK else true.
Definition is_legal_mpt (a : STAmount) : bool :=
  negb (holds_mpt_issue a)
  || (negb (sa_negative a) && (sa_offset a =? 0) && (sa_value a <=? MAX_MP_TOKEN_AMOUNT)).

Definition negate (a : STAmount) : STAmount :=
  if sa_value a =? 0 then a else mkST (sa_asset a) (sa_value a) (sa_offset a) (negb (sa_negative a)).
Definition st_is_default (a : STAmount) : bool := (sa_value a =? 0) && sa_native a.
Definition st_check (a : STAmount) : bool :=
  negb (sa_native a && (ST_AMOUNT_MAX_NATIVE_NETWORK <? sa_value a)).
Definition st_clear (a : STAmount) : STAmount :=
  mkST (sa_asset a) 0 (if integral a then 0 else IOU_ZERO_OFFSET) false.
Definition clear_with_asset (a : STAmount) (asset : Asset) : STAmount :=
  st_clear (mkST asset (sa_value a) (sa_offset a) (sa_negative a)).
Definition set_issue (a : STAmount) (asset : Asset) : STAmount :=
  mkST asset (sa_value a) (sa_offset a) (sa_negative a).
Definition set_issuer (a : STAmount) (issuer : Z) : outcome STAmount :=
  match sa_asset a with
  | AIssue currency _ => Ok (set_issue a (AIssue currency issuer))
  | AMPTIssue _ => Panic
  end.

(** ** Order *)

Definition are_comparable (a b : STAmount) : bool :=
  match sa_asset a, sa_asset b with
  | AIssue c _, AIssue d _ => Bool.eqb (sa_native a) (sa_native b) && (c =? d)
  | AMPTIssue i, AMPTIssue j => i =? j
  | _, _ => false
  end.

Definition st_eq (a b : STAmount) : bool :=
  are_comparable a b && Bool.eqb (sa_negative a) (sa_negative b)
  && (sa_offset a =? sa_offset b) && (sa_value a =? sa_value b).

Definition flip (negative : bool) (c : comparison) : comparison :=
  if negative then CompOpp c else c.

Definition cmp_amount (a b : STAmount) : comparison :=
  if negb (are_comparable a b) then
    match sa_value a ?= sa_value b with Eq => sa_offset a ?= sa_offset b | c => c end
  else if negb (Bool.eqb (sa_negative a) (sa_negative b)) then if sa_negative a then Lt else Gt
  else if sa_value a =? 0 then
    if sa_negative b then Gt else if negb (sa_value b =? 0) then Lt else Eq
  else if sa_value b =? 0 then Gt
  else if sa_offset b <? sa_offset a then flip (sa_negative a) Gt
  else if sa_offset a <? sa_offset b then flip (sa_negative a) Lt
  else if sa_value b <? sa_value a then flip (sa_negative a) Gt
  else if sa_value a <? sa_value b then flip (sa_negative a) Lt
  else Eq.

Definition st_leb (a b : STAmount) : bool := match cmp_amount a b with Gt => false | _ => true end.
Definition st_ltb (a b : STAmount) : bool := match cmp_amount a b with Lt => true | _ => false end.

Section Amounts.
Context (mode : RoundingMode) (scale : MantissaScale) (throws : bool).

(** ** Canonical form *)

(** [value as i64], negated with wrap-around. *)
Definition wrapped_mantissa (a : STAmount) : Z :=
  let m := wrap_i64 (sa_value a) in if sa_negative a then wrap_i64 (- m) else m.

Definition try_canonicalize (a : STAmount) : result AmountError STAmount :=
  if integral a then
    if (sa_value a =? 0) || (sa_offset a <=? -20) then ROk (mkST (sa_asset a) 0 0 false)
    else if sa_native a && (17 <? sa_offset a) then RErr NativeOutOfRange
    else if holds_mpt_issue a && (18 <? sa_offset a) then RErr MptOutOfRange
    else
      let number := mkNumber (sa_negative a) (sa_value a) (sa_offset a) in
      if sa_native a then
        amount ← map_err (fun _ => NativeOutOfRange) (xrp_from_number mode number);
        if ST_AMOUNT_MAX_NATIVE_NETWORK <? Z.abs (drops amount) then RErr NativeOutOfRange
        else ROk (mkST (sa_asset a) (Z.abs (drops amount)) 0 (drops amount <? 0))
      else
        amount ← map_err (fun _ => MptOutOfRange) (mpt_from_number mode number);
        if MAX_MP_TOKEN_AMOUNT <? Z.abs (mpt_value amount) then RErr MptOutOfRange
        else ROk (mkST (sa_asset a) (Z.abs (mpt_value amount)) 0 (mpt_value amount <? 0))
  else
    let wrapped := wrapped_mantissa a in
    iou ← map_err (fun _ => IssuedOutOfRange)
            (iou_from_number mode (mkNumber (wrapped <? 0) (Z.abs wrapped) (sa_offset a)));
    ROk (mkST (sa_asset a) (Z.abs (iou_mantissa iou)) (iou_exponent iou) (iou_mantissa iou <? 0)).

Definition canonicalize (a : STAmount) : outcome STAmount := canonical_or_throw (try_canonicalize a).

Definition try_new_with_asset (asset : Asset) (mantissa exponent : Z) (negative : bool)
    : result AmountError STAmount :=
  try_canonicalize (mkST asset mantissa exponent negative).
Definition new_with_asset (asset : Asset) (mantissa exponent : Z) (negative : bool) : outcome STAmount :=
  canonical_or_throw (try_new_with_asset asset mantissa exponent negative).
Definition zeroed (a : STAmount) : outcome STAmount := new_with_asset (sa_asset a) 0 0 false.

(** The amounts [from_xrp_amount] and the others build and then canonicalize. *)
Definition of_xrp (x : XRPAmount) : STAmount := mkST xrp_issue (Z.abs (drops x)) 0 (drops x <? 0).
Definition of_iou (i : IOUAmount) (currency account : Z) : STAmount :=
  mkST (AIssue currency account) (Z.abs (iou_mantissa i)) (iou_exponent i) (iou_mantissa i <? 0).
Definition of_mpt (m : MPTAmount) (mpt_id : Z) : STAmount :=
  mkST (AMPTIssue mpt_id) (Z.abs (mpt_value m)) 0 (mpt_value m <? 0).

Definition from_xrp_amount (x : XRPAmount) : outcome STAmount := canonicalize (of_xrp x).
Definition from_iou_amount (i : IOUAmount) (currency account : Z) : outcome STAmount :=
  canonicalize (of_iou i currency account).
Definition from_mpt_amount (m : MPTAmount) (mpt_id : Z) : outcome STAmount := canonicalize (of_mpt m mpt_id).

Definition xrp (a : STAmount) : outcome XRPAmount :=
  if negb (sa_native a) then Panic
  else if MAX_MP_TOKEN_AMOUNT <? sa_value a then Panic
  else Ok (mkXRP (if sa_negative a then - sa_value a else sa_value a)).
Definition iou (a : STAmount) : outcome IOUAmount :=
  if integral a then Panic else or_throw (iou_from_parts mode scale (wrapped_mantissa a) (sa_offset a)).
Definition mpt (a : STAmount) : outcome MPTAmount :=
  if negb (holds_mpt_issue a) then Panic
  else if MAX_MP_TOKEN_AMOUNT <? sa_value a then Panic
  else Ok (mkMPT (if sa_negative a then - sa_value a else sa_value a)).

(** ** Wire form *)

Definition issued_header_bits_from_word (word : Z) : Z :=
  Z.shiftr word ST_AMOUNT_ISSUED_HEADER_SHIFT mod 65536.
Definition issued_mantissa_from_word (word : Z) : Z := Z.land word (not_u64 ST_AMOUNT_ISSUED_HEADER_MASK).
Definition issued_header_is_negative (bits : Z) : bool := Z.land bits ST_AMOUNT_ISSUED_POSITIVE_BITS =? 0.
Definition issued_exponent_from_nonzero_header_bits (bits : Z) : Z :=
  Z.land bits 255 - ST_AMOUNT_ISSUED_EXPONENT_BIAS.
Definition issued_zero_header_bits : Z := 512.
Definition issued_zero_header_word : Z := ST_AMOUNT_ISSUED_CURRENCY_FLAG.
Definition native_wire_word (value : Z) (negative : bool) : Z :=
  if negative then value else Z.lor value ST_AMOUNT_POSITIVE_FLAG.
Definition mpt_wire_header_byte (negative : bool) : Z :=
  let header := Z.shiftr ST_AMOUNT_MP_TOKEN_FLAG 56 in
  if negative then header else Z.lor header (Z.shiftr ST_AMOUNT_POSITIVE_FLAG 56).

(** [StBase::add] *)
Definition st_add (a : STAmount) (s : Serializer) : outcome Serializer :=
  if sa_native a then Ok (fst (add64 s (native_wire_word (sa_value a) (sa_negative a))))
  else match sa_asset a with
  | AMPTIssue mpt_id =>
      let s := fst (add8 s (mpt_wire_header_byte (sa_negative a))) in
      let s := fst (add64 s (sa_value a)) in
      Ok (fst (add_bit_string 24 s mpt_id))
  | AIssue currency account =>
      let word :=
        if sa_value a =? 0 then issued_zero_header_word
        else
          let bits := sa_offset a + 512 + (if sa_negative a then 97 else 256 + 97) in
          Z.lor (sa_value a) (wrap_u64 (Z.shiftl (wrap_u64 bits) (64 - 10))) in
      let s := fst (add64 s word) in
      let s := fst (add_bit_string 20 s currency) in
      Ok (fst (add_bit_string 20 s account))
  end.

Definition from_serial_iter (sit : SerialIter) : outcome (STAmount * SerialIter) :=
  let '(value, sit) := get64 sit in
  let magnitude := Z.land value (not_u64 (Z.lor ST_AMOUNT_POSITIVE_FLAG ST_AMOUNT_MP_TOKEN_FLAG)) in
  if Z.land value ST_AMOUNT_ISSUED_CURRENCY_FLAG =? 0 then
    if negb (Z.land value ST_AMOUNT_MP_TOKEN_FLAG =? 0) then
      let '(low, sit) := get8 sit in
      let '(mpt_id, sit) := get_bit_string 24 sit in
      Ok (mkST (AMPTIssue mpt_id) (Z.lor (wrap_u64 (Z.shiftl value 8)) low) 0
            (Z.land value ST_AMOUNT_POSITIVE_FLAG =? 0), sit)
    else if negb (Z.land value ST_AMOUNT_POSITIVE_FLAG =? 0)
    then Ok (mkST xrp_issue magnitude 0 false, sit)
    else if value =? 0 then Panic
    else Ok (mkST xrp_issue magnitude 0 true, sit)
  else
    let '(currency, sit) := get_bit_string 20 sit in
    if is_xrp_currency currency then Panic
    else
      let '(account, sit) := get_bit_string 20 sit in
      if account =? 0 then Panic
      else
        let bits := issued_header_bits_from_word value in
        let mantissa := issued_mantissa_from_word value in
        if negb (mantissa =? 0) then
          let offset := issued_exponent_from_nonzero_header_bits bits in
          if negb ((ST_AMOUNT_MIN_MANTISSA <=? mantissa) && (mantissa <=? ST_AMOUNT_MAX_MANTISSA))
             || negb ((ST_AMOUNT_MIN_OFFSET <=? offset) && (offset <=? ST_AMOUNT_MAX_OFFSET))
          then Ok (with_field, sit)
          else
            a ← canonicalize (mkST (AIssue currency account) mantissa offset (issued_header_is_negative bits));
            Ok (a, sit)
        else if negb (bits =? issued_zero_header_bits) then Panic
        else
          a ← canonicalize (mkST (AIssue currency account) 0 0 false);
          Ok (a, sit).

(** ** Arithmetic *)

Definition st_plus (a b : STAmount) : outcome STAmount :=
  if negb (are_comparable a b) then Panic
  else if sa_native a then
    x ← xrp a; y ← xrp b; s ← xrp_add throws x y; Ok (from_native_i64_unchecked (drops s))
  else match sa_asset a with
  | AMPTIssue mpt_id => x ← mpt a; y ← mpt b; s ← mpt_add throws x y; from_mpt_amount s mpt_id
  | AIssue currency account =>
      x ← iou a; y ← iou b; s ← iou_add mode scale x y; from_iou_amount s currency account
  end.

Definition st_minus (a b : STAmount) : outcome STAmount :=
  if negb (are_comparable a b) then Panic
  else if sa_native a then
    x ← xrp a; y ← xrp b; s ← xrp_sub throws x y; Ok (from_native_i64_unchecked (drops s))
  else match sa_asset a with
  | AMPTIssue mpt_id => x ← mpt a; y ← mpt b; s ← mpt_sub throws x y; from_mpt_amount s mpt_id
  | AIssue currency account =>
      x ← iou a; y ← iou b; s ← iou_sub mode scale x y; from_iou_amount s currency account
  end.

(** [i64::try_from(rhs).expect(..)] *)
Definition expect_i64 (rhs : Z) : outcome Z := if MAX_MP_TOKEN_AMOUNT <? rhs then Panic else Ok rhs.

Definition st_mul (a : STAmount) (rhs : Z) : outcome STAmount :=
  if rhs =? 1 then Ok a
  else if rhs =? 0 then Ok (st_clear a)
  else if sa_native a then x ← xrp a; r ← expect_i64 rhs; s ← xrp_mul throws x r; from_xrp_amount s
  else match sa_asset a with
  | AMPTIssue mpt_id => x ← mpt a; r ← expect_i64 rhs; from_mpt_amount (mpt_mul x r) mpt_id
  | AIssue currency account =>
      x ← iou a; r ← expect_i64 rhs; s ← iou_mul mode scale x r; from_iou_amount s currency account
  end.

Definition st_div (a : STAmount) (rhs : Z) : outcome STAmount :=
  if rhs =? 1 then Ok a
  else if rhs =? 0 then Panic
  else if sa_native a then x ← xrp a; r ← expect_i64 rhs; s ← xrp_div x r; from_xrp_amount s
  else match sa_asset a with
  | AMPTIssue mpt_id => x ← mpt a; r ← expect_i64 rhs; s ← mpt_div x r; from_mpt_amount s mpt_id
  | AIssue currency account =>
      x ← iou a; r ← expect_i64 rhs; s ← iou_div mode scale x r; from_iou_amount s currency account
  end.

Definition rounding_mods : list Z := (fun i : nat => 10 ^ (16 - Z.of_nat i)) <$> seq 0 17.

Definition st_round (a : STAmount) (digits : nat) : outcome STAmount :=
  if sa_native a || holds_mpt_issue a || (sa_value a =? 0) then Ok a
  else
    m ← expect (rounding_mods !! digits);
    let mantissa := wrap_u64 (sa_value a + (m - 1)) in
    let mantissa := mantissa - mantissa mod m in
    canonicalize (mkST (sa_asset a) mantissa (sa_offset a) (sa_negative a)).

(** ** Checked helpers *)

Definition signed_integral_value (a : STAmount) : option Z :=
  if sa_negative a then
    if sa_value a =? 9223372036854775808 then Some (-9223372036854775808)
    else if sa_value a <=? MAX_MP_TOKEN_AMOUNT then Some (- sa_value a) else None
  else if sa_value a <=? MAX_MP_TOKEN_AMOUNT then Some (sa_value a) else None.

Definition can_subtract (a b : STAmount) : bool :=
  if negb (are_comparable a b) then false
  else if sa_value b =? 0 then true
  else if negb (integral a) then true
  else match signed_integral_value a, signed_integral_value b with
       | Some x, Some y => negb ((0 <? y) && (x <? y)) && in_i64 (x - y)
       | _, _ => false
       end.

Definition checked_step_add (a b : STAmount) : outcome (option STAmount) :=
  if integral a && are_comparable a b then
    match signed_integral_value a, signed_integral_value b with
    | Some x, Some y => if in_i64 (x + y) then s ← st_plus a b; Ok (Some s) else Ok None
    | _, _ => Ok None
    end
  else s ← st_plus a b; Ok (Some s).

Definition absolute_amount (a : STAmount) : STAmount := if sa_negative a then negate a else a.

(** The sums that report an error. The outer outcome is the assertion and the [expect]
    of [iou]. *)
Definition try_iou_add (left right : STAmount) : outcome (result AmountError STAmount) :=
  _ ← assert_that (negb (integral left) && negb (integral right));
  x ← iou left; y ← iou right;
  sum ← iou_checked_add mode scale x y;
  Ok (sum ← map_err (fun _ => IssuedOutOfRange) sum;
      try_new_with_asset (sa_asset left) (Z.abs (iou_mantissa sum)) (iou_exponent sum) (iou_mantissa sum <? 0)).

Definition try_iou_sub (left right : STAmount) : outcome (result AmountError STAmount) :=
  _ ← assert_that (negb (integral left) && negb (integral right));
  x ← iou left; y ← iou right;
  difference ← iou_checked_sub mode scale x y;
  Ok (difference ← map_err (fun _ => IssuedOutOfRange) difference;
      try_new_with_asset (sa_asset left) (Z.abs (iou_mantissa difference)) (iou_exponent difference)
        (iou_mantissa difference <? 0)).

(** Here [mode] is the argument, installed for the duration of the call. *)
Definition round_to_exponent (value : STAmount) (to : Z) : outcome (result AmountError STAmount) :=
  if integral value || (sa_value value =? 0) || (to <=? sa_offset value) then Ok (ROk value)
  else
    try_bind (Ok (try_new_with_asset (sa_asset value) ST_AMOUNT_MIN_MANTISSA to (sa_negative value)))
      (fun reference => try_bind (try_iou_add value reference) (fun sum => try_iou_sub sum reference)).

(** ** Amounts of an asset: [Asset] of [ledger/issue.rs] *)

(** [Asset::amount], and [STAmount]'s [from_number_amount] of [amount_conversions.rs].
    The outer outcome is the throw of [canonicalize]. *)
Definition asset_amount (asset : Asset) (number : NumberParts)
    : outcome (result NumberArithmeticError STAmount) :=
  match asset with
  | AIssue currency account =>
      if asset_native asset then
        match xrp_from_number mode number with
        | ROk x => a ← from_xrp_amount x; Ok (ROk a)
        | RErr e => Ok (RErr e) | RFuel => OutOfFuel
        end
      else
        match iou_from_number mode number with
        | ROk i => a ← from_iou_amount i currency account; Ok (ROk a)
        | RErr e => Ok (RErr e) | RFuel => OutOfFuel
        end
  | AMPTIssue mpt_id =>
      match mpt_from_number mode number with
      | ROk m => a ← from_mpt_amount m mpt_id; Ok (ROk a)
      | RErr e => Ok (RErr e) | RFuel => OutOfFuel
      end
  end.

Definition is_representable (asset : Asset) (number : NumberParts) : bool :=
  if asset_native asset then
    match xrp_from_number mode number with
    | ROk x => Z.abs (drops x) <=? ST_AMOUNT_MAX_NATIVE_NETWORK | _ => false
    end
  else match asset with
  | AIssue _ _ => match iou_from_number mode number with ROk _ => true | _ => false end
  | AMPTIssue _ =>
      match mpt_from_number mode number with
      | ROk m => Z.abs (mpt_value m) <=? MAX_MP_TOKEN_AMOUNT | _ => false
      end
  end.

(** [stamount_as_number] of [quality.rs], also spelled out in [round_trips]. *)
Definition stamount_as_number (a : STAmount) : outcome NumberParts :=
  if sa_native a then x ← xrp a; Ok (number_of_xrp mode scale x)
  else if holds_mpt_issue a then m ← mpt a; number_of_mpt mode scale m
  else i ← iou a; number_of_iou mode scale i.

Definition round_trips (asset : Asset) (number : NumberParts) : outcome bool :=
  if negb (is_representable asset number) then Panic
  else
    amount ← asset_amount asset number;
    amount ← or_throw amount;
    converted ← stamount_as_number amount;
    Ok (bool_decide (converted = number)).
End Amounts.
