(* ===== verification/Quality.v ===== *)
(** * Offer rates

    [xrpl/protocol/src/amounts/quality.rs] with [to_amount_from_number] of
    [amount_conversions.rs] and the transfer rates of [rate.rs]: products and quotients of amounts, the 64 bit key a book
    sorts its offers by, and the cuts of an offer to a limit. What unwinds is an error
    of [ExceptionKind], since [try_mul_round] looks at the class of what it catches. The
    rounding mode and the scale of the thread are parameters; so are the answers of the
    amendment table, [mptokens_v2] (MPTokensV2 enabled), [number_path_enabled]
    (MPTokensV2 or fixCleanup3_5_0, enabled by default) and [cleanup_3_5_0]. *)

From S2P Require Import Prelude Number IouAmount StAmount.

(** ** What unwinds: [contract.rs] *)

Inductive ExceptionKind := ExOverflow | ExRuntime | ExLogic.

Definition is_overflow (k : ExceptionKind) : bool := match k with ExOverflow => true | _ => false end.

(** [AmountError::throw] *)
Definition throw (e : AmountError) : ExceptionKind :=
  match e with
  | ArithmeticOverflow | IssuedOutOfRange => ExOverflow
  | NativeOutOfRange | MptOutOfRange | DivisionByZero => ExRuntime
  end.

(** A panic of a callee whose payload is of class [k]. *)
Definition raise {A} (k : ExceptionKind) (o : outcome A) : result ExceptionKind A :=
  match o with Ok a => ROk a | Panic => RErr k | OutOfFuel => RFuel end.

Record Amounts := mkAmounts { am_in : STAmount; am_out : STAmount }.
Definition amounts_empty (a : Amounts) : bool := (st_signum (am_in a) <=? 0) || (st_signum (am_out a) <=? 0).

Definition TEN_TO_14 : Z := 100000000000000.
Definition TEN_TO_17 : Z := 100000000000000000.
Definition ST_AMOUNT_MIN_VALUE : Z := 1000000000000000.
Definition ST_AMOUNT_MAX_VALUE : Z := 9999999999999999.

Definition is_native_or_mpt_asset (a : Asset) : bool := asset_native a || is_mpt_asset a.
Definition is_native_or_mpt_amount (a : STAmount) : bool := sa_native a || holds_mpt_issue a.

(** ** Integer helpers *)

Definition muldiv (multiplier multiplicand divisor : Z) : result unit Z :=
  checked_u64 tt (multiplier * multiplicand / divisor).
Definition muldiv_round (multiplier multiplicand divisor rounding : Z) : result unit Z :=
  checked_u64 tt ((multiplier * multiplicand + rounding) / divisor).

(** [while value < ST_AMOUNT_MIN_VALUE { value *= 10; offset -= 1; }] *)
Fixpoint scale_value {E} (fuel : nat) (value offset : Z) : result E (Z * Z) :=
  match fuel with
  | O => RFuel
  | S fuel' =>
      if value <? ST_AMOUNT_MIN_VALUE then scale_value fuel' (value * 10) (offset - 1)
      else ROk (value, offset)
  end.

Definition scaled {E} (a : STAmount) : result E (Z * Z) :=
  if is_native_or_mpt_amount a then scale_value 20 (sa_value a) (sa_offset a)
  else ROk (sa_value a, sa_offset a).

(** [while value > 10 * ST_AMOUNT_MAX_VALUE { value /= 10; offset += 1; }], then the
    last digit rounded up. *)
Fixpoint shrink_value (fuel : nat) (value offset : Z) : Z * Z :=
  match fuel with
  | O => (value, offset)
  | S fuel' =>
      if 10 * ST_AMOUNT_MAX_VALUE <? value then shrink_value fuel' (value / 10) (offset + 1)
      else (value, offset)
  end.

Definition round_issued (value offset : Z) : Z * Z :=
  if ST_AMOUNT_MAX_VALUE <? value then
    let '(value, offset) := shrink_value 20 value offset in
    (wrap_u64 (value + 9) / 10, offset + 1)
  else (value, offset).

(** [while offset < -1 { value /= 10; offset += 1; }]: the number of turns is known. *)
Fixpoint drop_loop (turns : nat) (value : Z) (had_remainder : bool) : Z * bool :=
  match turns with
  | O => (value, had_remainder)
  | S turns' => drop_loop turns' (value / 10) (had_remainder || negb (value =? value / 10 * 10))
  end.

Definition canonicalize_round (native : bool) (value offset : Z) (round_up : bool) : Z * Z :=
  if native then
    if offset <? 0 then
      let loops := Z.to_nat (-1 - offset) in
      let '(value, _) := drop_loop loops value false in
      (wrap_u64 (value + (if (2 <=? loops)%nat then 9 else 10)) / 10, 0)
    else (value, offset)
  else round_issued value offset.

Definition canonicalize_round_strict (native : bool) (value offset : Z) (round_up : bool) : Z * Z :=
  if native then
    if offset <? 0 then
      let '(value, had_remainder) := drop_loop (Z.to_nat (-1 - offset)) value false in
      (wrap_u64 (value + (if had_remainder && round_up then 10 else 9)) / 10, 0)
    else (value, offset)
  else round_issued value offset.

(** [signed_native_value] and [signed_mpt_value], each behind its check. *)
Definition signed_value (a : STAmount) : result ExceptionKind Z :=
  if MAX_MP_TOKEN_AMOUNT <? sa_value a then RErr ExRuntime
  else ROk (if sa_negative a then - sa_value a else sa_value a).

Definition round_mode (result_negative round_up : bool) : RoundingMode :=
  if xorb round_up result_negative then Upward else Downward.

Definition amount_range_error (asset : Asset) : AmountError :=
  match asset with
  | AIssue _ _ => if asset_native asset then NativeOutOfRange else IssuedOutOfRange
  | AMPTIssue _ => MptOutOfRange
  end.

Definition st_gtb (a b : STAmount) : bool := match cmp_amount a b with Gt => true | _ => false end.

(** The guards of a product of two integral amounts: the factors in order, unless they
    are too large. *)
Definition guarded_factors (limit high x y : Z) : option (Z * Z) :=
  let min_v := Z.min x y in
  let max_v := Z.max x y in
  if limit <? min_v then None
  else if high <? wrap_i64 (Z.shiftr max_v 32 * min_v) then None
  else Some (min_v, max_v).

(** [STAmount::new_with_asset] under the rounding mode [m]. *)
Definition new_under (m : RoundingMode) (asset : Asset) (mantissa exponent : Z) (negative : bool)
    : result ExceptionKind STAmount :=
  map_err throw (try_new_with_asset m asset mantissa exponent negative).

Definition amount_from_quality (m : RoundingMode) (rate : Z) : result ExceptionKind STAmount :=
  if rate =? 0 then new_under m no_issue 0 0 false
  else new_under m no_issue (Z.land rate (not_u64 (Z.shiftl 255 56))) (Z.shiftr rate 56 - 100) false.

Section Rates.
Context (mode : RoundingMode) (scale : MantissaScale).
Context (mptokens_v2 number_path_enabled cleanup_3_5_0 : bool).

(** [stamount_as_number] under the rounding mode [m]; what it can throw is an [expect]. *)
Definition as_number (m : RoundingMode) (a : STAmount) : result ExceptionKind NumberParts :=
  raise ExRuntime (stamount_as_number m scale a).

(** The guard is installed for integral assets only. The inner result is the error of
    the conversion, the outer one what [canonicalize] throws. *)
Definition to_amount_from_number (asset : Asset) (number : NumberParts) (m : RoundingMode)
    : result ExceptionKind (result NumberArithmeticError STAmount) :=
  raise (throw (amount_range_error asset))
    (asset_amount (if asset_integral asset then m else mode) asset number).

(** ** Quotients and keys *)

Definition try_divide (num den : STAmount) (asset : Asset) : result AmountError STAmount :=
  if st_signum den =? 0 then RErr DivisionByZero
  else if st_signum num =? 0 then try_new_with_asset mode asset 0 0 false
  else
    '(num_val, num_offset) ← scaled num;
    '(den_val, den_offset) ← scaled den;
    amount ← map_err (fun _ => ArithmeticOverflow) (muldiv num_val TEN_TO_17 den_val);
    try_new_with_asset mode asset (wrap_u64 (amount + 5)) (num_offset - den_offset - 17)
      (negb (Bool.eqb (sa_negative num) (sa_negative den))).

Definition divide (num den : STAmount) (asset : Asset) : result ExceptionKind STAmount :=
  map_err throw (try_divide num den asset).

Definition rate_key (exponent mantissa : Z) : Z := Z.lor (Z.shiftl (exponent + 100) 56) mantissa.

(** [catch_unwind] turns every throw into the key zero. *)
Definition get_rate (offer_out offer_in : STAmount) : Z :=
  if st_signum offer_out =? 0 then 0
  else match divide offer_in offer_out no_issue with
  | ROk rate =>
      if st_signum rate =? 0 then 0
      else if negb ((-100 <=? sa_offset rate) && (sa_offset rate <=? 155)) then 0
      else rate_key (sa_offset rate) (sa_value rate)
  | _ => 0
  end.

(** ** Products *)

(** The outer result is what unwinds, before [catch_unwind] is reached. *)
Definition try_multiply (v1 v2 : STAmount) (asset : Asset)
    : result ExceptionKind (result AmountError STAmount) :=
  if (st_signum v1 =? 0) || (st_signum v2 =? 0) then ROk (try_new_with_asset mode asset 0 0 false)
  else if sa_native v1 && sa_native v2 && asset_native asset then
    x ← signed_value v1; y ← signed_value v2;
    match guarded_factors 3000000000 2095475792 x y with
    | Some (min_v, max_v) =>
        if in_i64 (min_v * max_v)
        then ROk (try_new_with_asset mode asset (Z.abs (min_v * max_v)) 0 (min_v * max_v <? 0))
        else ROk (RErr NativeOutOfRange)
    | None => ROk (RErr NativeOutOfRange)
    end
  else if holds_mpt_issue v1 && holds_mpt_issue v2 && is_mpt_asset asset then
    x ← signed_value v1; y ← signed_value v2;
    match guarded_factors 3037000499 2147483648 x y with
    | Some (min_v, max_v) =>
        if in_i64 (min_v * max_v)
        then ROk (try_new_with_asset mode asset (Z.abs (min_v * max_v)) 0 (min_v * max_v <? 0))
        else ROk (RErr MptOutOfRange)
    | None => ROk (RErr MptOutOfRange)
    end
  else
    x ← as_number mode v1; y ← as_number mode v2;
    ROk (product ← map_err (fun _ => ArithmeticOverflow) (try_mul mode scale x y);
         amount ← map_err (fun k => if is_overflow k then ArithmeticOverflow else amount_range_error asset)
                    (to_amount_from_number asset product mode);
         map_err (fun _ => amount_range_error asset) amount).

Definition multiply (v1 v2 : STAmount) (asset : Asset) : result ExceptionKind STAmount :=
  r ← try_multiply v1 v2 asset; map_err throw r.

(** ** Directed products and quotients *)

Definition round_number_result (asset : Asset) (result_negative round_up : bool) (number : NumberParts)
    : result ExceptionKind STAmount :=
  a ← to_amount_from_number asset number (round_mode result_negative round_up);
  a ← map_err (fun _ => ExRuntime) a;
  if round_up && negb result_negative && (st_signum a =? 0) then new_under mode asset 1 0 false
  else ROk a.

(** A result that vanished is the smallest amount of its asset. *)
Definition at_least_one (asset : Asset) (result_negative round_up : bool) (a : STAmount)
    : result ExceptionKind STAmount :=
  if round_up && negb result_negative && (st_signum a =? 0) then
    if is_native_or_mpt_asset asset then new_under mode asset 1 0 false
    else new_under mode asset ST_AMOUNT_MIN_VALUE ST_AMOUNT_MIN_OFFSET false
  else ROk a.

Definition mul_round_impl (v1 v2 : STAmount) (asset : Asset) (round_up : bool)
    (canonicalize_fn : bool -> Z -> Z -> bool -> Z * Z) (strict : bool) : result ExceptionKind STAmount :=
  if (st_signum v1 =? 0) || (st_signum v2 =? 0) then new_under mode asset 0 0 false
  else if sa_native v1 && sa_native v2 && asset_native asset then
    x ← signed_value v1; y ← signed_value v2;
    match guarded_factors 3000000000 2095475792 x y with
    | Some (min_v, max_v) =>
        let product := wrap_i64 (min_v * max_v) in
        new_under mode asset (Z.abs product) 0 (product <? 0)
    | None => RErr ExRuntime
    end
  else if holds_mpt_issue v1 && holds_mpt_issue v2 && is_mpt_asset asset then
    x ← signed_value v1; y ← signed_value v2;
    match guarded_factors 3037000499 2147483648 x y with
    | Some (min_v, max_v) =>
        let product := wrap_i64 (min_v * max_v) in
        new_under mode asset (Z.abs product) 0 (product <? 0)
    | None => RErr ExRuntime
    end
  else
    let result_negative := negb (Bool.eqb (sa_negative v1) (sa_negative v2)) in
    if is_mpt_asset asset && mptokens_v2 then
      let m := round_mode result_negative round_up in
      x ← as_number m v1; y ← as_number m v2;
      product ← raise ExOverflow (number_mul m scale x y);
      round_number_result asset result_negative round_up product
    else
      '(value1, offset1) ← scaled v1;
      '(value2, offset2) ← scaled v2;
      let away := negb (Bool.eqb result_negative round_up) in
      amount ← map_err (fun _ => ExOverflow)
                 (muldiv_round value1 value2 TEN_TO_14 (if away then TEN_TO_14 - 1 else 0));
      let offset := offset1 + offset2 + 14 in
      let '(amount, offset) :=
        if away then canonicalize_fn (asset_native asset) amount offset round_up else (amount, offset) in
      a ← new_under (if strict then TowardsZero else mode) asset amount offset result_negative;
      at_least_one asset result_negative round_up a.

Definition mul_round (v1 v2 : STAmount) (asset : Asset) (round_up : bool) : result ExceptionKind STAmount :=
  mul_round_impl v1 v2 asset round_up canonicalize_round false.
Definition mul_round_strict (v1 v2 : STAmount) (asset : Asset) (round_up : bool) : result ExceptionKind STAmount :=
  mul_round_impl v1 v2 asset round_up canonicalize_round_strict true.

Definition div_round_impl (num den : STAmount) (asset : Asset) (round_up strict : bool)
    : result ExceptionKind STAmount :=
  if st_signum den =? 0 then RErr ExRuntime
  else if st_signum num =? 0 then new_under mode asset 0 0 false
  else
    let result_negative := negb (Bool.eqb (sa_negative num) (sa_negative den)) in
    if (is_mpt_asset asset || holds_mpt_issue num || holds_mpt_issue den) && number_path_enabled then
      let m := round_mode result_negative round_up in
      x ← as_number m num; y ← as_number m den;
      quotient ← raise ExOverflow (number_div m scale x y);
      round_number_result asset result_negative round_up quotient
    else
      '(num_val, num_offset) ← scaled num;
      '(den_val, den_offset) ← scaled den;
      let away := negb (Bool.eqb result_negative round_up) in
      amount ← map_err (fun _ => ExOverflow)
                 (muldiv_round num_val TEN_TO_17 den_val (if away then den_val - 1 else 0));
      let offset := num_offset - den_offset - 17 in
      let '(amount, offset) :=
        if away then canonicalize_round (is_native_or_mpt_asset asset) amount offset round_up
        else (amount, offset) in
      a ← new_under (if strict then round_mode result_negative round_up else mode)
            asset amount offset result_negative;
      at_least_one asset result_negative round_up a.

Definition div_round (num den : STAmount) (asset : Asset) (round_up : bool) : result ExceptionKind STAmount :=
  div_round_impl num den asset round_up false.
Definition div_round_strict (num den : STAmount) (asset : Asset) (round_up : bool) : result ExceptionKind STAmount :=
  div_round_impl num den asset round_up true.

(** ** Transfer rates: [rate.rs] *)

Record Rate := mkRate { rate_value : Z }.

Definition QUALITY_ONE : Z := 1000000000.
Definition PARITY_RATE : Rate := mkRate QUALITY_ONE.

Definition as_amount (r : Rate) : result ExceptionKind STAmount :=
  new_under mode no_issue (rate_value r) (-9) false.

(** The body every operation of [rate.rs] has, around one on amounts. *)
Definition at_rate (a : STAmount) (r : Rate) (f : STAmount -> result ExceptionKind STAmount)
    : result ExceptionKind STAmount :=
  if rate_value r =? 0 then RErr ExRuntime
  else if rate_value r =? rate_value PARITY_RATE then ROk a
  else x ← as_amount r; f x.

Definition multiply_rate (a : STAmount) (r : Rate) : result ExceptionKind STAmount :=
  at_rate a r (fun x => multiply a x (sa_asset a)).
Definition multiply_round_with_asset (a : STAmount) (r : Rate) (asset : Asset) (round_up : bool)
    : result ExceptionKind STAmount :=
  at_rate a r (fun x => mul_round a x asset round_up).
Definition multiply_round (a : STAmount) (r : Rate) (round_up : bool) : result ExceptionKind STAmount :=
  at_rate a r (fun x => mul_round a x (sa_asset a) round_up).
Definition divide_rate (a : STAmount) (r : Rate) : result ExceptionKind STAmount :=
  at_rate a r (fun x => divide a x (sa_asset a)).
Definition divide_round_with_asset (a : STAmount) (r : Rate) (asset : Asset) (round_up : bool)
    : result ExceptionKind STAmount :=
  at_rate a r (fun x => div_round a x asset round_up).
Definition divide_round (a : STAmount) (r : Rate) (round_up : bool) : result ExceptionKind STAmount :=
  at_rate a r (fun x => div_round a x (sa_asset a) round_up).

(** [nft::transfer_fee_as_rate] *)
Definition transfer_fee_as_rate (fee : Z) : Rate := mkRate (fee * 10000).

(** ** Qualities: the smaller the key, the better the offer *)

Definition MIN_TICK_SIZE : Z := 3.
Definition MAX_TICK_SIZE : Z := 16.

Record Quality := mkQuality { quality_value : Z }.

Definition from_amounts (a : Amounts) : Quality := mkQuality (get_rate (am_out a) (am_in a)).
Definition quality_rate (q : Quality) : result ExceptionKind STAmount := amount_from_quality mode (quality_value q).
Definition quality_increment (q : Quality) : outcome Quality :=
  if 0 <? quality_value q then Ok (mkQuality (quality_value q - 1)) else Panic.
Definition quality_decrement (q : Quality) : outcome Quality :=
  if quality_value q <? u64_max then Ok (mkQuality (quality_value q + 1)) else Panic.
Definition quality_cmp (q r : Quality) : comparison := quality_value r ?= quality_value q.

Definition quality_round (q : Quality) (digits : nat) : outcome Quality :=
  let exponent := Z.shiftr (quality_value q) 56 in
  let mantissa := Z.land (quality_value q) 0x00ffffffffffffff in
  m ← expect (rounding_mods !! digits);
  let mantissa := mantissa + (m - 1) in
  let mantissa := mantissa - mantissa mod m in
  Ok (mkQuality (Z.lor (wrap_u64 (Z.shiftl exponent 56)) mantissa)).

(** ** Cutting an offer to a limit *)

Definition ceil_in_impl (amount : Amounts) (limit : STAmount) (round_up : bool) (q : Quality)
    (div_round_fn : STAmount -> STAmount -> Asset -> bool -> result ExceptionKind STAmount)
    : result ExceptionKind Amounts :=
  if st_gtb (am_in amount) limit then
    rate ← quality_rate q;
    out ← div_round_fn limit rate (sa_asset (am_out amount)) round_up;
    ROk (mkAmounts limit (if st_gtb out (am_out amount) then am_out amount else out))
  else ROk amount.

Definition ceil_in (q : Quality) (amount : Amounts) (limit : STAmount) : result ExceptionKind Amounts :=
  ceil_in_impl amount limit true q div_round.
Definition ceil_in_strict (q : Quality) (amount : Amounts) (limit : STAmount) (round_up : bool)
    : result ExceptionKind Amounts :=
  ceil_in_impl amount limit round_up q div_round_strict.

Definition try_mul_round (v1 v2 : STAmount) (asset : Asset) (round_up : bool)
    (mul_round_fn : STAmount -> STAmount -> Asset -> bool -> result ExceptionKind STAmount)
    : result ExceptionKind (option STAmount) :=
  match mul_round_fn v1 v2 asset round_up with
  | ROk a => ROk (Some a)
  | RErr k => if is_overflow k || negb (asset_native asset) || negb cleanup_3_5_0 then RErr k else ROk None
  | RFuel => RFuel
  end.

Definition ceil_out_impl (amount : Amounts) (limit : STAmount) (round_up : bool) (q : Quality)
    (mul_round_fn : STAmount -> STAmount -> Asset -> bool -> result ExceptionKind STAmount)
    : result ExceptionKind Amounts :=
  if st_gtb (am_out amount) limit then
    rate ← quality_rate q;
    i ← try_mul_round limit rate (sa_asset (am_in amount)) round_up mul_round_fn;
    let i := from_option id (am_in amount) i in
    ROk (mkAmounts (if st_gtb i (am_in amount) then am_in amount else i) limit)
  else ROk amount.

Definition ceil_out (q : Quality) (amount : Amounts) (limit : STAmount) : result ExceptionKind Amounts :=
  ceil_out_impl amount limit true q mul_round.
Definition ceil_out_strict (q : Quality) (amount : Amounts) (limit : STAmount) (round_up : bool)
    : result ExceptionKind Amounts :=
  ceil_out_impl amount limit round_up q mul_round_strict.

(** A failed assertion unwinds with an untyped payload, which is of class [ExRuntime]. *)
Definition composed_quality (lhs rhs : Quality) : result ExceptionKind Quality :=
  lhs_rate ← quality_rate lhs;
  _ ← raise ExRuntime (assert_that (negb (st_signum lhs_rate =? 0)));
  rhs_rate ← quality_rate rhs;
  _ ← raise ExRuntime (assert_that (negb (st_signum rhs_rate =? 0)));
  rate ← mul_round lhs_rate rhs_rate (sa_asset lhs_rate) true;
  let stored_exponent := wrap_u64 (sa_offset rate + 100) in
  _ ← raise ExRuntime (assert_that ((1 <=? stored_exponent) && (stored_exponent <=? 255)));
  ROk (mkQuality (Z.lor (wrap_u64 (Z.shiftl stored_exponent 56)) (sa_value rate))).

(** ** Sums that keep their precision: [can_add] of [st_amount.rs] *)

(** [?] through a closure whose errors, but not its panics, become [false]. *)
Definition precision_loss (a b : STAmount) : outcome (result AmountError bool) :=
  try_bind (Ok (try_new_with_asset mode no_issue 1 0 false)) (fun one =>
  try_bind (Ok (try_new_with_asset mode no_issue 1 (-4) false)) (fun max_loss =>
  try_bind (try_bind (try_iou_sub mode scale a b) (fun d => try_iou_add mode scale d b)) (fun s =>
  try_bind (Ok (try_divide s a no_issue)) (fun lhs =>
  try_bind (try_bind (try_iou_sub mode scale b a) (fun d => try_iou_add mode scale d a)) (fun s =>
  try_bind (Ok (try_divide s b no_issue)) (fun rhs =>
  try_bind (try_iou_sub mode scale lhs one) (fun lhs =>
  try_bind (try_iou_sub mode scale rhs one) (fun rhs =>
  try_bind (try_iou_add mode scale (absolute_amount lhs) (absolute_amount rhs)) (fun loss =>
  Ok (ROk (st_leb loss max_loss))))))))))).

Definition can_add (a b : STAmount) : outcome bool :=
  if negb (are_comparable a b) then Ok false
  else if (sa_value a =? 0) || (sa_value b =? 0) then Ok true
  else if integral a then
    Ok (match signed_integral_value a, signed_integral_value b with
        | Some x, Some y => in_i64 (x + y)
        | _, _ => false
        end)
  else r ← precision_loss a b; Ok (match r with ROk fine => fine | _ => false end).

(** ** Average quality of a payment strand, a linear function of its output *)

Record QualityFunction := mkQF { qf_m : NumberParts; qf_b : NumberParts; qf_quality : option Quality }.

Definition quality_rate_as_number (m : RoundingMode) (q : Quality) : result ExceptionKind NumberParts :=
  rate ← amount_from_quality m (quality_value q);
  as_number m rate.

(** An operator of [Number], whose errors are overflows. *)
Definition op (o : outcome NumberParts) : result ExceptionKind NumberParts := raise ExOverflow o.

Definition from_quality (q : Quality) : result ExceptionKind QualityFunction :=
  rate ← quality_rate q;
  if st_signum rate <=? 0 then RErr ExRuntime
  else
    r ← quality_rate_as_number mode q;
    b ← op (number_div mode scale (number_one scale) r);
    ROk (mkQF number_zero b (Some q)).

Definition fee_mult (tfee : Z) : result ExceptionKind NumberParts :=
  x ← map_err (fun _ => ExRuntime) (try_from_external_parts mode scale tfee 0);
  y ← map_err (fun _ => ExRuntime) (try_from_external_parts mode scale 100000 0);
  fee ← op (number_div mode scale x y);
  op (number_sub mode scale (number_one scale) fee).

Definition from_amm (a : Amounts) (tfee : Z) : result ExceptionKind QualityFunction :=
  if (st_signum (am_in a) <=? 0) || (st_signum (am_out a) <=? 0) then RErr ExRuntime
  else
    cfee ← fee_mult tfee;
    amount_in ← as_number mode (am_in a);
    amount_out ← as_number mode (am_out a);
    m ← op (number_div mode scale (number_neg cfee) amount_in);
    p ← op (number_mul mode scale amount_out cfee);
    b ← op (number_div mode scale p amount_in);
    ROk (mkQF m b None).

Definition qf_combine (f g : QualityFunction) : result ExceptionKind QualityFunction :=
  p ← op (number_mul mode scale (qf_b f) (qf_m g));
  m ← op (number_add mode scale (qf_m f) p);
  b ← op (number_mul mode scale (qf_b f) (qf_b g));
  ROk (mkQF m b (if bool_decide (m = number_zero) then qf_quality f else None)).

Definition out_from_avg_q (f : QualityFunction) (q : Quality) : result ExceptionKind (option NumberParts) :=
  if bool_decide (qf_m f = number_zero) then ROk None
  else
    rate ← quality_rate q;
    if st_signum rate =? 0 then ROk None
    else
      r ← quality_rate_as_number Upward q;
      x ← op (number_div Upward scale (number_one scale) r);
      d ← op (number_sub Upward scale x (qf_b f));
      out ← op (number_div Upward scale d (qf_m f));
      ROk (match number_compare out number_zero with Gt => Some out | _ => None end).

Definition satisfies_avg_q (f : QualityFunction) (q : Quality) (out : NumberParts)
    : result ExceptionKind bool :=
  rate ← quality_rate q;
  if st_signum rate =? 0 then ROk false
  else
    p ← op (number_mul mode scale (qf_m f) out);
    s ← op (number_add mode scale p (qf_b f));
    r ← quality_rate_as_number mode q;
    x ← op (number_div mode scale (number_one scale) r);
    ROk (match number_compare s x with Lt => false | _ => true end).
End Rates.
