(* ===== verification/AmountFacts.v ===== *)
(** * Serialized amounts: canonical form, order, wire form, sums

    The value an amount denotes, the canonical amounts, and what [try_canonicalize]
    makes of any amount: the canonical one its rounding mode asks for, or the range
    error of its asset. Then the order of canonical amounts, their way through the wire
    form, and their sums. *)

From Stdlib Require Import QArith Qabs Lqa.
From S2P Require Import Prelude Number NumberRound NumberSpec NumberSum IouAmount IouRounding StAmount Serializer.

Implicit Types (mode : RoundingMode) (a b : STAmount).

Ltac amounts :=
  unfold ST_AMOUNT_MAX_NATIVE_NETWORK, MAX_MP_TOKEN_AMOUNT, ST_AMOUNT_MIN_OFFSET, ST_AMOUNT_MAX_OFFSET,
    ST_AMOUNT_MAX_MANTISSA, ST_AMOUNT_MIN_MANTISSA in *; ious.

(** ** Values *)

Definition st_number a : NumberParts := mkNumber (sa_negative a) (sa_value a) (sa_offset a).
Definition st_value a : Q := number_value (st_number a).
Definition st_iou a : IOUAmount := mkIOU (if sa_negative a then - sa_value a else sa_value a) (sa_offset a).

Definition integral_limit (asset : Asset) : Z :=
  if asset_native asset then ST_AMOUNT_MAX_NATIVE_NETWORK else MAX_MP_TOKEN_AMOUNT.

Definition no_negative_zero a : Prop := sa_value a = 0 -> sa_negative a = false.

Definition st_canonical a : Prop :=
  0 <= sa_value a /\ no_negative_zero a
  /\ if integral a then sa_offset a = 0 /\ sa_value a <= integral_limit (sa_asset a)
     else canonical (st_iou a).

(** The fields at the width of the code, with an exponent far from the ends of [i32]. *)
Definition st_raw a : Prop := 0 <= sa_value a <= u64_max /\ -150000 <= sa_offset a <= 100000.

(** The exact value [try_canonicalize] rounds. An integral mantissa past [i64::MAX]
    loses its last digit; an issued one is read as an [i64]. *)
Definition kept_digits (v : Z) : Z := if NUMBER_MAX_REP <? v then v / 10 * 10 else v.

Definition materialized a : Q :=
  if integral a then signed (sa_negative a) (inject_Z (kept_digits (sa_value a)) * q10 (sa_offset a))
  else inject_Z (wrapped_mantissa a) * q10 (sa_offset a).

(** The largest magnitude of an asset. *)
Definition asset_limit (asset : Asset) : Q :=
  if asset_integral asset then inject_Z (integral_limit asset) else iou_largest.

Definition range_error (asset : Asset) : AmountError :=
  if asset_native asset then NativeOutOfRange else if is_mpt_asset asset then MptOutOfRange else IssuedOutOfRange.

Definition canonical_rounding mode a (r : result AmountError STAmount) : Prop :=
  match r with
  | ROk b => st_canonical b /\ sa_asset b = sa_asset a
      /\ if integral a then
           if sa_offset a <=? -20 then (st_value b == 0)%Q
           else exists k, rounds_int mode (materialized a) k /\ (st_value b == inject_Z k)%Q
         else iou_rounded mode (materialized a) (ROk (st_iou b))
  | RErr e => e = range_error (sa_asset a) /\ (asset_limit (sa_asset a) < Qabs (materialized a))%Q
  | RFuel => False
  end.

Lemma signed_int (neg : bool) (v : Z) : signed neg (inject_Z v) = inject_Z (if neg then - v else v).
Proof. by destruct neg. Qed.

Lemma iou_value_int i : (iou_value i == inject_Z (iou_mantissa i) * q10 (iou_exponent i))%Q.
Proof.
  unfold iou_value, number_value, magnitude, iou_number. cbn [np_negative np_mantissa np_exponent].
  destruct (Z.ltb_spec (iou_mantissa i) 0); cbn [signed].
  - rewrite Z.abs_neq, inject_Z_opp by lia. ring.
  - rewrite Z.abs_eq by lia. reflexivity.
Qed.

Lemma st_value_int a : (st_value a == inject_Z (if sa_negative a then - sa_value a else sa_value a) * q10 (sa_offset a))%Q.
Proof.
  unfold st_value, number_value, magnitude, st_number. cbn [np_negative np_mantissa np_exponent].
  destruct (sa_negative a); cbn [signed]; [|reflexivity]. rewrite inject_Z_opp. ring.
Qed.

Lemma st_iou_value a : (iou_value (st_iou a) == st_value a)%Q.
Proof. by rewrite iou_value_int, st_value_int. Qed.

(** ** Integers *)

Lemma rounds_int_bound mode v (k l : Z) : rounds_int mode v k -> (Qabs v <= inject_Z l)%Q -> Z.abs k <= l.
Proof.
  intros Hr [Hl1 Hl2]%Qabs_Qle_condition.
  assert (inject_Z k - 1 < v /\ v < inject_Z k + 1)%Q as [H1 H2].
  { unfold rounds_int in Hr. pose proof (abs_diff_cases v (inject_Z k)) as Ha. destruct (Qlt_le_dec v 0), mode; lra. }
  assert (k - 1 < l) by (rewrite Zlt_Qlt; unfold Z.sub; rewrite inject_Z_plus, inject_Z_opp; change (inject_Z 1) with 1%Q; lra).
  assert (- l < k + 1) by (rewrite Zlt_Qlt, inject_Z_plus, inject_Z_opp; change (inject_Z 1) with 1%Q; lra). lia.
Qed.

(** [try_to_i64] of a number as it stands, normal or not. *)
Lemma to_i64_unnormal mode (neg : bool) v e : 0 < v <= u64_max -> -150000 <= e <= 100000 ->
  integer_rounded mode (signed neg (inject_Z (kept_digits v) * q10 e)) (try_to_i64 mode (mkNumber neg v e)).
Proof.
  intros Hv He. unfold kept_digits, u64_max in *. destruct (Z.ltb_spec NUMBER_MAX_REP v) as [H|H].
  - pose proof (Z.div_mod v 10 ltac:(lia)). pose proof (Z.mod_pos_bound v 10 ltac:(lia)).
    assert (inject_Z (v / 10 * 10) * q10 e == inject_Z (v / 10) * q10 (e + 1))%Q as ->.
    { rewrite (q10_unit (v / 10) e (e + 1)), Z.add_simpl_l by lia. reflexivity. }
    apply (to_i64_of_parts mode (mkNumber neg v e)).
    + unfold external_parts. cbn [np_mantissa np_exponent np_negative]. rewrite (proj2 (Z.eqb_neq v 0)), (proj2 (Z.ltb_lt _ _) H) by lia.
      rewrite checked_i32_ok by (numbers; lia). cbn [mbind result_bind]. rewrite checked_i64_ok; [done|]. numbers. lia.
    + numbers. lia.
  - apply (to_i64_of_parts mode (mkNumber neg v e)); [|lia].
    unfold external_parts. cbn [np_mantissa np_exponent np_negative]. rewrite (proj2 (Z.eqb_neq v 0)), (proj2 (Z.ltb_ge _ _) H) by lia.
    cbn [mbind result_bind]. rewrite checked_i64_ok; [done|]. numbers. lia.
Qed.

(** ** Canonicalization *)

Lemma integral_cases a : integral a = true ->
  (sa_native a = true /\ holds_mpt_issue a = false /\ range_error (sa_asset a) = NativeOutOfRange
   /\ integral_limit (sa_asset a) = ST_AMOUNT_MAX_NATIVE_NETWORK)
  \/ (sa_native a = false /\ holds_mpt_issue a = true /\ range_error (sa_asset a) = MptOutOfRange
      /\ integral_limit (sa_asset a) = MAX_MP_TOKEN_AMOUNT).
Proof.
  unfold integral, sa_native, holds_mpt_issue, range_error, integral_limit.
  destruct (sa_asset a) as [c i|i]; cbn [asset_integral asset_native is_mpt_asset].
  - intros ->. auto.
  - intros _. auto.
Qed.

Lemma integral_limit_bounds asset : 0 <= integral_limit asset <= NUMBER_MAX_REP.
Proof. unfold integral_limit. amounts. destruct (asset_native asset); lia. Qed.

Lemma kept_digits_pos v : 0 < v -> 1 <= kept_digits v.
Proof.
  intros Hv. unfold kept_digits. destruct (Z.ltb_spec NUMBER_MAX_REP v); [|lia].
  pose proof (Z.div_mod v 10 ltac:(lia)). pose proof (Z.mod_pos_bound v 10 ltac:(lia)). numbers. lia.
Qed.

Lemma integral_abs a : integral a = true ->
  0 <= sa_value a -> (Qabs (materialized a) == inject_Z (kept_digits (sa_value a)) * q10 (sa_offset a))%Q.
Proof.
  intros Hi Hv. unfold materialized. rewrite Hi. apply abs_signed.
  apply Qmult_le_0_compat; [|apply Qlt_le_weak, q10_pos]. change 0%Q with (inject_Z 0). rewrite <- Zle_Qle.
  destruct (Z.eq_dec (sa_value a) 0) as [->|]; [done|]. pose proof (kept_digits_pos (sa_value a)). lia.
Qed.

(** A mantissa followed by too many zeroes. *)
Lemma large_offset a e : integral a = true -> 0 < sa_value a -> integral_limit (sa_asset a) < 10 ^ (e + 1) ->
  0 <= e < sa_offset a -> (asset_limit (sa_asset a) < Qabs (materialized a))%Q.
Proof.
  intros Hi Hv Hl He. unfold asset_limit. change (asset_integral _) with (integral a). rewrite Hi, integral_abs by (done || lia).
  rewrite (q10_unit _ 0 (sa_offset a)), Z.sub_0_r by lia. change (q10 0) with 1%Q. rewrite Qmult_1_r, <- Zlt_Qlt.
  pose proof (kept_digits_pos (sa_value a) Hv). pose proof (Z.pow_le_mono_r 10 (e + 1) (sa_offset a) ltac:(lia) ltac:(lia)). nia.
Qed.

Lemma zero_rounding a mode : integral a = true -> sa_value a = 0 \/ sa_offset a <= -20 ->
  canonical_rounding mode a (ROk (mkST (sa_asset a) 0 0 false)).
Proof.
  intros Hi Hz. pose proof (integral_limit_bounds (sa_asset a)). split_and!; [|done|].
  - unfold st_canonical, no_negative_zero, integral. cbn [sa_value sa_negative sa_asset sa_offset].
    change (asset_integral (sa_asset a)) with (integral a). rewrite Hi. split_and!; (done || lia).
  - rewrite Hi. destruct (Z.leb_spec (sa_offset a) (-20)); [reflexivity|].
    exists 0. split; [|reflexivity]. unfold materialized. destruct Hz as [->|]; [|lia]. rewrite Hi.
    change (inject_Z (kept_digits 0)) with (inject_Z 0). rewrite Qmult_0_l.
    destruct (sa_negative a); by destruct mode.
Qed.

(** The common end of both integral branches. *)
Lemma integral_rounding a mode (k : Z) : integral a = true -> -20 < sa_offset a -> rounds_int mode (materialized a) k ->
  canonical_rounding mode a
    (if integral_limit (sa_asset a) <? Z.abs k then RErr (range_error (sa_asset a))
     else ROk (mkST (sa_asset a) (Z.abs k) 0 (k <? 0))).
Proof.
  intros Hi Ho Hk. destruct (Z.ltb_spec (integral_limit (sa_asset a)) (Z.abs k)) as [Hl|Hl].
  - split; [done|]. unfold asset_limit. change (asset_integral _) with (integral a). rewrite Hi.
    apply Qnot_le_lt. intros Hle. pose proof (rounds_int_bound mode _ k _ Hk Hle). lia.
  - split_and!; [|done|].
    + unfold st_canonical, no_negative_zero, integral. cbn [sa_value sa_negative sa_asset sa_offset].
      change (asset_integral (sa_asset a)) with (integral a). rewrite Hi. split_and!; try (done || lia).
    + rewrite Hi, (proj2 (Z.leb_gt _ _)) by lia. exists k. split; [done|]. rewrite st_value_int.
      cbn [sa_value sa_negative sa_offset]. change (q10 0) with 1%Q. rewrite Qmult_1_r.
      destruct (Z.ltb_spec k 0); f_equiv; lia.
Qed.

Lemma integral_overflow a mode : integral a = true -> (inject_Z NUMBER_MAX_REP < Qabs (materialized a))%Q ->
  canonical_rounding mode a (RErr (range_error (sa_asset a))).
Proof.
  intros Hi Hl. split; [done|]. unfold asset_limit. change (asset_integral _) with (integral a). rewrite Hi.
  pose proof (integral_limit_bounds (sa_asset a)) as [_ Hb]. rewrite Zle_Qle in Hb. lra.
Qed.

Lemma wrap_i64_range z : -9223372036854775808 <= wrap_i64 z <= 9223372036854775807.
Proof. unfold wrap_i64, u64_modulus. pose proof (Z.mod_pos_bound (z + 9223372036854775808) 18446744073709551616). lia. Qed.

Lemma wrapped_range a : -9223372036854775808 <= wrapped_mantissa a <= 9223372036854775807.
Proof. unfold wrapped_mantissa. destruct (sa_negative a); apply wrap_i64_range. Qed.

Lemma st_iou_of i asset :
  st_iou (mkST asset (Z.abs (iou_mantissa i)) (iou_exponent i) (iou_mantissa i <? 0)) = i.
Proof.
  destruct i as [m e]. unfold st_iou. cbn [sa_negative sa_value sa_offset iou_mantissa iou_exponent].
  f_equal. destruct (Z.ltb_spec m 0); lia.
Qed.

Lemma canonicalize_rounds mode a : st_raw a -> canonical_rounding mode a (try_canonicalize mode a).
Proof.
  intros [Hv He]. unfold try_canonicalize. destruct (integral a) eqn:Hi.
  - destruct ((sa_value a =? 0) || (sa_offset a <=? -20)) eqn:Ez.
    { apply zero_rounding; [done|]. apply orb_true_iff in Ez as [?%Z.eqb_eq|?%Z.leb_le]; auto. }
    apply orb_false_iff in Ez as [Ev%Z.eqb_neq Eo%Z.leb_gt].
    pose proof (to_i64_unnormal mode (sa_negative a) (sa_value a) (sa_offset a) ltac:(lia) He) as HR.
    pose proof (integral_rounding a mode) as Hend. pose proof (integral_overflow a mode Hi) as Hovf.
    replace (signed _ _) with (materialized a) in HR by (unfold materialized; by rewrite Hi).
    pose proof (fun e => large_offset a e Hi ltac:(lia)) as Hbig.
    destruct (integral_cases a Hi) as [(-> & -> & Er & El)|(-> & -> & Er & El)]; cbn [andb]; rewrite El, Er in *.
    + destruct (Z.ltb_spec 17 (sa_offset a)); [split; [done|]; apply (Hbig 17); [amounts|]; lia|].
      unfold xrp_from_number. destruct (try_to_i64 _ _) as [k|e|]; cbn [mbind result_bind map_err drops]; [|apply Hovf, HR|done].
      apply Hend; [done|lia|apply HR].
    + destruct (Z.ltb_spec 18 (sa_offset a)); [split; [done|]; apply (Hbig 18); [amounts|]; lia|].
      unfold mpt_from_number. destruct (try_to_i64 _ _) as [k|e|]; cbn [mbind result_bind map_err mpt_value]; [|apply Hovf, HR|done].
      apply Hend; [done|lia|apply HR].
  - pose proof (wrapped_range a) as Hw. set (w := wrapped_mantissa a) in *. cbn zeta.
    pose proof (iou_from_number_rounds mode (mkNumber (w <? 0) (Z.abs w) (sa_offset a))) as HR. cbn [np_mantissa np_exponent] in HR.
    specialize (HR ltac:(unfold u64_max; lia) ltac:(done)).
    assert (number_value (mkNumber (w <? 0) (Z.abs w) (sa_offset a)) == materialized a)%Q as Ev.
    { change (iou_value (mkIOU w (sa_offset a)) == materialized a)%Q. rewrite iou_value_int. unfold materialized. by rewrite Hi. }
    rewrite Ev in HR. destruct (iou_from_number _ _) as [i|e|]; cbn [mbind result_bind map_err] in *; [| |done].
    + split_and!; [|done|rewrite Hi, st_iou_of; done]. unfold st_canonical, no_negative_zero, integral. cbn [sa_asset].
      change (asset_integral (sa_asset a)) with (integral a). rewrite Hi, st_iou_of. cbn [sa_value sa_negative].
      split_and!; [lia|intros; apply Z.ltb_ge; lia|apply HR].
    + split.
      * unfold range_error, integral in *. destruct (sa_asset a); cbn [asset_integral asset_native is_mpt_asset] in *; [by rewrite Hi|done].
      * unfold asset_limit. change (asset_integral _) with (integral a). rewrite Hi. apply HR.
Qed.

(** ** Canonical amounts *)

Lemma wrapped_id a : 0 <= sa_value a <= NUMBER_MAX_REP ->
  wrapped_mantissa a = if sa_negative a then - sa_value a else sa_value a.
Proof. intros Hv. numbers. unfold wrapped_mantissa. rewrite (wrap_i64_id (sa_value a)) by lia. destruct (sa_negative a); [apply wrap_i64_id; lia|done]. Qed.

Lemma materialized_exact a : 0 <= sa_value a <= NUMBER_MAX_REP -> (materialized a == st_value a)%Q.
Proof.
  intros Hv. unfold materialized, kept_digits. rewrite (proj2 (Z.ltb_ge _ _)), wrapped_id by lia.
  destruct (integral a); [reflexivity|]. by rewrite st_value_int.
Qed.

Lemma canonical_value_bound a : st_canonical a -> 0 <= sa_value a <= NUMBER_MAX_REP.
Proof.
  intros (Hv & _ & Hc). split; [done|]. destruct (integral a).
  - pose proof (integral_limit_bounds (sa_asset a)). lia.
  - destruct Hc as [E|[Hm _]].
    + apply (f_equal iou_mantissa) in E. cbn in E. numbers. destruct (sa_negative a); lia.
    + unfold st_iou in Hm. cbn [iou_mantissa] in Hm. amounts. destruct (sa_negative a); lia.
Qed.

Lemma canonical_offset a : st_canonical a -> -100 <= sa_offset a <= 80.
Proof.
  intros (Hv & _ & Hc). destruct (integral a); [lia|]. destruct Hc as [E|[_ He]].
  - apply (f_equal iou_exponent) in E. unfold st_iou in E. cbn in E. rewrite E. done.
  - unfold st_iou in He. cbn [iou_exponent] in He. amounts. lia.
Qed.

Lemma canonical_raw a : st_canonical a -> st_raw a.
Proof.
  intros Ha. pose proof (canonical_value_bound a Ha). pose proof (canonical_offset a Ha).
  unfold st_raw, u64_max. numbers. lia.
Qed.

Lemma signed_inj (m n : bool) (v w : Z) : 0 <= v -> 0 <= w -> (v = 0 -> m = false) -> (w = 0 -> n = false) ->
  (if m then - v else v) = (if n then - w else w) -> m = n /\ v = w.
Proof. intros Hv Hw Hm Hn E. destruct m, n; try (split; [done|lia]). - lia. - lia. Qed.

Lemma st_value_inj a b : st_canonical a -> st_canonical b -> sa_asset a = sa_asset b ->
  (st_value a == st_value b)%Q -> a = b.
Proof.
  intros (Va & Na & Ca) (Vb & Nb & Cb) Es E. unfold integral in *. rewrite Es in Ca.
  assert ((if sa_negative a then - sa_value a else sa_value a) = (if sa_negative b then - sa_value b else sa_value b)
          /\ sa_offset a = sa_offset b) as [Ev Eo].
  { destruct (asset_integral (sa_asset b)).
    - destruct Ca as [Oa _], Cb as [Ob _]. split; [|congruence]. rewrite !st_value_int, Oa, Ob in E.
      change (q10 0) with 1%Q in E. rewrite !Qmult_1_r in E. by apply inject_Z_injective.
    - rewrite <- !st_iou_value in E. pose proof (iou_value_inj _ _ Ca Cb E) as Ei. by injection Ei. }
  apply signed_inj in Ev as [En Ev]; try done. destruct a, b. cbn in *. congruence.
Qed.

Lemma canonical_limit a : st_canonical a -> (Qabs (st_value a) <= asset_limit (sa_asset a))%Q.
Proof.
  intros (Hv & _ & Hc). unfold asset_limit. change (asset_integral _) with (integral a). destruct (integral a).
  - destruct Hc as [Ho Hl]. rewrite st_value_int, Ho. change (q10 0) with 1%Q. rewrite Qmult_1_r.
    apply Qabs_Qle_condition. rewrite <- inject_Z_opp, <- !Zle_Qle. destruct (sa_negative a); lia.
  - rewrite <- st_iou_value. by apply canonical_bounded.
Qed.

Lemma canonical_fixed mode a : st_canonical a -> try_canonicalize mode a = ROk a.
Proof.
  intros Ha. pose proof (canonicalize_rounds mode a (canonical_raw a Ha)) as HR.
  assert (materialized a == st_value a)%Q as Em by (by apply materialized_exact, canonical_value_bound).
  unfold canonical_rounding in HR. destruct (try_canonicalize mode a) as [b|e|]; [|exfalso|done].
  - destruct HR as (Hb & Es & HR). f_equal. apply st_value_inj; [done|done|done|].
    pose proof Ha as (_ & _ & Ca). destruct (integral a).
    + destruct Ca as [Ho _]. rewrite Ho in HR. cbn [Z.leb Z.compare] in HR. destruct HR as (k & Hk & ->).
      rewrite Em, st_value_int, Ho in Hk. change (q10 0) with 1%Q in Hk. rewrite Qmult_1_r in Hk.
      apply rounds_int_exact in Hk as ->. rewrite st_value_int, Ho. change (q10 0) with 1%Q. by rewrite Qmult_1_r.
    + apply iou_rounded_faithful in HR. rewrite <- !st_iou_value in *. destruct (HR _ Ca) as [H1 H2].
      rewrite Em in H1, H2. apply Qle_antisym; auto using Qle_refl.
  - destruct HR as [_ HR]. rewrite Em in HR. pose proof (canonical_limit a Ha). lra.
Qed.

(** ** Order *)

Lemma comparable_integral a b : are_comparable a b = true -> integral a = integral b.
Proof.
  unfold are_comparable, integral, sa_native. destruct (sa_asset a), (sa_asset b); cbn [asset_integral asset_native]; try done.
  by intros [?%eqb_prop _]%andb_true_iff.
Qed.

Definition st_mag a : Q := (inject_Z (sa_value a) * q10 (sa_offset a))%Q.

Lemma st_mag_pos a : 0 < sa_value a -> (0 < st_mag a)%Q.
Proof. intros Hv. unfold st_mag. rewrite <- (Qmult_0_l (q10 (sa_offset a))). change 0%Q with (inject_Z 0). by apply q10_mult_lt. Qed.

Lemma st_mag_zero a : sa_value a = 0 -> (st_mag a == 0)%Q.
Proof. intros E. unfold st_mag. rewrite E. apply Qmult_0_l. Qed.

Lemma canonical_mantissa a : st_canonical a -> integral a = false -> 0 < sa_value a ->
  MIN_IOU_MANTISSA <= Z.abs (iou_mantissa (st_iou a)) <= MAX_IOU_MANTISSA /\ Z.abs (iou_mantissa (st_iou a)) = sa_value a.
Proof.
  intros (_ & _ & Hc) Hi Hv. rewrite Hi in Hc. unfold st_iou in *. cbn [iou_mantissa] in *.
  destruct Hc as [E|[Hm _]]; [apply (f_equal iou_mantissa) in E; cbn in E; destruct (sa_negative a); lia|].
  split; [done|]. destruct (sa_negative a); lia.
Qed.

Lemma offset_gap a b : st_canonical a -> st_canonical b -> integral a = integral b -> 0 < sa_value a -> 0 < sa_value b ->
  sa_offset a < sa_offset b -> (st_mag a < st_mag b)%Q.
Proof.
  intros Ha Hb Ei Va Vb Ho. destruct (integral b) eqn:Eb.
  - destruct Ha as (_ & _ & Ca), Hb as (_ & _ & Cb). rewrite Ei in Ca. rewrite Eb in Cb. lia.
  - destruct (canonical_mantissa a Ha Ei Va) as [Ma Ea], (canonical_mantissa b Hb Eb Vb) as [Mb Eb'].
    pose proof (exponent_gap (st_iou a) (st_iou b) Ma Mb Ho) as Hg. rewrite Ea, Eb' in Hg. exact Hg.
Qed.

Lemma signed_compare (neg : bool) (c : comparison) (x y : Q) :
  (x ?= y)%Q = c -> (signed neg x ?= signed neg y)%Q = flip neg c.
Proof.
  intros <-. destruct neg; cbn [signed flip]; [|done]. destruct (Qcompare_spec x y) as [E|E|E]; cbn [CompOpp].
  - apply -> Qeq_alt. by rewrite E.
  - apply -> Qgt_alt. lra.
  - apply -> Qlt_alt. lra.
Qed.

Lemma cmp_amount_value a b : st_canonical a -> st_canonical b -> are_comparable a b = true ->
  cmp_amount a b = (st_value a ?= st_value b)%Q.
Proof.
  intros Ha Hb Hc. pose proof (comparable_integral a b Hc) as Ei. unfold cmp_amount. rewrite Hc. cbn [negb].
  pose proof Ha as (Va & Na & _). pose proof Hb as (Vb & Nb & _). unfold no_negative_zero in Na, Nb.
  change (st_value a) with (signed (sa_negative a) (st_mag a)). change (st_value b) with (signed (sa_negative b) (st_mag b)).
  pose proof (st_mag_pos a) as Pa. pose proof (st_mag_zero a) as Za. pose proof (st_mag_pos b) as Pb. pose proof (st_mag_zero b) as Zb.
  destruct (sa_negative a) eqn:Sa, (sa_negative b) eqn:Sb; cbn [Bool.eqb negb];
    try (destruct (Z.eq_dec (sa_value a) 0) as [E|E]; [discriminate (Na E)|]; specialize (Pa ltac:(lia)));
    try (destruct (Z.eq_dec (sa_value b) 0) as [E'|E']; [discriminate (Nb E')|]; specialize (Pb ltac:(lia))).
  2:{ symmetry. cbn [signed]. apply -> Qlt_alt. destruct (Z.eq_dec (sa_value b) 0) as [E'|E']; [rewrite (Zb E')|specialize (Pb ltac:(lia))]; lra. }
  2:{ symmetry. cbn [signed]. apply -> Qgt_alt. destruct (Z.eq_dec (sa_value a) 0) as [E|E]; [rewrite (Za E)|specialize (Pa ltac:(lia))]; lra. }
  all: destruct (Z.eqb_spec (sa_value a) 0) as [Ea|Ea], (Z.eqb_spec (sa_value b) 0) as [Eb|Eb]; try lia; cbn [negb].
  2:{ symmetry. cbn [signed]. rewrite (Za Ea), (Zb Eb). reflexivity. }
  2:{ symmetry. apply -> Qlt_alt. cbn [signed]. rewrite (Za Ea). apply Pb. lia. }
  2:{ symmetry. apply -> Qgt_alt. cbn [signed]. rewrite (Zb Eb). apply Pa. lia. }
  all: symmetry; destruct (Z.ltb_spec (sa_offset b) (sa_offset a)) as [Ho|Ho];
    [apply signed_compare; apply -> Qgt_alt; apply offset_gap; (done || lia)|];
    destruct (Z.ltb_spec (sa_offset a) (sa_offset b)) as [Ho'|Ho'];
    [apply signed_compare; apply -> Qlt_alt; apply offset_gap; (done || lia)|];
    assert (sa_offset a = sa_offset b) as Eo by lia; unfold st_mag; rewrite Eo;
    destruct (Z.ltb_spec (sa_value b) (sa_value a)); [apply signed_compare; apply -> Qgt_alt; apply q10_mult_lt; lia|];
    destruct (Z.ltb_spec (sa_value a) (sa_value b)); [apply signed_compare; apply -> Qlt_alt; apply q10_mult_lt; lia|];
    apply -> Qeq_alt; by replace (sa_value a) with (sa_value b) by lia.
Qed.

(** Equality ignores the issuer, as comparability does. *)
Lemma comparable_limit a b : are_comparable a b = true -> integral_limit (sa_asset a) = integral_limit (sa_asset b).
Proof.
  unfold are_comparable, integral_limit, sa_native. destruct (sa_asset a), (sa_asset b); cbn [asset_native]; try done.
  by intros [->%eqb_prop _]%andb_true_iff.
Qed.

Lemma st_eq_value a b : st_canonical a -> st_canonical b -> are_comparable a b = true ->
  st_eq a b = true <-> (st_value a == st_value b)%Q.
Proof.
  intros Ha Hb Hc. pose proof (comparable_integral a b Hc) as Ei. pose proof (comparable_limit a b Hc) as El.
  unfold st_eq. rewrite Hc. cbn [andb]. split.
  - intros [[En%eqb_prop Eo%Z.eqb_eq]%andb_true_iff Ev%Z.eqb_eq]%andb_true_iff.
    unfold st_value, st_number. by rewrite En, Eo, Ev.
  - intros E. assert (st_canonical (set_issue b (sa_asset a))) as Hb'.
    { destruct Hb as (Vb & Nb & Cb). unfold st_canonical, integral. cbn [sa_asset set_issue sa_value sa_offset].
      change (asset_integral (sa_asset a)) with (integral a). rewrite Ei. split_and!; [done|done|]. by rewrite El. }
    rewrite (st_value_inj a (set_issue b (sa_asset a)) Ha Hb' eq_refl E). cbn [set_issue sa_negative sa_offset sa_value].
    by rewrite eqb_reflx, !Z.eqb_refl.
Qed.

(** ** Serialized amounts: wire form

    Every canonical amount, native, issued or token, is read back from the bytes
    [st_add] writes, wherever they stand in a buffer. *)

(** ** Masks and flags *)

Lemma mask_keep v n M : 0 <= n -> 0 <= v < 2 ^ n -> Z.land (Z.ones n) M = Z.ones n -> Z.land v M = v.
Proof.
  intros Hn Hv HM. rewrite <- (Z.mod_small v (2 ^ n)) at 1 by done. rewrite <- Z.land_ones by done.
  rewrite <- Z.land_assoc, HM, Z.land_ones by done. by apply Z.mod_small.
Qed.

Lemma mask_drop v n M : 0 <= n -> 0 <= v < 2 ^ n -> Z.land (Z.ones n) M = 0 -> Z.land v M = 0.
Proof.
  intros Hn Hv HM. rewrite <- (Z.mod_small v (2 ^ n)) by done. rewrite <- Z.land_ones by done.
  by rewrite <- Z.land_assoc, HM, Z.land_0_r.
Qed.

Lemma flag_testbit x k : 0 <= k -> (Z.land x (2 ^ k) =? 0) = negb (Z.testbit x k).
Proof.
  intros Hk. destruct (Z.testbit x k) eqn:E; cbn [negb].
  - apply Z.eqb_neq. intros H0. apply (f_equal (fun z => Z.testbit z k)) in H0.
    by rewrite Z.land_spec, E, Z.pow2_bits_true, Z.bits_0 in H0.
  - apply Z.eqb_eq, Z.bits_inj'. intros n Hn. rewrite Z.land_spec, Z.bits_0, Z.pow2_bits_eqb by done.
    destruct (Z.eqb_spec k n) as [<-|]; [by rewrite E|by rewrite andb_false_r].
Qed.

Lemma flag_div x k (b : Z) : 0 <= k -> (x / 2 ^ k) mod 2 = b -> (Z.land x (2 ^ k) =? 0) = (b =? 0).
Proof.
  intros Hk <-. rewrite flag_testbit by done. pose proof (Z.testbit_spec' x k Hk) as E. rewrite <- E.
  by destruct (Z.testbit x k).
Qed.

(** A low part beside a high one. *)
Lemma lor_high v n h : 0 <= n -> 0 <= v < 2 ^ n -> Z.lor v (Z.shiftl h n) = v + h * 2 ^ n.
Proof.
  intros Hn Hv. assert (Z.land v (Z.shiftl h n) = 0) as E0.
  { apply Z.bits_inj'. intros i Hi. rewrite Z.land_spec, Z.bits_0, Z.shiftl_spec by done.
    destruct (Z.lt_ge_cases i n) as [Hin|Hin]; [rewrite (Z.testbit_neg_r h) by lia; apply andb_false_r|].
    by rewrite <- (Z.mod_small v (2 ^ n)), Z.mod_pow2_bits_high by lia. }
  pose proof (Z.add_lor_land v (Z.shiftl h n)) as E. rewrite Z.shiftl_mul_pow2 in * by done. lia.
Qed.

(** ** Native amounts *)

(** What a reader needs of the identifiers of an asset. *)
Definition asset_ok (asset : Asset) : Prop :=
  match asset with
  | AIssue currency account =>
      if is_xrp_currency currency then account = 0
      else 0 < currency < 256 ^ 20 /\ 0 < account < 256 ^ 20
  | AMPTIssue mpt_id => 0 <= mpt_id < 256 ^ 24
  end.

(** [a] is read back, whatever stands around its bytes. *)
Definition reads_back mode a : Prop :=
  forall s, exists w, st_add a s = Ok (s ++ w)
    /\ forall rest, from_serial_iter mode (at_pos s (w ++ rest)) = Ok (a, at_pos (s ++ w) rest).

Lemma get64_at pre v rest : 0 <= v <= u64_max ->
  get64 (at_pos pre (be_bytes 8 v ++ rest)) = (v, at_pos (pre ++ be_bytes 8 v) rest).
Proof. intros Hv. exact (read_integer_at U64 pre v rest Hv). Qed.

Definition wire_mask : Z := not_u64 (Z.lor ST_AMOUNT_POSITIVE_FLAG ST_AMOUNT_MP_TOKEN_FLAG).

(** The word of a native amount, and what the flags and the mask make of it. *)
Lemma native_word_facts v (neg : bool) : 0 <= v < 2 ^ 61 ->
  let w := native_wire_word v neg in
  0 <= w <= u64_max /\ (Z.land w ST_AMOUNT_ISSUED_CURRENCY_FLAG =? 0) = true
  /\ (Z.land w ST_AMOUNT_MP_TOKEN_FLAG =? 0) = true
  /\ (Z.land w ST_AMOUNT_POSITIVE_FLAG =? 0) = neg /\ Z.land w wire_mask = v.
Proof.
  intros Hv w.
  assert (w = v + (if neg then 0 else 1) * 2 ^ 62) as Ew.
  { subst w. unfold native_wire_word. destruct neg; [lia|]. change ST_AMOUNT_POSITIVE_FLAG with (Z.shiftl 1 62).
    apply lor_high; lia. }
  assert (Z.land w wire_mask = v) as Em.
  { subst w. unfold native_wire_word. destruct neg; [|rewrite Z.land_lor_distr_l; change (Z.land ST_AMOUNT_POSITIVE_FLAG wire_mask) with 0; rewrite Z.lor_0_r];
      apply (mask_keep v 61); (done || lia). }
  change ST_AMOUNT_ISSUED_CURRENCY_FLAG with (2 ^ 63). change ST_AMOUNT_MP_TOKEN_FLAG with (2 ^ 61).
  change ST_AMOUNT_POSITIVE_FLAG with (2 ^ 62). rewrite Em, Ew in *. unfold u64_max. split_and!; try done.
  - destruct neg; lia.
  - destruct neg; lia.
  - apply (flag_div _ 63 0); [lia|]. rewrite Z.div_small; [done|]. destruct neg; lia.
  - apply (flag_div _ 61 0); [lia|]. change (2 ^ 62) with (2 * 2 ^ 61). rewrite Z.mul_assoc, Z.div_add, Z.div_small by lia.
    destruct neg; done.
  - rewrite (flag_div _ 62 (if neg then 0 else 1)); [by destruct neg|lia|]. rewrite Z.div_add, Z.div_small by lia. by destruct neg.
Qed.

Lemma native_reads_back mode a : st_canonical a -> asset_ok (sa_asset a) -> sa_native a = true -> reads_back mode a.
Proof.
  intros Ha Hok Hn s. destruct a as [asset v o neg]. pose proof Ha as (Hv & Hz & Hc). unfold integral, sa_native in *. cbn [sa_asset sa_value] in *.
  destruct asset as [c i|i]; [|done]. cbn [asset_integral asset_native asset_ok] in *. rewrite Hn in *.
  destruct Hc as [Ho Hl]. cbn [sa_offset sa_value] in *. unfold integral_limit in Hl. cbn [asset_native] in Hl. rewrite Hn in Hl.
  apply Z.eqb_eq in Hn as ->. subst i o.
  assert (0 <= v < 2 ^ 61) as Hb by (amounts; lia).
  destruct (native_word_facts v neg Hb) as (Hw & F1 & F2 & F3 & Em).
  exists (be_bytes 8 (native_wire_word v neg)). split; [done|]. intros rest. unfold from_serial_iter.
  rewrite get64_at by done. fold wire_mask. rewrite F1, F2, F3, Em. destruct neg; cbn [negb]; [|done].
  destruct (Z.eqb_spec (native_wire_word v true) 0) as [E|E]; [|done].
  cbn in E. specialize (Hz E). discriminate.
Qed.

(** ** Token amounts *)

Lemma from_be_snoc l (b : Z) : from_be (l ++ [b]) = from_be l * 256 + b.
Proof. unfold from_be. by rewrite foldl_app. Qed.

(** Nine bytes, read as eight and one. *)
Lemma nine_bytes h v : 0 <= h < 256 -> 0 <= v < 2 ^ 64 ->
  h :: be_bytes 8 v = be_bytes 8 (h * 2 ^ 56 + v / 256) ++ [v mod 256].
Proof.
  intros Hh Hv. set (w := h * 2 ^ 56 + v / 256).
  pose proof (Z.div_mod v 256 ltac:(lia)) as Ed. pose proof (Z.mod_pos_bound v 256 ltac:(lia)) as Hr.
  assert (Forall is_byte (h :: be_bytes 8 v)) as B1 by (constructor; [done|apply be_bytes_bytes]).
  assert (Forall is_byte (be_bytes 8 w ++ [v mod 256])) as B2.
  { apply Forall_app. split; [apply be_bytes_bytes|constructor; [done|constructor]]. }
  rewrite <- (be_bytes_from_be _ B1), <- (be_bytes_from_be _ B2).
  rewrite length_app, from_be_cons, from_be_snoc, !from_be_be_bytes. cbn [length].
  rewrite !length_be_bytes. f_equal. change (256 ^ Z.of_nat 8) with (2 ^ 64).
  rewrite (Z.mod_small v), (Z.mod_small w) by lia. lia.
Qed.

Lemma mpt_word_facts h v : h = 0x20 \/ h = 0x60 -> 0 <= v < 2 ^ 63 ->
  let w := h * 2 ^ 56 + v / 256 in
  0 <= w <= u64_max /\ (Z.land w ST_AMOUNT_ISSUED_CURRENCY_FLAG =? 0) = true
  /\ (Z.land w ST_AMOUNT_MP_TOKEN_FLAG =? 0) = false
  /\ (Z.land w ST_AMOUNT_POSITIVE_FLAG =? 0) = (h =? 0x20)
  /\ Z.lor (wrap_u64 (Z.shiftl w 8)) (v mod 256) = v.
Proof.
  intros Hh Hv w. pose proof (Z.div_mod v 256 ltac:(lia)) as Ed. pose proof (Z.mod_pos_bound v 256 ltac:(lia)) as Hr.
  assert (0 <= v / 256 < 2 ^ 55) as Hq by lia.
  change ST_AMOUNT_ISSUED_CURRENCY_FLAG with (2 ^ 63). change ST_AMOUNT_MP_TOKEN_FLAG with (2 ^ 61).
  change ST_AMOUNT_POSITIVE_FLAG with (2 ^ 62). unfold u64_max. split_and!.
  - subst w. destruct Hh; lia.
  - subst w. destruct Hh; lia.
  - apply (flag_div _ 63 0); [lia|]. rewrite Z.div_small; [done|]. subst w. destruct Hh; lia.
  - apply (flag_div _ 61 1); [lia|]. subst w. destruct Hh as [->| ->].
    + change (0x20 * 2 ^ 56) with (1 * 2 ^ 61). by rewrite Z.div_add_l, Z.div_small by lia.
    + change (0x60 * 2 ^ 56) with (3 * 2 ^ 61). by rewrite Z.div_add_l, Z.div_small by lia.
  - rewrite (flag_div _ 62 (if h =? 0x20 then 0 else 1)); [by destruct (h =? 0x20)|lia|]. subst w. destruct Hh as [->| ->].
    + change (0x20 * 2 ^ 56) with (2 ^ 61). cbn [Z.eqb Pos.eqb]. by rewrite Z.div_small by lia.
    + change (0x60 * 2 ^ 56) with (1 * 2 ^ 62 + 2 ^ 61). cbn [Z.eqb Pos.eqb]. by rewrite <- Z.add_assoc, Z.div_add_l, Z.div_small by lia.
  - assert (wrap_u64 (Z.shiftl w 8) = Z.shiftl (v / 256) 8) as ->.
    { rewrite !Z.shiftl_mul_pow2 by lia. unfold wrap_u64, u64_modulus. subst w.
      replace ((h * 2 ^ 56 + v / 256) * 2 ^ 8) with (v / 256 * 2 ^ 8 + h * 18446744073709551616) by lia.
      rewrite Z.mod_add, Z.mod_small by lia. done. }
    rewrite Z.lor_comm, lor_high by lia. lia.
Qed.

Lemma mpt_reads_back mode a : st_canonical a -> asset_ok (sa_asset a) -> holds_mpt_issue a = true -> reads_back mode a.
Proof.
  intros Ha Hok Hm s. destruct a as [asset v o neg]. pose proof Ha as (Hv & Hz & Hc). unfold integral, holds_mpt_issue in *. cbn [sa_asset sa_value] in *.
  destruct asset as [c i|i]; [done|]. cbn [asset_integral asset_ok] in *.
  destruct Hc as [Ho Hl]. cbn [sa_offset sa_value] in *. subst o. unfold integral_limit in Hl. cbn [asset_native] in Hl.
  set (h := mpt_wire_header_byte neg). assert (h = 0x20 \/ h = 0x60) as Hh by (subst h; destruct neg; auto).
  destruct (mpt_word_facts h v Hh ltac:(amounts; lia)) as (Hw & F1 & F2 & F3 & Em).
  exists ((h :: be_bytes 8 v) ++ be_bytes 24 i). split.
  { unfold st_add, sa_native. cbn [sa_asset asset_native sa_value sa_negative]. unfold add_bit_string, add_raw, add64, add8. cbn [fst].
    fold h. f_equal. by rewrite <- !app_assoc. }
  intros rest. rewrite (nine_bytes h v) by (amounts; lia). unfold from_serial_iter.
  rewrite <- !app_assoc, get64_at by done. rewrite F1, F2, F3. cbn [negb app].
  rewrite get8_at, get_bit_string_at by done. rewrite Em. rewrite <- !app_assoc. cbn [app].
  repeat f_equal. subst h. by destruct neg.
Qed.

(** ** Issued amounts *)

Definition issued_bits (o : Z) (neg : bool) : Z := o + 512 + (if neg then 97 else 256 + 97).

Lemma issued_word_facts v o (neg : bool) : 0 <= v < 2 ^ 54 -> -96 <= o <= 80 ->
  let bits := issued_bits o neg in
  let w := Z.lor v (wrap_u64 (Z.shiftl (wrap_u64 bits) (64 - 10))) in
  0 <= w <= u64_max /\ (Z.land w ST_AMOUNT_ISSUED_CURRENCY_FLAG =? 0) = false
  /\ issued_header_bits_from_word w = bits /\ issued_mantissa_from_word w = v
  /\ issued_header_is_negative bits = neg /\ issued_exponent_from_nonzero_header_bits bits = o.
Proof.
  intros Hv Ho bits w. assert (512 <= bits < 1024) as Hb by (subst bits; unfold issued_bits; destruct neg; lia).
  assert (w = v + bits * 2 ^ 54) as Ew.
  { subst w. unfold wrap_u64 at 2. rewrite (Z.mod_small bits) by (unfold u64_modulus; lia). change (64 - 10) with 54.
    rewrite <- lor_high by lia. f_equal. rewrite Z.shiftl_mul_pow2 by lia. unfold wrap_u64, u64_modulus. rewrite Z.mod_small; lia. }
  assert (issued_header_bits_from_word w = bits) as Eb.
  { unfold issued_header_bits_from_word, ST_AMOUNT_ISSUED_HEADER_SHIFT. rewrite Z.shiftr_div_pow2, Ew, Z.div_add, (Z.div_small v) by lia.
    rewrite Z.add_0_l. apply Z.mod_small. lia. }
  split_and!; try done.
  - rewrite Ew. lia.
  - rewrite Ew. unfold u64_max. lia.
  - change ST_AMOUNT_ISSUED_CURRENCY_FLAG with (2 ^ 63). apply (flag_div _ 63 1); [lia|]. rewrite Ew.
    replace (v + bits * 2 ^ 54) with (1 * 2 ^ 63 + (v + (bits - 512) * 2 ^ 54)) by lia. by rewrite Z.div_add_l, Z.div_small by lia.
  - unfold issued_mantissa_from_word. change (not_u64 ST_AMOUNT_ISSUED_HEADER_MASK) with (Z.ones 54).
    rewrite Z.land_ones, Ew, Z.mod_add, Z.mod_small by lia. done.
  - unfold issued_header_is_negative. change ST_AMOUNT_ISSUED_POSITIVE_BITS with (2 ^ 8).
    rewrite (flag_div _ 8 (if neg then 0 else 1)); [by destruct neg|lia|]. subst bits. unfold issued_bits.
    destruct neg; [replace (o + 512 + 97) with (2 * 2 ^ 8 + (o + 97)) by lia|replace (o + 512 + (256 + 97)) with (3 * 2 ^ 8 + (o + 97)) by lia];
      by rewrite Z.div_add_l, Z.div_small by lia.
  - unfold issued_exponent_from_nonzero_header_bits, ST_AMOUNT_ISSUED_EXPONENT_BIAS. rewrite land_255. subst bits. unfold issued_bits.
    destruct neg; [replace (o + 512 + 97) with (o + 97 + 2 * 256) by lia|replace (o + 512 + (256 + 97)) with (o + 97 + 3 * 256) by lia];
      rewrite Z.mod_add, Z.mod_small; lia.
Qed.

(** The tail of the reader once its word is known. *)
Lemma issued_tail w c i s rest : 0 <= w <= u64_max -> 0 < c < 256 ^ 20 -> 0 < i < 256 ^ 20 ->
  let bytes := be_bytes 8 w ++ be_bytes 20 c ++ be_bytes 20 i in
  get64 (at_pos s (bytes ++ rest)) = (w, at_pos (s ++ be_bytes 8 w) (be_bytes 20 c ++ be_bytes 20 i ++ rest))
  /\ get_bit_string 20 (at_pos (s ++ be_bytes 8 w) (be_bytes 20 c ++ be_bytes 20 i ++ rest))
     = (c, at_pos ((s ++ be_bytes 8 w) ++ be_bytes 20 c) (be_bytes 20 i ++ rest))
  /\ get_bit_string 20 (at_pos ((s ++ be_bytes 8 w) ++ be_bytes 20 c) (be_bytes 20 i ++ rest))
     = (i, at_pos (s ++ bytes) rest).
Proof.
  intros Hw Hc Hi bytes. subst bytes. split_and!.
  - rewrite <- !app_assoc. by apply get64_at.
  - apply get_bit_string_at. change (Z.of_nat 20) with 20. lia.
  - rewrite get_bit_string_at by (change (Z.of_nat 20) with 20; lia). by rewrite <- !app_assoc.
Qed.

Lemma issued_reads_back mode a : st_canonical a -> asset_ok (sa_asset a) -> integral a = false -> reads_back mode a.
Proof.
  intros Ha Hok Hi s. pose proof (canonical_fixed mode a Ha) as Hfix.
  destruct a as [[c i|] v o neg]; [|done]. pose proof Ha as (Hv & Hz & Hc). rewrite Hi in Hc.
  unfold integral, st_iou, no_negative_zero in *. cbn [sa_asset sa_value sa_negative sa_offset asset_integral asset_native asset_ok] in *.
  rewrite Hi in Hok. destruct Hok as [Hcur Hacc].
  set (word := if v =? 0 then issued_zero_header_word else Z.lor v (wrap_u64 (Z.shiftl (wrap_u64 (issued_bits o neg)) (64 - 10)))).
  exists (be_bytes 8 word ++ be_bytes 20 c ++ be_bytes 20 i). split.
  { unfold st_add, sa_native, add_bit_string, add_raw, add64. cbn [sa_asset asset_native sa_value sa_negative sa_offset fst]. rewrite Hi.
    by rewrite <- !app_assoc. }
  intros rest. unfold from_serial_iter.
  assert (0 <= word <= u64_max /\ (Z.land word ST_AMOUNT_ISSUED_CURRENCY_FLAG =? 0) = false) as [Hw F1].
  { subst word. destruct (Z.eqb_spec v 0); [done|]. destruct Hc as [E|[Hm He]].
    - injection E as E _. destruct neg; lia.
    - cbn [iou_mantissa iou_exponent] in *. destruct (issued_word_facts v o neg) as (? & ? & _); try done; amounts; destruct neg; lia. }
  destruct (issued_tail word c i s rest Hw Hcur Hacc) as (-> & E2 & E3). rewrite F1, E2, Hi, E3.
  rewrite (proj2 (Z.eqb_neq i 0)) by lia. subst word. destruct (Z.eqb_spec v 0) as [Ev|Ev].
  - subst v. rewrite (Hz eq_refl) in *. change (issued_mantissa_from_word issued_zero_header_word) with 0. cbn [negb Z.eqb].
    change (negb (issued_header_bits_from_word issued_zero_header_word =? issued_zero_header_bits)) with false. cbn iota.
    destruct Hc as [E|[Hm _]]; [injection E as ->|cbn in Hm; amounts; lia].
    unfold canonicalize, canonical_or_throw, try_canonicalize, integral. cbn [sa_asset asset_integral asset_native]. rewrite Hi. done.
  - destruct Hc as [E|[Hm He]]; [injection E as E _; destruct neg; lia|]. cbn [iou_mantissa iou_exponent] in *.
    destruct (issued_word_facts v o neg) as (_ & _ & -> & -> & -> & ->); [amounts; destruct neg; lia|amounts; lia|].
    rewrite (proj2 (Z.eqb_neq v 0)) by done. cbn [negb].
    assert (ST_AMOUNT_MIN_MANTISSA <= v <= ST_AMOUNT_MAX_MANTISSA) as [M1 M2] by (clear -Hm Hv; amounts; destruct neg; lia).
    assert (ST_AMOUNT_MIN_OFFSET <= o <= ST_AMOUNT_MAX_OFFSET) as [O1 O2] by (clear -He; amounts; lia).
    apply Z.leb_le in M1, M2, O1, O2. rewrite M1, M2, O1, O2. cbn [negb orb andb].
    unfold canonicalize, canonical_or_throw. by rewrite Hfix.
Qed.

Lemma canonical_reads_back mode a : st_canonical a -> asset_ok (sa_asset a) -> reads_back mode a.
Proof.
  intros Ha Hok. destruct (integral a) eqn:Hi; [|by apply issued_reads_back].
  destruct (integral_cases a Hi) as [(Hn & _)|(_ & Hm & _)]; [by apply native_reads_back|by apply mpt_reads_back].
Qed.

(** ** Serialized amounts: sums

    Sums and differences of canonical amounts, through the three kinds of amount behind
    [STAmount]: exact for native and token amounts as long as they fit an [i64], and
    rounded once or twice for issued ones. *)

Implicit Types i : IOUAmount.

(** ** Conversions *)

Lemma rounded_self mode v i j : iou_rounded mode v (ROk i) -> canonical j -> (iou_value j == v)%Q -> i = j.
Proof.
  intros HR Hj E. pose proof (iou_rounded_faithful mode v i HR j Hj) as [H1 H2]. rewrite E in H1, H2.
  apply iou_value_inj; [apply HR|done|]. rewrite E. apply Qle_antisym; auto using Qle_refl.
Qed.

Lemma iou_from_parts_exact mode i : canonical i -> iou_from_parts mode Large330 (iou_mantissa i) (iou_exponent i) = ROk i.
Proof.
  intros Hi. unfold iou_from_parts, iou_normalize. cbn [iou_mantissa iou_exponent].
  destruct (Z.eqb_spec (iou_mantissa i) 0) as [E|E].
  { destruct Hi as [->|[Hm _]]; [done|]. rewrite E in Hm. amounts. lia. }
  destruct (number_of_iou_exact mode i Hi) as (x & Ex & Hx & Ev). unfold number_of_iou in Ex.
  destruct (runtime_number_from_external_parts _ _ _ _) as [y| |]; try done. injection Ex as ->. cbn [mbind result_bind].
  pose proof (from_normal_rounds mode x Hx) as HR. rewrite Ev in HR.
  destruct (iou_from_number mode x) as [j|e|]; [|exfalso|done].
  - f_equal. by apply (rounded_self mode (iou_value i)).
  - destruct HR as [_ HR]. pose proof (canonical_bounded i Hi). lra.
Qed.

Lemma iou_of_canonical mode a : st_canonical a -> integral a = false -> iou mode Large330 a = Ok (st_iou a).
Proof.
  intros Ha Hi. unfold iou. rewrite Hi, wrapped_id by (by apply canonical_value_bound).
  pose proof Ha as (_ & _ & Hc). rewrite Hi in Hc. pose proof (iou_from_parts_exact mode (st_iou a) Hc) as E.
  unfold st_iou in *. cbn [iou_mantissa iou_exponent] in E. by rewrite E.
Qed.

Lemma of_iou_canonical i c acc : is_xrp_currency c = false -> canonical i -> st_canonical (of_iou i c acc) /\ st_iou (of_iou i c acc) = i.
Proof.
  intros Hc Hi. pose proof (st_iou_of i (AIssue c acc)) as E. split; [|exact E].
  unfold st_canonical, no_negative_zero, integral, of_iou. cbn [sa_asset sa_value sa_negative asset_integral asset_native]. rewrite Hc.
  split_and!; [lia|intros; apply Z.ltb_ge; lia|by rewrite E].
Qed.

Definition integer_of a : Z := if sa_negative a then - sa_value a else sa_value a.

Lemma integral_value a : st_canonical a -> integral a = true ->
  (st_value a == inject_Z (integer_of a))%Q /\ Z.abs (integer_of a) <= integral_limit (sa_asset a).
Proof.
  intros (Hv & _ & Hc) Hi. rewrite Hi in Hc. destruct Hc as [Ho Hl]. split.
  - rewrite st_value_int, Ho. change (q10 0) with 1%Q. by rewrite Qmult_1_r.
  - unfold integer_of. destruct (sa_negative a); lia.
Qed.

Lemma integral_outright a : st_canonical a -> integral a = true ->
  if sa_native a then xrp a = Ok (mkXRP (integer_of a)) else mpt a = Ok (mkMPT (integer_of a)).
Proof.
  intros Ha Hi. pose proof (canonical_value_bound a Ha) as Hb. unfold xrp, mpt, integer_of.
  destruct (integral_cases a Hi) as [(En & Em & _)|(En & Em & _)]; rewrite En, ?Em; cbn [negb];
    by rewrite (proj2 (Z.ltb_ge _ _)) by (amounts; lia).
Qed.

(** ** Integral sums *)

(** The integer an overflowing sum leaves: [z] wrapped to an [i64]. A token amount of
    [i64::MIN] loses its last digit on the way back through [canonicalize]. *)
Definition stored_integer a (z : Z) : Z :=
  let w := wrap_i64 z in
  if (w =? - NUMBER_MAX_REP - 1) && negb (sa_native a) then - (NUMBER_MAX_REP / 10 * 10) else w.

(** [z] arrives unchanged when it fits; an overflow throws or wraps. *)
Definition integral_sum (throws : bool) a (z : Z) (o : outcome STAmount) : Prop :=
  (Z.abs z <= NUMBER_MAX_REP -> stored_integer a z = z)
  /\ if in_i64 z || negb throws then
       exists c, o = Ok c /\ (st_value c == inject_Z (stored_integer a z))%Q
         /\ sa_asset c = if sa_native a then xrp_issue else sa_asset a
     else o = Panic.

Lemma in_i64_spec z : in_i64 z = bool_decide (- NUMBER_MAX_REP - 1 <= z <= NUMBER_MAX_REP).
Proof.
  unfold in_i64. numbers. destruct (Z.leb_spec (-9223372036854775808) z), (Z.leb_spec z 9223372036854775807); cbn [andb]; symmetry;
    (rewrite bool_decide_eq_true || rewrite bool_decide_eq_false); lia.
Qed.

Lemma checked_sum throws z :
  checked_or_legacy_overflow throws (checked z) (wrap_i64 z)
  = if in_i64 z || negb throws then Ok (wrap_i64 z) else Panic.
Proof.
  unfold checked_or_legacy_overflow, checked. destruct (in_i64 z) eqn:E; cbn [orb]; [|by destruct throws].
  rewrite in_i64_spec in E. apply bool_decide_eq_true in E. numbers. by rewrite wrap_i64_id by lia.
Qed.

Lemma stored_exact a z : Z.abs z <= NUMBER_MAX_REP -> stored_integer a z = z.
Proof.
  intros Hz. unfold stored_integer. cbn zeta. rewrite wrap_i64_id by (numbers; lia).
  by rewrite (proj2 (Z.eqb_neq _ _)) by lia.
Qed.

Lemma native_sum throws a z : sa_native a = true ->
  integral_sum throws a z (s ← xrp_result (checked_or_legacy_overflow throws (checked z) (wrap_i64 z));
                           Ok (from_native_i64_unchecked (drops s))).
Proof.
  intros Hn. split; [apply stored_exact|]. rewrite checked_sum.
  destruct (in_i64 z || negb throws); [|done]. eexists. rewrite Hn. split_and!; [done| |done].
  unfold stored_integer. rewrite Hn, andb_false_r. rewrite st_value_int.
  cbn [sa_value sa_negative sa_offset from_native_i64_unchecked drops]. change (q10 0) with 1%Q.
  rewrite Qmult_1_r. destruct (Z.ltb_spec (wrap_i64 z) 0); f_equiv; lia.
Qed.

Lemma of_mpt_canonical z m : Z.abs z <= NUMBER_MAX_REP -> st_canonical (of_mpt (mkMPT z) m) /\ (st_value (of_mpt (mkMPT z) m) == inject_Z z)%Q.
Proof.
  intros Hz. unfold st_canonical, no_negative_zero, integral, of_mpt, integral_limit. cbn [sa_asset sa_value sa_negative sa_offset asset_integral asset_native mpt_value].
  split; [split_and!; try (done || lia || amounts; lia)|].
  rewrite st_value_int. cbn [sa_value sa_negative sa_offset]. change (q10 0) with 1%Q. rewrite Qmult_1_r. destruct (Z.ltb_spec z 0); f_equiv; lia.
Qed.

Lemma of_mpt_min mode m :
  from_mpt_amount mode (mkMPT (- NUMBER_MAX_REP - 1)) m
  = Ok (of_mpt (mkMPT (- (NUMBER_MAX_REP / 10 * 10))) m).
Proof. by destruct mode. Qed.

Lemma mpt_sum mode throws a z m : sa_native a = false -> sa_asset a = AMPTIssue m ->
  integral_sum throws a z (s ← mpt_result (checked_or_legacy_overflow throws (checked z) (wrap_i64 z));
                           from_mpt_amount mode s m).
Proof.
  intros Hn Es. split; [apply stored_exact|]. rewrite checked_sum.
  destruct (in_i64 z || negb throws); [|done]. cbn [mpt_result mbind outcome_bind].
  unfold stored_integer. rewrite Hn, Es, andb_true_r. pose proof (wrap_i64_range z) as Hw.
  destruct (Z.eqb_spec (wrap_i64 z) (- NUMBER_MAX_REP - 1)) as [->|Hne].
  - rewrite of_mpt_min. eexists. split_and!; [done|by apply of_mpt_canonical|done].
  - destruct (of_mpt_canonical (wrap_i64 z) m ltac:(numbers; lia)) as [Hc Hv].
    exists (of_mpt (mkMPT (wrap_i64 z)) m). split_and!; [|done|done].
    unfold from_mpt_amount, canonicalize, canonical_or_throw. by rewrite canonical_fixed.
Qed.

(** ** Every kind *)

(** What a sum or a difference of two comparable amounts, exactly [v], comes to. *)
Definition amount_sum mode (throws : bool) a (v : Q) (o : outcome STAmount) : Prop :=
  if integral a then exists z, (v == inject_Z z)%Q /\ integral_sum throws a z o
  else match o with
       | Ok c => sa_asset c = sa_asset a /\ st_canonical c /\ sum_rounded mode v (ROk (st_iou c))
       | Panic => (iou_largest < Qabs v)%Q
       | OutOfFuel => False
       end.

Lemma issued_sum mode throws a c acc v (r : outcome (result NumberArithmeticError IOUAmount)) s :
  sa_asset a = AIssue c acc -> integral a = false -> r = Ok s -> sum_rounded mode v s ->
  amount_sum mode throws a v (x ← unwrap_result r; from_iou_amount mode x c acc).
Proof.
  intros Es Hi -> Hs. unfold amount_sum. rewrite Hi, Es. unfold unwrap_result. cbn [mbind outcome_bind].
  destruct s as [i|e|]; cbn [or_throw mbind outcome_bind]; [|apply Hs|done].
  assert (is_xrp_currency c = false) as Hc by (unfold integral in Hi; by rewrite Es in Hi).
  pose proof Hs as (Ci & _). destruct (of_iou_canonical i c acc Hc Ci) as [Cc Ec].
  unfold from_iou_amount, canonicalize, canonical_or_throw. rewrite canonical_fixed by done. cbn [or_throw]. by rewrite Ec.
Qed.

Lemma comparable_native a b : are_comparable a b = true -> sa_native a = sa_native b.
Proof.
  unfold are_comparable, sa_native. destruct (sa_asset a), (sa_asset b); cbn [asset_native]; try done.
  by intros [?%eqb_prop _]%andb_true_iff.
Qed.

Section Sums.
Context (mode : RoundingMode) (scale : MantissaScale) (throws : bool) (a b : STAmount).
Context (Hscale : integral a = false -> scale = Large330).
Context (Ha : st_canonical a) (Hb : st_canonical b) (Hcmp : are_comparable a b = true).

Lemma plus_value : amount_sum mode throws a (st_value a + st_value b) (st_plus mode scale throws a b).
Proof using All.
  pose proof (comparable_integral a b Hcmp) as Ei. pose proof (comparable_native a b Hcmp) as En.
  unfold st_plus. rewrite Hcmp. cbn [negb]. destruct (integral a) eqn:Hi.
  - unfold amount_sum. rewrite Hi. symmetry in Ei. destruct (integral_value a Ha Hi) as [Va _], (integral_value b Hb Ei) as [Vb _].
    exists (integer_of a + integer_of b). split; [by rewrite Va, Vb, inject_Z_plus|].
    pose proof (integral_outright a Ha Hi) as Oa. pose proof (integral_outright b Hb Ei) as Ob. rewrite <- En in Ob.
    destruct (integral_cases a Hi) as [(Hn & Hm & _)|(Hn & Hm & _)]; rewrite Hn in *; [rewrite Oa, Ob; by apply native_sum|].
    unfold holds_mpt_issue in Hm. destruct (sa_asset a) as [|m] eqn:Es; [done|]. rewrite Oa, Ob. by apply mpt_sum.
  - rewrite (Hscale eq_refl). symmetry in Ei. pose proof Ha as (_ & _ & Ca). pose proof Hb as (_ & _ & Cb). rewrite Hi in Ca. rewrite Ei in Cb.
    destruct (sa_asset a) as [c acc|] eqn:Es; [|unfold integral in Hi; by rewrite Es in Hi].
    assert (sa_native a = false) as -> by (unfold integral, sa_native in *; by rewrite Es in *).
    rewrite !iou_of_canonical by done. cbn [mbind outcome_bind]. unfold iou_add.
    destruct (iou_add_rounds mode (st_iou a) (st_iou b) Ca Cb) as (s & E & Hs). rewrite !st_iou_value in Hs.
    by apply (issued_sum mode throws a c acc _ _ s).
Qed.

Lemma minus_value : amount_sum mode throws a (st_value a - st_value b) (st_minus mode scale throws a b).
Proof using All.
  pose proof (comparable_integral a b Hcmp) as Ei. pose proof (comparable_native a b Hcmp) as En.
  unfold st_minus. rewrite Hcmp. cbn [negb]. destruct (integral a) eqn:Hi.
  - unfold amount_sum. rewrite Hi. symmetry in Ei. destruct (integral_value a Ha Hi) as [Va _], (integral_value b Hb Ei) as [Vb _].
    exists (integer_of a - integer_of b). split; [unfold Z.sub; by rewrite Va, Vb, inject_Z_plus, inject_Z_opp|].
    pose proof (integral_outright a Ha Hi) as Oa. pose proof (integral_outright b Hb Ei) as Ob. rewrite <- En in Ob.
    destruct (integral_cases a Hi) as [(Hn & Hm & _)|(Hn & Hm & _)]; rewrite Hn in *; [rewrite Oa, Ob; by apply native_sum|].
    unfold holds_mpt_issue in Hm. destruct (sa_asset a) as [|m] eqn:Es; [done|]. rewrite Oa, Ob. by apply mpt_sum.
  - rewrite (Hscale eq_refl). symmetry in Ei. pose proof Ha as (_ & _ & Ca). pose proof Hb as (_ & _ & Cb). rewrite Hi in Ca. rewrite Ei in Cb.
    destruct (sa_asset a) as [c acc|] eqn:Es; [|unfold integral in Hi; by rewrite Es in Hi].
    assert (sa_native a = false) as -> by (unfold integral, sa_native in *; by rewrite Es in *).
    rewrite !iou_of_canonical by done. cbn [mbind outcome_bind]. unfold iou_sub.
    destruct (iou_sub_rounds mode (st_iou a) (st_iou b) Ca Cb) as (s & E & Hs). rewrite !st_iou_value in Hs.
    by apply (issued_sum mode throws a c acc _ _ s).
Qed.
End Sums.
