(* ===== verification/QualityFacts.v ===== *)
(** * Offer rates: facts

    Every amount the rate arithmetic materializes is canonical; the key of a rate is
    its exponent above its mantissa, so that it decodes to the rate and sorts like it. *)

From Stdlib Require Import QArith Qabs Lqa.
From S2P Require Import Prelude Number NumberRound NumberSpec NumberSum IouAmount IouRounding StAmount.
From S2P Require Import StAmount AmountFacts Quality.

Implicit Types (mode : RoundingMode) (a b : STAmount) (asset : Asset).

(** ** Materialized amounts *)

Definition canonical_of asset a : Prop := st_canonical a /\ sa_asset a = asset.

Lemma new_under_spec mode asset v e neg : 0 <= v <= u64_max -> -150000 <= e <= 100000 ->
  match new_under mode asset v e neg with
  | ROk b => canonical_of asset b /\ canonical_rounding mode (mkST asset v e neg) (ROk b)
  | RErr k => k = throw (range_error asset)
  | RFuel => False
  end.
Proof.
  intros Hv He. pose proof (canonicalize_rounds mode (mkST asset v e neg) (conj Hv He)) as HR.
  unfold new_under, try_new_with_asset. destruct (try_canonicalize _ _) as [b|k|]; cbn [map_err]; [|by destruct HR as [-> _]|done].
  split; [|done]. destruct HR as (Hb & Es & _). done.
Qed.

(** ** Operands *)

Definition nonzero a : Prop := 0 < sa_value a.

Lemma signum_nonzero a : nonzero a -> (st_signum a =? 0) = false.
Proof. intros Ha. unfold st_signum. rewrite (proj2 (Z.eqb_neq (sa_value a) 0)) by (unfold nonzero in Ha; lia). by destruct (sa_negative a). Qed.

Lemma signum_zero a : sa_value a = 0 -> (st_signum a =? 0) = true.
Proof. intros Ha. unfold st_signum. by rewrite Ha. Qed.

Lemma scale_value_spec {E} f v o : 0 < v -> ST_AMOUNT_MIN_VALUE <= v * 10 ^ Z.of_nat f ->
  exists j, 0 <= j /\ @scale_value E (S f) v o = ROk (v * 10 ^ j, o - j)
    /\ ST_AMOUNT_MIN_VALUE <= v * 10 ^ j /\ (j = 0 \/ v * 10 ^ j < 10 * ST_AMOUNT_MIN_VALUE).
Proof.
  revert v o. induction f as [|f IH]; intros v o Hv Hf.
  - exists 0. rewrite Z.mul_1_r in *. cbn [scale_value]. rewrite (proj2 (Z.ltb_ge _ _)), Z.sub_0_r by lia. auto with lia.
  - cbn [scale_value]. destruct (Z.ltb_spec v ST_AMOUNT_MIN_VALUE) as [H|H].
    + rewrite Nat2Z.inj_succ, Z.pow_succ_r in Hf by lia.
      destruct (IH (v * 10) (o - 1) ltac:(lia) ltac:(lia)) as (j & Hj & E1 & H1 & H2).
      exists (j + 1). cbn [scale_value] in E1. rewrite E1, Z.pow_add_r by lia. change (10 ^ 1) with 10.
      replace (v * (10 ^ j * 10)) with (v * 10 * 10 ^ j) by ring. split_and!; [lia|by replace (o - 1 - j) with (o - (j + 1)) by lia|done|].
      right. destruct H2 as [->|H2]; [rewrite Z.mul_1_r; lia|done].
    + exists 0. rewrite Z.mul_1_r, Z.sub_0_r. auto with lia.
Qed.

(** A nonzero canonical amount as the arithmetic sees it: at least sixteen digits. *)
Lemma scaled_spec {E} a : st_canonical a -> nonzero a ->
  exists v o, @scaled E a = ROk (v, o) /\ ST_AMOUNT_MIN_VALUE <= v <= NUMBER_MAX_REP
    /\ (v <= 9999999999999999 \/ v = sa_value a) /\ -120 <= o <= 80 /\ (inject_Z v * q10 o == st_mag a)%Q.
Proof.
  intros Ha Hn. pose proof (canonical_value_bound a Ha) as Hv. pose proof (canonical_offset a Ha) as Ho. unfold nonzero in Hn.
  unfold scaled, is_native_or_mpt_amount. destruct (sa_native a || holds_mpt_issue a) eqn:Ei.
  - destruct (@scale_value_spec E 19 (sa_value a) (sa_offset a) Hn) as (j & Hj & -> & H1 & H2).
    { change (10 ^ Z.of_nat 19) with 10000000000000000000. unfold ST_AMOUNT_MIN_VALUE. lia. }
    assert (j <= 15) as Hj15.
    { destruct H2 as [->|H2]; [lia|]. destruct (Z.le_gt_cases j 15); [done|].
      pose proof (Z.pow_le_mono_r 10 16 j ltac:(lia) ltac:(lia)). unfold ST_AMOUNT_MIN_VALUE in *. nia. }
    exists (sa_value a * 10 ^ j), (sa_offset a - j). split_and!; try (done || lia).
    + destruct H2 as [->|H2]; [lia|]. unfold ST_AMOUNT_MIN_VALUE in *. numbers. lia.
    + destruct H2 as [->|H2]; [right; lia|left; unfold ST_AMOUNT_MIN_VALUE in *; lia].
    + unfold st_mag. rewrite (q10_unit (sa_value a) (sa_offset a - j) (sa_offset a)) by lia.
      by replace (sa_offset a - (sa_offset a - j)) with j by lia.
  - assert (integral a = false) as Hi.
    { unfold integral, sa_native, holds_mpt_issue in *. destruct (sa_asset a); cbn [asset_integral asset_native is_mpt_asset] in *; [|done].
      by apply orb_false_iff in Ei as [-> _]. }
    destruct (canonical_mantissa a Ha Hi Hn) as [Hm Em]. rewrite Em in Hm. exists (sa_value a), (sa_offset a).
    split_and!; try (done || lia || (unfold ST_AMOUNT_MIN_VALUE; amounts; lia)).
Qed.

(** ** Keys *)

Lemma rate_key_sum e v : 0 <= v < 2 ^ 56 -> rate_key e v = v + (e + 100) * 2 ^ 56.
Proof. intros Hv. unfold rate_key. rewrite Z.lor_comm. apply lor_high; lia. Qed.

(** A rate: a positive canonical amount of no issue. *)
Definition is_rate r : Prop := canonical_of no_issue r /\ nonzero r /\ sa_negative r = false.

Lemma rate_bounds r : is_rate r ->
  (1000000000000000 <= sa_value r <= 9999999999999999 /\ -96 <= sa_offset r <= 80)%Z
  /\ r = mkST no_issue (sa_value r) (sa_offset r) false.
Proof.
  intros ([Hr Es] & Hn & Hs). assert (integral r = false) as Hi by (unfold integral; by rewrite Es).
  destruct (canonical_mantissa r Hr Hi Hn) as [Hm Em]. rewrite Em in Hm.
  split; [|destruct r; cbn in *; by subst]. pose proof Hr as (_ & _ & Hc). rewrite Hi in Hc.
  destruct Hc as [E|[_ He]]; [apply (f_equal iou_mantissa) in E; cbn in E; unfold nonzero in Hn; destruct (sa_negative r); lia|].
  unfold st_iou in He. cbn [iou_exponent] in He. amounts. lia.
Qed.

Definition key r : Z := rate_key (sa_offset r) (sa_value r).

Lemma key_sum r : is_rate r -> key r = sa_value r + (sa_offset r + 100) * 2 ^ 56.
Proof. intros Hr. destruct (rate_bounds r Hr) as [[Hv _] _]. unfold key. rewrite rate_key_sum by lia. done. Qed.

Lemma key_decodes mode r : is_rate r -> amount_from_quality mode (key r) = ROk r.
Proof.
  intros Hr. pose proof (key_sum r Hr) as Ek. destruct (rate_bounds r Hr) as [[Hv Ho] Er].
  unfold amount_from_quality. rewrite (proj2 (Z.eqb_neq _ _)) by lia.
  change (not_u64 (Z.shiftl 255 56)) with (Z.ones 56). rewrite Z.land_ones, Z.shiftr_div_pow2, Ek by lia.
  rewrite Z.mod_add, Z.mod_small, Z.div_add, Z.div_small by lia. replace (0 + (sa_offset r + 100) - 100) with (sa_offset r) by lia.
  unfold new_under, try_new_with_asset. rewrite <- Er, canonical_fixed; [done|apply Hr].
Qed.

Lemma key_order r r' : is_rate r -> is_rate r' -> (key r ?= key r') = (st_value r ?= st_value r')%Q.
Proof.
  intros Hr Hr'. rewrite !key_sum by done. pose proof (rate_bounds r Hr) as [[Hv _] Er]. pose proof (rate_bounds r' Hr') as [[Hv' _] Er'].
  pose proof Hr as ([Cr Es] & Hn & Sr). pose proof Hr' as ([Cr' Es'] & Hn' & Sr').
  assert (integral r = integral r') as Ei by (unfold integral; by rewrite Es, Es').
  change (st_value r) with (signed (sa_negative r) (st_mag r)). change (st_value r') with (signed (sa_negative r') (st_mag r')).
  rewrite Sr, Sr'. cbn [signed]. symmetry. destruct (Z.lt_trichotomy (sa_offset r) (sa_offset r')) as [Ho|[Ho|Ho]].
  - rewrite (proj2 (Z.compare_lt_iff _ _)) by lia. apply -> Qlt_alt. by apply offset_gap.
  - unfold st_mag. rewrite Ho. destruct (Z.lt_trichotomy (sa_value r) (sa_value r')) as [H|[H|H]].
    + rewrite (proj2 (Z.compare_lt_iff _ _)) by lia. apply -> Qlt_alt. by apply q10_mult_lt.
    + rewrite H, Z.compare_refl. by apply -> Qeq_alt.
    + rewrite (proj2 (Z.compare_gt_iff _ _)) by lia. apply -> Qgt_alt. by apply q10_mult_lt.
  - rewrite (proj2 (Z.compare_gt_iff _ _)) by lia. apply -> Qgt_alt. by apply offset_gap.
Qed.

(** ** Quotients *)

Lemma try_divide_spec mode num den asset : st_canonical num -> st_canonical den -> nonzero den ->
  match try_divide mode num den asset with
  | ROk r => canonical_of asset r
  | RErr e => e = ArithmeticOverflow \/ e = range_error asset
  | RFuel => False
  end.
Proof.
  intros Hnum Hden Hd. unfold try_divide. rewrite (signum_nonzero den Hd).
  assert (forall v e neg, 0 <= v <= u64_max -> -150000 <= e <= 100000 ->
    match try_new_with_asset mode asset v e neg with
    | ROk r => canonical_of asset r | RErr k => k = ArithmeticOverflow \/ k = range_error asset | RFuel => False end) as Hnew.
  { intros v e neg Hv He. pose proof (canonicalize_rounds mode (mkST asset v e neg) (conj Hv He)) as HR. unfold try_new_with_asset.
    destruct (try_canonicalize _ _) as [r|k|]; [|right; apply HR|done]. destruct HR as (? & ? & _). done. }
  destruct (Z.eq_dec (sa_value num) 0) as [E|E]; [rewrite signum_zero by done; apply Hnew; unfold u64_max; lia|].
  assert (nonzero num) as Hn by (unfold nonzero; pose proof (canonical_value_bound num Hnum); lia).
  rewrite (signum_nonzero num Hn).
  destruct (@scaled_spec AmountError num Hnum Hn) as (nv & no & -> & Hnv & _ & Hno & _).
  destruct (@scaled_spec AmountError den Hden Hd) as (dv & do_ & -> & Hdv & _ & Hdo & _). cbn [mbind result_bind].
  unfold muldiv, checked_u64. destruct ((0 <=? nv * TEN_TO_17 / dv) && _); cbn [map_err mbind result_bind]; [|auto].
  apply Hnew; [|lia]. unfold wrap_u64, u64_modulus, u64_max. pose proof (Z.mod_pos_bound (nv * TEN_TO_17 / dv + 5) 18446744073709551616). lia.
Qed.

Lemma get_rate_key mode offer_out offer_in : st_canonical offer_in -> st_canonical offer_out -> nonzero offer_out ->
  match divide mode offer_in offer_out no_issue with
  | ROk r => if sa_value r =? 0 then get_rate mode offer_out offer_in = 0
             else is_rate (absolute_amount r) /\ get_rate mode offer_out offer_in = key (absolute_amount r)
  | RErr _ => get_rate mode offer_out offer_in = 0
  | RFuel => False
  end.
Proof.
  intros Hin Hout Hn. pose proof (try_divide_spec mode offer_in offer_out no_issue Hin Hout Hn) as HR.
  unfold get_rate. rewrite (signum_nonzero _ Hn). unfold divide in *.
  destruct (try_divide _ _ _ _) as [r|e|]; cbn [map_err]; [|done|done]. destruct HR as [Hr Es].
  destruct (Z.eqb_spec (sa_value r) 0) as [E|E]; [by rewrite signum_zero|].
  assert (nonzero r) as Hrn by (unfold nonzero; pose proof (canonical_value_bound r Hr); lia). rewrite (signum_nonzero r Hrn).
  pose proof (canonical_offset r Hr) as Ho. rewrite (proj2 (Z.leb_le _ _)), (proj2 (Z.leb_le _ _)) by lia. cbn [andb negb].
  unfold absolute_amount, negate. rewrite (proj2 (Z.eqb_neq _ _)) by done. destruct (sa_negative r) eqn:Sr; [|split; [by split|done]].
  split; [|done]. split; [|by split]. split; [|done]. unfold st_canonical, no_negative_zero, integral, st_iou in *.
  cbn [sa_value sa_asset sa_negative sa_offset] in *. rewrite Es, Sr in *. destruct Hr as (? & ? & Hc). split_and!; [done|done|].
  cbn [asset_integral asset_native no_issue] in *. destruct Hc as [Ec|[Hm He]]; [injection Ec; unfold nonzero in Hrn; lia|].
  right. cbn [iou_mantissa iou_exponent negb] in *. by rewrite <- Z.abs_opp.
Qed.

(** ** Directed products and quotients return canonical amounts *)

(** What a result satisfies if it is one; running out of fuel is not an answer. *)
Definition returns {A} (P : A -> Prop) (r : result ExceptionKind A) : Prop :=
  match r with ROk x => P x | RErr _ => True | RFuel => False end.

Lemma returns_bind {A B} (P : A -> Prop) (Q : B -> Prop) (r : result ExceptionKind A) f :
  returns P r -> (forall x, P x -> returns Q (f x)) -> returns Q (x ← r; f x).
Proof. destruct r; cbn; auto. Qed.

Lemma returns_mono {A} (P Q : A -> Prop) (r : result ExceptionKind A) : (forall x, P x -> Q x) -> returns P r -> returns Q r.
Proof. destruct r; cbn; auto. Qed.

Lemma new_under_returns mode asset v e neg : 0 <= v <= u64_max -> -150000 <= e <= 100000 ->
  returns (canonical_of asset) (new_under mode asset v e neg).
Proof. intros Hv He. pose proof (new_under_spec mode asset v e neg Hv He). destruct (new_under _ _ _ _ _); cbn; [by destruct H|done|done]. Qed.

Definition in_range (p : Z * Z) : Prop := 0 <= fst p <= u64_max /\ -1000 <= snd p <= 1000.

Lemma shrink_value_range f v o : 0 <= v -> 0 <= fst (shrink_value f v o) <= v /\ o <= snd (shrink_value f v o) <= o + Z.of_nat f.
Proof.
  revert v o. induction f as [|f IH]; intros v o Hv; cbn [shrink_value fst snd]; [lia|].
  destruct (10 * ST_AMOUNT_MAX_VALUE <? v); cbn [fst snd]; [|lia].
  pose proof (Z.div_pos v 10 Hv ltac:(lia)). pose proof (Z.div_le_upper_bound v 10 v ltac:(lia) ltac:(lia)).
  specialize (IH (v / 10) (o + 1) ltac:(lia)). lia.
Qed.

Lemma wrap_u64_div v : 0 <= wrap_u64 v / 10 <= u64_max.
Proof.
  unfold wrap_u64, u64_modulus, u64_max. pose proof (Z.mod_pos_bound v 18446744073709551616 ltac:(lia)).
  split; [apply Z.div_pos; lia|]. apply Z.div_le_upper_bound; lia.
Qed.

Lemma round_issued_range v o : 0 <= v <= u64_max -> -900 <= o <= 900 -> in_range (round_issued v o).
Proof.
  intros Hv Ho. unfold round_issued. destruct (ST_AMOUNT_MAX_VALUE <? v); [|unfold in_range; cbn [fst snd]; lia].
  pose proof (shrink_value_range 20 v o ltac:(lia)) as Hs. destruct (shrink_value 20 v o) as [v' o']. cbn [fst snd] in Hs.
  split; cbn [fst snd]; [apply wrap_u64_div|lia].
Qed.

Lemma canonicalize_round_range native v o up : 0 <= v <= u64_max -> -900 <= o <= 900 ->
  in_range (canonicalize_round native v o up) /\ in_range (canonicalize_round_strict native v o up).
Proof.
  intros Hv Ho. unfold canonicalize_round, canonicalize_round_strict.
  destruct native; [|split; by apply round_issued_range]. destruct (o <? 0); [|unfold in_range; cbn [fst snd]; lia].
  destruct (drop_loop _ v false) as [v' rem]. split; (split; cbn [fst snd]; [apply wrap_u64_div|lia]).
Qed.

Lemma at_least_one_returns mode asset neg up b : canonical_of asset b -> returns (canonical_of asset) (at_least_one mode asset neg up b).
Proof.
  intros Hb. unfold at_least_one. destruct (up && negb neg && (st_signum b =? 0)); [|done].
  destruct (is_native_or_mpt_asset asset); apply new_under_returns; done.
Qed.

(** The end of both operations. *)
Lemma materialize_returns mode m asset neg up (p : Z * Z) : in_range p ->
  returns (canonical_of asset)
    (let '(amount, offset) := p in a ← new_under m asset amount offset neg; at_least_one mode asset neg up a).
Proof.
  intros [Hv Ho]. destruct p as [v o]. cbn [fst snd] in *. eapply returns_bind; [apply new_under_returns; lia|].
  intros x Hx. by apply at_least_one_returns.
Qed.

Lemma muldiv_round_returns v1 v2 d r : returns (fun x => 0 <= x <= u64_max) (map_err (fun _ => ExOverflow) (muldiv_round v1 v2 d r)).
Proof.
  unfold muldiv_round, checked_u64. destruct (_ && _) eqn:E; [|done]. apply andb_true_iff in E as [?%Z.leb_le ?%Z.leb_le]. cbn. lia.
Qed.

Lemma scaled_returns a : st_canonical a -> nonzero a ->
  returns (fun '(v, o) => 0 < v /\ -120 <= o <= 80) (@scaled ExceptionKind a).
Proof.
  intros Ha Hn. destruct (@scaled_spec ExceptionKind a Ha Hn) as (v & o & -> & Hv & _ & Ho & _). cbn.
  unfold ST_AMOUNT_MIN_VALUE in Hv. lia.
Qed.

Lemma canonical_nonzero a : st_canonical a -> (st_signum a =? 0) = false -> nonzero a.
Proof.
  intros Ha Hs. pose proof (canonical_value_bound a Ha). unfold nonzero. destruct (Z.eq_dec (sa_value a) 0) as [E|]; [|lia].
  by rewrite signum_zero in Hs.
Qed.

(** No token amount is involved. *)
Definition tokenless asset a b : Prop := is_mpt_asset asset = false /\ holds_mpt_issue a = false /\ holds_mpt_issue b = false.

Lemma div_round_returns mode scale np num den asset up strict : st_canonical num -> st_canonical den -> tokenless asset num den ->
  returns (canonical_of asset) (div_round_impl mode scale np num den asset up strict).
Proof.
  intros Hnum Hden (T1 & T2 & T3). unfold div_round_impl. destruct (st_signum den =? 0) eqn:Ed; [done|].
  destruct (st_signum num =? 0) eqn:En; [by apply new_under_returns|].
  rewrite T1, T2, T3. cbn [orb andb].
  eapply returns_bind; [apply scaled_returns; [done|by apply canonical_nonzero]|]. intros [nv no] [Hnv Hno].
  eapply returns_bind; [apply scaled_returns; [done|by apply canonical_nonzero]|]. intros [dv do_] [Hdv Hdo].
  eapply returns_bind; [apply muldiv_round_returns|]. intros amount Ha. cbn beta in Ha.
  apply materialize_returns. destruct (negb (Bool.eqb _ up)); [|split; cbn [fst snd]; lia].
  apply (canonicalize_round_range _ amount (no - do_ - 17) up); lia.
Qed.

Lemma mul_round_returns mode scale mp v1 v2 asset up f strict :
  (f = canonicalize_round \/ f = canonicalize_round_strict) -> st_canonical v1 -> st_canonical v2 -> tokenless asset v1 v2 ->
  returns (canonical_of asset) (mul_round_impl mode scale mp v1 v2 asset up f strict).
Proof.
  intros Hf Hv1 Hv2 (T1 & T2 & T3). unfold mul_round_impl.
  destruct (st_signum v1 =? 0) eqn:E1, (st_signum v2 =? 0) eqn:E2; cbn [orb]; try (by apply new_under_returns).
  destruct (sa_native v1 && sa_native v2 && asset_native asset).
  - eapply (returns_bind (fun _ => True)); [unfold signed_value; by destruct (_ <? _)|]. intros x _.
    eapply (returns_bind (fun _ => True)); [unfold signed_value; by destruct (_ <? _)|]. intros y _.
    destruct (guarded_factors _ _ x y) as [[mn mx]|]; [|done]. pose proof (wrap_i64_range (mn * mx)).
    apply new_under_returns; unfold u64_max; lia.
  - rewrite T1, T2, T3. cbn [orb andb].
    eapply returns_bind; [apply scaled_returns; [done|by apply canonical_nonzero]|]. intros [x1 o1] [Hx1 Ho1].
    eapply returns_bind; [apply scaled_returns; [done|by apply canonical_nonzero]|]. intros [x2 o2] [Hx2 Ho2].
    eapply returns_bind; [apply muldiv_round_returns|]. intros amount Ha. cbn beta in Ha.
    apply materialize_returns. destruct (negb (Bool.eqb _ up)); [|split; cbn [fst snd]; lia].
    destruct (canonicalize_round_range (asset_native asset) amount (o1 + o2 + 14) up ltac:(lia) ltac:(lia)). by destruct Hf as [->| ->].
Qed.

Lemma quality_rate_returns mode q : 0 <= quality_value q <= u64_max -> returns (canonical_of no_issue) (quality_rate mode q).
Proof.
  intros Hq. unfold quality_rate, amount_from_quality. destruct (quality_value q =? 0); [by apply new_under_returns|].
  change (not_u64 (Z.shiftl 255 56)) with (Z.ones 56). unfold u64_max in *.
  rewrite Z.land_ones, Z.shiftr_div_pow2 by lia. pose proof (Z.mod_pos_bound (quality_value q) (2 ^ 56) ltac:(lia)).
  pose proof (Z.div_pos (quality_value q) (2 ^ 56) ltac:(lia) ltac:(lia)).
  pose proof (Z.div_lt_upper_bound (quality_value q) (2 ^ 56) 256 ltac:(lia) ltac:(lia)). apply new_under_returns; unfold u64_max; lia.
Qed.

(** ** The greatest amount below a value *)

Definition positive a : Prop := nonzero a /\ sa_negative a = false.

Lemma positive_value a : positive a -> (st_value a == st_mag a)%Q.
Proof. intros [_ E]. unfold st_value, number_value. cbn [np_negative st_number]. rewrite E. reflexivity. Qed.

Lemma positive_pos a : positive a -> (0 < st_value a)%Q.
Proof. intros Hp. rewrite (positive_value a Hp). apply st_mag_pos, Hp. Qed.

(** [c] is the greatest amount of [asset] not above [v]; only the least positive issued
    amount may stand for a value that falls short of it, by less than a tenth. *)
Record greatest asset (v : Q) (c : STAmount) : Prop := {
  gr_canonical : canonical_of asset c;
  gr_below : (st_value c <= v)%Q
    \/ (asset_integral asset = false /\ st_value c == iou_smallest /\ 9 * iou_smallest < 10 * v)%Q;
  gr_greatest : forall c', canonical_of asset c' -> (st_value c' <= v)%Q -> (st_value c' <= st_value c)%Q }.

#[global] Instance greatest_proper asset : Proper (Qeq ==> eq ==> iff) (greatest asset).
Proof.
  intros v v' E c _ <-. split; intros [H1 H2 H3]; split; try done.
  - by rewrite <- E.
  - intros c' Hc'. rewrite <- E. by apply H3.
  - by rewrite E.
  - intros c' Hc'. rewrite E. by apply H3.
Qed.

(** Downwards and towards zero are the same for a value that is not negative. *)
Definition down mode : Prop := mode = Downward \/ mode = TowardsZero.

Lemma rounds_int_down mode v k : down mode -> (0 <= v)%Q -> rounds_int mode v k -> (inject_Z k <= v /\ v < inject_Z k + 1)%Q.
Proof. intros [->| ->] Hv Hr; [done|]. by apply Hr. Qed.

Lemma rounds_in_down mode repr v z : down mode -> (0 <= v)%Q -> rounds_in repr mode v z ->
  (number_value z <= v)%Q /\ forall w, repr w -> (number_value w <= v)%Q -> (number_value w <= number_value z)%Q.
Proof.
  intros [->| ->] Hv [_ Hr]; [done|]. destruct Hr as (Ha & Hp & _ & Hm). specialize (Hp Hv).
  rewrite !Qabs_pos in Ha by done. split; [done|]. intros w Hw Hwv.
  destruct (Qlt_le_dec (number_value w) 0) as [|Hw0]; [lra|]. specialize (Hm w Hw). rewrite !Qabs_pos in Hm by done. auto.
Qed.

Section Floor.
Context (asset : Asset) (N D e : Z).
Context (HD : 0 < D) (Hfloor : 10 ^ 16 <= N / D <= NUMBER_MAX_REP) (He : -150000 <= e <= 100000).
#[local] Notation x := (inject_Z (N / D) * q10 e)%Q.

Lemma floor_below : (0 <= x)%Q /\ (x <= qv N D e)%Q.
Proof using HD Hfloor.
  split.
  - apply Qmult_le_0_compat; [|apply Qlt_le_weak, q10_pos]. change 0%Q with (inject_Z 0). rewrite <- Zle_Qle. lia.
  - apply int_le_qv; [done|]. rewrite Z.mul_comm. by apply Z.mul_div_le.
Qed.

(** An issued amount has too few digits to lie between the floor and the value. *)
Lemma issued_below_floor c : canonical_of asset c -> asset_integral asset = false ->
  (st_value c <= qv N D e)%Q -> (st_value c <= x)%Q.
Proof using HD Hfloor.
  intros [Hc Es] Hi Hv. destruct floor_below as [Hx _]. destruct (Qlt_le_dec 0 (st_value c)) as [Hp|]; [|lra].
  rewrite st_value_int in *. set (m := if sa_negative c then _ else _) in *. set (f := sa_offset c) in *.
  assert (0 < m) as Hm.
  { apply (q10_mult_lt 0 m f). by rewrite Qmult_0_l. }
  assert (m < 10 ^ 16) as Hm'.
  { assert (integral c = false) as Hci by (unfold integral; by rewrite Es).
    assert (nonzero c) as Hn by (unfold nonzero, m in *; destruct (sa_negative c); destruct Hc; lia).
    destruct (canonical_mantissa c Hc Hci Hn) as [Hb Eb]. rewrite Eb in Hb. unfold m. amounts. destruct (sa_negative c); lia. }
  destruct (Z.le_gt_cases e f) as [Hf|Hf].
  - rewrite (q10_unit m e f Hf) in *. apply int_le_qv in Hv; [|done]. apply q10_mult_le.
    apply Z.div_le_lower_bound; lia.
  - rewrite (q10_unit (N / D) f e) by lia. apply q10_mult_le.
    pose proof (Z.pow_le_mono_r 10 1 (e - f) ltac:(lia) ltac:(lia)). nia.
Qed.

Lemma tiny_below_one : e <= -20 -> (qv N D e < 1)%Q.
Proof using HD Hfloor.
  intros Hs. apply Qlt_le_trans with (inject_Z (10 ^ 19) * q10 e)%Q; [apply qv_lt_floor; [done|numbers; lia]|].
  change 1%Q with (inject_Z 1 * q10 0)%Q. rewrite (q10_unit 1 e 0) by lia. apply q10_mult_le.
  pose proof (Z.pow_le_mono_r 10 19 (0 - e) ltac:(lia) ltac:(lia)). lia.
Qed.

(** So does an integer of at most [10^17]. *)
Lemma integer_below_floor k k' : -20 < e -> (x < inject_Z k + 1)%Q -> k' <= 10 ^ 17 ->
  (inject_Z k' <= qv N D e)%Q -> k' <= k.
Proof using HD Hfloor.
  intros Hs Hk Hk' Hv. change (inject_Z k + 1)%Q with (inject_Z k + inject_Z 1)%Q in Hk. rewrite <- inject_Z_plus in Hk.
  destruct (Z.le_gt_cases e 0) as [He0|He0].
  - rewrite <- (Qmult_1_r (inject_Z k')) in Hv. change 1%Q with (q10 0) in Hv. rewrite (q10_unit k' e 0 He0) in Hv.
    apply int_le_qv in Hv; [|done]. assert (k' * 10 ^ (0 - e) <= N / D) as Hd by (apply Z.div_le_lower_bound; lia).
    rewrite <- (Qmult_1_r (inject_Z (k + 1))) in Hk. change 1%Q with (q10 0) in Hk.
    rewrite (q10_unit (k + 1) e 0 He0), q10_mult_lt in Hk.
    pose proof (Z.pow_pos_nonneg 10 (0 - e) ltac:(lia) ltac:(lia)). nia.
  - rewrite (q10_unit (N / D) 0 e), Z.sub_0_r in Hk by lia. change (q10 0) with 1%Q in Hk. rewrite Qmult_1_r, <- Zlt_Qlt in Hk.
    pose proof (Z.pow_le_mono_r 10 1 e ltac:(lia) ltac:(lia)). nia.
Qed.

Lemma floor_greatest mode b : down mode -> is_mpt_asset asset = false ->
  canonical_rounding mode (mkST asset (N / D) e false) (ROk b) -> greatest asset (qv N D e) b.
Proof using HD Hfloor He.
  intros Hdown Hmpt (Hb & Es & HR). destruct floor_below as [Hx0 Hx]. set (y := mkST asset (N / D) e false) in *.
  assert (materialized y == x)%Q as Em by (rewrite materialized_exact by (cbn; lia); reflexivity).
  change (integral y) with (asset_integral asset) in HR. destruct (asset_integral asset) eqn:Hi.
  - assert (forall c', canonical_of asset c' -> exists k', (st_value c' == inject_Z k')%Q /\ k' <= 10 ^ 17) as Hint.
    { intros c' [Hc' Es']. assert (integral c' = true) as Hi' by (unfold integral; by rewrite Es').
      destruct (integral_value c' Hc' Hi') as [Hv Hl]. exists (integer_of c'). split; [done|]. rewrite Es' in Hl.
      unfold integral_limit in Hl. destruct asset; [|done]. cbn [asset_integral] in Hi. rewrite Hi in Hl. amounts. lia. }
    change (sa_offset y) with e in HR. destruct (Z.leb_spec e (-20)) as [Hs|Hs].
    + split; [by split| |].
      * left. rewrite HR. lra.
      * intros c' Hc' Hv. destruct (Hint c' Hc') as (k' & Ek & _). pose proof (tiny_below_one Hs). rewrite Ek, HR in *.
        change 0%Q with (inject_Z 0). rewrite <- Zle_Qle. assert (inject_Z k' < inject_Z 1)%Q as Hk by (change (inject_Z 1) with 1%Q; lra).
        rewrite <- Zlt_Qlt in Hk. lia.
    + destruct HR as (k & Hk & Ek). rewrite Em in Hk. apply rounds_int_down in Hk as [H1 H2]; [|done|done].
      split; [by split| |].
      * left. rewrite Ek. lra.
      * intros c' Hc' Hv. destruct (Hint c' Hc') as (k' & Ek' & Hl). rewrite Ek, Ek' in *. rewrite <- Zle_Qle.
        by apply integer_below_floor.
  - rewrite Em in HR. destruct HR as (Hc & Hbig & Hsmall). rewrite st_iou_value, (Qabs_pos _ Hx0) in *.
    assert (forall c', canonical_of asset c' -> canonical (st_iou c')) as Hcan.
    { intros c' [(_ & _ & H) Es']. unfold integral in H. by rewrite Es', Hi in H. }
    destruct (Qlt_le_dec x iou_smallest) as [Hs|Hs].
    + destruct (Hsmall Hs) as [Eb|(Ha & H9 & Hsign)].
      * assert (st_value b == 0)%Q as Hb0 by (rewrite <- st_iou_value, Eb; apply iou_value_new).
        split; [by split| |].
        -- left. rewrite Hb0. lra.
        -- intros c' Hc' Hv. pose proof (issued_below_floor c' Hc' Hi Hv). pose proof (canonical_cases _ (Hcan c' Hc')) as Hcc.
           rewrite st_iou_value in Hcc. rewrite Hb0. destruct Hcc as [->|Hcc]; [lra|].
           destruct (Qlt_le_dec 0 (st_value c')) as [Hp|]; [|done]. rewrite Qabs_pos in Hcc by lra. lra.
      * assert (0 < st_value b)%Q as Hp.
        { apply Qnot_le_lt. intros Hle. assert (st_value b * x <= 0)%Q by nra. lra. }
        rewrite Qabs_pos in Ha by lra. split; [by split| |].
        -- right. split_and!; [done|done|lra].
        -- intros c' Hc' Hv. pose proof (issued_below_floor c' Hc' Hi Hv). lra.
    + destruct (rounds_in_down mode _ _ _ Hdown Hx0 (Hbig Hs)) as [H1 H2].
      change (number_value (iou_number (st_iou b))) with (iou_value (st_iou b)) in *. rewrite st_iou_value in H1.
      split; [by split| |].
      * left. lra.
      * intros c' Hc' Hv. pose proof (issued_below_floor c' Hc' Hi Hv) as Hle.
        specialize (H2 (iou_number (st_iou c')) (ex_intro _ _ (conj (Hcan c' Hc') eq_refl))).
        change (number_value (iou_number (st_iou c'))) with (iou_value (st_iou c')) in H2.
        rewrite !st_iou_value in H2. auto.
Qed.

(** Materializing the floor returns unless the value is above the largest amount. *)
Lemma floor_materializes mode : down mode -> is_mpt_asset asset = false -> (qv N D e <= asset_limit asset)%Q ->
  exists b, new_under mode asset (N / D) e false = ROk b /\ greatest asset (qv N D e) b.
Proof using HD Hfloor He.
  intros Hdown Hmpt Hlim. destruct floor_below as [Hx0 Hx].
  assert (0 <= N / D <= u64_max) as Hv by (change (10 ^ 16) with 10000000000000000 in Hfloor; numbers; lia).
  pose proof (canonicalize_rounds mode (mkST asset (N / D) e false) (conj Hv He)) as HR.
  unfold new_under, try_new_with_asset. destruct (try_canonicalize _ _) as [b|k|]; cbn [map_err]; [|exfalso|done].
  - exists b. split; [done|]. by apply (floor_greatest mode).
  - destruct HR as [_ HR]. rewrite materialized_exact in HR by (cbn [sa_value]; lia). cbn [sa_asset] in HR.
    change (st_value (mkST asset (N / D) e false)) with x in HR. rewrite (Qabs_pos _ Hx0) in HR. lra.
Qed.
End Floor.

(** The largest mantissa whose products and quotients with a rate stay below [i64::MAX]. *)
Definition plain_numerator : Z := 92000000000000000.

Section Plain.
Context (mode : RoundingMode) (scale : MantissaScale) (flag : bool) (a rate : STAmount) (asset : Asset).
Context (Ha : st_canonical a) (Pa : positive a) (Hr : is_rate rate) (Hplain : sa_value a <= plain_numerator).
Context (Ta : holds_mpt_issue a = false) (Tasset : is_mpt_asset asset = false).

Lemma plain_operands {E} : exists v o w p,
  @scaled E a = ROk (v, o) /\ @scaled E rate = ROk (w, p)
  /\ 10 ^ 15 <= v <= plain_numerator /\ 10 ^ 15 <= w < 10 ^ 16 /\ -120 <= o <= 80 /\ -120 <= p <= 80
  /\ (st_value a == inject_Z v * q10 o)%Q /\ (st_value rate == inject_Z w * q10 p)%Q.
Proof using Ha Pa Hr Hplain.
  destruct (@scaled_spec E a Ha (proj1 Pa)) as (v & o & Ev & Hv & Hcase & Ho & Ea).
  destruct (@scaled_spec E rate (proj1 (proj1 Hr)) (proj1 (proj2 Hr))) as (w & p & Ew & Hw & Hcase' & Hp & Er).
  destruct (rate_bounds rate Hr) as [[Hm _] _]. exists v, o, w, p. unfold plain_numerator, ST_AMOUNT_MIN_VALUE in *.
  rewrite (positive_value a Pa), (positive_value rate (proj2 Hr)). split_and!; try (done || lia).
Qed.

Lemma rate_tokenless : tokenless asset a rate /\ sa_native rate = false.
Proof using Hr Ta Tasset.
  destruct Hr as ([_ Es] & _). unfold tokenless, holds_mpt_issue, sa_native in *. by rewrite Es.
Qed.

Lemma div_down_greatest : (st_value a <= asset_limit asset * st_value rate)%Q ->
  exists r, div_round_strict mode scale flag a rate asset false = ROk r
    /\ greatest asset (st_value a / st_value rate) r.
Proof using Ha Pa Hr Hplain Ta Tasset.
  intros Hlim. destruct (@plain_operands ExceptionKind) as (v & o & w & p & Ev & Ew & Hv & Hw & Ho & Hp & Ea & Er).
  destruct rate_tokenless as [(T1 & T2 & T3) _]. pose proof (positive_pos rate (proj2 Hr)) as Pr.
  assert (qv (v * TEN_TO_17) w (o - p - 17) == st_value a / st_value rate)%Q as Eq.
  { rewrite Ea, Er. unfold qv. rewrite inject_Z_mult. change (inject_Z TEN_TO_17) with (q10 17).
    assert (q10 o == q10 (o - p - 17) * q10 p * q10 17)%Q as ->.
    { rewrite <- !q10_plus. by replace (o - p - 17 + p + 17) with o by lia. }
    pose proof (q10_pos p). field. split; [lra|]. apply inject_Z_nonzero. lia. }
  assert (10 ^ 16 <= v * TEN_TO_17 / w <= NUMBER_MAX_REP) as Hq.
  { unfold TEN_TO_17, plain_numerator in *. split; [apply Z.div_le_lower_bound; lia|apply Z.div_le_upper_bound; numbers; lia]. }
  destruct (floor_materializes asset (v * TEN_TO_17) w (o - p - 17) ltac:(lia) Hq ltac:(lia) Downward) as (b & Eb & Hb).
  { by left. } { done. }
  { rewrite Eq. by apply Qle_shift_div_r. }
  exists b. rewrite Eq in Hb. split; [|done].
  unfold div_round_strict, div_round_impl.
  rewrite (signum_nonzero rate (proj1 (proj2 Hr))), (signum_nonzero a (proj1 Pa)), T1, T2, T3, (proj2 Pa), (proj2 (proj2 Hr)).
  cbn [orb andb Bool.eqb negb]. rewrite Ev, Ew. cbn [mbind result_bind]. unfold muldiv_round. rewrite Z.add_0_r.
  rewrite checked_u64_ok by (unfold u64_max; numbers; lia). cbn [map_err mbind result_bind round_mode xorb]. by rewrite Eb.
Qed.

Lemma mul_down_greatest : (st_value a * st_value rate <= asset_limit asset)%Q ->
  exists r, mul_round_strict mode scale flag a rate asset false = ROk r
    /\ greatest asset (st_value a * st_value rate) r.
Proof using Ha Pa Hr Hplain Ta Tasset.
  intros Hlim. destruct (@plain_operands ExceptionKind) as (v & o & w & p & Ev & Ew & Hv & Hw & Ho & Hp & Ea & Er).
  destruct rate_tokenless as [(T1 & T2 & T3) Nr].
  assert (qv (v * w) TEN_TO_14 (o + p + 14) == st_value a * st_value rate)%Q as Eq.
  { rewrite Ea, Er. unfold qv. rewrite inject_Z_mult, !q10_plus. change (inject_Z TEN_TO_14) with (q10 14).
    pose proof (q10_pos 14). field. lra. }
  assert (10 ^ 16 <= v * w / TEN_TO_14 <= NUMBER_MAX_REP) as Hq.
  { unfold TEN_TO_14, plain_numerator in *. change (10 ^ 15) with 1000000000000000 in *. change (10 ^ 16) with 10000000000000000 in *.
    split; [apply Z.div_le_lower_bound; nia|apply Z.div_le_upper_bound; numbers; nia]. }
  destruct (floor_materializes asset (v * w) TEN_TO_14 (o + p + 14) ltac:(done) Hq ltac:(lia) TowardsZero) as (b & Eb & Hb).
  { by right. } { done. } { by rewrite Eq. }
  exists b. rewrite Eq in Hb. split; [|done].
  unfold mul_round_strict, mul_round_impl.
  rewrite (signum_nonzero rate (proj1 (proj2 Hr))), (signum_nonzero a (proj1 Pa)), Nr, T1, T2, T3, (proj2 Pa), (proj2 (proj2 Hr)).
  rewrite andb_false_r. cbn [orb andb Bool.eqb negb]. rewrite Ev, Ew. cbn [mbind result_bind]. unfold muldiv_round. rewrite Z.add_0_r.
  rewrite checked_u64_ok by (unfold u64_max; numbers; lia). cbn [map_err mbind result_bind]. by rewrite Eb.
Qed.
End Plain.

(** ** Cutting an offer *)

Lemma not_greater a b : st_canonical a -> st_canonical b -> are_comparable a b = true ->
  if st_gtb a b then (st_value b < st_value a)%Q else (st_value a <= st_value b)%Q.
Proof.
  intros Ha Hb Hc. unfold st_gtb. rewrite cmp_amount_value by done.
  destruct (Qcompare_spec (st_value a) (st_value b)) as [E|E|E]; [rewrite E; apply Qle_refl|by apply Qlt_le_weak|done].
Qed.

Lemma same_asset_comparable a b : sa_asset a = sa_asset b -> are_comparable a b = true.
Proof.
  intros E. unfold are_comparable, sa_native. rewrite E. destruct (sa_asset b); rewrite ?eqb_reflx, ?Z.eqb_refl; done.
Qed.

(** The smaller of a computed amount and the one on offer. *)
Lemma clipped asset a b : canonical_of asset b -> st_canonical a -> sa_asset a = asset ->
  let c := if st_gtb b a then a else b in
  st_canonical c /\ (st_value c <= st_value a)%Q /\ (st_value c <= st_value b)%Q.
Proof.
  intros [Hb Eb] Ha Ea c. subst c. pose proof (not_greater b a Hb Ha (same_asset_comparable b a ltac:(congruence))) as H.
  destruct (st_gtb b a); (split_and!; [done|lra|lra]).
Qed.

(** What cutting [amount] to [limit] on one side keeps within bounds. *)
Definition within (amount cut : Amounts) : Prop :=
  (st_value (am_in cut) <= st_value (am_in amount))%Q /\ (st_value (am_out cut) <= st_value (am_out amount))%Q.

Record offer_ok (amount : Amounts) : Prop := {
  ok_in : st_canonical (am_in amount);
  ok_out : st_canonical (am_out amount);
  ok_in_token : holds_mpt_issue (am_in amount) = false;
  ok_out_token : holds_mpt_issue (am_out amount) = false }.

Definition limit_ok (limit against : STAmount) : Prop :=
  st_canonical limit /\ holds_mpt_issue limit = false /\ are_comparable against limit = true.

Lemma ceil_in_bounds mode scale np strict amount limit up rate :
  offer_ok amount -> limit_ok limit (am_in amount) -> is_rate rate ->
  returns (fun cut => within amount cut /\ (st_value (am_in cut) <= st_value limit)%Q)
    (ceil_in_impl mode amount limit up (mkQuality (key rate)) (fun n d s u => div_round_impl mode scale np n d s u strict)).
Proof.
  intros [Hi Ho Ti To] (Hl & Tl & Hc) Hr. pose proof (not_greater (am_in amount) limit Hi Hl Hc) as Hcut. unfold ceil_in_impl.
  destruct (st_gtb (am_in amount) limit); [|by split; [split; apply Qle_refl|]].
  unfold quality_rate. cbn [quality_value]. rewrite key_decodes by done. cbn [mbind result_bind].
  eapply returns_bind.
  { apply (div_round_returns mode scale np limit rate (sa_asset (am_out amount)) up strict); [done|apply Hr|].
    split_and!; [done|done|]. destruct Hr as ([_ Es] & _). unfold holds_mpt_issue. by rewrite Es. }
  intros out Hout. cbn [returns]. unfold within. cbn [am_in am_out].
  destruct (clipped _ (am_out amount) out Hout Ho eq_refl) as (_ & H1 & _). split; [split; [lra|done]|apply Qle_refl].
Qed.

Lemma ceil_out_bounds mode scale mp cl f strict amount limit up rate :
  (f = canonicalize_round \/ f = canonicalize_round_strict) ->
  offer_ok amount -> limit_ok limit (am_out amount) -> is_rate rate ->
  returns (fun cut => within amount cut /\ (st_value (am_out cut) <= st_value limit)%Q)
    (ceil_out_impl mode cl amount limit up (mkQuality (key rate)) (fun n d s u => mul_round_impl mode scale mp n d s u f strict)).
Proof.
  intros Hf [Hi Ho Ti To] (Hl & Tl & Hc) Hr. pose proof (not_greater (am_out amount) limit Ho Hl Hc) as Hcut. unfold ceil_out_impl.
  destruct (st_gtb (am_out amount) limit); [|by split; [split; apply Qle_refl|]].
  unfold quality_rate. cbn [quality_value]. rewrite key_decodes by done. cbn [mbind result_bind].
  set (asset := sa_asset (am_in amount)).
  assert (returns (canonical_of asset) (mul_round_impl mode scale mp limit rate asset up f strict)) as Hm.
  { apply mul_round_returns; [done|done|apply Hr|]. split_and!; [done|done|]. destruct Hr as ([_ Es] & _). unfold holds_mpt_issue. by rewrite Es. }
  apply (returns_bind (fun o => forall i, o = Some i -> canonical_of asset i)).
  { unfold try_mul_round. destruct (mul_round_impl _ _ _ _ _ _ _ _ _) as [i|k|]; cbn in *; [|by destruct (_ || _)|done].
    by intros j [= <-]. }
  intros o Hoi. unfold within. cbn [returns am_in am_out].
  assert (canonical_of asset (from_option id (am_in amount) o)) as Hcan by (destruct o as [i|]; cbn; [by apply Hoi|by split]).
  destruct (clipped asset (am_in amount) _ Hcan Hi eq_refl) as (_ & H1 & _). split; [split; [done|lra]|apply Qle_refl].
Qed.

(** Clipped to what is on offer: the greatest amount within both bounds. *)
Record best_cut (on_offer : STAmount) (v : Q) (c : STAmount) : Prop := {
  bc_canonical : canonical_of (sa_asset on_offer) c;
  bc_offer : (st_value c <= st_value on_offer)%Q;
  bc_value : (st_value c <= v)%Q
    \/ (integral on_offer = false /\ st_value c == iou_smallest /\ 9 * iou_smallest < 10 * v)%Q;
  bc_best : forall c', canonical_of (sa_asset on_offer) c' -> (st_value c' <= st_value on_offer)%Q ->
    (st_value c' <= v)%Q -> (st_value c' <= st_value c)%Q }.

Lemma clip_best a v out : st_canonical a -> positive a -> greatest (sa_asset a) v out ->
  best_cut a v (if st_gtb out a then a else out).
Proof.
  intros Ha Hp [[Ho Es] Hv Hg]. pose proof (not_greater out a Ho Ha (same_asset_comparable out a Es)) as Hgt.
  destruct (st_gtb out a); [|split; auto; by split]. split.
  - done.
  - apply Qle_refl.
  - left. destruct Hv as [|(Hi & Hs & _)]; [lra|exfalso].
    pose proof Ha as (_ & _ & Ca). change (asset_integral (sa_asset a)) with (integral a) in Hi. rewrite Hi in Ca.
    pose proof (positive_pos a Hp) as Hpos. pose proof (canonical_cases _ Ca) as Hcc.
    rewrite st_iou_value in Hcc. rewrite Qabs_pos in Hcc by lra. lra.
  - done.
Qed.
