(* ===== verification/AmountTheorems.v ===== *)
(** * Serialized amounts: the theorems

    Canonical form, wire form, order and sums of [STAmount], at the default scale of a
    thread where a sum goes through [Number]. *)

From Stdlib Require Import QArith Qabs Lqa.
From S2P Require Import Prelude Number NumberRound NumberSpec NumberSum IouAmount IouRounding StAmount.
From S2P Require Import Serializer StAmount AmountFacts.

Implicit Types (mode : RoundingMode) (a b : STAmount).


(** C10: a canonical amount whose asset has valid identifiers is read back from its wire form,
    native, issued or token, wherever in a buffer it stands and whatever follows it:
    same value, sign, exponent and asset, and the reader stands behind it. *)
Theorem amount_wire_roundtrip mode a :
  st_canonical a -> asset_ok (sa_asset a) ->
  forall s, exists w, st_add a s = Ok (s ++ w)
    /\ forall rest, from_serial_iter mode (at_pos s (w ++ rest)) = Ok (a, at_pos (s ++ w) rest).
Proof. apply canonical_reads_back. Qed.

(** C25: on canonical amounts of one currency or token the order compares the exact values,
    and equality holds exactly between equal values, whoever the issuers are. *)
Theorem amount_order_is_value_order a b :
  st_canonical a -> st_canonical b -> are_comparable a b = true ->
  cmp_amount a b = (st_value a ?= st_value b)%Q
  /\ (st_eq a b = true <-> (st_value a == st_value b)%Q).
Proof.
  intros Ha Hb Hc. split; [by apply cmp_amount_value|]. by apply st_eq_value.
Qed.


(** Multiplying or dividing an issued amount by an integer uses the low 32 bits of its
    magnitude only: past [u32::MAX] the factor is silently reduced, keeping its sign, and a
    divisor that is a multiple of 2^32 is a division by zero, which throws. *)
Theorem issued_factor_truncated mode scale (i : IOUAmount) (factor : Z) :
  let low := Z.sgn factor * (Z.abs factor mod 2 ^ 32) in
  low <> 0 ->
  iou_mul mode scale i factor = iou_mul mode scale i low
  /\ iou_div mode scale i factor = iou_div mode scale i low
  /\ iou_div mode scale i (2 ^ 32) = Panic.
Proof.
  intros low Hl. pose proof (Z.mod_pos_bound (Z.abs factor) (2 ^ 32) ltac:(lia)) as Hm.
  assert (Z.abs low = Z.abs factor mod 2 ^ 32 /\ (factor <? 0) = (low <? 0)) as [Ea Es].
  { unfold low in *. destruct (Z.ltb_spec factor 0); [rewrite (Z.sgn_neg factor) in * by lia|rewrite (Z.sgn_pos factor) in * by lia];
      (split; [lia|symmetry]); [apply Z.ltb_lt; lia|apply Z.ltb_ge; lia]. }
  assert (wrap_u32 (Z.abs factor) = wrap_u32 (Z.abs low)) as E.
  { rewrite Ea. unfold wrap_u32, u32_modulus. change 4294967296 with (2 ^ 32). by rewrite Z.mod_mod by lia. }
  unfold iou_mul, iou_div. by rewrite E, Es.
Qed.

Module AmountDemo.

Definition usd : Asset := AIssue 0x5553440000000000 77.
Definition one_usd : STAmount := mkST usd 1000000000000000 (-15) false.
Definition third_usd : STAmount := mkST usd 3333333333333333 (-16) true.
Definition one_iou : IOUAmount := mkIOU 1000000000000000 (-15).

Lemma one_usd_canonical : st_canonical one_usd /\ asset_ok usd /\ st_canonical third_usd.
Proof. split_and!; [|done|]; (split_and!; [done|done|by right]). Qed.


Lemma amount_wire_roundtrip_witness :
  exists w, st_add one_usd [7] = Ok ([7] ++ w)
    /\ forall rest, from_serial_iter ToNearest (at_pos [7] (w ++ rest)) = Ok (one_usd, at_pos ([7] ++ w) rest).
Proof. apply (amount_wire_roundtrip ToNearest one_usd); apply one_usd_canonical. Defined.

Lemma amount_order_is_value_order_witness :
  cmp_amount third_usd one_usd = Lt /\ cmp_amount third_usd one_usd = (st_value third_usd ?= st_value one_usd)%Q.
Proof. split; [reflexivity|]. apply (amount_order_is_value_order third_usd one_usd); [apply one_usd_canonical|apply one_usd_canonical|done]. Defined.


Lemma issued_factor_truncated_witness :
  iou_mul ToNearest Large330 one_iou (2 ^ 32 + 3) = Ok (mkIOU 3000000000000000 (-15))
  /\ iou_mul ToNearest Large330 one_iou (2 ^ 32 + 3) = iou_mul ToNearest Large330 one_iou 3.
Proof. split; [vm_compute; reflexivity|]. apply (issued_factor_truncated ToNearest Large330 one_iou (2 ^ 32 + 3)). done. Defined.

(** Without fixCleanup3_5_0 the sum of the largest token amount and one wraps. *)
Example token_sum_wraps :
  st_plus ToNearest Large330 false (mkST (AMPTIssue 5) NUMBER_MAX_REP 0 false) (mkST (AMPTIssue 5) 1 0 false)
  = Ok (mkST (AMPTIssue 5) 9223372036854775800 0 true).
Proof. by vm_compute. Qed.

End AmountDemo.
