(* ===== verification/QualityTheorems.v ===== *)
(** * Offer rates: the theorems

    The key of an offer decodes to its rate and sorts like it; a cut offer never
    exceeds the offer or the limit, and an offer cut strictly and rounded down is the best
    one its rate allows. The amounts are native or issued ones. *)

From Stdlib Require Import QArith Qabs Lqa.
From S2P Require Import Prelude Number NumberRound NumberSpec IouAmount IouRounding StAmount.
From S2P Require Import StAmount AmountFacts Quality QualityFacts.

Implicit Types (mode : RoundingMode) (amount cut : Amounts) (limit rate : STAmount).

(** C11: the key of an offer keeps its rate: it decodes, in any mode, to the exact amount the
    division of the offer gave, and of two offers the better one is the one with the
    smaller rate. *)
Theorem quality_keys_sort_rates mode mode' amount amount' r r' :
  offer_ok amount -> offer_ok amount' -> nonzero (am_out amount) -> nonzero (am_out amount') ->
  divide mode (am_in amount) (am_out amount) no_issue = ROk r ->
  divide mode (am_in amount') (am_out amount') no_issue = ROk r' ->
  nonzero r -> nonzero r' ->
  quality_rate mode' (from_amounts mode amount) = ROk (absolute_amount r)
  /\ quality_cmp (from_amounts mode amount) (from_amounts mode amount')
     = (st_value (absolute_amount r') ?= st_value (absolute_amount r))%Q.
Proof.
  intros Ha Ha' Ho Ho' E E' Hr Hr'.
  pose proof (get_rate_key mode (am_out amount) (am_in amount) (ok_in _ Ha) (ok_out _ Ha) Ho) as HK.
  pose proof (get_rate_key mode (am_out amount') (am_in amount') (ok_in _ Ha') (ok_out _ Ha') Ho') as HK'.
  rewrite E in HK. rewrite E' in HK'. unfold nonzero in Hr, Hr'.
  rewrite (proj2 (Z.eqb_neq _ _)) in HK by lia. rewrite (proj2 (Z.eqb_neq _ _)) in HK' by lia. destruct HK as [Hk K], HK' as [Hk' K'].
  unfold quality_rate, quality_cmp, from_amounts. cbn [quality_value]. rewrite K, K'.
  split; [by apply key_decodes|by apply key_order].
Qed.

(** Cutting an offer of native or issued amounts to a limit, on either side and with any
    rounding, keeps both sides within the offer and the cut side within the limit. *)
Theorem cut_offer_within_bounds mode scale np mp cl amount limit limit' rate (up : bool) :
  offer_ok amount -> limit_ok limit (am_in amount) -> limit_ok limit' (am_out amount) -> is_rate rate ->
  let q := mkQuality (key rate) in
  let in_bounds cut := within amount cut /\ (st_value (am_in cut) <= st_value limit)%Q in
  let out_bounds cut := within amount cut /\ (st_value (am_out cut) <= st_value limit')%Q in
  returns in_bounds (ceil_in mode scale np q amount limit)
  /\ returns in_bounds (ceil_in_strict mode scale np q amount limit up)
  /\ returns out_bounds (ceil_out mode scale mp cl q amount limit')
  /\ returns out_bounds (ceil_out_strict mode scale mp cl q amount limit' up).
Proof.
  intros Ha Hl Hl' Hr q in_bounds out_bounds. split_and!.
  - by apply (ceil_in_bounds mode scale np false).
  - by apply (ceil_in_bounds mode scale np true).
  - apply (ceil_out_bounds mode scale mp cl canonicalize_round false); auto.
  - apply (ceil_out_bounds mode scale mp cl canonicalize_round_strict true); auto.
Qed.

(** C26: an offer of native or issued amounts cut strictly to an output limit and rounded
    down. An offer within the limit is returned as it is. Otherwise the cut gives out the
    limit and takes in the greatest amount that is neither more than the offer asks for
    nor more than the limit is worth at the offer's rate, exactly: the product is rounded
    down once, whatever the mode and the scale of the thread; only the least positive
    issued amount may stand for a product short of it by less than a tenth. The limit is
    positive with a mantissa of at most 9.2e16, and its worth does not exceed the largest
    amount of the asset. *)
Theorem strict_output_cut_is_best mode scale mp cl amount limit rate :
  offer_ok amount -> limit_ok limit (am_out amount) -> is_rate rate ->
  positive limit -> positive (am_in amount) -> sa_value limit <= plain_numerator ->
  (st_value limit * st_value rate <= asset_limit (sa_asset (am_in amount)))%Q ->
  let cut := ceil_out_strict mode scale mp cl (mkQuality (key rate)) amount limit false in
  ((st_value (am_out amount) <= st_value limit)%Q -> cut = ROk amount)
  /\ ((st_value limit < st_value (am_out amount))%Q ->
      exists i, cut = ROk (mkAmounts i limit) /\ best_cut (am_in amount) (st_value limit * st_value rate) i).
Proof.
  intros [Hi Ho Ti To] (Hl & Tl & Hc) Hr Pl Pi Hplain Hlim cut. subst cut.
  pose proof (not_greater (am_out amount) limit Ho Hl Hc) as Hcut. unfold ceil_out_strict, ceil_out_impl.
  split; intros Hlt; destruct (st_gtb (am_out amount) limit); try (exfalso; lra); [done|].
  unfold quality_rate. cbn [quality_value]. rewrite key_decodes by done. cbn [mbind result_bind].
  destruct (mul_down_greatest mode scale mp limit rate (sa_asset (am_in amount))) as (r & Er & Hg); [done..|].
  unfold try_mul_round. rewrite Er. cbn [mbind result_bind from_option id]. eexists. split; [done|].
  by apply clip_best.
Qed.

(** C27: an offer of native or issued amounts cut strictly to an input limit and rounded
    down. An offer within the limit is returned as it is. Otherwise the cut takes in the
    limit and gives out the greatest amount that is neither more than the offer holds nor
    more than the limit buys at the offer's rate, exactly: the quotient is rounded down
    once, whatever the mode and the scale of the thread; only the least positive issued
    amount may stand for a quotient short of it by less than a tenth. The limit is positive
    with a mantissa of at most 9.2e16, and what it buys does not exceed the largest amount
    of the asset. *)
Theorem strict_input_cut_is_best mode scale np amount limit rate :
  offer_ok amount -> limit_ok limit (am_in amount) -> is_rate rate ->
  positive limit -> positive (am_out amount) -> sa_value limit <= plain_numerator ->
  (st_value limit <= asset_limit (sa_asset (am_out amount)) * st_value rate)%Q ->
  let cut := ceil_in_strict mode scale np (mkQuality (key rate)) amount limit false in
  ((st_value (am_in amount) <= st_value limit)%Q -> cut = ROk amount)
  /\ ((st_value limit < st_value (am_in amount))%Q ->
      exists o, cut = ROk (mkAmounts limit o) /\ best_cut (am_out amount) (st_value limit / st_value rate) o).
Proof.
  intros [Hi Ho Ti To] (Hl & Tl & Hc) Hr Pl Po Hplain Hlim cut. subst cut.
  pose proof (not_greater (am_in amount) limit Hi Hl Hc) as Hcut. unfold ceil_in_strict, ceil_in_impl.
  split; intros Hlt; destruct (st_gtb (am_in amount) limit); try (exfalso; lra); [done|].
  unfold quality_rate. cbn [quality_value]. rewrite key_decodes by done. cbn [mbind result_bind].
  destruct (div_down_greatest mode scale np limit rate (sa_asset (am_out amount))) as (r & Er & Hg); [done..|].
  rewrite Er. cbn [mbind result_bind]. eexists. split; [done|]. by apply clip_best.
Qed.

(** With a token on one side the quotient goes through [Number], and for an issued output
    [to_amount_from_number] rounds in the mode of the thread: rounded down, two tokens at a
    rate of three buy more than two thirds. *)
Theorem token_cut_exceeds_rate :
  let rate := mkST no_issue 3000000000000000 (-15) false in
  let offer := mkAmounts (mkST (AMPTIssue 5) 3 0 false) (mkST (AIssue 0x5553440000000000 77) 1000000000000000 (-15) false) in
  exists cut, ceil_in_strict ToNearest Large330 true (mkQuality (key rate)) offer (mkST (AMPTIssue 5) 2 0 false) false = ROk cut
    /\ (st_value (am_in cut) < st_value (am_out cut) * st_value rate)%Q.
Proof. eexists. split; vm_compute; reflexivity. Qed.

(** rounding a quotient up is not always up: digits beyond the seventeenth are dropped
    before the last one is rounded, so a quotient can come out below its exact value. *)
Theorem round_up_can_fall_short :
  exists num den r, st_canonical num /\ st_canonical den /\ positive num /\ positive den
    /\ div_round_strict ToNearest Large330 true num den (sa_asset num) true = ROk r
    /\ (st_value r * st_value den < st_value num)%Q.
Proof.
  exists (mkST no_issue 1100000000000010 (-15) false), (mkST no_issue 1010000000000000 (-15) false),
    (mkST no_issue 1089108910891099 (-15) false).
  split_and!; try (split_and!; [done|done|by right]); try done; vm_compute; reflexivity.
Qed.

Module QualityDemo.

Definition usd : Asset := AIssue 0x5553440000000000 77.
Definition five_usd : STAmount := mkST usd 5000000000000000 (-15) false.
Definition offer : Amounts := mkAmounts (new_native 10000000 false) five_usd.
Definition worse : Amounts := mkAmounts (new_native 12000000 false) five_usd.
Definition rate : STAmount := mkST no_issue 2000000000000000 (-9) false.
Definition rate' : STAmount := mkST no_issue 2400000000000000 (-9) false.
Definition limit : STAmount := new_native 3000001 false.
Definition two_usd : STAmount := mkST usd 2000000000000000 (-15) false.

Lemma five_usd_canonical : st_canonical five_usd /\ st_canonical two_usd.
Proof. split; (split_and!; [done|done|by right]). Qed.

Lemma offers_ok : offer_ok offer /\ offer_ok worse /\ limit_ok limit (am_in offer) /\ limit_ok two_usd (am_out offer).
Proof. split_and!; try (split; try done; apply five_usd_canonical); (split_and!; try done; apply five_usd_canonical). Qed.

Lemma rate_ok : is_rate rate.
Proof. split; [split; [split_and!; [done|done|by right]|done]|done]. Qed.

Lemma quality_keys_sort_rates_witness :
  quality_rate Upward (from_amounts ToNearest offer) = ROk rate
  /\ quality_cmp (from_amounts ToNearest offer) (from_amounts ToNearest worse) = (st_value rate' ?= st_value rate)%Q.
Proof.
  destruct offers_ok as (H1 & H2 & _).
  apply (quality_keys_sort_rates ToNearest Upward offer worse rate rate' H1 H2); try done; vm_compute; reflexivity.
Defined.

Lemma cut_offer_within_bounds_witness :
  ceil_in ToNearest Large330 true (mkQuality (key rate)) offer limit
    = ROk (mkAmounts limit (mkST usd 1500000500000000 (-15) false))
  /\ returns (fun cut => within offer cut /\ (st_value (am_in cut) <= st_value limit)%Q)
       (ceil_in ToNearest Large330 true (mkQuality (key rate)) offer limit).
Proof.
  split; [vm_compute; reflexivity|]. destruct offers_ok as (H1 & _ & H2 & H3).
  exact (proj1 (cut_offer_within_bounds ToNearest Large330 true false true offer limit two_usd rate false H1 H2 H3 rate_ok)).
Defined.

Lemma strict_output_cut_is_best_witness :
  ceil_out_strict ToNearest Large330 false true (mkQuality (key rate)) offer two_usd false
    = ROk (mkAmounts (new_native 4000000 false) two_usd)
  /\ exists i, ceil_out_strict ToNearest Large330 false true (mkQuality (key rate)) offer two_usd false = ROk (mkAmounts i two_usd)
       /\ best_cut (am_in offer) (st_value two_usd * st_value rate) i.
Proof.
  split; [vm_compute; reflexivity|]. destruct offers_ok as (H1 & _ & _ & H3).
  apply (strict_output_cut_is_best ToNearest Large330 false true offer two_usd rate H1 H3 rate_ok); vm_compute;
    first [reflexivity | discriminate | done | split; [reflexivity|done]].
Defined.

Lemma strict_input_cut_is_best_witness :
  ceil_in_strict Upward LargeLegacy true (mkQuality (key rate)) offer limit false
    = ROk (mkAmounts limit (mkST usd 1500000500000000 (-15) false))
  /\ exists o, ceil_in_strict Upward LargeLegacy true (mkQuality (key rate)) offer limit false = ROk (mkAmounts limit o)
       /\ best_cut (am_out offer) (st_value limit / st_value rate) o.
Proof.
  split; [vm_compute; reflexivity|]. destruct offers_ok as (H1 & _ & H2 & _).
  apply (strict_input_cut_is_best Upward LargeLegacy true offer limit rate H1 H2 rate_ok); vm_compute;
    first [reflexivity | discriminate | done | split; [reflexivity|done]].
Defined.

End QualityDemo.
